(* ===== verification/_CoqProject ===== *)
-Q . S2P
Prelude.v
Chan.v
ChanImpl.v
ChanFd.v
ChanBits.v
Convert.v
StrMap.v
Base64.v
BaseN.v
Json.v
Cbor.v
Lex.v
JsonParser.v
Ring.v
RangeSet.v
Expr.v
Strings.v
Pattern.v
Element.v
XmlParser.v
XmlRound.v
XPath.v
Expand.v
Gather.v
Hash.v
HashTable.v
OrdMap.v
Cache.v
Huffman.v
Merkle.v
Checksum.v
Md5.v
Bech32.v
Monitor.v
Sync.v
RWMutex.v
DataQueue.v
Pool.v
PropertyList.v
Path.v
Url.v
Stamp.v
StampText.v
Mime.v
Http.v
Address.v
Access.v
Cookies.v
Misc.v
WebSocket.v
RangeText.v
Db.v
ConnPool.v
Jwt.v
Socket.v
Tube.v
SyncRequest.v
