(* ===== verification/Prelude.v ===== *)
(** * ObTools: a verification library

    ObTools is a set of C++ libraries, each a directory of [src/libs].  This
    development models the libraries that carry their protocols, formats and
    data structures.  This file is the prelude; the others model one component
    each.

    ** The parts and how they interact

    - [Chan.v]: [libs/chan], [reader.cc] and [writer.cc].  The virtual methods
      of [Channel::Reader] and [Writer] are the operations of the classes
      [Reader] and [Writer]; every other method is a definition over them
      ([base_try_read], [read_nbo_32], [align] and so on, with the names of
      the code).  [ReaderLaws] and [WriterLaws] are the contract: what the
      virtual operations promise of the bytes still to come, or written.
    - [ChanImpl.v]: [string-chan.cc], [block-chan.cc] and [LimitedReader]; each
      is an instance of the contract.  [ChanFd.v]: [fd-chan.cc], over the system
      calls, which are a parameter with its laws.  [ChanBits.v]: [bits.cc], over
      any channel.
    - [Convert.v]: [libs/text], [convert.cc] and [utf8.cc]; [Base64.v], [BaseN.v]
      and [Bech32.v]: its binary encodings; [Strings.v]: white space, case,
      fields, CSV and substitution; [Pattern.v]: shell patterns.
    - [StrMap.v]: the maps and sets of strings of the C++ library that other
      components use; [OrdMap.v]: its maps over any ordered key.
    - [Json.v]: [libs/json/value.cc] and [ot-json.h]; [Cbor.v]: the CBOR reader and
      writer, clients of the channel contract; [Lex.v]: [libs/lex]; [JsonParser.v]:
      [libs/json/parser.cc], over [Lex.v].
    - [Element.v]: the trees of [libs/xml]; [XmlParser.v]: its parser;
      [XmlRound.v]: what the parser makes of what the writer writes; [XPath.v]:
      [xpath.cc]; [Expand.v]: [expand.cc].
    - [Expr.v]: [libs/expr].
    - [Gather.v]: [libs/gather], buffers over a heap of blocks, and their reader
      as an instance of the channel contract.
    - [Hash.v] and [HashTable.v]: [libs/hash].  [Cache.v]: [libs/cache].
      [Huffman.v]: [libs/huffman], over any bit reader.  [Merkle.v]: [libs/merkle].
    - [Checksum.v], [Md5.v], [RangeSet.v] and [PropertyList.v]: [libs/misc].
      [RangeText.v]: intersections of range sets, and their text and XML.
      [Misc.v]: [dumper.cc], [uuid.cc] and [random.cc].
    - [Path.v]: the text of paths in [libs/file].
    - [libs/web]: [Url.v] ([url.cc]), over the elements, the property lists and
      the paths; [Mime.v] ([mime-headers.cc]); [Http.v] ([http-message.cc]), over
      any stream; [Cookies.v] ([cookies.cc]); [WebSocket.v] ([websocket.cc]), over
      the channel contract; [Jwt.v] ([jwt.cc]), over the JSON values and Base64.
    - [libs/net]: [Address.v] ([address.cc]); [Socket.v], reading and writing of
      [socket.cc], over the system calls with their laws ([OsSocketLaws]).
      [Access.v]: [libs/access], over addresses and patterns.
    - [libs/tube], over the sockets: [Tube.v], messages, clients and servers;
      [SyncRequest.v], requests and their responses, an instance of [Monitor.v].
    - [libs/db]: [Db.v], values, rows, the SQL of a connection and transactions,
      over the virtual methods of a driver; [ConnPool.v], the pool of connections
      that threads share.
    - [Stamp.v]: [libs/time], stamps, splits and intervals against the Gregorian
      calendar; [StampText.v]: their texts.
    - [Monitor.v]: threads that share a state under a mutex with condition
      variables; its instances are the classes of [libs/mt]: queues, semaphores
      and conditions in [Sync.v], the readers-and-writers mutex in [RWMutex.v].
      [DataQueue.v]: data queues and their channels.  [Pool.v]: pooled threads
      and thread pools, whose calls are a test and, later, a section under the lock.
      [Ring.v]: [libs/ring], without a lock, every operation a program of its accesses.

    ** Conventions

    A call on an object is a computation of [M S E A]: it returns a value or
    throws, and the object's state survives both, as it does in the code.
    Machine integers are [Z], wrapped by [wrap] and [swrap] where the code's
    type wraps them; bytes are integers from 0 to 255.  A [double] is the 64
    bits it has, or an abstract type of numbers, and its conversions to and
    from text are parameters: nothing here depends on floating-point
    arithmetic.  Pointers are replaced by the sequence they point into, or,
    where ownership and sharing matter ([Gather.v], [Cache.v]), by places in a
    heap; where the code can leave it the model says so (a fault, or no result).
    Concurrent code is a step relation over the accesses, or the critical
    sections, that are atomic; what a thread is in the middle of is part of the state.

    ** Bounds and fuel

    Loops with a count the code knows are [loop_pos] (a binary count, left
    early), or a structural recursion on what they consume.  Recursions on
    input that is not consumed structurally take fuel, and a theorem shows
    that the fuel given is always enough: [cbor_decode_total],
    [parser_total], [read_token_total], [xml_parse_total] and [evaluate_total]
    for any input; [huffman_read_total] (the bits left and one);
    [pattern_match_glob], [split_spec], [split_words_spec] and [subst_replaces]
    as a part of what they state.  The gather buffer counts segments, the hash
    block its size, the cache its entries, the Merkle tree its leaves and
    nodes (up to 2^32-2 of them, beyond which its loops never end), Bech32 two characters a byte, the data queue its blocks, the thread
    pool its spares, the intersection of range sets the events of all the sets,
    the sockets the bytes wanted, and a server of a tube its messages and one: the
    theorems about these operations give their result, so that the count is enough.

    ** What the theorems show

    - Round trips: what the writers, encoders and printers produce, their
      readers give back, within the conditions that each theorem names: integers of every width and order, bit fields,
      numbers and hexadecimal text, UTF-8, Base64, Base58, Base36, Base16 and
      Bech32, CBOR (definite and indefinite), JSON text, XML documents, XPath
      paths, Huffman codes, CSV, range sets, property lists, URLs and their parts,
      time stamps and dates, headers and HTTP messages, web socket frames, JSON
      web tokens, the messages of a tube.
    - Exactness: [try_read] reads exactly what it is asked for or says why not,
      the limited reader, whatever is read of it, and the block writer stay within their bounds, the
      Base64 decoder within the block it is given, a data queue gives the
      bytes written whatever their blocks; chunked HTTP bodies and the messages of
      a tube are whole however the stream is cut up, or not delivered at all.
    - Safety: cookies go only to where they belong; access is what the first rule
      that matches says; a value stays one value in the SQL it is put in; a token
      that is verified is the one that was signed.
    - Refinement: gather buffers are the bytes of their segments, hash blocks
      and tables are finite maps, caches evict the worst entry and own what
      they hold, MD5 is RFC 1321, checksums are the division bit by bit.
    - Meaning: a stamp is split into its date in the calendar, with the exact
      times where the code is a day out; paths and URLs resolve by the steps up they begin with; variables
      in a text are replaced; expressions evaluate to what precedence and association say
      they mean; patterns decide the matching relation; words, fields, lines and
      substitutions are what their names promise; [RangeSet::insert] is union
      and keeps the set optimal, [inverse] is the complement, and the intersection
      of range sets is what all of them have; Merkle trees
      are complete, and bind the hash of the root to the leaves.
    - Concurrency: under every interleaving the queue, and the ring while its putter does not
      flush, give what was put in, in order; the threads of a pool are in one place
      each, unless it is shut down while one comes back; semaphores count; a writer excludes everybody; nobody
      is left asleep with something to wake up for; a connection of a pool has one
      user; and responses go to the requests they answer.
    - Limits: theorems of the kind [error] or [safety], and examples, state
      exactly where the code does not do what its comments say.

    ** Not modelled

    Wrappers of other libraries are outside: the drivers of databases, OpenSSL,
    the resolver, processes and signals, directories and files, the opening and
    the options of sockets; so are generated code, command line tools, daemons
    and servers, and the message bus and object cache built on them.  Channels
    over C++ streams and sockets forward to what they wrap; threads and tasks to
    the threads of the language.  Floating-point durations and formats, and
    vectors of floating-point numbers, are outside, as nothing here depends on
    floating-point arithmetic.  Of the tube, the starting and stopping of threads
    is left out, as it is of pools.  Scripts, SOAP, configuration files and the
    preprocessor of templates, which are clients of the parsers modelled here,
    are not modelled yet. *)
From stdpp Require Export prelude.
From Stdlib Require Export ZArith Lia.
From Stdlib Require Export Ascii Btauto.
From Stdlib Require String.
Export String.StringSyntax.

#[global] Open Scope Z_scope.

(** ** Exceptions and state: the effect every stateful operation has *)

(** The outcome of a C++ call: it returns a value or throws. *)
Inductive exc (E A : Type) : Type :=
  | Val (a : A)
  | Throw (e : E).
Arguments Val {E A} a.
Arguments Throw {E A} e.

(** A call on an object of state [S]: the state survives an exception, as it
    does in the code. *)
Definition M (S E A : Type) : Type := S -> exc E A * S.

Definition ret {S E A} (a : A) : M S E A := fun s => (Val a, s).
Definition throw {S E A} (e : E) : M S E A := fun s => (Throw e, s).
Definition bind {S E A B} (m : M S E A) (k : A -> M S E B) : M S E B :=
  fun s => match m s with
           | (Val a, s') => k a s'
           | (Throw e, s') => (Throw e, s')
           end.
Definition get_st {S E} : M S E S := fun s => (Val s, s).
Definition put_st {S E} (s : S) : M S E unit := fun _ => (Val tt, s).

Declare Scope obt_scope.
Delimit Scope obt_scope with obt.
Notation "'let!' x ':=' m 'in' k" := (bind m (fun x => k))
  (at level 10, x pattern, m at level 100, k at level 200)
  : obt_scope.
Notation "m ';;;' k" := (bind m (fun _ => k))
  (at level 199, right associativity) : obt_scope.
#[global] Open Scope obt_scope.

(** ** Loops

    A C++ loop is a step function that either continues with a new loop state
    or leaves with a result.  [loop_pos] runs up to a binary number of
    iterations and stops as soon as the loop leaves, so that a loop bounded
    by a 64-bit count can be evaluated. *)
Fixpoint loop_nat {A B} (n : nat) (step : A -> A + B) (a : A) : A + B :=
  match n with
  | O => inl a
  | S n => match step a with
           | inl a' => loop_nat n step a'
           | inr b => inr b
           end
  end.

Fixpoint loop_pos {A B} (p : positive) (step : A -> A + B) (a : A) : A + B :=
  match p with
  | xH => step a
  | xO p => match loop_pos p step a with
            | inl a' => loop_pos p step a'
            | inr b => inr b
            end
  | xI p => match step a with
            | inl a' => match loop_pos p step a' with
                        | inl a'' => loop_pos p step a''
                        | inr b => inr b
                        end
            | inr b => inr b
            end
  end.

(** ** Machine integers *)

Definition wrap (w z : Z) : Z := z mod 2 ^ w.
Abbreviation u8 := (wrap 8).
Abbreviation u16 := (wrap 16).
Abbreviation u32 := (wrap 32).
Abbreviation u64 := (wrap 64).
(** Two's complement reading of a w-bit value. *)
Definition swrap (w z : Z) : Z := (z + 2 ^ (w - 1)) mod 2 ^ w - 2 ^ (w - 1).
Abbreviation i8 := (swrap 8).
Abbreviation i32 := (swrap 32).
Abbreviation i64 := (swrap 64).

Definition in_u (w z : Z) : Prop := 0 <= z < 2 ^ w.
Definition in_s (w z : Z) : Prop := - 2 ^ (w - 1) <= z < 2 ^ (w - 1).

(** ** Bytes and strings: a [std::string] or [vector<byte>] is a list of
    integers between 0 and 255. *)
Abbreviation bytes := (list Z).
Definition byte_ok (b : Z) : Prop := 0 <= b < 256.
Abbreviation bytes_ok := (Forall byte_ok).

#[global] Instance byte_ok_dec b : Decision (byte_ok b).
Proof. unfold byte_ok. apply _. Defined.

(** The bytes of a character literal or string literal of the source. *)
Definition chr (c : ascii) : Z := Z.of_nat (nat_of_ascii c).
Definition str (s : String.string) : bytes := map chr (String.list_ascii_of_string s).
Arguments str s%_string_scope.

Definition zlen {A} (l : list A) : Z := Z.of_nat (length l).
Definition ztake {A} (n : Z) (l : list A) : list A := take (Z.to_nat n) l.
Definition zdrop {A} (n : Z) (l : list A) : list A := drop (Z.to_nat n) l.
(** [l[i]] with a default where the index is out of range. *)
Definition zget (d : Z) (l : list Z) (i : Z) : Z := nth (Z.to_nat i) l d.
(** Integer iteration [for (i = a; i < a + n; i++)]. *)
Definition zseq (a : Z) (n : nat) : list Z := map (fun k => a + Z.of_nat k) (seq 0 n).

(* ------------------------------------------------------------------ *)
(** ** Lemmas *)

Lemma loop_nat_add {A B} (n m : nat) (step : A -> A + B) a :
  loop_nat (n + m) step a =
  match loop_nat n step a with inl a' => loop_nat m step a' | inr b => inr b end.
Proof.
  revert a; induction n as [|n IH]; intros a; simpl; [done|].
  destruct (step a); [apply IH | done].
Qed.

Lemma loop_pos_nat {A B} p (step : A -> A + B) a :
  loop_pos p step a = loop_nat (Pos.to_nat p) step a.
Proof.
  revert a; induction p as [p IH|p IH|]; intros a; cbn [loop_pos].
  - rewrite Pos2Nat.inj_xI. cbn [loop_nat]. destruct (step a) as [a'|b]; [|done].
    replace (2 * Pos.to_nat p)%nat with (Pos.to_nat p + Pos.to_nat p)%nat by lia.
    rewrite loop_nat_add, IH.
    destruct (loop_nat (Pos.to_nat p) step a'); [apply IH | done].
  - rewrite Pos2Nat.inj_xO.
    replace (2 * Pos.to_nat p)%nat with (Pos.to_nat p + Pos.to_nat p)%nat by lia.
    rewrite loop_nat_add, IH.
    destruct (loop_nat (Pos.to_nat p) step a); [apply IH | done].
  - unfold Pos.to_nat; simpl. by destruct (step a).
Qed.

(** A loop whose measure decreases leaves, and what it leaves with satisfies
    what each step preserves. *)
Lemma loop_nat_rule {A B} (step : A -> A + B) (Inv : A -> Prop) (Post : B -> Prop)
    (measure : A -> nat) n a :
  (forall a, Inv a ->
     match step a with
     | inl a' => Inv a' /\ (measure a' < measure a)%nat
     | inr b => Post b
     end) ->
  Inv a -> (measure a < n)%nat -> exists b, loop_nat n step a = inr b /\ Post b.
Proof.
  intros Hstep. revert a; induction n as [|n IH]; intros a Ha Hn; simpl; [lia|].
  specialize (Hstep a Ha). destruct (step a) as [a'|b]; [|eauto].
  destruct Hstep as [Hinv Hlt]. apply IH; [done | lia].
Qed.

Lemma loop_pos_rule {A B} (step : A -> A + B) (Inv : A -> Prop) (Post : B -> Prop)
    (measure : A -> nat) p a :
  (forall a, Inv a ->
     match step a with
     | inl a' => Inv a' /\ (measure a' < measure a)%nat
     | inr b => Post b
     end) ->
  Inv a -> (measure a < Pos.to_nat p)%nat ->
  exists b, loop_pos p step a = inr b /\ Post b.
Proof. rewrite loop_pos_nat. apply loop_nat_rule. Qed.

(** More fuel does not change the result of a loop that has left. *)
Lemma loop_nat_mono {A B} (step : A -> A + B) n m a b :
  loop_nat n step a = inr b -> (n <= m)%nat -> loop_nat m step a = inr b.
Proof.
  intros H Hle. replace m with (n + (m - n))%nat by lia.
  by rewrite loop_nat_add, H.
Qed.

Lemma bind_val {S E A B} (m : M S E A) (k : A -> M S E B) s a s' :
  m s = (Val a, s') -> bind m k s = k a s'.
Proof. intros Hm. unfold bind. by rewrite Hm. Qed.

Lemma bind_throw {S E A B} (m : M S E A) (k : A -> M S E B) s e s' :
  m s = (Throw e, s') -> bind m k s = (Throw e, s').
Proof. intros Hm. unfold bind. by rewrite Hm. Qed.

Lemma wrap_range w z : 0 <= w -> in_u w (wrap w z).
Proof. intros. apply Z.mod_pos_bound. lia. Qed.

Lemma wrap_small w z : in_u w z -> wrap w z = z.
Proof. intros. by apply Z.mod_small. Qed.

Lemma wrap_wrap w v z : 0 <= w <= v -> wrap w (wrap v z) = wrap w z.
Proof.
  intros. unfold wrap. replace v with (w + (v - w)) by lia.
  rewrite Z.pow_add_r by lia. rewrite Z.rem_mul_r by lia.
  rewrite Z.add_mod by lia. rewrite (Z.mul_comm (2 ^ w)), Z.mod_mul by lia.
  rewrite Z.add_0_r. rewrite !Z.mod_mod by lia. done.
Qed.

Lemma swrap_small w z : 0 < w -> in_s w z -> swrap w z = z.
Proof.
  intros Hw [H1 H2]. unfold swrap. rewrite Z.mod_small; [lia|].
  assert (2 ^ w = 2 * 2 ^ (w - 1)) as ->.
  { rewrite <- Z.pow_succ_r by lia. f_equal; lia. }
  lia.
Qed.

Lemma swrap_range w z : 0 < w -> in_s w (swrap w z).
Proof.
  intros Hw. unfold in_s, swrap.
  assert (2 ^ w = 2 * 2 ^ (w - 1)) as Hp.
  { rewrite <- Z.pow_succ_r by lia. f_equal; lia. }
  pose proof (Z.mod_pos_bound (z + 2 ^ (w - 1)) (2 ^ w)). lia.
Qed.

Lemma zlen_nonneg {A} (l : list A) : 0 <= zlen l.
Proof. unfold zlen; lia. Qed.
Lemma zlen_nil {A} : zlen (@nil A) = 0.
Proof. done. Qed.
Lemma zlen_cons {A} (x : A) l : zlen (x :: l) = 1 + zlen l.
Proof. unfold zlen; simpl; lia. Qed.
Lemma zlen_app {A} (l k : list A) : zlen (l ++ k) = zlen l + zlen k.
Proof. unfold zlen; rewrite length_app; lia. Qed.
Lemma zlen_ztake {A} n (l : list A) : 0 <= n -> zlen (ztake n l) = n `min` zlen l.
Proof. unfold zlen, ztake; rewrite length_take; lia. Qed.
Lemma zlen_zdrop {A} n (l : list A) : 0 <= n -> zlen (zdrop n l) = 0 `max` (zlen l - n).
Proof. unfold zlen, zdrop; rewrite length_drop; lia. Qed.
Lemma ztake_zdrop {A} n (l : list A) : ztake n l ++ zdrop n l = l.
Proof. apply take_drop. Qed.
Lemma ztake_app {A} (l k : list A) : ztake (zlen l) (l ++ k) = l.
Proof. unfold ztake, zlen. rewrite Nat2Z.id. apply take_app_length. Qed.
Lemma zdrop_app {A} (l k : list A) : zdrop (zlen l) (l ++ k) = k.
Proof. unfold zdrop, zlen. rewrite Nat2Z.id. apply drop_app_length. Qed.
Lemma ztake_ge {A} n (l : list A) : zlen l <= n -> ztake n l = l.
Proof. unfold zlen, ztake. intros. apply take_ge. lia. Qed.
Lemma zdrop_ge {A} n (l : list A) : zlen l <= n -> zdrop n l = [].
Proof. unfold zlen, zdrop. intros. apply drop_ge. lia. Qed.
Lemma zdrop_zdrop {A} n m (l : list A) :
  0 <= n -> 0 <= m -> zdrop n (zdrop m l) = zdrop (m + n) l.
Proof. unfold zdrop. intros. rewrite drop_drop. f_equal. lia. Qed.
Lemma ztake_0 {A} (l : list A) : ztake 0 l = [].
Proof. done. Qed.
Lemma zdrop_0 {A} (l : list A) : zdrop 0 l = l.
Proof. done. Qed.
Lemma ztake_add {A} n m (l : list A) :
  0 <= n -> 0 <= m -> ztake (n + m) l = ztake n l ++ ztake m (zdrop n l).
Proof. intros. unfold ztake, zdrop. by rewrite Z2Nat.inj_add, take_take_drop by lia. Qed.
Lemma ztake_app_le {A} n (l k : list A) : n <= zlen l -> ztake n (l ++ k) = ztake n l.
Proof. unfold zlen, ztake. intros. apply take_app_le. lia. Qed.
Lemma zdrop_app_le {A} n (l k : list A) : n <= zlen l -> zdrop n (l ++ k) = zdrop n l ++ k.
Proof. unfold zlen, zdrop. intros. apply drop_app_le. lia. Qed.
Lemma ztake_app_ge {A} n (l k : list A) : zlen l <= n -> ztake n (l ++ k) = l ++ ztake (n - zlen l) k.
Proof. unfold zlen, ztake. intros. rewrite take_app_ge by lia. f_equal. f_equal. lia. Qed.
Lemma zdrop_app_ge {A} n (l k : list A) : zlen l <= n -> zdrop n (l ++ k) = zdrop (n - zlen l) k.
Proof. unfold zlen, zdrop. intros. rewrite drop_app_ge by lia. f_equal. lia. Qed.
Lemma zlen_zero {A} (l : list A) : zlen l = 0 -> l = [].
Proof. destruct l; [done|]. rewrite zlen_cons. pose proof (zlen_nonneg l). lia. Qed.

Lemma zlen_pos_ne {A} (l : list A) : 0 < zlen l -> l <> [].
Proof. by intros H ->. Qed.

Lemma bytes_ok_app (l k : bytes) : bytes_ok (l ++ k) <-> bytes_ok l /\ bytes_ok k.
Proof. apply Forall_app. Qed.

Lemma byte_ok_u8 z : byte_ok (u8 z).
Proof. apply (wrap_range 8); lia. Qed.

Lemma u8_small b : byte_ok b -> u8 b = b.
Proof. intros. by apply (wrap_small 8). Qed.

(** Bits above the width of a bounded number are clear. *)
Lemma testbit_above w z i : 0 <= z < 2 ^ w -> w <= i -> Z.testbit z i = false.
Proof.
  intros [H0 H1] Hi. destruct (Z.eq_dec z 0) as [->|Hz]; [apply Z.bits_0|].
  apply Z.bits_above_log2; [done|].
  apply Z.log2_lt_pow2; [lia|]. eapply Z.lt_le_trans; [exact H1|].
  apply Z.pow_le_mono_r; lia.
Qed.

Lemma land_ones_mod w z : 0 <= w -> Z.land z (Z.ones w) = z mod 2 ^ w.
Proof. apply Z.land_ones. Qed.

(** Disjoint bits: [or] is addition. *)
Lemma lor_add w a b :
  0 <= w -> 0 <= b < 2 ^ w -> Z.lor (Z.shiftl a w) b = a * 2 ^ w + b.
Proof.
  intros Hw Hb. rewrite <- Z.shiftl_mul_pow2 by done.
  rewrite Z.add_nocarry_lxor, Z.lxor_lor; try done.
  all: apply Z.bits_inj'; intros i Hi; rewrite Z.bits_0, Z.land_spec.
  all: destruct (Z.lt_ge_cases i w);
    [rewrite Z.shiftl_spec_low by done; done
    | rewrite (testbit_above w b) by lia; apply andb_false_r].
Qed.

(** ** Automation *)

Create HintDb obt discriminated.
#[export] Hint Resolve zlen_nonneg byte_ok_u8 : obt.
#[export] Hint Resolve ->  bytes_ok_app : obt.

Create Rewrite HintDb zlist.
#[export] Hint Rewrite @zlen_nil @zlen_cons @zlen_app @ztake_0 @zdrop_0 @ztake_app @zdrop_app
  @ztake_zdrop : zlist.

(** Normalise the length arithmetic of byte lists, then decide it. *)
Ltac zlist := autorewrite with zlist in *; try lia.

(** Run one step of the state monad. *)
Ltac unbind := unfold bind, ret, throw, get_st, put_st in *.

(** Prove an equation between integers bit by bit. *)
Ltac bits :=
  let i := fresh "i" in
  apply Z.bits_inj'; intros i ?Hi;
  repeat first [rewrite Z.lor_spec | rewrite Z.land_spec | rewrite Z.lxor_spec].

(** Decide a closed proposition by evaluating its decision procedure. *)
Ltac vm_decide := apply (bool_decide_unpack _); vm_compute; exact I.
