(* ===== verification/Chan.v ===== *)
(** * Channel: structured protocol reading and writing

    Models [src/libs/chan]: the abstract [Reader] and [Writer] with their
    virtual operations (type classes), every operation built on them
    ([reader.cc], [writer.cc]), and the contract the concrete channels
    promise to their clients ([ReaderLaws], [WriterLaws]).  The concrete
    channels are in [ChanImpl.v], the bit streams in [ChanBits.v].

    A call is a computation of the monad [M S Error]: the channel's state
    survives an exception.  A buffer pointer is not modelled: a read returns
    the bytes it transfers; a null buffer (skipping) is the same call with
    the result dropped. *)
From S2P Require Export Prelude.

(** ** Exceptions ([class Error]) *)
Record Error := mk_Error { error : Z; text : bytes }.

#[global] Instance Error_eq_dec : EqDecision Error.
Proof. solve_decision. Defined.

(** Not an exception of the code: what a loop bounded by fuel yields when the
    fuel is not enough. *)
Definition out_of_fuel : Error := mk_Error (-1) [].

Definition CHANNEL_BUFFER_SIZE : Z := 1024.

(** ** The virtual operations of a reader *)
Class Reader (S : Type) : Type := {
  basic_read : Z -> M S Error bytes;
  try_read : Z -> M S Error (option bytes);
  try_read_string : Z -> M S Error (option bytes);
  skip : Z -> M S Error unit;
  rewind : Z -> M S Error unit;
  get_offset : S -> Z
}.

(** ** The default implementations, on [basic_read] only *)
Section base.
Context {S : Type} (basic_read : Z -> M S Error bytes).

(** One turn of the loop of [Reader::try_read]: [done] bytes are in [acc]. *)
Definition try_read_step (what : bytes) (limit : Z -> Z) (count : Z)
    (st : Z * bytes * S) : (Z * bytes * S) + (exc Error (option bytes) * S) :=
  let '(dn, acc, s) := st in
  if dn <? count then
    match basic_read (limit (count - dn)) s with
    | (Val d, s') =>
      if negb (zlen d =? 0) then inl (dn + zlen d, acc ++ d, s')
      else if negb (dn =? 0) then inr (Throw (mk_Error 0 what), s')
      else inr (Val None, s')
    | (Throw e, s') => inr (Throw e, s')
    end
  else inr (Val (Some acc), s).

Definition run_loop {A St} (count : Z) (step : St -> St + (exc Error A * S)) (st : St)
    (s : S) : exc Error A * S :=
  match loop_pos (Z.to_pos (count + 1)) step st with
  | inl _ => (Throw out_of_fuel, s)
  | inr r => r
  end.

(** [Reader::try_read(void *buf, size_t count)] *)
Definition base_try_read (count : Z) : M S Error (option bytes) := fun s =>
  run_loop count (try_read_step (str "EOF") (fun n => n) count) (0, [], s) s.

(** [Reader::try_read(string& s, size_t count)]: in blocks of the buffer size *)
Definition base_try_read_string (count : Z) : M S Error (option bytes) := fun s =>
  run_loop count
    (try_read_step (str "EOF in string")
       (fun n => if n <? CHANNEL_BUFFER_SIZE then n else CHANNEL_BUFFER_SIZE) count)
    (0, [], s) s.

(** One turn of [Reader::read_to_eof(buffer, limit)] *)
Definition read_to_eof_step (limit : Z) (st : Z * bytes * S)
    : (Z * bytes * S) + (exc Error bytes * S) :=
  let '(dn, acc, s) := st in
  if dn <? limit then
    let n := if limit - dn <? CHANNEL_BUFFER_SIZE then limit - dn
             else CHANNEL_BUFFER_SIZE in
    match basic_read n s with
    | (Val d, s') =>
      if negb (zlen d =? 0) then inl (dn + zlen d, acc ++ d, s')
      else inr (Val acc, s')
    | (Throw e, s') => inr (Throw e, s')
    end
  else inr (Val acc, s).

(** The overloads of [read_to_eof] with a limit, into a vector, a raw buffer
    and a string: the same loop, which returns the bytes appended. *)
Definition base_read_to_eof_limit (limit : Z) : M S Error bytes := fun s =>
  run_loop limit (read_to_eof_step limit) (0, [], s) s.

(** One turn of [read_to_eof] without a limit. *)
Definition read_all_step (st : bytes * S) : (bytes * S) + (exc Error bytes * S) :=
  let '(acc, s) := st in
  match basic_read CHANNEL_BUFFER_SIZE s with
  | (Val d, s') =>
    let acc' := if negb (zlen d =? 0) then acc ++ d else acc in
    if negb (zlen d =? CHANNEL_BUFFER_SIZE) then inr (Val acc', s')
    else inl (acc', s')
  | (Throw e, s') => inr (Throw e, s')
  end.

(** [read_to_eof] without a limit, up to [fuel] turns of the loop. *)
Definition base_read_to_eof (fuel : positive) : M S Error bytes := fun s =>
  match loop_pos fuel read_all_step ([], s) with
  | inl _ => (Throw out_of_fuel, s)
  | inr r => r
  end.
End base.

(** Network byte order: the most significant byte first. *)
Definition nbo (l : bytes) : Z := fold_left (fun n b => n * 256 + b) l 0.

(** ** The operations built on the virtual ones *)
Section reader.
Context {S : Type} `{Reader S}.

(** [Reader::read(void *buf, size_t count)] *)
Definition read (count : Z) : M S Error bytes :=
  let! r := try_read count in
  match r with
  | Some d => ret d
  | None => throw (mk_Error 0 (str "EOF"))
  end.

(** [Reader::read(string& s, size_t count)] *)
Definition read_string (count : Z) : M S Error bytes :=
  let! r := try_read_string count in
  match r with
  | Some d => ret d
  | None => throw (mk_Error 0 (str "EOF in string"))
  end.

Definition try_read_byte : M S Error (option Z) :=
  let! r := try_read 1 in
  ret (match r with Some d => Some (zget 0 d 0) | None => None end).

Definition read_byte : M S Error Z :=
  let! d := read 1 in ret (zget 0 d 0).

Definition read_nbo_16 : M S Error Z :=
  let! d := read 2 in ret (nbo d).

Definition read_nbo_24 : M S Error Z :=
  let! buf := read 3 in
  ret (u32 (u32 (Z.shiftl (zget 0 buf 0) 16) + u32 (Z.shiftl (zget 0 buf 1) 8)
            + zget 0 buf 2)).

Definition read_nbo_32 : M S Error Z :=
  let! d := read 4 in ret (nbo d).

(** [try_read_nbo_32(uint32_t& n)] and [bool read_nbo_32(uint32_t& n)] *)
Definition try_read_nbo_32 : M S Error (option Z) :=
  let! r := try_read 4 in
  ret (match r with Some d => Some (nbo d) | None => None end).
Definition read_nbo_32_opt : M S Error (option Z) :=
  let! r := try_read 4 in
  match r with
  | None => ret None
  | Some d => ret (Some (nbo d))
  end.

Definition read_nbo_64 : M S Error Z :=
  let! n := read_nbo_32 in
  let! m := read_nbo_32 in
  ret (u64 (u64 (Z.shiftl n 32) + m)).

(** [read_nbo_double] returns the 64-bit pattern of the union. *)
Definition read_nbo_double : M S Error Z := read_nbo_64.

(** [read_nbo_fixed_point]: the integer that is then divided by
    [2 ^ after_bits] in floating point.  [Z.rem] is C's [%]. *)
Fixpoint read_fixed_bytes (k : nat) (n : Z) : M S Error Z :=
  match k with
  | O => ret n
  | Datatypes.S k =>
    let! b := read_byte in
    read_fixed_bytes k (u64 (u64 (Z.shiftl n 8) + b))
  end.
Definition read_nbo_fixed_point (before_bits after_bits : Z) : M S Error Z :=
  let bits := before_bits + after_bits in
  if negb (Z.rem bits 8 =? 0) || (bits >? 64) then
    throw (mk_Error 9
      (str "Total number of bits must be order of 8 and no greater than 64"))
  else read_fixed_bytes (Z.to_nat (bits / 8)) 0.

Definition read_le_16 : M S Error Z :=
  let! buf := read 2 in
  ret (u16 (zget 0 buf 0 + Z.shiftl (zget 0 buf 1) 8)).
Definition read_le_24 : M S Error Z :=
  let! buf := read 3 in
  ret (u32 (zget 0 buf 0 + u32 (Z.shiftl (zget 0 buf 1) 8)
            + u32 (Z.shiftl (zget 0 buf 2) 16))).
Definition le_32 (buf : bytes) : Z :=
  u32 (zget 0 buf 0 + u32 (Z.shiftl (zget 0 buf 1) 8)
       + u32 (Z.shiftl (zget 0 buf 2) 16) + u32 (Z.shiftl (zget 0 buf 3) 24)).
Definition read_le_32 : M S Error Z :=
  let! buf := read 4 in ret (le_32 buf).
Definition read_le_32_opt : M S Error (option Z) :=
  let! r := try_read 4 in
  match r with
  | None => ret None
  | Some buf => ret (Some (le_32 buf))
  end.
Definition read_le_64 : M S Error Z :=
  let! n := read_le_32 in
  let! m := read_le_32 in
  ret (u64 (n + u64 (Z.shiftl m 32))).
Definition read_le_double : M S Error Z := read_le_64.

(** [Reader::skip]: the default, used by readers that do not override it *)
Definition base_skip (n : Z) : M S Error unit :=
  let! _ := read n in ret tt.

(** One turn of [while (try_read(0, CHANNEL_BUFFER_SIZE));] *)
Definition skip_to_eof_step (s : S) : S + (exc Error unit * S) :=
  match try_read CHANNEL_BUFFER_SIZE s with
  | (Val (Some _), s') => inl s'
  | (Val None, s') => inr (Val tt, s')
  | (Throw e, s') => inr (Throw e, s')
  end.
Definition base_skip_to_eof (fuel : positive) : M S Error unit := fun s =>
  match loop_pos fuel skip_to_eof_step s with
  | inl _ => (Throw out_of_fuel, s)
  | inr r => r
  end.

(** [Reader::align] in unsigned 64-bit arithmetic *)
Definition align_bytes (n offset : Z) : Z :=
  u64 (u64 (n * (u64 (u64 (offset + n) - 1) / n)) - offset).
Definition align (n : Z) : M S Error unit :=
  let! s := get_st in skip (align_bytes n (get_offset s)).

Definition rewind_all : M S Error unit :=
  let! s := get_st in rewind (get_offset s).
End reader.

(** [Reader::rewind(size_t)], the default *)
Definition base_rewind {S} (n : Z) : M S Error unit :=
  throw (mk_Error 2 (str "Can't rewind")).

(** ** The virtual operations of a writer *)
Class Writer (S : Type) : Type := {
  basic_write : bytes -> M S Error unit;
  write_skip : Z -> M S Error unit;
  write_rewind : Z -> M S Error unit;
  write_offset : S -> Z
}.

(** The bytes of an integer, most significant first: [htons], [htonl]. *)
Definition hton (k : nat) (n : Z) : bytes :=
  map (fun i => u8 (Z.shiftr n (8 * (Z.of_nat k - 1 - i)))) (zseq 0 k).

Section writer.
Context {S : Type} `{Writer S}.

(** [write(const void *, size_t)] and the overloads for a string, a C
    string and a vector: the bytes go to [basic_write]. *)
Definition write (d : bytes) : M S Error unit := basic_write d.

Fixpoint write_pad (k : nat) (pad : Z) : M S Error unit :=
  match k with
  | O => ret tt
  | Datatypes.S k => basic_write [pad] ;;; write_pad k pad
  end.
Definition write_fixed (s : bytes) (length pad : Z) : M S Error unit :=
  let len := Z.min length (zlen s) in
  basic_write (ztake len s) ;;; write_pad (Z.to_nat (length - len)) pad.

Definition write_byte (b : Z) : M S Error unit := basic_write [u8 b].
Definition write_nbo_16 (i : Z) : M S Error unit := basic_write (hton 2 (u16 i)).
Definition write_nbo_24 (i : Z) : M S Error unit :=
  basic_write [u8 (Z.shiftr i 16); u8 (Z.shiftr i 8); u8 i].
Definition write_nbo_32 (i : Z) : M S Error unit := basic_write (hton 4 (u32 i)).
Definition write_nbo_64 (i : Z) : M S Error unit :=
  write_nbo_32 (u32 (Z.shiftr i 32)) ;;; write_nbo_32 (u32 (Z.land i 4294967295)).
Definition write_nbo_double (pattern : Z) : M S Error unit := write_nbo_64 pattern.

(** [write_nbo_fixed_point] after the conversion of [f * 2 ^ after_bits] to
    the 64-bit integer [n] *)
Fixpoint write_fixed_bytes (k : nat) (n : Z) : M S Error unit :=
  match k with
  | O => ret tt
  | Datatypes.S k => write_byte (Z.shiftr n (8 * Z.of_nat k)) ;;; write_fixed_bytes k n
  end.
Definition write_nbo_fixed_point (n before_bits after_bits : Z) : M S Error unit :=
  let bits := before_bits + after_bits in
  if negb (Z.rem bits 8 =? 0) || (bits >? 64) then
    throw (mk_Error 9
      (str "Total number of bits must be order of 8 and no greater than 64"))
  else write_fixed_bytes (Z.to_nat (bits / 8)) n.

Definition write_le_16 (i : Z) : M S Error unit :=
  basic_write [u8 i; u8 (Z.shiftr i 8)].
Definition write_le_24 (i : Z) : M S Error unit :=
  basic_write [u8 i; u8 (Z.shiftr i 8); u8 (Z.shiftr i 16)].
Definition write_le_32 (i : Z) : M S Error unit :=
  basic_write [u8 i; u8 (Z.shiftr i 8); u8 (Z.shiftr i 16); u8 (Z.shiftr i 24)].
Definition write_le_64 (i : Z) : M S Error unit :=
  write_le_32 (u32 (Z.land i 4294967295)) ;;; write_le_32 (u32 (Z.shiftr i 32)).
Definition write_le_double (pattern : Z) : M S Error unit := write_le_64 pattern.

(** One turn of [Writer::skip]: zero bytes in blocks of 256 *)
Definition write_skip_step (st : Z * S) : (Z * S) + (exc Error unit * S) :=
  let '(n, s) := st in
  if n =? 0 then inr (Val tt, s) else
  let i := if n >? 256 then 256 else n in
  match basic_write (replicate (Z.to_nat i) 0) s with
  | (Val _, s') => inl (n - i, s')
  | (Throw e, s') => inr (Throw e, s')
  end.
Definition base_write_skip (n : Z) : M S Error unit := fun s =>
  run_loop n write_skip_step (n, s) s.

(** [Writer::align]: the count goes through [int] *)
Definition write_align (n : Z) : M S Error unit :=
  let! s := get_st in write_skip (u64 (i32 (align_bytes n (write_offset s)))).

Definition write_rewind_all : M S Error unit :=
  let! s := get_st in write_rewind (write_offset s).
End writer.

(** ** The contract of a reader

    [pending] is what the channel has still to deliver.  A read of [n > 0]
    bytes delivers exactly the next [n] of them, or reports the end of file
    (if nothing was left) or throws (if only a part was left). *)
Definition delivers {S} (ok : S -> Prop) (pending : S -> bytes) (offset : S -> Z)
    (op : Z -> M S Error (option bytes)) (s : S) (n : Z) : Prop :=
  exists s', ok s' /\
  ((n <= zlen (pending s) /\ op n s = (Val (Some (ztake n (pending s))), s') /\
    pending s' = zdrop n (pending s) /\ offset s' = u64 (offset s + n)) \/
   (pending s = [] /\ op n s = (Val None, s') /\ pending s' = [] /\ offset s' = offset s) \/
   (pending s <> [] /\ zlen (pending s) < n /\ pending s' = [] /\
    exists e, op n s = (Throw e, s') /\ error e = 0)).

Class ReaderLaws (S : Type) `{Reader S} : Type := {
  r_ok : S -> Prop;
  pending : S -> bytes;
  pending_bytes s : r_ok s -> bytes_ok (pending s);
  offset_range s : r_ok s -> in_u 64 (get_offset s);
  basic_read_law s n : r_ok s -> 0 <= n ->
    exists d s', basic_read n s = (Val d, s') /\ r_ok s' /\
      pending s = d ++ pending s' /\ zlen d <= n /\
      (0 < n -> pending s <> [] -> d <> []) /\
      get_offset s' = u64 (get_offset s + zlen d);
  try_read_law s n : r_ok s -> 0 < n -> delivers r_ok pending get_offset try_read s n;
  try_read_string_law s n : r_ok s -> 0 < n ->
    delivers r_ok pending get_offset try_read_string s n
}.

(** A read of no bytes succeeds: true of every reader but [LimitedReader],
    which reports the end of file once its limit is reached. *)
Class ReadsNothing (S : Type) `{ReaderLaws S} : Prop := {
  try_read_0 s : r_ok s -> try_read 0 s = (Val (Some []), s);
  try_read_string_0 s : r_ok s -> try_read_string 0 s = (Val (Some []), s)
}.

(** [m] succeeds from [s] with [a], leaving [rest] to read. *)
Definition reads {S} `{ReaderLaws S} {A} (m : M S Error A) (s : S) (a : A) (rest : bytes) : Prop :=
  exists s', m s = (Val a, s') /\ r_ok s' /\ pending s' = rest.

(** [m] throws from [s] an end-of-file error. *)
Definition eof {S} `{ReaderLaws S} {A} (m : M S Error A) (s : S) : Prop :=
  exists e s', m s = (Throw e, s') /\ error e = 0 /\ r_ok s'.

(** ** The contract of a writer

    [written] is what the channel holds so far, [fits s n] says that it has
    room for [n] more bytes. *)
Class WriterLaws (S : Type) `{Writer S} : Type := {
  w_ok : S -> Prop;
  written : S -> bytes;
  fits : S -> Z -> Prop;
  fits_le s n m : fits s n -> 0 <= m <= n -> fits s m;
  basic_write_law s d : w_ok s -> bytes_ok d -> fits s (zlen d) ->
    exists s', basic_write d s = (Val tt, s') /\ w_ok s' /\ written s' = written s ++ d /\
      (forall n, 0 <= n -> fits s (zlen d + n) -> fits s' n)
}.

Definition writes {S} `{WriterLaws S} (m : M S Error unit) (d : bytes) : Prop :=
  bytes_ok d /\
  forall s, w_ok s -> fits s (zlen d) ->
    exists s', m s = (Val tt, s') /\ w_ok s' /\ written s' = written s ++ d /\
      (forall n, 0 <= n -> fits s (zlen d + n) -> fits s' n).

(* ------------------------------------------------------------------ *)
(** ** Lemmas *)

(** *** The default [try_read] keeps the contract

    Proved once, for every implementation of [basic_read] that delivers the
    pending bytes in order, at least one at a time. *)
Section base_laws.
Context {S : Type} (basic_read : Z -> M S Error bytes) (offset : S -> Z).
Context (ok : S -> Prop) (pending : S -> bytes).
Context (offset_range : forall s, ok s -> in_u 64 (offset s)).
Context (basic_read_law : forall s n, ok s -> 0 <= n ->
  exists d s', basic_read n s = (Val d, s') /\ ok s' /\ pending s = d ++ pending s' /\
    zlen d <= n /\ (0 < n -> pending s <> [] -> d <> []) /\
    offset s' = u64 (offset s + zlen d)).

(** What holds between two turns of the loop. *)
Definition try_read_inv (s : S) (count : Z) (st : Z * bytes * S) : Prop :=
  let '(dn, acc, s1) := st in
  ok s1 /\ 0 <= dn <= count /\ zlen acc = dn /\ pending s = acc ++ pending s1 /\
  offset s1 = u64 (offset s + dn).

Definition try_read_post (s : S) (count : Z) (r : exc Error (option bytes) * S) : Prop :=
  delivers ok pending offset (fun _ _ => r) s count.

Lemma u64_add_zlen a b c : u64 (u64 (a + b) + c) = u64 (a + (b + c)).
Proof. unfold wrap. rewrite Z.add_mod_idemp_l by lia. f_equal. lia. Qed.

Lemma try_read_step_ok what limit count s st :
  (forall m, 0 < m -> 0 < limit m <= m) -> 0 < count -> try_read_inv s count st -> ok s ->
  match try_read_step basic_read what limit count st with
  | inl st' => try_read_inv s count st' /\
      (Z.to_nat (count - fst (fst st')) < Z.to_nat (count - fst (fst st)))%nat
  | inr r => try_read_post s count r
  end.
Proof using offset_range basic_read_law.
  intros Hlim Hc Hinv Hs. destruct st as [[dn acc] s1]. simpl.
  destruct Hinv as (Hok & Hdn & Hlen & Hpend & Hoff).
  destruct (Z.ltb_spec dn count) as [Hlt|Hge].
  - destruct (Hlim (count - dn)) as [Hl1 Hl2]; [lia|].
    destruct (basic_read_law s1 (limit (count - dn)) Hok) as
      (d & s2 & -> & Hok2 & Hp2 & Hd & Hne & Hoff2); [lia|].
    pose proof (zlen_nonneg d) as Hd0.
    destruct (Z.eqb_spec (zlen d) 0) as [Hz|Hz]; simpl.
    + apply zlen_zero in Hz as ->. simpl in Hp2.
      assert (pending s1 = []) as Hnil.
      { destruct (pending s1) eqn:E; [done|]. exfalso. by apply Hne. }
      rewrite Hnil in Hpend. assert (pending s2 = []) as Hnil2 by congruence.
      rewrite zlen_nil, Hoff, u64_add_zlen, Z.add_0_r in Hoff2.
      destruct (Z.eqb_spec dn 0) as [->|Hdn0]; simpl; exists s2; split; try done.
      * right; left. apply zlen_zero in Hlen as ->. simpl in Hpend.
        repeat split; try done. rewrite Hoff2. rewrite ?Z.add_0_r.
        by apply wrap_small, offset_range.
      * right; right. rewrite app_nil_r in Hpend. rewrite Hpend, Hlen.
        repeat split; try done; try lia.
        { intros ->. by rewrite zlen_nil in Hlen. }
        by eexists.
    + split; [|simpl; lia]. repeat split; try done; try lia.
      * rewrite zlen_app. lia.
      * by rewrite Hpend, Hp2, app_assoc.
      * by rewrite Hoff2, Hoff, u64_add_zlen.
  - assert (dn = count) as -> by lia. exists s1. split; [done|]. left.
    subst count. rewrite Hpend, ztake_app, zdrop_app, zlen_app. 
    pose proof (zlen_nonneg (pending s1)). repeat split; try done; lia.
Qed.

Lemma base_loop_delivers what limit count s :
  (forall m, 0 < m -> 0 < limit m <= m) -> 0 < count -> ok s ->
  delivers ok pending offset
    (fun c s => run_loop c (try_read_step basic_read what limit c) (0, [], s) s) s count.
Proof using offset_range basic_read_law.
  intros Hlim Hc Hs. unfold delivers, run_loop.
  destruct (loop_pos_rule (try_read_step basic_read what limit count) (try_read_inv s count)
    (try_read_post s count) (fun st => Z.to_nat (count - fst (fst st)))
    (Z.to_pos (count + 1)) (0, [], s)) as (r & -> & Hr); [| | |exact Hr].
  - intros st Hst. by apply try_read_step_ok.
  - repeat split; try done; try lia. rewrite Z.add_0_r.
    symmetry. by apply wrap_small, offset_range.
  - simpl. lia.
Qed.

Lemma base_try_read_delivers s n :
  ok s -> 0 < n -> delivers ok pending offset (base_try_read basic_read) s n.
Proof using offset_range basic_read_law.
  intros. apply (base_loop_delivers _ (fun m => m)); [lia|done|done].
Qed.

Lemma base_try_read_string_delivers s n :
  ok s -> 0 < n -> delivers ok pending offset (base_try_read_string basic_read) s n.
Proof using offset_range basic_read_law.
  intros. apply (base_loop_delivers _
    (fun n => if n <? CHANNEL_BUFFER_SIZE then n else CHANNEL_BUFFER_SIZE)); [|done|done].
  intros m Hm. unfold CHANNEL_BUFFER_SIZE. destruct (Z.ltb_spec m 1024); lia.
Qed.

Lemma base_try_read_0 s : base_try_read basic_read 0 s = (Val (Some []), s).
Proof. done. Qed.
Lemma base_try_read_string_0 s : base_try_read_string basic_read 0 s = (Val (Some []), s).
Proof. done. Qed.
End base_laws.

(** *** Byte order *)

Lemma u8_shiftr_wrap w k x : 0 <= k -> k + 8 <= w -> u8 (Z.shiftr (wrap w x) k) = u8 (Z.shiftr x k).
Proof.
  intros. unfold wrap. apply Z.bits_inj'. intros i Hi.
  destruct (Z.lt_ge_cases i 8).
  - rewrite !Z.mod_pow2_bits_low, !Z.shiftr_spec by lia.
    by rewrite Z.mod_pow2_bits_low by lia.
  - by rewrite !Z.mod_pow2_bits_high by lia.
Qed.

Lemma hton_length k n : length (hton k n) = k.
Proof. unfold hton, zseq. by rewrite !length_map, length_seq. Qed.

Lemma hton_bytes k n : bytes_ok (hton k n).
Proof. apply Forall_fmap, Forall_true. intros. apply byte_ok_u8. Qed.

Lemma zseq_snoc a k : zseq a (S k) = zseq a k ++ [a + Z.of_nat k].
Proof. unfold zseq. by rewrite seq_S, map_app. Qed.

Lemma hton_snoc k n : hton (S k) n = hton k (Z.shiftr n 8) ++ [u8 n].
Proof.
  unfold hton. rewrite zseq_snoc, map_app. f_equal; simpl.
  - apply map_ext_in. intros i Hi. apply in_map_iff in Hi as (j & <- & Hj).
    apply in_seq in Hj. rewrite Z.shiftr_shiftr by lia. do 2 f_equal. lia.
  - repeat f_equal. replace (8 * _) with 0 by lia. apply Z.shiftr_0_r.
Qed.

Lemma nbo_snoc l b : nbo (l ++ [b]) = nbo l * 256 + b.
Proof. unfold nbo. by rewrite fold_left_app. Qed.

Lemma nbo_hton k n : nbo (hton k n) = wrap (8 * Z.of_nat k) n.
Proof.
  revert n. induction k as [|k IH]; intros n.
  - unfold wrap. by rewrite Z.mod_1_r.
  - rewrite hton_snoc, nbo_snoc, IH, Z.shiftr_div_pow2 by lia.
    unfold wrap. change (2 ^ 8) with 256.
    replace (8 * Z.of_nat (S k)) with (8 + 8 * Z.of_nat k) by lia.
    rewrite Z.pow_add_r by lia. change (2 ^ 8) with 256.
    rewrite (Z.rem_mul_r n 256) by lia. lia.
Qed.

Lemma wrap_mid w k x : in_u w k -> wrap w (2 ^ w * x + k) = k.
Proof.
  intros [H0 H1]. unfold wrap.
  rewrite Z.add_comm, Z.mul_comm, Z.mod_add by lia. apply Z.mod_small. lia.
Qed.

(** *** Reading on the interface *)
Section reads_lemmas.
Context {S : Type} `{ReaderLaws S}.

Lemma reads_ret {A} (a : A) s rest : r_ok s -> pending s = rest -> reads (ret a) s a rest.
Proof. intros. by exists s. Qed.

Lemma reads_bind {A B} (m : M S Error A) (k : A -> M S Error B) s a mid b rest :
  reads m s a mid ->
  (forall s', r_ok s' -> pending s' = mid -> reads (k a) s' b rest) ->
  reads (bind m k) s b rest.
Proof.
  intros (s1 & Hm & Hok & Hp) Hk. destruct (Hk s1 Hok Hp) as (s2 & Hk2 & Hok2 & Hp2).
  exists s2. by rewrite (bind_val m k s a s1).
Qed.

Lemma eof_bind {A B} (m : M S Error A) (k : A -> M S Error B) s :
  eof m s -> eof (bind m k) s.
Proof.
  intros (e & s1 & Hm & He & Hok). exists e, s1. by rewrite (bind_throw m k s e s1).
Qed.

Lemma eof_bind_later {A B} (m : M S Error A) (k : A -> M S Error B) s a mid :
  reads m s a mid -> (forall s', r_ok s' -> pending s' = mid -> eof (k a) s') ->
  eof (bind m k) s.
Proof.
  intros (s1 & Hm & Hok & Hp) Hk. destruct (Hk s1 Hok Hp) as (e & s2 & Hk2 & He & Hok2).
  exists e, s2. by rewrite (bind_val m k s a s1).
Qed.

Lemma reads_read s d rest :
  r_ok s -> pending s = d ++ rest -> d <> [] -> reads (read (zlen d)) s d rest.
Proof.
  intros Hok Hp Hd. assert (0 < zlen d) as Hpos.
  { destruct d; [done|]. rewrite zlen_cons. pose proof (zlen_nonneg d). lia. }
  destruct (try_read_law s (zlen d) Hok Hpos) as
    (s' & Hok' & [(Hle & Hr & Hp' & _)|[(Hnil & _)|(_ & Hlt & _)]]).
  - exists s'. unfold read. rewrite (bind_val _ _ _ _ _ Hr).
    rewrite Hp, ztake_app. split; [done|]. split; [done|]. by rewrite Hp', Hp, zdrop_app.
  - rewrite Hp in Hnil. by destruct d.
  - rewrite Hp, zlen_app in Hlt. pose proof (zlen_nonneg rest). lia.
Qed.

Lemma eof_read s n : r_ok s -> 0 < n -> zlen (pending s) < n -> eof (read n) s.
Proof.
  intros Hok Hn Hlt. destruct (try_read_law s n Hok Hn) as
    (s' & Hok' & [(Hle & _)|[(Hnil & Hr & _)|(_ & _ & _ & e & Hr & He)]]); [lia| |].
  - eexists _, s'. unfold read. by rewrite (bind_val _ _ _ _ _ Hr).
  - exists e, s'. unfold read. by rewrite (bind_throw _ _ _ _ _ Hr).
Qed.

Lemma reads_read_string s d rest :
  ReadsNothing S -> r_ok s -> pending s = d ++ rest -> reads (read_string (zlen d)) s d rest.
Proof.
  intros Hz Hok Hp. destruct (decide (d = [])) as [->|Hd].
  { exists s. unfold read_string. rewrite (bind_val _ _ _ _ _ (try_read_string_0 s Hok)).
    by rewrite Hp. }
  assert (0 < zlen d) as Hpos.
  { destruct d; [done|]. rewrite zlen_cons. pose proof (zlen_nonneg d). lia. }
  destruct (try_read_string_law s (zlen d) Hok Hpos) as
    (s' & Hok' & [(Hle & Hr & Hp' & _)|[(Hnil & _)|(_ & Hlt & _)]]).
  - exists s'. unfold read_string. rewrite (bind_val _ _ _ _ _ Hr).
    rewrite Hp, ztake_app. split; [done|]. split; [done|]. by rewrite Hp', Hp, zdrop_app.
  - rewrite Hp in Hnil. by destruct d.
  - rewrite Hp, zlen_app in Hlt. pose proof (zlen_nonneg rest). lia.
Qed.

Lemma eof_read_string s n :
  r_ok s -> 0 < n -> zlen (pending s) < n -> eof (read_string n) s.
Proof.
  intros Hok Hn Hlt. destruct (try_read_string_law s n Hok Hn) as
    (s' & Hok' & [(Hle & _)|[(Hnil & Hr & _)|(_ & _ & _ & e & Hr & He)]]); [lia| |].
  - eexists _, s'. unfold read_string. by rewrite (bind_val _ _ _ _ _ Hr).
  - exists e, s'. unfold read_string. by rewrite (bind_throw _ _ _ _ _ Hr).
Qed.

(** [read] of a fixed field, whose bytes [f] turns into the result. *)
Lemma reads_field {A} (f : bytes -> A) s d rest n :
  r_ok s -> pending s = d ++ rest -> zlen d = n -> 0 < n ->
  reads (bind (read n) (fun d => ret (f d))) s (f d) rest.
Proof.
  intros Hok Hp <- Hn. eapply reads_bind; [apply reads_read; try done|].
  - intros ->. unfold zlen in Hn. simpl in Hn. lia.
  - intros. by apply reads_ret.
Qed.

Lemma reads_byte s b rest : r_ok s -> pending s = b :: rest -> reads read_byte s b rest.
Proof. intros. by apply (reads_field (fun d => zget 0 d 0) s [b]). Qed.

Lemma eof_byte s : r_ok s -> pending s = [] -> eof read_byte s.
Proof. intros Hok Hp. apply eof_bind, eof_read; [done|lia|]. by rewrite Hp. Qed.
End reads_lemmas.

(** *** Writing on the interface *)
Section writes_lemmas.
Context {S : Type} `{WriterLaws S}.

Lemma writes_nil : writes (ret tt) [].
Proof.
  split; [done|]. intros s Hok _. exists s. rewrite app_nil_r. repeat split; try done.
Qed.

Lemma writes_basic d : bytes_ok d -> writes (basic_write d) d.
Proof. intros Hd. split; [done|]. intros s Hok Hf. by apply basic_write_law. Qed.

Lemma writes_bind m k d1 d2 : writes m d1 -> writes k d2 -> writes (m ;;; k) (d1 ++ d2).
Proof.
  intros [Hd1 H1] [Hd2 H2]. split; [by apply Forall_app|].
  intros s Hok Hf. rewrite zlen_app in *.
  pose proof (zlen_nonneg d1); pose proof (zlen_nonneg d2).
  destruct (H1 s Hok) as (s1 & Hm & Hok1 & Hw1 & Hf1); [eapply fits_le; [done|lia]|].
  destruct (H2 s1 Hok1) as (s2 & Hk & Hok2 & Hw2 & Hf2); [apply Hf1; [lia|done]|].
  exists s2. rewrite (bind_val m (fun _ => k) s tt s1 Hm). repeat split; try done.
  - by rewrite Hw2, Hw1, app_assoc.
  - intros n Hn Hfn. apply Hf2; [done|]. apply Hf1; [lia|].
    by replace (zlen d1 + (zlen d2 + n)) with (zlen d1 + zlen d2 + n) by lia.
Qed.

Lemma writes_eq m d d' : writes m d -> d = d' -> writes m d'.
Proof. by intros ? <-. Qed.

Lemma writes_byte b : writes (write_byte b) [u8 b].
Proof. apply writes_basic. by repeat constructor; apply byte_ok_u8. Qed.

Lemma writes_nbo_16 i : writes (write_nbo_16 i) (hton 2 (u16 i)).
Proof. apply writes_basic, hton_bytes. Qed.

Lemma writes_nbo_24 i : in_u 24 i -> writes (write_nbo_24 i) (hton 3 i).
Proof.
  intros Hi. eapply writes_eq; [apply writes_basic|].
  - by repeat constructor; apply byte_ok_u8.
  - unfold hton. simpl. by rewrite Z.shiftr_0_r.
Qed.

Lemma writes_nbo_32 i : writes (write_nbo_32 i) (hton 4 (u32 i)).
Proof. apply writes_basic, hton_bytes. Qed.

Lemma writes_nbo_64 i : in_u 64 i -> writes (write_nbo_64 i) (hton 8 i).
Proof.
  intros Hi. eapply writes_eq; [apply writes_bind; apply writes_nbo_32|].
  change 4294967295 with (Z.ones 32). rewrite Z.land_ones by lia.
  rewrite !(wrap_wrap 32 32) by lia. fold (u32 i). rewrite (wrap_wrap 32 32) by lia.
  unfold hton. simpl. rewrite !u8_shiftr_wrap by lia. rewrite !Z.shiftr_shiftr by lia. done.
Qed.

Lemma writes_le_16 i : writes (write_le_16 i) [u8 i; u8 (Z.shiftr i 8)].
Proof. apply writes_basic. by repeat constructor; apply byte_ok_u8. Qed.
Lemma writes_le_24 i : writes (write_le_24 i) [u8 i; u8 (Z.shiftr i 8); u8 (Z.shiftr i 16)].
Proof. apply writes_basic. by repeat constructor; apply byte_ok_u8. Qed.
Lemma writes_le_32 i : writes (write_le_32 i)
  [u8 i; u8 (Z.shiftr i 8); u8 (Z.shiftr i 16); u8 (Z.shiftr i 24)].
Proof. apply writes_basic. by repeat constructor; apply byte_ok_u8. Qed.

Lemma writes_le_64 i : writes (write_le_64 i) (rev (hton 8 i)).
Proof.
  eapply writes_eq; [apply writes_bind; apply writes_le_32|].
  change 4294967295 with (Z.ones 32). rewrite Z.land_ones by lia.
  fold (u32 i). rewrite !(wrap_wrap 32 32) by lia.
  unfold hton. simpl. rewrite !u8_shiftr_wrap, !(wrap_wrap 8 32) by lia.
  rewrite !Z.shiftr_shiftr by lia. by rewrite Z.shiftr_0_r.
Qed.
End writes_lemmas.

(** *** Integers: a writer's bytes are read back *)

(** [w] writes a value of [dom] as bytes from which [r] reads it back, whatever
    follows them. *)
Definition channel_codec {R W} `{ReaderLaws R} `{WriterLaws W}
    (w : Z -> M W Error unit) (r : M R Error Z) (dom : Z -> Prop) : Prop :=
  forall i, dom i -> exists d, writes (w i) d /\
    forall s rest, r_ok s -> pending s = d ++ rest -> reads r s i rest.

Section codecs.
Context {R W : Type} `{ReaderLaws R} `{WriterLaws W}.

Lemma field_codec (w : Z -> M W Error unit) (f : bytes -> Z) k dom (enc : Z -> bytes) :
  (0 < k)%nat ->
  (forall i, dom i -> writes (w i) (enc i) /\ length (enc i) = k /\ f (enc i) = i) ->
  channel_codec (R := R) w (bind (read (Z.of_nat k)) (fun d => ret (f d))) dom.
Proof.
  intros Hk Henc i Hi. destruct (Henc i Hi) as (Hw & Hl & Hf).
  exists (enc i). split; [done|]. intros s rest Hok Hp.
  pose proof (reads_field f s (enc i) rest (Z.of_nat k) Hok Hp) as Hread.
  rewrite Hf in Hread. apply Hread; unfold zlen; lia.
Qed.

Lemma read_nbo_32_hton s i rest :
  in_u 32 i -> r_ok (S := R) s -> pending s = hton 4 i ++ rest -> reads read_nbo_32 s i rest.
Proof.
  intros Hi Hok Hp. pose proof (reads_field nbo s (hton 4 i) rest 4 Hok Hp) as Hread.
  rewrite nbo_hton, wrap_small in Hread by done. by apply Hread.
Qed.

Lemma hton_8_split i : hton 8 i = hton 4 (u32 (Z.shiftr i 32)) ++ hton 4 (u32 i).
Proof.
  unfold hton. simpl. rewrite !u8_shiftr_wrap by lia. by rewrite !Z.shiftr_shiftr by lia.
Qed.

Lemma u64_join i : in_u 64 i -> u64 (u64 (Z.shiftl (u32 (Z.shiftr i 32)) 32) + u32 i) = i.
Proof.
  unfold in_u. intros Hi. rewrite Z.shiftl_mul_pow2, Z.shiftr_div_pow2 by lia.
  unfold wrap. rewrite (Z.mod_small (i / 2 ^ 32)).
  2: { split; [apply Z.div_pos; lia|]. apply Z.div_lt_upper_bound; lia. }
  pose proof (Z.div_mod i (2 ^ 32)). pose proof (Z.mod_pos_bound i (2 ^ 32)).
  pose proof (Z.div_pos i (2 ^ 32)).
  rewrite (Z.mod_small (i / 2 ^ 32 * 2 ^ 32)) by lia. rewrite Z.mod_small by lia. lia.
Qed.

Lemma read_nbo_64_hton s i rest :
  in_u 64 i -> r_ok (S := R) s -> pending s = hton 8 i ++ rest -> reads read_nbo_64 s i rest.
Proof.
  intros Hi Hok Hp. rewrite hton_8_split, <- app_assoc in Hp.
  eapply reads_bind; [eapply read_nbo_32_hton; [by apply wrap_range|done|exact Hp]|].
  intros s1 Hok1 Hp1.
  eapply reads_bind; [eapply read_nbo_32_hton; [by apply wrap_range|done|exact Hp1]|].
  intros s2 Hok2 Hp2. rewrite <- (u64_join i Hi) at 3. by apply reads_ret.
Qed.

Lemma le_32_bytes x : le_32 [u8 x; u8 (Z.shiftr x 8); u8 (Z.shiftr x 16); u8 (Z.shiftr x 24)] = u32 x.
Proof.
  unfold le_32, zget. simpl. rewrite !Z.shiftl_mul_pow2, !Z.shiftr_div_pow2 by lia.
  unfold wrap. Z.div_mod_to_equations. lia.
Qed.

Lemma read_le_32_bytes s x rest :
  r_ok (S := R) s ->
  pending s = [u8 x; u8 (Z.shiftr x 8); u8 (Z.shiftr x 16); u8 (Z.shiftr x 24)] ++ rest ->
  reads read_le_32 s (u32 x) rest.
Proof. intros Hok Hp. rewrite <- le_32_bytes. by apply (reads_field le_32). Qed.
End codecs.

(** *** Skipping to the end *)

Section skip_to_eof.
Context {S : Type} `{ReaderLaws S}.

(** How [while (try_read(0, 1024));] ends. *)
Lemma skip_to_eof_cases s fuel :
  r_ok s -> zlen (pending s) < Z.pos fuel ->
  exists s', r_ok s' /\ pending s' = [] /\
    (zlen (pending s) mod CHANNEL_BUFFER_SIZE = 0 /\
       base_skip_to_eof fuel s = (Val tt, s') \/
     zlen (pending s) mod CHANNEL_BUFFER_SIZE <> 0 /\
       exists e, base_skip_to_eof fuel s = (Throw e, s') /\ error e = 0).
Proof.
  intros Hs Hfuel. unfold base_skip_to_eof.
  set (L := zlen (pending s)) in *.
  destruct (loop_pos_rule skip_to_eof_step
    (fun s1 => r_ok s1 /\ zlen (pending s1) mod CHANNEL_BUFFER_SIZE =
                          L mod CHANNEL_BUFFER_SIZE)
    (fun '(r, s1) => r_ok s1 /\ pending s1 = [] /\
      (L mod CHANNEL_BUFFER_SIZE = 0 /\ r = Val tt \/
       L mod CHANNEL_BUFFER_SIZE <> 0 /\ exists e, r = Throw e /\ error e = 0))
    (fun s1 => List.length (pending s1)) fuel s) as ([r s1] & -> & Hok1 & Hp1 & Hr).
  - intros s1 [Hok1 Hmod]. unfold skip_to_eof_step.
    assert (0 < CHANNEL_BUFFER_SIZE) as HB by done.
    destruct (try_read_law s1 CHANNEL_BUFFER_SIZE Hok1 HB) as
      (s2 & Hok2 & [(Hle & -> & Hp2 & _)|[(Hnil & -> & Hp2 & _)|
                    (Hne & Hlt & Hp2 & e & -> & He)]]); unfold CHANNEL_BUFFER_SIZE in *.
    + split; [split; [done|]|].
      * rewrite Hp2, zlen_zdrop, <- Hmod, Z.max_r by lia.
        rewrite <- (Z.mod_add (zlen (pending s1) - 1024) 1 1024) by lia. f_equal. lia.
      * rewrite Hp2. unfold zdrop, zlen in *. rewrite length_drop. lia.
    + split_and!; try done. left. split; [|done]. by rewrite <- Hmod, Hnil.
    + split_and!; try done. right. split; [|by eexists]. rewrite <- Hmod.
      assert (0 < zlen (pending s1)).
      { pose proof (zlen_nonneg (pending s1)).
        destruct (Z.eq_dec (zlen (pending s1)) 0) as [Hz|]; [|lia].
        by apply zlen_zero in Hz. }
      rewrite Z.mod_small by lia. lia.
  - done.
  - unfold L, zlen in Hfuel. lia.
  - exists s1. split_and!; try done. destruct Hr as [[? ->]|[? (e & -> & He)]]; eauto.
Qed.
End skip_to_eof.

(** Every fixed-width integer a writer sends (16, 24, 32 and 64 bits, network
    or little-endian order) is read back by the reader of the same format, from
    any channel that keeps the reader's contract and whatever follows it. *)
Theorem integers_roundtrip {R W : Type} `{ReaderLaws R} `{WriterLaws W} :
  channel_codec (R := R) (W := W) write_nbo_16 read_nbo_16 (in_u 16) /\
  channel_codec (R := R) (W := W) write_nbo_24 read_nbo_24 (in_u 24) /\
  channel_codec (R := R) (W := W) write_nbo_32 read_nbo_32 (in_u 32) /\
  channel_codec (R := R) (W := W) write_nbo_64 read_nbo_64 (in_u 64) /\
  channel_codec (R := R) (W := W) write_le_16 read_le_16 (in_u 16) /\
  channel_codec (R := R) (W := W) write_le_24 read_le_24 (in_u 24) /\
  channel_codec (R := R) (W := W) write_le_32 read_le_32 (in_u 32) /\
  channel_codec (R := R) (W := W) write_le_64 read_le_64 (in_u 64).
Proof.
  repeat match goal with |- _ /\ _ => split end.
  - apply (field_codec _ nbo 2 _ (fun i => hton 2 (u16 i))); [lia|]. intros i Hi.
    split; [apply writes_nbo_16|]. split; [apply hton_length|].
    rewrite nbo_hton, wrap_wrap by lia. by apply wrap_small.
  - apply (field_codec _ (fun buf => u32 (u32 (Z.shiftl (zget 0 buf 0) 16)
      + u32 (Z.shiftl (zget 0 buf 1) 8) + zget 0 buf 2)) 3 _ (hton 3)); [lia|].
    intros i Hi. split; [by apply writes_nbo_24|]. split; [apply hton_length|].
    unfold hton, zget. simpl. unfold in_u, wrap in *.
    rewrite !Z.shiftl_mul_pow2, !Z.shiftr_div_pow2 by lia. Z.div_mod_to_equations. lia.
  - intros i Hi. exists (hton 4 i). split.
    + rewrite <- (wrap_small 32 i Hi) at 2. apply writes_nbo_32.
    + intros. by eapply read_nbo_32_hton.
  - intros i Hi. exists (hton 8 i). split; [by apply writes_nbo_64|].
    intros. by eapply read_nbo_64_hton.
  - apply (field_codec _ (fun buf => u16 (zget 0 buf 0 + Z.shiftl (zget 0 buf 1) 8)) 2 _
      (fun i => [u8 i; u8 (Z.shiftr i 8)])); [lia|].
    intros i Hi. split; [apply writes_le_16|]. split; [done|]. unfold zget, in_u, wrap in *.
    simpl. rewrite !Z.shiftl_mul_pow2, !Z.shiftr_div_pow2 by lia. Z.div_mod_to_equations. lia.
  - apply (field_codec _ (fun buf => u32 (zget 0 buf 0 + u32 (Z.shiftl (zget 0 buf 1) 8)
      + u32 (Z.shiftl (zget 0 buf 2) 16))) 3 _
      (fun i => [u8 i; u8 (Z.shiftr i 8); u8 (Z.shiftr i 16)])); [lia|].
    intros i Hi. split; [apply writes_le_24|]. split; [done|]. unfold zget, in_u, wrap in *.
    simpl. rewrite !Z.shiftl_mul_pow2, !Z.shiftr_div_pow2 by lia. Z.div_mod_to_equations. lia.
  - apply (field_codec _ le_32 4 _
      (fun i => [u8 i; u8 (Z.shiftr i 8); u8 (Z.shiftr i 16); u8 (Z.shiftr i 24)])); [lia|].
    intros i Hi. split; [apply writes_le_32|]. split; [done|].
    rewrite le_32_bytes. by apply wrap_small.
  - intros i Hi. exists (rev (hton 8 i)). split; [apply writes_le_64|]. intros s rest Hok Hp.
    eapply reads_bind; [apply (read_le_32_bytes s i); [done|exact Hp]|].
    intros s1 Hok1 Hp1. eapply reads_bind.
    { apply (read_le_32_bytes s1 (Z.shiftr i 32)); [done|]. rewrite Hp1.
      rewrite !Z.shiftr_shiftr by lia. done. }
    intros s2 Hok2 Hp2. rewrite <- (u64_join i Hi) at 3.
    rewrite <- (Z.add_comm (u32 i)). apply reads_ret; [done|].
    unfold hton in Hp. done.
Qed.

(** [Reader::skip_to_eof] always ends and consumes the whole channel, but throws
    an end-of-file error unless what was left is a whole number of buffers. *)
Theorem skip_to_eof_throws_on_partial_buffer {S : Type} `{ReaderLaws S} s fuel :
  r_ok s -> zlen (pending s) < Z.pos fuel ->
  exists s', pending s' = [] /\
    (zlen (pending s) mod CHANNEL_BUFFER_SIZE = 0 /\ base_skip_to_eof fuel s = (Val tt, s') \/
     zlen (pending s) mod CHANNEL_BUFFER_SIZE <> 0 /\
       exists e, base_skip_to_eof fuel s = (Throw e, s') /\ error e = 0).
Proof.
  intros Hs Hf. destruct (skip_to_eof_cases s fuel Hs Hf) as (s' & _ & Hp & Hr). eauto.
Qed.
