(* ===== verification/ChanImpl.v ===== *)
(** * The concrete channels

    Models [src/libs/chan/string-chan.cc], [block-chan.cc] and the
    [LimitedReader] of [ot-chan.h], and shows that they keep the contract of
    [Chan.v]: the instances of [ReaderLaws] and [WriterLaws].

    A memory channel is its block and an offset; the [data] pointer of a block
    channel is the index of the block it points at. *)
From S2P Require Export Chan.

(** ** [StringReader] *)
Module StringReader.
Record t := mk { data : bytes; offset : Z }.

Definition basic_read (count : Z) : M t Error bytes := fun s =>
  let length := zlen (data s) in
  let count := if u64 (length - offset s) <? count then u64 (length - offset s)
               else count in
  if negb (count =? 0) then
    (Val (ztake count (zdrop (offset s) (data s))),
     mk (data s) (u64 (offset s + count)))
  else (Val [], s).

Definition skip (n : Z) : M t Error unit := fun s =>
  let length := zlen (data s) in
  if u64 (offset s + n) >? length then
    (Throw (mk_Error 1 (str "Skip beyond end of string")), s)
  else (Val tt, mk (data s) (u64 (offset s + n))).

Definition rewind (n : Z) : M t Error unit := fun s =>
  if n <=? offset s then (Val tt, mk (data s) (u64 (offset s - n)))
  else (Throw (mk_Error 1 (str "Rewound too far")), s).

Definition init (d : bytes) : t := mk d 0.
End StringReader.

#[export] Instance string_reader : Reader StringReader.t := {
  basic_read := StringReader.basic_read;
  try_read := base_try_read StringReader.basic_read;
  try_read_string := base_try_read_string StringReader.basic_read;
  skip := StringReader.skip;
  rewind := StringReader.rewind;
  get_offset := StringReader.offset
}.

(** ** [BlockReader]: [data] is a pointer into the block *)
Module BlockReader.
Record t := mk { block : bytes; data : Z; length : Z; offset : Z }.

Definition basic_read (count : Z) : M t Error bytes := fun s =>
  let count := if u64 (length s - offset s) <? count then u64 (length s - offset s)
               else count in
  if negb (count =? 0) then
    (Val (ztake count (zdrop (data s) (block s))),
     mk (block s) (u64 (data s + count)) (length s) (u64 (offset s + count)))
  else (Val [], s).

Definition skip (n : Z) : M t Error unit := fun s =>
  if u64 (offset s + n) >? length s then
    (Throw (mk_Error 1 (str "Skip beyond end of block")), s)
  else (Val tt, mk (block s) (u64 (data s + n)) (length s) (u64 (offset s + n))).

Definition rewind (n : Z) : M t Error unit := fun s =>
  if n <=? offset s then
    (Val tt, mk (block s) (u64 (data s - n)) (length s) (u64 (offset s - n)))
  else (Throw (mk_Error 1 (str "Rewound too far")), s).

Definition init (d : bytes) : t := mk d 0 (zlen d) 0.
End BlockReader.

#[export] Instance block_reader : Reader BlockReader.t := {
  basic_read := BlockReader.basic_read;
  try_read := base_try_read BlockReader.basic_read;
  try_read_string := base_try_read_string BlockReader.basic_read;
  skip := BlockReader.skip;
  rewind := BlockReader.rewind;
  get_offset := BlockReader.offset
}.

(** ** [LimitedReader]: at most [left] more bytes of another reader *)
Module LimitedReader.
Section limited.
Context {S : Type} `{Reader S}.

Record t := mk { reader : S; left : Z; offset : Z }.

Definition basic_read (count : Z) : M t Error bytes := fun s =>
  let count := if count >? left s then left s else count in
  match Chan.basic_read count (reader s) with
  | (Val d, r') => (Val d, mk r' (u64 (left s - zlen d)) (u64 (offset s + zlen d)))
  | (Throw e, r') => (Throw e, mk r' (left s) (offset s))
  end.

Definition try_read (count : Z) : M t Error (option bytes) := fun s =>
  if left s =? 0 then (Val None, s) else base_try_read basic_read count s.

Definition try_read_string (count : Z) : M t Error (option bytes) := fun s =>
  if left s =? 0 then (Val None, s) else base_try_read_string basic_read count s.

Definition read_to_eof_limit (limit : Z) : M t Error bytes := fun s =>
  base_read_to_eof_limit basic_read (Z.min (left s) limit) s.

Definition read_to_eof : M t Error bytes := fun s =>
  base_read_to_eof_limit basic_read (left s) s.

(** [skip_to_eof] skips the reader below; [left] and [offset] stay *)
Definition skip_to_eof : M t Error unit := fun s =>
  if left s =? 0 then (Val tt, s)
  else match Chan.skip (left s) (reader s) with
       | (r, r') => (r, mk r' (left s) (offset s))
       end.

#[export] Instance limited_reader : Reader t := {
  basic_read := basic_read;
  try_read := try_read;
  try_read_string := try_read_string;
  skip n := fun s =>
    (let! r := try_read n in
     match r with
     | Some _ => ret tt
     | None => throw (mk_Error 0 (str "EOF"))
     end) s;
  rewind := base_rewind;
  get_offset := offset
}.

Definition try_read_nbo_32 : M t Error (option Z) := fun s =>
  if left s =? 0 then (Val None, s) else Chan.try_read_nbo_32 s.

Definition try_read_byte : M t Error (option Z) := fun s =>
  if left s =? 0 then (Val None, s) else Chan.try_read_byte s.

Definition init (r : S) (limit : Z) : t := mk r limit 0.
End limited.
Arguments t S : clear implicits.
End LimitedReader.
#[export] Existing Instance LimitedReader.limited_reader.

(** ** [StringWriter] *)
Module StringWriter.
Record t := mk { data : bytes; offset : Z }.

Definition basic_write (buf : bytes) : M t Error unit := fun s =>
  (Val tt, mk (data s ++ buf) (u64 (offset s + zlen buf))).

Definition skip (n : Z) : M t Error unit := fun s =>
  (Val tt, mk (data s ++ replicate (Z.to_nat n) 0) (u64 (offset s + n))).

(** [data.erase(offset)] truncates the string *)
Definition rewind (n : Z) : M t Error unit := fun s =>
  if n <=? offset s then
    let o := u64 (offset s - n) in (Val tt, mk (ztake o (data s)) o)
  else (Throw (mk_Error 1 (str "Rewound too far")), s).

Definition init : t := mk [] 0.
End StringWriter.

#[export] Instance string_writer : Writer StringWriter.t := {
  basic_write := StringWriter.basic_write;
  write_skip := StringWriter.skip;
  write_rewind := StringWriter.rewind;
  write_offset := StringWriter.offset
}.

(** ** [BlockWriter]: a fixed block of memory *)
Module BlockWriter.
Record t := mk { block : bytes; data : Z; length : Z; offset : Z }.

(** [memcpy(data, buf, count)]: the block after the copy at index [p] *)
Definition memcpy (block : bytes) (p : Z) (buf : bytes) : bytes :=
  ztake p block ++ buf ++ zdrop (p + zlen buf) block.

Definition basic_write (buf : bytes) : M t Error unit := fun s =>
  let count := zlen buf in
  if count <=? u64 (length s - offset s) then
    (Val tt, mk (memcpy (block s) (data s) buf) (u64 (data s + count)) (length s)
                (u64 (offset s + count)))
  else (Throw (mk_Error 1 (str "Data block overflowed")), s).

Definition skip (n : Z) : M t Error unit := fun s =>
  if u64 (offset s + n) <=? length s then
    (Val tt, mk (memcpy (block s) (data s) (replicate (Z.to_nat n) 0)) (u64 (data s + n))
                (length s) (u64 (offset s + n)))
  else (Throw (mk_Error 1 (str "Data block overflowed in skip")), s).

Definition rewind (n : Z) : M t Error unit := fun s =>
  if n <=? offset s then
    (Val tt, mk (block s) (u64 (data s - n)) (length s) (u64 (offset s - n)))
  else (Throw (mk_Error 1 (str "Rewound too far")), s).

Definition get_remaining (s : t) : Z := u64 (length s - offset s).

Definition init (block : bytes) : t := mk block 0 (zlen block) 0.
End BlockWriter.

#[export] Instance block_writer : Writer BlockWriter.t := {
  basic_write := BlockWriter.basic_write;
  write_skip := BlockWriter.skip;
  write_rewind := BlockWriter.rewind;
  write_offset := BlockWriter.offset
}.

(* ------------------------------------------------------------------ *)
(** ** Lemmas: the channels keep their contracts *)

Lemma u64_sub_small a b : 0 <= b <= a -> a < 2 ^ 64 -> u64 (a - b) = a - b.
Proof. intros. apply wrap_small. unfold in_u. lia. Qed.

Lemma u64_small a : 0 <= a < 2 ^ 64 -> u64 a = a.
Proof. apply wrap_small. Qed.

Lemma bytes_ok_ztake n (l : bytes) : bytes_ok l -> bytes_ok (ztake n l).
Proof. apply Forall_take. Qed.
Lemma bytes_ok_zdrop n (l : bytes) : bytes_ok l -> bytes_ok (zdrop n l).
Proof. apply Forall_drop. Qed.
#[export] Hint Resolve bytes_ok_ztake bytes_ok_zdrop : obt.

(** What reading [count] bytes of [d] from index [o] delivers. *)
Lemma memory_read (d : bytes) o count :
  0 <= o <= zlen d -> 0 <= count ->
  let k := Z.min count (zlen d - o) in
  zdrop o d = ztake k (zdrop o d) ++ zdrop (o + k) d /\
  zlen (ztake k (zdrop o d)) = k.
Proof.
  intros Ho Hc k. assert (0 <= k) by (unfold k; lia). split.
  - rewrite <- (zdrop_zdrop k o d), ztake_zdrop by lia. done.
  - rewrite zlen_ztake, zlen_zdrop by lia. lia.
Qed.

Lemma min_if a b : (if a <? b then a else b) = Z.min b a.
Proof. destruct (Z.ltb_spec a b); lia. Qed.

Module StringReaderFacts.
Import StringReader.
Definition ok (s : t) : Prop :=
  0 <= offset s <= zlen (data s) /\ zlen (data s) < 2 ^ 64 /\ bytes_ok (data s).
Definition pend (s : t) : bytes := zdrop (offset s) (data s).

Lemma sr_basic_read_ok s n : ok s -> 0 <= n ->
  exists d s', basic_read n s = (Val d, s') /\ ok s' /\ pend s = d ++ pend s' /\
    zlen d <= n /\ (0 < n -> pend s <> [] -> d <> []) /\
    offset s' = u64 (offset s + zlen d).
Proof.
  intros Hok Hn. pose proof Hok as (Ho & Hl & Hb). unfold basic_read. rewrite u64_sub_small, min_if by lia.
  destruct (memory_read (data s) (offset s) n) as [Hsplit Hk]; [lia|lia|].
  set (k := Z.min n (zlen (data s) - offset s)) in *.
  destruct (Z.eqb_spec k 0) as [Hz|Hz]; simpl.
  - exists [], s. rewrite zlen_nil, Z.add_0_r, u64_small by lia.
    split_and!; try done; try lia.
    intros Hpos Hne _. apply Hne. unfold pend. apply zdrop_ge. lia.
  - assert (0 < k) by lia.
    exists (ztake k (zdrop (offset s) (data s))), (mk (data s) (u64 (offset s + k))).
    rewrite Hk. unfold ok, pend. simpl. rewrite u64_small by lia.
    split_and!; try done; try lia.
    intros _ _ Hnil. rewrite Hnil, zlen_nil in Hk. lia.
Qed.

Lemma sr_offset_ok s : ok s -> in_u 64 (offset s).
Proof. unfold ok, in_u. lia. Qed.
End StringReaderFacts.

#[export] Instance string_reader_laws : ReaderLaws StringReader.t.
Proof.
  refine {| r_ok := StringReaderFacts.ok; pending := StringReaderFacts.pend |}.
  - intros s (_ & _ & Hb). by apply bytes_ok_zdrop.
  - apply StringReaderFacts.sr_offset_ok.
  - apply StringReaderFacts.sr_basic_read_ok.
  - intros. apply base_try_read_delivers; [apply StringReaderFacts.sr_offset_ok
      |apply StringReaderFacts.sr_basic_read_ok|done|done].
  - intros. apply base_try_read_string_delivers; [apply StringReaderFacts.sr_offset_ok
      |apply StringReaderFacts.sr_basic_read_ok|done|done].
Defined.

#[export] Instance string_reads_nothing : ReadsNothing StringReader.t.
Proof. by split. Qed.

Module BlockReaderFacts.
Import BlockReader.
Definition ok (s : t) : Prop :=
  0 <= offset s <= length s /\ data s = offset s /\ length s = zlen (block s) /\
  length s < 2 ^ 64 /\ bytes_ok (block s).
Definition pend (s : t) : bytes := zdrop (data s) (block s).

Lemma br_basic_read_ok s n : ok s -> 0 <= n ->
  exists d s', basic_read n s = (Val d, s') /\ ok s' /\ pend s = d ++ pend s' /\
    zlen d <= n /\ (0 < n -> pend s <> [] -> d <> []) /\
    offset s' = u64 (offset s + zlen d).
Proof.
  intros Hok Hn. pose proof Hok as (Ho & Hd & Hlen & Hl & Hb). unfold basic_read.
  rewrite u64_sub_small, min_if by lia.
  destruct (memory_read (block s) (data s) n) as [Hsplit Hk]; [lia|lia|].
  rewrite Hlen, <- Hd in *.
  set (k := Z.min n (zlen (block s) - data s)) in *.
  destruct (Z.eqb_spec k 0) as [Hz|Hz]; simpl.
  - exists [], s. rewrite zlen_nil, Z.add_0_r, <- Hd, u64_small by lia.
    split_and!; try done; try lia.
    intros Hpos Hne _. apply Hne. unfold pend. apply zdrop_ge. lia.
  - assert (0 < k) by lia.
    eexists (ztake k (zdrop (data s) (block s))), (mk _ _ _ _). split; [done|].
    rewrite Hk. unfold ok, pend. simpl. rewrite u64_small by lia.
    split_and!; try done; try lia.
    intros _ _ Hnil. rewrite Hnil, zlen_nil in Hk. lia.
Qed.

Lemma br_offset_ok s : ok s -> in_u 64 (offset s).
Proof. unfold ok, in_u. lia. Qed.
End BlockReaderFacts.

#[export] Instance block_reader_laws : ReaderLaws BlockReader.t.
Proof.
  refine {| r_ok := BlockReaderFacts.ok; pending := BlockReaderFacts.pend |}.
  - intros s (_ & _ & _ & _ & Hb). by apply bytes_ok_zdrop.
  - apply BlockReaderFacts.br_offset_ok.
  - apply BlockReaderFacts.br_basic_read_ok.
  - intros. apply base_try_read_delivers; [apply BlockReaderFacts.br_offset_ok
      |apply BlockReaderFacts.br_basic_read_ok|done|done].
  - intros. apply base_try_read_string_delivers; [apply BlockReaderFacts.br_offset_ok
      |apply BlockReaderFacts.br_basic_read_ok|done|done].
Defined.

#[export] Instance block_reads_nothing : ReadsNothing BlockReader.t.
Proof. by split. Qed.

Module LimitedReaderFacts.
Import LimitedReader.
Section limited.
Context {S : Type} `{ReaderLaws S}.

Definition ok (s : t S) : Prop :=
  r_ok (reader s) /\ in_u 64 (left s) /\ in_u 64 (offset s).
Definition pend (s : t S) : bytes := ztake (left s) (pending (reader s)).

Lemma lr_basic_read_ok s n : ok s -> 0 <= n ->
  exists d s', basic_read n s = (Val d, s') /\ ok s' /\ pend s = d ++ pend s' /\
    zlen d <= n /\ (0 < n -> pend s <> [] -> d <> []) /\
    offset s' = u64 (offset s + zlen d).
Proof.
  intros (Hr & Hl & Ho) Hn. unfold in_u in *. unfold basic_read.
  assert ((if n >? left s then left s else n) = Z.min n (left s)) as ->.
  { rewrite Z.gtb_ltb, min_if. lia. }
  destruct (basic_read_law (reader s) (Z.min n (left s)) Hr) as
    (d & r' & -> & Hr' & Hp & Hle & Hne & Hoff); [lia|].
  pose proof (zlen_nonneg d).
  pose proof (wrap_range 64 (offset s + zlen d) ltac:(lia)) as Hw. unfold in_u in Hw.
  eexists d, (mk r' _ _). split; [done|].
  unfold ok, pend, in_u. simpl. rewrite u64_sub_small by lia.
  split_and!; try done; try lia.
  - rewrite Hp at 1.
    replace (left s) with (zlen d + (left s - zlen d)) at 1 by lia.
    by rewrite ztake_add, ztake_app, zdrop_app by lia.
  - intros Hpos Hnil. apply Hne; [|intros Hp0; apply Hnil; rewrite Hp0].
    + destruct (Z.eq_dec (left s) 0) as [Hz|]; [|lia]. by rewrite Hz in Hnil.
    + unfold ztake. by rewrite take_nil.
Qed.

Lemma lr_offset_ok s : ok s -> in_u 64 (offset s).
Proof. by intros (_ & _ & ?). Qed.

Lemma left_0_delivers (s : t S) n (op : Z -> M (t S) Error (option bytes)) :
  ok s -> left s = 0 -> op n s = (Val None, s) -> delivers ok pend offset op s n.
Proof.
  intros Hok Hz Hop. exists s. split; [done|]. right; left. unfold pend.
  by rewrite Hz.
Qed.

#[export] Instance limited_reader_laws : ReaderLaws (t S).
Proof.
  refine {| r_ok := ok; pending := pend |}.
  - intros s (Hr & _). apply bytes_ok_ztake. by apply pending_bytes.
  - apply lr_offset_ok.
  - apply lr_basic_read_ok.
  - intros s n Hok Hn. destruct (decide (left s = 0)) as [Hz|Hz].
    + apply left_0_delivers; [done|done|]. simpl. unfold try_read. by rewrite Hz.
    + destruct (base_try_read_delivers basic_read offset ok pend lr_offset_ok lr_basic_read_ok
        s n Hok Hn) as (s' & Hs'). exists s'. simpl. unfold try_read.
      by rewrite (proj2 (Z.eqb_neq _ _) Hz).
  - intros s n Hok Hn. destruct (decide (left s = 0)) as [Hz|Hz].
    + apply left_0_delivers; [done|done|]. simpl. unfold try_read_string. by rewrite Hz.
    + destruct (base_try_read_string_delivers basic_read offset ok pend lr_offset_ok
        lr_basic_read_ok s n Hok Hn) as (s' & Hs'). exists s'. simpl. unfold try_read_string.
      by rewrite (proj2 (Z.eqb_neq _ _) Hz).
Defined.
End limited.
End LimitedReaderFacts.
#[export] Existing Instance LimitedReaderFacts.limited_reader_laws.

(** *** Writers *)

#[export] Instance string_writer_laws : WriterLaws StringWriter.t.
Proof.
  refine {| w_ok s := StringWriter.offset s = zlen (StringWriter.data s);
            written := StringWriter.data;
            fits s n := zlen (StringWriter.data s) + n < 2 ^ 64 |}.
  - intros; lia.
  - intros s d Hok Hd Hf. eexists. split; [reflexivity|]. simpl. rewrite Hok, zlen_app.
    pose proof (zlen_nonneg (StringWriter.data s)). pose proof (zlen_nonneg d).
    rewrite u64_small by lia. split_and!; try done. intros; lia.
Defined.

Module BlockWriterFacts.
Import BlockWriter.
Definition ok (s : t) : Prop :=
  0 <= offset s <= length s /\ data s = offset s /\ length s = zlen (block s) /\
  length s < 2 ^ 64 /\ bytes_ok (block s).

Lemma zlen_memcpy b p d : 0 <= p -> p + zlen d <= zlen b -> zlen (memcpy b p d) = zlen b.
Proof.
  intros. pose proof (zlen_nonneg d). unfold memcpy.
  rewrite !zlen_app, zlen_ztake, zlen_zdrop by lia. lia.
Qed.

Lemma take_memcpy b p d :
  0 <= p -> p + zlen d <= zlen b -> ztake (p + zlen d) (memcpy b p d) = ztake p b ++ d.
Proof.
  intros. pose proof (zlen_nonneg d). unfold memcpy. rewrite app_assoc.
  rewrite ztake_app_le, ztake_ge; rewrite ?zlen_app, ?zlen_ztake; try done; lia.
Qed.

Lemma drop_memcpy b p d :
  0 <= p -> p + zlen d <= zlen b ->
  zdrop (p + zlen d) (memcpy b p d) = zdrop (p + zlen d) b.
Proof.
  intros. pose proof (zlen_nonneg d). unfold memcpy. rewrite app_assoc.
  replace (p + zlen d) with (zlen (ztake p b ++ d)) at 1.
  - by rewrite zdrop_app.
  - rewrite zlen_app, zlen_ztake; lia.
Qed.

Lemma basic_write_fits s d : ok s -> bytes_ok d -> zlen d <= length s - offset s ->
  basic_write d s =
    (Val tt, mk (memcpy (block s) (data s) d) (data s + zlen d) (length s)
                (offset s + zlen d)) /\
  ok (mk (memcpy (block s) (data s) d) (data s + zlen d) (length s) (offset s + zlen d)).
Proof.
  intros (Ho & Hd & Hlen & Hl & Hb) Hbd Hfit. pose proof (zlen_nonneg d).
  unfold basic_write. rewrite u64_sub_small, !u64_small by lia.
  rewrite (proj2 (Z.leb_le _ _) Hfit). split; [done|]. unfold ok. simpl.
  rewrite zlen_memcpy by lia. split_and!; try lia.
  unfold memcpy. rewrite !Forall_app. auto with obt.
Qed.
End BlockWriterFacts.

#[export] Instance block_writer_laws : WriterLaws BlockWriter.t.
Proof.
  refine {| w_ok := BlockWriterFacts.ok;
            written s := ztake (BlockWriter.data s) (BlockWriter.block s);
            fits s n := n <= BlockWriter.length s - BlockWriter.offset s |}.
  - intros; lia.
  - intros s d Hok Hd Hf. pose proof Hok as (Ho & Hdata & Hlen & Hl & Hb).
    destruct (BlockWriterFacts.basic_write_fits s d Hok Hd Hf) as [Hw Hok'].
    eexists. split; [exact Hw|]. simpl. split; [done|]. split.
    + apply BlockWriterFacts.take_memcpy; lia.
    + intros; lia.
Defined.

(** *** Reading to the end *)
Section to_eof.
Context {S : Type} `{ReaderLaws S}.

(** [basic_read] always fills the buffer when it can. *)
Definition full_reads : Prop := forall s n, r_ok s -> 0 <= n ->
  exists s', basic_read n s = (Val (ztake n (pending s)), s') /\ r_ok s' /\
    pending s' = zdrop n (pending s).

Lemma read_to_eof_all s fuel :
  full_reads -> r_ok s -> zlen (pending s) < Z.pos fuel ->
  reads (base_read_to_eof basic_read fuel) s (pending s) [].
Proof.
  intros Hfull Hs Hfuel. unfold reads, base_read_to_eof.
  destruct (loop_pos_rule (read_all_step basic_read)
    (fun '(acc, s1) => r_ok s1 /\ acc ++ pending s1 = pending s)
    (fun '(r, s1) => r = Val (pending s) /\ r_ok s1 /\ pending s1 = [])
    (fun '(acc, s1) => List.length (pending s1)) fuel ([], s)) as ([r s1] & -> & -> & ? & ?).
  - intros [acc s1] [Hok Hacc]. unfold read_all_step.
    destruct (Hfull s1 CHANNEL_BUFFER_SIZE Hok ltac:(done)) as (s2 & -> & Hok2 & Hp2).
    assert (zlen (ztake CHANNEL_BUFFER_SIZE (pending s1)) =
            Z.min CHANNEL_BUFFER_SIZE (zlen (pending s1))) as Hlen by by apply zlen_ztake.
    rewrite Hlen. assert ((if negb (CHANNEL_BUFFER_SIZE `min` zlen (pending s1) =? 0)
      then acc ++ ztake CHANNEL_BUFFER_SIZE (pending s1) else acc) =
      acc ++ ztake CHANNEL_BUFFER_SIZE (pending s1)) as ->.
    { destruct (Z.eqb_spec (CHANNEL_BUFFER_SIZE `min` zlen (pending s1)) 0) as [Hz|]; [|done].
      rewrite Hz in Hlen. apply zlen_zero in Hlen as ->. by rewrite app_nil_r. }
    destruct (Z.eqb_spec (CHANNEL_BUFFER_SIZE `min` zlen (pending s1)) CHANNEL_BUFFER_SIZE)
      as [Heq|Hne]; cbn [negb]; unfold CHANNEL_BUFFER_SIZE in *.
    + split; [split; [done|]|].
      * by rewrite Hp2, <- app_assoc, ztake_zdrop.
      * rewrite Hp2. unfold zdrop, zlen in *. rewrite length_drop. lia.
    + assert (zlen (pending s1) <= 1024) by lia.
      rewrite ztake_ge, Hacc by done. split_and!; try done. by rewrite Hp2, zdrop_ge.
  - done.
  - unfold zlen in Hfuel. lia.
  - eauto.
Qed.
End to_eof.

Lemma full_reads_string : full_reads (S := StringReader.t).
Proof.
  intros s n Hok Hn. pose proof Hok as (Ho & Hl & Hb). simpl.
  unfold StringReader.basic_read. rewrite u64_sub_small, min_if by lia.
  unfold StringReaderFacts.pend. set (p := zdrop (StringReader.offset s) (StringReader.data s)).
  assert (zlen p = zlen (StringReader.data s) - StringReader.offset s) as Hp.
  { unfold p. rewrite zlen_zdrop; lia. }
  assert (ztake (Z.min n (zlen p)) p = ztake n p) as Ht.
  { destruct (Z.le_ge_cases n (zlen p)); [by rewrite Z.min_l|].
    by rewrite Z.min_r, !ztake_ge by lia. }
  rewrite <- Hp. destruct (Z.eqb_spec (Z.min n (zlen p)) 0) as [Hz|Hz]; cbn [negb].
  - exists s. rewrite <- Ht, Hz. split; [done|]. split; [done|]. fold p.
    destruct (Z.eq_dec n 0) as [->|]; [done|]. rewrite zdrop_ge by lia.
    apply zlen_zero. lia.
  - eexists. rewrite Ht. split; [done|]. pose proof (zlen_nonneg p).
    unfold StringReaderFacts.ok. simpl. rewrite u64_small by lia.
    split_and!; try done; try lia.
    replace (zdrop n p) with (zdrop (StringReader.offset s + n) (StringReader.data s))
      by (unfold p; by rewrite zdrop_zdrop by lia).
    destruct (Z.le_ge_cases n (zlen p)); [by rewrite Z.min_l|].
    rewrite Z.min_r, !zdrop_ge by lia. done.
Qed.

(** *** Skipping, aligning and the end of the channel *)

(** [align_bytes n o] is the distance to the next multiple of [n]. *)
Lemma align_bytes_next n o :
  0 < n -> 0 <= o -> o + n < 2 ^ 64 ->
  0 <= align_bytes n o < n /\ (n | o + align_bytes n o).
Proof.
  intros Hn Ho Hlt. unfold align_bytes.
  pose proof (Z.div_mod (o + n - 1) n ltac:(lia)) as Hdm.
  pose proof (Z.mod_pos_bound (o + n - 1) n Hn).
  assert (u64 (o + n) = o + n) as -> by (apply u64_small; lia).
  assert (u64 (o + n - 1) = o + n - 1) as -> by (apply u64_small; lia).
  assert (u64 (n * ((o + n - 1) / n)) = n * ((o + n - 1) / n)) as ->
    by (apply u64_small; lia).
  assert (u64 (n * ((o + n - 1) / n) - o) = n * ((o + n - 1) / n) - o) as ->
    by (apply u64_small; lia).
  split; [lia|]. exists ((o + n - 1) / n). lia.
Qed.

(** *** A limited reader run for a while *)
Module LimitedCalls.
Section limited_run.
Context {S : Type} `{ReaderLaws S}.
Implicit Types (s : LimitedReader.t S) (d : bytes).

(** The calls that read or skip; [skip_to_eof] apart. *)
Inductive call :=
  | Basic_read (n : Z) | Try_read (n : Z) | Try_read_string (n : Z)
  | Read_to_eof_limit (n : Z) | Read_to_eof | Try_read_nbo_32 | Try_read_byte
  | Read (n : Z) | Read_string (n : Z) | Skip (n : Z).
Inductive result := Data (d : bytes) | Number (i : Z) | Nothing | Skipped.

Definition or_nothing {A} (f : A -> result) (r : option A) : result :=
  match r with Some a => f a | None => Nothing end.
Definition perform (c : call) : M (LimitedReader.t S) Error result :=
  match c with
  | Basic_read n => let! d := LimitedReader.basic_read n in ret (Data d)
  | Try_read n => let! r := LimitedReader.try_read n in ret (or_nothing Data r)
  | Try_read_string n => let! r := LimitedReader.try_read_string n in ret (or_nothing Data r)
  | Read_to_eof_limit n => let! d := LimitedReader.read_to_eof_limit n in ret (Data d)
  | Read_to_eof => let! d := LimitedReader.read_to_eof in ret (Data d)
  | Try_read_nbo_32 => let! r := LimitedReader.try_read_nbo_32 in ret (or_nothing Number r)
  | Try_read_byte => let! r := LimitedReader.try_read_byte in ret (or_nothing Number r)
  | Read n => let! d := Chan.read n in ret (Data d)
  | Read_string n => let! d := Chan.read_string n in ret (Data d)
  | Skip n => let! _ := Chan.skip n in ret Skipped
  end.
(** One call after the other, whether they throw or not *)
Fixpoint perform_all (cs : list call) (s : LimitedReader.t S) : list (exc Error result) * LimitedReader.t S :=
  match cs with
  | [] => ([], s)
  | c :: cs => let '(r, s) := perform c s in let '(rs, s) := perform_all cs s in (r :: rs, s)
  end.
Definition call_ok (c : call) : Prop :=
  match c with
  | Basic_read n | Try_read n | Try_read_string n | Read_to_eof_limit n | Read n | Read_string n | Skip n => 0 <= n
  | _ => True
  end.

(** What a call gives for the bytes that it consumes: these bytes, as many as were asked for, or the number
    they are; nothing for none of them; or the error of the end of the file. *)
Definition gives (c : call) (r : exc Error result) (d : bytes) : Prop :=
  match c, r with
  | Basic_read n, Val (Data x) | Read_to_eof_limit n, Val (Data x) => x = d /\ zlen d <= n
  | Read_to_eof, Val (Data x) => x = d
  | Try_read n, Val (Data x) | Try_read_string n, Val (Data x)
  | Read n, Val (Data x) | Read_string n, Val (Data x) => x = d /\ zlen d = n
  | Try_read_nbo_32, Val (Number i) => i = nbo d /\ zlen d = 4
  | Try_read_byte, Val (Number i) => d = [i]
  | Try_read _, Val Nothing | Try_read_string _, Val Nothing
  | Try_read_nbo_32, Val Nothing | Try_read_byte, Val Nothing => d = []
  | Skip n, Val Skipped => zlen d = n
  | (Try_read _ | Try_read_string _ | Try_read_nbo_32 | Try_read_byte | Read _ | Read_string _ | Skip _),
    Throw e => error e = 0
  | _, _ => False
  end.

(** From [s] to [s'] the bytes [d] are consumed, and counted. *)
Definition gone s d s' : Prop :=
  LimitedReaderFacts.ok s' /\
  pending (LimitedReader.reader s) = d ++ pending (LimitedReader.reader s') /\
  LimitedReader.left s = zlen d + LimitedReader.left s'.
Definition consumes {A} (m : M (LimitedReader.t S) Error A) (Q : exc Error A -> bytes -> Prop) : Prop :=
  forall s, LimitedReaderFacts.ok s -> exists r s' d, m s = (r, s') /\ gone s d s' /\ Q r d.

Lemma gone_nil s : LimitedReaderFacts.ok s -> gone s [] s.
Proof. intros Hs. split; [done|]. rewrite zlen_nil. split; [done|lia]. Qed.
Lemma gone_app s d s1 d' s' : gone s d s1 -> gone s1 d' s' -> gone s (d ++ d') s'.
Proof.
  intros (_ & Hp & Hl) (Hok & Hp' & Hl'). split; [done|]. rewrite zlen_app, <- app_assoc, <- Hp'. split; [done|lia].
Qed.

(** What is done with the result *)
Lemma consumes_map {A B} (m : M (LimitedReader.t S) Error A) (k : A -> M (LimitedReader.t S) Error B) Q Q' :
  consumes m Q -> (forall e d, Q (Throw e) d -> Q' (Throw e) d) ->
  (forall a d s, Q (Val a) d -> exists r, k a s = (r, s) /\ Q' r d) -> consumes (bind m k) Q'.
Proof.
  intros Hm He Hv s Hs. destruct (Hm s Hs) as (r & s' & d & E & Hg & Hr). unfold bind. rewrite E.
  destruct r as [a|e]; [|by exists (Throw e), s', d; auto].
  destruct (Hv a d s' Hr) as (r & -> & Hq). by exists r, s', d.
Qed.

Lemma limited_read_consumes n : 0 <= n ->
  consumes (LimitedReader.basic_read n) (fun r d => r = Val d /\ zlen d <= n).
Proof.
  intros Hn s (Hr & Hl & Ho). unfold in_u in *. unfold LimitedReader.basic_read.
  rewrite Z.gtb_ltb, min_if.
  destruct (basic_read_law (LimitedReader.reader s) (Z.min n (LimitedReader.left s)) Hr) as
    (d & r' & -> & Hr' & Hp & Hle & _ & _); [lia|].
  pose proof (zlen_nonneg d). eexists (Val d), (LimitedReader.mk r' _ _), d. split; [done|].
  pose proof (wrap_range 64 (LimitedReader.offset s + zlen d) ltac:(lia)) as Hw.
  unfold gone, LimitedReaderFacts.ok, in_u in *. simpl. rewrite u64_sub_small by lia.
  split_and!; try done; lia.
Qed.

(** The state of the loops: what they have consumed is what they have put together. *)
Definition loop_inv s0 (count : Z) (st : Z * bytes * LimitedReader.t S) : Prop :=
  let '(dn, acc, s) := st in gone s0 acc s /\ dn = zlen acc /\ zlen acc <= count.

Lemma loop_start s count : LimitedReaderFacts.ok s -> 0 <= count -> loop_inv s count (0, [], s).
Proof. intros Hs Hc. split; [by apply gone_nil|]. unfold zlen. simpl. lia. Qed.

(** A turn of the loops reads some more. *)
Lemma loop_turn s0 count dn acc s n : loop_inv s0 count (dn, acc, s) -> 0 <= n <= count - dn ->
  exists d s', LimitedReader.basic_read n s = (Val d, s') /\ loop_inv s0 count (dn + zlen d, acc ++ d, s').
Proof.
  intros (Hg & -> & Hle) Hn. pose proof Hg as (Hok & _ & _).
  destruct (limited_read_consumes n ltac:(lia) s Hok) as (r & s' & d & E & Hg' & -> & Hd).
  exists d, s'. split; [done|]. split; [by eapply gone_app|]. rewrite zlen_app. lia.
Qed.

Definition tries (n : Z) (r : exc Error (option bytes)) (d : bytes) : Prop :=
  match r with Val (Some x) => x = d /\ zlen d = n | Val None => d = [] | Throw e => error e = 0 end.
Lemma try_loop_consumes what limit n : 0 <= n -> (forall m, 0 < m -> 0 < limit m <= m) ->
  consumes (fun s => run_loop n (try_read_step LimitedReader.basic_read what limit n) (0, [], s) s) (tries n).
Proof.
  intros Hn Hlim s0 Hs0. unfold run_loop.
  destruct (loop_pos_rule (try_read_step LimitedReader.basic_read what limit n) (loop_inv s0 n)
    (fun p => exists d, gone s0 d (snd p) /\ tries n (fst p) d) (fun st => Z.to_nat (n - fst (fst st)))
    (Z.to_pos (n + 1)) (0, [], s0)) as ([r s'] & -> & d & Hg & Hr); [| | |by exists r, s', d].
  - intros [[dn acc] s] Hinv. pose proof Hinv as (Hg & Hdn & Hle). unfold try_read_step.
    destruct (Z.ltb_spec dn n) as [Hlt|Hge]; [|cbv beta; exists acc; split; [done|]; split; [done|lia]].
    destruct (Hlim (n - dn)) as [Hl1 Hl2]; [lia|].
    destruct (loop_turn s0 n dn acc s (limit (n - dn)) Hinv) as (d & s' & -> & Hinv'); [lia|].
    pose proof (zlen_nonneg d). destruct (Z.eqb_spec (zlen d) 0) as [Hz|Hz]; simpl; [|split; [done|lia]].
    destruct Hinv' as (Hg' & _). destruct (Z.eqb_spec dn 0) as [Hdn0|Hdn0]; simpl; exists (acc ++ d); (split; [done|]); [|done].
    apply zlen_zero in Hz as ->. rewrite app_nil_r. apply zlen_zero. lia.
  - by apply loop_start.
  - simpl. lia.
Qed.
Lemma eof_loop_consumes n : 0 <= n ->
  consumes (base_read_to_eof_limit LimitedReader.basic_read n) (fun r d => r = Val d /\ zlen d <= n).
Proof.
  intros Hn s0 Hs0. unfold base_read_to_eof_limit, run_loop.
  destruct (loop_pos_rule (read_to_eof_step LimitedReader.basic_read n) (loop_inv s0 n)
    (fun p => exists d, gone s0 d (snd p) /\ fst p = Val d /\ zlen d <= n) (fun st => Z.to_nat (n - fst (fst st)))
    (Z.to_pos (n + 1)) (0, [], s0)) as ([r s'] & -> & d & Hg & Hr); [| | |by exists r, s', d].
  - intros [[dn acc] s] Hinv. pose proof Hinv as (Hg & Hdn & Hle). unfold read_to_eof_step.
    destruct (Z.ltb_spec dn n) as [Hlt|Hge]; [|cbv beta; by exists acc].
    set (m := if n - dn <? CHANNEL_BUFFER_SIZE then n - dn else CHANNEL_BUFFER_SIZE).
    assert (0 < m <= n - dn) as Hm by (unfold m, CHANNEL_BUFFER_SIZE; destruct (Z.ltb_spec (n - dn) 1024); lia).
    destruct (loop_turn s0 n dn acc s m Hinv) as (d & s' & -> & Hinv'); [lia|].
    pose proof (zlen_nonneg d). destruct (Z.eqb_spec (zlen d) 0) as [Hz|Hz]; simpl; [|split; [done|lia]].
    destruct Hinv' as (Hg' & _ & Hle'). apply zlen_zero in Hz as ->. rewrite app_nil_r in *. by exists acc.
  - by apply loop_start.
  - simpl. lia.
Qed.

(** [if (!left) return false;] *)
Lemma guarded_consumes {A} (m : M (LimitedReader.t S) Error (option A)) Q : consumes m Q -> Q (Val None) [] ->
  consumes (fun s => if LimitedReader.left s =? 0 then (Val None, s) else m s) Q.
Proof.
  intros Hm Hq s Hs. destruct (LimitedReader.left s =? 0); [|by apply Hm].
  exists (Val None), s, []. split; [done|]. split; [by apply gone_nil|done].
Qed.
Lemma try_read_consumes n : 0 <= n -> consumes (LimitedReader.try_read n) (tries n).
Proof. intros Hn. apply guarded_consumes; [|done]. apply (try_loop_consumes _ (fun m => m)); [done|lia]. Qed.
Lemma try_read_string_consumes n : 0 <= n -> consumes (LimitedReader.try_read_string n) (tries n).
Proof.
  intros Hn. apply guarded_consumes; [|done].
  apply (try_loop_consumes _ (fun m => if m <? CHANNEL_BUFFER_SIZE then m else CHANNEL_BUFFER_SIZE)); [done|].
  intros m Hm. unfold CHANNEL_BUFFER_SIZE. destruct (Z.ltb_spec m 1024); lia.
Qed.

(** Reading that throws at the end of the file *)
Lemma try_or_throw_consumes {A} (m : M (LimitedReader.t S) Error (option bytes)) n (f : bytes -> A) e :
  consumes m (tries n) -> error e = 0 ->
  consumes (let! r := m in match r with Some d => ret (f d) | None => throw e end)
    (fun r d => match r with Val a => exists x, a = f x /\ x = d /\ zlen d = n | Throw e => error e = 0 end).
Proof.
  intros Hm He. eapply consumes_map; [exact Hm|done|]. intros [x|] d s Hq; simpl in Hq; eexists; (split; [reflexivity|]); [|done].
  by exists x.
Qed.

Lemma try_number_consumes n (f : bytes -> Z) : 0 <= n ->
  consumes (fun s => if LimitedReader.left s =? 0 then (Val None, s)
                     else (let! r := Chan.try_read n in ret (match r with Some d => Some (f d) | None => None end)) s)
    (fun r d => match r with Val (Some i) => i = f d /\ zlen d = n | Val None => d = [] | Throw e => error e = 0 end).
Proof.
  intros Hn. apply guarded_consumes; [|done]. eapply consumes_map; [by apply try_read_consumes|done|].
  intros [x|] d s Hq; eexists; (split; [reflexivity|]); [|done]. by destruct Hq as [-> Hd].
Qed.

Lemma perform_consumes c : call_ok c -> consumes (perform c) (gives c).
Proof.
  destruct c as [n|n|n|n| | | |n|n|n]; simpl; intros Hn.
  - eapply consumes_map; [by apply limited_read_consumes|by intros e d [[=] _]|].
    intros x d s [[= ->] Hd]. by eexists.
  - eapply consumes_map; [by apply try_read_consumes|done|]. intros [x|] d s Hq; by eexists.
  - eapply consumes_map; [by apply try_read_string_consumes|done|]. intros [x|] d s Hq; by eexists.
  - eapply (consumes_map _ _ (fun r d => r = Val d /\ zlen d <= n)); [|by intros e d [[=] _]|].
    + intros s Hs. pose proof Hs as (_ & Hl & _). unfold in_u in Hl. unfold LimitedReader.read_to_eof_limit.
      destruct (eof_loop_consumes (Z.min (LimitedReader.left s) n) ltac:(lia) s Hs) as (r & s' & d & -> & Hg & -> & Hd).
      exists (Val d), s', d. split; [done|]. split; [done|]. split; [done|lia].
    + intros x d s [[= ->] Hd]. by eexists.
  - eapply (consumes_map _ _ (fun r d => r = Val d)); [|by intros e d [=]|].
    + intros s Hs. pose proof Hs as (_ & Hl & _). unfold in_u in Hl. unfold LimitedReader.read_to_eof.
      destruct (eof_loop_consumes (LimitedReader.left s) ltac:(lia) s Hs) as (r & s' & d & -> & Hg & -> & Hd).
      by exists (Val d), s', d.
    + intros x d s [= ->]. by eexists.
  - eapply consumes_map; [by apply (try_number_consumes 4 nbo)|done|]. intros [i|] d s Hq; by eexists.
  - eapply consumes_map; [by apply (try_number_consumes 1 (fun d => zget 0 d 0))|done|].
    intros [i|] d s Hq; eexists; (split; [reflexivity|]); [|done]. destruct Hq as [-> Hd].
    destruct d as [|x [|y d]]; [done|done|]. rewrite !zlen_cons in Hd. pose proof (zlen_nonneg d). lia.
  - eapply consumes_map; [apply (try_or_throw_consumes _ n id); [by apply try_read_consumes|done]|done|].
    intros x d s (y & -> & -> & Hd). by eexists.
  - eapply consumes_map; [apply (try_or_throw_consumes _ n id); [by apply try_read_string_consumes|done]|done|].
    intros x d s (y & -> & -> & Hd). by eexists.
  - eapply consumes_map; [apply (try_or_throw_consumes _ n (fun _ => tt)); [by apply try_read_consumes|done]|done|].
    intros x d s (y & _ & _ & Hd). by eexists.
Qed.
End limited_run.
End LimitedCalls.
Import LimitedCalls.

(* ------------------------------------------------------------------ *)
(** ** Properties *)

(** The default [try_read] of a channel, into a buffer or a string, reads
    exactly the bytes asked for: all of them in order, or the end of file if none
    is left, or an exception (with everything consumed) if only a part is left;
    for every [basic_read] that delivers the pending bytes in order, in pieces of
    any size, one byte at least. *)
Theorem try_read_exact {S : Type} (brd : Z -> M S Error bytes) (off : S -> Z)
    (ok : S -> Prop) (pend : S -> bytes) :
  (forall s, ok s -> in_u 64 (off s)) ->
  (forall s n, ok s -> 0 <= n -> exists d s', brd n s = (Val d, s') /\ ok s' /\
     pend s = d ++ pend s' /\ zlen d <= n /\ (0 < n -> pend s <> [] -> d <> []) /\
     off s' = u64 (off s + zlen d)) ->
  forall s n, ok s -> 0 < n ->
    delivers ok pend off (base_try_read brd) s n /\
    delivers ok pend off (base_try_read_string brd) s n.
Proof.
  intros Hoff Hlaw s n Hs Hn.
  split; [by apply base_try_read_delivers | by apply base_try_read_string_delivers].
Qed.

(** C40: whatever calls that read or skip are made of a [LimitedReader], in any order and whether they throw or
    not (its own, and reads and skips of a number of bytes, of which the inherited readers of numbers are made), it
    consumes a prefix of what the reader below has, in order, at most as long as its limit, and its count goes down by
    as much; each call gives exactly the bytes (or the number) that it consumed, says that there are none, or throws
    the error of the end of the file.  [skip_to_eof] is not one of these calls: it passes over the rest below and
    leaves the count as it is ([limited_skip_to_eof_keeps_left]). *)
Theorem limited_reader_within_limit {S : Type} `{ReaderLaws S} cs s :
  LimitedReaderFacts.ok s -> Forall call_ok cs ->
  let '(rs, s') := perform_all cs s in
  exists ds, Forall3 gives cs rs ds /\
    pending (LimitedReader.reader s) = concat ds ++ pending (LimitedReader.reader s') /\
    zlen (concat ds) + LimitedReader.left s' = LimitedReader.left s /\
    zlen (concat ds) <= LimitedReader.left s.
Proof.
  revert s. induction cs as [|c cs IH]; intros s Hs Hc; simpl.
  - exists []. destruct Hs as (_ & Hl & _). unfold in_u in Hl. simpl. rewrite zlen_nil. split_and!; try done; try lia. constructor.
  - apply Forall_cons in Hc as [Hc Hcs].
    destruct (perform_consumes c Hc s Hs) as (r & s1 & d & -> & (Hs1 & Hp & Hleft) & Hr).
    specialize (IH s1 Hs1 Hcs). destruct (perform_all cs s1) as [rs s2].
    destruct IH as (ds & Hds & Hp2 & Hl2 & Hle2). exists (d :: ds). simpl. rewrite Hp, Hp2, app_assoc, zlen_app.
    split_and!; try done; try lia. by constructor.
Qed.

(** [LimitedReader::skip_to_eof] skips the reader below but not its own count:
    [left] is unchanged, so that reads after it get the bytes beyond the limit. *)
Lemma limited_skip_to_eof_keeps_left {S : Type} `{ReaderLaws S} s :
  LimitedReader.left (snd (LimitedReader.skip_to_eof s)) = LimitedReader.left s /\
  (LimitedReader.left s <> 0 ->
   LimitedReader.reader (snd (LimitedReader.skip_to_eof s)) =
   snd (skip (LimitedReader.left s) (LimitedReader.reader s))).
Proof.
  unfold LimitedReader.skip_to_eof. destruct (Z.eqb_spec (LimitedReader.left s) 0); [done|].
  by destruct (skip (LimitedReader.left s) (LimitedReader.reader s)).
Qed.

Definition abc_reader : LimitedReader.t StringReader.t :=
  LimitedReader.init (StringReader.init (str "abcdef")) 3.

(** A [BlockWriter] writes inside its block only: a write that fits puts its
    bytes at the offset and leaves every other byte alone; one that does not fit
    throws and changes nothing. *)
Theorem block_writer_stays_in_block s d :
  BlockWriterFacts.ok s -> bytes_ok d ->
  if zlen d <=? BlockWriter.get_remaining s then
    exists s', BlockWriter.basic_write d s = (Val tt, s') /\ BlockWriterFacts.ok s' /\
      BlockWriter.offset s' = BlockWriter.offset s + zlen d /\
      zlen (BlockWriter.block s') = zlen (BlockWriter.block s) /\
      ztake (BlockWriter.offset s') (BlockWriter.block s') =
        ztake (BlockWriter.offset s) (BlockWriter.block s) ++ d /\
      zdrop (BlockWriter.offset s') (BlockWriter.block s') =
        zdrop (BlockWriter.offset s') (BlockWriter.block s)
  else BlockWriter.basic_write d s =
         (Throw (mk_Error 1 (str "Data block overflowed")), s).
Proof.
  intros Hok Hd. pose proof Hok as (Ho & Hdata & Hlen & Hl & Hb).
  unfold BlockWriter.get_remaining. rewrite u64_sub_small by lia.
  destruct (Z.leb_spec (zlen d) (BlockWriter.length s - BlockWriter.offset s)) as [Hle|Hgt].
  - destruct (BlockWriterFacts.basic_write_fits s d Hok Hd Hle) as [-> Hok'].
    eexists. split; [done|]. split; [done|]. simpl. rewrite Hdata.
    rewrite BlockWriterFacts.zlen_memcpy, BlockWriterFacts.take_memcpy,
      BlockWriterFacts.drop_memcpy by lia. done.
  - unfold BlockWriter.basic_write. rewrite u64_sub_small by lia.
    by rewrite (proj2 (Z.leb_gt _ _)) by lia.
Qed.

(** [StringReader::skip] moves past [n] bytes that are there and throws when they
    are not, provided [offset + n] does not overflow; beyond that the guard is
    computed modulo 2^64 and a huge count moves the reader backwards. *)
Lemma string_reader_skip s n :
  StringReaderFacts.ok s -> in_u 64 n ->
  StringReader.skip n s =
    if StringReader.offset s + n <? 2 ^ 64 then
      if n <=? zlen (pending s) then
        (Val tt, StringReader.mk (StringReader.data s) (StringReader.offset s + n))
      else (Throw (mk_Error 1 (str "Skip beyond end of string")), s)
    else (Val tt, StringReader.mk (StringReader.data s)
                    (StringReader.offset s - (2 ^ 64 - n))).
Proof.
  intros (Ho & Hl & Hb) Hn. unfold in_u in Hn. unfold StringReader.skip. simpl.
  unfold StringReaderFacts.pend. rewrite zlen_zdrop, Z.max_r by lia.
  destruct (Z.ltb_spec (StringReader.offset s + n) (2 ^ 64)) as [Hlt|Hge].
  - rewrite u64_small, Z.gtb_ltb by lia.
    destruct (Z.ltb_spec (zlen (StringReader.data s)) (StringReader.offset s + n)),
      (Z.leb_spec n (zlen (StringReader.data s) - StringReader.offset s)); done || lia.
  - assert (u64 (StringReader.offset s + n) = StringReader.offset s + n - 2 ^ 64) as ->.
    { unfold wrap. symmetry. apply (Z.mod_unique_pos _ _ 1); lia. }
    rewrite Z.gtb_ltb, (proj2 (Z.ltb_ge _ _)) by lia. do 2 f_equal. lia.
Qed.

(** [align] moves a string reader to the next multiple of [n], at most [n - 1]
    bytes further. *)
Lemma string_reader_align s n :
  StringReaderFacts.ok s -> 0 < n -> StringReader.offset s + n < 2 ^ 64 ->
  align_bytes n (StringReader.offset s) <= zlen (pending s) ->
  exists s', align n s = (Val tt, s') /\ StringReader.data s' = StringReader.data s /\
    (n | StringReader.offset s') /\
    StringReader.offset s <= StringReader.offset s' < StringReader.offset s + n.
Proof.
  intros (Ho & Hl & Hb) Hn Hlt Hfit. simpl in Hfit. unfold StringReaderFacts.pend in Hfit.
  rewrite zlen_zdrop, Z.max_r in Hfit by lia.
  destruct (align_bytes_next n (StringReader.offset s)) as [Hr Hdiv]; [lia..|].
  unfold align, bind, get_st. simpl. unfold StringReader.skip.
  rewrite u64_small, Z.gtb_ltb, (proj2 (Z.ltb_ge _ _)) by lia.
  eexists. split; [done|]. simpl. split_and!; done || lia.
Qed.

(** [read_to_eof] without a limit reads everything from a channel whose
    [basic_read] fills the buffer whenever it can, as a string reader does. *)
Theorem read_to_eof_reads_all s fuel :
  StringReaderFacts.ok s -> zlen (pending s) < Z.pos fuel ->
  reads (base_read_to_eof StringReader.basic_read fuel) s (pending s) [].
Proof.
  intros Hs Hf. exact (read_to_eof_all s fuel full_reads_string Hs Hf).
Qed.

(* ------------------------------------------------------------------ *)
(** ** Witnesses *)

Lemma abc_reader_ok : LimitedReaderFacts.ok abc_reader.
Proof.
  repeat split; simpl; try (vm_compute; congruence).
  repeat constructor; unfold byte_ok; vm_compute; congruence.
Defined.

Lemma string_init_ok d :
  zlen d < 2 ^ 64 -> bytes_ok d -> StringReaderFacts.ok (StringReader.init d).
Proof.
  intros. pose proof (zlen_nonneg d). unfold StringReaderFacts.ok. simpl. done.
Qed.

Lemma integers_roundtrip_witness :
  exists d, writes (S := StringWriter.t) (write_nbo_32 305419896) d /\
    forall rest, bytes_ok (d ++ rest) -> zlen (d ++ rest) < 2 ^ 64 ->
      exists s, read_nbo_32 (StringReader.init (d ++ rest)) = (Val 305419896, s).
Proof.
  destruct (integers_roundtrip (R := StringReader.t) (W := StringWriter.t)) as
    (_ & _ & H32 & _).
  destruct (H32 305419896) as (d & Hw & Hr); [unfold in_u; lia|].
  exists d. split; [exact Hw|]. intros rest Hb Hl.
  destruct (Hr (StringReader.init (d ++ rest)) rest) as (s & Hs & _);
    [by apply string_init_ok | done | by exists s].
Defined.

Lemma try_read_exact_witness :
  delivers StringReaderFacts.ok StringReaderFacts.pend StringReader.offset
    (base_try_read StringReader.basic_read) (StringReader.init (str "abcdef")) 4.
Proof.
  refine (proj1 (try_read_exact StringReader.basic_read StringReader.offset
    StringReaderFacts.ok StringReaderFacts.pend StringReaderFacts.sr_offset_ok
    StringReaderFacts.sr_basic_read_ok (StringReader.init (str "abcdef")) 4 _ _)); [|done].
  apply string_init_ok; [done|]. vm_decide.
Defined.

Lemma limited_reader_within_limit_witness :
  fst (perform_all [Try_read 2; Try_read_nbo_32; Basic_read 5] abc_reader) =
    [Val (Data (str "ab")); Throw (mk_Error 0 (str "EOF")); Val (Data [])] /\
  LimitedReader.left (snd (perform_all [Try_read 2; Try_read_nbo_32; Basic_read 5] abc_reader)) <= 3.
Proof.
  pose proof (limited_reader_within_limit [Try_read 2; Try_read_nbo_32; Basic_read 5] abc_reader abc_reader_ok
    ltac:(repeat constructor; simpl; lia)) as Hw.
  split; [reflexivity|]. destruct (perform_all _ abc_reader) as [rs s']. destruct Hw as (ds & _ & _ & Hl & _).
  change (LimitedReader.left abc_reader) with 3 in Hl. pose proof (zlen_nonneg (concat ds)). simpl. lia.
Defined.

(** The bytes beyond the limit are read after [skip_to_eof]. *)
Lemma limited_skip_to_eof_keeps_left_witness :
  LimitedReader.left (snd (LimitedReader.skip_to_eof abc_reader)) = 3 /\
  fst (try_read 3 (snd (LimitedReader.skip_to_eof abc_reader))) = Val (Some (str "def")).
Proof.
  rewrite (proj1 (limited_skip_to_eof_keeps_left abc_reader)). split; reflexivity.
Defined.

Lemma skip_to_eof_throws_on_partial_buffer_witness :
  exists s' e, base_skip_to_eof 4 (StringReader.init (str "abc")) = (Throw e, s') /\ error e = 0.
Proof.
  destruct (skip_to_eof_throws_on_partial_buffer (StringReader.init (str "abc")) 4) as
    (s' & _ & [[Hz _]|[_ (e & He & H0)]]).
  - apply string_init_ok; [done|]. vm_decide.
  - done.
  - vm_compute in Hz. discriminate.
  - by exists s', e.
Defined.

Lemma block_writer_stays_in_block_witness :
  exists s', BlockWriter.basic_write [1; 2] (BlockWriter.init [7; 7; 7]) = (Val tt, s') /\
    zlen (BlockWriter.block s') = 3.
Proof.
  pose proof (block_writer_stays_in_block (BlockWriter.init [7; 7; 7]) [1; 2]) as H.
  destruct H as (s' & Hw & _ & _ & Hl & _).
  - repeat split; simpl; try (vm_compute; congruence).
    repeat constructor; unfold byte_ok; lia.
  - repeat constructor; unfold byte_ok; lia.
  - by exists s'.
Defined.

Lemma string_reader_skip_witness :
  StringReader.skip (2 ^ 64 - 1) (StringReader.mk (str "abc") 2) =
    (Val tt, StringReader.mk (str "abc") 1).
Proof.
  rewrite (string_reader_skip (StringReader.mk (str "abc") 2) (2 ^ 64 - 1)).
  - reflexivity.
  - repeat split; try (vm_compute; congruence). vm_decide.
  - unfold in_u. lia.
Defined.

Lemma read_to_eof_reads_all_witness :
  reads (base_read_to_eof StringReader.basic_read 4) (StringReader.init (str "abc")) (str "abc") [].
Proof.
  apply (read_to_eof_reads_all (StringReader.init (str "abc")) 4); [|done].
  apply string_init_ok; [done|]. vm_decide.
Defined.
