(* ===== verification/ChanFd.v ===== *)
(** * File descriptor channels

    Models [src/libs/chan/fd-chan.cc].  The descriptor is the operating
    system's: its [read] and [write] are parameters (class [OsFd]) and what
    the code relies on of [read] (it delivers the pending bytes in order, at
    least one if any is there and room is given) is the class [OsFdLaws].
    [Pipe] is a concrete descriptor that delivers its data chunk by chunk. *)
From S2P Require Export ChanImpl.

(** A descriptor of state [W]: an error number, or the bytes (count) transferred. *)
Class OsFd (W : Type) : Type := {
  os_read : Z -> W -> (Z + bytes) * W;
  os_write : bytes -> W -> (Z + Z) * W;
  errno : W -> Z;
  strerror : Z -> bytes
}.

Definition SKIP_BUF_SIZE : Z := 4096.

(** Not an exception of the code: more bytes were stored in a local array than
    it has room for. *)
Definition memory_overrun : Error := mk_Error (-2) [].

(** ** [FDReader] *)
Module FDReader.
Section ops.
Context {W : Type} `{OsFd W}.

Record t := mk { fd : W; offset : Z }.

Definition basic_read (count : Z) : M t Error bytes := fun s =>
  match os_read count (fd s) with
  | (inl e, w) => (Throw (mk_Error 2 (strerror (errno w))), mk w (offset s))
  | (inr d, w) => (Val d, mk w (u64 (offset s + zlen d)))
  end.

(** [basic_read(0, count)]: the bytes go to [char temp[SKIP_BUF_SIZE]] *)
Definition basic_read_null (count : Z) : M t Error bytes := fun s =>
  match os_read count (fd s) with
  | (inl e, w) => (Throw (mk_Error 2 (strerror (errno w))), mk w (offset s))
  | (inr d, w) =>
    if zlen d <=? SKIP_BUF_SIZE then (Val d, mk w (u64 (offset s + zlen d)))
    else (Throw memory_overrun, mk w (offset s))
  end.

(** [Reader::skip], with the null buffer of [read(0, n)] *)
Definition skip (n : Z) : M t Error unit :=
  let! r := base_try_read basic_read_null n in
  match r with
  | Some _ => ret tt
  | None => throw (mk_Error 0 (str "EOF"))
  end.

#[export] Instance fd_reader : Reader t := {
  basic_read := basic_read;
  try_read := base_try_read basic_read;
  try_read_string := base_try_read_string basic_read;
  skip := skip;
  rewind := base_rewind;
  get_offset := offset
}.
End ops.
Arguments t W : clear implicits.
End FDReader.
#[export] Existing Instance FDReader.fd_reader.

(** ** [FDWriter] *)
Module FDWriter.
Section ops.
Context {W : Type} `{OsFd W}.

Record t := mk { fd : W; offset : Z }.

(** A short write is an error like a failed one. *)
Definition basic_write (buf : bytes) : M t Error unit := fun s =>
  match os_write buf (fd s) with
  | (inl e, w) => (Throw (mk_Error 2 (strerror (errno w))), mk w (offset s))
  | (inr n, w) =>
    if negb (n =? zlen buf) then
      (Throw (mk_Error 2 (strerror (errno w))), mk w (offset s))
    else (Val tt, mk w (u64 (offset s + zlen buf)))
  end.

#[export] Instance fd_writer : Writer t := {
  basic_write := basic_write;
  write_skip n := fun s => run_loop n (fun '(n, s) =>
    if n =? 0 then inr (Val tt, s) else
    let i := if n >? 256 then 256 else n in
    match basic_write (replicate (Z.to_nat i) 0) s with
    | (Val _, s') => inl (n - i, s')
    | (Throw e, s') => inr (Throw e, s')
    end) (n, s) s;
  write_rewind _ := throw (mk_Error 2 (str "Can't rewind"));
  write_offset := offset
}.
End ops.
Arguments t W : clear implicits.
End FDWriter.
#[export] Existing Instance FDWriter.fd_writer.

(** ** What the reader relies on: POSIX [read] on a blocking descriptor *)
Class OsFdLaws (W : Type) `{OsFd W} : Type := {
  fd_ok : W -> Prop;
  fd_pending : W -> bytes;
  fd_pending_bytes w : fd_ok w -> bytes_ok (fd_pending w);
  os_read_law w n : fd_ok w -> 0 <= n ->
    exists d w', os_read n w = (inr d, w') /\ fd_ok w' /\
      fd_pending w = d ++ fd_pending w' /\ zlen d <= n /\
      (0 < n -> fd_pending w <> [] -> d <> [])
}.

(** A pipe: chunks that arrive one by one, none empty; what is written is a
    chunk more. *)
Definition pipe_read (n : Z) (w : list bytes) : (Z + bytes) * list bytes :=
  match w with
  | [] => (inr [], [])
  | c :: w =>
    if zlen c <=? n then (inr c, w)
    else (inr (ztake n c), zdrop n c :: w)
  end.
#[export] Instance pipe : OsFd (list bytes) := {
  os_read := pipe_read;
  os_write d w := (inr (zlen d), w ++ [d]);
  errno _ := 0;
  strerror _ := []
}.

(* ------------------------------------------------------------------ *)
(** ** Lemmas *)

Section fd_laws.
Context {W : Type} `{OsFdLaws W}.

Definition fdr_ok (s : FDReader.t W) : Prop :=
  fd_ok (FDReader.fd s) /\ in_u 64 (FDReader.offset s).
Definition fdr_pending (s : FDReader.t W) : bytes := fd_pending (FDReader.fd s).

Lemma fd_basic_read_ok s n : fdr_ok s -> 0 <= n ->
  exists d s', FDReader.basic_read n s = (Val d, s') /\ fdr_ok s' /\
    fdr_pending s = d ++ fdr_pending s' /\ zlen d <= n /\
    (0 < n -> fdr_pending s <> [] -> d <> []) /\
    FDReader.offset s' = u64 (FDReader.offset s + zlen d).
Proof.
  intros [Hok Ho] Hn. unfold FDReader.basic_read.
  destruct (os_read_law (FDReader.fd s) n Hok Hn) as (d & w & -> & Hok' & Hp & Hl & Hne).
  exists d, (FDReader.mk w (u64 (FDReader.offset s + zlen d))). unfold fdr_ok, fdr_pending.
  simpl. split_and!; try done. all: by apply (wrap_range 64).
Qed.

Lemma fd_offset_ok s : fdr_ok s -> in_u 64 (FDReader.offset s).
Proof. by intros []. Qed.

#[export] Instance fd_reader_laws : ReaderLaws (FDReader.t W).
Proof.
  refine {| r_ok := fdr_ok; pending := fdr_pending |}.
  - intros s [Hok _]. by apply fd_pending_bytes.
  - apply fd_offset_ok.
  - apply fd_basic_read_ok.
  - intros. apply base_try_read_delivers; [apply fd_offset_ok|apply fd_basic_read_ok|done|done].
  - intros. apply base_try_read_string_delivers;
      [apply fd_offset_ok|apply fd_basic_read_ok|done|done].
Defined.

#[export] Instance fd_reads_nothing : ReadsNothing (FDReader.t W).
Proof. by split. Qed.
End fd_laws.

#[export] Instance pipe_laws : OsFdLaws (list bytes).
Proof.
  refine {| fd_ok w := Forall (fun c => c <> [] /\ bytes_ok c) w; fd_pending w := concat w |}.
  - intros w Hw. apply Forall_concat. eapply Forall_impl; [exact Hw|]. by intros ? [].
  - intros [|c w] n Hw Hn; simpl.
    + exists [], []. done.
    + inversion_clear Hw as [|? ? [Hc Hb] Hw']. destruct (Z.leb_spec (zlen c) n).
      * exists c, w. split_and!; try done.
      * exists (ztake n c), (zdrop n c :: w).
        assert (zlen (ztake n c) = n) as Hl by (rewrite zlen_ztake; lia).
        split_and!; try done.
        -- constructor; [|done]. split; [|by apply bytes_ok_zdrop].
           apply zlen_pos_ne. rewrite zlen_zdrop by done. lia.
        -- simpl. by rewrite app_assoc, ztake_zdrop.
        -- lia.
        -- intros Hpos _. apply zlen_pos_ne. lia.
Defined.

(* ------------------------------------------------------------------ *)
(** ** Properties *)

(** On a channel that delivers its data in smaller pieces (a socket, a pipe)
    [read_to_eof] without a limit stops at the first short piece, although more
    bytes are pending. *)
Theorem read_to_eof_stops_at_short_read {S : Type} `{ReaderLaws S} s d s' fuel :
  basic_read CHANNEL_BUFFER_SIZE s = (Val d, s') -> zlen d < CHANNEL_BUFFER_SIZE ->
  pending s' <> [] ->
  base_read_to_eof basic_read fuel s = (Val d, s') /\ pending s' <> [].
Proof.
  intros Hr Hlt Hne. split; [|done]. unfold base_read_to_eof.
  assert (read_all_step basic_read ([], s) = inr (Val d, s')) as Hstep.
  { unfold read_all_step. rewrite Hr. rewrite (proj2 (Z.eqb_neq _ _)) by lia. simpl.
    destruct (Z.eqb_spec (zlen d) 0) as [Hz|]; [|done]. by apply zlen_zero in Hz as ->. }
  rewrite loop_pos_nat. destruct (Pos2Nat.is_succ fuel) as [k ->].
  cbn [loop_nat]. by rewrite Hstep.
Qed.

(** Skipping on a descriptor reads into a local array of 4096 bytes whatever
    the count: a skip of more is a plain skip as long as the descriptor delivers
    at most 4096 bytes at a time, and overruns the array as soon as it delivers
    more. *)
Theorem fd_skip_overruns_temp {W : Type} `{OsFdLaws W} (s : FDReader.t W) n d w :
  0 < n -> os_read n (FDReader.fd s) = (inr d, w) ->
  (zlen d <= SKIP_BUF_SIZE ->
     FDReader.basic_read_null n s = FDReader.basic_read n s) /\
  (SKIP_BUF_SIZE < zlen d ->
     FDReader.skip n s = (Throw memory_overrun, FDReader.mk w (FDReader.offset s))).
Proof.
  intros Hn Hr. unfold FDReader.basic_read_null, FDReader.basic_read. rewrite Hr.
  split; intros Hd.
  - by rewrite (proj2 (Z.leb_le _ _) Hd).
  - unfold FDReader.skip, base_try_read, run_loop, bind. rewrite loop_pos_nat.
    destruct (Pos2Nat.is_succ (Z.to_pos (n + 1))) as [k ->]. cbn [loop_nat try_read_step].
    rewrite (proj2 (Z.ltb_lt _ _) Hn), Z.sub_0_r. unfold FDReader.basic_read_null.
    by rewrite Hr, (proj2 (Z.leb_gt _ _) Hd).
Qed.

(* ------------------------------------------------------------------ *)
(** ** Witnesses *)

(** Two chunks of a pipe: only the first is read. *)
Lemma read_to_eof_stops_at_short_read_witness :
  fst (base_read_to_eof basic_read 9 (FDReader.mk [str "ab"; str "cd"] 0)) = Val (str "ab").
Proof.
  destruct (read_to_eof_stops_at_short_read (FDReader.mk [str "ab"; str "cd"] 0) (str "ab")
    (FDReader.mk [str "cd"] 2) 9) as [-> _]; try reflexivity; vm_compute; congruence.
Defined.

Lemma fd_skip_overruns_temp_witness :
  FDReader.skip 5000 (FDReader.mk [replicate 5000 0] 0) =
    (Throw memory_overrun, FDReader.mk [] 0).
Proof.
  refine (proj2 (fd_skip_overruns_temp (FDReader.mk [replicate 5000 0] 0) 5000
    (replicate 5000 0) [] _ _) _); vm_compute; reflexivity.
Defined.
