(* ===== verification/ChanBits.v ===== *)
(** * Bit streams over a channel

    Models [src/libs/chan/bits.cc]: [BitReader], [BitWriter] and the Exp-Golomb
    reader [BitEGReader], over any reader or writer that keeps the contract of
    [Chan.v].  The specification is a list of bits, most significant first:
    what a bit writer has been given so far, and what a bit reader has still to
    deliver. *)
From S2P Require Export ChanImpl.

(** ** [BitReader] *)
Module BitReader.
Record t (S : Type) := mk { reader : S; bits_valid : Z; current_byte : Z }.
Arguments mk {S}.
Arguments reader {S}.
Arguments bits_valid {S}.
Arguments current_byte {S}.

Section ops.
Context {S : Type} `{Reader S}.

Definition init (r : S) : t S := mk r 0 0.

(** [if (!bits_valid) { current_byte = reader.read_byte(); bits_valid = 8; }] *)
Definition fill : M (t S) Error unit := fun s =>
  if bits_valid s =? 0 then
    match read_byte (reader s) with
    | (Val b, r) => (Val tt, mk r 8 b)
    | (Throw e, r) => (Throw e, mk r (bits_valid s) (current_byte s))
    end
  else (Val tt, s).

(** [(current_byte >> --bits_valid) & 1] *)
Definition take_bit : M (t S) Error Z := fun s =>
  let bv := bits_valid s - 1 in
  (Val (Z.land (Z.shiftr (current_byte s) bv) 1), mk (reader s) bv (current_byte s)).

Definition read_bit : M (t S) Error Z := fill ;;; take_bit.

Definition read_bool : M (t S) Error bool :=
  let! b := read_bit in ret (negb (b =? 0)).

(** The loop [while (n--)] of [read_bits], with [bits] so far. *)
Fixpoint read_bits_loop (n : nat) (bits : Z) : M (t S) Error Z :=
  match n with
  | O => ret bits
  | Datatypes.S n =>
    fill ;;;
    let! b := take_bit in
    read_bits_loop n (Z.lor (u32 (Z.shiftl bits 1)) b)
  end.
Definition read_bits (n : Z) : M (t S) Error Z := read_bits_loop (Z.to_nat n) 0.
End ops.
End BitReader.

(** ** [BitWriter] *)
Module BitWriter.
Record t (S : Type) := mk { writer : S; bits_valid : Z; current_byte : Z }.
Arguments mk {S}.
Arguments writer {S}.
Arguments bits_valid {S}.
Arguments current_byte {S}.

Section ops.
Context {S : Type} `{Writer S}.

Definition init (w : S) : t S := mk w 0 0.

(** Shift a bit into the current byte and write the byte out when it is full. *)
Definition add_bit (bit : Z) : M (t S) Error unit := fun s =>
  let cb := Z.lor (i32 (Z.shiftl (current_byte s) 1)) (Z.land bit 1) in
  let bv := bits_valid s + 1 in
  if bv =? 8 then
    match write_byte cb (writer s) with
    | (Val _, w) => (Val tt, mk w 0 0)
    | (Throw e, w) => (Throw e, mk w bv cb)
    end
  else (Val tt, mk (writer s) bv cb).

Definition write_bit (bit : Z) : M (t S) Error unit := add_bit bit.

Definition write_bool (bit : bool) : M (t S) Error unit :=
  write_bit (if bit then 1 else 0).

Fixpoint write_bits_loop (n : nat) (bits : Z) : M (t S) Error unit :=
  match n with
  | O => ret tt
  | Datatypes.S n =>
    add_bit (Z.shiftr bits (Z.of_nat n)) ;;; write_bits_loop n bits
  end.
Definition write_bits (n bits : Z) : M (t S) Error unit :=
  write_bits_loop (Z.to_nat n) (u32 bits).

Definition flush : M (t S) Error unit := fun s =>
  if negb (bits_valid s =? 0) then
    let cb := i32 (Z.shiftl (current_byte s) (8 - bits_valid s)) in
    match write_byte cb (writer s) with
    | (Val _, w) => (Val tt, mk w 0 0)
    | (Throw e, w) => (Throw e, mk w (bits_valid s) cb)
    end
  else (Val tt, s).
End ops.
End BitWriter.

(** ** [BitEGReader] *)
Module BitEGReader.
Section ops.
Context {S : Type} `{Reader S}.

(** [while (!read_bit()) len++;] *)
Definition len_step (st : Z * BitReader.t S)
    : (Z * BitReader.t S) + (exc Error Z * BitReader.t S) :=
  let '(len, s) := st in
  match BitReader.read_bit s with
  | (Val b, s') => if b =? 0 then inl (i32 (len + 1), s') else inr (Val len, s')
  | (Throw e, s') => inr (Throw e, s')
  end.
Definition read_len (fuel : positive) : M (BitReader.t S) Error Z := fun s =>
  match loop_pos fuel len_step (0, s) with
  | inl _ => (Throw out_of_fuel, s)
  | inr r => r
  end.

(** [for (int i = len; i > 0; --i) value += read_bit() << (i - 1);] *)
Fixpoint read_value (i : nat) (value : Z) : M (BitReader.t S) Error Z :=
  match i with
  | O => ret value
  | Datatypes.S i =>
    let! b := BitReader.read_bit in
    read_value i (u32 (value + i32 (Z.shiftl b (Z.of_nat i))))
  end.

Definition read_exp_golomb (fuel : positive) : M (BitReader.t S) Error Z :=
  let! len := read_len fuel in
  let! value := read_value (Z.to_nat len) 0 in
  ret (u32 (value + (i32 (Z.shiftl 1 len) - 1))).
End ops.
End BitEGReader.

(** ** Specification: lists of bits *)

(** The low [k] bits of [v], most significant first. *)
Fixpoint bits_of (k : nat) (v : Z) : list bool :=
  match k with
  | O => []
  | S k => Z.testbit v (Z.of_nat k) :: bits_of k v
  end.

(** A field of a bit stream: a width up to 32 and a value of that width. *)
Definition field_ok (f : Z * Z) : Prop := 0 <= fst f <= 32 /\ in_u (fst f) (snd f).
Definition field_bits (f : Z * Z) : list bool := bits_of (Z.to_nat (fst f)) (snd f).

Fixpoint write_fields {S} `{Writer S} (fs : list (Z * Z)) : M (BitWriter.t S) Error unit :=
  match fs with
  | [] => ret tt
  | (n, v) :: fs => BitWriter.write_bits n v ;;; write_fields fs
  end.
Fixpoint read_fields {S} `{Reader S} (ns : list Z) : M (BitReader.t S) Error (list Z) :=
  match ns with
  | [] => ret []
  | n :: ns =>
    let! v := BitReader.read_bits n in let! vs := read_fields ns in ret (v :: vs)
  end.

(** The Exp-Golomb code of [v]: as many zeros as [v + 1] has bits after its
    first, then [v + 1]. *)
Definition exp_golomb_bits (v : Z) : list bool :=
  replicate (Z.to_nat (Z.log2 (v + 1))) false ++ bits_of (S (Z.to_nat (Z.log2 (v + 1)))) (v + 1).

Section spec.
Context {R W : Type} `{ReaderLaws R} `{WriterLaws W}.

(** What a bit reader has still to deliver. *)
Definition rbits (s : BitReader.t R) : list bool :=
  bits_of (Z.to_nat (BitReader.bits_valid s)) (BitReader.current_byte s) ++
  flat_map (bits_of 8) (pending (BitReader.reader s)).
Definition br_ok (s : BitReader.t R) : Prop :=
  r_ok (BitReader.reader s) /\ 0 <= BitReader.bits_valid s <= 8.

(** What a bit writer has been given. *)
Definition wbits (s : BitWriter.t W) : list bool :=
  flat_map (bits_of 8) (written (BitWriter.writer s)) ++
  bits_of (Z.to_nat (BitWriter.bits_valid s)) (BitWriter.current_byte s).
Definition bw_ok (s : BitWriter.t W) : Prop :=
  w_ok (BitWriter.writer s) /\ 0 <= BitWriter.bits_valid s < 8 /\
  0 <= BitWriter.current_byte s < 2 ^ BitWriter.bits_valid s.
(** The writer below has room for [n] more bits and the padding. *)
Definition bw_room (s : BitWriter.t W) (n : Z) : Prop :=
  fits (BitWriter.writer s) ((BitWriter.bits_valid s + n + 7) / 8).
End spec.

(* ------------------------------------------------------------------ *)
(** ** Lemmas *)

Lemma bits_of_length k v : length (bits_of k v) = k.
Proof. induction k; simpl; congruence. Qed.

Lemma flat_bits_length d : length (flat_map (bits_of 8) d) = (8 * length d)%nat.
Proof. induction d as [|b d IH]; [done|]. cbn [flat_map length]. rewrite length_app, bits_of_length, IH. lia. Qed.

Lemma bits_of_ext k v w :
  (forall i, 0 <= i < Z.of_nat k -> Z.testbit v i = Z.testbit w i) -> bits_of k v = bits_of k w.
Proof.
  induction k as [|k IH]; intros Heq; simpl; [done|].
  rewrite Heq by lia. f_equal. apply IH. intros. apply Heq. lia.
Qed.

Lemma bits_of_snoc k v b : bits_of (S k) (2 * v + Z.b2z b) = bits_of k v ++ [b].
Proof.
  induction k as [|k IH].
  - cbn [bits_of app]. f_equal. apply Z.testbit_0_r.
  - change (bits_of (S (S k)) (2 * v + Z.b2z b)) with
      (Z.testbit (2 * v + Z.b2z b) (Z.of_nat (S k)) :: bits_of (S k) (2 * v + Z.b2z b)).
    rewrite IH. cbn [bits_of app]. f_equal.
    replace (Z.of_nat (S k)) with (Z.succ (Z.of_nat k)) by lia.
    apply Z.testbit_succ_r. lia.
Qed.

Lemma bits_of_zeros k p v : bits_of (p + k) (v * 2 ^ Z.of_nat k) = bits_of p v ++ replicate k false.
Proof.
  induction p as [|p IH]; simpl.
  - induction k as [|k IHk]; [done|]. simpl. f_equal.
    + rewrite Z.mul_pow2_bits_low; [done|lia].
    + rewrite <- IHk. apply bits_of_ext. intros i Hi.
      rewrite !Z.mul_pow2_bits_low by lia. done.
  - rewrite IH. f_equal. rewrite Z.mul_pow2_bits by lia. f_equal. lia.
Qed.

Lemma mod_pow2_succ v n :
  0 <= n -> v mod 2 ^ (n + 1) = Z.b2z (Z.testbit v n) * 2 ^ n + v mod 2 ^ n.
Proof.
  intros Hn. rewrite Z.pow_add_r, (Z.rem_mul_r v) by lia.
  rewrite Z.testbit_spec' by done. change (2 ^ 1) with 2. lia.
Qed.

Lemma land_1_shiftr v n : 0 <= n -> Z.land (Z.shiftr v n) 1 = Z.b2z (Z.testbit v n).
Proof.
  intros. change 1 with (Z.ones 1). rewrite Z.land_ones by lia.
  rewrite Z.shiftr_div_pow2 by done. rewrite Z.testbit_spec' by done. done.
Qed.

Lemma lor_bit v b : Z.lor (2 * v) (Z.b2z b) = 2 * v + Z.b2z b.
Proof.
  replace (2 * v) with (Z.shiftl v 1) at 1 by (rewrite Z.shiftl_mul_pow2 by lia; lia).
  rewrite lor_add by (destruct b; simpl; lia). lia.
Qed.

(** Shifting a bit into a 32-bit accumulator. *)
Lemma push_bit acc b : Z.lor (u32 (Z.shiftl acc 1)) (Z.b2z b) = u32 (2 * acc + Z.b2z b).
Proof.
  rewrite Z.shiftl_mul_pow2, Z.mul_comm by lia. change (2 ^ 1) with 2. unfold wrap.
  change (2 ^ 32) with (2 * 2 ^ 31). rewrite Zmult_mod_distr_l, lor_bit.
  rewrite Z.rem_mul_r by lia.
  replace (2 * acc + Z.b2z b) with (Z.b2z b + acc * 2) by lia.
  rewrite Z.mod_add, Z.div_add by lia.
  assert (Z.b2z b mod 2 = Z.b2z b) as -> by by destruct b.
  assert (Z.b2z b / 2 = 0) as -> by by destruct b. rewrite Z.add_0_l. lia.
Qed.

(** *** The reader *)
Section reader.
Context {R : Type} `{ReaderLaws R}.

Lemma fill_bits (s : BitReader.t R) b rest :
  br_ok s -> rbits s = b :: rest ->
  exists s', BitReader.fill s = (Val tt, s') /\ br_ok s' /\
    rbits s' = b :: rest /\ 0 < BitReader.bits_valid s'.
Proof.
  intros [Hok Hbv] Hr. unfold BitReader.fill.
  destruct (Z.eqb_spec (BitReader.bits_valid s) 0) as [Hz|Hz].
  - unfold rbits in Hr. rewrite Hz in Hr. simpl in Hr.
    destruct (pending (BitReader.reader s)) as [|x p] eqn:Hp; [done|].
    destruct (reads_byte (BitReader.reader s) x p Hok Hp) as (r & -> & Hr' & Hp').
    eexists. split; [done|]. unfold br_ok, rbits. simpl. rewrite Hp'.
    split_and!; try done; lia.
  - exists s. split_and!; try done; lia.
Qed.

Lemma take_bit_bits (s : BitReader.t R) b rest :
  br_ok s -> rbits s = b :: rest -> 0 < BitReader.bits_valid s ->
  exists s', BitReader.take_bit s = (Val (Z.b2z b), s') /\ br_ok s' /\ rbits s' = rest.
Proof.
  intros [Hok Hbv] Hr Hpos. unfold BitReader.take_bit. unfold rbits in Hr.
  replace (Z.to_nat (BitReader.bits_valid s))
    with (S (Z.to_nat (BitReader.bits_valid s - 1))) in Hr by lia.
  simpl in Hr. injection Hr as Hb Hrest. rewrite Z2Nat.id in Hb by lia.
  rewrite land_1_shiftr, Hb by lia. eexists. split; [done|].
  unfold br_ok, rbits. simpl. split_and!; try done; lia.
Qed.

Lemma read_bit_bits (s : BitReader.t R) b rest :
  br_ok s -> rbits s = b :: rest ->
  exists s', BitReader.read_bit s = (Val (Z.b2z b), s') /\ br_ok s' /\ rbits s' = rest.
Proof.
  intros Hok Hr. destruct (fill_bits s b rest Hok Hr) as (s1 & Hf & Hok1 & Hr1 & Hpos).
  unfold BitReader.read_bit. rewrite (bind_val _ _ _ _ _ Hf). by apply take_bit_bits.
Qed.

Lemma read_bit_eof (s : BitReader.t R) :
  br_ok s -> rbits s = [] ->
  exists e s', BitReader.read_bit s = (Throw e, s') /\ error e = 0 /\ br_ok s'.
Proof.
  intros [Hok Hbv] Hr. unfold rbits in Hr. apply app_eq_nil in Hr as [Hb Hp].
  apply (f_equal length) in Hb. rewrite bits_of_length in Hb. simpl in Hb.
  assert (BitReader.bits_valid s = 0) as Hz by lia.
  destruct (pending (BitReader.reader s)) eqn:Hpend; [|done].
  destruct (eof_byte (BitReader.reader s) Hok Hpend) as (e & r & Hrd & He & Hr').
  exists e, (BitReader.mk r 0 (BitReader.current_byte s)).
  unfold BitReader.read_bit, bind, BitReader.fill. rewrite Hz. simpl. rewrite Hrd.
  unfold br_ok. simpl. split_and!; try done.
Qed.

Lemma read_bits_loop_bits n : forall (s : BitReader.t R) acc v rest,
  br_ok s -> rbits s = bits_of n v ++ rest -> 0 <= acc < 2 ^ 32 ->
  exists s', BitReader.read_bits_loop n acc s =
      (Val (u32 (acc * 2 ^ Z.of_nat n + v mod 2 ^ Z.of_nat n)), s') /\
    br_ok s' /\ rbits s' = rest.
Proof.
  induction n as [|n IH]; intros s acc v rest Hok Hr Hacc; cbn [BitReader.read_bits_loop].
  - exists s. split_and!; try done. rewrite Z.mod_1_r. unfold ret. do 2 f_equal.
    rewrite wrap_small; [lia|]. unfold in_u. lia.
  - destruct (fill_bits s _ _ Hok Hr) as (s1 & Hf & Hok1 & Hr1 & Hpos).
    rewrite (bind_val _ _ _ _ _ Hf).
    destruct (take_bit_bits s1 _ _ Hok1 Hr1 Hpos) as (s2 & Ht & Hok2 & Hr2).
    rewrite (bind_val _ _ _ _ _ Ht).
    assert (Z.lor (u32 (Z.shiftl acc 1)) (Z.b2z (Z.testbit v (Z.of_nat n))) =
      u32 (2 * acc + Z.b2z (Z.testbit v (Z.of_nat n)))) as -> by apply push_bit.
    destruct (IH s2 (u32 (2 * acc + Z.b2z (Z.testbit v (Z.of_nat n)))) v rest Hok2 Hr2)
      as (s3 & -> & Hok3 & Hr3); [by apply (wrap_range 32)|].
    exists s3. split_and!; try done. do 2 f_equal.
    replace (Z.of_nat (S n)) with (Z.of_nat n + 1) by lia.
    rewrite mod_pow2_succ by lia. unfold wrap.
    rewrite Z.add_mod, Z.mul_mod_idemp_l, <- Z.add_mod by lia. f_equal.
    rewrite Z.pow_add_r by lia. lia.
Qed.

Lemma read_bits_field (s : BitReader.t R) n v rest :
  br_ok s -> field_ok (n, v) -> rbits s = field_bits (n, v) ++ rest ->
  exists s', BitReader.read_bits n s = (Val v, s') /\ br_ok s' /\ rbits s' = rest.
Proof.
  intros Hok [Hn Hv] Hr. simpl in *.
  destruct (read_bits_loop_bits (Z.to_nat n) s 0 v rest Hok Hr) as (s' & Hrd & Hok' & Hr');
    [lia|].
  exists s'. split_and!; try done. unfold BitReader.read_bits. rewrite Hrd. do 2 f_equal.
  rewrite Z2Nat.id by lia. rewrite Z.mul_0_l, Z.add_0_l.
  unfold in_u in Hv. rewrite (Z.mod_small v) by lia. apply wrap_small. unfold in_u.
  pose proof (Z.pow_le_mono_r 2 n 32). lia.
Qed.

Lemma read_fields_bits fs : forall (s : BitReader.t R) rest,
  br_ok s -> Forall field_ok fs -> rbits s = flat_map field_bits fs ++ rest ->
  exists s', read_fields (map fst fs) s = (Val (map snd fs), s') /\ br_ok s' /\ rbits s' = rest.
Proof.
  induction fs as [|[n v] fs IH]; intros s rest Hok Hfs Hr; cbn [map read_fields fst snd].
  - by exists s.
  - inversion_clear Hfs. cbn [flat_map] in Hr. rewrite <- app_assoc in Hr.
    destruct (read_bits_field s n v _ Hok ltac:(done) Hr) as (s1 & Hrd & Hok1 & Hr1).
    rewrite (bind_val _ _ _ _ _ Hrd).
    destruct (IH s1 rest Hok1 ltac:(done) Hr1) as (s2 & Hrd2 & Hok2 & Hr2).
    rewrite (bind_val _ _ _ _ _ Hrd2). by exists s2.
Qed.
End reader.

(** *** The writer *)
Section writer.
Context {W : Type} `{WriterLaws W}.

(** The bytes already written stay. *)
Definition extends (s s' : BitWriter.t W) : Prop :=
  exists d, written (BitWriter.writer s') = written (BitWriter.writer s) ++ d.
Lemma extends_refl s : extends s s.
Proof. exists []. by rewrite app_nil_r. Qed.
Lemma extends_trans s1 s2 s3 : extends s1 s2 -> extends s2 s3 -> extends s1 s3.
Proof. intros [d1 H1] [d2 H2]. exists (d1 ++ d2). by rewrite H2, H1, app_assoc. Qed.
Local Hint Resolve extends_refl extends_trans : core.

Lemma div8_step v n : (v + (1 + n) + 7) / 8 = (v + 1 + n + 7) / 8.
Proof. f_equal. lia. Qed.

Lemma add_bit_bits (s : BitWriter.t W) b n :
  bw_ok s -> 0 <= n -> bw_room s (1 + n) ->
  exists s', BitWriter.add_bit b s = (Val tt, s') /\ bw_ok s' /\
    wbits s' = wbits s ++ [Z.testbit b 0] /\ extends s s' /\ bw_room s' n /\
    BitWriter.bits_valid s' = (BitWriter.bits_valid s + 1) mod 8.
Proof.
  intros (Hok & Hbv & Hcb) Hn Hroom. unfold BitWriter.add_bit, bw_room, wbits in *.
  pose proof (Z.pow_le_mono_r 2 (BitWriter.bits_valid s) 7 ltac:(lia) ltac:(lia)) as Hp.
  change (2 ^ 7) with 128 in Hp.
  assert (Z.lor (i32 (Z.shiftl (BitWriter.current_byte s) 1)) (Z.land b 1) =
    2 * BitWriter.current_byte s + Z.b2z (Z.testbit b 0)) as ->.
  { rewrite Z.shiftl_mul_pow2 by lia. change (2 ^ 1) with 2.
    rewrite swrap_small by (unfold in_s; change (2 ^ (32 - 1)) with 2147483648; lia).
    rewrite Z.mul_comm. rewrite <- lor_bit. f_equal.
    rewrite <- (Z.shiftr_0_r b) at 1. by apply land_1_shiftr. }
  set (b0 := Z.testbit b 0). set (cb := BitWriter.current_byte s) in *.
  set (bv := BitWriter.bits_valid s) in *.
  assert (0 <= 2 * cb + Z.b2z b0 < 2 ^ (bv + 1)) as Hrange.
  { rewrite Z.pow_add_r by lia. destruct b0; simpl Z.b2z; lia. }
  assert (bits_of (S (Z.to_nat bv)) (2 * cb + Z.b2z b0) = bits_of (Z.to_nat bv) cb ++ [b0])
    as Hbits by apply bits_of_snoc.
  destruct (Z.eqb_spec (bv + 1) 8) as [H8|H8].
  - assert (bv = 7) as Hbv7 by lia. rewrite Hbv7 in *.
    assert ((7 + (1 + n) + 7) / 8 = 1 + (n + 7) / 8) as Hdiv.
    { replace (7 + (1 + n) + 7) with (n + 7 + 1 * 8) by lia. rewrite Z.div_add; lia. }
    rewrite Hdiv in Hroom. pose proof (Z.div_pos (n + 7) 8 ltac:(lia) ltac:(lia)).
    destruct (writes_byte (S := W) (2 * cb + Z.b2z b0)) as [_ Hwr].
    destruct (Hwr (BitWriter.writer s) Hok) as (w' & -> & Hok' & Hw' & Hfit);
      [eapply fits_le; [exact Hroom|unfold zlen; simpl; lia]|].
    eexists. split; [done|]. unfold bw_ok. simpl. split_and!; try done; try lia.
    + rewrite Hw', flat_map_app, <- !app_assoc, app_nil_r. f_equal.
      etransitivity; [|exact Hbits]. cbn [flat_map].
      rewrite app_nil_r, u8_small; [done|]. unfold byte_ok. change (2 ^ (7 + 1)) with 256 in Hrange.
      lia.
    + by exists [u8 (2 * cb + Z.b2z b0)].
    + rewrite Z.add_0_l. by apply Hfit.
  - eexists. split; [done|]. unfold bw_ok. simpl. split_and!; try done; try lia.
    2: { exists []. by rewrite app_nil_r. }
    + replace (Z.to_nat (bv + 1)) with (S (Z.to_nat bv)) by lia. by rewrite Hbits, app_assoc.
    + by rewrite <- div8_step.
    + rewrite Z.mod_small; lia.
Qed.

Lemma write_bits_loop_bits n : forall (s : BitWriter.t W) v m,
  bw_ok s -> 0 <= m -> bw_room s (Z.of_nat n + m) ->
  exists s', BitWriter.write_bits_loop n v s = (Val tt, s') /\ bw_ok s' /\
    wbits s' = wbits s ++ bits_of n v /\ extends s s' /\ bw_room s' m /\
    BitWriter.bits_valid s' = (BitWriter.bits_valid s + Z.of_nat n) mod 8.
Proof.
  induction n as [|n IH]; intros s v m Hok Hm Hroom; cbn [BitWriter.write_bits_loop].
  - exists s. rewrite app_nil_r. destruct Hok as (? & ? & ?).
    split_and!; try done. rewrite Z.mod_small; lia.
  - destruct (add_bit_bits s (Z.shiftr v (Z.of_nat n)) (Z.of_nat n + m)) as
      (s1 & Ha & Hok1 & Hw1 & He1 & Hr1 & Hv1); [done|lia|by replace (1 + (Z.of_nat n + m)) with
        (Z.of_nat (S n) + m) by lia|].
    rewrite (bind_val _ _ _ _ _ Ha).
    destruct (IH s1 v m Hok1 Hm Hr1) as (s2 & Hl & Hok2 & Hw2 & He2 & Hr2 & Hv2).
    exists s2. rewrite Hl, Hw2, Hw1, <- app_assoc. split_and!; try done; [|by eapply extends_trans|].
    + rewrite Z.shiftr_spec, Z.add_0_l by lia. done.
    + rewrite Hv2, Hv1, Z.add_mod_idemp_l by lia. f_equal. lia.
Qed.

Definition total_bits (fs : list (Z * Z)) : Z := zlen (flat_map field_bits fs).

Lemma write_fields_bits fs : forall (s : BitWriter.t W),
  bw_ok s -> Forall field_ok fs -> bw_room s (total_bits fs) ->
  exists s', write_fields fs s = (Val tt, s') /\ bw_ok s' /\
    wbits s' = wbits s ++ flat_map field_bits fs /\ extends s s' /\ bw_room s' 0 /\
    BitWriter.bits_valid s' = (BitWriter.bits_valid s + total_bits fs) mod 8.
Proof.
  induction fs as [|[n v] fs IH]; intros s Hok Hfs Hroom; cbn [write_fields].
  - exists s. simpl. rewrite app_nil_r. destruct Hok as (? & ? & ?).
    split_and!; try done. unfold total_bits. simpl. rewrite zlen_nil, Z.mod_small; lia.
  - inversion_clear Hfs as [|? ? [Hn Hv] Hfs']. simpl in Hn, Hv.
    assert (total_bits ((n, v) :: fs) = n + total_bits fs) as Htot.
    { unfold total_bits. cbn [flat_map]. rewrite zlen_app. unfold field_bits, zlen.
      rewrite bits_of_length. simpl. lia. }
    rewrite Htot in *. unfold BitWriter.write_bits.
    destruct (write_bits_loop_bits (Z.to_nat n) s (u32 v) (total_bits fs)) as
      (s1 & Hw & Hok1 & Hb1 & He1 & Hr1 & Hv1); [done|apply zlen_nonneg|by rewrite Z2Nat.id by lia|].
    rewrite (bind_val _ _ _ _ _ Hw).
    destruct (IH s1 Hok1 Hfs' Hr1) as (s2 & Hw2 & Hok2 & Hb2 & He2 & Hr2 & Hv2).
    exists s2. rewrite Hw2, Hb2, Hb1, <- app_assoc. split_and!; try done; [|by eapply extends_trans|].
    + cbn [flat_map]. unfold field_bits at 2. simpl.
      unfold in_u in Hv. pose proof (Z.pow_le_mono_r 2 n 32 ltac:(lia) ltac:(lia)).
      rewrite wrap_small by (unfold in_u; lia). done.
    + rewrite Hv2, Hv1, Z.add_mod_idemp_l by lia. f_equal. lia.
Qed.

(** [flush] pads with zeros to a whole byte. *)
Lemma flush_bits (s : BitWriter.t W) :
  bw_ok s -> bw_room s 0 ->
  exists s' pad, BitWriter.flush s = (Val tt, s') /\ bw_ok s' /\
    BitWriter.bits_valid s' = 0 /\ (pad < 8)%nat /\ extends s s' /\
    wbits s' = wbits s ++ replicate pad false.
Proof.
  intros (Hok & Hbv & Hcb) Hroom. unfold BitWriter.flush, bw_room, wbits in *.
  destruct (Z.eqb_spec (BitWriter.bits_valid s) 0) as [Hz|Hz]; cbn [negb].
  - exists s, 0%nat. simpl. rewrite app_nil_r. unfold bw_ok.
    split_and!; try done; try apply extends_refl; lia.
  - set (bv := BitWriter.bits_valid s) in *. set (cb := BitWriter.current_byte s) in *.
    assert (2 ^ 8 = 2 ^ bv * 2 ^ (8 - bv)) as Hp by (rewrite <- Z.pow_add_r by lia; f_equal; lia).
    change (2 ^ 8) with 256 in Hp.
    assert (0 < 2 ^ (8 - bv)) by lia.
    assert (0 <= cb * 2 ^ (8 - bv) < 256) as Hr by nia.
    rewrite Z.shiftl_mul_pow2, swrap_small by
      (unfold in_s; change (2 ^ (32 - 1)) with 2147483648; lia).
    assert ((bv + 0 + 7) / 8 = 1) as Hd.
    { replace (bv + 0 + 7) with (bv - 1 + 1 * 8) by lia.
      rewrite Z.div_add, Z.div_small by lia. done. }
    rewrite Hd in Hroom.
    destruct (writes_byte (S := W) (cb * 2 ^ (8 - bv))) as [_ Hwr].
    destruct (Hwr (BitWriter.writer s) Hok Hroom) as (w' & -> & Hok' & Hw' & _).
    eexists _, (Z.to_nat (8 - bv)). split; [done|]. unfold bw_ok. simpl.
    split_and!; try done; try lia; [by eexists|].
    rewrite Hw', flat_map_app, <- !app_assoc, app_nil_r. f_equal. cbn [flat_map].
    rewrite app_nil_r, u8_small by done. rewrite <- bits_of_zeros.
    replace (Z.to_nat bv + Z.to_nat (8 - bv))%nat with 8%nat by lia.
    by rewrite !Z2Nat.id by lia.
Qed.
End writer.

(** *** Exp-Golomb *)
Section exp_golomb.
Context {R : Type} `{ReaderLaws R}.

Lemma read_len_zeros k : forall (s : BitReader.t R) len fuel rest,
  br_ok s -> rbits s = replicate k false ++ true :: rest -> 0 <= len ->
  len + Z.of_nat k < 2 ^ 31 -> (k < fuel)%nat ->
  exists s', loop_nat fuel BitEGReader.len_step (len, s) = inr (Val (len + Z.of_nat k), s') /\
    br_ok s' /\ rbits s' = rest.
Proof.
  induction k as [|k IH]; intros s len fuel rest Hok Hr Hl Hlt Hf;
    destruct fuel as [|fuel]; try lia; cbn [loop_nat BitEGReader.len_step].
  - destruct (read_bit_bits s true rest Hok Hr) as (s' & -> & Hok' & Hr').
    exists s'. rewrite Z.add_0_r. done.
  - destruct (read_bit_bits s false _ Hok Hr) as (s1 & -> & Hok1 & Hr1). cbn [Z.b2z Z.eqb].
    rewrite swrap_small by (unfold in_s; change (2 ^ (32 - 1)) with (2 ^ 31); lia).
    destruct (IH s1 (len + 1) fuel rest Hok1 Hr1) as (s' & Hl' & Hok' & Hr'); try lia.
    exists s'. replace (len + Z.of_nat (S k)) with (len + 1 + Z.of_nat k) by lia. done.
Qed.

Lemma read_len_eof k : forall (s : BitReader.t R) len fuel,
  br_ok s -> rbits s = replicate k false -> (k < fuel)%nat ->
  exists e s', loop_nat fuel BitEGReader.len_step (len, s) = inr (Throw e, s') /\ error e = 0.
Proof.
  induction k as [|k IH]; intros s len fuel Hok Hr Hf;
    destruct fuel as [|fuel]; try lia; cbn [loop_nat BitEGReader.len_step].
  - destruct (read_bit_eof s Hok Hr) as (e & s' & -> & He & _). eauto.
  - destruct (read_bit_bits s false _ Hok Hr) as (s1 & -> & Hok1 & Hr1). cbn [Z.b2z Z.eqb].
    apply (IH s1); [done|done|lia].
Qed.

Lemma read_value_bits n : forall (s : BitReader.t R) acc v rest,
  br_ok s -> rbits s = bits_of n v ++ rest -> (n <= 31)%nat ->
  exists s', BitEGReader.read_value n (u32 acc) s =
      (Val (u32 (acc + v mod 2 ^ Z.of_nat n)), s') /\ br_ok s' /\ rbits s' = rest.
Proof.
  induction n as [|n IH]; intros s acc v rest Hok Hr Hn; cbn [BitEGReader.read_value].
  - exists s. rewrite Z.mod_1_r, Z.add_0_r. done.
  - destruct (read_bit_bits s _ _ Hok Hr) as (s1 & Hb & Hok1 & Hr1).
    rewrite (bind_val _ _ _ _ _ Hb). rewrite Z.shiftl_mul_pow2 by lia.
    pose proof (Z.pow_le_mono_r 2 (Z.of_nat n) 30 ltac:(lia) ltac:(lia)) as Hp.
    change (2 ^ 30) with 1073741824 in Hp.
    rewrite swrap_small by (unfold in_s; change (2 ^ (32 - 1)) with 2147483648;
      destruct (Z.testbit v (Z.of_nat n)); simpl Z.b2z; lia).
    assert (forall a b, u32 (u32 a + b) = u32 (a + b)) as Hadd
      by (intros; unfold wrap; apply Z.add_mod_idemp_l; lia).
    rewrite Hadd.
    destruct (IH s1 (acc + Z.b2z (Z.testbit v (Z.of_nat n)) * 2 ^ Z.of_nat n) v rest) as
      (s2 & -> & Hok2 & Hr2); [done|done|lia|].
    exists s2. split_and!; try done. do 3 f_equal.
    replace (Z.of_nat (S n)) with (Z.of_nat n + 1) by lia. rewrite mod_pow2_succ by lia. lia.
Qed.
End exp_golomb.

(* ------------------------------------------------------------------ *)
(** ** Properties *)

(** Bit fields of up to 32 bits written one after another and flushed are read
    back in order from any channel that delivers those bytes, on any writer and
    reader that keep the channel contracts; they take the least number of whole
    bytes, and what remains to be read is zero padding and what follows. *)
Theorem bit_fields_roundtrip {R W : Type} `{ReaderLaws R} `{WriterLaws W} fs
    (w : BitWriter.t W) :
  Forall field_ok fs -> bw_ok w -> BitWriter.bits_valid w = 0 -> bw_room w (total_bits fs) ->
  exists w' d, (write_fields fs ;;; BitWriter.flush) w = (Val tt, w') /\
    written (BitWriter.writer w') = written (BitWriter.writer w) ++ d /\
    zlen d = (total_bits fs + 7) / 8 /\
    forall (r : R) rest, r_ok r -> pending r = d ++ rest ->
      exists r' pad, read_fields (map fst fs) (BitReader.init r) = (Val (map snd fs), r') /\
        br_ok r' /\ rbits r' = replicate pad false ++ flat_map (bits_of 8) rest.
Proof.
  intros Hfs Hok Hbv Hroom.
  destruct (write_fields_bits fs w Hok Hfs Hroom) as (w1 & Hw1 & Hok1 & Hb1 & He1 & Hr1 & _).
  destruct (flush_bits w1 Hok1 Hr1) as (w2 & pad & Hw2 & Hok2 & Hv2 & Hpad & He2 & Hb2).
  destruct (extends_trans _ _ _ He1 He2) as [d Hd].
  exists w2, d. rewrite (bind_val _ _ _ _ _ Hw1). split; [done|]. split; [done|].
  assert (flat_map (bits_of 8) d = flat_map field_bits fs ++ replicate pad false) as Hbits.
  { rewrite Hb1 in Hb2. unfold wbits in Hb2. rewrite Hv2, Hbv, Hd in Hb2.
    simpl bits_of in Hb2. rewrite !app_nil_r, flat_map_app, <- app_assoc in Hb2.
    by apply app_inv_head in Hb2. }
  split.
  - apply (f_equal length) in Hbits. rewrite length_app, length_replicate in Hbits.
    assert (length (flat_map (bits_of 8) d) = 8 * length d)%nat as Hl.
    { clear. induction d as [|x d IH]; [done|]. cbn [flat_map].
      rewrite length_app, bits_of_length, IH. simpl. lia. }
    unfold total_bits, zlen. rewrite Hl in Hbits.
    apply (Z.div_unique_pos _ _ _ (7 - Z.of_nat pad)); lia.
  - intros r rest Hr Hp.
    destruct (read_fields_bits fs (BitReader.init r) (replicate pad false ++
      flat_map (bits_of 8) rest)) as (r' & Hrd & Hok' & Hr'); [|done| |by exists r', pad].
    + by split.
    + unfold rbits, BitReader.init. cbn [BitReader.reader BitReader.bits_valid].
      by rewrite Hp, flat_map_app, Hbits, <- app_assoc.
Qed.

(** [read_exp_golomb] decodes the Exp-Golomb code of every value below
    2^31 - 1 and consumes exactly the code; on a stream without a 1 bit it ends
    with the end-of-file error. *)
Theorem exp_golomb_decodes {R : Type} `{ReaderLaws R} (s : BitReader.t R) fuel :
  br_ok s ->
  (forall v rest, 0 <= v < 2 ^ 31 - 1 -> Z.log2 (v + 1) < Z.pos fuel ->
     rbits s = exp_golomb_bits v ++ rest ->
     exists s', BitEGReader.read_exp_golomb fuel s = (Val v, s') /\ br_ok s' /\
       rbits s' = rest) /\
  (forall k, rbits s = replicate k false -> Z.of_nat k < Z.pos fuel ->
     exists e s', BitEGReader.read_exp_golomb fuel s = (Throw e, s') /\ error e = 0).
Proof.
  intros Hok. split.
  - intros v rest Hv Hf Hr. unfold exp_golomb_bits in Hr. set (k := Z.log2 (v + 1)) in *.
    destruct (Z.log2_spec (v + 1)) as [Hlo Hhi]; [lia|]. fold k in Hlo, Hhi.
    assert (0 <= k) by apply Z.log2_nonneg.
    assert (k < 31).
    { destruct (Z.lt_ge_cases k 31); [done|].
      pose proof (Z.pow_le_mono_r 2 31 k ltac:(lia) ltac:(lia)). lia. }
    rewrite Z.pow_succ_r in Hhi by done.
    assert (Z.testbit (v + 1) (Z.of_nat (Z.to_nat k)) = true) as Htop.
    { rewrite Z2Nat.id by done. apply Z.bit_log2. lia. }
    cbn [bits_of] in Hr. rewrite Htop, <- app_assoc in Hr. cbn [app] in Hr.
    destruct (read_len_zeros (Z.to_nat k) s 0 (Pos.to_nat fuel) _ Hok Hr) as
      (s1 & Hl & Hok1 & Hr1); try lia.
    unfold BitEGReader.read_exp_golomb, bind at 1, BitEGReader.read_len.
    rewrite loop_pos_nat, Hl, Z.add_0_l, Nat2Z.id.
    destruct (read_value_bits (Z.to_nat k) s1 0 (v + 1) rest Hok1 Hr1) as
      (s2 & Hv2 & Hok2 & Hr2); [lia|].
    exists s2. change (u32 0) with 0 in Hv2. rewrite (bind_val _ _ _ _ _ Hv2). split; [|done].
    unfold ret. do 2 f_equal. rewrite !Z2Nat.id, Z.add_0_l, Z.shiftl_mul_pow2, Z.mul_1_l by lia.
    pose proof (Z.pow_le_mono_r 2 k 30 ltac:(lia) ltac:(lia)) as Hp.
    change (2 ^ 30) with 1073741824 in Hp.
    rewrite swrap_small by (unfold in_s; change (2 ^ (32 - 1)) with 2147483648; lia).
    rewrite <- (Z.mod_unique_pos (v + 1) (2 ^ k) 1 (v + 1 - 2 ^ k)) by lia.
    rewrite (wrap_small 32 (v + 1 - 2 ^ k)) by (unfold in_u; lia).
    rewrite wrap_small by (unfold in_u; lia). lia.
  - intros k Hr Hf.
    destruct (read_len_eof k s 0 (Pos.to_nat fuel) Hok Hr) as (e & s' & Hl & He); [lia|].
    exists e, s'. unfold BitEGReader.read_exp_golomb, bind at 1, BitEGReader.read_len.
    by rewrite loop_pos_nat, Hl.
Qed.

(* ------------------------------------------------------------------ *)
(** ** Witnesses *)

Lemma bit_fields_roundtrip_witness :
  exists w' d, (write_fields [(3, 5); (9, 300)] ;;; BitWriter.flush)
      (BitWriter.init StringWriter.init) = (Val tt, w') /\
    StringWriter.data (BitWriter.writer w') = d /\
    exists r', read_fields [3; 9] (BitReader.init (StringReader.init d)) = (Val [5; 300], r').
Proof.
  destruct (bit_fields_roundtrip (R := StringReader.t) [(3, 5); (9, 300)]
    (BitWriter.init StringWriter.init)) as (w' & d & Hw & Hd & Hlen & Hr).
  - repeat constructor; simpl; unfold in_u; lia.
  - repeat split; simpl; lia.
  - reflexivity.
  - vm_compute. reflexivity.
  - exists w', d. split; [exact Hw|]. split; [exact Hd|].
    assert (d = [178; 192]) as -> by (vm_compute in Hw; by injection Hw as <-).
    destruct (Hr (StringReader.init [178; 192]) []) as (r' & pad & Hrd & _).
    + repeat split; simpl; try (vm_compute; congruence). repeat constructor; unfold byte_ok; lia.
    + reflexivity.
    + exists r'. exact Hrd.
Defined.

(** 0b00101_000: the code 5 - 1 = 4 and three bits of padding *)
Lemma exp_golomb_decodes_witness :
  exists s', BitEGReader.read_exp_golomb 9 (BitReader.init (StringReader.init [40])) = (Val 4, s').
Proof.
  destruct (exp_golomb_decodes (BitReader.init (StringReader.init [40])) 9) as [Hv _].
  - repeat split; simpl; try (vm_compute; congruence); try lia.
    repeat constructor; unfold byte_ok; lia.
  - destruct (Hv 4 [false; false; false]) as (s' & Hs & _); [lia|reflexivity|reflexivity|].
    exists s'. exact Hs.
Defined.
