(* ===== verification/Convert.v ===== *)
(** * Text: numbers, hexadecimal and UTF-8

    Models [src/libs/text/convert.cc] (decimal and hexadecimal conversions,
    with what they use of [snprintf], [sscanf] and [atoi]) and
    [src/libs/text/utf8.cc].  A [std::string] is its list of bytes; where the
    code passes [c_str()] to the C library the text ends at the first zero
    byte. *)
From S2P Require Export Prelude.

(** ** Numbers in a base *)

(** Repeated division, the last digit first taken off: [fuel] divisions are
    enough for a number below [base ^ fuel]. *)
Fixpoint digits_fuel (fuel : nat) (base n : Z) (acc : list Z) : list Z :=
  match fuel with
  | O => acc
  | S fuel => if n =? 0 then acc else digits_fuel fuel base (n / base) (n mod base :: acc)
  end.
Definition digits (base n : Z) : list Z := digits_fuel 64 base n [].
Definition undigits (base : Z) (l : list Z) : Z := fold_left (fun a d => a * base + d) l 0.

Definition digit_char (d : Z) : Z := if d <? 10 then 48 + d else 87 + d.
(** [%llu] and [%llx] *)
Definition print_base (base n : Z) : bytes :=
  if n =? 0 then [48] else map digit_char (digits base n).

Definition is_space (c : Z) : bool := (c =? 32) || ((9 <=? c) && (c <=? 13)).
Definition is_digit (c : Z) : bool := (48 <=? c) && (c <=? 57).
Definition is_alpha (c : Z) : bool :=
  ((65 <=? c) && (c <=? 90)) || ((97 <=? c) && (c <=? 122)).

Fixpoint drop_while (p : Z -> bool) (s : bytes) : bytes :=
  match s with
  | [] => []
  | c :: s' => if p c then drop_while p s' else s
  end.
Fixpoint c_str (s : bytes) : bytes :=
  match s with
  | [] => []
  | c :: s => if c =? 0 then [] else c :: c_str s
  end.

(** The value of a digit character in a base, if it is one. *)
Definition digit_value (base c : Z) : option Z :=
  let v := if is_digit c then c - 48
           else if (97 <=? c) && (c <=? 122) then c - 87
           else if (65 <=? c) && (c <=? 90) then c - 55
           else base in
  if v <? base then Some v else None.
Fixpoint span_digits (base : Z) (s : bytes) : list Z :=
  match s with
  | [] => []
  | c :: s => match digit_value base c with
              | Some v => v :: span_digits base s
              | None => []
              end
  end.

(** [strtoull] and friends: blanks, a sign, digits.  [None] where there is no
    number; the flag is the sign. *)
Definition scan_number (base : Z) (s : bytes) : option (bool * Z) :=
  let s := drop_while is_space (c_str s) in
  let '(neg, s) := match s with
                   | c :: s' => if c =? 45 then (true, s')
                                else if c =? 43 then (false, s') else (false, s)
                   | [] => (false, s)
                   end in
  let s := if base =? 16 then
             match s with
             | 48 :: x :: s' => if (x =? 120) || (x =? 88) then s' else s
             | _ => s
             end
           else s in
  match span_digits base s with
  | [] => None
  | ds => Some (neg, undigits base ds)
  end.
Definition scan_u64 (base : Z) (s : bytes) : Z :=
  match scan_number base s with
  | None => 0
  | Some (neg, v) =>
    if v >? 2 ^ 64 - 1 then 2 ^ 64 - 1 else if neg : bool then u64 (- v) else v
  end.

(** ** convert.cc *)

(** [itos]: [%d] *)
Definition itos (i : Z) : bytes :=
  if i <? 0 then 45 :: print_base 10 (- i) else print_base 10 i.

(** [stoi]: [atoi], which is [(int) strtol] *)
Definition stoi (s : bytes) : Z :=
  match scan_number 10 s with
  | None => 0
  | Some (neg, v) =>
    let v := if neg : bool then - v else v in
    i32 (Z.max (- 2 ^ 63) (Z.min (2 ^ 63 - 1) v))
  end.

Definition i64tos (i : Z) : bytes := print_base 10 i.
Definition stoi64 (s : bytes) : Z := scan_u64 10 s.
Definition itox (i : Z) : bytes := print_base 16 i.
Definition xtoi (s : bytes) : Z := u32 (scan_u64 16 s).
Definition i64tox (i : Z) : bytes := print_base 16 i.
Definition xtoi64 (s : bytes) : Z := scan_u64 16 s.

Definition stob (s : bytes) : bool :=
  match s with
  | [] => false
  | c :: _ => existsb (Z.eqb c) (str "TtYy1")
  end.

(** [itos] with a decimal point inserted, or zeros appended *)
Fixpoint pad_front (fuel : nat) (s : bytes) (negmod want : Z) : bytes :=
  match fuel with
  | O => s
  | S fuel =>
    if zlen s <? want then
      pad_front fuel (ztake negmod s ++ 48 :: zdrop negmod s) negmod want
    else s
  end.
Definition ifixtos (i decimal_places : Z) : bytes :=
  let s := itos i in
  if decimal_places =? 0 then s
  else if decimal_places <? 0 then s ++ replicate (Z.to_nat (- decimal_places)) 48
  else
    let negmod := if i <? 0 then 1 else 0 in
    let s := pad_front (Z.to_nat (decimal_places + 2)) s negmod (decimal_places + 1 + negmod) in
    let p := zlen s - decimal_places in
    ztake p s ++ 46 :: zdrop p s.

(** [%02x] *)
Definition hex_byte (b : Z) : bytes := [digit_char (b / 16); digit_char (b mod 16)].
Definition btox (data : bytes) : bytes := flat_map hex_byte data.

(** [decode_nybble]; [None] is the exception *)
Definition decode_nybble (c : Z) : option Z :=
  if (97 <=? c) && (c <=? 102) then Some (c - 97 + 10)
  else if (65 <=? c) && (c <=? 70) then Some (c - 65 + 10)
  else if (48 <=? c) && (c <=? 57) then Some (c - 48)
  else None.

(** The loop over [length] pairs: the bytes decoded before the first invalid
    digit, and whether there was none. *)
Fixpoint xtob_loop (length : nat) (hex : bytes) : bytes * bool :=
  match length, hex with
  | S length, h :: l :: hex =>
    match decode_nybble h, decode_nybble l with
    | Some h, Some l =>
      let '(d, ok) := xtob_loop length hex in
      (u8 (Z.lor (Z.shiftl h 4) l) :: d, ok)
    | _, _ => ([], false)
    end
  | S _, _ => ([], true)
  | O, _ => ([], true)
  end.

(** [xtob(hex, data, max_length)]: the count returned and the bytes stored *)
Definition xtob_block (hex : bytes) (max_length : Z) : Z * bytes :=
  let length := u32 (zlen hex / 2) in
  let length := if length >? max_length then max_length else length in
  let '(d, ok) := xtob_loop (Z.to_nat length) hex in
  (if ok : bool then length else 0, d).
(** [string xtob(hex)] *)
Definition xtob (hex : bytes) : bytes :=
  let '(d, ok) := xtob_loop (Z.to_nat (zlen hex / 2)) hex in
  if ok : bool then d else [].
(** [xtob(hex, vector&)] *)
Definition xtob_append (hex data : bytes) : bytes :=
  data ++ fst (xtob_loop (Z.to_nat (zlen hex / 2)) hex).

(** ** utf8.cc *)
Module UTF8.
(** The bytes [append] adds for one character of type [wchar_t]. *)
Definition append (c : Z) : bytes :=
  let cont k := Z.lor 128 (Z.land 63 (Z.shiftr c k)) in
  if c <? 128 then [Z.land c 127]
  else if c <? 2048 then
    [Z.lor 192 (Z.land 31 (Z.shiftr c 6)); cont 0]
  else if c <? 65536 then
    [Z.lor 224 (Z.land 15 (Z.shiftr c 12)); cont 6; cont 0]
  else if c <? 2097152 then
    [Z.lor 240 (Z.land 7 (Z.shiftr c 18)); cont 12; cont 6; cont 0]
  else if c <? 67108864 then
    [Z.lor 248 (Z.land 3 (Z.shiftr c 24)); cont 18; cont 12; cont 6; cont 0]
  else if c <=? 2147483647 then
    [Z.lor 252 (Z.land 1 (Z.shiftr c 30)); cont 24; cont 18; cont 12; cont 6; cont 0]
  else [].

Definition encode (unicode : list Z) : bytes := flat_map append unicode.
Definition encode_latin1 (isolatin1 : bytes) : bytes := flat_map append isolatin1.

(** How many bytes follow a first byte, and the mask of its bits. *)
Definition lead (c : Z) : Z * Z :=
  let '(extra, mask) := (0, 255) in
  let '(extra, mask) := if Z.land c 192 =? 192 then (extra + 1, 31) else (extra, mask) in
  let '(extra, mask) :=
    if Z.land c 224 =? 224 then (extra + 1, Z.shiftr mask 1) else (extra, mask) in
  let '(extra, mask) :=
    if Z.land c 240 =? 240 then (extra + 1, Z.shiftr mask 1) else (extra, mask) in
  let '(extra, mask) :=
    if Z.land c 248 =? 248 then (extra + 1, Z.shiftr mask 1) else (extra, mask) in
  if Z.land c 252 =? 252 then (extra + 1, Z.shiftr mask 1) else (extra, mask).

(** [c = (c<<6) | ( *++p & 0x3f)] over the extra bytes *)
Definition add_extra (c : Z) (extra : bytes) : Z :=
  fold_left (fun c b => Z.lor (i32 (Z.shiftl c 6)) (Z.land b 63)) extra c.

(** The loop over the string: each turn takes at least one byte, so the length
    of the string is enough fuel. *)
Fixpoint decode_loop (fuel : nat) (s : bytes) : list Z :=
  match fuel, s with
  | S fuel, c :: s' =>
    let '(extra, mask) := lead c in
    if extra >=? zlen s then []
    else add_extra (Z.land c mask) (ztake extra s') :: decode_loop fuel (zdrop extra s')
  | _, _ => []
  end.
Definition decode (utf8 : bytes) : list Z := decode_loop (length utf8) utf8.

Definition latin1_mapping : bytes :=
  str "AAAAAAECEEEEIIIIDNOOOOOxOUUUUYPsaaaaaaeceeeeiiiidnooooo/ouuuuypy".

Definition strip_char (fallback c : Z) : list Z :=
  if (192 <=? c) && (c <=? 255) then
    if c =? 198 then str "AE"
    else if (c =? 208) || (c =? 222) then str "TH"
    else if c =? 223 then str "ss"
    else if c =? 230 then str "ae"
    else if (c =? 240) || (c =? 254) then str "th"
    else [zget 0 latin1_mapping (c - 192)]
  else if c >? 127 then [fallback]
  else [c].
Definition strip_diacritics (utf8 : bytes) (fallback : Z) : bytes :=
  encode (flat_map (strip_char fallback) (decode utf8)).
End UTF8.

(* ------------------------------------------------------------------ *)
(** ** Lemmas *)

(** Decide a property of the integers below a bound by evaluating it. *)
Lemma range_forall (f : Z -> bool) (n : nat) :
  forallb f (zseq 0 n) = true -> forall x, 0 <= x < Z.of_nat n -> f x = true.
Proof.
  intros Hf x Hx. rewrite forallb_forall in Hf. apply Hf. unfold zseq.
  apply in_map_iff. exists (Z.to_nat x). split; [lia|]. apply in_seq. lia.
Qed.

(** *** Digits *)

Lemma digits_fuel_app fuel base n acc :
  digits_fuel fuel base n acc = digits_fuel fuel base n [] ++ acc.
Proof.
  revert n acc. induction fuel as [|fuel IH]; intros n acc; simpl; [done|].
  destruct (n =? 0); [done|]. rewrite IH, (IH _ [_]), <- app_assoc. done.
Qed.

Lemma undigits_app base l k : undigits base (l ++ k) =
  fold_left (fun a d => a * base + d) k (undigits base l).
Proof. apply fold_left_app. Qed.

Lemma undigits_digits_fuel fuel base n :
  1 < base -> 0 <= n < base ^ Z.of_nat fuel -> undigits base (digits_fuel fuel base n []) = n.
Proof.
  intros Hb. revert n. induction fuel as [|fuel IH]; intros n Hn.
  - simpl in *. unfold undigits. simpl. lia.
  - cbn [digits_fuel]. destruct (Z.eqb_spec n 0) as [->|Hne]; [done|].
    rewrite digits_fuel_app, undigits_app. cbn [fold_left].
    rewrite IH.
    + pose proof (Z.div_mod n base). lia.
    + rewrite Nat2Z.inj_succ, Z.pow_succ_r in Hn by lia.
      split; [apply Z.div_pos; lia|]. apply Z.div_lt_upper_bound; lia.
Qed.

Lemma undigits_digits base n : 1 < base -> in_u 64 n -> undigits base (digits base n) = n.
Proof.
  intros Hb Hn. apply undigits_digits_fuel; [done|]. unfold in_u in Hn.
  pose proof (Z.pow_le_mono_l 2 base 64). change (Z.of_nat 64) with 64. lia.
Qed.

Lemma undigits_zeros base n l : undigits base (replicate n 0 ++ l) = undigits base l.
Proof. induction n as [|n IH]; [done|]. exact IH. Qed.

Lemma digits_fuel_range fuel base n acc :
  1 < base -> Forall (fun d => 0 <= d < base) acc ->
  Forall (fun d => 0 <= d < base) (digits_fuel fuel base n acc).
Proof.
  intros Hb. revert n acc. induction fuel as [|fuel IH]; intros n acc Hacc; simpl; [done|].
  destruct (n =? 0); [done|]. apply IH. constructor; [|done]. apply Z.mod_pos_bound. lia.
Qed.

Lemma digits_range base n : 1 < base -> Forall (fun d => 0 <= d < base) (digits base n).
Proof. intros. by apply digits_fuel_range. Qed.

Lemma digits_fuel_nonempty fuel base n : n <> 0 -> digits_fuel (S fuel) base n [] <> [].
Proof.
  intros Hn. cbn [digits_fuel]. destruct (Z.eqb_spec n 0); [done|].
  rewrite digits_fuel_app. by destruct (digits_fuel _ _ _ _).
Qed.
Lemma digits_nonempty base n : n <> 0 -> digits base n <> [].
Proof. apply digits_fuel_nonempty. Qed.

Lemma digit_value_char base d : 0 <= d < base -> base <= 36 -> digit_value base (digit_char d) = Some d.
Proof.
  intros Hd Hb. unfold digit_value, digit_char, is_digit.
  destruct (Z.ltb_spec d 10).
  - replace ((48 <=? 48 + d) && (48 + d <=? 57)) with true by lia.
    replace (48 + d - 48) with d by lia. by replace (d <? base) with true by lia.
  - replace ((48 <=? 87 + d) && (87 + d <=? 57)) with false by lia.
    replace ((97 <=? 87 + d) && (87 + d <=? 122)) with true by lia.
    replace (87 + d - 87) with d by lia. by replace (d <? base) with true by lia.
Qed.

Lemma digit_char_range d : 0 <= d < 36 -> 48 <= digit_char d <= 57 \/ 97 <= digit_char d <= 122.
Proof. intros. unfold digit_char. destruct (Z.ltb_spec d 10); lia. Qed.

Lemma c_str_id s rest : Forall (fun c => c <> 0) s -> c_str (s ++ 0 :: rest) = s.
Proof.
  induction 1 as [|c s Hc Hs IH]; simpl; [done|].
  rewrite (proj2 (Z.eqb_neq _ _) Hc). by rewrite IH.
Qed.
Lemma c_str_all s : Forall (fun c => c <> 0) s -> c_str s = s.
Proof.
  induction 1 as [|c s Hc Hs IH]; simpl; [done|].
  rewrite (proj2 (Z.eqb_neq _ _) Hc). by rewrite IH.
Qed.

(** Every character of a printed number is a digit of its base. *)
Definition digit_text (base : Z) (s : bytes) : Prop :=
  s <> [] /\ Forall (fun c => exists d, 0 <= d < base /\ c = digit_char d) s.

Lemma print_base_text base n : 1 < base -> digit_text base (print_base base n).
Proof.
  intros Hb. unfold print_base. destruct (Z.eqb_spec n 0) as [->|Hn].
  - split; [done|]. constructor; [|done]. exists 0. split; [lia|done].
  - split; [intros Hnil; apply map_eq_nil in Hnil; by apply (digits_nonempty base n)|].
    apply Forall_fmap. eapply Forall_impl; [apply digits_range; done|].
    intros d Hd. by exists d.
Qed.

Lemma span_digits_text base s :
  base <= 36 -> Forall (fun c => exists d, 0 <= d < base /\ c = digit_char d) s ->
  map digit_char (span_digits base s) = s.
Proof.
  intros Hb. induction 1 as [|c s (d & Hd & ->) Hs IH]; simpl; [done|].
  rewrite digit_value_char by done. simpl. by rewrite IH.
Qed.

Lemma span_digits_map base l :
  base <= 36 -> Forall (fun d => 0 <= d < base) l -> span_digits base (map digit_char l) = l.
Proof.
  intros Hb. induction 1 as [|d l Hd Hl IH]; simpl; [done|].
  by rewrite digit_value_char, IH.
Qed.

Lemma span_digits_print base n :
  1 < base <= 36 -> in_u 64 n -> undigits base (span_digits base (print_base base n)) = n.
Proof.
  intros Hb Hn. unfold print_base. destruct (Z.eqb_spec n 0) as [->|].
  - change 48 with (digit_char 0). simpl. by rewrite digit_value_char by lia.
  - rewrite span_digits_map by (lia || (apply digits_range; lia)). apply undigits_digits; [lia|done].
Qed.

(** A number scans back, after an optional minus sign. *)
Lemma scan_digits base s neg :
  1 < base <= 36 -> digit_text base s -> base <> 16 ->
  scan_number base ((if neg : bool then [45] else []) ++ s) =
    Some (neg, undigits base (span_digits base s)).
Proof.
  intros Hb [Hne Hs] H16. destruct s as [|c s]; [done|]. clear Hne.
  pose proof Hs as Hs0. apply Forall_cons in Hs0 as [(d & Hd & ->) Hs'].
  assert (Forall (fun c => c <> 0) (digit_char d :: s)) as Hnz.
  { eapply Forall_impl; [exact Hs|]. intros c (e & He & ->).
    pose proof (digit_char_range e). lia. }
  pose proof (digit_char_range d) as Hr.
  assert (span_digits base (digit_char d :: s) <> []) as Hsp.
  { simpl. by rewrite digit_value_char by lia. }
  unfold scan_number. rewrite (proj2 (Z.eqb_neq _ _) H16).
  destruct neg; cbn [app].
  - change (c_str (45 :: digit_char d :: s)) with (45 :: c_str (digit_char d :: s)).
    rewrite c_str_all by done.
    cbn [drop_while]. change (is_space 45) with false. cbn beta iota.
    change (45 =? 45) with true. cbn beta iota.
    by destruct (span_digits base (digit_char d :: s)).
  - rewrite c_str_all by done. cbn [drop_while].
    replace (is_space (digit_char d)) with false by (unfold is_space; lia). cbn beta iota.
    replace (digit_char d =? 45) with false by lia.
    replace (digit_char d =? 43) with false by lia.
    by destruct (span_digits base (digit_char d :: s)).
Qed.

Lemma scan_digits_16_text s :
  digit_text 16 s -> scan_number 16 s = Some (false, undigits 16 (span_digits 16 s)).
Proof.
  intros [Hne Hs].
  destruct s as [|c s]; [done|]. clear Hne.
  pose proof Hs as Hs0. apply Forall_cons in Hs0 as [(d & Hd & ->) Hs'].
  assert (Forall (fun c => c <> 0) (digit_char d :: s)) as Hnz.
  { eapply Forall_impl; [exact Hs|]. intros c (e & He & ->).
    pose proof (digit_char_range e). lia. }
  pose proof (digit_char_range d) as Hr.
  assert (span_digits 16 (digit_char d :: s) <> []) as Hsp.
  { simpl. by rewrite digit_value_char by lia. }
  unfold scan_number. rewrite c_str_all by done. cbn [drop_while].
  replace (is_space (digit_char d)) with false by (unfold is_space; lia). cbn beta iota.
  replace (digit_char d =? 45) with false by lia.
  replace (digit_char d =? 43) with false by lia. change (16 =? 16) with true. cbn beta iota.
  assert (match digit_char d :: s with
          | 48 :: x :: s' => if (x =? 120) || (x =? 88) then s' else digit_char d :: s
          | _ => digit_char d :: s
          end = digit_char d :: s) as ->.
  { destruct s as [|x s].
    - destruct (decide (digit_char d = 48)) as [->|Hneq]; [done|].
      destruct (digit_char d) as [|p|p]; try done.
      do 6 (destruct p as [p|p|]; try done).
    - apply Forall_cons in Hs' as [(e & He & ->) _].
      replace ((digit_char e =? 120) || (digit_char e =? 88)) with false.
      2: { unfold digit_char. destruct (Z.ltb_spec e 10); lia. }
      destruct (digit_char d) as [|p|p]; try done.
      do 6 (destruct p as [p|p|]; try done). }
  by destruct (span_digits 16 (digit_char d :: s)).
Qed.

Lemma scan_digits_16 n :
  in_u 64 n -> scan_number 16 (print_base 16 n) = Some (false, n).
Proof.
  intros Hn. rewrite scan_digits_16_text by (apply print_base_text; lia).
  by rewrite span_digits_print by (lia || done).
Qed.

(** *** Hexadecimal *)

Lemma decode_nybble_char d : 0 <= d < 16 -> decode_nybble (digit_char d) = Some d.
Proof.
  intros Hd. unfold decode_nybble, digit_char. destruct (Z.ltb_spec d 10).
  - replace ((97 <=? 48 + d) && (48 + d <=? 102)) with false by lia.
    replace ((65 <=? 48 + d) && (48 + d <=? 70)) with false by lia.
    replace ((48 <=? 48 + d) && (48 + d <=? 57)) with true by lia. f_equal. lia.
  - replace ((97 <=? 87 + d) && (87 + d <=? 102)) with true by lia. f_equal. lia.
Qed.

Lemma btox_length d : length (btox d) = (2 * length d)%nat.
Proof.
  induction d as [|b d IH]; [done|]. change (btox (b :: d)) with (hex_byte b ++ btox d).
  rewrite length_app, IH. simpl. lia.
Qed.

Lemma xtob_loop_btox d n rest :
  bytes_ok d -> n = length d -> xtob_loop n (btox d ++ rest) = (d, true).
Proof.
  intros Hd ->. induction Hd as [|b d Hb Hd IH]; [done|]. unfold byte_ok in Hb.
  cbn [length]. unfold btox. cbn [flat_map]. unfold hex_byte at 1. cbn [app xtob_loop].
  pose proof (Z.mod_pos_bound b 16 ltac:(lia)).
  assert (0 <= b / 16 < 16) by (split; [apply Z.div_pos; lia|apply Z.div_lt_upper_bound; lia]).
  rewrite !decode_nybble_char by lia. fold (btox d). rewrite IH.
  rewrite (lor_add 4) by (change (2 ^ 4) with 16; lia). change (2 ^ 4) with 16.
  rewrite u8_small by (unfold byte_ok; pose proof (Z.div_mod b 16); lia).
  f_equal. f_equal. pose proof (Z.div_mod b 16). lia.
Qed.

(** *** UTF-8 *)

(** Continuation bytes carry six bits each. *)
Lemma cont_bits x : Z.land (Z.lor 128 (Z.land 63 x)) 63 = Z.land x 63.
Proof.
  bits. change 63 with (Z.ones 6). rewrite Z.testbit_ones_nonneg by lia.
  destruct (Z.ltb_spec i 6); rewrite ?andb_true_r, ?andb_false_r; [|done].
  assert (Z.testbit 128 i = false) as ->.
  { assert (i = 0 \/ i = 1 \/ i = 2 \/ i = 3 \/ i = 4 \/ i = 5) by lia.
    by destruct_or?; subst. }
  by rewrite orb_false_l.
Qed.

(** Adding a continuation byte to the bits above it. *)
Lemma add_cont c k j :
  0 <= c <= 2147483647 -> 0 <= k -> j = k + 6 ->
  Z.lor (i32 (Z.shiftl (Z.shiftr c j) 6)) (Z.land (Z.lor 128 (Z.land 63 (Z.shiftr c k))) 63)
    = Z.shiftr c k.
Proof.
  intros Hc Hk ->. rewrite cont_bits.
  assert (0 <= Z.shiftr c k <= 2147483647) as Hr.
  { rewrite Z.shiftr_div_pow2 by done. pose proof (Z.pow_pos_nonneg 2 k ltac:(lia) Hk).
    split; [apply Z.div_pos; lia|]. apply Z.div_le_upper_bound; nia. }
  replace (Z.shiftr c (k + 6)) with (Z.shiftr (Z.shiftr c k) 6)
    by (rewrite Z.shiftr_shiftr by lia; f_equal; lia).
  set (x := Z.shiftr c k) in *. change 63 with (Z.ones 6).
  rewrite Z.land_ones, Z.shiftr_div_pow2, Z.shiftl_mul_pow2 by lia.
  pose proof (Z.div_mod x (2 ^ 6) ltac:(done)). pose proof (Z.mod_pos_bound x (2 ^ 6) ltac:(done)).
  rewrite swrap_small by (unfold in_s; change (2 ^ (32 - 1)) with 2147483648; lia).
  rewrite <- Z.shiftl_mul_pow2, lor_add by lia. lia.
Qed.

(** A first byte with [extra] bytes after it: its prefix bits, and the bits
    [x] below [2 ^ w] that it carries. *)
Lemma lead_byte prefix w extra mask x :
  forallb (fun x => (fst (UTF8.lead (Z.lor prefix (Z.land mask x))) =? extra) &&
                    (Z.land (Z.lor prefix (Z.land mask x))
                       (snd (UTF8.lead (Z.lor prefix (Z.land mask x)))) =? x))
    (zseq 0 w) = true ->
  0 <= x < Z.of_nat w ->
  exists m, UTF8.lead (Z.lor prefix (Z.land mask x)) = (extra, m) /\
    Z.land (Z.lor prefix (Z.land mask x)) m = x.
Proof.
  intros Hall Hx. pose proof (range_forall _ w Hall x Hx) as H. simpl in H.
  apply andb_prop in H as [H1 H2]. apply Z.eqb_eq in H1, H2.
  destruct (UTF8.lead (Z.lor prefix (Z.land mask x))) as [e m]. simpl in *. subst. by exists m.
Qed.

Lemma shiftr_bound c k w : 0 <= k -> 0 <= c < 2 ^ k * w -> 0 <= Z.shiftr c k < w.
Proof.
  intros Hk Hc. rewrite Z.shiftr_div_pow2 by done.
  pose proof (Z.pow_pos_nonneg 2 k ltac:(lia) Hk).
  split; [apply Z.div_pos; lia|]. apply Z.div_lt_upper_bound; lia.
Qed.

(** The first turn of [decode] on a character with [k] continuation bytes. *)
Lemma decode_char c first extra k w prefix mask rest fuel :
  first = Z.lor prefix (Z.land mask (Z.shiftr c (6 * k))) ->
  forallb (fun x => (fst (UTF8.lead (Z.lor prefix (Z.land mask x))) =? k) &&
                    (Z.land (Z.lor prefix (Z.land mask x))
                       (snd (UTF8.lead (Z.lor prefix (Z.land mask x)))) =? x))
    (zseq 0 w) = true ->
  0 <= k -> 0 <= c < 2 ^ (6 * k) * Z.of_nat w -> zlen extra = k ->
  UTF8.add_extra (Z.shiftr c (6 * k)) extra = c ->
  UTF8.decode_loop (S fuel) (first :: extra ++ rest) = c :: UTF8.decode_loop fuel rest.
Proof.
  intros -> Hall Hk Hc Hlen Hadd.
  destruct (lead_byte prefix w k mask (Z.shiftr c (6 * k)) Hall) as (m & Hl & Hm).
  { apply shiftr_bound; [lia|done]. }
  cbn [UTF8.decode_loop]. rewrite Hl, Hm.
  rewrite zlen_cons, zlen_app, Z.geb_leb. pose proof (zlen_nonneg rest).
  rewrite (proj2 (Z.leb_gt _ _)) by lia.
  assert (ztake k (extra ++ rest) = extra) as -> by (rewrite <- Hlen; apply ztake_app).
  assert (zdrop k (extra ++ rest) = rest) as -> by (rewrite <- Hlen; apply zdrop_app).
  by rewrite Hadd.
Qed.

Lemma decode_append c rest fuel :
  0 <= c <= 2147483647 ->
  UTF8.decode_loop (S fuel) (UTF8.append c ++ rest) = c :: UTF8.decode_loop fuel rest.
Proof.
  intros Hc. unfold UTF8.append.
  repeat match goal with |- context [if ?a <? ?b then _ else _] => destruct (Z.ltb_spec a b) end;
    [| | | | |rewrite (proj2 (Z.leb_le _ _)) by lia].
  - assert (Z.land c 127 = c) as ->.
    { change 127 with (Z.ones 7). rewrite Z.land_ones by lia. apply Z.mod_small. lia. }
    cbn [app UTF8.decode_loop].
    assert (((fst (UTF8.lead c) =? 0) && (Z.land c (snd (UTF8.lead c)) =? c)) = true) as Hl.
    { apply (range_forall (fun c => (fst (UTF8.lead c) =? 0) &&
        (Z.land c (snd (UTF8.lead c)) =? c)) 128); [by vm_compute|lia]. }
    apply andb_prop in Hl as [H1 H2]. apply Z.eqb_eq in H1, H2.
    destruct (UTF8.lead c) as [e m]. simpl in H1, H2. subst e. rewrite H2.
    rewrite zlen_cons, Z.geb_leb. pose proof (zlen_nonneg rest).
    by rewrite (proj2 (Z.leb_gt _ _)) by lia.
  - apply (decode_char c _ [_] 1 32 192 31); try done; try lia.
    change (6 * 1) with 6. unfold UTF8.add_extra. cbn [fold_left].
    rewrite (add_cont c 0 6), Z.shiftr_0_r by lia. done.
  - apply (decode_char c _ [_; _] 2 16 224 15); try done; try lia.
    change (6 * 2) with 12. unfold UTF8.add_extra. cbn [fold_left].
    rewrite (add_cont c 6 12), (add_cont c 0 6), Z.shiftr_0_r by lia. done.
  - apply (decode_char c _ [_; _; _] 3 8 240 7); try done; try lia.
    change (6 * 3) with 18. unfold UTF8.add_extra. cbn [fold_left].
    rewrite (add_cont c 12 18), (add_cont c 6 12), (add_cont c 0 6), Z.shiftr_0_r by lia. done.
  - apply (decode_char c _ [_; _; _; _] 4 4 248 3); try done; try lia.
    change (6 * 4) with 24. unfold UTF8.add_extra. cbn [fold_left].
    rewrite (add_cont c 18 24), (add_cont c 12 18), (add_cont c 6 12), (add_cont c 0 6), Z.shiftr_0_r
      by lia. done.
  - apply (decode_char c _ [_; _; _; _; _] 5 2 252 1); try done; try lia.
    change (6 * 5) with 30. unfold UTF8.add_extra. cbn [fold_left].
    rewrite (add_cont c 24 30), (add_cont c 18 24), (add_cont c 12 18), (add_cont c 6 12), (add_cont c 0 6),
      Z.shiftr_0_r by lia. done.
Qed.

Lemma append_nonempty c : 0 <= c <= 2147483647 -> (0 < length (UTF8.append c))%nat.
Proof.
  intros Hc. unfold UTF8.append.
  repeat match goal with |- context [if ?a <? ?b then _ else _] => destruct (Z.ltb_spec a b) end;
    [simpl; lia..|]. rewrite (proj2 (Z.leb_le _ _)) by lia. simpl. lia.
Qed.

Lemma decode_encode l :
  Forall (fun c => 0 <= c <= 2147483647) l -> UTF8.decode (UTF8.encode l) = l.
Proof.
  intros Hl. unfold UTF8.decode.
  assert (forall fuel, (length (UTF8.encode l) <= fuel)%nat ->
    UTF8.decode_loop fuel (UTF8.encode l) = l) as H; [|by apply H].
  induction Hl as [|c l Hc Hl IH]; intros fuel Hf; [by destruct fuel|].
  unfold UTF8.encode in *. cbn [flat_map] in *. rewrite length_app in Hf.
  pose proof (append_nonempty c Hc). destruct fuel as [|fuel]; [lia|].
  rewrite decode_append by done. f_equal. apply IH. lia.
Qed.

Lemma stoi64_print n : in_u 64 n -> stoi64 (print_base 10 n) = n.
Proof.
  intros Hn. unfold stoi64, scan_u64.
  pose proof (scan_digits 10 (print_base 10 n) false ltac:(lia)
    (print_base_text 10 n ltac:(lia)) ltac:(lia)) as Hs. cbn [app] in Hs.
  rewrite Hs, span_digits_print by (done || lia). unfold in_u in Hn.
  by rewrite Z.gtb_ltb, (proj2 (Z.ltb_ge _ _)) by lia.
Qed.

Lemma stoi64_minus n : 0 < n < 2 ^ 64 -> stoi64 (45 :: print_base 10 n) = 2 ^ 64 - n.
Proof.
  intros Hn. unfold stoi64, scan_u64.
  pose proof (scan_digits 10 (print_base 10 n) true ltac:(lia)
    (print_base_text 10 n ltac:(lia)) ltac:(lia)) as Hs. cbn [app] in Hs.
  rewrite Hs, span_digits_print by (unfold in_u; lia).
  rewrite Z.gtb_ltb, (proj2 (Z.ltb_ge _ _)) by lia. unfold wrap.
  symmetry. apply (Z.mod_unique_pos _ _ (-1)); lia.
Qed.

Lemma scan_u64_16_print n : in_u 64 n -> scan_u64 16 (print_base 16 n) = n.
Proof.
  intros Hn. unfold scan_u64. rewrite scan_digits_16 by done. unfold in_u in Hn.
  by rewrite Z.gtb_ltb, (proj2 (Z.ltb_ge _ _)) by lia.
Qed.

Lemma stoi_itos i : in_s 32 i -> stoi (itos i) = i.
Proof.
  intros Hi. pose proof Hi as Hi'. unfold in_s in Hi'. change (2 ^ (32 - 1)) with 2147483648 in Hi'.
  unfold stoi, itos. destruct (Z.ltb_spec i 0).
  - pose proof (scan_digits 10 (print_base 10 (- i)) true ltac:(lia)
      (print_base_text 10 (- i) ltac:(lia)) ltac:(lia)) as Hs. cbn [app] in Hs.
    rewrite Hs, span_digits_print by (unfold in_u; lia).
    rewrite Z.opp_involutive, Z.min_r, Z.max_r by lia. apply swrap_small; [lia|done].
  - pose proof (scan_digits 10 (print_base 10 i) false ltac:(lia)
      (print_base_text 10 i ltac:(lia)) ltac:(lia)) as Hs. cbn [app] in Hs.
    rewrite Hs, span_digits_print by (unfold in_u; lia).
    rewrite Z.min_r, Z.max_r by lia. apply swrap_small; [lia|done].
Qed.

(* ------------------------------------------------------------------ *)
(** ** Properties *)

(** A number printed in decimal or hexadecimal is read back: signed 32-bit by
    [itos]/[stoi], unsigned 64-bit by [i64tos]/[stoi64] and [i64tox]/[xtoi64],
    unsigned 32-bit by [itox]/[xtoi]. *)
Theorem numbers_roundtrip :
  (forall i, in_s 32 i -> stoi (itos i) = i) /\
  (forall n, in_u 64 n -> stoi64 (i64tos n) = n) /\
  (forall n, in_u 64 n -> xtoi64 (i64tox n) = n) /\
  (forall n, in_u 32 n -> xtoi (itox n) = n).
Proof.
  split; [exact stoi_itos|]. split; [exact stoi64_print|].
  split; [exact scan_u64_16_print|]. intros n Hn. unfold xtoi, itox.
  rewrite scan_u64_16_print by (unfold in_u in *; lia). by apply wrap_small.
Qed.

(** Binary data printed in hexadecimal is read back by each of the decoders, up
    to the length each allows; an odd last digit is ignored. *)
Theorem hex_roundtrip d data k odd :
  bytes_ok d -> zlen d < 2 ^ 31 -> (length odd <= 1)%nat -> in_u 32 k ->
  xtob (btox d ++ odd) = d /\
  xtob_append (btox d ++ odd) data = data ++ d /\
  xtob_block (btox d ++ odd) k = (zlen d `min` k, ztake k d).
Proof.
  intros Hd Hlen Hodd Hk. unfold in_u in Hk.
  assert (zlen (btox d ++ odd) / 2 = zlen d) as Hl.
  { rewrite zlen_app. unfold zlen. rewrite btox_length.
    symmetry. apply (Z.div_unique_pos _ _ _ (Z.of_nat (length odd))); lia. }
  assert (Z.to_nat (zlen d) = length d) as Hnat by (unfold zlen; lia).
  pose proof (zlen_nonneg d).
  unfold xtob, xtob_append, xtob_block. rewrite !Hl, !Hnat, xtob_loop_btox by done.
  split; [done|]. split; [done|].
  rewrite wrap_small by (unfold in_u; lia). rewrite Z.gtb_ltb.
  destruct (Z.ltb_spec k (zlen d)) as [Hlt|Hge].
  - rewrite <- (ztake_zdrop k d) at 1. unfold btox. rewrite flat_map_app, <- app_assoc.
    fold (btox (ztake k d)).
    rewrite xtob_loop_btox; [by rewrite Z.min_r by lia|by apply Forall_take|].
    unfold ztake. rewrite length_take. unfold zlen in Hlt. lia.
  - rewrite Hnat, xtob_loop_btox by done. by rewrite Z.min_l, ztake_ge by lia.
Qed.

(** UTF-8: every list of character codes up to 2^31 - 1 that is encoded is
    decoded to the same list. *)
Theorem utf8_roundtrip l :
  Forall (fun c => 0 <= c <= 2147483647) l -> UTF8.decode (UTF8.encode l) = l.
Proof. apply decode_encode. Qed.

(* ------------------------------------------------------------------ *)
(** ** Witnesses *)

Lemma hex_roundtrip_witness : xtob (str "00ff7") = [0; 255].
Proof.
  apply (hex_roundtrip [0; 255] [] 5 (str "7")); try (vm_compute; reflexivity).
  - repeat constructor; unfold byte_ok; lia.
  - unfold in_u. lia.
Defined.

Lemma utf8_roundtrip_witness : UTF8.decode (UTF8.encode [65; 8364; 128512]) = [65; 8364; 128512].
Proof. apply utf8_roundtrip. repeat constructor; lia. Defined.
