(* ===== verification/StrMap.v ===== *)
(** * Maps with string keys

    The [map<string, V>] of the standard library, which JSON objects, XML
    attributes and property lists use: the list of its entries in key order. *)
From S2P Require Export Prelude.


(** [string::compare], by unsigned bytes *)
Fixpoint key_cmp (a b : bytes) : comparison :=
  match a, b with
  | [], [] => Eq
  | [], _ => Lt
  | _, [] => Gt
  | x :: a, y :: b => match x ?= y with Eq => key_cmp a b | c => c end
  end.

Fixpoint map_find {V} (k : bytes) (o : list (bytes * V)) : option V :=
  match o with
  | [] => None
  | (k', v) :: o => match key_cmp k k' with Eq => Some v | _ => map_find k o end
  end.

(** [o[k] = v] *)
Fixpoint map_set {V} (k : bytes) (v : V) (o : list (bytes * V)) : list (bytes * V) :=
  match o with
  | [] => [(k, v)]
  | (k', v') :: o' =>
    match key_cmp k k' with
    | Lt => (k, v) :: o
    | Eq => (k, v) :: o'
    | Gt => (k', v') :: map_set k v o'
    end
  end.

(** In key order, without duplicates. *)
Fixpoint keys_from {V} (k : option bytes) (o : list (bytes * V)) : Prop :=
  match o with
  | [] => True
  | (k', _) :: o =>
    match k with Some k => key_cmp k k' = Lt | None => True end /\ keys_from (Some k') o
  end.
Definition sorted {V} (o : list (bytes * V)) : Prop := keys_from None o.

(** [erase(k)] *)
Fixpoint map_erase {V} (k : bytes) (o : list (bytes * V)) : list (bytes * V) :=
  match o with
  | [] => []
  | (k', v) :: o => match key_cmp k k' with Eq => o | _ => (k', v) :: map_erase k o end
  end.
(** [for (p : o) m[p.first] = p.second] *)
Definition map_update {V} (o m : list (bytes * V)) : list (bytes * V) :=
  fold_left (fun m '(k, v) => map_set k v m) o m.

(* ------------------------------------------------------------------ *)
(** ** Lemmas *)

Lemma key_cmp_eq a : forall b, key_cmp a b = Eq <-> a = b.
Proof.
  induction a as [|x a IH]; intros [|y b]; simpl; try done.
  destruct (Z.compare_spec x y) as [->|H|H].
  - rewrite IH. split; [by intros ->|by injection 1].
  - split; [done|]. injection 1. lia.
  - split; [done|]. injection 1. lia.
Qed.

Lemma key_cmp_refl a : key_cmp a a = Eq.
Proof. by apply key_cmp_eq. Qed.

Lemma key_cmp_antisym a : forall b, key_cmp b a = CompOpp (key_cmp a b).
Proof.
  induction a as [|x a IH]; intros [|y b]; simpl; try done.
  rewrite (Z.compare_antisym x y). destruct (x ?= y); simpl; [apply IH|done..].
Qed.

Lemma key_cmp_trans a : forall b c,
  key_cmp a b = Lt -> key_cmp b c = Lt -> key_cmp a c = Lt.
Proof.
  induction a as [|x a IH]; intros [|y b] [|z c]; simpl; try done.
  destruct (Z.compare_spec x y), (Z.compare_spec y z), (Z.compare_spec x z);
    try done; try lia. by eapply IH.
Qed.

Section maps.
Context {V : Type}.

Lemma keys_from_weaken k (o : list (bytes * V)) : keys_from k o -> keys_from None o.
Proof. destruct o as [|[k' v] o]; [done|]. simpl. tauto. Qed.

Lemma keys_from_lt k1 k2 (o : list (bytes * V)) : key_cmp k1 k2 = Lt -> keys_from (Some k2) o -> keys_from (Some k1) o.
Proof.
  destruct o as [|[k' v] o]; [done|]. simpl. intros H [H1 H2].
  split; [by eapply key_cmp_trans|done].
Qed.

Lemma keys_from_init (o1 o2 : list (bytes * V)) b : keys_from b (o1 ++ o2) -> keys_from b o1.
Proof.
  revert b. induction o1 as [|[k v] o1 IH]; intros b Ho; [done|]. cbn [app keys_from] in *.
  destruct Ho as [H1 H2]. split; [done|]. by apply IH.
Qed.
Lemma keys_from_prefix b acc kv (o : list (bytes * V)) :
  keys_from b (acc ++ kv :: o) -> keys_from b (acc ++ [kv]).
Proof. intros H. apply (keys_from_init _ o). by rewrite <- app_assoc. Qed.

(** A key that is still to come is not there yet. *)
Lemma map_find_before k (v : V) acc a b : keys_from b (acc ++ (k, v) :: a) -> map_find k acc = None.
Proof.
  revert b. induction acc as [|[k1 v1] acc IH]; intros b; cbn [app keys_from map_find]; [done|].
  intros [H1 H2]. rewrite (IH _ H2).
  assert (key_cmp k1 k = Lt) as Hlt.
  { clear -H2. revert k1 H2. induction acc as [|[k2 v2] acc IH]; intros k1; cbn [app keys_from]; [tauto|].
    intros [H1 H2]. eapply key_cmp_trans; [exact H1|]. by apply IH. }
  by rewrite key_cmp_antisym, Hlt.
Qed.

Lemma map_find_below k (o : list (bytes * V)) : keys_from (Some k) o -> map_find k o = None.
Proof.
  revert k. induction o as [|[k' v] o IH]; intros k Ho; [done|]. simpl in *.
  destruct Ho as [Hlt Ho]. rewrite Hlt. apply IH. by eapply keys_from_lt.
Qed.

Lemma map_set_from k (v : V) b o :
  keys_from b o -> match b with Some b => key_cmp b k = Lt | None => True end ->
  keys_from b (map_set k v o).
Proof.
  revert b. induction o as [|[k' v'] o IH]; intros b Ho Hb; simpl; [by destruct b|].
  destruct Ho as [Hlt Ho]. destruct (key_cmp k k') eqn:Hc; simpl.
  - apply key_cmp_eq in Hc as ->. by split.
  - split; [done|]. split; [done|done].
  - split; [done|]. apply IH; [done|]. by rewrite key_cmp_antisym, Hc.
Qed.

Lemma map_find_set k (v : V) k' o :
  sorted o -> map_find k' (map_set k v o) =
    match key_cmp k' k with Eq => Some v | _ => map_find k' o end.
Proof.
  unfold sorted. induction o as [|[l w] o IH]; intros Ho; simpl; [by destruct (key_cmp k' k)|].
  destruct Ho as [_ Ho].
  destruct (key_cmp k l) eqn:Hkl; simpl.
  - apply key_cmp_eq in Hkl as ->. by destruct (key_cmp k' l).
  - by destruct (key_cmp k' k).
  - rewrite IH by by eapply keys_from_weaken.
    destruct (key_cmp k' l) eqn:Hl; [|done|done].
    apply key_cmp_eq in Hl as ->. rewrite key_cmp_antisym, Hkl. done.
Qed.

(** Appending a larger key. *)
Lemma map_set_snoc k (v : V) o b :
  keys_from b (o ++ [(k, v)]) -> map_set k v o = o ++ [(k, v)].
Proof.
  revert b. induction o as [|[k' v'] o IH]; intros b Ho; [done|]. simpl in *.
  destruct Ho as [_ Ho].
  assert (key_cmp k' k = Lt) as Hlt.
  { clear IH. revert k' Ho. induction o as [|[k2 v2] o IHo]; intros k' Ho; simpl in Ho; [tauto|].
    destruct Ho as [H1 H2]. eapply key_cmp_trans; [exact H1|]. by apply IHo. }
  rewrite key_cmp_antisym, Hlt. cbn [CompOpp]. f_equal. by eapply IH.
Qed.

Lemma map_find_erase k k' (o : list (bytes * V)) : sorted o ->
  map_find k' (map_erase k o) = match key_cmp k' k with Eq => None | _ => map_find k' o end.
Proof.
  unfold sorted. induction o as [|[l w] o IH]; intros Ho; simpl; [by destruct (key_cmp k' k)|].
  destruct Ho as [_ Ho]. destruct (key_cmp k l) eqn:Hkl; simpl.
  - apply key_cmp_eq in Hkl as ->. destruct (key_cmp k' l) eqn:Hl; [|done|done].
    apply key_cmp_eq in Hl as ->. by apply map_find_below.
  - rewrite IH by by eapply keys_from_weaken. destruct (key_cmp k' l) eqn:Hl; [|done|done].
    apply key_cmp_eq in Hl as ->. by rewrite key_cmp_antisym, Hkl.
  - rewrite IH by by eapply keys_from_weaken. destruct (key_cmp k' l) eqn:Hl; [|done|done].
    apply key_cmp_eq in Hl as ->. by rewrite key_cmp_antisym, Hkl.
Qed.

Lemma map_erase_from k b (o : list (bytes * V)) : keys_from b o -> keys_from b (map_erase k o).
Proof.
  revert b. induction o as [|[l w] o IH]; intros b; [done|]. simpl. intros [Hl Ho].
  destruct (key_cmp k l).
  - destruct b as [b|]; [by eapply keys_from_lt|by eapply keys_from_weaken].
  - split; [done|by apply IH].
  - split; [done|by apply IH].
Qed.

Lemma map_update_spec (o m : list (bytes * V)) k : sorted o -> sorted m ->
  sorted (map_update o m) /\
  map_find k (map_update o m) = match map_find k o with Some v => Some v | None => map_find k m end.
Proof.
  unfold map_update, sorted. revert m. induction o as [|[l w] o IH]; intros m Ho Hm; [done|].
  cbn [fold_left map_find]. destruct Ho as [_ Ho].
  assert (keys_from None (map_set l w m)) as Hs by (by apply map_set_from).
  destruct (IH (map_set l w m)) as [Hsorted Hfind]; [by eapply keys_from_weaken|done|].
  split; [done|]. rewrite Hfind, map_find_set by done.
  destruct (key_cmp k l) eqn:Hl; [|done|done]. apply key_cmp_eq in Hl as ->.
  by rewrite (map_find_below l o).
Qed.
End maps.
