(* ===== verification/Base64.v ===== *)
(** * Text: Base64

    Models [src/libs/text/base64.cc]: the encoder and decoder with their
    configurable padding and extra characters, the 64-bit integer forms and
    [Base64URL].  The specification is the grouping of RFC 4648 ([sextets]):
    three bytes to four 6-bit values. *)
From S2P Require Export Chan.

Module Base64.

(** [class Base64] *)
Record Base64 := mk_Base64 { pad : Z; extra_62 : Z; extra_63 : Z }.

Definition base64_default : Base64 := mk_Base64 (chr "=") (chr "+") (chr "/").
Definition Base64URL : Base64 := mk_Base64 0 (chr "-") (chr "_").

Definition base64_chars : bytes :=
  str "ABCDEFGHIJKLMNOPQRSTUVWXYZabcdefghijklmnopqrstuvwxyz0123456789".

(** ** Encoding *)

Definition index_char (b : Base64) (i : Z) : Z :=
  if i <? 62 then zget 0 base64_chars i
  else if i =? 62 then extra_62 b
  else extra_63 b.

(** [for (j = 0; j < count; j++)]: the next 6-bit index from bits 18 to 23 *)
Fixpoint emit (b : Base64) (count : nat) (n : Z) : bytes :=
  match count with
  | O => []
  | S count => index_char b (Z.land (Z.shiftr n 18) 63) :: emit b count (u32 (Z.shiftl n 6))
  end.

(** The variables of the loop of [encode]. *)
Record enc_state := mk_enc { p : bytes; n : Z; count : Z; chars : Z; base64 : bytes }.

Definition encode_step (b : Base64) (length split : Z) (line_end : bytes)
    (st : enc_state) (i : Z) : enc_state :=
  let n0 := u32 (Z.shiftl (n st) 8) in
  let '(p0, n1, count1) :=
    if i <? length then (tail (p st), Z.lor n0 (zget 0 (p st) 0), count st + 1)
    else (p st, n0, count st) in
  if i mod 3 =? 2 then
    let out := base64 st ++ emit b (Z.to_nat count1) n1 in
    let chars1 := chars st + count1 in
    let out := if negb (split =? 0) && (Z.rem chars1 split =? 0) then out ++ line_end
               else out in
    mk_enc p0 0 1 chars1 out
  else mk_enc p0 n1 count1 (chars st) (base64 st).

Definition encode_loop (b : Base64) (block : bytes) (split : Z) (line_end : bytes)
    (k : nat) : enc_state :=
  fold_left (encode_step b (zlen block) split line_end) (zseq 0 k) (mk_enc block 0 1 0 []).

Definition encode (b : Base64) (block : bytes) (split : Z) (line_end : bytes) : bytes :=
  let rlength := 3 * ((zlen block + 2) / 3) in
  let st := encode_loop b block split line_end (Z.to_nat rlength) in
  base64 st ++
  (if negb (pad b =? 0) then replicate (Z.to_nat (rlength - zlen block)) (pad b) else []).

(** [encode(uint64_t)]: eight bytes, or four if they are enough *)
Fixpoint top_bytes (count : nat) (n : Z) : bytes :=
  match count with
  | O => []
  | S count => u8 (Z.shiftr n 56) :: top_bytes count (u64 (Z.shiftl n 8))
  end.
Definition encode_u64 (b : Base64) (n : Z) : bytes :=
  let '(count, n) := if Z.shiftr n 32 =? 0 then (4%nat, u64 (Z.shiftl n 32)) else (8%nat, n) in
  encode b (top_bytes count n) 0 (str "").

Definition binary_length (base64 : bytes) : Z := u64 (zlen base64 * 3 + 3) / 4.

(** ** Decoding *)

(** What a character is to the decoder. *)
Inductive char_class := Index (cn : Z) | Stop | Ignore.
Definition classify (b : Base64) (c : Z) : char_class :=
  if (65 <=? c) && (c <=? 90) then Index (c - 65)
  else if (97 <=? c) && (c <=? 122) then Index (26 + c - 97)
  else if (48 <=? c) && (c <=? 57) then Index (52 + c - 48)
  else if c =? extra_62 b then Index 62
  else if c =? extra_63 b then Index 63
  else if c =? pad b then Stop
  else Ignore.

(** [for (j = 0; j < k; j++)]: write the top byte of the 24 bits; [false]: the
    block is full. *)
Fixpoint put_bytes (k : nat) (max_length : Z) (block : bytes) (n : Z) : bytes * bool :=
  match k with
  | O => (block, true)
  | S k =>
    if zlen block <? max_length then
      put_bytes k max_length (block ++ [u8 (Z.shiftr n 16)]) (u32 (Z.shiftl n 8))
    else (block, false)
  end.

Definition flush_bits (max_length : Z) (block : bytes) (n i : Z) : Z * bytes :=
  if negb (Z.land i 3 =? 0) then
    let n := u32 (Z.shiftl n (6 * (4 - Z.land i 3))) in
    let '(block, ok) := put_bytes (Z.to_nat (Z.land i 3 - 1)) max_length block n in
    if ok : bool then (zlen block, block) else (max_length + 1, block)
  else (zlen block, block).

(** [decode(base64, block, max_length)]: the result and the bytes written.  [i]
    counts the characters of the alphabet. *)
Fixpoint decode_loop (b : Base64) (max_length : Z) (s : bytes) (block : bytes) (n i : Z)
    : Z * bytes :=
  match s with
  | [] => flush_bits max_length block n i
  | c :: s =>
    match classify b c with
    | Stop => flush_bits max_length block n i
    | Ignore => decode_loop b max_length s block n i
    | Index cn =>
      let n := Z.lor (u32 (Z.shiftl n 6)) cn in
      let i := i + 1 in
      if Z.land i 3 =? 0 then
        let '(block, ok) := put_bytes 3 max_length block n in
        if ok : bool then decode_loop b max_length s block 0 i
        else (max_length + 1, block)
      else decode_loop b max_length s block n i
    end
  end.
Definition decode_block (b : Base64) (base64 : bytes) (max_length : Z) : Z * bytes :=
  decode_loop b max_length base64 [] 0 0.

(** [decode(base64, uint64_t& n)] *)
Definition decode_u64 (b : Base64) (base64 : bytes) : option Z :=
  let '(len, buf) := decode_block b base64 8 in
  if len >? 8 then None
  else Some (fold_left (fun n x => Z.lor (u64 (Z.shiftl n 8)) x) (ztake len buf) 0).

(** [decode(base64, string& binary)] and the same for a vector *)
Definition decode (b : Base64) (base64 binary : bytes) : bool * bytes :=
  let max_length := binary_length base64 in
  let '(len, buf) := decode_block b base64 max_length in
  if len >? max_length then (false, binary) else (true, binary ++ ztake len buf).

(** ** Specification *)
Fixpoint sextets (l : bytes) : list Z :=
  match l with
  | x :: y :: z :: l =>
    x / 4 :: x mod 4 * 16 + y / 16 :: y mod 16 * 4 + z / 64 :: z mod 64 :: sextets l
  | [x; y] => [x / 4; x mod 4 * 16 + y / 16; y mod 16 * 4]
  | [x] => [x / 4; x mod 4 * 16]
  | [] => []
  end.

(** A configuration whose characters can be told apart. *)
Definition alnum (c : Z) : Prop := 65 <= c <= 90 \/ 97 <= c <= 122 \/ 48 <= c <= 57.
Definition config_ok (b : Base64) : Prop :=
  ~ alnum (extra_62 b) /\ ~ alnum (extra_63 b) /\ ~ alnum (pad b) /\
  extra_62 b <> extra_63 b /\ pad b <> extra_62 b /\ pad b <> extra_63 b.
(** Line ends are characters the decoder ignores. *)
Definition line_end_ok (b : Base64) (line_end : bytes) : Prop :=
  Forall (fun c => classify b c = Ignore) line_end.

(* ------------------------------------------------------------------ *)
(** ** Lemmas *)

Lemma index_char_class b i : config_ok b -> 0 <= i < 64 -> classify b (index_char b i) = Index i.
Proof.
  intros (H62 & H63 & Hp & Hne & _) Hi. unfold alnum in *. unfold index_char.
  destruct (Z.ltb_spec i 62) as [Hlt|Hge].
  - assert (forallb (fun i => match classify b (zget 0 base64_chars i) with
      | Index cn => cn =? i | _ => false end) (zseq 0 62) = true) as Hall by reflexivity.
    rewrite forallb_forall in Hall. specialize (Hall i).
    destruct (classify b (zget 0 base64_chars i)) as [cn| |].
    + f_equal. apply Z.eqb_eq, Hall. unfold zseq. apply in_map_iff.
      exists (Z.to_nat i). split; [lia|]. apply in_seq. lia.
    + discriminate Hall. unfold zseq. apply in_map_iff.
      exists (Z.to_nat i). split; [lia|]. apply in_seq. lia.
    + discriminate Hall. unfold zseq. apply in_map_iff.
      exists (Z.to_nat i). split; [lia|]. apply in_seq. lia.
  - assert (i = 62 \/ i = 63) as [-> | ->] by lia; cbn [Z.eqb Pos.eqb]; unfold classify.
    + replace ((65 <=? extra_62 b) && (extra_62 b <=? 90)) with false by lia.
      replace ((97 <=? extra_62 b) && (extra_62 b <=? 122)) with false by lia.
      replace ((48 <=? extra_62 b) && (extra_62 b <=? 57)) with false by lia.
      by rewrite Z.eqb_refl.
    + replace ((65 <=? extra_63 b) && (extra_63 b <=? 90)) with false by lia.
      replace ((97 <=? extra_63 b) && (extra_63 b <=? 122)) with false by lia.
      replace ((48 <=? extra_63 b) && (extra_63 b <=? 57)) with false by lia.
      by replace (extra_63 b =? extra_62 b) with false by lia; rewrite Z.eqb_refl.
Qed.

Lemma pad_class b : config_ok b -> classify b (pad b) = Stop.
Proof.
  intros (_ & _ & Hp & _ & H62 & H63). unfold alnum in *. unfold classify.
  replace ((65 <=? pad b) && (pad b <=? 90)) with false by lia.
  replace ((97 <=? pad b) && (pad b <=? 122)) with false by lia.
  replace ((48 <=? pad b) && (pad b <=? 57)) with false by lia.
  replace (pad b =? extra_62 b) with false by lia.
  by replace (pad b =? extra_63 b) with false by lia; rewrite Z.eqb_refl.
Qed.

(** *** The sextets of 24 bits *)

Lemma land_63 x : Z.land x 63 = x mod 64.
Proof. change 63 with (Z.ones 6). by rewrite Z.land_ones by lia. Qed.

Lemma lor_byte x y : 0 <= y < 256 -> 0 <= x < 2 ^ 24 -> Z.lor (u32 (Z.shiftl x 8)) y = x * 256 + y.
Proof.
  intros Hy Hx. rewrite wrap_small.
  - by apply (lor_add 8).
  - rewrite Z.shiftl_mul_pow2 by lia. unfold in_u. lia.
Qed.

Lemma lor_sextet x y : 0 <= y < 64 -> 0 <= x < 2 ^ 26 -> Z.lor (u32 (Z.shiftl x 6)) y = x * 64 + y.
Proof.
  intros Hy Hx. rewrite wrap_small.
  - by apply (lor_add 6).
  - rewrite Z.shiftl_mul_pow2 by lia. unfold in_u. lia.
Qed.

(** Index [j] of the 24 bits [v], and what [emit] makes of them. *)
Definition sextet (v j : Z) : Z := Z.shiftr v (18 - 6 * j) mod 64.

Lemma emit_index v j : 0 <= j <= 3 ->
  Z.land (Z.shiftr (u32 (Z.shiftl v (6 * j))) 18) 63 = sextet v j.
Proof.
  intros Hj. unfold sextet. rewrite <- land_63. bits. change 63 with (Z.ones 6).
  rewrite Z.testbit_ones_nonneg by lia.
  destruct (Z.ltb_spec i 6); rewrite ?andb_true_r, ?andb_false_r; [|done].
  unfold wrap. rewrite !Z.shiftr_spec, Z.mod_pow2_bits_low, Z.shiftl_spec by lia. f_equal. lia.
Qed.

Lemma emit_shift v j : 0 <= j ->
  u32 (Z.shiftl (u32 (Z.shiftl v (6 * j))) 6) = u32 (Z.shiftl v (6 * (j + 1))).
Proof.
  intros Hj. rewrite !Z.shiftl_mul_pow2 by lia. unfold wrap.
  rewrite Z.mul_mod_idemp_l by lia. f_equal.
  replace (6 * (j + 1)) with (6 * j + 6) by lia. rewrite Z.pow_add_r by lia. lia.
Qed.

Lemma emit_from b v count : forall j, 0 <= j -> j + Z.of_nat count <= 4 ->
  emit b count (u32 (Z.shiftl v (6 * j))) =
    map (fun k => index_char b (sextet v (j + Z.of_nat k))) (seq 0 count).
Proof.
  induction count as [|count IH]; intros j Hj Hc; [done|]. cbn [emit seq map].
  rewrite emit_index, emit_shift, IH by lia. rewrite Z.add_0_r. f_equal.
  rewrite <- seq_shift, map_map. apply map_ext. intros k. do 2 f_equal. lia.
Qed.

Lemma emit_bits b v count : 0 <= v < 2 ^ 24 -> (count <= 4)%nat ->
  emit b count v = map (fun k => index_char b (sextet v k)) (take count [0; 1; 2; 3]).
Proof.
  intros Hv Hc. pose proof (emit_from b v count 0 ltac:(lia) ltac:(lia)) as H.
  rewrite Z.mul_0_r, Z.shiftl_0_r, wrap_small in H by (unfold in_u; lia). rewrite H.
  by do 5 (destruct count as [|count]; [done|]); lia.
Qed.

(** The sextets of a whole or a short group. *)
Lemma group_sextets x y z : byte_ok x -> byte_ok y -> byte_ok z ->
  let v := (x * 256 + y) * 256 + z in
  sextet v 0 = x / 4 /\ sextet v 1 = x mod 4 * 16 + y / 16 /\
  sextet v 2 = y mod 16 * 4 + z / 64 /\ sextet v 3 = z mod 64.
Proof.
  unfold byte_ok, sextet. intros Hx Hy Hz. cbn zeta.
  rewrite !Z.shiftr_div_pow2 by lia.
  change (2 ^ (18 - 6 * 0)) with 262144. change (2 ^ (18 - 6 * 1)) with 4096.
  change (2 ^ (18 - 6 * 2)) with 64. change (2 ^ (18 - 6 * 3)) with 1.
  Z.div_mod_to_equations. lia.
Qed.

(** *** One group of three turns of the encoder *)
Section group.
Context (b : Base64) (len split : Z) (line_end : bytes).

Definition line_break (chars : Z) : bytes :=
  if negb (split =? 0) && (Z.rem chars split =? 0) then line_end else [].

Local Ltac finish_group :=
  unfold line_break;
  change (Z.of_nat 1) with 1; change (Z.of_nat 2) with 2; change (Z.of_nat 3) with 3;
  change (1 + 1 + 1 + 1) with 4; change (3 + 1) with 4; change (1 + 1 + 1) with 3;
  change (2 + 1) with 3; change (1 + 1) with 2;
  by destruct (_ && _); rewrite ?app_nil_r.

Lemma encode_three st i g :
  Forall byte_ok g -> p st = g ++ drop (length g) (p st) -> n st = 0 -> count st = 1 ->
  i mod 3 = 0 -> (1 <= length g <= 3)%nat ->
  (i + zlen g = len \/ (length g = 3%nat /\ i + 3 <= len)) ->
  let k := zlen g + 1 in
  fold_left (encode_step b len split line_end) [i; i + 1; i + 2] st =
    mk_enc (drop (length g) (p st)) 0 1 (chars st + k)
      ((base64 st ++ map (index_char b) (sextets g)) ++ line_break (chars st + k)).
Proof.
  intros Hg Hp Hn Hc Hi Hlen Hl. cbn zeta.
  assert ((i + 1) mod 3 = 1) as Hi1 by (Z.div_mod_to_equations; lia).
  assert ((i + 2) mod 3 = 2) as Hi2 by (Z.div_mod_to_equations; lia).
  destruct st as [p0 n0 c0 ch0 o0]. cbn [p n count chars base64] in *. subst n0 c0.
  set (rest := drop (length g) p0) in *. clearbody rest.
  cbn [fold_left]. unfold encode_step at 3. cbn [p n count chars base64].
  change (u32 (Z.shiftl 0 8)) with 0.
  destruct g as [|x [|y [|z [|? ?]]]]; cbn [length] in Hlen; try lia; subst p0;
    unfold zlen in *; cbn [length app] in *; inversion_clear Hg as [|? ? Hx Hg'].
  - assert ((i <? len) = true) as -> by lia. cbn [tail].
    change (zget 0 (x :: rest) 0) with x. rewrite Z.lor_0_l, Hi. cbn [Z.eqb].
    unfold encode_step at 2. cbn [p n count chars base64].
    assert ((i + 1 <? len) = false) as -> by lia. rewrite Hi1. cbn [Z.eqb Pos.eqb].
    unfold encode_step. cbn [p n count chars base64].
    assert ((i + 2 <? len) = false) as -> by lia. rewrite Hi2. cbn [Z.eqb Pos.eqb].
    unfold byte_ok in Hx.
    rewrite !Z.shiftl_mul_pow2 by lia. change (2 ^ 8) with 256.
    rewrite (wrap_small 32 (x * 256)), wrap_small by (unfold in_u; lia).
    rewrite emit_bits by lia. change (Z.to_nat (1 + 1)) with 2%nat. cbn [take map sextets].
    destruct (group_sextets x 0 0) as (E0 & E1 & _); [done..|].
    replace (x * 256 * 256) with ((x * 256 + 0) * 256 + 0) by lia.
    rewrite E0, E1, Z.div_0_l, Z.add_0_r by lia. finish_group.
  - inversion_clear Hg' as [|? ? Hy _].
    assert ((i <? len) = true) as -> by lia. cbn [tail].
    change (zget 0 (x :: y :: rest) 0) with x. rewrite Z.lor_0_l, Hi. cbn [Z.eqb].
    unfold encode_step at 2. cbn [p n count chars base64].
    assert ((i + 1 <? len) = true) as -> by lia. rewrite Hi1. cbn [Z.eqb Pos.eqb tail].
    change (zget 0 (y :: rest) 0) with y. unfold byte_ok in Hx, Hy.
    rewrite lor_byte by lia.
    unfold encode_step. cbn [p n count chars base64].
    assert ((i + 2 <? len) = false) as -> by lia. rewrite Hi2. cbn [Z.eqb Pos.eqb].
    rewrite !Z.shiftl_mul_pow2 by lia. change (2 ^ 8) with 256.
    rewrite wrap_small by (unfold in_u; lia).
    rewrite emit_bits by lia. change (Z.to_nat (1 + 1 + 1)) with 3%nat. cbn [take map sextets].
    destruct (group_sextets x y 0) as (E0 & E1 & E2 & _); [done..|].
    replace ((x * 256 + y) * 256) with ((x * 256 + y) * 256 + 0) by lia.
    rewrite E0, E1, E2, Z.div_0_l, Z.add_0_r by lia. finish_group.
  - inversion_clear Hg' as [|? ? Hy Hg'']. inversion_clear Hg'' as [|? ? Hz _].
    assert ((i <? len) = true) as -> by lia. cbn [tail].
    change (zget 0 (x :: y :: z :: rest) 0) with x. rewrite Z.lor_0_l, Hi. cbn [Z.eqb].
    unfold encode_step at 2. cbn [p n count chars base64].
    assert ((i + 1 <? len) = true) as -> by lia. rewrite Hi1. cbn [Z.eqb Pos.eqb tail].
    change (zget 0 (y :: z :: rest) 0) with y. unfold byte_ok in Hx, Hy, Hz.
    rewrite lor_byte by lia.
    unfold encode_step. cbn [p n count chars base64].
    assert ((i + 2 <? len) = true) as -> by lia. rewrite Hi2. cbn [Z.eqb Pos.eqb tail].
    change (zget 0 (z :: rest) 0) with z. rewrite lor_byte by lia.
    rewrite emit_bits by lia. change (Z.to_nat (1 + 1 + 1 + 1)) with 4%nat.
    cbn [take map sextets].
    destruct (group_sextets x y z) as (E0 & E1 & E2 & E3); [done..|].
    rewrite E0, E1, E2, E3. finish_group.
Qed.
End group.

(** *** The whole encoder *)
Section whole.
Context (b : Base64) (split : Z) (line_end : bytes).

(** The text before the padding: groups of characters, with line ends. *)
Fixpoint spec_text (l : bytes) (chars : Z) : bytes :=
  match l with
  | x :: y :: z :: l =>
    map (index_char b) (sextets [x; y; z]) ++ line_break split line_end (chars + 4) ++
    spec_text l (chars + 4)
  | [] => []
  | g => map (index_char b) (sextets g) ++ line_break split line_end (chars + (zlen g + 1))
  end.

Lemma zseq_cons a k : zseq a (S k) = a :: zseq (a + 1) k.
Proof.
  unfold zseq. cbn [seq map]. rewrite Z.add_0_r. f_equal.
  rewrite <- seq_shift, map_map. apply map_ext. intros. lia.
Qed.

Lemma encode_groups len : forall m l st i,
  (length l < m)%nat -> Forall byte_ok l -> p st = l -> n st = 0 -> count st = 1 ->
  i mod 3 = 0 -> i + zlen l = len ->
  base64 (fold_left (encode_step b len split line_end)
    (zseq i (Z.to_nat (3 * ((zlen l + 2) / 3)))) st) = base64 st ++ spec_text l (chars st).
Proof.
  induction m as [|m IH]; intros l st i Hm Hl Hp Hn Hc Hi Hlen; [lia|].
  destruct l as [|x l1]; [by rewrite app_nil_r|].
  assert (exists g l', x :: l1 = g ++ l' /\ (1 <= length g <= 3)%nat /\
    (l' = [] \/ length g = 3%nat) /\ spec_text (x :: l1) (chars st) =
      map (index_char b) (sextets g) ++ line_break split line_end (chars st + (zlen g + 1)) ++
      spec_text l' (chars st + (zlen g + 1))) as (g & l' & Hg & Hlg & Hcase & Hspec).
  { destruct l1 as [|y l2]; [|destruct l2 as [|z l3]].
    - exists [x], []. simpl. rewrite app_nil_r. split_and!; try done; try lia; by left.
    - exists [x; y], []. simpl. rewrite app_nil_r. split_and!; try done; try lia; by left.
    - exists [x; y; z], l3. split_and!; try done; simpl; try lia; by right. }
  rewrite Hspec. rewrite Hg in *. clear Hspec Hg.
  pose proof (zlen_nonneg l'). assert (1 <= zlen g <= 3) by (unfold zlen; lia).
  rewrite zlen_app in *. rewrite length_app in Hm. apply Forall_app in Hl as [Hlg' Hll'].
  assert (Z.to_nat (3 * ((zlen g + zlen l' + 2) / 3)) =
    S (S (S (Z.to_nat (3 * ((zlen l' + 2) / 3)))))) as ->.
  { destruct Hcase as [-> | H3].
    - rewrite zlen_nil. Z.div_mod_to_equations. lia.
    - assert (zlen g = 3) as -> by (unfold zlen; lia). Z.div_mod_to_equations. lia. }
  rewrite !zseq_cons. replace (i + 1 + 1) with (i + 2) by lia.
  replace (i + 2 + 1) with (i + 3) by lia.
  change (i :: i + 1 :: i + 2 :: zseq (i + 3) (Z.to_nat (3 * ((zlen l' + 2) / 3)))) with
    ([i; i + 1; i + 2] ++ zseq (i + 3) (Z.to_nat (3 * ((zlen l' + 2) / 3)))).
  rewrite fold_left_app, (encode_three b len split line_end st i g); try done.
  3: { destruct Hcase as [-> | H3]; [left|right]; unfold zlen in *; simpl in *; lia. }
  2: { rewrite Hp. by rewrite drop_app_length. }
  rewrite Hp, drop_app_length. destruct Hcase as [-> | H3].
  - simpl. by rewrite app_nil_r, <- app_assoc.
  - rewrite IH; cbn [p n count chars base64]; try done; try lia.
    + by rewrite <- !app_assoc.
    + Z.div_mod_to_equations. lia.
    + assert (zlen g = 3) by (unfold zlen; lia). lia.
Qed.

Lemma encode_spec l : bytes_ok l ->
  encode b l split line_end = spec_text l 0 ++
    (if negb (pad b =? 0) then replicate (Z.to_nat (3 * ((zlen l + 2) / 3) - zlen l)) (pad b)
     else []).
Proof.
  intros Hl. unfold encode, encode_loop.
  rewrite (encode_groups (zlen l) (S (length l)) l); try done; lia.
Qed.
End whole.

(** *** The decoder *)

Lemma land_3 x : Z.land x 3 = x mod 4.
Proof. change 3 with (Z.ones 2). by rewrite Z.land_ones by lia. Qed.

(** The bytes that [put_bytes] takes from the top of the 24 bits. *)
Fixpoint top24 (k : nat) (n : Z) : bytes :=
  match k with
  | O => []
  | S k => u8 (Z.shiftr n 16) :: top24 k (u32 (Z.shiftl n 8))
  end.

Lemma put_bytes_fits k : forall max block n,
  zlen block + Z.of_nat k <= max -> put_bytes k max block n = (block ++ top24 k n, true).
Proof.
  induction k as [|k IH]; intros max block n Hle; cbn [put_bytes top24].
  - by rewrite app_nil_r.
  - rewrite (proj2 (Z.ltb_lt _ _)) by lia.
    rewrite IH by (rewrite zlen_app, zlen_cons, zlen_nil; lia). by rewrite <- app_assoc.
Qed.

Lemma put_bytes_bound k : forall max block n, zlen block <= max ->
  zlen (fst (put_bytes k max block n)) <= max.
Proof.
  induction k as [|k IH]; intros max block n Hle; cbn [put_bytes]; [done|].
  destruct (Z.ltb_spec (zlen block) max); [|done].
  apply IH. rewrite zlen_app, zlen_cons, zlen_nil. lia.
Qed.

Lemma top24_values v : 0 <= v < 2 ^ 24 ->
  top24 3 v = [v / 65536; v / 256 mod 256; v mod 256].
Proof.
  intros Hv. cbn [top24]. rewrite !Z.shiftl_mul_pow2, !Z.shiftr_div_pow2 by lia.
  change (2 ^ 8) with 256. change (2 ^ 16) with 65536.
  rewrite (wrap_small 32 (v * 256)) by (unfold in_u; lia). unfold wrap.
  change (2 ^ 8) with 256. change (2 ^ 32) with 4294967296.
  assert (v / 65536 mod 256 = v / 65536) as ->.
  { apply Z.mod_small. split; [apply Z.div_pos; lia|apply Z.div_lt_upper_bound; lia]. }
  f_equal. f_equal; [|f_equal]; Z.div_mod_to_equations; lia.
Qed.

(** The bytes of a group from its sextets. *)
Lemma group_bytes x y z : byte_ok x -> byte_ok y -> byte_ok z ->
  top24 3 (((x / 4 * 64 + (x mod 4 * 16 + y / 16)) * 64 + (y mod 16 * 4 + z / 64)) * 64 +
    z mod 64) = [x; y; z].
Proof.
  unfold byte_ok. intros Hx Hy Hz. rewrite top24_values by (Z.div_mod_to_equations; lia).
  repeat f_equal; Z.div_mod_to_equations; lia.
Qed.

Lemma top24_take k n : (k <= 3)%nat -> top24 k n = take k (top24 3 n).
Proof. intros. by do 4 (destruct k as [|k]; [done|]); lia. Qed.

Section decoder.
Context (b : Base64).

Lemma decode_ignore max le s block n i :
  line_end_ok b le -> decode_loop b max (le ++ s) block n i = decode_loop b max s block n i.
Proof. induction 1 as [|c le Hc Hle IH]; [done|]. cbn [app decode_loop]. by rewrite Hc. Qed.

(** One character of the alphabet inside a group. *)
Lemma decode_index max s0 s block n i :
  config_ok b -> 0 <= s0 < 64 -> 0 <= n < 2 ^ 26 -> (i + 1) mod 4 <> 0 ->
  decode_loop b max (index_char b s0 :: s) block n i =
    decode_loop b max s block (n * 64 + s0) (i + 1).
Proof.
  intros Hb Hs Hn Hi. cbn [decode_loop]. rewrite index_char_class by done.
  rewrite lor_sextet, land_3 by done. by rewrite (proj2 (Z.eqb_neq _ _) Hi).
Qed.

(** The last character of a group. *)
Lemma decode_index_4 max s0 s block n i :
  config_ok b -> 0 <= s0 < 64 -> 0 <= n < 2 ^ 18 -> (i + 1) mod 4 = 0 ->
  zlen block + 3 <= max ->
  decode_loop b max (index_char b s0 :: s) block n i =
    decode_loop b max s (block ++ top24 3 (n * 64 + s0)) 0 (i + 1).
Proof.
  intros Hb Hs Hn Hi Hmax. cbn [decode_loop]. rewrite index_char_class by done.
  rewrite lor_sextet, land_3 by lia. rewrite Hi. cbn [Z.eqb].
  by rewrite put_bytes_fits by lia.
Qed.

(** The end of the text: nothing, or padding. *)
Lemma decode_tail max k block n i :
  config_ok b ->
  decode_loop b max (if negb (pad b =? 0) then replicate k (pad b) else []) block n i =
    flush_bits max block n i.
Proof.
  intros Hb. destruct (negb (pad b =? 0)); [|done]. destruct k as [|k]; [done|].
  cbn [replicate decode_loop]. by rewrite pad_class.
Qed.

Lemma flush_bits_fits max block n i :
  i mod 4 <> 0 -> zlen block + (i mod 4 - 1) <= max ->
  flush_bits max block n i =
    (zlen block + (i mod 4 - 1),
     block ++ top24 (Z.to_nat (i mod 4 - 1)) (u32 (Z.shiftl n (6 * (4 - i mod 4))))).
Proof.
  intros Hi Hmax. unfold flush_bits. rewrite land_3, (proj2 (Z.eqb_neq _ _) Hi). cbn [negb].
  pose proof (Z.mod_pos_bound i 4 ltac:(lia)).
  rewrite put_bytes_fits by lia. rewrite zlen_app. f_equal. f_equal.
  assert (forall k n, length (top24 k n) = k) as Hlen.
  { induction k as [|k IH]; intros; simpl; [done|]. by rewrite IH. }
  unfold zlen. rewrite Hlen. lia.
Qed.
End decoder.

Section roundtrip.
Context (b : Base64) (split : Z) (line_end : bytes).
Context (Hb : config_ok b) (Hle : line_end_ok b line_end).

Lemma line_break_ok chars : line_end_ok b (line_break split line_end chars).
Proof using Hle. unfold line_break. destruct (_ && _); [done|constructor]. Qed.

(** A list of bytes taken three at a time. *)
Lemma triples_ind (P : bytes -> Prop) :
  P [] -> (forall x, P [x]) -> (forall x y, P [x; y]) ->
  (forall x y z l, P l -> P (x :: y :: z :: l)) -> forall l, P l.
Proof.
  intros H0 H1 H2 H3 l.
  assert (forall m l, (length l <= m)%nat -> P l) as H; [|by apply (H (length l))].
  clear l. intros m. induction m as [|m IH]; intros l Hl.
  { destruct l; [done|simpl in Hl; lia]. }
  destruct l as [|x [|y [|z l]]]; try done. apply H3, IH. simpl in Hl. lia.
Qed.

Lemma decode_spec_text max k l : forall chars block i,
  bytes_ok l -> i mod 4 = 0 -> zlen block + zlen l <= max ->
  decode_loop b max (spec_text b split line_end l chars ++
      (if negb (pad b =? 0) then replicate k (pad b) else [])) block 0 i =
    (zlen block + zlen l, block ++ l).
Proof using Hb Hle.
  induction l as [|x|x y|x y z l IH] using triples_ind; intros chars block i Hl Hi Hmax;
    repeat match goal with H : bytes_ok (_ :: _) |- _ => inversion_clear H end;
    unfold byte_ok in *; cbn [spec_text sextets map].
  - cbn [app]. rewrite decode_tail by done. unfold flush_bits. rewrite land_3, Hi.
    cbn [Z.eqb negb]. by rewrite zlen_nil, Z.add_0_r, app_nil_r.
  - rewrite zlen_cons, zlen_nil in *. cbn [app].
    rewrite decode_index by (done || (Z.div_mod_to_equations; lia)).
    rewrite decode_index by (done || (Z.div_mod_to_equations; lia)).
    rewrite decode_ignore by apply line_break_ok. rewrite decode_tail by done.
    assert ((i + 1 + 1) mod 4 = 2) as Hm by (Z.div_mod_to_equations; lia).
    rewrite flush_bits_fits by (rewrite Hm; lia). rewrite Hm. f_equal.
    change (6 * (4 - 2)) with 12. change (Z.to_nat (2 - 1)) with 1%nat.
    rewrite top24_take, Z.shiftl_mul_pow2 by lia. change (2 ^ 12) with (64 * 64).
    pose proof (group_bytes x 0 0 ltac:(done) ltac:(done) ltac:(done)) as Hg.
    rewrite wrap_small by (unfold in_u; Z.div_mod_to_equations; lia).
    f_equal. etransitivity; [|exact (f_equal (take 1) Hg)]. do 2 f_equal. Z.div_mod_to_equations. lia.
  - rewrite !zlen_cons, zlen_nil in *. cbn [app].
    do 3 rewrite decode_index by (done || (Z.div_mod_to_equations; lia)).
    rewrite decode_ignore by apply line_break_ok. rewrite decode_tail by done.
    assert ((i + 1 + 1 + 1) mod 4 = 3) as Hm by (Z.div_mod_to_equations; lia).
    rewrite flush_bits_fits by (rewrite Hm; lia). rewrite Hm. f_equal.
    change (6 * (4 - 3)) with 6. change (Z.to_nat (3 - 1)) with 2%nat.
    rewrite top24_take, Z.shiftl_mul_pow2 by lia. change (2 ^ 6) with 64.
    pose proof (group_bytes x y 0 ltac:(done) ltac:(done) ltac:(done)) as Hg.
    rewrite wrap_small by (unfold in_u; Z.div_mod_to_equations; lia).
    f_equal. etransitivity; [|exact (f_equal (take 2) Hg)]. do 2 f_equal. Z.div_mod_to_equations. lia.
  - rewrite !zlen_cons in *. pose proof (zlen_nonneg l). cbn [app].
    rewrite <- app_assoc.
    do 3 rewrite decode_index by (done || (Z.div_mod_to_equations; lia)).
    rewrite decode_index_4 by (done || lia || (Z.div_mod_to_equations; lia)).
    rewrite Z.mul_0_l, Z.add_0_l, group_bytes by done.
    rewrite decode_ignore by apply line_break_ok.
    rewrite IH; try done.
    + rewrite zlen_app, !zlen_cons, zlen_nil. f_equal; [lia|]. by rewrite <- app_assoc.
    + Z.div_mod_to_equations. lia.
    + rewrite zlen_app, !zlen_cons, zlen_nil. lia.
Qed.

Lemma spec_text_length l : forall chars, 4 * zlen l <= 3 * zlen (spec_text b split line_end l chars).
Proof using Type.
  induction l as [|x|x y|x y z l IH] using triples_ind; intros chars;
    cbn [spec_text sextets map]; [done|..];
    rewrite ?zlen_app, !zlen_cons, ?zlen_nil;
    match goal with |- context [zlen (line_break ?s ?e ?c)] =>
      pose proof (zlen_nonneg (line_break s e c)) end; [lia|lia|].
  specialize (IH (chars + 4)). lia.
Qed.

Lemma decode_encode_block l max :
  bytes_ok l -> zlen l <= max ->
  decode_block b (encode b l split line_end) max = (zlen l, l).
Proof using Hb Hle.
  intros Hl Hmax. unfold decode_block. rewrite encode_spec by done.
  by rewrite decode_spec_text by done.
Qed.

Lemma encode_length l : bytes_ok l -> 4 * zlen l <= 3 * zlen (encode b l split line_end).
Proof using Type.
  intros Hl. rewrite encode_spec, zlen_app by done.
  pose proof (spec_text_length l 0).
  pose proof (zlen_nonneg (if negb (pad b =? 0)
    then replicate (Z.to_nat (3 * ((zlen l + 2) / 3) - zlen l)) (pad b) else [])). lia.
Qed.
End roundtrip.

(** *** 64-bit integers *)

Lemma lor_u64_byte a x : byte_ok x -> Z.lor (u64 (Z.shiftl a 8)) x = u64 (a * 256 + x).
Proof.
  unfold byte_ok. intros Hx. rewrite Z.shiftl_mul_pow2 by lia. change (2 ^ 8) with 256.
  assert (u64 (a * 256) = u64 (a * 256) / 256 * 256) as ->.
  { unfold wrap. change (2 ^ 64) with (2 ^ 56 * 256). rewrite Z.mul_mod_distr_r by lia.
    by rewrite Z.div_mul by lia. }
  rewrite <- (Z.shiftl_mul_pow2 _ 8) by lia. rewrite lor_add by (change (2 ^ 8) with 256; lia).
  unfold wrap. change (2 ^ 64) with (2 ^ 56 * 256). change (2 ^ 8) with 256.
  rewrite Z.mul_mod_distr_r, Z.div_mul by lia.
  rewrite (Z.mul_comm (2 ^ 56) 256), (Z.rem_mul_r (a * 256 + x)) by lia.
  rewrite (Z.add_comm (a * 256)), Z.mod_add, Z.div_add by lia.
  rewrite (Z.mod_small x), (Z.div_small x) by lia. rewrite Z.add_0_l. lia.
Qed.

Lemma top_bytes_ok k : forall n, bytes_ok (top_bytes k n) /\ length (top_bytes k n) = k.
Proof.
  induction k as [|k IH]; intros n0; cbn [top_bytes]; [done|].
  destruct (IH (u64 (Z.shiftl n0 8))) as [Ho Hl]. simpl. rewrite Hl.
  split; [|done]. constructor; [apply byte_ok_u8|done].
Qed.

Lemma hton_cons k n : hton (S k) n = u8 (Z.shiftr n (8 * Z.of_nat k)) :: hton k n.
Proof.
  unfold hton. rewrite zseq_cons. cbn [map]. f_equal; [do 2 f_equal; lia|].
  unfold zseq. rewrite !map_map. apply map_ext_in. intros i Hi. apply in_seq in Hi.
  do 2 f_equal. lia.
Qed.

Lemma top_bytes_hton k n : (k <= 8)%nat ->
  top_bytes k (u64 (Z.shiftl n (8 * (8 - Z.of_nat k)))) = hton k n.
Proof.
  induction k as [|k IH]; intros Hk; [done|]. rewrite hton_cons. cbn [top_bytes]. f_equal.
  - unfold wrap. bits. destruct (Z.lt_ge_cases i 8).
    + rewrite !Z.mod_pow2_bits_low, !Z.shiftr_spec by lia.
      rewrite Z.mod_pow2_bits_low, Z.shiftl_spec by lia. f_equal. lia.
    + by rewrite !Z.mod_pow2_bits_high by lia.
  - rewrite <- IH by lia. f_equal. unfold wrap. rewrite !Z.shiftl_mul_pow2 by lia.
    rewrite Z.mul_mod_idemp_l by lia. f_equal.
    replace (8 * (8 - Z.of_nat k)) with (8 * (8 - Z.of_nat (S k)) + 8) by lia.
    rewrite Z.pow_add_r by lia. lia.
Qed.

Lemma fold_lor_bytes d : forall a, bytes_ok d ->
  fold_left (fun n x => Z.lor (u64 (Z.shiftl n 8)) x) d (u64 a) =
    u64 (fold_left (fun n x => n * 256 + x) d a).
Proof.
  induction d as [|x d IH]; intros a Hd; [done|]. inversion_clear Hd. cbn [fold_left].
  rewrite lor_u64_byte by done.
  assert (u64 (u64 a * 256 + x) = u64 (a * 256 + x)) as ->.
  { unfold wrap. rewrite <- Z.add_mod_idemp_l, Z.mul_mod_idemp_l, Z.add_mod_idemp_l by lia.
    done. }
  by apply IH.
Qed.

Lemma top_bytes_hton_0 n : in_u 64 n -> top_bytes 8 n = hton 8 n.
Proof.
  intros Hn. rewrite <- top_bytes_hton by lia.
  change (8 * (8 - Z.of_nat 8)) with 0. by rewrite Z.shiftl_0_r, wrap_small.
Qed.

(** *** Bounds *)

Lemma put_bytes_ok k : forall max block n b1 ok,
  put_bytes k max block n = (b1, ok) -> zlen block <= max ->
  zlen b1 <= max /\ (ok = true -> zlen b1 = zlen block + Z.of_nat k).
Proof.
  induction k as [|k IH]; intros max block n0 b1 ok Hp Hle; cbn [put_bytes] in Hp.
  - injection Hp as <- <-. split; [done|]. intros; lia.
  - destruct (Z.ltb_spec (zlen block) max).
    + apply IH in Hp; [|rewrite zlen_app, zlen_cons, zlen_nil; lia].
      destruct Hp as [? Hok]. split; [done|]. intros Ht. specialize (Hok Ht).
      rewrite zlen_app, zlen_cons, zlen_nil in Hok. lia.
    + injection Hp as <- <-. done.
Qed.

Lemma flush_bits_bound max block n i r buf :
  flush_bits max block n i = (r, buf) -> zlen block <= max ->
  zlen buf <= max /\ (r = zlen buf \/ r = max + 1).
Proof.
  unfold flush_bits. intros Hf Hle. destruct (negb _).
  - destruct (put_bytes _ _ _ _) as [b1 ok] eqn:Hp.
    apply put_bytes_ok in Hp as [Hb _]; [|done]. destruct ok; injection Hf as <- <-; tauto.
  - injection Hf as <- <-. tauto.
Qed.

Lemma decode_loop_bound b max s : forall block n i r buf,
  decode_loop b max s block n i = (r, buf) -> zlen block <= max ->
  zlen buf <= max /\ (r = zlen buf \/ r = max + 1).
Proof.
  induction s as [|c s IH]; intros block n0 i r buf Hd Hle; cbn [decode_loop] in Hd.
  - by apply flush_bits_bound in Hd.
  - destruct (classify b c) as [cn| |].
    + destruct (Z.land (i + 1) 3 =? 0); [|by eapply IH].
      destruct (put_bytes 3 _ _ _) as [b1 ok] eqn:Hp.
      apply put_bytes_ok in Hp as [Hb _]; [|done]. destruct ok; [by eapply IH|].
      injection Hd as <- <-. tauto.
    + by apply flush_bits_bound in Hd.
    + by eapply IH.
Qed.

(** The block that [binary_length] asks for is never overrun. *)
Lemma decode_loop_fits b max total s : forall block n i,
  max = (total * 3 + 3) / 4 -> 0 <= i -> i + zlen s <= total -> zlen block = 3 * (i / 4) ->
  exists buf, decode_loop b max s block n i = (zlen buf, buf).
Proof.
  assert (forall block n i, max = (total * 3 + 3) / 4 -> 0 <= i <= total ->
    zlen block = 3 * (i / 4) -> exists buf, flush_bits max block n i = (zlen buf, buf)) as Hflush.
  { intros block n0 i Hmax Hi Hl. unfold flush_bits. rewrite land_3.
    destruct (Z.eqb_spec (i mod 4) 0); cbn [negb]; [by exists block|].
    pose proof (Z.mod_pos_bound i 4 ltac:(lia)).
    rewrite put_bytes_fits; [by eexists|]. rewrite Z2Nat.id by lia.
    Z.div_mod_to_equations. lia. }
  induction s as [|c s IH]; intros block n0 i Hmax Hi Hs Hl; cbn [decode_loop].
  - rewrite zlen_nil in Hs. apply Hflush; lia.
  - rewrite zlen_cons in Hs. pose proof (zlen_nonneg s). destruct (classify b c) as [cn| |].
    + rewrite land_3. destruct (Z.eqb_spec ((i + 1) mod 4) 0) as [Hz|Hz].
      * rewrite put_bytes_fits by (Z.div_mod_to_equations; lia). apply IH; try done; try lia.
        rewrite zlen_app. change (zlen (top24 3 _)) with 3. Z.div_mod_to_equations. lia.
      * apply IH; try done; try lia. Z.div_mod_to_equations. lia.
    + apply Hflush; lia.
    + apply IH; done || lia.
Qed.

(* ------------------------------------------------------------------ *)
(** ** Properties *)

(** What [encode] writes, with any line length and line end, with or without
    padding, [decode] reads back, appended to what the target held; for every
    configuration whose special characters are distinct and not alphanumeric,
    and line ends of characters that the decoder ignores. *)
Theorem base64_roundtrip b l split line_end binary :
  config_ok b -> line_end_ok b line_end -> bytes_ok l ->
  zlen (encode b l split line_end) < 2 ^ 62 ->
  decode b (encode b l split line_end) binary = (true, binary ++ l).
Proof.
  intros Hb Hle Hl Hlen. pose proof (encode_length b split line_end l Hl) as Hel.
  pose proof (zlen_nonneg l). unfold decode, binary_length.
  rewrite wrap_small by (unfold in_u; lia).
  rewrite decode_encode_block by (done || (Z.div_mod_to_equations; lia)).
  rewrite Z.gtb_ltb, (proj2 (Z.ltb_ge _ _)) by (Z.div_mod_to_equations; lia).
  by rewrite ztake_ge by done.
Qed.

(** [Base64::encode(uint64_t)] uses the four-byte form for numbers below 2^32 and
    the eight-byte form otherwise, and [decode] returns the number. *)
Lemma base64_u64_roundtrip b n :
  config_ok b -> in_u 64 n ->
  encode_u64 b n = encode b (if n <? 2 ^ 32 then hton 4 n else hton 8 n) 0 [] /\
  decode_u64 b (encode_u64 b n) = Some n.
Proof.
  intros Hb Hn.
  assert (encode_u64 b n = encode b (if n <? 2 ^ 32 then hton 4 n else hton 8 n) 0 []) as Henc.
  { unfold in_u in Hn. unfold encode_u64. rewrite Z.shiftr_div_pow2 by lia.
    destruct (Z.ltb_spec n (2 ^ 32)) as [Hlt|Hge].
    - rewrite (Z.div_small n) by lia. cbn [Z.eqb]. change 32 with (8 * (8 - Z.of_nat 4)) at 1.
      by rewrite top_bytes_hton by lia.
    - assert (0 < n / 2 ^ 32) by (apply Z.div_str_pos; lia).
      rewrite (proj2 (Z.eqb_neq _ _)) by lia. by rewrite top_bytes_hton_0. }
  split; [done|]. rewrite Henc. unfold decode_u64.
  set (d := if n <? 2 ^ 32 then hton 4 n else hton 8 n).
  assert (bytes_ok d) as Hd by (unfold d; destruct (n <? 2 ^ 32); apply hton_bytes).
  assert (zlen d <= 8) as Hl.
  { unfold d. destruct (n <? 2 ^ 32); unfold zlen; rewrite hton_length; lia. }
  rewrite decode_encode_block by (done || constructor).
  rewrite Z.gtb_ltb, (proj2 (Z.ltb_ge _ _)), ztake_ge by done.
  change 0 with (u64 0) at 1. rewrite fold_lor_bytes by done. f_equal.
  change (fold_left (fun n x => n * 256 + x) d 0) with (nbo d).
  unfold in_u in Hn. unfold d. destruct (Z.ltb_spec n (2 ^ 32)); rewrite nbo_hton.
  - change (8 * Z.of_nat 4) with 32. rewrite (wrap_small 32) by (unfold in_u; lia).
    by apply wrap_small.
  - change (8 * Z.of_nat 8) with 64. rewrite wrap_wrap by lia. by apply wrap_small.
Qed.

(** Decoding writes at most [max_length] bytes whatever the text, and returns
    how many it wrote or [max_length + 1]; a buffer of [binary_length] bytes is
    never too small, so that [decode] into a string or vector always succeeds. *)
Theorem base64_decode_bounded b text max_length :
  0 <= max_length -> zlen text < 2 ^ 62 ->
  (let '(r, buf) := decode_block b text max_length in
   zlen buf <= max_length /\ (r = zlen buf \/ r = max_length + 1)) /\
  (forall binary, exists d, decode b text binary = (true, binary ++ d) /\
     4 * zlen d <= 3 * zlen text + 3).
Proof.
  intros Hmax Ht. pose proof (zlen_nonneg text). split.
  - destruct (decode_block b text max_length) as [r buf] eqn:Hd.
    by apply decode_loop_bound in Hd.
  - intros binary. unfold decode.
    assert (binary_length text = (zlen text * 3 + 3) / 4) as Hbl.
    { unfold binary_length. by rewrite wrap_small by (unfold in_u; lia). }
    destruct (decode_loop_fits b (binary_length text) (zlen text) text [] 0 0) as [buf Hbuf];
      [done|lia|lia|done|].
    unfold decode_block. rewrite Hbuf. exists buf.
    destruct (decode_loop_bound _ _ _ _ _ _ _ _ Hbuf) as [Hle _].
    { rewrite Hbl, zlen_nil. Z.div_mod_to_equations. lia. }
    rewrite Z.gtb_ltb, (proj2 (Z.ltb_ge _ _)), ztake_ge by done.
    split; [done|]. rewrite Hbl in Hle. Z.div_mod_to_equations. lia.
Qed.

(* ------------------------------------------------------------------ *)
(** ** Witnesses *)

Lemma base64_default_ok : config_ok base64_default.
Proof. unfold config_ok, alnum. cbv -[Z.le Z.lt not]. lia. Defined.

Lemma base64_roundtrip_witness :
  encode base64_default (str "hello") 4 [13; 10] = str "aGVs" ++ [13; 10] ++ str "bG8=" /\
  decode base64_default (encode base64_default (str "hello") 4 [13; 10]) [1] =
    (true, 1 :: str "hello").
Proof.
  split; [reflexivity|].
  apply (base64_roundtrip base64_default (str "hello") 4 [13; 10] [1] base64_default_ok).
  - repeat constructor.
  - vm_decide.
  - reflexivity.
Defined.

Lemma base64_u64_roundtrip_witness :
  decode_u64 Base64URL (encode_u64 Base64URL 1099511627775) = Some 1099511627775.
Proof.
  apply base64_u64_roundtrip; [|unfold in_u; lia]. unfold config_ok, alnum.
  cbv -[Z.le Z.lt not]. lia.
Defined.

Lemma base64_decode_bounded_witness :
  exists d, decode base64_default (str "aGV*sbG8") [] = (true, [] ++ d) /\ 4 * zlen d <= 27.
Proof.
  apply (base64_decode_bounded base64_default (str "aGV*sbG8") 4); [lia|reflexivity].
Defined.

End Base64.
