(* ===== verification/BaseN.v ===== *)
(** * Text: Base36, Base16 with a safe alphabet, Base58

    Models [src/libs/text/base36.cc], [base16alpha.cc] and [base58.cc].  The
    first two write 64-bit numbers; Base58 writes a byte vector as one big
    number, with the in-place long multiplication of the code. *)
From S2P Require Export Convert.

(** ** [Base36] *)
Module Base36.
Definition alphabet : bytes := str "0123456789abcdefghijklmnopqrstuvwxyz".

(** [while (n)]: 64 turns are enough for 64 bits. *)
Fixpoint encode_loop (fuel : nat) (n : Z) (base36 : bytes) : bytes :=
  match fuel with
  | O => base36
  | S fuel =>
    if n =? 0 then base36
    else encode_loop fuel (n / 36) (zget 0 alphabet (n mod 36) :: base36)
  end.
Definition encode (n : Z) : bytes :=
  if n =? 0 then str "0" else encode_loop 64 n [].

Definition char_value (c : Z) : option Z :=
  if (65 <=? c) && (c <=? 90) then Some (10 + c - 65)
  else if (97 <=? c) && (c <=? 122) then Some (10 + c - 97)
  else if (48 <=? c) && (c <=? 57) then Some (c - 48)
  else None.

Fixpoint decode_loop (s : bytes) (n : Z) : option Z :=
  match s with
  | [] => Some n
  | c :: s =>
    match char_value c with
    | Some cn => decode_loop s (u64 (u64 (n * 36) + cn))
    | None => None
    end
  end.
Definition decode (base36 : bytes) : option Z :=
  match base36 with [] => None | _ => decode_loop base36 0 end.
End Base36.

(** ** [Base16Alpha] *)
Module Base16Alpha.
Definition alphabet : bytes := str "bcdghjklmpqrsvwz".
Definition reverse : list Z :=
  [-1; 0; 1; 2; -1; -1; 3;
   4; -1; 5; 6; 7;
   8; -1; -1; 9; 10; 11;
   12; -1; -1; 13; 14; -1; -1; 15].

Fixpoint encode_loop (fuel : nat) (n : Z) (base16 : bytes) : bytes :=
  match fuel with
  | O => base16
  | S fuel =>
    if n =? 0 then base16
    else encode_loop fuel (n / 16) (zget 0 alphabet (n mod 16) :: base16)
  end.
Definition encode (n : Z) : bytes :=
  if n =? 0 then str "b" else encode_loop 64 n [].

Definition char_value (c : Z) : option Z :=
  let cn := if (65 <=? c) && (c <=? 90) then Some (c - 65)
            else if (97 <=? c) && (c <=? 122) then Some (c - 97)
            else None in
  match cn with
  | None => None
  | Some cn => let dn := zget 0 reverse cn in if dn <? 0 then None else Some dn
  end.

Fixpoint decode_loop (s : bytes) (n : Z) : option Z :=
  match s with
  | [] => Some n
  | c :: s =>
    match char_value c with
    | Some dn => decode_loop s (u64 (u64 (n * 16) + dn))
    | None => None
    end
  end.
Definition decode (base16 : bytes) : option Z :=
  match base16 with [] => None | _ => decode_loop base16 0 end.
End Base16Alpha.

(** ** [Base58] *)
Module Base58.
Definition base58_chars : bytes :=
  str "123456789ABCDEFGHJKLMNPQRSTUVWXYZabcdefghijkmnopqrstuvwxyz".

(** [reverse_map], filled with -1 and then from the alphabet: a character that
    occurs twice has its last index. *)
Definition reverse_map (map : bytes) (c : Z) : Z :=
  fold_left (fun r i => if zget 0 map i =? c then i else r) (zseq 0 58) (-1).

Fixpoint leading (x : Z) (l : list Z) : nat :=
  match l with
  | y :: l => if y =? x then S (leading x l) else O
  | [] => O
  end.

(** The inner loop, from the last digit to the first: the digits are those in
    [rbegin] order, the carry out of the first digit is lost. *)
Fixpoint mul_add (base k : Z) (digits : list Z) (carry : Z) : list Z :=
  match digits with
  | [] => []
  | d :: digits =>
    let carry := carry + k * d in
    carry mod base :: mul_add base k digits (carry / base)
  end.

Definition encode (map : bytes) (binary : bytes) : bytes :=
  match binary with
  | [] => []
  | _ =>
    let zeroes := leading 0 binary in
    let size := (zlen binary - Z.of_nat zeroes) * 138 / 100 + 1 in
    let b58 := fold_left (fun b58 byte => mul_add 58 256 b58 byte) binary
                 (replicate (Z.to_nat size) 0) in
    replicate zeroes (chr "1") ++
    List.map (zget 0 map) (drop_while (Z.eqb 0) (rev b58))
  end.

Fixpoint decode_loop (map : bytes) (s : bytes) (b256 : list Z) : option (list Z) :=
  match s with
  | [] => Some b256
  | c :: s =>
    let value := reverse_map map c in
    if value =? -1 then None
    else decode_loop map s (mul_add 256 58 b256 value)
  end.

(** The result and the vector, which is replaced, not appended to. *)
Definition decode (map : bytes) (base58 binary : bytes) : bool * bytes :=
  match decode_loop map base58 (replicate (Z.to_nat (zlen base58 * 733 / 1000 + 1)) 0) with
  | None => (false, binary)
  | Some b256 =>
    (true, replicate (leading (zget 0 map 0) base58) 0 ++ drop_while (Z.eqb 0) (rev b256))
  end.

(** An alphabet as [Base58::decode] needs it: 58 different characters. *)
Definition alphabet_ok (map : bytes) : Prop :=
  length map = 58%nat /\ NoDup map.
End Base58.

(* ------------------------------------------------------------------ *)
(** ** Lemmas *)

Lemma u64_mul_add a k x : u64 (u64 (u64 a * k) + x) = u64 (a * k + x).
Proof.
  unfold wrap. rewrite Z.mul_mod_idemp_l, Z.add_mod_idemp_l by lia. done.
Qed.

Lemma base36_loop_digits fuel n acc :
  Base36.encode_loop fuel n acc = map (zget 0 Base36.alphabet) (digits_fuel fuel 36 n []) ++ acc.
Proof.
  revert n acc. induction fuel as [|fuel IH]; intros n acc; [done|].
  cbn [Base36.encode_loop digits_fuel]. destruct (n =? 0); [done|].
  rewrite IH, (digits_fuel_app fuel 36 (n / 36) [_]), map_app, <- app_assoc. done.
Qed.

Lemma base36_decode_digits ds : forall n,
  Forall (fun d => 0 <= d < 36) ds ->
  Base36.decode_loop (map (zget 0 Base36.alphabet) ds) (u64 n) =
    Some (u64 (fold_left (fun a d => a * 36 + d) ds n)).
Proof.
  induction ds as [|d ds IH]; intros n Hd; [done|]. inversion_clear Hd as [|? ? Hd0 Hds].
  cbn [map Base36.decode_loop fold_left].
  assert (Base36.char_value (zget 0 Base36.alphabet d) = Some d) as ->.
  { pose proof (range_forall (fun d => match Base36.char_value (zget 0 Base36.alphabet d) with
      | Some e => e =? d | None => false end) 36 eq_refl d Hd0) as H. simpl in H.
    destruct (Base36.char_value _); [|done]. f_equal. lia. }
  rewrite u64_mul_add. by apply IH.
Qed.

Lemma base16_loop_digits fuel n acc :
  Base16Alpha.encode_loop fuel n acc =
    map (zget 0 Base16Alpha.alphabet) (digits_fuel fuel 16 n []) ++ acc.
Proof.
  revert n acc. induction fuel as [|fuel IH]; intros n acc; [done|].
  cbn [Base16Alpha.encode_loop digits_fuel]. destruct (n =? 0); [done|].
  rewrite IH, (digits_fuel_app fuel 16 (n / 16) [_]), map_app, <- app_assoc. done.
Qed.

Lemma base16_decode_digits ds : forall n,
  Forall (fun d => 0 <= d < 16) ds ->
  Base16Alpha.decode_loop (map (zget 0 Base16Alpha.alphabet) ds) (u64 n) =
    Some (u64 (fold_left (fun a d => a * 16 + d) ds n)).
Proof.
  induction ds as [|d ds IH]; intros n Hd; [done|]. inversion_clear Hd as [|? ? Hd0 Hds].
  cbn [map Base16Alpha.decode_loop fold_left].
  assert (Base16Alpha.char_value (zget 0 Base16Alpha.alphabet d) = Some d) as ->.
  { pose proof (range_forall (fun d => match Base16Alpha.char_value
        (zget 0 Base16Alpha.alphabet d) with
      | Some e => e =? d | None => false end) 16 eq_refl d Hd0) as H. simpl in H.
    destruct (Base16Alpha.char_value _); [|done]. f_equal. lia. }
  rewrite u64_mul_add. by apply IH.
Qed.

(** *** Long numbers, least significant digit first *)

Fixpoint le_val (base : Z) (l : list Z) : Z :=
  match l with
  | [] => 0
  | d :: l => d + base * le_val base l
  end.

Lemma undigits_snoc base l x : undigits base (l ++ [x]) = undigits base l * base + x.
Proof. unfold undigits. by rewrite fold_left_app. Qed.

Lemma le_val_rev base l : le_val base l = undigits base (rev l).
Proof.
  induction l as [|d l IH]; [done|]. simpl. rewrite undigits_snoc, <- IH. lia.
Qed.

Lemma le_val_zeros base n : le_val base (replicate n 0) = 0.
Proof. induction n as [|n IH]; simpl; [done|]. rewrite IH. lia. Qed.

Lemma mul_add_length base k l : forall c, length (Base58.mul_add base k l c) = length l.
Proof. induction l as [|d l IH]; intros c; simpl; [done|]. by rewrite IH. Qed.

Lemma mul_add_range base k l : forall c, 0 < base ->
  Forall (fun d => 0 <= d < base) (Base58.mul_add base k l c).
Proof.
  induction l as [|d l IH]; intros c Hb; simpl; constructor; [|by apply IH].
  by apply Z.mod_pos_bound.
Qed.

Lemma le_val_bound base l : 0 < base -> Forall (fun d => 0 <= d < base) l ->
  0 <= le_val base l < base ^ Z.of_nat (length l).
Proof.
  intros Hb. induction 1 as [|d l Hd Hl IH]; [simpl; lia|]. cbn [le_val length].
  rewrite Nat2Z.inj_succ, Z.pow_succ_r by lia. nia.
Qed.

Lemma mul_add_val base k l : forall c, 0 < base ->
  le_val base (Base58.mul_add base k l c) =
    (k * le_val base l + c) mod base ^ Z.of_nat (length l).
Proof.
  induction l as [|d l IH]; intros c Hb; cbn [Base58.mul_add le_val length].
  - by rewrite Z.mod_1_r.
  - rewrite IH by done. rewrite Nat2Z.inj_succ, Z.pow_succ_r by lia.
    pose proof (Z.pow_pos_nonneg base (Z.of_nat (length l)) Hb ltac:(lia)).
    rewrite Z.rem_mul_r by lia.
    replace (k * (d + base * le_val base l) + c) with
      (c + k * d + k * le_val base l * base) by lia.
    rewrite Z.mod_add, Z.div_add by lia. f_equal. f_equal. f_equal. lia.
Qed.

(** Folding the multiplication over the digits of another base. *)
Lemma fold_mul_add base k ds : forall l,
  0 < base -> length l <> 0%nat ->
  let r := fold_left (fun l d => Base58.mul_add base k l d) ds l in
  length r = length l /\
  le_val base r mod base ^ Z.of_nat (length l) =
    (fold_left (fun a d => a * k + d) ds (le_val base l)) mod base ^ Z.of_nat (length l) /\
  (Forall (fun d => 0 <= d < base) l -> Forall (fun d => 0 <= d < base) r).
Proof.
  induction ds as [|d ds IH]; intros l Hb Hl; cbn zeta; cbn [fold_left]; [done|].
  destruct (IH (Base58.mul_add base k l d) Hb) as (H1 & H2 & H3);
    [by rewrite mul_add_length|].
  rewrite mul_add_length in H1, H2. split; [done|]. split.
  - rewrite H2, mul_add_val by done.
    pose proof (Z.pow_pos_nonneg base (Z.of_nat (length l)) Hb ltac:(lia)) as Hp.
    set (m := base ^ Z.of_nat (length l)) in *. clearbody m.
    replace (le_val base l * k + d) with (k * le_val base l + d) by lia.
    generalize (k * le_val base l + d). clear - Hp.
    induction ds as [|e ds IH]; intros x; cbn [fold_left]; [by apply Z.mod_mod; lia|].
    rewrite <- (IH (x mod m * k + e)), <- (IH (x * k + e)). f_equal. f_equal.
    rewrite <- (Z.add_mod_idemp_l (x * k)), <- Z.mul_mod_idemp_l, Z.add_mod_idemp_l by lia.
    done.
  - intros _. apply H3. by apply mul_add_range.
Qed.

(** Digits without a leading zero are determined by their value. *)
Definition canonical (base : Z) (l : list Z) : Prop :=
  Forall (fun d => 0 <= d < base) l /\ match l with x :: _ => x <> 0 | [] => True end.

Lemma undigits_nonneg base l : 0 < base -> Forall (fun d => 0 <= d < base) l -> 0 <= undigits base l.
Proof.
  intros Hb. induction l as [|x l IH] using rev_ind; intros Hl; [done|].
  apply Forall_app in Hl as [Hl Hx]. apply Forall_cons in Hx as [Hx _].
  rewrite undigits_snoc. specialize (IH Hl). nia.
Qed.

Lemma canonical_snoc base l x : canonical base (l ++ [x]) ->
  canonical base l /\ 0 <= x < base /\ (l = [] -> x <> 0).
Proof.
  intros [Hr Hh]. apply Forall_app in Hr as [Hl Hx]. apply Forall_cons in Hx as [Hx _].
  split; [|split; [done|by intros ->]]. split; [done|]. by destruct l.
Qed.

Lemma canonical_pos base l : 1 < base -> canonical base l -> l <> [] -> 0 < undigits base l.
Proof.
  intros Hb. induction l as [|x l IH] using rev_ind; intros Hc Hne; [done|].
  apply canonical_snoc in Hc as (Hc & Hx & H0). rewrite undigits_snoc.
  destruct (decide (l = [])) as [->|Hl].
  - specialize (H0 eq_refl). change (undigits base []) with 0. lia.
  - specialize (IH Hc Hl). nia.
Qed.

Lemma canonical_unique base l : forall k, 1 < base -> canonical base l -> canonical base k ->
  undigits base l = undigits base k -> l = k.
Proof.
  induction l as [|x l IH] using rev_ind; intros k Hb Hl Hk Heq.
  - destruct (decide (k = [])) as [->|Hne]; [done|].
    pose proof (canonical_pos base k Hb Hk Hne).
    change (undigits base []) with 0 in Heq. lia.
  - destruct k as [|y k _] using rev_ind.
    + pose proof (canonical_pos base (l ++ [x]) Hb Hl) as H.
      change (undigits base []) with 0 in Heq. rewrite Heq in H.
      assert (l ++ [x] <> []) as Hne by by destruct l. specialize (H Hne). lia.
    + apply canonical_snoc in Hl as (Hl & Hx & _), Hk as (Hk & Hy & _).
      rewrite !undigits_snoc in Heq.
      destruct (Z.div_mod_unique base (undigits base l) (undigits base k) x y) as [Hv ->];
        [lia..|].
      by rewrite (IH k).
Qed.

Lemma undigits_strip base l : undigits base (drop_while (Z.eqb 0) l) = undigits base l.
Proof.
  induction l as [|x l IH]; [done|]. cbn [drop_while].
  destruct (Z.eqb_spec 0 x) as [<-|]; [|done]. by rewrite IH.
Qed.

Lemma strip_canonical base l :
  Forall (fun d => 0 <= d < base) l -> canonical base (drop_while (Z.eqb 0) l).
Proof.
  induction 1 as [|x l Hx Hl IH]; [done|]. cbn [drop_while].
  destruct (Z.eqb_spec 0 x); [done|]. split; [by constructor|done].
Qed.

Lemma leading_split x l : exists l', l = replicate (Base58.leading x l) x ++ l' /\
  match l' with y :: _ => y <> x | [] => True end.
Proof.
  induction l as [|y l (l' & Hl & Hh)]; [by exists []|]. cbn [Base58.leading].
  destruct (Z.eqb_spec y x) as [->|Hne].
  - exists l'. cbn [replicate app]. by rewrite <- Hl.
  - by exists (y :: l).
Qed.

Lemma leading_app x n l :
  match l with y :: _ => y <> x | [] => True end ->
  Base58.leading x (replicate n x ++ l) = n.
Proof.
  intros Hl. induction n as [|n IH]; cbn [replicate app Base58.leading].
  - destruct l as [|y l]; [done|]. cbn. by rewrite (proj2 (Z.eqb_neq _ _) Hl).
  - by rewrite Z.eqb_refl, IH.
Qed.

Lemma undigits_bound base l : 0 < base -> Forall (fun d => 0 <= d < base) l ->
  undigits base l < base ^ Z.of_nat (length l).
Proof.
  intros Hb Hl. rewrite <- (length_rev l). rewrite <- (rev_involutive l) at 1.
  rewrite <- le_val_rev. apply le_val_bound; [done|]. by apply Forall_rev.
Qed.

(** The sizes allocated are enough: 138/100 digits of base 58 for a byte,
    733/1000 bytes for a digit of base 58. *)
Lemma pow_le_from_power a b n : 0 < n -> 0 <= b -> a ^ n <= b ^ n -> a <= b.
Proof.
  intros Hn Hb Hle. destruct (Z.le_gt_cases a b); [done|].
  pose proof (Z.pow_lt_mono_l b a n Hn ltac:(lia)). lia.
Qed.

Lemma size_58 m : 0 <= m -> 256 ^ m <= 58 ^ (m * 138 / 100 + 1).
Proof.
  intros Hm. assert (0 <= m * 138 / 100) by (apply Z.div_pos; lia).
  apply (pow_le_from_power _ _ 100); [done|apply Z.pow_nonneg; lia|].
  rewrite <- !Z.pow_mul_r by lia.
  transitivity (58 ^ (138 * m)).
  - rewrite (Z.mul_comm m 100), !Z.pow_mul_r by lia. apply Z.pow_le_mono_l.
    split; [lia|]. apply Z.leb_le. by vm_compute.
  - apply Z.pow_le_mono_r; [lia|]. Z.div_mod_to_equations. lia.
Qed.

Lemma size_256 m : 0 <= m -> 58 ^ m <= 256 ^ (m * 733 / 1000 + 1).
Proof.
  intros Hm. assert (0 <= m * 733 / 1000) by (apply Z.div_pos; lia).
  apply (pow_le_from_power _ _ 1000); [done|apply Z.pow_nonneg; lia|].
  rewrite <- !Z.pow_mul_r by lia.
  transitivity (256 ^ (733 * m)).
  - rewrite (Z.mul_comm m 1000), !Z.pow_mul_r by lia. apply Z.pow_le_mono_l.
    split; [lia|]. apply Z.leb_le. by vm_compute.
  - apply Z.pow_le_mono_r; [lia|]. Z.div_mod_to_equations. lia.
Qed.

(** *** The alphabet of Base58 *)

Lemma zget_nth l i x : 0 <= i < zlen l -> zget 0 l i = x -> l !! Z.to_nat i = Some x.
Proof.
  intros Hi <-. unfold zget. destruct (l !! Z.to_nat i) eqn:Hl.
  - f_equal. symmetry. by apply nth_lookup_Some.
  - apply lookup_ge_None in Hl. unfold zlen in Hi. lia.
Qed.

Lemma reverse_map_index map i :
  Base58.alphabet_ok map -> 0 <= i < 58 -> Base58.reverse_map map (zget 0 map i) = i.
Proof.
  intros [Hlen Hnd] Hi. unfold Base58.reverse_map.
  assert (forall l r, (forall j, In j l -> 0 <= j < 58) ->
    fold_left (fun r j => if zget 0 map j =? zget 0 map i then j else r) l r =
      if existsb (Z.eqb i) l then i else r) as Hfold.
  { induction l as [|j l IH]; intros r Hl; [done|]. cbn [fold_left existsb].
    rewrite IH by (intros; apply Hl; by right).
    assert ((zget 0 map j =? zget 0 map i) = (i =? j)) as ->.
    { assert (0 <= j < 58) as Hj by (apply Hl; by left).
      destruct (Z.eqb_spec i j) as [->|Hne]; [by rewrite Z.eqb_refl|].
      apply Z.eqb_neq. intros Heq. apply Hne.
      apply zget_nth in Heq; [|unfold zlen; lia].
      assert (map !! Z.to_nat i = Some (zget 0 map i)) as Hi2
        by (apply zget_nth; [unfold zlen; lia|done]).
      pose proof (NoDup_lookup map _ _ _ Hnd Heq Hi2). lia. }
    destruct (Z.eqb_spec i j) as [->|]; cbn [orb]; [by destruct (existsb _ l)|done]. }
  rewrite Hfold.
  - assert (existsb (Z.eqb i) (zseq 0 58) = true) as ->; [|done].
    apply existsb_exists. exists i. split; [|apply Z.eqb_refl]. unfold zseq.
    apply in_map_iff. exists (Z.to_nat i). split; [lia|]. apply in_seq. lia.
  - intros j Hj. unfold zseq in Hj. apply in_map_iff in Hj as (k & <- & Hk).
    apply in_seq in Hk. lia.
Qed.

Lemma decode_loop_58 map ds : forall l,
  Base58.alphabet_ok map -> Forall (fun d => 0 <= d < 58) ds ->
  Base58.decode_loop map (List.map (zget 0 map) ds) l =
    Some (fold_left (fun l d => Base58.mul_add 256 58 l d) ds l).
Proof.
  induction ds as [|d ds IH]; intros l Hm Hd; [done|]. inversion_clear Hd.
  cbn [List.map Base58.decode_loop fold_left]. rewrite reverse_map_index by done.
  rewrite (proj2 (Z.eqb_neq _ _)) by lia. by apply IH.
Qed.

(** Long multiplication into enough digits is conversion between bases. *)
Lemma convert_base base k ds n :
  1 < base -> 1 < k -> Forall (fun d => 0 <= d < k) ds -> (0 < n)%nat ->
  undigits k ds < base ^ Z.of_nat n ->
  let r := fold_left (fun l d => Base58.mul_add base k l d) ds (replicate n 0) in
  Forall (fun d => 0 <= d < base) (rev r) /\ undigits base (rev r) = undigits k ds.
Proof.
  intros Hb Hk Hds Hn Hlt. cbn zeta.
  destruct (fold_mul_add base k ds (replicate n 0)) as (Hl & Hv & Hr);
    [lia|rewrite length_replicate; lia|].
  cbn zeta in *. rewrite length_replicate, le_val_zeros in *.
  assert (Forall (fun d => 0 <= d < base)
    (fold_left (fun l d => Base58.mul_add base k l d) ds (replicate n 0))) as Hrange.
  { apply Hr. apply Forall_replicate. lia. }
  split; [by apply Forall_rev|]. rewrite <- le_val_rev.
  pose proof (le_val_bound base _ ltac:(lia) Hrange) as Hbound. rewrite Hl in Hbound.
  pose proof (undigits_nonneg k ds ltac:(lia) Hds).
  rewrite Z.mod_small in Hv by done. rewrite Hv. by apply Z.mod_small.
Qed.

(** [encode] and [decode] as conversions of digit lists. *)
Lemma base58_encode_digits map d :
  bytes_ok d -> d <> [] ->
  exists c, canonical 58 c /\ undigits 58 c = undigits 256 d /\
    Base58.encode map d =
      replicate (Base58.leading 0 d) (chr "1") ++ List.map (zget 0 map) c.
Proof.
  intros Hd Hne. destruct (leading_split 0 d) as (d' & Hsplit & Hhead).
  set (z := Base58.leading 0 d) in *.
  assert (zlen d - Z.of_nat z = zlen d') as Hm.
  { rewrite Hsplit at 1. unfold zlen. rewrite length_app, length_replicate. lia. }
  assert (Forall (fun d => 0 <= d < 256) d') as Hd'.
  { rewrite Hsplit in Hd. by apply Forall_app in Hd as [_ ?]. }
  pose proof (zlen_nonneg d') as Hnn. pose proof (size_58 (zlen d') Hnn) as Hsize.
  assert (0 <= zlen d' * 138 / 100) by (apply Z.div_pos; lia).
  set (n := Z.to_nat (zlen d' * 138 / 100 + 1)).
  destruct (convert_base 58 256 d n) as [Hr Hv]; [lia|lia|done|lia| |].
  { rewrite Hsplit, undigits_zeros. pose proof (undigits_bound 256 d' ltac:(lia) Hd').
    unfold n. rewrite Z2Nat.id by lia. fold (zlen d') in *.
    change (Z.of_nat (length d')) with (zlen d') in *. lia. }
  cbn zeta in Hr, Hv.
  exists (drop_while (Z.eqb 0) (rev (fold_left (fun l d => Base58.mul_add 58 256 l d) d
    (replicate n 0)))).
  split; [by apply strip_canonical|]. split; [by rewrite undigits_strip|].
  unfold Base58.encode. fold z. rewrite Hm. by destruct d.
Qed.

Lemma base58_decode_digits map z c binary :
  Base58.alphabet_ok map -> zget 0 map 0 = chr "1" -> canonical 58 c ->
  exists d', canonical 256 d' /\ undigits 256 d' = undigits 58 c /\
    Base58.decode map (replicate z (chr "1") ++ List.map (zget 0 map) c) binary =
      (true, replicate z 0 ++ d').
Proof.
  intros Hm H1 [Hc Hhead].
  assert (replicate z (chr "1") ++ List.map (zget 0 map) c =
    List.map (zget 0 map) (replicate z 0 ++ c)) as Hmap.
  { rewrite map_app. f_equal. rewrite <- H1. clear. induction z as [|z IH]; [done|].
    cbn [replicate List.map]. by rewrite <- IH. }
  assert (Base58.leading (zget 0 map 0) (replicate z (chr "1") ++ List.map (zget 0 map) c) = z)
    as Hlead.
  { rewrite H1. apply leading_app. destruct c as [|x c]; [done|].
    cbn [List.map]. intros Heq. apply Hhead. apply Forall_cons in Hc as [Hx _].
    rewrite <- (reverse_map_index map x Hm Hx), Heq, <- H1. by apply reverse_map_index. }
  unfold Base58.decode. rewrite Hlead, Hmap. clear Hlead.
  assert (Forall (fun d => 0 <= d < 58) (replicate z 0 ++ c)) as Hds.
  { apply Forall_app. split; [apply Forall_replicate; lia|done]. }
  rewrite decode_loop_58 by done.
  set (len := zlen (List.map (zget 0 map) (replicate z 0 ++ c))).
  assert (len = zlen (replicate z 0 ++ c)) as Hlen by (unfold len, zlen; by rewrite length_map).
  pose proof (zlen_nonneg (replicate z 0 ++ c)) as Hnn. rewrite <- Hlen in Hnn.
  pose proof (size_256 len Hnn) as Hsize.
  assert (0 <= len * 733 / 1000) by (apply Z.div_pos; lia).
  destruct (convert_base 256 58 (replicate z 0 ++ c) (Z.to_nat (len * 733 / 1000 + 1)))
    as [Hr Hv]; [lia|lia|done|lia| |].
  { pose proof (undigits_bound 58 (replicate z 0 ++ c) ltac:(lia) Hds) as Hub.
    change (Z.of_nat (length (replicate z 0 ++ c))) with (zlen (replicate z 0 ++ c)) in Hub.
    rewrite <- Hlen in Hub. rewrite Z2Nat.id by lia. lia. }
  cbn zeta in Hr, Hv. rewrite undigits_zeros in Hv.
  eexists. split; [by apply strip_canonical|]. split; [by rewrite undigits_strip, Hv|].
  done.
Qed.

(* ------------------------------------------------------------------ *)
(** ** Properties *)

(** Base36 and the safe Base16: every 64-bit number is decoded from its
    encoding. *)
Theorem base36_base16_roundtrip n : in_u 64 n ->
  Base36.decode (Base36.encode n) = Some n /\ Base16Alpha.decode (Base16Alpha.encode n) = Some n.
Proof.
  intros Hn. unfold Base36.encode, Base16Alpha.encode.
  destruct (Z.eqb_spec n 0) as [->|Hne]; [done|].
  rewrite base36_loop_digits, base16_loop_digits, !app_nil_r.
  fold (digits 36 n). fold (digits 16 n).
  pose proof (digits_nonempty 36 n Hne) as Hne36. pose proof (digits_nonempty 16 n Hne) as Hne16.
  pose proof (digits_range 36 n ltac:(lia)) as H36. pose proof (digits_range 16 n ltac:(lia)) as H16.
  split.
  - unfold Base36.decode. destruct (map _ (digits 36 n)) eqn:Hm.
    { exact (False_ind _ (Hne36 (map_eq_nil _ _ Hm))). }
    rewrite <- Hm. pose proof (base36_decode_digits (digits 36 n) 0 H36) as Hd.
    fold (undigits 36 (digits 36 n)) in Hd. change (u64 0) with 0 in Hd.
    rewrite undigits_digits, wrap_small in Hd by (assumption || lia). exact Hd.
  - unfold Base16Alpha.decode. destruct (map _ (digits 16 n)) eqn:Hm.
    { exact (False_ind _ (Hne16 (map_eq_nil _ _ Hm))). }
    rewrite <- Hm. pose proof (base16_decode_digits (digits 16 n) 0 H16) as Hd.
    fold (undigits 16 (digits 16 n)) in Hd. change (u64 0) with 0 in Hd.
    rewrite undigits_digits, wrap_small in Hd by (assumption || lia). exact Hd.
Qed.

(** Base58: every byte vector is decoded from its encoding, leading zero bytes
    included and whatever the target held, for every alphabet of 58 different
    characters that begins with '1'; in particular the digits allocated by
    either direction are always enough. *)
Theorem base58_roundtrip map d binary :
  Base58.alphabet_ok map -> zget 0 map 0 = chr "1" -> bytes_ok d ->
  Base58.decode map (Base58.encode map d) binary = (true, d).
Proof.
  intros Hm H1 Hd. destruct (decide (d = [])) as [->|Hne]; [done|].
  destruct (base58_encode_digits map d Hd Hne) as (c & Hc & Hcv & ->).
  destruct (base58_decode_digits map (Base58.leading 0 d) c binary Hm H1 Hc) as
    (d' & Hd' & Hv & ->).
  destruct (leading_split 0 d) as (d'' & Hsplit & Hhead).
  f_equal. rewrite Hsplit at 2. f_equal.
  apply (canonical_unique 256); [lia|done| |].
  - split; [|done]. rewrite Hsplit in Hd. by apply Forall_app in Hd as [_ ?].
  - rewrite Hv, Hcv. rewrite Hsplit at 1. apply undigits_zeros.
Qed.

(** with any other first character (an alphabet given to the second constructor)
    a leading zero byte is encoded as '1' all the same, while [decode] takes the
    alphabet's first character for it: a single zero byte comes back as another
    value, or not at all. *)
Lemma base58_custom_alphabet_loses_zero map binary :
  Base58.alphabet_ok map -> zget 0 map 0 <> chr "1" ->
  Base58.encode map [0] = str "1" /\
  Base58.decode map (Base58.encode map [0]) binary <> (true, [0]) /\
  Base58.decode map [zget 0 map 0] binary = (true, [0]).
Proof.
  intros Hm H1. split; [done|]. change (Base58.encode map [0]) with [chr "1"]. split.
  - unfold Base58.decode. cbn [Base58.decode_loop].
    change (Z.to_nat (zlen [chr "1"] * 733 / 1000 + 1)) with 1%nat.
    destruct (Z.eqb_spec (Base58.reverse_map map (chr "1")) (-1)); [done|].
    cbn [Base58.leading]. destruct (Z.eqb_spec (chr "1") (zget 0 map 0)) as [Heq|];
      [by rewrite Heq in H1|].
    cbn [replicate Base58.mul_add rev app drop_while].
    set (v := (_ mod 256)). destruct (Z.eqb_spec 0 v); intros Heq; [done|].
    injection Heq as Hv. congruence.
  - unfold Base58.decode. change (zlen [zget 0 map 0]) with 1. cbn [Base58.decode_loop].
    rewrite reverse_map_index by (done || lia). cbn [Base58.leading].
    rewrite Z.eqb_refl. done.
Qed.

(* ------------------------------------------------------------------ *)
(** ** Witnesses *)

Lemma base36_base16_roundtrip_witness :
  Base36.decode (Base36.encode (2 ^ 64 - 1)) = Some (2 ^ 64 - 1) /\
  Base16Alpha.decode (Base16Alpha.encode (2 ^ 64 - 1)) = Some (2 ^ 64 - 1).
Proof. apply base36_base16_roundtrip. unfold in_u. lia. Defined.

Lemma base58_roundtrip_witness :
  Base58.decode Base58.base58_chars (Base58.encode Base58.base58_chars [0; 0; 40; 127; 180; 205]) [7]
    = (true, [0; 0; 40; 127; 180; 205]).
Proof.
  apply base58_roundtrip.
  - split; [reflexivity|]. vm_decide.
  - reflexivity.
  - vm_decide.
Defined.

Definition ripple_chars : bytes :=
  str "rpshnaf39wBUDNEGHJKLM4PQRST7VWXYZ2bcdeCg65jkm8oFqi1tuvAxyz".
Lemma base58_custom_alphabet_loses_zero_witness :
  Base58.decode ripple_chars (Base58.encode ripple_chars [0]) [] = (true, [50]) /\
  Base58.decode ripple_chars (Base58.encode ripple_chars [0]) [] <> (true, [0]).
Proof.
  split; [reflexivity|].
  apply (base58_custom_alphabet_loses_zero ripple_chars []).
  - split; [reflexivity|]. vm_decide.
  - vm_compute. discriminate.
Defined.
