(* ===== verification/Json.v ===== *)
(** * JSON values

    Models [src/libs/json/value.cc] and the class [Value] of [ot-json.h]: the
    tagged union with its accessors, equality and the JSON writer.  An object's
    [map<string, Value>] is a map of [StrMap.v].  A [double]
    is its 64-bit pattern; what the stream prints for one is the parameter
    [show_double]. *)
From S2P Require Export Base64 Convert StrMap.

#[local] Unset Elimination Schemes.
Inductive Value : Type :=
  | UNDEFINED
  | NULL_
  | NUMBER (f : Z)
  | INTEGER (n : Z)
  | STRING (s : bytes)
  | OBJECT (o : list (bytes * Value))
  | ARRAY (a : list Value)
  | TRUE_
  | FALSE_
  | BINARY (s : bytes)
  | BREAK.
#[local] Set Elimination Schemes.

Inductive Value_Type : Set :=
  TUndefined | TNull | TNumber | TInteger | TString | TObject | TArray | TTrue | TFalse
  | TBinary | TBreak.
Definition type (v : Value) : Value_Type :=
  match v with
  | UNDEFINED => TUndefined | NULL_ => TNull | NUMBER _ => TNumber | INTEGER _ => TInteger
  | STRING _ => TString | OBJECT _ => TObject | ARRAY _ => TArray | TRUE_ => TTrue
  | FALSE_ => TFalse | BINARY _ => TBinary | BREAK => TBreak
  end.

(** ** Accessors *)

(** [put], [set] on an object, [add] on an array *)
Definition set (name : bytes) (v obj : Value) : Value :=
  match obj with OBJECT o => OBJECT (map_set name v o) | _ => obj end.
Definition add (v arr : Value) : Value :=
  match arr with ARRAY a => ARRAY (a ++ [v]) | _ => arr end.

(** [operator!] and [is_true] *)
Definition not_valid (v : Value) : bool := match v with UNDEFINED => true | _ => false end.
Definition is_true (v : Value) : bool :=
  match v with TRUE_ => true | INTEGER n => negb (n =? 0) | _ => false end.

Definition none : Value := UNDEFINED.
Definition get (property : bytes) (v : Value) : Value :=
  match v with
  | OBJECT o => match map_find property o with Some v => v | None => none end
  | _ => none
  end.
Definition get_index (index : Z) (v : Value) : Value :=
  match v with
  | ARRAY a => if index >=? zlen a then none else nth (Z.to_nat index) a none
  | _ => none
  end.
Definition size (v : Value) : Z := match v with ARRAY a => zlen a | _ => 0 end.
Definition as_str (def : bytes) (v : Value) : bytes :=
  match v with STRING s => s | _ => def end.
Definition as_int (def : Z) (v : Value) : Z :=
  match v with INTEGER n => n | STRING s => stoi s | _ => def end.
Definition as_binary (v : Value) : bytes :=
  match v with
  | BINARY s => s
  | STRING s => snd (Base64.decode Base64.base64_default s [])
  | _ => []
  end.

(** ** Equality *)

(** [==] of two doubles by their patterns: not-a-number equals nothing, the two
    zeros are equal. *)
Definition is_nan (p : Z) : bool :=
  (Z.land (Z.shiftr p 52) 2047 =? 2047) && negb (Z.land p (2 ^ 52 - 1) =? 0).
Definition double_eqb (p q : Z) : bool :=
  negb (is_nan p) && negb (is_nan q) &&
  ((p =? q) || ((Z.land p (2 ^ 63 - 1) =? 0) && (Z.land q (2 ^ 63 - 1) =? 0))).

Definition bytes_eqb (a b : bytes) : bool := bool_decide (a = b).

(** [==] of two vectors and of two maps, given [==] of values *)
Section lists_eqb.
Context {A B : Type} (eqb : A -> B -> bool).
Fixpoint list_eqb (a : list A) (b : list B) : bool :=
  match a, b with
  | [], [] => true
  | x :: a, y :: b => eqb x y && list_eqb a b
  | _, _ => false
  end.
Fixpoint map_eqb (a : list (bytes * A)) (b : list (bytes * B)) : bool :=
  match a, b with
  | [], [] => true
  | (k, x) :: a, (l, y) :: b => bytes_eqb k l && eqb x y && map_eqb a b
  | _, _ => false
  end.
End lists_eqb.

(** [Value::operator==] *)
Fixpoint equal (v w : Value) {struct v} : bool :=
  match v, w with
  | NUMBER f, NUMBER g => double_eqb f g
  | INTEGER n, INTEGER m => n =? m
  | STRING s, STRING t | BINARY s, BINARY t => bytes_eqb s t
  | OBJECT o, OBJECT p => map_eqb equal o p
  | ARRAY a, ARRAY b => list_eqb equal a b
  | UNDEFINED, UNDEFINED | NULL_, NULL_ | TRUE_, TRUE_ | FALSE_, FALSE_ | BREAK, BREAK => true
  | _, _ => false
  end.

(** ** Writing JSON *)

(** [setw(4) << setfill('0') << hex] *)
Definition hex4 (c : Z) : bytes :=
  let s := print_base 16 c in replicate (4 - length s) 48 ++ s.

Definition escape (c : Z) : bytes :=
  if c =? chr "\" then str "\\"
  else if c =? 34 then [92; 34]
  else if c =? 8 then str "\b"
  else if c =? 12 then str "\f"
  else if c =? 10 then str "\n"
  else if c =? 13 then str "\r"
  else if c =? 9 then str "\t"
  else if c >? 127 then
    if c <? 65536 then str "\u" ++ hex4 c else str "\u++++"
  else [u8 c].
Definition write_string_to (s : bytes) : bytes :=
  34 :: flat_map escape (UTF8.decode s) ++ [34].

(** [for (i = 0; i < n; i++) out << ' '] *)
Definition spaces (n : Z) : bytes := replicate (Z.to_nat n) 32.

(** A non-empty object or array, which goes on several lines. *)
Definition is_block (v : Value) : bool :=
  match v with OBJECT (_ :: _) | ARRAY (_ :: _) => true | _ => false end.

Section writer.
Context (write_to : Value -> Z -> bytes) (pretty : bool).

Fixpoint write_members (indent : Z) (o : list (bytes * Value)) : bytes :=
  match o with
  | [] => []
  | (k, v) :: o' =>
    (if pretty then spaces (indent + 2) else []) ++ 34 :: k ++ [34; 58] ++
    (if pretty then if is_block v then 10 :: spaces (indent + 2) else [32] else []) ++
    write_to v (indent + 2) ++
    match o' with [] => [] | _ => [44] end ++
    (if pretty then [10] else []) ++
    write_members indent o'
  end.
Definition write_object_to (o : list (bytes * Value)) (indent : Z) : bytes :=
  let multiline := pretty && match o with [] => false | _ => true end in
  123 :: (if multiline then [10] else []) ++
  write_members indent o ++
  (if multiline then spaces indent else []) ++ [125] ++
  (if multiline && (indent =? 0) then [10] else []).

Fixpoint write_elements (multiline : bool) (indent : Z) (a : list Value) : bytes :=
  match a with
  | [] => []
  | v :: a' =>
    (if multiline then spaces (indent + 2) else if pretty then [32] else []) ++
    write_to v (indent + 2) ++
    match a' with
    | _ :: _ => 44 :: (if multiline then [10] else [])
    | [] => if multiline then [10] else if pretty then [32] else []
    end ++
    write_elements multiline indent a'
  end.
Definition write_array_to (a : list Value) (indent : Z) : bytes :=
  let multiline := pretty && existsb is_block a in
  91 :: (if multiline then [10] else []) ++
  write_elements multiline indent a ++
  (if multiline then spaces indent else []) ++ [93] ++
  (if multiline && (indent =? 0) then [10] else []).
End writer.

Section write.
Context (show_double : Z -> bytes).

(** [Value::write_to] *)
Fixpoint write_to (pretty : bool) (v : Value) (indent : Z) : bytes :=
  match v with
  | UNDEFINED => str "undefined"
  | NULL_ => str "null"
  | NUMBER f => show_double f
  | INTEGER n => itos n
  | STRING s => write_string_to s
  | OBJECT o => write_object_to (write_to pretty) pretty o indent
  | ARRAY a => write_array_to (write_to pretty) pretty a indent
  | TRUE_ => str "true"
  | FALSE_ => str "false"
  | BINARY s => 34 :: Base64.encode Base64.base64_default s 76 [13; 10] ++ [34]
  | BREAK => str "BREAK"
  end.

(** [Value::str] and [operator<<] *)
Definition to_str (pretty : bool) (v : Value) : bytes := write_to pretty v 0.
Definition stream_out (v : Value) : bytes := write_to true v 0.
End write.

(* ------------------------------------------------------------------ *)
(** ** Lemmas *)

(** Induction over the values inside a value. *)
Section Value_induction.
Context (P : Value -> Prop).
Context (H_undefined : P UNDEFINED) (H_null : P NULL_) (H_number : forall f, P (NUMBER f)).
Context (H_integer : forall n, P (INTEGER n)) (H_string : forall s, P (STRING s)).
Context (H_object : forall o, Forall (fun kv => P (snd kv)) o -> P (OBJECT o)).
Context (H_array : forall a, Forall P a -> P (ARRAY a)).
Context (H_true : P TRUE_) (H_false : P FALSE_) (H_binary : forall s, P (BINARY s)).
Context (H_break : P BREAK).

Fixpoint Value_nested_ind (v : Value) : P v :=
  match v with
  | UNDEFINED => H_undefined
  | NULL_ => H_null
  | NUMBER f => H_number f
  | INTEGER n => H_integer n
  | STRING s => H_string s
  | OBJECT o => H_object o
      ((fix go (o : list (bytes * Value)) : Forall (fun kv => P (snd kv)) o :=
          match o with
          | [] => Forall_nil_2 _
          | kv :: o => Forall_cons_2 _ kv o (Value_nested_ind (snd kv)) (go o)
          end) o)
  | ARRAY a => H_array a
      ((fix go (a : list Value) : Forall P a :=
          match a with
          | [] => Forall_nil_2 _
          | v :: a => Forall_cons_2 _ v a (Value_nested_ind v) (go a)
          end) a)
  | TRUE_ => H_true
  | FALSE_ => H_false
  | BINARY s => H_binary s
  | BREAK => H_break
  end.
End Value_induction.

(** *** Equality *)

Lemma bytes_eqb_eq a b : bytes_eqb a b = true <-> a = b.
Proof. apply bool_decide_eq_true. Qed.

(** No floating-point number inside. *)
Fixpoint number_free (v : Value) : bool :=
  match v with
  | NUMBER _ => false
  | OBJECT o => forallb (fun kv => number_free (snd kv)) o
  | ARRAY a => forallb number_free a
  | _ => true
  end.

Lemma equal_spec v : number_free v = true -> forall w, equal v w = true <-> v = w.
Proof.
  induction v as [| | | | |o IH|a IH| | | |] using Value_nested_ind; intros Hv w;
    try (by destruct w; split; intros; simplify_eq/=; try done).
  - destruct w; simpl; try done. rewrite Z.eqb_eq. split; [by intros ->|by injection 1].
  - destruct w; simpl; try done. rewrite bytes_eqb_eq. split; [by intros ->|by injection 1].
  - destruct w as [| | | | |p| | | | |]; try done.
    transitivity (o = p); [|split; [by intros ->|by injection 1]]. cbn [equal].
    revert p. cbn [number_free] in Hv. induction IH as [|[k x] o Hx Ho IHo]; intros [|[l y] p];
      cbn [map_eqb]; try done.
    cbn [forallb snd] in Hv, Hx. apply andb_prop in Hv as [Hv1 Hv2].
    rewrite !andb_true_iff, bytes_eqb_eq, (Hx Hv1), (IHo Hv2).
    split; [by intros [[-> ->] ->]|by injection 1].
  - destruct w as [| | | | | |b| | | |]; try done.
    transitivity (a = b); [|split; [by intros ->|by injection 1]]. cbn [equal].
    revert b. cbn [number_free] in Hv. induction IH as [|x a Hx Ha IHa]; intros [|y b];
      cbn [list_eqb]; try done.
    cbn [forallb] in Hv. apply andb_prop in Hv as [Hv1 Hv2].
    rewrite andb_true_iff, (Hx Hv1), (IHa Hv2).
    split; [by intros [-> ->]|by injection 1].
  - destruct w; simpl; try done. rewrite bytes_eqb_eq. split; [by intros ->|by injection 1].
Qed.

(* ------------------------------------------------------------------ *)
(** ** Properties *)

(** An object is a map: setting a property keeps the keys in order without
    duplicates, is seen by [get] at that key and leaves every other property as
    it was. *)
Theorem object_set_get o k v :
  sorted o ->
  exists o', set k v (OBJECT o) = OBJECT o' /\ sorted o' /\
    forall k', get k' (OBJECT o') = if bytes_eqb k' k then v else get k' (OBJECT o).
Proof.
  intros Ho. exists (map_set k v o). split; [done|]. split; [by apply map_set_from|].
  intros k'. cbn [get]. rewrite map_find_set by done. unfold bytes_eqb.
  case_bool_decide as Hk; [by subst; rewrite key_cmp_refl|].
  destruct (key_cmp k' k) eqn:Hc; [|done|done]. by apply key_cmp_eq in Hc.
Qed.

(** [operator==] is equality of values, for values without floating-point
    numbers, whatever their nesting. *)
Theorem equal_is_equality v w : number_free v = true -> (equal v w = true <-> v = w).
Proof. intros Hv. by apply equal_spec. Qed.

(* ------------------------------------------------------------------ *)
(** ** Witnesses *)

Lemma object_set_get_witness :
  exists o', set (str "b") TRUE_ (OBJECT [(str "a", NULL_); (str "c", NULL_)]) = OBJECT o' /\
    get (str "b") (OBJECT o') = TRUE_.
Proof.
  destruct (object_set_get [(str "a", NULL_); (str "c", NULL_)] (str "b") TRUE_) as
    (o' & Hs & _ & Hg); [repeat split|].
  exists o'. split; [exact Hs|]. rewrite Hg. reflexivity.
Defined.

Lemma equal_is_equality_witness :
  equal (ARRAY [INTEGER 1; STRING (str "x")]) (ARRAY [INTEGER 1; STRING (str "x")]) = true /\
  ARRAY [INTEGER 1; STRING (str "x")] = ARRAY [INTEGER 1; STRING (str "x")].
Proof.
  split; [reflexivity|].
  apply (equal_is_equality (ARRAY [INTEGER 1; STRING (str "x")])); reflexivity.
Defined.
