(* ===== verification/Cbor.v ===== *)
(** * CBOR

    Models [src/libs/json/cbor-writer.cc] and [cbor-reader.cc] over any channel
    that keeps the contracts of [Chan.v].  The decoder is recursive and loops
    until the end of indefinite containers: it runs on fuel, and one unit more
    than the bytes pending is always enough ([cbor_decode_total]). *)
From S2P Require Export ChanImpl Json.

(** ** [CBORWriter] *)
Module CBORWriter.
Section ops.
Context {W : Type} `{Writer W}.

Definition write_int (v major_type : Z) : M W Error unit :=
  let first_byte := Z.shiftl major_type 5 in
  if v <? 24 then write_byte (Z.lor first_byte v)
  else if v <? 256 then
    write_byte (Z.lor first_byte 24) ;;; write_byte v
  else if v <? 65536 then
    write_byte (Z.lor first_byte 25) ;;; write_nbo_16 v
  else if v <? 4294967296 then
    write_byte (Z.lor first_byte 26) ;;; write_nbo_32 v
  else
    write_byte (Z.lor first_byte 27) ;;; write_nbo_64 v.

(** The STRING and BINARY cases; an object's key is encoded as a STRING. *)
Definition encode_bytes (s : bytes) (major_type : Z) : M W Error unit :=
  write_int (zlen s) major_type ;;; write s.

Section loops.
Context (encode : Value -> M W Error unit).
Fixpoint encode_elements (a : list Value) : M W Error unit :=
  match a with
  | [] => ret tt
  | av :: a => encode av ;;; encode_elements a
  end.
Fixpoint encode_members (o : list (bytes * Value)) : M W Error unit :=
  match o with
  | [] => ret tt
  | (k, v) :: o => encode_bytes k 3 ;;; encode v ;;; encode_members o
  end.
End loops.

Fixpoint encode (v : Value) : M W Error unit :=
  match v with
  | INTEGER n => if n >=? 0 then write_int n 0 else write_int (-1 - n) 1
  | FALSE_ => write_byte 244
  | TRUE_ => write_byte 245
  | NULL_ => write_byte 246
  | UNDEFINED => write_byte 247
  | BINARY s => encode_bytes s 2
  | STRING s => encode_bytes s 3
  | ARRAY a => write_int (zlen a) 4 ;;; encode_elements encode a
  | OBJECT o => write_int (zlen o) 5 ;;; encode_members encode o
  | NUMBER _ | BREAK => ret tt
  end.

Definition open_indefinite_array : M W Error unit := write_byte 159.
Definition close_indefinite_array : M W Error unit := write_byte 255.
End ops.
End CBORWriter.

(** [Value::cbor] *)
Definition cbor (v : Value) : bytes :=
  StringWriter.data (snd (CBORWriter.encode v StringWriter.init)).

(** ** [CBORReader] *)
Module CBORReader.
Section ops.
Context {R : Type} `{Reader R}.

Definition read_int (initial_byte : Z) : M R Error Z :=
  let ai := Z.land initial_byte 31 in
  if ai <? 24 then ret ai
  else if ai =? 24 then read_byte
  else if ai =? 25 then read_nbo_16
  else if ai =? 26 then read_nbo_32
  else if ai =? 27 then read_nbo_64
  else throw (mk_Error 11 (str "Unknown additional information " ++ itos ai)).

Section loops.
Context (decode : M R Error Value).

(** [for(;;) { auto v = decode(); if BREAK break; push_back }] *)
Fixpoint indefinite_array (fuel : nat) (a : list Value) : M R Error Value :=
  match fuel with
  | O => throw out_of_fuel
  | S fuel =>
    let! v := decode in
    match v with
    | BREAK => ret (ARRAY a)
    | _ => indefinite_array fuel (a ++ [v])
    end
  end.

(** [for (auto i = 0u; i < len; i++)]: [i] has 32 bits *)
Fixpoint definite_array (fuel : nat) (i len : Z) (a : list Value) : M R Error Value :=
  if i <? len then
    match fuel with
    | O => throw out_of_fuel
    | S fuel =>
      let! v := decode in
      definite_array fuel (u32 (i + 1)) len (a ++ [v])
    end
  else ret (ARRAY a).

(** One property: [Text::itos] takes an [int]. *)
Definition property (key : Value) (o : list (bytes * Value)) : M R Error (list (bytes * Value)) :=
  match key with
  | STRING s => let! v := decode in ret (map_set s v o)
  | INTEGER n => let! v := decode in ret (map_set (itos (i32 n)) v o)
  | _ => throw (mk_Error 13 (str "Can't handle non-string or integer CBOR object keys"))
  end.

Fixpoint indefinite_object (fuel : nat) (o : list (bytes * Value)) : M R Error Value :=
  match fuel with
  | O => throw out_of_fuel
  | S fuel =>
    let! key := decode in
    match key with
    | BREAK => ret (OBJECT o)
    | _ => let! o := property key o in indefinite_object fuel o
    end
  end.

Fixpoint definite_object (fuel : nat) (i len : Z) (o : list (bytes * Value))
    : M R Error Value :=
  if i <? len then
    match fuel with
    | O => throw out_of_fuel
    | S fuel =>
      let! key := decode in
      let! o := property key o in
      definite_object fuel (u32 (i + 1)) len o
    end
  else ret (OBJECT o).
End loops.

(** [decode] after its first byte; [decode] is the recursive call. *)
Definition decode_major (decode : M R Error Value) (fuel : nat) (initial_byte : Z)
    : M R Error Value :=
  let major_type := Z.shiftr initial_byte 5 in
  if major_type =? 0 then
    let! v := read_int initial_byte in ret (INTEGER (i64 v))
  else if major_type =? 1 then
    let! v := read_int initial_byte in ret (INTEGER (i64 (u64 (-1 - v))))
  else if major_type =? 2 then
    let! len := read_int initial_byte in
    let! s := read_string len in ret (BINARY s)
  else if major_type =? 3 then
    let! len := read_int initial_byte in
    let! s := read_string len in ret (STRING s)
  else if major_type =? 4 then
    if initial_byte =? 159 then indefinite_array decode fuel []
    else
      let! len := read_int initial_byte in definite_array decode fuel 0 len []
  else if major_type =? 5 then
    if initial_byte =? 191 then indefinite_object decode fuel []
    else
      let! len := read_int initial_byte in definite_object decode fuel 0 len []
  else if major_type =? 6 then
    let type := Z.land initial_byte 31 in
    let! type := (if type >? 23 then read_byte else ret type) in
    if type =? 24 then
      let! v := decode in ret (BINARY (cbor v))
    else throw (mk_Error 14 (str "Unhandled tag type " ++ itos type))
  else if major_type =? 7 then
    let t := Z.land initial_byte 31 in
    if t =? 20 then ret FALSE_
    else if t =? 21 then ret TRUE_
    else if t =? 22 then ret NULL_
    else if t =? 23 then ret UNDEFINED
    else if t =? 31 then ret BREAK
    else throw (mk_Error 12 (str "Unhandled float/simple type " ++ itos t))
  else throw (mk_Error 10 (str "Unhandled major type " ++ itos major_type)).

Fixpoint decode (fuel : nat) : M R Error Value :=
  match fuel with
  | O => throw out_of_fuel
  | S fuel =>
    let! initial_byte := read_byte in
    decode_major (decode fuel) fuel initial_byte
  end.

Definition open_indefinite_array : M R Error bool :=
  let! b := read_byte in ret (b =? 159).
End ops.
End CBORReader.

(** ** Specification: the bytes of a value (RFC 8949) *)

Definition cbor_head (major v : Z) : bytes :=
  if v <? 24 then [major * 32 + v]
  else if v <? 256 then [major * 32 + 24; v]
  else if v <? 65536 then (major * 32 + 25) :: hton 2 v
  else if v <? 4294967296 then (major * 32 + 26) :: hton 4 v
  else (major * 32 + 27) :: hton 8 v.

Fixpoint cbor_bytes (v : Value) : bytes :=
  match v with
  | INTEGER n => if n >=? 0 then cbor_head 0 n else cbor_head 1 (-1 - n)
  | FALSE_ => [244]
  | TRUE_ => [245]
  | NULL_ => [246]
  | UNDEFINED => [247]
  | BINARY s => cbor_head 2 (zlen s) ++ s
  | STRING s => cbor_head 3 (zlen s) ++ s
  | ARRAY a => cbor_head 4 (zlen a) ++ flat_map cbor_bytes a
  | OBJECT o => cbor_head 5 (zlen o) ++
      flat_map (fun kv => (cbor_head 3 (zlen (fst kv)) ++ fst kv) ++ cbor_bytes (snd kv)) o
  | NUMBER _ | BREAK => []
  end.

(** The values that CBOR can carry here: strings and containers of a size that
    the code counts, objects in key order; no floating-point numbers. *)
Definition text_ok (s : bytes) : Prop := bytes_ok s /\ zlen s < 2 ^ 64.
#[local] Unset Elimination Schemes.
Inductive encodable : Value -> Prop :=
  | enc_undefined : encodable UNDEFINED
  | enc_null : encodable NULL_
  | enc_true : encodable TRUE_
  | enc_false : encodable FALSE_
  | enc_integer n : in_s 64 n -> encodable (INTEGER n)
  | enc_string s : text_ok s -> encodable (STRING s)
  | enc_binary s : text_ok s -> encodable (BINARY s)
  | enc_array a : zlen a < 2 ^ 32 -> Forall encodable a -> encodable (ARRAY a)
  | enc_object o : zlen o < 2 ^ 32 -> sorted o -> Forall (fun kv => text_ok (fst kv)) o ->
      Forall (fun kv => encodable (snd kv)) o -> encodable (OBJECT o).
#[local] Set Elimination Schemes.

(* ------------------------------------------------------------------ *)
(** ** Lemmas *)

Lemma hton_small k n : hton k (wrap (8 * Z.of_nat k) n) = hton k n.
Proof.
  unfold hton, zseq. rewrite !map_map. apply map_ext_in. intros i Hi. apply in_seq in Hi.
  apply u8_shiftr_wrap; lia.
Qed.

Lemma head_byte major x : 0 <= major -> 0 <= x < 32 ->
  Z.lor (Z.shiftl major 5) x = major * 32 + x.
Proof. intros. by rewrite lor_add. Qed.

Lemma head_bytes_ok major v : 0 <= major < 8 -> 0 <= v -> bytes_ok (cbor_head major v).
Proof.
  intros Hm Hv. unfold cbor_head, byte_ok.
  repeat match goal with |- context [if ?a <? ?b then _ else _] => destruct (Z.ltb_spec a b) end;
    repeat constructor; unfold byte_ok; try lia; apply byte_ok_u8.
Qed.

Section writes_cbor.
Context {W : Type} `{WriterLaws W}.

Lemma writes_int v major : in_u 64 v -> 0 <= major < 8 ->
  writes (CBORWriter.write_int v major) (cbor_head major v).
Proof.
  intros Hv Hm. unfold in_u in Hv. unfold CBORWriter.write_int, cbor_head.
  destruct (Z.ltb_spec v 24).
  { eapply writes_eq; [apply writes_byte|]. rewrite head_byte, u8_small by (unfold byte_ok; lia).
    done. }
  destruct (Z.ltb_spec v 256).
  { eapply writes_eq; [apply writes_bind; apply writes_byte|].
    by rewrite head_byte, !u8_small by (unfold byte_ok; lia). }
  destruct (Z.ltb_spec v 65536).
  { eapply writes_eq; [apply writes_bind; [apply writes_byte|apply writes_nbo_16]|].
    rewrite head_byte, u8_small by (unfold byte_ok; lia). by rewrite (hton_small 2). }
  destruct (Z.ltb_spec v 4294967296).
  { eapply writes_eq; [apply writes_bind; [apply writes_byte|apply writes_nbo_32]|].
    rewrite head_byte, u8_small by (unfold byte_ok; lia). by rewrite (hton_small 4). }
  eapply writes_eq; [apply writes_bind; [apply writes_byte|by apply writes_nbo_64]|].
  by rewrite head_byte, u8_small by (unfold byte_ok; lia).
Qed.

Lemma writes_bytes s major : text_ok s -> 0 <= major < 8 ->
  writes (CBORWriter.encode_bytes s major) (cbor_head major (zlen s) ++ s).
Proof.
  intros [Hs Hl] Hm. pose proof (zlen_nonneg s). apply writes_bind.
  - apply writes_int; [unfold in_u; lia|done].
  - by apply writes_basic.
Qed.

Lemma encode_writes v : encodable v -> writes (CBORWriter.encode v) (cbor_bytes v).
Proof.
  induction v as [| | | | |o IH|a IH| | | |] using Value_nested_ind; intros Hv;
    inversion_clear Hv; cbn [CBORWriter.encode cbor_bytes];
    try (eapply writes_eq; [apply writes_byte|done]);
    try (by apply writes_bytes).
  - unfold in_s in *. change (2 ^ (64 - 1)) with (2 ^ 63) in *. rewrite Z.geb_leb.
    destruct (Z.leb_spec 0 n); apply writes_int; unfold in_u; lia.
  - apply writes_bind; [apply writes_int; [unfold in_u; pose proof (zlen_nonneg o); lia|lia]|].
    match goal with
    | Hk : Forall (fun kv => text_ok (fst kv)) o, Ho : Forall (fun kv => encodable (snd kv)) o
      |- _ => revert Hk Ho end.
    clear -IH. induction IH as [|[k x] o Hx IHo IH]; intros Hk Ho; cbn [flat_map fst snd].
    + apply writes_nil.
    + apply Forall_cons in Hk as [Hk Hk'], Ho as [Ho Ho'].
      rewrite <- app_assoc. cbn [CBORWriter.encode_members].
      apply writes_bind; [by apply writes_bytes|]. apply writes_bind; [by apply Hx|by apply IH].
  - apply writes_bind; [apply writes_int; [unfold in_u; pose proof (zlen_nonneg a); lia|lia]|].
    match goal with Ha : Forall encodable a |- _ => revert Ha end.
    clear -IH. induction IH as [|x a Hx IHa IH]; intros Ha; cbn [flat_map].
    + apply writes_nil.
    + apply Forall_cons in Ha as [Hx' Ha']. apply writes_bind; [by apply Hx|by apply IH].
Qed.
End writes_cbor.

(** *** Reading a value back *)
Section reads_cbor.
Context {R : Type} `{ReaderLaws R} `{!ReadsNothing R}.

Lemma land_31 major x : 0 <= x < 32 -> Z.land (major * 32 + x) 31 = x.
Proof.
  intros Hx. change 31 with (Z.ones 5). rewrite Z.land_ones by lia. change (2 ^ 5) with 32.
  rewrite Z.add_comm, Z.mod_add by lia. by apply Z.mod_small.
Qed.

Lemma shiftr_5 major x : 0 <= x < 32 -> Z.shiftr (major * 32 + x) 5 = major.
Proof.
  intros Hx. rewrite Z.shiftr_div_pow2 by lia. change (2 ^ 5) with 32.
  rewrite Z.add_comm, Z.div_add, Z.div_small by lia. lia.
Qed.

(** The first byte of an integer's encoding, and [read_int] of the others. *)
Lemma head_reads major v : in_u 64 v ->
  exists x tl, cbor_head major v = (major * 32 + x) :: tl /\ 0 <= x < 28 /\
    forall s rest, r_ok s -> pending s = tl ++ rest ->
      reads (CBORReader.read_int (major * 32 + x)) s v rest.
Proof.
  intros Hv. unfold in_u in Hv. unfold cbor_head, CBORReader.read_int.
  repeat match goal with |- context [if ?a <? ?b then _ else _] => destruct (Z.ltb_spec a b) end.
  - exists v, []. split; [done|]. split; [lia|]. intros s rest Hok Hp.
    rewrite land_31 by lia. destruct (Z.ltb_spec v 24); [|lia]. by apply reads_ret.
  - exists 24, [v]. split; [done|]. split; [lia|]. intros s rest Hok Hp.
    rewrite land_31 by lia. by apply reads_byte.
  - exists 25, (hton 2 v). split; [done|]. split; [lia|]. intros s rest Hok Hp.
    rewrite land_31 by lia. change (25 <? 24) with false. cbn [Z.eqb Pos.eqb].
    pose proof (reads_field nbo s (hton 2 v) rest 2 Hok Hp) as Hrd.
    rewrite nbo_hton, wrap_small in Hrd by (unfold in_u; lia). by apply Hrd.
  - exists 26, (hton 4 v). split; [done|]. split; [lia|]. intros s rest Hok Hp.
    rewrite land_31 by lia. change (26 <? 24) with false. cbn [Z.eqb Pos.eqb].
    apply read_nbo_32_hton; [unfold in_u; lia|done|done].
  - exists 27, (hton 8 v). split; [done|]. split; [lia|]. intros s rest Hok Hp.
    rewrite land_31 by lia. change (27 <? 24) with false. cbn [Z.eqb Pos.eqb].
    apply read_nbo_64_hton; [unfold in_u; lia|done|done].
Qed.

Lemma decode_S fuel : CBORReader.decode (R := R) (S fuel) =
  let! ib := read_byte in CBORReader.decode_major (CBORReader.decode fuel) fuel ib.
Proof. done. Qed.

(** [decode] on an encoded head of major type [major]. *)
Lemma decode_at_head major v fuel s rest w rest' :
  in_u 64 v -> r_ok s -> pending s = cbor_head major v ++ rest ->
  (forall x s1, 0 <= x < 28 -> r_ok s1 -> (length (pending s1) < length (pending s))%nat ->
     (exists tl, pending s1 = tl ++ rest /\ reads (CBORReader.read_int (major * 32 + x)) s1 v rest) ->
     reads (CBORReader.decode_major (CBORReader.decode fuel) fuel (major * 32 + x)) s1 w rest') ->
  reads (CBORReader.decode (S fuel)) s w rest'.
Proof.
  intros Hv Hok Hp Hk. destruct (head_reads major v Hv) as (x & tl & Hh & Hx & Hr).
  rewrite Hh in Hp. cbn [app] in Hp. cbn [CBORReader.decode].
  eapply reads_bind; [by apply reads_byte|]. intros s1 Hok1 Hp1.
  apply Hk; try done.
  - rewrite Hp1, Hp. simpl. lia.
  - exists tl. split; [done|]. by apply Hr.
Qed.

Lemma head_nonempty major v : (0 < length (cbor_head major v))%nat.
Proof.
  unfold cbor_head.
  repeat match goal with |- context [if ?c then _ else _] => destruct c end; simpl; lia.
Qed.

Lemma bytes_nonempty v : encodable v -> (0 < length (cbor_bytes v))%nat.
Proof.
  destruct 1; cbn [cbor_bytes]; rewrite ?length_app; try (simpl; lia);
    try (match goal with |- context [cbor_head ?m ?v] =>
      pose proof (head_nonempty m v) end; lia).
  destruct (n >=? 0); apply head_nonempty.
Qed.

(** What [decode] does by major type. *)
Local Ltac by_major :=
  intros; unfold CBORReader.decode_major; rewrite shiftr_5 by lia; cbn [Z.eqb Pos.eqb];
  try reflexivity.

Lemma decode_0 d f x : 0 <= x < 28 -> CBORReader.decode_major (R := R) d f (0 * 32 + x) =
  let! v := CBORReader.read_int (0 * 32 + x) in ret (INTEGER (i64 v)).
Proof. by_major. Qed.
Lemma decode_1 d f x : 0 <= x < 28 -> CBORReader.decode_major (R := R) d f (1 * 32 + x) =
  let! v := CBORReader.read_int (1 * 32 + x) in ret (INTEGER (i64 (u64 (-1 - v)))).
Proof. by_major. Qed.
Lemma decode_2 d f x : 0 <= x < 28 -> CBORReader.decode_major (R := R) d f (2 * 32 + x) =
  let! len := CBORReader.read_int (2 * 32 + x) in
  let! s := read_string len in ret (BINARY s).
Proof. by_major. Qed.
Lemma decode_3 d f x : 0 <= x < 28 -> CBORReader.decode_major (R := R) d f (3 * 32 + x) =
  let! len := CBORReader.read_int (3 * 32 + x) in
  let! s := read_string len in ret (STRING s).
Proof. by_major. Qed.
Lemma decode_4 d f x : 0 <= x < 28 -> CBORReader.decode_major (R := R) d f (4 * 32 + x) =
  let! len := CBORReader.read_int (4 * 32 + x) in CBORReader.definite_array d f 0 len [].
Proof. by_major. by rewrite (proj2 (Z.eqb_neq _ _)) by lia. Qed.
Lemma decode_5 d f x : 0 <= x < 28 -> CBORReader.decode_major (R := R) d f (5 * 32 + x) =
  let! len := CBORReader.read_int (5 * 32 + x) in CBORReader.definite_object d f 0 len [].
Proof. by_major. by rewrite (proj2 (Z.eqb_neq _ _)) by lia. Qed.

(** A string, which is also how a key is encoded. *)
Lemma decode_text fuel s t rest :
  text_ok t -> r_ok s -> pending s = (cbor_head 3 (zlen t) ++ t) ++ rest ->
  reads (CBORReader.decode (S fuel)) s (STRING t) rest.
Proof using ReadsNothing0.
  intros [Ht Hl] Hok Hp. pose proof (zlen_nonneg t). rewrite <- app_assoc in Hp.
  eapply decode_at_head; [|done|exact Hp|]; [unfold in_u; lia|].
  intros x s1 Hx Hok1 _ (tl & Hp1 & Hr). rewrite decode_3 by done.
  eapply reads_bind; [exact Hr|]. intros s2 Hok2 Hp2.
  eapply reads_bind; [by eapply reads_read_string|]. intros. by apply reads_ret.
Qed.

(** The loops over the elements of a container, given what [decode] does on each. *)
Definition decodes (fuel : nat) (v : Value) : Prop := forall s rest,
  (length (pending s) < fuel)%nat -> r_ok s -> pending s = cbor_bytes v ++ rest ->
  reads (CBORReader.decode fuel) s v rest.

Lemma definite_array_reads fuel a : forall f i acc s rest,
  Forall encodable a -> Forall (decodes fuel) a ->
  (length (pending s) <= f)%nat -> (length (pending s) < fuel)%nat ->
  0 <= i -> i + zlen a < 2 ^ 32 -> r_ok s -> pending s = flat_map cbor_bytes a ++ rest ->
  reads (CBORReader.definite_array (CBORReader.decode fuel) f i (i + zlen a) acc) s
    (ARRAY (acc ++ a)) rest.
Proof.
  induction a as [|v a IH]; intros f i acc s rest He Hd Hf Hfuel Hi Hlt Hok Hp.
  - rewrite zlen_nil, Z.add_0_r, app_nil_r. destruct f; cbn [CBORReader.definite_array];
      rewrite Z.ltb_irrefl; by apply reads_ret.
  - apply Forall_cons in He as [He He'], Hd as [Hd Hd'].
    cbn [flat_map] in Hp. rewrite <- app_assoc in Hp. rewrite zlen_cons in *.
    pose proof (zlen_nonneg a). pose proof (bytes_nonempty v He).
    assert (length (pending s) = length (cbor_bytes v) + length (flat_map cbor_bytes a ++ rest))%nat
      as Hlen by by rewrite Hp, length_app.
    destruct f as [|f]; [lia|]. cbn [CBORReader.definite_array].
    rewrite (proj2 (Z.ltb_lt _ _)) by lia.
    eapply reads_bind; [by apply Hd|]. intros s1 Hok1 Hp1.
    rewrite wrap_small by (unfold in_u; lia).
    replace (i + (1 + zlen a)) with (i + 1 + zlen a) by lia.
    replace (acc ++ v :: a) with ((acc ++ [v]) ++ a) by by rewrite <- app_assoc.
    apply IH; try done; rewrite ?Hp1; lia.
Qed.

Lemma definite_object_reads fuel o : forall f i acc s rest,
  Forall (fun kv => text_ok (fst kv)) o -> Forall (fun kv => encodable (snd kv)) o ->
  Forall (fun kv => decodes fuel (snd kv)) o -> sorted (acc ++ o) ->
  (length (pending s) <= f)%nat -> (length (pending s) < fuel)%nat ->
  0 <= i -> i + zlen o < 2 ^ 32 -> r_ok s ->
  pending s = flat_map (fun kv => (cbor_head 3 (zlen (fst kv)) ++ fst kv) ++ cbor_bytes (snd kv)) o
    ++ rest ->
  reads (CBORReader.definite_object (CBORReader.decode fuel) f i (i + zlen o) acc) s
    (OBJECT (acc ++ o)) rest.
Proof using ReadsNothing0.
  induction o as [|[k v] o IH]; intros f i acc s rest Ht He Hd Hs Hf Hfuel Hi Hlt Hok Hp.
  - rewrite zlen_nil, Z.add_0_r, app_nil_r. destruct f; cbn [CBORReader.definite_object];
      rewrite Z.ltb_irrefl; by apply reads_ret.
  - apply Forall_cons in He as [He He'], Hd as [Hd Hd'], Ht as [Ht Ht'].
    cbn [flat_map fst snd] in *. rewrite <- !app_assoc, app_assoc in Hp.
    rewrite zlen_cons in *.
    pose proof (zlen_nonneg o). pose proof (head_nonempty 3 (zlen k)).
    set (tail := flat_map _ o ++ rest) in *.
    assert (length (pending s) = length (cbor_head 3 (zlen k)) + length k +
      length (cbor_bytes v ++ tail))%nat as Hlen by (rewrite Hp, !length_app; lia).
    assert (length (cbor_bytes v ++ tail) = length (cbor_bytes v) + length tail)%nat as Hlen2
      by by rewrite length_app.
    destruct f as [|f]; [lia|]. destruct fuel as [|fuel]; [lia|].
    cbn [CBORReader.definite_object]. rewrite (proj2 (Z.ltb_lt _ _)) by lia.
    eapply reads_bind; [by apply decode_text|]. intros s1 Hok1 Hp1.
    cbn [CBORReader.property].
    eapply reads_bind.
    { eapply reads_bind; [apply Hd; [rewrite Hp1; lia|done|exact Hp1]|].
      intros. by apply reads_ret. }
    intros s2 Hok2 Hp2. rewrite wrap_small by (unfold in_u; lia).
    rewrite (map_set_snoc k v acc None) by by eapply keys_from_prefix.
    replace (i + (1 + zlen o)) with (i + 1 + zlen o) by lia.
    replace (acc ++ (k, v) :: o) with ((acc ++ [(k, v)]) ++ o) by by rewrite <- app_assoc.
    apply IH; try done; rewrite ?Hp2; try lia. by rewrite <- app_assoc.
Qed.

(** Decoding inverts encoding, for every channel and fuel above the bytes pending. *)
Lemma decode_cbor_bytes v : encodable v -> forall fuel, decodes fuel v.
Proof using ReadsNothing0.
  induction v as [| | |n|t|o IH|a IH| | |t|] using Value_nested_ind; intros Hv fuel;
    inversion_clear Hv; intros s rest Hfuel Hok Hp; (destruct fuel as [|fuel]; [lia|]);
    cbn [cbor_bytes] in Hp;
    try (cbn [CBORReader.decode]; eapply reads_bind; [by apply reads_byte|];
         intros s1 Hok1 Hp1; by apply reads_ret).
  - unfold in_s in *. change (2 ^ (64 - 1)) with (2 ^ 63) in *. rewrite Z.geb_leb in Hp.
    destruct (Z.leb_spec 0 n).
    + eapply decode_at_head; [|done|exact Hp|]; [unfold in_u; lia|].
      intros x s1 Hx Hok1 _ (tl & Hp1 & Hr). rewrite decode_0 by done.
      eapply reads_bind; [exact Hr|]. intros s2 Hok2 Hp2.
      rewrite swrap_small by (unfold in_s; lia). by apply reads_ret.
    + eapply decode_at_head; [|done|exact Hp|]; [unfold in_u; lia|].
      intros x s1 Hx Hok1 _ (tl & Hp1 & Hr). rewrite decode_1 by done.
      eapply reads_bind; [exact Hr|]. intros s2 Hok2 Hp2.
      replace (-1 - (-1 - n)) with n by lia.
      assert (i64 (u64 n) = n) as ->; [|by apply reads_ret].
      assert (u64 n = n + 2 ^ 64) as -> by (symmetry; apply (Z.mod_unique_pos _ _ (-1)); lia).
      unfold swrap. change (2 ^ (64 - 1)) with (2 ^ 63).
      rewrite <- (Z.mod_unique_pos (n + 2 ^ 64 + 2 ^ 63) (2 ^ 64) 1 (n + 2 ^ 63)); lia.
  - by apply decode_text.
  - rewrite <- app_assoc in Hp. pose proof (zlen_nonneg o).
    eapply decode_at_head; [|done|exact Hp|]; [unfold in_u; lia|].
    intros x s1 Hx Hok1 Hl1 (tl & Hp1 & Hr). rewrite decode_5 by done.
    eapply reads_bind; [exact Hr|]. intros s2 Hok2 Hp2.
    assert (length (pending s2) <= length (pending s1))%nat
      by (rewrite Hp1, Hp2, !length_app; lia).
    apply (definite_object_reads fuel o fuel 0 []); try done; try lia.
    match goal with He : Forall (fun kv => encodable (snd kv)) o |- _ => revert He end.
    clear -IH ReadsNothing0. induction IH as [|kv o Hkv Ho IH]; intros He; [done|].
    apply Forall_cons in He as [He He']. constructor; [by apply Hkv|by apply IH].
  - rewrite <- app_assoc in Hp. pose proof (zlen_nonneg a).
    eapply decode_at_head; [|done|exact Hp|]; [unfold in_u; lia|].
    intros x s1 Hx Hok1 Hl1 (tl & Hp1 & Hr). rewrite decode_4 by done.
    eapply reads_bind; [exact Hr|]. intros s2 Hok2 Hp2.
    assert (length (pending s2) <= length (pending s1))%nat
      by (rewrite Hp1, Hp2, !length_app; lia).
    apply (definite_array_reads fuel a fuel 0 []); try done; try lia.
    match goal with He : Forall encodable a |- _ => revert He end.
    clear -IH ReadsNothing0. induction IH as [|x a Hx Ha IH]; intros He; [done|].
    apply Forall_cons in He as [He He']. constructor; [by apply Hx|by apply IH].
  - destruct (ltac:(done) : text_ok t) as [Ht Hl]. pose proof (zlen_nonneg t).
    rewrite <- app_assoc in Hp.
    eapply decode_at_head; [|done|exact Hp|]; [unfold in_u; lia|].
    intros x s1 Hx Hok1 _ (tl & Hp1 & Hr). rewrite decode_2 by done.
    eapply reads_bind; [exact Hr|]. intros s2 Hok2 Hp2.
    eapply reads_bind; [by eapply reads_read_string|]. intros. by apply reads_ret.
Qed.
End reads_cbor.

(** *** Decoding any input ends *)
Section total.
Context {R : Type} `{ReaderLaws R} `{!ReadsNothing R}.

(** [m] either returns, with a value of [P] and having consumed at least [n]
    bytes, or throws one of the code's exceptions (not the one for missing fuel). *)
Definition runs {A} (m : M R Error A) (s : R) (n : nat) (P : A -> Prop) : Prop :=
  exists r s' d, m s = (r, s') /\ r_ok s' /\ pending s = d ++ pending s' /\
    match r with Val a => P a /\ (n <= length d)%nat | Throw e => 0 <= error e end.

Lemma runs_ret {A} (a : A) s (P : A -> Prop) : r_ok s -> P a -> runs (ret a) s 0 P.
Proof. intros. by exists (Val a), s, []. Qed.

Lemma runs_throw {A} e s n (P : A -> Prop) : r_ok s -> 0 <= error e -> runs (throw e) s n P.
Proof. intros. by exists (Throw e), s, []. Qed.

Lemma runs_bind {A B} (m : M R Error A) (k : A -> M R Error B) s n n' (P : A -> Prop) Q :
  runs m s n P ->
  (forall a s', P a -> r_ok s' -> (length (pending s') + n <= length (pending s))%nat ->
     runs (k a) s' n' Q) ->
  runs (bind m k) s (n + n') Q.
Proof.
  intros (r & s1 & d1 & Hm & Hok1 & Hp1 & Hr) Hk. destruct r as [a|e].
  - destruct Hr as [Ha Hn]. destruct (Hk a s1 Ha Hok1) as (r & s2 & d2 & Hk2 & Hok2 & Hp2 & Hr).
    { rewrite Hp1, length_app. lia. }
    exists r, s2, (d1 ++ d2). rewrite (bind_val _ _ _ _ _ Hm). split_and!; try done.
    + by rewrite Hp1, Hp2, app_assoc.
    + destruct r; [|done]. rewrite length_app. split; [tauto|]. lia.
  - exists (Throw e), s1, d1. by rewrite (bind_throw _ _ _ _ _ Hm).
Qed.

Lemma runs_bind_0 {A B} (m : M R Error A) (k : A -> M R Error B) s n (P : A -> Prop) Q :
  runs m s n P ->
  (forall a s', P a -> r_ok s' -> (length (pending s') + n <= length (pending s))%nat ->
     runs (k a) s' 0 Q) ->
  runs (bind m k) s n Q.
Proof. intros Hm Hk. rewrite <- (Nat.add_0_r n). by eapply runs_bind. Qed.

Lemma runs_weaken {A} (m : M R Error A) s n n' (P Q : A -> Prop) :
  runs m s n P -> (n' <= n)%nat -> (forall a, P a -> Q a) -> runs m s n' Q.
Proof.
  intros (r & s1 & d & Hm & Hok & Hp & Hr) Hle HPQ. exists r, s1, d. split_and!; try done.
  destruct r; [|done]. destruct Hr. split; [by apply HPQ|lia].
Qed.

Lemma runs_bind_any {A B} (m : M R Error A) (k : A -> M R Error B) s n (P : A -> Prop) Q :
  runs m s n P ->
  (forall a s', P a -> r_ok s' -> (length (pending s') + n <= length (pending s))%nat ->
     runs (k a) s' 0 Q) ->
  runs (bind m k) s 0 Q.
Proof.
  intros Hm Hk. eapply runs_weaken; [by eapply runs_bind_0|apply Nat.le_0_l|done].
Qed.

Lemma delivers_runs (op : Z -> M R Error (option bytes)) s n what :
  r_ok s -> delivers r_ok pending get_offset op s n -> 0 < n ->
  runs (let! r := op n in
        match r with Some d => ret d | None => throw (mk_Error 0 what) end)
    s (Z.to_nat n) (fun d => bytes_ok d).
Proof.
  intros Hok (s' & Hok' & [(Hle & Hr & Hp & _)|[(Hnil & Hr & Hp & _)|
    (Hne & Hlt & Hp & e & Hr & He)]]) Hn.
  - eexists (Val _), s', (ztake n (pending s)). rewrite (bind_val _ _ _ _ _ Hr), Hp, ztake_zdrop.
    split_and!; try done.
    + apply Forall_take. by apply pending_bytes.
    + unfold ztake, zlen in *. rewrite length_take. lia.
  - eexists (Throw _), s', []. rewrite (bind_val _ _ _ _ _ Hr), Hp, Hnil. done.
  - exists (Throw e), s', (pending s). rewrite (bind_throw _ _ _ _ _ Hr), Hp, app_nil_r.
    split_and!; try done. lia.
Qed.

Lemma runs_read s n : r_ok s -> 0 < n -> runs (read n) s (Z.to_nat n) (fun d => bytes_ok d).
Proof. intros. apply delivers_runs; [done|by apply try_read_law|done]. Qed.

Lemma runs_read_string s n : r_ok s -> 0 <= n -> runs (read_string n) s 0 (fun _ => True).
Proof using ReadsNothing0.
  intros Hok Hn. destruct (Z.eq_dec n 0) as [->|].
  - exists (Val []), s, []. unfold read_string.
    by rewrite (bind_val _ _ _ _ _ (try_read_string_0 s Hok)).
  - eapply runs_weaken; [apply delivers_runs; [done|by apply try_read_string_law; [|lia]|lia]
      |lia|done].
Qed.

Lemma nbo_nonneg l : bytes_ok l -> 0 <= nbo l.
Proof.
  intros Hl. induction l as [|b l IH] using rev_ind; [done|].
  apply Forall_app in Hl as [Hl Hb]. apply Forall_cons in Hb as [Hb _]. unfold byte_ok in Hb.
  rewrite nbo_snoc. specialize (IH Hl). lia.
Qed.

Lemma runs_byte s : r_ok s -> runs read_byte s 1 byte_ok.
Proof.
  intros Hok. eapply runs_bind_0; [by apply (runs_read s 1)|]. intros d s' Hd Hok' Hl.
  apply runs_ret; [done|]. destruct Hd as [|b d Hb Hd]; [|done].
  unfold byte_ok. change (zget 0 [] 0) with 0. lia.
Qed.

Lemma runs_nbo s n : r_ok s -> 0 < n ->
  runs (let! d := read n in ret (nbo d)) s 0 (fun v => 0 <= v).
Proof.
  intros Hok Hn. eapply runs_bind_any; [by apply runs_read|].
  intros d s' Hd Hok' _. apply runs_ret; [done|by apply nbo_nonneg].
Qed.

Lemma runs_read_int s ib : r_ok s -> runs (CBORReader.read_int ib) s 0 (fun v => 0 <= v).
Proof.
  intros Hok. unfold CBORReader.read_int.
  assert (0 <= Z.land ib 31).
  { change 31 with (Z.ones 5). rewrite Z.land_ones by lia. by apply Z.mod_pos_bound. }
  repeat match goal with |- context [if ?c then _ else _] => destruct c end.
  - by apply runs_ret.
  - eapply runs_weaken; [by apply runs_byte|lia|]. unfold byte_ok. lia.
  - by apply runs_nbo.
  - by apply runs_nbo.
  - eapply (runs_bind_0 _ _ _ 0 (fun v => 0 <= v)); [by apply (runs_nbo s 4)|].
    intros n s1 Hn Hok1 _.
    eapply (runs_bind_0 _ _ _ 0 (fun v => 0 <= v)); [by apply (runs_nbo s1 4)|].
    intros m s2 Hm Hok2 _. apply runs_ret; [done|].
    pose proof (wrap_range 64 (u64 (Z.shiftl n 32) + m) ltac:(lia)) as Hr. unfold in_u in Hr. lia.
  - by apply runs_throw.
Qed.

(** The loops, if [decode] runs on fewer bytes than [bound]. *)
Section loops.
Context (decode : M R Error Value) (bound : nat).
Context (Hdecode : forall s, r_ok s -> (length (pending s) < bound)%nat ->
  runs decode s 1 (fun _ => True)).

Lemma runs_property key o s : r_ok s -> (length (pending s) < bound)%nat ->
  runs (CBORReader.property decode key o) s 0 (fun _ => True).
Proof using Hdecode.
  intros Hok Hl. unfold CBORReader.property.
  destruct key; try (by apply runs_throw);
    (eapply runs_bind_any; [by apply Hdecode|]; intros; by apply runs_ret).
Qed.

Lemma runs_indefinite_array f : forall a s,
  r_ok s -> (length (pending s) < f)%nat -> (length (pending s) < bound)%nat ->
  runs (CBORReader.indefinite_array decode f a) s 0 (fun _ => True).
Proof using Hdecode.
  induction f as [|f IH]; intros a s Hok Hf Hb; [lia|]. cbn [CBORReader.indefinite_array].
  eapply runs_bind_any; [by apply Hdecode|].
  intros v s1 _ Hok1 Hl1.
  destruct v; try (by apply runs_ret); apply IH; try done; lia.
Qed.

Lemma runs_definite_array f : forall i len a s,
  r_ok s -> (length (pending s) < f)%nat -> (length (pending s) < bound)%nat ->
  runs (CBORReader.definite_array decode f i len a) s 0 (fun _ => True).
Proof using Hdecode.
  induction f as [|f IH]; intros i len a s Hok Hf Hb; [lia|]. cbn [CBORReader.definite_array].
  destruct (i <? len); [|by apply runs_ret].
  eapply runs_bind_any; [by apply Hdecode|].
  intros v s1 _ Hok1 Hl1. apply IH; try done; lia.
Qed.

Lemma runs_indefinite_object f : forall o s,
  r_ok s -> (length (pending s) < f)%nat -> (length (pending s) < bound)%nat ->
  runs (CBORReader.indefinite_object decode f o) s 0 (fun _ => True).
Proof using Hdecode.
  induction f as [|f IH]; intros o s Hok Hf Hb; [lia|]. cbn [CBORReader.indefinite_object].
  eapply runs_bind_any; [by apply Hdecode|].
  intros key s1 _ Hok1 Hl1.
  destruct key; try (by apply runs_ret);
    (eapply runs_bind_0; [apply runs_property; [done|lia]|];
     intros o' s2 _ Hok2 Hl2; apply IH; try done; lia).
Qed.

Lemma runs_definite_object f : forall i len o s,
  r_ok s -> (length (pending s) < f)%nat -> (length (pending s) < bound)%nat ->
  runs (CBORReader.definite_object decode f i len o) s 0 (fun _ => True).
Proof using Hdecode.
  induction f as [|f IH]; intros i len o s Hok Hf Hb; [lia|]. cbn [CBORReader.definite_object].
  destruct (i <? len); [|by apply runs_ret].
  eapply runs_bind_any; [by apply Hdecode|].
  intros key s1 _ Hok1 Hl1.
  eapply runs_bind_0; [apply runs_property; [done|lia]|].
  intros o' s2 _ Hok2 Hl2. apply IH; try done; lia.
Qed.
End loops.

Lemma runs_decode fuel : forall s, r_ok s -> (length (pending s) < fuel)%nat ->
  runs (CBORReader.decode fuel) s 1 (fun _ => True).
Proof using ReadsNothing0.
  induction fuel as [|fuel IH]; intros s Hok Hf; [lia|]. cbn [CBORReader.decode].
  eapply runs_bind_0; [by apply runs_byte|]. intros ib s1 Hib Hok1 Hl1.
  assert (forall B (k : Z -> M R Error B) Q,
    (forall v s', 0 <= v -> r_ok s' -> (length (pending s') <= length (pending s1))%nat ->
       runs (k v) s' 0 Q) -> runs (bind (CBORReader.read_int ib) k) s1 0 Q) as Hint.
  { intros B k Q Hk. eapply runs_bind_0; [by apply runs_read_int|].
    intros v s' Hv Hok' Hl. apply Hk; try done. lia. }
  unfold CBORReader.decode_major.
  destruct (_ =? 0); [apply Hint; intros; by apply runs_ret|].
  destruct (_ =? 1); [apply Hint; intros; by apply runs_ret|].
  destruct (_ =? 2).
  { apply Hint. intros. eapply runs_bind_0; [by apply runs_read_string|].
    intros. by apply runs_ret. }
  destruct (_ =? 3).
  { apply Hint. intros. eapply runs_bind_0; [by apply runs_read_string|].
    intros. by apply runs_ret. }
  destruct (_ =? 4).
  { destruct (ib =? 159); [eapply runs_indefinite_array; [exact IH|done|lia|lia]|].
    apply Hint. intros. eapply runs_definite_array; [exact IH|done|lia|lia]. }
  destruct (_ =? 5).
  { destruct (ib =? 191); [eapply runs_indefinite_object; [exact IH|done|lia|lia]|].
    apply Hint. intros. eapply runs_definite_object; [exact IH|done|lia|lia]. }
  destruct (_ =? 6).
  { eapply (runs_bind_0 _ _ _ 0 (fun _ => True)).
    - destruct (_ >? 23); [|by apply runs_ret].
      eapply runs_weaken; [by apply runs_byte|lia|done].
    - intros ty s2 _ Hok2 Hl2. destruct (ty =? 24); [|by apply runs_throw].
      eapply runs_bind_any; [apply IH; [done|lia]|]. intros. by apply runs_ret. }
  destruct (_ =? 7); [|by apply runs_throw].
  repeat match goal with |- context [if ?c then _ else _] => destruct c end;
    (by apply runs_ret) || (by apply runs_throw).
Qed.
End total.

(** *** Indefinite arrays *)
Section indefinite.
Context {R W : Type} `{ReaderLaws R} `{!ReadsNothing R} `{WriterLaws W}.

(** What a client does: open, write any number of values, close. *)
Definition write_indefinite (a : list Value) : M W Error unit :=
  CBORWriter.open_indefinite_array ;;;
  CBORWriter.encode_elements CBORWriter.encode a ;;;
  CBORWriter.close_indefinite_array.

Lemma elements_writes a : Forall encodable a ->
  writes (CBORWriter.encode_elements CBORWriter.encode a) (flat_map cbor_bytes a).
Proof using Type.
  induction 1 as [|v a Hv Ha IH]; [apply writes_nil|].
  apply writes_bind; [by apply encode_writes|done].
Qed.

Lemma indefinite_array_reads fuel a : forall f acc s rest,
  Forall encodable a -> (length (pending s) <= f)%nat -> (length (pending s) < fuel)%nat ->
  r_ok s -> pending s = flat_map cbor_bytes a ++ 255 :: rest ->
  reads (CBORReader.indefinite_array (CBORReader.decode fuel) f acc) s
    (ARRAY (acc ++ a)) rest.
Proof using ReadsNothing0.
  induction a as [|v a IH]; intros f acc s rest He Hf Hfuel Hok Hp.
  - cbn [flat_map app] in Hp. rewrite app_nil_r.
    assert (length (pending s) = S (length rest)) as Hl by by rewrite Hp.
    destruct f as [|f]; [lia|]. destruct fuel as [|fuel]; [lia|].
    cbn [CBORReader.indefinite_array CBORReader.decode].
    eapply reads_bind; [eapply reads_bind; [by apply reads_byte|]|].
    { intros s1 Hok1 Hp1. change (CBORReader.decode_major (CBORReader.decode fuel) fuel 255)
        with (ret BREAK : M R Error Value). by apply reads_ret. }
    intros. by apply reads_ret.
  - apply Forall_cons in He as [Hv Ha]. cbn [flat_map] in Hp. rewrite <- app_assoc in Hp.
    pose proof (bytes_nonempty v Hv).
    assert (exists k, k = flat_map cbor_bytes a ++ 255 :: rest) as [tail Htail] by by eexists.
    rewrite <- Htail in Hp.
    assert (length (pending s) = length (cbor_bytes v) + length tail)%nat as Hl
      by by rewrite Hp, length_app.
    destruct f as [|f]; [lia|]. cbn [CBORReader.indefinite_array].
    eapply reads_bind; [by apply decode_cbor_bytes|]. intros s1 Hok1 Hp1.
    assert (reads (CBORReader.indefinite_array (CBORReader.decode fuel) f (acc ++ [v])) s1
      (ARRAY (acc ++ v :: a)) rest) as Hrec.
    { replace (acc ++ v :: a) with ((acc ++ [v]) ++ a) by by rewrite <- app_assoc.
      apply IH; try done; rewrite ?Hp1; done || lia. }
    by destruct Hv.
Qed.
End indefinite.

(* ------------------------------------------------------------------ *)
(** ** Properties *)


(** Decoding ends on every input: with one unit of fuel more than the bytes
    pending, [decode] returns a value, having consumed at least a byte, or throws
    one of the errors of the code. *)
Theorem cbor_decode_total {R : Type} `{ReaderLaws R} `{!ReadsNothing R} (r : R) fuel :
  r_ok r -> (length (pending r) < fuel)%nat ->
  exists res r' d, CBORReader.decode fuel r = (res, r') /\ r_ok r' /\
    pending r = d ++ pending r' /\
    match res with Val _ => d <> [] | Throw e => 0 <= error e end.
Proof.
  intros Hok Hf. destruct (runs_decode fuel r Hok Hf) as (res & r' & d & Hd & Hok' & Hp & Hr).
  exists res, r', d. split_and!; try done. destruct res; [|done].
  destruct Hr as [_ Hl]. intros ->. simpl in Hl. lia.
Qed.

(** An indefinite array, opened, written element by element and closed, is
    decoded as the array of its elements, however many there are. *)
Theorem cbor_indefinite_roundtrip {R W : Type} `{ReaderLaws R} `{!ReadsNothing R}
    `{WriterLaws W} a :
  Forall encodable a ->
  writes (S := W) (write_indefinite a) (159 :: flat_map cbor_bytes a ++ [255]) /\
  forall (r : R) rest fuel, r_ok r ->
    pending r = (159 :: flat_map cbor_bytes a ++ [255]) ++ rest ->
    (length (pending r) < fuel)%nat -> reads (CBORReader.decode fuel) r (ARRAY a) rest.
Proof.
  intros Ha. split.
  - eapply (writes_eq _ ([159] ++ flat_map cbor_bytes a ++ [255])); [|done].
    apply writes_bind; [apply (writes_byte 159)|].
    apply writes_bind; [by apply elements_writes|apply (writes_byte 255)].
  - intros r rest fuel Hok Hp Hf. cbn [app] in Hp. rewrite <- app_assoc in Hp.
    destruct fuel as [|fuel]; [lia|]. cbn [CBORReader.decode].
    eapply reads_bind; [by apply reads_byte|]. intros r1 Hok1 Hp1.
    change (CBORReader.decode_major (CBORReader.decode fuel) fuel 159) with
      (CBORReader.indefinite_array (R := R) (CBORReader.decode fuel) fuel []).
    assert (length (pending r) = S (length (pending r1))) as Hl by by rewrite Hp, Hp1.
    apply (indefinite_array_reads fuel a fuel []); try done; lia.
Qed.

(** Integers that do not fit are not refused: an unsigned integer from 2^63 up is
    decoded as a negative number and the negative ones below -2^63 as numbers from
    0 up; an integer key of an object is reduced to 32 bits. *)
Theorem cbor_integers_wrap {R : Type} `{ReaderLaws R} `{!ReadsNothing R} (r : R) n rest fuel :
  2 ^ 63 <= n < 2 ^ 64 -> r_ok r ->
  (pending r = cbor_head 0 n ++ rest ->
     reads (CBORReader.decode (S fuel)) r (INTEGER (n - 2 ^ 64)) rest) /\
  (pending r = cbor_head 1 n ++ rest ->
     reads (CBORReader.decode (S fuel)) r (INTEGER (2 ^ 64 - 1 - n)) rest) /\
  (forall k, 0 <= k < 2 ^ 63 -> pending r = 161 :: cbor_head 0 k ++ 245 :: rest ->
     reads (CBORReader.decode (S (S (S fuel)))) r (OBJECT [(itos (i32 k), TRUE_)]) rest).
Proof.
  intros Hn Hok. split_and!.
  - intros Hp. eapply decode_at_head; [|done|exact Hp|]; [unfold in_u; lia|].
    intros x s1 Hx Hok1 _ (tl & Hp1 & Hr). rewrite decode_0 by done.
    eapply reads_bind; [exact Hr|]. intros s2 Hok2 Hp2.
    assert (i64 n = n - 2 ^ 64) as ->; [|by apply reads_ret].
    unfold swrap. change (2 ^ (64 - 1)) with (2 ^ 63).
    rewrite <- (Z.mod_unique_pos (n + 2 ^ 63) (2 ^ 64) 1 (n - 2 ^ 63)); lia.
  - intros Hp. eapply decode_at_head; [|done|exact Hp|]; [unfold in_u; lia|].
    intros x s1 Hx Hok1 _ (tl & Hp1 & Hr). rewrite decode_1 by done.
    eapply reads_bind; [exact Hr|]. intros s2 Hok2 Hp2.
    assert (u64 (-1 - n) = 2 ^ 64 - 1 - n) as ->
      by (symmetry; apply (Z.mod_unique_pos _ _ (-1)); lia).
    rewrite swrap_small by (unfold in_s; lia). by apply reads_ret.
  - intros k Hk Hp. rewrite decode_S.
    eapply reads_bind; [by apply reads_byte|]. intros r1 Hok1 Hp1.
    change (CBORReader.decode_major ?d ?f 161) with
      (let! len := ret 1 in CBORReader.definite_object (R := R) d f 0 len []).
    eapply reads_bind; [by apply reads_ret|]. intros r2 Hok2 Hp2.
    cbn [CBORReader.definite_object]. change (0 <? 1) with true. cbn beta iota.
    eapply reads_bind.
    { eapply decode_at_head; [|done|exact Hp2|]; [unfold in_u; lia|].
      intros x s1 Hx Hoks _ (tl & Hps & Hr). rewrite decode_0 by done.
      eapply reads_bind; [exact Hr|]. intros s2 Hoks2 Hps2.
      rewrite swrap_small by (unfold in_s; change (2 ^ (64 - 1)) with (2 ^ 63); lia).
      by apply reads_ret. }
    intros r3 Hok3 Hp3. cbn [CBORReader.property].
    eapply reads_bind.
    { eapply reads_bind; [|intros; by apply reads_ret]. rewrite decode_S.
      eapply reads_bind; [by apply reads_byte|]. intros s1 Hoks Hps.
      change (CBORReader.decode_major ?d ?f 245) with (ret TRUE_ : M R Error Value).
      by apply reads_ret. }
    intros r4 Hok4 Hp4. change (u32 (0 + 1)) with 1. rewrite Z.ltb_irrefl. by apply reads_ret.
Qed.

(** a floating-point number has no encoding: nothing is written for it, so that
    an array that holds one announces more elements than follow, and cannot be
    decoded. *)
Lemma cbor_number_is_lost f fuel :
  cbor (NUMBER f) = [] /\ cbor (ARRAY [NUMBER f]) = [129] /\
  exists e s, CBORReader.decode (S (S fuel)) (StringReader.init (cbor (ARRAY [NUMBER f]))) =
    (Throw e, s) /\ error e = 0.
Proof. split; [done|]. split; [done|]. by eexists _, _. Qed.

(* ------------------------------------------------------------------ *)
(** ** Witnesses *)




Lemma cbor_decode_total_witness :
  exists res r' d, CBORReader.decode 9 (StringReader.init [159; 130; 1]) = (res, r') /\
    StringReaderFacts.pend (StringReader.init [159; 130; 1]) = d ++ StringReaderFacts.pend r'.
Proof.
  destruct (cbor_decode_total (StringReader.init [159; 130; 1]) 9) as
    (res & r' & d & Hd & _ & Hp & _).
  - apply string_init_ok; [done|vm_decide].
  - vm_compute. lia.
  - by exists res, r', d.
Defined.

Lemma cbor_indefinite_roundtrip_witness :
  exists s, CBORReader.decode 9 (StringReader.init [159; 1; 245; 255]) =
    (Val (ARRAY [INTEGER 1; TRUE_]), s).
Proof.
  destruct (cbor_indefinite_roundtrip (R := StringReader.t) (W := StringWriter.t)
    [INTEGER 1; TRUE_]) as [_ Hr].
  - repeat constructor; vm_compute; congruence.
  - destruct (Hr (StringReader.init [159; 1; 245; 255]) [] 9%nat) as (s & Hs & _).
    + apply string_init_ok; [done|vm_decide].
    + reflexivity.
    + vm_compute. lia.
    + by exists s.
Defined.

Lemma cbor_integers_wrap_witness :
  exists s, CBORReader.decode 2 (StringReader.init (cbor_head 0 (2 ^ 64 - 1))) =
    (Val (INTEGER (-1)), s).
Proof.
  destruct (cbor_integers_wrap (StringReader.init (cbor_head 0 (2 ^ 64 - 1))) (2 ^ 64 - 1) [] 1)
    as [Hr _].
  - lia.
  - apply string_init_ok; [done|vm_decide].
  - destruct Hr as (s & Hs & _); [by rewrite app_nil_r|]. by exists s.
Defined.
