(* ===== verification/Lex.v ===== *)
(** * Lexical analyser

    Models [src/libs/lex/analyser.cc] and [ot-lex.h]: the tokeniser for JSON and
    other C-like languages.  The input stream is the list of bytes still to be
    read; [get] and [peek] give 0 at its end, as the class does.  Loops that
    consume a character on each turn run on the length of the input. *)
From S2P Require Export Convert.

Module Lex.

Inductive Token_Type : Set := UNKNOWN | END_ | NAME | NUMBER | STRING | SYMBOL.
#[global] Instance Token_Type_eq_dec : EqDecision Token_Type.
Proof. solve_decision. Defined.

Record Token := mk_Token { type : Token_Type; value : bytes }.

(** [Lex::Exception], and what the model yields where its fuel is not enough
    (it always is: [read_token_total]). *)
Inductive Exception := Error (text : bytes) | Out_of_fuel.

Record Analyser := mk_Analyser {
  input : bytes;
  allow_alphanum_names : bool;
  allow_dash_in_names : bool;
  symbols : list bytes;
  pending_tokens : list Token;
  line_comment_symbol : bytes
}.

Definition set_input (i : bytes) (a : Analyser) : Analyser :=
  mk_Analyser i (allow_alphanum_names a) (allow_dash_in_names a) (symbols a)
    (pending_tokens a) (line_comment_symbol a).
Definition set_pending (p : list Token) (a : Analyser) : Analyser :=
  mk_Analyser (input a) (allow_alphanum_names a) (allow_dash_in_names a) (symbols a)
    p (line_comment_symbol a).

(** The constructor and the configuration. *)
Definition init (i : bytes) : Analyser := mk_Analyser i true false [] [] [].
Definition add_symbol (s : bytes) (a : Analyser) : Analyser :=
  mk_Analyser (input a) (allow_alphanum_names a) (allow_dash_in_names a) (symbols a ++ [s])
    (pending_tokens a) (line_comment_symbol a).
Definition add_line_comment_symbol (s : bytes) (a : Analyser) : Analyser :=
  mk_Analyser (input a) (allow_alphanum_names a) (allow_dash_in_names a) (symbols a ++ [s])
    (pending_tokens a) s.
Definition disallow_alphanum_names (a : Analyser) : Analyser :=
  mk_Analyser (input a) false (allow_dash_in_names a) (symbols a)
    (pending_tokens a) (line_comment_symbol a).
Definition allow_dashed_names (a : Analyser) : Analyser :=
  mk_Analyser (input a) (allow_alphanum_names a) true (symbols a)
    (pending_tokens a) (line_comment_symbol a).
Definition put_back (t : Token) (a : Analyser) : Analyser :=
  set_pending (t :: pending_tokens a) a.

Abbreviation L := (M Analyser Exception).

(** [get()] and [peek()] *)
Definition get : L Z := fun a =>
  match input a with
  | [] => (Val 0, a)
  | c :: i => (Val c, set_input i a)
  end.
Definition peek : L Z := fun a =>
  match input a with
  | [] => (Val 0, a)
  | c :: _ => (Val c, a)
  end.

(** [for(;;) { c = peek(); if (p(c)) { c = get(); text += c; } else break; }] *)
Fixpoint take_while (p : Z -> bool) (i : bytes) : bytes * bytes :=
  match i with
  | c :: i' => if p c then let '(t, r) := take_while p i' in (c :: t, r) else ([], i)
  | [] => ([], [])
  end.
Definition take_chars (p : Z -> bool) : L bytes := fun a =>
  let '(t, r) := take_while p (input a) in (Val t, set_input r a).

Definition is_name_char (a : Analyser) (c : Z) : bool :=
  is_alpha c || (is_digit c && allow_alphanum_names a) || (c =? chr "_") ||
  (allow_dash_in_names a && (c =? chr "-")).

Definition read_name_token (c : Z) : L Token :=
  let! a := get_st in
  let! name := take_chars (is_name_char a) in
  ret (mk_Token NAME (c :: name)).

Definition throw_text {A} (t : bytes) : L A := throw (Error t).

(** The exponent, after its [e] has been peeked. *)
Definition read_exponent (value : bytes) : L bytes :=
  let! c := get in
  let value := value ++ [c] in
  let! c := get in
  if c =? 0 then throw_text (str "End of input in number exponent") else
  let! sign := (if (c =? chr "+") || (c =? chr "-") then
                  let! d := get in
                  if d =? 0 then throw_text (str "End of input in number exponent")
                  else ret (value ++ [c], d)
                else ret (value, c)) in
  let '(value, c) := sign in
  if is_digit c then
    let! more := take_chars is_digit in ret (value ++ c :: more)
  else throw_text (str "Bad character in number exponent").

Definition read_number_token (c : Z) : L Token :=
  let! ds := take_chars is_digit in
  let value := c :: ds in
  let! c := peek in
  let! decimal := (if c =? chr "." then
                     let! d := get in
                     let! ds := take_chars is_digit in
                     let! c := peek in
                     ret (value ++ d :: ds, c)
                   else ret (value, c)) in
  let '(value, c) := decimal in
  let! value := (if (c =? chr "e") || (c =? chr "E") then read_exponent value
                 else ret value) in
  ret (mk_Token NUMBER value).

(** The four digits of a [\u] escape. *)
Fixpoint read_hex (k : nat) (hex : bytes) : L bytes :=
  match k with
  | O => ret hex
  | S k =>
    let! c := get in
    if c =? 0 then throw_text (str "End of input in \u escape")
    else read_hex k (hex ++ [c])
  end.

(** What a backslash and the next character add to the string. *)
Definition read_escape : L bytes :=
  let! c := get in
  if c =? 0 then throw_text (str "End of input in escape")
  else if (c =? chr "/") || (c =? chr "\") || (c =? 34) then ret [c]
  else if c =? chr "b" then ret [8]
  else if c =? chr "f" then ret [12]
  else if c =? chr "n" then ret [10]
  else if c =? chr "r" then ret [13]
  else if c =? chr "t" then ret [9]
  else if c =? chr "u" then
    let! hex := read_hex 4 [] in ret (UTF8.append (i32 (xtoi hex)))
  else throw_text (str "Unrecognised string escape '" ++ [c] ++ str "'").

Fixpoint read_string_loop (fuel : nat) (value : bytes) : L Token :=
  match fuel with
  | O => throw Out_of_fuel
  | S fuel =>
    let! c := get in
    if c =? 0 then throw_text (str "End of input in string")
    else if c =? 34 then ret (mk_Token STRING value)
    else if c =? chr "\" then
      let! s := read_escape in read_string_loop fuel (value ++ s)
    else read_string_loop fuel (value ++ [c])
  end.
Definition read_string_token : L Token :=
  let! a := get_st in read_string_loop (S (length (input a))) [].

(** The loop of [read_symbol_token]: [symbol] has [len] characters.  It ends at
    the longest symbol. *)
Fixpoint read_symbol_loop (fuel : nat) (c : Z) (len : nat) (symbol : bytes) : L Token :=
  match fuel with
  | O => throw Out_of_fuel
  | S fuel =>
    let! a := get_st in
    if existsb (fun candidate => bool_decide (take len candidate = symbol)) (symbols a) then
      (if Nat.ltb 1 len then let! _ := get in ret tt else ret tt) ;;;
      let! d := peek in
      read_symbol_loop fuel c (S len) (symbol ++ [d])
    else if Nat.eqb len 1 then
      throw_text (str "Unrecognised token near '" ++ [c] ++ str "'")
    else ret (mk_Token SYMBOL (take (len - 1) symbol))
  end.
Definition longest (l : list bytes) : nat := foldr (fun s n => max (length s) n) 0%nat l.
Definition read_symbol_token (c : Z) : L Token :=
  let! a := get_st in read_symbol_loop (S (longest (symbols a))) c 1 [c].

(** [do { c = get(); } while (c && c != '\n');] *)
Fixpoint skip_line (i : bytes) : bytes :=
  match i with
  | [] => []
  | c :: i => if (c =? 0) || (c =? 10) then i else skip_line i
  end.

(** [while (isspace(c)) c = get();] from the first [get] *)
Definition skip_space : L Z :=
  (fun a => (Val tt, set_input (drop_while is_space (input a)) a)) ;;; get.

(** One turn of the loop of [read_token]; [None]: a comment was skipped. *)
Definition read_token_step : L (option Token) :=
  let! c := skip_space in
  if c =? 0 then ret (Some (mk_Token END_ []))
  else if is_alpha c || (c =? chr "_") then
    let! t := read_name_token c in ret (Some t)
  else if is_digit c then
    let! t := read_number_token c in ret (Some t)
  else if c =? 34 then
    let! t := read_string_token in ret (Some t)
  else if c =? chr "-" then
    let! d := peek in
    let! t := (if is_digit d || (d =? chr ".") then read_number_token c
               else read_symbol_token c) in
    ret (Some t)
  else if c =? chr "." then
    let! d := peek in
    let! t := (if is_digit d then read_number_token c else read_symbol_token c) in
    ret (Some t)
  else
    let! token := read_symbol_token c in
    let! a := get_st in
    if bool_decide (type token = SYMBOL) && bool_decide (value token = line_comment_symbol a)
    then (fun a => (Val None, set_input (skip_line (input a)) a))
    else ret (Some token).

Fixpoint read_token_loop (fuel : nat) : L Token :=
  match fuel with
  | O => throw Out_of_fuel
  | S fuel =>
    let! t := read_token_step in
    match t with Some t => ret t | None => read_token_loop fuel end
  end.

Definition read_token : L Token := fun a =>
  match pending_tokens a with
  | t :: p => (Val t, set_pending p a)
  | [] => read_token_loop (S (length (input a))) a
  end.

(* ------------------------------------------------------------------ *)
(** ** Lemmas *)

(** *** Every token is read in a bounded number of turns

    [steps m a n]: [m] does not run out of fuel, consumes at least [n]
    characters if it returns, and leaves the configuration alone. *)
Definition same_config (a b : Analyser) : Prop :=
  symbols b = symbols a /\ line_comment_symbol b = line_comment_symbol a /\
  pending_tokens b = pending_tokens a.
Definition steps {A} (m : L A) (a : Analyser) (n : nat) (P : A -> Prop) : Prop :=
  exists r b, m a = (r, b) /\ same_config a b /\ (length (input b) <= length (input a))%nat /\
    match r with
    | Val x => P x /\ (length (input b) + n <= length (input a))%nat
    | Throw e => e <> Out_of_fuel
    end.

Lemma same_config_refl a : same_config a a.
Proof. done. Qed.
Lemma same_config_trans a b c : same_config a b -> same_config b c -> same_config a c.
Proof. unfold same_config. intuition congruence. Qed.

Lemma steps_ret {A} (x : A) a (P : A -> Prop) : P x -> steps (ret x) a 0 P.
Proof. intros. exists (Val x), a. split_and!; done || lia. Qed.

Lemma steps_throw {A} t a n (P : A -> Prop) : steps (throw_text t) a n P.
Proof. exists (Throw (Error t)), a. split_and!; done || lia. Qed.

Lemma steps_weaken {A} (m : L A) a n n' (P Q : A -> Prop) :
  steps m a n P -> (n' <= n)%nat -> (forall x, P x -> Q x) -> steps m a n' Q.
Proof.
  intros (r & b & Hm & Hc & Hl & Hr) Hn HPQ. exists r, b. split_and!; try done.
  destruct r; [|done]. destruct Hr. split; [by apply HPQ|lia].
Qed.

Lemma steps_bind {A B} (m : L A) (k : A -> L B) a n n' (P : A -> Prop) Q :
  steps m a n P ->
  (forall x b, P x -> same_config a b -> (length (input b) + n <= length (input a))%nat ->
     steps (k x) b n' Q) ->
  steps (bind m k) a (n + n') Q.
Proof.
  intros (r & b & Hm & Hc & Hl & Hr) Hk. destruct r as [x|e].
  - destruct Hr as [Hx Hn]. destruct (Hk x b Hx Hc Hn) as (r & c & Hkc & Hc' & Hl' & Hr').
    exists r, c. unfold bind. rewrite Hm. split_and!; try done; [by eapply same_config_trans|lia|].
    destruct r; [|done]. destruct Hr'. split; [done|lia].
  - exists (Throw e), b. unfold bind. rewrite Hm. done.
Qed.

Lemma steps_bind_0 {A B} (m : L A) (k : A -> L B) a n (P : A -> Prop) Q :
  steps m a n P ->
  (forall x b, P x -> same_config a b -> (length (input b) + n <= length (input a))%nat ->
     steps (k x) b 0 Q) ->
  steps (bind m k) a 0 Q.
Proof. intros Hm Hk. eapply (steps_weaken _ _ (n + 0) 0 Q Q); [by eapply steps_bind|lia|done]. Qed.

Lemma steps_get a : steps get a 0 (fun _ => True).
Proof.
  unfold steps, get. destruct (input a) as [|c i] eqn:Hi.
  - exists (Val 0), a. rewrite Hi. split_and!; done || lia.
  - exists (Val c), (set_input i a). cbn [set_input input length]. split_and!; done || lia.
Qed.

(** [get] of a character consumes it. *)
Lemma steps_get_nonzero a {B} (k : Z -> L B) n Q :
  (forall b, steps (k 0) b n Q) ->
  (forall c b, same_config a b -> (length (input b) + 1 <= length (input a))%nat ->
     steps (k c) b (n - 1) Q) ->
  steps (bind get k) a n Q.
Proof.
  intros H0 Hk. unfold steps, bind, get. destruct (input a) as [|c i] eqn:Hi.
  - destruct (H0 a) as (r & b & Hr & Hc & Hl & Hres). exists r, b. rewrite Hi in *. done.
  - destruct (Hk c (set_input i a)) as (r & b & Hr & Hc & Hl & Hres); [done|simpl; lia|].
    exists r, b. cbn [set_input input length] in *. split_and!; try done; try lia.
    destruct r; [|done]. destruct Hres. split; [done|lia].
Qed.

Lemma steps_peek a : steps peek a 0 (fun _ => True).
Proof.
  unfold steps, peek. destruct (input a) eqn:Hi; eexists (Val _), a; rewrite Hi;
    split_and!; done || lia.
Qed.

Lemma steps_get_st a : steps get_st a 0 (fun b => b = a).
Proof. exists (Val a), a. split_and!; done || lia. Qed.

Lemma take_while_length p i t r : take_while p i = (t, r) -> (length r <= length i)%nat.
Proof.
  revert t r. induction i as [|c i IH]; intros t r Ht; cbn [take_while] in Ht.
  - by injection Ht as <- <-.
  - destruct (p c); [|by injection Ht as <- <-].
    destruct (take_while p i) as [t' r'] eqn:Hi. injection Ht as <- <-.
    specialize (IH _ _ eq_refl). simpl. lia.
Qed.

Lemma steps_take_chars p a : steps (take_chars p) a 0 (fun _ => True).
Proof.
  unfold steps, take_chars. destruct (take_while p (input a)) as [t r] eqn:Ht.
  apply take_while_length in Ht. exists (Val t), (set_input r a).
  cbn [set_input input]. split_and!; done || lia.
Qed.

Lemma steps_name c a : steps (read_name_token c) a 0 (fun t => type t = NAME).
Proof.
  eapply steps_bind_0; [apply steps_get_st|]. intros a' b -> _ _.
  eapply steps_bind_0; [apply steps_take_chars|]. intros. by apply steps_ret.
Qed.

Lemma steps_exponent v a : steps (read_exponent v) a 0 (fun _ => True).
Proof.
  eapply steps_bind_0; [apply steps_get|]. intros c b _ _ _.
  eapply steps_bind_0; [apply steps_get|]. intros d b' _ _ _.
  destruct (d =? 0); [apply steps_throw|].
  eapply (steps_bind_0 _ _ _ 0 (fun _ => True)).
  - destruct (_ || _); [|by apply steps_ret].
    eapply steps_bind_0; [apply steps_get|]. intros e b2 _ _ _.
    destruct (e =? 0); [apply steps_throw|by apply steps_ret].
  - intros [v' e] b2 _ _ _. destruct (is_digit e); [|apply steps_throw].
    eapply steps_bind_0; [apply steps_take_chars|]. intros. by apply steps_ret.
Qed.

Lemma steps_number c a : steps (read_number_token c) a 0 (fun t => type t = NUMBER).
Proof.
  eapply steps_bind_0; [apply steps_take_chars|]. intros ds b _ _ _.
  eapply steps_bind_0; [apply steps_peek|]. intros d b1 _ _ _.
  eapply (steps_bind_0 _ _ _ 0 (fun _ => True)).
  - destruct (_ =? _); [|by apply steps_ret].
    eapply steps_bind_0; [apply steps_get|]. intros e b2 _ _ _.
    eapply steps_bind_0; [apply steps_take_chars|]. intros ds2 b3 _ _ _.
    eapply steps_bind_0; [apply steps_peek|]. intros. by apply steps_ret.
  - intros [v e] b2 _ _ _. eapply (steps_bind_0 _ _ _ 0 (fun _ => True)).
    + destruct (_ || _); [apply steps_exponent|by apply steps_ret].
    + intros. by apply steps_ret.
Qed.

Lemma steps_hex k : forall hex a, steps (read_hex k hex) a 0 (fun _ => True).
Proof.
  induction k as [|k IH]; intros hex a; [by apply steps_ret|]. cbn [read_hex].
  eapply steps_bind_0; [apply steps_get|]. intros c b _ _ _.
  destruct (c =? 0); [apply steps_throw|apply IH].
Qed.

Lemma steps_escape a : steps read_escape a 0 (fun _ => True).
Proof.
  eapply steps_bind_0; [apply steps_get|]. intros c b _ _ _.
  destruct (c =? 0); [apply steps_throw|].
  repeat match goal with |- context [if ?x then ret _ else _] =>
    destruct x; [by apply steps_ret|] end.
  destruct (c =? chr "u"); [|apply steps_throw].
  eapply steps_bind_0; [apply steps_hex|]. intros. by apply steps_ret.
Qed.

Lemma steps_string fuel : forall v a, (length (input a) < fuel)%nat ->
  steps (read_string_loop fuel v) a 0 (fun t => type t = STRING).
Proof.
  induction fuel as [|fuel IH]; intros v a Hf; [lia|]. cbn [read_string_loop].
  apply steps_get_nonzero; [intros; apply steps_throw|]. intros c b _ Hl. cbn [Nat.sub].
  destruct (c =? 0); [apply steps_throw|]. destruct (c =? 34); [by apply steps_ret|].
  destruct (c =? chr "\"); [|apply IH; lia].
  eapply steps_bind_0; [apply steps_escape|]. intros s b2 _ _ Hl2. apply IH. lia.
Qed.

Lemma longest_le l s : In s l -> (length s <= longest l)%nat.
Proof.
  induction l as [|t l IH]; simpl; [done|]. intros [->|Hin]; [lia|]. specialize (IH Hin). lia.
Qed.

Lemma steps_symbol fuel : forall c len symbol a,
  length symbol = len -> (longest (symbols a) + 2 <= fuel + len)%nat -> (0 < fuel)%nat ->
  steps (read_symbol_loop fuel c len symbol) a 0 (fun t => type t = SYMBOL).
Proof.
  induction fuel as [|fuel IH]; intros c len symbol a Hlen Hf Hpos; [lia|].
  cbn [read_symbol_loop].
  eapply steps_bind_0; [apply steps_get_st|]. intros a' b -> [Hs _] _.
  destruct (existsb _ (symbols a)) eqn:Hex.
  - apply existsb_exists in Hex as (cand & Hin & Heq). apply bool_decide_eq_true in Heq.
    pose proof (longest_le _ _ Hin). apply (f_equal length) in Heq.
    rewrite length_take in Heq.
    eapply (steps_bind_0 _ _ _ 0 (fun _ => True)).
    { destruct (Nat.ltb 1 len); [|by apply steps_ret].
      eapply steps_bind_0; [apply steps_get|]. intros. by apply steps_ret. }
    intros _ b1 _ [Hs1 _] _.
    eapply steps_bind_0; [apply steps_peek|]. intros d b2 _ [Hs2 _] _.
    apply IH; [rewrite length_app; simpl; lia|rewrite Hs2, Hs1, Hs; lia|lia].
  - destruct (Nat.eqb len 1); [apply steps_throw|by apply steps_ret].
Qed.

Lemma steps_symbol_token c a : steps (read_symbol_token c) a 0 (fun t => type t = SYMBOL).
Proof.
  eapply steps_bind_0; [apply steps_get_st|]. intros a' b -> [Hs _] _.
  apply steps_symbol; [done|rewrite Hs; lia|lia].
Qed.

Lemma drop_while_length p s : (length (drop_while p s) <= length s)%nat.
Proof. induction s as [|c s IH]; simpl; [done|]. destruct (p c); simpl; lia. Qed.

Lemma skip_line_length i : (length (skip_line i) <= length i)%nat.
Proof. induction i as [|c i IH]; simpl; [done|]. destruct (_ || _); lia. Qed.

(** A token other than END consumes a character. *)
Definition progress (a : Analyser) (r : exc Exception (option Token)) (b : Analyser) : Prop :=
  same_config a b /\ (length (input b) <= length (input a))%nat /\
  match r with
  | Val (Some t) => type t = END_ \/ (length (input b) < length (input a))%nat
  | Val None => (length (input b) < length (input a))%nat
  | Throw e => e <> Out_of_fuel
  end.

Lemma steps_progress (m : L (option Token)) a b :
  steps m b 0 (fun _ => True) -> same_config a b ->
  (length (input b) < length (input a))%nat ->
  exists r b', m b = (r, b') /\ progress a r b'.
Proof.
  intros (r & b' & Hm & Hc & Hl & Hr) Hcb Hlb. exists r, b'. split; [done|].
  split; [by eapply same_config_trans|]. split; [lia|].
  destruct r as [[t|]|e]; [right|..]; done || lia.
Qed.

Lemma read_token_step_ok a : exists r b, read_token_step a = (r, b) /\ progress a r b.
Proof.
  unfold read_token_step, skip_space, bind at 1 2, get. cbn [set_input input].
  pose proof (drop_while_length is_space (input a)) as Hd.
  destruct (drop_while is_space (input a)) as [|c i] eqn:Hi.
  { eexists _, _. split; [done|]. split; [done|]. cbn. split; [lia|]. by left. }
  set (b := set_input i (set_input (c :: i) a)).
  assert (same_config a b) as Hc by done.
  assert (length (input b) < length (input a))%nat as Hl by (cbn in *; lia).
  destruct (c =? 0).
  { eexists _, b. split; [done|]. split; [done|]. split; [lia|]. by left. }
  assert (forall m : L Token, steps m b 0 (fun _ => True) ->
    exists r b', bind m (fun t => ret (Some t)) b = (r, b') /\ progress a r b') as Htok.
  { intros m Hm. apply steps_progress; [|done|done].
    eapply steps_bind_0; [exact Hm|]. intros. by apply steps_ret. }
  assert (forall m Q, steps (A := Token) m b 0 Q -> steps m b 0 (fun _ => True)) as Hany.
  { intros m Q Hm. by eapply steps_weaken. }
  destruct (_ || _); [eapply Htok, Hany, steps_name|].
  destruct (is_digit c); [eapply Htok, Hany, steps_number|].
  destruct (c =? 34).
  { eapply Htok, Hany. eapply steps_bind_0; [apply steps_get_st|]. intros a' b' -> _ Hlb.
    apply steps_string. lia. }
  destruct (c =? chr "-").
  { apply steps_progress; [|done|done].
    eapply steps_bind_0; [apply steps_peek|]. intros d b' _ _ _.
    eapply (steps_bind_0 _ _ _ 0 (fun _ => True)); [|intros; by apply steps_ret].
    destruct (_ || _); (eapply steps_weaken; [|apply Nat.le_refl|done]);
      [apply steps_number|apply steps_symbol_token]. }
  destruct (c =? chr ".").
  { apply steps_progress; [|done|done].
    eapply steps_bind_0; [apply steps_peek|]. intros d b' _ _ _.
    eapply (steps_bind_0 _ _ _ 0 (fun _ => True)); [|intros; by apply steps_ret].
    destruct (is_digit d); (eapply steps_weaken; [|apply Nat.le_refl|done]);
      [apply steps_number|apply steps_symbol_token]. }
  apply steps_progress; [|done|done].
  eapply steps_bind_0; [apply steps_symbol_token|]. intros t b' _ _ _.
  eapply steps_bind_0; [apply steps_get_st|]. intros a' b2 -> _ _.
  destruct (_ && _); [|by apply steps_ret].
  exists (Val None), (set_input (skip_line (input b2)) b2).
  pose proof (skip_line_length (input b2)). cbn. split_and!; done || lia.
Qed.

Lemma read_token_loop_ok fuel : forall a, (length (input a) < fuel)%nat ->
  exists r b, read_token_loop fuel a = (r, b) /\ same_config a b /\
    (length (input b) <= length (input a))%nat /\
    match r with
    | Val t => type t = END_ \/ (length (input b) < length (input a))%nat
    | Throw e => e <> Out_of_fuel
    end.
Proof.
  induction fuel as [|fuel IH]; intros a Hf; [lia|]. cbn [read_token_loop].
  destruct (read_token_step_ok a) as (r & b & Hr & Hc & Hl & Hres). unfold bind. rewrite Hr.
  destruct r as [[t|]|e].
  - exists (Val t), b. done.
  - destruct (IH b) as (r & b' & -> & Hc' & Hl' & Hres'); [lia|].
    exists r, b'. split_and!; try done; [by eapply same_config_trans|lia|].
    destruct r; [|done]. destruct Hres'; [by left|right; lia].
  - by exists (Throw e), b.
Qed.

(** Reading a token, whatever is pending. *)
Lemma read_token_ok a :
  exists r b, read_token a = (r, b) /\ symbols b = symbols a /\
    (length (input b) <= length (input a))%nat /\
    match r with
    | Val t => pending_tokens a = t :: pending_tokens b /\ input b = input a \/
               pending_tokens a = [] /\ pending_tokens b = [] /\
               (type t = END_ \/ (length (input b) < length (input a))%nat)
    | Throw e => e <> Out_of_fuel
    end.
Proof.
  unfold read_token. destruct (pending_tokens a) as [|t p] eqn:Hp.
  - destruct (read_token_loop_ok (S (length (input a))) a) as (r & b & Hr & Hc & Hl & Hres); [lia|].
    exists r, b. destruct Hc as (Hs & _ & Hpb). split_and!; try done.
    destruct r; [|done]. right. rewrite Hpb, Hp. done.
  - eexists (Val t), (set_pending p a). split_and!; try done. by left.
Qed.

(* ------------------------------------------------------------------ *)
(** ** Properties *)

(** Reading a token always ends, whatever the input, the symbols and the
    configuration: it returns the token put back last, or a token that consumed
    at least a character, or END, or throws a lexical error. *)
Theorem read_token_total a :
  exists r b, read_token a = (r, b) /\ symbols b = symbols a /\
    (length (input b) <= length (input a))%nat /\
    match r with
    | Val t => pending_tokens a = t :: pending_tokens b /\ input b = input a \/
               pending_tokens a = [] /\ pending_tokens b = [] /\
               (type t = END_ \/ (length (input b) < length (input a))%nat)
    | Throw e => e <> Out_of_fuel
    end.
Proof. apply read_token_ok. Qed.

End Lex.
