(* ===== verification/JsonParser.v ===== *)
(** * The JSON parser

    Models [src/libs/json/parser.cc]: the recursive descent over the tokens of
    [Lex].  [Text::stof] is the C library's [atof], the parameter [stof] from a
    text to the 64-bit pattern of a double.  The recursion and the loops run on
    a fuel; [read_value] gives what its input needs ([parser_total]). *)
From S2P Require Export Json Lex.

Module Parser.

(** [JSON::Exception]; [Out_of_fuel] is never thrown by [read_value]. *)
Inductive Exception := Error (error : bytes) | Out_of_fuel.

(** What can be thrown inside [read_value]'s [try]. *)
Inductive Thrown := Lex_exception (e : Lex.Exception) | Json_exception (e : Exception).

Abbreviation P := (M Lex.Analyser Thrown).

Definition json_symbols : list bytes :=
  [str "{"; str "}"; str ":"; str ","; str "["; str "]"].
(** The constructor on a stream *)
Definition init (i : bytes) : Lex.Analyser :=
  foldl (fun a s => Lex.add_symbol s a) (Lex.init i) json_symbols.

(** A call on the lexer *)
Definition lex {A} (m : Lex.L A) : P A := fun a =>
  match m a with
  | (Val x, b) => (Val x, b)
  | (Throw e, b) => (Throw (Lex_exception e), b)
  end.
Definition put_back (t : Lex.Token) : P unit := fun a => (Val tt, Lex.put_back t a).

(** [catch (const Lex::Exception& e) { throw Exception(e.error); }] *)
Definition catch_lex {A} (m : P A) : P A := fun a =>
  match m a with
  | (Throw (Lex_exception (Lex.Error text)), b) => (Throw (Json_exception (Error text)), b)
  | r => r
  end.

Definition fail {A} (text : bytes) : P A := throw (Json_exception (Error text)).
Definition no_fuel {A} : P A := throw (Json_exception Out_of_fuel).

Definition is_symbol (t : Lex.Token) (s : bytes) : bool :=
  bool_decide (Lex.type t = Lex.SYMBOL) && bool_decide (Lex.value t = s).

Section loops.
Context (read_value : P Value).

Fixpoint read_rest_of_object (fuel : nat) (o : list (bytes * Value)) : P Value :=
  match fuel with
  | O => no_fuel
  | S fuel =>
    let! token := lex Lex.read_token in
    if is_symbol token (str "}") then ret (OBJECT o)
    else if bool_decide (Lex.type token = Lex.NAME) || bool_decide (Lex.type token = Lex.STRING)
    then
      let name := Lex.value token in
      let! token := lex Lex.read_token in
      if negb (is_symbol token (str ":")) then fail (str "Expected :") else
      let! value := read_value in
      let o := map_set name value o in
      let! token := lex Lex.read_token in
      if bool_decide (Lex.type token = Lex.SYMBOL) then
        if bool_decide (Lex.value token = str "}") then ret (OBJECT o)
        else if negb (bool_decide (Lex.value token = str ",")) then fail (str "Expected , or }")
        else read_rest_of_object fuel o
      else fail (str "Expected , or }")
    else fail (str "Bad property name " ++ Lex.value token)
  end.

Fixpoint read_rest_of_array (fuel : nat) (a : list Value) : P Value :=
  match fuel with
  | O => no_fuel
  | S fuel =>
    let! token := lex Lex.read_token in
    if is_symbol token (str "]") then ret (ARRAY a) else
    put_back token ;;;
    let! value := read_value in
    let a := a ++ [value] in
    let! token := lex Lex.read_token in
    if bool_decide (Lex.type token = Lex.SYMBOL) then
      if bool_decide (Lex.value token = str "]") then ret (ARRAY a)
      else if negb (bool_decide (Lex.value token = str ",")) then fail (str "Expected , or ]")
      else read_rest_of_array fuel a
    else fail (str "Expected , or ]")
  end.
End loops.

Section parser.
Context (stof : bytes -> Z).

(** A number with a point is a double, another an integer. *)
Definition number_value (text : bytes) : Value :=
  if existsb (Z.eqb (chr ".")) text then NUMBER (stof text) else INTEGER (i64 (stoi64 text)).

Fixpoint read_value_fuel (fuel : nat) : P Value :=
  match fuel with
  | O => no_fuel
  | S fuel =>
    catch_lex (
      let! token := lex Lex.read_token in
      match Lex.type token with
      | Lex.END_ => ret NULL_
      | Lex.NUMBER => ret (number_value (Lex.value token))
      | Lex.STRING => ret (STRING (Lex.value token))
      | Lex.NAME =>
        if bool_decide (Lex.value token = str "null") then ret NULL_
        else if bool_decide (Lex.value token = str "true") then ret TRUE_
        else if bool_decide (Lex.value token = str "false") then ret FALSE_
        else fail (str "Unrecognised bare name " ++ Lex.value token)
      | Lex.SYMBOL =>
        if bool_decide (Lex.value token = str "{")
        then read_rest_of_object (read_value_fuel fuel) fuel []
        else if bool_decide (Lex.value token = str "[")
        then read_rest_of_array (read_value_fuel fuel) fuel []
        else fail (str "Misplaced symbol " ++ Lex.value token)
      | Lex.UNKNOWN => fail (str "Unrecognised token ")
      end)
  end.

(** What is left to read: characters and tokens put back. *)
Definition left (a : Lex.Analyser) : nat :=
  length (Lex.input a) + length (Lex.pending_tokens a).

Definition read_value : P Value := fun a => read_value_fuel (2 + left a) a.

(** The value of a text: [Parser(stream).read_value()] *)
Definition parse (text : bytes) : exc Thrown Value := fst (read_value (init text)).
End parser.

(** What the round trip is stated for: integers of 64 bits, strings of
    characters of 16 bits other than NUL, keys that the writer, which does not
    escape them, can print. *)
Definition key_ok (k : bytes) : Prop := Forall (fun c => c <> 0 /\ c <> 34 /\ c <> 92) k.

#[local] Unset Elimination Schemes.
Inductive printable : Value -> Prop :=
  | printable_null : printable NULL_
  | printable_true : printable TRUE_
  | printable_false : printable FALSE_
  | printable_integer n : in_s 64 n -> printable (INTEGER n)
  | printable_string l : Forall (fun c => 0 < c < 65536) l -> printable (STRING (UTF8.encode l))
  | printable_object o : sorted o -> Forall (fun kv => key_ok (fst kv) /\ printable (snd kv)) o ->
      printable (OBJECT o)
  | printable_array a : Forall printable a -> printable (ARRAY a).
#[local] Set Elimination Schemes.

(** The turns that reading a value takes. *)
Fixpoint weight (v : Value) : nat :=
  match v with
  | OBJECT o => 2 + list_sum (map (fun '(_, v) => weight v) o)
  | ARRAY a => 2 + list_sum (map weight a)
  | _ => 1
  end.

(** [{"a": [1, -2, "A" and the euro sign, {}], "b": null}], indented *)
Definition sample : Value :=
  OBJECT [([97], ARRAY [INTEGER 1; INTEGER (-2); STRING (UTF8.encode [65; 8364]); OBJECT []]);
          ([98], NULL_)].

(* ------------------------------------------------------------------ *)
(** ** Lemmas *)

(** *** The parser always ends *)

(** [ok m a n]: [m] does not run out of fuel, and leaves no more than [n] to read. *)
Definition ok {A} (m : P A) (a : Lex.Analyser) (n : nat) : Prop :=
  exists r b, m a = (r, b) /\
    match r with
    | Val _ => (left b <= n)%nat
    | Throw e => e <> Json_exception Out_of_fuel /\ e <> Lex_exception Lex.Out_of_fuel
    end.

Lemma ok_ret {A} (x : A) a n : (left a <= n)%nat -> ok (ret x) a n.
Proof. intros. by exists (Val x), a. Qed.
Lemma ok_fail {A} t a n : ok (@fail A t) a n.
Proof. by eexists (Throw _), a. Qed.

Lemma ok_bind {A B} (m : P A) (k : A -> P B) a n n' :
  ok m a n' -> (forall x b, (left b <= n')%nat -> ok (k x) b n) -> ok (bind m k) a n.
Proof.
  intros (r & b & Hm & Hr) Hk. unfold ok, bind. rewrite Hm. destruct r as [x|e].
  - apply (Hk x b Hr).
  - by exists (Throw e), b.
Qed.

Lemma ok_token {B} (k : Lex.Token -> P B) a n :
  (forall t b, (left b < left a)%nat \/ Lex.type t = Lex.END_ /\ (left b <= left a)%nat ->
     ok (k t) b n) ->
  ok (bind (lex Lex.read_token) k) a n.
Proof.
  intros Hk. destruct (Lex.read_token_ok a) as (r & b & Hr & _ & Hlen & Hres).
  unfold ok, bind, lex. rewrite Hr. destruct r as [t|e].
  - apply (Hk t b). unfold left.
    destruct Hres as [[Hp Hi]|(Hp & Hp' & [Ht|Hl])].
    + left. rewrite Hp, Hi. simpl. lia.
    + right. rewrite Hp, Hp'. split; [done|]. lia.
    + left. rewrite Hp, Hp'. lia.
  - exists (Throw (Lex_exception e)), b. split; [done|]. split; [done|]. by injection 1.
Qed.

(** A parser of values that ends, and reads END as null. *)
Definition ends (rv : P Value) (f : nat) : Prop :=
  (forall a, (left a < f)%nat -> ok rv a (left a)) /\
  (forall t b, Lex.type t = Lex.END_ -> rv (Lex.put_back t b) = (Val NULL_, b)).

Lemma object_ok rv f n : forall o a,
  ends rv f -> (left a < n)%nat -> (left a < f)%nat ->
  ok (read_rest_of_object rv n o) a (left a).
Proof.
  induction n as [|n IH]; intros o a Hrv Hn Hf; [lia|]. cbn [read_rest_of_object].
  apply ok_token. intros t b Ht.
  assert (left b <= left a)%nat by lia.
  destruct (is_symbol t _); [by apply ok_ret|]. destruct (_ || _); [|apply ok_fail].
  apply ok_token. intros t2 b2 Ht2. destruct (negb _); [apply ok_fail|].
  eapply ok_bind; [apply Hrv; lia|]. intros v b3 Hb3.
  apply ok_token. intros t4 b4 Ht4. case_bool_decide as Hsym; [|apply ok_fail].
  destruct Ht4 as [Ht4|[Ht4 _]]; [|congruence].
  case_bool_decide; [apply ok_ret; lia|]. destruct (negb _); [apply ok_fail|].
  destruct (IH (map_set (Lex.value t) v o) b4) as (r & b5 & Hr & Hres); [done|lia|lia|].
  exists r, b5. split; [done|]. destruct r; [lia|done].
Qed.

Lemma array_ok rv f n : forall l a,
  ends rv f -> (left a < n)%nat -> (left a < f)%nat ->
  ok (read_rest_of_array rv n l) a (left a).
Proof.
  induction n as [|n IH]; intros l a Hrv Hn Hf; [lia|]. cbn [read_rest_of_array].
  apply ok_token. intros t b Ht.
  destruct (is_symbol t _); [apply ok_ret; lia|].
  unfold bind at 1, put_back.
  eapply (ok_bind _ _ _ _ (left a)).
  - destruct Ht as [Ht|[Ht Hl]].
    + assert (left (Lex.put_back t b) <= left a)%nat by (unfold left in *; simpl in *; lia).
      destruct (proj1 Hrv (Lex.put_back t b)) as (r & b' & Hr & Hres); [lia|].
      exists r, b'. split; [done|]. destruct r; [lia|done].
    + exists (Val NULL_), b. rewrite (proj2 Hrv) by done. done.
  - intros v b3 Hb3.
    apply ok_token. intros t4 b4 Ht4. case_bool_decide as Hsym; [|apply ok_fail].
    destruct Ht4 as [Ht4|[Ht4 _]]; [|congruence].
    case_bool_decide; [apply ok_ret; lia|]. destruct (negb _); [apply ok_fail|].
    destruct (IH (l ++ [v]) b4) as (r & b5 & Hr & Hres); [done|lia|lia|].
    exists r, b5. split; [done|]. destruct r; [lia|done].
Qed.

Lemma catch_lex_ok {A} (m : P A) a n : ok m a n -> ok (catch_lex m) a n.
Proof.
  intros (r & b & Hm & Hr). unfold ok, catch_lex. rewrite Hm.
  destruct r as [x|[[text|]|e]]; eexists _, b; split; done || by destruct Hr.
Qed.

Section total.
Context (stof : bytes -> Z).

Lemma read_end f t b :
  Lex.type t = Lex.END_ -> read_value_fuel stof (S f) (Lex.put_back t b) = (Val NULL_, b).
Proof.
  intros Ht. unfold read_value_fuel, catch_lex, bind, lex, Lex.read_token. cbn. rewrite Ht.
  by destruct b.
Qed.

Lemma read_value_fuel_ok f : forall a, (left a < f)%nat -> ok (read_value_fuel stof f) a (left a).
Proof.
  induction f as [|f IH]; intros a Hf; [lia|]. cbn [read_value_fuel].
  apply catch_lex_ok, ok_token. intros t b Ht.
  assert (left b <= left a)%nat by lia.
  destruct (Lex.type t) eqn:Htype; try (by apply ok_ret); try apply ok_fail.
  - repeat (case_bool_decide; [by apply ok_ret|]). apply ok_fail.
  - destruct Ht as [Ht|[Ht _]]; [|done]. destruct f as [|f]; [lia|].
    assert (ends (read_value_fuel stof (S f)) (S f)) as Hends.
    { split; [apply IH|]. intros. by apply read_end. }
    repeat case_bool_decide; try apply ok_fail.
    + destruct (object_ok _ _ (S f) [] b Hends) as (r & b' & Hr & Hres); [lia..|].
      exists r, b'. split; [done|]. destruct r; [lia|done].
    + destruct (array_ok _ _ (S f) [] b Hends) as (r & b' & Hr & Hres); [lia..|].
      exists r, b'. split; [done|]. destruct r; [lia|done].
Qed.
End total.

(** *** Reading back the tokens the writer prints *)

Definition blank (s : bytes) : Prop := Forall (fun c => is_space c = true) s.
(** What may follow a number or a name. *)
Definition delim (s : bytes) : Prop :=
  match s with [] => True | c :: _ => is_space c = true \/ c = 44 \/ c = 93 \/ c = 125 end.

Lemma lex_val {A} (m : Lex.L A) a x b : m a = (Val x, b) -> lex m a = (Val x, b).
Proof. intros H. unfold lex. by rewrite H. Qed.

Lemma blank_app s r : blank s -> blank r -> blank (s ++ r).
Proof. apply Forall_app_2. Qed.
Lemma blank_spaces n : blank (spaces n).
Proof. unfold spaces. by apply Forall_replicate. Qed.

Lemma delim_blank sp r : blank sp -> delim r -> delim (sp ++ r).
Proof. intros [|c s Hc Hs]; [done|]. intros _. by left. Qed.

Lemma drop_blank sp c i :
  blank sp -> is_space c = false -> drop_while is_space (sp ++ c :: i) = c :: i.
Proof.
  intros Hsp Hc. induction Hsp as [|x s Hx Hs IH]; simpl; [by rewrite Hc|]. by rewrite Hx.
Qed.

(** The lexer at the first character that is not a blank. *)
Lemma skip_space_run sp c i :
  blank sp -> is_space c = false -> Lex.skip_space (init (sp ++ c :: i)) = (Val c, init i).
Proof.
  intros Hsp Hc. unfold Lex.skip_space, bind. cbn. by rewrite drop_blank.
Qed.

Lemma read_token_run t i j :
  Lex.read_token_step (init i) = (Val (Some t), init j) -> Lex.read_token (init i) = (Val t, init j).
Proof.
  intros H. change (Lex.read_token (init i)) with (Lex.read_token_loop (S (length i)) (init i)).
  cbn [Lex.read_token_loop]. by rewrite (bind_val _ _ _ _ _ H).
Qed.

Lemma symbol_token sp c i :
  blank sp -> In [c] json_symbols ->
  Lex.read_token (init (sp ++ c :: i)) = (Val (Lex.mk_Token Lex.SYMBOL [c]), init i).
Proof.
  intros Hsp Hc. apply read_token_run. unfold Lex.read_token_step.
  assert (c = 123 \/ c = 125 \/ c = 58 \/ c = 44 \/ c = 91 \/ c = 93) as Hc'.
  { vm_compute in Hc. destruct_or! Hc; injection Hc; lia. }
  rewrite (bind_val _ _ _ _ _ (skip_space_run sp c i Hsp ltac:(destruct_or! Hc'; by subst))).
  destruct_or! Hc'; subst c; by destruct i.
Qed.

Lemma take_while_app p s rest :
  Forall (fun c => p c = true) s ->
  match rest with [] => True | c :: _ => p c = false end ->
  Lex.take_while p (s ++ rest) = (s, rest).
Proof.
  intros Hs Hr. induction Hs as [|c s Hc Hs IH]; cbn [app Lex.take_while].
  - destruct rest as [|c r]; [done|]. cbn [Lex.take_while]. by rewrite Hr.
  - by rewrite Hc, IH.
Qed.

(** The token that starts with [c]. *)
Lemma token_step sp c i (m : Lex.L Lex.Token) t j :
  blank sp -> is_space c = false -> c <> 0 ->
  (if is_alpha c || (c =? chr "_") then m = Lex.read_name_token c
   else if is_digit c then m = Lex.read_number_token c
   else if c =? 34 then m = Lex.read_string_token
   else c = 45 /\ m = Lex.read_number_token 45 /\
        match i with d :: _ => is_digit d = true | [] => False end) ->
  m (init i) = (Val t, init j) ->
  Lex.read_token (init (sp ++ c :: i)) = (Val t, init j).
Proof.
  intros Hsp Hc H0 Hm Hrun. apply read_token_run. unfold Lex.read_token_step.
  rewrite (bind_val _ _ _ _ _ (skip_space_run sp c i Hsp Hc)).
  rewrite (proj2 (Z.eqb_neq _ _) H0).
  destruct (is_alpha c || _); [subst m; by rewrite (bind_val _ _ _ _ _ Hrun)|].
  destruct (is_digit c); [subst m; by rewrite (bind_val _ _ _ _ _ Hrun)|].
  destruct (c =? 34); [subst m; by rewrite (bind_val _ _ _ _ _ Hrun)|].
  destruct Hm as (-> & -> & Hi). destruct i as [|d i]; [done|].
  change (45 =? chr "-") with true. cbn beta iota.
  rewrite (bind_val Lex.peek _ (init (d :: i)) d (init (d :: i))) by done.
  rewrite Hi. cbn [orb]. by rewrite (bind_val _ _ _ _ _ Hrun).
Qed.

Lemma delim_head rest (p : Z -> bool) :
  delim rest -> (forall c, is_space c = true \/ c = 44 \/ c = 93 \/ c = 125 -> p c = false) ->
  match rest with [] => True | c :: _ => p c = false end.
Proof. destruct rest as [|c r]; simpl; [done|]. auto. Qed.

Lemma number_run c ds rest :
  Forall (fun d => is_digit d = true) ds -> delim rest ->
  Lex.read_number_token c (init (ds ++ rest)) = (Val (Lex.mk_Token Lex.NUMBER (c :: ds)), init rest).
Proof.
  intros Hds Hd. unfold Lex.read_number_token.
  assert (Lex.take_chars is_digit (init (ds ++ rest)) = (Val ds, init rest)) as Ht.
  { unfold Lex.take_chars. cbn [Lex.input init foldl Lex.add_symbol Lex.init json_symbols].
    rewrite take_while_app; [done..|].
    apply delim_head; [done|]. unfold is_space, is_digit. lia. }
  rewrite (bind_val _ _ _ _ _ Ht).
  assert (exists d, Lex.peek (init rest) = (Val d, init rest) /\ d <> 46 /\ d <> 101 /\ d <> 69)
    as (d & Hp & H1 & H2 & H3).
  { destruct rest as [|d r]; [by exists 0|]. exists d. split; [done|]. simpl in Hd.
    unfold is_space in Hd. lia. }
  rewrite (bind_val _ _ _ _ _ Hp). change (chr ".") with 46. change (chr "e") with 101.
  change (chr "E") with 69. rewrite (proj2 (Z.eqb_neq d 46)) by done.
  unfold bind at 1, ret at 1.
  rewrite (proj2 (Z.eqb_neq d 101)), (proj2 (Z.eqb_neq d 69)) by done. done.
Qed.

Lemma name_run c n rest :
  Forall (fun d => is_alpha d = true) n -> delim rest ->
  Lex.read_name_token c (init (n ++ rest)) = (Val (Lex.mk_Token Lex.NAME (c :: n)), init rest).
Proof.
  intros Hn Hd. unfold Lex.read_name_token, bind, get_st, Lex.take_chars.
  cbn [Lex.input init foldl Lex.add_symbol Lex.init json_symbols].
  rewrite take_while_app; [done|..].
  - eapply Forall_impl; [exact Hn|]. intros d Hd'. unfold Lex.is_name_char. by rewrite Hd'.
  - apply delim_head; [done|]. intros d Hd'. unfold Lex.is_name_char, is_alpha, is_digit.
    change (chr "_") with 95. cbn. unfold is_space in Hd'. lia.
Qed.

(** A key, which the writer prints as it is. *)
Lemma key_run k fuel v rest :
  key_ok k -> (length k < fuel)%nat ->
  Lex.read_string_loop fuel v (init (k ++ 34 :: rest)) =
    (Val (Lex.mk_Token Lex.STRING (v ++ k)), init rest).
Proof.
  intros Hk. revert fuel v. induction Hk as [|c k (H0 & H34 & H92) Hk IH]; intros [|fuel] v Hf;
    simpl in Hf; try lia; cbn [Lex.read_string_loop app].
  - by rewrite app_nil_r.
  - unfold bind, Lex.get. cbn [Lex.input init foldl Lex.add_symbol Lex.init json_symbols].
    change (chr "\") with 92. rewrite !(proj2 (Z.eqb_neq _ _)) by done.
    change (Lex.set_input ?i _) with (init i). rewrite IH by lia. by rewrite <- app_assoc.
Qed.

(** *** The [\u] escape *)

Lemma digits_fuel_length fuel base n k :
  1 < base -> 0 <= n < base ^ Z.of_nat k -> (length (digits_fuel fuel base n []) <= k)%nat.
Proof.
  intros Hb. revert fuel n. induction k as [|k IH]; intros [|fuel] n Hn; simpl length; try lia.
  - simpl in Hn. replace n with 0 by lia. simpl. lia.
  - cbn [digits_fuel]. destruct (Z.eqb_spec n 0); [simpl; lia|].
    rewrite digits_fuel_app, length_app. simpl.
    assert (length (digits_fuel fuel base (n / base) []) <= k)%nat; [|lia].
    apply IH. rewrite Nat2Z.inj_succ, Z.pow_succ_r in Hn by lia.
    split; [apply Z.div_pos; lia|apply Z.div_lt_upper_bound; lia].
Qed.

Lemma hex4_ok c : 0 <= c < 65536 ->
  length (hex4 c) = 4%nat /\ digit_text 16 (hex4 c) /\ xtoi (hex4 c) = c.
Proof.
  intros Hc. unfold hex4.
  pose proof (print_base_text 16 c ltac:(lia)) as [Hne Htext].
  assert (0 < length (print_base 16 c) <= 4)%nat as Hlen.
  { split; [destruct (print_base 16 c); [done|simpl; lia]|].
    unfold print_base. destruct (Z.eqb_spec c 0); [simpl; lia|]. rewrite length_map.
    apply digits_fuel_length; [lia|]. change (16 ^ Z.of_nat 4) with 65536. lia. }
  set (z := (4 - length (print_base 16 c))%nat).
  assert (digit_text 16 (replicate z 48 ++ print_base 16 c)) as Hd.
  { split; [intros H; apply app_eq_nil in H; by destruct H|].
    apply Forall_app_2; [|done]. apply Forall_replicate. exists 0. split; [lia|done]. }
  split_and!; [rewrite length_app, length_replicate; lia|done|].
  unfold xtoi, scan_u64. rewrite scan_digits_16_text by done.
  assert (undigits 16 (span_digits 16 (replicate z 48 ++ print_base 16 c)) = c) as ->.
  { assert (forall n, span_digits 16 (replicate n 48 ++ print_base 16 c) =
      replicate n 0 ++ span_digits 16 (print_base 16 c)) as ->.
    { induction n as [|n IH]; [done|]. cbn [replicate app span_digits].
      change (digit_value 16 48) with (Some 0). cbn beta iota. by rewrite IH. }
    rewrite undigits_zeros, span_digits_print; [done|lia|unfold in_u; lia]. }
  rewrite Z.gtb_ltb, (proj2 (Z.ltb_ge _ _)) by lia. apply wrap_small. unfold in_u. lia.
Qed.

(** One character of a string, escaped or not. *)
Lemma escape_run c fuel v i : 0 < c < 65536 ->
  Lex.read_string_loop (S fuel) v (init (escape c ++ i)) =
  Lex.read_string_loop fuel (v ++ UTF8.append c) (init i).
Proof.
  intros Hc. unfold escape. change (chr "\") with 92.
  repeat match goal with |- context [if c =? ?k then _ else _] =>
    destruct (Z.eqb_spec c k) as [->|]; [done|] end.
  rewrite Z.gtb_ltb. destruct (Z.ltb_spec 127 c).
  - rewrite (proj2 (Z.ltb_lt _ _)) by lia.
    destruct (hex4_ok c) as (Hlen & [_ Hd] & Hx); [lia|].
    destruct (hex4 c) as [|h1 [|h2 [|h3 [|h4 [|]]]]] eqn:Hh; try done.
    assert (forall h, (exists d, 0 <= d < 16 /\ h = digit_char d) -> (h =? 0) = false) as Hnz.
    { intros h (d & Hd' & ->). pose proof (digit_char_range d). lia. }
    rewrite !Forall_cons in Hd. destruct Hd as (H1 & H2 & H3 & H4 & _).
    change (str "\u") with [92; 117]. cbn [app Lex.read_string_loop].
    unfold bind at 1, Lex.get at 1. cbn [Lex.input init foldl Lex.add_symbol Lex.init json_symbols].
    change (Lex.set_input ?i _) with (init i).
    change (92 =? 0) with false. change (92 =? 34) with false. change (92 =? chr "\") with true.
    cbn beta iota.
    assert (Lex.read_escape (init (117 :: h1 :: h2 :: h3 :: h4 :: i)) =
      (Val (UTF8.append c), init i)) as Hesc.
    { change (Lex.read_escape (init (117 :: h1 :: h2 :: h3 :: h4 :: i))) with
        ((let! hex := Lex.read_hex 4 [] in ret (UTF8.append (i32 (xtoi hex))))
          (init (h1 :: h2 :: h3 :: h4 :: i))).
      assert (Lex.read_hex 4 [] (init (h1 :: h2 :: h3 :: h4 :: i)) =
        (Val [h1; h2; h3; h4], init i)) as Hhex.
      { assert (forall k hex h j, (h =? 0) = false -> Lex.read_hex (S k) hex (init (h :: j)) =
          Lex.read_hex k (hex ++ [h]) (init j)) as Hstep.
        { intros k hex h j Hz. cbn [Lex.read_hex].
          rewrite (bind_val Lex.get _ (init (h :: j)) h (init j)) by done. by rewrite Hz. }
        rewrite !Hstep by eauto. done. }
      rewrite (bind_val _ _ _ _ _ Hhex), Hx. unfold ret. rewrite swrap_small; [done|lia|].
      unfold in_s. lia. }
    by rewrite (bind_val _ _ _ _ _ Hesc).
  - cbn [app Lex.read_string_loop].
    unfold bind at 1, Lex.get at 1. cbn [Lex.input init foldl Lex.add_symbol Lex.init json_symbols].
    change (Lex.set_input ?i _) with (init i). rewrite u8_small by (unfold byte_ok; lia).
    change (chr "\") with 92. rewrite !(proj2 (Z.eqb_neq _ _)) by lia.
    unfold UTF8.append. rewrite (proj2 (Z.ltb_lt _ _)) by lia.
    change 127 with (Z.ones 7). rewrite Z.land_ones, Z.mod_small by lia. done.
Qed.

Lemma escape_nonempty c : (0 < length (escape c))%nat.
Proof.
  unfold escape. repeat case_match; simpl; lia || (rewrite length_app; simpl; lia).
Qed.

Lemma string_run l : forall fuel v rest,
  Forall (fun c => 0 < c < 65536) l -> (length (flat_map escape l) < fuel)%nat ->
  Lex.read_string_loop fuel v (init (flat_map escape l ++ 34 :: rest)) =
    (Val (Lex.mk_Token Lex.STRING (v ++ UTF8.encode l)), init rest).
Proof.
  induction l as [|c l IH]; intros [|fuel] v rest Hl Hf; cbn [flat_map] in *; try lia.
  - cbn. by rewrite app_nil_r.
  - apply Forall_cons in Hl as [Hc Hl]. rewrite <- app_assoc, escape_run by done.
    rewrite length_app in Hf. pose proof (escape_nonempty c). rewrite IH by (done || lia).
    unfold UTF8.encode. cbn [flat_map]. by rewrite <- app_assoc.
Qed.

(** *** Values *)

Section roundtrip.
Context (stof : bytes -> Z) (show_double : Z -> bytes).

(** [rv] reads back what is printed of [v], and the line end after it. *)
Definition reads_back (rv : P Value) (v : Value) : Prop :=
  forall pretty indent sp rest, blank sp -> delim rest ->
  exists w, blank w /\
    rv (init (sp ++ write_to show_double pretty v indent ++ rest)) = (Val v, init (w ++ rest)).

Lemma value_token f i v b :
  read_value_fuel stof (S f) (init i) = (Val v, b) ->
  exists t c, Lex.read_token (init i) = (Val t, c) /\ is_symbol t (str "]") = false /\
    read_value_fuel stof (S f) (Lex.put_back t c) = (Val v, b).
Proof.
  intros H. destruct (Lex.read_token (init i)) as [[t|e] c] eqn:Ht.
  - exists t, c. split; [done|].
    cbn [read_value_fuel] in H. unfold catch_lex, bind at 1, lex in H. rewrite Ht in H. split.
    + apply not_true_is_false. unfold is_symbol. rewrite andb_true_iff, !bool_decide_eq_true.
      intros [Hs Hv]. rewrite Hs, Hv in H. done.
    + cbn [read_value_fuel]. unfold catch_lex, bind at 1, lex.
      replace (Lex.read_token (Lex.put_back t c)) with (Val (E := Lex.Exception) t, c)
        by (by destruct c). exact H.
  - cbn [read_value_fuel] in H. unfold catch_lex, bind at 1, lex in H. rewrite Ht in H.
    by destruct e.
Qed.

(** A value of one token. *)
Lemma token_value f i t j v :
  Lex.read_token (init i) = (Val t, init j) ->
  match Lex.type t with
  | Lex.NUMBER => v = number_value stof (Lex.value t)
  | Lex.STRING => v = STRING (Lex.value t)
  | Lex.NAME => Lex.value t = str "null" /\ v = NULL_ \/ Lex.value t = str "true" /\ v = TRUE_ \/
      Lex.value t = str "false" /\ v = FALSE_
  | _ => False
  end ->
  read_value_fuel stof (S f) (init i) = (Val v, init j).
Proof.
  intros Ht Hv. cbn [read_value_fuel]. unfold catch_lex.
  rewrite (bind_val _ _ _ _ _ (lex_val _ _ _ _ Ht)).
  destruct (Lex.type t); try done; try (by subst v).
  destruct_or! Hv; destruct Hv as [-> ->]; done.
Qed.

Lemma array_run f a : forall acc n pretty multiline indent sp tl rest,
  Forall (reads_back (read_value_fuel stof (S f))) a -> (length a < n)%nat ->
  blank sp -> blank tl ->
  read_rest_of_array (read_value_fuel stof (S f)) n acc
    (init (sp ++ write_elements (write_to show_double pretty) pretty multiline indent a ++
           tl ++ 93 :: rest)) =
    (Val (ARRAY (acc ++ a)), init rest).
Proof.
  induction a as [|v a IH]; intros acc [|n] pretty multiline indent sp tl rest Ha Hn Hsp Htl;
    simpl in Hn; try lia.
  - cbn [write_elements app read_rest_of_array]. rewrite app_assoc.
    rewrite (bind_val _ _ _ _ _ (lex_val _ _ _ _ (symbol_token (sp ++ tl) 93 rest
      ltac:(by apply blank_app) ltac:(simpl; tauto)))).
    by rewrite app_nil_r.
  - apply Forall_cons in Ha as [Hv Ha].
    set (sp1 := if multiline then spaces (indent + 2) else if pretty then [32] else []).
    set (sep := match a with
                | _ :: _ => 44 :: (if multiline then [10] else [])
                | [] => if multiline then [10] else if pretty then [32] else []
                end).
    set (after := sep ++ write_elements (write_to show_double pretty) pretty multiline indent a ++
                  tl ++ 93 :: rest).
    assert (blank (sp ++ sp1)) as Hsp1.
    { apply blank_app; [done|]. subst sp1. destruct multiline; [apply blank_spaces|].
      destruct pretty; by repeat constructor. }
    assert (delim after) as Hafter.
    { subst after sep. destruct a; [|by right; left]. cbn [write_elements app].
      apply delim_blank; [destruct multiline; [|destruct pretty]; by repeat constructor|].
      apply delim_blank; [done|]. right. by right; left. }
    destruct (Hv pretty (indent + 2) (sp ++ sp1) after Hsp1 Hafter) as (w & Hw & Hrun).
    assert (sp ++ write_elements (write_to show_double pretty) pretty multiline indent (v :: a) ++
      tl ++ 93 :: rest = (sp ++ sp1) ++ write_to show_double pretty v (indent + 2) ++ after) as ->.
    { subst after sep sp1. cbn [write_elements]. by rewrite <- !app_assoc. }
    destruct (value_token _ _ _ _ Hrun) as (t & c & Ht & Hsym & Hback).
    cbn [read_rest_of_array].
    rewrite (bind_val _ _ _ _ _ (lex_val _ _ _ _ Ht)), Hsym.
    unfold bind at 1, put_back. cbn beta iota. rewrite (bind_val _ _ _ _ _ Hback).
    subst after sep. destruct a as [|v' a].
    + cbn [write_elements app].
      set (x := if multiline then [10] else if pretty then [32] else []).
      assert (Lex.read_token (init (w ++ x ++ tl ++ 93 :: rest)) =
        (Val (Lex.mk_Token Lex.SYMBOL [93]), init rest)) as Hend.
      { rewrite 2!app_assoc. apply symbol_token; [|simpl; tauto].
        repeat apply blank_app; [done| |done]. subst x.
        destruct multiline; [|destruct pretty]; by repeat constructor. }
      by rewrite (bind_val _ _ _ _ _ (lex_val _ _ _ _ Hend)).
    + cbn [app].
      rewrite (bind_val _ _ _ _ _ (lex_val _ _ _ _ (symbol_token w 44 _ Hw ltac:(simpl; tauto)))).
      cbn [Lex.type Lex.value]. rewrite bool_decide_eq_true_2 by done.
      rewrite bool_decide_eq_false_2 by done. rewrite bool_decide_eq_true_2 by done. cbn [negb].
      rewrite IH; [by rewrite <- app_assoc|done|lia|destruct multiline; by repeat constructor|done].
Qed.

Lemma string_token sp l rest :
  blank sp -> Forall (fun c => 0 < c < 65536) l ->
  Lex.read_token (init (sp ++ 34 :: flat_map escape l ++ 34 :: rest)) =
    (Val (Lex.mk_Token Lex.STRING (UTF8.encode l)), init rest).
Proof.
  intros Hsp Hl. eapply (token_step _ _ _ Lex.read_string_token); [done..|].
  apply (string_run l (S (length (flat_map escape l ++ 34 :: rest))) []); [done|].
  rewrite length_app. simpl. lia.
Qed.

Lemma key_token sp k rest :
  blank sp -> key_ok k ->
  Lex.read_token (init (sp ++ 34 :: k ++ 34 :: rest)) =
    (Val (Lex.mk_Token Lex.STRING k), init rest).
Proof.
  intros Hsp Hk. eapply (token_step _ _ _ Lex.read_string_token); [done..|].
  apply (key_run k (S (length (k ++ 34 :: rest))) []); [done|].
  rewrite length_app. simpl. lia.
Qed.

Lemma colon_token i :
  Lex.read_token (init (58 :: i)) = (Val (Lex.mk_Token Lex.SYMBOL [58]), init i).
Proof. apply (symbol_token [] 58 i); [constructor|simpl; tauto]. Qed.

Lemma object_run rv o : forall acc n pretty indent sp tl rest,
  sorted (acc ++ o) -> Forall (fun kv => key_ok (fst kv) /\ reads_back rv (snd kv)) o ->
  (length o < n)%nat -> blank sp -> blank tl ->
  read_rest_of_object rv n acc
    (init (sp ++ write_members (write_to show_double pretty) pretty indent o ++
           tl ++ 125 :: rest)) =
    (Val (OBJECT (acc ++ o)), init rest).
Proof.
  induction o as [|[k v] o IH]; intros acc [|n] pretty indent sp tl rest Hs Ho Hn Hsp Htl;
    simpl in Hn; try lia.
  - cbn [write_members app read_rest_of_object]. rewrite app_assoc.
    rewrite (bind_val _ _ _ _ _ (lex_val _ _ _ _ (symbol_token (sp ++ tl) 125 rest
      ltac:(by apply blank_app) ltac:(simpl; tauto)))).
    by rewrite app_nil_r.
  - apply Forall_cons in Ho as [[Hk Hv] Ho]. simpl in Hk, Hv.
    set (sp1 := if pretty then spaces (indent + 2) else []).
    set (sp2 := if pretty then if is_block v then 10 :: spaces (indent + 2) else [32] else []).
    set (nl := if pretty then [10] else []).
    set (after := match o with [] => [] | _ => [44] end ++ nl ++
      write_members (write_to show_double pretty) pretty indent o ++ tl ++ 125 :: rest).
    assert (blank (sp ++ sp1)) as Hsp1.
    { apply blank_app; [done|]. subst sp1. destruct pretty; [apply blank_spaces|constructor]. }
    assert (blank sp2) as Hsp2.
    { subst sp2. destruct pretty; [|constructor].
      destruct (is_block v); [constructor; [done|apply blank_spaces]|by repeat constructor]. }
    assert (blank nl) as Hnl by (subst nl; destruct pretty; by repeat constructor).
    assert (delim after) as Hafter.
    { subst after. destruct o; [|by right; left]. cbn [write_members app].
      apply delim_blank; [done|]. apply delim_blank; [done|]. by right; right; right. }
    destruct (Hv pretty (indent + 2) sp2 after Hsp2 Hafter) as (w & Hw & Hrun).
    assert (sp ++ write_members (write_to show_double pretty) pretty indent ((k, v) :: o) ++
      tl ++ 125 :: rest = (sp ++ sp1) ++ 34 :: k ++ 34 :: 58 :: sp2 ++
        write_to show_double pretty v (indent + 2) ++ after) as ->.
    { subst after nl sp2 sp1. cbn [write_members]. rewrite <- !app_assoc. cbn [app].
      rewrite <- !app_assoc. cbn [app]. by rewrite <- !app_assoc. }
    cbn [read_rest_of_object].
    rewrite (bind_val _ _ _ _ _ (lex_val _ _ _ _ (key_token _ k _ Hsp1 Hk))).
    cbn [Lex.value Lex.type is_symbol].
    change (is_symbol (Lex.mk_Token Lex.STRING k) (str "}")) with false. cbn beta iota.
    rewrite (bool_decide_eq_true_2 (Lex.STRING = Lex.STRING)) by done. rewrite orb_true_r.
    rewrite (bind_val _ _ _ _ _ (lex_val _ _ _ _ (colon_token _))).
    change (negb (is_symbol (Lex.mk_Token Lex.SYMBOL [58]) (str ":"))) with false. cbn beta iota.
    rewrite (bind_val _ _ _ _ _ Hrun).
    rewrite (map_set_snoc k v acc None)
      by (apply (keys_from_init _ o); by rewrite <- app_assoc).
    subst after. destruct o as [|[k' v'] o].
    + cbn [write_members app].
      assert (Lex.read_token (init (w ++ nl ++ tl ++ 125 :: rest)) =
        (Val (Lex.mk_Token Lex.SYMBOL [125]), init rest)) as Hend.
      { rewrite 2!app_assoc. apply symbol_token; [|simpl; tauto]. by repeat apply blank_app. }
      by rewrite (bind_val _ _ _ _ _ (lex_val _ _ _ _ Hend)).
    + cbn [app].
      rewrite (bind_val _ _ _ _ _ (lex_val _ _ _ _ (symbol_token w 44 _ Hw ltac:(simpl; tauto)))).
      cbn [Lex.type Lex.value]. rewrite bool_decide_eq_true_2 by done.
      rewrite bool_decide_eq_false_2 by done. rewrite bool_decide_eq_true_2 by done. cbn [negb].
      rewrite IH; [by rewrite <- app_assoc|by rewrite <- app_assoc|done|simpl in *; lia|done|done].
Qed.

Lemma digit_text_digits s :
  Forall (fun c => exists d, 0 <= d < 10 /\ c = digit_char d) s ->
  Forall (fun c => is_digit c = true) s.
Proof.
  intros Hs. eapply Forall_impl; [exact Hs|]. intros c (d & Hd & ->).
  unfold digit_char, is_digit. destruct (Z.ltb_spec d 10); lia.
Qed.

Lemma no_point s : Forall (fun c => is_digit c = true) s -> existsb (Z.eqb (chr ".")) s = false.
Proof.
  intros Hs. induction Hs as [|c s Hc Hs IH]; [done|]. cbn [existsb]. rewrite IH.
  change (chr ".") with 46. unfold is_digit in Hc. lia.
Qed.

Lemma integer_value f sp n rest :
  in_s 64 n -> blank sp -> delim rest ->
  read_value_fuel stof (S f) (init (sp ++ itos n ++ rest)) = (Val (INTEGER n), init rest).
Proof.
  intros Hn Hsp Hd. pose proof Hn as Hn'. unfold in_s in Hn'.
  change (2 ^ (64 - 1)) with 9223372036854775808 in Hn'.
  unfold itos. destruct (Z.ltb_spec n 0).
  - pose proof (print_base_text 10 (- n) ltac:(lia)) as [Hne Hds]. apply digit_text_digits in Hds.
    pose proof (stoi64_minus (- n) ltac:(lia)) as Hval.
    destruct (print_base 10 (- n)) as [|c ds]; [done|].
    eapply (token_value _ _ (Lex.mk_Token Lex.NUMBER (45 :: c :: ds))).
    + cbn [app]. eapply (token_step _ 45 _ (Lex.read_number_token 45)); [done..| |].
      * pose proof Hds as Hds0. apply Forall_cons in Hds0 as [Hc _].
        exact (conj eq_refl (conj eq_refl Hc)).
      * change (c :: ds ++ rest) with ((c :: ds) ++ rest). by apply number_run.
    + cbn [Lex.type Lex.value]. unfold number_value. rewrite Hval.
      cbn [existsb]. change (chr "." =? 45) with false. cbn [orb].
      pose proof (no_point _ Hds) as Hnp. cbn [existsb] in Hnp. rewrite Hnp.
      f_equal. unfold swrap. change (2 ^ 64) with 18446744073709551616.
      change (2 ^ (64 - 1)) with 9223372036854775808.
      replace (18446744073709551616 - - n + 9223372036854775808)
        with (n + 9223372036854775808 + 1 * 18446744073709551616) by lia.
      rewrite Z.mod_add, Z.mod_small by lia. lia.
  - pose proof (print_base_text 10 n ltac:(lia)) as [Hne Hds]. apply digit_text_digits in Hds.
    pose proof (stoi64_print n ltac:(unfold in_u; lia)) as Hval.
    destruct (print_base 10 n) as [|c ds]; [done|].
    eapply (token_value _ _ (Lex.mk_Token Lex.NUMBER (c :: ds))).
    + cbn [app]. pose proof Hds as Hds0. apply Forall_cons in Hds0 as [Hc Hds0].
      eapply (token_step _ c _ (Lex.read_number_token c)); [done| | | |by apply number_run].
      * unfold is_digit in Hc. unfold is_space. lia.
      * unfold is_digit in Hc. lia.
      * rewrite Hc. replace (is_alpha c || (c =? chr "_")) with false; [done|].
        change (chr "_") with 95. unfold is_digit in Hc. unfold is_alpha. lia.
    + cbn [Lex.type Lex.value]. unfold number_value. rewrite Hval, no_point by done.
      by rewrite swrap_small by (lia || done).
Qed.

Lemma in_list_sum x l : In x l -> (x <= list_sum l)%nat.
Proof. induction l as [|y l IH]; simpl; [done|]. intros [->|H]; [lia|]. specialize (IH H). lia. Qed.

Lemma weight_pos v : (1 <= weight v)%nat.
Proof. destruct v; simpl; lia. Qed.

Lemma length_list_sum {A} (g : A -> nat) l :
  (forall x, 1 <= g x)%nat -> (length l <= list_sum (map g l))%nat.
Proof. intros Hg. induction l as [|x l IH]; simpl; [done|]. specialize (Hg x). lia. Qed.

(** The text of a block is at least as long as the turns it takes. *)
Lemma weight_members indent pretty o :
  Forall (fun kv => forall pretty indent,
    (weight (snd kv) <= length (write_to show_double pretty (snd kv) indent))%nat) o ->
  (list_sum (map (fun '(_, v) => weight v) o) <=
   length (write_members (write_to show_double pretty) pretty indent o))%nat.
Proof.
  intros Ho. induction Ho as [|[k v] o Hv Ho IH]; [done|]. cbn [map write_members].
  simpl in Hv. specialize (Hv pretty (indent + 2)). cbn [list_sum foldr]. 
  rewrite !length_app, length_cons, !length_app. unfold list_sum in IH. simpl. lia.
Qed.

Lemma weight_elements indent pretty multiline a :
  Forall (fun v => forall pretty indent,
    (weight v <= length (write_to show_double pretty v indent))%nat) a ->
  (list_sum (map weight a) <=
   length (write_elements (write_to show_double pretty) pretty multiline indent a))%nat.
Proof.
  intros Ha. induction Ha as [|v a Hv Ha IH]; [done|]. cbn [map write_elements].
  specialize (Hv pretty (indent + 2)). cbn [list_sum foldr].
  rewrite !length_app. unfold list_sum in IH. simpl. lia.
Qed.

Lemma weight_length v : printable v -> forall pretty indent,
  (weight v <= length (write_to show_double pretty v indent))%nat.
Proof.
  induction v as [| |f|n|s|o IH|a IH| | |s|] using Value_nested_ind; intros Hp pretty indent;
    inversion Hp; subst; clear Hp; try (simpl; lia).
  - simpl. unfold itos. destruct (n <? 0); [simpl; lia|].
    destruct (print_base_text 10 n) as [Hne _]; [lia|].
    destruct (print_base 10 n); [done|simpl; lia].
  - cbn [weight write_to]. unfold write_object_to. rewrite !length_cons, !length_app. simpl.
    assert (list_sum (map (fun '(_, v) => weight v) o) <=
      length (write_members (write_to show_double pretty) pretty indent o))%nat; [|lia].
    apply weight_members. rewrite Forall_forall in *. intros kv Hin. apply (IH _ Hin).
    match goal with H : forall x, _ -> key_ok _ /\ _ |- _ => by destruct (H _ Hin) end.
  - cbn [weight write_to]. unfold write_array_to. rewrite !length_cons, !length_app. simpl.
    match goal with |- context [write_elements _ _ ?m _ _] =>
      assert (list_sum (map weight a) <=
        length (write_elements (write_to show_double pretty) pretty m indent a))%nat; [|lia] end.
    apply weight_elements. rewrite Forall_forall in *. naive_solver.
Qed.

Lemma name_value f sp c n rest v :
  blank sp -> delim rest -> is_alpha c = true -> is_space c = false -> c <> 0 ->
  Forall (fun c => is_alpha c = true) n ->
  c :: n = str "null" /\ v = NULL_ \/ c :: n = str "true" /\ v = TRUE_ \/
    c :: n = str "false" /\ v = FALSE_ ->
  read_value_fuel stof (S f) (init (sp ++ (c :: n) ++ rest)) = (Val v, init rest).
Proof.
  intros Hsp Hd Hc Hs H0 Hn Hv. eapply (token_value _ _ (Lex.mk_Token Lex.NAME (c :: n))); [|done].
  cbn [app]. eapply (token_step _ c _ (Lex.read_name_token c)); [done..| |by apply name_run].
  by rewrite Hc.
Qed.

Lemma object_value f i j v b :
  Lex.read_token (init i) = (Val (Lex.mk_Token Lex.SYMBOL [123]), init j) ->
  read_rest_of_object (read_value_fuel stof f) f [] (init j) = (Val v, b) ->
  read_value_fuel stof (S f) (init i) = (Val v, b).
Proof.
  intros Ht Hv. cbn [read_value_fuel]. unfold catch_lex at 1.
  rewrite (bind_val _ _ _ _ _ (lex_val _ _ _ _ Ht)). cbn [Lex.type Lex.value].
  rewrite bool_decide_eq_true_2 by done. by rewrite Hv.
Qed.

Lemma array_value f i j v b :
  Lex.read_token (init i) = (Val (Lex.mk_Token Lex.SYMBOL [91]), init j) ->
  read_rest_of_array (read_value_fuel stof f) f [] (init j) = (Val v, b) ->
  read_value_fuel stof (S f) (init i) = (Val v, b).
Proof.
  intros Ht Hv. cbn [read_value_fuel]. unfold catch_lex at 1.
  rewrite (bind_val _ _ _ _ _ (lex_val _ _ _ _ Ht)). cbn [Lex.type Lex.value].
  rewrite bool_decide_eq_false_2, bool_decide_eq_true_2 by done. by rewrite Hv.
Qed.

Lemma printed_object f o : sorted o ->
  Forall (fun kv => key_ok (fst kv) /\ reads_back (read_value_fuel stof (S f)) (snd kv)) o ->
  (length o <= f)%nat -> reads_back (read_value_fuel stof (S (S f))) (OBJECT o).
Proof.
  intros Hs Ho Hf pretty indent sp rest Hsp Hd.
  set (m := pretty && match o with [] => false | _ => true end).
  exists (if m && (indent =? 0) then [10] else []).
  split; [destruct (m && _); by repeat constructor|].
  assert (sp ++ write_to show_double pretty (OBJECT o) indent ++ rest =
    sp ++ 123 :: (if m then [10] else []) ++
      write_members (write_to show_double pretty) pretty indent o ++
      (if m then spaces indent else []) ++ 125 :: (if m && (indent =? 0) then [10] else []) ++ rest)
    as ->.
  { cbn [write_to]. unfold write_object_to. fold m. cbn [app]. by rewrite <- !app_assoc. }
  eapply object_value; [apply (symbol_token sp 123 _ Hsp); simpl; tauto|].
  apply object_run; [done|done|lia| |].
  - destruct m; by repeat constructor.
  - destruct m; [apply blank_spaces|constructor].
Qed.

Lemma printed_array f a :
  Forall (reads_back (read_value_fuel stof (S f))) a -> (length a <= f)%nat ->
  reads_back (read_value_fuel stof (S (S f))) (ARRAY a).
Proof.
  intros Ha Hf pretty indent sp rest Hsp Hd.
  set (m := pretty && existsb is_block a).
  exists (if m && (indent =? 0) then [10] else []).
  split; [destruct (m && _); by repeat constructor|].
  assert (sp ++ write_to show_double pretty (ARRAY a) indent ++ rest =
    sp ++ 91 :: (if m then [10] else []) ++
      write_elements (write_to show_double pretty) pretty m indent a ++
      (if m then spaces indent else []) ++ 93 :: (if m && (indent =? 0) then [10] else []) ++ rest)
    as ->.
  { cbn [write_to]. unfold write_array_to. fold m. cbn [app]. by rewrite <- !app_assoc. }
  eapply array_value; [apply (symbol_token sp 91 _ Hsp); simpl; tauto|].
  apply array_run; [done|lia| |].
  - destruct m; by repeat constructor.
  - destruct m; [apply blank_spaces|constructor].
Qed.

Lemma printed_value v : printable v -> forall fuel, (weight v <= fuel)%nat ->
  reads_back (read_value_fuel stof fuel) v.
Proof.
  induction v as [| |f|n|s|o IH|a IH| | |s|] using Value_nested_ind; intros Hp [|fuel] Hf;
    try (simpl in Hf; lia); inversion_clear Hp.
  1-3,6-7: intros pretty indent sp rest Hsp Hd; exists []; (split; [constructor|]).
  - apply (name_value fuel sp 110 (str "ull")); try done; [by repeat constructor|by left].
  - by apply integer_value.
  - cbn [write_to app]. unfold write_string_to.
    rewrite decode_encode by (eapply Forall_impl; [done|]; simpl; lia).
    eapply (token_value _ _ (Lex.mk_Token Lex.STRING (UTF8.encode l))); [|done].
    cbn [app]. rewrite <- app_assoc. by apply string_token.
  - apply (name_value fuel sp 116 (str "rue")); try done; [by repeat constructor|by right; left].
  - apply (name_value fuel sp 102 (str "alse")); try done; [by repeat constructor|by right; right].
  - cbn [weight] in Hf. destruct fuel as [|fuel]; [lia|]. apply printed_object; [done| |].
    + rewrite Forall_forall in *. intros [k v] Hin. pose proof (IH _ Hin) as IHv.
      match goal with H : forall x, _ -> key_ok _ /\ _ |- _ => destruct (H _ Hin) as [Hk Hv] end.
      split; [done|]. apply IHv; [done|].
      assert (weight v <= list_sum (map (fun '(_, v) => weight v) o))%nat; [|simpl; lia].
      apply in_list_sum, in_map_iff. exists (k, v). split; [done|]. by apply list_elem_of_In.
    + assert (length o <= list_sum (map (fun '(_, v) => weight v) o))%nat; [|lia].
      apply length_list_sum. intros [k v]. apply weight_pos.
  - cbn [weight] in Hf. destruct fuel as [|fuel]; [lia|]. apply printed_array.
    + rewrite Forall_forall in *. intros v Hin. apply (IH _ Hin); [naive_solver|].
      assert (weight v <= list_sum (map weight a))%nat; [|lia].
      apply in_list_sum, in_map_iff. exists v. split; [done|]. by apply list_elem_of_In.
    + assert (length a <= list_sum (map weight a))%nat; [|lia].
      apply length_list_sum, weight_pos.
Qed.
End roundtrip.

Lemma read_printed stof show_double v : printable v ->
  forall pretty sp rest, blank sp -> delim rest -> exists w, blank w /\
    read_value stof (init (sp ++ to_str show_double pretty v ++ rest)) = (Val v, init (w ++ rest)).
Proof.
  intros Hv pretty sp rest Hsp Hd. apply (printed_value stof show_double v Hv); [|done|done].
  pose proof (weight_length show_double v Hv pretty 0). unfold left.
  cbn [Lex.input init foldl Lex.add_symbol Lex.init json_symbols]. rewrite !length_app.
  unfold to_str. lia.
Qed.
Lemma parse_printed stof show_double pretty v : printable v -> parse stof (to_str show_double pretty v) = Val v.
Proof.
  intros Hv. destruct (read_printed stof show_double v Hv pretty [] []) as (w & _ & Hrun); [constructor|done|].
  cbn [app] in Hrun. rewrite app_nil_r in Hrun. unfold parse. by rewrite Hrun.
Qed.

(* ------------------------------------------------------------------ *)
(** ** Properties *)

(** C2: parsing what the writer prints of a printable value, indented or not, gives the
    value back, and the parser is left after it, so that a stream of values is
    read one after another.  Printable ([printable]) are null, true and false, integers of 64
    bits, strings of the UTF-8 of any characters from 1 to 65535 (every escape included), arrays, and
    objects in the order of a map whose names have no NUL, no quote and no backslash, which the writer
    leaves as they are (value.cc:112), with printable members; not printable are, besides
    objects with other names, floating-point numbers, binary and undefined values. *)
Theorem json_roundtrip stof show_double v :
  printable v ->
  (forall pretty, parse stof (to_str show_double pretty v) = Val v) /\
  (forall pretty sp rest, blank sp -> delim rest -> exists w, blank w /\
     read_value stof (init (sp ++ to_str show_double pretty v ++ rest)) = (Val v, init (w ++ rest))).
Proof. intros Hv. split; intros pretty; [by apply parse_printed|by apply read_printed]. Qed.

(** The parser gives a value or throws a [JSON::Exception] on every text,
    lexical errors included: it always ends. *)
Theorem parser_total stof text :
  match parse stof text with
  | Val _ => True
  | Throw e => exists t, e = Json_exception (Error t)
  end.
Proof.
  unfold parse, read_value. set (a := init text).
  pose proof (read_value_fuel_ok stof (2 + left a) a ltac:(lia)) as (r & b & Hr & Hres).
  rewrite Hr. simpl. destruct r as [v|e]; [done|]. destruct Hres as [H1 H2].
  assert (forall x, Lex_exception x <> e) as Hlex.
  { intros x <-. cbn [read_value_fuel Nat.add] in Hr. unfold catch_lex in Hr.
    destruct x; [|done]. by repeat case_match. }
  destruct e as [e|[t|]]; [by destruct (Hlex e)|by exists t|done].
Qed.

(* ------------------------------------------------------------------ *)
(** ** Witnesses *)

Lemma json_roundtrip_witness :
  parse (fun _ => 0) (to_str (fun _ => []) true sample) = Val sample.
Proof.
  apply (json_roundtrip (fun _ => 0) (fun _ => []) sample).
  constructor; [by repeat split|].
  constructor; [split; [repeat constructor; lia|]|constructor; [split|constructor]].
  - constructor. constructor; [constructor; unfold in_s; lia|].
    constructor; [constructor; unfold in_s; lia|].
    constructor; [constructor; repeat constructor; lia|].
    constructor; [|constructor]. constructor; [done|constructor].
  - repeat constructor; lia.
  - constructor.
Defined.

End Parser.
