(* ===== verification/Ring.v ===== *)
(** * Lock-free ring buffer

    Models [src/libs/ring/ot-ring.h].  One thread puts while another gets, without a
    lock, so each operation of [Buffer] is a program ([prog]) of its accesses to the
    shared indices, which are sequentially consistent atomics, and to the items, in
    the order of the source (left operands first, where C++ leaves it open).  [run]
    executes a program with nothing in between; [move] takes one access of one of the
    two threads, so that a run of the system is any interleaving of the accesses.
    [accepted] and [taken] record what the operations accepted and returned, for the
    theorems. *)
From S2P Require Export Prelude.

Section ring.
Context {A : Type} (blank : A).

Record Buffer := mk_Buffer { items : list A; in_index : Z; out_index : Z }.

(** [Buffer(int length): items(length+1)] *)
Definition init (length : Z) : Buffer :=
  mk_Buffer (replicate (Z.to_nat (length + 1)) blank) 0 0.

Definition item_at (b : Buffer) (i : Z) : A := nth (Z.to_nat i) (items b) blank.
Definition set_item (b : Buffer) (i : Z) (x : A) : Buffer :=
  mk_Buffer (<[Z.to_nat i := x]> (items b)) (in_index b) (out_index b).
Definition set_in (b : Buffer) (i : Z) : Buffer := mk_Buffer (items b) i (out_index b).
Definition set_out (b : Buffer) (i : Z) : Buffer := mk_Buffer (items b) (in_index b) i.

(** ** The operations, as programs of accesses *)

Inductive prog (R : Type) :=
  | Ret (r : R)
  | LoadIn (k : Z -> prog R)
  | LoadOut (k : Z -> prog R)
  | StoreIn (i : Z) (p : prog R)
  | StoreOut (i : Z) (p : prog R)
  | ReadItem (i : Z) (k : A -> prog R)
  | WriteItem (i : Z) (x : A) (p : prog R).
Arguments Ret {R}. Arguments LoadIn {R}. Arguments LoadOut {R}. Arguments StoreIn {R}.
Arguments StoreOut {R}. Arguments ReadItem {R}. Arguments WriteItem {R}.

(** One access: what is left of the program, and the buffer after it. *)
Definition access {R} (p : prog R) (b : Buffer) : option (prog R * Buffer) :=
  match p with
  | Ret _ => None
  | LoadIn k => Some (k (in_index b), b)
  | LoadOut k => Some (k (out_index b), b)
  | StoreIn i p => Some (p, set_in b i)
  | StoreOut i p => Some (p, set_out b i)
  | ReadItem i k => Some (k (item_at b i), b)
  | WriteItem i x p => Some (p, set_item b i x)
  end.

Definition after {R S} (p : prog R) (b : Buffer) (f : prog R -> Buffer -> S) : option S :=
  match access p b with Some (p, b) => Some (f p b) | None => None end.

(** All the accesses, with nothing in between. *)
Fixpoint run {R} (p : prog R) (b : Buffer) : R * Buffer :=
  match p with
  | Ret r => (r, b)
  | LoadIn k => run (k (in_index b)) b
  | LoadOut k => run (k (out_index b)) b
  | StoreIn i p => run p (set_in b i)
  | StoreOut i p => run p (set_out b i)
  | ReadItem i k => run (k (item_at b i)) b
  | WriteItem i x p => run p (set_item b i x)
  end.

(** [slots] is [items.size()], which the constructor fixes. *)

(** [(++n>=items.size())?0:n] *)
Definition inc (slots n : Z) : Z :=
  let n := u32 (n + 1) in if n >=? slots then 0 else n.

Definition put (slots : Z) (x : A) : prog bool :=
  LoadIn (fun i =>
  let next_in_index := inc slots i in
  LoadOut (fun o =>
  if next_in_index =? o then Ret false else
  LoadIn (fun i =>
  WriteItem i x
  (StoreIn next_in_index
  (Ret true))))).

Definition get (slots : Z) : prog (option A) :=
  LoadOut (fun o => LoadIn (fun i =>
  if o =? i then Ret None else
  LoadOut (fun o => ReadItem o (fun x =>
  LoadOut (fun o => StoreOut (inc slots o)
  (Ret (Some x))))))).

Definition flush_from_put : prog unit := LoadOut (fun o => StoreIn o (Ret tt)).
Definition flush_from_get : prog unit := LoadIn (fun i => StoreOut i (Ret tt)).
Definition size (slots : Z) : Z := u32 (slots - 1).
Definition used (slots : Z) : prog Z :=
  LoadOut (fun o => LoadIn (fun i =>
  if o <=? i
  then LoadIn (fun i => LoadOut (fun o => Ret (u32 (i - o))))
  else LoadIn (fun i => LoadOut (fun o => Ret (u32 (i + slots - o)))))).

(** ** The two threads *)

(** What a thread is in the middle of: what is left of an operation's program. *)
Inductive putter_state :=
  | Put_idle
  | Putting (x : A) (p : prog bool)
  | Put_flushing (p : prog unit)
  | Put_using (p : prog Z).
Inductive getter_state :=
  | Get_idle
  | Getting (p : prog (option A))
  | Get_flushing (p : prog unit)
  | Get_using (p : prog Z).

(** [taken]: the items that left the ring, each returned by [get] ([true]) or
    flushed by the getter ([false]). *)
Record system := mk_system {
  ring : Buffer; putter : putter_state; getter : getter_state;
  accepted : list A; taken : list (bool * A)
}.

Definition start (length : Z) : system := mk_system (init length) Put_idle Get_idle [] [].

(** The items from [out] up to [in_], in order. *)
Definition between (b : Buffer) (out in_ : Z) : list A :=
  map (fun k => item_at b ((out + k) mod zlen (items b)))
    (zseq 0 (Z.to_nat ((in_ - out) mod zlen (items b)))).
Definition contents (b : Buffer) : list A := between b (out_index b) (in_index b).
Definition got (s : system) : list A := map snd (filter (fun x => fst x = true) (taken s)).

(** An idle thread calls an operation, or a busy one makes its next access. *)
Inductive event :=
  | Call_put (x : A) | Call_flush_from_put | Call_used_from_put | Access_put
  | Call_get | Call_flush_from_get | Call_used_from_get | Access_get.

Definition with_putter (s : system) (p : putter_state) : system :=
  mk_system (ring s) p (getter s) (accepted s) (taken s).
Definition with_getter (s : system) (g : getter_state) : system :=
  mk_system (ring s) (putter s) g (accepted s) (taken s).

(** The putting thread makes an access; with the last one the operation is over. *)
Definition access_put (s : system) : option system :=
  match putter s with
  | Put_idle => None
  | Putting x p =>
      after p (ring s) (fun p b =>
           match p with
           | Ret ok => mk_system b Put_idle (getter s)
                         (if ok then accepted s ++ [x] else accepted s) (taken s)
           | _ => mk_system b (Putting x p) (getter s) (accepted s) (taken s)
           end)
  | Put_flushing p =>
      after p (ring s) (fun p b =>
            mk_system b match p with Ret _ => Put_idle | _ => Put_flushing p end
              (getter s) (accepted s) (taken s))
  | Put_using p =>
      after p (ring s) (fun p b =>
            mk_system b match p with Ret _ => Put_idle | _ => Put_using p end
              (getter s) (accepted s) (taken s))
  end.

Definition access_get (s : system) : option system :=
  match getter s with
  | Get_idle => None
  | Getting p =>
      after p (ring s) (fun p b =>
           match p with
           | Ret (Some x) => mk_system b (putter s) Get_idle (accepted s) (taken s ++ [(true, x)])
           | Ret None => mk_system b (putter s) Get_idle (accepted s) (taken s)
           | _ => mk_system b (putter s) (Getting p) (accepted s) (taken s)
           end)
  | Get_flushing p =>
      after p (ring s) (fun p b =>
           match p with
           | Ret _ => mk_system b (putter s) Get_idle (accepted s)
                        (taken s ++ map (pair false)
                           (between (ring s) (out_index (ring s)) (out_index b)))
           | _ => mk_system b (putter s) (Get_flushing p) (accepted s) (taken s)
           end)
  | Get_using p =>
      after p (ring s) (fun p b =>
            mk_system b (putter s) match p with Ret _ => Get_idle | _ => Get_using p end
              (accepted s) (taken s))
  end.

Definition move (s : system) (e : event) : option system :=
  let slots := zlen (items (ring s)) in
  match e, putter s, getter s with
  | Call_put x, Put_idle, _ => Some (with_putter s (Putting x (put slots x)))
  | Call_flush_from_put, Put_idle, _ => Some (with_putter s (Put_flushing flush_from_put))
  | Call_used_from_put, Put_idle, _ => Some (with_putter s (Put_using (used slots)))
  | Access_put, _, _ => access_put s
  | Call_get, _, Get_idle => Some (with_getter s (Getting (get slots)))
  | Call_flush_from_get, _, Get_idle => Some (with_getter s (Get_flushing flush_from_get))
  | Call_used_from_get, _, Get_idle => Some (with_getter s (Get_using (used slots)))
  | Access_get, _, _ => access_get s
  | _, _, _ => None
  end.

Fixpoint play (s : system) (es : list event) : option system :=
  match es with
  | [] => Some s
  | e :: es => match move s e with Some s => play s es | None => None end
  end.

(** [flush_put] says whether the putter may flush. *)
Inductive step (flush_put : bool) (s s' : system) : Prop :=
  | step_move e :
      (e = Call_flush_from_put -> flush_put = true) -> move s e = Some s' ->
      step flush_put s s'.

Definition reachable (flush_put : bool) (length : Z) (s : system) : Prop :=
  rtc (step flush_put) (start length) s.
End ring.
Arguments Buffer A : clear implicits.
Arguments system A : clear implicits.
Arguments putter_state A : clear implicits.
Arguments getter_state A : clear implicits.
Arguments event A : clear implicits.
Arguments prog A R : clear implicits.
Arguments Ret {A R}. Arguments LoadIn {A R}. Arguments LoadOut {A R}. Arguments StoreIn {A R}.
Arguments StoreOut {A R}. Arguments ReadItem {A R}. Arguments WriteItem {A R}.

(* ------------------------------------------------------------------ *)
(** ** Lemmas *)

Section invariant.
Context {A : Type} (blank : A) (length : Z) (Hlength : 0 <= length < 2147483648).

(** The indices are the numbers of items accepted and taken, modulo the number
    of slots; the slots between them hold the last items accepted. *)
Definition pending_ok (b : Buffer A) (acc : list A) (R : Z) : Prop :=
  zlen (items b) = length + 1 /\ in_index b = zlen acc mod (length + 1) /\
  out_index b = R mod (length + 1) /\ 0 <= R <= zlen acc /\ zlen acc <= R + length /\
  forall k, R <= k < zlen acc ->
    item_at blank b (k mod (length + 1)) = nth (Z.to_nat k) acc blank.

(** What is left of the operations after some of their accesses. *)
Definition put_publish (next : Z) : prog A bool := StoreIn next (Ret true).
Definition put_write (x : A) (next i : Z) : prog A bool := WriteItem i x (put_publish next).
Definition put_room (x : A) (next : Z) : prog A bool := LoadIn (put_write x next).
Definition put_check (x : A) (next : Z) : prog A bool :=
  LoadOut (fun o => if next =? o then Ret false else put_room x next).
Definition get_publish (x : A) (out : Z) : prog A (option A) := StoreOut out (Ret (Some x)).
Definition get_next (x : A) : prog A (option A) :=
  LoadOut (fun o => get_publish x (inc (length + 1) o)).
Definition get_item (o : Z) : prog A (option A) := ReadItem o get_next.
Definition get_some : prog A (option A) := LoadOut get_item.
Definition get_check (o : Z) : prog A (option A) :=
  LoadIn (fun i => if o =? i then Ret None else get_some).

(** A program that changes nothing. *)
Fixpoint reads_only {R} (p : prog A R) : Prop :=
  match p with
  | Ret _ => True
  | LoadIn k | LoadOut k => forall i, reads_only (k i)
  | ReadItem _ k => forall x, reads_only (k x)
  | StoreIn _ _ | StoreOut _ _ | WriteItem _ _ _ => False
  end.

(** What the threads know, wherever they are. *)
Inductive putter_at (b : Buffer A) (acc : list A) (R : Z) : putter_state A -> Prop :=
  | at_put_idle : putter_at b acc R Put_idle
  | at_put x : putter_at b acc R (Putting x (put (length + 1) x))
  | at_put_check x : putter_at b acc R (Putting x (put_check x ((zlen acc + 1) mod (length + 1))))
  | at_put_room x :
      zlen acc < R + length ->
      putter_at b acc R (Putting x (put_room x ((zlen acc + 1) mod (length + 1))))
  | at_put_write x :
      zlen acc < R + length ->
      putter_at b acc R
        (Putting x (put_write x ((zlen acc + 1) mod (length + 1)) (zlen acc mod (length + 1))))
  | at_put_publish x :
      zlen acc < R + length -> item_at blank b (zlen acc mod (length + 1)) = x ->
      putter_at b acc R (Putting x (put_publish ((zlen acc + 1) mod (length + 1))))
  | at_put_using p : reads_only p -> putter_at b acc R (Put_using p).
Inductive getter_at (acc : list A) (R : Z) : getter_state A -> Prop :=
  | at_get_idle : getter_at acc R Get_idle
  | at_get : getter_at acc R (Getting (get (length + 1)))
  | at_get_check : getter_at acc R (Getting (get_check (R mod (length + 1))))
  | at_get_some : R < zlen acc -> getter_at acc R (Getting get_some)
  | at_get_item : R < zlen acc -> getter_at acc R (Getting (get_item (R mod (length + 1))))
  | at_get_next x :
      R < zlen acc -> x = nth (Z.to_nat R) acc blank -> getter_at acc R (Getting (get_next x))
  | at_get_publish x :
      R < zlen acc -> x = nth (Z.to_nat R) acc blank ->
      getter_at acc R (Getting (get_publish x ((R + 1) mod (length + 1))))
  | at_get_flush : getter_at acc R (Get_flushing flush_from_get)
  | at_get_flush_store M :
      R <= M <= zlen acc ->
      getter_at acc R (Get_flushing (StoreOut (M mod (length + 1)) (Ret tt)))
  | at_get_using p : reads_only p -> getter_at acc R (Get_using p).
Hint Constructors putter_at getter_at : core.

Definition system_ok (s : system A) : Prop :=
  let R := zlen (taken s) in
  pending_ok (ring s) (accepted s) R /\ map snd (taken s) = ztake R (accepted s) /\
  putter_at (ring s) (accepted s) R (putter s) /\ getter_at (accepted s) R (getter s).

Lemma mod_eq_close a b n : 0 <= a - b < n -> (a mod n = b mod n <-> a = b).
Proof.
  intros H. split; [|by intros ->]. intros Hm.
  pose proof (Z.div_mod a n ltac:(lia)). pose proof (Z.div_mod b n ltac:(lia)).
  assert (a - b = n * (a / n - b / n)) as Hab by lia.
  assert (a / n - b / n = 0) by nia. nia.
Qed.

Lemma sub_mod a b n : 0 <= a - b < n -> (a mod n - b mod n) mod n = a - b.
Proof. intros H. rewrite <- Zminus_mod. apply Z.mod_small. lia. Qed.

Lemma inc_mod a : inc (length + 1) (a mod (length + 1)) = (a + 1) mod (length + 1).
Proof.
  unfold inc. pose proof (Z.mod_pos_bound a (length + 1) ltac:(lia)).
  unfold wrap. change (2 ^ 32) with 4294967296.
  rewrite (Z.mod_small (a mod (length + 1) + 1) 4294967296) by lia.
  rewrite <- (Z.add_mod_idemp_l a 1) by lia.
  rewrite Z.geb_leb. destruct (Z.leb_spec (length + 1) (a mod (length + 1) + 1)).
  - replace (a mod (length + 1) + 1) with (length + 1) by lia. by rewrite Z.mod_same by lia.
  - rewrite (Z.mod_small (a mod (length + 1) + 1) (length + 1)) by lia. done.
Qed.

Lemma zlen_set_item (b : Buffer A) i x : zlen (items (set_item b i x)) = zlen (items b).
Proof. unfold zlen. simpl. by rewrite length_insert. Qed.

Lemma item_at_set (b : Buffer A) i x : 0 <= i < zlen (items b) -> item_at blank (set_item b i x) i = x.
Proof.
  intros Hi. unfold item_at. simpl. apply nth_lookup_Some.
  apply list_lookup_insert_eq. unfold zlen in Hi. lia.
Qed.
Lemma item_at_set_ne (b : Buffer A) i j x :
  0 <= i -> 0 <= j -> i <> j -> item_at blank (set_item b i x) j = item_at blank b j.
Proof.
  intros Hi Hj Hne. unfold item_at. simpl. rewrite !nth_lookup.
  rewrite list_lookup_insert_ne; [done|lia].
Qed.

(** The items between two positions are those accepted between them. *)
Lemma between_ok b acc R M :
  pending_ok b acc R -> R <= M <= zlen acc ->
  between blank b (R mod (length + 1)) (M mod (length + 1)) = ztake (M - R) (zdrop R acc).
Proof.
  intros (Hn & _ & _ & HR & Hfull & Hitems) HM. unfold between. rewrite Hn, sub_mod by lia.
  apply (list_eq_same_length _ _ (Z.to_nat (M - R))).
  - unfold ztake, zdrop. rewrite length_take, length_drop. unfold zlen in *. lia.
  - rewrite length_map. unfold zseq. by rewrite length_map, length_seq.
  - intros i x y Hi Hx Hy. unfold zseq in Hx. rewrite map_map in Hx.
    apply list_lookup_fmap_Some in Hx as (j & -> & Hj). apply lookup_seq in Hj as [-> _].
    rewrite Z.add_mod_idemp_l, Hitems by lia. unfold ztake, zdrop in Hy.
    rewrite lookup_take_lt in Hy by lia. rewrite lookup_drop in Hy.
    apply nth_lookup_Some. rewrite <- Hy. f_equal. lia.
Qed.

Lemma contents_ok b acc R :
  pending_ok b acc R -> contents blank b = zdrop R acc.
Proof.
  intros Hok. unfold contents. pose proof Hok as (_ & -> & -> & HR & _).
  rewrite (between_ok b acc R) by (done || lia). apply ztake_ge.
  rewrite zlen_zdrop by lia. lia.
Qed.

Lemma start_ok : system_ok (start blank length).
Proof.
  unfold system_ok, start, init. simpl. split_and!; try done.
  - unfold pending_ok, zlen. simpl. rewrite length_replicate. split_and!; try lia.
    + by rewrite Z.mod_0_l by lia.
    + by rewrite Z.mod_0_l by lia.
Qed.

Lemma map_snd_pair {B C : Type} (c : B) (l : list C) : map snd (map (pair c) l) = l.
Proof. induction l as [|x l IH]; [done|]. simpl. by rewrite IH. Qed.

Lemma ztake_snoc (acc : list A) R :
  0 <= R < zlen acc -> ztake (R + 1) acc = ztake R acc ++ [nth (Z.to_nat R) acc blank].
Proof.
  intros HR. rewrite (ztake_add R 1) by lia. f_equal. unfold ztake, zdrop, zlen in *.
  apply list_eq. intros [|i]; simpl.
  - rewrite lookup_take_lt, lookup_drop by lia. symmetry. rewrite Nat.add_0_r.
    destruct (lookup_lt_is_Some_2 acc (Z.to_nat R)) as [x Hx]; [lia|].
    by rewrite nth_lookup, Hx.
  - apply lookup_ge_None. rewrite length_take. change (Z.to_nat 1) with 1%nat. lia.
Qed.

Lemma publish_pending b acc R x :
  pending_ok b acc R -> zlen acc < R + length -> item_at blank b (in_index b) = x ->
  pending_ok (set_in b ((zlen acc + 1) mod (length + 1))) (acc ++ [x]) R.
Proof.
  intros (Hn & Hin & Hout & HR & Hfull & Hitems) Hroom Hx. rewrite Hin in Hx.
  unfold pending_ok. rewrite zlen_app, zlen_cons, zlen_nil.
  change (items (set_in b ?i)) with (items b).
  change (out_index (set_in b ?i)) with (out_index b). cbn [set_in in_index].
  split_and!; try done; try lia.
  intros k Hk. change (item_at blank (set_in b ?i)) with (item_at blank b).
  destruct (decide (k = zlen acc)) as [->|Hne].
  - rewrite Hx. unfold zlen. rewrite Nat2Z.id. by rewrite nth_middle.
  - rewrite Hitems by lia. unfold zlen in *. by rewrite app_nth1 by lia.
Qed.

Lemma write_pending b acc R x :
  pending_ok b acc R -> zlen acc < R + length ->
  pending_ok (set_item b (in_index b) x) acc R.
Proof.
  intros (Hn & Hin & Hout & HR & Hfull & Hitems) Hroom. unfold pending_ok.
  rewrite zlen_set_item. split_and!; try done; try lia.
  intros k Hk. rewrite Hin, item_at_set_ne; [by apply Hitems|..].
  - by apply Z.mod_pos_bound; lia.
  - by apply Z.mod_pos_bound; lia.
  - intros Heq. apply mod_eq_close in Heq; lia.
Qed.

Lemma take_pending b acc R M :
  pending_ok b acc R -> R <= M <= zlen acc ->
  pending_ok (set_out b (M mod (length + 1))) acc M.
Proof.
  intros (Hn & Hin & Hout & HR & Hfull & Hitems) HM. unfold pending_ok.
  split_and!; try done; try lia. intros k Hk. apply (Hitems k). lia.
Qed.

Lemma in_out_equal b acc R : pending_ok b acc R -> in_index b = out_index b <-> zlen acc = R.
Proof.
  intros (_ & -> & -> & HR & Hfull & _). apply mod_eq_close. lia.
Qed.

Lemma next_out_equal b acc R :
  pending_ok b acc R -> (zlen acc + 1) mod (length + 1) = out_index b <-> zlen acc = R + length.
Proof.
  intros (_ & _ & -> & HR & Hfull & _). split.
  - intros Heq. destruct (decide (zlen acc = R + length)); [done|].
    apply mod_eq_close in Heq; lia.
  - intros ->. replace (R + length + 1) with (R + 1 * (length + 1)) by lia.
    apply Z.mod_add. lia.
Qed.

(** The other thread's knowledge survives. *)
Lemma putter_take b acc R M i p :
  R <= M -> putter_at b acc R p -> putter_at (set_out b i) acc M p.
Proof. intros HM. destruct 1; constructor; done || lia. Qed.

Lemma getter_publish acc R x g :
  0 <= R -> getter_at acc R g -> getter_at (acc ++ [x]) R g.
Proof.
  intros HR Hg. assert (zlen (acc ++ [x]) = zlen acc + 1) as Hz by
    (rewrite zlen_app, zlen_cons, zlen_nil; lia).
  assert (R < zlen acc -> nth (Z.to_nat R) acc blank = nth (Z.to_nat R) (acc ++ [x]) blank) as Hn.
  { intros Hlt. unfold zlen in *. by rewrite app_nth1 by lia. }
  destruct Hg; constructor; try rewrite <- Hn by done; done || lia.
Qed.

Lemma reads_only_access {R} (p p' : prog A R) b b' :
  reads_only p -> access blank p b = Some (p', b') -> reads_only p' /\ b' = b.
Proof. destruct p; simpl; intros Hp [= <- <-]; done. Qed.

Lemma used_reads_only : reads_only (used (length + 1)).
Proof. intros o i. destruct (o <=? i); simpl; done. Qed.

Lemma after_inv {R S} (p : prog A R) b (f : prog A R -> Buffer A -> S) s :
  after blank p b f = Some s -> exists p' b', access blank p b = Some (p', b') /\ s = f p' b'.
Proof. unfold after. destruct (access blank p b) as [[p' b']|]; [|done]. intros [= <-]. eauto. Qed.

(** An access of the putter. *)
Lemma access_put_ok s s' : system_ok s -> access_put blank s = Some s' -> system_ok s'.
Proof.
  destruct s as [b p g acc tk]. intros (Hp & Htk & Hput & Hget). simpl in *.
  pose proof Hp as (Hn & Hin & Hout & HR & Hfull & Hitems).
  unfold access_put. simpl. destruct Hput as [|x|x|x Hroom|x Hroom|x Hroom Hx|p Hro];
    [done|..]; intros (p' & b' & Hacc & ->)%after_inv.
  - injection Hacc as <- <-. split_and!; try done. simpl. rewrite Hin, inc_mod. constructor.
  - injection Hacc as <- <-. destruct (Z.eqb_spec ((zlen acc + 1) mod (length + 1)) (out_index b)).
    + split_and!; done.
    + split_and!; try done. simpl. constructor.
      destruct (decide (zlen acc = zlen tk + length)) as [He|]; [|lia].
      by apply (next_out_equal _ _ _ Hp) in He.
  - injection Hacc as <- <-. split_and!; try done. simpl. rewrite Hin. by constructor.
  - injection Hacc as <- <-. split_and!; try done; simpl.
    + rewrite <- Hin. by apply write_pending.
    + constructor; [done|]. apply item_at_set. rewrite Hn. apply Z.mod_pos_bound. lia.
  - injection Hacc as <- <-. rewrite <- Hin in Hx. split_and!; simpl.
    + by apply publish_pending.
    + rewrite Htk. by rewrite ztake_app_le by lia.
    + constructor.
    + apply getter_publish; [lia|done].
  - apply reads_only_access in Hacc as [Hro' ->]; [|done].
    split_and!; try done. simpl. destruct p'; by constructor.
Qed.

(** An access of the getter. *)
Lemma access_get_ok s s' : system_ok s -> access_get blank s = Some s' -> system_ok s'.
Proof.
  destruct s as [b p g acc tk]. intros (Hp & Htk & Hput & Hget). simpl in *.
  pose proof Hp as (Hn & Hin & Hout & HR & Hfull & Hitems).
  unfold access_get. simpl.
  destruct Hget as [| | |Hlt|Hlt|x Hlt Hx|x Hlt Hx| |M HM|q Hro];
    [done|..]; intros (p' & b' & Hacc & ->)%after_inv.
  - injection Hacc as <- <-. split_and!; try done. simpl. rewrite Hout. constructor.
  - injection Hacc as <- <-. destruct (Z.eqb_spec (zlen tk mod (length + 1)) (in_index b)) as [He|Hne].
    + split_and!; done.
    + split_and!; try done. simpl. constructor.
      destruct (decide (zlen acc = zlen tk)) as [He|]; [|lia].
      apply (in_out_equal _ _ _ Hp) in He. congruence.
  - injection Hacc as <- <-. split_and!; try done. simpl. rewrite Hout. by constructor.
  - injection Hacc as <- <-. split_and!; try done. simpl. constructor; [done|]. apply Hitems. lia.
  - injection Hacc as <- <-. split_and!; try done. simpl. rewrite Hout, inc_mod. by constructor.
  - injection Hacc as <- <-. unfold system_ok. simpl. rewrite zlen_app, zlen_cons, zlen_nil.
    replace (zlen tk + (1 + 0)) with (zlen tk + 1) by lia. split_and!; [..|constructor].
    + by apply (take_pending _ _ (zlen tk)); [|lia].
    + rewrite map_app, Htk, Hx. simpl. rewrite ztake_snoc; [done|lia].
    + eapply putter_take; [|exact Hput]. lia.
  - injection Hacc as <- <-. split_and!; try done. simpl. rewrite Hin. constructor. lia.
  - injection Hacc as <- <-. unfold system_ok.
    cbn [out_index ring set_out taken accepted putter getter]. rewrite Hout.
    rewrite (between_ok b acc _ _ Hp HM).
    assert (zlen (tk ++ map (pair false) (ztake (M - zlen tk) (zdrop (zlen tk) acc))) = M) as ->.
    { rewrite zlen_app. unfold zlen at 2. rewrite length_map. fold (zlen (A := A)).
      change (Z.of_nat (List.length ?l)) with (zlen l).
      rewrite zlen_ztake, zlen_zdrop by lia. lia. }
    split_and!; [..|constructor].
    + by apply (take_pending _ _ (zlen tk)).
    + rewrite map_app, map_snd_pair, Htk.
      replace M with (zlen tk + (M - zlen tk)) at 2 by lia. by rewrite (ztake_add (zlen tk)) by lia.
    + eapply putter_take; [|exact Hput]. lia.
  - apply reads_only_access in Hacc as [Hro' ->]; [|done].
    split_and!; try done. simpl. destruct p'; by constructor.
Qed.

Lemma step_ok s s' : system_ok s -> step blank false s s' -> system_ok s'.
Proof.
  intros Hok [e He Hmove]. unfold move in Hmove.
  pose proof Hok as ((Hn & _) & _). rewrite Hn in Hmove.
  destruct e; try (by eapply access_put_ok); try (by eapply access_get_ok).
  all: destruct Hok as (Hp & Htk & Hput & Hget).
  1-3: destruct (putter s) eqn:Hs; try done. 4-6: destruct (getter s) eqn:Hs; try done.
  all: try (specialize (He eq_refl); done).
  all: injection Hmove as <-; split_and!; try done; simpl; constructor; apply used_reads_only.
Qed.

Lemma reachable_ok s : reachable blank false length s -> system_ok s.
Proof.
  intros Hs. unfold reachable in Hs. remember (start blank length) as s0 eqn:H0.
  revert H0. apply rtc_ind_r with (P := fun s => s0 = start blank length -> system_ok s) in Hs;
    [exact Hs|intros ->; apply start_ok|].
  intros y z _ Hyz IH Hs0. eapply step_ok; [by apply IH|done].
Qed.

Lemma run_used b acc R :
  pending_ok b acc R -> run blank (used (length + 1)) b = (zlen acc - R, b).
Proof.
  intros (Hn & Hin & Hout & HR & Hfull & _). simpl. rewrite Hin, Hout.
  pose proof (sub_mod (zlen acc) R (length + 1) ltac:(lia)) as Hsub.
  pose proof (Z.mod_pos_bound (zlen acc) (length + 1) ltac:(lia)).
  pose proof (Z.mod_pos_bound R (length + 1) ltac:(lia)).
  destruct (Z.leb_spec (R mod (length + 1)) (zlen acc mod (length + 1))); simpl; f_equal;
    rewrite Hin, Hout; unfold wrap; change (2 ^ 32) with 4294967296.
  - rewrite Z.mod_small in Hsub by lia. rewrite Z.mod_small by lia. done.
  - rewrite <- (Z.mod_add _ 1) in Hsub by lia. rewrite Z.mod_small in Hsub by lia.
    rewrite Z.mod_small by lia. lia.
Qed.

Lemma size_ok : size (length + 1) = length.
Proof.
  unfold size, wrap. change (2 ^ 32) with 4294967296. rewrite Z.mod_small by lia. lia.
Qed.

End invariant.

(** A buffer of [length] items that holds the queue [q]. *)
Definition holds {A} (blank : A) (length : Z) (b : Buffer A) (q : list A) : Prop :=
  exists acc R, pending_ok blank length b acc R /\ q = zdrop R acc.

(** The state after a sequence of events, all of them possible. *)
Definition played {A} (blank : A) (length : Z) (es : list (event A)) : system A :=
  default (start blank length) (play blank (start blank length) es).

Lemma played_reachable {A} (blank : A) flush length es :
  forallb (fun e => match e with Call_flush_from_put => flush | _ => true end) es = true ->
  reachable blank flush length (played blank length es).
Proof.
  intros Hes. unfold played.
  destruct (play blank (start blank length) es) as [s|] eqn:Hplay; [|apply rtc_refl].
  unfold reachable. simpl. revert Hes s Hplay. generalize (start blank length).
  induction es as [|e es IH]; intros s0 Hes s; simpl; [intros [= ->]; apply rtc_refl|].
  destruct (move blank s0 e) as [s1|] eqn:Hmove; [|done]. intros Hplay. simpl in Hes.
  apply andb_true_iff in Hes as [He Hes]. eapply rtc_l; [|by apply IH].
  apply (step_move _ _ _ _ e); [by intros ->|done].
Qed.

(** What the getter's [used] is about to return. *)
Definition used_answer {A} (blank : A) (s : system A) : option Z :=
  match getter s with
  | Get_using p =>
      match access blank p (ring s) with Some (Ret n, _) => Some n | _ => None end
  | _ => None
  end.

(** [n] accesses of the putter, or of the getter. *)
Definition puts {A} (n : nat) : list (event A) := replicate n Access_put.
Definition gets {A} (n : nat) : list (event A) := replicate n Access_get.

(** A flush by the putter between the accesses of the getter. *)
Definition flush_race : system Z :=
  mk_system (mk_Buffer [7; 0; 0] 0 0) Put_idle Get_idle [7] [(true, 7); (true, 0); (true, 0)].

(* ------------------------------------------------------------------ *)
(** ** Properties *)

(** C24: as long as the putting thread does not flush, and however the accesses of
    the putting and the getting thread interleave, the ring is a queue: what was
    taken (returned by [get] or flushed by the getter) and what the ring holds, in
    order, are the items that [put] accepted.  It holds at most [size] items, and
    [used], with nothing in between its loads, is their number.  The load that makes
    [put] refuse an item finds the ring full, the one that makes [get] return
    nothing finds it empty, and the threads are never about to write and to read the
    same slot at once. *)
Theorem ring_fifo {A} (blank : A) length s :
  0 <= length < 2147483647 -> reachable blank false length s ->
  let slots := zlen (items (ring s)) in
  map snd (taken s) ++ contents blank (ring s) = accepted s /\
  zlen (contents blank (ring s)) <= size slots /\ size slots = length /\
  run blank (used slots) (ring s) = (zlen (contents blank (ring s)), ring s) /\
  (forall x p b, putter s = Putting x p -> access blank p (ring s) = Some (Ret false, b) ->
     zlen (contents blank (ring s)) = length) /\
  (forall p b, getter s = Getting p -> access blank p (ring s) = Some (Ret None, b) ->
     contents blank (ring s) = []) /\
  (forall x y i p j k, putter s = Putting x (WriteItem i y p) ->
     getter s = Getting (ReadItem j k) -> i <> j).
Proof.
  intros Hlength Hs. apply reachable_ok in Hs as (Hp & Htk & Hput & Hget); [|lia].
  assert (0 <= length < 2147483648) as Hl by lia. cbv zeta.
  pose proof Hp as (Hn & Hin & Hout & HR & Hfull & _).
  rewrite (contents_ok blank length Hl _ _ _ Hp), Hn, (size_ok length Hl),
    (run_used blank length Hl _ _ _ Hp), zlen_zdrop by lia.
  split_and!; try (done || lia).
  - rewrite Htk. apply ztake_zdrop.
  - f_equal. lia.
  - intros x p b Hx Hacc. rewrite Hx in Hput. inversion Hput; subst; try done.
    simpl in Hacc. destruct (Z.eqb_spec ((zlen (accepted s) + 1) mod (length + 1))
      (out_index (ring s))) as [He|]; [|done].
    apply (next_out_equal blank length Hl _ _ _ Hp) in He. lia.
  - intros p b Hx Hacc. rewrite Hx in Hget. inversion Hget; subst; try done.
    simpl in Hacc. rewrite <- Hout in Hacc.
    destruct (Z.eqb_spec (out_index (ring s)) (in_index (ring s))) as [He|]; [|done].
    symmetry in He. apply (in_out_equal blank length Hl _ _ _ Hp) in He.
    apply zdrop_ge. lia.
  - intros x y i p j k Hx Hy. rewrite Hx in Hput. rewrite Hy in Hget.
    inversion Hput; inversion Hget; subst. intros He. apply (mod_eq_close length Hl) in He; lia.
Qed.

(** Used by one thread at a time, the operations are those of a bounded queue:
    [put] appends the item unless [length] items are held, [get] takes the first one,
    and both flushes empty it. *)
Theorem ring_queue {A} (blank : A) length :
  0 <= length < 2147483647 ->
  holds blank length (init blank length) [] /\
  forall b q, holds blank length b q ->
    let slots := zlen (items b) in
    (forall x, let '(ok, b') := run blank (put slots x) b in
       ok = (zlen q <? length) /\ holds blank length b' (if ok then q ++ [x] else q)) /\
    (let '(x, b') := run blank (get slots) b in
       x = head q /\ holds blank length b' (tail q)) /\
    holds blank length (snd (run blank flush_from_put b)) [] /\
    holds blank length (snd (run blank flush_from_get b)) [] /\
    run blank (used slots) b = (zlen q, b).
Proof.
  intros Hlength. assert (0 <= length < 2147483648) as Hl by lia. split.
  { exists [], 0. destruct (start_ok blank length Hl) as (Hp & _). done. }
  intros b q (acc & R & Hp & ->). pose proof Hp as (Hn & Hin & Hout & HR & Hfull & Hitems).
  cbv zeta. rewrite Hn, (run_used blank length Hl _ _ _ Hp), zlen_zdrop by lia. split_and!; [..|f_equal; lia].
  - intros x. simpl. rewrite Hin, inc_mod by done.
    destruct (Z.eqb_spec ((zlen acc + 1) mod (length + 1)) (out_index b)) as [He|Hne].
    + apply (next_out_equal blank length Hl _ _ _ Hp) in He. split; [lia|]. by exists acc, R.
    + assert (zlen acc < R + length) as Hroom.
      { destruct (decide (zlen acc = R + length)) as [He|]; [|lia].
        by apply (next_out_equal blank length Hl _ _ _ Hp) in He. }
      split; [lia|]. exists (acc ++ [x]), R. split; [|by rewrite zdrop_app_le by lia].
      apply publish_pending; [by apply write_pending|done|].
      apply item_at_set. change (in_index (set_item b ?i x)) with (in_index b).
      rewrite Hin, Hn. apply Z.mod_pos_bound. lia.
  - simpl. destruct (Z.eqb_spec (out_index b) (in_index b)) as [He|Hne].
    + symmetry in He. apply (in_out_equal blank length Hl _ _ _ Hp) in He.
      rewrite zdrop_ge by lia. split; [done|]. exists acc, R. by rewrite zdrop_ge by lia.
    + assert (R < zlen acc) as Hlt.
      { destruct (decide (R = zlen acc)) as [->|]; [|lia].
        destruct Hne. symmetry. by apply (in_out_equal blank length Hl _ _ _ Hp). }
      simpl. rewrite Hout, inc_mod, (Hitems R) by (done || lia).
      pose proof (ztake_snoc blank acc R ltac:(lia)) as Hsnoc.
      assert (zdrop R acc = nth (Z.to_nat R) acc blank :: zdrop (R + 1) acc) as ->.
      { apply (app_inv_head (ztake R acc)). rewrite ztake_zdrop.
        change (?x :: ?l) with ([x] ++ l). by rewrite app_assoc, <- Hsnoc, ztake_zdrop. }
      split; [done|]. exists acc, (R + 1). split; [|done].
      apply (take_pending blank length _ _ R); [done|lia].
  - exists (ztake R acc), R.
    assert (zlen (ztake R acc) = R) as HzR by (rewrite zlen_ztake by lia; lia).
    split; [|by rewrite zdrop_ge by lia]. unfold pending_ok. simpl.
    rewrite HzR. split_and!; done || lia.
  - exists acc, (zlen acc). split; [|by rewrite zdrop_ge by lia].
    simpl. rewrite Hin. apply (take_pending blank length _ _ R); [done|lia].
Qed.

(** [flush_from_put] is not safe while the other thread gets: it stores an
    [out_index] that may have moved on, which makes an empty ring look full, and
    [get] then returns items that were never put. *)
Theorem ring_flush_race :
  reachable 0 true 2 flush_race /\ accepted flush_race = [7] /\ got flush_race = [7; 0; 0].
Proof.
  split; [|done]. change flush_race with (played 0 2
    ([Call_put 7] ++ puts 5 ++ [Call_flush_from_put; Access_put; Call_get] ++ gets 6 ++
     puts 1 ++ [Call_get] ++ gets 6 ++ [Call_get] ++ gets 6)).
  by apply played_reachable.
Qed.

(** [used] loads the indices twice each: called by the getter, it returns more than
    the ring has slots when the putter puts an item in the last slot meanwhile. *)
Example used_torn :
  exists s, reachable 0 false 2 s /\ used_answer 0 s = Some 4294967294 /\
    contents 0 (ring s) = [8].
Proof.
  exists (played 0 2 ([Call_put 6] ++ puts 5 ++ [Call_put 7] ++ puts 5 ++ [Call_get] ++ gets 6 ++
    [Call_get] ++ gets 6 ++ [Call_used_from_get] ++ gets 2 ++ [Call_put 8] ++ puts 5 ++ gets 1)).
  split; [by apply played_reachable|]. split; vm_compute; reflexivity.
Qed.

(* ------------------------------------------------------------------ *)
(** ** Witnesses *)

Lemma ring_fifo_witness :
  let s := played 0 1 ([Call_put 5] ++ puts 5 ++ [Call_get] ++ gets 3) in
  map snd (taken s) ++ contents 0 (ring s) = accepted s /\ accepted s = [5].
Proof.
  cbv zeta. split; [|reflexivity].
  apply (ring_fifo 0 1); [lia|]. apply played_reachable. reflexivity.
Defined.

Lemma ring_queue_witness : holds 0 3 (init 0 3) [].
Proof. apply (ring_queue 0 3). lia. Defined.
