(* ===== verification/RangeSet.v ===== *)
(** * Sets of integer ranges

    Models [RangeSet] of [src/libs/misc/ot-misc.h] at the type its only
    instance uses, [RangeSet<uint64_t, uint64_t>], and the channel format of
    [src/libs/misc/range.cc].  A [set<Range>] is the list of its ranges in the
    order of their starts, which are different; an iterator is the place where
    the list is split, or the start of the range it points to. *)
From S2P Require Export Chan ChanImpl.

Module Range.
(** [struct Range] *)
Record t := mk { start : Z; length : Z }.

(** [end()]: one past the end, modulo 2^64 *)
Definition end_ (r : t) : Z := u64 (start r + length r).

Definition merge (a b : t) : t :=
  let e := end_ a in
  let s := Z.min (start a) (start b) in mk s (u64 (Z.max e (end_ b) - s)).
Definition remove_from_start (a b : t) : t :=
  let e := end_ a in
  let s := Z.max (start a) (end_ b) in mk s (u64 (e - s)).
Definition remove_from_end (a b : t) : t :=
  mk (start a) (u64 (Z.min (end_ a) (start b) - start a)).
(** The range itself and the one split off. *)
Definition remove_from_middle (a b : t) : t * t :=
  let e := end_ a in
  (mk (start a) (u64 (start b - start a)), mk (end_ b) (u64 (e - end_ b))).

Definition overlaps_with (a b : t) : bool :=
  let e := end_ a in
  let b_e := end_ b in
  ((start a <=? start b) && (e >=? start b)) || ((start a <=? b_e) && (e >=? b_e)) ||
  ((start a >=? start b) && (e <=? b_e)).
Definition contained_by (a b : t) : bool := (start a >=? start b) && (end_ a <=? end_ b).
Definition start_overlapped_by (a b : t) : bool :=
  (start a >=? start b) && (start a <? end_ b).
Definition end_overlapped_by (a b : t) : bool :=
  let e := end_ a in (e >? start b) && (e <=? end_ b).
End Range.
Import Range (start, length, end_).

Record RangeSet := mk_RangeSet { ranges : list Range.t; end_offset : Z }.
Definition init (end_offset : Z) : RangeSet := mk_RangeSet [] end_offset.

(** ** [std::set<Range>], ordered by start *)

(** [insert]: nothing happens when there is a range with the same start. *)
Fixpoint set_insert (r : Range.t) (l : list Range.t) : list Range.t :=
  match l with
  | [] => [r]
  | r' :: l' => if start r <? start r' then r :: l
                else if start r =? start r' then l else r' :: set_insert r l'
  end.
(** [lower_bound]: the ranges before it, and those from it on. *)
Fixpoint lower_bound (s : Z) (l : list Range.t) : list Range.t * list Range.t :=
  match l with
  | [] => ([], [])
  | r :: l' => if start r <? s then let '(pre, post) := lower_bound s l' in (r :: pre, post)
               else ([], l)
  end.

(** ** [insert(start, length)] *)

Definition last_range (l : list Range.t) : option Range.t := last l.

(** Where the ranges to be merged begin: step back to the previous range if it
    reaches [start]. *)
Definition insert_from (s : Z) (l : list Range.t) : list Range.t * list Range.t :=
  let '(pre, post) := lower_bound s l in
  match last_range pre with
  | Some r =>
    if match post with [] => true | r' :: _ => start r' >? s end then
      if end_ r <? s then (pre, post) else (removelast pre, r :: post)
    else (pre, post)
  | None => (pre, post)
  end.

(** Eat the ranges that overlap with the new one. *)
Fixpoint eat (range : Range.t) (post : list Range.t) : Range.t * list Range.t :=
  match post with
  | r :: post' => if Range.overlaps_with r range then eat (Range.merge range r) post'
                  else (range, post)
  | [] => (range, [])
  end.

Definition insert (s len : Z) (rs : RangeSet) : RangeSet :=
  if len =? 0 then rs else
  let range := Range.mk s len in
  let '(pre, post) := insert_from s (ranges rs) in
  let '(range, post) := eat range post in
  mk_RangeSet (set_insert range (pre ++ post))
    (if end_ range >? end_offset rs then end_ range else end_offset rs).

(** [insert(const RangeSet&)], [set_union] *)
Definition insert_set (rs o : RangeSet) : RangeSet :=
  fold_left (fun rs r => insert (start r) (length r) rs) (ranges o) rs.
Definition set_union (rs o : RangeSet) : RangeSet := insert_set rs o.

(** ** [remove(start, length)] *)

Definition find_range (s : Z) (l : list Range.t) : option Range.t :=
  find (fun r => start r =? s) l.
Definition next_start (s : Z) (l : list Range.t) : option Z :=
  option_map start (find (fun r => start r >? s) l).
Definition erase (s : Z) (l : list Range.t) : list Range.t :=
  filter (fun r => start r <> s) l.

(** One turn of the loop: the iterator [it] is the start of its range. *)
Definition remove_step (range : Range.t) (st : list Range.t * option Z)
    : (list Range.t * option Z) + list Range.t :=
  let '(l, it) := st in
  match it with
  | None => inr l
  | Some s =>
    match find_range s l with
    | None => inr l
    | Some r =>
      if Range.overlaps_with r range then
        let next := next_start s l in
        let rest := erase s l in
        if Range.contained_by r range then inl (rest, next)
        else if Range.start_overlapped_by r range then
          inl (set_insert (Range.remove_from_start r range) rest, next)
        else if Range.end_overlapped_by r range then
          inl (set_insert (Range.remove_from_end r range) rest, next)
        else
          let '(r1, r2) := Range.remove_from_middle r range in
          inl (set_insert r2 (set_insert r1 rest), next)
      else inr l
    end
  end.

Definition remove_from (s : Z) (l : list Range.t) : option Z :=
  let '(pre, post) := lower_bound s l in
  let it := option_map start (head post) in
  match last_range pre with
  | Some r => if match post with [] => true | r' :: _ => start r' >? s end then Some (start r)
              else it
  | None => it
  end.

Definition remove (s len : Z) (rs : RangeSet) : RangeSet :=
  if len =? 0 then rs else
  let range := Range.mk s len in
  match loop_pos (2 ^ 64 + 1) (remove_step range) (ranges rs, remove_from s (ranges rs)) with
  | inl (l, _) => mk_RangeSet l (end_offset rs)
  | inr l => mk_RangeSet l (end_offset rs)
  end.
Definition remove_set (rs o : RangeSet) : RangeSet :=
  fold_left (fun rs r => remove (start r) (length r) rs) (ranges o) rs.
Definition difference (rs o : RangeSet) : RangeSet := remove_set rs o.

(** ** [inverse], [intersection] and the questions *)

(** The gaps before each range, from the end of the last one ([None]: none yet). *)
Fixpoint gaps (last : option Range.t) (l acc : list Range.t) : list Range.t :=
  match l with
  | [] => acc
  | r :: l =>
    gaps (Some r) l
      match last with
      | Some p => set_insert (Range.mk (end_ p) (u64 (start r - end_ p))) acc
      | None => if start r >? 0 then set_insert (Range.mk 0 (start r)) acc else acc
      end
  end.
Definition inverse (rs : RangeSet) : RangeSet :=
  let inv := gaps None (ranges rs) [] in
  mk_RangeSet
    match last_range (ranges rs) with
    | Some p => if end_offset rs >? end_ p
                then set_insert (Range.mk (end_ p) (u64 (end_offset rs - end_ p))) inv else inv
    | None => if end_offset rs >? 0 then set_insert (Range.mk 0 (end_offset rs)) inv else inv
    end (end_offset rs).

Definition intersection (rs o : RangeSet) : RangeSet :=
  remove_set rs (inverse (mk_RangeSet (ranges o) (end_offset rs))).

Definition clear (rs : RangeSet) : RangeSet := mk_RangeSet [] (end_offset rs).
Definition contains (s len : Z) (rs : RangeSet) : bool :=
  existsb (fun p => Range.contained_by (Range.mk s len) p) (ranges rs).
Definition coverage (rs : RangeSet) : Z :=
  fold_left (fun sum r => u64 (sum + length r)) (ranges rs) 0.
Definition count (rs : RangeSet) : Z := zlen (ranges rs).
Definition is_complete (rs : RangeSet) : bool :=
  (end_offset rs =? 0) || contains 0 (end_offset rs) rs.
Definition percentage_complete (rs : RangeSet) : Z :=
  if negb (end_offset rs =? 0) then i32 (u64 (100 * coverage rs) / end_offset rs) else 100.

(** ** The channel format *)
Section channel.
Context {R W : Type} `{!Reader R} `{!Writer W}.

Definition read_range (rs : RangeSet) : M R Error RangeSet :=
  let! start := read_nbo_64 in
  let! length := read_nbo_64 in
  ret (insert start length rs).
Fixpoint read_ranges (n : nat) (rs : RangeSet) : M R Error RangeSet :=
  match n with
  | O => ret rs
  | S n => let! rs := read_range rs in read_ranges n rs
  end.
(** [while (n--)]: [n] has 32 bits *)
Definition read_channel (rs : RangeSet) : M R Error RangeSet :=
  let! end_offset := read_nbo_64 in
  let! n := read_nbo_32 in
  read_ranges (Z.to_nat n) (mk_RangeSet (ranges rs) end_offset).

Fixpoint write_ranges (l : list Range.t) : M W Error unit :=
  match l with
  | [] => ret tt
  | r :: l => write_nbo_64 (start r) ;;; write_nbo_64 (length r) ;;; write_ranges l
  end.
Definition write_channel (rs : RangeSet) : M W Error unit :=
  write_nbo_64 (end_offset rs) ;;; write_nbo_32 (u32 (zlen (ranges rs))) ;;;
  write_ranges (ranges rs).
End channel.

(** ** What the sets mean *)

Definition in_range (x : Z) (r : Range.t) : Prop := start r <= x < start r + length r.
Definition member (x : Z) (rs : RangeSet) : Prop := Exists (in_range x) (ranges rs).

(** In order, not empty, not touching, within 64 bits; [lo]: where the next may
    start. *)
Fixpoint from (lo : Z) (l : list Range.t) : Prop :=
  match l with
  | [] => True
  | r :: l => lo <= start r /\ 0 < length r /\ start r + length r < 2 ^ 64 /\
              from (start r + length r + 1) l
  end.
Definition optimal (rs : RangeSet) : Prop :=
  from 0 (ranges rs) /\ Forall (fun r => start r + length r <= end_offset rs) (ranges rs) /\
  in_u 64 (end_offset rs).

(* ------------------------------------------------------------------ *)
(** ** Lemmas *)

(** A range that does not wrap around. *)
Definition proper (r : Range.t) : Prop :=
  0 <= start r /\ 0 < length r /\ start r + length r < 2 ^ 64.
(** Where the next range may start. *)
Definition after (lo : Z) (l : list Range.t) : Z :=
  match last l with Some r => start r + length r + 1 | None => lo end.

Lemma end_proper r : proper r -> end_ r = start r + length r.
Proof. intros (H1 & H2 & H3). unfold end_. apply wrap_small. unfold in_u. lia. Qed.

Lemma u64_id z : 0 <= z < 2 ^ 64 -> u64 z = z.
Proof. apply (wrap_small 64). Qed.

Lemma from_weaken lo lo' l : lo' <= lo -> from lo l -> from lo' l.
Proof. destruct l; simpl; [done|]. intros ? (? & ?). split; [lia|done]. Qed.

Lemma from_bounds lo l :
  from lo l -> Forall (fun r => lo <= start r /\ 0 < length r /\ start r + length r < 2 ^ 64) l.
Proof.
  revert lo. induction l as [|r l IH]; intros lo; simpl; [constructor|].
  intros (H1 & H2 & H3 & Hl). constructor; [done|]. eapply Forall_impl; [by apply IH|].
  simpl. intros. lia.
Qed.

Lemma from_proper lo l : 0 <= lo -> from lo l -> Forall proper l.
Proof.
  intros Hlo Hl. eapply Forall_impl; [by apply from_bounds|]. simpl. unfold proper. intros. lia.
Qed.

Lemma from_app lo l k : from lo (l ++ k) <-> from lo l /\ from (after lo l) k.
Proof.
  revert lo. induction l as [|r l IH]; intros lo; simpl; [tauto|].
  rewrite IH. unfold after at 2. destruct l as [|r' l]; simpl; [tauto|].
  unfold after. cbn [last]. destruct (last (r' :: l)) as [z|] eqn:Hlast; [tauto|].
  by apply last_None in Hlast.
Qed.

Lemma lower_bound_ok lo s l pre post :
  from lo l -> lower_bound s l = (pre, post) ->
  l = pre ++ post /\ Forall (fun r => start r < s) pre /\ Forall (fun r => s <= start r) post.
Proof.
  revert lo pre post. induction l as [|r l IH]; intros lo pre post Hl Hb; cbn [lower_bound] in Hb.
  - by injection Hb as <- <-.
  - destruct Hl as (H1 & H2 & H3 & Hl). destruct (Z.ltb_spec (start r) s).
    + destruct (lower_bound s l) as [pre' post'] eqn:Hb'. injection Hb as <- <-.
      destruct (IH _ _ _ Hl eq_refl) as (-> & Hpre & Hpost). split_and!; [done| |done].
      by constructor.
    + injection Hb as <- <-. split_and!; [done|constructor|]. constructor; [done|].
      eapply Forall_impl; [by apply from_bounds|]. simpl. intros. lia.
Qed.

(** In a list in order the ends are in order too. *)
Lemma from_snoc_before lo l r :
  from lo (l ++ [r]) -> Forall (fun q => start q + length q < start r) l.
Proof.
  revert lo. induction l as [|q l IH]; intros lo; [constructor|]. cbn [app from].
  intros (H1 & H2 & H3 & Hl). constructor; [|by eapply IH].
  apply from_bounds in Hl. apply Forall_app in Hl as [_ Hr]. apply Forall_cons in Hr as [Hr _]. lia.
Qed.

(** The ranges left out end before [s], those taken end at it or after. *)
Lemma insert_from_ok s l pre post :
  from 0 l -> insert_from s l = (pre, post) ->
  l = pre ++ post /\ Forall (fun r => start r + length r < s) pre /\
  Forall (fun r => s <= start r + length r) post.
Proof.
  intros Hl. unfold insert_from. destruct (lower_bound s l) as [pr po] eqn:Hb.
  destruct (lower_bound_ok _ _ _ _ _ Hl Hb) as (-> & Hpr & Hpo).
  pose proof (from_bounds _ _ Hl) as Hbounds. apply Forall_app in Hbounds as [Hbpr Hbpo].
  assert (Forall (fun r => s <= start r + length r) po) as Hpoe.
  { eapply Forall_impl; [apply Forall_and; split; [exact Hpo|exact Hbpo]|].
    simpl. intros. lia. }
  unfold last_range. destruct (last pr) as [r|] eqn:Hlast.
  2: { apply last_None in Hlast as ->. injection 1 as <- <-. done. }
  apply last_Some in Hlast as [pr' ->]. rewrite removelast_last.
  pose proof Hl as Hl'. rewrite from_app in Hl'. destruct Hl' as [Hfpr Hfpo].
  pose proof (from_snoc_before _ _ _ Hfpr) as Hbefore.
  apply Forall_app in Hpr as [_ Hr]. apply Forall_cons in Hr as [Hr _].
  apply Forall_app in Hbpr as [Hbpr' Hbr]. apply Forall_cons in Hbr as [Hbr _].
  assert (end_ r = start r + length r) as He by (apply end_proper; unfold proper; lia).
  assert (Forall (fun q => start q + length q < s) pr') as Hpr'.
  { eapply Forall_impl; [exact Hbefore|]. simpl. intros. lia. }
  case_match eqn:Hcond.
  - rewrite He. destruct (Z.ltb_spec (start r + length r) s).
    + injection 1 as <- <-. split_and!; [done| |done]. apply Forall_app_2; [done|by constructor].
    + injection 1 as <- <-. rewrite <- app_assoc. split_and!; [done|done|by constructor].
  - injection 1 as <- <-. split_and!; [done| |done]. apply Forall_app_2; [done|].
    constructor; [|constructor]. destruct po as [|q po]; [done|].
    rewrite Z.gtb_ltb in Hcond. apply Z.ltb_ge in Hcond.
    apply Forall_cons in Hpo as [Hq _]. unfold after in Hfpo. rewrite last_snoc in Hfpo.
    destruct Hfpo as [Hfq _]. lia.
Qed.

Lemma overlaps_ok r range :
  proper r -> proper range -> start range <= start r + length r ->
  Range.overlaps_with r range = true <-> start r <= start range + length range.
Proof.
  intros Hr Hg Hs. unfold Range.overlaps_with. rewrite !end_proper by done.
  destruct Hr as (?&?&?), Hg as (?&?&?). lia.
Qed.

Lemma merge_ok a b :
  proper a -> proper b -> start a <= start b + length b -> start b <= start a + length a ->
  proper (Range.merge a b) /\ start (Range.merge a b) = start a `min` start b /\
  start (Range.merge a b) + length (Range.merge a b) =
    (start a + length a) `max` (start b + length b).
Proof.
  intros Ha Hb H1 H2. unfold Range.merge. rewrite !end_proper by done. cbn [start length].
  destruct Ha as (?&?&?), Hb as (?&?&?). rewrite u64_id by lia. unfold proper. simpl. lia.
Qed.

(** What eating leaves: the new range grown, and the ranges beyond it. *)
Lemma eat_ok lo post range : forall range' post',
  0 <= lo -> from lo post -> proper range -> lo <= start range ->
  Forall (fun r => start range <= start r + length r) post ->
  eat range post = (range', post') ->
  proper range' /\ lo <= start range' <= start range /\
  start range + length range <= start range' + length range' /\
  from (start range' + length range' + 1) post' /\
  (forall e, start range + length range <= e -> Forall (fun r => start r + length r <= e) post ->
     start range' + length range' <= e /\ Forall (fun r => start r + length r <= e) post') /\
  forall x, in_range x range' \/ Exists (in_range x) post' <->
            in_range x range \/ Exists (in_range x) post.
Proof.
  revert lo range. induction post as [|r post IH]; intros lo range range' post' Hlo Hl Hg Hs Hends He;
    cbn [eat] in He.
  - injection He as <- <-. split_and!; try done; lia.
  - destruct Hl as (H1 & H2 & H3 & Hl). apply Forall_cons in Hends as [Hr Hends].
    assert (proper r) as Hpr by (unfold proper; lia).
    pose proof (overlaps_ok r range Hpr Hg Hr) as Hov.
    destruct (Range.overlaps_with r range).
    + apply proj1 in Hov. specialize (Hov eq_refl).
      destruct (merge_ok range r Hg Hpr Hr Hov) as (Hpm & Hms & Hme).
      assert (from lo post) as Hl' by (eapply from_weaken; [|exact Hl]; lia).
      apply (IH lo) in He; [|done|done|done|lia|].
      * destruct He as (Hpr' & Hs' & He' & Hf & Hmax & Hx). split_and!; try done; try lia.
        { intros e Hge Hpe. apply Forall_cons in Hpe as [Hre Hpe]. apply Hmax; [lia|done]. }
        intros x. rewrite Hx, Exists_cons. unfold in_range. rewrite Hms.
        assert (start (Range.merge range r) <= x < start (Range.merge range r) +
          length (Range.merge range r) <-> start range <= x < start range + length range \/
          start r <= x < start r + length r) as Hm by (rewrite Hme, Hms; lia).
        rewrite Hms in Hm. rewrite Hm. tauto.
      * apply from_bounds in Hl. eapply Forall_impl; [exact Hl|]. intros q Hq.
        cbv beta in *. rewrite Hms. lia.
    + injection He as <- <-.
      assert (start range + length range < start r).
      { destruct (decide (start r <= start range + length range)) as [Hle|]; [|lia].
        by apply (proj2 Hov) in Hle. }
      split_and!; try done; try lia. simpl. split_and!; [lia..|done].
Qed.

Lemma set_insert_mid r pre post :
  Forall (fun q => start q < start r) pre -> Forall (fun q => start r < start q) post ->
  set_insert r (pre ++ post) = pre ++ r :: post.
Proof.
  intros Hpre Hpost. induction Hpre as [|q pre Hq Hpre IH]; cbn [app set_insert].
  - destruct Hpost as [|q post Hq Hpost]; [done|]. cbn [set_insert].
    by rewrite (proj2 (Z.ltb_lt _ _)).
  - rewrite (proj2 (Z.ltb_ge _ _)), (proj2 (Z.eqb_neq _ _)) by lia. by rewrite IH.
Qed.

Lemma set_insert_from lo r pre post :
  from lo (pre ++ r :: post) -> set_insert r (pre ++ post) = pre ++ r :: post.
Proof.
  intros Hl. apply set_insert_mid.
  - rewrite from_app in Hl. destruct Hl as [Hpre Hr].
    assert (from lo (pre ++ [r])) as Hl.
    { apply from_app. split; [done|]. cbn [from] in *. tauto. }
    apply from_bounds in Hl as Hb. apply from_snoc_before in Hl.
    apply Forall_app in Hb as [Hb _].
    eapply Forall_impl; [apply Forall_and; split; [exact Hl|exact Hb]|].
    intros q Hq. cbv beta in *. lia.
  - rewrite from_app in Hl. destruct Hl as (_ & _ & H2 & _ & Hpost). apply from_bounds in Hpost.
    eapply Forall_impl; [exact Hpost|]. intros q Hq. cbv beta in *. lia.
Qed.

Lemma after_le lo l s :
  lo <= s -> Forall (fun r => start r + length r < s) l -> after lo l <= s.
Proof.
  intros Hlo Hl. unfold after. destruct (last l) as [r|] eqn:Hlast; [|done].
  apply last_Some in Hlast as [l' ->]. apply Forall_app in Hl as [_ Hr].
  apply Forall_cons in Hr as [Hr _]. lia.
Qed.

Lemma after_nonneg l : from 0 l -> 0 <= after 0 l.
Proof.
  intros Hl. unfold after. destruct (last l) as [r|] eqn:Hlast; [|done].
  apply last_Some in Hlast as [l' ->]. apply from_bounds, Forall_app in Hl as [_ Hr].
  apply Forall_cons in Hr as [Hr _]. lia.
Qed.

Lemma insert_spec s len rs :
  optimal rs -> 0 <= s -> 0 <= len -> s + len < 2 ^ 64 ->
  optimal (insert s len rs) /\
  (forall x, member x (insert s len rs) <-> member x rs \/ s <= x < s + len) /\
  end_offset (insert s len rs) =
    if len =? 0 then end_offset rs else end_offset rs `max` (s + len).
Proof.
  intros (Hl & Hends & Heo) Hs Hlen Hfit. unfold insert.
  destruct (Z.eqb_spec len 0) as [->|Hne].
  { split_and!; [done| |done]. intros x. split; [by left|]. intros [?|?]; [done|lia]. }
  destruct (insert_from s (ranges rs)) as [pre post] eqn:Hfrom.
  destruct (insert_from_ok _ _ _ _ Hl Hfrom) as (Hsplit & Hpre & Hpost).
  destruct (eat (Range.mk s len) post) as [g post'] eqn:Heat.
  pose proof Hl as Hl'. rewrite Hsplit, from_app in Hl'. destruct Hl' as [Hfpre Hfpost].
  assert (proper (Range.mk s len)) as Hg by (unfold proper; simpl; lia).
  destruct (eat_ok (after 0 pre) post (Range.mk s len) g post') as (Hgp & Hgs & Hge & Hgf & Hmax & Hx);
    [by apply after_nonneg|done|done|by apply after_le|done|done|].
  cbn [start length] in Hgs, Hge.
  assert (end_ g = start g + length g) as Hend by by apply end_proper.
  assert (from 0 (pre ++ g :: post')) as Hnew.
  { apply from_app. split; [done|]. cbn [from]. destruct Hgp as (?&?&?). split_and!; try done; lia. }
  rewrite (set_insert_from 0) by done. split_and!.
  - split; [done|]. cbn [ranges end_offset]. rewrite Hsplit in Hends.
    apply Forall_app in Hends as [Hepre Hepost]. rewrite Hend, Z.gtb_ltb.
    split.
    + apply Forall_app_2; [|constructor].
      * eapply Forall_impl; [exact Hepre|]. intros r Hr. cbv beta in *.
        destruct (Z.ltb_spec (end_offset rs) (start g + length g)); lia.
      * destruct (Z.ltb_spec (end_offset rs) (start g + length g)); lia.
      * destruct (Hmax ((start g + length g) `max` end_offset rs)) as [_ Hpost'].
        { simpl. lia. }
        { eapply Forall_impl; [exact Hepost|]. intros r Hr. cbv beta in *. lia. }
        eapply Forall_impl; [exact Hpost'|]. intros r Hr. cbv beta in *.
        destruct (Z.ltb_spec (end_offset rs) (start g + length g)); lia.
    + destruct Hgp as (?&?&?). unfold in_u in *.
      destruct (Z.ltb_spec (end_offset rs) (start g + length g)); lia.
  - intros x. unfold member. cbn [ranges]. rewrite Hsplit, !Exists_app, Exists_cons.
    specialize (Hx x). unfold in_range at 3 in Hx. cbn [start length] in Hx. tauto.
  - cbn [end_offset]. rewrite Hend, Z.gtb_ltb. rewrite Hsplit in Hends.
    apply Forall_app in Hends as [_ Hepost].
    destruct (Hmax (end_offset rs `max` (s + len))) as [Hgmax _]; [simpl; lia| |].
    { eapply Forall_impl; [exact Hepost|]. intros r Hr. cbv beta in *. lia. }
    destruct (Z.ltb_spec (end_offset rs) (start g + length g)); lia.
Qed.

Lemma insert_set_spec o : forall rs,
  optimal rs -> Forall proper o ->
  let rs' := fold_left (fun rs r => insert (start r) (length r) rs) o rs in
  optimal rs' /\ forall x, member x rs' <-> member x rs \/ Exists (in_range x) o.
Proof.
  induction o as [|r o IH]; intros rs Hrs Ho; cbn [fold_left].
  - split; [done|]. intros x. rewrite Exists_nil. tauto.
  - apply Forall_cons in Ho as [(H1 & H2 & H3) Ho].
    destruct (insert_spec (start r) (length r) rs) as (Hopt & Hmem & _); [done|lia..|].
    destruct (IH _ Hopt Ho) as [Hopt' Hmem']. split; [done|]. intros x.
    rewrite Hmem', Hmem, Exists_cons. unfold in_range at 2. tauto.
Qed.

(** The end of a range is in no range. *)
Lemma end_not_member lo l1 r l2 :
  from lo (l1 ++ r :: l2) -> ~ Exists (in_range (start r + length r)) (l1 ++ r :: l2).
Proof.
  intros Hl Hex. rewrite Exists_exists in Hex. destruct Hex as (q & Hin & Hq).
  apply elem_of_app in Hin as [Hin|Hin]; [|apply elem_of_cons in Hin as [->|Hin]].
  - assert (from lo (l1 ++ [r])) as Hf.
    { rewrite from_app in *. cbn [from] in *. tauto. }
    pose proof (from_bounds _ _ Hf) as Hb. apply from_snoc_before in Hf.
    rewrite Forall_forall in Hf. specialize (Hf q Hin). apply Forall_app in Hb as [_ Hb].
    apply Forall_cons in Hb as [Hb _]. unfold in_range in Hq. lia.
  - unfold in_range in Hq. lia.
  - rewrite from_app in Hl. destruct Hl as (_ & _ & H2 & _ & Hf).
    apply from_bounds in Hf. rewrite Forall_forall in Hf. specialize (Hf q Hin).
    unfold in_range in Hq. cbv beta in Hf. lia.
Qed.

Lemma contains_spec s len rs :
  optimal rs -> 0 <= s -> 0 < len -> s + len < 2 ^ 64 ->
  contains s len rs = true <-> forall x, s <= x < s + len -> member x rs.
Proof.
  intros (Hl & _) Hs Hlen Hfit. pose proof (from_proper _ _ (Z.le_refl 0) Hl) as Hprop.
  rewrite Forall_forall in Hprop. unfold contains. rewrite existsb_exists. split.
  - intros (r & Hin & Hc) x Hx. apply list_elem_of_In in Hin. specialize (Hprop r Hin).
    unfold Range.contained_by in Hc.
    rewrite !end_proper in Hc by (unfold proper in *; simpl; lia). cbn [start length] in Hc.
    apply Exists_exists. exists r. split; [done|]. unfold in_range. lia.
  - intros Hall. pose proof (Hall s ltac:(lia)) as Hs0. apply Exists_exists in Hs0 as (r & Hin & Hr).
    pose proof (Hprop r Hin) as Hpr. exists r. split; [by apply list_elem_of_In|].
    unfold Range.contained_by. rewrite !end_proper by (unfold proper in *; simpl; lia).
    cbn [start length]. unfold in_range in Hr.
    destruct (decide (s + len <= start r + length r)); [lia|]. exfalso.
    apply list_elem_of_split in Hin as (l1 & l2 & Heq). unfold member in Hall. rewrite Heq in *.
    apply (end_not_member 0 l1 r l2 Hl), Hall. lia.
Qed.

Lemma set_insert_append lo acc r : from lo (acc ++ [r]) -> set_insert r acc = acc ++ [r].
Proof. intros Hl. rewrite <- (app_nil_r acc) at 1. by apply (set_insert_from lo). Qed.

(** Where the gap after the ranges seen so far begins. *)
Definition gap_start (last : option Range.t) : Z :=
  match last with Some p => start p + length p | None => 0 end.
Definition gaps_inv (last : option Range.t) (acc : list Range.t) : Prop :=
  from 0 acc /\ Forall (fun r => start r + length r < gap_start last) acc.

(** Adding the gap from [a] to [b]. *)
Lemma add_gap acc a b :
  from 0 acc -> Forall (fun r => start r + length r < a) acc -> 0 <= a < b -> b < 2 ^ 64 ->
  from 0 (acc ++ [Range.mk a (u64 (b - a))]) /\
  set_insert (Range.mk a (u64 (b - a))) acc = acc ++ [Range.mk a (u64 (b - a))] /\
  (forall x, in_range x (Range.mk a (u64 (b - a))) <-> a <= x < b) /\
  start (Range.mk a (u64 (b - a))) + length (Range.mk a (u64 (b - a))) = b.
Proof.
  intros Hacc Hends Hab Hb. rewrite u64_id by lia.
  assert (from 0 (acc ++ [Range.mk a (b - a)])) as Hf.
  { apply from_app. split; [done|]. cbn [from start length].
    pose proof (after_le 0 acc a ltac:(lia) Hends). split_and!; lia || done. }
  split_and!; [done|by eapply set_insert_append| |simpl; lia].
  intros x. unfold in_range. simpl. lia.
Qed.

Fixpoint final (prev : option Range.t) (l : list Range.t) : option Range.t :=
  match l with [] => prev | r :: l => final (Some r) l end.

Lemma final_last prev l : final prev l = match last_range l with Some r => Some r | None => prev end.
Proof.
  revert prev. induction l as [|r l IH]; intros prev; [done|]. cbn [final]. rewrite IH.
  unfold last_range. destruct l as [|r' l]; [done|]. cbn [last].
  destruct (last (r' :: l)) as [z|] eqn:Hlast; [done|]. by apply last_None in Hlast.
Qed.

Definition follows (prev : option Range.t) (acc l : list Range.t) : Prop :=
  match prev with
  | Some p => proper p /\ from (start p + length p + 1) l
  | None => from 0 l /\ acc = []
  end.

Lemma final_le prev acc l : follows prev acc l -> gap_start prev <= gap_start (final prev l).
Proof.
  revert prev acc. induction l as [|r l IH]; intros prev acc Hf; [done|]. cbn [final].
  assert (follows (Some r) acc l /\ gap_start prev <= start r + length r) as [Hf' Hle].
  { destruct prev as [p|]; simpl in *; destruct Hf as [Hp Hl].
    - destruct Hl as (?&?&?&?), Hp as (?&?&?). unfold proper. split_and!; done || lia.
    - destruct Hp as (?&?&?&?). unfold proper. split_and!; done || lia. }
  specialize (IH _ _ Hf'). simpl in IH. lia.
Qed.

Lemma gaps_ok l : forall prev acc,
  follows prev acc l -> gaps_inv prev acc ->
  gaps_inv (final prev l) (gaps prev l acc) /\
  forall x, Exists (in_range x) (gaps prev l acc) <->
    Exists (in_range x) acc \/
    (gap_start prev <= x < gap_start (final prev l) /\ ~ Exists (in_range x) l).
Proof.
  induction l as [|r l IH]; intros prev acc Hfol [Hacc Hends]; cbn [gaps final].
  - split; [done|]. intros x. split; [by left|]. intros [?|[? _]]; [done|lia].
  - assert (proper r /\ from (start r + length r + 1) l /\ gap_start prev <= start r /\
      0 <= gap_start prev /\ (gap_start prev = start r -> prev = None /\ acc = [] /\ start r = 0))
      as (Hr & Hl & Hle & Hpos & Heq).
    { destruct prev as [p|]; simpl in *; destruct Hfol as [Hp Hfl].
      - destruct Hfl as (?&?&?&?), Hp as (?&?&?). unfold proper. split_and!; try done; lia.
      - destruct Hp as (?&?&?&?). unfold proper. split_and!; try done; lia. }
    set (acc' := match prev with
                 | Some p => set_insert (Range.mk (end_ p) (u64 (start r - end_ p))) acc
                 | None => if start r >? 0 then set_insert (Range.mk 0 (start r)) acc else acc
                 end).
    assert (gaps_inv (Some r) acc' /\ forall x, Exists (in_range x) acc' <->
      Exists (in_range x) acc \/ gap_start prev <= x < start r) as [Hinv Hmem].
    { destruct (decide (gap_start prev = start r)) as [He|Hne].
      - destruct (Heq He) as (-> & -> & Hz). subst acc'. rewrite Hz. simpl.
        split; [split; [done|constructor]|]. intros x. rewrite Exists_nil. simpl in He. lia.
      - destruct Hr as (?&?&?).
        destruct (add_gap acc (gap_start prev) (start r)) as (Hf & Hins & Hin & Hend);
          [done|done|lia|lia|].
        assert (acc' = acc ++ [Range.mk (gap_start prev) (u64 (start r - gap_start prev))]) as ->.
        { rewrite <- Hins. subst acc'. destruct prev as [p|]; simpl in *.
          - destruct Hfol as [Hp _]. by rewrite end_proper.
          - rewrite Z.gtb_ltb, (proj2 (Z.ltb_lt _ _)) by lia. by rewrite u64_id, Z.sub_0_r by lia. }
        split.
        + split; [done|]. apply Forall_app_2; [|constructor; [|constructor]].
          * eapply Forall_impl; [exact Hends|]. intros q Hq. cbv beta in *. simpl. lia.
          * rewrite Hend. simpl. lia.
        + intros x. rewrite Exists_app, Exists_cons, Exists_nil, Hin. tauto. }
    destruct (IH (Some r) acc') as [Hinv' Hmem']; [done|done|].
    split; [done|]. intros x. rewrite Hmem', Hmem, Exists_cons.
    change (in_range x r) with (start r <= x < start r + length r).
    pose proof (final_le (Some r) acc l ltac:(done)) as Hfin. simpl in Hfin |- *.
    destruct Hr as (?&?&?).
    assert (x < start r + length r -> ~ Exists (in_range x) l) as Hbelow.
    { intros Hx Hex. apply Exists_exists in Hex as (q & Hin & Hq).
      apply from_bounds in Hl. rewrite Forall_forall in Hl. specialize (Hl q Hin).
      unfold in_range in Hq. cbv beta in Hl. lia. }
    destruct (decide (x < start r + length r)) as [Hx|Hx].
    + specialize (Hbelow Hx). split; [intros [[?|?]|?]; (by left) || (right; split; [lia|]; intros [?|?]; [lia|done]) || lia|].
      intros [?|[? Hno]]; [by left; left|]. left; right.
      destruct (decide (x < start r)); [lia|]. destruct Hno. left. lia.
    + split; [intros [[?|?]|[? Hno]]; [by left|lia|right; split; [lia|]; intros [?|?]; [lia|done]]|].
      intros [?|[? Hno]]; [by left; left|]. right. split; [lia|tauto].
Qed.

(** Where the last range ends is where everything below has ended. *)
Lemma last_end l eo :
  from 0 l -> Forall (fun r => start r + length r <= eo) l -> 0 <= eo < 2 ^ 64 ->
  let prev := last_range l in
  0 <= gap_start prev <= eo /\
  match prev with Some p => end_ p = gap_start prev | None => True end /\
  Forall (fun r => start r + length r <= gap_start prev) l.
Proof.
  intros Hl Hends Heo. unfold last_range. destruct (last l) as [p|] eqn:Hlast.
  - apply last_Some in Hlast as [l' ->].
    pose proof (from_proper _ _ (Z.le_refl 0) Hl) as Hp.
    apply Forall_app in Hp as [Hp' Hp]. apply Forall_cons in Hp as [Hp _].
    apply Forall_app in Hends as [_ Hep]. apply Forall_cons in Hep as [Hep _].
    apply from_snoc_before in Hl. simpl. split_and!.
    + destruct Hp as (?&?&?). lia.
    + done.
    + by apply end_proper.
    + apply Forall_app_2; [|constructor; [lia|constructor]].
      eapply Forall_impl; [exact Hl|]. intros q Hq. cbv beta in *.
      destruct Hp as (?&?&?). lia.
  - apply last_None in Hlast as ->. simpl. split_and!; done || lia.
Qed.

(** The gap after the last range. *)
Definition last_gap (prev : option Range.t) (eo : Z) (inv : list Range.t) : list Range.t :=
  match prev with
  | Some p => if eo >? end_ p then set_insert (Range.mk (end_ p) (u64 (eo - end_ p))) inv else inv
  | None => if eo >? 0 then set_insert (Range.mk 0 eo) inv else inv
  end.

Lemma last_gap_ok prev eo inv :
  gaps_inv prev inv -> 0 <= gap_start prev <= eo -> eo < 2 ^ 64 ->
  match prev with Some p => end_ p = gap_start prev | None => True end ->
  from 0 (last_gap prev eo inv) /\
  Forall (fun r => start r + length r <= eo) (last_gap prev eo inv) /\
  forall x, Exists (in_range x) (last_gap prev eo inv) <->
    Exists (in_range x) inv \/ gap_start prev <= x < eo.
Proof.
  intros [Hg Hge] Hpos Heo Hend. destruct (decide (gap_start prev < eo)) as [Hlt|Hge'].
  - destruct (add_gap inv (gap_start prev) eo) as (Hf & Hins & Hin & He); [done|done|lia|lia|].
    assert (last_gap prev eo inv = inv ++ [Range.mk (gap_start prev) (u64 (eo - gap_start prev))]) as ->.
    { rewrite <- Hins. unfold last_gap. destruct prev as [p|]; simpl in *.
      - by rewrite Hend, Z.gtb_ltb, (proj2 (Z.ltb_lt _ _)) by lia.
      - rewrite Z.gtb_ltb, (proj2 (Z.ltb_lt _ _)) by lia. by rewrite u64_id, Z.sub_0_r by lia. }
    split; [done|split].
    + apply Forall_app_2; [|constructor; [lia|constructor]].
      eapply Forall_impl; [exact Hge|]. intros q Hq. cbv beta in *. lia.
    + intros x. rewrite Exists_app, Exists_cons, Exists_nil, Hin. tauto.
  - assert (last_gap prev eo inv = inv) as ->.
    { unfold last_gap. destruct prev as [p|]; simpl in *;
        [rewrite Hend|]; by rewrite Z.gtb_ltb, (proj2 (Z.ltb_ge _ _)) by lia. }
    split; [done|split].
    + eapply Forall_impl; [exact Hge|]. intros q Hq. cbv beta in *. lia.
    + intros x. split; [by left|]. intros [?|?]; [done|lia].
Qed.

Lemma inverse_spec rs :
  optimal rs ->
  optimal (inverse rs) /\
  forall x, member x (inverse rs) <-> 0 <= x < end_offset rs /\ ~ member x rs.
Proof.
  intros (Hl & Hends & Heo). unfold in_u in Heo.
  destruct (gaps_ok (ranges rs) None []) as [Hinv Hmem]; [done|by split|].
  destruct (last_end _ _ Hl Hends Heo) as (Hpos & Hend & Hmax). cbv zeta in *.
  rewrite final_last in *. set (prev := last_range (ranges rs)) in *.
  assert (match prev with Some r => Some r | None => None end = prev) as Heq by by destruct prev.
  rewrite Heq in *.
  destruct (last_gap_ok prev (end_offset rs) _ Hinv Hpos (proj2 Heo) Hend) as (Hl' & Hle' & Hx').
  change (inverse rs) with
    (mk_RangeSet (last_gap prev (end_offset rs) (gaps None (ranges rs) [])) (end_offset rs)).
  split; [by split_and!|]. intros x. unfold member. cbn [ranges]. rewrite Hx', Hmem, Exists_nil. simpl.
  assert (gap_start prev <= x -> ~ Exists (in_range x) (ranges rs)) as Hbeyond.
  { intros Hx Hex. apply Exists_exists in Hex as (q & Hin & Hq).
    rewrite Forall_forall in Hmax. specialize (Hmax q Hin). unfold in_range in Hq. cbv beta in Hmax. lia. }
  destruct (decide (gap_start prev <= x)) as [Hx|Hx].
  - specialize (Hbeyond Hx). split; [intros [[?|[? ?]]|?]; split; done || lia|].
    intros [? _]. right. lia.
  - split; [intros [[?|[? ?]]|?]; [done|split; [lia|done]|lia]|].
    intros [? ?]. left; right. split; [lia|done].
Qed.

(** *** Reading back what was written *)

Lemma lower_bound_all l s : Forall (fun q => start q < s) l -> lower_bound s l = (l, []).
Proof.
  induction 1 as [|q l Hq Hl IH]; [done|]. cbn [lower_bound].
  by rewrite (proj2 (Z.ltb_lt _ _)), IH by lia.
Qed.

Lemma insert_append l r eo :
  from 0 (l ++ [r]) -> start r + length r <= eo ->
  insert (start r) (length r) (mk_RangeSet l eo) = mk_RangeSet (l ++ [r]) eo.
Proof.
  intros Hl Heo. pose proof (from_snoc_before _ _ _ Hl) as Hbefore.
  pose proof (from_proper _ _ (Z.le_refl 0) Hl) as Hp.
  apply Forall_app in Hp as [Hp Hr]. apply Forall_cons in Hr as [Hr _].
  assert (Forall (fun q => start q < start r) l) as Hstarts.
  { eapply Forall_impl; [apply Forall_and; split; [exact Hbefore|exact Hp]|].
    intros q [? (?&?&?)]. lia. }
  assert (insert_from (start r) l = (l, [])) as Hfrom.
  { unfold insert_from. rewrite lower_bound_all by done. unfold last_range.
    destruct (last l) as [q|] eqn:Hlast; [|done]. apply last_Some in Hlast as [l' ->].
    apply Forall_app in Hbefore as [_ Hq]. apply Forall_cons in Hq as [Hq _].
    apply Forall_app in Hp as [_ Hpq]. apply Forall_cons in Hpq as [Hpq _].
    by rewrite end_proper, (proj2 (Z.ltb_lt _ _)). }
  unfold insert. cbn [ranges end_offset]. rewrite Hfrom. cbn [eat]. destruct r as [s n].
  cbn [start length] in *. rewrite (proj2 (Z.eqb_neq n 0)) by (destruct Hr as (?&?&?); simpl in *; lia).
  rewrite app_nil_r, end_proper by done. cbn [start length].
  rewrite Z.gtb_ltb, (proj2 (Z.ltb_ge _ _)) by lia. f_equal. by apply (set_insert_append 0).
Qed.

(** The bytes of the channel format. *)
Definition range_bytes (r : Range.t) : bytes := hton 8 (start r) ++ hton 8 (length r).
Definition set_bytes (rs : RangeSet) : bytes :=
  hton 8 (end_offset rs) ++ hton 4 (zlen (ranges rs)) ++ flat_map range_bytes (ranges rs).

Section channel_lemmas.
Context {R W : Type} `{ReaderLaws R} `{WriterLaws W}.

Lemma writes_ranges l : Forall proper l -> writes (S := W) (write_ranges l) (flat_map range_bytes l).
Proof.
  induction 1 as [|r l (Hr1 & Hr2 & Hr3) Hl IH]; [apply writes_nil|]. cbn [write_ranges flat_map].
  unfold range_bytes. rewrite <- app_assoc.
  apply writes_bind; [apply writes_nbo_64; unfold in_u; lia|].
  apply writes_bind; [apply writes_nbo_64; unfold in_u; lia|done].
Qed.

Lemma read_ranges_reads l : forall acc eo (s : R) rest,
  from 0 (acc ++ l) -> Forall (fun r => start r + length r <= eo) l ->
  r_ok s -> pending s = flat_map range_bytes l ++ rest ->
  reads (read_ranges (List.length l) (mk_RangeSet acc eo)) s (mk_RangeSet (acc ++ l) eo) rest.
Proof.
  induction l as [|r l IH]; intros acc eo s rest Hf Heo Hok Hp; cbn [List.length read_ranges].
  - rewrite app_nil_r. by apply reads_ret.
  - apply Forall_cons in Heo as [Hr Heo]. cbn [flat_map] in Hp. unfold range_bytes in Hp.
    rewrite <- !app_assoc in Hp.
    pose proof (from_proper _ _ (Z.le_refl 0) Hf) as Hprop. apply Forall_app in Hprop as [_ Hprop].
    apply Forall_cons in Hprop as [(Hr1 & Hr2 & Hr3) _].
    replace (acc ++ r :: l) with ((acc ++ [r]) ++ l) in * by by rewrite <- app_assoc.
    eapply (reads_bind (read_range _)).
    + unfold read_range.
      eapply reads_bind; [apply (read_nbo_64_hton _ (start r)); [unfold in_u; lia|done|exact Hp]|].
      intros s1 Hok1 Hp1.
      eapply reads_bind; [apply (read_nbo_64_hton _ (length r)); [unfold in_u; lia|done|exact Hp1]|].
      intros s2 Hok2 Hp2. by apply reads_ret.
    + intros s' Hok' Hp'. rewrite insert_append; [by apply IH| |done].
      rewrite from_app in Hf. tauto.
Qed.
End channel_lemmas.

(** *** Removing *)

Lemma loop_pos_done {A B} n p (step : A -> A + B) a b :
  loop_nat n step a = inr b -> (n <= Pos.to_nat p)%nat -> loop_pos p step a = inr b.
Proof. intros Hn Hp. rewrite loop_pos_nat. by eapply loop_nat_mono. Qed.

Definition keys_ok (l : list Range.t) : Prop := Forall (fun r => 0 <= start r < 2 ^ 64) l.

Lemma set_insert_keys r l : 0 <= start r < 2 ^ 64 -> keys_ok l -> keys_ok (set_insert r l).
Proof.
  unfold keys_ok. intros Hr Hl. induction Hl as [|q l Hq Hl IH]; cbn [set_insert].
  - by apply Forall_singleton.
  - destruct (_ <? _); [by repeat (apply Forall_cons; split)|].
    destruct (_ =? _); by apply Forall_cons.
Qed.

Lemma end_range r : 0 <= end_ r < 2 ^ 64.
Proof. apply (wrap_range 64). lia. Qed.

Lemma next_start_gt s l k : next_start s l = Some k -> keys_ok l -> s < k < 2 ^ 64.
Proof.
  unfold next_start. destruct (find _ l) as [r|] eqn:Hfind; [|done]. injection 1 as <-. intros Hl.
  apply find_some in Hfind as [Hin Hgt]. unfold keys_ok in Hl. rewrite Forall_forall in Hl.
  apply list_elem_of_In in Hin. specialize (Hl r Hin). cbv beta in Hl. lia.
Qed.

(** Each turn moves on to a greater start, whatever the set has become. *)
Lemma remove_step_ok range l s :
  keys_ok l -> 0 <= s < 2 ^ 64 -> 0 <= start range < 2 ^ 64 ->
  match remove_step range (l, Some s) with
  | inl (l', it) => keys_ok l' /\ match it with Some k => s < k < 2 ^ 64 | None => True end
  | inr _ => True
  end.
Proof.
  intros Hl Hs Hr. cbn [remove_step]. destruct (find_range s l) as [r|] eqn:Hfind; [|done].
  assert (0 <= start r < 2 ^ 64) as Hkey.
  { apply find_some in Hfind as [Hin _]. unfold keys_ok in Hl. rewrite Forall_forall in Hl.
    apply (Hl r). by apply list_elem_of_In. }
  destruct (Range.overlaps_with r range); [|done].
  assert (match next_start s l with Some k => s < k < 2 ^ 64 | None => True end) as Hnext.
  { destruct (next_start s l) eqn:Hn; [|done]. by eapply next_start_gt. }
  assert (keys_ok (erase s l)) as Her.
  { unfold erase, keys_ok in *. rewrite Forall_forall in *. intros q Hq.
    apply list_elem_of_filter in Hq as [_ Hq]. by apply Hl. }
  pose proof (end_range range).
  destruct (Range.contained_by r range); [done|].
  destruct (Range.start_overlapped_by r range);
    [split; [apply set_insert_keys; [simpl; lia|done]|done]|].
  destruct (Range.end_overlapped_by r range);
    [split; [by apply set_insert_keys|done]|].
  split; [|done]. apply set_insert_keys; [done|]. by apply set_insert_keys.
Qed.

Lemma remove_ends range l it :
  keys_ok l -> 0 <= start range < 2 ^ 64 ->
  match it with Some k => 0 <= k < 2 ^ 64 | None => True end ->
  exists l', loop_pos (2 ^ 64 + 1) (remove_step range) (l, it) = inr l'.
Proof.
  intros Hl Hr Hit.
  destruct (loop_pos_rule (remove_step range)
    (fun st => keys_ok (fst st) /\ match snd st with Some k => 0 <= k < 2 ^ 64 | None => True end)
    (fun _ => True)
    (fun st => Z.to_nat (match snd st with Some k => 2 ^ 64 - k | None => 0 end))
    (2 ^ 64 + 1) (l, it)) as (l' & Hl' & _).
  - intros [l1 [s|]] [Hl1 Hs]; simpl in Hl1, Hs; [|done].
    pose proof (remove_step_ok range l1 s Hl1 Hs Hr) as Hstep.
    destruct (remove_step range (l1, Some s)) as [[l2 it2]|]; [|done].
    destruct Hstep as [Hl2 Hit2]. split; [by destruct it2; (split; [done|]); simpl; lia || done|].
    destruct it2; simpl; lia.
  - done.
  - simpl. rewrite <- (Nat2Z.id (Pos.to_nat _)). apply Z2Nat.inj_lt; destruct it; try lia.
  - by exists l'.
Qed.

(** Removing next to the only range: the set is corrupted. *)
Lemma remove_touching s l n eo :
  0 <= s -> 0 < l -> 0 < n -> s + l + n < 2 ^ 64 ->
  remove (s + l) n (mk_RangeSet [Range.mk s l] eo) =
    mk_RangeSet [Range.mk s l; Range.mk (s + l + n) (2 ^ 64 - n)] eo.
Proof.
  intros Hs Hl Hn Hfit. unfold remove. cbn [ranges end_offset].
  rewrite (proj2 (Z.eqb_neq n 0)) by lia.
  assert (remove_from (s + l) [Range.mk s l] = Some s) as ->.
  { unfold remove_from. cbn [lower_bound start]. by rewrite (proj2 (Z.ltb_lt s (s + l))) by lia. }
  assert (end_ (Range.mk s l) = s + l) as He1 by (apply end_proper; unfold proper; simpl; lia).
  assert (end_ (Range.mk (s + l) n) = s + l + n) as He2
    by (apply end_proper; unfold proper; simpl; lia).
  rewrite (loop_pos_done 2 _ _ _ [Range.mk s l; Range.mk (s + l + n) (2 ^ 64 - n)]);
    [done| |by apply (Pos2Nat.inj_le 2)].
  cbn [loop_nat]. unfold remove_step at 1.
  assert (find_range s [Range.mk s l] = Some (Range.mk s l)) as ->
    by (unfold find_range; cbn [find start]; by rewrite Z.eqb_refl).
  assert (Range.overlaps_with (Range.mk s l) (Range.mk (s + l) n) = true) as ->.
  { unfold Range.overlaps_with. rewrite He1, He2. cbn [start]. lia. }
  assert (Range.contained_by (Range.mk s l) (Range.mk (s + l) n) = false) as ->.
  { unfold Range.contained_by. cbn [start]. lia. }
  assert (Range.start_overlapped_by (Range.mk s l) (Range.mk (s + l) n) = false) as ->.
  { unfold Range.start_overlapped_by. cbn [start]. lia. }
  assert (Range.end_overlapped_by (Range.mk s l) (Range.mk (s + l) n) = false) as ->.
  { unfold Range.end_overlapped_by. rewrite He1. cbn [start]. lia. }
  assert (Range.remove_from_middle (Range.mk s l) (Range.mk (s + l) n) =
    (Range.mk s l, Range.mk (s + l + n) (2 ^ 64 - n))) as ->.
  { unfold Range.remove_from_middle. rewrite He1, He2. cbn [start].
    rewrite (u64_id (s + l - s)) by lia. f_equal; f_equal; [lia|].
    unfold wrap. symmetry. apply (Z.mod_unique_pos _ _ (-1)); lia. }
  assert (erase s [Range.mk s l] = []) as ->.
  { unfold erase. rewrite filter_cons_False by (simpl; lia). done. }
  assert (next_start s [Range.mk s l] = None) as ->.
  { unfold next_start. cbn [find start]. by rewrite Z.gtb_ltb, Z.ltb_irrefl. }
  cbn [set_insert start]. by rewrite (proj2 (Z.ltb_ge (s + l + n) s)),
    (proj2 (Z.eqb_neq (s + l + n) s)) by lia.
Qed.

(** Removing from a gap on: the range after the gap is missed. *)
Lemma remove_gap r1 r2 s n eo :
  proper r1 -> proper r2 -> start r1 + length r1 < s -> s < start r2 -> start r2 <= s + n ->
  s + n < 2 ^ 64 ->
  remove s n (mk_RangeSet [r1; r2] eo) = mk_RangeSet [r1; r2] eo.
Proof.
  intros Hp1 Hp2 H1 H2 H3 H4. unfold remove. cbn [ranges end_offset].
  rewrite (proj2 (Z.eqb_neq n 0)) by lia.
  pose proof Hp1 as (?&?&?).
  assert (remove_from s [r1; r2] = Some (start r1)) as ->.
  { unfold remove_from. cbn [lower_bound].
    rewrite (proj2 (Z.ltb_lt (start r1) s)), (proj2 (Z.ltb_ge (start r2) s)) by lia.
    cbn [last_range last]. by rewrite Z.gtb_ltb, (proj2 (Z.ltb_lt s (start r2))). }
  rewrite (loop_pos_done 1 _ _ _ [r1; r2]); [done| |by apply (Pos2Nat.inj_le 1)].
  cbn [loop_nat]. unfold remove_step.
  assert (find_range (start r1) [r1; r2] = Some r1) as ->
    by (unfold find_range; cbn [find]; by rewrite Z.eqb_refl).
  assert (Range.overlaps_with r1 (Range.mk s n) = false) as ->; [|done].
  unfold Range.overlaps_with. rewrite end_proper by done.
  rewrite end_proper by (unfold proper; simpl; lia). cbn [start length]. lia.
Qed.

(* ------------------------------------------------------------------ *)
(** ** Properties *)

(** Inserting a range keeps the set optimal (in order, no two ranges
    overlapping or touching), adds exactly its elements and raises the end offset to
    its end; the union with another set has the elements of both; and [contains]
    says whether all elements of a range are there. *)
Theorem range_insert s len rs :
  optimal rs -> 0 <= s -> 0 <= len -> s + len < 2 ^ 64 ->
  optimal (insert s len rs) /\
  (forall x, member x (insert s len rs) <-> member x rs \/ s <= x < s + len) /\
  end_offset (insert s len rs) =
    (if len =? 0 then end_offset rs else end_offset rs `max` (s + len)) /\
  (forall o, optimal o -> optimal (set_union rs o) /\
     forall x, member x (set_union rs o) <-> member x rs \/ member x o) /\
  (0 < len -> contains s len rs = true <-> forall x, s <= x < s + len -> member x rs).
Proof.
  intros Hrs Hs Hlen Hfit.
  destruct (insert_spec s len rs Hrs Hs Hlen Hfit) as (Hopt & Hmem & Heo).
  split_and!; [done|done|done| |].
  - intros o Ho. apply insert_set_spec; [done|]. destruct Ho as (Hl & _).
    by apply (from_proper 0).
  - intros Hpos. by apply contains_spec.
Qed.

(** [inverse] has exactly the elements below the end offset that the set does
    not have, and is optimal again. *)
Theorem range_inverse rs :
  optimal rs ->
  optimal (inverse rs) /\
  forall x, member x (inverse rs) <-> 0 <= x < end_offset rs /\ ~ member x rs.
Proof. apply inverse_spec. Qed.

(** A set written to a channel is read back, whatever follows it, into an empty
    set. *)
Theorem range_channel_roundtrip {R W : Type} `{ReaderLaws R} `{WriterLaws W} rs eo :
  optimal rs -> count rs < 2 ^ 32 ->
  writes (S := W) (write_channel rs) (set_bytes rs) /\
  forall (s : R) rest, r_ok s -> pending s = set_bytes rs ++ rest ->
    reads (read_channel (init eo)) s rs rest.
Proof.
  intros (Hl & Hends & Heo) Hcount. unfold count in Hcount.
  assert (in_u 32 (zlen (ranges rs))) as Hn by (split; [apply zlen_nonneg|done]).
  split.
  - apply writes_bind; [by apply writes_nbo_64|]. apply writes_bind.
    + rewrite <- (wrap_small 32 (zlen (ranges rs)) Hn) at 2.
      eapply writes_eq; [apply writes_nbo_32|]. by rewrite wrap_wrap by lia.
    + apply writes_ranges, (from_proper 0); done || lia.
  - intros s rest Hok Hp. unfold set_bytes in Hp. rewrite <- !app_assoc in Hp.
    eapply reads_bind; [apply (read_nbo_64_hton _ (end_offset rs)); [done|done|exact Hp]|].
    intros s1 Hok1 Hp1.
    eapply reads_bind; [apply (read_nbo_32_hton _ (zlen (ranges rs))); [done|done|exact Hp1]|].
    intros s2 Hok2 Hp2. unfold zlen. rewrite Nat2Z.id. destruct rs as [l e]. cbn [init ranges].
    by apply (read_ranges_reads l [] e).
Qed.

(** [remove] ends on every set, but does not always remove: when the range to be
    removed touches an existing one, it adds a range that goes on to the end of the
    numbers; when it begins in a gap after a range, it removes nothing at all. *)
Theorem range_remove_faults :
  (forall s n rs, keys_ok (ranges rs) -> 0 <= s < 2 ^ 64 ->
     exists l, loop_pos (2 ^ 64 + 1) (remove_step (Range.mk s n))
       (ranges rs, remove_from s (ranges rs)) = inr l) /\
  (forall s l n eo, 0 <= s -> 0 < l -> 0 < n -> s + l + n < 2 ^ 64 ->
     remove (s + l) n (mk_RangeSet [Range.mk s l] eo) =
       mk_RangeSet [Range.mk s l; Range.mk (s + l + n) (2 ^ 64 - n)] eo) /\
  (forall r1 r2 s n eo, proper r1 -> proper r2 -> start r1 + length r1 < s ->
     s < start r2 -> start r2 <= s + n -> s + n < 2 ^ 64 ->
     remove s n (mk_RangeSet [r1; r2] eo) = mk_RangeSet [r1; r2] eo).
Proof.
  split; [|split; [exact remove_touching|exact remove_gap]].
  intros s n rs Hk Hs. apply remove_ends; [done|done|].
  unfold remove_from. destruct (lower_bound s (ranges rs)) as [pre post] eqn:Hb.
  assert (ranges rs = pre ++ post) as Heq.
  { revert pre post Hb. clear. induction (ranges rs) as [|r l IH]; intros pre post Hb; cbn in Hb.
    - by injection Hb as <- <-.
    - destruct (start r <? s); [|by injection Hb as <- <-].
      destruct (lower_bound s l) as [p q]. injection Hb as <- <-. by rewrite (IH p q). }
  rewrite Heq in Hk. unfold keys_ok in Hk. apply Forall_app in Hk as [Hpre Hpost].
  assert (match option_map start (head post) with Some k => 0 <= k < 2 ^ 64 | None => True end)
    as Hhead by (destruct Hpost; done).
  unfold last_range. destruct (last pre) as [r|] eqn:Hlast; [|done].
  apply last_Some in Hlast as [l' ->]. apply Forall_app in Hpre as [_ Hr].
  apply Forall_cons in Hr as [Hr _].
  by destruct (match post with [] => true | r' :: _ => start r' >? s end).
Qed.

(* ------------------------------------------------------------------ *)
(** ** Witnesses *)

Lemma range_insert_witness :
  contains 2 9 (insert 5 10 (mk_RangeSet [Range.mk 0 5; Range.mk 20 2] 30)) = true.
Proof.
  assert (optimal (insert 5 10 (mk_RangeSet [Range.mk 0 5; Range.mk 20 2] 30))) as Hopt.
  { apply (range_insert 5 10 (mk_RangeSet [Range.mk 0 5; Range.mk 20 2] 30)); [|lia..].
    split; [simpl; lia|]. split; [repeat constructor; simpl; lia|]. unfold in_u. simpl. lia. }
  apply (range_insert 2 9 _ Hopt); [lia..|].
  intros x Hx. vm_compute in Hopt. apply Exists_exists.
  exists (Range.mk 0 15). split; [vm_compute; left|unfold in_range; simpl; lia].
Defined.

Lemma range_inverse_witness :
  ranges (inverse (mk_RangeSet [Range.mk 5 5] 20)) = [Range.mk 0 5; Range.mk 10 10] /\
  member 12 (inverse (mk_RangeSet [Range.mk 5 5] 20)).
Proof.
  split; [reflexivity|]. apply (range_inverse (mk_RangeSet [Range.mk 5 5] 20)).
  - split; [simpl; lia|]. split; [repeat constructor; simpl; lia|]. unfold in_u. simpl. lia.
  - split; [simpl; lia|]. unfold member. rewrite Exists_exists. intros (r & Hin & Hr).
    apply list_elem_of_singleton in Hin as ->. unfold in_range in Hr. simpl in Hr. lia.
Defined.

Lemma range_channel_roundtrip_witness :
  exists s, read_channel (init 0) (StringReader.init
      (set_bytes (mk_RangeSet [Range.mk 5 5] 20))) =
    (Val (mk_RangeSet [Range.mk 5 5] 20), s).
Proof.
  destruct (range_channel_roundtrip (R := StringReader.t) (W := StringWriter.t)
    (mk_RangeSet [Range.mk 5 5] 20) 0) as [_ Hr].
  - split; [simpl; lia|]. split; [repeat constructor; simpl; lia|]. unfold in_u. simpl. lia.
  - reflexivity.
  - destruct (Hr (StringReader.init (set_bytes (mk_RangeSet [Range.mk 5 5] 20))) [])
      as (s & Hs & _); [apply string_init_ok; vm_decide|reflexivity|by exists s].
Defined.
