(* ===== verification/Expr.v ===== *)
(** * Expressions

    Models [src/libs/expr/token.cc], [eval.cc] and [ot-expr.h]: the tokeniser
    and the recursive evaluator.  The numbers are the type [double] of C++, an
    [Arith] record of its operations; the value of a variable comes from a
    function that may throw.  [evaluate] gives the recursion and the loops
    enough fuel for its text ([evaluate_total]). *)
From S2P Require Export Convert.

Module Expr.

Inductive Token : Type :=
  | UNKNOWN | EOT | NUMBER (text : bytes) | NAME (name : bytes)
  | MUL | DIV | PLUS | MINUS | AND | OR | NOT
  | EQ | LT | GT | LTEQ | GTEQ | NE | LPAR | RPAR.

Inductive Exception := Error (error : bytes) | Out_of_fuel.

#[global] Instance Token_eq_dec : EqDecision Token.
Proof. solve_decision. Defined.

(** ** The tokeniser, on the text still to be read *)

Definition peekc (i : bytes) : Z := match i with [] => 0 | c :: _ => c end.
Definition getc (i : bytes) : Z * bytes := match i with [] => (0, []) | c :: i => (c, i) end.
Definition step (i : bytes) : bytes := tail i.

Definition is_name_char (c : Z) : bool := is_alpha c || is_digit c || (c =? chr "_").

(** [for(;;) { c = peekc(); if (p(c)) { text += c; step(); } else break; }] *)
Fixpoint take_while (p : Z -> bool) (i : bytes) : bytes * bytes :=
  match i with
  | c :: i' => if p c then let '(t, r) := take_while p i' in (c :: t, r) else ([], i)
  | [] => ([], [])
  end.

Definition read_number (c : Z) (i : bytes) : Token * bytes :=
  let '(ds, i) := take_while is_digit i in
  if peekc i =? chr "." then
    let '(fs, i') := take_while is_digit (step i) in
    (NUMBER (c :: ds ++ chr "." :: fs), i')
  else (NUMBER (c :: ds), i).

(** A doubled character, or an error. *)
Definition doubled (c : Z) (t : Token) (text : bytes) (i : bytes) : exc Exception Token * bytes :=
  if peekc i =? c then (Val t, step i) else (Throw (Error text), i).
(** A comparator, with or without the [=]. *)
Definition with_eq (t_eq t : Token) (i : bytes) : exc Exception Token * bytes :=
  if peekc i =? chr "=" then (Val t_eq, step i) else (Val t, i).

Definition read_token (i : bytes) : exc Exception Token * bytes :=
  let '(c, i) := getc (drop_while is_space i) in
  if is_alpha c then
    let '(n, i) := take_while is_name_char i in (Val (NAME (c :: n)), i)
  else if is_digit c then let '(t, i) := read_number c i in (Val t, i)
  else if c =? 0 then (Val EOT, i)
  else if c =? chr "+" then (Val PLUS, i)
  else if c =? chr "-" then (Val MINUS, i)
  else if c =? chr "*" then (Val MUL, i)
  else if c =? chr "/" then (Val DIV, i)
  else if c =? chr "(" then (Val LPAR, i)
  else if c =? chr ")" then (Val RPAR, i)
  else if c =? chr "&" then doubled c AND (str "Single (bitwise) & not implemented") i
  else if c =? chr "|" then doubled c OR (str "Single (bitwise) | not implemented") i
  else if c =? chr "=" then doubled c EQ (str "Assignment not implemented - use ==") i
  else if c =? chr "<" then with_eq LTEQ LT i
  else if c =? chr ">" then with_eq GTEQ GT i
  else if c =? chr "!" then with_eq NE NOT i
  else (Throw (Error (str "Unrecognised token near '" ++ [c] ++ str "'")), i).

(** ** The evaluator *)

(** The operations of [double] that the code uses. *)
Record Arith (V : Type) := mk_Arith {
  of_text : bytes -> V;           (** [Text::stof] *)
  v_zero : V; v_one : V;
  v_neg : V -> V;
  v_mul : V -> V -> V; v_div : V -> V -> V; v_add : V -> V -> V; v_sub : V -> V -> V;
  v_eqb : V -> V -> bool; v_ltb : V -> V -> bool; v_leb : V -> V -> bool;
  v_true : V -> bool              (** conversion to [bool] *)
}.
Arguments of_text {V}. Arguments v_zero {V}. Arguments v_one {V}. Arguments v_neg {V}.
Arguments v_mul {V}. Arguments v_div {V}. Arguments v_add {V}. Arguments v_sub {V}.
Arguments v_eqb {V}. Arguments v_ltb {V}. Arguments v_leb {V}. Arguments v_true {V}.

Record Evaluator := mk_Evaluator { tokeniser : bytes; token : Token }.

Section evaluator.
Context {V : Type} (A : Arith V) (get_value_for_name : bytes -> exc bytes V).

Abbreviation E := (M Evaluator Exception).

(** [c?1:0] *)
Definition of_bool (c : bool) : V := if c then v_one A else v_zero A.

Definition next : E unit := fun s =>
  match read_token (tokeniser s) with
  | (Val t, i) => (Val tt, mk_Evaluator i t)
  | (Throw e, i) => (Throw e, mk_Evaluator i (token s))
  end.
Definition current : E Token := fun s => (Val (token s), s).
Definition lift (r : exc bytes V) : E V := fun s =>
  (match r with Val v => Val v | Throw text => Throw (Error text) end, s).

Section levels.
Context (read_factor : E V).

Fixpoint term_loop (n : nat) (v : V) : E V :=
  match n with
  | O => throw Out_of_fuel
  | S n =>
    let! t := current in
    match t with
    | MUL => next ;;; let! w := read_factor in term_loop n (v_mul A v w)
    | DIV => next ;;; let! w := read_factor in term_loop n (v_div A v w)
    | _ => ret v
    end
  end.
Definition read_term (n : nat) : E V := let! v := read_factor in term_loop n v.

Fixpoint side_loop (n m : nat) (v : V) : E V :=
  match n with
  | O => throw Out_of_fuel
  | S n =>
    let! t := current in
    match t with
    | PLUS => next ;;; let! w := read_term m in side_loop n m (v_add A v w)
    | MINUS => next ;;; let! w := read_term m in side_loop n m (v_sub A v w)
    | _ => ret v
    end
  end.
Definition read_side (n : nat) : E V := let! v := read_term n in side_loop n n v.

Definition read_predicate (n : nat) : E V :=
  let! v := read_side n in
  let! t := current in
  let compare (c : V -> V -> bool) : E V :=
    next ;;; let! w := read_side n in ret (of_bool (c v w)) in
  match t with
  | EQ => compare (v_eqb A)
  | NE => compare (fun v w => negb (v_eqb A v w))
  | LT => compare (v_ltb A)
  | GT => compare (fun v w => v_ltb A w v)
  | LTEQ => compare (v_leb A)
  | GTEQ => compare (fun v w => v_leb A w v)
  | _ => ret v
  end.

Fixpoint expression_loop (n m : nat) (v : V) : E V :=
  match n with
  | O => throw Out_of_fuel
  | S n =>
    let! t := current in
    match t with
    | AND => next ;;; let! w := read_predicate m in
             expression_loop n m (of_bool (v_true A v && v_true A w))
    | OR => next ;;; let! w := read_predicate m in
            expression_loop n m (of_bool (v_true A v || v_true A w))
    | _ => ret v
    end
  end.
Definition read_expression (n : nat) : E V :=
  let! v := read_predicate n in expression_loop n n v.
End levels.

Fixpoint read_factor (fuel : nat) : E V :=
  match fuel with
  | O => throw Out_of_fuel
  | S fuel =>
    let! t := current in
    match t with
    | MINUS => next ;;; let! v := read_factor fuel in ret (v_neg A v)
    | NOT => next ;;; let! v := read_factor fuel in
             ret (if v_true A v then v_zero A else v_one A)
    | NUMBER text => next ;;; ret (of_text A text)
    | NAME name => let! v := lift (get_value_for_name name) in next ;;; ret v
    | LPAR =>
      next ;;;
      let! v := read_expression (read_factor fuel) fuel in
      let! t := current in
      (if decide (t = RPAR) then next else throw (Error (str "Mismatched parentheses"))) ;;;
      ret v
    | EOT => throw (Error (str "Unexpected end"))
    | _ => throw (Error (str "Unrecognised token"))
    end
  end.

(** [evaluate] resets the tokeniser and reads a token before it looks at one, so
    an evaluator can be used again, also after an exception; this is a new one. *)
Definition evaluate (expr : bytes) : exc Exception V :=
  let fuel := (2 + length expr)%nat in
  fst ((next ;;;
        let! v := read_expression (read_factor fuel) fuel in
        let! t := current in
        if decide (t = EOT) then ret v else throw (Error (str "Parse error")))
       (mk_Evaluator expr UNKNOWN)).
End evaluator.

(** [Evaluator::get_value_for_name], and that of [PropertyListEvaluator] *)
Definition no_value {V} (name : bytes) : exc bytes V :=
  Throw (str "Variable name lookup for '" ++ name ++ str "' not implemented").
Definition property_value {V} (vars : bytes -> option V) (name : bytes) : exc bytes V :=
  match vars name with
  | Some v => Val v
  | None => Throw (str "No such variable '" ++ name ++ str "'")
  end.

(** ** What an expression means *)

Inductive binary := Mul | Div | Add | Sub | Eq | Ne | Lt | Gt | Le | Ge | And | Or.
Inductive expr : Type :=
  | Num (text : bytes)
  | Var (name : bytes)
  | Neg (a : expr)
  | Not (a : expr)
  | Bin (op : binary) (a b : expr).

Section denote.
Context {V : Type} (A : Arith V) (get_value_for_name : bytes -> exc bytes V).

Definition apply (op : binary) (v w : V) : V :=
  match op with
  | Mul => v_mul A v w | Div => v_div A v w | Add => v_add A v w | Sub => v_sub A v w
  | Eq => of_bool A (v_eqb A v w) | Ne => of_bool A (negb (v_eqb A v w))
  | Lt => of_bool A (v_ltb A v w) | Gt => of_bool A (v_ltb A w v)
  | Le => of_bool A (v_leb A v w) | Ge => of_bool A (v_leb A w v)
  | And => of_bool A (v_true A v && v_true A w) | Or => of_bool A (v_true A v || v_true A w)
  end.

(** Operands from left to right; the first one that throws ends it. *)
Fixpoint denote (e : expr) : exc bytes V :=
  match e with
  | Num text => Val (of_text A text)
  | Var name => get_value_for_name name
  | Neg a => match denote a with Val v => Val (v_neg A v) | Throw x => Throw x end
  | Not a => match denote a with
             | Val v => Val (of_bool A (negb (v_true A v)))
             | Throw x => Throw x
             end
  | Bin op a b =>
    match denote a with
    | Val v => match denote b with Val w => Val (apply op v w) | Throw x => Throw x end
    | Throw x => Throw x
    end
  end.
End denote.

(** ** How an expression is written *)

Definition op_token (op : binary) : Token :=
  match op with
  | Mul => MUL | Div => DIV | Add => PLUS | Sub => MINUS | Eq => EQ | Ne => NE | Lt => LT
  | Gt => GT | Le => LTEQ | Ge => GTEQ | And => AND | Or => OR
  end.
(** The grammar's levels: 0 expression, 1 predicate, 2 side, 3 term, 4 factor. *)
Definition op_level (op : binary) : nat :=
  match op with
  | Mul | Div => 3 | Add | Sub => 2 | Eq | Ne | Lt | Gt | Le | Ge => 1 | And | Or => 0
  end.
(** Operators associate to the left, comparisons not at all. *)
Definition left_level (op : binary) : nat :=
  match op_level op with 1%nat => 2%nat | l => l end.
Definition level (e : expr) : nat := match e with Bin op _ _ => op_level op | _ => 4%nat end.

(** Its tokens where an operand of level [k] is needed, with parentheses only if
    they are. *)
Fixpoint tokens (k : nat) (e : expr) : list Token :=
  let body := match e with
              | Num text => [NUMBER text]
              | Var name => [NAME name]
              | Neg a => MINUS :: tokens 4 a
              | Not a => NOT :: tokens 4 a
              | Bin op a b => tokens (left_level op) a ++ op_token op :: tokens (S (op_level op)) b
              end in
  if Nat.ltb (level e) k then LPAR :: body ++ [RPAR] else body.

Definition token_text (t : Token) : bytes :=
  match t with
  | UNKNOWN | EOT => [] | NUMBER text => text | NAME name => name
  | MUL => str "*" | DIV => str "/" | PLUS => str "+" | MINUS => str "-"
  | AND => str "&&" | OR => str "||" | NOT => str "!"
  | EQ => str "==" | LT => str "<" | GT => str ">" | LTEQ => str "<=" | GTEQ => str ">="
  | NE => str "!=" | LPAR => str "(" | RPAR => str ")"
  end.
(** Tokens with a blank after each. *)
Definition text_of (ts : list Token) : bytes := flat_map (fun t => token_text t ++ [32]) ts.
Definition print (e : expr) : bytes := text_of (tokens 0 e).

(** Numbers are digits with at most one point, not first; names are as in the
    tokeniser. *)
Definition number_ok (text : bytes) : Prop :=
  exists d ds fs, is_digit d = true /\ Forall (fun c => is_digit c = true) ds /\
    Forall (fun c => is_digit c = true) fs /\
    (text = d :: ds \/ text = d :: ds ++ chr "." :: fs).
Definition name_ok (name : bytes) : Prop :=
  exists c n, is_alpha c = true /\ Forall (fun c => is_name_char c = true) n /\ name = c :: n.
Fixpoint well_formed (e : expr) : Prop :=
  match e with
  | Num text => number_ok text
  | Var name => name_ok name
  | Neg a | Not a => well_formed a
  | Bin _ a b => well_formed a /\ well_formed b
  end.

(* ------------------------------------------------------------------ *)
(** ** Lemmas *)

(** *** Evaluation always ends *)

Lemma take_chars_length p i : (length (snd (take_while p i)) <= length i)%nat.
Proof.
  induction i as [|c i IH]; [done|]. cbn [take_while]. destruct (p c); [|done].
  destruct (take_while p i) as [t r]. simpl in *. lia.
Qed.
Lemma skip_chars_length p i : (length (drop_while p i) <= length i)%nat.
Proof. induction i as [|c i IH]; simpl; [done|]. destruct (p c); simpl; lia. Qed.
Lemma step_length i : (length (step i) <= length i)%nat.
Proof. destruct i; simpl; lia. Qed.

(** Every token but the end takes a character. *)
Lemma read_token_length i :
  (length (snd (read_token i)) <= length i)%nat /\
  match fst (read_token i) with
  | Val t => t <> EOT -> (length (snd (read_token i)) < length i)%nat
  | Throw e => e <> Out_of_fuel
  end.
Proof.
  unfold read_token. pose proof (skip_chars_length is_space i) as Hd.
  destruct (drop_while is_space i) as [|c j]; [simpl; split; [lia|done]|]. cbn [getc length] in *.
  assert (forall t (k : bytes), (length k <= length j)%nat ->
    (length (snd (Val (E := Exception) t, k)) <= length i)%nat /\
    match fst (Val (E := Exception) t, k) with
    | Val t => t <> EOT -> (length (snd (Val (E := Exception) t, k)) < length i)%nat
    | Throw e => e <> Out_of_fuel
    end) as Hval by (intros t k Hk; simpl; split; [|intros _]; lia).
  destruct (is_alpha c).
  { pose proof (take_chars_length is_name_char j). destruct (take_while is_name_char j) as [n k].
    by apply Hval. }
  destruct (is_digit c).
  { unfold read_number. pose proof (take_chars_length is_digit j) as Hj.
    destruct (take_while is_digit j) as [ds k]. simpl in Hj.
    destruct (peekc k =? chr "."); [|by apply Hval].
    pose proof (take_chars_length is_digit (step k)). pose proof (step_length k).
    destruct (take_while is_digit (step k)) as [fs k']. apply Hval. simpl in *. lia. }
  pose proof (step_length j) as Hs.
  repeat match goal with |- context [if c =? ?x then _ else _] =>
    destruct (c =? x); [first [by apply Hval
      | unfold doubled, with_eq; destruct (_ =? _); first [by apply Hval | simpl; split; [lia|done]]]|] end.
  simpl. split; [lia|done].
Qed.

Definition left_over (s : Evaluator) : nat :=
  length (tokeniser s) + (if decide (token s = EOT) then 0 else 1).

Section ends.
Context {V : Type} (A : Arith V) (get_value_for_name : bytes -> exc bytes V).

(** [m] does not run out of fuel, and leaves at most [n] to read. *)
Definition ends {B} (m : M Evaluator Exception B) (s : Evaluator) (n : nat) : Prop :=
  exists r s', m s = (r, s') /\
    match r with Val _ => (left_over s' <= n)%nat | Throw e => e <> Out_of_fuel end.

Lemma ends_ret {B} (x : B) s n : (left_over s <= n)%nat -> ends (ret x) s n.
Proof. intros. by exists (Val x), s. Qed.
Lemma ends_throw {B} t s n : ends (@throw _ _ B (Error t)) s n.
Proof. by eexists (Throw _), s. Qed.
Lemma ends_bind {B C} (m : M Evaluator Exception B) (k : B -> M Evaluator Exception C) s n n' :
  ends m s n' -> (forall x s', (left_over s' <= n')%nat -> ends (k x) s' n) ->
  ends (bind m k) s n.
Proof.
  intros (r & s' & Hm & Hr) Hk. unfold ends, bind. rewrite Hm. destruct r as [x|e].
  - by apply Hk.
  - by exists (Throw e), s'.
Qed.
Lemma ends_current {B} (k : Token -> M Evaluator Exception B) s n :
  ends (k (token s)) s n -> ends (bind current k) s n.
Proof. done. Qed.
Lemma ends_next {B} (k : M Evaluator Exception B) s n :
  token s <> EOT ->
  (forall s', (left_over s' < left_over s)%nat -> ends k s' n) -> ends (next ;;; k) s n.
Proof.
  intros Ht Hk. unfold ends, bind, next. destruct (read_token_length (tokeniser s)) as [Hlen Hr].
  destruct (read_token (tokeniser s)) as [[t|e] i]; simpl in *.
  - apply Hk. unfold left_over. simpl. destruct (decide (t = EOT)); destruct (decide (token s = EOT)); 
      try done; [lia|]. specialize (Hr n0). lia.
  - by exists (Throw e), (mk_Evaluator i (token s)).
Qed.

Definition factor_ends (rf : M Evaluator Exception V) (f : nat) : Prop :=
  forall s, (left_over s < f)%nat -> ends rf s (left_over s).

Lemma ends_weaken {B} (m : M Evaluator Exception B) s n n' :
  ends m s n -> (n <= n')%nat -> ends m s n'.
Proof. intros (r & s' & Hm & Hr) Hn. exists r, s'. split; [done|]. destruct r; [lia|done]. Qed.

Lemma term_ends rf f n : factor_ends rf f -> forall s,
  (left_over s < f)%nat -> (left_over s < n)%nat ->
  (forall v, ends (term_loop A rf n v) s (left_over s)) /\ ends (read_term A rf n) s (left_over s).
Proof.
  intros Hrf.
  assert (forall n v s, (left_over s < f)%nat -> (left_over s < n)%nat ->
    ends (term_loop A rf n v) s (left_over s)) as Hloop.
  { clear n. induction n as [|n IH]; intros v s Hf Hn; [lia|]. cbn [term_loop]. apply ends_current.
    destruct (token s) eqn:Ht; try (by apply ends_ret);
      (apply ends_next; [congruence|]; intros s' Hs'; eapply ends_bind; [apply Hrf; lia|];
       intros w s2 Hs2; eapply ends_weaken; [apply IH; lia|lia]). }
  intros s Hf Hn. split; [by intros; apply Hloop|].
  eapply ends_bind; [by apply Hrf|]. intros v s2 Hs2. eapply ends_weaken; [apply Hloop; lia|lia].
Qed.

Lemma side_ends rf f n : factor_ends rf f -> forall s,
  (left_over s < f)%nat -> (left_over s < n)%nat -> ends (read_side A rf n) s (left_over s).
Proof.
  intros Hrf.
  assert (forall k v s, (left_over s < f)%nat -> (left_over s < n)%nat -> (left_over s < k)%nat ->
    ends (side_loop A rf k n v) s (left_over s)) as Hloop.
  { induction k as [|k IH]; intros v s Hf Hn Hk; [lia|]. cbn [side_loop]. apply ends_current.
    destruct (token s) eqn:Ht; try (by apply ends_ret);
      (apply ends_next; [congruence|]; intros s' Hs'; eapply ends_bind;
       [apply (term_ends rf f n Hrf); lia|];
       intros w s2 Hs2; eapply ends_weaken; [apply IH; lia|lia]). }
  intros s Hf Hn. eapply ends_bind; [by apply (term_ends rf f n Hrf)|].
  intros v s2 Hs2. eapply ends_weaken; [apply Hloop; lia|lia].
Qed.

Lemma predicate_ends rf f n : factor_ends rf f -> forall s,
  (left_over s < f)%nat -> (left_over s < n)%nat -> ends (read_predicate A rf n) s (left_over s).
Proof.
  intros Hrf s Hf Hn. eapply ends_bind; [by apply (side_ends rf f n Hrf)|].
  intros v s2 Hs2. apply ends_current.
  destruct (token s2) eqn:Ht; try (apply ends_ret; lia);
    (apply ends_next; [congruence|]; intros s3 Hs3; eapply ends_bind;
     [apply (side_ends rf f n Hrf); lia|]; intros w s4 Hs4; apply ends_ret; lia).
Qed.

Lemma expression_ends rf f n : factor_ends rf f -> forall s,
  (left_over s < f)%nat -> (left_over s < n)%nat -> ends (read_expression A rf n) s (left_over s).
Proof.
  intros Hrf.
  assert (forall k v s, (left_over s < f)%nat -> (left_over s < n)%nat -> (left_over s < k)%nat ->
    ends (expression_loop A rf k n v) s (left_over s)) as Hloop.
  { induction k as [|k IH]; intros v s Hf Hn Hk; [lia|]. cbn [expression_loop]. apply ends_current.
    destruct (token s) eqn:Ht; try (by apply ends_ret);
      (apply ends_next; [congruence|]; intros s' Hs'; eapply ends_bind;
       [apply (predicate_ends rf f n Hrf); lia|];
       intros w s2 Hs2; eapply ends_weaken; [apply IH; lia|lia]). }
  intros s Hf Hn. eapply ends_bind; [by apply (predicate_ends rf f n Hrf)|].
  intros v s2 Hs2. eapply ends_weaken; [apply Hloop; lia|lia].
Qed.

Lemma read_factor_ends f : factor_ends (read_factor A get_value_for_name f) f.
Proof.
  induction f as [|f IH]; intros s Hf; [lia|]. cbn [read_factor]. apply ends_current.
  destruct (token s) eqn:Ht; try apply ends_throw.
  - apply ends_next; [congruence|]. intros s' Hs'. apply ends_ret. lia.
  - destruct (get_value_for_name name) as [v|x]; [|by eexists (Throw _), s].
    change (ends (next ;;; ret v) s (left_over s)).
    apply ends_next; [congruence|]. intros s' Hs'. apply ends_ret. lia.
  - apply ends_next; [congruence|]. intros s' Hs'. eapply ends_bind; [apply IH; lia|].
    intros v s2 Hs2. apply ends_ret. lia.
  - apply ends_next; [congruence|]. intros s' Hs'. eapply ends_bind; [apply IH; lia|].
    intros v s2 Hs2. apply ends_ret. lia.
  - apply ends_next; [congruence|]. intros s' Hs'.
    eapply ends_bind; [apply (expression_ends _ _ _ IH); lia|].
    intros v s2 Hs2. apply ends_current. destruct (decide (token s2 = RPAR)).
    + apply ends_next; [congruence|]. intros s3 Hs3. apply ends_ret. lia.
    + apply (ends_bind _ _ _ _ 0); [apply ends_throw|]. intros ? s3 ?. apply ends_ret. lia.
Qed.
End ends.

(** *** Evaluation of tokens *)

(** [ts] and then the end are what the tokeniser finds in the text. *)
Fixpoint stream (ts : list Token) (i : bytes) : Prop :=
  match ts with
  | [] => exists i', read_token i = (Val EOT, i')
  | t :: ts => exists i', read_token i = (Val t, i') /\ stream ts i'
  end.
Definition reads (ts : list Token) (s : Evaluator) : Prop :=
  match ts with
  | [] => token s = EOT
  | t :: ts => token s = t /\ stream ts (tokeniser s)
  end.
(** No operator of level [k] or more follows. *)
Definition stops (k : nat) (ts : list Token) : Prop :=
  match ts with
  | [] => True
  | t :: _ => forall op, op_token op = t -> (op_level op < k)%nat
  end.

Lemma stops_weaken k ts : stops k ts -> stops (S k) ts.
Proof. destruct ts as [|t ts]; [done|]. intros H op Ht. specialize (H op Ht). lia. Qed.

Section evaluation.
Context {V : Type} (A : Arith V) (get_value_for_name : bytes -> exc bytes V).
Abbreviation E := (M Evaluator Exception).
Abbreviation rf := (read_factor A get_value_for_name).
Abbreviation den := (denote A get_value_for_name).

Definition loop_at (k : nat) (read : E V) (n m : nat) (v : V) : E V :=
  match k with
  | 0%nat => expression_loop A read n m v
  | 1%nat =>
    let! t := current in
    let compare (c : V -> V -> bool) : E V :=
      next ;;; let! w := read_side A read m in ret (of_bool A (c v w)) in
    match t with
    | EQ => compare (v_eqb A)
    | NE => compare (fun v w => negb (v_eqb A v w))
    | LT => compare (v_ltb A)
    | GT => compare (fun v w => v_ltb A w v)
    | LTEQ => compare (v_leb A)
    | GTEQ => compare (fun v w => v_leb A w v)
    | _ => ret v
    end
  | 2%nat => side_loop A read n m v
  | 3%nat => term_loop A read n v
  | _ => ret v
  end.
Definition read_at (k : nat) (read : E V) (m : nat) : E V :=
  match k with
  | 0%nat => read_expression A read m
  | 1%nat => read_predicate A read m
  | 2%nat => read_side A read m
  | 3%nat => read_term A read m
  | _ => read
  end.

Lemma read_at_loop k read m : (k < 4)%nat ->
  read_at k read m = bind (read_at (S k) read m) (loop_at k read m m).
Proof. intros. by destruct k as [|[|[|[|k]]]]; [..|lia]. Qed.

Lemma loop_at_stop k read n m v ts s :
  reads ts s -> stops k ts -> loop_at k read (S n) m v s = (Val v, s).
Proof.
  intros Hr Hs.
  assert (forall op, token s = op_token op -> (op_level op < k)%nat) as Hop.
  { intros op Ht. destruct ts as [|t ts]; cbn in Hr; [rewrite Ht in Hr; by destruct op|].
    apply Hs. by destruct Hr as [<- _]. }
  destruct k as [|[|[|[|k]]]]; [..|done]; cbn [loop_at expression_loop side_loop term_loop];
    unfold bind at 1, current; cbv beta iota;
    destruct (token s); try done;
    (let H := fresh in
     first [pose proof (Hop Mul eq_refl) as H | pose proof (Hop Div eq_refl) as H
     | pose proof (Hop Add eq_refl) as H | pose proof (Hop Sub eq_refl) as H
     | pose proof (Hop Eq eq_refl) as H | pose proof (Hop Ne eq_refl) as H
     | pose proof (Hop Lt eq_refl) as H | pose proof (Hop Gt eq_refl) as H
     | pose proof (Hop Le eq_refl) as H | pose proof (Hop Ge eq_refl) as H
     | pose proof (Hop And eq_refl) as H | pose proof (Hop Or eq_refl) as H];
     simpl in H; lia).
Qed.

Lemma loop_at_op op read n m v s : token s = op_token op ->
  loop_at (op_level op) read (S n) m v s =
  (next ;;; let! w := read_at (S (op_level op)) read m in
   (if decide (op_level op = 1%nat) then ret else loop_at (op_level op) read n m)
     (apply A op v w)) s.
Proof.
  intros Ht. destruct op; cbn [op_level loop_at expression_loop side_loop term_loop];
    unfold bind at 1, current; rewrite Ht; done.
Qed.

Lemma next_reads t ts s : reads (t :: ts) s -> exists s', next s = (Val tt, s') /\ reads ts s'.
Proof.
  intros [_ Hs]. unfold next.
  destruct ts as [|t' ts]; cbn [stream] in Hs.
  - destruct Hs as (i' & ->). eexists. split; [done|]. done.
  - destruct Hs as (i' & -> & Hs). eexists. split; [done|]. done.
Qed.

Definition outcome (m : exc Exception V * Evaluator) (r : exc bytes V) (rest : list Token) : Prop :=
  match r with
  | Val v => exists s', m = (Val v, s') /\ reads rest s'
  | Throw x => exists s', m = (Throw (Error x), s')
  end.

(** The reader of level [k] evaluates [e]. *)
Definition evaluates (k : nat) (e : expr) : Prop := forall f m s rest,
  (length (tokens k e) <= f)%nat -> (length (tokens k e) <= m)%nat ->
  reads (tokens k e ++ rest) s -> stops k rest ->
  outcome (read_at k (rf f) m s) (den e) rest.

(** The loop of level [k], begun on [e], reaches the value of [e] with fuel
    for what follows. *)
Definition chains (k : nat) (e : expr) : Prop := forall f m n s rest,
  (length (tokens k e) <= f)%nat -> (length (tokens k e) <= m)%nat ->
  (length (tokens k e) <= n)%nat ->
  reads (tokens k e ++ rest) s -> stops (S k) rest ->
  let run := bind (read_at (S k) (rf f) m) (loop_at k (rf f) n m) s in
  match den e with
  | Val v => exists n' s', (S n <= n' + length (tokens k e))%nat /\ reads rest s' /\
                           run = loop_at k (rf f) n' m v s'
  | Throw x => exists s', run = (Throw (Error x), s')
  end.

Lemma chains_evaluates k e : (k < 4)%nat -> chains k e -> evaluates k e.
Proof.
  intros Hk Hc f m s rest Hf Hm Hr Hs. rewrite read_at_loop by done.
  specialize (Hc f m m s rest Hf Hm Hm Hr (stops_weaken _ _ Hs)). cbv zeta in Hc.
  unfold outcome. destruct (den e) as [v|x]; [|done].
  destruct Hc as (n' & s' & Hn & Hr' & ->). destruct n' as [|n']; [lia|].
  exists s'. split; [|done]. by eapply loop_at_stop.
Qed.

Lemma tokens_next k e : level e <> k -> tokens k e = tokens (S k) e.
Proof.
  intros Hk. destruct e; cbn [tokens level] in *;
    (destruct (Nat.ltb_spec (op_level op) k) as [H1|H1] || destruct (Nat.ltb_spec 4 k) as [H1|H1]);
    (destruct (Nat.ltb_spec (op_level op) (S k)) as [H2|H2] || destruct (Nat.ltb_spec 4 (S k)) as [H2|H2]);
    done || lia.
Qed.

Lemma evaluates_chains k e : level e <> k -> evaluates (S k) e -> chains k e.
Proof.
  intros Hk He f m n s rest Hf Hm Hn Hr Hs run. rewrite tokens_next in * by done.
  specialize (He f m s rest Hf Hm Hr Hs). unfold outcome in He.
  destruct (den e) as [v|x].
  - destruct He as (s' & He & Hr'). exists n, s'. repeat split; [|done|].
    + destruct (tokens (S k) e) eqn:Ht; [|simpl; lia].
      exfalso. revert Ht. clear. destruct e; cbn [tokens level];
        (destruct (Nat.ltb _ _)); try done. by destruct (tokens (left_level op) e1).
    + unfold run. by rewrite (bind_val _ _ _ _ _ He).
  - destruct He as (s' & He). exists s'. unfold run. by rewrite (bind_throw _ _ _ _ _ He).
Qed.
Lemma op_stops op ts : stops (S (op_level op)) (op_token op :: ts).
Proof. intros op' Ht. destruct op, op'; try done; simpl; lia. Qed.

Lemma left_stops op ts : stops (S (left_level op)) (op_token op :: ts).
Proof. intros op' Ht. destruct op, op'; try done; unfold left_level; simpl; lia. Qed.

Lemma bin_tokens op a b : tokens (op_level op) (Bin op a b) =
  tokens (left_level op) a ++ op_token op :: tokens (S (op_level op)) b.
Proof. cbn [tokens level]. by rewrite Nat.ltb_irrefl. Qed.

Lemma bin_chains op a b : op_level op <> 1%nat ->
  chains (op_level op) a -> evaluates (S (op_level op)) b -> chains (op_level op) (Bin op a b).
Proof.
  intros Hl Ha Hb f m n s rest. rewrite bin_tokens.
  assert (left_level op = op_level op) as -> by (by destruct op).
  rewrite length_app. cbn [length]. intros Hf Hm Hn Hr Hs. rewrite <- app_assoc in Hr. cbv zeta.
  specialize (Ha f m n s _ ltac:(lia) ltac:(lia) ltac:(lia) Hr (op_stops op _)). cbv zeta in Ha.
  cbn [denote]. destruct (den a) as [v|x]; [|done].
  destruct Ha as (n' & s1 & Hn' & Hr1 & ->). destruct n' as [|n']; [lia|].
  rewrite loop_at_op by (by destruct Hr1). destruct (next_reads _ _ _ Hr1) as (s2 & Hnext & Hr2).
  rewrite (bind_val _ _ _ _ _ Hnext).
  specialize (Hb f m s2 rest ltac:(lia) ltac:(lia) Hr2 Hs). unfold outcome in Hb.
  destruct (den b) as [w|x]; destruct Hb as (s3 & Hb).
  - destruct Hb as [Hb Hr3]. rewrite (bind_val _ _ _ _ _ Hb). destruct (decide _); [done|].
    exists n', s3. repeat split; [lia|done].
  - exists s3. by rewrite (bind_throw _ _ _ _ _ Hb).
Qed.

Lemma bin_predicate op a b : op_level op = 1%nat ->
  evaluates 2 a -> evaluates 2 b -> evaluates 1 (Bin op a b).
Proof.
  intros Hl Ha Hb f m s rest. pose proof (bin_tokens op a b) as Ht. unfold left_level in Ht.
  rewrite Hl in Ht. rewrite Ht, length_app. cbn [length]. intros Hf Hm Hr Hs.
  rewrite <- app_assoc in Hr. rewrite read_at_loop by lia.
  assert (stops 2 (op_token op :: tokens 2 b ++ rest)) as Hs'.
  { pose proof (op_stops op (tokens 2 b ++ rest)) as H. by rewrite Hl in H. }
  specialize (Ha f m s _ ltac:(lia) ltac:(lia) Hr Hs'). unfold outcome in Ha.
  cbn [denote]. destruct (den a) as [v|x]; destruct Ha as (s1 & Ha);
    [|exists s1; by rewrite (bind_throw _ _ _ _ _ Ha)].
  destruct Ha as [Ha Hr1]. rewrite (bind_val _ _ _ _ _ Ha). destruct m as [|m]; [lia|].
  assert (forall w s0, loop_at 1 (rf f) (S m) (S m) w s0 = loop_at 1 (rf f) (S (S m)) (S m) w s0)
    as -> by done.
  pose proof (loop_at_op op (rf f) (S m) (S m) v s1) as Hop. rewrite Hl in Hop.
  rewrite Hop by (by destruct Hr1). destruct (next_reads _ _ _ Hr1) as (s2 & Hnext & Hr2).
  rewrite (bind_val _ _ _ _ _ Hnext).
  specialize (Hb f (S m) s2 rest ltac:(lia) ltac:(lia) Hr2 (stops_weaken _ _ Hs)). unfold outcome in Hb.
  destruct (den b) as [w|x]; destruct Hb as (s3 & Hb).
  - destruct Hb as [Hb Hr3]. rewrite (bind_val _ _ _ _ _ Hb). by exists s3.
  - exists s3. by rewrite (bind_throw _ _ _ _ _ Hb).
Qed.

Lemma tokens_pos k e : (0 < length (tokens k e))%nat.
Proof.
  destruct e; cbn [tokens level]; (destruct (Nat.ltb _ _)); simpl; try lia. rewrite length_app. simpl. lia.
Qed.

(** An operand in parentheses. *)
Lemma paren_evaluates e : (level e < 4)%nat -> evaluates 0 e -> evaluates 4 e.
Proof.
  intros Hl He f m s rest.
  assert (tokens 4 e = LPAR :: tokens 0 e ++ [RPAR]) as ->.
  { destruct e; simpl in Hl; try lia. cbn [tokens level]. by destruct op. }
  cbn [length app]. rewrite length_app, <- app_assoc. cbn [length]. intros Hf _ Hr Hs.
  destruct f as [|f]; [lia|]. cbn [read_at read_factor].
  unfold bind at 1, current at 1. destruct (Hr) as [-> _].
  destruct (next_reads _ _ _ Hr) as (s1 & Hnext & Hr1). rewrite (bind_val _ _ _ _ _ Hnext).
  specialize (He f f s1 ([RPAR] ++ rest) ltac:(lia) ltac:(lia) Hr1). unfold outcome in He.
  cbn [read_at] in He. specialize (He ltac:(intros op Hop; by destruct op)).
  unfold outcome. destruct (den e) as [v|x]; destruct He as (s2 & He).
  - destruct He as [He Hr2]. rewrite (bind_val _ _ _ _ _ He).
    unfold bind at 1, current at 1. destruct (Hr2) as [-> _].
    rewrite decide_True by done.
    destruct (next_reads _ _ _ Hr2) as (s3 & Hnext3 & Hr3). rewrite (bind_val _ _ _ _ _ Hnext3).
    by exists s3.
  - exists s2. by rewrite (bind_throw _ _ _ _ _ He).
Qed.

Lemma descend e l : (l <= 4)%nat -> (forall k, (k < l)%nat -> level e <> k) -> evaluates l e ->
  forall k, (k < l)%nat -> chains k e /\ evaluates k e.
Proof.
  intros Hl Hlev He k Hk. remember (l - k)%nat as d eqn:Hd. revert k Hk Hd.
  induction d as [|d IH]; intros k Hk Hd; [lia|].
  assert (chains k e).
  { apply evaluates_chains; [by apply Hlev|].
    destruct (decide (S k = l)) as [->|]; [done|]. apply IH; lia. }
  split; [done|]. apply chains_evaluates; [lia|done].
Qed.

Lemma atom_evaluates e : evaluates 4 e -> level e = 4%nat ->
  forall k, (k <= 4)%nat -> evaluates k e /\ ((k < 4)%nat -> chains k e).
Proof.
  intros He Hl k Hk. destruct (decide (k = 4%nat)) as [->|]; [split; [done|lia]|].
  destruct (descend e 4 ltac:(lia) ltac:(lia) He k ltac:(lia)). done.
Qed.

Lemma bin_evaluates op a b :
  (forall k, (k <= 4)%nat -> evaluates k a /\ ((k < 4)%nat -> k <> 1%nat -> chains k a)) ->
  (forall k, (k <= 4)%nat -> evaluates k b) ->
  forall k, (k <= 4)%nat ->
  evaluates k (Bin op a b) /\ ((k < 4)%nat -> k <> 1%nat -> chains k (Bin op a b)).
Proof.
  intros IHa IHb k Hk.
  assert (op_level op < 4)%nat as Hl by (destruct op; simpl; lia).
  assert (evaluates (op_level op) (Bin op a b) /\
          (op_level op <> 1%nat -> chains (op_level op) (Bin op a b))) as [He Hc].
  { destruct (decide (op_level op = 1%nat)) as [H1|H1].
    - rewrite H1. split; [|done]. apply bin_predicate; [done|apply IHa; lia|apply IHb; lia].
    - assert (chains (op_level op) (Bin op a b))
        by (apply bin_chains; [done|apply IHa; lia|apply IHb; lia]).
      split; [by apply chains_evaluates|done]. }
  assert (forall k, (k < op_level op)%nat ->
    chains k (Bin op a b) /\ evaluates k (Bin op a b)) as Hlow
    by (apply descend; [lia|cbn [level]; lia|done]).
  assert (evaluates 4 (Bin op a b)) as H4.
  { apply paren_evaluates; [done|]. destruct (decide (op_level op = 0%nat)) as [H0|H0].
    - by rewrite H0 in He.
    - apply Hlow. lia. }
  destruct (Nat.lt_trichotomy k (op_level op)) as [Hk'|[->|Hk']].
  + by destruct (Hlow k Hk').
  + done.
  + assert (forall j, (op_level op < j)%nat -> (j <= 4)%nat -> evaluates j (Bin op a b)) as Hup.
    { intros j Hj Hj4. remember (4 - j)%nat as d eqn:Hd. revert j Hj Hj4 Hd.
      induction d as [|d IH]; intros j Hj Hj4 Hd; [by replace j with 4%nat by lia|].
      apply chains_evaluates; [lia|]. apply evaluates_chains; [cbn [level]; lia|]. apply IH; lia. }
    split; [by apply Hup|]. intros Hk4 _. apply evaluates_chains; [cbn [level]; lia|]. apply Hup; lia.
Qed.

Lemma evaluates_all e : forall k, (k <= 4)%nat ->
  evaluates k e /\ ((k < 4)%nat -> k <> 1%nat -> chains k e).
Proof.
  induction e as [text|name|a IHa|a IHa|op a IHa b IHb]; intros k Hk.
  1-4: match goal with |- evaluates _ ?e /\ _ =>
    cut (evaluates 4 e); [intros He; 
      destruct (atom_evaluates e He eq_refl k Hk) as [? Hc]; split; [done|by intros; apply Hc]|] end;
    clear k Hk; intros f m s rest Hf Hm Hr Hs; cbn [tokens level Nat.ltb Nat.leb app length] in *;
    (destruct f as [|f]; [lia|]); cbn [read_at read_factor];
    unfold bind at 1, current at 1; destruct (Hr) as [-> _];
    destruct (next_reads _ _ _ Hr) as (s1 & Hnext & Hr1).
  - rewrite (bind_val _ _ _ _ _ Hnext). by exists s1.
  - unfold outcome. cbn [denote]. unfold bind at 1, lift.
    destruct (get_value_for_name name) as [v|x]; [|by eexists].
    rewrite (bind_val _ _ _ _ _ Hnext). by exists s1.
  - rewrite (bind_val _ _ _ _ _ Hnext). unfold outcome. cbn [denote].
    destruct (IHa 4%nat (le_n _)) as [Ha _].
    specialize (Ha f f s1 rest ltac:(lia) ltac:(lia) Hr1 Hs). cbn [read_at] in Ha. unfold outcome in Ha.
    destruct (den a) as [v|x]; destruct Ha as (s2 & Ha).
    + destruct Ha as [Ha Hr2]. rewrite (bind_val _ _ _ _ _ Ha). by exists s2.
    + exists s2. by rewrite (bind_throw _ _ _ _ _ Ha).
  - rewrite (bind_val _ _ _ _ _ Hnext). unfold outcome. cbn [denote].
    destruct (IHa 4%nat (le_n _)) as [Ha _].
    specialize (Ha f f s1 rest ltac:(lia) ltac:(lia) Hr1 Hs). cbn [read_at] in Ha. unfold outcome in Ha.
    destruct (den a) as [v|x]; destruct Ha as (s2 & Ha).
    + destruct Ha as [Ha Hr2]. rewrite (bind_val _ _ _ _ _ Ha). exists s2.
      split; [|done]. unfold ret, of_bool. by destruct (v_true A v).
    + exists s2. by rewrite (bind_throw _ _ _ _ _ Ha).
  - apply bin_evaluates; [done|by intros; apply IHb|done].
Qed.
End evaluation.

(** *** The tokens of printed text *)

Definition token_ok (t : Token) : Prop :=
  match t with
  | UNKNOWN | EOT => False
  | NUMBER text => number_ok text
  | NAME name => name_ok name
  | _ => True
  end.

Lemma take_chars_app p t (c : Z) i :
  Forall (fun c => p c = true) t -> p c = false -> take_while p (t ++ c :: i) = (t, c :: i).
Proof.
  intros Ht Hc. induction Ht as [|x t Hx Ht IH]; cbn [take_while app]; [by rewrite Hc|].
  by rewrite Hx, IH.
Qed.

Lemma read_blank i : read_token (32 :: i) = read_token i.
Proof. done. Qed.

Lemma alpha_char c : is_alpha c = true -> is_space c = false.
Proof.
  unfold is_alpha, is_space. intros H.
  lia.
Qed.
Lemma digit_char c : is_digit c = true -> is_space c = false /\ is_alpha c = false.
Proof. unfold is_alpha, is_digit, is_space. intros H. lia. Qed.

Lemma read_token_text t i : token_ok t -> read_token (token_text t ++ 32 :: i) = (Val t, 32 :: i).
Proof.
  intros Ht. destruct t; try done; cbn [token_ok token_text] in *.
  - destruct Ht as (d & ds & fs & Hd & Hds & Hfs & Ht). destruct (digit_char d Hd) as [Hs Ha].
    unfold read_token.
    assert (drop_while is_space (text ++ 32 :: i) = text ++ 32 :: i) as ->
      by (destruct Ht as [-> | ->]; cbn [drop_while app]; by rewrite Hs).
    destruct Ht as [-> | ->]; cbn [getc app]; rewrite Ha, Hd; unfold read_number.
    + by rewrite (take_chars_app _ ds) by done.
    + rewrite <- app_assoc. cbn [app]. rewrite (take_chars_app _ ds) by done.
      cbn [peekc step tail]. rewrite Z.eqb_refl. by rewrite (take_chars_app _ fs).
  - destruct Ht as (c & n & Hc & Hn & ->). unfold read_token. cbn [app drop_while].
    rewrite (alpha_char c Hc). cbn [getc]. rewrite Hc. by rewrite (take_chars_app _ n).
Qed.

Lemma text_of_stream ts : Forall token_ok ts -> stream ts (text_of ts) /\ stream ts (32 :: text_of ts).
Proof.
  intros Hts.
  assert (stream ts (32 :: text_of ts)) as Hb.
  { induction Hts as [|t ts Ht Hts IH]; cbn [stream].
    - by eexists.
    - exists (32 :: text_of ts). split; [|done]. rewrite read_blank. cbn [text_of flat_map].
      rewrite <- app_assoc. by apply read_token_text. }
  split; [|done]. by destruct ts.
Qed.

Lemma tokens_ok e : well_formed e -> forall k, Forall token_ok (tokens k e).
Proof.
  induction e as [text|name|a IHa|a IHa|op a IHa b IHb]; intros He k; cbn [tokens well_formed] in *.
  1-4: destruct (Nat.ltb _ k); cbn [app];
    repeat first [apply Forall_cons_2 | apply Forall_app_2 | apply Forall_nil_2];
    first [done | by apply IHa].
  - destruct He as [Ha Hb].
    assert (Forall token_ok (tokens (left_level op) a ++ op_token op :: tokens (S (op_level op)) b)).
    { apply Forall_app. split; [by apply IHa|]. constructor; [by destruct op|by apply IHb]. }
    destruct (Nat.ltb _ k); [|done]. constructor; [done|].
    apply Forall_app_2; [done|]. by apply Forall_singleton.
Qed.

(** Each token takes a character of the text. *)
Lemma stream_length ts : Forall token_ok ts -> forall i, stream ts i -> (length ts <= length i)%nat.
Proof.
  intros Hts. induction Hts as [|t ts Ht Hts IH]; intros i Hi; simpl; [lia|].
  destruct Hi as (i' & Hread & Hi'). specialize (IH i' Hi').
  destruct (read_token_length i) as [_ Hlen]. rewrite Hread in Hlen. simpl in Hlen.
  specialize (Hlen ltac:(by intros ->)). lia.
Qed.

(** Any text whose tokens are those of [e] evaluates to what [e] means. *)
Lemma evaluate_stream {V} (A : Arith V) get_value_for_name e text :
  well_formed e -> stream (tokens 0 e) text ->
  evaluate A get_value_for_name text =
  match denote A get_value_for_name e with Val v => Val v | Throw x => Throw (Error x) end.
Proof.
  intros He Hs. pose proof (stream_length _ (tokens_ok e He 0) text Hs) as Hlen.
  unfold evaluate. set (f := (2 + length text)%nat).
  assert (exists s, next (mk_Evaluator text UNKNOWN) = (Val tt, s) /\ reads (tokens 0 e) s)
    as (s & Hn & Hr).
  { apply (next_reads UNKNOWN). by split. }
  rewrite (bind_val _ _ _ _ _ Hn).
  destruct (evaluates_all A get_value_for_name e 0 ltac:(lia)) as [Hev _].
  specialize (Hev f f s [] ltac:(lia) ltac:(lia)). rewrite app_nil_r in Hev.
  specialize (Hev Hr I). unfold outcome in Hev. cbn [read_at] in Hev.
  destruct (denote A get_value_for_name e) as [v|x].
  - destruct Hev as (s' & Hev & Hend). rewrite (bind_val _ _ _ _ _ Hev). cbn in Hend.
    unfold bind, current. by rewrite decide_True by done.
  - destruct Hev as (s' & Hev). by rewrite (bind_throw _ _ _ _ _ Hev).
Qed.

(* ------------------------------------------------------------------ *)
(** ** Properties *)

(** C3: An expression written out with only the parentheses that the precedence
    of the operators needs (or, and; then comparisons, which do not associate;
    then sums; then products; then the unary ones) evaluates to what it means:
    the operators applied from left to right, every operand of [&&] and [||]
    evaluated, and the first variable that has no value ends it with that
    exception.  It holds for every type of numbers and every way to look up
    variables. *)
Theorem evaluate_print {V} (A : Arith V) (get_value_for_name : bytes -> exc bytes V) e :
  well_formed e ->
  evaluate A get_value_for_name (print e) =
  match denote A get_value_for_name e with Val v => Val v | Throw x => Throw (Error x) end.
Proof. intros He. apply evaluate_stream; [done|]. by apply text_of_stream, tokens_ok. Qed.

(** On any text at all, well formed or not, evaluation ends with a value or
    with an exception of the code: the recursion and the loops never need more
    steps than the text has characters. *)
Theorem evaluate_total {V} (A : Arith V) (get_value_for_name : bytes -> exc bytes V) text :
  (exists v, evaluate A get_value_for_name text = Val v) \/
  (exists error, evaluate A get_value_for_name text = Throw (Error error)).
Proof.
  unfold evaluate. remember (2 + length text)%nat as f eqn:Hf.
  assert (ends (next ;;;
        let! v := read_expression A (read_factor A get_value_for_name f) f in
        let! t := current in
        if decide (t = EOT) then ret v else throw (Error (str "Parse error")))
     (mk_Evaluator text UNKNOWN) (1 + length text)) as (r & s & Hr & Ho).
  { destruct (read_token_length text) as [Hlen Ht].
    unfold ends, bind at 1, next. cbn [tokeniser].
    destruct (read_token text) as [[t|e] i]; simpl in *; [|by eexists (Throw e), _].
    set (s := mk_Evaluator i t).
    assert (left_over s <= 1 + length text)%nat
      by (unfold left_over; simpl; destruct (decide _); lia).
    apply (ends_bind _ _ _ _ (left_over s)).
    - apply (expression_ends A _ _ _ (read_factor_ends A get_value_for_name _)); lia.
    - intros v s' Hs'. apply ends_current. destruct (decide _); [|apply ends_throw].
      apply ends_ret. lia. }
  rewrite Hr. simpl. destruct r as [v|[x|]]; [by left; exists v|by right; exists x|done].
Qed.

(** Integers, with Euclid's division. *)
Definition int_arith : Arith Z :=
  mk_Arith Z (fun t => fold_left (fun v c => 10 * v + (c - chr "0")) t 0) 0 1 Z.opp
    Z.mul Z.div Z.add Z.sub Z.eqb Z.ltb Z.leb (fun v => negb (v =? 0)).
Definition x_is_7 (name : bytes) : exc bytes Z :=
  property_value (fun n => if decide (n = str "x") then Some 7 else None) name.

Example evaluate_text :
  evaluate int_arith x_is_7 (str "10-3-2*-x+(8/2/2==2&&!0)") = Val 22 /\
  evaluate int_arith x_is_7 (str "1+y") = Throw (Error (str "No such variable 'y'")) /\
  evaluate int_arith x_is_7 (str "(1+2") = Throw (Error (str "Mismatched parentheses")) /\
  evaluate int_arith x_is_7 (str "1<2<3") = Throw (Error (str "Parse error")) /\
  evaluate int_arith x_is_7 (str "1=2") =
    Throw (Error (str "Assignment not implemented - use ==")).
Proof. vm_compute. done. Qed.

Lemma evaluate_print_witness :
  let e := Bin And (Bin Lt (Bin Sub (Num (str "10")) (Bin Sub (Num (str "3")) (Var (str "x"))))
                     (Bin Mul (Bin Add (Num (str "5")) (Num (str "6"))) (Neg (Var (str "x")))))
                   (Not (Num (str "0"))) in
  print e = str "10 - ( 3 - x ) < ( 5 + 6 ) * - x && ! 0 " /\
  evaluate int_arith x_is_7 (print e) = Val 0.
Proof.
  intros e. split; [by vm_compute|].
  assert (well_formed e) as He.
  { assert (forall d, is_digit d = true -> number_ok [d]) as H1
      by (intros d Hd; exists d, [], []; repeat split; auto).
    assert (name_ok (str "x")) by (exists 120, []; repeat split; auto).
    repeat split; try done; try by apply H1.
    exists 49, [48], []. repeat split; auto. }
  rewrite (evaluate_print int_arith x_is_7 e He). by vm_compute.
Defined.

End Expr.
