(* ===== verification/Strings.v ===== *)
(** * Text handling

    Models [src/libs/text/case.cc], [ws.cc], [split.cc], [csv.cc] and
    [subst.cc].  The loops over the characters of a text are folds or structural
    recursions; the loops that search from a position get as many rounds as the
    text has characters, and [None] stands for a loop that needs more
    ([subst] of an empty string) or for a read outside the text
    ([split_lines] of a text that begins with a newline). *)
From S2P Require Export Convert.

Module Strings.

(** ** Case, in the C locale *)

Definition to_lower (c : Z) : Z := if (65 <=? c) && (c <=? 90) then c + 32 else c.
Definition to_upper (c : Z) : Z := if (97 <=? c) && (c <=? 122) then c - 32 else c.

Definition tolower (text : bytes) : bytes := map to_lower text.
Definition toupper (text : bytes) : bytes := map to_upper text.

(** ** Searches of [std::string]

    [None] is [npos], which is beyond the length of every string. *)

Fixpoint find_first (p : Z -> bool) (text : bytes) : option Z :=
  match text with
  | [] => None
  | c :: text => if p c then Some 0 else Z.succ <$> find_first p text
  end.
Fixpoint find_last (p : Z -> bool) (text : bytes) : option Z :=
  match text with
  | [] => None
  | c :: text => match find_last p text with
                 | Some i => Some (Z.succ i)
                 | None => if p c then Some 0 else None
                 end
  end.
(** [text.find(c, pos)] *)
Definition find (c : Z) (text : bytes) (pos : Z) : option Z :=
  Z.add pos <$> find_first (Z.eqb c) (zdrop pos text).

(** [text.substr(pos, n)] *)
Definition substr (text : bytes) (pos n : Z) : bytes := ztake n (zdrop pos text).

(** ** White space: ws.cc *)

Definition SP : Z := 32.
Definition TAB : Z := 9.
Definition NL : Z := 10.
Definition CR : Z := 13.

Definition in_blank (c : Z) : bool := (c =? SP) || (c =? TAB) || (c =? NL).

Definition strip_blank_lines (text : bytes) : bytes :=
  match find_first (fun c => negb (in_blank c)) text with
  | None => []
  | Some start =>
    match find_first (Z.eqb NL) text with
    | None => text
    | Some nl =>
      let start := if nl <? start then nl + 1 else 0 in
      match find_last (fun c => negb (in_blank c)) text with
      | None => []
      | Some end_ =>
        if end_ <? start then [] else
        match find_last (Z.eqb NL) text with
        | Some nl => if nl >? end_ then substr text start (nl - start + 1) else zdrop start text
        | None => []  (* not reached: there is a newline *)
        end
      end
    end
  end.

Record condenser := mk_condenser {
  is_blank : bool; blank_lines : Z; newtext : bytes; line : bytes }.

Definition condense_step (s : condenser) (c : Z) : condenser :=
  let line1 := line s ++ [c] in
  if (c =? SP) || (c =? TAB) then mk_condenser (is_blank s) (blank_lines s) (newtext s) line1
  else if c =? NL then
    if is_blank s then mk_condenser true (i32 (blank_lines s + 1)) (newtext s) []
    else mk_condenser true 0
           ((if blank_lines s >? 0 then newtext s ++ [NL] else newtext s) ++ line1) []
  else mk_condenser false (blank_lines s) (newtext s) line1.

Definition condense_blank_lines (text : bytes) : bytes :=
  newtext (fold_left condense_step text (mk_condenser true (- 2 ^ 31) [] [])).

(** [(min, indent, seen_text)] *)
Definition indent_step (s : Z * Z * bool) (c : Z) : Z * Z * bool :=
  let '(min, indent, seen_text) := s in
  if c =? SP then (min, if seen_text then indent else i32 (indent + 1), seen_text)
  else if c =? TAB then (min, if seen_text then indent else i32 (indent + 8), seen_text)
  else if c =? NL then (min, 0, false)
  else if seen_text then s
  else (if indent <? min then indent else min, indent, true).
Definition get_common_indent (text : bytes) : Z :=
  fst (fst (fold_left indent_step text (80, 0, false))).

(** [(pos, result)] *)
Definition remove_indent_step (indent : Z) (s : Z * bytes) (c : Z) : Z * bytes :=
  let '(pos, result) := s in
  if c =? SP then (i32 (pos + 1), if pos >=? indent then result ++ [c] else result)
  else if c =? TAB then (i32 (pos + 8), if pos >=? indent then result ++ [c] else result)
  else if c =? NL then (0, result ++ [c])
  else (i32 (pos + 1), result ++ [c]).
Definition remove_indent (text : bytes) (indent : Z) : bytes :=
  snd (fold_left (remove_indent_step indent) text (0, [])).

Definition is_ws (c : Z) : bool := (c =? SP) || (c =? TAB) || (c =? CR) || (c =? NL).

(** [(state, fixed)]: 0 is the start, 1 a word, 2 white space after a word. *)
Definition canonicalise_step (s : Z * bytes) (c : Z) : Z * bytes :=
  let '(state, fixed) := s in
  if is_ws c then (if state =? 1 then 2 else state, fixed)
  else if state =? 0 then (1, fixed ++ [c])
  else if state =? 1 then (1, fixed ++ [c])
  else (1, (fixed ++ [SP]) ++ [c]).
Definition canonicalise_space (text : bytes) : bytes :=
  snd (fold_left canonicalise_step text (0, [])).

Definition remove_space (text : bytes) : bytes :=
  flat_map (fun c => if is_space c then [] else [c]) text.

(** The word, and what is left of the text. *)
Definition remove_word (text : bytes) : bytes * bytes :=
  match find SP text 0 with
  | None | Some 0 => (text, [])
  | Some sp => (substr text 0 sp, zdrop (sp + 1) text)
  end.
Definition remove_line (text : bytes) : bytes * bytes :=
  match find NL text 0 with
  | None => (text, [])
  | Some nl => (substr text 0 nl, zdrop (nl + 1) text)
  end.

Fixpoint remove_words (n : nat) (temp : bytes) : option (list bytes) :=
  match temp, n with
  | [], _ => Some []
  | _, O => None
  | _, S n => let '(word, temp) := remove_word temp in cons word <$> remove_words n temp
  end.
Definition split_words (text : bytes) : option (list bytes) :=
  let temp := canonicalise_space text in remove_words (length temp) temp.

(** [text[i]], if [i] is inside the text or its terminator. *)
Definition char_at (text : bytes) (i : Z) : option Z :=
  if (0 <=? i) && (i <? zlen text) then Some (zget 0 text i)
  else if i =? zlen text then Some 0 else None.

Fixpoint lines_from (n : nat) (text : bytes) (remove_blanks : bool) (pos : Z) : option (list bytes) :=
  let len := zlen text in
  if pos <? len then
    match n with
    | O => None
    | S n =>
      let nl := default len (find NL text pos) in
      let last := u64 (nl - 1) in
      end_ ← (if last >=? pos then
                c ← char_at text last; Some (if c =? CR then nl - 1 else nl)
              else Some nl);
      lines ← lines_from n text remove_blanks (nl + 1);
      Some (if (end_ >? pos) || negb remove_blanks
            then substr text pos (end_ - pos) :: lines else lines)
    end
  else Some [].
Definition split_lines (text : bytes) (remove_blanks : bool) : option (list bytes) :=
  lines_from (length text) text remove_blanks 0.

(** ** Fields: split.cc *)

Definition canonical (canonicalise : bool) (field : bytes) : bytes :=
  if canonicalise then canonicalise_space field else field.

Fixpoint split_from (n : nat) (text : bytes) (delim : Z) (canonicalise : bool) (max i p : Z) :
    option (list bytes) :=
  let rest := [canonical canonicalise (zdrop p text)] in
  if (max =? 0) || (i <? max - 1) then
    match find delim text p, n with
    | None, _ => Some rest
    | Some dp, S n => cons (canonical canonicalise (substr text p (dp - p))) <$>
                      split_from n text delim canonicalise max (i + 1) (dp + 1)
    | Some _, O => None
    end
  else Some rest.
Definition split (text : bytes) (delim : Z) (canonicalise : bool) (max : Z) : option (list bytes) :=
  split_from (length text) text delim canonicalise max 0 0.

(** ** Comma separated variables: csv.cc *)

Definition QUOTE : Z := 34.

Record csv := mk_csv { vars : list bytes; var : bytes; in_quote : bool; escaped : bool }.

Definition csv_step (sep : Z) (s : csv) (c : Z) : csv :=
  if escaped s && (c =? QUOTE) then mk_csv (vars s) (var s ++ [c]) (in_quote s) false
  else
    let in_quote1 := in_quote s && negb (escaped s) in
    if (c =? sep) && negb in_quote1 then mk_csv (vars s ++ [var s]) [] in_quote1 false
    else if c =? QUOTE then
      if in_quote1 then mk_csv (vars s) (var s) in_quote1 true
      else mk_csv (vars s) (var s) true false
    else mk_csv (vars s) (var s ++ [c]) in_quote1 false.

Definition read_line (sep : Z) (line : bytes) (vars0 : list bytes) : list bytes :=
  match line with
  | [] => vars0
  | _ => let s := fold_left (csv_step sep) line (mk_csv vars0 [] false false) in
         vars s ++ [var s]
  end.

Definition read (sep : Z) (text : bytes) (data : list (list bytes)) (skip_header : bool) :
    option (list (list bytes)) :=
  lines ← split_lines text false;
  Some (data ++ map (fun line => read_line sep line [])
                  (if skip_header then tail lines else lines)).

(** ** Substitution: subst.cc *)

Fixpoint starts_with (old text : bytes) : bool :=
  match old, text with
  | [], _ => true
  | c :: old, d :: text => (c =? d) && starts_with old text
  | _ :: _, [] => false
  end.
(** [text.find(old)], as a number of characters. *)
Fixpoint find_text (old text : bytes) : option nat :=
  if starts_with old text then Some O
  else match text with [] => None | _ :: text => S <$> find_text old text end.

(** The text before position [p], which the loop has passed, and the rest. *)
Fixpoint subst_from (n : nat) (old rep passed text : bytes) : option bytes :=
  match text with
  | [] => Some passed
  | _ =>
    match find_text old text with
    | None => Some (passed ++ text)
    | Some k =>
      match n with
      | O => None
      | S n => subst_from n old rep (passed ++ take k text ++ rep) (drop (k + length old) text)
      end
    end
  end.
Definition subst (text old rep : bytes) : option bytes := subst_from (length text) old rep [] text.

(* ------------------------------------------------------------------ *)
(** ** What the operations are meant to do *)

(** The pieces between the characters that satisfy [p]. *)
Fixpoint fields (p : Z -> bool) (text : bytes) : list bytes :=
  match text with
  | [] => [[]]
  | c :: text => if p c then [] :: fields p text
                 else match fields p text with f :: fs => (c :: f) :: fs | [] => [[c]] end
  end.
Fixpoint join (sep : Z) (fs : list bytes) : bytes :=
  match fs with
  | [] => []
  | [f] => f
  | f :: fs => f ++ sep :: join sep fs
  end.

Definition nonempty (fs : list bytes) : list bytes := filter (fun f => f <> []) fs.
Definition words (text : bytes) : list bytes := nonempty (fields is_ws text).

(** Not more than [max] fields, unless [max] is 0: the last has all the rest. *)
Definition limit (sep : Z) (max : Z) (fs : list bytes) : list bytes :=
  let k := Z.to_nat (max - 1) in
  if (max =? 0) || bool_decide (length fs <= k)%nat then fs
  else take k fs ++ [join sep (drop k fs)].

(** Lines end at a newline, the last one also at the end, a carriage return
    before that not counted. *)
Definition text_lines (text : bytes) : list bytes :=
  let fs := fields (Z.eqb NL) text in
  if bool_decide (last fs = Some []) then removelast fs else fs.
Definition chop_cr (line : bytes) : bytes :=
  if bool_decide (last line = Some CR) then removelast line else line.

(** How a field may be written in a line of CSV. *)
Definition written (sep : Z) (field text : bytes) : Prop :=
  (text = field /\ Forall (fun c => c <> sep /\ c <> QUOTE) field) \/
  text = QUOTE :: flat_map (fun c => if c =? QUOTE then [QUOTE; QUOTE] else [c]) field ++ [QUOTE].

Definition occurs_at (old text a : bytes) : Prop := exists b, text = a ++ old ++ b.

(* ------------------------------------------------------------------ *)
(** ** Lemmas *)

Lemma zdrop_past (a : bytes) c b : zdrop (zlen a + 1) (a ++ c :: b) = b.
Proof.
  change (zlen a + 1) with (zlen a + zlen [c]). rewrite <- zlen_app.
  change (c :: b) with ([c] ++ b). by rewrite app_assoc, zdrop_app.
Qed.

Lemma find_first_None p text : find_first p text = None -> fields p text = [text].
Proof.
  induction text as [|c text IH]; [done|]. cbn [find_first fields]. destruct (p c); [done|].
  intros Hf. apply fmap_None in Hf. by rewrite IH.
Qed.
Lemma find_first_Some p text i : find_first p text = Some i ->
  exists a c b, text = a ++ c :: b /\ zlen a = i /\ p c = true /\ fields p text = a :: fields p b /\
    Forall (fun x => p x = false) a.
Proof.
  revert i. induction text as [|c text IH]; intros i; [done|]. cbn [find_first fields].
  destruct (p c) eqn:Hc.
  - intros [= <-]. by exists [], c, text.
  - intros (j & Hj & ->)%fmap_Some. destruct (IH j Hj) as (a & d & b & -> & <- & Hd & Hf & Ha).
    exists (c :: a), d, b. rewrite Hf, zlen_cons. repeat split; [lia|done|by constructor].
Qed.
Lemma find_first_app p a c b : Forall (fun x => p x = false) a -> p c = true ->
  find_first p (a ++ c :: b) = Some (zlen a).
Proof.
  intros Ha Hc. induction Ha as [|x a Hx Ha IH]; cbn [find_first app]; [by rewrite Hc|].
  rewrite Hx, IH, zlen_cons. simpl. f_equal. lia.
Qed.
Lemma find_first_none p a : Forall (fun x => p x = false) a -> find_first p a = None.
Proof. intros Ha. induction Ha as [|x a Hx Ha IH]; cbn [find_first]; [done|]. by rewrite Hx, IH. Qed.

Lemma fields_cons p text : exists f fs, fields p text = f :: fs.
Proof.
  destruct text as [|c text]; [by eexists _, _|]. cbn [fields]. destruct (p c); [by eexists _, _|].
  destruct (fields p text); by eexists _, _.
Qed.
Lemma fields_length p text : (1 <= length (fields p text))%nat.
Proof. destruct (fields_cons p text) as (f & fs & ->). simpl. lia. Qed.
Lemma fields_free p text : Forall (Forall (fun c => p c = false)) (fields p text).
Proof.
  induction text as [|c text IH]; cbn [fields]; [by repeat constructor|].
  destruct (p c) eqn:Hc; [by constructor|].
  destruct (fields p text) as [|f fs]; [by repeat constructor|].
  apply Forall_cons in IH as [Hf Hfs]. by repeat constructor.
Qed.
Lemma join_cons sep f g fs : join sep (f :: g :: fs) = f ++ sep :: join sep (g :: fs).
Proof. done. Qed.
Lemma join_fields sep text : join sep (fields (Z.eqb sep) text) = text.
Proof.
  induction text as [|c text IH]; [done|]. cbn [fields].
  destruct (fields_cons (Z.eqb sep) text) as (f & fs & Hf). rewrite Hf in *.
  destruct (Z.eqb_spec sep c) as [<-|].
  - rewrite join_cons, IH. done.
  - transitivity (c :: join sep (f :: fs)); [by destruct fs|by rewrite IH].
Qed.

(** *** Words *)

Definition tail_words (ws : list bytes) : bytes := flat_map (fun w => SP :: w) ws.
Lemma join_tail w ws : join SP (w :: ws) = w ++ tail_words ws.
Proof.
  revert w. induction ws as [|x ws IH]; intros w; [simpl; by rewrite app_nil_r|].
  rewrite join_cons, IH. done.
Qed.

Lemma nonempty_cons f fs : nonempty (f :: fs) = match f with [] => nonempty fs | _ => f :: nonempty fs end.
Proof. unfold nonempty. rewrite filter_cons. by destruct f. Qed.

Lemma canonicalise_run text fixed :
  snd (fold_left canonicalise_step text (0, fixed)) = fixed ++ join SP (words text) /\
  snd (fold_left canonicalise_step text (1, fixed)) =
    fixed ++ hd [] (fields is_ws text) ++ tail_words (nonempty (tail (fields is_ws text))) /\
  snd (fold_left canonicalise_step text (2, fixed)) = fixed ++ tail_words (words text).
Proof.
  revert fixed. induction text as [|c text IH]; intros fixed.
  - simpl. by rewrite !app_nil_r.
  - unfold words in *. cbn [fold_left canonicalise_step fields].
    destruct (is_ws c).
    + cbn [Z.eqb Pos.eqb hd tail app]. rewrite nonempty_cons. repeat split; apply IH.
    + cbn [Z.eqb Pos.eqb]. destruct (fields_cons is_ws text) as (f & fs & Hf). rewrite Hf in *.
      cbn [hd tail] in *. rewrite nonempty_cons, join_tail.
      repeat split; (etrans; [apply (proj1 (proj2 (IH _)))|]); by rewrite <- !app_assoc.
Qed.

Lemma canonicalise_words text : canonicalise_space text = join SP (words text).
Proof. apply (canonicalise_run text []). Qed.

Lemma words_ok text : Forall (fun w => w <> [] /\ Forall (fun c => is_ws c = false) w) (words text).
Proof.
  apply Forall_forall. intros w Hw%list_elem_of_filter. destruct Hw as [Hne Hin]. split; [done|].
  by eapply Forall_forall in Hin; [|apply fields_free].
Qed.

Lemma fields_app p a b :
  Forall (fun c => p c = false) a ->
  fields p (a ++ b) = match fields p b with f :: fs => (a ++ f) :: fs | [] => [a] end.
Proof.
  intros Ha. induction Ha as [|c a Hc Ha IH]; cbn [app fields].
  - by destruct (fields_cons p b) as (f & fs & ->).
  - rewrite Hc, IH. by destruct (fields_cons p b) as (f & fs & ->).
Qed.

Lemma words_join ws :
  Forall (fun w => w <> [] /\ Forall (fun c => is_ws c = false) w) ws -> words (join SP ws) = ws.
Proof.
  intros Hws. unfold words. induction Hws as [|w ws [Hne Hw] Hws IH]; [done|].
  destruct ws as [|x ws]; [cbn [join]|rewrite join_cons].
  - rewrite <- (app_nil_r w), fields_app by done. cbn [fields]. rewrite app_nil_r, nonempty_cons.
    by destruct w.
  - rewrite fields_app by done. cbn [fields]. change (is_ws SP) with true. cbv iota.
    rewrite app_nil_r, nonempty_cons, IH. by destruct w.
Qed.

Lemma is_ws_SP c : is_ws c = false -> (SP =? c) = false.
Proof. unfold is_ws. destruct (Z.eqb_spec c SP); [done|]. intros _. apply Z.eqb_neq. congruence. Qed.

Lemma remove_words_join ws n :
  Forall (fun w => w <> [] /\ Forall (fun c => is_ws c = false) w) ws ->
  (length (join SP ws) <= n)%nat -> remove_words n (join SP ws) = Some ws.
Proof.
  intros Hws. revert n. induction Hws as [|w ws [Hne Hw] Hws IH]; intros n Hn; [by destruct n|].
  assert (Forall (fun c => (SP =? c) = false) w) as Hsp
    by (eapply Forall_impl; [exact Hw|]; intros; by apply is_ws_SP).
  assert (join SP (w :: ws) <> []) as Hj
    by (destruct ws; [done|rewrite join_cons; by destruct w]).
  assert (forall l n, l <> [] -> (length l <= S n)%nat -> remove_words (S n) l =
    let '(word, temp) := remove_word l in cons word <$> remove_words n temp) as Hstep
    by (by intros [|? ?]).
  destruct n as [|n]; [destruct (join SP (w :: ws)); [done|simpl in Hn; lia]|].
  rewrite Hstep by done. unfold remove_word, find. rewrite zdrop_0.
  destruct ws as [|x ws].
  - cbn [join]. rewrite find_first_none by done. simpl. by destruct n.
  - rewrite join_cons in *. rewrite find_first_app by (done || by rewrite Z.eqb_refl).
    cbn [fmap option_fmap option_map]. rewrite Z.add_0_l.
    assert (0 < zlen w) by (destruct w; [done|]; rewrite zlen_cons; pose proof (zlen_nonneg w); lia).
    destruct (zlen w) eqn:Hlen; try lia. rewrite <- Hlen. unfold substr.
    rewrite zdrop_0, ztake_app, zdrop_past, IH; [done|].
    rewrite length_app in Hn. cbn [length] in Hn. unfold zlen in *. lia.
Qed.

(** *** Fields *)

(** [find] from a position in the text. *)
Lemma find_at c text p : 0 <= p ->
  (find c text p = None /\ fields (Z.eqb c) (zdrop p text) = [zdrop p text]) \/
  exists dp a, find c text p = Some dp /\ p <= dp /\ a = substr text p (dp - p) /\
    zdrop p text = a ++ c :: zdrop (dp + 1) text /\ dp = p + zlen a /\
    fields (Z.eqb c) (zdrop p text) = a :: fields (Z.eqb c) (zdrop (dp + 1) text).
Proof.
  intros Hp. unfold find. destruct (find_first (Z.eqb c) (zdrop p text)) as [i|] eqn:Hf.
  - right. apply find_first_Some in Hf as (a & d & b & Htext & <- & Hd%Z.eqb_eq & Hfs & _). subst d.
    assert (zdrop (p + zlen a + 1) text = b) as Hb.
    { rewrite <- (zdrop_past a c b), <- Htext, zdrop_zdrop by (pose proof (zlen_nonneg a); lia).
      f_equal. lia. }
    exists (p + zlen a), a. rewrite Hb. unfold substr. rewrite Htext.
    replace (p + zlen a - p) with (zlen a) by lia. rewrite ztake_app. rewrite <- Htext.
    pose proof (zlen_nonneg a). repeat split; [lia|done..].
  - left. split; [done|]. by apply find_first_None.
Qed.

Lemma limit_cons sep max i f fs : 0 <= i < max - 1 -> fs <> [] ->
  limit sep (max - i) (f :: fs) = f :: limit sep (max - (i + 1)) fs.
Proof.
  intros Hi Hne. unfold limit. destruct (Z.eqb_spec (max - i) 0); [lia|].
  destruct (Z.eqb_spec (max - (i + 1)) 0); [lia|]. cbn [orb].
  replace (Z.to_nat (max - i - 1)) with (S (Z.to_nat (max - (i + 1) - 1))) by lia.
  cbn [length take drop]. repeat case_bool_decide; done || lia.
Qed.

Lemma split_from_ok n text delim canon max i p :
  0 <= i -> 0 <= p -> (zlen text - p <= Z.of_nat n) ->
  split_from n text delim canon max i p =
  Some (map (canonical canon)
         (if max =? 0 then fields (Z.eqb delim) (zdrop p text)
          else if i <? max - 1 then limit delim (max - i) (fields (Z.eqb delim) (zdrop p text))
          else [zdrop p text])).
Proof.
  revert i p. induction n as [|n IH]; intros i p Hi Hp Hn; cbn [split_from].
  - assert (zdrop p text = []) as Hd by (apply zdrop_ge; lia).
    unfold find. rewrite Hd. cbn [find_first fmap option_fmap option_map fields].
    destruct (max =? 0); [done|]. destruct (Z.ltb_spec i (max - 1)); [|done]. cbn [orb].
    unfold limit. destruct (Z.eqb_spec (max - i) 0); [lia|]. cbn [orb length].
    rewrite bool_decide_true by lia. done.
  - destruct (find_at delim text p Hp) as [[-> Hf]|(dp & a & -> & Hdp & -> & _ & _ & Hf)];
      rewrite Hf.
    + destruct (Z.eqb_spec max 0) as [|Hm]; [done|].
      destruct (Z.ltb_spec i (max - 1)) as [Hlt|]; [|done]. cbn [orb].
      unfold limit. destruct (Z.eqb_spec (max - i) 0); [lia|]. cbn [orb length].
      rewrite bool_decide_true by lia. done.
    + destruct (Z.eqb_spec max 0) as [Hm|Hm]; cbn [orb].
      { subst max. by rewrite IH by lia. }
      destruct (Z.ltb_spec i (max - 1)) as [Hlt|]; [|done].
      rewrite IH by lia. destruct (Z.eqb_spec max 0); [done|].
      assert (fields (Z.eqb delim) (zdrop (dp + 1) text) <> []) as Hne
        by (destruct (fields_cons (Z.eqb delim) (zdrop (dp + 1) text)) as (? & ? & ->); done).
      rewrite limit_cons by done. destruct (Z.ltb_spec (i + 1) (max - 1)); [done|].
      unfold limit. destruct (Z.eqb_spec (max - (i + 1)) 0); [lia|]. cbn [orb].
      replace (Z.to_nat (max - (i + 1) - 1)) with 0%nat by lia.
      pose proof (fields_length (Z.eqb delim) (zdrop (dp + 1) text)).
      rewrite bool_decide_false by lia.
      by rewrite take_0, drop_0, join_fields.
Qed.

(** *** Lines *)

Lemma text_lines_step a b : Forall (fun c => (NL =? c) = false) a ->
  text_lines (a ++ NL :: b) = a :: text_lines b.
Proof.
  intros Ha. unfold text_lines. rewrite fields_app by done. cbn [fields]. rewrite Z.eqb_refl, app_nil_r.
  destruct (fields_cons (Z.eqb NL) b) as (f & fs & ->). rewrite last_cons_cons.
  by case_bool_decide.
Qed.

Lemma text_lines_last a : a <> [] -> Forall (fun c => (NL =? c) = false) a -> text_lines a = [a].
Proof.
  intros Hne Ha. unfold text_lines. assert (fields (Z.eqb NL) a = [a]) as ->.
  { rewrite <- (app_nil_r a) at 1. rewrite fields_app by done. cbn [fields]. by rewrite app_nil_r. }
  rewrite bool_decide_false; [done|]. simpl. congruence.
Qed.

Lemma chop_cr_snoc a c : chop_cr (a ++ [c]) = if c =? CR then a else a ++ [c].
Proof.
  unfold chop_cr. rewrite last_snoc, removelast_last.
  destruct (Z.eqb_spec c CR); case_bool_decide; congruence.
Qed.

(** Where the line that begins at [pos] ends, its carriage return left out. *)
Lemma line_end text pos a t :
  zdrop pos text = a ++ t -> 0 <= pos <= zlen text -> 0 < pos \/ a <> [] -> zlen text < 2 ^ 64 ->
  (if u64 (pos + zlen a - 1) >=? pos then
     c ← char_at text (u64 (pos + zlen a - 1));
     Some (if c =? CR then pos + zlen a - 1 else pos + zlen a)
   else Some (pos + zlen a)) = Some (pos + zlen (chop_cr a)) /\
  substr text pos (zlen (chop_cr a)) = chop_cr a.
Proof.
  intros Htext Hpos Hor Hlen.
  assert (zlen text = pos + zlen a + zlen t) as Hsum.
  { pose proof (zlen_zdrop pos text ltac:(lia)) as H. rewrite Htext, zlen_app in H.
    pose proof (zlen_nonneg a). pose proof (zlen_nonneg t). lia. }
  pose proof (zlen_nonneg t). pose proof (zlen_nonneg a). unfold substr. rewrite Htext.
  rewrite wrap_small by (unfold in_u; destruct a; [simpl in *|rewrite zlen_cons in *;
    pose proof (zlen_nonneg a)]; destruct Hor; try done; try lia; rewrite zlen_nil; lia).
  destruct a as [|c a _] using rev_ind.
  - destruct Hor; [|done]. rewrite zlen_nil, Z.geb_leb. destruct (Z.leb_spec pos (pos + 0 - 1)); [lia|].
    split; [done|]. by rewrite ztake_0.
  - rewrite chop_cr_snoc. rewrite zlen_app, zlen_cons, zlen_nil in *. rewrite Z.geb_leb.
    pose proof (zlen_nonneg a).
    destruct (Z.leb_spec pos (pos + (zlen a + (1 + 0)) - 1)); [|lia].
    replace (pos + (zlen a + (1 + 0)) - 1) with (pos + zlen a) by lia.
    assert (char_at text (pos + zlen a) = Some c) as ->.
    { unfold char_at. destruct (Z.leb_spec 0 (pos + zlen a)); [|lia].
      destruct (Z.ltb_spec (pos + zlen a) (zlen text)); [|lia]. cbn [andb]. f_equal.
      rewrite <- (ztake_zdrop pos text), Htext. unfold zget.
      assert (zlen (ztake pos text ++ a) = pos + zlen a) as Hl
        by (rewrite zlen_app, zlen_ztake by lia; lia).
      rewrite <- Hl, <- app_assoc, app_assoc. unfold zlen. rewrite Nat2Z.id. apply nth_middle. }
    cbn [mbind option_bind]. destruct (c =? CR); (split; [f_equal; zlist|]).
    + by rewrite <- app_assoc, ztake_app.
    + by rewrite ztake_app.
Qed.

Definition keep (remove_blanks : bool) (ls : list bytes) : list bytes :=
  if remove_blanks then nonempty ls else ls.

Lemma keep_cons rb l ls : keep rb (l :: ls) =
  if (zlen l >? 0) || negb rb then l :: keep rb ls else keep rb ls.
Proof.
  unfold keep. destruct rb; cbn [negb]; [|by rewrite orb_true_r]. rewrite nonempty_cons, orb_false_r.
  destruct l as [|x l]; [done|]. rewrite zlen_cons, Z.gtb_ltb. pose proof (zlen_nonneg l).
  by destruct (Z.ltb_spec 0 (1 + zlen l)); [|lia].
Qed.

Lemma lines_from_ok n text rb pos :
  0 <= pos -> 0 < pos \/ head text <> Some NL -> zlen text < 2 ^ 64 ->
  zlen text - pos <= Z.of_nat n ->
  lines_from n text rb pos = Some (keep rb (map chop_cr (text_lines (zdrop pos text)))).
Proof.
  revert pos. induction n as [|n IH]; intros pos Hpos Hor Hlen Hn; cbn [lines_from];
    (destruct (Z.ltb_spec pos (zlen text)) as [Hlt|Hge];
     [|rewrite (zdrop_ge pos) by done; by destruct rb]); [lia|].
  assert (forall a t, zdrop pos text = a ++ t -> t = [] \/ head t = Some NL -> 0 < pos \/ a <> []) as Hnb.
  { intros a t Ht Hnl. destruct (Z.lt_ge_cases 0 pos); [by left|right].
    replace pos with 0 in * by lia. rewrite zdrop_0 in Ht. intros ->. cbn [app] in Ht. subst t.
    destruct Hor; [lia|]. destruct Hnl as [-> |]; [|done]. done. }
  unfold find. destruct (find_first (Z.eqb NL) (zdrop pos text)) as [i|] eqn:Hf; cbn [fmap option_fmap option_map default from_option id]; cbv zeta.
  - apply find_first_Some in Hf as (a & d & b & Htext & <- & Hd%Z.eqb_eq & _ & Ha). subst d.
    destruct (line_end text pos a (NL :: b) Htext) as [-> Hsub];
      [lia|by eapply Hnb; [exact Htext|right]|lia|]. cbn [mbind option_bind].
    pose proof (zlen_nonneg a). rewrite IH by lia. cbn [mbind option_bind]. f_equal.
    replace (pos + zlen (chop_cr a) - pos) with (zlen (chop_cr a)) by lia. rewrite Hsub.
    assert (zdrop (pos + zlen a + 1) text = b) as ->.
    { rewrite <- (zdrop_past a NL b), <- Htext, zdrop_zdrop by lia. f_equal. lia. }
    rewrite Htext, text_lines_step by done. cbn [map]. rewrite keep_cons.
    replace (pos + zlen (chop_cr a) >? pos) with (zlen (chop_cr a) >? 0); [done|].
    rewrite !Z.gtb_ltb. destruct (Z.ltb_spec 0 (zlen (chop_cr a))), (Z.ltb_spec pos (pos + zlen (chop_cr a))); lia.
  - set (a := zdrop pos text) in *.
    assert (zlen text = pos + zlen a) as Hsum.
    { unfold a. rewrite zlen_zdrop by lia. lia. }
    assert (a <> []) as Hne by (intros He; rewrite He, zlen_nil in Hsum; lia).
    rewrite Hsum.
    destruct (line_end text pos a []) as [-> Hsub]; [by rewrite app_nil_r|lia|by right|lia|].
    cbn [mbind option_bind]. rewrite IH by (pose proof (zlen_nonneg a); lia). cbn [mbind option_bind]. f_equal.
    replace (pos + zlen (chop_cr a) - pos) with (zlen (chop_cr a)) by lia. rewrite Hsub.
    rewrite (zdrop_ge (pos + zlen a + 1)) by lia. change (text_lines []) with (@nil bytes).
    rewrite text_lines_last; [|done|].
    + cbn [map]. rewrite keep_cons.
      replace (pos + zlen (chop_cr a) >? pos) with (zlen (chop_cr a) >? 0); [done|].
      rewrite !Z.gtb_ltb.
      destruct (Z.ltb_spec 0 (zlen (chop_cr a))), (Z.ltb_spec pos (pos + zlen (chop_cr a))); lia.
    + apply find_first_None in Hf. pose proof (fields_free (Z.eqb NL) a) as Hfree.
      rewrite Hf in Hfree. by apply Forall_cons in Hfree as [Hfree _].
Qed.

Lemma char_before text : zlen text < 2 ^ 64 - 1 -> char_at text (u64 (0 - 1)) = None.
Proof.
  intros Hlen. change (u64 (0 - 1)) with (2 ^ 64 - 1). unfold char_at.
  destruct (Z.ltb_spec (2 ^ 64 - 1) (zlen text)); [lia|]. rewrite andb_false_r.
  by destruct (Z.eqb_spec (2 ^ 64 - 1) (zlen text)); [lia|].
Qed.

(** A newline at the very start makes the code read before the text. *)
Lemma split_lines_newline text rb : zlen (NL :: text) < 2 ^ 64 - 1 -> split_lines (NL :: text) rb = None.
Proof.
  intros Hlen. unfold split_lines. cbn [length lines_from]. pose proof (zlen_nonneg text).
  destruct (Z.ltb_spec 0 (zlen (NL :: text))); [|rewrite zlen_cons in *; lia].
  change (find NL (NL :: text) 0) with (Some 0). cbn [default].
  change (u64 (0 - 1) >=? 0) with true. cbv zeta iota.
  by rewrite char_before.
Qed.

(** *** CSV *)

Lemma csv_raw sep vs v field : sep <> QUOTE ->
  Forall (fun c => c <> sep /\ c <> QUOTE) field ->
  fold_left (csv_step sep) field (mk_csv vs v false false) = mk_csv vs (v ++ field) false false.
Proof.
  intros Hsep Hf. revert v. induction Hf as [|c field [Hc Hq] Hf IH]; intros v; cbn [fold_left].
  - by rewrite app_nil_r.
  - unfold csv_step at 2. cbn [escaped in_quote vars var andb negb].
    destruct (Z.eqb_spec c sep), (Z.eqb_spec c QUOTE); try done. cbn [andb].
    by rewrite IH, <- app_assoc.
Qed.

Lemma csv_quoted sep vs v field :
  fold_left (csv_step sep) (flat_map (fun c => if c =? QUOTE then [QUOTE; QUOTE] else [c]) field ++ [QUOTE])
    (mk_csv vs v true false) = mk_csv vs (v ++ field) true true.
Proof.
  revert v. induction field as [|c field IH]; intros v; cbn [flat_map app].
  - cbn. rewrite andb_false_r. by rewrite app_nil_r.
  - destruct (Z.eqb_spec c QUOTE) as [->|Hq]; cbn [app fold_left].
    + unfold csv_step at 2 3. cbn. rewrite andb_false_r. cbn. by rewrite IH, <- app_assoc.
    + unfold csv_step at 2. cbn. rewrite andb_false_r. destruct (Z.eqb_spec c QUOTE); [done|].
      by rewrite IH, <- app_assoc.
Qed.

Lemma csv_opens sep vs : sep <> QUOTE ->
  csv_step sep (mk_csv vs [] false false) QUOTE = mk_csv vs [] true false.
Proof.
  intros Hsep. unfold csv_step. cbn [escaped in_quote vars var andb negb].
  by destruct (Z.eqb_spec QUOTE sep) as [<-|].
Qed.

(** After a field the separator ends it, whether it was quoted or not. *)
Lemma csv_field sep vs field text : sep <> QUOTE -> written sep field text ->
  exists s, fold_left (csv_step sep) text (mk_csv vs [] false false) = s /\
    vars s = vs /\ var s = field /\ csv_step sep s sep = mk_csv (vs ++ [field]) [] false false.
Proof.
  intros Hsep [[-> Hf]| ->].
  - exists (mk_csv vs field false false). rewrite csv_raw by done. repeat split.
    unfold csv_step. cbn. by rewrite Z.eqb_refl.
  - exists (mk_csv vs field true true). cbn [fold_left]. rewrite csv_opens, csv_quoted by done.
    repeat split. unfold csv_step. cbn [escaped in_quote vars var andb negb].
    destruct (Z.eqb_spec sep QUOTE); [done|]. by rewrite Z.eqb_refl.
Qed.

Lemma csv_line sep fs ts vs : sep <> QUOTE -> fs <> [] -> Forall2 (written sep) fs ts ->
  let s := fold_left (csv_step sep) (join sep ts) (mk_csv vs [] false false) in
  vars s ++ [var s] = vs ++ fs.
Proof.
  intros Hsep Hne Hw. revert vs Hne. induction Hw as [|f t fs ts Hf Hw IH]; intros vs Hne; [done|].
  destruct (csv_field sep vs f t Hsep Hf) as (s & Hs & Hvars & Hvar & Hnext).
  destruct Hw as [|g u fs ts Hg Hw]; cbn zeta.
  - cbn [join]. by rewrite Hs, Hvars, Hvar.
  - rewrite join_cons, fold_left_app, Hs. cbn [fold_left]. rewrite Hnext.
    specialize (IH (vs ++ [f]) ltac:(done)). cbv zeta in IH. rewrite IH.
    by rewrite <- app_assoc.
Qed.

(** *** Substitution *)

Lemma starts_with_spec old text : starts_with old text = true <-> exists b, text = old ++ b.
Proof.
  revert text. induction old as [|c old IH]; intros text; cbn [starts_with app].
  - split; [|done]. by exists text.
  - destruct text as [|d text]; [split; [done|by intros [? ?]]|].
    rewrite andb_true_iff, IH, Z.eqb_eq. split.
    + intros [-> [b ->]]. by exists b.
    + intros (b & [= -> ->]). split; [done|]. by exists b.
Qed.

Lemma find_text_None old text : find_text old text = None <-> forall a, ~ occurs_at old text a.
Proof.
  unfold occurs_at. split.
  - intros Hf a. revert text Hf. induction a as [|x a IH]; intros text Hf (b & ->).
    + destruct (starts_with old (old ++ b)) eqn:Hs.
      * revert Hf Hs. cbn [app]. destruct (old ++ b); cbn [find_text]; intros Hf Hs; by rewrite Hs in Hf.
      * apply not_true_iff_false in Hs. apply Hs, starts_with_spec. by exists b.
    + cbn [find_text app] in Hf. destruct (starts_with _ _); [done|]. apply fmap_None in Hf.
      apply (IH (a ++ old ++ b)); [done|]. by exists b.
  - intros Hno. induction text as [|x text IH]; cbn [find_text].
    + destruct (starts_with old []) eqn:Hs; [|done]. apply starts_with_spec in Hs as [b Hb].
      destruct (Hno []). by exists b.
    + destruct (starts_with old (x :: text)) eqn:Hs.
      * apply starts_with_spec in Hs as [b Hb]. destruct (Hno []). by exists b.
      * rewrite IH; [done|]. intros a (b & ->). apply (Hno (x :: a)). by exists b.
Qed.

Lemma find_text_Some old text k : find_text old text = Some k ->
  exists b, text = take k text ++ old ++ b /\ drop (k + length old) text = b /\
    (k + length old <= length text)%nat.
Proof.
  revert k. induction text as [|x text IH]; intros k; cbn [find_text].
  - destruct (starts_with old []) eqn:Hs; [|done]. intros [= <-].
    apply starts_with_spec in Hs as [b Hb]. exists b. symmetry in Hb. apply app_nil in Hb as [-> ->]. done.
  - destruct (starts_with old (x :: text)) eqn:Hs.
    + intros [= <-]. apply starts_with_spec in Hs as [b ->]. exists b.
      repeat split; [by rewrite Nat.add_0_l, drop_app_length|rewrite length_app; lia].
    + intros (j & Hj & ->)%fmap_Some. destruct (IH j Hj) as (b & Hb & Hd & Hl).
      exists b. repeat split; [by rewrite Hb at 1|done|simpl; lia].
Qed.

Lemma find_text_first old text a : occurs_at old text a ->
  exists k, find_text old text = Some k /\ (k <= length a)%nat.
Proof.
  revert text. induction a as [|x a IH]; intros text (b & ->).
  - exists 0%nat. split; [|done]. pose proof (proj2 (starts_with_spec old (old ++ b)) ltac:(by exists b)) as Hs.
    cbn [app]. destruct (old ++ b); cbn [find_text]; by rewrite Hs.
  - cbn [find_text app]. destruct (starts_with _ _); [by exists 0%nat; split; [|lia]|].
    destruct (IH (a ++ old ++ b)) as (k & -> & Hk); [by exists b|].
    exists (S k). split; [done|simpl; lia].
Qed.

Lemma subst_from_passed n old rep p text :
  subst_from n old rep p text = app p <$> subst_from n old rep [] text.
Proof.
  revert p text. induction n as [|n IH]; intros p [|x text]; cbn [subst_from app];
    try (by cbn; rewrite app_nil_r).
  - by destruct (find_text old (x :: text)).
  - destruct (find_text old (x :: text)); [|done]. rewrite IH, (IH (take _ _ ++ rep)).
    destruct (subst_from _ _ _ [] _); [|done]. cbn. by rewrite <- app_assoc.
Qed.

(** With [old] not empty there are never more rounds than characters. *)
Lemma subst_from_enough n m old rep text : old <> [] ->
  (length text <= n)%nat -> (length text <= m)%nat ->
  subst_from n old rep [] text = subst_from m old rep [] text /\
  is_Some (subst_from n old rep [] text).
Proof.
  intros Hold. revert m text. induction n as [|n IH]; intros m text Hn Hm.
  { destruct text; [|simpl in Hn; lia]. by destruct m. }
  destruct text as [|x text]; [by destruct m|]. destruct m as [|m]; [simpl in Hm; lia|].
  cbn [subst_from]. destruct (find_text old (x :: text)) as [k|] eqn:Hf; [|done].
  apply find_text_Some in Hf as (b & _ & Hd & Hl). rewrite Hd.
  rewrite !(subst_from_passed _ _ _ (_ ++ _)).
  assert (length b < length (x :: text))%nat.
  { rewrite <- Hd, length_drop. destruct old; [done|]. cbn [length] in *. lia. }
  destruct (IH m b) as [Heq [r Hr]]; [simpl in *; lia..|]. rewrite <- Heq, Hr. done.
Qed.

Lemma subst_step old rep text a b : old <> [] -> text = a ++ old ++ b ->
  (forall a', occurs_at old text a' -> (length a <= length a')%nat) ->
  subst text old rep = (fun r => a ++ rep ++ r) <$> subst b old rep.
Proof.
  intros Hold Htext Hmin.
  destruct (find_text_first old text a) as (k & Hf & Hk); [by exists b|].
  destruct (find_text_Some _ _ _ Hf) as (b' & Hb' & Hd & Hl).
  assert (k = length a) as ->.
  { specialize (Hmin (take k text) ltac:(by exists b')). rewrite length_take in Hmin. lia. }
  assert (take (length a) text = a) as Ht by (rewrite Htext; apply take_app_length).
  assert (b' = b) as ->.
  { rewrite Ht, Htext in Hb'. by apply app_inv_head, app_inv_head in Hb'. }
  unfold subst at 1. destruct text as [|x text]; [by destruct a, old|]. cbn [length subst_from].
  rewrite Hf, Hd, Ht. cbn [app]. rewrite subst_from_passed. unfold subst.
  assert (length b <= length text)%nat.
  { rewrite <- Hd, length_drop. destruct old; [done|]. cbn [length] in *. lia. }
  destruct (subst_from_enough (length text) (length b) old rep b Hold) as [-> [r ->]]; [lia..|].
  cbn. by rewrite <- app_assoc.
Qed.

(* ------------------------------------------------------------------ *)
(** ** Properties *)

(** Canonical text is the words of the text, the pieces between white space
    that are not empty, with one blank between them; it has the same words and
    is its own canonical form; and [split_words] finds exactly those words. *)
Theorem split_words_spec text :
  canonicalise_space text = join SP (words text) /\
  words (canonicalise_space text) = words text /\
  canonicalise_space (canonicalise_space text) = canonicalise_space text /\
  split_words text = Some (words text).
Proof.
  assert (words (canonicalise_space text) = words text) as Hw
    by (rewrite canonicalise_words; apply words_join, words_ok).
  repeat split; [apply canonicalise_words|done|..].
  - by rewrite canonicalise_words, Hw, canonicalise_words.
  - unfold split_words. rewrite canonicalise_words. by apply remove_words_join; [apply words_ok|].
Qed.

(** [split] finds the pieces between the delimiters, and with a limit not
    more than that many, the last with all the rest; [split_lines] finds the
    lines, with [\n] or [\r\n] at the end, the last also without, and drops the
    empty ones on request; a text that begins with a newline makes it read
    the character before the text. *)
Theorem split_spec text delim canonicalise max remove_blanks :
  split text delim canonicalise max =
    Some (map (canonical canonicalise) (limit delim max (fields (Z.eqb delim) text))) /\
  (zlen text < 2 ^ 64 - 1 ->
   split_lines text remove_blanks =
     if bool_decide (head text = Some NL) then None
     else Some (keep remove_blanks (map chop_cr (text_lines text)))).
Proof.
  split.
  - unfold split. rewrite split_from_ok by (unfold zlen; lia). rewrite zdrop_0. do 2 f_equal.
    destruct (Z.eqb_spec max 0) as [->|Hm]; [done|].
    destruct (Z.ltb_spec 0 (max - 1)); [by rewrite Z.sub_0_r|].
    unfold limit. destruct (Z.eqb_spec max 0); [done|]. cbn [orb].
    replace (Z.to_nat (max - 1)) with 0%nat by lia.
    pose proof (fields_length (Z.eqb delim) text). rewrite bool_decide_false by lia.
    by rewrite take_0, drop_0, join_fields.
  - intros Hlen. case_bool_decide as Hnl.
    + destruct text as [|c text]; [done|]. injection Hnl as ->. by apply split_lines_newline.
    + unfold split_lines. rewrite lines_from_ok; [by rewrite zdrop_0|done|by right|lia|unfold zlen; lia].
Qed.

(** A line of separated fields, each written as it is, if it has no separator
    or quote, or in quotes with its quotes doubled, is read back as those
    fields. *)
Theorem csv_roundtrip sep fs ts vs :
  sep <> QUOTE -> Forall2 (written sep) fs ts -> join sep ts <> [] ->
  read_line sep (join sep ts) vs = vs ++ fs.
Proof.
  intros Hsep Hw Hne. unfold read_line.
  pose proof (csv_line sep fs ts vs Hsep ltac:(by destruct Hw) Hw) as Hl. cbv zeta in Hl.
  by destruct (join sep ts).
Qed.

(** [subst] replaces the first occurrence of [old] and goes on after it, so
    text without an occurrence is unchanged, and it always ends, but for an
    empty [old], with which no number of rounds is enough. *)
Theorem subst_replaces old rep :
  (old <> [] ->
   (forall text, (forall a, ~ occurs_at old text a) -> subst text old rep = Some text) /\
   (forall a b,
     (forall a', occurs_at old (a ++ old ++ b) a' -> (length a <= length a')%nat) ->
     exists r, subst b old rep = Some r /\ subst (a ++ old ++ b) old rep = Some (a ++ rep ++ r))) /\
  (old = [] -> forall text n, text <> [] -> subst_from n old rep [] text = None).
Proof.
  split; [intros Hold; split|].
  - intros text Hno%find_text_None. unfold subst. destruct text; [done|]. cbn [length subst_from].
    by rewrite Hno.
  - intros a b Hmin. rewrite (subst_step old rep _ a b Hold eq_refl Hmin).
    destruct (subst_from_enough (length b) (length b) old rep b Hold) as [_ [r Hr]]; [done..|].
    exists r. unfold subst. by rewrite Hr.
  - intros -> text n Hne. induction n as [|n IH]; (destruct text as [|x text]; [done|]); [done|].
    cbn [subst_from find_text starts_with]. rewrite subst_from_passed. simpl drop. by rewrite IH.
Qed.

Lemma split_spec_witness :
  split (str " a,b  c ,d,e") 44 true 3 = Some [str "a"; str "b c"; str "d,e"] /\
  split_lines (str "one" ++ [CR; NL; NL] ++ str "two") true = Some [str "one"; str "two"] /\
  split_lines [NL] true = None.
Proof.
  split; [by rewrite (proj1 (split_spec (str " a,b  c ,d,e") 44 true 3 true))|].
  split; [by rewrite (proj2 (split_spec (str "one" ++ [CR; NL; NL] ++ str "two") 0 true 0 true))|].
  by rewrite (proj2 (split_spec [NL] 0 true 0 true)).
Defined.

Lemma csv_roundtrip_witness :
  read_line 44 ([QUOTE] ++ str "a," ++ [QUOTE; QUOTE] ++ str "b" ++ [QUOTE] ++ str ",c,") [] =
  [str "a," ++ [QUOTE] ++ str "b"; str "c"; []].
Proof.
  apply (csv_roundtrip 44 [str "a," ++ [QUOTE] ++ str "b"; str "c"; []]
           [[QUOTE] ++ str "a," ++ [QUOTE; QUOTE] ++ str "b" ++ [QUOTE]; str "c"; []] []).
  - done.
  - constructor; [by right|]. constructor; [left; split; [done|]|constructor; [left; split; done|done]].
    by repeat constructor.
  - done.
Defined.

Lemma subst_replaces_witness :
  subst (str "banana") (str "an") (str "anan") = Some (str "b" ++ str "anan" ++ str "anana") /\
  subst_from 1000 [] [] [] (str "x") = None.
Proof.
  split.
  - destruct (proj2 (proj1 (subst_replaces (str "an") (str "anan")) ltac:(done)) (str "b") (str "ana"))
      as (r & Hr & Hs).
    + intros [|c a'] (b & Hb); [done|simpl; lia].
    + change (str "banana") with (str "b" ++ str "an" ++ str "ana"). rewrite Hs.
      vm_compute in Hr. injection Hr as <-. done.
  - by apply (proj2 (subst_replaces [] [])).
Defined.

(** White space in the other functions. *)
Example white_space :
  strip_blank_lines ([NL] ++ str " a" ++ [NL; SP]) = str " a" ++ [NL] /\
  condense_blank_lines ([NL] ++ str "a" ++ [NL; SP; NL; NL] ++ str "b" ++ [NL; NL]) =
    str "a" ++ [NL; NL] ++ str "b" ++ [NL] /\
  condense_blank_lines (str "a" ++ [NL] ++ str "b") = str "a" ++ [NL] /\
  get_common_indent (str "  a" ++ [NL; TAB] ++ str "b") = 2 /\
  remove_indent (str "  a" ++ [NL; TAB] ++ str "b") 2 = str "a" ++ [NL] ++ str "b" /\
  remove_line (str "a" ++ [NL] ++ str "b") = (str "a", str "b") /\
  tolower (str "aBz[") = str "abz[" /\ toupper (str "aBz{") = str "ABZ{" /\
  remove_space (str " a b" ++ [TAB]) = str "ab".
Proof. vm_compute. done. Qed.

End Strings.
