(* ===== verification/Pattern.v ===== *)
(** * Patterns

    Models [src/libs/text/pattern.cc]: the matching of shell patterns, over C
    strings.  A pointer is the text from where it points to the end of the
    array, the terminator included, and [Fault] is a read beyond that.  The
    recursion and the loop take at least one character of the pattern each
    time, so [pattern_match] has enough fuel ([pattern_match_glob]). *)
From S2P Require Export Strings.

Module Pattern.
Import Strings.

Inductive result := Match (matches : list bytes) | No | Fault | Out_of_fuel.

Definition BACKSLASH : Z := 92.

(** [s.c_str()]: what the code sees of a string ends at its first zero. *)
Fixpoint c_str (s : bytes) : bytes :=
  match s with [] => [0] | c :: s => if c =? 0 then [0] else c :: c_str s end.

(** A set: from the bracket (and the [!]) on, is there a bracket that closes it? *)
Fixpoint closed (endp : bytes) : option bool :=
  match endp with
  | [] => None
  | c :: r =>
    if c =? 0 then Some false
    else if c =? BACKSLASH then
      match r with
      | _ :: ((d :: _) as r) => if d =? chr "]" then Some true else closed r
      | _ => None
      end
    else match r with
         | d :: _ => if d =? chr "]" then Some true else closed r
         | [] => None
         end
  end.

Section pattern.
Context (cased : bool).

Definition fold_case (c : Z) : Z := if cased then c else to_lower c.

(** Characters are signed. *)
Definition between (c d e : Z) : bool := (i8 c <=? i8 d) && (i8 d <=? i8 e).

(** [do ... while]: [c] is the character just read; the result is whether [d]
    is in the set, and what follows the set. *)
Fixpoint scan_set (fuel : nat) (d c : Z) (p : bytes) (found : bool) : option (bool * bytes) :=
  match fuel with
  | O => None
  | S fuel =>
    '(c, p) ← (if c =? BACKSLASH then match p with c :: p => Some (c, p) | [] => None end
               else Some (c, p));
    let c := fold_case c in
    '(found, p) ← match p with
                  | [] => None
                  | x :: p1 =>
                    (if x =? chr "-" then
                       y ← head p1;
                       (if y =? chr "]" then Some (found || (d =? c), p)
                        else
                          let p2 := if y =? BACKSLASH then tail p1 else p1 in
                          match p2 with
                          | e :: p3 => Some (found || between c d (fold_case e), p3)
                          | [] => None
                          end)
                     else Some (found || (d =? c), p))
                  end;
    match p with
    | [] => None
    | c :: p => if c =? chr "]" then Some (found, p) else scan_set fuel d c p found
    end
  end.

Definition special (c : Z) : bool :=
  (c =? BACKSLASH) || (c =? chr "?") || (c =? chr "*") || (c =? chr "[").

(** The loop of a [*] before an ordinary character [c]: skip to it. *)
Fixpoint span (c : Z) (matched q : bytes) : result + bytes * bytes :=
  match q with
  | [] => inl Fault
  | x :: q' =>
    let d := fold_case x in
    if d =? c then inr (matched, q)
    else if d =? 0 then inl No
    else span c (matched ++ [d]) q'
  end.

(** The loop of a [*] that tries the rest of the pattern at each position. *)
Fixpoint star (rest : bytes -> result) (matched q : bytes) : result :=
  match q with
  | [] => Fault
  | x :: q' =>
    match rest q with
    | Match ms => Match (matched :: ms)
    | No => if x =? 0 then No else star rest (matched ++ [x]) q'
    | r => r
    end
  end.

(** The strings matched, to be put before those in the vector. *)
Fixpoint match_from (fuel : nat) (p q : bytes) : result :=
  match fuel with
  | O => Out_of_fuel
  | S fuel =>
    match p, q with
    | c :: p, d :: q' =>
      let c := fold_case c in
      let d := fold_case d in
      if c =? 0 then (if d =? 0 then Match [] else No)
      else if c =? BACKSLASH then
        match p with
        | [] => Fault
        | c :: p => if fold_case c =? d then match_from fuel p q' else No
        end
      else if c =? chr "?" then (if d =? 0 then No else match_from fuel p q')
      else if c =? chr "*" then
        match p with
        | [] => Fault
        | c :: _ =>
          if special c then star (match_from fuel p) [] q
          else match span (fold_case c) [] q with
               | inl r => r
               | inr (matched, q) => star (match_from fuel p) matched q
               end
        end
      else
        let other := if d =? c then match_from fuel p q' else No in
        if c =? chr "[" then
          match p with
          | [] => Fault
          | x :: p' =>
            let invert := x =? chr "!" in
            let p1 := if invert then p' else p in
            match closed p1 with
            | None => Fault
            | Some false => other  (* no matching ] *)
            | Some true =>
              match p1 with
              | [] => Fault
              | c :: p2 =>
                match scan_set (length p2) d c p2 false with
                | None => Fault
                | Some (found, p) => if Bool.eqb found invert then No else match_from fuel p q'
                end
              end
            end
          end
        else other
    | _, _ => Fault
    end
  end.

(** Whether it matches, and the vector of matches. *)
Definition pattern_match (pattern text : bytes) (matches : list bytes) : result :=
  let p := c_str pattern in
  match match_from (length p) p (c_str text) with
  | Match ms => Match (ms ++ matches)
  | r => r
  end.
End pattern.

(* ------------------------------------------------------------------ *)
(** ** What a pattern means *)

(** The elements of a pattern; a set has ranges, single characters among them. *)
Inductive item := One (c : Z) | Range (c e : Z).
Inductive element := Lit (c : Z) | Any | Star | Set_ (invert : bool) (items : list item).

Section meaning.
Context (cased : bool).
Abbreviation fold := (fold_case cased).

Definition in_item (d : Z) (i : item) : bool :=
  match i with
  | One c => fold d =? fold c
  | Range c e => between (fold c) (fold d) (fold e)
  end.
(** [accepts e d]: the element, but [*], stands for the character. *)
Definition accepts (d : Z) (e : element) : bool :=
  match e with
  | Lit c => fold c =? fold d
  | Any => negb (d =? 0)
  | Star => false
  | Set_ invert items => xorb invert (existsb (in_item d) items)
  end.

(** The text matches the elements, with the strings that the stars stand for
    (but for their case, when that does not count). *)
Inductive glob : list element -> bytes -> list bytes -> Prop :=
  | glob_nil : glob [] [] []
  | glob_one e es c t ms : accepts c e = true -> glob es t ms -> glob (e :: es) (c :: t) ms
  | glob_star es t1 t2 m ms : map fold m = map fold t1 -> glob es t2 ms ->
      glob (Star :: es) (t1 ++ t2) (m :: ms).
End meaning.

#[global] Instance element_eq_dec : EqDecision element.
Proof.
  assert (EqDecision item) by solve_decision. solve_decision.
Defined.

(** How elements are written: a backslash only where it is needed. *)
Definition escape (c : Z) : bytes := if special c then [BACKSLASH; c] else [c].
Definition escape_in_set (c : Z) : bytes :=
  if (c =? BACKSLASH) || (c =? chr "]") || (c =? chr "-") || (c =? chr "!")
  then [BACKSLASH; c] else [c].
Definition print_item (i : item) : bytes :=
  match i with
  | One c => escape_in_set c
  | Range c e => escape_in_set c ++ chr "-" :: escape_in_set e
  end.
Definition print_element (e : element) : bytes :=
  match e with
  | Lit c => escape c
  | Any => str "?"
  | Star => str "*"
  | Set_ invert items =>
    chr "[" :: (if invert then str "!" else []) ++ flat_map print_item items ++ str "]"
  end.
Definition print (es : list element) : bytes := flat_map print_element es.

(** Characters of a string; a set has at least one item. *)
Definition char_ok (c : Z) : Prop := 0 < c < 256.
Definition item_ok (i : item) : Prop :=
  match i with One c => char_ok c | Range c e => char_ok c /\ char_ok e end.
Definition element_ok (e : element) : Prop :=
  match e with
  | Lit c => char_ok c
  | Any | Star => True
  | Set_ _ items => items <> [] /\ Forall item_ok items
  end.

Example patterns :
  pattern_match true (str "a*[b-d]?\*") (str "axxbcd*") [] = Match [str "xxb"] /\
  pattern_match false (str "*.[!C]*") (str "FOO.h") [] = Match [str "foo"; []] /\
  pattern_match true (str "a[b") (str "a[b") [str "x"] = Match [str "x"] /\
  pattern_match true (str "[]a]") (str "]") [] = Match [] /\
  pattern_match true (str "*[!a]") (str "a") [] = Fault /\
  pattern_match true (str "a\") (str "a") [] = Fault.
Proof. vm_compute. done. Qed.

(* ------------------------------------------------------------------ *)
(** ** Lemmas *)

Section proofs.
Context (cased : bool).
Abbreviation fold := (fold_case cased).

Lemma fold_eqb c k : k < 65 \/ 90 < k < 97 \/ 122 < k -> (fold c =? k) = (c =? k).
Proof.
  intros Hk. unfold fold_case, to_lower. destruct cased; [done|].
  destruct (Z.leb_spec 65 c), (Z.leb_spec c 90); cbn [andb]; try done.
  by destruct (Z.eqb_spec (c + 32) k), (Z.eqb_spec c k); try lia.
Qed.
Lemma fold_idem c : fold (fold c) = fold c.
Proof.
  unfold fold_case, to_lower. destruct cased; [done|].
  destruct ((65 <=? c) && (c <=? 90)) eqn:E; [|by rewrite E].
  destruct ((65 <=? c + 32) && (c + 32 <=? 90)) eqn:E2; [|done]. lia.
Qed.

Lemma fold_const k : to_lower k = k -> fold k = k.
Proof. intros Hk. unfold fold_case. by destruct cased. Qed.

Lemma fold_special c : special c = false ->
  (fold c =? BACKSLASH) = false /\ (fold c =? chr "?") = false /\
  (fold c =? chr "*") = false /\ (fold c =? chr "[") = false.
Proof.
  unfold special. intros H.
  repeat (apply orb_false_iff in H as [H ?]). repeat split; rewrite fold_eqb; first [done | by left | by right; left; split].
Qed.

(** *** Sets *)

Definition closes_after (r : bytes) : option bool :=
  match r with [] => None | d :: _ => if d =? chr "]" then Some true else closed r end.

Lemma escape_in_set_cases c : char_ok c ->
  (escape_in_set c = [BACKSLASH; c]) \/
  (escape_in_set c = [c] /\ c <> BACKSLASH /\ c <> chr "]" /\ c <> chr "-" /\ c <> chr "!" /\ c <> 0).
Proof.
  intros Hc. unfold escape_in_set.
  destruct (Z.eqb_spec c BACKSLASH); [by left|]. destruct (Z.eqb_spec c (chr "]")); [by left|].
  destruct (Z.eqb_spec c (chr "-")); [by left|]. destruct (Z.eqb_spec c (chr "!")); [by left|].
  right. unfold char_ok in Hc. repeat split; try done. lia.
Qed.

Lemma closed_escape c r : char_ok c -> closed (escape_in_set c ++ r) = closes_after r.
Proof.
  intros Hc. destruct (escape_in_set_cases c Hc) as [-> | (-> & Hb & _ & _ & _ & Hz)]; [done|].
  cbn [app closed]. apply Z.eqb_neq in Hb, Hz. by rewrite Hb, Hz.
Qed.
Lemma closes_after_escape c r : char_ok c -> closes_after (escape_in_set c ++ r) = closed (escape_in_set c ++ r).
Proof.
  intros Hc. destruct (escape_in_set_cases c Hc) as [-> | (-> & _ & Hb & _)]; [done|].
  cbn [app closes_after]. apply Z.eqb_neq in Hb. by rewrite Hb.
Qed.
Lemma closed_item i r : item_ok i ->
  closed (print_item i ++ r) = closes_after r /\
  closes_after (print_item i ++ r) = closed (print_item i ++ r).
Proof.
  destruct i as [c|c e]; cbn [print_item item_ok].
  - intros Hc. by rewrite closes_after_escape, closed_escape.
  - intros [Hc He]. rewrite <- app_assoc. rewrite closes_after_escape, closed_escape by done.
    split; [|done]. cbn [app closes_after]. change (closed (chr "-" :: ?x)) with (closes_after x).
    change (chr "-" =? chr "]") with false. cbv iota.
    transitivity (closes_after (escape_in_set e ++ r)); [done|].
    by rewrite closes_after_escape, closed_escape.
Qed.
Lemma closed_items items r : items <> [] -> Forall item_ok items ->
  closed (flat_map print_item items ++ chr "]" :: r) = Some true.
Proof.
  intros Hne Hok. induction Hok as [|i items Hi Hok IH]; [done|]. cbn [flat_map].
  rewrite <- app_assoc, (proj1 (closed_item i _ Hi)).
  destruct items as [|j items]; [done|]. cbn [flat_map] in *. rewrite <- app_assoc in *.
  inversion_clear Hok as [|? ? Hj _]. rewrite (proj2 (closed_item j _ Hj)). by apply IH.
Qed.

(** One round of the loop reads one item. *)
Lemma scan_item n d i c p x r found : item_ok i -> print_item i ++ x :: r = c :: p -> x <> chr "-" ->
  scan_set cased (S n) (fold d) c p found =
  if x =? chr "]" then Some (found || in_item cased d i, r)
  else scan_set cased n (fold d) x r (found || in_item cased d i).
Proof.
  intros Hi Hp Hx. apply Z.eqb_neq in Hx. destruct i as [a|a e]; cbn [print_item item_ok] in *.
  - destruct (escape_in_set_cases a Hi) as [He | (He & Hb & _)]; rewrite He in Hp;
      injection Hp as <- <-; cbn [scan_set app mbind option_bind].
    + change (BACKSLASH =? BACKSLASH) with true. cbv iota. cbn [mbind option_bind]. by rewrite Hx.
    + apply Z.eqb_neq in Hb. rewrite Hb. cbn [mbind option_bind]. by rewrite Hx.
  - destruct Hi as [Ha He]. rewrite <- app_assoc in Hp.
    destruct (escape_in_set_cases a Ha) as [Ea | (Ea & Hb & _)]; rewrite Ea in Hp;
      injection Hp as <- <-; cbn [scan_set app mbind option_bind];
      [change (BACKSLASH =? BACKSLASH) with true; cbv iota|apply Z.eqb_neq in Hb; rewrite Hb];
      cbn [mbind option_bind]; change (chr "-" =? chr "-") with true; cbv iota;
      (destruct (escape_in_set_cases e He) as [Ee | (Ee & Hb' & Hc' & _)]; rewrite Ee;
       cbn [app head mbind option_bind tail];
       [done|apply Z.eqb_neq in Hb', Hc'; by rewrite Hb', Hc']).
Qed.

Lemma print_item_cons i r : item_ok i ->
  exists c p, print_item i ++ r = c :: p /\ c <> chr "-" /\ c <> chr "!" /\ c <> chr "]".
Proof.
  assert (forall c r, char_ok c -> exists x p, escape_in_set c ++ r = x :: p /\
    x <> chr "-" /\ x <> chr "!" /\ x <> chr "]") as Hesc.
  { intros c r' Hc. destruct (escape_in_set_cases c Hc) as [-> | (-> & ? & ? & ? & ? & _)];
      (eexists _, _; split; [done|done]). }
  destruct i as [c|c e]; cbn [print_item item_ok]; [apply Hesc|].
  intros [Hc _]. rewrite <- app_assoc. by apply Hesc.
Qed.

Lemma scan_items items d c p r n found : Forall item_ok items ->
  items <> [] -> flat_map print_item items ++ chr "]" :: r = c :: p -> (length items <= n)%nat ->
  scan_set cased n (fold d) c p found = Some (found || existsb (in_item cased d) items, r).
Proof.
  intros Hok. revert c p n found. induction Hok as [|i items Hi Hok IH]; intros c p n found Hne Hp Hn; [done|].
  destruct n as [|n]; [simpl in Hn; lia|]. cbn [flat_map existsb] in *. rewrite <- app_assoc in Hp.
  destruct items as [|j items].
  - cbn [flat_map app] in Hp. rewrite (scan_item n d i c p (chr "]") r) by done.
    cbn [existsb]. by rewrite Z.eqb_refl, orb_false_r.
  - inversion Hok as [|? ? Hj _]; subst. cbn [flat_map] in Hp. rewrite <- app_assoc in Hp.
    destruct (print_item_cons j (flat_map print_item items ++ chr "]" :: r) Hj)
      as (x & p' & Hp' & Hd & _ & Hc). rewrite Hp' in Hp.
    rewrite (scan_item n d i c p x p' found Hi Hp Hd). apply Z.eqb_neq in Hc. rewrite Hc.
    rewrite (IH x p'); [by rewrite orb_assoc|done| |simpl in *; lia].
    cbn [flat_map]. by rewrite <- app_assoc.
Qed.

Lemma items_length items : Forall item_ok items ->
  (length items <= length (flat_map print_item items))%nat.
Proof.
  intros Hok. induction Hok as [|i items Hi Hok IH]; cbn [flat_map length]; [lia|].
  destruct (print_item_cons i [] Hi) as (c & p & Hp & _). rewrite app_nil_r in Hp.
  rewrite Hp, length_app. cbn [length]. lia.
Qed.

(** *** One element *)

Lemma match_one f e r d q : element_ok e -> e <> Star -> r <> [] ->
  match_from cased (S f) (print_element e ++ r) (d :: q) =
  if accepts cased d e then match_from cased f r q else No.
Proof.
  intros He Hstar Hr. destruct e as [c| | |invert items]; [| |done|]; cbn [print_element element_ok] in *.
  - unfold escape. destruct (special c) eqn:Hs; cbn [app match_from accepts].
    + rewrite (fold_const BACKSLASH) by done. done.
    + destruct (fold_special c Hs) as (Hb & Hq & Hst & Hbr).
      rewrite Hb, Hq, Hst, Hbr, (fold_eqb c 0) by (by left).
      destruct (Z.eqb_spec c 0) as [->|]; [unfold char_ok in He; lia|]. by rewrite (Z.eqb_sym (fold d)).
  - cbn [app match_from accepts str map String.list_ascii_of_string].
    rewrite (fold_const (chr "?")) by done. change (chr "?" =? 0) with false.
    change (chr "?" =? BACKSLASH) with false. change (chr "?" =? chr "?") with true. cbv iota.
    rewrite (fold_eqb d 0) by (by left). by destruct (d =? 0).
  - destruct He as [Hne Hok]. destruct items as [|i items]; [done|].
    cbn [app]. rewrite <- !app_assoc. cbn [str map String.list_ascii_of_string app flat_map].
    pose proof Hok as [Hi _]%Forall_cons.
    destruct (print_item_cons i (flat_map print_item items ++ chr "]" :: r) Hi)
      as (c & p & Hp & _ & Hex & _).
    assert (flat_map print_item (i :: items) ++ chr "]" :: r = c :: p) as Hp'
      by (cbn [flat_map]; by rewrite <- app_assoc).
    rewrite <- app_assoc. change ([chr "]"] ++ r) with (chr "]" :: r). rewrite Hp.
    cbn [match_from]. rewrite (fold_const (chr "[")) by done.
    change (chr "[" =? 0) with false. change (chr "[" =? BACKSLASH) with false.
    change (chr "[" =? chr "?") with false. change (chr "[" =? chr "*") with false.
    change (chr "[" =? chr "[") with true. cbv iota zeta.
    pose proof (closed_items (i :: items) r Hne Hok) as Hcl. rewrite Hp' in Hcl.
    assert (length (i :: items) <= length p)%nat as Hlen.
    { pose proof (f_equal length Hp') as Hl. rewrite length_app in Hl. cbn [length] in Hl.
      pose proof (items_length (i :: items) Hok). cbn [length] in *. lia. }
    pose proof (scan_items (i :: items) d c p r (length p) false Hok Hne Hp' Hlen) as Hscan.
    cbn [orb] in Hscan. destruct invert; cbn [app].
    + change (chr "!" =? chr "!") with true. cbv iota. rewrite Hcl, Hscan. cbn [accepts].
      by destruct (existsb (in_item cased d) (i :: items)).
    + apply Z.eqb_neq in Hex. rewrite Hex, Hcl, Hscan. cbn [accepts].
      by destruct (existsb (in_item cased d) (i :: items)).
Qed.

(** *** Stars *)

(** What a result says about elements and a text. *)
Definition verdict (es : list element) (t : bytes) (r : result) : Prop :=
  match r with
  | Match ms => glob cased es t ms
  | No => forall ms, ~ glob cased es t ms
  | Fault => Exists (fun e => accepts cased 0 e = true) es
  | Out_of_fuel => False
  end.

Lemma star_ok es rest m t : Forall char_ok t ->
  (forall t, Forall char_ok t -> verdict es t (rest (t ++ [0]))) ->
  match star rest m (t ++ [0]) with
  | Match ms => exists t1 t2 ms', t = t1 ++ t2 /\ ms = (m ++ t1) :: ms' /\ glob cased es t2 ms'
  | No => forall t1 t2 ms, t = t1 ++ t2 -> ~ glob cased es t2 ms
  | Fault => Exists (fun e => accepts cased 0 e = true) es
  | Out_of_fuel => False
  end.
Proof.
  intros Ht Hrest. revert m. induction Ht as [|x t Hx Ht IH]; intros m; cbn [star app].
  - pose proof (Hrest [] (Forall_nil_2 _)) as Hv. cbn [app] in Hv. unfold verdict in Hv.
    destruct (rest [0]) as [ms| | |]; try done.
    + exists [], [], ms. by rewrite (app_nil_r m).
    + cbn. intros t1 t2 ms H. symmetry in H. apply app_nil in H as [-> ->]. apply Hv.
  - pose proof (Hrest (x :: t) (Forall_cons_2 _ _ _ Hx Ht)) as Hv. cbn [app] in Hv. unfold verdict in Hv.
    destruct (rest (x :: t ++ [0])) as [ms| | |]; try done.
    + exists [], (x :: t), ms. by rewrite (app_nil_r m).
    + destruct (Z.eqb_spec x 0) as [->|_]; [unfold char_ok in Hx; lia|].
      specialize (IH (m ++ [x])). destruct (star rest (m ++ [x]) (t ++ [0])) as [ms| | |]; try done.
      * destruct IH as (t1 & t2 & ms' & -> & -> & Hg). exists (x :: t1), t2, ms'.
        by rewrite <- app_assoc.
      * intros [|y t1] t2 ms Heq; cbn [app] in Heq; [subst t2; apply Hv|].
        injection Heq as <- Heq. by apply IH with (1 := Heq).
Qed.

Lemma span_ok c m t : Forall char_ok t ->
  match span cased (fold c) m (t ++ [0]) with
  | inr (m', q) => exists t1 t2, t = t1 ++ t2 /\ q = t2 ++ [0] /\ map fold m' = map fold (m ++ t1) /\
      forall s1 s2, t = s1 ++ s2 -> fold (hd 0 s2) = fold c -> exists u, t2 = u ++ s2
  | inl No => forall s1 s2, t = s1 ++ s2 -> fold (hd 0 s2) <> fold c
  | inl _ => False
  end.
Proof.
  intros Ht. revert m. induction Ht as [|x t Hx Ht IH]; intros m; cbn [span app].
  - destruct (Z.eqb_spec (fold 0) (fold c)) as [Heq|Hne].
    + exists [], []. rewrite (app_nil_r m). repeat split. intros s1 s2 H _. symmetry in H.
      apply app_nil in H as [-> ->]. by exists [].
    + rewrite (fold_eqb 0 0) by (by left). cbn. intros s1 s2 H. symmetry in H.
      by apply app_nil in H as [-> ->].
  - destruct (Z.eqb_spec (fold x) (fold c)) as [Heq|Hne].
    + exists [], (x :: t). rewrite (app_nil_r m). repeat split. intros s1 s2 H _. by exists s1.
    + rewrite (fold_eqb x 0) by (by left). destruct (Z.eqb_spec x 0) as [->|_]; [unfold char_ok in Hx; lia|].
      specialize (IH (m ++ [fold x])). destruct (span cased (fold c) (m ++ [fold x]) (t ++ [0])) as [[]|[m' q]]; try done.
      * intros [|y s1] s2 H; cbn [app] in H; [by subst s2|]. injection H as <- H. by apply (IH s1).
      * destruct IH as (t1 & t2 & -> & -> & Hm & Hall). exists (x :: t1), t2. repeat split.
        -- rewrite Hm, !map_app. cbn [map]. by rewrite fold_idem, <- app_assoc.
        -- intros [|y s1] s2 H Hf; cbn [app] in H; [by subst s2|]. injection H as <- H. by apply (Hall s1).
Qed.

(** If an ordinary character comes next in the pattern, or its end, then it
    comes next in the text. *)
Lemma glob_first es s ms : Forall element_ok es -> special (hd 0 (print es)) = false ->
  glob cased es s ms -> fold (hd 0 s) = fold (hd 0 (print es)).
Proof.
  intros Hok Hs Hg. destruct Hg as [|e es c t ms Ha Hg|es t1 t2 m ms Hm Hg]; [done| |done].
  apply Forall_cons in Hok as [He _]. destruct e as [x| | |invert items]; try done.
  cbn [print flat_map print_element] in *. unfold escape in *. destruct (special x) eqn:Hx; [done|].
  cbn [app hd]. cbn [accepts] in Ha. by apply Z.eqb_eq in Ha.
Qed.

Lemma print_hd es : exists r, print es ++ [0] = hd 0 (print es) :: r.
Proof. destruct (print es) as [|c p]; [by exists []|by eexists]. Qed.

Lemma match_star f es t : Forall element_ok es -> Forall char_ok t ->
  (forall t, Forall char_ok t -> verdict es t (match_from cased f (print es ++ [0]) (t ++ [0]))) ->
  verdict (Star :: es) t (match_from cased (S f) (print (Star :: es) ++ [0]) (t ++ [0])).
Proof.
  intros Hok Ht Hv. set (p := print es ++ [0]) in *.
  assert (match_from cased (S f) (print (Star :: es) ++ [0]) (t ++ [0]) =
    let c := hd 0 (print es) in
    if special c then star (match_from cased f p) [] (t ++ [0])
    else match span cased (fold c) [] (t ++ [0]) with
         | inl r => r
         | inr (matched, q) => star (match_from cased f p) matched q
         end) as ->.
  { change (print (Star :: es) ++ [0]) with (chr "*" :: p).
    assert (exists x q, t ++ [0] = x :: q) as (x & q & ->) by (destruct t; by eexists _, _).
    cbn [match_from]. rewrite (fold_const (chr "*")) by done.
    destruct (print_hd es) as [r Hr]. fold p in Hr. rewrite Hr. done. }
  cbv zeta. destruct (special (hd 0 (print es))) eqn:Hs.
  - pose proof (star_ok es _ [] t Ht Hv) as H.
    destruct (star (match_from cased f p) [] (t ++ [0])) as [ms| | |]; [| | |done].
    + destruct H as (t1 & t2 & ms' & -> & -> & Hg). by constructor.
    + intros ms Hg. inversion Hg as [|? ? ? ? ? Ha|? t1 t2 m ms' Hm Hg']; subst; [done|].
      by apply (H t1 t2 ms').
    + by apply Exists_cons_tl.
  - pose proof (span_ok (hd 0 (print es)) [] t Ht) as Hspan.
    destruct (span cased (fold (hd 0 (print es))) [] (t ++ [0])) as [[]|[m q]]; try done.
    + intros ms Hg. inversion Hg as [|? ? ? ? ? Ha|? t1 t2 m ms' Hm Hg']; subst; [done|].
      apply (Hspan t1 t2); [done|]. by apply (glob_first es t2 ms').
    + destruct Hspan as (t1 & t2 & -> & -> & Hm & Hall). apply Forall_app in Ht as [Ht1 Ht2].
      pose proof (star_ok es _ m t2 Ht2 Hv) as H.
      destruct (star (match_from cased f p) m (t2 ++ [0])) as [ms| | |]; [| | |done].
      * destruct H as (u1 & u2 & ms' & -> & -> & Hg). rewrite app_assoc. constructor; [|done].
        rewrite !map_app. by rewrite Hm.
      * intros ms Hg. inversion Hg as [|? ? ? ? ? Ha|? s1 s2 m' ms' Hm' Hg']; subst; [done|].
        destruct (Hall s1 s2) as [u ->]; [done|by apply (glob_first es s2 ms')|].
        by apply (H u s2 ms').
      * by apply Exists_cons_tl.
Qed.

Lemma match_ok es : Forall element_ok es -> forall f t, (length es < f)%nat -> Forall char_ok t ->
  verdict es t (match_from cased f (print es ++ [0]) (t ++ [0])).
Proof.
  intros Hok. induction Hok as [|e es He Hok IH]; intros f t Hf Ht;
    (destruct f as [|f]; [simpl in Hf; lia|]).
  - cbn [print flat_map app]. destruct t as [|x t]; cbn [app match_from];
      rewrite !(fold_eqb _ 0) by (by left); cbn [Z.eqb]; [constructor|].
    apply Forall_cons in Ht as [Hx _]. destruct (Z.eqb_spec x 0) as [->|]; [unfold char_ok in Hx; lia|].
    intros ms Hg. inversion Hg.
  - cbn [length] in Hf. destruct (decide (e = Star)) as [->|Hstar].
    { apply match_star; [done|done|]. intros t' Ht'. apply IH; [lia|done]. }
    cbn [print flat_map]. rewrite <- app_assoc.
    assert (print es ++ [0] <> []) by (by destruct (print es)).
    destruct t as [|x t]; cbn [app]; rewrite (match_one f e) by done.
    + destruct (accepts cased 0 e) eqn:Ha.
      * destruct f as [|f]; [lia|]. fold (print es). destruct (print_hd es) as [r ->]. by constructor.
      * intros ms Hg. inversion Hg; by subst.
    + apply Forall_cons in Ht as [Hx Ht]. fold (print es). destruct (accepts cased x e) eqn:Ha.
      * specialize (IH f t ltac:(lia) Ht). unfold verdict in *.
        destruct (match_from cased f (print es ++ [0]) (t ++ [0])); [by constructor| |by apply Exists_cons_tl|done].
        intros ms Hg. inversion Hg; subst; [by eapply IH|done].
      * intros ms Hg. inversion Hg; subst; [congruence|done].
Qed.

End proofs.
Lemma c_str_free s : Forall (fun c => c <> 0) s -> c_str s = s ++ [0].
Proof.
  intros Hs. induction Hs as [|c s Hc Hs IH]; [done|]. cbn [c_str app].
  apply Z.eqb_neq in Hc. by rewrite Hc, IH.
Qed.

Lemma print_free es : Forall element_ok es -> Forall (fun c => c <> 0) (print es).
Proof.
  assert (forall c, char_ok c -> Forall (fun c => c <> 0) (escape c) /\
    Forall (fun c => c <> 0) (escape_in_set c)) as Hesc.
  { unfold char_ok, escape, escape_in_set. intros c Hc.
    split; destruct (_ || _ : bool) || destruct (special c); repeat constructor; done || lia. }
  intros Hok. apply Forall_flat_map. eapply Forall_impl; [exact Hok|]. intros e He.
  destruct e as [c| | |invert items]; cbn [print_element element_ok] in *;
    [by apply Hesc|by repeat constructor..|].
  destruct He as [_ Hi]. constructor; [done|]. apply Forall_app. split; [by destruct invert; repeat constructor|].
  apply Forall_app. split; [|by repeat constructor]. apply Forall_flat_map.
  eapply Forall_impl; [exact Hi|]. intros [c|c e]; cbn [print_item item_ok]; [by intros; apply Hesc|].
  intros [Hc He]. apply Forall_app. split; [by apply Hesc|]. constructor; [done|by apply Hesc].
Qed.

Lemma print_length es : Forall element_ok es -> (length es <= length (print es))%nat.
Proof.
  intros Hok. induction Hok as [|e es He Hok IH]; cbn [print flat_map length]; [lia|].
  rewrite length_app. fold (print es).
  assert (0 < length (print_element e))%nat; [|lia].
  destruct e as [c| | |invert items]; cbn [print_element length]; [|simpl; lia..].
  unfold escape. destruct (special c); simpl; lia.
Qed.

(* ------------------------------------------------------------------ *)
(** ** Properties *)

(** C23: Matching decides what a pattern means that is the text ([print]) of literals, [?], [*] and
    sets: special characters escaped, each set with at least one character or range in it, no character NUL.  On
    a match the text is the elements of the pattern one after the other, with the strings that the
    stars stand for in the vector, before those that were there; and with the
    result false there is no way to match.  It always ends, and for such a pattern it reads
    beyond a string only if the pattern has a set that accepts the terminator,
    as an inverted set does.  (A pattern that is not such a text, as one that ends in a backslash, may be read
    beyond its end too: Example [patterns].) *)
Theorem pattern_match_glob cased es text matches :
  Forall element_ok es -> Forall char_ok text ->
  match pattern_match cased (print es) text matches with
  | Match ms => exists ms', ms = ms' ++ matches /\ glob cased es text ms'
  | No => forall ms, ~ glob cased es text ms
  | Fault => Exists (fun e => accepts cased 0 e = true) es
  | Out_of_fuel => False
  end.
Proof.
  intros Hok Ht. unfold pattern_match.
  assert (Forall (fun c => c <> 0) text) as Hfree
    by (eapply Forall_impl; [exact Ht|]; unfold char_ok; intros; lia).
  rewrite (c_str_free _ (print_free es Hok)), (c_str_free _ Hfree).
  pose proof (print_length es Hok) as Hlen.
  pose proof (match_ok cased es Hok (length (print es ++ [0])) text
    ltac:(rewrite length_app; cbn [length]; lia) Ht) as H.
  unfold verdict in H. destruct (match_from _ _ _ _) as [ms| | |]; try done. by exists ms.
Qed.

Lemma pattern_match_glob_witness :
  let es := [Lit (chr "a"); Star; Set_ false [Range (chr "x") (chr "z"); One (chr "]")]; Any] in
  print es = str "a*[x-z\]]?" /\
  glob true es (str "axy]") [str "x"] /\ (forall ms, ~ glob true es (str "axyb]") ms).
Proof.
  intros es. split; [by vm_compute|].
  assert (Forall element_ok es) as Hok by (repeat constructor; done).
  split.
  - pose proof (pattern_match_glob true es (str "axy]") [] Hok ltac:(repeat constructor)) as H.
    assert (pattern_match true (print es) (str "axy]") [] = Match [str "x"]) as Hm by (by vm_compute).
    rewrite Hm in H. destruct H as (ms & Hms & Hg). rewrite app_nil_r in Hms. by subst ms.
  - pose proof (pattern_match_glob true es (str "axyb]") [] Hok ltac:(repeat constructor)) as H.
    assert (pattern_match true (print es) (str "axyb]") [] = No) as Hm by (by vm_compute).
    by rewrite Hm in H.
Defined.

End Pattern.
