(* ===== verification/Element.v ===== *)
(** * XML elements

    Models [src/libs/xml/element.cc] and the class [Element] of [ot-xml.h]: the
    tree, its writer and its accessors.  An element owns its children, so a
    document is a tree of values; a pointer into it is a position, the list of
    child indices from the root, and [parent] is the position without its last
    index.  [Element::none] is [None].  What the C library converts between
    doubles and text are the parameters [atof] and [show_double]. *)
From S2P Require Export Convert StrMap Strings.

#[local] Unset Elimination Schemes.
Inductive Element : Type :=
  mk_Element (name content : bytes) (attrs : list (bytes * bytes)) (children : list Element) (line : Z).

Definition name (e : Element) := let 'mk_Element n _ _ _ _ := e in n.
Definition content (e : Element) := let 'mk_Element _ c _ _ _ := e in c.
Definition attrs (e : Element) := let 'mk_Element _ _ a _ _ := e in a.
Definition children (e : Element) := let 'mk_Element _ _ _ l _ := e in l.
Definition line (e : Element) := let 'mk_Element _ _ _ _ n := e in n.

Definition with_children (e : Element) (l : list Element) : Element :=
  mk_Element (name e) (content e) (attrs e) l (line e).
Definition with_content (e : Element) (c : bytes) : Element :=
  mk_Element (name e) c (attrs e) (children e) (line e).
Definition with_attrs (e : Element) (a : list (bytes * bytes)) : Element :=
  mk_Element (name e) (content e) a (children e) (line e).
Definition with_name (e : Element) (n : bytes) : Element :=
  mk_Element n (content e) (attrs e) (children e) (line e).

(** The constructors with a name, a content and one attribute *)
Definition new_Element (n c : bytes) : Element := mk_Element n c [] [] 0.

(** ** Copying and merging *)

Definition copy (e : Element) : Element := mk_Element (name e) (content e) (attrs e) [] 0.
Fixpoint deep_copy (e : Element) : Element :=
  match e with mk_Element n c a l _ => mk_Element n c a (map deep_copy l) 0 end.

(** [e = src]: the line of [src] too *)
Definition assign (src : Element) : Element :=
  match src with mk_Element n c a l ln => mk_Element n c a (map deep_copy l) ln end.

Definition add (e child : Element) : Element := with_children e (children e ++ [child]).

Definition get_attr (e : Element) (attname def : bytes) : bytes :=
  match map_find attname (attrs e) with Some v => v | None => def end.

(** The first element that satisfies [p] is changed by [f], or [new] is added. *)
Fixpoint change_first (p : Element -> bool) (f : Element -> Element) (new : Element)
    (l : list Element) : list Element :=
  match l with
  | [] => [new]
  | q :: l => if p q then f q :: l else q :: change_first p f new l
  end.

Definition key_eqb (a b : bytes) : bool := match key_cmp a b with Eq => true | _ => false end.

Fixpoint superimpose (identifier : bytes) (e source : Element) {struct source} : Element :=
  match source with
  | mk_Element _ scontent sattrs schildren _ =>
    mk_Element (name e)
      (match scontent with [] => content e | _ => scontent end)
      (map_update sattrs (attrs e))
      (fold_left
         (fun l p =>
            let pid := get_attr p identifier (name p) in
            change_first (fun q => key_eqb pid (get_attr q identifier (name q)))
              (fun q => superimpose identifier q p) (deep_copy p) l)
         schildren (children e))
      (line e)
  end.

Definition merge (e source : Element) : Element :=
  mk_Element (name e) (content e) (map_update (attrs source) (attrs e))
    (children e ++ map deep_copy (children source)) (line e).

(** ** Writing *)

Definition DQUOTE : Z := 34.
Definition SQUOTE : Z := 39.

Definition escape_char (escquote : bool) (c : Z) : bytes :=
  if c =? chr "<" then str "&lt;"
  else if c =? chr ">" then str "&gt;"
  else if c =? chr "&" then str "&amp;"
  else if c =? DQUOTE then (if escquote then str "&quot;" else [c])
  else [c].
Definition escape (v : bytes) (escquote : bool) : bytes := flat_map (escape_char escquote) v.

Definition contains (c : Z) (v : bytes) : bool := existsb (Z.eqb c) v.

Definition write_attr (nv : bytes * bytes) : bytes :=
  let '(n, v) := nv in
  if existsb (fun c => (c =? chr "<") || (c =? chr ">") || (c =? chr "&") || (c =? DQUOTE)) v then
    let '(delim, escquote) :=
      if contains DQUOTE v then
        if contains SQUOTE v then (DQUOTE, true) else (SQUOTE, false)
      else (DQUOTE, false) in
    32 :: n ++ chr "=" :: delim :: escape v escquote ++ [delim]
  else 32 :: n ++ chr "=" :: DQUOTE :: v ++ [DQUOTE].
Definition write_attrs (e : Element) : bytes := flat_map write_attr (attrs e).

Definition spaces (indent : nat) : bytes := replicate indent 32.
Definition endl : bytes := [10].

Fixpoint write_indented (indent : nat) (e : Element) {struct e} : bytes :=
  match e with
  | mk_Element n c a l _ =>
    spaces indent ++
    match n with
    | [] => escape c false ++ endl
    | _ =>
      chr "<" :: n ++ flat_map write_attr a ++
      match l with
      | [] =>
        match c with
        | [] => str "/>" ++ endl
        | _ => chr ">" :: escape c false ++ str "</" ++ n ++ chr ">" :: endl
        end
      | _ =>
        chr ">" :: endl ++ flat_map (write_indented (indent + 2)) l ++
        spaces indent ++ str "</" ++ n ++ chr ">" :: endl
      end
    end
  end.

(** [<?xml version="1.0"?>] and a newline *)
Definition prolog : bytes :=
  str "<?xml version=" ++ [DQUOTE] ++ str "1.0" ++ [DQUOTE] ++ str "?>" ++ endl.
Definition to_string (e : Element) (with_pi : bool) : bytes :=
  (if with_pi then prolog else []) ++ write_indented 0 e.

Definition start_to_string (e : Element) : bytes :=
  chr "<" :: name e ++ write_attrs e ++ str ">".
Definition end_to_string (e : Element) : bytes := str "</" ++ name e ++ str ">".

Definition optimise (e : Element) : Element :=
  match children e with
  | [c] => match name c with
           | [] => mk_Element (name e) (content c) (attrs e) [] (line e)
           | _ => e
           end
  | _ => e
  end.

(** ** Finding children: their indices *)

Definition get_child_n (e : Element) (n : Z) : option nat :=
  if (0 <=? n) && (n <? zlen (children e)) then Some (Z.to_nat n) else None.

Fixpoint child_element_from (i : nat) (l : list Element) (n : Z) : option nat :=
  match l with
  | [] => None
  | c :: l => match name c with
              | [] => child_element_from (S i) l n
              | _ => if n =? 0 then Some i else child_element_from (S i) l (n - 1)
              end
  end.
Definition get_child_element (e : Element) (n : Z) : option nat :=
  child_element_from 0 (children e) n.

Fixpoint child_from (ename : bytes) (i : nat) (l : list Element) (n : Z) : option nat :=
  match l with
  | [] => None
  | c :: l => if key_eqb (name c) ename then
                if n =? 0 then Some i else child_from ename (S i) l (n - 1)
              else child_from ename (S i) l n
  end.
Definition get_child (e : Element) (ename : bytes) (n : Z) : option nat :=
  child_from ename 0 (children e) n.

Definition make_child (e : Element) (ename : bytes) : nat * Element :=
  match get_child e ename 0 with
  | Some i => (i, e)
  | None => (length (children e), add e (new_Element ename []))
  end.

Fixpoint children_from (ename : bytes) (i : nat) (l : list Element) : list nat :=
  match l with
  | [] => []
  | c :: l => if key_eqb (name c) ename then i :: children_from ename (S i) l
              else children_from ename (S i) l
  end.
Definition get_children (e : Element) (ename : bytes) : list nat := children_from ename 0 (children e).

Fixpoint get_descendant (ename : bytes) (e : Element) : option Element :=
  match e with
  | mk_Element _ _ _ l _ =>
    fold_right (fun se rest =>
      if key_eqb (name se) ename then Some se
      else match get_descendant ename se with Some sse => Some sse | None => rest end) None l
  end.

Fixpoint append_descendants (ename prune : bytes) (e : Element) : list Element :=
  match e with
  | mk_Element _ _ _ l _ =>
    flat_map (fun p => (if key_eqb (name p) ename then [p] else []) ++
                       (if key_eqb (name p) prune then [] else append_descendants ename prune p)) l
  end.
Definition get_descendants (e : Element) (ename prune : bytes) : list Element :=
  append_descendants ename prune e.

(** ** Content *)

Definition get_content (e : Element) : bytes :=
  match content e with
  | [] => flat_map (fun c => match name c, content c with
                             | [], _ :: _ => content c ++ [10]
                             | _, _ => []
                             end) (children e)
  | c => c
  end.
Fixpoint get_deep_content (e : Element) : bytes :=
  match e with
  | mk_Element _ c _ l _ =>
    match c with
    | [] => flat_map (fun p => match get_deep_content p with [] => [] | ss => ss ++ [10] end) l
    | _ => c
    end
  end.

(** ** Attributes *)

Definition has_attr (e : Element) (attname : bytes) : bool :=
  match map_find attname (attrs e) with Some _ => true | None => false end.
Definition get_attr_bool (e : Element) (attname : bytes) (def : bool) : bool :=
  match map_find attname (attrs e) with Some v => stob v | None => def end.
Definition get_attr_int (e : Element) (attname : bytes) (def : Z) : Z :=
  match map_find attname (attrs e) with Some v => stoi v | None => def end.

(** [stream >> n] of an [int]: unchanged if there is nothing but blanks, 0
    without a number, the nearest [int] when it does not fit. *)
Definition stream_int (base : Z) (s : bytes) (n : Z) : Z :=
  match drop_while is_space s with
  | [] => n
  | _ => match scan_number base s with
         | None => 0
         | Some (neg, v) =>
           Z.max (- 2 ^ 31) (Z.min (2 ^ 31 - 1) (if neg : bool then - v else v))
         end
  end.
Definition get_attr_hex (e : Element) (attname : bytes) (def : Z) : Z :=
  match map_find attname (attrs e) with Some v => stream_int 16 v def | None => def end.
Definition get_attr_int64 (e : Element) (attname : bytes) (def : Z) : Z :=
  match map_find attname (attrs e) with Some v => stoi64 v | None => def end.
Definition get_attr_hex64 (e : Element) (attname : bytes) (def : Z) : Z :=
  match map_find attname (attrs e) with Some v => xtoi64 v | None => def end.

Definition get_attrs_with_prefix (e : Element) (prefix : bytes) : list (bytes * bytes) :=
  fold_left (fun result '(k, v) =>
    if key_eqb (take (length prefix) k) prefix
    then map_set (drop (length prefix) k) v result else result) (attrs e) [].

Definition set_attr (e : Element) (attname value : bytes) : Element :=
  with_attrs e (map_set attname value (attrs e)).
Definition set_attr_int (e : Element) (attname : bytes) (value : Z) : Element :=
  set_attr e attname (itos value).
Definition set_attr_hex (e : Element) (attname : bytes) (value : Z) : Element :=
  set_attr e attname (print_base 16 (u32 value)).
Definition set_attr_int64 (e : Element) (attname : bytes) (value : Z) : Element :=
  set_attr e attname (i64tos value).
Definition set_attr_hex64 (e : Element) (attname : bytes) (value : Z) : Element :=
  set_attr e attname (i64tox value).
Definition set_attr_bool (e : Element) (attname : bytes) (value : bool) : Element :=
  set_attr e attname (if value then str "true" else str "false").
Definition remove_attr (e : Element) (attname : bytes) : Element :=
  with_attrs e (map_erase attname (attrs e)).

Section reals.
Context (atof : bytes -> Z) (show_double : Z -> bytes).
Definition get_attr_real (e : Element) (attname : bytes) (def : Z) : Z :=
  match map_find attname (attrs e) with Some v => atof v | None => def end.
Definition set_attr_real (e : Element) (attname : bytes) (value : Z) : Element :=
  set_attr e attname (show_double value).
End reals.

(** ** Renaming *)

(** [false]: delete me; the element as it is left. *)
Fixpoint translate (trans_map : list (bytes * bytes)) (e : Element) : bool * Element :=
  match e with
  | mk_Element n c a l ln =>
    match n with
    | [] => (true, e)
    | _ =>
      let tp := map_find n trans_map in
      match tp with
      | Some [] => (false, e)
      | _ =>
        let l' := flat_map (fun se => let '(keep, se) := translate trans_map se in
                                      if keep then [se] else []) l in
        (true, mk_Element (match tp with Some n' => n' | None => n end) c a l' ln)
      end
    end
  end.

Fixpoint add_prefix (prefix : bytes) (e : Element) : Element :=
  match e with
  | mk_Element n c a l ln =>
    mk_Element
      (match n with
       | [] => n
       | _ => if Strings.starts_with prefix n then n else prefix ++ n
       end) c a (map (add_prefix prefix) l) ln
  end.
Fixpoint remove_prefix (prefix : bytes) (e : Element) : Element :=
  match e with
  | mk_Element n c a l ln =>
    mk_Element (if Strings.starts_with prefix n then drop (length prefix) n else n)
      c a (map (remove_prefix prefix) l) ln
  end.

Definition remove_children (e : Element) (ename : bytes) : Element :=
  with_children e (List.filter (fun c => negb (key_eqb (name c) ename)) (children e)).
Definition clear_children (e : Element) : Element := with_children e [].

(** ** Positions in a document *)

Fixpoint node_at (root : Element) (pos : list nat) : option Element :=
  match pos with
  | [] => Some root
  | i :: pos => c ← children root !! i; node_at c pos
  end.
(** [f] gives the elements that take the place of the one at the position. *)
Fixpoint change_at (root : Element) (pos : list nat) (f : Element -> Element) : Element :=
  match pos with
  | [] => f root
  | i :: pos => with_children root (alter (fun c => change_at c pos f) i (children root))
  end.

(** [detach] of the child [i] of [e]: the rest of [e] *)
Definition detach (e : Element) (i : nat) : Element :=
  with_children e (delete i (children e)).
(** [replace_with] for the child [i] of [e] *)
Definition replace_with (e : Element) (i : nat) (new : Element) : Element :=
  with_children e (<[i := new]> (children e)).

(** How many of the elements have the name. *)
Definition count_name (n : bytes) (l : list Element) : Z :=
  zlen (List.filter (fun c => key_eqb (name c) n) l).

(** The step for the child [i] of [parent] *)
Definition xpath_step (parent : Element) (i : nat) (current : Element) : bytes :=
  let count := count_name (name current) (children parent) in
  let mycount := count_name (name current) (take i (children parent)) in
  chr "/" :: name current ++
  (if count >? 1 then chr "[" :: itos (mycount + 1) ++ str "]" else []).
Fixpoint get_xpath (root : Element) (pos : list nat) : bytes :=
  match pos with
  | [] => []
  | i :: pos => match children root !! i with
                | Some c => xpath_step root i c ++ get_xpath c pos
                | None => []
                end
  end.

(* ------------------------------------------------------------------ *)
(** ** Lemmas *)

Lemma Element_ind_nested (Q : Element -> Prop) :
  (forall n c a l ln, Forall Q l -> Q (mk_Element n c a l ln)) -> forall e, Q e.
Proof.
  intros H. fix IH 1. intros [n c a l ln]. apply H.
  induction l as [|x l IHl]; constructor; [apply IH|exact IHl].
Qed.

Lemma key_eqb_spec a b : reflect (a = b) (key_eqb a b).
Proof.
  unfold key_eqb. destruct (key_cmp a b) eqn:H; constructor.
  - by apply key_cmp_eq.
  - intros ->. by rewrite key_cmp_refl in H.
  - intros ->. by rewrite key_cmp_refl in H.
Qed.
Lemma key_eqb_refl a : key_eqb a a = true.
Proof. unfold key_eqb. by rewrite key_cmp_refl. Qed.

Lemma count_name_cons n c l : count_name n (c :: l) = (if key_eqb (name c) n then 1 else 0) + count_name n l.
Proof. unfold count_name. cbn [List.filter]. destruct (key_eqb (name c) n); zlist. Qed.
Lemma count_name_nonneg n l : 0 <= count_name n l.
Proof. apply zlen_nonneg. Qed.
Lemma count_name_le n l : count_name n l <= zlen l.
Proof. induction l as [|c l IH]; [done|]. rewrite count_name_cons. destruct (key_eqb _ _); zlist. Qed.

(** The child [i] is the one its name and the count of those before it give. *)
Lemma child_from_count l i j c : l !! i = Some c ->
  child_from (name c) j l (count_name (name c) (take i l)) = Some (j + i)%nat.
Proof.
  revert i j. induction l as [|x l IH]; intros [|i] j; [done|done| |].
  - intros [= ->]. cbn [take child_from]. rewrite key_eqb_refl. cbn. f_equal. lia.
  - cbn [lookup list_lookup take child_from]. intros Hi. rewrite count_name_cons.
    replace (j + S i)%nat with (S j + i)%nat by lia. pose proof (count_name_nonneg (name c) (take i l)).
    destruct (key_eqb (name x) (name c)).
    + rewrite (proj2 (Z.eqb_neq _ _)) by lia. rewrite <- (IH i (S j)) by done. f_equal. lia.
    + apply IH, Hi.
Qed.
Lemma children_from_none n j l : count_name n l = 0 -> children_from n j l = [].
Proof.
  revert j. induction l as [|c l IH]; intros j; [done|]. rewrite count_name_cons. cbn [children_from].
  pose proof (count_name_nonneg n l). destruct (key_eqb _ _); [lia|]. intros. apply IH. lia.
Qed.
Lemma children_from_single l i j c : l !! i = Some c -> count_name (name c) l <= 1 ->
  children_from (name c) j l = [(j + i)%nat] /\ count_name (name c) (take i l) = 0.
Proof.
  revert i j. induction l as [|x l IH]; intros [|i] j; [done|done| |].
  - intros [= ->]. cbn [children_from take]. rewrite count_name_cons, key_eqb_refl. intros Hc.
    rewrite children_from_none by (pose proof (count_name_nonneg (name c) l); lia).
    split; [|done]. f_equal. lia.
  - cbn [lookup list_lookup take children_from]. intros Hi. rewrite !count_name_cons.
    destruct (key_eqb (name x) (name c)).
    + intros Hc. exfalso. assert (count_name (name c) l <> 0) as H; [|pose proof (count_name_nonneg (name c) l); lia].
      clear -Hi. revert i Hi. induction l as [|y l IH]; intros [|i]; [done|done| |].
      * intros [= ->]. rewrite count_name_cons, key_eqb_refl. pose proof (count_name_nonneg (name c) l). lia.
      * intros Hi. specialize (IH i Hi). rewrite count_name_cons. pose proof (count_name_nonneg (name c) l).
        destruct (key_eqb _ _); lia.
    + intros Hc. destruct (IH i (S j) Hi) as [-> ->]; [lia|]. split; [|done]. f_equal. lia.
Qed.
