(* ===== verification/XmlParser.v ===== *)
(** * The XML parser

    Models [src/libs/xml/parser.cc] and the class [Parser] of [ot-xml.h].

    The stream is the characters still to be read; [get] leaves its argument
    as it is at the end, as [istream::get] does.  The open elements are kept
    innermost first, each without the children that are still open: closing an
    element adds it to its parent ([get_root] puts the tree together).  The
    loops run on a fuel, the number of characters that are left, which is
    always enough ([xml_parse_total]). *)
From S2P Require Export Element.

Module XmlParser.

Definition PARSER_OPTIMISE_CONTENT : Z := 1.
Definition PARSER_PRESERVE_WHITESPACE : Z := 2.
Definition PARSER_FIX_NAMESPACES : Z := 4.
Definition PARSER_BE_LENIENT : Z := 8.

(** [Out_of_fuel] is never thrown. *)
Inductive Exception := ParseFailed | Out_of_fuel.

Abbreviation smap := (list (bytes * bytes)).

Record Parser := mk_Parser {
  rest : bytes;              (** what the stream has left *)
  last : option Z;           (** what [unget] puts back *)
  hex : bool;                (** the stream's number base is 16 *)
  user_ns_map : smap;
  elements : list Element;
  root : option Element;     (** once its end tag is read *)
  ns_maps : list smap;
  serr : bytes;
  flags : Z; errors : Z; line : Z
}.
Abbreviation P := (M Parser Exception).

Definition with_stream (r : bytes) (l : option Z) (s : Parser) : Parser :=
  mk_Parser r l (hex s) (user_ns_map s) (elements s) (root s) (ns_maps s) (serr s) (flags s)
    (errors s) (line s).
Definition with_hex (h : bool) (s : Parser) : Parser :=
  mk_Parser (rest s) (last s) h (user_ns_map s) (elements s) (root s) (ns_maps s) (serr s) (flags s)
    (errors s) (line s).
Definition with_tree (es : list Element) (r : option Element) (s : Parser) : Parser :=
  mk_Parser (rest s) (last s) (hex s) (user_ns_map s) es r (ns_maps s) (serr s) (flags s)
    (errors s) (line s).
Definition with_ns (ns : list smap) (s : Parser) : Parser :=
  mk_Parser (rest s) (last s) (hex s) (user_ns_map s) (elements s) (root s) ns (serr s) (flags s)
    (errors s) (line s).
Definition with_line (n : Z) (s : Parser) : Parser :=
  mk_Parser (rest s) (last s) (hex s) (user_ns_map s) (elements s) (root s) (ns_maps s) (serr s)
    (flags s) (errors s) n.
Definition modify (f : Parser -> Parser) : P unit := fun s => (Val tt, f s).

Definition init (user_ns_map : smap) (flags : Z) (text : bytes) : Parser :=
  mk_Parser text None false user_ns_map [] None [] [] flags 0 1.

Definition flag (f : Z) (s : Parser) : bool := negb (Z.land (flags s) f =? 0).

(** ** Characters *)

Definition is_alnum (c : Z) : bool := is_alpha c || is_digit c.
Definition is_name_start (c : Z) : bool := is_alnum c || (c =? chr ":") || (c =? chr "_").
Definition is_name_char (c : Z) : bool :=
  is_alnum c || (c =? chr ":") || (c =? chr "-") || (c =? chr "_") || (c =? chr ".").

(** [s.get(c)] *)
Definition get (c : Z) : P Z := fun s =>
  match rest s with
  | x :: r => (Val x, with_stream r (Some x) s)
  | [] => (Val c, with_stream [] None s)
  end.
(** [s.unget()], which does nothing after a read that failed *)
Definition unget : P unit := fun s =>
  (Val tt, match last s with Some x => with_stream (x :: rest s) None s | None => s end).

Definition newline (c n : Z) : Z := if c =? 10 then n + 1 else n.

(** The character after the blanks, what follows, and the line. *)
Fixpoint skip_ws_from (r : bytes) (n : Z) : Z * bytes * option Z * Z :=
  match r with
  | [] => (0, [], None, n)
  | c :: r => if is_space c then skip_ws_from r (newline c n) else (c, r, Some c, n)
  end.
Definition skip_ws (c : Z) : P Z := fun s =>
  let '(c, r, l, n) := skip_ws_from (rest s) (newline c (line s)) in
  (Val c, with_line n (with_stream r l s)).

(** ** Errors *)

Definition error_text (what text : bytes) (n : Z) : bytes :=
  what ++ text ++ str " at line " ++ itos n ++ [10].
Definition log_error (what text : bytes) (s : Parser) : Parser :=
  mk_Parser (rest s) (last s) (hex s) (user_ns_map s) (elements s) (root s) (ns_maps s)
    (serr s ++ error_text what text (line s)) (flags s) (errors s + 1) (line s).
Definition error (text : bytes) : P unit := modify (log_error (str "XML Error: ") text).
Definition fatal {A} (text : bytes) : P A :=
  modify (log_error (str "XML Fatal Error: ") text) ;;; throw ParseFailed.

(** ** Names and things to skip *)

Fixpoint name_from (r : bytes) : bytes * Z * bytes * option Z :=
  match r with
  | [] => ([], 0, [], None)
  | c :: r => if is_name_char c then let '(n, c', r', l) := name_from r in (c :: n, c', r', l)
              else ([], c, r, Some c)
  end.
(** The name, and the first character after it. *)
Definition read_rest_of_name (c : Z) : P (bytes * Z) := fun s =>
  let '(n, c', r, l) := name_from (rest s) in (Val (c :: n, c'), with_stream r l s).

(** Whether it was found, the rest and the line. *)
Fixpoint skip_to_gt_from (r : bytes) (n : Z) : bool * bytes * Z :=
  match r with
  | [] => (false, [], n)
  | c :: r => if c =? chr ">" then (true, r, n)
              else if c =? 10 then skip_to_gt_from r (n + 1)
              else if c =? 0 then (false, r, n)
              else skip_to_gt_from r n
  end.
Fixpoint skip_comment_from (r : bytes) (n : Z) : bool * bytes * Z :=
  match r with
  | [] => (false, [], n)
  | c :: r =>
    if c =? chr "-" then
      match r with
      | [] => (false, [], n)
      | c :: r =>
        if c =? chr "-" then
          match r with
          | [] => (false, [], n)
          | c :: r => if c =? chr ">" then (true, r, n) else skip_comment_from r (newline c n)
          end
        else skip_comment_from r (newline c n)
      end
    else if c =? 10 then skip_comment_from r (n + 1)
    else if c =? 0 then (false, r, n)
    else skip_comment_from r n
  end.
Fixpoint skip_pi_from (r : bytes) (n : Z) : bool * bytes * Z :=
  match r with
  | [] => (false, [], n)
  | c :: r =>
    if c =? chr "?" then
      match r with
      | [] => (false, [], n)
      | c :: r => let n := newline c n in
                  if c =? chr ">" then (true, r, n)
                  else if c =? 0 then (false, r, n) else skip_pi_from r n
      end
    else if c =? 0 then (false, r, n) else skip_pi_from r n
  end.
Definition skip_by (f : bytes -> Z -> bool * bytes * Z) (text : bytes) : P unit := fun s =>
  let '(found, r, n) := f (rest s) (line s) in
  let s := with_line n (with_stream r (if found then Some (chr ">") else None) s) in
  if found : bool then (Val tt, s) else fatal text s.
Definition skip_to_gt : P unit := skip_by skip_to_gt_from (str "Unexpected end-of-file").
Definition skip_comment : P unit := skip_by skip_comment_from (str "Unexpected end-of-file in comment").
Definition skip_pi : P unit := skip_by skip_pi_from (str "Unexpected end-of-file in PI").

Definition skip_bom : P unit :=
  let! c := get 0 in
  if negb (c =? 239) then unget else
  let! c := get c in
  if negb (c =? 187) then unget else
  let! c := get c in
  if negb (c =? 191) then unget else ret tt.

(** ** References *)

(** [s >> n] of an [int] in the stream's base, without blanks before it. *)
Definition read_int : P (option Z) := fun s =>
  let '(neg, r) := match rest s with
                   | c :: r => if c =? 45 then (true, r) else if c =? 43 then (false, r)
                               else (false, rest s)
                   | [] => (false, [])
                   end in
  let base := if hex s then 16 else 10 in
  let r := if hex s then
             match r with
             | 48 :: x :: r' => if (x =? 120) || (x =? 88) then r' else r
             | _ => r
             end
           else r in
  let ds := span_digits base r in
  let v := if neg : bool then - undigits base ds else undigits base ds in
  let s := with_stream (drop (length ds) r) None s in
  match ds with
  | [] => (Val None, s)
  | _ => if (- 2 ^ 31 <=? v) && (v <? 2 ^ 31) then (Val (Some v), s)
         else (Val None, with_stream [] None s)
  end.

(** UTF-8, up to three bytes *)
Definition ref_char (n : Z) : bytes :=
  if n <? 128 then [u8 n]
  else (if n <? 2048 then [u8 (Z.lor 192 (Z.shiftr n 6))]
        else [u8 (Z.lor 224 (Z.shiftr n 12)); u8 (Z.lor 128 (Z.land (Z.shiftr n 6) 63))])
       ++ [u8 (Z.lor 128 (Z.land n 63))].

Definition entity (ent : bytes) : option Z :=
  if bool_decide (ent = str "lt") then Some (chr "<")
  else if bool_decide (ent = str "gt") then Some (chr ">")
  else if bool_decide (ent = str "amp") then Some (chr "&")
  else if bool_decide (ent = str "apos") then Some SQUOTE
  else if bool_decide (ent = str "quot") then Some DQUOTE
  else None.

(** What is added to the text *)
Definition read_ref : P bytes :=
  let! c := get 0 in
  if c =? chr "#" then
    let! c := get c in
    (if c =? chr "x" then modify (with_hex true) else unget) ;;;
    let! n := read_int in
    match n with
    | None => fatal (str "Malformed character reference")
    | Some n =>
      let! c := get 0 in
      if c =? chr ";" then ret (ref_char n) else fatal (str "Malformed character reference")
    end
  else if is_alpha c then
    let! (ent, c) := read_rest_of_name c in
    if c =? chr ";" then
      match entity ent with
      | Some x => ret [x]
      | None => fatal (str "Unrecognised entity name")
      end
    else fatal (str "Malformed entity reference")
  else
    let! s := get_st in
    if flag PARSER_BE_LENIENT s then unget ;;; ret (str "&")
    else fatal (str "Weird reference - unescaped '&'?").

(** ** Namespaces *)

(** [xmlns] and [xmlns:prefix] attributes, into the map *)
Definition add_namespaces (attrs map : smap) : smap :=
  fold_left (fun m '(aname, v) =>
    if bool_decide (take 5 aname = str "xmlns") then
      match drop 5 aname with
      | [] => map_set [] v m
      | c :: prefix => if c =? chr ":" then map_set prefix v m else m
      end
    else m) attrs map.
Definition initial_processing (e : Element) (s : Parser) : Parser :=
  if flag PARSER_FIX_NAMESPACES s then
    with_ns (add_namespaces (attrs e) (match ns_maps s with m :: _ => m | [] => [] end) :: ns_maps s) s
  else s.

Definition substitute_name (topmap user_ns_map : smap) (usedef : bool) (name : bytes) : bytes :=
  let lookup prefix rest :=
    match map_find prefix topmap with
    | None => name
    | Some nsname =>
      match map_find nsname user_ns_map with
      | None => name
      | Some [] => rest
      | Some newprefix => newprefix ++ chr ":" :: rest
      end
    end in
  match Strings.find_first (Z.eqb (chr ":")) name with
  | Some pos => lookup (ztake pos name) (zdrop (pos + 1) name)
  | None => if usedef then lookup [] name else name
  end.

(** The element, and the state without its namespaces *)
Definition final_processing (e : Element) (s : Parser) : Element * Parser :=
  let e := if flag PARSER_OPTIMISE_CONTENT s then optimise e else e in
  match ns_maps s with
  | top :: maps =>
    if flag PARSER_FIX_NAMESPACES s then
      let subst := substitute_name top (user_ns_map s) in
      (with_attrs (with_name e (subst true (name e)))
         (fold_left (fun m '(k, v) => map_set (subst false k) v m) (attrs e) []),
       with_ns maps s)
    else (e, s)
  | [] => (e, s)
  end.

(** ** The tree *)

Definition has_root (s : Parser) : bool :=
  match elements s, root s with [], None => false | _, _ => true end.

(** A closed element, to its parent or as the root *)
Definition close (e : Element) (s : Parser) : Parser :=
  match elements s with
  | p :: es => with_tree (Element.add p e :: es) (root s) s
  | [] => with_tree [] (match root s with Some r => Some r | None => Some e end) s
  end.

(** ** Tags *)

(** The value up to the quote. *)
Fixpoint attr_value (fuel : nat) (quote : Z) (aval : bytes) : P bytes :=
  match fuel with
  | O => throw Out_of_fuel
  | S fuel =>
    let! c := get 0 in
    if c =? 0 then fatal (str "Document ended in attribute value")
    else if c =? quote then ret aval
    else if c =? chr "&" then let! r := read_ref in attr_value fuel quote (aval ++ r)
    else attr_value fuel quote (aval ++ [c])
  end.

Definition read_attr (fuel : nat) (c : Z) (attrs : smap) : P smap :=
  if negb (is_name_start c) then fatal (str "Illegal attribute name") else
  let! (aname, c) := read_rest_of_name c in
  match map_find aname attrs with
  | Some _ => fatal (str "Duplicate attribute name")
  | None =>
    let! c := if is_space c then skip_ws c else ret c in
    if negb (c =? chr "=") then fatal (str "No = given for attribute") else
    let! c := skip_ws 0 in
    if negb ((c =? DQUOTE) || (c =? SQUOTE)) then fatal (str "Attribute value not quoted") else
    let! aval := attr_value fuel c [] in
    ret (map_set aname aval attrs)
  end.

(** The loop over the attributes: whether the tag is empty, and the attributes. *)
Fixpoint read_attrs (fuel : nat) (c : Z) (attrs : smap) : P (bool * smap) :=
  match fuel with
  | O => throw Out_of_fuel
  | S fuel =>
    if negb (is_space c || (c =? chr "/") || (c =? chr ">")) then fatal (str "Illegal start tag") else
    let! c := if negb ((c =? chr "/") || (c =? chr ">")) then skip_ws c else ret c in
    if c =? chr "/" then
      let! c := get c in
      if negb (c =? chr ">") then fatal (str "Illegal empty close") else ret (true, attrs)
    else if c =? chr ">" then ret (false, attrs)
    else
      let! attrs := read_attr fuel c attrs in
      let! c := get 0 in
      read_attrs fuel c attrs
  end.

Definition read_tag (c : Z) : P bool :=
  let! (name, c) := read_rest_of_name c in
  let! s := get_st in
  let! (empty, attrs) := read_attrs (S (length (rest s))) c [] in
  let e := mk_Element name [] attrs [] (line s) in
  modify (initial_processing e) ;;;
  let! s := get_st in
  (if empty : bool then
     let '(e, s) := final_processing e s in put_st (close e s)
   else put_st (with_tree (e :: elements s) (root s) s)) ;;;
  ret empty.

Definition misnested (e : Element) (name : bytes) : bytes :=
  str "Mis-nested tags - expected </" ++ Element.name e ++ str ">, opened at line " ++
  itos (Element.line e) ++ str ", but got </" ++ name ++ str ">".

Definition read_end_tag (c : Z) : P unit :=
  let! (name, c) := read_rest_of_name c in
  let! c := if is_space c then skip_ws c else ret c in
  if negb (c =? chr ">") then throw ParseFailed else
  let! s := get_st in
  match elements s with
  | e :: es =>
    if key_eqb name (Element.name e) then
      let '(e, s) := final_processing e (with_tree es (root s) s) in put_st (close e s)
    else fatal (misnested e name)
  | [] => error (str "End-tag found but no elements open")
  end.

(** ** Content *)

Fixpoint content_loop (fuel : nat) (c : Z) (first : bool) (content : bytes) : P bytes :=
  match fuel with
  | O => throw Out_of_fuel
  | S fuel =>
    let! s := get_st in
    let! (c, first, content) :=
      (if negb (flag PARSER_PRESERVE_WHITESPACE s) && is_space c then
         let! c := skip_ws c in
         ret (c, false, if c =? chr "<" then content else content ++ [32])
       else ret (c, first, content)) in
    if (c =? chr "<") && negb first then unget ;;; ret content
    else
      let! content :=
        (if c =? chr "&" then let! r := read_ref in ret (content ++ r)
         else if c =? 0 then fatal (str "Unexpected end of stream")
         else modify (fun s => with_line (newline c (line s)) s) ;;; ret (content ++ [c])) in
      let! c := get 0 in
      content_loop fuel c false content
  end.

(** To the last child, if it is content that a comment interrupted, or as a
    child of its own *)
Definition add_content (preserve : bool) (content : bytes) (e : Element) : Element :=
  match List.rev (children e) with
  | l :: before =>
    match name l with
    | [] => with_children e (List.rev before ++
              [with_content l (Element.content l ++ (if preserve then [] else [32]) ++ content)])
    | _ => Element.add e (new_Element [] content)
    end
  | [] => Element.add e (new_Element [] content)
  end.

Definition read_content (c : Z) : P unit :=
  let! s := get_st in
  let! content := content_loop (S (S (length (rest s)))) c true [] in
  let! s := get_st in
  match elements s with
  | e :: es =>
    put_st (with_tree
      (add_content (flag PARSER_PRESERVE_WHITESPACE s) content e :: es) (root s) s)
  | [] => ret tt
  end.

(** ** The document *)

(** One turn of the main loop: is it done? *)
Definition parse_step : P bool :=
  let! s := get_st in
  let! c := if has_root s && flag PARSER_PRESERVE_WHITESPACE s then get 0 else skip_ws 0 in
  if c =? 0 then
    (if has_root s then fatal (str "Input stream failed unexpectedly")
     else fatal (str "Empty or unreadable document"))
  else if c =? chr "<" then
    let! c := get c in
    if c =? chr "!" then
      let! c := get c in
      (if c =? chr "-" then
         let! c := get c in
         if c =? chr "-" then skip_comment else error (str "Weird comment") ;;; skip_to_gt
       else skip_to_gt) ;;;
      ret false
    else if c =? chr "?" then skip_pi ;;; ret false
    else if c =? chr "/" then
      let! c := get c in
      (if is_name_start c then read_end_tag c else fatal (str "Illegal end tag")) ;;;
      let! s := get_st in
      ret (match elements s with [] => true | _ => false end)
    else if is_name_start c then
      let! empty := read_tag c in
      let! s := get_st in
      ret (empty && match elements s with [] => true | _ => false end)
    else if flag PARSER_BE_LENIENT s then unget ;;; read_content (chr "<") ;;; ret false
    else fatal (str "Illegal tag")
  else if has_root s then read_content c ;;; ret false
  else fatal (str "Non-tag data at start of document").

Fixpoint parse_loop (fuel : nat) : P unit :=
  match fuel with
  | O => throw Out_of_fuel
  | S fuel => let! done := parse_step in if done : bool then ret tt else parse_loop fuel
  end.

(** [parse_stream], which clears the stacks and the root first *)
Definition parse_stream : P unit :=
  modify (fun s => with_ns [] (with_tree [] None s)) ;;;
  skip_bom ;;;
  let! s := get_st in
  parse_loop (S (length (rest s))).

(** [read_from(string)]: a new stream *)
Definition read_from (text : bytes) : P unit :=
  modify (fun s => with_hex false (with_stream text None s)) ;;; parse_stream.

(** The tree so far: the open elements, each the last child of the next *)
Definition get_root (s : Parser) : option Element :=
  match elements s with
  | e :: es => Some (fold_left (fun child p => Element.add p child) es e)
  | [] => root s
  end.

(** After a parse, when no element is open *)
Definition detach_root (s : Parser) : option Element * Parser :=
  (get_root s, with_tree [] None s).
Definition replace_root (e : Element) (s : Parser) : Parser := with_tree [] (Some e) s.

Definition fix_namespace (name prefix : bytes) (s : Parser) : Parser :=
  mk_Parser (rest s) (last s) (hex s) (map_set name prefix (user_ns_map s)) (elements s) (root s)
    (ns_maps s) (serr s) (Z.lor (flags s) PARSER_FIX_NAMESPACES) (errors s) (line s).

(** ** [Element]'s operations that parse *)

Definition add_xml (e : Element) (xml : bytes) (parse_flags : Z) : option Element :=
  match read_from xml (init [] parse_flags []) with
  | (Val _, s) => root ← get_root s; Some (with_children e (children e ++ [root]))
  | (Throw _, _) => None
  end.
Definition merge_xml (e : Element) (xml : bytes) (parse_flags : Z) : bool * Element :=
  match read_from xml (init [] parse_flags []) with
  | (Val _, s) =>
    match get_root s with
    | Some root => if key_eqb (name root) (name e) then (true, merge e root) else (false, e)
    | None => (false, e)
    end
  | (Throw _, _) => (false, e)
  end.

(* ------------------------------------------------------------------ *)
(** ** Lemmas *)

(** *** Parsing always ends *)

Definition size (s : Parser) : nat := length (rest s).

(** [m] does not run out of fuel, and if it returns then as [Q] says. *)
Definition wp {A} (m : P A) (s : Parser) (Q : A -> Parser -> Prop) : Prop :=
  match m s with (Val x, s') => Q x s' | (Throw e, _) => e <> Out_of_fuel end.

Lemma wp_ret {A} (x : A) s (Q : A -> Parser -> Prop) : Q x s -> wp (ret x) s Q.
Proof. done. Qed.
Lemma wp_fatal {A} text s (Q : A -> Parser -> Prop) : wp (fatal text) s Q.
Proof. done. Qed.
Lemma wp_mono {A} (m : P A) s (Q Q' : A -> Parser -> Prop) :
  wp m s Q -> (forall x s', Q x s' -> Q' x s') -> wp m s Q'.
Proof. unfold wp. destruct (m s) as [[x|e] s']; auto. Qed.
Lemma wp_bind {A B} (m : P A) (k : A -> P B) s Q :
  wp m s (fun x s' => wp (k x) s' Q) -> wp (bind m k) s Q.
Proof. unfold wp, bind. by destruct (m s) as [[x|e] s']. Qed.
Lemma wp_get_st {B} (k : Parser -> P B) s Q : wp (k s) s Q -> wp (bind get_st k) s Q.
Proof. done. Qed.
Lemma wp_modify f s (Q : unit -> Parser -> Prop) : Q tt (f s) -> wp (modify f) s Q.
Proof. done. Qed.
Lemma wp_get c s (Q : Z -> Parser -> Prop) :
  (forall x r, rest s = x :: r -> Q x (with_stream r (Some x) s)) ->
  (rest s = [] -> Q c (with_stream [] None s)) -> wp (get c) s Q.
Proof. unfold wp, get. intros H1 H2. destruct (rest s); auto. Qed.
Lemma wp_get_any c s (Q : Z -> Parser -> Prop) :
  (forall x s', (size s' <= size s)%nat -> flags s' = flags s ->
     last s' = None \/ (size s' < size s)%nat -> Q x s') -> wp (get c) s Q.
Proof.
  intros HQ. apply wp_get; intros; apply HQ; try done; unfold size; try rewrite H; simpl; lia || auto.
Qed.
Lemma wp_unget s (Q : unit -> Parser -> Prop) :
  (forall x, last s = Some x -> Q tt (with_stream (x :: rest s) None s)) ->
  (last s = None -> Q tt s) -> wp unget s Q.
Proof. unfold wp, unget. intros H1 H2. destruct (last s); auto. Qed.

Lemma skip_ws_from_size r n : let '(c, r', _, _) := skip_ws_from r n in
  (length r' <= length r)%nat /\ (c <> 0 -> (length r' < length r)%nat) /\ is_space c = false.
Proof.
  revert n. induction r as [|c r IH]; intros n; cbn [skip_ws_from]; [done|].
  destruct (is_space c) eqn:Hc.
  - specialize (IH (newline c n)). destruct (skip_ws_from r (newline c n)) as [[[c' r'] l] n'].
    simpl. destruct IH as (? & Hlt & ?). repeat split; [lia| |done]. intros Hc'. specialize (Hlt Hc'). lia.
  - simpl. repeat split; [lia| |done]. intros. lia.
Qed.
Lemma wp_skip_ws c0 s (Q : Z -> Parser -> Prop) :
  (forall c s', (size s' <= size s)%nat -> (c <> 0 -> (size s' < size s)%nat) ->
     is_space c = false -> flags s' = flags s -> Q c s') ->
  wp (skip_ws c0) s Q.
Proof.
  intros HQ. unfold wp, skip_ws. pose proof (skip_ws_from_size (rest s) (newline c0 (line s))) as Hs.
  destruct (skip_ws_from _ _) as [[[c r] l] n]. destruct Hs as (? & ? & ?). by apply HQ.
Qed.
Lemma name_from_size r : let '(_, c, r', _) := name_from r in
  (length r' <= length r)%nat /\ (c <> 0 -> (length r' < length r)%nat).
Proof.
  induction r as [|c r IH]; cbn [name_from]; [done|].
  destruct (is_name_char c); [|simpl; lia].
  destruct (name_from r) as [[[n c'] r'] l]. simpl. destruct IH as [? Hlt].
  split; [lia|]. intros Hc. specialize (Hlt Hc). lia.
Qed.
Lemma wp_name c0 s (Q : bytes * Z -> Parser -> Prop) :
  (forall n c s', (size s' <= size s)%nat -> (c <> 0 -> (size s' < size s)%nat) ->
    flags s' = flags s -> Q (n, c) s') ->
  wp (read_rest_of_name c0) s Q.
Proof.
  intros HQ. unfold wp, read_rest_of_name. pose proof (name_from_size (rest s)) as Hs.
  destruct (name_from _) as [[[n c] r] l]. destruct Hs. by apply HQ.
Qed.

(** A skip leaves less, if it finds its end. *)
Definition skips (f : bytes -> Z -> bool * bytes * Z) : Prop := forall r n,
  let '(found, r', _) := f r n in found = true -> (length r' <= length r)%nat.
Lemma wp_skip_by f text s (Q : unit -> Parser -> Prop) : skips f ->
  (forall s', (size s' <= size s)%nat -> flags s' = flags s -> Q tt s') -> wp (skip_by f text) s Q.
Proof.
  intros Hf HQ. unfold wp, skip_by. specialize (Hf (rest s) (line s)).
  destruct (f (rest s) (line s)) as [[[|] r] n]; [|done]. apply HQ; [by apply Hf|done].
Qed.

Lemma skip_to_gt_skips : skips skip_to_gt_from.
Proof.
  intros r. induction r as [|c r IH]; intros n; cbn [skip_to_gt_from]; [done|].
  destruct (c =? chr ">"); [simpl; lia|]. destruct (c =? 10); [|destruct (c =? 0); [done|]].
  - specialize (IH (n + 1)). destruct (skip_to_gt_from r (n + 1)) as [[f r'] n']. simpl. intros Hf. specialize (IH Hf). lia.
  - specialize (IH n). destruct (skip_to_gt_from r n) as [[f r'] n']. simpl. intros Hf. specialize (IH Hf). lia.
Qed.

Lemma skip_comment_skips : skips skip_comment_from.
Proof.
  intros r. remember (length r) as k eqn:Hk. revert r Hk.
  induction k as [k IH] using lt_wf_ind. intros r -> n.
  assert (forall r' n', (length r' < length r)%nat ->
    let '(found, r2, _) := skip_comment_from r' n' in found = true -> (length r2 <= length r)%nat) as Hrec.
  { intros r' n' Hr'. specialize (IH _ Hr' r' eq_refl n').
    destruct (skip_comment_from r' n') as [[f r2] n2]. intros Hf. specialize (IH Hf). lia. }
  destruct r as [|c r]; cbn [skip_comment_from]; [done|].
  destruct (c =? chr "-").
  - destruct r as [|c2 r]; [done|]. destruct (c2 =? chr "-"); [|apply Hrec; simpl; lia].
    destruct r as [|c3 r]; [done|]. destruct (c3 =? chr ">"); [simpl; lia|apply Hrec; simpl; lia].
  - destruct (c =? 10); [apply Hrec; simpl; lia|]. destruct (c =? 0); [done|apply Hrec; simpl; lia].
Qed.
Lemma skip_pi_skips : skips skip_pi_from.
Proof.
  intros r. remember (length r) as k eqn:Hk. revert r Hk.
  induction k as [k IH] using lt_wf_ind. intros r -> n.
  assert (forall r' n', (length r' < length r)%nat ->
    let '(found, r2, _) := skip_pi_from r' n' in found = true -> (length r2 <= length r)%nat) as Hrec.
  { intros r' n' Hr'. specialize (IH _ Hr' r' eq_refl n').
    destruct (skip_pi_from r' n') as [[f r2] n2]. intros Hf. specialize (IH Hf). lia. }
  destruct r as [|c r]; cbn [skip_pi_from]; [done|].
  destruct (c =? chr "?").
  - destruct r as [|c2 r]; [done|]. cbv zeta. destruct (c2 =? chr ">"); [simpl; lia|].
    destruct (c2 =? 0); [done|apply Hrec; simpl; lia].
  - destruct (c =? 0); [done|apply Hrec; simpl; lia].
Qed.

Lemma wp_read_int s (Q : option Z -> Parser -> Prop) :
  (forall n s', (size s' <= size s)%nat -> flags s' = flags s -> Q n s') -> wp read_int s Q.
Proof.
  intros HQ. unfold wp, read_int.
  assert (forall r, (length r <= size s)%nat ->
    let r := if hex s then
               match r with
               | 48 :: x :: r' => if (x =? 120) || (x =? 88) then r' else r
               | _ => r
               end
             else r in
    (length r <= size s)%nat) as Hprefix.
  { intros r Hr. cbv zeta. destruct (hex s); [|done].
    repeat case_match; simpl in *; lia. }
  destruct (match rest s with c :: r => _ | [] => _ end) as [neg r] eqn:Hsign.
  assert (length r <= size s)%nat as Hr.
  { unfold size. revert Hsign. destruct (rest s) as [|c r0]; [by intros [= <- <-]|].
    destruct (c =? 45); [intros [= <- <-]; simpl; lia|].
    destruct (c =? 43); intros [= <- <-]; simpl; lia. }
  specialize (Hprefix r Hr). cbv zeta in *.
  set (r1 := if hex s then _ else r) in *. set (ds := span_digits _ r1).
  set (v := if neg then _ else _).
  assert (size (with_stream (drop (length ds) r1) None s) <= size s)%nat
    by (unfold size; cbn [rest with_stream]; rewrite length_drop; unfold size in *; lia).
  destruct ds; [by apply HQ|]. destruct (_ && _); [by apply HQ|].
  apply HQ; [unfold size; simpl; lia|done].
Qed.

Lemma wp_read_ref s (Q : bytes -> Parser -> Prop) :
  (forall v s', (size s' <= size s)%nat -> flags s' = flags s -> Q v s') -> wp read_ref s Q.
Proof.
  intros HQ. unfold read_ref. apply wp_bind, wp_get; intros; [|].
  2: { cbn. apply wp_get_st. destruct (flag _ _); [|apply wp_fatal]. apply wp_bind, wp_unget; [done|].
       intros _. apply HQ; [unfold size; simpl; lia|done]. }
  set (s1 := with_stream r (Some x) s). rename H into Hs.
  assert (size s = S (size s1)) as Hsize by (unfold size; rewrite Hs; done).
  assert (flags s1 = flags s) as Hfl by done. assert (last s1 = Some x) as Hlast by done.
  clearbody s1. destruct (x =? chr "#"); [|destruct (is_alpha x)].
  - apply wp_bind.
    assert (forall c2 s2, (size s2 <= size s1)%nat -> flags s2 = flags s ->
      (last s2 = None \/ (size s2 < size s1)%nat) ->
      wp ((if c2 =? chr "x" then modify (with_hex true) else unget) ;;;
          let! n := read_int in
          match n with
          | None => fatal (str "Malformed character reference")
          | Some n => let! c := get 0 in
                      if c =? chr ";" then ret (ref_char n)
                      else fatal (str "Malformed character reference")
          end) s2 Q) as Hrest.
    { intros c2 s2 Hle Hf2 Hl. apply wp_bind.
      assert (forall s3, (size s3 <= size s1)%nat -> flags s3 = flags s -> 
        wp (let! n := read_int in
          match n with
          | None => fatal (str "Malformed character reference")
          | Some n => let! c := get 0 in
                      if c =? chr ";" then ret (ref_char n)
                      else fatal (str "Malformed character reference")
          end) s3 Q) as Hint.
      { intros s3 H3 Hf3. apply wp_bind, wp_read_int. intros [n|] s4 H4 Hf4; [|apply wp_fatal].
        apply wp_bind, wp_get; intros.
        - destruct (_ =? _); [|apply wp_fatal]. apply HQ; [|by simpl; congruence].
          unfold size in *. rewrite H in H4. simpl in *. lia.
        - apply wp_fatal. }
      destruct (c2 =? chr "x"); [by apply Hint|].
      apply wp_unget; [|by intros; apply Hint]. intros y Hy. apply Hint; [|done].
      destruct Hl as [Hl|Hl]; [congruence|]. unfold size in *. simpl. lia. }
    apply wp_get; intros.
    + apply Hrest; [|done|right]; unfold size in *; simpl in *; rewrite H; simpl; lia.
    + apply Hrest; [unfold size; simpl; lia|done|by left].
  - apply wp_bind, wp_name. intros n c s2 H2 _ Hf2. destruct (c =? chr ";"); [|apply wp_fatal].
    destruct (entity n); [|apply wp_fatal]. apply HQ; [lia|congruence].
  - apply wp_get_st. destruct (flag _ _); [|apply wp_fatal].
    apply wp_bind, wp_unget; [|congruence]. intros y Hy. apply HQ; [|done].
    unfold size in *. simpl. lia.
Qed.

Lemma wp_skip_if (b : bool) c s (Q : Z -> Parser -> Prop) :
  (forall c s', (size s' <= size s)%nat -> flags s' = flags s -> Q c s') ->
  wp (if b then skip_ws c else ret c) s Q.
Proof. intros HQ. destruct b; [apply wp_skip_ws; intros; by apply HQ|by apply HQ]. Qed.

Lemma wp_attr_value fuel quote aval s (Q : bytes -> Parser -> Prop) : (size s < fuel)%nat ->
  (forall v s', (size s' <= size s)%nat -> flags s' = flags s -> Q v s') ->
  wp (attr_value fuel quote aval) s Q.
Proof.
  revert aval s. induction fuel as [|fuel IH]; intros aval s Hf HQ; [lia|]. cbn [attr_value].
  apply wp_bind, wp_get; [|intros; apply wp_fatal]. intros x r Hs.
  set (s1 := with_stream r (Some x) s).
  assert (size s = S (size s1)) as Hsize by (unfold size; rewrite Hs; done).
  assert (flags s1 = flags s) as Hfl by done. clearbody s1.
  destruct (x =? 0); [apply wp_fatal|]. destruct (x =? quote); [apply HQ; [lia|done]|].
  destruct (x =? chr "&").
  - apply wp_bind, wp_read_ref. intros v s2 H2 Hf2.
    apply IH; [lia|]. intros w s3 H3 Hf3. apply HQ; [lia|congruence].
  - apply IH; [lia|]. intros w s3 H3 Hf3. apply HQ; [lia|congruence].
Qed.

(** An attribute takes at least its quotes. *)
Lemma wp_read_attr fuel c attrs s (Q : smap -> Parser -> Prop) : (size s <= fuel)%nat ->
  (forall v s', (size s' < size s)%nat -> flags s' = flags s -> Q v s') ->
  wp (read_attr fuel c attrs) s Q.
Proof.
  intros Hf HQ. unfold read_attr. destruct (negb _); [apply wp_fatal|].
  apply wp_bind, wp_name. intros n c1 s1 H1 _ Hf1. destruct (map_find n attrs); [apply wp_fatal|].
  apply wp_bind, wp_skip_if. intros c2 s2 H2 Hf2. destruct (negb _); [apply wp_fatal|].
  apply wp_bind, wp_skip_ws. intros c3 s3 _ H3 _ Hf3. destruct (negb _) eqn:Hq; [apply wp_fatal|].
  assert (c3 <> 0) as Hc3 by (by intros ->). specialize (H3 Hc3).
  apply wp_bind, wp_attr_value; [lia|]. intros v s4 H4 Hf4. apply HQ; [lia|congruence].
Qed.

Lemma wp_read_attrs fuel c attrs s (Q : bool * smap -> Parser -> Prop) :
  (size s < fuel)%nat ->
  (forall v s', (size s' <= size s)%nat -> flags s' = flags s -> Q v s') ->
  wp (read_attrs fuel c attrs) s Q.
Proof.
  revert c attrs s. induction fuel as [|fuel IH]; intros c attrs s Hf HQ; [lia|]. cbn [read_attrs].
  destruct (negb _); [apply wp_fatal|].
  apply wp_bind, wp_skip_if. intros c1 s1 H1 Hf1.
  destruct (c1 =? chr "/").
  { apply wp_bind, wp_get; intros; (destruct (negb _); [apply wp_fatal|]);
      (apply HQ; [|done]); unfold size in *; simpl; [|lia]. rewrite H in H1. simpl in H1. lia. }
  destruct (c1 =? chr ">"); [by apply HQ|].
  apply wp_bind, wp_read_attr; [lia|]. intros attrs' s2 H2 Hf2.
  apply wp_bind, wp_get; intros.
  - apply IH; [unfold size in *; simpl; rewrite H in H2; simpl in H2; lia|].
    intros v s3 H3 Hf3. unfold size in *. simpl in *. rewrite H in H2. simpl in H2.
    apply HQ; [lia|congruence].
  - apply IH; [unfold size in *; simpl; lia|].
    intros v s3 H3 Hf3. unfold size in *. simpl in *. apply HQ; [lia|congruence].
Qed.

Lemma close_size e s : size (close e s) = size s /\ flags (close e s) = flags s.
Proof. unfold close. by destruct (elements s). Qed.

(** The parser has what the document says, or has said why not. *)
Definition complete (s : Parser) : Prop := root s <> None \/ serr s <> [].
Lemma close_complete e s : elements (close e s) = [] -> complete (close e s).
Proof. unfold close, complete. destruct (elements s); [|done]. intros _. left. by destruct (root s). Qed.
Lemma log_error_complete what text s : complete (log_error what text s).
Proof.
  right. cbn [log_error serr]. unfold error_text.
  intros [_ H]%app_eq_nil. by rewrite !app_assoc in H; apply app_eq_nil in H as [_ ?].
Qed.

Lemma initial_size e s : size (initial_processing e s) = size s /\ flags (initial_processing e s) = flags s.
Proof. unfold initial_processing. by destruct (flag _ s). Qed.
Lemma final_size e s : let '(_, s') := final_processing e s in size s' = size s /\ flags s' = flags s.
Proof. unfold final_processing. destruct (ns_maps s); [done|]. by destruct (flag PARSER_FIX_NAMESPACES s). Qed.

Lemma wp_read_tag c s (Q : bool -> Parser -> Prop) :
  (forall v s', (size s' <= size s)%nat -> flags s' = flags s ->
     (v = true -> elements s' = [] -> complete s') -> Q v s') -> wp (read_tag c) s Q.
Proof.
  intros HQ. unfold read_tag. apply wp_bind, wp_name. intros n c1 s1 H1 _ Hf1. apply wp_get_st.
  apply wp_bind, wp_read_attrs; [unfold size; lia|]. intros [empty attrs] s2 H2 Hf2.
  set (e := mk_Element _ _ _ _ _). apply wp_bind, wp_modify, wp_get_st.
  destruct (initial_size e s2) as [H3 Hf3]. set (s3 := initial_processing e s2) in *.
  destruct empty.
  - pose proof (final_size e s3) as H4. destruct (final_processing e s3) as [e' s4].
    destruct H4 as [H4 Hf4]. destruct (close_size e' s4) as [H5 Hf5].
    apply wp_bind, (wp_modify (fun _ => close e' s4)).
    apply HQ; [lia|congruence|]. intros _. apply close_complete.
  - apply wp_bind, (wp_modify (fun _ => with_tree (e :: elements s3) (root s3) s3)).
    apply HQ; [unfold size in *; simpl; lia|simpl; congruence|done].
Qed.

Lemma wp_read_end_tag c s (Q : unit -> Parser -> Prop) :
  (forall v s', (size s' <= size s)%nat -> flags s' = flags s ->
     (elements s' = [] -> complete s') -> Q v s') -> wp (read_end_tag c) s Q.
Proof.
  intros HQ. unfold read_end_tag. apply wp_bind, wp_name. intros n c1 s1 H1 _ Hf1.
  apply wp_bind, wp_skip_if. intros c2 s2 H2 Hf2. destruct (negb _); [done|]. apply wp_get_st.
  destruct (elements s2) as [|e es].
  - apply wp_modify. apply HQ; [unfold size in *; simpl; lia|simpl; congruence|].
    intros _. apply log_error_complete.
  - destruct (key_eqb _ _); [|apply wp_fatal].
    pose proof (final_size e (with_tree es (root s2) s2)) as H4.
    destruct (final_processing e (with_tree es (root s2) s2)) as [e' s4].
    destruct H4 as [H4 Hf4]. destruct (close_size e' s4) as [H5 Hf5].
    apply (wp_modify (fun _ => close e' s4)). apply HQ; [unfold size in *; simpl in *; lia|simpl in *; congruence|].
    apply close_complete.
Qed.

(** A content that ends gives back the character that ended it. *)
Definition ends_at (c : Z) (first : bool) : nat := if (c =? chr "<") && negb first then 1 else 0.

Lemma wp_content_end fuel content s (Q : bytes -> Parser -> Prop) : (0 < fuel)%nat ->
  wp (content_loop fuel 0 false content) s Q.
Proof.
  intros Hf. destruct fuel as [|fuel]; [lia|]. cbn [content_loop]. apply wp_get_st.
  change (is_space 0) with false. rewrite andb_false_r. done.
Qed.

Lemma wp_content_loop fuel c first content s (Q : bytes -> Parser -> Prop) :
  (size s + 1 < fuel)%nat ->
  (forall v s', (size s' <= size s + ends_at c first)%nat -> flags s' = flags s -> Q v s') ->
  wp (content_loop fuel c first content) s Q.
Proof.
  revert c first content s. induction fuel as [|fuel IH]; intros c first content s Hf HQ; [lia|].
  cbn [content_loop]. apply wp_get_st, wp_bind.
  assert (forall c1 first1 content1 s1, (size s1 <= size s)%nat ->
    (size s1 + ends_at c1 first1 <= size s + ends_at c first)%nat -> flags s1 = flags s ->
    wp (let '(c, first, content) := (c1, first1, content1) in
        if (c =? chr "<") && negb first then unget ;;; ret content
        else
          let! content :=
            (if c =? chr "&" then let! r := read_ref in ret (content ++ r)
             else if c =? 0 then fatal (str "Unexpected end of stream")
             else modify (fun s => with_line (newline c (line s)) s) ;;; ret (content ++ [c])) in
          let! c := get 0 in content_loop fuel c false content) s1 Q) as Hrest.
  { intros c1 first1 content1 s1 H1 He Hf1. cbv beta iota.
    unfold ends_at at 1 in He. destruct ((c1 =? chr "<") && negb first1).
    { apply wp_bind, wp_unget; intros; (apply HQ; [|done]); unfold size in *; simpl in *; lia. }
    apply wp_bind.
    assert (forall content2 s2, (size s2 <= size s1)%nat -> flags s2 = flags s ->
      wp (let! c := get 0 in content_loop fuel c false content2) s2 Q) as Hnext.
    { intros content2 s2 H2 Hf2. apply wp_bind, wp_get; intros; [|apply wp_content_end; lia].
      set (s3 := with_stream r (Some x) s2).
      assert (size s2 = S (size s3)) as H3 by (unfold size; rewrite H; done).
      assert (flags s3 = flags s) by done. clearbody s3.
      apply IH; [lia|]. intros v s4 H4 Hf4. apply HQ; [|congruence].
      unfold ends_at in H4 at 1. destruct (_ && _); lia. }
    destruct (c1 =? chr "&"); [|destruct (c1 =? 0); [done|]].
    - apply wp_bind, wp_read_ref. intros v s2 H2 Hf2. apply Hnext; [lia|congruence].
    - apply wp_bind, wp_modify. by apply Hnext. }
  destruct (negb _ && is_space c).
  - apply wp_bind, wp_skip_ws. intros c1 s1 H1 Hlt _ Hf1. apply wp_ret.
    refine (Hrest c1 false (if c1 =? chr "<" then content else content ++ [32]) s1 _ _ Hf1); [lia|].
    unfold ends_at at 1. destruct (Z.eqb_spec c1 (chr "<")) as [->|Hne]; [|simpl; lia].
    specialize (Hlt ltac:(done)). simpl. lia.
  - apply wp_ret. refine (Hrest c first content s _ _ _); [lia|lia|done].
Qed.

Lemma wp_read_content c s (Q : unit -> Parser -> Prop) :
  (forall v s', (size s' <= size s)%nat -> flags s' = flags s -> Q v s') -> wp (read_content c) s Q.
Proof.
  intros HQ. unfold read_content. apply wp_get_st, wp_bind, wp_content_loop; [unfold size; lia|].
  intros v s1 H1 Hf1. unfold ends_at in H1. rewrite andb_false_r in H1. apply wp_get_st.
  destruct (elements s1) as [|e es]; [apply HQ; [lia|done]|].
  apply (wp_modify (fun _ => _)). apply HQ; [unfold size in *; simpl in *; lia|done].
Qed.

(** A turn of the main loop takes a character. *)
Lemma wp_parse_step s (Q : bool -> Parser -> Prop) :
  (forall v s', (size s' < size s)%nat -> flags s' = flags s ->
     (v = true -> elements s' = [] /\ complete s') -> Q v s') -> wp parse_step s Q.
Proof.
  intros HQ. unfold parse_step. apply wp_get_st, wp_bind.
  assert (forall c s1, (c <> 0 -> (size s1 < size s)%nat) -> flags s1 = flags s ->
    wp (if c =? 0 then
          (if has_root s then fatal (str "Input stream failed unexpectedly")
           else fatal (str "Empty or unreadable document"))
        else if c =? chr "<" then
          let! c := get c in
          if c =? chr "!" then
            let! c := get c in
            (if c =? chr "-" then
               let! c := get c in
               if c =? chr "-" then skip_comment else error (str "Weird comment") ;;; skip_to_gt
             else skip_to_gt) ;;;
            ret false
          else if c =? chr "?" then skip_pi ;;; ret false
          else if c =? chr "/" then
            let! c := get c in
            (if is_name_start c then read_end_tag c else fatal (str "Illegal end tag")) ;;;
            let! s := get_st in
            ret (match elements s with [] => true | _ => false end)
          else if is_name_start c then
            let! empty := read_tag c in
            let! s := get_st in
            ret (empty && match elements s with [] => true | _ => false end)
          else if flag PARSER_BE_LENIENT s then unget ;;; read_content (chr "<") ;;; ret false
          else fatal (str "Illegal tag")
        else if has_root s then read_content c ;;; ret false
        else fatal (str "Non-tag data at start of document")) s1 Q) as Hrest.
  { intros c s1 H1 Hf1. destruct (Z.eqb_spec c 0) as [|Hc]; [by destruct (has_root s)|].
    specialize (H1 Hc).
    destruct (c =? chr "<"); [|destruct (has_root s); [|done]].
    2: { apply wp_bind, wp_read_content. intros _ s2 H2 Hf2. apply HQ; [lia|congruence|done]. }
    apply wp_bind, wp_get_any. intros c2 s2 H2 Hf2 Hl2.
    destruct (c2 =? chr "!"); [|destruct (c2 =? chr "?"); [|destruct (c2 =? chr "/");
      [|destruct (is_name_start c2); [|destruct (flag _ _); [|done]]]]].
    - apply wp_bind, wp_get_any. intros c3 s3 H3 Hf3 _. apply wp_bind.
      destruct (c3 =? chr "-");
        [|apply wp_skip_by; [apply skip_to_gt_skips|]; intros s4 H4 Hf4; apply HQ; [lia|congruence|done]].
      apply wp_bind, wp_get_any. intros c4 s4 H4 Hf4 _. destruct (c4 =? chr "-").
      + apply wp_skip_by; [apply skip_comment_skips|]. intros s5 H5 Hf5. apply HQ; [lia|congruence|done].
      + apply wp_bind, wp_modify, wp_skip_by; [apply skip_to_gt_skips|].
        intros s5 H5 Hf5. apply HQ; [unfold size in *; simpl in *; lia|simpl in *; congruence|done].
    - apply wp_bind, wp_skip_by; [apply skip_pi_skips|]. intros s3 H3 Hf3. apply HQ; [lia|congruence|done].
    - apply wp_bind, wp_get_any. intros c3 s3 H3 Hf3 _. apply wp_bind.
      destruct (is_name_start c3); [|done]. apply wp_read_end_tag. intros _ s4 H4 Hf4 Hd.
      apply wp_get_st, HQ; [lia|congruence|]. destruct (elements s4); [auto|done].
    - apply wp_bind, wp_read_tag. intros empty s3 H3 Hf3 Hd.
      apply wp_get_st, HQ; [lia|congruence|]. destruct empty; [|done]. specialize (Hd eq_refl).
      destruct (elements s3); [auto|done].
    - apply wp_bind, (wp_mono _ _ (fun _ s3 => (size s3 <= size s1)%nat /\ flags s3 = flags s1)).
      + apply wp_unget; [|by intros]. intros x Hx. split; [|done]. unfold size in *. simpl.
        destruct Hl2 as [Hl2|Hl2]; [congruence|lia].
      + intros _ s3 [H3 Hf3]. apply wp_bind, wp_read_content. intros _ s4 H4 Hf4. apply HQ; [lia|congruence|done]. }
  destruct (has_root s && flag PARSER_PRESERVE_WHITESPACE s).
  - apply wp_get; intros; apply Hrest; [|done|done|done]. intros _. unfold size. rewrite H. simpl. lia.
  - apply wp_skip_ws. intros c s1 _ H1 _ Hf1. by apply Hrest.
Qed.

Lemma wp_parse_loop fuel s : (size s < fuel)%nat ->
  wp (parse_loop fuel) s (fun _ s' => elements s' = [] /\ complete s').
Proof.
  revert s. induction fuel as [|fuel IH]; intros s Hf; [lia|]. cbn [parse_loop].
  apply wp_bind, wp_parse_step. intros [|] s1 H1 _ Hd; [by apply Hd|]. apply IH. lia.
Qed.

Lemma wp_read_from text s : wp (read_from text) s (fun _ s' => elements s' = [] /\ complete s').
Proof.
  unfold read_from, parse_stream. apply wp_bind, wp_modify, wp_bind, wp_modify, wp_bind.
  apply (wp_mono _ _ (fun _ _ => True)).
  - unfold skip_bom. apply wp_bind, wp_get_any. intros c1 s1 _ _ _.
    destruct (negb _); [by apply wp_unget|]. apply wp_bind, wp_get_any. intros c2 s2 _ _ _.
    destruct (negb _); [by apply wp_unget|]. apply wp_bind, wp_get_any. intros c3 s3 _ _ _.
    destruct (negb _); [by apply wp_unget|done].
  - intros _ s1 _. apply wp_get_st, wp_parse_loop. unfold size. lia.
Qed.

(** C5: parsing any text, whatever the flags and what the parser held before,
    comes to an end: it throws [ParseFailed], or returns with every element
    closed and a root; or without a root only if it has logged an error (an end
    tag at the start of the document, which the source takes for
    unreachable). *)
Theorem xml_parse_total text s :
  match read_from text s with
  | (Val _, s') => elements s' = [] /\ (root s' <> None \/ serr s' <> [])
  | (Throw e, _) => e = ParseFailed
  end.
Proof.
  pose proof (wp_read_from text s) as H. unfold wp in H.
  destruct (read_from text s) as [[[]|[]] s']; [exact H|done|done].
Qed.

End XmlParser.
