(* ===== verification/XmlRound.v ===== *)
(** * What the XML writer writes, the parser reads

    The round trip between [Element::to_string] ([element.cc]) and
    [Parser::read_from] ([parser.cc]).  [printable] says which elements come
    back as they were: names that are names, attributes without NULs, content
    without the blanks the parser compresses, and no data children that the
    parser would join or lift. *)
From S2P Require Export XmlParser.

Module XmlRound.
Import XmlParser.

(** ** The elements that come back *)

Definition name_ok (n : bytes) : bool :=
  match n with c :: r => is_name_start c && forallb is_name_char r | [] => false end.

Fixpoint text_from (blank : bool) (t : bytes) : bool :=
  match t with
  | [] => negb blank
  | c :: t => negb (c =? 0) &&
              (if is_space c then (c =? 32) && negb blank && text_from true t else text_from false t)
  end.
(** No NUL, no blank at either end, and single spaces for blanks *)
Definition text_ok (t : bytes) : bool := text_from true t.

Fixpoint attrs_ok (k : option bytes) (a : list (bytes * bytes)) : bool :=
  match a with
  | [] => true
  | (n, v) :: a =>
    name_ok n && forallb (fun c => negb (c =? 0)) v &&
    match k with Some k => match key_cmp k n with Lt => true | _ => false end | None => true end &&
    attrs_ok (Some n) a
  end.

Definition is_data (e : Element) : bool := match name e with [] => true | _ => false end.
(** No data child after another *)
Fixpoint apart (data : bool) (l : list Element) : bool :=
  match l with
  | [] => true
  | c :: l => negb (data && is_data c) && apart (is_data c) l
  end.

Fixpoint printable (e : Element) : bool :=
  match e with
  | mk_Element n c a l _ =>
    match n with
    | [] => text_ok c && match a with [] => true | _ => false end
            && match l with [] => true | _ => false end
    | _ =>
      name_ok n && attrs_ok None a &&
      match l with
      | [] => match c with [] => true | _ => text_ok c end
      | _ => match c with [] => true | _ => false end && forallb printable l && apart false l &&
             match l with [d] => negb (is_data d) | _ => true end
      end
    end
  end.

(* ------------------------------------------------------------------ *)
(** ** Lemmas *)

(** *** Running the parser on known text *)

Definition frame (s : Parser) := (flags s, root s, ns_maps s, errors s, serr s).

(** What is left, what [unget] puts back, the open elements and the frame *)
Record At (r : bytes) (l : option Z) (es : list Element)
    (F : Z * option Element * list smap * Z * bytes) (s : Parser) : Prop := mk_At {
  at_rest : rest s = r; at_last : last s = l; at_elements : elements s = es; at_frame : frame s = F }.

(** [m] returns, as [Q] says. *)
Definition runs {A} (m : P A) (s : Parser) (Q : A -> Parser -> Prop) : Prop :=
  match m s with (Val x, s') => Q x s' | (Throw _, _) => False end.

Lemma run_ret {A} (x : A) s (Q : A -> Parser -> Prop) : Q x s -> runs (ret x) s Q.
Proof. done. Qed.
Lemma runs_mono {A} (m : P A) s (Q Q' : A -> Parser -> Prop) :
  runs m s Q -> (forall x s', Q x s' -> Q' x s') -> runs m s Q'.
Proof. unfold runs. destruct (m s) as [[x|e] s']; auto. Qed.
Lemma run_bind {A B} (m : P A) (k : A -> P B) s Q :
  runs m s (fun x s' => runs (k x) s' Q) -> runs (bind m k) s Q.
Proof. unfold runs, bind. by destruct (m s) as [[x|e] s']. Qed.
Lemma runs_get_st {B} (k : Parser -> P B) s Q : runs (k s) s Q -> runs (bind get_st k) s Q.
Proof. done. Qed.

Lemma runs_get c x r l es F s (Q : Z -> Parser -> Prop) : At (x :: r) l es F s ->
  (forall s', At r (Some x) es F s' -> Q x s') -> runs (get c) s Q.
Proof. intros [Hr Hl He HF] HQ. unfold runs, get. rewrite Hr. by apply HQ. Qed.
Lemma runs_unget x r es F s (Q : unit -> Parser -> Prop) : At r (Some x) es F s ->
  (forall s', At (x :: r) None es F s' -> Q tt s') -> runs unget s Q.
Proof. intros [Hr Hl He HF] HQ. unfold runs, unget. rewrite Hl, Hr. by apply HQ. Qed.
Lemma runs_line f r l es F s (Q : unit -> Parser -> Prop) : At r l es F s ->
  (forall s', At r l es F s' -> Q tt s') -> runs (modify (fun s => with_line (f s) s)) s Q.
Proof. intros [Hr Hl He HF] HQ. apply HQ. by split. Qed.

Lemma drop_spaces_head r x r' : drop_while is_space r = x :: r' -> is_space x = false.
Proof.
  induction r as [|c r IH]; [done|]. cbn [drop_while]. destruct (is_space c) eqn:Hc; [done|].
  by intros [= -> ->].
Qed.
Lemma skip_ws_from_run r x r' n : drop_while is_space r = x :: r' ->
  exists n', skip_ws_from r n = (x, r', Some x, n').
Proof.
  revert n. induction r as [|c r IH]; intros n; [done|]. cbn [drop_while skip_ws_from].
  destruct (is_space c); [apply IH|]. intros [= -> ->]. by eexists.
Qed.
Lemma runs_skip_ws c x r' r l es F s (Q : Z -> Parser -> Prop) : At r l es F s ->
  drop_while is_space r = x :: r' ->
  (forall s', At r' (Some x) es F s' -> Q x s') -> runs (skip_ws c) s Q.
Proof.
  intros [Hr Hl He HF] Hd HQ. unfold runs, skip_ws. rewrite Hr.
  destruct (skip_ws_from_run r x r' (newline c (line s)) Hd) as [n' ->]. by apply HQ.
Qed.

Lemma name_from_run n x r : forallb is_name_char n = true -> is_name_char x = false ->
  name_from (n ++ x :: r) = (n, x, r, Some x).
Proof.
  intros Hn Hx. induction n as [|c n IH]; cbn [app name_from]; [by rewrite Hx|].
  cbn [forallb] in Hn. apply andb_prop in Hn as [-> Hn]. by rewrite IH.
Qed.
Lemma runs_name c n x r l es F s (Q : bytes * Z -> Parser -> Prop) : At (n ++ x :: r) l es F s ->
  forallb is_name_char n = true -> is_name_char x = false ->
  (forall s', At r (Some x) es F s' -> Q (c :: n, x) s') -> runs (read_rest_of_name c) s Q.
Proof.
  intros [Hr Hl He HF] Hn Hx HQ. unfold runs, read_rest_of_name. rewrite Hr, name_from_run by done.
  by apply HQ.
Qed.

(** *** References *)

Lemma runs_read_ref c r l es F s (Q : bytes -> Parser -> Prop) :
  c = chr "<" \/ c = chr ">" \/ c = chr "&" \/ c = DQUOTE ->
  At (drop 1 (escape_char true c) ++ r) l es F s ->
  (forall s', At r (Some (chr ";")) es F s' -> Q [c] s') -> runs read_ref s Q.
Proof.
  intros Hc [Hr Hl He HF] HQ. unfold runs, read_ref, bind, get.
  destruct Hc as [-> | [-> | [-> | ->]]]; rewrite Hr; cbn; by apply HQ.
Qed.

(** The first character of what [c] is written as, and the text that follows. *)
Lemma escape_char_cases q c : exists x r,
  escape_char q c = x :: r /\
  ((c = chr "<" \/ c = chr ">" \/ c = chr "&" \/ (c = DQUOTE /\ q = true)) /\
   x = chr "&" /\ r = drop 1 (escape_char true c) \/
   c <> chr "<" /\ c <> chr "&" /\ x = c /\ r = [] /\ (q = true -> c <> DQUOTE)).
Proof.
  unfold escape_char.
  destruct (Z.eqb_spec c (chr "<")) as [->|H1]; [do 2 eexists; split; [reflexivity|left; auto]|].
  destruct (Z.eqb_spec c (chr ">")) as [->|H2]; [do 2 eexists; split; [reflexivity|left; auto]|].
  destruct (Z.eqb_spec c (chr "&")) as [->|H3]; [do 2 eexists; split; [reflexivity|left; auto]|].
  destruct (Z.eqb_spec c DQUOTE) as [->|H4]; [destruct q|]; do 2 eexists; (split; [reflexivity|]);
    [left|right|right]; auto 10.
Qed.

Lemma escape_length q v : (length v <= length (escape v q))%nat.
Proof.
  unfold escape. induction v as [|c v IH]; [done|]. cbn [flat_map length]. rewrite length_app.
  destruct (escape_char_cases q c) as (x & r & -> & _). simpl. lia.
Qed.

Ltac lens H := repeat progress (rewrite ?length_app in H; cbn [length] in H).

(** *** Attributes *)

Definition no_nul (v : bytes) : Prop := Forall (fun c => c <> 0) v.

Lemma runs_attr_value fuel quote q v acc r l es F s (Q : bytes -> Parser -> Prop) :
  quote = DQUOTE \/ quote = SQUOTE -> no_nul v ->
  Forall (fun c => c = quote -> quote = DQUOTE /\ q = true) v -> (length v < fuel)%nat ->
  At (escape v q ++ quote :: r) l es F s ->
  (forall s', At r (Some quote) es F s' -> Q (acc ++ v) s') -> runs (attr_value fuel quote acc) s Q.
Proof.
  intros Hq. revert acc fuel l s. induction v as [|c v IH]; intros acc fuel l s Hn Hv Hf Hs HQ;
    (destruct fuel as [|fuel]; [simpl in Hf; lia|]); cbn [attr_value].
  { eapply run_bind, runs_get; [exact Hs|]. intros s1 Hs1.
    rewrite (proj2 (Z.eqb_neq quote 0)) by (by destruct Hq as [-> | ->]). rewrite Z.eqb_refl.
    apply run_ret. rewrite app_nil_r in HQ. by apply HQ. }
  apply Forall_cons in Hn as [Hc0 Hn]. apply Forall_cons in Hv as [Hcv Hv]. simpl in Hf.
  destruct (escape_char_cases q c) as (x & r1 & Hx & Hcase).
  unfold escape in Hs. cbn [flat_map] in Hs. rewrite Hx in Hs. cbn [app] in Hs.
  rewrite <- app_assoc in Hs. fold (escape v q) in Hs.
  eapply run_bind, runs_get; [exact Hs|]. intros s1 Hs1.
  destruct Hcase as [(Hcs & -> & ->)|(H1 & H2 & -> & -> & H3)].
  - change (chr "&" =? 0) with false. change (chr "&" =? chr "&") with true. cbv iota.
    rewrite (proj2 (Z.eqb_neq (chr "&") quote)) by (by destruct Hq as [-> | ->]). cbv iota.
    eapply run_bind, runs_read_ref; [|exact Hs1|]; [tauto|]. intros s2 Hs2.
    eapply IH; [done|done|lia|exact Hs2|]. by rewrite <- app_assoc.
  - rewrite (proj2 (Z.eqb_neq c 0)) by done. rewrite (proj2 (Z.eqb_neq c (chr "&"))) by done.
    destruct (Z.eqb_spec c quote) as [->|Hne].
    { destruct (Hcv eq_refl) as [-> Hqt]. by destruct (H3 Hqt). }
    eapply IH; [done|done|lia|exact Hs1|]. by rewrite <- app_assoc.
Qed.

Lemma escape_plain v : existsb (fun c => (c =? chr "<") || (c =? chr ">") || (c =? chr "&") || (c =? DQUOTE)) v = false ->
  escape v true = v.
Proof.
  unfold escape. induction v as [|c v IH]; [done|]. cbn [existsb flat_map].
  intros [Hc Hv]%orb_false_elim. rewrite IH by done. unfold escape_char.
  apply orb_false_elim in Hc as [[[-> ->]%orb_false_elim ->]%orb_false_elim ->]. done.
Qed.

Lemma contains_false c v : contains c v = false -> Forall (fun x => x <> c) v.
Proof.
  unfold contains. induction v as [|x v IH]; [constructor|]. cbn [existsb].
  intros [Hx Hv]%orb_false_elim. apply Z.eqb_neq in Hx. constructor; [congruence|by apply IH].
Qed.

(** An attribute is written between quotes that its text does not have. *)
Lemma write_attr_shape n v : exists quote q, write_attr (n, v) = 32 :: n ++ chr "=" :: quote :: escape v q ++ [quote] /\
  (quote = DQUOTE \/ quote = SQUOTE) /\ Forall (fun c => c = quote -> quote = DQUOTE /\ q = true) v.
Proof.
  unfold write_attr. destruct (existsb _ v) eqn:He.
  - destruct (contains DQUOTE v) eqn:Hd; [destruct (contains SQUOTE v) eqn:Hs|].
    + exists DQUOTE, true. split; [done|]. split; [by left|]. by apply Forall_forall.
    + exists SQUOTE, false. split; [done|]. split; [by right|].
      eapply Forall_impl; [by apply contains_false|]. by intros x Hx ->.
    + exists DQUOTE, false. split; [done|]. split; [by left|].
      eapply Forall_impl; [by apply contains_false|]. by intros x Hx ->.
  - exists DQUOTE, true. rewrite (escape_plain v He). split; [done|]. split; [by left|].
    by apply Forall_forall.
Qed.

Lemma no_nul_spec v : forallb (fun c => negb (c =? 0)) v = true -> no_nul v.
Proof.
  unfold no_nul. induction v as [|c v IH]; [constructor|]. cbn [forallb].
  intros [Hc Hv]%andb_prop. constructor; [by destruct (Z.eqb_spec c 0)|by apply IH].
Qed.

Lemma name_ok_shape n : name_ok n = true ->
  exists c r, n = c :: r /\ is_name_start c = true /\ forallb is_name_char r = true.
Proof. destruct n as [|c r]; [done|]. intros [Hc Hr]%andb_prop. eauto. Qed.

Lemma name_start_plain c : is_name_start c = true ->
  is_space c = false /\ c <> 0 /\ c <> chr "/" /\ c <> chr ">" /\ c <> chr "!" /\ c <> chr "?".
Proof.
  unfold is_name_start, is_alnum, is_alpha, is_digit, is_space. unfold chr. simpl.
  intros H. repeat split; try (intros ->; discriminate H).
  rewrite !orb_true_iff, !andb_true_iff, !Z.eqb_eq, !Z.leb_le in H.
  rewrite orb_false_iff, andb_false_iff, Z.eqb_neq, !Z.leb_gt.
  change (Z.of_nat (nat_of_ascii ":")) with 58 in H. change (Z.of_nat (nat_of_ascii "_")) with 95 in H. lia.
Qed.

Lemma drop_while_head c r : is_space c = false -> drop_while is_space (c :: r) = c :: r.
Proof. cbn [drop_while]. by intros ->. Qed.

Definition closing (empty : bool) : bytes := if empty then str "/>" else str ">".

Lemma closing_head empty : exists c r, closing empty = c :: r /\ is_space c = false /\
  (c =? chr "/") = empty /\ (c =? chr ">") = negb empty.
Proof. destruct empty; do 2 eexists; done. Qed.

Lemma runs_read_attr fuel c n v quote q acc a r l es F s (Q : smap -> Parser -> Prop) :
  name_ok (c :: n) = true -> no_nul v -> keys_from None (acc ++ (c :: n, v) :: a) ->
  quote = DQUOTE \/ quote = SQUOTE ->
  Forall (fun c => c = quote -> quote = DQUOTE /\ q = true) v -> (length v < fuel)%nat ->
  At (n ++ chr "=" :: quote :: escape v q ++ quote :: r) l es F s ->
  (forall s' l', At r l' es F s' -> Q (acc ++ [(c :: n, v)]) s') -> runs (read_attr fuel c acc) s Q.
Proof.
  intros [Hc Hn]%andb_prop Hv Hk Hquote Hvq Hf Hs HQ. unfold read_attr. rewrite Hc. cbn [negb].
  eapply run_bind, runs_name; [exact Hs|done|done|]. intros s1 Hs1.
  rewrite (map_find_before _ _ _ _ _ Hk). apply keys_from_prefix in Hk. eapply run_bind.
  change (is_space (chr "=")) with false. apply run_ret.
  change (negb (chr "=" =? chr "=")) with false. cbv iota.
  eapply run_bind, runs_skip_ws; [exact Hs1| |].
  { apply drop_while_head. by destruct Hquote as [-> | ->]. }
  intros s2 Hs2. destruct (negb _) eqn:Hneg; [by destruct Hquote as [-> | ->]|].
  eapply run_bind, runs_attr_value; [done|done|done|done|exact Hs2|].
  intros s3 Hs3. apply run_ret. cbn [app]. rewrite (map_set_snoc _ _ _ None Hk). by eapply HQ.
Qed.

Lemma runs_read_attrs fuel c a acc empty r0 r l es F s (Q : bool * smap -> Parser -> Prop) :
  Forall (fun '(n, v) => name_ok n = true /\ no_nul v) a -> keys_from None (acc ++ a) ->
  flat_map write_attr a ++ closing empty ++ r = c :: r0 -> (length r0 < fuel)%nat ->
  At r0 l es F s ->
  (forall s' l', At r l' es F s' -> Q (empty, acc ++ a) s') -> runs (read_attrs fuel c acc) s Q.
Proof.
  revert c a acc r0 l s. induction fuel as [|fuel IH]; intros c a acc r0 l s Ha Hk Hr Hf Hs HQ; [lia|].
  cbn [read_attrs]. destruct a as [|[n v] a]; cbn [flat_map app] in Hr.
  - rewrite app_nil_r in HQ. destruct empty; injection Hr as <- <-; cbn -[chr str]; apply run_bind, run_ret.
    + change (chr "/" =? chr "/") with true. cbv iota. eapply run_bind, runs_get; [exact Hs|].
      intros s1 Hs1. by eapply run_ret, HQ.
    + by eapply run_ret, HQ.
  - apply Forall_cons in Ha as [[Hn Hv] Ha].
    destruct (write_attr_shape n v) as (quote & q & Hw & Hquote & Hvq).
    rewrite Hw in Hr. destruct (name_ok_shape n Hn) as (x & m & -> & Hx & Hm).
    cbn [app] in Hr. injection Hr as <- <-. change (is_space 32) with true.
    change ((32 =? chr "/") || (32 =? chr ">")) with false. cbn [orb negb].
    destruct (name_start_plain x Hx) as (Hsp & H0 & Hsl & Hgt & _).
    eapply run_bind, runs_skip_ws; [exact Hs|by apply drop_while_head|]. intros s1 Hs1.
    rewrite (proj2 (Z.eqb_neq _ _) Hsl), (proj2 (Z.eqb_neq _ _) Hgt).
    rewrite <- !app_assoc in Hs1. cbn [app] in Hs1. rewrite <- !app_assoc in Hs1. cbn [app] in Hs1.
    rewrite <- !app_assoc in Hf.
    set (tail := flat_map write_attr a ++ closing empty ++ r) in *.
    eapply run_bind, runs_read_attr; [exact Hn|exact Hv|exact Hk|exact Hquote|exact Hvq| |exact Hs1|].
    { lens Hf. pose proof (escape_length q v). lia. }
    intros s2 l2 Hs2. destruct tail as [|y tail'] eqn:Htail.
    { subst tail. destruct (closing_head empty) as (z & w & Hz & _). rewrite Hz in Htail.
      by apply app_eq_nil in Htail as [_ ?]. }
    eapply run_bind, runs_get; [exact Hs2|]. intros s3 Hs3.
    eapply (IH _ a); [exact Ha| |exact Htail| |exact Hs3|].
    + by rewrite <- app_assoc.
    + apply (f_equal length) in Htail. cbn [length] in Htail. lens Hf. lia.
    + intros s4 l4 Hs4. rewrite <- app_assoc. by eapply HQ.
Qed.

Section document.
Context (fl : Z) (ro : option Element) (ns : list smap) (er : Z) (se : bytes).
Context (Hopt : (Z.land fl PARSER_OPTIMISE_CONTENT =? 0) = false)
  (Hpre : (Z.land fl PARSER_PRESERVE_WHITESPACE =? 0) = true)
  (Hfix : (Z.land fl PARSER_FIX_NAMESPACES =? 0) = true).
#[local] Abbreviation F := (fl, ro, ns, er, se).

Lemma at_flag f r l es s : At r l es F s -> flag f s = negb (Z.land fl f =? 0).
Proof. intros [_ _ _ HF]. unfold frame in HF. injection HF as <- _ _ _ _. done. Qed.

(** *** Content *)

(** A character of the content, not a blank *)
Lemma runs_item x y ry r c acc l es s (k : Z -> bytes -> P bytes) (Q : bytes -> Parser -> Prop) :
  x <> 0 -> escape_char false x = y :: ry -> At (ry ++ c :: r) l es F s ->
  (forall s', At r (Some c) es F s' -> runs (k c (acc ++ [x])) s' Q) ->
  runs (let! content :=
          (if y =? chr "&" then let! r := read_ref in ret (acc ++ r)
           else if y =? 0 then fatal (str "Unexpected end of stream")
           else modify (fun s => with_line (newline y (line s)) s) ;;; ret (acc ++ [y])) in
        let! c := get 0 in k c content) s Q.
Proof.
  intros H0 Hx Hs HQ. destruct (escape_char_cases false x) as (y' & r' & He & Hcase).
  rewrite Hx in He. injection He as <- <-. apply run_bind.
  destruct Hcase as [(Hc & -> & ->)|(H1 & H2 & -> & -> & _)].
  - change (chr "&" =? chr "&") with true. cbv iota. eapply run_bind, runs_read_ref; [|exact Hs|]; [tauto|].
    intros s1 Hs1. apply run_ret. eapply run_bind, runs_get; [exact Hs1|]. apply HQ.
  - rewrite (proj2 (Z.eqb_neq _ _) H2), (proj2 (Z.eqb_neq _ _) H0).
    eapply run_bind, runs_line; [exact Hs|]. intros s1 Hs1. apply run_ret.
    eapply run_bind, runs_get; [exact Hs1|]. apply HQ.
Qed.

Lemma escape_char_start x : is_space x = false ->
  exists y ry, escape_char false x = y :: ry /\ is_space y = false /\ (y =? chr "<") = false.
Proof.
  intros Hx. destruct (escape_char_cases false x) as (y & r & He & Hcase). exists y, r. split; [done|].
  destruct Hcase as [(_ & -> & _)|(H1 & _ & -> & _)]; [done|]. split; [done|]. by apply Z.eqb_neq.
Qed.

Lemma drop_while_spaces b r : forallb is_space b = true ->
  drop_while is_space (b ++ r) = drop_while is_space r.
Proof.
  induction b as [|c b IH]; [done|]. cbn [forallb app drop_while]. intros [-> Hb]%andb_prop. by apply IH.
Qed.

Lemma runs_content_loop fuel first c acc blank t r0 b r es s (Q : bytes -> Parser -> Prop) :
  text_from blank t = true -> (first = true -> t <> []) -> forallb is_space b = true ->
  escape t false ++ b ++ chr "<" :: r = c :: r0 -> (length t < fuel)%nat ->
  At r0 (Some c) es F s ->
  (forall s', At (chr "<" :: r) None es F s' -> Q (acc ++ t) s') ->
  runs (content_loop fuel c first acc) s Q.
Proof.
  revert first c acc blank t r0 s. induction fuel as [|fuel IH];
    intros first c acc blank t r0 s Ht Hfirst Hb Hr Hf Hs HQ; [lia|].
  assert (forall x acc' blank' t' y ry l s', is_space x = false -> x <> 0 -> 
    text_from blank' t' = true -> (length t' < fuel)%nat -> escape_char false x = y :: ry ->
    At (ry ++ escape t' false ++ b ++ chr "<" :: r) l es F s' ->
    (forall s2, At (chr "<" :: r) None es F s2 -> Q ((acc' ++ [x]) ++ t') s2) ->
    runs (let! content :=
          (if y =? chr "&" then let! r := read_ref in ret (acc' ++ r)
           else if y =? 0 then fatal (str "Unexpected end of stream")
           else modify (fun s => with_line (newline y (line s)) s) ;;; ret (acc' ++ [y])) in
        let! c := get 0 in content_loop fuel c false content) s' Q) as Hitem.
  { intros x acc' blank' t' y ry l s' Hx H0 Ht' Hf' Hy Hs' HQ'.
    destruct (escape t' false ++ b ++ chr "<" :: r) as [|c2 r2] eqn:Hr2.
    { by apply app_eq_nil in Hr2 as [_ [_ [=]]%app_eq_nil]. }
    eapply (runs_item x _ _ _ _ _ _ _ _ (fun c content => content_loop fuel c false content));
      [done|exact Hy|exact Hs'|]. intros s2 Hs2. eapply IH; try done. }
  cbn [content_loop]. apply runs_get_st. rewrite (at_flag _ _ _ _ _ Hs), Hpre. cbn [negb andb].
  destruct t as [|x t]; [|cbn [text_from] in Ht; apply andb_prop in Ht as [H0 Ht];
    cbn [escape flat_map] in Hr; destruct (is_space x) eqn:Hx].
  - cbn [escape flat_map app] in Hr. rewrite app_nil_r in HQ.
    destruct b as [|c1 b]; cbn [app] in Hr; injection Hr as <- <-.
    + change (is_space (chr "<")) with false. cbv iota. apply run_bind, run_ret.
      destruct first; [by destruct Hfirst|]. change (chr "<" =? chr "<") with true. cbn [negb andb].
      eapply run_bind, runs_unget; [exact Hs|]. apply HQ.
    + cbn [forallb] in Hb. apply andb_prop in Hb as [-> Hb].
      eapply run_bind, run_bind, runs_skip_ws; [exact Hs|by rewrite drop_while_spaces, drop_while_head|].
      intros s1 Hs1. apply run_ret. change (chr "<" =? chr "<") with true. cbn [negb andb].
      eapply run_bind, runs_unget; [exact Hs1|]. apply HQ.
  - apply andb_prop in Ht as [[->%Z.eqb_eq Hbl]%andb_prop Ht].
    cbn [app] in Hr. injection Hr as <- <-. change (is_space 32) with true. cbv iota.
    destruct t as [|x2 t]; [done|]. cbn [text_from] in Ht. apply andb_prop in Ht as [H02 Ht].
    destruct (is_space x2) eqn:Hx2; [by rewrite andb_false_r in Ht|].
    destruct (escape_char_start x2 Hx2) as (y & ry & Hy & Hsy & Hlt).
    fold (escape (x2 :: t) false) in Hs. unfold escape in Hs. cbn [flat_map] in Hs. rewrite Hy in Hs.
    fold (escape t false) in Hs. cbn [app] in Hs. rewrite <- app_assoc in Hs.
    eapply run_bind, run_bind, runs_skip_ws; [exact Hs|by apply drop_while_head|].
    intros s1 Hs1. apply run_ret. rewrite Hlt. cbn [negb andb].
    eapply Hitem; [exact Hx2| |exact Ht| |exact Hy|exact Hs1|].
    + by destruct (Z.eqb_spec x2 0).
    + simpl in Hf. lia.
    + rewrite <- !app_assoc. apply HQ.
  - destruct (escape_char_start x Hx) as (y & ry & Hy & Hsy & Hlt). rewrite Hy in Hr.
    cbn [app] in Hr. rewrite <- app_assoc in Hr. injection Hr as <- <-. rewrite Hsy. cbv iota.
    apply run_bind, run_ret. rewrite Hlt. cbn [negb andb].
    eapply Hitem; [exact Hx| |exact Ht| |exact Hy|exact Hs|].
    + by destruct (Z.eqb_spec x 0).
    + simpl in Hf. lia.
    + rewrite <- !app_assoc. apply HQ.
Qed.

(** *** Turns of the main loop *)

(** What is left after blanks, and the open elements *)
Definition ready (X : bytes) (es : list Element) (s : Parser) : Prop :=
  drop_while is_space (rest s) = X /\ elements s = es /\ frame s = F.
Lemma at_ready r l es s : At r l es F s -> ready (drop_while is_space r) es s.
Proof. intros [Hr Hl He HF]. unfold ready. by rewrite Hr. Qed.

(** The turn that starts with the character [c] *)
Lemma runs_parse_step c r es s (Q : bool -> Parser -> Prop) : ready (c :: r) es s ->
  (forall s1, At r (Some c) es F s1 ->
    runs (if c =? 0 then
            (if has_root s then fatal (str "Input stream failed unexpectedly")
             else fatal (str "Empty or unreadable document"))
          else if c =? chr "<" then
            let! c := get c in
            if c =? chr "!" then
              let! c := get c in
              (if c =? chr "-" then
                 let! c := get c in
                 if c =? chr "-" then skip_comment else error (str "Weird comment") ;;; skip_to_gt
               else skip_to_gt) ;;;
              ret false
            else if c =? chr "?" then skip_pi ;;; ret false
            else if c =? chr "/" then
              let! c := get c in
              (if is_name_start c then read_end_tag c else fatal (str "Illegal end tag")) ;;;
              let! s := get_st in
              ret (match elements s with [] => true | _ => false end)
            else if is_name_start c then
              let! empty := read_tag c in
              let! s := get_st in
              ret (empty && match elements s with [] => true | _ => false end)
            else if flag PARSER_BE_LENIENT s then unget ;;; read_content (chr "<") ;;; ret false
            else fatal (str "Illegal tag")
          else if has_root s then read_content c ;;; ret false
          else fatal (str "Non-tag data at start of document")) s1 Q) ->
  runs parse_step s Q.
Proof.
  intros (Hr & He & HF) HQ. assert (At (rest s) (last s) es F s) as Hs by done.
  unfold parse_step. apply runs_get_st. rewrite (at_flag _ _ _ _ _ Hs), Hpre. cbn [negb].
  rewrite andb_false_r. eapply run_bind, runs_skip_ws; [exact Hs|exact Hr|exact HQ].
Qed.

Lemma final_processing_optimise e r l es s : At r l es F s -> final_processing e s = (optimise e, s).
Proof.
  intros Hs. unfold final_processing. rewrite !(at_flag _ _ _ _ _ Hs), Hopt, Hfix. cbn [negb].
  by destruct (ns_maps s).
Qed.
Lemma initial_processing_id e r l es s : At r l es F s -> initial_processing e s = s.
Proof. intros Hs. unfold initial_processing. by rewrite (at_flag _ _ _ _ _ Hs), Hfix. Qed.

(** After an element is closed *)
Definition closed (e : Element) (X : bytes) (es : list Element) (v : bool) (s : Parser) : Prop :=
  match es with
  | p :: es => v = false /\ ready X (Element.add p e :: es) s
  | [] => v = true /\ elements s = [] /\ (ro = None -> frame s = (fl, Some e, ns, er, se))
  end.
Lemma close_closed e r l es s : At r l es F s ->
  closed e (drop_while is_space r) es (match elements (close e s) with [] => true | _ => false end) (close e s).
Proof.
  intros [Hr Hl He HF]. unfold close, closed. rewrite He. destruct es as [|p es].
  - split; [done|]. split; [done|]. intros Hro. unfold frame in *. injection HF as <- Hroot <- <- <-.
    cbn. by rewrite Hroot, Hro.
  - split; [done|]. split; [cbn; by rewrite Hr|]. split; [done|]. done.
Qed.

Lemma tag_start c : is_name_start c = true ->
  (c =? chr "!") = false /\ (c =? chr "?") = false /\ (c =? chr "/") = false.
Proof. intros Hc. apply name_start_plain in Hc. rewrite !Z.eqb_neq. tauto. Qed.

(** A name is followed by something else. *)
Lemma tag_rest a empty r : exists x r0, flat_map write_attr a ++ closing empty ++ r = x :: r0 /\ is_name_char x = false.
Proof.
  destruct a as [|[n v] a].
  - destruct (closing_head empty) as (x & w & Hx & _). destruct empty; injection Hx as <- <-; by do 2 eexists.
  - destruct (write_attr_shape n v) as (quote & q & Hw & _). cbn [flat_map]. rewrite Hw. cbn [app].
    by do 2 eexists.
Qed.

Lemma step_tag n a empty r es s :
  name_ok n = true -> Forall (fun '(n, v) => name_ok n = true /\ no_nul v) a -> sorted a ->
  ready (chr "<" :: n ++ flat_map write_attr a ++ closing empty ++ r) es s ->
  runs parse_step s (fun v s' => exists ln,
    let e := mk_Element n [] a [] ln in
    if empty then closed e (drop_while is_space r) es v s'
    else v = false /\ ready (drop_while is_space r) (e :: es) s').
Proof.
  intros Hn Ha Hk Hs. eapply runs_parse_step; [exact Hs|]. intros s1 Hs1.
  change (chr "<" =? 0) with false. change (chr "<" =? chr "<") with true. cbv iota.
  destruct (name_ok_shape n Hn) as (c & m & -> & Hc & Hm). cbn [app] in Hs1.
  eapply run_bind, runs_get; [exact Hs1|]. intros s2 Hs2.
  destruct (tag_start c Hc) as (-> & -> & ->). rewrite Hc. unfold read_tag. apply run_bind, run_bind.
  destruct (tag_rest a empty r) as (x & r0 & Hx & Hxn). rewrite Hx in Hs2.
  eapply runs_name; [exact Hs2|done|done|]. intros s3 Hs3. apply runs_get_st, run_bind.
  eapply runs_read_attrs; [exact Ha|exact Hk|exact Hx| |exact Hs3|].
  { rewrite (at_rest _ _ _ _ _ Hs3). lia. }
  intros s4 l4 Hs4. set (e := mk_Element _ _ _ _ _). apply run_bind.
  unfold modify, runs at 1. rewrite (initial_processing_id e _ _ _ _ Hs4). apply runs_get_st, run_bind.
  destruct empty.
  - rewrite (final_processing_optimise e _ _ _ _ Hs4). unfold put_st, runs at 1. apply run_ret, runs_get_st, run_ret.
    exists (line s3). eapply close_closed, Hs4.
  - unfold put_st, runs at 1. apply run_ret, runs_get_st, run_ret. exists (line s3). split; [done|].
    destruct Hs4 as [Hr Hl He HF]. rewrite He. split; [by rewrite <- Hr|]. split; [done|]. done.
Qed.

Lemma step_end n e r es s : name_ok n = true -> name e = n ->
  ready (str "</" ++ n ++ str ">" ++ r) (e :: es) s ->
  runs parse_step s (closed (optimise e) (drop_while is_space r) es).
Proof.
  intros Hn He Hs. eapply runs_parse_step; [exact Hs|]. intros s1 Hs1.
  change (chr "<" =? 0) with false. change (chr "<" =? chr "<") with true. cbv iota.
  eapply run_bind, runs_get; [exact Hs1|]. intros s2 Hs2. cbn -[chr read_end_tag closed].
  destruct (name_ok_shape n Hn) as (c & m & -> & Hc & Hm). cbn [app] in Hs2.
  change (chr "/" =? chr "!") with false. change (chr "/" =? chr "?") with false.
  change (chr "/" =? chr "/") with true. cbv iota.
  eapply run_bind, runs_get; [exact Hs2|]. intros s3 Hs3. rewrite Hc. apply run_bind. unfold read_end_tag.
  eapply run_bind, runs_name; [exact Hs3|done|done|]. intros s4 Hs4.
  change (is_space (chr ">")) with false. cbv iota. apply run_bind, run_ret.
  change (negb (chr ">" =? chr ">")) with false. cbv iota. apply runs_get_st.
  rewrite (at_elements _ _ _ _ _ Hs4). unfold key_eqb. rewrite He, key_cmp_refl.
  assert (At r (Some (chr ">")) es F (with_tree es (root s4) s4)) as Hs5 by (by destruct Hs4).
  rewrite (final_processing_optimise e _ _ _ _ Hs5). unfold put_st, runs at 1.
  apply runs_get_st, run_ret. eapply close_closed, Hs5.
Qed.

Lemma add_content_new preserve t e :
  match List.last (children e) (new_Element [chr "x"] []) with c => is_data c = false end ->
  add_content preserve t e = Element.add e (new_Element [] t).
Proof.
  unfold add_content. destruct (children e) as [|c l] using rev_ind; [done|].
  rewrite List.last_last, List.rev_app_distr. cbn. unfold is_data. by destruct (name c).
Qed.

Lemma step_content t b r e es s : text_ok t = true -> forallb is_space b = true ->
  is_data (List.last (children e) (new_Element [chr "x"] [])) = false ->
  ready (escape t false ++ b ++ chr "<" :: r) (e :: es) s ->
  runs parse_step s (fun v s' => v = false /\
    ready (chr "<" :: r) (Element.add e (new_Element [] t) :: es) s').
Proof.
  intros Ht Hb He Hs. destruct t as [|x t]; [done|]. unfold text_ok in Ht. pose proof Ht as Ht'.
  cbn [text_from] in Ht'. apply andb_prop in Ht' as [H0 Ht'].
  destruct (is_space x) eqn:Hx; [by rewrite andb_false_r in Ht'|].
  destruct (escape_char_start x Hx) as (y & ry & Hy & Hsy & Hlt).
  destruct (escape (x :: t) false ++ b ++ chr "<" :: r) as [|y' r0] eqn:Hr0.
  { by apply app_eq_nil in Hr0 as [_ [_ [=]]%app_eq_nil]. }
  assert (y' = y) as -> by (unfold escape in Hr0; cbn [flat_map] in Hr0; rewrite Hy in Hr0; by injection Hr0).
  eapply runs_parse_step; [exact Hs|]. intros s1 Hs1. rewrite Hlt.
  assert ((y =? 0) = false) as ->.
  { destruct (escape_char_cases false x) as (y2 & r2 & Hy2 & Hcase). rewrite Hy in Hy2.
    injection Hy2 as <- <-. apply Z.eqb_neq. destruct Hcase as [(_ & -> & _)|(_ & _ & -> & _)]; [done|].
    by destruct (Z.eqb_spec x 0). }
  assert (has_root s = true) as -> by (destruct Hs as (_ & Hes & _); unfold has_root; by rewrite Hes).
  apply run_bind. unfold read_content. apply runs_get_st, run_bind.
  eapply runs_content_loop; [exact Ht|done|exact Hb|exact Hr0| |exact Hs1|].
  { rewrite (at_rest _ _ _ _ _ Hs1). apply (f_equal length) in Hr0. lens Hr0.
    pose proof (escape_length false (x :: t)) as Hl. cbn [length] in *. lia. }
  intros s2 [Hr2 Hl2 He2 HF2]. apply runs_get_st. rewrite He2. unfold put_st, runs at 1. apply run_ret.
  split; [done|]. rewrite add_content_new by exact He. split; [cbn; by rewrite Hr2|]. split; [done|]. done.
Qed.

(** *** Elements *)

Definition goes_on (s s' : Parser) : Prop := parse_step s = (Val false, s').
Lemma runs_goes_on s (Q : Parser -> Prop) :
  runs parse_step s (fun v s' => v = false /\ Q s') -> exists s', goes_on s s' /\ Q s'.
Proof.
  unfold runs, goes_on. destruct (parse_step s) as [[v|e] s']; [|done]. intros [-> HQ]. eauto.
Qed.

(** [e] is read as the next child of the open element. *)
Definition child_runs (e : Element) : Prop := printable e = true -> forall indent p es s r,
  ready (drop_while is_space (write_indented indent e ++ r)) (p :: es) s ->
  (is_data e = true -> is_data (List.last (children p) (new_Element [chr "x"] [])) = false /\
     exists r', drop_while is_space r = chr "<" :: r') ->
  exists s' e', rtc goes_on s s' /\ ready (drop_while is_space r) (Element.add p e' :: es) s' /\
    deep_copy e' = deep_copy e.

Lemma spaces_blank i : forallb is_space (spaces i) = true.
Proof. unfold spaces. by induction i. Qed.
Lemma drop_while_split r c r' : drop_while is_space r = c :: r' ->
  exists b, forallb is_space b = true /\ r = b ++ c :: r'.
Proof.
  induction r as [|x r IH]; [done|]. cbn [drop_while]. destruct (is_space x) eqn:Hx.
  - intros H. destruct (IH H) as (b & Hb & ->). exists (x :: b). cbn [forallb app]. by rewrite Hx, Hb.
  - intros [= -> ->]. by exists [].
Qed.
Lemma text_head t : text_ok t = true -> exists y r, escape t false = y :: r /\ is_space y = false.
Proof.
  destruct t as [|x t]; [done|]. unfold text_ok. cbn [text_from]. intros [H0 Ht]%andb_prop.
  destruct (is_space x) eqn:Hx; [by rewrite andb_false_r in Ht|].
  destruct (escape_char_start x Hx) as (y & ry & Hy & Hsy & _).
  unfold escape. cbn [flat_map]. rewrite Hy. by do 2 eexists.
Qed.
Lemma written_head indent e r : is_data e = false ->
  exists r', drop_while is_space (write_indented indent e ++ r) = chr "<" :: r'.
Proof.
  destruct e as [n c a l ln]. unfold is_data. cbn [name]. destruct n as [|x n]; [done|]. intros _.
  cbn [write_indented]. rewrite <- app_assoc, drop_while_spaces by apply spaces_blank.
  cbn [app]. rewrite drop_while_head by done. by eexists.
Qed.
Lemma deep_copy_data e e' : deep_copy e' = deep_copy e -> is_data e' = is_data e.
Proof. destruct e, e'. simpl. by intros [= -> _ _ _]. Qed.
Lemma add_children_assoc p e l : with_children (Element.add p e) (children (Element.add p e) ++ l) =
  with_children p (children p ++ e :: l).
Proof. unfold Element.add, with_children. cbn. by rewrite <- app_assoc. Qed.

Lemma children_run l : Forall child_runs l -> forallb printable l = true -> forall indent p es s r r',
  apart (is_data (List.last (children p) (new_Element [chr "x"] []))) l = true ->
  ready (drop_while is_space (flat_map (write_indented indent) l ++ r)) (p :: es) s ->
  drop_while is_space r = chr "<" :: r' ->
  exists s' l', rtc goes_on s s' /\
    ready (drop_while is_space r) (with_children p (children p ++ l') :: es) s' /\
    map deep_copy l' = map deep_copy l.
Proof.
  induction l as [|e l IH]; intros Hl Hp indent p es s r r' Ha Hs Hr.
  - exists s, []. split; [done|]. rewrite app_nil_r. destruct p. split; [exact Hs|done].
  - apply Forall_cons in Hl as [He Hl]. cbn [forallb apart flat_map] in *.
    apply andb_prop in Hp as [Hpe Hp]. apply andb_prop in Ha as [Had Ha].
    rewrite <- app_assoc in Hs. destruct (He Hpe _ _ _ _ _ Hs) as (s1 & e' & H1 & Hs1 & Hc1).
    { intros Hd. rewrite Hd in *. split; [by destruct (is_data _)|].
      destruct l as [|e2 l]; [by eexists|]. cbn [apart flat_map] in *.
      rewrite <- app_assoc. apply written_head. by destruct (is_data e2). }
    destruct (IH Hl Hp indent (Element.add p e') es s1 r r') as (s2 & l' & H2 & Hs2 & Hc2); [|exact Hs1|exact Hr|].
    { unfold Element.add. cbn [children with_children]. rewrite List.last_last.
      by rewrite (deep_copy_data _ _ Hc1). }
    exists s2, (e' :: l'). split; [by transitivity s1|]. rewrite add_children_assoc in Hs2.
    split; [exact Hs2|]. simpl. by rewrite Hc1, Hc2.
Qed.

Lemma attrs_ok_spec k a : attrs_ok k a = true ->
  Forall (fun '(n, v) => name_ok n = true /\ no_nul v) a /\ keys_from k a.
Proof.
  revert k. induction a as [|[n v] a IH]; intros k; [done|]. cbn [attrs_ok].
  intros [[[Hn Hv]%andb_prop Hk]%andb_prop Ha]%andb_prop. destruct (IH _ Ha) as [H1 H2].
  split; [constructor; [split; [done|by apply no_nul_spec]|done]|]. split; [|done].
  destruct k as [k|]; [|done]. by destruct (key_cmp k n).
Qed.

Lemma optimise_id p l l' : map deep_copy l' = map deep_copy l ->
  match l with [d] => negb (is_data d) | _ => true end = true ->
  optimise (with_children p l') = with_children p l'.
Proof.
  intros Hl Hd. unfold optimise. cbn [children with_children].
  destruct l' as [|d' [|]]; [done| |done]. destruct l as [|d [|]]; [done| |done].
  injection Hl as Hl. apply deep_copy_data in Hl. rewrite <- Hl in Hd. unfold is_data in Hd.
  by destruct (name d').
Qed.

(** An element that is not data is read up to the turn that closes it. *)
Lemma element_run e indent es s r : Forall child_runs (children e) -> printable e = true -> is_data e = false ->
  ready (drop_while is_space (write_indented indent e ++ r)) es s ->
  exists s1 v s2 e', rtc goes_on s s1 /\ parse_step s1 = (Val v, s2) /\
    closed e' (drop_while is_space r) es v s2 /\ deep_copy e' = deep_copy e.
Proof.
  destruct e as [n c a l ln]. unfold is_data. cbn [name children]. intros Hl Hp Hd Hs.
  destruct n as [|x n']; [done|]. cbn [printable write_indented] in *. set (n := x :: n') in *.
  rewrite <- app_assoc, drop_while_spaces in Hs by apply spaces_blank.
  cbn [app] in Hs. rewrite drop_while_head in Hs by done. rewrite <- !app_assoc in Hs.
  apply andb_prop in Hp as [[Hn [Ha Hk]%attrs_ok_spec]%andb_prop Hp].
  assert (forall e s3, rtc goes_on s s3 -> name e = n ->
    ready (str "</" ++ n ++ str ">" ++ endl ++ r) (e :: es) s3 ->
    deep_copy (optimise e) = deep_copy (mk_Element n c a l ln) ->
    exists s1 v s2 e', rtc goes_on s s1 /\ parse_step s1 = (Val v, s2) /\
      closed e' (drop_while is_space r) es v s2 /\ deep_copy e' = deep_copy (mk_Element n c a l ln)) as Hend.
  { intros e s3 H3 Hen Hs3 Hc. pose proof (step_end _ _ _ _ _ Hn Hen Hs3) as H. unfold runs in H.
    destruct (parse_step s3) as [[v|] s4] eqn:Hstep; [|done]. exists s3, v, s4, (optimise e). auto. }
  destruct l as [|d l].
  { destruct c as [|c0 c].
    - cbn [app] in Hs. pose proof (step_tag _ _ true (endl ++ r) _ _ Hn Ha Hk Hs) as H. unfold runs in H.
      destruct (parse_step s) as [[v|] s1] eqn:Hstep; [|done]. destruct H as [ln' H].
      exists s, v, s1. eexists. split; [done|]. split; [done|]. split; [exact H|]. done.
    - set (t := c0 :: c) in *. cbn [app] in Hs. rewrite <- !app_assoc in Hs.
      pose proof (step_tag _ _ false (escape t false ++ str "</" ++ n ++ str ">" ++ endl ++ r) _ _ Hn Ha Hk Hs) as H.
      unfold runs in H. destruct (parse_step s) as [[v|] s1] eqn:Hstep; [|done]. destruct H as (ln' & -> & Hs1).
      destruct (text_head t Hp) as (y & w & Hy & Hsy).
      rewrite Hy in Hs1. cbn [app] in Hs1. rewrite drop_while_head in Hs1 by done.
      change (y :: w ++ str "</" ++ n ++ str ">" ++ endl ++ r)
        with ((y :: w) ++ [] ++ chr "<" :: chr "/" :: n ++ str ">" ++ endl ++ r) in Hs1.
      rewrite <- Hy in Hs1.
      destruct (runs_goes_on _ _ (step_content t [] _ (mk_Element n [] a [] ln') _ _ Hp eq_refl eq_refl Hs1)) as (s2 & H2 & Hs2).
      eapply Hend; [eapply rtc_l; [exact Hstep|by eapply rtc_once]| |exact Hs2|]; done. }
  apply andb_prop in Hp as [[[Hc Hpl]%andb_prop Hap]%andb_prop Hsingle].
  destruct c; [|done]. cbn [app] in Hs. rewrite <- !app_assoc in Hs.
  pose proof (step_tag _ _ false (endl ++ flat_map (write_indented (indent + 2)) (d :: l) ++ spaces indent ++
    str "</" ++ n ++ str ">" ++ endl ++ r) es s Hn Ha Hk Hs) as H.
  unfold runs in H. destruct (parse_step s) as [[v|] s1] eqn:Hstep; [|by destruct H].
  destruct H as (ln' & -> & Hs1). rewrite drop_while_spaces in Hs1 by done.
  destruct (children_run (d :: l) Hl Hpl (indent + 2)%nat (mk_Element n [] a [] ln') es s1 _ (chr "/" :: n ++ str ">" ++ endl ++ r) Hap Hs1)
    as (s2 & l' & H2 & Hs2 & Hc2); [by rewrite drop_while_spaces by apply spaces_blank|].
  rewrite drop_while_spaces in Hs2 by apply spaces_blank.
  eapply Hend; [eapply rtc_l; [exact Hstep|exact H2]| |exact Hs2|]; [done|].
  cbn [children app]. rewrite (optimise_id _ (d :: l)) by done. cbn [deep_copy with_children]. by rewrite Hc2.
Qed.

Lemma child_run e : child_runs e.
Proof.
  induction e as [n c a l ln IH] using Element_ind_nested. intros Hp indent p es s r Hs Hd.
  destruct (is_data (mk_Element n c a l ln)) eqn:Hdata.
  - destruct n; [|done]. destruct (Hd eq_refl) as (Hlast & r' & Hr'). cbn [printable write_indented] in *.
    apply andb_prop in Hp as [[Ht Ha]%andb_prop Hl]. destruct a; [|done]. destruct l; [|done].
    rewrite <- !app_assoc, drop_while_spaces in Hs by apply spaces_blank.
    destruct (text_head c Ht) as (y & w & Hy & Hsy). rewrite Hy in Hs. cbn [app] in Hs.
    rewrite drop_while_head in Hs by done. change (y :: w ++ endl ++ r) with ((y :: w) ++ endl ++ r) in Hs.
    rewrite <- Hy in Hs. destruct (drop_while_split _ _ _ Hr') as (b & Hb & ->).
    destruct (runs_goes_on _ _ (step_content c (endl ++ b) r' p es s Ht Hb Hlast Hs)) as (s2 & H2 & Hs2).
    exists s2, (new_Element [] c). split; [by apply rtc_once|]. rewrite Hr'. split; [exact Hs2|done].
  - destruct (element_run (mk_Element n c a l ln) _ _ _ _ IH Hp Hdata Hs) as (s1 & v & s2 & e' & H1 & H2 & [-> Hs2] & Hc).
    exists s2, e'. split; [|by split]. eapply rtc_r; [exact H1|exact H2].
Qed.

Lemma parse_loop_run s s1 s2 fuel : rtc goes_on s s1 -> parse_step s1 = (Val true, s2) ->
  (size s < fuel)%nat -> parse_loop fuel s = (Val tt, s2).
Proof.
  intros H Hlast. revert fuel. induction H as [s|s s3 s1 Hstep _ IH]; intros fuel Hf;
    (destruct fuel as [|fuel]; [lia|]); cbn [parse_loop]; unfold bind.
  - by rewrite Hlast.
  - rewrite Hstep. apply IH; [done|].
    pose proof (wp_parse_step s (fun _ s' => (size s' < size s)%nat) (fun _ _ H _ _ => H)) as Hw.
    unfold wp in Hw. rewrite Hstep in Hw. lia.
Qed.

End document.

Lemma skip_pi_prolog s r : rest s = drop 2 prolog ++ r ->
  exists s', skip_pi s = (Val tt, s') /\ rest s' = 10 :: r /\ elements s' = elements s /\ frame s' = frame s.
Proof.
  intros Hr. unfold skip_pi, skip_by. rewrite Hr.
  assert (skip_pi_from (drop 2 prolog ++ r) (line s) = (true, 10 :: r, line s)) as -> by done.
  eexists. split; [reflexivity|]. done.
Qed.

(** C4: what [to_string] writes, the parser reads back: a printable element,
    written with or without the prolog, parsed by any parser that optimises
    content and neither preserves white space nor fixes namespaces, is the
    root that [get_root] gives, up to the line numbers; and the parser has
    logged nothing. *)
Theorem xml_roundtrip e with_pi s :
  printable e = true -> is_data e = false ->
  flag PARSER_OPTIMISE_CONTENT s = true -> flag PARSER_PRESERVE_WHITESPACE s = false ->
  flag PARSER_FIX_NAMESPACES s = false ->
  exists s' e', read_from (to_string e with_pi) s = (Val tt, s') /\ get_root s' = Some e' /\
    deep_copy e' = deep_copy e /\ errors s' = errors s /\ serr s' = serr s.
Proof.
  intros Hp Hd Hopt Hpre Hfix. unfold flag in *.
  apply negb_true_iff in Hopt. apply negb_false_iff in Hpre, Hfix.
  pose proof (element_run (flags s) None [] (errors s) (serr s) Hopt Hpre Hfix e 0 []) as Hrun.
  set (s0 := with_ns [] (with_tree [] None (with_hex false (with_stream (to_string e with_pi) None s)))).
  assert (exists s1, skip_bom s0 = (Val tt, s1) /\ rest s1 = to_string e with_pi /\ elements s1 = [] /\
    frame s1 = (flags s, None, [], errors s, serr s)) as (s1 & Hbom & Hr1 & He1 & HF1).
  { assert (exists r, to_string e with_pi = chr "<" :: r) as [r Hr].
    { unfold to_string. destruct with_pi; [by eexists|]. destruct e as [n c a l ln].
      unfold is_data in Hd. cbn [name] in Hd. destruct n as [|x n]; [done|]. by eexists. }
    unfold s0. rewrite Hr. eexists. split; [reflexivity|]. done. }
  assert (exists s2, rtc goes_on s1 s2 /\
    ready (flags s) None [] (errors s) (serr s) (drop_while is_space (write_indented 0 e ++ [])) [] s2)
    as (s2 & H12 & Hs2).
  { rewrite app_nil_r. unfold to_string in Hr1.
    destruct with_pi; [|by exists s1; split; [|split; [by rewrite Hr1|]]].
    set (w := write_indented 0 e) in *.
    destruct (runs_goes_on s1 (fun s2 =>
      ready (flags s) None [] (errors s) (serr s) (drop_while is_space w) [] s2)) as (s2 & H2 & Hs2).
    - eapply (runs_parse_step (flags s) None [] (errors s) (serr s) Hopt Hpre Hfix (chr "<") (drop 1 prolog ++ w) []).
      { split; [by rewrite Hr1|]. done. }
      intros s2 Hs2. change (chr "<" =? 0) with false. change (chr "<" =? chr "<") with true. cbv iota.
      eapply run_bind, runs_get; [exact Hs2|]. intros s3 [Hr3 _ He3 HF3].
      change (chr "?" =? chr "!") with false. change (chr "?" =? chr "?") with true. cbv iota.
      destruct (skip_pi_prolog s3 w Hr3) as (s4 & H4 & Hr4 & He4 & HF4).
      apply run_bind. unfold runs at 1. rewrite H4. apply run_ret. split; [done|].
      split; [by rewrite Hr4|]. split; congruence.
    - exists s2. split; [by apply rtc_once|done]. }
  destruct (Hrun s2 []) as (s3 & v & s4 & e' & H23 & H34 & Hc & Hcopy); [|done|done|exact Hs2|].
  { apply Forall_forall. intros c _. by apply child_run. }
  destruct Hc as (-> & He4 & HF4). specialize (HF4 eq_refl). unfold frame in HF4.
  injection HF4 as _ Hroot _ Herr Hserr.
  exists s4, e'. unfold read_from, parse_stream, bind, modify. fold s0. rewrite Hbom. unfold get_st.
  rewrite (parse_loop_run s1 s3 s4) by (done || by transitivity s2 || (unfold size; lia)).
  unfold get_root. rewrite He4. done.
Qed.
Definition sample : Element :=
  mk_Element (str "a") [] [(str "x", str "1 < " ++ [DQUOTE; SQUOTE]); (str "y:z", [])]
    [mk_Element (str "b") (str "hello & world") [] [] 0; new_Element [] (str "loose > text");
     mk_Element (str "c") [] [] [] 0] 0.
Lemma xml_roundtrip_witness : exists s' e',
  read_from (to_string sample true) (init [] PARSER_OPTIMISE_CONTENT []) = (Val tt, s') /\
  get_root s' = Some e' /\ deep_copy e' = deep_copy sample /\ errors s' = 0 /\ serr s' = [].
Proof. apply (xml_roundtrip sample true (init [] PARSER_OPTIMISE_CONTENT [])); reflexivity. Defined.

End XmlRound.
