(* ===== verification/XPath.v ===== *)
(** * XPath, as far as it goes

    Models [src/libs/xml/xpath.cc]: paths of child steps [x/y[3]/z] and a last
    attribute step.  An element is found as its position below the root of the
    processor; operations that change the document give the new root, and
    [None] where the code deletes the root under the processor. *)
From S2P Require Export Element.

Module XPath.

(** The step that starts a path: its name, its count from 0 ([-1] without
    one), and the path after the step's [/] if there is one. *)
Definition step_of (p : bytes) : bytes * Z * option bytes :=
  let delim := default (zlen p) (Strings.find_first (Z.eqb (chr "/")) p) in
  let next := if delim =? zlen p then None else Some (zdrop (delim + 1) p) in
  match Strings.find_first (Z.eqb (chr "[")) p with
  | Some bopen =>
    if bopen <? delim then
      let count :=
        match Strings.find (chr "]") p bopen with
        | Some bclose =>
          if (bclose <? delim) && (bclose - bopen >? 1)
          then i32 (stoi (Strings.substr p (bopen + 1) (bclose - bopen - 1)) - 1) else -1
        | None => -1
        end in
      (ztake bopen p, count, next)
    else (ztake delim p, -1, next)
  | None => (ztake delim p, -1, next)
  end.

(** The loop: [pos] is the position of [current], [None] only without fuel. *)
Fixpoint elements_from (fuel : nat) (pos : list nat) (current : Element) (path : bytes) :
    option (list (list nat)) :=
  match fuel with
  | O => None
  | S fuel =>
    let path := match path with c :: p => if c =? chr "/" then p else path | [] => [] end in
    match path with
    | [] => Some [pos]
    | _ =>
      let '(name, count, next) := step_of path in
      match next, count <? 0 with
      | None, true => Some (map (fun i => pos ++ [i]) (get_children current name))
      | _, _ =>
        match get_child current name (if count <? 0 then 0 else count) with
        | None => Some []
        | Some i =>
          match next, children current !! i with
          | Some path, Some child => elements_from fuel (pos ++ [i]) child path
          | _, _ => Some [pos ++ [i]]
          end
        end
      end
    end
  end.
Definition get_elements (root : Element) (path : bytes) : list (list nat) :=
  default [] (elements_from (S (length path)) [] root path).

Definition get_element (root : Element) (path : bytes) : option (list nat) := head (get_elements root path).

(** The path before the last [@] and the attribute after it *)
Definition attribute_step (path : bytes) : option (bytes * bytes) :=
  match Strings.find_last (Z.eqb (chr "@")) path with
  | Some att => Some (ztake att path, zdrop (att + 1) path)
  | None => None
  end.

Definition element_at (root : Element) (path : bytes) : option Element :=
  pos ← get_element root path; node_at root pos.

Definition get_value (root : Element) (path def : bytes) : bytes :=
  match attribute_step path with
  | Some (spath, aname) =>
    match element_at root spath with Some e => get_attr e aname def | None => def end
  | None => match element_at root path with Some e => get_content e | None => def end
  end.

Definition get_value_bool (root : Element) (path : bytes) (def : bool) : bool :=
  match get_value root path [] with
  | [] => def
  | c :: _ => existsb (Z.eqb c) (str "TtYy")
  end.
Definition get_value_int (root : Element) (path : bytes) (def : Z) : Z :=
  match get_value root path [] with [] => def | v => stoi v end.
(** [sscanf] of [%x], which leaves the default without a number *)
Definition get_value_hex (root : Element) (path : bytes) (def : Z) : Z :=
  match get_value root path [] with
  | [] => def
  | v => match scan_number 16 v with Some _ => xtoi v | None => def end
  end.
Definition get_value_int64 (root : Element) (path : bytes) (def : Z) : Z :=
  match get_value root path [] with [] => def | v => stoi64 v end.
Definition get_value_hex64 (root : Element) (path : bytes) (def : Z) : Z :=
  match get_value root path [] with [] => def | v => xtoi64 v end.

(** ** Changing the document *)

(** Whether the value was set, and the root. *)
Definition set_value (root : Element) (path value : bytes) : bool * Element :=
  match attribute_step path with
  | Some (spath, aname) =>
    match get_element root spath with
    | Some pos => (true, change_at root pos (fun e => set_attr e aname value))
    | None => (false, root)
    end
  | None =>
    match get_element root path with
    | Some pos => (true, change_at root pos (fun e => with_content e value))
    | None => (false, root)
    end
  end.
Definition set_value_bool (root : Element) (path : bytes) (value : bool) : bool * Element :=
  set_value root path (if value then str "yes" else str "no").
Definition set_value_int (root : Element) (path : bytes) (value : Z) : bool * Element :=
  set_value root path (itos value).
Definition set_value_hex (root : Element) (path : bytes) (value : Z) : bool * Element :=
  set_value root path (print_base 16 (u32 value)).
Definition set_value_int64 (root : Element) (path : bytes) (value : Z) : bool * Element :=
  set_value root path (i64tos value).
Definition set_value_hex64 (root : Element) (path : bytes) (value : Z) : bool * Element :=
  set_value root path (i64tox value).

(** [detach] and [delete] of the element at a position; [None]: of the root *)
Definition delete_at (root : Element) (pos : list nat) : option Element :=
  match List.rev pos with
  | [] => None
  | i :: parent => Some (change_at root (List.rev parent) (fun p => detach p i))
  end.
(** The elements are children of one parent in ascending order: deleting the
    last one first keeps the positions of the others. *)
Definition delete_elements (root : Element) (path : bytes) : option (bool * Element) :=
  let els := get_elements root path in
  root' ← fold_right (fun pos r => r ← r; delete_at r pos) (Some root) els;
  Some (negb (bool_decide (els = [])), root').

Definition add_element (root : Element) (path : bytes) (ne : Element) : bool * Element :=
  match get_element root path with
  | Some pos => (true, change_at root pos (fun e => Element.add e ne))
  | None => (false, root)
  end.
Definition add_named_element (root : Element) (path name : bytes) : bool * Element :=
  add_element root path (new_Element name []).

(** The position of the element, and the root; [None] only without fuel. *)
Fixpoint ensure_from (fuel : nat) (root : Element) (path : bytes) : option (list nat * Element) :=
  match fuel with
  | O => None
  | S fuel =>
    match get_element root path with
    | Some pos => Some (pos, root)
    | None =>
      let create '(parent, root) child_name :=
        e ← node_at root parent;
        Some (parent ++ [length (children e)],
              change_at root parent (fun e => Element.add e (new_Element child_name []))) in
      match Strings.find_last (Z.eqb (chr "/")) path with
      | Some delim =>
        parent ← (if delim =? 0 then Some ([], root) else ensure_from fuel root (ztake delim path));
        create parent (zdrop (delim + 1) path)
      | None => create ([], root) path
      end
    end
  end.
Definition ensure_path (root : Element) (path : bytes) : option (list nat * Element) :=
  ensure_from (S (length path)) root path.

Definition replace_element (root : Element) (path : bytes) (ne : Element) : option (bool * Element) :=
  match get_element root path with
  | None => Some (false, root)
  | Some pos =>
    match List.rev pos with
    | [] => None
    | i :: parent => Some (true, change_at root (List.rev parent) (fun p => replace_with p i ne))
    end
  end.

Section reals.
Context (atof : bytes -> Z) (show_double : Z -> bytes).
Definition get_value_real (root : Element) (path : bytes) (def : Z) : Z :=
  match get_value root path [] with [] => def | v => atof v end.
Definition set_value_real (root : Element) (path : bytes) (value : Z) : bool * Element :=
  set_value root path (show_double value).
End reals.

(** The positions that a path can tell: names without [/] and [[]. *)
Definition step_name_ok (n : bytes) : bool :=
  negb (bool_decide (n = [])) && forallb (fun c => negb (c =? chr "/") && negb (c =? chr "[")) n.
Fixpoint path_ok (root : Element) (pos : list nat) : bool :=
  match pos with
  | [] => true
  | i :: pos => match children root !! i with
                | Some c => (zlen (children root) <? 2 ^ 31) && step_name_ok (name c) && path_ok c pos
                | None => false
                end
  end.

(* ------------------------------------------------------------------ *)
(** ** Lemmas *)

Lemma find_first_none_app p a b : Forall (fun x => p x = false) a ->
  Strings.find_first p (a ++ b) = Z.add (zlen a) <$> Strings.find_first p b.
Proof.
  intros Ha. induction Ha as [|x a Hx Ha IH]; cbn [app Strings.find_first].
  - rewrite zlen_nil. by destruct (Strings.find_first p b).
  - rewrite Hx, IH, zlen_cons. destruct (Strings.find_first p b); cbn; [f_equal; lia|done].
Qed.
Lemma forallb_Forall_eqb (n : bytes) (f : Z -> bool) c : forallb f n = true -> f c = false ->
  Forall (fun x => (c =? x) = false) n.
Proof.
  intros Hn Hc. apply Forall_forall. intros x Hx. apply Z.eqb_neq. intros ->.
  rewrite forallb_forall in Hn. apply list_elem_of_In in Hx. rewrite (Hn x Hx) in Hc. done.
Qed.

Lemma zlen_snoc (n : bytes) c : zlen (n ++ [c]) = zlen n + 1.
Proof. by rewrite zlen_app. Qed.

Definition ends (tail : bytes) : Prop := tail = [] \/ exists t, tail = chr "/" :: t.
Definition next_of (tail : bytes) : option bytes := match tail with [] => None | _ :: t => Some t end.

Lemma find_slash n tail : Forall (fun x => (chr "/" =? x) = false) n -> ends tail ->
  let delim := default (zlen (n ++ tail)) (Strings.find_first (Z.eqb (chr "/")) (n ++ tail)) in
  delim = zlen n /\
  (if delim =? zlen (n ++ tail) then None else Some (zdrop (delim + 1) (n ++ tail))) = next_of tail.
Proof.
  intros Hn Ht. cbv zeta. rewrite find_first_none_app by done.
  destruct Ht as [->|[t ->]]; cbn [Strings.find_first fmap option_fmap option_map default].
  - rewrite app_nil_r, Z.eqb_refl. done.
  - rewrite Z.eqb_refl. cbn [fmap option_fmap option_map default from_option]. rewrite Z.add_0_r. split; [done|].
    rewrite zlen_app, zlen_cons. pose proof (zlen_nonneg t).
    unfold id.
    rewrite (proj2 (Z.eqb_neq (zlen n) (zlen n + (1 + zlen t)))) by lia. unfold next_of. f_equal.
    rewrite <- (zlen_snoc n (chr "/")).
    change (n ++ chr "/" :: t) with (n ++ [chr "/"] ++ t). by rewrite app_assoc, zdrop_app.
Qed.

Lemma step_of_name n tail : Forall (fun x => (chr "/" =? x) = false) n ->
  Forall (fun x => (chr "[" =? x) = false) n -> ends tail -> step_of (n ++ tail) = (n, -1, next_of tail).
Proof.
  intros Hs Hb Ht. unfold step_of. cbv zeta. destruct (find_slash n tail Hs Ht) as [Hd Hn].
  rewrite Hn, Hd. rewrite find_first_none_app, ztake_app by done.
  destruct (Strings.find_first (Z.eqb (chr "[")) tail) as [k|] eqn:Hk; [|done].
  cbn [fmap option_fmap option_map]. destruct (Z.ltb_spec (zlen n + k) (zlen n)); [|done].
  assert (0 <= k); [|lia]. clear -Hk. revert k Hk. induction tail as [|x tail IH]; intros k; [done|].
  cbn [Strings.find_first]. destruct (_ =? x); [intros [= <-]; lia|].
  destruct (Strings.find_first _ tail) as [j|]; [|done]. specialize (IH j eq_refl). intros [= <-]. lia.
Qed.

Lemma step_of_counted n k tail : Forall (fun x => (chr "/" =? x) = false) n ->
  Forall (fun x => (chr "[" =? x) = false) n -> ends tail -> 0 <= k < 2 ^ 31 - 1 ->
  step_of (n ++ chr "[" :: itos (k + 1) ++ str "]" ++ tail) = (n, k, next_of tail).
Proof.
  intros Hs Hb Ht Hk. set (ds := itos (k + 1)).
  assert (Forall (fun x => is_digit x = true) ds /\ 0 < zlen ds) as [Hds Hlen].
  { unfold ds, itos. rewrite (proj2 (Z.ltb_ge _ _)) by lia.
    destruct (print_base_text 10 (k + 1)) as [Hne Hall]; [lia|]. split.
    - eapply Forall_impl; [exact Hall|]. intros x (d & Hd & ->). unfold is_digit, digit_char.
      rewrite (proj2 (Z.ltb_lt d 10)) by lia. apply andb_true_intro. split; apply Z.leb_le; lia.
    - destruct (print_base 10 (k + 1)); [done|]. rewrite zlen_cons. pose proof (zlen_nonneg l). lia. }
  assert (forall c, is_digit c = false -> Forall (fun x => (c =? x) = false) ds) as Hno.
  { intros c Hc. eapply Forall_impl; [exact Hds|]. intros x Hx. apply Z.eqb_neq. intros ->. congruence. }
  set (m := n ++ chr "[" :: ds ++ str "]").
  assert (n ++ chr "[" :: ds ++ str "]" ++ tail = m ++ tail) as ->.
  { unfold m. rewrite <- app_assoc. cbn [app]. by rewrite <- app_assoc. }
  assert (Forall (fun x => (chr "/" =? x) = false) m) as Hm.
  { unfold m. apply Forall_app. split; [done|]. constructor; [done|]. apply Forall_app.
    split; [by apply Hno|by constructor]. }
  unfold step_of. cbv zeta. destruct (find_slash m tail Hm Ht) as [Hd Hn]. rewrite Hn, Hd.
  assert (Strings.find_first (Z.eqb (chr "[")) (m ++ tail) = Some (zlen n)) as ->.
  { unfold m. rewrite <- app_assoc. by apply Strings.find_first_app. }
  assert (zlen m = zlen n + 1 + zlen ds + 1) as Hml by
    (unfold m; rewrite zlen_app, zlen_cons, zlen_app; change (zlen (str "]")) with 1; lia).
  pose proof (zlen_nonneg n). rewrite (proj2 (Z.ltb_lt _ _)) by lia.
  assert (Strings.find (chr "]") (m ++ tail) (zlen n) = Some (zlen n + 1 + zlen ds)) as ->.
  { unfold Strings.find, m. rewrite <- app_assoc, zdrop_app.
    change ((chr "[" :: ds ++ str "]") ++ tail) with ((chr "[" :: ds ++ [chr "]"]) ++ tail).
    rewrite app_comm_cons, <- app_assoc.
    change ([chr "]"] ++ tail) with (chr "]" :: tail).
    rewrite (Strings.find_first_app _ (chr "[" :: ds)) by (done || (constructor; [done|by apply Hno])).
    cbn [fmap option_fmap option_map]. f_equal. rewrite zlen_cons. lia. }
  rewrite (proj2 (Z.ltb_lt (zlen n + 1 + zlen ds) _)) by lia.
  rewrite Z.gtb_ltb, (proj2 (Z.ltb_lt 1 _)) by lia. cbn [andb].
  replace (zlen n + 1 + zlen ds - zlen n - 1) with (zlen ds) by lia.
  assert (Strings.substr (m ++ tail) (zlen n + 1) (zlen ds) = ds) as ->.
  { unfold Strings.substr, m. rewrite <- (zlen_snoc n (chr "[")).
    change (n ++ chr "[" :: ds ++ str "]") with (n ++ [chr "["] ++ (ds ++ str "]")).
    rewrite (app_assoc n), <- app_assoc, zdrop_app, <- app_assoc. apply ztake_app. }
  unfold ds. rewrite Convert.stoi_itos by (unfold in_s; lia).
  replace (k + 1 - 1) with k by lia. rewrite swrap_small by (unfold in_s; lia).
  unfold m. by rewrite <- app_assoc, ztake_app.
Qed.

Lemma step_name_spec n : step_name_ok n = true -> n <> [] /\
  Forall (fun x => (chr "/" =? x) = false) n /\ Forall (fun x => (chr "[" =? x) = false) n.
Proof.
  unfold step_name_ok. intros [Hne Hn]%andb_prop. split; [by destruct n|].
  split; by eapply forallb_Forall_eqb; [exact Hn|].
Qed.

Lemma get_xpath_ends root pos : ends (get_xpath root pos).
Proof.
  destruct pos as [|i pos]; [by left|]. cbn [get_xpath]. destruct (children root !! i); [|by left].
  right. unfold xpath_step. by eexists.
Qed.

(** The path of a step, without its [/], gives the child. *)
Lemma step_of_xpath root i c tail : children root !! i = Some c -> zlen (children root) < 2 ^ 31 ->
  step_name_ok (name c) = true -> ends tail ->
  exists count, step_of (drop 1 (xpath_step root i c) ++ tail) = (name c, count, next_of tail) /\
    get_child root (name c) (if count <? 0 then 0 else count) = Some i /\
    (count < 0 -> get_children root (name c) = [i]).
Proof.
  intros Hi Hlen (_ & Hs & Hb)%step_name_spec Ht. unfold xpath_step. rewrite skipn_cons, drop_0, <- app_assoc. unfold get_child, get_children.
  pose proof (child_from_count _ _ 0 _ Hi) as Hchild. rewrite Nat.add_0_l in Hchild.
  pose proof (count_name_nonneg (name c) (take i (children root))) as H0.
  destruct (Z.gtb_spec (count_name (name c) (children root)) 1) as [Hc|Hc].
  - exists (count_name (name c) (take i (children root))).
    cbn [app]. rewrite <- app_assoc. rewrite step_of_counted; [|done..|].
    + split; [done|]. rewrite (proj2 (Z.ltb_ge _ _)) by lia. split; [done|lia].
    + pose proof (count_name_le (name c) (take i (children root))) as H.
      apply lookup_lt_Some in Hi. unfold zlen in *. rewrite length_take in H. lia.
  - exists (-1). rewrite step_of_name by done. destruct (children_from_single _ _ 0 _ Hi Hc) as [-> Hz].
    rewrite Hz in Hchild. done.
Qed.

Lemma elements_strip fuel pos e c p : c <> chr "/" ->
  elements_from fuel pos e (chr "/" :: c :: p) = elements_from fuel pos e (c :: p).
Proof. intros Hc. destruct fuel; [done|]. cbn [elements_from]. by rewrite (proj2 (Z.eqb_neq _ _) Hc). Qed.

Lemma xpath_step_shape root i c : step_name_ok (name c) = true ->
  exists x w, xpath_step root i c = chr "/" :: x :: w /\ x <> chr "/".
Proof.
  intros (Hne & Hs & _)%step_name_spec. unfold xpath_step. destruct (name c) as [|x n]; [done|].
  apply Forall_inv in Hs. exists x. eexists. split; [reflexivity|]. intros ->. by rewrite Z.eqb_refl in Hs.
Qed.

Lemma elements_from_xpath pos : forall fuel pre root, path_ok root pos = true ->
  (length (get_xpath root pos) < fuel)%nat ->
  elements_from fuel pre root (get_xpath root pos) = Some [pre ++ pos].
Proof.
  induction pos as [|i pos IH]; intros fuel pre root Hok Hf; (destruct fuel as [|fuel]; [lia|]).
  { cbn. by rewrite app_nil_r. }
  cbn [path_ok get_xpath] in *. destruct (children root !! i) as [c|] eqn:Hi; [|done].
  apply andb_prop in Hok as [[Hlen%Z.ltb_lt Hn]%andb_prop Hok].
  destruct (step_of_xpath _ _ _ (get_xpath c pos) Hi Hlen Hn (get_xpath_ends c pos)) as (count & Hstep & Hget & Hone).
  destruct (xpath_step_shape root i c Hn) as (x & w & Hw & Hx). rewrite Hw in *. cbn [drop app] in *.
  rewrite elements_strip by done. cbn [elements_from]. rewrite (proj2 (Z.eqb_neq _ _) Hx), Hstep.
  rewrite Hget, Hi.
  destruct pos as [|j pos].
  - cbn [get_xpath next_of]. destruct (Z.ltb_spec count 0) as [Hc|Hc]; [|done].
    by rewrite (Hone Hc).
  - cbn [path_ok] in Hok. cbn [get_xpath] in *. destruct (children c !! j) as [d|] eqn:Hj; [|done].
    pose proof Hok as [[_ Hd]%andb_prop _]%andb_prop.
    destruct (xpath_step_shape c j d Hd) as (y & v & Hv & Hy). rewrite Hv. cbn [app next_of].
    rewrite <- elements_strip by done.
    specialize (IH fuel (pre ++ [i]) c). cbn [path_ok get_xpath] in IH. rewrite Hj, Hv in IH.
    cbn [app] in IH. destruct (count <? 0); (rewrite IH; [by rewrite <- app_assoc|done|]);
      rewrite Hv in Hf; cbn [length] in *; rewrite ?length_app in *; cbn [length] in *; rewrite ?length_app in *; lia.
Qed.

(** C7: the path that [Element::get_xpath] gives for an element finds that
    element and no other, wherever it is in a document whose names have no [/]
    or [[], whether or not it has siblings of its name. *)
Theorem xpath_roundtrip root pos : path_ok root pos = true ->
  get_elements root (get_xpath root pos) = [pos].
Proof. intros Hok. unfold get_elements. rewrite elements_from_xpath by (done || lia). done. Qed.

Lemma xpath_roundtrip_witness :
  let leaf n := mk_Element n [] [] [] 0 in
  let e := mk_Element (str "r") [] []
    [leaf (str "b"); mk_Element (str "a") [] [] [leaf (str "x"); leaf (str "y"); leaf (str "x")] 0; leaf (str "a")] 0 in
  get_elements e (get_xpath e [1; 2]%nat) = [[1; 2]%nat] /\ get_xpath e [1; 2]%nat = str "/a[1]/x[2]".
Proof. cbv zeta. split; [apply xpath_roundtrip|]; vm_compute; reflexivity. Defined.

End XPath.
