(* ===== verification/Expand.v ===== *)
(** * Template expansion

    Models [src/libs/xml/expand.cc], class [Expander] of [ot-xml.h]: a template
    is a document whose [expand:] elements are replaced by what they find in a
    document of values.  The template is consumed structurally; the variables
    are passed along, and a copy of them into each turn of a loop. *)
From S2P Require Export XPath.

Module Expand.

Abbreviation vars_map := (list (bytes * bytes)).

(** [vars[var]], which makes an empty variable of a new one *)
Definition lookup_var (var : bytes) (vars : vars_map) : bytes * vars_map :=
  match map_find var vars with
  | Some v => (v, vars)
  | None => ([], map_set var [] vars)
  end.

(** What an element with a [var] or [value] attribute tests or expands to *)
Definition tested_value (te values : Element) (vars : vars_map) : bytes * vars_map :=
  if has_attr te (str "var") then lookup_var (get_attr te (str "var") []) vars
  else (XPath.get_value values (get_attr te (str "value") []) [], vars).

(** Begins [TtYy1] *)
Definition is_true (value : bytes) : bool :=
  match value with c :: _ => existsb (Z.eqb c) (str "TtYy1") | [] => false end.

Fixpoint expand_recursive (templ values : Element) (index : Z) (vars : vars_map) {struct templ} :
    bytes * vars_map :=
  match templ with
  | mk_Element _ content _ children _ =>
    fold_left (fun '(text, vars) te =>
      let recurse vars := let '(t, vars) := expand_recursive te values index vars in (text ++ t, vars) in
      if bool_decide (name te = []) then (text ++ Element.content te, vars)
      else if bool_decide (name te = str "expand:replace") then
        let '(value, vars) := tested_value te values vars in (text ++ value, vars)
      else if bool_decide (name te = str "expand:if") then
        let '(value, vars) := tested_value te values vars in
        if is_true value then recurse vars else (text, vars)
      else if bool_decide (name te = str "expand:unless") then
        let '(value, vars) := tested_value te values vars in
        if is_true value then (text, vars) else recurse vars
      else if bool_decide (name te = str "expand:ifeq") then
        let '(value, vars) := tested_value te values vars in
        if bool_decide (value = get_attr te (str "to") []) then recurse vars else (text, vars)
      else if bool_decide (name te = str "expand:ifne") then
        let '(value, vars) := tested_value te values vars in
        if bool_decide (value = get_attr te (str "to") []) then (text, vars) else recurse vars
      else if bool_decide (name te = str "expand:each") then
        let elements := omap (node_at values) (XPath.get_elements values (get_attr te (str "element") [])) in
        (fst (fold_left (fun '(text, i) e =>
                (text ++ fst (expand_recursive te e i vars), i + 1)) elements (text, 0)), vars)
      else if bool_decide (name te = str "expand:index") then
        (text ++ itos (i32 (index + get_attr_int te (str "from") 1)), vars)
      else if bool_decide (name te = str "expand:set") then
        let '(value, vars) := expand_recursive te values index vars in
        (text, map_set (get_attr te (str "var") []) value vars)
      else
        match Element.children te with
        | [] => (text ++ to_string te false, vars)
        | _ => let '(t, vars) := expand_recursive te values index vars in
               (text ++ start_to_string te ++ t ++ end_to_string te, vars)
        end) children (content, vars)
  end.
Definition expand (templ values : Element) : bytes := fst (expand_recursive templ values 0 []).

End Expand.
