(* ===== verification/Gather.v ===== *)
(** * Scatter/gather buffers

    Models [src/libs/gather]: segments of memory that a buffer owns or refers
    to, put together without copying, and the iterators over them.  Memory is a
    heap of blocks; a pointer is a block and an offset in it, so that two
    segments may share a block and a freed block is missed when it is used.
    An operation gives [None] where the code aborts, or reads, writes or frees
    memory that is not there. *)
From stdpp Require Export gmap.
From S2P Require Export ChanImpl.

Module Gather.

(** ** Memory *)

Abbreviation heap := (gmap nat bytes).
Abbreviation ptr := (nat * Z)%type.

Definition alloc (d : bytes) (h : heap) : nat * heap := let b := fresh (dom h) in (b, <[b := d]> h).
Definition free (b : nat) (h : heap) : option heap :=
  match h !! b with Some _ => Some (delete b h) | None => None end.
(** [n] bytes from a pointer; none can be read from a null pointer *)
Definition load (h : heap) (p : option ptr) (n : Z) : option bytes :=
  if n =? 0 then Some []
  else '(b, o) ← p; d ← h !! b;
       if (0 <=? o) && (0 <=? n) && (o + n <=? zlen d) then Some (ztake n (zdrop o d)) else None.
Definition store (h : heap) (p : option ptr) (v : bytes) : option heap :=
  match v with
  | [] => Some h
  | _ => '(b, o) ← p; d ← h !! b;
         if (0 <=? o) && (o + zlen v <=? zlen d)
         then Some (<[b := ztake o d ++ v ++ zdrop (o + zlen v) d]> h) else None
  end.
Definition advance (n : Z) (p : option ptr) : option ptr := '(b, o) ← p; Some (b, o + n).

(** ** [Segment] *)

Record Segment := mk_Segment { owned_data : option nat; data : option ptr; length : Z }.

Definition reference (p : option ptr) (n : Z) : Segment := mk_Segment None p n.
(** A segment of its own; the bytes that [new] gives are [init]. *)
Definition allocated (init : bytes) (h : heap) : Segment * heap :=
  let '(b, h) := alloc init h in (mk_Segment (Some b) (Some (b, 0)) (zlen init), h).

Definition seg_consume (n : Z) (s : Segment) : Segment :=
  mk_Segment (owned_data s) (advance n (data s)) (u64 (length s - n)).
Definition seg_destroy (s : Segment) (h : heap) : option (Segment * heap) :=
  match owned_data s with
  | Some b => h ← free b h; Some (mk_Segment None (data s) (length s), h)
  | None => Some (s, h)
  end.
Definition seg_reset (n : Z) (s : Segment) (h : heap) : option (Segment * heap) :=
  if n =? 0 then
    h ← match owned_data s with Some b => free b h | None => Some h end;
    Some (mk_Segment None None 0, h)
  else Some (mk_Segment (owned_data s) (data s) n, h).
(** What is taken, and what is left of the source *)
Definition take_seg (s : Segment) : Segment * Segment :=
  (s, mk_Segment None (data s) (length s)).
(** [copy], into a fresh segment *)
Definition seg_copy (s : Segment) (h : heap) : option (Segment * heap) :=
  match owned_data s with
  | Some b => d ← load h (Some (b, 0)) (length s); Some (allocated d h)
  | None => Some (mk_Segment None (data s) (length s), h)
  end.

(** ** [Buffer] *)

(** The segments in use; the array may have more. *)
Record Buffer := mk_Buffer { size : Z; segments : list Segment }.
Definition count (b : Buffer) : Z := zlen (segments b).
Definition new_Buffer (size : Z) : Buffer := mk_Buffer size [].

Definition get_length (b : Buffer) : Z :=
  fold_left (fun total s => u64 (total + length s)) (segments b) 0.

Definition resize (new_size : Z) (b : Buffer) : option Buffer :=
  if new_size <? count b then None else Some (mk_Buffer new_size (segments b)).
Definition grow (b : Buffer) : option Buffer :=
  if count b >=? size b then resize (if size b =? 0 then 1 else u32 (size b * 2)) b else Some b.

Definition add (s : Segment) (b : Buffer) : option Buffer :=
  b ← grow b; Some (mk_Buffer (size b) (segments b ++ [s])).
Definition add_allocated (init : bytes) (b : Buffer) (h : heap) : option (Buffer * heap) :=
  let '(s, h) := allocated init h in b ← add s b; Some (b, h).

Fixpoint add_copies (src : list Segment) (b : Buffer) (h : heap) : option (Buffer * heap) :=
  match src with
  | [] => Some (b, h)
  | s :: src => '(c, h) ← seg_copy s h; b ← add c b; add_copies src b h
  end.
Definition add_buffer (src b : Buffer) (h : heap) : option (Buffer * heap) :=
  add_copies (segments src) b h.

Definition insert (s : Segment) (pos : nat) (b : Buffer) : option Buffer :=
  b ← grow b;
  if (List.length (segments b) <? pos)%nat then None
  else Some (mk_Buffer (size b) (take pos (segments b) ++ s :: drop pos (segments b))).

(** *** Copying out *)

(** [&segment.data[start]] for [n] bytes *)
Definition load_at (h : heap) (s : Segment) (start n : Z) : option bytes :=
  load h (advance start (data s)) n.

Fixpoint copy_from (h : heap) (segs : list Segment) (offset len gather_offset : Z) (out : bytes) :
    option bytes :=
  match segs with
  | [] => Some out
  | s :: segs =>
    let next := u64 (gather_offset + length s) in
    if offset <? next then
      let start := if gather_offset >? offset then 0 else u64 (offset - gather_offset) in
      let to_read := Z.min (u64 (len - zlen out)) (u64 (length s - start)) in
      d ← load_at h s start to_read;
      if zlen (out ++ d) >=? len then Some (out ++ d)
      else copy_from h segs offset len next (out ++ d)
    else copy_from h segs offset len next out
  end.
Definition copy (h : heap) (b : Buffer) (offset len : Z) : option bytes :=
  copy_from h (segments b) offset len 0 [].

(** The segments of a run, as references *)
Fixpoint add_run_from (src : list Segment) (offset len gather_offset data_read : Z) (b : Buffer) :
    option Buffer :=
  match src with
  | [] => Some b
  | s :: src =>
    let next := u64 (gather_offset + length s) in
    if offset <? next then
      let start := if gather_offset >? offset then 0 else u64 (offset - gather_offset) in
      let to_read := Z.min (u64 (len - data_read)) (u64 (length s - start)) in
      b ← add (reference (advance start (data s)) to_read) b;
      if u64 (data_read + to_read) >=? len then Some b
      else add_run_from src offset len next (u64 (data_read + to_read)) b
    else add_run_from src offset len next data_read b
  end.
Definition add_run (src : Buffer) (offset len : Z) (b : Buffer) : option Buffer :=
  add_run_from (segments src) offset len 0 0 b.

(** The entries of the [iovec], [None] when there are more than its size *)
Fixpoint fill_from (segs : list Segment) (size : Z) (iovec : list (option ptr * Z)) :
    option (list (option ptr * Z)) :=
  match segs with
  | [] => Some iovec
  | s :: segs =>
    if length s =? 0 then fill_from segs size iovec
    else if zlen iovec >=? size then None
    else fill_from segs size (iovec ++ [(data s, length s)])
  end.
Definition fill (b : Buffer) (size : Z) : option (list (option ptr * Z)) := fill_from (segments b) size [].

(** *** Dropping data *)

Fixpoint destroy_all (segs : list Segment) (h : heap) : option heap :=
  match segs with
  | [] => Some h
  | s :: segs => '(_, h) ← seg_destroy s h; destroy_all segs h
  end.
Definition reset (b : Buffer) (h : heap) : option (Buffer * heap) :=
  h ← destroy_all (segments b) h; Some (mk_Buffer (size b) [], h).

(** The length that is left, and the segments *)
Fixpoint limit_from (segs : list Segment) (len total : Z) (h : heap) : option (Z * list Segment * heap) :=
  match segs with
  | [] => Some (total, [], h)
  | s :: segs =>
    let total := u64 (total + length s) in
    if total >=? len then
      h ← destroy_all segs h;
      Some (len, [mk_Segment (owned_data s) (data s) (u64 (length s - u64 (total - len)))], h)
    else '(total, segs, h) ← limit_from segs len total h; Some (total, s :: segs, h)
  end.
Definition limit (len : Z) (b : Buffer) (h : heap) : option (Z * Buffer * heap) :=
  '(total, segs, h) ← limit_from (segments b) len 0 h; Some (total, mk_Buffer (size b) segs, h).

Fixpoint consume_from (n : Z) (segs : list Segment) (h : heap) : option (list Segment * heap) :=
  match segs with
  | [] => Some ([], h)
  | s :: segs =>
    if length s =? 0 then '(segs, h) ← consume_from n segs h; Some (s :: segs, h)
    else if length s >? n then Some (seg_consume n s :: segs, h)
    else '(s', h) ← seg_reset 0 s h;
         '(segs, h) ← consume_from (u64 (n - length s)) segs h; Some (s' :: segs, h)
  end.
Definition consume (n : Z) (b : Buffer) (h : heap) : option (Buffer * heap) :=
  '(segs, h) ← consume_from n (segments b) h; Some (mk_Buffer (size b) segs, h).

(** [tidy]: the array, the indices of the free segments, and how many are in use *)
Definition tidy_step (i : nat) (s : list Segment * list nat * nat) : list Segment * list nat * nat :=
  let '(segs, free, n) := s in
  match segs !! i with
  | Some s =>
    if length s =? 0 then (segs, free ++ [i], n)
    else match free with
         | f :: rest =>
           let '(taken, emptied) := take_seg s in
           (<[i := seg_consume (length emptied) emptied]> (<[f := taken]> segs), rest ++ [i], S n)
         | [] => (segs, free, S n)
         end
  | None => (segs, free, n)
  end.
Definition tidy (b : Buffer) : Buffer :=
  let '(segs, _, n) := fold_left (fun s i => tidy_step i s) (seq 0 (List.length (segments b)))
                         (segments b, [], O) in
  mk_Buffer (size b) (take n segs).

(** *** Flat data *)

(** A null pointer, a pointer into a segment, or what is copied to [temp_buf] *)
Inductive flat := Null | Direct (p : option ptr) | Temp (d : bytes).

Fixpoint flatten (h : heap) (segs : list Segment) (len : Z) (temp : bytes) : option flat :=
  if zlen temp <? len then
    match segs with
    | [] => Some Null
    | s :: segs =>
      let needed := Z.min (u64 (len - zlen temp)) (length s) in
      d ← load h (data s) needed; flatten h segs len (temp ++ d)
    end
  else Some (Temp temp).
Fixpoint get_flat_data_multi (h : heap) (segs : list Segment) (offset len : Z) : option flat :=
  match segs with
  | [] => Some Null
  | s :: segs =>
    if offset <? length s then
      if u64 (offset + len) <? length s then Some (Direct (advance offset (data s)))
      else d ← load_at h s offset (length s - offset); flatten h segs len d
    else get_flat_data_multi h segs (u64 (offset - length s)) len
  end.
Definition get_flat_data (h : heap) (b : Buffer) (offset len : Z) : option flat :=
  match segments b with
  | [s] => if u64 (offset + len) >? length s then Some Null else Some (Direct (advance offset (data s)))
  | segs => get_flat_data_multi h segs offset len
  end.

(** [memcpy] of a part of [buf] that it has *)
Definition part (buf : bytes) (from n : Z) : option bytes :=
  if from + n <=? zlen buf then Some (ztake n (zdrop from buf)) else None.
Fixpoint replace_rest (segs : list Segment) (buf : bytes) (len copied : Z) (h : heap) : option heap :=
  match segs with
  | [] => Some h
  | s :: segs =>
    if copied <? len then
      let needed := Z.min (u64 (len - copied)) (length s) in
      v ← part buf copied needed; h ← store h (data s) v;
      replace_rest segs buf len (u64 (copied + needed)) h
    else Some h
  end.
Fixpoint replace_from (segs : list Segment) (offset : Z) (buf : bytes) (len : Z) (h : heap) : option heap :=
  match segs with
  | [] => Some h
  | s :: segs =>
    if offset <? length s then
      if u64 (offset + len) <? length s then v ← part buf 0 len; store h (advance offset (data s)) v
      else
        let copied := length s - offset in
        v ← part buf 0 copied; h ← store h (advance offset (data s)) v;
        replace_rest segs buf len copied h
    else replace_from segs (u64 (offset - length s)) buf len h
  end.
Definition replace (b : Buffer) (offset : Z) (buf : bytes) (len : Z) (h : heap) : option heap :=
  replace_from (segments b) offset buf len h.

(** ** [BufferIterator]

    [segment] is an index, [countdown] what is left of that segment, and the
    position the byte it points at or the end. *)

Inductive position := End | At (p : option ptr).
Record iterator := mk_it { segment : nat; countdown : Z; dp : position }.

Definition is_end (it : iterator) : bool := match dp it with End => true | At _ => false end.
(** The first segment with data from index [i] on *)
Fixpoint first_from (i : nat) (segs : list Segment) : iterator :=
  match segs with
  | [] => mk_it i 0 End
  | s :: segs => if length s =? 0 then first_from (S i) segs else mk_it i (length s) (At (data s))
  end.
Definition begin_it (segs : list Segment) : iterator := first_from 0 segs.
Definition end_it (segs : list Segment) : iterator := mk_it (List.length segs) 0 End.

Definition next_segment (segs : list Segment) (it : iterator) : iterator :=
  first_from (S (segment it)) (drop (S (segment it)) segs).

(** [while (segment > segments && !(--segment)->length)] *)
Fixpoint step_back (segs : list Segment) (i : nat) : option nat :=
  match i with
  | O => Some O
  | S j => s ← segs !! j; if length s =? 0 then step_back segs j else Some j
  end.
Definition previous_segment (segs : list Segment) (it : iterator) : option iterator :=
  if (segment it =? 0)%nat then
    s ← segs !! O; Some (mk_it 0 (length s) (At (data s)))
  else
    i ← step_back segs (segment it);
    s ← segs !! i;
    if length s =? 0 then Some (next_segment segs (mk_it i (countdown it) (dp it)))
    else Some (mk_it i 1 (At (advance (length s - 1) (data s)))).

Definition get_segment (it : iterator) : option nat := if is_end it then None else Some (segment it).
Definition get_segment_offset (segs : list Segment) (it : iterator) : option Z :=
  match dp it with
  | End => Some 0
  | At _ => s ← segs !! segment it; Some (u64 (length s - countdown it))
  end.

Definition move (n : Z) (it : iterator) : iterator :=
  mk_it (segment it) (countdown it - n)
    (match dp it with End => End | At p => At (advance n p) end).

(** [++it] *)
Definition increment (segs : list Segment) (it : iterator) : iterator :=
  if is_end it then it
  else if u64 (countdown it - 1) =? 0 then next_segment segs it else move 1 it.

(** [it += n]: each turn goes to a later segment. *)
Fixpoint add_to (fuel : nat) (segs : list Segment) (n : Z) (it : iterator) : option iterator :=
  match fuel with
  | O => None
  | S fuel =>
    if n >=? countdown it then
      if is_end it then Some it
      else add_to fuel segs (u64 (n - countdown it)) (next_segment segs it)
    else Some (move n it)
  end.
Definition plus (segs : list Segment) (n : Z) (it : iterator) : option iterator :=
  add_to (S (S (List.length segs))) segs n it.

(** [--it] *)
Definition decrement (segs : list Segment) (it : iterator) : option iterator :=
  match dp it with
  | End => previous_segment segs it
  | At _ =>
    s ← segs !! segment it;
    if u64 (countdown it + 1) >? length s then
      previous_segment segs (mk_it (segment it) (u64 (countdown it + 1)) (dp it))
    else Some (move (-1) it)
  end.

Inductive moved := Moved (it : iterator) | Threw | Fault.
Definition minus_step (segs : list Segment) (s : Z * iterator) : Z * iterator + moved :=
  let '(sub, it) := s in
  let before := match dp it with
                | End => Some 0
                | At _ => s ← segs !! segment it; Some (u64 (length s - countdown it))
                end in
  match before with
  | None => inr Fault
  | Some before =>
    if is_end it || (sub >? before) then
      if (segment it =? 0)%nat then inr Threw
      else
        let sub := if is_end it then u64 (sub - 1) else u64 (sub - (before + 1)) in
        match previous_segment segs it with
        | Some it => inl (sub, it)
        | None => inr Fault
        end
    else inr (Moved (move (- sub) it))
  end.
(** [it -= n]: each turn takes at least one from [n], if it is not at the end. *)
Definition minus (segs : list Segment) (n : Z) (it : iterator) : moved :=
  match loop_pos (2 ^ 65)%positive (minus_step segs) (n, it) with
  | inr m => m
  | inl _ => Fault
  end.

(** [copy] from an iterator; less than [len] has been read at every turn. *)
Fixpoint copy_rest (h : heap) (segs : list Segment) (segment_offset len : Z) (out : bytes) : option bytes :=
  match segs with
  | [] => Some out
  | s :: segs =>
    let to_read := Z.min (len - zlen out) (u64 (length s - segment_offset)) in
    d ← load_at h s segment_offset to_read;
    if zlen (out ++ d) >=? len then Some (out ++ d) else copy_rest h segs 0 len (out ++ d)
  end.
Definition copy_it (h : heap) (segs : list Segment) (it : iterator) (len : Z) : option bytes :=
  match get_segment it with
  | Some i =>
    if (i <? List.length segs)%nat then
      o ← get_segment_offset segs it; copy_rest h (drop i segs) o len []
    else Some []
  | None => Some []
  end.

(** ** [Reader]: a channel over a buffer

    The memory and the segments are not changed by it.  A fault, which is not
    an exception of the code, ends the read. *)
Module Reader.
Record t := mk { memory : heap; segs : list Segment; it : iterator; offset : Z }.
Definition init (h : heap) (b : Buffer) : t := mk h (segments b) (begin_it (segments b)) 0.

Definition fault : Error := mk_Error (-1) (str "memory fault").

Definition basic_read (n : Z) : M t Error bytes := fun s =>
  if n =? 0 then (Val [], s)
  else match copy_it (memory s) (segs s) (it s) n with
       | None => (Throw fault, s)
       | Some d =>
         match plus (segs s) (zlen d) (it s) with
         | Some i => (Val d, mk (memory s) (segs s) i (u64 (offset s + zlen d)))
         | None => (Throw fault, s)
         end
       end.
Definition skip (n : Z) : M t Error unit := fun s =>
  if u64 (offset s + n) >? get_length (mk_Buffer 0 (segs s)) then
    (Throw (mk_Error 1 (str "Skip beyond end of block")), s)
  else match plus (segs s) n (it s) with
       | Some i => (Val tt, mk (memory s) (segs s) i (u64 (offset s + n)))
       | None => (Throw fault, s)
       end.
(** The iterator throws a string, not an [Error]. *)
Definition rewind (n : Z) : M t Error unit := fun s =>
  if n <=? offset s then
    let s' := mk (memory s) (segs s) (it s) (u64 (offset s - n)) in
    match minus (segs s) n (it s) with
    | Moved i => (Val tt, mk (memory s) (segs s) i (u64 (offset s - n)))
    | Threw => (Throw (mk_Error (-1) (str "Attempt to decrement past start of buffer")), s')
    | Fault => (Throw fault, s')
    end
  else (Throw (mk_Error 1 (str "Rewound too far")), s).
End Reader.

#[export] Instance gather_reader : Chan.Reader Reader.t := {
  basic_read := Reader.basic_read;
  try_read := base_try_read Reader.basic_read;
  try_read_string := base_try_read_string Reader.basic_read;
  skip := Reader.skip;
  rewind := Reader.rewind;
  get_offset := Reader.offset
}.


(* ------------------------------------------------------------------ *)
(** ** What a buffer holds *)

Definition live (h : heap) (s : Segment) : Prop := forall x, owned_data s = Some x -> is_Some (h !! x).
(** [t] does not use what [s] owns. *)
Definition spares (s t : Segment) : Prop := forall x, owned_data s = Some x ->
  owned_data t <> Some x /\ (length t <> 0 -> forall o, data t <> Some (x, o)).
Definition apart (s t : Segment) : Prop := spares s t /\ spares t s.

(** The segments hold the bytes [d]: each can be read, those that own their
    block are the only ones to use it. *)
Inductive gathers (h : heap) : list Segment -> bytes -> Prop :=
  | gathers_nil : gathers h [] []
  | gathers_cons s segs d r : 0 <= length s -> load h (data s) (length s) = Some d -> live h s ->
      Forall (apart s) segs -> gathers h segs r -> gathers h (s :: segs) (d ++ r).

(* ------------------------------------------------------------------ *)
(** ** Lemmas *)

Lemma load_length h p n d : 0 <= n -> load h p n = Some d -> zlen d = n.
Proof.
  intros Hn. unfold load. destruct (Z.eqb_spec n 0) as [->|Hne]; [by intros [= <-]|].
  destruct p as [[b o]|]; [|done]. cbn. destruct (h !! b) as [blk|]; [|done]. cbn.
  destruct (_ && _ && _) eqn:H; [|done]. intros [= <-].
  apply andb_prop in H as [[H1%Z.leb_le H2%Z.leb_le]%andb_prop H3%Z.leb_le].
  rewrite zlen_ztake, zlen_zdrop by lia. lia.
Qed.
Lemma load_part h p n d o k : load h p n = Some d -> 0 <= o -> 0 <= k -> o + k <= n ->
  load h (advance o p) k = Some (ztake k (zdrop o d)).
Proof.
  intros Hd Ho Hk Hle. unfold load in *. destruct (Z.eqb_spec k 0) as [->|Hk0]; [done|].
  destruct (Z.eqb_spec n 0); [lia|]. destruct p as [[b i]|]; [|done]. cbn in *.
  destruct (h !! b) as [blk|]; [|done]. cbn in *. destruct (_ && _ && _) eqn:H; [|done].
  injection Hd as <-. apply andb_prop in H as [[H1%Z.leb_le H2%Z.leb_le]%andb_prop H3%Z.leb_le].
  rewrite !(proj2 (Z.leb_le _ _)) by lia. cbn [andb]. f_equal.
  unfold ztake, zdrop. rewrite skipn_firstn_comm, drop_drop, take_take. f_equal; [lia|f_equal; lia].
Qed.
Lemma load_part_of h s d o k : 0 <= length s -> load h (data s) (length s) = Some d ->
  0 <= o -> 0 <= k -> o + k <= length s -> load_at h s o k = Some (ztake k (zdrop o d)).
Proof. intros. unfold load_at. eapply load_part; eauto. Qed.

Lemma load_frame h h' p n : (n <> 0 -> forall b o, p = Some (b, o) -> h' !! b = h !! b) ->
  load h' p n = load h p n.
Proof.
  intros H. unfold load. destruct (Z.eqb_spec n 0) as [|Hn]; [done|]. destruct p as [[b o]|]; [|done].
  cbn. by rewrite (H Hn b o eq_refl).
Qed.

Lemma gathers_lengths h segs d : gathers h segs d -> Forall (fun s => 0 <= length s) segs.
Proof. induction 1; constructor; auto. Qed.

Lemma get_length_from h segs d : gathers h segs d -> forall a, 0 <= a -> a + zlen d < 2 ^ 64 ->
  fold_left (fun total s => u64 (total + length s)) segs a = a + zlen d.
Proof.
  induction 1 as [|s segs d r Hs Hd _ _ _ IH]; intros a Ha Hlt; cbn [fold_left]; [by rewrite zlen_nil, Z.add_0_r|].
  rewrite zlen_app in *. pose proof (zlen_nonneg r). pose proof (load_length _ _ _ _ Hs Hd).
  rewrite wrap_small by (unfold in_u; lia). rewrite IH by lia. lia.
Qed.

Lemma copy_from_gathers h segs d : gathers h segs d -> forall offset len go out,
  0 <= offset < 2 ^ 64 -> 0 <= go -> go + zlen d < 2 ^ 64 -> zlen out <= len < 2 ^ 64 ->
  copy_from h segs offset len go out = Some (out ++ ztake (len - zlen out) (zdrop (offset - go) d)).
Proof.
  induction 1 as [|s segs d r Hs Hd _ _ _ IH]; intros offset len go out Ho Hgo Hlt Hout; cbn [copy_from].
  { unfold zdrop, ztake. by rewrite drop_nil, take_nil, app_nil_r. }
  rewrite zlen_app in Hlt. pose proof (zlen_nonneg r). pose proof (load_length _ _ _ _ Hs Hd) as Hlen.
  pose proof (zlen_nonneg out). cbv zeta. rewrite (wrap_small 64 (go + length s)) by (unfold in_u; lia).
  destruct (Z.ltb_spec offset (go + length s)) as [Hin|Hpast].
  2: { rewrite IH by lia. rewrite (zdrop_app_ge (offset - go)) by lia. do 3 f_equal. f_equal. lia. }
  set (start := if go >? offset then 0 else u64 (offset - go)).
  assert (start = Z.max 0 (offset - go)) as Hstart.
  { unfold start. destruct (Z.gtb_spec go offset); [lia|]. rewrite wrap_small by (unfold in_u; lia). lia. }
  assert (zdrop (offset - go) (d ++ r) = zdrop start (d ++ r)) as ->.
  { unfold zdrop. f_equal. lia. }
  clearbody start. rewrite !wrap_small by (unfold in_u; lia).
  set (to_read := Z.min _ _). assert (0 <= to_read) by lia.
  rewrite (load_part_of h s d) by (done || lia). cbn [mbind option_bind].
  rewrite zdrop_app_le by lia.
  assert (zlen (zdrop start d) = length s - start) as Hrest by (rewrite zlen_zdrop; lia).
  rewrite zlen_app, zlen_ztake, Hrest by lia.
  destruct (Z.geb_spec (zlen out + to_read `min` (length s - start)) len).
  - rewrite ztake_app_le by lia. f_equal. f_equal. f_equal. lia.
  - rewrite IH by (rewrite ?zlen_app, ?zlen_ztake, ?Hrest by lia; lia).
    rewrite (ztake_ge to_read) by lia. rewrite ztake_app_ge by lia.
    rewrite <- app_assoc. do 3 f_equal.
    assert (zdrop (offset - (go + length s)) r = r) as ->.
    { unfold zdrop. replace (Z.to_nat _) with 0%nat by lia. done. }
    f_equal. rewrite zlen_app. lia.
Qed.

(** *** Flat data *)

Lemma flatten_gathers h segs d : gathers h segs d -> forall len temp, zlen temp <= len < 2 ^ 64 ->
  flatten h segs len temp = Some (if len <=? zlen temp + zlen d then Temp (temp ++ ztake (len - zlen temp) d) else Null).
Proof.
  induction 1 as [|s segs d r Hs Hd _ _ _ IH]; intros len temp Ht; cbn [flatten]; pose proof (zlen_nonneg temp).
  - rewrite zlen_nil. destruct (Z.ltb_spec (zlen temp) len), (Z.leb_spec len (zlen temp + 0)); try lia; [done|].
    unfold ztake. by rewrite take_nil, app_nil_r.
  - rewrite zlen_app. pose proof (zlen_nonneg r). pose proof (load_length _ _ _ _ Hs Hd) as Hlen.
    destruct (Z.ltb_spec (zlen temp) len).
    2: { rewrite (proj2 (Z.leb_le _ _)) by lia. replace (len - zlen temp) with 0 by lia.
         by rewrite ztake_0, app_nil_r. }
    cbv zeta. rewrite wrap_small by (unfold in_u; lia). set (needed := Z.min _ _).
    assert (load h (data s) needed = Some (ztake needed d)) as ->.
    { pose proof (load_part h (data s) (length s) d 0 needed Hd) as Hp.
      assert (advance 0 (data s) = data s) as Hadv.
      { destruct (data s) as [[b o]|]; [|done]. cbn. by rewrite Z.add_0_r. }
      rewrite Hadv, zdrop_0 in Hp. apply Hp; lia. }
    cbn [mbind option_bind]. assert (zlen (ztake needed d) = needed) as Hn by (rewrite zlen_ztake; lia).
    rewrite IH by (rewrite zlen_app; lia). rewrite !zlen_app, Hn.
    destruct (Z.le_gt_cases (len - zlen temp) (length s)).
    + replace needed with (len - zlen temp) in * by lia. rewrite !(proj2 (Z.leb_le _ _)) by lia.
      replace (len - (zlen temp + (len - zlen temp))) with 0 by lia. rewrite ztake_0, app_nil_r.
      by rewrite ztake_app_le by lia.
    + assert (needed = zlen d) as Hnd by lia. rewrite (ztake_ge needed) by lia.
      rewrite (ztake_app_ge (len - zlen temp)) by lia.
      replace (zlen temp + needed + zlen r) with (zlen temp + (zlen d + zlen r)) by lia.
      rewrite <- app_assoc. replace (len - (zlen temp + needed)) with (len - zlen temp - zlen d) by lia. done.
Qed.


(** The bytes that the caller finds there *)
Definition flat_bytes (h : heap) (f : flat) (len : Z) : option bytes :=
  match f with Null => None | Direct p => load h p len | Temp d => Some d end.

Lemma flat_multi_gathers h segs d : gathers h segs d -> forall offset len,
  0 <= offset -> 0 < len -> offset + len < 2 ^ 64 -> zlen d < 2 ^ 64 ->
  exists f, get_flat_data_multi h segs offset len = Some f /\
    flat_bytes h f len = if offset + len <=? zlen d then Some (ztake len (zdrop offset d)) else None.
Proof.
  induction 1 as [|s segs d r Hs Hd _ _ Hr IH]; intros offset len Ho Hlen Hlt Hz; cbn [get_flat_data_multi].
  { exists Null. rewrite zlen_nil, (proj2 (Z.leb_gt _ _)) by lia. done. }
  rewrite zlen_app in *. pose proof (zlen_nonneg r). pose proof (load_length _ _ _ _ Hs Hd) as Hl.
  destruct (Z.ltb_spec offset (length s)) as [Hin|Hpast].
  - rewrite wrap_small by (unfold in_u; lia). rewrite (zdrop_app_le offset) by lia.
    destruct (Z.ltb_spec (offset + len) (length s)).
    + eexists. split; [done|]. cbn [flat_bytes]. rewrite (load_part h _ (length s) d) by (done || lia).
      rewrite (proj2 (Z.leb_le _ _)) by lia.
      rewrite ztake_app_le by (rewrite zlen_zdrop; lia). done.
    + rewrite (load_part_of h s d) by (done || lia). cbn [mbind option_bind].
      rewrite (ztake_ge (length s - offset)) by (rewrite zlen_zdrop; lia).
      rewrite (flatten_gathers _ _ _ Hr) by (rewrite zlen_zdrop; lia).
      eexists. split; [done|]. rewrite zlen_zdrop by lia.
      replace (0 `max` (zlen d - offset)) with (zlen d - offset) by lia.
      destruct (Z.leb_spec len (zlen d - offset + zlen r)), (Z.leb_spec (offset + len) (zlen d + zlen r)); try lia; [|done].
      cbn [flat_bytes]. rewrite ztake_app_ge by (rewrite zlen_zdrop; lia).
      rewrite zlen_zdrop by lia. do 3 f_equal. lia.
  - rewrite wrap_small by (unfold in_u; lia). destruct (IH (offset - length s) len) as (f & -> & Hf); [lia..|].
    exists f. split; [done|]. rewrite Hf, (zdrop_app_ge offset) by lia. rewrite Hl.
    destruct (Z.leb_spec (offset - length s + len) (zlen r)), (Z.leb_spec (offset + len) (length s + zlen r)); (done || lia).
Qed.

Lemma flat_gathers h sz segs d offset len : gathers h segs d ->
  0 <= offset -> 0 < len -> offset + len < 2 ^ 64 -> zlen d < 2 ^ 64 ->
  exists f, get_flat_data h (mk_Buffer sz segs) offset len = Some f /\
    flat_bytes h f len = if offset + len <=? zlen d then Some (ztake len (zdrop offset d)) else None.
Proof.
  intros Hg Ho Hlen Hlt Hz. unfold get_flat_data. cbn [segments].
  destruct segs as [|s [|s2 segs]]; [by apply flat_multi_gathers| |by apply flat_multi_gathers].
  inversion Hg as [|? ? d1 r Hs Hd _ _ Hr]; subst. inversion Hr; subst. rewrite app_nil_r in *.
  pose proof (load_length _ _ _ _ Hs Hd) as Hl. rewrite wrap_small by (unfold in_u; lia). rewrite Z.gtb_ltb.
  destruct (Z.ltb_spec (length s) (offset + len)), (Z.leb_spec (offset + len) (zlen d1)); try lia.
  - by exists Null.
  - eexists. split; [done|]. cbn [flat_bytes]. by apply (load_part h _ (length s)); try lia.
Qed.

(** *** Freeing *)

(** Whether one of the segments owns the block *)
Definition owns (segs : list Segment) (x : nat) : bool :=
  existsb (fun s => bool_decide (owned_data s = Some x)) segs.
(** [h'] is [h] without exactly the blocks that [segs] own and [segs'] do not. *)
Definition frees (segs segs' : list Segment) (h h' : heap) : Prop :=
  forall x, h' !! x = if owns segs x && negb (owns segs' x) then None else h !! x.
(** Only blocks that [segs] own are missing in [h']. *)
Definition freed (segs : list Segment) (h h' : heap) : Prop :=
  forall x, Forall (fun t => owned_data t <> Some x) segs -> h' !! x = h !! x.
Lemma frees_nil h : frees [] [] h h.
Proof. done. Qed.
Lemma owns_false segs x : Forall (fun t => owned_data t <> Some x) segs -> owns segs x = false.
Proof. induction 1 as [|t segs Ht _ IH]; [done|]. cbn. rewrite bool_decide_eq_false_2 by done. exact IH. Qed.
Lemma frees_freed segs segs' h h' : frees segs segs' h h' -> freed segs h h'.
Proof. intros Hf x Hx. by rewrite Hf, owns_false. Qed.
Lemma apart_owns s segs x : Forall (apart s) segs -> owned_data s = Some x -> owns segs x = false.
Proof.
  intros Ha Hx. apply owns_false. eapply Forall_impl; [exact Ha|]. intros t [Hst _]. by apply Hst.
Qed.
(** A segment that is kept, and one that is given up, in front of others *)
Lemma frees_keep s segs segs' h h' : frees segs segs' h h' -> Forall (apart s) segs ->
  frees (s :: segs) (s :: segs') h h'.
Proof.
  intros Hf Ha x. rewrite Hf. cbn. destruct (bool_decide_reflect (owned_data s = Some x)) as [Hx|Hx]; [|done].
  by rewrite (apart_owns s segs x Ha Hx).
Qed.
Lemma frees_drop s segs segs' h h1 h' : frees [s] [] h h1 -> frees segs segs' h1 h' ->
  Forall (apart s) segs -> Forall (apart s) segs' -> frees (s :: segs) segs' h h'.
Proof.
  intros Hs Hf Ha Ha' x. rewrite Hf, Hs. cbn.
  destruct (bool_decide_reflect (owned_data s = Some x)) as [Hx|Hx]; cbn; [|done].
  by rewrite (apart_owns s segs x Ha Hx), (apart_owns s segs' x Ha' Hx).
Qed.
(** Freeing what a segment owns *)
Lemma free_owned s h : live h s -> exists h',
  (match owned_data s with Some b => free b h | None => Some h end) = Some h' /\ frees [s] [] h h'.
Proof.
  intros Hl. destruct (owned_data s) as [x|] eqn:Hx.
  - destruct (Hl x Hx) as [blk Hblk]. unfold free. rewrite Hblk. eexists. split; [done|]. intros y. cbn. rewrite Hx.
    destruct (bool_decide_reflect (Some x = Some y)) as [[= ->]|Hne]; cbn; [apply lookup_delete_eq|].
    apply lookup_delete_ne. congruence.
  - exists h. split; [done|]. intros y. cbn. by rewrite Hx.
Qed.

Lemma spares_load segs h h' s : freed segs h h' -> Forall (apart s) segs ->
  load h' (data s) (length s) = load h (data s) (length s).
Proof.
  intros Hf Ha. apply load_frame. intros Hn b o Hp. apply Hf. eapply Forall_impl; [exact Ha|].
  intros t [_ Hts] Ht. destruct (Hts b Ht) as [_ H]. by apply (H Hn o).
Qed.
Lemma spares_live segs h h' s : freed segs h h' -> Forall (apart s) segs -> live h s -> live h' s.
Proof.
  intros Hf Ha Hl x Hx. rewrite Hf; [by apply Hl|]. eapply Forall_impl; [exact Ha|].
  intros t [Hst _]. by apply Hst.
Qed.

Lemma apart_sym s t : apart s t -> apart t s.
Proof. intros [? ?]. by split. Qed.
(** A part of a segment is apart from what the segment is apart from. *)
Lemma apart_part s t t' : apart s t -> (owned_data t' = owned_data t \/ owned_data t' = None) ->
  (length t' <> 0 -> length t <> 0 /\ forall b o, data t' = Some (b, o) -> exists o', data t = Some (b, o')) ->
  apart s t'.
Proof.
  intros [Hst Hts] Ho Hd. split.
  - intros x Hx. destruct (Hst x Hx) as [H1 H2]. split; [destruct Ho as [-> | ->]; [exact H1|done]|].
    intros Hn o Hp. destruct (Hd Hn) as [Hn' Hp']. destruct (Hp' _ _ Hp) as [o' Ho']. by apply (H2 Hn' o').
  - intros x Hx. apply Hts. destruct Ho as [Ho|Ho]; congruence.
Qed.

Lemma gathers_frame s h h' segs d : freed [s] h h' -> Forall (apart s) segs -> gathers h segs d ->
  gathers h' segs d.
Proof.
  intros Hf Ha Hg. induction Hg as [|t segs d r Ht Hd Hl Ha' Hr IH]; [constructor|].
  apply Forall_cons in Ha as [Hst Ha]. apply apart_sym in Hst.
  constructor; [done| |by eapply spares_live; [exact Hf|constructor|]|done|by apply IH].
  by rewrite (spares_load [s] h h') by (done || by constructor).
Qed.

Lemma destroy_all_gathers segs : forall h d, gathers h segs d ->
  exists h', destroy_all segs h = Some h' /\ frees segs [] h h'.
Proof.
  induction segs as [|s segs IH]; intros h d Hg; cbn [destroy_all].
  { exists h. split; [done|apply frees_nil]. }
  inversion Hg as [|? ? d1 r Hs Hd Hl Ha Hr]; subst. destruct (free_owned s h Hl) as (h1 & H1 & Hf1).
  assert (exists s', seg_destroy s h = Some (s', h1)) as (s' & ->).
  { unfold seg_destroy. destruct (owned_data s); [rewrite H1; by eexists|]. injection H1 as ->. by eexists. }
  cbn [mbind option_bind]. pose proof (gathers_frame _ _ _ _ _ (frees_freed _ _ _ _ Hf1) Ha Hr) as Hr1.
  destruct (IH h1 r Hr1) as (h' & H' & Hf'). exists h'. split; [exact H'|].
  by apply (frees_drop s segs [] h h1 h').
Qed.

(** What an operation makes of the segments [segs]: [segs'], which hold [d]
    and use no more of the memory, without the blocks that are owned no more. *)
Definition becomes (h : heap) (segs : list Segment) (h' : heap) (segs' : list Segment) (d : bytes) : Prop :=
  gathers h' segs' d /\ frees segs segs' h h' /\ forall s, Forall (apart s) segs -> Forall (apart s) segs'.

Lemma becomes_cons h h' s segs segs' d r : 0 <= length s -> load h (data s) (length s) = Some d -> live h s ->
  Forall (apart s) segs -> becomes h segs h' segs' r -> becomes h (s :: segs) h' (s :: segs') (d ++ r).
Proof.
  intros Hs Hd Hl Ha (Hg & Hf & Hap). split; [|split].
  - pose proof (frees_freed _ _ _ _ Hf). constructor; [done| |by eapply spares_live|by apply Hap|done].
    by rewrite (spares_load segs h h').
  - by apply frees_keep.
  - intros t [Ht Hts]%Forall_cons. constructor; [done|]. by apply Hap.
Qed.

Lemma limit_from_gathers segs : forall h d len total, gathers h segs d ->
  0 <= total -> total <= len -> total + zlen d < 2 ^ 64 -> len < 2 ^ 64 -> 
  exists segs' h', limit_from segs len total h = Some (Z.min len (total + zlen d), segs', h') /\
    becomes h segs h' segs' (ztake (len - total) d).
Proof.
  induction segs as [|s segs IH]; intros h d len total Hg Ht Htl Hlt Hlen; cbn [limit_from].
  { inversion Hg; subst. exists [], h. rewrite zlen_nil. split; [do 3 f_equal; lia|].
    unfold ztake. rewrite take_nil. split; [constructor|]. split; [apply frees_nil|done]. }
  inversion Hg as [|? ? d1 r Hs Hd Hl Ha Hr]; subst. rewrite zlen_app in *.
  pose proof (zlen_nonneg r). pose proof (load_length _ _ _ _ Hs Hd) as Hl1.
  cbv zeta. rewrite (wrap_small 64 (total + length s)) by (unfold in_u; lia).
  destruct (Z.geb_spec (total + length s) len) as [Hge|Hsmall].
  - destruct (destroy_all_gathers _ _ _ Hr) as (h' & Hdes & Hfr). rewrite Hdes. cbn [mbind option_bind].
    pose proof (frees_freed _ _ _ _ Hfr) as Hf.
    rewrite (wrap_small 64 (total + length s - len)) by (unfold in_u; lia).
    rewrite wrap_small by (unfold in_u; lia).
    replace (length s - (total + length s - len)) with (len - total) by lia.
    set (s' := mk_Segment _ _ _). eexists [s'], h'. split; [do 3 f_equal; lia|].
    rewrite ztake_app_le by lia.
    assert (becomes h (s :: segs) h' (s :: []) (d1 ++ [])) as (Hg' & Hf' & Hap').
    { apply becomes_cons; try done. split; [constructor|]. split; [done|]. constructor. }
    split; [|split; [done|]].
    + inversion Hg' as [|? ? d2 r2 Hs2 Hd2 Hl2 _ Hr2]; subst. inversion Hr2; subst.
      rewrite <- (app_nil_r (ztake _ d1)). constructor; try done; [cbn; lia|].
      assert (advance 0 (data s) = data s) as Hadv.
      { destruct (data s) as [[b o]|]; [|done]. cbn. by rewrite Z.add_0_r. }
      rewrite (spares_load segs h h') in Hd2 by done.
      pose proof (load_part h' (data s) (length s) d1 0 (len - total)) as Hp.
      rewrite Hadv, zdrop_0 in Hp. apply Hp; [|lia..]. by rewrite (spares_load segs h h').
    + intros t Hta. apply Hap' in Hta. apply Forall_cons in Hta as [Hta _]. constructor; [|done].
      eapply apart_part; [exact Hta|by left|]. cbn. intros Hn. split; [lia|]. eauto.
  - destruct (IH h r len (total + length s) Hr) as (segs' & h' & Hlim & Hb); [lia..|].
    rewrite Hlim. cbn [mbind option_bind]. exists (s :: segs'), h'.
    split; [do 3 f_equal; lia|]. rewrite ztake_app_ge by lia. apply becomes_cons; try done.
    by replace (len - total - zlen d1) with (len - (total + length s)) by lia.
Qed.


Lemma advance_part h s d n : 0 <= length s -> load h (data s) (length s) = Some d -> 0 <= n <= length s ->
  load h (advance n (data s)) (length s - n) = Some (zdrop n d).
Proof.
  intros Hs Hd Hn. pose proof (load_length _ _ _ _ Hs Hd).
  rewrite (load_part h _ (length s) d) by (done || lia). by rewrite ztake_ge by (rewrite zlen_zdrop; lia).
Qed.
Lemma advance_some n p b o : advance n p = Some (b, o) -> exists o', p = Some (b, o').
Proof. destruct p as [[b' o']|]; [|done]. cbn. intros [= -> _]. by eexists. Qed.

Lemma reset_gathers h s segs d r : load h (data s) (length s) = Some d -> live h s ->
  Forall (apart s) segs -> gathers h segs r ->
  exists h', seg_reset 0 s h = Some (mk_Segment None None 0, h') /\ frees [s] [] h h' /\ gathers h' segs r.
Proof.
  intros Hd Hl Ha Hr. unfold seg_reset. cbn [Z.eqb].
  destruct (free_owned s h Hl) as (h1 & -> & Hf). exists h1. split; [done|]. split; [done|].
  eapply gathers_frame; [by eapply frees_freed|done..].
Qed.

Lemma consume_from_gathers segs : forall h d n, gathers h segs d -> 0 <= n < 2 ^ 64 -> zlen d < 2 ^ 64 ->
  exists segs' h', consume_from n segs h = Some (segs', h') /\ becomes h segs h' segs' (zdrop n d).
Proof.
  induction segs as [|s segs IH]; intros h d n Hg Hn Hlt; cbn [consume_from].
  { inversion Hg; subst. exists [], h. split; [done|]. unfold zdrop. rewrite drop_nil.
    split; [constructor|]. split; [apply frees_nil|done]. }
  inversion Hg as [|? ? d1 r Hs Hd Hl Ha Hr]; subst. rewrite zlen_app in Hlt.
  pose proof (zlen_nonneg r). pose proof (load_length _ _ _ _ Hs Hd) as Hl1.
  destruct (Z.eqb_spec (length s) 0) as [Hz|Hz]; [|rewrite Z.gtb_ltb; destruct (Z.ltb_spec n (length s)) as [Hin|Hall]].
  - destruct (IH h r n Hr) as (segs' & h' & Hc & Hb); [lia..|]. rewrite Hc. exists (s :: segs'), h'.
    split; [done|]. assert (d1 = []) as -> by (apply zlen_zero; lia). by apply (becomes_cons h h' s segs segs' []).
  - exists (seg_consume n s :: segs), h. split; [done|]. rewrite zdrop_app_le by lia.
    assert (forall t, apart t s -> apart t (seg_consume n s)) as Hpart.
    { intros t Ht. eapply apart_part; [exact Ht|by left|]. intros _. split; [lia|].
      intros b o Hp. exact (advance_some _ _ _ _ Hp). }
    split; [|split; [intros x; change (owns (seg_consume n s :: segs) x) with (owns (s :: segs) x); by destruct (owns (s :: segs) x)|]].
    + constructor; cbn [length data seg_consume]; rewrite ?wrap_small by (unfold in_u; lia); try done; [lia|by apply advance_part; try lia|].
      eapply Forall_impl; [exact Ha|]. intros t Ht. by apply apart_sym, Hpart, apart_sym.
    + intros t [Ht Hts]%Forall_cons. constructor; [by apply Hpart|done].
  - destruct (reset_gathers h s segs d1 r Hd Hl Ha Hr) as (h1 & -> & Hf1 & Hr1). cbn [mbind option_bind].
    rewrite wrap_small by (unfold in_u; lia).
    destruct (IH h1 r (n - length s) Hr1) as (segs' & h' & Hc & Hg' & Hf' & Hap'); [lia..|]. rewrite Hc.
    exists (mk_Segment None None 0 :: segs'), h'. split; [done|].
    rewrite zdrop_app_ge, Hl1 by lia. split; [|split].
    + rewrite <- (app_nil_l (zdrop _ r)). constructor; try done. apply Forall_forall. intros t _.
      split; [done|]. intros x _. split; [done|]. done.
    + pose proof (frees_drop s segs segs' h h1 h' Hf1 Hf' Ha (Hap' s Ha)) as Hfd. exact Hfd.
    + intros t [Ht Hts]%Forall_cons. constructor; [|by apply Hap'].
      split; [|done]. intros x _. split; [done|]. done.
Qed.

(** *** Tidying *)

Definition occupied (s : Segment) : bool := negb (length s =? 0).
Lemma filter_gathers h segs d : gathers h segs d -> gathers h (List.filter occupied segs) d.
Proof.
  induction 1 as [|s segs d r Hs Hd Hl Ha Hr IH]; [constructor|]. cbn [List.filter]. unfold occupied at 1.
  destruct (Z.eqb_spec (length s) 0) as [Hz|Hz]; cbn [negb].
  - rewrite Hz in Hd. unfold load in Hd. cbn in Hd. by injection Hd as <-.
  - constructor; try done. apply Forall_forall. intros t Ht. apply list_elem_of_In, filter_In in Ht as [Ht _].
    rewrite Forall_forall in Ha. apply Ha. by apply list_elem_of_In.
Qed.

(** After [i] turns: the occupied ones of the first [i] segments, then free
    ones, then the rest as it was. *)
Definition tidied (segs : list Segment) (i : nat) (s : list Segment * list nat * nat) : Prop :=
  let '(segs', free, n) := s in
  exists gap, segs' = List.filter occupied (take i segs) ++ gap ++ drop i segs /\
    n = List.length (List.filter occupied (take i segs)) /\ free = seq n (List.length gap) /\
    (n + List.length gap = i)%nat.

Lemma tidy_step_tidied segs i s : (i < List.length segs)%nat -> tidied segs i s -> tidied segs (S i) (tidy_step i s).
Proof.
  destruct s as [[segs' free] n]. intros Hi (gap & Hsegs & Hn & Hfree & Hgap). unfold tidy_step.
  destruct (lookup_lt_is_Some_2 segs i Hi) as [x Hx].
  set (done_ := List.filter occupied (take i segs)) in *.
  assert (drop i segs = x :: drop (S i) segs) as Hdrop by by apply drop_S.
  assert (segs' !! i = Some x) as ->.
  { rewrite Hsegs, app_assoc, lookup_app_r by (rewrite length_app; lia).
    rewrite length_app. replace (i - _)%nat with 0%nat by lia. by rewrite Hdrop. }
  assert (List.filter occupied (take (S i) segs) = done_ ++ (if occupied x then [x] else [])) as Htake.
  { rewrite (take_S_r _ _ _ Hx), List.filter_app. done. }
  unfold occupied in Htake at 2. destruct (length x =? 0) eqn:Hz; cbn [negb] in Htake.
  - exists (gap ++ [x]). rewrite Htake, app_nil_r. split; [|split; [done|split]].
    + by rewrite Hsegs, Hdrop, <- app_assoc.
    + rewrite Hfree, length_app, seq_app. cbn. by rewrite Hgap.
    + rewrite length_app. cbn. lia.
  - destruct free as [|f rest].
    + destruct gap; [|done]. exists []. rewrite Htake. cbn [app] in *. split; [|split; [|split]].
      * by rewrite Hsegs, Hdrop, <- app_assoc.
      * rewrite length_app. cbn. lia.
      * done.
      * cbn in *. lia.
    + destruct gap as [|g gap]; [done|]. cbn [length seq] in Hfree. injection Hfree as -> ->.
      cbn [take_seg]. set (emptied := mk_Segment None (data x) (length x)).
      exists (gap ++ [seg_consume (length emptied) emptied]). rewrite Htake. split; [|split; [|split]].
      * rewrite Hsegs, Hdrop. rewrite insert_app_r_alt by lia. rewrite <- Hn, Nat.sub_diag. cbn [app].
        replace (<[0%nat:=x]> (g :: gap ++ x :: drop (S i) segs)) with (x :: gap ++ x :: drop (S i) segs) by done.
        cbn [List.length] in Hgap. change (x :: gap ++ x :: drop (S i) segs) with ((x :: gap) ++ x :: drop (S i) segs).
        rewrite app_assoc, insert_app_r_alt by (rewrite length_app; cbn [List.length]; lia).
        rewrite length_app. cbn [List.length]. replace (i - _)%nat with 0%nat by lia.
        rewrite <- !app_assoc. done.
      * rewrite length_app. cbn. lia.
      * rewrite length_app. cbn [List.length] in *. rewrite seq_app. cbn [seq]. do 2 f_equal. lia.
      * rewrite length_app. cbn [List.length] in *. lia.
Qed.

Lemma tidy_filter b : segments (tidy b) = List.filter occupied (segments b).
Proof.
  unfold tidy. set (segs := segments b).
  assert (forall k, (k <= List.length segs)%nat ->
    tidied segs k (fold_left (fun s i => tidy_step i s) (seq 0 k) (segs, [], O))) as H.
  { induction k as [|k IH]; intros Hk.
    - exists []. by rewrite take_0, drop_0.
    - rewrite seq_S, fold_left_app. cbn [fold_left]. apply tidy_step_tidied; [lia|]. apply IH. lia. }
  specialize (H _ (Nat.le_refl _)). destruct (fold_left _ _ _) as [[segs' free] n].
  destruct H as (gap & -> & -> & _). cbn [segments]. rewrite firstn_all. by rewrite take_app_length.
Qed.


(** *** Iterators *)

Lemma gathers_app h l1 l2 d : gathers h (l1 ++ l2) d ->
  exists d1 d2, d = d1 ++ d2 /\ gathers h l1 d1 /\ gathers h l2 d2.
Proof.
  revert d. induction l1 as [|s l1 IH]; intros d Hg; cbn [app] in Hg.
  - exists [], d. split; [done|]. split; [constructor|done].
  - inversion Hg as [|? ? d1 r Hs Hd Hl Ha Hr]; subst. destruct (IH r Hr) as (d2 & d3 & -> & H1 & H2).
    exists (d1 ++ d2), d3. rewrite <- app_assoc. split; [done|]. split; [|done].
    constructor; try done. by apply Forall_app in Ha as [Ha _].
Qed.
Lemma gathers_fun h segs d d' : gathers h segs d -> gathers h segs d' -> d = d'.
Proof.
  intros H. revert d'. induction H as [|s segs d r Hs Hd _ _ _ IH]; intros d' H'; inversion H'; subst; [done|].
  f_equal; [congruence|by apply IH].
Qed.

(** The iterator points at the byte [p] of [d], or at the end. *)
Definition at_pos (h : heap) (segs : list Segment) (d : bytes) (it : iterator) (p : Z) : Prop :=
  match dp it with
  | End => countdown it = 0 /\ segment it = List.length segs /\ p = zlen d
  | At q => exists s d0 d1 r, segs !! segment it = Some s /\ gathers h (take (segment it) segs) d0 /\
      0 <= length s /\ load h (data s) (length s) = Some d1 /\ gathers h (drop (S (segment it)) segs) r /\
      d = d0 ++ d1 ++ r /\ 0 < countdown it <= length s /\
      q = advance (length s - countdown it) (data s) /\ p = zlen d0 + (length s - countdown it)
  end.

Lemma advance_advance n m p : advance n (advance m p) = advance (m + n) p.
Proof. destruct p as [[b o]|]; [|done]. cbn. do 2 f_equal. lia. Qed.
Lemma advance_0 p : advance 0 p = p.
Proof. destruct p as [[b o]|]; [|done]. cbn. by rewrite Z.add_0_r. Qed.

Lemma first_from_pos h segs d : gathers h segs d -> forall n i d0 r, (n = List.length segs - i)%nat ->
  (i <= List.length segs)%nat -> gathers h (take i segs) d0 -> d = d0 ++ r -> gathers h (drop i segs) r ->
  at_pos h segs d (first_from i (drop i segs)) (zlen d0) /\
  (i <= segment (first_from i (drop i segs)))%nat.
Proof.
  intros Hg. induction n as [|n IH]; intros i d0 r Hn Hi H0 Hd Hr.
  - assert (i = List.length segs) as -> by lia. rewrite drop_all in *. inversion Hr; subst r.
    cbn [first_from]. unfold at_pos. cbn. rewrite Hd, app_nil_r. done.
  - destruct (lookup_lt_is_Some_2 segs i) as [s Hs]; [lia|]. rewrite (drop_S _ _ _ Hs) in *.
    inversion Hr as [|? ? d1 r' Hl Hload _ _ Hr']; subst r. cbn [first_from].
    pose proof (load_length _ _ _ _ Hl Hload) as Hlen. destruct (Z.eqb_spec (length s) 0) as [Hz|Hz].
    + assert (d1 = []) as -> by (apply zlen_zero; lia).
      destruct (IH (S i) d0 r') as [Hp Hle]; [lia|lia| |done|done|].
      * rewrite (take_S_r _ _ _ Hs). rewrite <- (take_drop i segs), (drop_S _ _ _ Hs) in Hg.
        assert (take i segs ++ s :: drop (S i) segs = (take i segs ++ [s]) ++ drop (S i) segs) as E
          by by rewrite <- app_assoc.
        rewrite E in Hg. destruct (gathers_app _ _ _ _ Hg) as (a & b & Hab & Ha & Hb).
        destruct (gathers_app _ _ _ _ Ha) as (a1 & a2 & -> & Ha1 & Ha2).
        rewrite (gathers_fun _ _ _ _ H0 Ha1). inversion Ha2 as [|? ? d2 r2 _ Hd2 _ _ Hr2]; subst.
        inversion Hr2; subst. rewrite Hload in Hd2. injection Hd2 as <-. by rewrite app_nil_r in Ha.
      * split; [done|]. lia.
    + unfold at_pos. cbn [dp segment countdown]. split; [|lia].
      exists s, d0, d1, r'. rewrite Z.sub_diag, advance_0. repeat (split; [done || lia|]). lia.
Qed.

Lemma next_segment_pos h segs d it p q : gathers h segs d -> at_pos h segs d it p -> dp it = At q ->
  at_pos h segs d (next_segment segs it) (p + countdown it) /\
  (segment it < segment (next_segment segs it))%nat.
Proof.
  intros Hg Hp Hq. unfold at_pos in Hp. rewrite Hq in Hp.
  destruct Hp as (s & d0 & d1 & r & Hs & H0 & Hl & Hload & Hr & Hd & Hc & _ & ->).
  pose proof (load_length _ _ _ _ Hl Hload). apply lookup_lt_Some in Hs as Hlt. unfold next_segment.
  destruct (first_from_pos h segs d Hg _ (S (segment it)) (d0 ++ d1) r eq_refl) as [Hp Hle]; [lia| |by rewrite <- app_assoc|done|].
  - rewrite (take_S_r _ _ _ Hs). rewrite <- (take_drop (S (segment it)) segs), (take_S_r _ _ _ Hs) in Hg.
    destruct (gathers_app _ _ _ _ Hg) as (a & b & Hab & Ha & Hb). rewrite Hd in Hab.
    rewrite (gathers_fun _ _ _ _ Hr Hb), app_assoc in Hab. apply app_inv_tail in Hab. by rewrite Hab.
  - rewrite zlen_app in Hp. split; [|lia]. replace (zlen d0 + (length s - countdown it) + countdown it) with (zlen d0 + zlen d1) by lia.
    done.
Qed.

Lemma at_pos_range h segs d it p : at_pos h segs d it p -> 0 <= p <= zlen d /\ (dp it <> End -> p < zlen d).
Proof.
  unfold at_pos. destruct (dp it).
  - intros (_ & _ & ->). pose proof (zlen_nonneg d). split; [lia|done].
  - intros (s & d0 & d1 & r & _ & _ & Hl & Hload & _ & -> & Hc & _ & ->).
    pose proof (load_length _ _ _ _ Hl Hload). rewrite !zlen_app. pose proof (zlen_nonneg d0).
    pose proof (zlen_nonneg r). split; [lia|]. lia.
Qed.

Lemma move_pos h segs d it p q n : at_pos h segs d it p -> dp it = At q -> n < countdown it ->
  - n <= (match segs !! segment it with Some s => length s | None => 0 end) - countdown it ->
  at_pos h segs d (move n it) (p + n).
Proof.
  unfold at_pos, move. cbn [dp segment countdown]. intros Hp Hq Hn Hb. rewrite Hq in *.
  destruct Hp as (s & d0 & d1 & r & Hs & H0 & Hl & Hload & Hr & Hd & Hc & -> & ->).
  rewrite Hs in Hb. exists s, d0, d1, r. rewrite advance_advance.
  repeat (split; [done || lia|]). split; [f_equal; lia|lia].
Qed.

Lemma add_to_pos h segs d : gathers h segs d -> zlen d < 2 ^ 64 -> forall fuel n it p,
  at_pos h segs d it p -> 0 <= n < 2 ^ 64 -> (List.length segs < segment it + fuel)%nat ->
  exists it', add_to fuel segs n it = Some it' /\ at_pos h segs d it' (Z.min (p + n) (zlen d)).
Proof.
  intros Hg Hz. induction fuel as [|fuel IH]; intros n it p Hp Hn Hf.
  { exfalso. unfold at_pos in Hp. destruct (dp it).
    - destruct Hp as (_ & ? & _). lia.
    - destruct Hp as (s & ? & ? & ? & Hs & _). apply lookup_lt_Some in Hs. lia. }
  cbn [add_to]. destruct (dp it) as [|q] eqn:Hq.
  - unfold is_end. rewrite Hq. pose proof Hp as Hp'. unfold at_pos in Hp'. rewrite Hq in Hp'.
    destruct Hp' as (Hc & _ & ->). destruct (Z.geb_spec n (countdown it)); [|lia].
    exists it. split; [done|]. rewrite Z.min_r by lia. done.
  - unfold is_end. rewrite Hq. destruct (at_pos_range _ _ _ _ _ Hp) as [Hr1 Hr2]. rewrite Hq in Hr2.
    specialize (Hr2 ltac:(done)).
    assert (0 < countdown it <= zlen d - p) as Hc.
    { unfold at_pos in Hp. rewrite Hq in Hp.
      destruct Hp as (s & d0 & d1 & r & _ & _ & Hl & Hload & _ & -> & Hc & _ & ->).
      pose proof (load_length _ _ _ _ Hl Hload). pose proof (zlen_nonneg r). rewrite !zlen_app. lia. }
    destruct (Z.geb_spec n (countdown it)).
    + destruct (next_segment_pos _ _ _ _ _ _ Hg Hp Hq) as [Hp' Hlt].
      rewrite wrap_small by (unfold in_u; lia).
      destruct (IH (n - countdown it) _ _ Hp') as (it' & -> & Hit'); [lia|lia|]. exists it'. split; [done|].
      by replace (p + countdown it + (n - countdown it)) with (p + n) in Hit' by lia.
    + exists (move n it). split; [done|]. rewrite Z.min_l by lia. eapply move_pos; [exact Hp|exact Hq|lia|].
      unfold at_pos in Hp. rewrite Hq in Hp. destruct Hp as (s & d0 & d1 & r & -> & _ & _ & _ & _ & _ & ? & _). lia.
Qed.
Lemma plus_pos h segs d n it p : gathers h segs d -> zlen d < 2 ^ 64 -> at_pos h segs d it p -> 0 <= n < 2 ^ 64 ->
  exists it', plus segs n it = Some it' /\ at_pos h segs d it' (Z.min (p + n) (zlen d)).
Proof. intros Hg Hz Hp Hn. unfold plus. eapply add_to_pos; eauto. lia. Qed.

Lemma copy_rest_gathers h segs d : gathers h segs d -> forall o len out,
  0 <= o -> match segs with s :: _ => o <= length s | [] => True end ->
  zlen d < 2 ^ 64 -> zlen out <= len ->
  copy_rest h segs o len out = Some (out ++ ztake (len - zlen out) (zdrop o d)).
Proof.
  induction 1 as [|s segs d r Hs Hd _ _ Hr IH]; intros o len out Ho Hos Hlt Hout; cbn [copy_rest].
  { unfold zdrop, ztake. by rewrite drop_nil, take_nil, app_nil_r. }
  rewrite zlen_app in Hlt. pose proof (zlen_nonneg r). pose proof (load_length _ _ _ _ Hs Hd) as Hlen.
  pose proof (zlen_nonneg out). cbv zeta. rewrite !wrap_small by (unfold in_u; lia).
  set (to_read := Z.min _ _). assert (0 <= to_read) by lia.
  rewrite (load_part_of h s d) by (done || lia). cbn [mbind option_bind].
  rewrite zdrop_app_le by lia.
  assert (zlen (zdrop o d) = length s - o) as Hrest by (rewrite zlen_zdrop; lia).
  rewrite zlen_app, zlen_ztake, Hrest by lia.
  destruct (Z.geb_spec (zlen out + to_read `min` (length s - o)) len).
  - rewrite ztake_app_le by lia. f_equal. f_equal. f_equal. lia.
  - rewrite IH; [|lia| |lia|rewrite zlen_app, zlen_ztake, Hrest by lia; lia].
    2: { destruct segs as [|t segs]; [done|]. by apply gathers_lengths, Forall_inv in Hr. }
    rewrite (ztake_ge to_read) by lia. rewrite ztake_app_ge by lia.
    rewrite <- app_assoc, zdrop_0. do 4 f_equal. rewrite zlen_app. lia.
Qed.

Lemma copy_it_pos h segs d it p len : gathers h segs d -> zlen d < 2 ^ 64 -> at_pos h segs d it p ->
  0 <= len -> copy_it h segs it len = Some (ztake len (zdrop p d)).
Proof.
  intros Hg Hz Hp Hlen. unfold copy_it, get_segment, get_segment_offset, is_end.
  unfold at_pos in Hp. destruct (dp it) as [|q].
  - destruct Hp as (_ & _ & ->). rewrite zdrop_ge by lia. unfold ztake. by rewrite take_nil.
  - destruct Hp as (s & d0 & d1 & r & Hs & H0 & Hl & Hload & Hr & -> & Hc & _ & ->).
    pose proof (load_length _ _ _ _ Hl Hload). rewrite !zlen_app in Hz. pose proof (zlen_nonneg d0). pose proof (zlen_nonneg r).
    apply lookup_lt_Some in Hs as Hlt. rewrite (proj2 (Nat.ltb_lt _ _)) by done. rewrite Hs. cbn [mbind option_bind].
    rewrite wrap_small by (unfold in_u; lia).
    assert (gathers h (drop (segment it) segs) (d1 ++ r)) as Hgd.
    { rewrite <- (take_drop (segment it) segs) in Hg. destruct (gathers_app _ _ _ _ Hg) as (a & b & Hab & Ha & Hb).
      rewrite <- (gathers_fun _ _ _ _ H0 Ha) in Hab. apply app_inv_head in Hab. by rewrite Hab. }
    rewrite (copy_rest_gathers _ _ _ Hgd); [|lia|rewrite (drop_S _ _ _ Hs); lia|rewrite zlen_app; lia|rewrite zlen_nil; lia].
    rewrite zlen_nil, Z.sub_0_r, app_nil_l. f_equal. f_equal. rewrite (zdrop_app_ge _ d0) by lia. f_equal. lia.
Qed.


Lemma step_back_pos h segs i d0 : gathers h (take i segs) d0 -> (i <= List.length segs)%nat -> 0 < zlen d0 ->
  exists j s d1 d2, step_back segs i = Some j /\ (j < i)%nat /\ segs !! j = Some s /\ 0 < length s /\
    gathers h (take j segs) d1 /\ load h (data s) (length s) = Some d2 /\ d0 = d1 ++ d2.
Proof.
  revert d0. induction i as [|i IH]; intros d0 Hg Hi Hd; [inversion Hg; subst; change (0 < 0) in Hd; lia|].
  destruct (lookup_lt_is_Some_2 segs i) as [s Hs]; [lia|]. cbn [step_back]. rewrite Hs. cbn [mbind option_bind].
  rewrite (take_S_r _ _ _ Hs) in Hg. destruct (gathers_app _ _ _ _ Hg) as (d1 & d2 & -> & H1 & H2).
  inversion H2 as [|? ? d3 r Hl Hload _ _ Hr]; subst. inversion Hr; subst. rewrite app_nil_r in *.
  pose proof (load_length _ _ _ _ Hl Hload). destruct (Z.eqb_spec (length s) 0).
  - assert (d3 = []) as -> by (apply zlen_zero; lia). rewrite app_nil_r in *.
    destruct (IH d1 H1) as (j & s' & a & b & Hj & Hlt & Hrest); [lia|done|].
    exists j, s', a, b. split; [done|]. split; [lia|done].
  - exists i, s, d1, d3. repeat (split; [done || lia|]). done.
Qed.

Lemma previous_segment_pos h segs d it d0 : gathers h segs d -> gathers h (take (segment it) segs) d0 ->
  (segment it <= List.length segs)%nat -> 0 < zlen d0 ->
  exists it', previous_segment segs it = Some it' /\ at_pos h segs d it' (zlen d0 - 1) /\
    dp it' <> End /\ (segment it' < segment it)%nat.
Proof.
  intros Hg H0 Hi Hd. destruct (step_back_pos _ _ _ _ H0 Hi Hd) as (j & s & d1 & d2 & Hj & Hlt & Hs & Hl & H1 & Hload & ->).
  pose proof (load_length h (data s) (length s) d2 ltac:(lia) Hload).
  unfold previous_segment. rewrite (proj2 (Nat.eqb_neq _ _)) by lia. rewrite Hj. cbn [mbind option_bind].
  rewrite Hs. cbn [mbind option_bind]. rewrite (proj2 (Z.eqb_neq _ _)) by lia. eexists. split; [done|].
  split; [|done]. rewrite <- (take_drop j segs), (drop_S _ _ _ Hs) in Hg.
  destruct (gathers_app _ _ _ _ Hg) as (a & b & -> & Ha & Hb). rewrite <- (gathers_fun _ _ _ _ H1 Ha).
  inversion Hb as [|? ? d3 r _ Hd3 _ _ Hr]; subst. rewrite Hload in Hd3. injection Hd3 as <-.
  unfold at_pos. cbn [dp segment countdown]. exists s, d1, d2, r. rewrite zlen_app.
  repeat (split; [done || lia|]). lia.
Qed.

Lemma minus_pos h segs d n it p : gathers h segs d -> zlen d < 2 ^ 64 -> zlen segs < 2 ^ 32 ->
  at_pos h segs d it p -> 0 <= n <= p -> (dp it = End -> 0 < n) ->
  exists it', minus segs n it = Moved it' /\ at_pos h segs d it' (p - n).
Proof.
  intros Hg Hz Hsegs Hp Hn Hend.
  assert (exists m, loop_pos (2 ^ 65)%positive (minus_step segs) (n, it) = inr m /\
    exists it', m = Moved it' /\ at_pos h segs d it' (p - n)) as (m & Hm & it' & -> & Hit').
  2: { exists it'. unfold minus. by rewrite Hm. }
  apply (loop_pos_rule (minus_step segs)
    (fun '(sub, i) => exists q, at_pos h segs d i q /\ 0 <= sub <= q /\ (dp i = End -> 0 < sub) /\ q - sub = p - n)
    _ (fun '(_, i) => segment i)).
  - clear it Hp Hn Hend. intros [sub it] (q & Hq & Hsub & Hend & Hgoal). unfold minus_step.
    pose proof Hq as Hat. unfold at_pos in Hat. unfold is_end. destruct (dp it) as [|a] eqn:Hdp.
    + specialize (Hend eq_refl). destruct Hat as (_ & Hseg & ->).
      destruct (previous_segment_pos h segs d it d) as (it' & Hprev & Hit' & Hne & Hlt); [done|by rewrite Hseg, firstn_all|lia|lia|].
      destruct (Nat.eqb_spec (segment it) 0) as [H0|H0]; [lia|].
      cbn [orb]. rewrite Hprev. rewrite wrap_small by (unfold in_u; lia). split; [|done].
      exists (zlen d - 1). split; [done|]. split; [lia|]. split; [done|lia].
    + destruct Hat as (s & d0 & d1 & r & Hs & H0 & Hl & Hload & Hr & Hd & Hc & _ & Hqeq).
      rewrite Hs. cbn [mbind option_bind orb].
      pose proof (at_pos_range _ _ _ _ _ Hq). pose proof (zlen_nonneg d0).
      rewrite !(wrap_small 64 (length s - countdown it)) by (unfold in_u; subst; pose proof (load_length _ _ _ _ Hl Hload); rewrite !zlen_app in *; pose proof (zlen_nonneg r); lia).
      rewrite Z.gtb_ltb. destruct (Z.ltb_spec (length s - countdown it) sub).
      * apply lookup_lt_Some in Hs as Hlt.
        destruct (previous_segment_pos h segs d it d0) as (it' & Hprev & Hit' & Hne & Hlt'); [done|done|lia|lia|].
        destruct (Nat.eqb_spec (segment it) 0) as [Hz0|Hz0]; [lia|].
        rewrite Hprev. rewrite wrap_small by (unfold in_u; lia). split; [|done].
        exists (zlen d0 - 1). split; [done|]. split; [lia|]. split; [done|lia].
      * eexists. split; [done|]. replace (p - n) with (q + - sub) by lia.
        eapply move_pos; [exact Hq|exact Hdp|lia|]. rewrite Hs. lia.
  - exists p. done.
  - assert ((segment it <= List.length segs)%nat) as Hle.
    { unfold at_pos in Hp. destruct (dp it); [destruct Hp as (_ & -> & _); lia|].
      destruct Hp as (s & ? & ? & ? & Hs & _). apply lookup_lt_Some in Hs. lia. }
    unfold zlen in Hsegs. assert (2 ^ 32 < Z.of_nat (Pos.to_nat (2 ^ 65))); [|lia].
    by rewrite positive_nat_Z.
Qed.

(** *** The reader keeps the contract of a channel *)

Definition reader_ok (s : Reader.t) : Prop := exists d, gathers (Reader.memory s) (Reader.segs s) d /\
  zlen d < 2 ^ 64 /\ zlen (Reader.segs s) < 2 ^ 32 /\ bytes_ok d /\
  at_pos (Reader.memory s) (Reader.segs s) d (Reader.it s) (Reader.offset s).
Definition reader_pending (s : Reader.t) : bytes :=
  default [] (copy_it (Reader.memory s) (Reader.segs s) (Reader.it s) (2 ^ 64 - 1)).

Lemma reader_pending_pos s d : gathers (Reader.memory s) (Reader.segs s) d -> zlen d < 2 ^ 64 ->
  at_pos (Reader.memory s) (Reader.segs s) d (Reader.it s) (Reader.offset s) ->
  reader_pending s = zdrop (Reader.offset s) d.
Proof.
  intros Hg Hz Hp. unfold reader_pending. rewrite (copy_it_pos _ _ _ _ _ _ Hg Hz Hp) by lia. cbn.
  apply ztake_ge. pose proof (at_pos_range _ _ _ _ _ Hp). rewrite zlen_zdrop by lia. lia.
Qed.

Lemma gather_offset_ok s : reader_ok s -> in_u 64 (Reader.offset s).
Proof. intros (d & Hg & Hz & _ & _ & Hp). apply at_pos_range in Hp. unfold in_u. lia. Qed.

Lemma reader_at d s p : gathers (Reader.memory s) (Reader.segs s) d -> zlen d < 2 ^ 64 ->
  zlen (Reader.segs s) < 2 ^ 32 -> bytes_ok d ->
  at_pos (Reader.memory s) (Reader.segs s) d (Reader.it s) p -> Reader.offset s = p ->
  reader_ok s /\ reader_pending s = zdrop p d.
Proof. intros Hg Hz Hs Hb Hp <-. split; [by exists d|]. by apply reader_pending_pos. Qed.

Lemma gather_basic_read_ok s n : reader_ok s -> 0 <= n ->
  exists s', Reader.basic_read n s = (Val (ztake n (reader_pending s)), s') /\ reader_ok s' /\
    reader_pending s' = zdrop n (reader_pending s) /\
    Reader.offset s' = Reader.offset s + zlen (ztake n (reader_pending s)).
Proof.
  intros (d & Hg & Hz & Hsegs & Hb & Hp) Hn. pose proof (at_pos_range _ _ _ _ _ Hp) as [Hr _].
  rewrite (reader_pending_pos s d) by done. unfold Reader.basic_read.
  destruct (Z.eqb_spec n 0) as [->|Hn0].
  { exists s. rewrite ztake_0, zdrop_0, zlen_nil. split; [done|]. split; [by exists d|].
    split; [by apply reader_pending_pos|lia]. }
  rewrite (copy_it_pos _ _ _ _ _ _ Hg Hz Hp) by lia. set (k := zlen (ztake _ _)).
  assert (k = Z.min n (zlen d - Reader.offset s)) as Hk.
  { unfold k. rewrite zlen_ztake, zlen_zdrop by lia. lia. }
  destruct (plus_pos _ _ _ k _ _ Hg Hz Hp) as (i & -> & Hi); [lia|].
  rewrite Z.min_l in Hi by lia. rewrite wrap_small by (unfold in_u; lia).
  eexists. split; [done|].
  destruct (reader_at d (Reader.mk (Reader.memory s) (Reader.segs s) i (Reader.offset s + k)) (Reader.offset s + k))
    as [Hok Hpend]; try done.
  split; [done|]. split; [|done]. rewrite Hpend, zdrop_zdrop by lia.
  destruct (Z.le_gt_cases n (zlen d - Reader.offset s)); [by rewrite Hk, Z.min_l by lia|].
  rewrite !zdrop_ge by lia. done.
Qed.

Lemma gather_reads s n : reader_ok s -> 0 <= n ->
  exists d s', Reader.basic_read n s = (Val d, s') /\ reader_ok s' /\
    reader_pending s = d ++ reader_pending s' /\ zlen d <= n /\
    (0 < n -> reader_pending s <> [] -> d <> []) /\
    Reader.offset s' = u64 (Reader.offset s + zlen d).
Proof.
  intros Hok Hn. destruct (gather_basic_read_ok s n Hok Hn) as (s' & Hread & Hok' & Hpend & Hoff).
  exists (ztake n (reader_pending s)), s'. split; [done|]. split; [done|]. rewrite Hpend, ztake_zdrop.
  split; [done|]. rewrite zlen_ztake by lia. split; [lia|]. split.
  - intros H0 Hne. destruct (reader_pending s) as [|x l]; [done|]. unfold ztake.
    by destruct (Z.to_nat n) eqn:E; [lia|].
  - pose proof (gather_offset_ok s' Hok') as Hr. rewrite Hoff, zlen_ztake in * by lia. by rewrite wrap_small.
Qed.

#[export] Instance gather_reader_laws : ReaderLaws Reader.t.
Proof.
  refine {| r_ok := reader_ok; pending := reader_pending |}.
  - intros s (d & Hg & Hz & Hsegs & Hb & Hp). rewrite (reader_pending_pos s d) by done. by apply bytes_ok_zdrop.
  - apply gather_offset_ok.
  - apply gather_reads.
  - intros. apply base_try_read_delivers; [apply gather_offset_ok|apply gather_reads|done|done].
  - intros. apply base_try_read_string_delivers; [apply gather_offset_ok|apply gather_reads|done|done].
Defined.
#[export] Instance gather_reads_nothing : ReadsNothing Reader.t.
Proof. by split. Qed.


Lemma init_ok h b d : gathers h (segments b) d -> zlen d < 2 ^ 64 -> count b < 2 ^ 32 -> bytes_ok d ->
  reader_ok (Reader.init h b) /\ reader_pending (Reader.init h b) = d.
Proof.
  intros Hg Hz Hc Hb.
  destruct (first_from_pos h (segments b) d Hg _ 0 [] d eq_refl) as [Hp _]; [lia|constructor|done|done|].
  rewrite drop_0 in Hp. by destruct (reader_at d (Reader.init h b) 0).
Qed.

(** *** Adding *)

Lemma gathers_snoc h segs d s d1 : gathers h segs d -> 0 <= length s -> load h (data s) (length s) = Some d1 ->
  live h s -> Forall (apart s) segs -> gathers h (segs ++ [s]) (d ++ d1).
Proof.
  intros Hg Hl Hload Hlive. induction Hg as [|t segs d r Ht Hd Hlt Ha Hr IH]; intros Hap.
  - cbn [app]. rewrite <- (app_nil_r d1). by repeat constructor.
  - apply Forall_cons in Hap as [Hst Hap]. rewrite <- app_assoc. cbn [app]. constructor; try done; [|by apply IH].
    apply Forall_app. split; [done|]. constructor; [by apply apart_sym|done].
Qed.

Lemma grow_keeps b : 0 <= size b < 2 ^ 31 -> count b <= size b ->
  exists n, grow b = Some (mk_Buffer n (segments b)) /\ count b < n.
Proof.
  intros Hs Hc. unfold grow, resize. destruct (Z.geb_spec (count b) (size b)); [|by exists (size b); destruct b].
  assert (count b = size b) as Heq by lia. destruct (Z.eqb_spec (size b) 0) as [H0|H0].
  - rewrite (proj2 (Z.ltb_ge _ _)) by lia. exists 1. split; [done|lia].
  - rewrite wrap_small by (unfold in_u; lia). rewrite (proj2 (Z.ltb_ge _ _)) by lia.
    exists (size b * 2). split; [done|lia].
Qed.

(* ------------------------------------------------------------------ *)
(** ** Properties *)

(** A gather buffer is read as the bytes its segments hold one after the
    other: its length, a copy of any part (all there is of it), and the flat
    view of a part, whether it points into a segment or is put together, and
    null exactly when the part goes beyond the data. *)
Theorem gather_copies h b d offset len :
  gathers h (segments b) d -> zlen d < 2 ^ 64 -> 0 <= offset -> 0 < len -> offset + len < 2 ^ 64 ->
  get_length b = zlen d /\ copy h b offset len = Some (ztake len (zdrop offset d)) /\
  exists f, get_flat_data h b offset len = Some f /\
    flat_bytes h f len = if offset + len <=? zlen d then Some (ztake len (zdrop offset d)) else None.
Proof.
  intros Hg Hz Ho Hl Hlt. split; [|split].
  - unfold get_length. rewrite (get_length_from _ _ _ Hg) by lia. lia.
  - unfold copy. rewrite (copy_from_gathers _ _ _ Hg) by (rewrite ?zlen_nil; lia).
    by rewrite zlen_nil, !Z.sub_0_r.
  - destruct b as [sz segs]. by apply flat_gathers.
Qed.

(** C6: dropping data: [consume] leaves what follows the first [n] bytes,
    [limit] the first [n], [reset] nothing, and [tidy] every segment that has data; a
    block is freed, once, exactly when the buffer owned it and the segments that are
    left do not ([frees]: by [reset], all that it owned; by [tidy], which does not
    touch the memory, none), the rest of the memory is as it was, and what another
    buffer uses, apart from this one, stays apart from it. *)
Theorem gather_drops h b d n : gathers h (segments b) d -> zlen d < 2 ^ 64 -> 0 <= n < 2 ^ 64 ->
  (exists segs h', consume n b h = Some (mk_Buffer (size b) segs, h') /\
     becomes h (segments b) h' segs (zdrop n d)) /\
  (exists segs h', limit n b h = Some (Z.min n (zlen d), mk_Buffer (size b) segs, h') /\
     becomes h (segments b) h' segs (ztake n d)) /\
  (segments (tidy b) = List.filter occupied (segments b) /\ gathers h (segments (tidy b)) d) /\
  (exists h', reset b h = Some (mk_Buffer (size b) [], h') /\ frees (segments b) [] h h').
Proof.
  intros Hg Hz Hn. split; [|split; [|split]].
  - destruct (consume_from_gathers _ _ _ _ Hg Hn Hz) as (segs & h' & Hc & Hb).
    exists segs, h'. unfold consume. by rewrite Hc.
  - destruct (limit_from_gathers _ _ _ n 0 Hg) as (segs & h' & Hc & Hb); [lia..|].
    exists segs, h'. unfold limit. rewrite Hc. by rewrite Z.sub_0_r in Hb.
  - rewrite tidy_filter. split; [done|]. by apply filter_gathers.
  - destruct (destroy_all_gathers _ _ _ Hg) as (h' & Hdes & Hf). exists h'. unfold reset. by rewrite Hdes.
Qed.

(** [tidy] drops a segment that has no data without a look at what it owns: the block that
    [limit] left it with is lost, and neither [reset] nor anything else frees it. *)
Example tidy_loses_block :
  let b := mk_Buffer 1 [mk_Segment (Some 0%nat) (Some (0%nat, 0)) 2] in
  limit 0 b {[0%nat := [1; 2]]} = Some (0, mk_Buffer 1 [mk_Segment (Some 0%nat) (Some (0%nat, 0)) 0], {[0%nat := [1; 2]]}) /\
  segments (tidy (mk_Buffer 1 [mk_Segment (Some 0%nat) (Some (0%nat, 0)) 0])) = [].
Proof. by vm_compute. Qed.

(** A reader over a gather buffer is a channel of its bytes: a read gives
    the next [n] of them (or what is left), [skip] passes over them, and
    [rewind] goes back over what was read, across segments, empty ones
    included. *)
Theorem gather_reader_reads h b d n m : gathers h (segments b) d -> zlen d < 2 ^ 64 -> count b < 2 ^ 32 ->
  bytes_ok d -> 0 < m <= n -> n <= zlen d ->
  exists s s', Reader.basic_read n (Reader.init h b) = (Val (ztake n d), s) /\ reader_ok s /\
    reader_pending s = zdrop n d /\
    Reader.skip n (Reader.init h b) = (Val tt, s) /\
    Reader.rewind m s = (Val tt, s') /\ reader_ok s' /\ reader_pending s' = zdrop (n - m) d.
Proof.
  intros Hg Hz Hc Hb Hm Hn. destruct (init_ok h b d Hg Hz Hc Hb) as [Hok Hpend].
  set (s0 := Reader.init h b) in *.
  assert (at_pos h (segments b) d (Reader.it s0) 0) as Hp0.
  { destruct Hok as (d' & Hg' & _ & _ & _ & Hp). by rewrite (gathers_fun _ _ _ _ Hg Hg'). }
  destruct (plus_pos _ _ _ n _ _ Hg Hz Hp0) as (i & Hplus & Hi); [lia|].
  rewrite Z.add_0_l, Z.min_l in Hi by lia.
  set (s := Reader.mk h (segments b) i n).
  destruct (reader_at d s n) as [Hok1 Hpend1]; try done.
  destruct (minus_pos _ _ _ m _ _ Hg Hz Hc Hi) as (j & Hminus & Hj); [lia|lia|].
  destruct (reader_at d (Reader.mk h (segments b) j (n - m)) (n - m)) as [Hok2 Hpend2]; try done.
  exists s, (Reader.mk h (segments b) j (n - m)). split; [|split; [done|split; [done|split; [|split; [|done]]]]];
    unfold s0, Reader.init in *; cbn [Reader.memory Reader.segs Reader.it Reader.offset] in *.
  - unfold Reader.basic_read. cbn [Reader.memory Reader.segs Reader.it Reader.offset].
    rewrite (proj2 (Z.eqb_neq _ _)) by lia.
    rewrite (copy_it_pos _ _ _ _ _ n Hg Hz Hp0) by lia. rewrite zdrop_0, zlen_ztake, Z.min_l by lia.
    rewrite Hplus. cbn [Reader.offset]. rewrite wrap_small by (unfold in_u; lia). done.
  - unfold Reader.skip. cbn [Reader.memory Reader.segs Reader.it Reader.offset]. unfold get_length. cbn [segments].
    rewrite (get_length_from _ _ _ Hg) by lia. rewrite Z.add_0_l, wrap_small by (unfold in_u; lia).
    rewrite Z.gtb_ltb, (proj2 (Z.ltb_ge _ _)) by lia. by rewrite Hplus.
  - unfold Reader.rewind. cbn [Reader.memory Reader.offset Reader.segs Reader.it s]. rewrite (proj2 (Z.leb_le _ _)) by lia.
    rewrite Hminus. rewrite wrap_small by (unfold in_u; lia). done.
Qed.

(** [add(const Buffer&)] does not copy what the source holds when the source
    owns its block and has consumed some of it: [Segment::copy] takes the bytes
    from the start of the block. *)
Theorem gather_copy_of_consumed init n h : 0 < n < zlen init -> zlen init < 2 ^ 64 ->
  exists b h1 b1 c h2, add_allocated init (new_Buffer 4) h = Some (b, h1) /\
    consume n b h1 = Some (b1, h1) /\ gathers h1 (segments b1) (zdrop n init) /\
    add_buffer b1 (new_Buffer 4) h1 = Some (c, h2) /\ gathers h2 (segments c) (ztake (zlen init - n) init).
Proof.
  intros Hn Hz. set (x := fresh (dom h)). set (h1 := <[x := init]> h).
  set (s := mk_Segment (Some x) (Some (x, 0)) (zlen init)).
  assert (forall k, 0 <= k -> load h1 (Some (x, 0)) k = if k <=? zlen init then Some (ztake k init) else None) as Hload.
  { intros k Hk. unfold load. destruct (Z.eqb_spec k 0) as [->|]; [by rewrite (proj2 (Z.leb_le _ _)) by lia|].
    cbn [mbind option_bind]. unfold h1. rewrite lookup_insert_eq. cbn [mbind option_bind].
    rewrite zdrop_0, !(proj2 (Z.leb_le 0 _)) by lia. done. }
  assert (gathers h1 [s] init) as Hg.
  { rewrite <- (app_nil_r init). repeat constructor; cbn [length data s]; [apply zlen_nonneg| |].
    - rewrite Hload by apply zlen_nonneg. rewrite (proj2 (Z.leb_le _ _)) by lia. by rewrite ztake_ge by lia.
    - intros y [= <-]. by eexists; apply lookup_insert_eq. }
  exists (mk_Buffer 4 [s]), h1, (mk_Buffer 4 [seg_consume n s]).
  set (d := ztake (zlen init - n) init).
  assert (zlen d = zlen init - n) as Hd by (unfold d; rewrite zlen_ztake; lia).
  set (y := fresh (dom h1)). set (c := mk_Segment (Some y) (Some (y, 0)) (zlen d)).
  exists (mk_Buffer 4 [c]), (<[y := d]> h1). split; [done|]. split; [|split; [|split]].
  - unfold consume. cbn [segments consume_from]. rewrite (proj2 (Z.eqb_neq _ _)) by (cbn; lia).
    rewrite Z.gtb_ltb, (proj2 (Z.ltb_lt _ _)) by (cbn; lia). done.
  - destruct (consume_from_gathers [s] h1 init n Hg) as (segs & h' & Hc & Hb & _); [lia|lia|].
    cbn [consume_from] in Hc. rewrite (proj2 (Z.eqb_neq _ _)) in Hc by (cbn; lia).
    rewrite Z.gtb_ltb, (proj2 (Z.ltb_lt _ _)) in Hc by (cbn; lia). by injection Hc as <- <-.
  - unfold add_buffer. cbn [segments add_copies]. unfold seg_copy. cbn [owned_data seg_consume s].
    change (length (seg_consume n s)) with (u64 (zlen init - n)).
    rewrite wrap_small by (unfold in_u; lia). rewrite Hload by lia.
    rewrite (proj2 (Z.leb_le _ _)) by lia. done.
  - enough (gathers (<[y:=d]> h1) [c] (d ++ [])) as H by by rewrite app_nil_r in H.
    repeat constructor; cbn [length data c]; [apply zlen_nonneg| |].
    + unfold load. rewrite (proj2 (Z.eqb_neq _ _)) by lia. cbn [mbind option_bind].
      rewrite lookup_insert_eq. cbn [mbind option_bind].
      rewrite zdrop_0, (proj2 (Z.leb_le 0 (zlen d))), (proj2 (Z.leb_le (0 + zlen d) _)) by lia.
      cbn. by rewrite ztake_ge by lia.
    + intros z [= <-]. by eexists; apply lookup_insert_eq.
Qed.


(** *** Examples *)

(** Two bytes of a block of its own, an empty segment, three of another's. *)
Definition sample_heap : heap := <[0%nat := [1; 2; 3]]> (<[1%nat := [4; 5; 6; 7]]> ∅).
Definition sample : Buffer := mk_Buffer 4
  [mk_Segment (Some 0%nat) (Some (0%nat, 1)) 2; reference None 0; reference (Some (1%nat, 1)) 3].
Lemma sample_gathers : gathers sample_heap (segments sample) [2; 3; 5; 6; 7].
Proof.
  change [2; 3; 5; 6; 7] with ([2; 3] ++ [] ++ [5; 6; 7] ++ []).
  repeat (constructor; try done); try (intros x [= <-]; try done; by eexists).
  injection H as <-. by intros _ o [=].
Qed.

Lemma gather_copies_witness :
  get_length sample = 5 /\ copy sample_heap sample 1 3 = Some [3; 5; 6] /\
  exists f, get_flat_data sample_heap sample 1 3 = Some f /\ flat_bytes sample_heap f 3 = Some [3; 5; 6].
Proof. apply (gather_copies sample_heap sample [2; 3; 5; 6; 7] 1 3); [exact sample_gathers|done..]. Defined.

Lemma gather_drops_witness :
  exists segs h', consume 3 sample sample_heap = Some (mk_Buffer 4 segs, h') /\ gathers h' segs [6; 7].
Proof.
  destruct (gather_drops sample_heap sample [2; 3; 5; 6; 7] 3) as ((segs & h' & Hc & Hb & _) & _);
    [exact sample_gathers|done|done|].
  by exists segs, h'.
Defined.

Lemma gather_reader_reads_witness : exists s s',
  Reader.basic_read 4 (Reader.init sample_heap sample) = (Val [2; 3; 5; 6], s) /\
  Reader.rewind 3 s = (Val tt, s') /\ reader_pending s' = [3; 5; 6; 7].
Proof.
  destruct (gather_reader_reads sample_heap sample [2; 3; 5; 6; 7] 4 3)
    as (s & s' & H1 & _ & _ & _ & H2 & _ & H3);
    [exact sample_gathers|done|done|by repeat constructor|done|done|].
  by exists s, s'.
Defined.

Lemma gather_copy_of_consumed_witness : exists b h1 b1 c h2,
  add_allocated [1; 2; 3; 4] (new_Buffer 4) ∅ = Some (b, h1) /\
  consume 1 b h1 = Some (b1, h1) /\ gathers h1 (segments b1) [2; 3; 4] /\
  add_buffer b1 (new_Buffer 4) h1 = Some (c, h2) /\ gathers h2 (segments c) [1; 2; 3].
Proof. apply (gather_copy_of_consumed [1; 2; 3; 4] 1 ∅); done. Defined.

(** Reading to the end and rewinding by nothing throws. *)
Example gather_rewind_nothing :
  let s := snd (Reader.basic_read 9 (Reader.init sample_heap sample)) in
  fst (Reader.rewind 0 s) = Throw (mk_Error (-1) (str "Attempt to decrement past start of buffer")).
Proof. vm_compute. reflexivity. Qed.

End Gather.
