(* ===== verification/Hash.v ===== *)
(** * Blocks of a hash table

    Models [Entry] and [Block] of [src/libs/hash/ot-hash.h]: coalesced chains,
    linked both ways through an array, with a free list; HashTable has the
    table in front of them.  The invalid index is [None].  An operation gives
    [None] if it goes out of the array or its loops have no end, and the
    theorems say that it does not.  Writes of [dump] are left out. *)
From stdpp Require Export gmap.
From S2P Require Export Prelude.

Module Hash.

Definition INVALID_INDEX : Z := -1.

(** ** [Entry] *)

Record Entry := mk_Entry { id : Z; prev : option nat; next : option nat; head : nat; index : Z }.
Definition used (e : Entry) : bool := negb (index e =? INVALID_INDEX).

Definition with_links (p n : option nat) (e : Entry) : Entry := mk_Entry (id e) p n (head e) (index e).
Definition with_prev (p : option nat) (e : Entry) : Entry := with_links p (next e) e.
Definition with_next (n : option nat) (e : Entry) : Entry := with_links (prev e) n e.
(** The data of [src] in the place of [e] *)
Definition with_data (src e : Entry) : Entry := mk_Entry (id src) (prev e) (next e) (head src) (index src).

(** [table[p].prev = v], if [p] is valid *)
Definition set_prev (p v : option nat) (t : list Entry) : list Entry :=
  match p with Some i => alter (with_prev v) i t | None => t end.
Definition set_next (p v : option nat) (t : list Entry) : list Entry :=
  match p with Some i => alter (with_next v) i t | None => t end.

(** ** [Block] *)

Record Block := mk_Block { size : nat; table : list Entry; freelist : option nat }.

(** The constructor; [mem] is what [malloc] left in the fields it does not set. *)
Definition new_Block (size : nat) (mem : nat -> Z * nat) : Block :=
  mk_Block size
    (map (fun i => mk_Entry (fst (mem i)) (if (i =? 0)%nat then None else Some (i - 1)%nat)
                     (if (i <? size - 1)%nat then Some (S i) else None) (snd (mem i)) INVALID_INDEX)
         (seq 0 size))
    (Some 0%nat).

Section block.
Context (get_start : Z -> nat).

Definition add (i : Z) (index : Z) (b : Block) : option (bool * Block) :=
  let start := get_start i in
  let t := table b in
  p ← t !! start;
  if negb (used p) then
    let t := set_prev (next p) (prev p) t in
    let t := set_next (prev p) (next p) t in
    let freelist := match prev p with Some _ => freelist b | None => next p end in
    Some (true, mk_Block (size b) (<[start := mk_Entry i None None start index]> t) freelist)
  else
    match freelist b with
    | None => Some (false, b)
    | Some qi =>
      q ← t !! qi;
      let freelist := next q in
      let t := set_prev freelist None t in
      let t := <[qi := mk_Entry i (Some start) (next p) start index]> t in
      let t := set_prev (next p) (Some qi) t in
      let t := alter (with_next (Some qi)) start t in
      Some (true, mk_Block (size b) t freelist)
    end.

Fixpoint lookup_loop (fuel : nat) (t : list Entry) (i : nat) (hid : Z) : option Z :=
  match fuel with
  | O => None
  | S fuel =>
    p ← t !! i;
    if id p =? hid then Some (index p)
    else match next p with
         | Some j => lookup_loop fuel t j hid
         | None => Some INVALID_INDEX
         end
  end.
Definition lookup (i : Z) (b : Block) : option Z :=
  p ← table b !! get_start i;
  if negb (used p) then Some INVALID_INDEX else lookup_loop (size b) (table b) (get_start i) i.

(** The entry that holds the ID, from [i] on *)
Fixpoint search_loop (fuel : nat) (t : list Entry) (i : nat) (hid : Z) : option (option nat) :=
  match fuel with
  | O => None
  | S fuel =>
    p ← t !! i;
    if negb (used p) then Some None
    else if id p =? hid then Some (Some i)
    else match next p with
         | Some j => search_loop fuel t j hid
         | None => Some None
         end
  end.

(** The first entry from [q] on that hashes to [i] *)
Fixpoint heir_loop (fuel : nat) (t : list Entry) (q : option nat) (i : nat) : option (option nat) :=
  match q with
  | None => Some None
  | Some qi =>
    match fuel with
    | O => None
    | S fuel =>
      q ← t !! qi;
      if (head q =? i)%nat then Some (Some qi) else heir_loop fuel t (next q) i
    end
  end.

(** Out of its chain, and to the head of the free list *)
Definition unlink (i : nat) (d : Entry) (b : Block) : Block :=
  let t := set_next (prev d) (next d) (table b) in
  let t := set_prev (next d) (prev d) t in
  let t := set_prev (freelist b) (Some i) t in
  let t := <[i := mk_Entry (id d) None (freelist b) (head d) INVALID_INDEX]> t in
  mk_Block (size b) t (Some i).

Fixpoint delete_loop (fuel : nat) (i : nat) (b : Block) : option Block :=
  match fuel with
  | O => None
  | S fuel =>
    d ← table b !! i;
    heir ← heir_loop (size b) (table b) (next d) i;
    match heir with
    | Some qi =>
      q ← table b !! qi;
      delete_loop fuel qi (mk_Block (size b) (alter (with_data q) i (table b)) (freelist b))
    | None => Some (unlink i d b)
    end
  end.

Definition remove (i : Z) (b : Block) : option (Z * Block) :=
  hit ← search_loop (size b) (table b) (get_start i) i;
  match hit with
  | None => Some (INVALID_INDEX, b)
  | Some j => p ← table b !! j; b ← delete_loop (size b) j b; Some (index p, b)
  end.

(** ** Statistics *)

Record Stats := mk_Stats { entries : Z; max_fullness : Z; max_chain : Z }.

Fixpoint chain_length (fuel : nat) (t : list Entry) (i : option nat) : option Z :=
  match i with
  | None => Some 0
  | Some i => match fuel with
              | O => None
              | S fuel => p ← t !! i; n ← chain_length fuel t (next p); Some (n + 1)
              end
  end.
Definition stats_step (b : Block) (s : option (Z * Z)) (i : nat) : option (Z * Z) :=
  '(entries, max_chain) ← s;
  p ← table b !! i;
  if used p then
    if (get_start (id p) =? i)%nat then
      len ← chain_length (size b) (table b) (Some i); Some (entries + 1, Z.max max_chain len)
    else Some (entries + 1, max_chain)
  else Some (entries, max_chain).
Definition get_stats (b : Block) : option Stats :=
  '(entries, max_chain) ← fold_left (stats_step b) (seq 0 (size b)) (Some (0, 0));
  Some (mk_Stats entries (100 * entries / Z.of_nat (size b)) max_chain).

End block.

(** ** [check]

    The errors it writes.  An index below zero that is not the invalid one is
    not in this model, so that its two tests for one are left out. *)

Inductive Problem :=
  | Freelist_too_large (i : nat) | Freelist_loops (i : nat) | Freelist_used (i : nat) | Freelist_back (i : nat)
  | Chain_too_large (start i : nat) | Chain_unused (i : nat) | Chain_prev (i : nat) | Chain_head (i : nat)
  | Orphan (i : nat).

(** The free list from [i] on: the problems, and the entries marked *)
Fixpoint check_free (fuel : nat) (b : Block) (previous i : option nat) (marks : gset nat) :
  option (list Problem * gset nat) :=
  match i with
  | None => Some ([], marks)
  | Some i =>
    match fuel with
    | O => None
    | S fuel =>
      if (size b <=? i)%nat then Some ([Freelist_too_large i], marks)
      else if decide (i ∈ marks) then Some ([Freelist_loops i], marks)
      else
        p ← table b !! i;
        let marks := {[ i ]} ∪ marks in
        if used p then Some ([Freelist_used i], marks)
        else
          '(problems, marks) ← check_free fuel b (Some i) (next p) marks;
          Some ((if decide (prev p = previous) then [] else [Freelist_back i]) ++ problems, marks)
    end
  end.

(** The chain from [j] on, that started at [start] *)
Fixpoint check_chain (get_start : Z -> nat) (fuel : nat) (b : Block) (start : nat) (previous j : option nat)
    (marks : gset nat) : option (list Problem * gset nat) :=
  match j with
  | None => Some ([], marks)
  | Some j =>
    match fuel with
    | O => None
    | S fuel =>
      if (size b <=? j)%nat then Some ([Chain_too_large start j], marks)
      else
        q ← table b !! j;
        '(problems, marks) ← check_chain get_start fuel b start (Some j) (next q) ({[ j ]} ∪ marks);
        Some ((if used q then [] else [Chain_unused j]) ++ (if decide (prev q = previous) then [] else [Chain_prev j]) ++
              (if decide (get_start (id q) = head q) then [] else [Chain_head j]) ++ problems, marks)
    end
  end.

Definition check_entry (get_start : Z -> nat) (b : Block) (s : option (list Problem * gset nat)) (i : nat) :
  option (list Problem * gset nat) :=
  '(problems, marks) ← s;
  p ← table b !! i;
  if used p && (get_start (id p) =? i)%nat then
    '(more, marks) ← check_chain get_start (S (size b)) b i (prev p) (Some i) marks; Some (problems ++ more, marks)
  else Some (problems, marks).

(** The block is consistent if there are no problems. *)
Definition check (get_start : Z -> nat) (b : Block) : option (list Problem) :=
  s ← check_free (S (size b)) b None (freelist b) ∅;
  '(problems, marks) ← fold_left (check_entry get_start b) (seq 0 (size b)) (Some s);
  Some (problems ++ map Orphan (filter (fun i => i ∉ marks) (seq 0 (size b)))).


(* ------------------------------------------------------------------ *)
(** ** The invariant of a block *)

Definition first (l : list nat) (n : option nat) : option nat := match l with x :: _ => Some x | [] => n end.
Fixpoint final (p : option nat) (l : list nat) : option nat :=
  match l with [] => p | x :: l => final (Some x) l end.

(** The entries [l] are linked both ways, after [p] and before [n]. *)
Fixpoint linked (t : list Entry) (p : option nat) (l : list nat) (n : option nat) : Prop :=
  match l with
  | [] => True
  | x :: l => exists e, t !! x = Some e /\ prev e = p /\ next e = first l n /\ linked t (Some x) l n
  end.

Section invariant.
Context (get_start : Z -> nat).

(** A chain: used entries, each at or after the one its ID hashes to. *)
Definition chain (t : list Entry) (c : list nat) : Prop :=
  NoDup c /\ linked t None c None /\
  forall a x b, c = a ++ x :: b -> exists e, t !! x = Some e /\ used e = true /\
    head e = get_start (id e) /\ head e ∈ a ++ [x].

(** Every entry is in the free list or in a chain. *)
Definition block_ok (b : Block) (free : list nat) : Prop :=
  length (table b) = size b /\ NoDup free /\ linked (table b) None free None /\
  freelist b = first free None /\
  (forall i e, table b !! i = Some e -> (i ∈ free <-> used e = false)) /\
  (forall i e, table b !! i = Some e -> used e = true -> exists c, chain (table b) c /\ i ∈ c).

(** The block is well formed and maps each ID to its index. *)
Definition represents (b : Block) (m : gmap Z Z) : Prop :=
  (exists free, block_ok b free) /\
  (forall i e, table b !! i = Some e -> used e = true -> m !! id e = Some (index e)) /\
  (forall k v, m !! k = Some v -> exists i e, table b !! i = Some e /\ used e = true /\ id e = k) /\
  (forall i j e f, table b !! i = Some e -> table b !! j = Some f -> used e = true -> used f = true ->
     id e = id f -> i = j).

(* ------------------------------------------------------------------ *)
(** ** Lemmas *)

Lemma first_app l1 l2 n : first (l1 ++ l2) n = first l1 (first l2 n).
Proof. by destruct l1. Qed.
Lemma linked_app t p l1 l2 n :
  linked t p (l1 ++ l2) n <-> linked t p l1 (first l2 n) /\ linked t (final p l1) l2 n.
Proof.
  revert p. induction l1 as [|x l1 IH]; intros p; cbn [app linked final]; [tauto|].
  rewrite first_app. split.
  - intros (e & H1 & H2 & H3 & H4). apply IH in H4 as [H4 H5]. split; [by exists e|done].
  - intros [(e & H1 & H2 & H3 & H4) H5]. exists e. repeat (split; [done|]). by apply IH.
Qed.
Lemma final_snoc p l x : final p (l ++ [x]) = Some x.
Proof. revert p. induction l as [|y l IH]; intros p; [done|]. apply IH. Qed.
Lemma final_in p l x : final p l = Some x -> p = Some x \/ x ∈ l.
Proof.
  revert p. induction l as [|y l IH]; intros p; cbn [final]; [by left|].
  intros [[= ->]|H]%IH; right; constructor; done.
Qed.
Lemma first_in l n x : first l n = Some x -> n = Some x \/ x ∈ l.
Proof. destruct l; [by left|]. intros [= ->]. right. constructor. Qed.

Definition links (t : list Entry) (x : nat) := (fun e => (prev e, next e)) <$> t !! x.
Lemma linked_ext t t' p l n : (forall x, x ∈ l -> links t' x = links t x) -> linked t p l n -> linked t' p l n.
Proof.
  revert p. induction l as [|x l IH]; intros p Hx; cbn [linked]; [done|].
  intros (e & He & Hp & Hn & Hl). pose proof (Hx x ltac:(constructor)) as H. unfold links in H.
  rewrite He in H. destruct (t' !! x) as [e'|]; [|done]. injection H as H1 H2.
  exists e'. split; [done|]. split; [congruence|]. split; [congruence|]. apply IH; [|done].
  intros y Hy. apply Hx. by constructor.
Qed.
Lemma links_eq t t' x : t' !! x = t !! x -> links t' x = links t x.
Proof. unfold links. by intros ->. Qed.

Lemma lookup_set_prev o v t x : set_prev o v t !! x =
  (if bool_decide (o = Some x) then with_prev v <$> t !! x else t !! x).
Proof.
  unfold set_prev. destruct o as [i|]; [|by rewrite bool_decide_eq_false_2].
  destruct (decide (i = x)) as [->|Hne].
  - rewrite bool_decide_eq_true_2 by done. apply list_lookup_alter_eq.
  - rewrite bool_decide_eq_false_2 by congruence. by apply list_lookup_alter_ne.
Qed.
Lemma lookup_set_next o v t x : set_next o v t !! x =
  (if bool_decide (o = Some x) then with_next v <$> t !! x else t !! x).
Proof.
  unfold set_next. destruct o as [i|]; [|by rewrite bool_decide_eq_false_2].
  destruct (decide (i = x)) as [->|Hne].
  - rewrite bool_decide_eq_true_2 by done. apply list_lookup_alter_eq.
  - rewrite bool_decide_eq_false_2 by congruence. by apply list_lookup_alter_ne.
Qed.
Lemma length_set_prev o v t : length (set_prev o v t) = length t.
Proof. destruct o; [apply length_alter|done]. Qed.
Lemma length_set_next o v t : length (set_next o v t) = length t.
Proof. destruct o; [apply length_alter|done]. Qed.

(** The first entry gets a new predecessor, the last a new successor. *)
Lemma linked_set_prev t p p' l n : NoDup l -> linked t p l n -> linked (set_prev (first l None) p' t) p' l n.
Proof.
  destruct l as [|x l]; [done|]. intros [Hx _]%NoDup_cons (e & He & Hp & Hn & Hl). cbn [first linked].
  exists (with_prev p' e). rewrite lookup_set_prev, bool_decide_eq_true_2, He by done.
  split; [done|]. split; [done|]. split; [done|]. eapply linked_ext; [|exact Hl].
  intros y Hy. apply links_eq. rewrite lookup_set_prev, bool_decide_eq_false_2; [done|]. intros [= ->]. done.
Qed.
Lemma linked_set_next t p l n n' : NoDup l -> linked t p l n -> linked (set_next (final None l) n' t) p l n'.
Proof.
  destruct l as [|y l _] using rev_ind; [done|]. intros (Hd1 & Hd2 & _)%NoDup_app [H1 H2]%linked_app.
  rewrite final_snoc.
  cbn [linked first] in H2. destruct H2 as (e & He & Hp & Hn & _).
  apply linked_app. cbn [linked first] in *. split.
  - eapply linked_ext; [|exact H1]. intros x Hx. apply links_eq.
    rewrite lookup_set_next, bool_decide_eq_false_2; [done|]. intros [= ->]. by apply (Hd2 x Hx), list_elem_of_singleton.
  - exists (with_next n' e). rewrite lookup_set_next, bool_decide_eq_true_2, He by done. done.
Qed.

Lemma chain_ext t t' c : (forall x, x ∈ c -> t' !! x = t !! x) -> chain t c -> chain t' c.
Proof.
  intros Ht (Hnd & Hl & Hh). split; [done|]. split.
  - eapply linked_ext; [|exact Hl]. intros x Hx. by apply links_eq, Ht.
  - intros a x b Hc. rewrite Ht by (subst; set_solver). by eapply Hh.
Qed.
Lemma chain_used t c x : chain t c -> x ∈ c -> exists e, t !! x = Some e /\ used e = true /\
  head e = get_start (id e) /\ head e ∈ c.
Proof.
  intros (_ & _ & Hh) (a & b & Hc)%list_elem_of_split. destruct (Hh a x b Hc) as (e & H1 & H2 & H3 & H4).
  exists e. repeat (split; [done|]). subst c. apply elem_of_app in H4 as [H4|H4%list_elem_of_singleton];
    apply elem_of_app; [by left|right; rewrite H4; constructor].
Qed.

(** Two chains that meet are one. *)
Lemma linked_after t p p' l l' x : linked t p (x :: l) None -> linked t p' (x :: l') None -> l = l'.
Proof.
  revert x p p' l'. induction l as [|y l IH]; intros x p p' l' (e & He & _ & Hn & Hl) (e' & He' & _ & Hn' & Hl');
    rewrite He in He'; injection He' as <-; rewrite Hn in Hn'.
  - by destruct l'.
  - destruct l' as [|y' l']; [done|]. injection Hn' as <-. f_equal. by eapply IH.
Qed.
Lemma linked_before t l l' x b b' : linked t None (l ++ x :: b) None -> linked t None (l' ++ x :: b') None -> l = l'.
Proof.
  revert x b b' l'. induction l as [|y l IH] using rev_ind; intros x b b' l' H H';
    pose proof H as [_ (e & He & Hp & _)]%linked_app; pose proof H' as [_ (e' & He' & Hp' & _)]%linked_app;
    rewrite He in He'; injection He' as <-; rewrite Hp in Hp'; cbn [final] in Hp'.
  - destruct l' as [|z l' _] using rev_ind; [done|]. by rewrite final_snoc in Hp'.
  - rewrite final_snoc in Hp'. destruct l' as [|z l' _] using rev_ind; [done|].
    rewrite final_snoc in Hp'. injection Hp' as <-. f_equal.
    rewrite <- app_assoc in H, H'. by apply (IH y (x :: b) (x :: b')).
Qed.
Lemma chain_eq t c c' x : chain t c -> chain t c' -> x ∈ c -> x ∈ c' -> c = c'.
Proof.
  intros (_ & H & _) (_ & H' & _) (a & b & ->)%list_elem_of_split (a' & b' & ->)%list_elem_of_split.
  rewrite (linked_before _ _ _ _ _ _ H H') in *. do 2 f_equal.
  apply linked_app in H as [_ H], H' as [_ H']. by eapply linked_after.
Qed.

Lemma elements_bound t c : NoDup c -> (forall x, x ∈ c -> is_Some (t !! x)) -> (length c <= length (t : list Entry))%nat.
Proof.
  intros Hnd Hx. assert (c ⊆+ seq 0 (length t)) as Hsub.
  { apply NoDup_submseteq; [done|]. intros x Hin. apply elem_of_seq. apply Hx, lookup_lt_is_Some in Hin. lia. }
  apply submseteq_length in Hsub. by rewrite length_seq in Hsub.
Qed.
Lemma chain_bound t c : chain t c -> (length c <= length t)%nat.
Proof.
  intros Hc. apply elements_bound; [by destruct Hc|]. intros x Hx.
  destruct (chain_used _ _ _ Hc Hx) as (e & He & _). by exists e.
Qed.


(** *** Looking up *)

(** An entry in use whose ID hashes to [s] is [s] or after it in its chain. *)
Lemma at_or_after b free i e : block_ok b free -> table b !! i = Some e -> used e = true ->
  exists c1 c2, chain (table b) (c1 ++ get_start (id e) :: c2) /\ i ∈ get_start (id e) :: c2.
Proof.
  intros (_ & _ & _ & _ & _ & Hch) He Hu. destruct (Hch i e He Hu) as (c & Hc & Hi).
  apply list_elem_of_split in Hi as (a & x & ->). pose proof Hc as (_ & _ & Hh).
  destruct (Hh a i x eq_refl) as (e' & He' & _ & Hhead & Hin). rewrite He in He'. injection He' as <-.
  rewrite Hhead in Hin. apply elem_of_app in Hin as [Hin|Hin%list_elem_of_singleton].
  - apply list_elem_of_split in Hin as (c1 & c2 & ->). exists c1, (c2 ++ i :: x).
    rewrite <- app_assoc in Hc. split; [exact Hc|]. right. apply elem_of_app. right. constructor.
  - rewrite Hin. exists a, x. split; [done|]. constructor.
Qed.

(** The chain from the entry that an ID hashes to, if that is used *)
Lemma start_chain b free k p : block_ok b free -> table b !! get_start k = Some p -> used p = true ->
  exists c1 c2, chain (table b) (c1 ++ get_start k :: c2) /\
    forall i e, table b !! i = Some e -> used e = true -> id e = k -> i ∈ get_start k :: c2.
Proof.
  intros Hok Hp Hu. pose proof Hok as (_ & _ & _ & _ & _ & Hch).
  destruct (Hch _ _ Hp Hu) as (c & Hc & (c1 & c2 & ->)%list_elem_of_split). exists c1, c2. split; [done|].
  intros i e He Hue <-. destruct (at_or_after b free i e Hok He Hue) as (d1 & d2 & Hd & Hi).
  assert (c1 ++ get_start (id e) :: c2 = d1 ++ get_start (id e) :: d2) as Heq.
  { eapply chain_eq; [exact Hc|exact Hd|..]; apply elem_of_app; right; constructor. }
  assert (c2 = d2) as ->; [|done]. destruct Hc as (_ & Hl & _), Hd as (_ & Hl' & _).
  apply linked_app in Hl as [_ Hl], Hl' as [_ Hl']. by eapply linked_after.
Qed.
Lemma start_unused b free k p i e : block_ok b free -> table b !! get_start k = Some p -> used p = false ->
  table b !! i = Some e -> used e = true -> id e = k -> False.
Proof.
  intros Hok Hp Hu He Hue <-. destruct (at_or_after b free i e Hok He Hue) as (c1 & c2 & Hc & _).
  destruct (chain_used _ _ (get_start (id e)) Hc) as (p' & Hp' & Hu' & _); [apply elem_of_app; right; constructor|].
  congruence.
Qed.

Definition holds (t : list Entry) (k : Z) (i : nat) : Prop := exists e, t !! i = Some e /\ used e = true /\ id e = k.

Lemma lookup_loop_linked t k l : forall fuel p x, linked t p (x :: l) None -> (length l < fuel)%nat ->
  (forall i, i ∈ x :: l -> exists e, t !! i = Some e /\ used e = true) ->
  (exists i e, i ∈ x :: l /\ t !! i = Some e /\ id e = k /\ lookup_loop fuel t x k = Some (index e) /\
     search_loop fuel t x k = Some (Some i)) \/
  ((forall i, i ∈ x :: l -> ~ holds t k i) /\ lookup_loop fuel t x k = Some INVALID_INDEX /\
     search_loop fuel t x k = Some None).
Proof.
  induction l as [|y l IH]; intros fuel p x (e & He & _ & Hn & Hl) Hf Hu; (destruct fuel as [|fuel]; [lia|]);
    cbn [lookup_loop search_loop]; rewrite He; cbn [mbind option_bind];
    (destruct (Hu x) as (e' & He' & Hue); [constructor|]); rewrite He in He'; injection He' as <-;
    rewrite Hue; cbn [negb].
  - destruct (Z.eqb_spec (id e) k) as [Hk|Hk]; [left; exists x, e; repeat split; (done || constructor)|right].
    cbn [first] in Hn. rewrite Hn. split; [|done].
    intros i ->%list_elem_of_singleton (e' & He' & _ & Hk'). congruence.
  - destruct (Z.eqb_spec (id e) k) as [Hk|Hk]; [left; exists x, e; repeat split; (done || constructor)|].
    cbn [first] in Hn. rewrite Hn. cbn [length] in Hf.
    destruct (IH fuel (Some x) y Hl) as [(i & f & Hi & Hrest)|[Hno Hrest]]; [lia| |left|right].
    + intros i Hi. apply Hu. by right.
    + exists i, f. split; [by right|done].
    + split; [|done]. intros i [->|Hi]%elem_of_cons; [|by apply Hno].
      intros (e' & He' & _ & Hk'). congruence.
Qed.

(** The search for an ID: where it is, if it is there. *)
Lemma find_id b free k : block_ok b free -> (get_start k < size b)%nat ->
  (exists i e c1 c2, table b !! i = Some e /\ used e = true /\ id e = k /\ lookup get_start k b = Some (index e) /\
     search_loop (size b) (table b) (get_start k) k = Some (Some i) /\ chain (table b) (c1 ++ i :: c2)) \/
  ((forall i, ~ holds (table b) k i) /\ lookup get_start k b = Some INVALID_INDEX /\
     search_loop (size b) (table b) (get_start k) k = Some None).
Proof.
  intros Hok Hs. pose proof Hok as (Hlen & _). rewrite <- Hlen in Hs.
  destruct (lookup_lt_is_Some_2 _ _ Hs) as [p Hp]. unfold lookup. rewrite Hp. cbn [mbind option_bind].
  rewrite Hlen in Hs. destruct (used p) eqn:Hu; cbn [negb].
  - destruct (start_chain b free k p Hok Hp Hu) as (c1 & c2 & Hc & Hin).
    pose proof (chain_bound _ _ Hc) as Hbound. rewrite length_app, Hlen in Hbound. cbn [length] in Hbound.
    pose proof Hc as (_ & [_ Hl]%linked_app & _).
    assert (forall i, i ∈ get_start k :: c2 -> exists e, table b !! i = Some e /\ used e = true) as Hused.
    { intros i Hi. destruct (chain_used _ _ i Hc) as (e & He & Hue & _); [apply elem_of_app; by right|]. by exists e. }
    destruct (lookup_loop_linked (table b) k c2 (size b) _ _ Hl) as [(i & e & Hi & He & Hk & H1 & H2)|[Hno Hrest]];
      [lia|exact Hused|left|right].
    + destruct (Hused i Hi) as (e' & He' & Hue). rewrite He in He'. injection He' as <-.
      apply list_elem_of_split in Hi as (a & x & Hax). exists i, e, (c1 ++ a), x.
      repeat (split; [done|]). rewrite <- app_assoc, <- Hax. done.
    + split; [|done]. intros i (e & He & Hue & Hk). apply (Hno i); [by eapply Hin|by exists e].
  - right. split; [|split; [done|]].
    + intros i (e & He & Hue & Hk). by eapply start_unused.
    + destruct (size b); [lia|]. cbn [search_loop]. rewrite Hp. cbn [mbind option_bind]. by rewrite Hu.
Qed.

Lemma lookup_represents b m k : represents b m -> (get_start k < size b)%nat ->
  lookup get_start k b = Some (default INVALID_INDEX (m !! k)).
Proof.
  intros ((free & Hok) & H1 & H2 & _) Hs.
  destruct (find_id b free k Hok Hs) as [(i & e & _ & _ & He & Hu & <- & -> & _)|[Hno [-> _]]].
  - by rewrite (H1 _ _ He Hu).
  - destruct (m !! k) as [v|] eqn:Hk; [|done]. exfalso. destruct (H2 _ _ Hk) as (i & e & He). by apply (Hno i); exists e.
Qed.

(** *** Changing links and data *)

Definition dat (e : Entry) := (id e, head e, index e).
Definition same_data (t t' : list Entry) (i : nat) : Prop := dat <$> t' !! i = dat <$> t !! i.
Lemma dat_used e e' : dat e' = dat e -> used e' = used e.
Proof. unfold dat, used. by intros [= _ _ ->]. Qed.
Lemma same_data_prev o v t i : same_data t (set_prev o v t) i.
Proof. unfold same_data. rewrite lookup_set_prev. case_bool_decide; [|done]. by destruct (t !! i). Qed.
Lemma same_data_next o v t i : same_data t (set_next o v t) i.
Proof. unfold same_data. rewrite lookup_set_next. case_bool_decide; [|done]. by destruct (t !! i). Qed.
Lemma same_data_trans t t' t'' i : same_data t t' i -> same_data t' t'' i -> same_data t t'' i.
Proof. unfold same_data. congruence. Qed.
Lemma same_data_insert t j e i : i <> j -> same_data t (<[j := e]> t) i.
Proof. intros Hne. unfold same_data. by rewrite list_lookup_insert_ne. Qed.
Lemma same_data_back t t' i e' : same_data t t' i -> t' !! i = Some e' ->
  exists e, t !! i = Some e /\ dat e' = dat e.
Proof. unfold same_data. intros H H'. rewrite H' in H. destruct (t !! i); [|done]. injection H as ???. eexists. split; [done|]. unfold dat. congruence. Qed.

Definition headed (t : list Entry) (a : list nat) (x : nat) : Prop := exists e, t !! x = Some e /\ used e = true /\
  head e = get_start (id e) /\ head e ∈ a ++ [x].
Lemma headed_same t t' a x : same_data t t' x -> headed t a x -> headed t' a x.
Proof.
  unfold same_data. intros Hd (e & He & Hu & Hh & Hin). rewrite He in Hd. destruct (t' !! x) as [e'|] eqn:He'; [|done].
  injection Hd as Hid Hhead Hindex. exists e'. unfold used in *. rewrite Hid, Hhead, Hindex. done.
Qed.
Lemma headed_weaken t a a' x : (forall y, y ∈ a -> y ∈ a') -> headed t a x -> headed t a' x.
Proof.
  intros Ha (e & He & Hu & Hh & Hin). exists e. repeat (split; [done|]).
  apply elem_of_app in Hin as [Hin|Hin]; apply elem_of_app; auto.
Qed.
Fixpoint heads (t : list Entry) (seen c : list nat) : Prop :=
  match c with [] => True | x :: c => headed t seen x /\ heads t (seen ++ [x]) c end.
Lemma heads_app t seen c d : heads t seen (c ++ d) <-> heads t seen c /\ heads t (seen ++ c) d.
Proof.
  revert seen. induction c as [|x c IH]; intros seen; cbn [app heads]; [rewrite app_nil_r; tauto|].
  rewrite IH, <- app_assoc. cbn [app]. tauto.
Qed.
Lemma heads_weaken t a a' c : (forall y, y ∈ a -> y ∈ a') -> heads t a c -> heads t a' c.
Proof.
  revert a a'. induction c as [|x c IH]; intros a a' Ha; [done|]. intros [Hx Hc].
  split; [by eapply headed_weaken|]. eapply IH; [|exact Hc]. intros y. rewrite !elem_of_app. intros [Hy|Hy]; auto.
Qed.
Lemma heads_same t t' a c : (forall x, x ∈ c -> same_data t t' x) -> heads t a c -> heads t' a c.
Proof.
  revert a. induction c as [|x c IH]; intros a Hc; [done|]. intros [Hx Hh].
  split; [eapply headed_same; [|exact Hx]; apply Hc; by left|]. apply IH; [|done]. intros y Hy. apply Hc. by right.
Qed.
Lemma heads_spec t seen c : heads t seen c <-> forall a x b, c = a ++ x :: b -> headed t (seen ++ a) x.
Proof.
  revert seen. induction c as [|y c IH]; intros seen; cbn [heads].
  - split; [|done]. intros _ [|] x b; done.
  - rewrite IH. split.
    + intros [Hy Hc] [|z a] x b [= <- ->]; [by rewrite app_nil_r|].
      specialize (Hc a x b eq_refl). by rewrite <- app_assoc in Hc.
    + intros H. split; [specialize (H [] y c eq_refl); by rewrite app_nil_r in H|].
      intros a x b ->. specialize (H (y :: a) x b eq_refl). by rewrite <- app_assoc.
Qed.
Lemma chain_heads t c : chain t c <-> NoDup c /\ linked t None c None /\ heads t [] c.
Proof. unfold chain. rewrite heads_spec. done. Qed.

Lemma set_next_prev o v o' v' t : set_prev o' v' (set_next o v t) = set_next o v (set_prev o' v' t).
Proof.
  apply list_eq. intros i. rewrite lookup_set_prev, !lookup_set_next, lookup_set_prev.
  repeat case_bool_decide; try done. by destruct (t !! i).
Qed.

Lemma linked_other_prev t o v p l n : (forall x, o = Some x -> x ∉ l) -> linked t p l n -> linked (set_prev o v t) p l n.
Proof.
  intros Ho. apply linked_ext. intros x Hx. apply links_eq.
  rewrite lookup_set_prev, bool_decide_eq_false_2; [done|]. intros ->. by apply (Ho x).
Qed.
Lemma linked_other_next t o v p l n : (forall x, o = Some x -> x ∉ l) -> linked t p l n -> linked (set_next o v t) p l n.
Proof.
  intros Ho. apply linked_ext. intros x Hx. apply links_eq.
  rewrite lookup_set_next, bool_decide_eq_false_2; [done|]. intros ->. by apply (Ho x).
Qed.
Lemma linked_other_insert t i e p l n : i ∉ l -> linked t p l n -> linked (<[i := e]> t) p l n.
Proof.
  intros Hi. apply linked_ext. intros x Hx. apply links_eq. apply list_lookup_insert_ne. by intros ->.
Qed.

(** The entry [s] out of its list *)
Lemma linked_splice t a s b : NoDup (a ++ s :: b) -> linked t None (a ++ s :: b) None ->
  linked (set_next (final None a) (first b None) (set_prev (first b None) (final None a) t)) None (a ++ b) None.
Proof.
  intros (Ha & Hab & (Hs & Hb)%NoDup_cons)%NoDup_app [H1 (e & He & Hp & Hn & H2)]%linked_app.
  cbn [first] in H1. apply linked_app. split.
  - assert (first b None = first b None) as _ by done. apply (linked_set_next _ _ _ (Some s)); [done|].
    apply linked_other_prev; [|done]. intros x [[=]|Hx]%first_in Hxa. apply (Hab x Hxa). by right.
  - apply linked_other_next; [|by eapply linked_set_prev].
    intros x [[=]|Hx]%final_in Hxb. apply (Hab x Hx). by right.
Qed.

Lemma linked_entry t p a x b n : linked t p (a ++ x :: b) n ->
  exists e, t !! x = Some e /\ prev e = final p a /\ next e = first b n.
Proof. intros [_ (e & He & Hp & Hn & _)]%linked_app. by exists e. Qed.

(** *** Adding *)

Lemma represents_insert t t' (m : gmap Z Z) k v s e : (forall i, i <> s -> same_data t t' i) ->
  (forall p, t !! s = Some p -> used p = false) -> t' !! s = Some e -> used e = true -> id e = k -> index e = v ->
  m !! k = None ->
  (forall i e, t !! i = Some e -> used e = true -> m !! id e = Some (index e)) ->
  (forall k v, m !! k = Some v -> exists i e, t !! i = Some e /\ used e = true /\ id e = k) ->
  (forall i j e f, t !! i = Some e -> t !! j = Some f -> used e = true -> used f = true -> id e = id f -> i = j) ->
  (forall i e, t' !! i = Some e -> used e = true -> <[k := v]> m !! id e = Some (index e)) /\
  (forall k' v', <[k := v]> m !! k' = Some v' -> exists i e, t' !! i = Some e /\ used e = true /\ id e = k') /\
  (forall i j e f, t' !! i = Some e -> t' !! j = Some f -> used e = true -> used f = true -> id e = id f -> i = j).
Proof.
  intros Hdata Hs He Hu Hk Hv Hm H1 H2 H3.
  assert (forall i e', t' !! i = Some e' -> used e' = true -> i <> s -> exists f, t !! i = Some f /\ used f = true /\
    id f = id e' /\ index f = index e' /\ id e' <> k) as Hback.
  { intros i e' He' Hu' Hi. destruct (same_data_back _ _ _ _ (Hdata i Hi) He') as (f & Hf & Hd).
    pose proof (dat_used _ _ Hd) as Huf. injection Hd as Hid _ Hindex.
    exists f. split; [done|]. split; [congruence|]. split; [done|]. split; [done|].
    intros Hik. pose proof (H1 _ _ Hf ltac:(congruence)) as H. rewrite <- Hid, Hik in H. congruence. }
  split; [|split].
  - intros i e' He' Hu'. destruct (decide (i = s)) as [->|Hi].
    + rewrite He in He'. injection He' as <-. rewrite Hk, lookup_insert_eq. by rewrite Hv.
    + destruct (Hback i e' He' Hu' Hi) as (f & Hf & Huf & Hid & Hindex & Hne).
      rewrite lookup_insert_ne by done. rewrite <- Hid, <- Hindex. by eapply H1.
  - intros k' v' Hk'. destruct (decide (k = k')) as [<-|Hne]; [by exists s, e|].
    rewrite lookup_insert_ne in Hk' by done. destruct (H2 _ _ Hk') as (i & f & Hf & Huf & Hid).
    assert (i <> s) as Hi by (intros ->; rewrite (Hs _ Hf) in Huf; done).
    pose proof (Hdata i Hi) as Hd. unfold same_data in Hd. rewrite Hf in Hd. destruct (t' !! i) as [e'|] eqn:He'; [|done].
    injection Hd as Hd1 Hd2 Hd3. exists i, e'. split; [done|]. unfold used in *. by rewrite Hd1, Hd3.
  - intros i j e1 e2 Hi Hj Hu1 Hu2 Hid. destruct (decide (i = s)) as [->|Hni], (decide (j = s)) as [->|Hnj]; try done.
    + rewrite He in Hi. injection Hi as <-. destruct (Hback j e2 Hj Hu2 Hnj) as (f & _ & _ & _ & _ & Hne). congruence.
    + rewrite He in Hj. injection Hj as <-. destruct (Hback i e1 Hi Hu1 Hni) as (f & _ & _ & _ & _ & Hne). congruence.
    + destruct (Hback i e1 Hi Hu1 Hni) as (f & Hf & Huf & Hidf & _). destruct (Hback j e2 Hj Hu2 Hnj) as (g & Hg & Hug & Hidg & _).
      eapply (H3 i j f g); congruence.
Qed.

Lemma free_unused b free i : block_ok b free -> i ∈ free -> exists e, table b !! i = Some e /\ used e = false.
Proof.
  intros (_ & _ & Hl & _ & Hfree & _) Hi. pose proof Hi as (a & c & ->)%list_elem_of_split.
  destruct (linked_entry _ _ _ _ _ _ Hl) as (e & He & _). exists e. split; [done|]. by eapply Hfree.
Qed.
Lemma chain_not_free b free c x : block_ok b free -> chain (table b) c -> x ∈ c -> x ∉ free.
Proof.
  intros Hok Hc Hx Hf. destruct (free_unused _ _ _ Hok Hf) as (e & He & Hu).
  destruct (chain_used _ _ _ Hc Hx) as (e' & He' & Hu' & _). congruence.
Qed.

(** A free entry is taken where the ID hashes to. *)
Lemma take_start_ok b free k v p : block_ok b free -> table b !! get_start k = Some p -> used p = false ->
  v <> INVALID_INDEX ->
  let e := mk_Entry k None None (get_start k) v in
  let t := set_next (prev p) (next p) (set_prev (next p) (prev p) (table b)) in
  exists free', block_ok (mk_Block (size b) (<[get_start k := e]> t)
    (match prev p with Some _ => freelist b | None => next p end)) free'.
Proof.
  intros Hok Hp Hu Hv e t. pose proof Hok as (Hlen & Hnd & Hl & Hfl & Hfree & Hch). set (s := get_start k) in *.
  assert (s ∈ free) as (a & c & ->)%list_elem_of_split by by eapply Hfree.
  destruct (linked_entry _ _ _ _ _ _ Hl) as (p' & Hp' & Hprev & Hnext).
  rewrite Hp in Hp'. injection Hp' as <-.
  assert (s ∉ a ++ c) as Hs.
  { apply NoDup_app in Hnd as (_ & Hac & (Hsc & _)%NoDup_cons). intros [Hin|Hin]%elem_of_app; [|done].
    apply (Hac s Hin). by left. }
  assert (NoDup (a ++ c)) as Hnd'.
  { apply NoDup_app in Hnd as (Ha & Hac & (_ & Hc)%NoDup_cons). apply NoDup_app. split; [done|]. split; [|done].
    intros x Hxa Hxc. apply (Hac x Hxa). by right. }
  assert (forall i, same_data (table b) t i) as Hdata.
  { intros i. eapply same_data_trans; [apply same_data_prev|apply same_data_next]. }
  exists (a ++ c). unfold block_ok. cbn [table size freelist].
  assert (length t = size b) as Ht by (unfold t; by rewrite length_set_next, length_set_prev).
  assert ((s < length t)%nat) as Hst by (rewrite Ht, <- Hlen; by eapply lookup_lt_Some).
  split; [by rewrite length_insert|]. split; [done|]. split; [|split; [|split]].
  - apply linked_other_insert; [done|]. unfold t. rewrite Hprev, Hnext. by apply (linked_splice _ a s c).
  - rewrite Hprev, Hnext. rewrite Hfl. destruct a as [|x a _] using rev_ind; [done|]. rewrite final_snoc. by destruct a.
  - intros i e' He'. destruct (decide (i = s)) as [->|Hi].
    + rewrite list_lookup_insert_eq in He' by done. injection He' as <-. split; [done|].
      intros Hu'. exfalso. unfold used, e in Hu'. cbn in Hu'. apply negb_false_iff, Z.eqb_eq in Hu'. done.
    + rewrite list_lookup_insert_ne in He' by done. destruct (same_data_back _ _ _ _ (Hdata i) He') as (f & Hf & Hd).
      rewrite (dat_used _ _ Hd), <- (Hfree i f Hf). rewrite !elem_of_app, elem_of_cons. tauto.
  - intros i e' He' Hu'. destruct (decide (i = s)) as [->|Hi].
    + exists [s]. split; [|constructor]. rewrite list_lookup_insert_eq in He' by done. injection He' as <-.
      split; [apply NoDup_singleton|]. split.
      * exists e. rewrite list_lookup_insert_eq by done. done.
      * intros a' x b' Hx. destruct a' as [|y a']; [|by destruct a']. injection Hx as <- <-.
        exists e. rewrite list_lookup_insert_eq by done. repeat (split; [done|]). constructor.
    + rewrite list_lookup_insert_ne in He' by done. destruct (same_data_back _ _ _ _ (Hdata i) He') as (f & Hf & Hd).
      destruct (Hch i f Hf) as (ch & Hchain & Hin); [by rewrite <- (dat_used _ _ Hd)|]. exists ch. split; [|done].
      eapply chain_ext; [|exact Hchain]. intros x Hx. pose proof (chain_not_free _ _ _ _ Hok Hchain Hx) as Hxf.
      rewrite list_lookup_insert_ne by (intros ->; apply Hxf, elem_of_app; right; constructor).
      unfold t. rewrite Hprev, Hnext, lookup_set_next, bool_decide_eq_false_2, lookup_set_prev, bool_decide_eq_false_2; [done|..].
      * intros [[=]|H]%first_in. apply Hxf, elem_of_app. right. by right.
      * intros [[=]|H]%final_in. apply Hxf, elem_of_app. by left.
Qed.

(** A free entry is chained after the used one that the ID hashes to. *)
Lemma chain_start_ok b q f k v p qe : block_ok b (q :: f) -> table b !! get_start k = Some p -> used p = true ->
  table b !! q = Some qe -> v <> INVALID_INDEX ->
  let e := mk_Entry k (Some (get_start k)) (next p) (get_start k) v in
  block_ok (mk_Block (size b)
    (set_next (Some (get_start k)) (Some q) (set_prev (next p) (Some q) (<[q := e]> (set_prev (next qe) None (table b)))))
    (next qe)) f.
Proof.
  intros Hok Hp Hu Hq Hv e. pose proof Hok as (Hlen & Hnd & Hl & Hfl & Hfree & Hch). set (s := get_start k) in *.
  apply NoDup_cons in Hnd as [Hqf Hndf]. destruct Hl as (qe' & Hq' & Hqp & Hqn & Hlf).
  rewrite Hq in Hq'. injection Hq' as <-. rewrite Hqn.
  destruct (Hch s p Hp Hu) as (c & Hc & (c1 & c2 & ->)%list_elem_of_split).
  pose proof Hc as (Hndc & Hlc & Hh). destruct (linked_entry _ _ _ _ _ _ Hlc) as (p' & Hp' & Hpp & Hpn).
  rewrite Hp in Hp'. injection Hp' as <-. subst e. rewrite Hpn.
  set (e := mk_Entry k (Some s) (first c2 None) s v).
  assert (forall x, x ∈ c1 ++ s :: c2 -> x ∉ q :: f) as Hcf by (intros x Hx; by eapply chain_not_free).
  assert (q ∉ c1 ++ s :: c2) as Hqc by (intros Hx; apply (Hcf q Hx); constructor).
  assert (forall x, first f None = Some x -> x ∉ c1 ++ s :: c2) as Hff.
  { intros x [[=]|Hx]%first_in Hxc. apply (Hcf x Hxc). by right. }
  assert (forall x, first c2 None = Some x -> x ∉ q :: f) as Hc2.
  { intros x [[=]|Hx]%first_in. apply Hcf, elem_of_app. right. by right. }
  apply NoDup_app in Hndc as (Hn1 & Hn12 & [Hs2 Hn2]%NoDup_cons).
  assert (s ∉ c1) as Hs1 by (intros Hx; apply (Hn12 s Hx); constructor).
  set (t1 := set_prev (first f None) None (table b)). set (t2 := <[q := e]> t1).
  set (t3 := set_prev (first c2 None) (Some q) t2). set (t4 := set_next (Some s) (Some q) t3).
  assert ((q < length t1)%nat) as Hqt by (unfold t1; rewrite length_set_prev; by eapply lookup_lt_Some).
  assert (forall i, i <> q -> same_data (table b) t4 i) as Hdata.
  { intros i Hi. unfold t4, t3, t2, t1. eapply same_data_trans; [apply same_data_prev|].
    eapply same_data_trans; [by apply same_data_insert|]. eapply same_data_trans; [apply same_data_prev|apply same_data_next]. }
  assert (exists e', t4 !! q = Some e' /\ dat e' = dat e /\ prev e' = Some s /\ next e' = first c2 None) as (e' & He' & Hde & Hep & Hen).
  { exists e. unfold t4, t3, t2. rewrite lookup_set_next, bool_decide_eq_false_2 by (intros [= <-]; apply Hqc, elem_of_app; right; constructor).
    rewrite lookup_set_prev, bool_decide_eq_false_2 by (intros H; apply (Hc2 q H); constructor).
    by rewrite list_lookup_insert_eq. }
  assert (forall c', chain (table b) c' -> c' <> c1 ++ s :: c2 -> chain t4 c') as Hother.
  { intros c' Hc' Hne. eapply chain_ext; [|exact Hc']. intros x Hx.
    assert (x ∉ c1 ++ s :: c2) as Hxc by (intros Hin; by apply Hne, (chain_eq (table b) c' _ x)).
    pose proof (chain_not_free _ _ _ _ Hok Hc' Hx) as Hxf.
    unfold t4, t3, t2, t1. rewrite lookup_set_next, bool_decide_eq_false_2, lookup_set_prev, bool_decide_eq_false_2,
      list_lookup_insert_ne, lookup_set_prev, bool_decide_eq_false_2; [done|..].
    - intros [[=]|H]%first_in. apply Hxf. by right.
    - intros ->. apply Hxf. constructor.
    - intros [[=]|H]%first_in. apply Hxc, elem_of_app. right. by right.
    - intros [= <-]. apply Hxc, elem_of_app. right. constructor. }
  assert (chain t4 (c1 ++ s :: q :: c2)) as Hnew.
  { apply chain_heads. split; [|split].
    - apply NoDup_app. split; [done|]. split.
      + intros x Hx. rewrite !elem_of_cons. intros [->|[->|H]]; [done| |].
        * apply Hqc, elem_of_app. by left.
        * apply (Hn12 x Hx). by right.
      + apply NoDup_cons. split; [|apply NoDup_cons; split; [|done]].
        * rewrite elem_of_cons. intros [->|H]; [|done]. apply Hqc, elem_of_app. right. constructor.
        * intros H. apply Hqc, elem_of_app. right. by right.
    - apply linked_app in Hlc as [Hl1 (sp & Hsp & Hspp & _ & Hl2)]. cbn [first] in Hl1.
      apply linked_app. cbn [first]. split.
      + apply linked_other_next; [by intros x [= <-]|]. apply linked_other_prev.
        { intros x [[=]|Hx]%first_in Hxc. apply (Hn12 x Hxc). by right. }
        apply linked_other_insert; [intros H; apply Hqc, elem_of_app; by left|].
        apply linked_other_prev; [|done]. intros x Hx Hxc. apply (Hff x Hx), elem_of_app. by left.
      + rewrite Hp in Hsp. injection Hsp as <-.
        exists (with_next (Some q) p). split; [|split; [done|split; [done|]]].
        { unfold t4. rewrite lookup_set_next, bool_decide_eq_true_2 by done. unfold t3, t2, t1.
          rewrite lookup_set_prev, bool_decide_eq_false_2 by (intros [[=]|H]%first_in; done).
          rewrite list_lookup_insert_ne by (intros ->; apply Hqc, elem_of_app; right; constructor).
          rewrite lookup_set_prev, bool_decide_eq_false_2; [by rewrite Hp|].
          intros H. apply (Hff s H), elem_of_app. right. constructor. }
        exists e'. split; [done|]. split; [done|]. split; [done|].
        apply linked_other_next; [by intros x [= <-]|]. apply (linked_set_prev _ (Some s)); [done|].
        apply linked_other_insert; [intros H; apply Hqc, elem_of_app; right; by right|].
        apply linked_other_prev; [|done]. intros x Hx Hxc. apply (Hff x Hx), elem_of_app. right. by right.
    - assert (forall x, x ∈ c1 ++ s :: c2 -> same_data (table b) t4 x) as Hdc.
      { intros x Hx. apply Hdata. by intros ->. }
      apply chain_heads in Hc as (_ & _ & Hheads). apply (heads_same _ t4) in Hheads; [|exact Hdc].
      apply heads_app in Hheads as [Hh1 [Hhs Hh2]]. apply heads_app. split; [done|]. split; [done|]. split.
      + exists e'. split; [done|]. rewrite (dat_used _ _ Hde). injection Hde as Hid Hhead _. cbn in Hid, Hhead.
        rewrite Hhead, Hid. split; [|split; [done|]].
        { unfold used, e. cbn. apply negb_true_iff. by apply Z.eqb_neq. }
        apply elem_of_app. left. apply elem_of_app. right. constructor.
      + eapply heads_weaken; [|exact Hh2]. intros y Hy. apply elem_of_app. by left. }
  assert (length t4 = size b) as Ht4 by (unfold t4, t3, t2, t1; by rewrite length_set_next, length_set_prev, length_insert, length_set_prev).
  split; [exact Ht4|].
  split; [done|]. split; [|split; [done|split]]; cbn [table].
  - apply linked_other_next; [intros x [= <-] Hx; apply (Hcf s); [apply elem_of_app; right; constructor|by right]|].
    apply linked_other_prev; [intros x Hx Hxf; apply (Hc2 x Hx); by right|].
    apply linked_other_insert; [done|]. by eapply linked_set_prev.
  - intros i e1 He1. destruct (decide (i = q)) as [->|Hi].
    + fold t1 t2 t3 t4 in He1. rewrite He' in He1. injection He1 as <-. split; [done|].
      rewrite (dat_used _ _ Hde). intros Hu'. unfold used, e in Hu'. cbn in Hu'.
      by apply negb_false_iff, Z.eqb_eq in Hu'.
    + destruct (same_data_back _ _ _ _ (Hdata i Hi) He1) as (g & Hg & Hd).
      rewrite (dat_used _ _ Hd), <- (Hfree i g Hg), elem_of_cons. tauto.
  - intros i e1 He1 Hu1. destruct (decide (i = q)) as [->|Hi].
    + exists (c1 ++ s :: q :: c2). split; [done|]. apply elem_of_app. right. right. constructor.
    + destruct (same_data_back _ _ _ _ (Hdata i Hi) He1) as (g & Hg & Hd).
      destruct (Hch i g Hg) as (c' & Hc' & Hin); [by rewrite <- (dat_used _ _ Hd)|].
      destruct (decide (c' = c1 ++ s :: c2)) as [->|Hne].
      * exists (c1 ++ s :: q :: c2). split; [done|]. rewrite !elem_of_app, !elem_of_cons in *. tauto.
      * exists c'. split; [by apply Hother|done].
Qed.

Lemma add_represents b m k v : represents b m -> (get_start k < size b)%nat -> m !! k = None ->
  v <> INVALID_INDEX ->
  (exists b', add get_start k v b = Some (true, b') /\ represents b' (<[k := v]> m) /\ size b' = size b) \/
  (add get_start k v b = Some (false, b) /\ forall i e, table b !! i = Some e -> used e = true).
Proof.
  intros ((free & Hok) & H1 & H2 & H3) Hs Hm Hv. pose proof Hok as (Hlen & Hnd & Hl & Hfl & Hfree & _).
  rewrite <- Hlen in Hs. destruct (lookup_lt_is_Some_2 _ _ Hs) as [p Hp]. unfold add. rewrite Hp.
  cbn [mbind option_bind]. destruct (used p) eqn:Hu; cbn [negb].
  - rewrite Hfl. destruct free as [|q f]; cbn [first].
    { right. split; [done|]. intros i e He. destruct (used e) eqn:Hue; [done|]. by apply (Hfree i e He), not_elem_of_nil in Hue. }
    left. destruct (free_unused _ _ q Hok ltac:(by left)) as (qe & Hq & Hqu). rewrite Hq. cbn [mbind option_bind].
    pose proof (chain_start_ok _ _ _ k v p qe Hok Hp Hu Hq Hv) as Hok'. cbv zeta in Hok'.
    eexists. split; [done|]. split; [|done].
    change (alter (with_next (Some q)) (get_start k) ?t) with (set_next (Some (get_start k)) (Some q) t).
    split; [by exists f|].
    set (e := mk_Entry k _ _ _ _) in *. set (t' := set_next _ _ _) in *. cbn [table].
    assert (get_start k <> q) as Hqs by (intros E; rewrite E in Hp; congruence).
    assert (next p <> Some q) as Hpq.
    { intros E. pose proof Hok as (_ & _ & _ & _ & _ & Hch). destruct (Hch _ _ Hp Hu) as (c & Hc & (a & d & ->)%list_elem_of_split).
      pose proof Hc as (_ & Hlc & _). destruct (linked_entry _ _ _ _ _ _ Hlc) as (p' & Hp' & _ & Hn).
      rewrite Hp in Hp'. injection Hp' as <-. rewrite E in Hn. symmetry in Hn. apply first_in in Hn as [[=]|Hn].
      eapply (chain_not_free _ _ _ q Hok Hc); [apply elem_of_app; right; by right|constructor]. }
    apply lookup_lt_Some in Hq as Hqlt.
    apply (represents_insert (table b) t' m k v q e); try done.
    + intros i Hi. unfold t'. eapply same_data_trans; [apply same_data_prev|].
      eapply same_data_trans; [by apply same_data_insert|]. eapply same_data_trans; [apply same_data_prev|apply same_data_next].
    + intros p' Hp'. congruence.
    + unfold t'. rewrite lookup_set_next, bool_decide_eq_false_2 by congruence.
      rewrite lookup_set_prev, bool_decide_eq_false_2 by done.
      by rewrite list_lookup_insert_eq by by rewrite length_set_prev.
    + unfold used, e. cbn. by apply negb_true_iff, Z.eqb_neq.
  - left. destruct (take_start_ok b free k v p Hok Hp Hu Hv) as (free' & Hok'). eexists. split; [done|]. split; [|done].
    split; [by exists free'|]. cbn [table].
    eapply (represents_insert (table b) _ m k v (get_start k)); try done.
    + intros i Hi. eapply same_data_trans; [apply same_data_prev|].
      eapply same_data_trans; [apply same_data_next|]. by apply same_data_insert.
    + intros p' Hp'. congruence.
    + apply list_lookup_insert_eq. by rewrite length_set_next, length_set_prev.
    + unfold used. cbn. by apply negb_true_iff, Z.eqb_neq.
    + done.
    + done.
Qed.

(** *** Removing *)

(** The entries in use, except [h], are those of the map. *)
Definition maps (t : list Entry) (h : option nat) (m : gmap Z Z) : Prop :=
  (forall i e, Some i <> h -> t !! i = Some e -> used e = true -> m !! id e = Some (index e)) /\
  (forall k v, m !! k = Some v -> exists i e, Some i <> h /\ t !! i = Some e /\ used e = true /\ id e = k) /\
  (forall i j e f, Some i <> h -> Some j <> h -> t !! i = Some e -> t !! j = Some f -> used e = true ->
     used f = true -> id e = id f -> i = j).

Lemma represents_maps b m : represents b m <-> (exists free, block_ok b free) /\ maps (table b) None m.
Proof.
  unfold represents, maps. split; intros (Hok & H1 & H2 & H3); (split; [done|split; [|split]]).
  - intros i e _. by apply H1.
  - intros k v (i & e & H)%H2. by exists i, e.
  - intros i j e f _ _. by apply H3.
  - intros i e. by apply H1.
  - intros k v (i & e & _ & H)%H2. by exists i, e.
  - intros i j e f. by apply H3.
Qed.

(** The entries of [t'] are those of [t], at [r]. *)
Lemma maps_move t t' h h' m (r : nat -> nat) :
  (forall j e', Some j <> h' -> t' !! j = Some e' -> used e' = true ->
     Some (r j) <> h /\ exists e, t !! r j = Some e /\ dat e' = dat e) ->
  (forall j e, Some j <> h -> t !! j = Some e -> used e = true ->
     exists j' e', Some j' <> h' /\ t' !! j' = Some e' /\ dat e' = dat e) ->
  (forall i j, Some i <> h' -> Some j <> h' -> r i = r j -> i = j) ->
  maps t h m -> maps t' h' m.
Proof.
  intros Hr Hr' Hinj (H1 & H2 & H3). split; [|split].
  - intros i e' Hi He' Hu. destruct (Hr i e' Hi He' Hu) as (Hri & e & He & Hd). pose proof (dat_used _ _ Hd) as Hue.
    injection Hd as -> _ ->. eapply H1; [done..|congruence].
  - intros k v (i & e & Hi & He & Hu & Hk)%H2. destruct (Hr' i e Hi He Hu) as (j & e' & Hj & He' & Hd).
    exists j, e'. rewrite (dat_used _ _ Hd). injection Hd as -> _ _. done.
  - intros i j e' f' Hi Hj He' Hf' Hue Huf Hid. apply Hinj; [done..|].
    destruct (Hr i e' Hi He' Hue) as (Hri & e & He & Hd). destruct (Hr j f' Hj Hf' Huf) as (Hrj & f & Hf & Hdf).
    rewrite (dat_used _ _ Hd) in Hue. rewrite (dat_used _ _ Hdf) in Huf. injection Hd as Hd _ _. injection Hdf as Hdf _ _.
    apply (H3 (r i) (r j) e f); congruence.
Qed.

(** An ID whose entry [i] is left out is deleted. *)
Lemma maps_delete t m i e : maps t None m -> t !! i = Some e -> used e = true -> maps t (Some i) (delete (id e) m).
Proof.
  intros (H1 & H2 & H3) He Hu. split; [|split].
  - intros j f Hj Hf Huf. rewrite lookup_delete_ne; [by apply (H1 j)|]. intros Hid. apply Hj. f_equal. by eapply H3.
  - intros k v [Hk (j & f & Hj & Hf & Huf & Hid)%H2]%lookup_delete_Some. exists j, f. split; [|done].
    intros [= ->]. congruence.
  - intros j j' f f' _ _. by apply H3.
Qed.

Lemma heir_loop_linked t i l : forall fuel p, linked t p l None -> (length l <= fuel)%nat ->
  (exists a y b e, l = a ++ y :: b /\ t !! y = Some e /\ head e = i /\ heir_loop fuel t (first l None) i = Some (Some y)) \/
  ((forall y e, y ∈ l -> t !! y = Some e -> head e <> i) /\ heir_loop fuel t (first l None) i = Some None).
Proof.
  induction l as [|x l IH]; intros fuel p Hl Hf.
  - right. split; [|by destruct fuel]. intros y e Hy. by apply not_elem_of_nil in Hy.
  - destruct Hl as (e & He & _ & Hn & Hl). destruct fuel as [|fuel]; [cbn in Hf; lia|]. cbn [length] in Hf.
    cbn [first heir_loop]. rewrite He. cbn [mbind option_bind]. destruct (Nat.eqb_spec (head e) i) as [Hh|Hh].
    { left. by exists [], x, l, e. }
    rewrite Hn. destruct (IH fuel (Some x) Hl) as [(a & y & b & f & -> & Hf' & Hy & Hrest)|[Hno Hrest]]; [lia|left|right].
    + by exists (x :: a), y, b, f.
    + split; [|done]. intros y f [->|Hy]%elem_of_cons Hyf; [congruence|by eapply Hno].
Qed.

(** The heir's data in the place of the entry to delete *)
Lemma copy_heir_ok b free i q e : block_ok b free -> table b !! i = Some e -> used e = true -> used q = true ->
  head q = get_start (id q) -> head q = i ->
  let t := alter (with_data q) i (table b) in
  block_ok (mk_Block (size b) t (freelist b)) free /\ forall c, chain (table b) c -> chain t c.
Proof.
  intros Hok He Hu Huq Hhs Hh t. pose proof Hok as (Hlen & Hnd & Hl & Hfl & Hfree & Hch).
  assert (forall x, links t x = links (table b) x) as Hlinks.
  { intros x. unfold links, t. destruct (decide (x = i)) as [->|Hx]; [|by rewrite list_lookup_alter_ne].
    by rewrite list_lookup_alter_eq, He. }
  assert (forall x, x <> i -> same_data (table b) t x) as Hdata.
  { intros x Hx. unfold same_data, t. by rewrite list_lookup_alter_ne. }
  assert (t !! i = Some (with_data q e)) as Hti by (unfold t; by rewrite list_lookup_alter_eq, He).
  assert (forall c, chain (table b) c -> chain t c) as Hchains.
  { intros c (Hndc & Hlc & Hheads)%chain_heads. apply chain_heads. split; [done|]. split.
    - eapply linked_ext; [|exact Hlc]. intros x _. apply Hlinks.
    - apply heads_spec. intros a x d Hc. rewrite heads_spec in Hheads. specialize (Hheads a x d Hc).
      destruct (decide (x = i)) as [->|Hx]; [|eapply headed_same; [by apply Hdata|done]].
      exists (with_data q e). split; [done|]. split; [done|]. split; [done|]. cbn [with_data head]. rewrite Hh.
      apply elem_of_app. right. constructor. }
  split; [|done]. unfold block_ok. cbn [table size freelist].
  split; [unfold t; by rewrite length_alter|]. split; [done|]. split; [|split; [done|split]].
  - eapply linked_ext; [|exact Hl]. intros x _. apply Hlinks.
  - intros j f Hj. destruct (decide (j = i)) as [->|Hne].
    + rewrite Hti in Hj. injection Hj as <-. rewrite (Hfree i e He), Hu.
      unfold used in *. cbn [with_data index]. by rewrite Huq.
    + destruct (same_data_back _ _ _ _ (Hdata j Hne) Hj) as (g & Hg & Hd). rewrite (dat_used _ _ Hd). by apply Hfree.
  - intros j f Hj Huf. assert (exists g, table b !! j = Some g /\ used g = true) as (g & Hg & Hug).
    { destruct (decide (j = i)) as [->|Hne]; [by exists e|].
      destruct (same_data_back _ _ _ _ (Hdata j Hne) Hj) as (g & Hg & Hd). exists g. by rewrite <- (dat_used _ _ Hd). }
    destruct (Hch j g Hg Hug) as (c & Hc & Hin). exists c. auto.
Qed.
Lemma copy_heir_maps t i qi q e m : t !! i = Some e -> t !! qi = Some q -> i <> qi ->
  maps t (Some i) m -> maps (alter (with_data q) i t) (Some qi) m.
Proof.
  intros He Hq Hne. apply (maps_move _ _ _ _ _ (fun j => if decide (j = i) then qi else j)).
  - intros j e' Hj He' _. destruct (decide (j = i)) as [->|Hji].
    + split; [congruence|]. exists q. split; [done|]. rewrite list_lookup_alter_eq, He in He'. by injection He' as <-.
    + split; [congruence|]. rewrite list_lookup_alter_ne in He' by done. by exists e'.
  - intros j f Hj Hf _. destruct (decide (j = qi)) as [->|Hjq].
    + exists i, (with_data q e). rewrite list_lookup_alter_eq, He. rewrite Hq in Hf. injection Hf as <-.
      split; [congruence|done].
    + exists j, f. rewrite list_lookup_alter_ne by congruence. split; [congruence|done].
  - intros x y Hx Hy. destruct (decide (x = i)), (decide (y = i)); congruence.
Qed.

(** An entry that nothing after it needs goes to the head of the free list. *)
Lemma unlink_ok b free c1 i c2 d : block_ok b free -> chain (table b) (c1 ++ i :: c2) -> table b !! i = Some d ->
  (forall y e, y ∈ c2 -> table b !! y = Some e -> head e <> i) -> block_ok (unlink i d b) (i :: free).
Proof.
  intros Hok Hc Hd Hno. pose proof Hok as (Hlen & Hnd & Hl & Hfl & Hfree & Hch).
  pose proof Hc as (Hndc & Hlc & _). destruct (linked_entry _ _ _ _ _ _ Hlc) as (d' & Hd' & Hprev & Hnext).
  rewrite Hd in Hd'. injection Hd' as <-.
  assert (forall x, x ∈ c1 ++ i :: c2 -> x ∉ free) as Hcf by (intros x Hx; by eapply chain_not_free).
  assert (i ∉ free) as Hif by (apply Hcf, elem_of_app; right; constructor).
  unfold unlink. rewrite Hprev, Hnext, Hfl. set (e := mk_Entry (id d) None _ _ _).
  set (t2 := set_prev (first c2 None) (final None c1) (set_next (final None c1) (first c2 None) (table b))).
  set (t3 := set_prev (first free None) (Some i) t2). set (t4 := <[i := e]> t3).
  assert (length t4 = size b) as Ht4 by (unfold t4, t3, t2; by rewrite length_insert, !length_set_prev, length_set_next).
  assert ((i < length t3)%nat) as Hi3.
  { unfold t3, t2. rewrite !length_set_prev, length_set_next. by eapply lookup_lt_Some. }
  assert (t4 !! i = Some e) as Hie by (by apply list_lookup_insert_eq).
  assert (forall j, j <> i -> same_data (table b) t4 j) as Hdata.
  { intros j Hj. unfold t4, t3, t2. eapply same_data_trans; [apply same_data_next|].
    eapply same_data_trans; [apply same_data_prev|]. eapply same_data_trans; [apply same_data_prev|by apply same_data_insert]. }
  assert (forall x, first c2 None = Some x \/ final None c1 = Some x -> x ∈ c1 ++ i :: c2) as Hends.
  { intros x [H|H]; [apply first_in in H as [[=]|H]|apply final_in in H as [[=]|H]]; apply elem_of_app; [right; by right|by left]. }
  assert (forall c', chain (table b) c' -> c' <> c1 ++ i :: c2 -> chain t4 c') as Hother.
  { intros c' Hc' Hne. eapply chain_ext; [|exact Hc']. intros x Hx.
    assert (x ∉ c1 ++ i :: c2) as Hxc by (intros Hin; by apply Hne, (chain_eq (table b) c' _ x)).
    pose proof (chain_not_free _ _ _ _ Hok Hc' Hx) as Hxf.
    unfold t4, t3, t2. rewrite list_lookup_insert_ne by (intros ->; apply Hxc, elem_of_app; right; constructor).
    rewrite !lookup_set_prev, lookup_set_next, !bool_decide_eq_false_2; [done|..].
    - intros H. apply Hxc, Hends. by right.
    - intros H. apply Hxc, Hends. by left.
    - intros [[=]|H]%first_in. done. }
  assert (i ∉ c1 ++ c2) as Hic.
  { apply NoDup_app in Hndc as (_ & H12 & [Hi2 _]%NoDup_cons). intros [Hin|Hin]%elem_of_app; [|done]. apply (H12 i Hin). by left. }
  assert (chain t4 (c1 ++ c2)) as Hnew.
  { apply chain_heads. pose proof Hc as (_ & _ & Hheads)%chain_heads. split; [|split].
    - apply NoDup_app in Hndc as (H1 & H12 & [_ H2]%NoDup_cons). apply NoDup_app. split; [done|]. split; [|done].
      intros x Hx1 Hx2. apply (H12 x Hx1). by right.
    - apply linked_other_insert; [done|]. apply linked_other_prev.
      { intros x [[=]|Hx]%first_in Hxc. apply (Hcf x); [|done]. rewrite elem_of_app, elem_of_cons in *. tauto. }
      unfold t2. rewrite set_next_prev. by apply (linked_splice _ c1 i c2).
    - apply heads_app in Hheads as [Hh1 [_ Hh2]]. apply heads_app. split.
      + eapply heads_same; [|exact Hh1]. intros x Hx. apply Hdata. intros ->. apply Hic, elem_of_app. by left.
      + rewrite heads_spec in Hh2. apply heads_spec. intros a x z ->. specialize (Hh2 a x z eq_refl).
        apply (headed_same (table b)); [apply Hdata; intros ->; apply Hic; rewrite !elem_of_app, elem_of_cons; tauto|].
        destruct Hh2 as (f & Hf & Huf & Hhf & Hin). exists f. repeat (split; [done|]).
        assert (head f <> i) as Hne by (apply (Hno x); [apply elem_of_app; right; constructor|done]).
        cbn [app] in Hin |- *. rewrite !elem_of_app, !elem_of_cons in *. rewrite elem_of_nil in *. tauto. }
  split; [exact Ht4|]. split; [by apply NoDup_cons|]. cbn [table freelist]. split; [|split; [done|split]].
  - exists e. split; [done|]. split; [done|]. split; [done|]. apply linked_other_insert; [done|].
    eapply linked_set_prev; [done|]. unfold t2. apply linked_other_prev.
    { intros x Hx. apply Hcf, Hends. by left. }
    apply linked_other_next; [|exact Hl]. intros x Hx. apply Hcf, Hends. by right.
  - intros j f Hj. rewrite elem_of_cons. destruct (decide (j = i)) as [->|Hne].
    + rewrite Hie in Hj. injection Hj as <-. split; [done|by left].
    + destruct (same_data_back _ _ _ _ (Hdata j Hne) Hj) as (g & Hg & Hdg).
      rewrite (dat_used _ _ Hdg), <- (Hfree j g Hg). tauto.
  - intros j f Hj Huf. destruct (decide (j = i)) as [->|Hne].
    { rewrite Hie in Hj. injection Hj as <-. done. }
    destruct (same_data_back _ _ _ _ (Hdata j Hne) Hj) as (g & Hg & Hdg).
    destruct (Hch j g Hg) as (c' & Hc' & Hin); [by rewrite <- (dat_used _ _ Hdg)|].
    destruct (decide (c' = c1 ++ i :: c2)) as [->|Hnc]; [|exists c'; auto].
    exists (c1 ++ c2). split; [done|]. rewrite elem_of_app, elem_of_cons in *. tauto.
Qed.
Lemma unlink_maps b i d m : table b !! i = Some d ->
  maps (table b) (Some i) m -> maps (table (unlink i d b)) None m.
Proof.
  intros Hd. assert (forall j, j <> i -> same_data (table b) (table (unlink i d b)) j) as Hdata.
  { intros j Hj. unfold unlink. cbn [table]. eapply same_data_trans; [apply same_data_next|].
    eapply same_data_trans; [apply same_data_prev|]. eapply same_data_trans; [apply same_data_prev|by apply same_data_insert]. }
  assert (forall e, table (unlink i d b) !! i = Some e -> used e = false) as Hi.
  { intros e. unfold unlink. cbn [table]. rewrite list_lookup_insert_eq; [by intros [= <-]|].
    rewrite !length_set_prev, length_set_next. by eapply lookup_lt_Some. }
  apply (maps_move _ _ _ _ _ (fun j => j)).
  - intros j e' _ He' Hu. assert (j <> i) as Hj by (intros ->; rewrite (Hi _ He') in Hu; done).
    split; [congruence|]. exact (same_data_back _ _ _ _ (Hdata j Hj) He').
  - intros j e Hj He _. assert (j <> i) as Hji by congruence. specialize (Hdata j Hji).
    assert (same_data (table (unlink i d b)) (table b) j) as Hdata' by (symmetry; exact Hdata).
    destruct (same_data_back _ _ _ _ Hdata' He) as (e' & He' & Hde). by exists j, e'.
  - done.
Qed.

Lemma delete_loop_represents n : forall b free c1 i c2 m fuel, (length c2 < n)%nat -> (length c2 < fuel)%nat ->
  block_ok b free -> chain (table b) (c1 ++ i :: c2) -> maps (table b) (Some i) m ->
  exists b', delete_loop fuel i b = Some b' /\ represents b' m /\ size b' = size b.
Proof.
  induction n as [|n IH]; intros b free c1 i c2 m fuel Hn Hf Hok Hc Hm; [lia|]. destruct fuel as [|fuel]; [lia|].
  cbn [delete_loop]. pose proof Hc as (_ & Hl & _). destruct (linked_entry _ _ _ _ _ _ Hl) as (d & Hd & _ & Hnext).
  rewrite Hd. cbn [mbind option_bind]. rewrite Hnext.
  pose proof (chain_bound _ _ Hc) as Hb. rewrite length_app in Hb. cbn [length] in Hb. pose proof Hok as (Hlen & _).
  apply linked_app in Hl as [_ (? & _ & _ & _ & Hl2)].
  destruct (chain_used _ _ i Hc) as (d' & Hd' & Hu & _); [apply elem_of_app; right; constructor|].
  rewrite Hd in Hd'. injection Hd' as <-.
  destruct (heir_loop_linked (table b) i c2 (size b) _ Hl2) as [(a & y & z & q & -> & Hq & Hh & ->)|[Hno ->]]; [lia|..];
    cbn [mbind option_bind].
  - rewrite Hq. cbn [mbind option_bind].
    assert (y ∈ c1 ++ i :: a ++ y :: z) as Hy by (apply elem_of_app; right; right; apply elem_of_app; right; constructor).
    destruct (chain_used _ _ y Hc Hy) as (q' & Hq' & Huq & Hhq & _). rewrite Hq in Hq'. injection Hq' as <-.
    destruct (copy_heir_ok b free i q d Hok Hd Hu Huq Hhq Hh) as [Hok' Hchains].
    assert (i <> y) as Hiy.
    { intros <-. destruct Hc as ((_ & _ & [Hi _]%NoDup_cons)%NoDup_app & _). apply Hi, elem_of_app. right. constructor. }
    rewrite length_app in Hn, Hf. cbn [length] in Hn, Hf.
    destruct (IH (mk_Block (size b) (alter (with_data q) i (table b)) (freelist b)) free (c1 ++ i :: a) y z m fuel)
      as (b' & -> & Hb' & Hs); [lia|lia|done|rewrite <- app_assoc; by apply Hchains|by apply (copy_heir_maps _ i y q d)|].
    by exists b'.
  - eexists. split; [done|]. split; [|done]. apply represents_maps. split; [|by apply unlink_maps].
    exists (i :: free). by apply (unlink_ok _ _ c1 _ c2).
Qed.

Lemma remove_represents b m k : represents b m -> (get_start k < size b)%nat ->
  exists b', remove get_start k b = Some (default INVALID_INDEX (m !! k), b') /\
    represents b' (delete k m) /\ size b' = size b.
Proof.
  intros Hr Hs. pose proof Hr as [(free & Hok) Hm]%represents_maps. pose proof Hm as (H1 & H2 & _). unfold remove.
  destruct (find_id b free k Hok Hs) as [(i & e & c1 & c2 & He & Hu & <- & _ & -> & Hc)|[Hno [_ ->]]];
    cbn [mbind option_bind].
  - rewrite He. cbn [mbind option_bind]. pose proof (chain_bound _ _ Hc) as Hb. rewrite length_app in Hb. cbn [length] in Hb.
    pose proof Hok as (Hlen & _).
    destruct (delete_loop_represents (S (length c2)) b free c1 i c2 (delete (id e) m) (size b)) as (b' & -> & Hb' & Hs');
      [lia|lia|done|done|by apply maps_delete|]. cbn [mbind option_bind].
    exists b'. by rewrite (H1 i e ltac:(done) He Hu).
  - exists b. destruct (m !! k) as [v|] eqn:Hk.
    + exfalso. destruct (H2 _ _ Hk) as (i & e & _ & He). by apply (Hno i); exists e.
    + split; [done|]. split; [|done]. by rewrite delete_id.
Qed.

Lemma linked_seq mem n : forall k s, (s + k = S n)%nat ->
  linked (table (new_Block (S n) mem)) (if (s =? 0)%nat then None else Some (s - 1)%nat) (seq s k) None.
Proof.
  induction k as [|k IH]; intros s Hs; [done|].
  change (seq s (S k)) with (s :: seq (S s) k). cbn [linked].
  eexists. split; [|split; [|split]].
  - unfold new_Block. cbn [table]. rewrite list_lookup_fmap, lookup_seq_lt by lia. reflexivity.
  - done.
  - cbn [next]. destruct k as [|k]; cbn [seq first].
    + rewrite (proj2 (Nat.ltb_ge _ _)) by lia. done.
    + rewrite (proj2 (Nat.ltb_lt _ _)) by lia. done.
  - specialize (IH (S s) ltac:(lia)). cbn [Nat.eqb] in IH. by replace (S s - 1)%nat with s in IH by lia.
Qed.
Lemma new_represents n mem : (0 < n)%nat -> represents (new_Block n mem) ∅.
Proof.
  intros Hn. destruct n as [|n]; [lia|]. apply represents_maps.
  assert (forall i e, table (new_Block (S n) mem) !! i = Some e -> (i < S n)%nat /\ used e = false) as Hunused.
  { intros i e He. apply list_lookup_fmap_Some in He as (j & -> & [-> Hj]%lookup_seq). by split. }
  split; [exists (seq 0 (S n))|].
  - unfold block_ok. split; [by unfold new_Block; cbn [table size]; rewrite length_map, length_seq|].
    split; [apply NoDup_seq|]. split; [by apply (linked_seq mem n (S n) 0)|]. split; [done|]. split.
    + intros i e [Hi Hu]%Hunused. rewrite elem_of_seq. split; [done|lia].
    + intros i e [_ Hu]%Hunused. congruence.
  - split; [|split].
    + intros i e _ [_ Hu]%Hunused. congruence.
    + intros k v. by rewrite lookup_empty.
    + intros i j e f _ _ [_ Hu]%Hunused. congruence.
Qed.

(** *** Checking *)

Lemma check_free_linked b l : forall fuel p marks, linked (table b) p l None -> NoDup l ->
  (forall x e, x ∈ l -> table b !! x = Some e -> (x < size b)%nat /\ used e = false /\ x ∉ marks) ->
  (length l < fuel)%nat -> check_free fuel b p (first l None) marks = Some ([], list_to_set l ∪ marks).
Proof.
  induction l as [|x l IH]; intros fuel p marks Hl Hnd Hx Hf; cbn [first list_to_set].
  { destruct fuel; cbn [check_free]; by rewrite union_empty_l_L. }
  destruct fuel as [|fuel]; [lia|]. destruct Hl as (e & He & Hp & Hn & Hl). apply NoDup_cons in Hnd as [Hxl Hnd].
  destruct (Hx x e ltac:(by left) He) as (Hlt & Hu & Hm). cbn [check_free length] in *.
  rewrite (proj2 (Nat.leb_gt (size b) x)) by lia. rewrite decide_False, He by done. cbn [mbind option_bind].
  rewrite Hu, Hn, (IH fuel (Some x)); [|done|done| |lia].
  - cbn [mbind option_bind]. rewrite decide_True by done. cbn [app]. by rewrite union_assoc_L, (union_comm_L (list_to_set l) {[x]}).
  - intros y f Hy Hf'. destruct (Hx y f ltac:(by right) Hf') as (? & ? & ?). repeat (split; [done|]).
    rewrite elem_of_union, elem_of_singleton. intros [->|?]; done.
Qed.
Lemma check_chain_linked b start l : forall fuel p marks, linked (table b) p l None ->
  (forall x, x ∈ l -> (x < size b)%nat /\ exists e, table b !! x = Some e /\ used e = true /\ head e = get_start (id e)) ->
  (length l < fuel)%nat ->
  check_chain get_start fuel b start p (first l None) marks = Some ([], list_to_set l ∪ marks).
Proof.
  induction l as [|x l IH]; intros fuel p marks Hl Hx Hf; cbn [first list_to_set].
  { destruct fuel; cbn [check_chain]; by rewrite union_empty_l_L. }
  destruct fuel as [|fuel]; [lia|]. destruct Hl as (e & He & Hp & Hn & Hl).
  destruct (Hx x ltac:(by left)) as (Hlt & e' & He' & Hu & Hh). rewrite He in He'. injection He' as <-.
  cbn [check_chain length] in *. rewrite (proj2 (Nat.leb_gt (size b) x)) by lia. rewrite He. cbn [mbind option_bind].
  rewrite Hn, (IH fuel (Some x)); [|done| |lia].
  - cbn [mbind option_bind]. rewrite Hu, !decide_True by done. cbn [app]. by rewrite union_assoc_L, (union_comm_L (list_to_set l) {[x]}).
  - intros y Hy. apply Hx. by right.
Qed.

(** An entry that is where its ID hashes to starts the rest of a chain; so does the first of each chain. *)
Lemma chain_from b free i e : block_ok b free -> table b !! i = Some e -> used e = true ->
  exists l, linked (table b) (prev e) (i :: l) None /\ (length l < size b)%nat /\
    (forall x, x ∈ i :: l -> (x < size b)%nat /\ exists e, table b !! x = Some e /\ used e = true /\ head e = get_start (id e)) /\
    (forall c, chain (table b) c -> first c None = Some i -> c = i :: l).
Proof.
  intros (Hlen & _ & _ & _ & _ & Hch) He Hu. destruct (Hch i e He Hu) as (c & Hc & (a & l & ->)%list_elem_of_split).
  exists l. pose proof (chain_bound _ _ Hc) as Hb. rewrite length_app, Hlen in Hb. cbn [length] in Hb.
  pose proof Hc as (_ & Hl & _). apply linked_app in Hl as [_ (e' & He' & Hp & Hrest)].
  rewrite He in He'. injection He' as <-. split; [by exists e|]. split; [lia|]. split.
  - intros x Hx. destruct (chain_used _ _ x Hc) as (f & Hf & Huf & Hh & _); [apply elem_of_app; by right|].
    split; [rewrite <- Hlen; by eapply lookup_lt_Some|by exists f].
  - intros c' Hc' Hi. destruct c' as [|y c']; [done|]. injection Hi as ->.
    pose proof Hc' as (_ & Hl' & _). f_equal. eapply (linked_after (table b) None); [exact Hl'|]. by exists e.
Qed.
Lemma chain_first t c x : chain t c -> x ∈ c -> exists i e, first c None = Some i /\ t !! i = Some e /\ used e = true /\
  get_start (id e) = i.
Proof.
  intros (_ & _ & Hh)%chain_heads Hx. destruct c as [|i c]; [by apply not_elem_of_nil in Hx|].
  destruct Hh as [(e & He & Hu & Hhead & Hin) _]. exists i, e. apply list_elem_of_singleton in Hin. by rewrite <- Hhead.
Qed.

Lemma check_entries b free ns : block_ok b free -> (forall i, i ∈ ns -> (i < size b)%nat) ->
  forall marks, exists marks', fold_left (check_entry get_start b) ns (Some ([], marks)) = Some ([], marks') /\
    marks ⊆ marks' /\ forall c i x, chain (table b) c -> first c None = Some i -> i ∈ ns -> x ∈ c -> x ∈ marks'.
Proof.
  intros Hok. pose proof Hok as (Hlen & _). induction ns as [|n ns IH]; intros Hns marks; cbn [fold_left].
  { exists marks. split; [done|]. split; [done|]. intros c i x _ _ Hi. by apply not_elem_of_nil in Hi. }
  assert (forall i, i ∈ ns -> (i < size b)%nat) as Hns' by (intros i Hi; apply Hns; by right). specialize (IH Hns').
  assert (exists marks1, check_entry get_start b (Some ([], marks)) n = Some ([], marks1) /\ marks ⊆ marks1 /\
    forall c x, chain (table b) c -> first c None = Some n -> x ∈ c -> x ∈ marks1) as (marks1 & -> & Hsub & H1).
  { pose proof (Hns n ltac:(by left)) as Hn. rewrite <- Hlen in Hn. destruct (lookup_lt_is_Some_2 _ _ Hn) as [e He].
    unfold check_entry. cbn [mbind option_bind]. rewrite He. cbn [mbind option_bind].
    destruct (used e && (get_start (id e) =? n)%nat) eqn:Hcond.
    - apply andb_true_iff in Hcond as [Hu _]. destruct (chain_from b free n e Hok He Hu) as (l & Hl & Hlt & Hx & Hc).
      rewrite <- (eq_refl : first (n :: l) None = Some n), (check_chain_linked b n (n :: l)); [|done|done|cbn; lia].
      cbn [mbind option_bind]. eexists. split; [done|]. split; [apply union_subseteq_r|].
      intros c x Hchain Hfirst Hin. rewrite (Hc c Hchain Hfirst) in Hin. apply elem_of_union. left. by apply elem_of_list_to_set.
    - exists marks. split; [done|]. split; [done|]. intros c x Hchain Hfirst Hin.
      destruct (chain_first _ _ _ Hchain Hin) as (i & f & Hi & Hf & Huf & Hs). rewrite Hfirst in Hi. injection Hi as <-.
      rewrite He in Hf. injection Hf as <-. by rewrite Huf, Hs, Nat.eqb_refl in Hcond. }
  destruct (IH marks1) as (marks' & -> & Hsub' & H2). exists marks'. split; [done|]. split; [by etrans|].
  intros c i x Hc Hi [->|Hin]%elem_of_cons Hx; [|by eapply H2]. apply Hsub'. by eapply H1.
Qed.

Lemma check_ok b free : block_ok b free -> check get_start b = Some [].
Proof.
  intros Hok. pose proof Hok as (Hlen & Hnd & Hl & Hfl & Hfree & Hch). unfold check. rewrite Hfl.
  rewrite (check_free_linked b free); [|done|done| |].
  2:{ intros x e Hx He. split; [rewrite <- Hlen; by eapply lookup_lt_Some|]. split; [by apply (Hfree x e He)|done]. }
  2:{ rewrite <- Hlen. apply Nat.lt_succ_r, elements_bound; [done|]. intros x Hx.
      destruct (free_unused _ _ _ Hok Hx) as (e & He & _). by exists e. }
  cbn [mbind option_bind].
  destruct (check_entries b free (seq 0 (size b)) Hok) with (marks := list_to_set free ∪ ∅ : gset nat)
    as (marks & -> & Hsub & Hm); [intros i Hi%elem_of_seq; lia|]. cbn [mbind option_bind app].
  assert (filter (fun i => i ∉ marks) (seq 0 (size b)) = []) as ->; [|done].
  assert (Forall (fun i => i ∈ marks) (seq 0 (size b))) as Hall.
  { apply Forall_forall. intros i Hi%elem_of_seq. rewrite <- Hlen in Hi.
    destruct (lookup_lt_is_Some_2 (table b) i ltac:(lia)) as [e He]. destruct (used e) eqn:Hu.
    - destruct (Hch i e He Hu) as (c & Hc & Hin). destruct (chain_first _ _ _ Hc Hin) as (j & f & Hj & Hf & _).
      eapply (Hm c j); [done..| |done]. apply elem_of_seq. rewrite <- Hlen. apply lookup_lt_Some in Hf. lia.
    - apply Hsub, elem_of_union. left. apply elem_of_list_to_set. by eapply Hfree. }
  clear -Hall. induction Hall as [|x l Hx _ IH]; [done|]. rewrite filter_cons_False; [done|]. intros H. by apply H.
Qed.

(** *** Statistics *)

Lemma chain_length_linked t l : forall fuel p, linked t p l None -> (length l <= fuel)%nat ->
  chain_length fuel t (first l None) = Some (Z.of_nat (length l)).
Proof.
  induction l as [|x l IH]; intros fuel p Hl Hf; [by destruct fuel|].
  destruct Hl as (e & He & _ & Hn & Hl). destruct fuel as [|fuel]; [cbn in Hf; lia|]. cbn [length] in *.
  cbn [first chain_length]. rewrite He. cbn [mbind option_bind]. rewrite Hn, (IH fuel (Some x)) by (done || lia).
  cbn [mbind option_bind]. f_equal. lia.
Qed.

Definition count_used (b : Block) (ns : list nat) : Z :=
  Z.of_nat (length (filter (fun i => used <$> table b !! i = Some true) ns)).
Lemma stats_fold b free ns : block_ok b free -> (forall i, i ∈ ns -> (i < size b)%nat) ->
  forall n mx, 0 <= mx <= Z.of_nat (size b) -> exists mx', 0 <= mx' <= Z.of_nat (size b) /\
    fold_left (stats_step get_start b) ns (Some (n, mx)) = Some (n + count_used b ns, mx').
Proof.
  intros Hok. pose proof Hok as (Hlen & _). induction ns as [|i ns IH]; intros Hns n mx Hmx; cbn [fold_left].
  { exists mx. split; [done|]. unfold count_used. cbn. do 2 f_equal. lia. }
  pose proof (Hns i ltac:(by left)) as Hi. rewrite <- Hlen in Hi. destruct (lookup_lt_is_Some_2 _ _ Hi) as [e He].
  cbn [stats_step]. unfold stats_step at 2. cbn [mbind option_bind]. rewrite He. cbn [mbind option_bind].
  unfold count_used. assert (forall j, j ∈ ns -> (j < size b)%nat) as Hns' by (intros j Hj; apply Hns; by right).
  destruct (used e) eqn:Hu.
  - rewrite filter_cons_True by (by rewrite He; cbn; f_equal). cbn [length].
    destruct (chain_from b free i e Hok He Hu) as (l & Hl & Hlt & _).
    assert (chain_length (size b) (table b) (Some i) = Some (Z.of_nat (length (i :: l)))) as ->.
    { apply (chain_length_linked (table b) (i :: l) (size b) (prev e)); [done|cbn; lia]. }
    cbn [mbind option_bind length].
    destruct (get_start (id e) =? i)%nat.
    + destruct (IH Hns' (n + 1) (Z.max mx (Z.of_nat (S (length l)))) ltac:(lia)) as (mx' & Hmx' & ->).
      exists mx'. split; [done|]. unfold count_used. do 2 f_equal. lia.
    + destruct (IH Hns' (n + 1) mx Hmx) as (mx' & Hmx' & ->). exists mx'. split; [done|]. unfold count_used. do 2 f_equal. lia.
  - rewrite filter_cons_False by (rewrite He; cbn; congruence). by apply IH.
Qed.

Lemma count_used_represents b m : represents b m -> count_used b (seq 0 (size b)) = Z.of_nat (base.size m).
Proof.
  intros ((free & Hlen & _) & H1 & H2 & H3). unfold count_used. f_equal.
  set (l := filter _ _). set (f := fun i => from_option id 0 (table b !! i)).
  assert (forall i, i ∈ l <-> exists e, table b !! i = Some e /\ used e = true) as Hl.
  { intros i. unfold l. rewrite list_elem_of_filter, elem_of_seq. split.
    - intros [Hu _]. destruct (table b !! i) as [e|]; [|done]. injection Hu as Hu. by exists e.
    - intros (e & He & Hu). rewrite He. split; [cbn; by f_equal|]. apply lookup_lt_Some in He. lia. }
  assert (NoDup (f <$> l)) as Hnd.
  { apply NoDup_fmap_2_strong; [|apply NoDup_filter, NoDup_seq].
    intros i j (e & He & Hue)%Hl (g & Hg & Hug)%Hl. unfold f. rewrite He, Hg. cbn. by apply H3. }
  rewrite <- (length_fmap f l), <- (size_list_to_set (C := gset Z) _ Hnd), <- (size_dom (D := gset Z)). f_equal. apply set_eq.
  intros k. rewrite elem_of_list_to_set, elem_of_dom, list_elem_of_fmap. split.
  - intros (i & -> & (e & He & Hu)%Hl). unfold f. rewrite He. cbn. rewrite (H1 _ _ He Hu). by eexists.
  - intros [v (i & e & He & Hu & Hk)%H2]. exists i. unfold f. rewrite He. split; [done|]. apply Hl. by exists e.
Qed.
Lemma filter_length_all {A} (P : A -> Prop) `{forall x, Decision (P x)} (l : list A) :
  length (filter P l) = length l <-> forall x, x ∈ l -> P x.
Proof.
  induction l as [|x l IH]; [split; [intros _ x Hx; by apply not_elem_of_nil in Hx|done]|]. rewrite filter_cons. destruct (decide (P x)).
  - cbn [length]. split.
    + intros Hlen y [->|Hy]%elem_of_cons; [done|]. apply IH; [lia|done].
    + intros Hall. f_equal. apply IH. intros y Hy. apply Hall. by right.
  - split; [|intros Hall; exfalso; apply n, Hall; by left]. intros Hlen. pose proof (length_filter P l). cbn [length] in Hlen. lia.
Qed.
Lemma represents_full b m : represents b m ->
  (base.size m <= size b)%nat /\
  (base.size m = size b <-> forall i e, table b !! i = Some e -> used e = true).
Proof.
  intros Hr. pose proof (count_used_represents _ _ Hr) as Hc. unfold count_used in Hc. apply Nat2Z.inj in Hc.
  destruct Hr as ((free & Hlen & _) & _). rewrite <- Hc. split.
  - etrans; [apply length_filter|]. by rewrite length_seq.
  - rewrite <- (length_seq (size b) 0) at 2. rewrite filter_length_all. split.
    + intros Hall i e He. specialize (Hall i). rewrite He in Hall. apply lookup_lt_Some in He.
      assert (Some (used e) = Some true) as [= ->]; [|done]. apply Hall, elem_of_seq. lia.
    + intros Hall i Hi%elem_of_seq. rewrite <- Hlen in Hi. destruct (lookup_lt_is_Some_2 (table b) i ltac:(lia)) as [e He].
      rewrite He. cbn. f_equal. by eapply Hall.
Qed.

(** A block is full exactly when [add] fails. *)
Lemma add_spec b m k v : represents b m -> (get_start k < size b)%nat -> m !! k = None -> v <> INVALID_INDEX ->
  exists b', add get_start k v b = Some ((base.size m <? size b)%nat, b') /\ size b' = size b /\
    represents b' (if (base.size m <? size b)%nat then <[k := v]> m else m).
Proof.
  intros Hr Hs Hm Hv. destruct (represents_full _ _ Hr) as [Hle Hfull].
  destruct (add_represents b m k v Hr Hs Hm Hv) as [(b' & Hadd & Hb' & Hsize)|[Hadd Hall]].
  - exists b'. rewrite Hadd. assert ((base.size m < size b)%nat) as Hlt.
    { destruct (represents_full _ _ Hb') as [Hle' _]. rewrite map_size_insert_None in Hle' by done. lia. }
    rewrite (proj2 (Nat.ltb_lt _ _)) by done. done.
  - exists b. rewrite Hadd, (proj2 (Nat.ltb_ge _ _)); [done|]. apply Hfull in Hall. lia.
Qed.

End invariant.

(* ------------------------------------------------------------------ *)
(** ** Sequences of operations *)

Inductive Op := Add (k v : Z) | Lookup (k : Z) | Remove (k : Z).
Inductive Out := Added (ok : bool) | Found (v : Z).

Definition block_step (get_start : Z -> nat) (op : Op) (b : Block) : option (Out * Block) :=
  match op with
  | Add k v => '(ok, b) ← add get_start k v b; Some (Added ok, b)
  | Lookup k => v ← lookup get_start k b; Some (Found v, b)
  | Remove k => '(v, b) ← remove get_start k b; Some (Found v, b)
  end.
Fixpoint run_block (get_start : Z -> nat) (ops : list Op) (b : Block) : option (list Out * Block) :=
  match ops with
  | [] => Some ([], b)
  | op :: ops => '(o, b) ← block_step get_start op b; '(os, b) ← run_block get_start ops b; Some (o :: os, b)
  end.

(** What the operations mean: a map of at most [n] IDs *)
Definition map_step (n : nat) (op : Op) (m : gmap Z Z) : Out * gmap Z Z :=
  match op with
  | Add k v => if (base.size m <? n)%nat then (Added true, <[k := v]> m) else (Added false, m)
  | Lookup k => (Found (default INVALID_INDEX (m !! k)), m)
  | Remove k => (Found (default INVALID_INDEX (m !! k)), delete k m)
  end.
Fixpoint run_map (n : nat) (ops : list Op) (m : gmap Z Z) : list Out * gmap Z Z :=
  match ops with
  | [] => ([], m)
  | op :: ops => let '(o, m) := map_step n op m in let '(os, m) := run_map n ops m in (o :: os, m)
  end.

(** The caller adds no ID twice, and no invalid index. *)
Definition allowed (op : Op) (m : gmap Z Z) : Prop :=
  match op with Add k v => m !! k = None /\ v <> INVALID_INDEX | _ => True end.
Fixpoint all_allowed (n : nat) (ops : list Op) (m : gmap Z Z) : Prop :=
  match ops with [] => True | op :: ops => allowed op m /\ all_allowed n ops (snd (map_step n op m)) end.

Lemma block_step_map get_start n op b m : (forall k, (get_start k < n)%nat) -> size b = n ->
  represents get_start b m -> allowed op m ->
  exists b', block_step get_start op b = Some (fst (map_step n op m), b') /\
    represents get_start b' (snd (map_step n op m)) /\ size b' = n.
Proof.
  intros Hs <- Hr Hop. destruct op as [k v|k|k]; cbn [block_step map_step fst snd].
  - destruct Hop as [Hm Hv]. destruct (add_spec _ b m k v Hr (Hs k) Hm Hv) as (b' & -> & Hsize & Hb').
    exists b'. destruct (base.size m <? size b)%nat; done.
  - rewrite (lookup_represents _ b m k Hr (Hs k)). by exists b.
  - destruct (remove_represents _ b m k Hr (Hs k)) as (b' & -> & Hb' & Hsize). by exists b'.
Qed.
Lemma run_block_map get_start n ops : (forall k, (get_start k < n)%nat) -> forall b m, size b = n ->
  represents get_start b m -> all_allowed n ops m ->
  exists b', run_block get_start ops b = Some (fst (run_map n ops m), b') /\
    represents get_start b' (snd (run_map n ops m)) /\ size b' = n.
Proof.
  intros Hs. induction ops as [|op ops IH]; intros b m Hn Hr Hops; [by exists b|]. destruct Hops as [Hop Hops].
  destruct (block_step_map _ n op b m Hs Hn Hr Hop) as (b1 & Hstep & Hr1 & Hn1).
  cbn [run_block run_map]. rewrite Hstep. destruct (map_step n op m) as [o m1]. cbn [fst snd mbind option_bind] in *.
  destruct (IH b1 m1 Hn1 Hr1 Hops) as (b2 & -> & Hr2 & Hn2). destruct (run_map n ops m1) as [os m2]. by exists b2.
Qed.

(** C8: a block of a hash table behaves as a finite map of at most its size in entries.  From a new block, on
    memory of any content, every sequence of [add], [lookup] and [remove] calls ends (no search goes round for
    ever and no index leaves the table) and returns what a map returns: [lookup] and [remove] the index or the
    invalid one, and [add] whether there was an entry left; the caller must not add an ID twice nor the
    invalid index. *)
Theorem hash_block_refines_map (get_start : Z -> nat) (n : nat) (mem : nat -> Z * nat) (ops : list Op) :
  (0 < n)%nat -> (forall k, (get_start k < n)%nat) -> all_allowed n ops ∅ ->
  exists b, run_block get_start ops (new_Block n mem) = Some (fst (run_map n ops ∅), b) /\
    forall k, lookup get_start k b = Some (default INVALID_INDEX (snd (run_map n ops ∅) !! k)).
Proof.
  intros Hn Hs Hops.
  destruct (run_block_map get_start n ops Hs (new_Block n mem) ∅ eq_refl (new_represents get_start n mem Hn) Hops)
    as (b & Hrun & Hb & Hsize).
  exists b. split; [done|]. intros k. apply lookup_represents; [done|]. by rewrite Hsize.
Qed.

(** Five IDs for a block of four: the last is refused, and the head of the chain gives way to its heir. *)
Definition sample_ops : list Op :=
  [Add 0 10; Add 4 20; Add 8 30; Add 3 40; Add 12 50; Remove 0; Lookup 8; Lookup 3; Remove 0; Add 12 50; Lookup 12; Lookup 4].
Definition mod4 (k : Z) : nat := Z.to_nat (k mod 4).
Lemma hash_block_refines_map_witness :
  exists b, run_block mod4 sample_ops (new_Block 4 (fun i => (Z.of_nat i, 7%nat))) =
      Some ([Added true; Added true; Added true; Added true; Added false; Found 10; Found 30; Found 40; Found (-1);
             Added true; Found 50; Found 20], b) /\
    forall k, lookup mod4 k b = Some (default INVALID_INDEX (snd (run_map 4 sample_ops ∅) !! k)).
Proof.
  refine (hash_block_refines_map mod4 4 (fun i => (Z.of_nat i, 7%nat)) sample_ops _ _ _); [lia| |].
  - intros k. unfold mod4. pose proof (Z.mod_pos_bound k 4). lia.
  - cbn; repeat split; done.
Defined.

(** [check] finds no problem in any block that the operations produce: after every sequence of calls of
    [add], [lookup] and [remove], the free list and the chains are linked both ways, free entries are unused and
    chained ones used, every entry's head is where its ID hashes to, and no entry is lost. *)
Theorem hash_block_check (get_start : Z -> nat) (n : nat) (mem : nat -> Z * nat) (ops : list Op) :
  (0 < n)%nat -> (forall k, (get_start k < n)%nat) -> all_allowed n ops ∅ ->
  exists outs b, run_block get_start ops (new_Block n mem) = Some (outs, b) /\ check get_start b = Some [].
Proof.
  intros Hn Hs Hops.
  destruct (run_block_map get_start n ops Hs (new_Block n mem) ∅ eq_refl (new_represents get_start n mem Hn) Hops)
    as (b & Hrun & ((free & Hok) & _) & _).
  exists (fst (run_map n ops ∅)), b. split; [done|]. by eapply check_ok.
Qed.
Lemma hash_block_check_witness :
  exists outs b, run_block mod4 sample_ops (new_Block 4 (fun i => (0, 0%nat))) = Some (outs, b) /\ check mod4 b = Some [].
Proof.
  apply (hash_block_check mod4 4); [lia| |].
  - intros k. unfold mod4. pose proof (Z.mod_pos_bound k 4). lia.
  - cbn; repeat split; done.
Defined.

(** [get_stats] counts the IDs in the block, gives its fullness as a percentage of its size and a longest
    chain of at most its size, and ends, for every block that the operations produce. *)
Theorem hash_block_stats (get_start : Z -> nat) (n : nat) (mem : nat -> Z * nat) (ops : list Op) :
  (0 < n)%nat -> (forall k, (get_start k < n)%nat) -> all_allowed n ops ∅ ->
  let m := snd (run_map n ops ∅) in
  exists outs b longest, run_block get_start ops (new_Block n mem) = Some (outs, b) /\
    get_stats get_start b = Some (mk_Stats (Z.of_nat (base.size m)) (100 * Z.of_nat (base.size m) / Z.of_nat n) longest) /\
    0 <= longest <= Z.of_nat n /\ 0 <= 100 * Z.of_nat (base.size m) / Z.of_nat n <= 100.
Proof.
  intros Hn Hs Hops m.
  destruct (run_block_map get_start n ops Hs (new_Block n mem) ∅ eq_refl (new_represents get_start n mem Hn) Hops)
    as (b & Hrun & Hb & Hsize). fold m in Hb.
  pose proof Hb as ((free & Hok) & _). destruct (represents_full _ _ _ Hb) as [Hle _].
  destruct (stats_fold get_start b free (seq 0 (size b)) Hok) with (n := 0) (mx := 0) as (longest & Hlongest & Hfold);
    [intros i Hi%elem_of_seq; lia|lia|].
  exists (fst (run_map n ops ∅)), b, longest. split; [done|]. unfold get_stats. rewrite Hfold. cbn [mbind option_bind].
  rewrite (count_used_represents _ _ _ Hb), Z.add_0_l, Hsize in *. split; [done|]. split; [done|]. split.
  - apply Z.div_pos; lia.
  - apply Z.div_le_upper_bound; lia.
Qed.
Lemma hash_block_stats_witness :
  exists outs b longest, run_block mod4 sample_ops (new_Block 4 (fun i => (0, 0%nat))) = Some (outs, b) /\
    get_stats mod4 b = Some (mk_Stats 4 100 longest) /\ 0 <= longest <= 4 /\ 0 <= 100 <= 100.
Proof.
  refine (hash_block_stats mod4 4 (fun i => (0, 0%nat)) sample_ops _ _ _); [lia| |].
  - intros k. unfold mod4. pose proof (Z.mod_pos_bound k 4). lia.
  - cbn; repeat split; done.
Defined.

End Hash.
