(* ===== verification/HashTable.v ===== *)
(** * Hash tables

    Models [GeneralTable], [Table] and [IntegerIDHelper] of
    [src/libs/hash/ot-hash.h]: an ID is split into a block number and a hash
    ID by a helper, a type class here with its laws. *)
From S2P Require Export Hash.

Module HashTable.
Import Hash.

(** What the table asks of its template parameter [HELPER_T] *)

Class Helper (ID : Type) := {
  get_block_no : ID -> nat;
  get_hash_id : ID -> Z;
  get_start : Z -> nat }.

Record GeneralTable := mk_GeneralTable { nbits : Z; block_size : nat; blocks : list Block; built : bool }.

(** [allocated i] is whether there was memory for block [i], and [mem] is what was in it. *)
Definition new_GeneralTable (nbits : Z) (block_size : nat) (allocated : nat -> bool) (mem : nat -> nat -> Z * nat) :
  GeneralTable :=
  let numbers := seq 0 (Z.to_nat (Z.shiftl 1 nbits)) in
  mk_GeneralTable nbits block_size (map (fun i => new_Block block_size (mem i)) numbers) (forallb allocated numbers).

(** Bits of an ID that a table with hash IDs of [bits] bits can tell apart *)
Definition max_id_bits (bits : Z) (t : GeneralTable) : Z := nbits t + bits.
Definition capacity (t : GeneralTable) : Z := Z.shiftl 1 (nbits t) * Z.of_nat (block_size t).

Definition with_block (no : nat) (b : Block) (t : GeneralTable) : GeneralTable :=
  mk_GeneralTable (nbits t) (block_size t) (<[no := b]> (blocks t)) (built t).

Section table.
Context {ID : Type} {helper : Helper ID}.

Definition table_add (i : ID) (index : Z) (t : GeneralTable) : option (bool * GeneralTable) :=
  if negb (built t) then Some (false, t)
  else
    b ← blocks t !! get_block_no i;
    '(ok, b) ← add get_start (get_hash_id i) index b;
    Some (ok, with_block (get_block_no i) b t).

Definition table_lookup (i : ID) (t : GeneralTable) : option Z :=
  if negb (built t) then Some INVALID_INDEX
  else b ← blocks t !! get_block_no i; lookup get_start (get_hash_id i) b.

Definition lookup_and_remove (i : ID) (t : GeneralTable) : option (Z * GeneralTable) :=
  if negb (built t) then Some (INVALID_INDEX, t)
  else
    b ← blocks t !! get_block_no i;
    '(index, b) ← remove get_start (get_hash_id i) b;
    Some (index, with_block (get_block_no i) b t).

Definition table_remove (i : ID) (t : GeneralTable) : option (bool * GeneralTable) :=
  '(index, t) ← lookup_and_remove i t; Some (negb (index =? INVALID_INDEX), t).

Definition table_check (t : GeneralTable) : option (list (list Problem)) := mapM (check get_start) (blocks t).

Definition table_stats_step (s : option Stats) (b : Block) : option Stats :=
  s ← s;
  block_stats ← get_stats get_start b;
  Some (mk_Stats (entries s + entries block_stats) (Z.max (max_fullness s) (max_fullness block_stats))
                 (Z.max (max_chain s) (max_chain block_stats))).
Definition table_get_stats (t : GeneralTable) : option Stats :=
  fold_left table_stats_step (blocks t) (Some (mk_Stats 0 0 0)).

End table.

(** ** [IntegerIDHelper], for hash IDs of [bits] bits *)

Definition block_mask (nbits : Z) : Z := Z.shiftl 1 nbits - 1.
Definition IntegerIDHelper (bits nbits : Z) (block_size : nat) : Helper Z := {|
  get_block_no i := Z.to_nat (Z.land i (block_mask nbits));
  get_hash_id i := Z.shiftr i nbits mod 2 ^ bits;
  get_start i := Z.to_nat (i mod Z.of_nat block_size) |}.

(* ------------------------------------------------------------------ *)
(** ** The laws of a helper *)

(** The block number and the start are in range, and tell valid IDs apart with the hash ID. *)
Class HelperLaws (ID : Type) {helper : Helper ID} (nblocks size : nat) (valid : ID -> Prop) := {
  block_no_bound : forall i, (get_block_no i < nblocks)%nat;
  start_bound : forall h, (get_start h < size)%nat;
  split_inj : forall i j, valid i -> valid j -> get_block_no i = get_block_no j -> get_hash_id i = get_hash_id j -> i = j }.

Definition integer_id (bits nbits : Z) (i : Z) : Prop := 0 <= i < 2 ^ (nbits + bits).

#[export] Instance IntegerIDHelper_laws bits nbits block_size : 0 <= bits -> 0 <= nbits -> (0 < block_size)%nat ->
  @HelperLaws Z (IntegerIDHelper bits nbits block_size) (Z.to_nat (Z.shiftl 1 nbits)) block_size (integer_id bits nbits).
Proof.
  intros Hb Hn Hs. assert (forall i, Z.land i (block_mask nbits) = i mod 2 ^ nbits) as Hmask.
  { intros i. unfold block_mask. rewrite Z.shiftl_1_l. change (2 ^ nbits - 1) with (Z.pred (2 ^ nbits)).
    by rewrite <- Z.ones_equiv, Z.land_ones. }
  pose proof (Z.pow_pos_nonneg 2 nbits ltac:(lia) Hn) as Hpos.
  constructor; unfold integer_id; cbn [get_block_no get_hash_id get_start IntegerIDHelper].
  - intros i. rewrite Hmask, Z.shiftl_1_l. pose proof (Z.mod_pos_bound i (2 ^ nbits) Hpos). lia.
  - intros h. pose proof (Z.mod_pos_bound h (Z.of_nat block_size)). lia.
  - intros i j Hi Hj. rewrite !Hmask, !Z.shiftr_div_pow2 by done. rewrite Z.pow_add_r in Hi, Hj by done.
    assert (forall k, 0 <= k < 2 ^ nbits * 2 ^ bits -> k / 2 ^ nbits mod 2 ^ bits = k / 2 ^ nbits) as Hdiv.
    { intros k Hk. apply Z.mod_small. split; [apply Z.div_pos; lia|]. apply Z.div_lt_upper_bound; lia. }
    intros Hno Hid. rewrite !Hdiv in Hid by done. pose proof (Z.mod_pos_bound i (2 ^ nbits) Hpos).
    pose proof (Z.mod_pos_bound j (2 ^ nbits) Hpos). apply Z2Nat.inj in Hno; [|lia..].
    rewrite (Z.div_mod i (2 ^ nbits)), (Z.div_mod j (2 ^ nbits)) by lia. by rewrite Hno, Hid.
Qed.

(* ------------------------------------------------------------------ *)
(** ** The table as a map *)

Section laws.
Context {ID : Type} {helper : Helper ID} `{Countable ID}.
Context (nblocks size : nat) (valid : ID -> Prop) {laws : HelperLaws ID nblocks size valid}.

(** Each block represents a map, and a valid ID is in the map of its block. *)
Definition table_represents (t : GeneralTable) (m : gmap ID Z) : Prop :=
  built t = true /\ length (blocks t) = nblocks /\ exists ms : nat -> gmap Z Z,
    (forall no b, blocks t !! no = Some b -> Hash.size b = size /\ represents get_start b (ms no)) /\
    forall i, valid i -> m !! i = ms (get_block_no i) !! get_hash_id i.

Lemma table_block t m i : table_represents t m -> valid i -> exists b mb,
  blocks t !! get_block_no i = Some b /\ Hash.size b = size /\ represents get_start b mb /\ mb !! get_hash_id i = m !! i /\
  (forall b' mb' (m' : gmap ID Z), Hash.size b' = size -> represents get_start b' mb' ->
     (forall h, h <> get_hash_id i -> mb' !! h = mb !! h) -> mb' !! get_hash_id i = m' !! i ->
     (forall j, j <> i -> m' !! j = m !! j) -> table_represents (with_block (get_block_no i) b' t) m').
Proof.
  intros (Hbuilt & Hlen & ms & Hms & Hm) Hv.
  assert ((get_block_no i < length (blocks t))%nat) as Hlt by (rewrite Hlen; apply block_no_bound).
  destruct (lookup_lt_is_Some_2 _ _ Hlt) as [b Hb]. exists b, (ms (get_block_no i)).
  destruct (Hms _ _ Hb) as [Hsize Hr]. split; [done|]. split; [done|]. split; [done|]. split; [by rewrite Hm|].
  intros b' mb' m' Hs' Hr' Hother Hi Hj. split; [done|]. split; [by unfold with_block; cbn [blocks]; rewrite length_insert|].
  exists (fun no => if decide (no = get_block_no i) then mb' else ms no). split.
  - intros no c Hc. unfold with_block in Hc. cbn [blocks] in Hc. destruct (decide (no = get_block_no i)) as [->|Hne].
    + rewrite list_lookup_insert_eq in Hc by done. by injection Hc as <-.
    + rewrite list_lookup_insert_ne in Hc by done. by apply Hms.
  - intros j Hvj. destruct (decide (j = i)) as [->|Hne]; [by rewrite decide_True|].
    rewrite Hj, Hm by done. destruct (decide (get_block_no j = get_block_no i)) as [E|E]; [|done].
    rewrite Hother; [by rewrite E|]. intros Hid. apply Hne. by apply split_inj.
Qed.

Lemma new_table_represents nb (allocated : nat -> bool) mem : (forall i, allocated i = true) ->
  nblocks = Z.to_nat (Z.shiftl 1 nb) -> (0 < size)%nat -> table_represents (new_GeneralTable nb size allocated mem) ∅.
Proof.
  intros Hall -> Hs. unfold table_represents, new_GeneralTable. cbn [built blocks]. split; [|split].
  - apply forallb_forall. intros x _. apply Hall.
  - by rewrite length_map, length_seq.
  - exists (fun _ => ∅). split; [|intros i _; by rewrite !lookup_empty].
    intros no b (i & -> & _)%list_lookup_fmap_Some. split; [done|]. by apply new_represents.
Qed.

(** A hash table behaves as a map from valid IDs to indexes, whatever the helper that splits the IDs, if it
    keeps its laws: a new table whose blocks were all allocated is empty; [lookup] gives what the map has or the
    invalid index; [add] of a new ID inserts it, or fails because every entry of the ID's block is in use;
    [remove] and [lookup_and_remove] delete it and say what was there.  None of them leaves the table or loops. *)
Theorem hash_table_refines_map (t : GeneralTable) (m : gmap ID Z) (i : ID) (v : Z) :
  (forall nb allocated mem, (forall i, allocated i = true) -> nblocks = Z.to_nat (Z.shiftl 1 nb) -> (0 < size)%nat ->
     table_represents (new_GeneralTable nb size allocated mem) ∅) /\
  (table_represents t m -> valid i ->
  table_lookup i t = Some (default INVALID_INDEX (m !! i)) /\
  (m !! i = None -> v <> INVALID_INDEX -> exists ok t', table_add i v t = Some (ok, t') /\
     table_represents t' (if ok then <[i := v]> m else m) /\
     (ok = false -> exists b, blocks t !! get_block_no i = Some b /\
        forall j e, table b !! j = Some e -> used e = true)) /\
  (exists t', lookup_and_remove i t = Some (default INVALID_INDEX (m !! i), t') /\
     table_remove i t = Some (negb (default INVALID_INDEX (m !! i) =? INVALID_INDEX), t') /\
     table_represents t' (delete i m))).
Proof.
  split; [intros nb allocated mem; apply new_table_represents|]. intros Ht Hv. destruct (table_block t m i Ht Hv) as (b & mb & Hb & Hsize & Hr & Hmb & Hput).
  pose proof Ht as (Hbuilt & _). assert ((get_start (get_hash_id i) < Hash.size b)%nat) as Hs by (rewrite Hsize; apply start_bound).
  unfold table_remove, table_lookup, table_add, lookup_and_remove. rewrite Hbuilt, Hb. cbn [negb mbind option_bind]. split; [|split].
  - rewrite (lookup_represents _ b mb) by done. by rewrite Hmb.
  - intros Hm Hvi. rewrite Hm in Hmb. destruct (add_represents _ b mb (get_hash_id i) v Hr Hs Hmb Hvi) as [(b' & Hadd & Hb' & Hs')|[Hadd Hall]];
      rewrite Hadd; cbn [mbind option_bind].
    + eexists true, _. split; [done|]. split; [|done]. eapply Hput; [congruence|exact Hb'| | |].
      * intros h Hh. by rewrite lookup_insert_ne.
      * by rewrite !lookup_insert_eq.
      * intros j Hj. by rewrite lookup_insert_ne.
    + eexists false, _. split; [done|]. split; [|intros _; exists b; done]. eapply Hput; [done|exact Hr|done|congruence|done].
  - destruct (remove_represents _ b mb (get_hash_id i) Hr Hs) as (b' & -> & Hb' & Hs'). cbn [mbind option_bind]. rewrite Hmb.
    eexists. split; [done|]. split; [done|]. eapply Hput; [congruence|exact Hb'| | |].
    + intros h Hh. by rewrite lookup_delete_ne.
    + by rewrite !lookup_delete_eq.
    + intros j Hj. by rewrite lookup_delete_ne.
Qed.

End laws.

(** Four blocks of four entries: 1, 5 and 17 go to block 1, 1 and 17 to its first entry. *)
Definition sample_helper : Helper Z := IntegerIDHelper 16 2 4.
Definition sample_table : GeneralTable := new_GeneralTable 2 4 (fun _ => true) (fun _ _ => (0, 0%nat)).
Definition sample_laws : @HelperLaws Z sample_helper 4 4 (integer_id 16 2) :=
  IntegerIDHelper_laws 16 2 4 ltac:(lia) ltac:(lia) ltac:(lia).
Lemma hash_table_refines_map_witness : exists t,
  table_add (helper := sample_helper) 17 9 sample_table = Some (true, t) /\
  table_represents (helper := sample_helper) 4 4 (integer_id 16 2) t {[ 17 := 9 ]}.
Proof.
  destruct (hash_table_refines_map (helper := sample_helper) 4 4 (integer_id 16 2) (laws := sample_laws) sample_table ∅ 17 9)
    as [Hnew Hops].
  assert (table_represents (helper := sample_helper) 4 4 (integer_id 16 2) sample_table ∅) as Ht by (by apply Hnew; [| |lia]).
  assert (integer_id 16 2 17) as Hv by (by vm_compute).
  destruct (Hops Ht Hv) as (_ & Hadd & _). destruct (Hadd eq_refl ltac:(done)) as (ok & t' & Hok & Ht' & _).
  exists t'. assert (ok = true) as -> by (vm_compute in Hok; congruence). by split.
Defined.
End HashTable.
