(* ===== verification/OrdMap.v ===== *)
(** * Ordered maps

    The [map<K, V>] of the standard library for any ordered key: the list of
    its entries in key order, which is the order of its iterators. *)
From Stdlib Require Export Sorted.
From S2P Require Export Prelude.

Class Ordered (K : Type) := key_compare : K -> K -> comparison.
Class OrderedLaws (K : Type) {o : Ordered K} := {
  key_compare_eq : forall a b, key_compare a b = Eq <-> a = b;
  key_compare_sym : forall a b, key_compare b a = CompOpp (key_compare a b);
  key_compare_trans : forall a b c, key_compare a b = Lt -> key_compare b c = Lt -> key_compare a c = Lt }.

#[export] Instance Z_ordered : Ordered Z := Z.compare.
#[export] Instance Z_ordered_laws : OrderedLaws Z.
Proof.
  constructor; unfold key_compare, Z_ordered.
  - apply Z.compare_eq_iff.
  - intros a b. by rewrite Z.compare_antisym.
  - intros a b c. rewrite !Z.compare_lt_iff. lia.
Qed.

Section ordmap.
Context {K V : Type} {ordered : Ordered K}.

Fixpoint find (k : K) (m : list (K * V)) : option V :=
  match m with
  | [] => None
  | (k', v) :: m => match key_compare k k' with Eq => Some v | _ => find k m end
  end.

(** [m[k] = v] *)
Fixpoint put (k : K) (v : V) (m : list (K * V)) : list (K * V) :=
  match m with
  | [] => [(k, v)]
  | (k', v') :: m' =>
    match key_compare k k' with
    | Lt => (k, v) :: m
    | Eq => (k', v) :: m'
    | Gt => (k', v') :: put k v m'
    end
  end.

(** [m.erase(k)] *)
Fixpoint erase (k : K) (m : list (K * V)) : list (K * V) :=
  match m with
  | [] => []
  | (k', v) :: m => match key_compare k k' with Eq => m | _ => (k', v) :: erase k m end
  end.

(** In key order, without duplicates *)
Definition before (a b : K * V) : Prop := key_compare (fst a) (fst b) = Lt.
Definition ordered_map (m : list (K * V)) : Prop := StronglySorted before m.

(* ------------------------------------------------------------------ *)
(** ** Lemmas *)

Context {laws : OrderedLaws K}.

Lemma key_compare_refl k : key_compare k k = Eq.
Proof. by apply key_compare_eq. Qed.
Lemma find_none_before k v m : ordered_map ((k, v) :: m) -> find k m = None.
Proof.
  intros [_ Hall]%StronglySorted_inv. induction Hall as [|[k' v'] m Hk _ IH]; [done|]. cbn [find].
  unfold before in Hk. cbn [fst] in Hk. by rewrite Hk.
Qed.

Lemma in_put k v m x : x ∈ put k v m -> x = (k, v) \/ x ∈ m.
Proof.
  induction m as [|[k' v'] m IH]; cbn [put].
  - intros ->%list_elem_of_singleton. by left.
  - destruct (key_compare k k') eqn:E.
    + apply key_compare_eq in E as <-. rewrite !elem_of_cons. tauto.
    + rewrite !elem_of_cons. tauto.
    + rewrite !elem_of_cons. tauto.
Qed.
Lemma in_erase k m x : x ∈ erase k m -> x ∈ m.
Proof.
  induction m as [|[k' v'] m IH]; cbn [erase]; [done|]. destruct (key_compare k k'); rewrite !elem_of_cons; tauto.
Qed.
Lemma put_ordered k v m : ordered_map m -> ordered_map (put k v m).
Proof.
  induction m as [|[k' v'] m IH]; cbn [put]; intros Hm; [by repeat constructor|].
  pose proof Hm as [Hm' Hall]%StronglySorted_inv. destruct (key_compare k k') eqn:E.
  - by constructor.
  - constructor; [done|]. constructor; [done|]. eapply Forall_impl; [exact Hall|]. intros [j u] Hj.
    unfold before in *. cbn [fst] in *. by eapply key_compare_trans.
  - constructor; [by apply IH|]. apply Forall_forall. intros x [->|Hx]%in_put.
    + unfold before. cbn [fst]. by rewrite key_compare_sym, E.
    + rewrite Forall_forall in Hall. by apply Hall.
Qed.
Lemma erase_ordered k m : ordered_map m -> ordered_map (erase k m).
Proof.
  induction m as [|[k' v'] m IH]; cbn [erase]; intros Hm; [done|].
  apply StronglySorted_inv in Hm as [Hm Hall]. destruct (key_compare k k'); [done|..];
    (constructor; [by apply IH|]; rewrite Forall_forall in *; intros x Hx%in_erase; by apply Hall).
Qed.
Lemma filter_ordered (P : K * V -> Prop) `{forall x, Decision (P x)} m : ordered_map m -> ordered_map (filter P m).
Proof.
  induction m as [|x m IH]; intros Hm; [done|]. apply StronglySorted_inv in Hm as [Hm Hall]. rewrite filter_cons.
  destruct (decide (P x)); [|by apply IH]. constructor; [by apply IH|]. rewrite Forall_forall in *.
  intros y [_ Hy]%list_elem_of_filter. by apply Hall.
Qed.

Lemma find_put k v m j : find j (put k v m) = match key_compare j k with Eq => Some v | _ => find j m end.
Proof.
  induction m as [|[k' v'] m IH]; cbn [put find]; [done|].
  destruct (key_compare k k') eqn:E; cbn [find].
  - apply key_compare_eq in E as <-. by destruct (key_compare j k).
  - done.
  - rewrite IH. destruct (key_compare j k') eqn:Ej; [|done..]. apply key_compare_eq in Ej as ->.
    by rewrite key_compare_sym, E.
Qed.
Lemma find_erase k m j : ordered_map m -> find j (erase k m) = match key_compare j k with Eq => None | _ => find j m end.
Proof.
  induction m as [|[k' v'] m IH]; cbn [erase find]; intros Hm; [by destruct (key_compare j k)|].
  pose proof Hm as [Hm' _]%StronglySorted_inv. destruct (key_compare k k') eqn:E; cbn [find].
  - apply key_compare_eq in E as <-. destruct (key_compare j k) eqn:Ej; [|done..].
    apply key_compare_eq in Ej as ->. by eapply find_none_before.
  - rewrite IH by done. destruct (key_compare j k') eqn:Ej; [|done..]. apply key_compare_eq in Ej as ->.
    by rewrite key_compare_sym, E.
  - rewrite IH by done. destruct (key_compare j k') eqn:Ej; [|done..]. apply key_compare_eq in Ej as ->.
    by rewrite key_compare_sym, E.
Qed.
Lemma find_in k v m : ordered_map m -> find k m = Some v <-> (k, v) ∈ m.
Proof.
  induction m as [|[k' v'] m IH]; cbn [find]; intros Hm; [split; [done|intros H; by apply not_elem_of_nil in H]|].
  pose proof Hm as [Hm' Hall]%StronglySorted_inv. rewrite elem_of_cons. destruct (key_compare k k') eqn:E.
  - apply key_compare_eq in E as ->. split; [intros [= ->]; by left|]. intros [[= ->]|Hin]; [done|].
    rewrite Forall_forall in Hall. specialize (Hall _ Hin). unfold before in Hall. cbn [fst] in Hall.
    by rewrite key_compare_refl in Hall.
  - rewrite (IH Hm'). split; [by right|]. intros [[= -> ->]|]; [by rewrite key_compare_refl in E|done].
  - rewrite (IH Hm'). split; [by right|]. intros [[= -> ->]|]; [by rewrite key_compare_refl in E|done].
Qed.
Lemma find_none_lt k k' v' m : ordered_map ((k', v') :: m) -> key_compare k k' = Lt -> find k m = None.
Proof.
  intros [_ Hall]%StronglySorted_inv Hk. induction Hall as [|[j u] m Hj _ IH]; [done|]. cbn [find].
  unfold before in Hj. cbn [fst] in Hj. by rewrite (key_compare_trans _ _ _ Hk Hj).
Qed.
Lemma length_put k v m : ordered_map m -> length (put k v m) = match find k m with Some _ => length m | None => S (length m) end.
Proof.
  induction m as [|[k' v'] m IH]; cbn [put find]; intros Hm; [done|]. pose proof Hm as [Hm' _]%StronglySorted_inv.
  destruct (key_compare k k') eqn:E; cbn [length]; [done|..].
  - by rewrite (find_none_lt k k' v' m).
  - rewrite IH by done. by destruct (find k m).
Qed.
Lemma length_erase k m : length (erase k m) = match find k m with Some _ => pred (length m) | None => length m end.
Proof.
  induction m as [|[k' v'] m IH]; cbn [erase find]; [done|].
  destruct (key_compare k k') eqn:E; cbn [length pred]; [done|..];
    (rewrite IH; destruct (find k m) eqn:Hf; [|done]; destruct m; [done|]; done).
Qed.

End ordmap.
