(* ===== verification/Cache.v ===== *)
(** * Caches

    Models [src/libs/cache/ot-cache.h]: a map with a limit on its entries, a
    policy for tidying it and one for evicting from it.  Each call of [time]
    is an argument, and so is [prepare_to_die], which a subclass overrides.
    The locks, the iterators, which wrap those of the map, and [dump] are left
    out. *)
From stdpp Require Export gmap.
From S2P Require Export Prelude OrdMap.

Module Cache.

(** ** [PolicyData] *)

Record PolicyData := mk_PolicyData { add_time : Z; use_time : Z; use_count : Z }.
Definition new_PolicyData (now : Z) : PolicyData := mk_PolicyData now now 0.
Definition touch_data (now : Z) (d : PolicyData) : PolicyData := mk_PolicyData (add_time d) now (u64 (use_count d + 1)).

(** ** Policies *)

Class TidyPolicy := keep_entry : PolicyData -> Z -> bool.
Class EvictorPolicy := check_worst : PolicyData -> PolicyData -> bool.

Definition NoTidyPolicy : TidyPolicy := fun _ _ => true.
Definition NoEvictorPolicy : EvictorPolicy := fun _ _ => false.
Definition UseTimeoutTidyPolicy (timeout : Z) : TidyPolicy := fun pd now =>
  (timeout =? 0) || (now - use_time pd <? timeout).
Definition AgeTimeoutTidyPolicy (timeout : Z) : TidyPolicy := fun pd now =>
  (timeout =? 0) || (now - add_time pd <? timeout).
Definition LRUEvictorPolicy : EvictorPolicy := fun current worst => use_time current <? use_time worst.
Definition AgeEvictorPolicy : EvictorPolicy := fun current worst => add_time current <? add_time worst.

Section cache.
Context {ID CONTENT : Type} {ordered : Ordered ID} {tidy_policy : TidyPolicy} {evictor_policy : EvictorPolicy}.
Context (prepare_to_die : ID -> CONTENT -> bool).

Record MapContent := mk_MapContent { content : CONTENT; policy_data : PolicyData }.
Record Cache := mk_Cache { limit : Z; cachemap : list (ID * MapContent) }.

Definition new_Cache (limit : Z) : Cache := mk_Cache limit [].
Definition get_limit (c : Cache) : Z := i32 (limit c).
Definition size (c : Cache) : Z := u32 (zlen (cachemap c)).
Definition with_map (m : list (ID * MapContent)) (c : Cache) : Cache := mk_Cache (limit c) m.

Definition contains (i : ID) (c : Cache) : bool := match find i (cachemap c) with Some _ => true | None => false end.
Definition lookup (i : ID) (c : Cache) : option CONTENT := content <$> find i (cachemap c).
Definition touch (now : Z) (i : ID) (c : Cache) : bool * Cache :=
  match find i (cachemap c) with
  | Some mc => (true, with_map (put i (mk_MapContent (content mc) (touch_data now (policy_data mc))) (cachemap c)) c)
  | None => (false, c)
  end.
Definition remove (i : ID) (c : Cache) : Cache := with_map (erase i (cachemap c)) c.
Definition clear (c : Cache) : Cache := with_map [] c.

Fixpoint tidy_loop (now : Z) (m : list (ID * MapContent)) : list (ID * MapContent) :=
  match m with
  | [] => []
  | (i, mc) :: m =>
    if negb (keep_entry (policy_data mc) now) && prepare_to_die i (content mc) then tidy_loop now m
    else (i, mc) :: tidy_loop now m
  end.
Definition tidy (now : Z) (c : Cache) : Cache := with_map (tidy_loop now (cachemap c)) c.

(** The entry that the policy finds the worst, starting from [worst_data] *)
Fixpoint worst_of (m : list (ID * MapContent)) (worst : option (ID * MapContent)) (worst_data : PolicyData) :
  option (ID * MapContent) :=
  match m with
  | [] => worst
  | e :: m =>
    if check_worst (policy_data (snd e)) worst_data then worst_of m (Some e) (policy_data (snd e))
    else worst_of m worst worst_data
  end.

(** [times i] is the time in the [i]th round. *)
Fixpoint evict_loop (fuel : nat) (times : nat -> Z) (needed : Z) (m : list (ID * MapContent)) :
  option (bool * list (ID * MapContent)) :=
  if needed =? 0 then Some (true, m)
  else
    match fuel with
    | O => None
    | S fuel =>
      match worst_of m None (new_PolicyData (times 0%nat)) with
      | Some (i, mc) =>
        if prepare_to_die i (content mc) then evict_loop fuel (fun n => times (S n)) (u32 (needed - 1)) (erase i m)
        else Some (false, m)
      | None => Some (false, m)
      end
    end.
Definition evict_needed (c : Cache) : Z := u32 (u64 (zlen (cachemap c) - limit c + 1)).
Definition evict (times : nat -> Z) (c : Cache) : option (bool * Cache) :=
  '(ok, m) ← evict_loop (S (length (cachemap c))) times (evict_needed c) (cachemap c); Some (ok, with_map m c).

Definition set_limit (times : nat -> Z) (limit : Z) (c : Cache) : option Cache :=
  '(_, c) ← evict times (mk_Cache limit (cachemap c)); Some c.

Definition add (times : nat -> Z) (now : Z) (i : ID) (content : CONTENT) (c : Cache) : option (bool * Cache) :=
  '(room, c) ← (if negb (limit c =? 0) && (zlen (cachemap c) >=? limit c) then evict times c else Some (true, c));
  if room : bool then Some (true, with_map (put i (mk_MapContent content (new_PolicyData now)) (cachemap c)) c)
  else Some (false, c).

End cache.
Arguments MapContent : clear implicits.
Arguments Cache : clear implicits.

(** ** [PointerCache]

    The content is a pointer, to a block of the heap that the cache owns.  [delete] of a block that is not
    allocated has no result. *)

Abbreviation heap := (gset nat).
Definition delete (p : option nat) (h : heap) : option heap :=
  match p with
  | None => Some h
  | Some a => if decide (a ∈ h) then Some (h ∖ {[a]}) else None
  end.
Fixpoint delete_all (l : list (option nat)) (h : heap) : option heap :=
  match l with [] => Some h | p :: l => h ← delete p h; delete_all l h end.

Section pointer_cache.
Context {ID : Type} {ordered : Ordered ID} {tidy_policy : TidyPolicy} {evictor_policy : EvictorPolicy}.
Context (prepare_to_die : ID -> option nat -> bool).
Abbreviation PointerCache := (Cache ID (option nat)).

Definition pointer_lookup (i : ID) (c : PointerCache) : option nat :=
  match find i (cachemap c) with Some mc => content mc | None => None end.
Definition detach (i : ID) (c : PointerCache) : option nat * PointerCache :=
  match find i (cachemap c) with
  | Some mc => (content mc, with_map (erase i (cachemap c)) c)
  | None => (None, c)
  end.
Definition pointer_remove (i : ID) (c : PointerCache) (h : heap) : option (PointerCache * heap) :=
  match find i (cachemap c) with
  | Some mc => h ← delete (content mc) h; Some (with_map (erase i (cachemap c)) c, h)
  | None => Some (c, h)
  end.

Fixpoint pointer_tidy_loop (now : Z) (m : list (ID * MapContent (option nat))) (to_delete : list (option nat)) :
  list (ID * MapContent (option nat)) * list (option nat) :=
  match m with
  | [] => ([], to_delete)
  | (i, mc) :: m =>
    if negb (keep_entry (policy_data mc) now) && prepare_to_die i (content mc) then
      pointer_tidy_loop now m (to_delete ++ [content mc])
    else let '(m, to_delete) := pointer_tidy_loop now m to_delete in ((i, mc) :: m, to_delete)
  end.
Definition pointer_tidy (now : Z) (c : PointerCache) (h : heap) : option (PointerCache * heap) :=
  let '(m, to_delete) := pointer_tidy_loop now (cachemap c) [] in
  h ← delete_all to_delete h; Some (with_map m c, h).

Fixpoint pointer_evict_loop (fuel : nat) (times : nat -> Z) (needed : Z) (m : list (ID * MapContent (option nat)))
    (h : heap) : option (bool * list (ID * MapContent (option nat)) * heap) :=
  if needed =? 0 then Some (true, m, h)
  else
    match fuel with
    | O => None
    | S fuel =>
      match worst_of m None (new_PolicyData (times 0%nat)) with
      | Some (i, mc) =>
        if prepare_to_die i (content mc) then
          h ← delete (content mc) h;
          pointer_evict_loop fuel (fun n => times (S n)) (u32 (needed - 1)) (erase i m) h
        else Some (false, m, h)
      | None => Some (false, m, h)
      end
    end.
Definition pointer_evict (times : nat -> Z) (c : PointerCache) (h : heap) : option (bool * PointerCache * heap) :=
  '(ok, m, h) ← pointer_evict_loop (S (length (cachemap c))) times (evict_needed c) (cachemap c) h;
  Some (ok, with_map m c, h).

(** The virtual [evict] is the one above, in [Cache::add] and [Cache::set_limit] too. *)
Definition pointer_set_limit (times : nat -> Z) (limit : Z) (c : PointerCache) (h : heap) : option (PointerCache * heap) :=
  '(_, c, h) ← pointer_evict times (mk_Cache limit (cachemap c)) h; Some (c, h).
Definition pointer_add (times : nat -> Z) (now : Z) (i : ID) (p : option nat) (c : PointerCache) (h : heap) :
  option (bool * PointerCache * heap) :=
  '(c, h) ← pointer_remove i c h;
  '(room, c, h) ← (if negb (limit c =? 0) && (zlen (cachemap c) >=? limit c) then pointer_evict times c h else Some (true, c, h));
  if room : bool then Some (true, with_map (put i (mk_MapContent p (new_PolicyData now)) (cachemap c)) c, h)
  else Some (false, c, h).
Definition pointer_clear (c : PointerCache) (h : heap) : option (PointerCache * heap) :=
  h ← delete_all (map (fun e => content (snd e)) (cachemap c)) h; Some (with_map [] c, h).

End pointer_cache.

(* ------------------------------------------------------------------ *)
(** ** Lemmas *)

(** A policy that evicts by a measure: the times of last use or of addition *)
Class EvictsBy (p : EvictorPolicy) (f : PolicyData -> Z) := check_worst_by : forall a b, p a b = (f a <? f b).
#[export] Instance LRU_by_use_time : EvictsBy LRUEvictorPolicy use_time.
Proof. done. Qed.
#[export] Instance Age_by_add_time : EvictsBy AgeEvictorPolicy add_time.
Proof. done. Qed.

Section evictor.
Context {ID CONTENT : Type} {ordered : Ordered ID} {laws : OrderedLaws ID} {evictor_policy : EvictorPolicy}.
Context (f : PolicyData -> Z) {by_f : EvictsBy evictor_policy f}.
Context (prepare_to_die : ID -> CONTENT -> bool).
Abbreviation entry := (ID * MapContent CONTENT)%type.
Implicit Types (m : list entry) (e : entry).

Definition measure e : Z := f (policy_data (snd e)).
Definition worst_entry m d e : Prop := e ∈ m /\ measure e < f d /\ forall e', e' ∈ m -> measure e <= measure e'.

Lemma worst_of_measure m : forall w d,
  (worst_of m w d = w /\ forall e, e ∈ m -> f d <= measure e) \/
  (exists e, worst_of m w d = Some e /\ worst_entry m d e).
Proof.
  induction m as [|e m IH]; intros w d; cbn [worst_of].
  - left. split; [done|]. intros e H. by apply not_elem_of_nil in H.
  - unfold check_worst. rewrite check_worst_by. fold (measure e). destruct (Z.ltb_spec (measure e) (f d)).
    + right. destruct (IH (Some e) (policy_data (snd e))) as [[-> Hall]|(e' & -> & Hin & Hlt & Hmin)].
      * exists e. split; [done|]. split; [by left|]. split; [done|]. intros e' [->|Hin]%elem_of_cons; [lia|by apply Hall].
      * fold (measure e) in *. exists e'. split; [done|]. split; [by right|]. split; [unfold measure in *; lia|].
        intros e'' [->|Hin']%elem_of_cons; [unfold measure in *; lia|by apply Hmin].
    + destruct (IH w d) as [[-> Hall]|(e' & -> & Hin & Hlt & Hmin)]; [left|right].
      * split; [done|]. intros e' [->|Hin]%elem_of_cons; [lia|by apply Hall].
      * exists e'. split; [done|]. split; [by right|]. split; [done|].
        intros e'' [->|Hin']%elem_of_cons; [unfold measure in *; lia|by apply Hmin].
Qed.

(** What is left when more are to be evicted than there are: no entry is older than the clock, or
    the worst one is not willing to die; and what was evicted was willing, and as bad or worse. *)
Definition willing e : bool := prepare_to_die (fst e) (content (snd e)).
Definition evicted_down (m m' : list entry) (now : Z) : Prop :=
  (forall e, e ∈ m' -> e ∈ m) /\
  (forall e, e ∈ m -> e ∈ m' \/ willing e = true /\ forall e', e' ∈ m' -> measure e <= measure e') /\
  ((forall e, e ∈ m' -> f (new_PolicyData now) <= measure e) \/
   exists e, worst_entry m' (new_PolicyData now) e /\ willing e = false).

Lemma in_or_erased i mc e m : ordered_map m -> (i, mc) ∈ m -> e ∈ m -> e = (i, mc) \/ e ∈ erase i m.
Proof.
  intros Hm Hi He. destruct e as [j x]. apply find_in in Hi, He; [|done..].
  destruct (key_compare j i) eqn:E.
  - apply key_compare_eq in E as ->. left. congruence.
  - right. apply find_in; [by apply erase_ordered|]. by rewrite find_erase, E.
  - right. apply find_in; [by apply erase_ordered|]. by rewrite find_erase, E.
Qed.

Lemma evict_loop_down m : forall fuel times needed, ordered_map m -> (length m < fuel)%nat -> zlen m < needed < 2 ^ 32 ->
  exists m' n, evict_loop prepare_to_die fuel times needed m = Some (false, m') /\ evicted_down m m' (times n).
Proof.
  induction m as [m IH] using (induction_ltof1 _ (@length entry)). unfold ltof in IH.
  intros fuel times needed Hm Hf Hn. destruct fuel as [|fuel]; [lia|].
  assert (0 <= zlen m) by (unfold zlen; lia). cbn [evict_loop]. rewrite (proj2 (Z.eqb_neq needed 0)) by lia.
  destruct (worst_of_measure m None (new_PolicyData (times 0%nat))) as [[-> Hall]|([i mc] & -> & Hworst)].
  { exists m, 0%nat. split; [done|]. split; [done|]. split; [by left|by left]. }
  pose proof Hworst as (Hin & _ & Hmin). destruct (prepare_to_die i (content mc)) eqn:Hp.
  - apply (find_in i mc m Hm) in Hin as Hfind. pose proof (length_erase i m) as Hlen. rewrite Hfind in Hlen.
    assert (0 < length m)%nat by (destruct m; [by apply not_elem_of_nil in Hin|cbn; lia]). unfold zlen in *.
    destruct (IH (erase i m)) with (fuel := fuel) (times := fun n => times (S n)) (needed := u32 (needed - 1))
      as (m' & n & -> & Hsub & Hev & Hrest); [lia|by apply erase_ordered|lia| |].
    { unfold wrap. rewrite Z.mod_small by lia. lia. }
    exists m', (S n). split; [done|]. split; [intros e He; by eapply in_erase, Hsub|]. split; [|exact Hrest].
    intros e He. destruct (in_or_erased i mc e m Hm Hin He) as [->|He']; [|by apply Hev].
    right. split; [done|]. intros e' He'. apply Hmin. by eapply in_erase, Hsub.
  - exists m, 0%nat. split; [done|]. split; [done|]. split; [by left|]. right. by exists (i, mc).
Qed.

Lemma evict_one times c : ordered_map (cachemap c) -> 0 < limit c < 2 ^ 32 -> zlen (cachemap c) = limit c ->
  let d := new_PolicyData (times 0%nat) in
  (exists e, worst_entry (cachemap c) d e /\ prepare_to_die (fst e) (content (snd e)) = true /\
     evict prepare_to_die times c = Some (true, with_map (erase (fst e) (cachemap c)) c)) \/
  (((forall e, e ∈ cachemap c -> f d <= measure e) \/
    (exists e, worst_entry (cachemap c) d e /\ prepare_to_die (fst e) (content (snd e)) = false)) /\
   evict prepare_to_die times c = Some (false, c)).
Proof.
  intros Hm Hl Hlen d. unfold evict, evict_needed. rewrite Hlen. replace (limit c - limit c + 1) with 1 by lia.
  change (u32 (u64 1)) with 1. cbn [evict_loop Z.eqb Pos.eqb]. assert (Some (false, with_map (cachemap c) c) = Some (false, c)) as Hid
    by (by destruct c).
  fold d.
  destruct (worst_of_measure (cachemap c) None d) as [[-> Hall]|([i mc] & -> & Hworst)].
  - right. split; [by left|exact Hid].
  - destruct (prepare_to_die i (content mc)) eqn:Hp.
    + left. exists (i, mc). split; [done|]. split; [done|]. change (u32 (1 - 1)) with 0. by destruct (length (cachemap c)).
    + right. split; [right; by exists (i, mc)|exact Hid].
Qed.

End evictor.

(** ** Adding and eviction *)

Section properties.
Context {ID CONTENT : Type} {ordered : Ordered ID} {laws : OrderedLaws ID} {evictor_policy : EvictorPolicy}.
Context (f : PolicyData -> Z) {by_f : EvictsBy evictor_policy f}.
Context (prepare_to_die : ID -> CONTENT -> bool).

Lemma lookup_with_map j m (c : Cache ID CONTENT) : lookup j (with_map m c) = content <$> find j m.
Proof. done. Qed.
Lemma lookup_put j i v d m (c : Cache ID CONTENT) :
  lookup j (with_map (put i (mk_MapContent v d) m) c) =
  match key_compare j i with Eq => Some v | _ => content <$> find j m end.
Proof. rewrite lookup_with_map, find_put. by destruct (key_compare j i). Qed.

(** C10: [add] to a cache with a limit keeps it within its limit, and evicts by the policy: below the limit it
    only adds; at the limit exactly one entry goes, one that the policy's measure (the time of last use, or of
    addition) makes the least of all, older than now and willing to die; otherwise the call fails and the cache
    is as it was, because every entry is as recent as now or the worst one refuses.  It always ends. *)
Theorem cache_add_evicts_worst (times : nat -> Z) (now : Z) (i : ID) (v : CONTENT) (c : Cache ID CONTENT) :
  ordered_map (cachemap c) -> 0 < limit c < 2 ^ 32 -> zlen (cachemap c) <= limit c ->
  let d := new_PolicyData (times 0%nat) in
  match add prepare_to_die times now i v c with
  | Some (true, c') =>
    limit c' = limit c /\ zlen (cachemap c') <= limit c /\ ordered_map (cachemap c') /\ lookup i c' = Some v /\
    ((zlen (cachemap c) < limit c /\ forall j, j <> i -> lookup j c' = lookup j c) \/
     (zlen (cachemap c) = limit c /\ exists e, worst_entry f (cachemap c) d e /\
        prepare_to_die (fst e) (content (snd e)) = true /\ (fst e <> i -> lookup (fst e) c' = None) /\
        forall j, j <> i -> j <> fst e -> lookup j c' = lookup j c))
  | Some (false, c') =>
    c' = c /\ zlen (cachemap c) = limit c /\
    ((forall e, e ∈ cachemap c -> f d <= measure f e) \/
     exists e, worst_entry f (cachemap c) d e /\ prepare_to_die (fst e) (content (snd e)) = false)
  | None => False
  end.
Proof.
  intros Hm Hl Hlen d. unfold add. rewrite (proj2 (Z.eqb_neq (limit c) 0)) by lia. cbn [negb andb].
  assert (forall j k, j <> k -> key_compare j k <> Eq) as Hne by (by intros j k Hjk ?%key_compare_eq).
  destruct (Z.geb_spec (zlen (cachemap c)) (limit c)) as [Hge|Hlt].
  - assert (zlen (cachemap c) = limit c) as Heq by lia.
    destruct (evict_one f prepare_to_die times c Hm Hl Heq) as [(e & Hworst & Hp & ->)|[Hwhy ->]]; cbn [mbind option_bind].
    2:{ split; [done|]. split; [done|exact Hwhy]. }
    pose proof Hworst as (Hin & _). destruct e as [k mc]. cbn [fst snd] in *.
    apply (find_in k mc _ Hm) in Hin as Hfind. cbn [with_map limit cachemap].
    split; [done|]. split; [|split; [by apply put_ordered, erase_ordered|split]].
    + unfold zlen in *. rewrite length_put by by apply erase_ordered. pose proof (length_erase k (cachemap c)) as Hle.
      rewrite Hfind in Hle. destruct (find i (erase k (cachemap c))); lia.
    + rewrite (lookup_put i i). by rewrite key_compare_refl.
    + right. split; [done|]. exists (k, mc). cbn [fst snd]. split; [done|]. split; [done|]. split.
      * intros Hki. rewrite lookup_put, find_erase by done. specialize (Hne _ _ Hki). rewrite key_compare_refl.
        by destruct (key_compare k i).
      * intros j Hji Hjk. rewrite lookup_put, find_erase by done. apply Hne in Hji, Hjk. unfold lookup.
        by destruct (key_compare j i), (key_compare j k).
  - cbn [mbind option_bind with_map limit cachemap]. split; [done|]. split; [|split; [by apply put_ordered|split]].
    + unfold zlen in *. rewrite length_put by done. destruct (find i (cachemap c)); lia.
    + rewrite lookup_put. by rewrite key_compare_refl.
    + left. split; [done|]. intros j Hji. rewrite lookup_put. apply Hne in Hji. unfold lookup. by destruct (key_compare j i).
Qed.

(** C11: [set_limit] does not do what its comment says ("may evict if more than limit in cache"): to a limit of
    zero, which means none, or to a limit of two or more above the size, it evicts the worst entry as long as that
    is older than the clock and willing to die, however many there are: the number it needs to evict is computed
    modulo 2^32 and never negative.  What is left was in the cache and is no worse than what was evicted, and either
    none of it is older than the clock or its worst entry is not willing; so that nothing is left when every
    entry is older than the clock and every one is willing to die. *)
Theorem cache_set_limit_empties (times : nat -> Z) (l : Z) (c : Cache ID CONTENT) :
  ordered_map (cachemap c) -> l = 0 \/ zlen (cachemap c) + 1 < l < 2 ^ 32 -> zlen (cachemap c) + 1 < 2 ^ 32 ->
  exists m n, set_limit prepare_to_die times l c = Some (mk_Cache l m) /\
    evicted_down f prepare_to_die (cachemap c) m (times n) /\
    ((forall i v, prepare_to_die i v = true) ->
     (forall e n, e ∈ cachemap c -> measure f e < f (new_PolicyData (times n))) -> m = []).
Proof.
  intros Hm Hl Hlen. unfold set_limit, evict. cbn [cachemap limit].
  assert (0 <= zlen (cachemap c)) by (unfold zlen; lia).
  destruct (evict_loop_down f prepare_to_die (cachemap c) (S (length (cachemap c))) times
    (evict_needed (mk_Cache l (cachemap c)))) as (m & n & E & Hdown); [done|lia| |].
  { unfold evict_needed. cbn [cachemap limit]. unfold wrap. destruct Hl as [->|Hl].
    - rewrite !Z.mod_small by (rewrite ?Z.mod_small; lia). lia.
    - assert ((zlen (cachemap c) - l + 1) mod 2 ^ 64 = zlen (cachemap c) - l + 1 + 2 ^ 64) as -> by
        (symmetry; apply (Z.mod_unique _ _ (-1)); lia).
      assert ((zlen (cachemap c) - l + 1 + 2 ^ 64) mod 2 ^ 32 = zlen (cachemap c) - l + 1 + 2 ^ 32) as -> by
        (symmetry; apply (Z.mod_unique _ _ (2 ^ 32 - 1)); lia).
      lia. }
  rewrite E. exists m, n. split; [done|]. split; [exact Hdown|]. intros Hp He.
  destruct Hdown as (Hsub & _ & [Hyoung|(e & _ & Hw)]); [|unfold willing in Hw; by rewrite Hp in Hw].
  destruct m as [|e m]; [done|]. specialize (Hyoung e ltac:(by left)). specialize (He e n (Hsub e ltac:(by left))). lia.
Qed.

End properties.

(** Three entries used at times 30, 10 and 20 *)
Definition sample_cache (limit : Z) : Cache Z Z := mk_Cache limit
  [(1, mk_MapContent 100 (mk_PolicyData 1 30 0)); (2, mk_MapContent 200 (mk_PolicyData 2 10 0));
   (3, mk_MapContent 300 (mk_PolicyData 3 20 0))].
Lemma sample_cache_ordered limit : ordered_map (cachemap (sample_cache limit)).
Proof. repeat constructor. Qed.
Lemma cache_add_evicts_worst_witness :
  let c := mk_Cache 3 [(1, mk_MapContent 100 (mk_PolicyData 1 30 0)); (3, mk_MapContent 300 (mk_PolicyData 3 20 0));
                       (4, mk_MapContent 400 (mk_PolicyData 41 41 0))] in
  add (evictor_policy := LRUEvictorPolicy) (fun _ _ => true) (fun _ => 40) 41 4 400 (sample_cache 3) = Some (true, c) /\
  zlen (cachemap c) <= 3.
Proof.
  intros c. split; [reflexivity|].
  pose proof (cache_add_evicts_worst (evictor_policy := LRUEvictorPolicy) use_time (fun _ _ => true) (fun _ => 40) 41 4 400
    (sample_cache 3) (sample_cache_ordered 3) ltac:(by vm_compute) ltac:(by vm_compute)) as (_ & H & _).
  exact H.
Defined.
Lemma cache_set_limit_empties_witness :
  exists m, set_limit (evictor_policy := LRUEvictorPolicy) (fun _ _ => true) (fun _ => 40) 1000 (sample_cache 3) = Some (mk_Cache 1000 m) /\ m = [].
Proof.
  destruct (cache_set_limit_empties (evictor_policy := LRUEvictorPolicy) use_time (fun _ _ => true) (fun _ => 40) 1000
    (sample_cache 3) (sample_cache_ordered 3) ltac:(right; by vm_compute) ltac:(by vm_compute)) as (m & n & H1 & _ & H2).
  exists m. split; [exact H1|]. apply H2; [done|]. intros e k. cbn [sample_cache cachemap]. rewrite !elem_of_cons, elem_of_nil.
  intros [->|[->|[->|[]]]]; cbn; lia.
Defined.
(** One that is not willing stops it: 3 is willing, and stays. *)
Example set_limit_stops :
  set_limit (evictor_policy := LRUEvictorPolicy) (fun i _ => negb (i =? 2)) (fun _ => 40) 0 (sample_cache 3) = Some (sample_cache 0).
Proof. reflexivity. Qed.

(* ------------------------------------------------------------------ *)
(** ** Ownership in [PointerCache] *)

Section ownership.
Context {ID : Type} {ordered : Ordered ID} {laws : OrderedLaws ID} {tidy_policy : TidyPolicy} {evictor_policy : EvictorPolicy}.
Context (prepare_to_die : ID -> option nat -> bool).
Abbreviation PointerCache := (Cache ID (option nat)).
Abbreviation pentry := (ID * MapContent (option nat))%type.
Implicit Types (m : list pentry) (h F : heap).

Definition ptrs m : list nat := omap (fun e => content (snd e)) m.
(** The heap is the blocks [ps], each once, and [F], which others own. *)
Definition owned (ps : list nat) h F : Prop :=
  NoDup ps /\ h = list_to_set ps ∪ F /\ forall a, a ∈ ps -> a ∉ F.
Definition owns (c : PointerCache) h F : Prop := ordered_map (cachemap c) /\ owned (ptrs (cachemap c)) h F.

Lemma ptrs_cons e m : ptrs (e :: m) = match content (snd e) with Some a => a :: ptrs m | None => ptrs m end.
Proof. unfold ptrs. cbn [omap list_omap]. by destruct (content (snd e)). Qed.
Lemma ptrs_contents m : omap id (map (fun e : pentry => content (snd e)) m) = ptrs m.
Proof. induction m as [|e m IH]; [done|]. rewrite ptrs_cons, <- IH. cbn [map omap list_omap id]. by destruct (content (snd e)). Qed.
Lemma ptrs_erase i mc m : find i m = Some mc ->
  ptrs m ≡ₚ match content mc with Some a => a :: ptrs (erase i m) | None => ptrs (erase i m) end.
Proof.
  induction m as [|[k c] m IH]; cbn [find erase]; [done|]. rewrite (ptrs_cons (k, c)). cbn [snd].
  destruct (key_compare i k); [intros [= ->]; by destruct (content mc)|..];
    (intros Hf; specialize (IH Hf); rewrite ptrs_cons; cbn [snd]; destruct (content c), (content mc); rewrite IH; [apply perm_swap|done..]).
Qed.
Lemma ptrs_put i mc m : ordered_map m -> find i m = None ->
  ptrs (put i mc m) ≡ₚ match content mc with Some a => a :: ptrs m | None => ptrs m end.
Proof.
  induction m as [|[k c] m IH]; cbn [find put]; intros Hm.
  { intros _. by rewrite ptrs_cons. }
  apply StronglySorted_inv in Hm as [Hm _]. destruct (key_compare i k); [done|..]; intros Hf.
  - by rewrite ptrs_cons.
  - rewrite !ptrs_cons. cbn [snd]. specialize (IH Hm Hf). destruct (content c), (content mc); rewrite IH; [apply perm_swap|done..].
Qed.
Lemma ptrs_put_touch i mc mc' m : ordered_map m -> find i m = Some mc -> content mc' = content mc -> ptrs (put i mc' m) = ptrs m.
Proof.
  intros Hm Hf Hc. induction m as [|[k c] m IH]; cbn [find put] in *; [done|].
  pose proof Hm as [Hm' _]%StronglySorted_inv. destruct (key_compare i k) eqn:E; rewrite !ptrs_cons; cbn [snd].
  - injection Hf as ->. by rewrite Hc.
  - by rewrite (find_none_lt i k c m) in Hf.
  - by rewrite IH.
Qed.

Lemma owned_perm ps ps' h F : ps ≡ₚ ps' -> owned ps h F -> owned ps' h F.
Proof.
  intros Hp (Hnd & -> & HF). split; [by rewrite <- Hp|]. split.
  - apply set_eq. intros x. rewrite !elem_of_union, !elem_of_list_to_set. by rewrite Hp.
  - intros a Ha. apply HF. by rewrite Hp.
Qed.
(** What leaves the map is deleted, once. *)
Lemma delete_owned p ps h F : owned (match p with Some a => a :: ps | None => ps end) h F ->
  exists h', delete p h = Some h' /\ owned ps h' F.
Proof.
  destruct p as [a|]; cbn [delete]; [|intros H; by exists h]. intros ([Ha Hnd]%NoDup_cons & Hh & HF).
  rewrite decide_True by (rewrite Hh; cbn; apply elem_of_union; left; apply elem_of_union; left; by apply elem_of_singleton).
  eexists. split; [done|]. split; [done|]. split.
  - rewrite Hh. apply set_eq. intros x. cbn [list_to_set].
    rewrite elem_of_difference, !elem_of_union, elem_of_singleton, elem_of_list_to_set. specialize (HF a ltac:(by left)).
    split; [tauto|]. intros [Hx|Hx]; (split; [tauto|]); intros ->; done.
  - intros b Hb. apply HF. by right.
Qed.
Lemma delete_all_owned (l : list (option nat)) : forall ps h F, owned (omap id l ++ ps) h F ->
  exists h', delete_all l h = Some h' /\ owned ps h' F.
Proof.
  induction l as [|p l IH]; intros ps h F Ho; [by exists h|]. cbn [delete_all].
  destruct (delete_owned p (omap id l ++ ps) h F) as (h1 & -> & Ho1).
  { cbn [omap list_omap id] in Ho. by destruct p. }
  by apply IH.
Qed.
(** A block that the caller hands over. *)
Lemma owned_take p ps h F : owned ps h F -> match p with Some a => a ∈ F | None => True end ->
  owned (match p with Some a => a :: ps | None => ps end) h (match p with Some a => F ∖ {[a]} | None => F end).
Proof.
  destruct p as [a|]; [|done]. intros (Hnd & Hh & HF) Ha. split; [|split].
  - apply NoDup_cons. split; [|done]. intros Hin. by apply (HF a).
  - rewrite Hh. apply set_eq. intros x. cbn [list_to_set]. rewrite !elem_of_union, elem_of_difference, elem_of_singleton, elem_of_list_to_set.
    destruct (decide (x = a)) as [->|]; tauto.
  - intros b [->|Hb]%elem_of_cons; rewrite elem_of_difference, elem_of_singleton; [tauto|].
    specialize (HF b Hb). tauto.
Qed.

(** [worst_of] gives an entry of the map. *)
Lemma worst_of_in m : forall w d r, worst_of m w d = Some r -> w = Some r \/ r ∈ m.
Proof.
  induction m as [|e m IH]; intros w d r; cbn [worst_of]; [by left|].
  destruct (check_worst _ d); intros [Hr|Hr]%IH; rewrite elem_of_cons; [injection Hr as ->|..]; tauto.
Qed.

(** The cache and the pointer cache evict the same entries. *)
Lemma pointer_evict_loop_owns fuel : forall times needed m h F, (length m < fuel)%nat -> ordered_map m -> owned (ptrs m) h F ->
  exists ok m' h', pointer_evict_loop prepare_to_die fuel times needed m h = Some (ok, m', h') /\
    evict_loop prepare_to_die fuel times needed m = Some (ok, m') /\ ordered_map m' /\ owned (ptrs m') h' F /\
    forall i, find i m = None -> find i m' = None.
Proof.
  induction fuel as [|fuel IH]; intros times needed m h F Hf Hm Ho; [lia|]. cbn [pointer_evict_loop evict_loop].
  destruct (needed =? 0); [by exists true, m, h|].
  destruct (worst_of m None _) as [[i mc]|] eqn:Hw; [|by exists false, m, h].
  apply worst_of_in in Hw as [[=]|Hin]. apply (find_in i mc m Hm) in Hin as Hfind.
  destruct (prepare_to_die i (content mc)); [|by exists false, m, h].
  destruct (delete_owned (content mc) (ptrs (erase i m)) h F) as (h1 & -> & Ho1).
  { eapply owned_perm; [by apply ptrs_erase|done]. }
  cbn [mbind option_bind]. pose proof (length_erase i m) as Hlen. rewrite Hfind in Hlen.
  assert (0 < length m)%nat by (destruct m; [by apply not_elem_of_nil in Hin|cbn; lia]).
  destruct (IH (fun n => times (S n)) (u32 (needed - 1)) (erase i m) h1 F) as (ok & m' & h' & H1 & H2 & H3 & H4 & H5);
    [lia|by apply erase_ordered|done|].
  exists ok, m', h'. repeat (split; [done|]). intros j Hj. apply H5. rewrite find_erase by done.
  by destruct (key_compare j i).
Qed.
Lemma pointer_evict_owns times c h F : owns c h F -> exists ok c' h', pointer_evict prepare_to_die times c h = Some (ok, c', h') /\
  evict prepare_to_die times c = Some (ok, c') /\ owns c' h' F /\ limit c' = limit c /\
  forall i, find i (cachemap c) = None -> find i (cachemap c') = None.
Proof.
  intros [Hm Ho]. unfold pointer_evict, evict.
  destruct (pointer_evict_loop_owns (S (length (cachemap c))) times (evict_needed c) (cachemap c) h F) as (ok & m' & h' & -> & -> & H);
    [lia|done|done|]. cbn [mbind option_bind]. destruct H as (H1 & H2 & H3). by exists ok, (with_map m' c), h'.
Qed.
Lemma pointer_remove_owns i c h F : owns c h F -> exists c' h', pointer_remove i c h = Some (c', h') /\ owns c' h' F /\
  find i (cachemap c') = None.
Proof.
  intros [Hm Ho]. unfold pointer_remove. destruct (find i (cachemap c)) as [mc|] eqn:Hf; [|by exists c, h].
  destruct (delete_owned (content mc) (ptrs (erase i (cachemap c))) h F) as (h1 & -> & Ho1).
  { eapply owned_perm; [by apply ptrs_erase|done]. }
  cbn [mbind option_bind]. exists (with_map (erase i (cachemap c)) c), h1. split; [done|]. split; [split; [by apply erase_ordered|done]|].
  cbn [with_map cachemap]. rewrite find_erase by done. by rewrite key_compare_refl.
Qed.
Lemma pointer_tidy_loop_spec now m : forall l, exists m' l', pointer_tidy_loop prepare_to_die now m l = (m', l ++ l') /\
  m' = tidy_loop prepare_to_die now m /\ (forall x, x ∈ m' -> x ∈ m) /\ ptrs m ≡ₚ omap id l' ++ ptrs m'.
Proof.
  induction m as [|[i mc] m IH]; intros l; cbn [pointer_tidy_loop tidy_loop].
  { exists [], []. by rewrite app_nil_r. }
  destruct (negb _ && _).
  - destruct (IH (l ++ [content mc])) as (m' & l' & -> & -> & Hin & Hp). exists (tidy_loop prepare_to_die now m), (content mc :: l').
    rewrite <- app_assoc. split; [done|]. split; [done|]. split; [intros x Hx; right; by apply Hin|].
    rewrite ptrs_cons. cbn [snd omap list_omap id]. destruct (content mc); rewrite Hp; done.
  - destruct (IH l) as (m' & l' & -> & -> & Hin & Hp). exists ((i, mc) :: tidy_loop prepare_to_die now m), l'.
    split; [done|]. split; [done|]. split; [intros x; rewrite !elem_of_cons; intros [->|Hx]; [by left|right; by apply Hin]|].
    rewrite !ptrs_cons. cbn [snd]. destruct (content mc); rewrite Hp; [by rewrite Permutation_middle|done].
Qed.
Lemma tidy_loop_ordered now m : ordered_map m -> ordered_map (tidy_loop prepare_to_die now m).
Proof.
  induction m as [|[i mc] m IH]; intros Hm; cbn [tidy_loop]; [done|]. apply StronglySorted_inv in Hm as [Hm Hall].
  destruct (negb _ && _); [by apply IH|]. constructor; [by apply IH|]. rewrite Forall_forall in *. intros x Hx.
  destruct (pointer_tidy_loop_spec now m []) as (m' & l' & _ & -> & Hin & _). by apply Hall, Hin.
Qed.

(** *** Runs *)

Inductive PointerOp :=
  | PAdd (times : nat -> Z) (now : Z) (i : ID) (p : option nat)
  | PTouch (now : Z) (i : ID) | PRemove (i : ID) | PDetach (i : ID) | PTidy (now : Z)
  | PEvict (times : nat -> Z) | PSetLimit (times : nat -> Z) (l : Z) | PClear.

(** What the others own: an added block is the cache's, if [add] succeeds, and a detached one is the caller's.
    The caller only adds what it owns. *)
Inductive pointer_step : PointerOp -> PointerCache * heap * heap -> option (PointerCache * heap * heap) -> Prop :=
  | step_add times now i p c h F : match p with Some a => a ∈ F | None => True end ->
      pointer_step (PAdd times now i p) (c, h, F)
        ('(ok, c', h') ← pointer_add prepare_to_die times now i p c h;
         Some (c', h', match p with Some a => if ok : bool then F ∖ {[a]} else F | None => F end))
  | step_touch now i c h F : pointer_step (PTouch now i) (c, h, F) (Some (snd (touch now i c), h, F))
  | step_remove i c h F : pointer_step (PRemove i) (c, h, F) ('(c', h') ← pointer_remove i c h; Some (c', h', F))
  | step_detach i c h F : pointer_step (PDetach i) (c, h, F)
        (let '(p, c') := detach i c in Some (c', h, match p with Some a => {[a]} ∪ F | None => F end))
  | step_tidy now c h F : pointer_step (PTidy now) (c, h, F) ('(c', h') ← pointer_tidy prepare_to_die now c h; Some (c', h', F))
  | step_evict times c h F : pointer_step (PEvict times) (c, h, F)
        ('(_, c', h') ← pointer_evict prepare_to_die times c h; Some (c', h', F))
  | step_set_limit times l c h F : pointer_step (PSetLimit times l) (c, h, F)
        ('(c', h') ← pointer_set_limit prepare_to_die times l c h; Some (c', h', F))
  | step_clear c h F : pointer_step PClear (c, h, F) ('(c', h') ← pointer_clear c h; Some (c', h', F)).

Definition owns_state (s : PointerCache * heap * heap) : Prop := let '(c, h, F) := s in owns c h F.

Lemma pointer_add_owns times now i p c h F : owns c h F -> match p with Some a => a ∈ F | None => True end ->
  exists ok c' h', pointer_add prepare_to_die times now i p c h = Some (ok, c', h') /\
    owns c' h' (match p with Some a => if ok : bool then F ∖ {[a]} else F | None => F end) /\
    (ok = true -> pointer_lookup i c' = p).
Proof.
  intros Ho Hp. unfold pointer_add. destruct (pointer_remove_owns i c h F Ho) as (c1 & h1 & -> & Ho1 & Hf). cbn [mbind option_bind].
  assert (exists room c2 h2, (if negb (limit c1 =? 0) && (zlen (cachemap c1) >=? limit c1) then pointer_evict prepare_to_die times c1 h1
      else Some (true, c1, h1)) = Some (room, c2, h2) /\ owns c2 h2 F /\ find i (cachemap c2) = None)
    as (room & c2 & h2 & -> & [Hm2 Ho2] & Hf2).
  { destruct (negb _ && _); [|by exists true, c1, h1].
    destruct (pointer_evict_owns times c1 h1 F Ho1) as (ok & c2 & h2 & -> & _ & H2 & _ & H3). exists ok, c2, h2. auto. }
  cbn [mbind option_bind]. destruct room.
  - eexists true, _, h2. split; [done|]. split.
    + split; [by apply put_ordered|]. cbn [with_map cachemap].
      eapply owned_perm; [symmetry; by apply ptrs_put|]. by apply (owned_take p).
    + intros _. unfold pointer_lookup. cbn [with_map cachemap]. rewrite find_put. by rewrite key_compare_refl.
  - exists false, c2, h2. split; [done|]. split; [|done]. by destruct p.
Qed.

Lemma pointer_step_owns op s r : pointer_step op s r -> owns_state s -> exists s', r = Some s' /\ owns_state s'.
Proof.
  intros Hstep Ho. destruct Hstep; cbn [owns_state] in Ho.
  - destruct (pointer_add_owns times now i p c h F Ho) as (ok & c' & h' & -> & Ho' & _); [done|].
    cbn [mbind option_bind]. by eexists.
  - eexists. split; [done|]. destruct Ho as [Hm Ho]. unfold touch. destruct (find i (cachemap c)) as [mc|] eqn:Hf; [|by split].
    split; cbn [snd with_map cachemap]; [by apply put_ordered|]. by rewrite (ptrs_put_touch i mc).
  - destruct (pointer_remove_owns i c h F Ho) as (c' & h' & -> & Ho' & _). cbn [mbind option_bind]. by eexists.
  - unfold detach. destruct Ho as [Hm Ho]. destruct (find i (cachemap c)) as [mc|] eqn:Hf; [|by eexists].
    eexists. split; [done|]. split; [by apply erase_ordered|]. cbn [with_map cachemap].
    pose proof (owned_perm _ _ _ _ (ptrs_erase i mc _ Hf) Ho) as Ho'. destruct (content mc) as [a|]; [|done].
    destruct Ho' as ([Ha Hnd]%NoDup_cons & Hh & HF). split; [done|]. split.
    + rewrite Hh. apply set_eq. intros x. cbn [list_to_set]. rewrite !elem_of_union, elem_of_singleton. tauto.
    + intros b Hb. rewrite elem_of_union, elem_of_singleton. intros [->|Hb']; [done|]. by apply (HF b); [right|].
  - destruct Ho as [Hm Ho]. unfold pointer_tidy. destruct (pointer_tidy_loop_spec now (cachemap c) []) as (m' & l & -> & Hm' & _ & Hp).
    cbn [app]. destruct (delete_all_owned l (ptrs m') h F) as (h' & -> & Ho'); [by eapply owned_perm|].
    cbn [mbind option_bind]. eexists. split; [done|]. split; [|done]. cbn [with_map cachemap]. rewrite Hm'. by apply tidy_loop_ordered.
  - destruct (pointer_evict_owns times c h F Ho) as (ok & c' & h' & -> & _ & Ho' & _). cbn [mbind option_bind]. by eexists.
  - unfold pointer_set_limit. destruct (pointer_evict_owns times (mk_Cache l (cachemap c)) h F Ho) as (ok & c' & h' & -> & _ & Ho' & _).
    cbn [mbind option_bind]. by eexists.
  - destruct Ho as [Hm Ho]. unfold pointer_clear.
    destruct (delete_all_owned (map (fun e => content (snd e)) (cachemap c)) [] h F) as (h' & -> & Ho').
    { rewrite app_nil_r. by rewrite ptrs_contents. }
    cbn [mbind option_bind]. eexists. split; [done|]. split; [constructor|done].
Qed.

Inductive pointer_runs : list PointerOp -> PointerCache * heap * heap -> PointerCache * heap * heap -> Prop :=
  | runs_nil s : pointer_runs [] s s
  | runs_cons op ops s r s1 s2 : pointer_step op s r -> r = Some s1 -> pointer_runs ops s1 s2 ->
      pointer_runs (op :: ops) s s2.

(** C9: a pointer cache manages its memory: whatever is added, touched, removed, detached, tidied, evicted or
    cleared, with any policies, clock and decisions of [prepare_to_die], the allocated blocks are those the cache
    points to, each from one entry, and those that others own; so that no block is freed twice or while an
    entry points to it, none of the callers' is freed, none is lost, and no call fails to end. *)
Theorem pointer_cache_owns (limit : Z) (h : heap) (ops : list PointerOp) (s : PointerCache * heap * heap) :
  pointer_runs ops (new_Cache limit, h, h) s ->
  (let '(c, h, F) := s in NoDup (ptrs (cachemap c)) /\ h = list_to_set (ptrs (cachemap c)) ∪ F /\
     forall a, a ∈ ptrs (cachemap c) -> a ∉ F) /\
  forall op r, pointer_step op s r -> exists s', r = Some s'.
Proof.
  intros Hrun. assert (owns_state s) as Ho.
  { assert (owns_state (new_Cache limit, h, h)) as H0.
    { split; [constructor|]. split; [constructor|]. split; [|intros a Ha; by apply not_elem_of_nil in Ha].
      cbn. by rewrite union_empty_l_L. }
    revert H0. induction Hrun as [s|op ops s r s1 s2 Hstep -> _ IH]; [done|]. intros H0. apply IH.
    destruct (pointer_step_owns _ _ _ Hstep H0) as (s' & [= ->] & Hs'). done. }
  split; [destruct s as [[c h'] F]; apply Ho|].
  intros op r Hstep. destruct (pointer_step_owns _ _ _ Hstep Ho) as (s' & -> & _). by exists s'.
Qed.
End ownership.

(** The block of an ID that is added again is freed. *)
Lemma pointer_cache_owns_witness : exists c : Cache Z (option nat),
  pointer_runs (tidy_policy := NoTidyPolicy) (evictor_policy := NoEvictorPolicy) (fun _ _ => true)
    [PAdd (fun _ => 0) 1 7 (Some 5%nat); PAdd (fun _ => 0) 2 7 (Some 6%nat)] (new_Cache 4, {[ 5%nat; 6%nat ]}, {[ 5%nat; 6%nat ]})
    (c, {[ 6%nat ]}, ∅) /\
  NoDup (ptrs (cachemap c)).
Proof.
  set (run := pointer_runs (tidy_policy := NoTidyPolicy) (evictor_policy := NoEvictorPolicy) (fun (_ : Z) _ => true)).
  exists (mk_Cache 4 [(7, mk_MapContent (Some 6%nat) (mk_PolicyData 2 2 0))]).
  assert (run [PAdd (fun _ => 0) 1 7 (Some 5%nat); PAdd (fun _ => 0) 2 7 (Some 6%nat)]
    (new_Cache 4, {[ 5%nat; 6%nat ]}, {[ 5%nat; 6%nat ]})
    (mk_Cache 4 [(7, mk_MapContent (Some 6%nat) (mk_PolicyData 2 2 0))], {[ 6%nat ]}, ∅)) as Hrun.
  { eapply runs_cons; [apply step_add; by vm_compute|by vm_compute|].
    eapply runs_cons; [apply step_add; by vm_compute|by vm_compute|]. apply runs_nil. }
  split; [exact Hrun|].
  destruct (pointer_cache_owns (tidy_policy := NoTidyPolicy) (evictor_policy := NoEvictorPolicy) _ _ _ _ _ Hrun) as [(H & _) _].
  exact H.
Defined.

End Cache.
