(* ===== verification/Huffman.v ===== *)
(** * Huffman codes

    Models [src/libs/huffman]: values, the tree of nodes, the trees that
    depend on the previous value, the reader of their text form, and decoding
    from a bit reader.  The children of a node belong to it: the sharing that
    [Node::set_node] leaves between a node and its copy is not modelled. *)
From S2P Require Export ChanBits OrdMap Strings.

#[local] Set Warnings "-register-all".

Module Huffman.

(** ** [Value] *)

Inductive Special := none | start | stop | escape.
Record Value := mk_Value { value : Z; svalue : Special; special : bool; valid : bool }.

#[export] Instance Special_eq_dec : EqDecision Special.
Proof. solve_decision. Defined.
#[export] Instance Value_eq_dec : EqDecision Value.
Proof. solve_decision. Defined.

Definition no_value : Value := mk_Value 0 none false false.
Definition of_char (c : Z) : Value := mk_Value (u8 c) none false true.
Definition of_special (s : Special) : Value := mk_Value 0 s true true.

Definition rank (s : Special) : Z := match s with none => 0 | start => 1 | stop => 2 | escape => 3 end.

(** [operator==]: all special values are equal. *)
Definition value_eq (a b : Value) : bool := Bool.eqb (special a) (special b) && (value a =? value b).
Definition value_lt (a b : Value) : bool :=
  if special a then if special b then rank (svalue a) <? rank (svalue b) else false
  else if special b then true else value a <? value b.

Definition print_value (v : Value) : bytes :=
  if special v then
    match svalue v with none => str "NONE" | start => str "START" | stop => str "STOP" | escape => str "ESCAPE" end
  else [value v].

(** ** [Node] *)

Inductive Node := mk_Node (leaf : bool) (v : Value) (zero one : option Node).

Definition new_node : Node := mk_Node false (of_char 0) None None.
Definition leaf_node (v : Value) : Node := mk_Node true v None None.
Definition is_leaf (n : Node) : bool := let 'mk_Node l _ _ _ := n in l.
Definition get_value (n : Node) : Value := let 'mk_Node _ v _ _ := n in v.
Definition set_value (v : Value) (n : Node) : Node := let 'mk_Node _ _ z o := n in mk_Node true v z o.
Definition set_node (bit : bool) (c : Node) (n : Node) : Node :=
  let 'mk_Node _ v z o := n in if bit then mk_Node false v z (Some c) else mk_Node false v (Some c) o.
Definition get_child (bit : bool) (n : Node) : option Node :=
  let 'mk_Node _ _ z o := n in if bit then o else z.

Fixpoint get_node (sequence : list bool) (n : Node) : option Node :=
  match sequence with
  | [] => Some n
  | bit :: sequence => match get_child bit n with Some n => get_node sequence n | None => None end
  end.

(** [f(ensure_node(sequence))]: what the caller does with the reference *)
Fixpoint ensure_node (sequence : list bool) (f : Node -> Node) (n : Node) : Node :=
  match sequence with
  | [] => f n
  | bit :: sequence =>
    let 'mk_Node l v z o := n in
    if bit then mk_Node l v z (Some (ensure_node sequence f (default new_node o)))
    else mk_Node l v (Some (ensure_node sequence f (default new_node z))) o
  end.

(** ** [Tree] *)

Record Mapping := mk_Mapping { sequence : list bool; mapped : Value }.
Record MultiMapping := mk_MultiMapping { index : Value; mapping : Mapping }.
#[export] Instance Mapping_eq_dec : EqDecision Mapping.
Proof. solve_decision. Defined.
#[export] Instance MultiMapping_eq_dec : EqDecision MultiMapping.
Proof. solve_decision. Defined.

Definition add_mapping (m : Mapping) (root : Node) : Node := ensure_node (sequence m) (set_value (mapped m)) root.
Definition read_sequence (root : Node) (sequence : list bool) : option Value := get_value <$> get_node sequence root.

(** ** [MultiReader], over the characters left in the stream *)

(** [getline] into [room + 1] characters: [None] if it sets a bit of failure or the end of file *)
Fixpoint getline (room : nat) (sin line : bytes) : option (bytes * bytes) :=
  match sin with
  | [] => None
  | c :: sin =>
    if c =? 10 then Some (line, sin)
    else match room with O => None | S room => getline room sin (line ++ [c]) end
  end.
Fixpoint get_mapping_line (n : nat) (sin : bytes) : option (bytes * bytes) :=
  '(line, sin) ← getline 255 sin [];
  match line, n with
  | [], S n => get_mapping_line n sin
  | [], O => None
  | _, _ => Some (line, sin)
  end.

Definition get_value_from_string (s : bytes) : Value :=
  match s with
  | [] => no_value
  | c :: _ =>
    if bool_decide (s = str "START") then of_special start
    else if bool_decide (s = str "STOP") then of_special stop
    else if bool_decide (s = str "ESCAPE") then of_special escape
    else if (zlen s =? 4) && bool_decide (Strings.substr s 0 2 = str "0x") then of_char (Convert.xtoi (Strings.substr s 2 2))
    else of_char c
  end.
Definition get_sequence_from_string (s : bytes) : list bool := map (fun c => negb (c =? 48)) s.

(** [None] is [false]; a failed stream is empty. *)
Definition read_mapping (sin : bytes) : option MultiMapping * bytes :=
  match get_mapping_line (length sin) sin with
  | None => (None, [])
  | Some (line, sin) =>
    let line := if zget 0 line (zlen line - 1) =? 58 then removelast line else line in
    match Strings.split line 58 false 3 with
    | Some [i; s; v] =>
      let i := get_value_from_string i in
      let v := get_value_from_string v in
      (if valid i && valid v then Some (mk_MultiMapping i (mk_Mapping (get_sequence_from_string s) v)) else None, sin)
    | _ => (None, sin)
    end
  end.

(** ** [MultiTree]

    A [map] by [operator<], which is the order of [key]. *)

Definition key (v : Value) : Z := if special v then 256 + rank (svalue v) else value v.
Abbreviation MultiTree := (list (Z * Node)).

Definition add_multi (mm : MultiMapping) (trees : MultiTree) : MultiTree :=
  put (key (index mm)) (add_mapping (mapping mm) (default new_node (OrdMap.find (key (index mm)) trees))) trees.
Fixpoint populate_loop (n : nat) (sin : bytes) (trees : MultiTree) : option (MultiTree * bytes) :=
  match read_mapping sin with
  | (Some mm, sin) => match n with S n => populate_loop n sin (add_multi mm trees) | O => None end
  | (None, sin) => Some (trees, sin)
  end.
Definition populate_from (sin : bytes) (trees : MultiTree) : option (MultiTree * bytes) :=
  populate_loop (length sin) sin trees.

Definition multi_read_sequence (trees : MultiTree) (i : Value) (sequence : list bool) : option Value :=
  tree ← OrdMap.find (key i) trees; read_sequence tree sequence.

Section read.
Context {S : Type} `{Reader S}.

(** [Tree::read_value] from node [n] on; [None] is [false]. *)
Fixpoint tree_read_value (n : Node) (s : BitReader.t S) : option Value * BitReader.t S :=
  match n with
  | mk_Node _ _ zero one =>
    match BitReader.read_bool s with
    | (Val bit, s) =>
      match bit with
      | true => match one with
                | None => (None, s)
                | Some n => if is_leaf n then (Some (get_value n), s) else tree_read_value n s
                end
      | false => match zero with
                 | None => (None, s)
                 | Some n => if is_leaf n then (Some (get_value n), s) else tree_read_value n s
                 end
      end
    | (Throw _, s) => (None, s)
    end
  end.

Definition read_value (trees : MultiTree) (i : Value) (s : BitReader.t S) : option Value * BitReader.t S :=
  match OrdMap.find (key i) trees with
  | Some tree => tree_read_value tree s
  | None => (None, s)
  end.

Definition read_escaped_char (s : BitReader.t S) : option Z * BitReader.t S :=
  match BitReader.read_bits 8 s with
  | (Val c, s) => (Some (u8 c), s)
  | (Throw _, s) => (None, s)
  end.

(** The literal characters: the last one, or [None] if the data ended *)
Fixpoint escape_loop (fuel : nat) (text : bytes) (s : BitReader.t S) : option (bytes * option Z * BitReader.t S) :=
  match fuel with
  | O => None
  | Datatypes.S fuel =>
    match read_escaped_char s with
    | (None, s) => Some (text, None, s)
    | (Some c, s) =>
      if negb (Z.land c 128 =? 0) then escape_loop fuel (text ++ [c]) s else Some (text ++ [c], Some c, s)
    end
  end.

(** [read_string] only returns true. *)
Fixpoint read_string_loop (fuel : nat) (trees : MultiTree) (v : Value) (text : bytes) (s : BitReader.t S) :
  option (bytes * BitReader.t S) :=
  match fuel with
  | O => None
  | Datatypes.S fuel =>
    match read_value trees v s with
    | (None, s) => Some (text, s)
    | (Some v, s) =>
      if negb (special v) then read_string_loop fuel trees v (text ++ [value v]) s
      else if decide (svalue v = stop) then Some (text, s)
      else if decide (svalue v = escape) then
        '(text, c, s) ← escape_loop fuel text s;
        match c with
        | None => Some (text, s)
        | Some c => read_string_loop fuel trees (of_char c) text s
        end
      else read_string_loop fuel trees v text s
    end
  end.
Definition read_string (fuel : nat) (trees : MultiTree) (text : bytes) (s : BitReader.t S) : option (bytes * BitReader.t S) :=
  read_string_loop fuel trees (of_special start) text s.
End read.

(* ------------------------------------------------------------------ *)
(** ** Lemmas *)

(** [operator<] is the order of [key]. *)
Lemma value_lt_key a b : 0 <= value a < 256 -> 0 <= value b < 256 -> value_lt a b = (key a <? key b).
Proof.
  intros Ha Hb. unfold value_lt, key, rank. destruct (special a), (special b); try done.
  - destruct (svalue a), (svalue b); done.
  - symmetry. apply Z.ltb_ge. destruct (svalue a); lia.
  - symmetry. apply Z.ltb_lt. destruct (svalue b); lia.
Qed.

(** The value that a sequence leads to *)
Definition leaf_at (p : list bool) (n : Node) : option Value :=
  n ← get_node p n; if is_leaf n then Some (get_value n) else None.

Lemma leaf_at_new p : leaf_at p new_node = None.
Proof. destruct p as [|[] p]; done. Qed.
Lemma leaf_at_add p v q : forall n, leaf_at q (add_mapping (mk_Mapping p v) n) = if decide (q = p) then Some v else leaf_at q n.
Proof.
  unfold add_mapping. cbn [sequence mapped]. revert q. induction p as [|b p IH]; intros q [l w z o]; cbn [ensure_node].
  - destruct q as [|c q]; [done|]. rewrite decide_False by done. by destruct c.
  - destruct q as [|c q].
    { rewrite decide_False by done. by destruct b. }
    destruct (decide (c = b)) as [->|Hcb].
    + assert (forall child, leaf_at q (ensure_node p (set_value v) (default new_node child)) =
        if decide (b :: q = b :: p) then Some v else (child ≫= leaf_at q)) as Hchild.
      { intros child. rewrite IH. destruct (decide (q = p)) as [->|Hqp]; [by rewrite decide_True|].
        rewrite decide_False by congruence. destruct child; [done|]. apply leaf_at_new. }
      destruct b; unfold leaf_at in *; cbn [get_node get_child]; rewrite Hchild; (destruct (decide _); [done|]); [by destruct o|by destruct z].
    + rewrite decide_False by congruence. destruct b, c; try done.
Qed.
Opaque add_mapping.

(** No code of a previous value begins another of its codes. *)
Definition prefix_free (ms : list MultiMapping) : Prop :=
  forall m1 m2, m1 ∈ ms -> m2 ∈ ms -> key (index m1) = key (index m2) ->
    sequence (mapping m1) `prefix_of` sequence (mapping m2) ->
    sequence (mapping m1) <> [] /\ mapped (mapping m1) = mapped (mapping m2) /\
    sequence (mapping m1) = sequence (mapping m2).

Definition build (ms : list MultiMapping) (trees : MultiTree) : MultiTree := fold_left (fun trees mm => add_multi mm trees) ms trees.
Definition multi_leaf (trees : MultiTree) (k : Z) (p : list bool) : option Value :=
  tree ← OrdMap.find k trees; leaf_at p tree.

Lemma multi_leaf_add mm trees k p : multi_leaf (add_multi mm trees) k p =
  if decide (k = key (index mm) /\ p = sequence (mapping mm)) then Some (mapped (mapping mm)) else multi_leaf trees k p.
Proof.
  destruct mm as [i [q v]]. unfold multi_leaf, add_multi. cbn [index mapping sequence mapped]. rewrite find_put.
  destruct (decide (k = key i)) as [->|Hk].
  - rewrite key_compare_refl. cbn [mbind option_bind]. rewrite leaf_at_add.
    destruct (decide (p = q)) as [->|Hp]; [by rewrite decide_True|]. rewrite decide_False by tauto.
    destruct (OrdMap.find (key i) trees); [done|]. apply leaf_at_new.
  - rewrite decide_False by tauto. destruct (key_compare k (key i)) eqn:E; [|done..].
    by apply key_compare_eq in E.
Qed.
Lemma multi_leaf_build ms : forall trees k p,
  (multi_leaf (build ms trees) k p = multi_leaf trees k p /\ forall m, m ∈ ms -> ~ (k = key (index m) /\ p = sequence (mapping m))) \/
  (exists m, m ∈ ms /\ k = key (index m) /\ p = sequence (mapping m) /\ multi_leaf (build ms trees) k p = Some (mapped (mapping m))).
Proof.
  induction ms as [|m ms IH]; intros trees k p; cbn [build fold_left].
  - left. split; [done|]. intros m H. by apply not_elem_of_nil in H.
  - destruct (IH (add_multi m trees) k p) as [[Heq Hno]|(m' & Hin & Hrest)]; [|right; exists m'; split; [by right|done]].
    fold (build ms (add_multi m trees)). rewrite Heq, multi_leaf_add.
    destruct (decide (k = key (index m) /\ p = sequence (mapping m))) as [[Hk Hp]|Hn].
    + right. exists m. split; [by left|done].
    + left. split; [done|]. intros m' [->|Hin]%elem_of_cons; [done|by apply Hno].
Qed.

Section read_lemmas.
Context {R : Type} `{ReaderLaws R}.

Lemma read_bool_bits (s : BitReader.t R) b rest : br_ok s -> rbits s = b :: rest ->
  exists s', BitReader.read_bool s = (Val b, s') /\ br_ok s' /\ rbits s' = rest.
Proof.
  intros Hok Hr. destruct (read_bit_bits s b rest Hok Hr) as (s' & Hrd & Hs'). exists s'. split; [|done].
  unfold BitReader.read_bool. rewrite (bind_val _ _ _ _ _ Hrd). by destruct b.
Qed.

Lemma tree_read_leaf p : forall n v (s : BitReader.t R) rest, p <> [] -> leaf_at p n = Some v ->
  (forall q, q <> [] -> q <> p -> q `prefix_of` p -> leaf_at q n = None) -> br_ok s -> rbits s = p ++ rest ->
  exists s', tree_read_value n s = (Some v, s') /\ br_ok s' /\ rbits s' = rest.
Proof.
  induction p as [|b p IH]; intros [l w z o] v s rest Hp Hv Hq Hok Hr; [done|]. cbn [tree_read_value].
  destruct (read_bool_bits s b (p ++ rest) Hok Hr) as (s1 & -> & Hok1 & Hr1).
  assert (exists c, (if b then o else z) = Some c /\ leaf_at p c = Some v) as (c & Hc & Hcv).
  { unfold leaf_at in Hv. cbn [get_node get_child] in Hv. destruct (if b then o else z) as [c|] eqn:E; [|done]. by exists c. }
  assert (forall q, leaf_at (b :: q) (mk_Node l w z o) = leaf_at q c) as Hsub.
  { intros q. unfold leaf_at. cbn [get_node get_child]. by rewrite Hc. }
  assert (exists s', (if is_leaf c then (Some (get_value c), s1) else tree_read_value c s1) = (Some v, s') /\ br_ok s' /\ rbits s' = rest)
    as Hgoal.
  { destruct p as [|b' p].
    - unfold leaf_at in Hcv. cbn [get_node mbind option_bind] in Hcv. destruct (is_leaf c); [|done].
      injection Hcv as ->. by exists s1.
    - assert (is_leaf c = false) as ->.
      { specialize (Hq [b] ltac:(done) ltac:(done)). rewrite Hsub in Hq. unfold leaf_at in Hq. cbn [get_node mbind option_bind] in Hq.
        destruct (is_leaf c); [|done]. discriminate Hq. apply prefix_cons, prefix_nil. }
      apply (IH c v s1 rest); [done|done| |done|done].
      intros q Hq0 Hqp Hpre. rewrite <- Hsub. apply Hq; [done|congruence|by apply prefix_cons]. }
  destruct b; rewrite Hc; exact Hgoal.
Qed.

Lemma read_value_code ms m (s : BitReader.t R) rest : prefix_free ms -> m ∈ ms -> br_ok s ->
  rbits s = sequence (mapping m) ++ rest ->
  exists s', read_value (build ms []) (index m) s = (Some (mapped (mapping m)), s') /\ br_ok s' /\ rbits s' = rest.
Proof.
  intros Hms Hm Hok Hr. unfold read_value.
  destruct (multi_leaf_build ms [] (key (index m)) (sequence (mapping m))) as [[_ Hno]|(m' & Hm' & Hk & Hp & Hleaf)].
  { exfalso. by apply (Hno m Hm). }
  destruct (Hms m' m Hm' Hm (eq_sym Hk) ltac:(by rewrite Hp)) as (Hne & Hv & _). rewrite Hv in Hleaf.
  unfold multi_leaf in Hleaf. destruct (OrdMap.find (key (index m)) (build ms [])) as [tree|] eqn:Hf; [|done].
  apply (tree_read_leaf (sequence (mapping m))); [by rewrite Hp|done| |done|done].
  intros q Hq Hqp Hpre.
  destruct (multi_leaf_build ms [] (key (index m)) q) as [[Heq _]|(m2 & Hm2 & Hk2 & Hp2 & _)].
  - unfold multi_leaf in Heq. rewrite Hf in Heq. exact Heq.
  - exfalso. destruct (Hms m2 m Hm2 Hm (eq_sym Hk2) ltac:(by rewrite <- Hp2)) as (_ & _ & E). congruence.
Qed.

Lemma read_escaped_bits c (s : BitReader.t R) rest : byte_ok c -> br_ok s -> rbits s = bits_of 8 c ++ rest ->
  exists s', read_escaped_char s = (Some c, s') /\ br_ok s' /\ rbits s' = rest.
Proof.
  intros Hc Hok Hr. destruct (read_bits_field s 8 c rest Hok) as (s' & Hrd & Hs').
  - split; [cbn; lia|]. unfold in_u. cbn. unfold byte_ok in Hc. lia.
  - exact Hr.
  - exists s'. split; [|done]. unfold read_escaped_char. rewrite Hrd. by rewrite u8_small.
Qed.
(** *** Reading uses bits up. *)

Lemma fill_eof (s : BitReader.t R) : br_ok s -> rbits s = [] -> exists e s', BitReader.fill s = (Throw e, s').
Proof.
  intros Hok Hr. destruct (read_bit_eof s Hok Hr) as (e & s' & Hrd & _). unfold BitReader.read_bit, bind in Hrd.
  destruct (BitReader.fill s) as [[[]|e'] s1]; [done|]. by exists e', s1.
Qed.
Lemma read_bool_uses (s s' : BitReader.t R) b : br_ok s -> BitReader.read_bool s = (Val b, s') ->
  br_ok s' /\ S (length (rbits s')) = length (rbits s).
Proof.
  intros Hok Hrd. destruct (rbits s) as [|b' rest] eqn:Hr.
  - destruct (read_bit_eof s Hok Hr) as (e & s1 & Hbit & _). unfold BitReader.read_bool, bind in Hrd. by rewrite Hbit in Hrd.
  - destruct (read_bool_bits s b' rest Hok Hr) as (s1 & Hrd1 & Hok1 & Hr1). rewrite Hrd in Hrd1.
    injection Hrd1 as <- <-. split; [done|]. by rewrite Hr1.
Qed.
Lemma read_bits_loop_uses n : forall acc (s s' : BitReader.t R) v, br_ok s -> BitReader.read_bits_loop n acc s = (Val v, s') ->
  br_ok s' /\ (n + length (rbits s') = length (rbits s))%nat.
Proof.
  induction n as [|n IH]; intros acc s s' v Hok; cbn [BitReader.read_bits_loop]; [by intros [= _ <-]|].
  destruct (rbits s) as [|b rest] eqn:Hr.
  { destruct (fill_eof s Hok Hr) as (e & s1 & Hf). unfold bind at 1. by rewrite Hf. }
  destruct (fill_bits s b rest Hok Hr) as (s1 & Hf & Hok1 & Hr1 & Hpos). rewrite (bind_val _ _ _ _ _ Hf).
  destruct (take_bit_bits s1 b rest Hok1 Hr1 Hpos) as (s2 & Ht & Hok2 & Hr2). rewrite (bind_val _ _ _ _ _ Ht).
  intros [Hok' Hlen]%IH; [|done]. split; [done|]. cbn [length]. rewrite <- Hr2. lia.
Qed.
Lemma read_escaped_uses (s s' : BitReader.t R) c : br_ok s -> read_escaped_char s = (Some c, s') ->
  br_ok s' /\ (8 + length (rbits s') = length (rbits s))%nat.
Proof.
  intros Hok. unfold read_escaped_char. destruct (BitReader.read_bits 8 s) as [[v|e] s1] eqn:Hrd; [|done].
  intros [= _ <-]. by apply (read_bits_loop_uses 8 0 s s1 v).
Qed.
Lemma Node_size_ind (P : Node -> Prop) :
  (forall l v z o, (forall n, z = Some n -> P n) -> (forall n, o = Some n -> P n) -> P (mk_Node l v z o)) -> forall n, P n.
Proof.
  intros Hstep. fix rec 1. intros [l v [z|] [o|]]; apply Hstep; intros n [= <-]; apply rec.
Qed.
Lemma tree_read_uses n : forall (s s' : BitReader.t R) v, br_ok s -> tree_read_value n s = (Some v, s') ->
  br_ok s' /\ (length (rbits s') < length (rbits s))%nat.
Proof.
  induction n as [l w z o IHz IHo] using Node_size_ind. intros s s' v Hok. cbn [tree_read_value].
  destruct (BitReader.read_bool s) as [[b|e] s1] eqn:Hrd; [|done]. destruct (read_bool_uses s s1 b Hok Hrd) as [Hok1 Hlen].
  assert (forall c, (forall (s s' : BitReader.t R) v, br_ok s -> tree_read_value c s = (Some v, s') ->
      br_ok s' /\ (length (rbits s') < length (rbits s))%nat) ->
    (if is_leaf c then (Some (get_value c), s1) else tree_read_value c s1) = (Some v, s') ->
    br_ok s' /\ (length (rbits s') < length (rbits s))%nat) as Hchild.
  { intros c IH. destruct (is_leaf c); [intros [= _ <-]; split; [done|lia]|]. intros [Hok' Hlen']%IH; [|done]. split; [done|lia]. }
  destruct b; [destruct o as [c|]|destruct z as [c|]]; try done; (apply Hchild; first [by apply IHo|by apply IHz]).
Qed.
Lemma read_value_uses trees i (s s' : BitReader.t R) v : br_ok s -> read_value trees i s = (Some v, s') ->
  br_ok s' /\ (length (rbits s') < length (rbits s))%nat.
Proof. intros Hok. unfold read_value. destruct (OrdMap.find (key i) trees) as [tree|]; [by apply tree_read_uses|done]. Qed.

Lemma escape_loop_total fuel : forall text (s : BitReader.t R), br_ok s -> (length (rbits s) < fuel)%nat ->
  exists text' c s', escape_loop fuel text s = Some (text', c, s') /\
    (c <> None -> br_ok s' /\ (length (rbits s') < length (rbits s))%nat).
Proof.
  induction fuel as [|fuel IH]; intros text s Hok Hf; [lia|]. cbn [escape_loop].
  destruct (read_escaped_char s) as [[c|] s1] eqn:Hrd; [|by exists text, None, s1].
  destruct (read_escaped_uses s s1 c Hok Hrd) as [Hok1 Hlen].
  destruct (negb _); [|exists (text ++ [c]), (Some c), s1; split; [done|]; intros _; split; [done|lia]].
  destruct (IH (text ++ [c]) s1 Hok1 ltac:(lia)) as (text' & c' & s' & -> & Hs'). exists text', c', s'. split; [done|].
  intros [Hok' Hlen']%Hs'. split; [done|lia].
Qed.
Lemma read_string_loop_total fuel trees : forall v text (s : BitReader.t R), br_ok s -> (length (rbits s) < fuel)%nat ->
  exists text' s', read_string_loop fuel trees v text s = Some (text', s').
Proof.
  induction fuel as [|fuel IH]; intros v text s Hok Hf; [lia|]. cbn [read_string_loop].
  destruct (read_value trees v s) as [[w|] s1] eqn:Hrd; [|by eexists _, _].
  destruct (read_value_uses _ _ _ _ _ Hok Hrd) as [Hok1 Hlen].
  destruct (negb (special w)); [by apply IH; [|lia]|]. destruct (decide _); [by eexists _, _|].
  destruct (decide _); [|by apply IH; [|lia]].
  destruct (escape_loop_total fuel text s1 Hok1 ltac:(lia)) as (text' & [c|] & s2 & -> & Hs2); cbn [mbind option_bind];
    [|by eexists _, _].
  destruct (Hs2 ltac:(done)) as [Hok2 Hlen2]. by apply IH; [|lia].
Qed.

(** *** What is encoded is read. *)

(** A string after the value [i], in the codes [ms] *)
Inductive encodes (ms : list MultiMapping) : Value -> bytes -> list bool -> Prop :=
  | encodes_stop i m : m ∈ ms -> key (index m) = key i -> mapped (mapping m) = of_special stop ->
      encodes ms i [] (sequence (mapping m))
  | encodes_char i m c text bits : m ∈ ms -> key (index m) = key i -> byte_ok c -> mapped (mapping m) = of_char c ->
      encodes ms (of_char c) text bits -> encodes ms i (c :: text) (sequence (mapping m) ++ bits)
  | encodes_escape i m d c text bits : m ∈ ms -> key (index m) = key i -> mapped (mapping m) = of_special escape ->
      Forall (fun c => 128 <= c < 256) d -> 0 <= c < 128 -> encodes ms (of_char c) text bits ->
      encodes ms i (d ++ c :: text) (sequence (mapping m) ++ flat_map (bits_of 8) (d ++ [c]) ++ bits).

Lemma top_bit c : byte_ok c -> negb (Z.land c 128 =? 0) = (128 <=? c).
Proof.
  intros Hc. assert (Z.land c 128 = 128 * Z.b2z (Z.testbit c 7)) as ->.
  { apply Z.bits_inj'. intros k Hk. rewrite Z.land_spec. change 128 with (2 ^ 7). rewrite Z.pow2_bits_eqb by lia.
    rewrite (Z.mul_comm (2 ^ 7)). rewrite <- Z.shiftl_mul_pow2, Z.shiftl_spec by lia.
    destruct (Z.eqb_spec 7 k) as [<-|Hne].
    - rewrite andb_true_r. by destruct (Z.testbit c 7).
    - rewrite andb_false_r. destruct (decide (k < 7)); [by rewrite Z.testbit_neg_r by lia|].
      destruct (Z.testbit c 7); [|by rewrite Z.testbit_0_l].
      change (Z.b2z true) with (2 ^ 0). rewrite Z.pow2_bits_false; [done|lia]. }
  pose proof (Z.testbit_spec' c 7 ltac:(lia)) as Ht. unfold byte_ok in Hc. rewrite Ht.
  change (2 ^ 7) with 128. destruct (Z.leb_spec 128 c) as [Hle|Hlt].
  - assert (c / 128 = 1) as -> by (symmetry; apply (Z.div_unique _ _ _ (c - 128)); lia). done.
  - rewrite Z.div_small by lia. done.
Qed.
Lemma escape_loop_reads d : forall c fuel text (s : BitReader.t R) rest, Forall (fun c => 128 <= c < 256) d -> 0 <= c < 128 ->
  br_ok s -> rbits s = flat_map (bits_of 8) (d ++ [c]) ++ rest -> (length d < fuel)%nat ->
  exists s', escape_loop fuel text s = Some (text ++ d ++ [c], Some c, s') /\ br_ok s' /\ rbits s' = rest.
Proof.
  induction d as [|b d IH]; intros c fuel text s rest Hd Hc Hok Hr Hf; (destruct fuel as [|fuel]; [cbn in Hf; lia|]);
    cbn [escape_loop app flat_map] in *; rewrite <- app_assoc in Hr.
  - destruct (read_escaped_bits c s rest ltac:(unfold byte_ok; lia) Hok Hr) as (s' & -> & Hs').
    rewrite top_bit by (unfold byte_ok; lia). rewrite (proj2 (Z.leb_gt 128 c)) by lia. by exists s'.
  - inversion_clear Hd as [|? ? Hb Hd']. destruct (read_escaped_bits b s _ ltac:(unfold byte_ok; lia) Hok Hr) as (s1 & -> & Hok1 & Hr1).
    rewrite top_bit by (unfold byte_ok; lia). rewrite (proj2 (Z.leb_le 128 b)) by lia. cbn [length] in Hf.
    destruct (IH c fuel (text ++ [b]) s1 rest Hd' Hc Hok1 Hr1 ltac:(lia)) as (s' & -> & Hs').
    exists s'. by rewrite <- app_assoc.
Qed.

Lemma read_value_key trees i j (s : BitReader.t R) : key i = key j -> read_value trees i s = read_value trees j s.
Proof. unfold read_value. by intros ->. Qed.
Lemma code_length ms m : prefix_free ms -> m ∈ ms -> (0 < length (sequence (mapping m)))%nat.
Proof. intros Hms Hm. destruct (Hms m m Hm Hm eq_refl ltac:(done)) as [Hne _]. destruct (sequence (mapping m)); [done|cbn; lia]. Qed.

Lemma read_string_loop_reads ms i text bits : prefix_free ms -> encodes ms i text bits ->
  forall fuel out (s : BitReader.t R) rest, (length bits < fuel)%nat -> br_ok s -> rbits s = bits ++ rest ->
  exists s', read_string_loop fuel (build ms []) i out s = Some (out ++ text, s') /\ br_ok s' /\ rbits s' = rest.
Proof.
  intros Hms Henc. induction Henc as [i m Hm Hk Hv|i m c text bits Hm Hk Hc Hv _ IH|i m d c text bits Hm Hk Hv Hd Hc _ IH];
    intros fuel out s rest Hf Hok Hr; (destruct fuel as [|fuel]; [lia|]); cbn [read_string_loop];
    rewrite <- (read_value_key _ _ _ _ Hk); pose proof (code_length ms m Hms Hm) as Hcode; rewrite ?length_app in Hf; rewrite <- ?app_assoc in Hr;
    destruct (read_value_code ms m s _ Hms Hm Hok Hr) as (s1 & -> & Hok1 & Hr1); rewrite Hv; cbn [special of_special of_char negb svalue].
  - rewrite decide_True by done. exists s1. by rewrite app_nil_r.
  - destruct (IH fuel (out ++ [value (of_char c)]) s1 rest ltac:(lia) Hok1 Hr1) as (s' & -> & Hs'). exists s'.
    rewrite <- app_assoc. cbn [of_char value app]. by rewrite u8_small.
  - rewrite decide_False, decide_True by done.
    rewrite flat_bits_length, length_app in Hf. cbn [length] in Hf.
    destruct (escape_loop_reads d c fuel out s1 (bits ++ rest) Hd Hc Hok1 Hr1 ltac:(lia)) as (s2 & -> & Hok2 & Hr2).
    cbn [mbind option_bind].
    destruct (IH fuel (out ++ d ++ [c]) s2 rest ltac:(lia) Hok2 Hr2) as (s' & -> & Hs'). exists s'.
    by rewrite <- !app_assoc.
Qed.
End read_lemmas.

(* ------------------------------------------------------------------ *)
(** ** Properties *)

(** C12: what is encoded is decoded.  For codes that no previous value begins twice (prefix-free, not empty), a
    string encoded as the codes of its characters, each chosen by the character before, with any part of it
    escaped (eight bits a character up to the first ASCII one) and the code of STOP at its end, is read back
    from any bit reader, appended to what the string held, and the bits after it are left to read. *)
Theorem huffman_roundtrip {R} `{ReaderLaws R} (ms : list MultiMapping) (text out : bytes) (bits rest : list bool)
    (fuel : nat) (s : BitReader.t R) :
  prefix_free ms -> encodes ms (of_special start) text bits -> (length bits < fuel)%nat -> br_ok s ->
  rbits s = bits ++ rest ->
  exists s', read_string fuel (build ms []) out s = Some (out ++ text, s') /\ br_ok s' /\ rbits s' = rest.
Proof. intros Hms Henc Hf Hok Hr. by apply (read_string_loop_reads ms (of_special start) text bits). Qed.

(** [read_string] ends on every input, whatever the trees and the bits: every turn of its loops uses at
    least one bit up, so that as many turns as there are bits left, and one, are enough. *)
Theorem huffman_read_total {R} `{ReaderLaws R} (trees : MultiTree) (out : bytes) (s : BitReader.t R) (fuel : nat) :
  br_ok s -> (length (rbits s) < fuel)%nat -> exists text s', read_string fuel trees out s = Some (text, s').
Proof. intros Hok Hf. by apply read_string_loop_total. Qed.

(** *** The codes of test-tree.cc *)

Definition NLs : bytes := [10].
Definition test_mapping : bytes :=
  str "START:00:T:" ++ NLs ++ str "p:101:ESCAPE:" ++ NLs ++ str "x:01:0x3a:" ++ NLs ++ str "START:01:a:" ++ NLs ++
  str "a:0110:b:" ++ NLs ++ str "b:1011:c:" ++ NLs ++ str "c:00:STOP:" ++ NLs ++ str "c:01:d:" ++ NLs ++
  str "d:1:ESCAPE:" ++ NLs ++ str "f:011:g:" ++ NLs ++ str "g:0:STOP:" ++ NLs.
Definition code (i : Value) (p : list bool) (v : Value) : MultiMapping := mk_MultiMapping i (mk_Mapping p v).
Definition ascii_value (a : Ascii.ascii) : Value := of_char (chr a).
Definition test_codes : list MultiMapping :=
  [code (of_special start) [false; false] (ascii_value "T"); code (ascii_value "p") [true; false; true] (of_special escape);
   code (ascii_value "x") [false; true] (of_char 58); code (of_special start) [false; true] (ascii_value "a");
   code (ascii_value "a") [false; true; true; false] (ascii_value "b"); code (ascii_value "b") [true; false; true; true] (ascii_value "c");
   code (ascii_value "c") [false; false] (of_special stop); code (ascii_value "c") [false; true] (ascii_value "d");
   code (ascii_value "d") [true] (of_special escape); code (ascii_value "f") [false; true; true] (ascii_value "g");
   code (ascii_value "g") [false] (of_special stop)].

Example populate_test : fst <$> populate_from test_mapping [] = Some (build test_codes []).
Proof. vm_compute. reflexivity. Qed.
Example read_test : (fst <$> read_string 49 (build test_codes []) []
    (BitReader.init (StringReader.init [90; 222; 29; 75; 51; 0]))) = Some (str "abcd" ++ [195; 169] ++ str "fg").
Proof. vm_compute. reflexivity. Qed.
(** A last line without its end is lost. *)
Example populate_no_newline : populate_from (str "a:1:b") [] = Some ([], []).
Proof. vm_compute. reflexivity. Qed.
(** A sequence that leads to no leaf is read as the character 0. *)
Example read_inner_node : multi_read_sequence (build test_codes []) (ascii_value "p") [true] = Some (of_char 0).
Proof. vm_compute. reflexivity. Qed.
Example specials_equal : value_eq (of_special start) (of_special stop) = true.
Proof. reflexivity. Qed.

Fixpoint is_prefix (p q : list bool) : bool :=
  match p, q with [], _ => true | b :: p, c :: q => Bool.eqb b c && is_prefix p q | _, [] => false end.
Lemma is_prefix_spec p q : p `prefix_of` q -> is_prefix p q = true.
Proof. intros [r ->]. induction p as [|b p IH]; [done|]. cbn. by rewrite eqb_reflx. Qed.
Lemma test_prefix_free : prefix_free test_codes.
Proof.
  assert (Forall (fun m1 => Forall (fun m2 => key (index m1) = key (index m2) ->
    is_prefix (sequence (mapping m1)) (sequence (mapping m2)) = true ->
    sequence (mapping m1) <> [] /\ mapped (mapping m1) = mapped (mapping m2) /\
    sequence (mapping m1) = sequence (mapping m2)) test_codes) test_codes) as Hall.
  { apply (bool_decide_unpack _). by vm_compute. }
  intros m1 m2 H1 H2 Hk Hp%is_prefix_spec. rewrite Forall_forall in Hall. specialize (Hall m1 H1).
  rewrite Forall_forall in Hall. by apply Hall.
Qed.

Lemma huffman_roundtrip_witness : exists s',
  read_string 15 (build test_codes []) [] (BitReader.init (StringReader.init [90; 192])) = Some (str "abc", s').
Proof.
  destruct (huffman_roundtrip (R := StringReader.t) test_codes (str "abc") []
    [false; true; false; true; true; false; true; false; true; true; false; false] [false; false; false; false] 15
    (BitReader.init (StringReader.init [90; 192]))) as (s' & H & _).
  - apply test_prefix_free.
  - apply (encodes_char test_codes (of_special start) (code (of_special start) [false; true] (ascii_value "a")) 97);
      [by apply (bool_decide_unpack _)|done|done|done|].
    apply (encodes_char test_codes (of_char 97) (code (ascii_value "a") [false; true; true; false] (ascii_value "b")) 98);
      [by apply (bool_decide_unpack _)|done|done|done|].
    apply (encodes_char test_codes (of_char 98) (code (ascii_value "b") [true; false; true; true] (ascii_value "c")) 99);
      [by apply (bool_decide_unpack _)|done|done|done|].
    apply (encodes_stop test_codes (of_char 99) (code (ascii_value "c") [false; false] (of_special stop)));
      [by apply (bool_decide_unpack _)|done|done].
  - cbn. lia.
  - repeat split; simpl; try (vm_compute; congruence); try lia. repeat constructor; unfold byte_ok; lia.
  - reflexivity.
  - exists s'. exact H.
Defined.

Lemma huffman_read_total_witness : exists text s',
  read_string 17 (build test_codes []) [] (BitReader.init (StringReader.init [255; 255])) = Some (text, s').
Proof.
  apply (huffman_read_total (R := StringReader.t)); [|by apply Nat.ltb_lt].
  repeat split; simpl; try (vm_compute; congruence); try lia. repeat constructor; unfold byte_ok; lia.
Defined.

End Huffman.
