(* ===== verification/Merkle.v ===== *)
(** * Merkle trees

    Models [src/libs/merkle/ot-merkle.h]: leaves and branches, the tree built
    from a vector of leaf data, its hash and aggregated data, the indices of
    its nodes and its two traversals.  The hash and aggregation functions,
    which are template parameters of nodes, are arguments; SHA-256, which is
    OpenSSL's, is one of them. *)
From S2P Require Export Prelude.
From Stdlib Require Export Sorting.Permutation.

Module Merkle.

Section tree.
Context {LeafData : Type}.

(** [Leaf] and [Branch], of one child or two *)
Inductive Node :=
  | Leaf (i : Z) (leaf_data : LeafData)
  | Branch1 (i : Z) (left : Node)
  | Branch (i : Z) (left right : Node).

Definition index (n : Node) : Z := match n with Leaf i _ | Branch1 i _ | Branch i _ _ => i end.
Definition is_leaf (n : Node) : bool := match n with Leaf _ _ => true | _ => false end.

Section functions.
Context {Hash Data : Type}.
Context (leaf_hash : LeafData -> Hash) (branch_hash : Node -> Node -> Hash) (single_hash : Node -> Hash).
Context (leaf_aggregation : LeafData -> Data) (branch_aggregation : Node -> Node -> Data).

Definition get_hash (n : Node) : Hash :=
  match n with
  | Leaf _ d => leaf_hash d
  | Branch1 _ l => single_hash l
  | Branch _ l r => branch_hash l r
  end.
Fixpoint get_data (n : Node) : Data :=
  match n with
  | Leaf _ d => leaf_aggregation d
  | Branch1 _ l => get_data l
  | Branch _ l r => branch_aggregation l r
  end.
End functions.

(** What the callback is called with *)
Fixpoint traverse_preorder (n : Node) : list Node :=
  n :: match n with
       | Leaf _ _ => []
       | Branch1 _ l => traverse_preorder l
       | Branch _ l r => traverse_preorder l ++ traverse_preorder r
       end.
Definition children (n : Node) : list Node :=
  match n with Leaf _ _ => [] | Branch1 _ l => [l] | Branch _ l r => [l; r] end.
Fixpoint set_index (i : Z) (n : Node) : Node :=
  match n with
  | Leaf _ d => Leaf i d
  | Branch1 _ l => Branch1 i (set_index (u64 (2 * i + 1)) l)
  | Branch _ l r => Branch i (set_index (u64 (2 * i + 1)) l) (set_index (u64 (2 * i + 2)) r)
  end.

(** ** [GenericTree] *)

(** The loops count with [auto i = 0u], 32 bits: when the count comes round, a loop goes on for
    ever, which is [None] whatever the fuel. *)
Fixpoint parents_loop (fuel : nat) (i : Z) (nodes : list Node) : option (list Node) :=
  if i <? zlen nodes then
    match fuel with
    | O => None
    | S fuel =>
      l ← nodes !! Z.to_nat i;
      parent ← (if u32 (i + 1) <? zlen nodes then Branch 0 l <$> nodes !! Z.to_nat (u32 (i + 1))
                else Some (Branch1 0 l));
      cons parent <$> parents_loop fuel (u32 (i + 2)) nodes
    end
  else Some [].
Definition get_parent_nodes (fuel : nat) (nodes : list Node) : option (list Node) := parents_loop fuel 0 nodes.

Fixpoint leaf_loop (fuel : nat) (i : Z) (leaves : list LeafData) : option (list Node) :=
  if i <? zlen leaves then
    match fuel with
    | O => None
    | S fuel => d ← leaves !! Z.to_nat i; cons (Leaf 0 d) <$> leaf_loop fuel (u32 (i + 1)) leaves
    end
  else Some [].
Fixpoint build_loop (fuel : nat) (nodes : list Node) : option (list Node) :=
  if 1 <? zlen nodes then
    match fuel with
    | O => None
    | S fuel' => match get_parent_nodes fuel nodes with Some nodes => build_loop fuel' nodes | None => None end
    end
  else Some nodes.
(** [nodes[0]] of no nodes is no tree. *)
Definition build_tree (fuel : nat) (leaves : list LeafData) : option Node :=
  nodes ← leaf_loop fuel 0 leaves; nodes ← build_loop fuel nodes; head nodes.
(** As many turns as there are leaves are enough, for every loop ([merkle_tree_complete]). *)
Definition new_tree (leaves : list LeafData) : option Node := set_index 0 <$> build_tree (length leaves) leaves.

Fixpoint breadth_loop (fuel : nat) (queue : list Node) : option (list Node) :=
  match queue with
  | [] => Some []
  | n :: queue =>
    match fuel with O => None | S fuel => cons n <$> breadth_loop fuel (queue ++ children n) end
  end.
Definition traverse_breadth_first (fuel : nat) (root : Node) : option (list Node) := breadth_loop fuel [root].

(* ------------------------------------------------------------------ *)
(** ** The shape of a tree *)

Fixpoint leaves_of (n : Node) : list LeafData :=
  match n with Leaf _ d => [d] | Branch1 _ l => leaves_of l | Branch _ l r => leaves_of l ++ leaves_of r end.

(** Of height [h], with every leaf; and with leaves missing at the end only *)
Fixpoint full (h : nat) (n : Node) : Prop :=
  match h, n with
  | O, Leaf _ _ => True
  | S h, Branch _ l r => full h l /\ full h r
  | _, _ => False
  end.
Fixpoint complete (h : nat) (n : Node) : Prop :=
  match h, n with
  | O, Leaf _ _ => True
  | S h, Branch _ l r => full h l /\ complete h r
  | S h, Branch1 _ l => complete h l
  | _, _ => False
  end.

(** A layer: full nodes, and a last complete one *)
Fixpoint layer (h : nat) (nodes : list Node) : Prop :=
  match nodes with
  | [] => True
  | [n] => complete h n
  | n :: nodes => full h n /\ layer h nodes
  end.

(** The parents of a layer, two by two *)
Fixpoint paired (nodes : list Node) : list Node :=
  match nodes with
  | l :: r :: nodes => Branch 0 l r :: paired nodes
  | [l] => [Branch1 0 l]
  | [] => []
  end.

Lemma zdrop_lookup {A} (l : list A) i : 0 <= i < zlen l ->
  exists x, l !! Z.to_nat i = Some x /\ zdrop i l = x :: zdrop (i + 1) l.
Proof.
  intros Hi. unfold zlen in Hi. destruct (lookup_lt_is_Some_2 l (Z.to_nat i)) as [x Hx]; [lia|].
  exists x. split; [done|]. unfold zdrop. rewrite (drop_S l x (Z.to_nat i) Hx). do 2 f_equal. lia.
Qed.

Lemma parents_loop_paired nodes fuel : zlen nodes <= 2 ^ 32 - 2 -> forall i, 0 <= i ->
  zlen nodes - i <= 2 * Z.of_nat fuel -> parents_loop fuel i nodes = Some (paired (zdrop i nodes)).
Proof.
  intros Hn. induction fuel as [|fuel IH]; intros i Hi Hf; cbn [parents_loop].
  all: destruct (Z.ltb_spec i (zlen nodes)) as [Hlt|Hge]; [|by rewrite zdrop_ge].
  { lia. }
  destruct (zdrop_lookup nodes i ltac:(lia)) as (l & -> & ->). cbn [mbind option_bind].
  rewrite (wrap_small 32 (i + 1)), (wrap_small 32 (i + 2)) by (unfold in_u; lia).
  rewrite (IH (i + 2)) by lia. destruct (Z.ltb_spec (i + 1) (zlen nodes)) as [Hlt1|Hge1].
  - destruct (zdrop_lookup nodes (i + 1) ltac:(lia)) as (r & -> & ->). cbn. by rewrite <- Z.add_assoc.
  - cbn. by rewrite !zdrop_ge by lia.
Qed.
Lemma parents_loop_never nodes fuel : 2 ^ 32 - 2 < zlen nodes -> forall i, 0 <= i < 2 ^ 32 -> Z.even i = true ->
  parents_loop fuel i nodes = None.
Proof.
  intros Hn. induction fuel as [|fuel IH]; intros i Hi He; cbn [parents_loop].
  all: assert (i < zlen nodes) as Hlt%Z.ltb_lt by
    (apply Z.even_spec in He as [k ->]; lia); rewrite Hlt; try done.
  destruct (nodes !! Z.to_nat i) as [l|]; [|done]. cbn [mbind option_bind].
  destruct (if _ <? _ then _ else _) as [p|]; [|done]. cbn [mbind option_bind].
  rewrite IH; [done|apply wrap_range; lia|]. unfold wrap. apply Z.even_spec in He as [k ->].
  apply Z.even_spec. exists ((k + 1) mod 2 ^ 31).
  replace (2 * k + 2) with (2 * (k + 1)) by lia. change (2 ^ 32) with (2 * 2 ^ 31).
  by rewrite Z.mul_mod_distr_l.
Qed.

Lemma leaf_loop_spec leaves fuel : zlen leaves < 2 ^ 32 -> forall i, 0 <= i <= zlen leaves ->
  leaf_loop fuel i leaves =
    if zlen leaves - i <=? Z.of_nat fuel then Some (map (Leaf 0) (zdrop i leaves)) else None.
Proof.
  intros Hn. induction fuel as [|fuel IH]; intros i Hi; cbn [leaf_loop].
  all: destruct (Z.ltb_spec i (zlen leaves)) as [Hlt|Hge];
    [|rewrite (proj2 (Z.leb_le _ _)) by lia; by rewrite zdrop_ge].
  { by rewrite (proj2 (Z.leb_gt _ _)) by lia. }
  destruct (zdrop_lookup leaves i ltac:(lia)) as (d & -> & ->). cbn [mbind option_bind].
  rewrite (wrap_small 32 (i + 1)), (IH (i + 1)) by (unfold in_u; lia).
  destruct (Z.leb_spec (zlen leaves - (i + 1)) (Z.of_nat fuel)) as [H|H].
  - by rewrite (proj2 (Z.leb_le _ _)) by lia.
  - by rewrite (proj2 (Z.leb_gt _ _)) by lia.
Qed.
Lemma leaf_loop_never leaves fuel : 2 ^ 32 <= zlen leaves -> forall i, 0 <= i < 2 ^ 32 -> leaf_loop fuel i leaves = None.
Proof.
  intros Hn. induction fuel as [|fuel IH]; intros i Hi; cbn [leaf_loop];
    rewrite (proj2 (Z.ltb_lt _ _)) by lia; try done.
  destruct (leaves !! Z.to_nat i); [|done]. cbn [mbind option_bind].
  by rewrite IH by (apply wrap_range; lia).
Qed.

Lemma full_complete h n : full h n -> complete h n.
Proof. revert h. induction n as [i d|i l _|i l _ r IHr]; intros [|h]; cbn; try done. intros [Hl Hr]. split; auto. Qed.
Lemma full_leaves h n : full h n -> length (leaves_of n) = (2 ^ h)%nat.
Proof.
  revert h. induction n as [i d|i l _|i l IHl r IHr]; intros [|h]; cbn [full leaves_of]; try done.
  intros [Hl Hr]. rewrite length_app, (IHl h), (IHr h) by done. cbn. lia.
Qed.
Lemma layer_parents h nodes : layer h nodes -> layer (S h) (paired nodes) /\
  flat_map leaves_of (paired nodes) = flat_map leaves_of nodes /\
  length (paired nodes) = ((length nodes + 1) / 2)%nat.
Proof.
  induction nodes as [nodes IH] using (induction_ltof1 _ (@length Node)). unfold ltof in IH.
  destruct nodes as [|l [|r nodes]]; [done..|]. intros [Hl Hr]. cbn [paired].
  destruct (IH nodes) as (H1 & H2 & H3); [cbn; lia|destruct nodes; [done|apply Hr]|].
  split; [|split].
  - destruct nodes as [|x nodes]; [by split|]. destruct Hr as [Hr Hrest].
    assert (exists y ys, paired (x :: nodes) = y :: ys) as (y & ys & E) by (destruct nodes; by eexists _, _).
    rewrite E in *. split; [by split|done].
  - cbn [flat_map leaves_of]. by rewrite H2, app_assoc.
  - cbn [length]. rewrite H3. replace (S (S (length nodes)) + 1)%nat with (length nodes + 1 + 1 * 2)%nat by lia.
    rewrite Nat.div_add; lia.
Qed.

Lemma build_loop_layer fuel : forall h nodes, layer h nodes -> nodes <> [] -> (length nodes <= S fuel)%nat ->
  zlen nodes <= 2 ^ 32 - 2 ->
  exists k root, build_loop fuel nodes = Some [root] /\ complete (k + h) root /\ leaves_of root = flat_map leaves_of nodes /\
    (length nodes <= 2 ^ k)%nat /\ (k = 0%nat \/ (2 ^ (k - 1) < length nodes)%nat).
Proof.
  induction fuel as [|fuel IH]; intros h nodes Hl Hne Hf Hb;
    (destruct nodes as [|x [|y nodes]]; [done|exists 0%nat, x; cbn; rewrite app_nil_r; repeat split; auto|]).
  { cbn in Hf. lia. }
  cbn [build_loop]. rewrite (proj2 (Z.ltb_lt 1 _)) by (rewrite !zlen_cons; pose proof (zlen_nonneg nodes); lia).
  unfold get_parent_nodes. rewrite parents_loop_paired by (done || lia || (unfold zlen; cbn [length] in *; lia)).
  rewrite zdrop_0. destruct (layer_parents h _ Hl) as (Hp & Hlp & Hlen). set (ps := paired (x :: y :: nodes)) in *.
  set (n := length (x :: y :: nodes)) in *. assert (2 <= n)%nat by (unfold n; cbn; lia).
  pose proof (Nat.div_mod (n + 1) 2 ltac:(lia)) as Hdm. pose proof (Nat.mod_upper_bound (n + 1) 2 ltac:(lia)) as Hmod.
  rewrite <- Hlen in Hdm.
  destruct (IH (S h) ps Hp) as (k & root & -> & Hc & Hlv & Hle & Hgt); [by unfold ps|lia|unfold zlen in *; fold n in Hb; lia|].
  exists (S k), root. replace (S k + h)%nat with (k + S h)%nat by lia. split; [done|]. split; [done|].
  split; [congruence|]. cbn [Nat.pow]. split; [lia|]. right. replace (S k - 1)%nat with k by lia.
  destruct Hgt as [->|Hgt]; [cbn; lia|]. destruct k; [cbn; lia|]. cbn [Nat.pow]. replace (S k - 1)%nat with k in Hgt by lia. lia.
Qed.

Lemma layer_leaves ls : layer 0 (map (Leaf 0) ls).
Proof. induction ls as [|d [|d' ls] IH]; [done|done|]. by split. Qed.
Lemma flat_leaves ls : flat_map leaves_of (map (Leaf 0) ls) = ls.
Proof. induction ls as [|d ls IH]; [done|]. cbn. by rewrite IH. Qed.
Lemma build_tree_complete fuel ls : ls <> [] -> zlen ls <= 2 ^ 32 - 2 -> (length ls <= fuel)%nat ->
  exists h root, build_tree fuel ls = Some root /\ complete h root /\ leaves_of root = ls /\
  (length ls <= 2 ^ h)%nat /\ (h = 0%nat \/ (2 ^ (h - 1) < length ls)%nat).
Proof.
  intros Hne Hn Hf. destruct (build_loop_layer fuel 0 (map (Leaf 0) ls) (layer_leaves ls)) as (k & root & Hb & Hc & Hl & Hle & Hgt).
  { by destruct ls. }
  { rewrite length_map. lia. }
  { unfold zlen in *. by rewrite length_map. }
  exists k, root. unfold build_tree. rewrite leaf_loop_spec by (pose proof (zlen_nonneg ls); lia).
  rewrite (proj2 (Z.leb_le _ _)) by (unfold zlen; lia). rewrite zdrop_0. cbn [mbind option_bind].
  rewrite Hb, length_map, flat_leaves, Nat.add_0_r in *. done.
Qed.
Lemma build_tree_never fuel ls : 2 ^ 32 - 2 < zlen ls -> build_tree fuel ls = None.
Proof.
  intros Hn. unfold build_tree. destruct (decide (2 ^ 32 <= zlen ls)) as [Hge|Hlt].
  { by rewrite leaf_loop_never. }
  rewrite leaf_loop_spec by lia. case_match eqn:Hf; [|done]. apply Z.leb_le in Hf. cbn [mbind option_bind].
  rewrite zdrop_0. destruct fuel as [|fuel]; [lia|]. cbn [build_loop].
  assert (zlen (map (Leaf 0) ls) = zlen ls) as Hz by (unfold zlen; by rewrite length_map).
  rewrite Hz, (proj2 (Z.ltb_lt _ _)) by lia. unfold get_parent_nodes.
  rewrite parents_loop_never; [done|lia|lia|done].
Qed.

(** *** Indices *)

Lemma complete_set_index h n i : complete h n -> complete h (set_index i n).
Proof.
  assert (forall n h i, full h n -> full h (set_index i n)) as Hfull.
  { induction n0 as [j d|j l _|j l IHl r IHr]; intros [|h0] i0; cbn; try done. intros [Hl Hr]. split; auto. }
  revert h i. induction n as [j d|j l IHl|j l _ r IHr]; intros [|h] i; cbn; try done; [auto|]. intros [Hl Hr]. split; auto.
Qed.
Lemma leaves_set_index n : forall i, leaves_of (set_index i n) = leaves_of n.
Proof. induction n as [j d|j l IHl|j l IHl r IHr]; intros i; cbn; [done|by apply IHl|by rewrite IHl, IHr]. Qed.

Fixpoint leaf_indices (n : Node) : list Z :=
  match n with Leaf i _ => [i] | Branch1 _ l => leaf_indices l | Branch _ l r => leaf_indices l ++ leaf_indices r end.
Lemma zseq_app a n m : zseq a (n + m) = zseq a n ++ zseq (a + Z.of_nat n) m.
Proof.
  unfold zseq. rewrite seq_app, map_app. f_equal. cbn. rewrite <- (Nat.add_0_r n) at 1. rewrite <- fmap_add_seq.
  rewrite map_map. apply map_ext. intros k. lia.
Qed.
Lemma complete_indices h n : forall i, complete h n -> 0 <= i -> 2 ^ Z.of_nat h * (i + 2) <= 2 ^ 64 ->
  leaf_indices (set_index i n) = zseq (2 ^ Z.of_nat h * (i + 1) - 1) (length (leaves_of n)).
Proof.
  revert h. induction n as [j d|j l IHl|j l IHl r IHr]; intros [|h] i; cbn [complete]; try done.
  - intros _ Hi Hb. unfold zseq. cbn [set_index leaf_indices leaves_of length seq map]. f_equal. change (Z.of_nat 0) with 0. lia.
  - intros Hl Hi Hb. cbn [set_index leaf_indices leaves_of]. rewrite Nat2Z.inj_succ, Z.pow_succ_r in * by lia.
    pose proof (Z.pow_pos_nonneg 2 (Z.of_nat h) ltac:(lia) ltac:(lia)).
    assert (u64 (2 * i + 1) = 2 * i + 1) as -> by (apply wrap_small; unfold in_u; nia).
    rewrite (IHl h) by (done || nia). f_equal. lia.
  - intros [Hl Hr] Hi Hb. cbn [set_index leaf_indices leaves_of]. rewrite Nat2Z.inj_succ, Z.pow_succ_r in * by lia.
    pose proof (Z.pow_pos_nonneg 2 (Z.of_nat h) ltac:(lia) ltac:(lia)).
    assert (u64 (2 * i + 1) = 2 * i + 1) as -> by (apply wrap_small; unfold in_u; nia).
    assert (u64 (2 * i + 2) = 2 * i + 2) as -> by (apply wrap_small; unfold in_u; nia).
    rewrite (IHl h), (IHr h) by (done || (by apply full_complete) || nia).
    rewrite length_app, zseq_app, (full_leaves h l) by done. f_equal; f_equal; [lia|].
    rewrite Nat2Z.inj_pow. change (Z.of_nat 2) with 2. lia.
Qed.

(** *** Traversals *)

Fixpoint node_count (n : Node) : nat :=
  match n with Leaf _ _ => 1 | Branch1 _ l => S (node_count l) | Branch _ l r => S (node_count l + node_count r) end.
Definition total (ns : list Node) : nat := list_sum (map node_count ns).
Lemma preorder_length n : length (traverse_preorder n) = node_count n.
Proof. induction n as [j d|j l IHl|j l IHl r IHr]; cbn; [done|by rewrite IHl|by rewrite length_app, IHl, IHr]. Qed.
Lemma total_app l1 l2 : total (l1 ++ l2) = (total l1 + total l2)%nat.
Proof. unfold total. by rewrite map_app, list_sum_app. Qed.
Lemma total_children n : node_count n = S (total (children n)).
Proof. destruct n; unfold total; cbn; lia. Qed.

Lemma breadth_loop_visits fuel : forall queue, (total queue <= fuel)%nat ->
  exists visited, breadth_loop fuel queue = Some visited /\ Permutation visited (flat_map traverse_preorder queue).
Proof.
  induction fuel as [|fuel IH]; intros [|n queue] Hf; cbn [breadth_loop flat_map]; try (by exists []).
  { unfold total in Hf. cbn in Hf. rewrite total_children in Hf. lia. }
  destruct (IH (queue ++ children n)) as (visited & -> & Hp).
  { unfold total in Hf. cbn [map list_sum foldr] in Hf. fold (total queue) in Hf. rewrite total_app.
    rewrite total_children in Hf. unfold total, list_sum in *. cbn in *. lia. }
  exists (n :: visited). split; [done|]. rewrite Hp, flat_map_app. rewrite Permutation_app_comm.
  destruct n as [i d|i l|i l r]; cbn [children flat_map traverse_preorder]; rewrite ?app_nil_r; done.
Qed.

(** The nodes [d] levels below, in order *)
Fixpoint level (d : nat) (n : Node) : list Node :=
  match d with O => [n] | S d => flat_map (level d) (children n) end.
Fixpoint below (d : nat) (ns : list Node) : list Node :=
  match d with O => ns | S d => below d (flat_map children ns) end.
Lemma below_app d : forall l1 l2, below d (l1 ++ l2) = below d l1 ++ below d l2.
Proof. induction d as [|d IH]; intros l1 l2; cbn [below]; [done|]. by rewrite flat_map_app. Qed.
Lemma below_nil d : below d [] = [].
Proof. induction d; done. Qed.
Lemma below_level d : forall ns, below d ns = flat_map (level d) ns.
Proof.
  induction d as [|d IH]; intros ns; cbn [below].
  - induction ns as [|n ns IHn]; [done|]. cbn [flat_map level app]. f_equal. exact IHn.
  - rewrite IH. induction ns as [|n ns IHn]; [done|]. cbn [flat_map level]. by rewrite flat_map_app, IHn.
Qed.

Lemma breadth_loop_layer ns : forall fuel queue, (length ns <= fuel)%nat ->
  breadth_loop fuel (ns ++ queue) = app ns <$> breadth_loop (fuel - length ns) (queue ++ flat_map children ns).
Proof.
  induction ns as [|n ns IH]; intros fuel queue Hf; cbn [app length flat_map].
  { rewrite app_nil_r, Nat.sub_0_r. by destruct (breadth_loop fuel queue). }
  destruct fuel as [|fuel]; [cbn in Hf; lia|]. cbn [breadth_loop length] in *.
  rewrite <- app_assoc, (IH fuel) by lia. rewrite <- app_assoc. change (S fuel - S (length ns))%nat with (fuel - length ns)%nat.
  by destruct (breadth_loop _ _).
Qed.
Lemma breadth_loop_levels h : forall fuel ns visited, below (S h) ns = [] -> breadth_loop fuel ns = Some visited ->
  visited = flat_map (fun d => below d ns) (seq 0 (S h)).
Proof.
  assert (forall fuel ns visited, breadth_loop fuel ns = Some visited -> (length ns <= fuel)%nat) as Hlen.
  { induction fuel as [|fuel IH]; intros [|n ns] visited; cbn [breadth_loop length]; try done; [lia|].
    destruct (breadth_loop fuel (ns ++ children n)) eqn:E; [|done]. intros _. apply IH in E. rewrite length_app in E. lia. }
  induction h as [|h IH]; intros fuel ns visited Hb Hv; pose proof (Hlen _ _ _ Hv) as Hf;
    rewrite <- (app_nil_r ns) in Hv; rewrite breadth_loop_layer in Hv by done; cbn [app] in Hv.
  - cbn [below] in Hb. rewrite Hb in Hv. cbn. rewrite app_nil_r.
    destruct (fuel - length ns)%nat; cbn in Hv; injection Hv as <-; by rewrite app_nil_r.
  - destruct (breadth_loop _ (flat_map children ns)) as [rest|] eqn:E; [|done]. injection Hv as <-.
    change (seq 0 (S (S h))) with (0%nat :: seq 1 (S h)). cbn [flat_map below]. f_equal.
    rewrite (IH _ _ _ Hb E), <- (seq_shift (S h) 0), (flat_map_concat_map _ (map S _)), map_map, <- flat_map_concat_map. done.
Qed.

Lemma complete_below h n : complete h n -> below (S h) [n] = [].
Proof.
  assert (forall h n, full h n -> flat_map (level h) (children n) = []) as Hfull.
  { induction h0 as [|h0 IH]; intros [i d|i l|i l r]; cbn [full children flat_map]; try done. intros [Hl Hr].
    specialize (IH l Hl) as IHl. specialize (IH r Hr) as IHr. cbn [level]. by rewrite IHl, IHr. }
  rewrite below_level. cbn [flat_map]. rewrite app_nil_r. cbn [level]. revert n.
  induction h as [|h IH]; intros [i d|i l|i l r]; cbn [complete children flat_map]; try done.
  - intros Hl. cbn [level]. by rewrite (IH l Hl).
  - intros [Hl Hr]. cbn [level]. by rewrite (Hfull h l Hl), (IH r Hr).
Qed.

Lemma full_level h d n : full h n -> (d <= h)%nat -> length (level d n) = (2 ^ d)%nat.
Proof.
  revert d n. induction h as [|h IH]; intros [|d] n Hn Hd; try done; [lia|].
  destruct n as [i x|i l|i l r]; cbn [full] in Hn; try done. destruct Hn as [Hl Hr]. cbn [level children flat_map].
  rewrite app_nil_r, length_app, !IH by (done || lia). cbn. lia.
Qed.
Lemma level_indices h d : forall n i, complete h n -> (d <= h)%nat -> 0 <= i -> 2 ^ Z.of_nat d * (i + 2) <= 2 ^ 64 ->
  map index (level d (set_index i n)) = zseq (2 ^ Z.of_nat d * (i + 1) - 1) (length (level d n)).
Proof.
  revert d. induction h as [|h IH]; intros [|d] n i Hn Hd Hi Hb; try lia;
    try (unfold zseq; destruct n; cbn; do 2 f_equal; lia).
  rewrite Nat2Z.inj_succ, Z.pow_succ_r in * by lia. pose proof (Z.pow_pos_nonneg 2 (Z.of_nat d) ltac:(lia) ltac:(lia)).
  assert (u64 (2 * i + 1) = 2 * i + 1) as H1 by (apply wrap_small; unfold in_u; nia).
  destruct n as [j x|j l|j l r]; cbn [complete] in Hn; try done; cbn [set_index level children flat_map]; rewrite H1, !app_nil_r.
  - rewrite IH by (done || nia). f_equal. lia.
  - destruct Hn as [Hl Hr]. assert (u64 (2 * i + 2) = 2 * i + 2) as -> by (apply wrap_small; unfold in_u; nia).
    rewrite map_app, length_app, zseq_app, !IH by (done || (by apply full_complete) || nia).
    rewrite (full_level h d l) by (done || lia). f_equal; f_equal; [lia|].
    rewrite Nat2Z.inj_pow. change (Z.of_nat 2) with 2. lia.
Qed.
Lemma level_set_index d : forall n i, length (level d (set_index i n)) = length (level d n).
Proof.
  induction d as [|d IH]; intros n i; [done|].
  destruct n; cbn [set_index level children flat_map]; rewrite ?app_nil_r, ?length_app, ?IH; done.
Qed.

(** *** Hashes and sums *)

(** The hash of a tree whose branch function combines the hashes of the children, and passes a single one on *)
Fixpoint tree_hash {Hash} (leaf_hash : LeafData -> Hash) (combine : Hash -> Hash -> Hash) (n : Node) : Hash :=
  match n with
  | Leaf _ d => leaf_hash d
  | Branch1 _ l => tree_hash leaf_hash combine l
  | Branch _ l r => combine (tree_hash leaf_hash combine l) (tree_hash leaf_hash combine r)
  end.
Lemma tree_hash_get {Hash} (leaf_hash : LeafData -> Hash) combine n :
  tree_hash leaf_hash combine n =
  get_hash leaf_hash (fun l r => combine (tree_hash leaf_hash combine l) (tree_hash leaf_hash combine r))
    (tree_hash leaf_hash combine) n.
Proof. by destruct n. Qed.

Fixpoint tree_sum (value : LeafData -> Z) (n : Node) : Z :=
  match n with
  | Leaf _ d => value d
  | Branch1 _ l => tree_sum value l
  | Branch _ l r => tree_sum value l + tree_sum value r
  end.
Lemma tree_sum_get value n : tree_sum value n = get_data value (fun l r => tree_sum value l + tree_sum value r) n.
Proof. induction n; done. Qed.
Lemma tree_sum_leaves value n : tree_sum value n = foldr Z.add 0 (map value (leaves_of n)).
Proof.
  assert (forall l1 l2, foldr Z.add 0 (l1 ++ l2) = foldr Z.add 0 l1 + foldr Z.add 0 l2) as Happ.
  { induction l1 as [|x l1 IH]; intros l2; cbn [app foldr]; [lia|]. rewrite IH. lia. }
  induction n as [i d|i l IHl|i l IHl r IHr]; cbn [tree_sum leaves_of map foldr]; [lia|done|]. by rewrite map_app, Happ, IHl, IHr.
Qed.

Lemma complete_leaves h n : complete h n -> (0 < length (leaves_of n) <= 2 ^ h)%nat.
Proof.
  revert n. induction h as [|h IH]; intros [i d|i l|i l r]; cbn [complete leaves_of length]; try done.
  - cbn. lia.
  - intros Hl%IH. cbn. lia.
  - intros [Hl%full_leaves Hr%IH]. rewrite length_app, Hl. cbn. lia.
Qed.
Lemma hash_binds {Hash} (leaf_hash : LeafData -> Hash) combine h :
  (forall a b c d, combine a b = combine c d -> a = c /\ b = d) ->
  forall n1 n2, complete h n1 -> complete h n2 -> length (leaves_of n1) = length (leaves_of n2) ->
  tree_hash leaf_hash combine n1 = tree_hash leaf_hash combine n2 ->
  map leaf_hash (leaves_of n1) = map leaf_hash (leaves_of n2).
Proof.
  intros Hinj. induction h as [|h IH]; intros [i1 d1|i1 l1|i1 l1 r1] [i2 d2|i2 l2|i2 l2 r2]; cbn [complete leaves_of tree_hash]; try done.
  - intros _ _ _ Hd. cbn. by rewrite Hd.
  - intros H1 H2 Hlen Hh. by apply IH.
  - intros H1%complete_leaves [H2%full_leaves H3%complete_leaves] Hlen. rewrite length_app in Hlen. lia.
  - intros [H2%full_leaves H3%complete_leaves] H1%complete_leaves Hlen. rewrite length_app in Hlen. lia.
  - intros [Hl1 Hr1] [Hl2 Hr2] Hlen [Hl Hr]%Hinj. rewrite !length_app, (full_leaves h l1), (full_leaves h l2) in Hlen by done.
    rewrite !map_app. f_equal; apply IH; try done; try (by apply full_complete); [|lia].
    by rewrite (full_leaves h l1), (full_leaves h l2).
Qed.

(* ------------------------------------------------------------------ *)
(** ** Properties *)

Lemma new_tree_complete ls : ls <> [] -> zlen ls <= 2 ^ 32 - 2 -> exists h root, new_tree ls = Some root /\ complete h root /\ leaves_of root = ls /\
  (length ls <= 2 ^ h)%nat /\ (h = 0%nat \/ (2 ^ (h - 1) < length ls)%nat) /\
  exists n, root = set_index 0 n /\ complete h n /\ leaves_of n = ls.
Proof.
  intros Hne Hn. destruct (build_tree_complete (length ls) ls Hne Hn) as (h & n & Hb & Hc & Hl & Hle & Hgt); [done|].
  exists h, (set_index 0 n). unfold new_tree. rewrite Hb. split; [done|]. split; [by apply complete_set_index|].
  rewrite leaves_set_index. repeat (split; [done|]). by exists n.
Qed.
(** A tree that was made had leaves, and not too many. *)
Lemma new_tree_some ls root : new_tree ls = Some root -> ls <> [] /\ zlen ls <= 2 ^ 32 - 2.
Proof.
  intros Hroot. split; [by intros ->|]. destruct (decide (zlen ls <= 2 ^ 32 - 2)) as [|Hn]; [done|].
  unfold new_tree in Hroot. by rewrite build_tree_never in Hroot by lia.
Qed.
Lemma height_bound (ls : list LeafData) h : zlen ls <= 2 ^ 32 - 2 -> (h = 0%nat \/ (2 ^ (h - 1) < length ls)%nat) -> (h <= 32)%nat.
Proof.
  intros Hn [->|Hgt]; [lia|]. destruct (decide (h <= 32)%nat) as [|Hgt']; [done|]. exfalso.
  assert (2 ^ 32 <= 2 ^ (h - 1))%nat as Hp by (apply Nat.pow_le_mono_r; lia).
  apply Nat2Z.inj_le in Hp. apply Nat2Z.inj_lt in Hgt. rewrite (Nat2Z.inj_pow 2 32) in Hp.
  change (Z.of_nat 2 ^ Z.of_nat 32) with (2 ^ 32) in Hp. unfold zlen in Hn. lia.
Qed.
Lemma height_unique (n h h' : nat) : (n <= 2 ^ h)%nat -> (h' = 0%nat \/ (2 ^ (h' - 1) < n)%nat) -> (h' <= h)%nat.
Proof.
  intros Hle [->|Hgt]; [lia|]. destruct (Nat.le_gt_cases h' h) as [|Hlt]; [done|].
  assert (2 ^ h <= 2 ^ (h' - 1))%nat by (apply Nat.pow_le_mono_r; lia). lia.
Qed.

(** C13: a tree built from leaf data is complete: its leaves are the data in order, all at the least depth that
    holds them, with leaves missing only at the end; the leaves are numbered one after another from
    [2^depth - 1] in the flattened scheme 2i+1, 2i+2; this for as many as 2^32-2 leaves, in no more turns of
    any loop than there are leaves.  Building from more leaves never ends, since the loops count with 32 bits; an
    empty vector gives no tree (the code reads the first of no nodes). *)
Theorem merkle_tree_complete (ls : list LeafData) : ls <> [] ->
  (zlen ls <= 2 ^ 32 - 2 ->
   exists h root, new_tree ls = Some root /\ complete h root /\ leaves_of root = ls /\
    (length ls <= 2 ^ h)%nat /\ (h = 0%nat \/ (2 ^ (h - 1) < length ls)%nat) /\
    leaf_indices root = zseq (2 ^ Z.of_nat h - 1) (length ls)) /\
  (2 ^ 32 - 2 < zlen ls -> forall fuel, build_tree fuel ls = None) /\
  new_tree [] = None.
Proof.
  intros Hne. split; [|split; [intros Hn fuel; by apply build_tree_never|done]]. intros Hlen.
  destruct (new_tree_complete ls Hne Hlen) as (h & root & Hb & Hc & Hl & Hle & Hgt & n & -> & Hcn & Hln).
  exists h, (set_index 0 n). repeat (split; [done|]).
  pose proof (height_bound ls h Hlen Hgt) as Hh.
  rewrite (complete_indices h), Hln by (done || lia ||
    (pose proof (Z.pow_le_mono_r 2 (Z.of_nat h) 32 ltac:(lia) ltac:(lia)); lia)).
  f_equal. lia.
Qed.

(** The breadth-first traversal of a tree ends, visits each of its nodes once, level by level from the root,
    and along each level the indices are one more each time from [2^level - 1]; as many turns as there are nodes
    are enough. *)
Theorem merkle_breadth_first (ls : list LeafData) (root : Node) (fuel : nat) :
  new_tree ls = Some root -> (node_count root <= fuel)%nat ->
  exists h visited, traverse_breadth_first fuel root = Some visited /\
    Permutation visited (traverse_preorder root) /\
    visited = flat_map (fun d => level d root) (seq 0 (S h)) /\
    forall d, (d <= h)%nat -> map index (level d root) = zseq (2 ^ Z.of_nat d - 1) (length (level d root)).
Proof.
  intros Hroot Hf. destruct (new_tree_some ls root Hroot) as [Hne Hlen].
  destruct (new_tree_complete ls Hne Hlen) as (h & root' & Hb & Hc & Hl & Hle & Hgt & n & Hn & Hcn & _).
  rewrite Hroot in Hb. injection Hb as <-.
  pose proof (height_bound ls h Hlen Hgt) as Hh.
  destruct (breadth_loop_visits fuel [root]) as (visited & Hv & Hp); [unfold total; cbn; lia|].
  exists h, visited. split; [done|]. split; [by rewrite Hp; cbn [flat_map]; rewrite app_nil_r|]. split.
  - rewrite (breadth_loop_levels h fuel [root] visited (complete_below h root Hc) Hv).
    apply flat_map_ext. intros d. rewrite below_level. cbn [flat_map]. by rewrite app_nil_r.
  - intros d Hd. rewrite Hn, (level_indices h), level_set_index by (done || lia ||
      (pose proof (Z.pow_le_mono_r 2 (Z.of_nat d) 32 ltac:(lia) ltac:(lia)); lia)).
    f_equal. lia.
Qed.

(** The hash of a tree commits to its leaves: for a branch function that combines the hashes of its children
    without collisions, trees of as many leaves with the same hash have leaves of the same hashes, in order. *)
Theorem merkle_binding {Hash} (leaf_hash : LeafData -> Hash) (combine : Hash -> Hash -> Hash) ls1 ls2 t1 t2 :
  (forall a b c d, combine a b = combine c d -> a = c /\ b = d) ->
  new_tree ls1 = Some t1 -> new_tree ls2 = Some t2 -> length ls1 = length ls2 ->
  let hash := fun t => get_hash leaf_hash (fun l r => combine (tree_hash leaf_hash combine l) (tree_hash leaf_hash combine r))
    (tree_hash leaf_hash combine) t in
  hash t1 = hash t2 -> map leaf_hash ls1 = map leaf_hash ls2.
Proof.
  intros Hinj H1 H2 Hlen hash Hh. unfold hash in Hh. rewrite <- !tree_hash_get in Hh.
  destruct (new_tree_some ls1 t1 H1) as [Hne1 Hn1]. destruct (new_tree_some ls2 t2 H2) as [Hne2 Hn2].
  destruct (new_tree_complete ls1 Hne1 Hn1) as (h1 & ? & E1 & Hc1 & Hl1 & Hle1 & Hgt1 & _). rewrite H1 in E1. injection E1 as <-.
  destruct (new_tree_complete ls2 Hne2 Hn2) as (h2 & ? & E2 & Hc2 & Hl2 & Hle2 & Hgt2 & _). rewrite H2 in E2. injection E2 as <-.
  rewrite Hlen in *. assert (h1 = h2) as -> by (pose proof (height_unique _ _ _ Hle1 Hgt2); pose proof (height_unique _ _ _ Hle2 Hgt1); lia).
  rewrite <- Hl1, <- Hl2. apply (hash_binds leaf_hash combine h2 Hinj); [done|done|congruence|done].
Qed.

End tree.
Arguments Node : clear implicits.

(** SHA-256 over the hashes of both children *)
Definition SHA256_hash_func (sha256 : bytes -> bytes) (left right : bytes) : bytes := sha256 (left ++ right).

(** A hash without collisions, for the witness: terms *)
Inductive term := T0 (z : Z) | T2 (a b : term).

Lemma merkle_tree_complete_witness : exists h root, new_tree [10; 20; 30; 40; 50] = Some root /\ leaves_of root = [10; 20; 30; 40; 50] /\
  leaf_indices root = zseq (2 ^ Z.of_nat h - 1) 5.
Proof.
  destruct (merkle_tree_complete [10; 20; 30; 40; 50] ltac:(discriminate)) as [H _].
  destruct H as (h & root & H1 & _ & H2 & _ & _ & H3); [by vm_compute|].
  exists h, root. repeat split; assumption.
Defined.
Definition sample_tree : Node Z := default (Leaf 0 0) (new_tree [10; 20; 30]).
Lemma merkle_breadth_first_witness : exists visited, traverse_breadth_first 6 sample_tree = Some visited /\
  Permutation visited (traverse_preorder sample_tree).
Proof.
  destruct (merkle_breadth_first [10; 20; 30] sample_tree 6) as (h & visited & H1 & H2 & _); [done|by vm_compute; lia|].
  by exists visited.
Defined.
Definition abs_hash (z : Z) : term := T0 (Z.abs z).
Lemma merkle_binding_witness : map abs_hash [1; 2; -3] = map abs_hash [1; -2; 3].
Proof.
  apply (merkle_binding abs_hash T2 [1; 2; -3] [1; -2; 3] (default (Leaf 0 0) (new_tree [1; 2; -3]))
    (default (Leaf 0 0) (new_tree [1; -2; 3]))); [|reflexivity..].
  intros a b c d [= -> ->]. done.
Defined.

End Merkle.
