(* ===== verification/Checksum.v ===== *)
(** * Checksums

    Models [CRC] ([src/libs/misc/crc.cc]) and [CRC32] ([src/libs/misc/crc32.cc]):
    the combination table, which both compute the same way at their width, and
    the checksum of bytes through it; and proves it equal to the division bit
    by bit. *)
From S2P Require Export Prelude.

Module Checksum.

Section width.
Context (w : Z).

(** A turn of the loop over the bits of a table entry *)
Definition table_step (reflected : bool) (poly crc : Z) : Z :=
  if reflected then
    if negb (Z.land crc 1 =? 0) then Z.lxor (Z.shiftr crc 1) poly else Z.shiftr crc 1
  else
    if negb (Z.land crc (Z.shiftl 1 (w - 1)) =? 0) then wrap w (Z.lxor (Z.shiftl crc 1) poly) else wrap w (Z.shiftl crc 1).
Definition table_entry (reflected : bool) (poly i : Z) : Z :=
  Nat.iter 8 (table_step reflected poly) (if reflected then i else wrap w (Z.shiftl i (w - 8))).
Definition combinations (reflected : bool) (poly : Z) : list Z := map (table_entry reflected poly) (zseq 0 256).

(** A byte through the table *)
Definition consume_byte (reflected : bool) (table : list Z) (crc byte : Z) : Z :=
  if reflected then Z.lxor (Z.shiftr crc 8) (zget 0 table (Z.lxor (Z.land crc 255) byte))
  else Z.lxor (Z.land (Z.shiftl crc 8) (2 ^ w - 1)) (zget 0 table (Z.lxor (Z.shiftr crc (w - 8)) byte)).
End width.

(** ** [CRC] *)
Module CRC.
Inductive Algorithm := ALGORITHM_CRC16 | ALGORITHM_CCITT | ALGORITHM_CCITT_ZERO | ALGORITHM_CCITT_MOD.

Definition CRC_CCITT : Z := Z.shiftl 1 12 + Z.shiftl 1 5 + 1.
Definition CRC_16 : Z := Z.shiftl 1 15 + Z.shiftl 1 2 + 1.
Definition CRC_CCITT_REV : Z := Z.shiftl 1 15 + Z.shiftl 1 10 + Z.shiftl 1 3.
Definition CRC_16_REV : Z := Z.shiftl 1 15 + Z.shiftl 1 13 + 1.

Definition poly (alg : Algorithm) (reflected : bool) : Z :=
  if reflected then match alg with ALGORITHM_CRC16 => CRC_16_REV | _ => CRC_CCITT_REV end
  else match alg with ALGORITHM_CRC16 => CRC_16 | _ => CRC_CCITT end.
Definition initial (alg : Algorithm) (reflected : bool) : Z :=
  match alg with
  | ALGORITHM_CCITT => 65535
  | ALGORITHM_CCITT_MOD => if reflected then 61624 else 7439
  | _ => 0
  end.
Definition calculate (alg : Algorithm) (reflected flip : bool) (data : bytes) : Z :=
  let table := combinations 16 reflected (poly alg reflected) in
  let crc := fold_left (consume_byte 16 reflected table) data (initial alg reflected) in
  if flip then Z.lxor crc 65535 else crc.
End CRC.

(** ** [CRC32] *)
Module CRC32.
Inductive Algorithm := ALGORITHM_CRC32 | ALGORITHM_CRC32C.

Definition sum_bits (l : list Z) : Z := fold_right (fun k s => Z.shiftl 1 k + s) 0 l.
Definition POLY_CRC32 : Z := sum_bits [26; 23; 22; 16; 12; 11; 10; 8; 7; 5; 4; 2; 1] + 1.
Definition POLY_CRC32C : Z := sum_bits [28; 27; 26; 25; 23; 22; 20; 19; 18; 14; 13; 11; 10; 9; 8; 6] + 1.
Definition POLY_CRC32_REV : Z := sum_bits [31; 30; 29; 27; 26; 24; 23; 21; 20; 19; 15; 9; 8; 5].
Definition POLY_CRC32C_REV : Z := sum_bits [31; 25; 23; 22; 21; 20; 18; 17; 13; 12; 11; 9; 8; 6; 5; 4; 3].

Definition poly (alg : Algorithm) (reflected : bool) : Z :=
  if reflected then match alg with ALGORITHM_CRC32C => POLY_CRC32C_REV | _ => POLY_CRC32_REV end
  else match alg with ALGORITHM_CRC32C => POLY_CRC32C | _ => POLY_CRC32 end.
Definition initialiser : Z := 4294967295.
Definition consume (alg : Algorithm) (reflected : bool) (data : bytes) (crc : Z) : Z :=
  fold_left (consume_byte 32 reflected (combinations 32 reflected (poly alg reflected))) data crc.
Definition finalise (flip : bool) (crc : Z) : Z := if flip then Z.lxor crc 4294967295 else crc.
Definition calculate (alg : Algorithm) (reflected flip : bool) (data : bytes) : Z :=
  finalise flip (consume alg reflected data initialiser).
End CRC32.

(* ------------------------------------------------------------------ *)
(** ** Division bit by bit

    A register of [w] bits that the message goes through, top bit first, or
    bottom bit first if reflected; the polynomial is subtracted whenever a bit
    falls out. *)

Definition shift_bit (w : Z) (reflected : bool) (poly crc : Z) : Z :=
  if reflected then Z.lxor (Z.shiftr crc 1) (if Z.testbit crc 0 then poly else 0)
  else Z.lxor (wrap w (2 * crc)) (if Z.testbit crc (w - 1) then poly else 0).
Definition shift_byte (w : Z) (reflected : bool) (poly crc byte : Z) : Z :=
  Nat.iter 8 (shift_bit w reflected poly) (Z.lxor crc (if reflected then byte else byte * 2 ^ (w - 8))).

Section proof.
Context (w : Z) (Hw : 8 < w) (poly : Z) (Hpoly : in_u w poly).

Lemma testbit_out x i : in_u w x -> w <= i -> Z.testbit x i = false.
Proof.
  intros Hx Hi. rewrite <- (Z.mod_small x (2 ^ w)) by done. apply Z.mod_pow2_bits_high. lia.
Qed.
Lemma in_u_bits x : (forall i, w <= i -> Z.testbit x i = false) -> 0 <= x -> in_u w x.
Proof.
  intros Hb Hx. assert (x = x mod 2 ^ w) as ->.
  { apply Z.bits_inj'. intros i Hi. destruct (decide (i < w)).
    - by rewrite Z.mod_pow2_bits_low.
    - rewrite Z.mod_pow2_bits_high, Hb by lia. done. }
  apply Z.mod_pos_bound. apply Z.pow_pos_nonneg; lia.
Qed.
Lemma wrap_bits x i : 0 <= i -> Z.testbit (wrap w x) i = (i <? w) && Z.testbit x i.
Proof.
  intros Hi. unfold wrap. destruct (Z.ltb_spec i w).
  - by rewrite Z.mod_pow2_bits_low.
  - rewrite Z.mod_pow2_bits_high by lia. done.
Qed.
Lemma shift_bits x i : 0 <= i -> Z.testbit (2 * x) i = (0 <? i) && Z.testbit x (i - 1).
Proof.
  intros Hi. destruct (Z.ltb_spec 0 i).
  - replace i with (Z.succ (i - 1)) at 1 by lia. rewrite Z.double_bits_succ. done.
  - replace i with 0 by lia. by rewrite Z.testbit_even_0.
Qed.

(** The table's step is the reference's. *)
Lemma bit_set x k : 0 <= k -> negb (Z.land x (Z.shiftl 1 k) =? 0) = Z.testbit x k.
Proof.
  intros Hk. rewrite Z.shiftl_1_l. destruct (Z.testbit x k) eqn:Hb.
  - apply negb_true_iff, Z.eqb_neq. intros H. apply (f_equal (fun z => Z.testbit z k)) in H.
    rewrite Z.land_spec, Z.pow2_bits_true, Hb, Z.testbit_0_l in H by done. done.
  - apply negb_false_iff, Z.eqb_eq. apply Z.bits_inj'. intros i Hi. rewrite Z.land_spec, Z.pow2_bits_eqb, Z.testbit_0_l by done.
    destruct (Z.eqb_spec k i) as [->|]; [by rewrite Hb|by rewrite andb_false_r].
Qed.
Lemma table_step_shift reflected x : in_u w x -> table_step w reflected poly x = shift_bit w reflected poly x.
Proof.
  intros Hx. unfold table_step, shift_bit. destruct reflected.
  - change 1 with (Z.shiftl 1 0) at 1. rewrite bit_set by lia. destruct (Z.testbit x 0); [done|by rewrite Z.lxor_0_r].
  - rewrite bit_set, Z.shiftl_mul_pow2, (Z.mul_comm x) by lia. change (2 ^ 1) with 2.
    destruct (Z.testbit x (w - 1)); [|by rewrite Z.lxor_0_r].
    apply Z.bits_inj'. intros i Hi. rewrite wrap_bits, !Z.lxor_spec, wrap_bits by done.
    destruct (Z.ltb_spec i w); [done|]. rewrite (testbit_out poly) by (done || lia). done.
Qed.

Lemma shift_bit_range reflected x : in_u w x -> in_u w (shift_bit w reflected poly x).
Proof.
  intros Hx. assert (in_u w (if reflected then Z.shiftr x 1 else wrap w (2 * x))) as Hs.
  { destruct reflected; [|apply Z.mod_pos_bound, Z.pow_pos_nonneg; lia].
    rewrite Z.shiftr_div_pow2 by lia. unfold in_u in *. split; [apply Z.div_pos; lia|]. apply Z.div_lt_upper_bound; lia. }
  assert (forall y, in_u w y -> in_u w (Z.lxor y poly)) as Hxor.
  { intros y Hy. apply in_u_bits.
    - intros i Hi. rewrite Z.lxor_spec, !testbit_out by done. done.
    - unfold in_u in *. apply Z.lxor_nonneg. lia. }
  unfold shift_bit. destruct reflected;
    [destruct (Z.testbit x 0)|destruct (Z.testbit x (w - 1))]; rewrite ?Z.lxor_0_r; auto.
Qed.

(** The step is linear over exclusive or. *)
Lemma shift_bit_linear reflected x y :
  shift_bit w reflected poly (Z.lxor x y) = Z.lxor (shift_bit w reflected poly x) (shift_bit w reflected poly y).
Proof.
  assert (forall a b c p q : bool, Bool.eqb (xorb (xorb a b) (if xorb p q then c else false))
    (xorb (xorb a (if p then c else false)) (xorb b (if q then c else false))) = true) as Hb by by intros [] [] [] [] [].
  assert (forall (b : bool) i, Z.testbit (if b then poly else 0) i = if b then Z.testbit poly i else false) as Hif
    by (intros [] i; [done|apply Z.testbit_0_l]).
  apply Z.bits_inj'. intros i Hi. unfold shift_bit. destruct reflected; rewrite !Z.lxor_spec, !Hif.
  - rewrite !Z.shiftr_spec, Z.lxor_spec by done. apply Bool.eqb_prop, Hb.
  - rewrite !wrap_bits, !shift_bits, Z.lxor_spec by done.
    rewrite <- (Bool.eqb_prop _ _ (Hb _ _ _ _ _)). f_equal. by destruct (i <? w), (0 <? i), (Z.testbit x (i - 1)), (Z.testbit y (i - 1)).
Qed.
Lemma iter_linear n reflected x y : Nat.iter n (shift_bit w reflected poly) (Z.lxor x y) =
  Z.lxor (Nat.iter n (shift_bit w reflected poly) x) (Nat.iter n (shift_bit w reflected poly) y).
Proof. induction n as [|n IH]; [done|]. rewrite !Nat.iter_succ. by rewrite IH, shift_bit_linear. Qed.
Lemma iter_range n reflected x : in_u w x -> in_u w (Nat.iter n (shift_bit w reflected poly) x).
Proof. intros Hx. induction n; [done|]. rewrite !Nat.iter_succ. by apply shift_bit_range. Qed.
Lemma iter_table n reflected x : in_u w x ->
  Nat.iter n (table_step w reflected poly) x = Nat.iter n (shift_bit w reflected poly) x.
Proof.
  intros Hx. induction n as [|n IH]; [done|]. rewrite !Nat.iter_succ. rewrite IH. by apply table_step_shift, iter_range.
Qed.

(** Bits that do not fall out only move. *)
Lemma iter_right n h : Nat.iter n (shift_bit w true poly) (h * 2 ^ Z.of_nat n) = h.
Proof.
  revert h. induction n as [|n IH]; intros h; [cbn; lia|]. rewrite Nat.iter_succ_r.
  assert (shift_bit w true poly (h * 2 ^ Z.of_nat (S n)) = h * 2 ^ Z.of_nat n) as ->; [|apply IH].
  unfold shift_bit. rewrite Nat2Z.inj_succ, Z.pow_succ_r by lia.
  replace (h * (2 * 2 ^ Z.of_nat n)) with (2 * (h * 2 ^ Z.of_nat n)) by lia. rewrite Z.testbit_even_0, Z.lxor_0_r.
  rewrite Z.shiftr_div_pow2 by lia. change (2 ^ 1) with 2. rewrite Z.mul_comm. apply Z.div_mul. lia.
Qed.
Lemma iter_left n x : 0 <= x < 2 ^ (w - Z.of_nat n) -> Z.of_nat n <= w ->
  Nat.iter n (shift_bit w false poly) x = x * 2 ^ Z.of_nat n.
Proof.
  revert x. induction n as [|n IH]; intros x Hx Hn; [cbn; lia|]. rewrite Nat.iter_succ_r. rewrite Nat2Z.inj_succ in *.
  assert (2 ^ (w - Z.of_nat n) = 2 * 2 ^ (w - Z.succ (Z.of_nat n))) as Hp.
  { rewrite <- Z.pow_succ_r by lia. f_equal. lia. }
  pose proof (Z.pow_le_mono_r 2 (w - Z.of_nat n) w ltac:(lia) ltac:(lia)).
  assert (shift_bit w false poly x = 2 * x) as ->.
  { unfold shift_bit. assert (Z.testbit x (w - 1) = false) as ->.
    { rewrite <- (Z.mod_small x (2 ^ (w - Z.succ (Z.of_nat n)))) by done. apply Z.mod_pow2_bits_high. lia. }
    rewrite Z.lxor_0_r. unfold wrap. apply Z.mod_small. lia. }
  rewrite IH, Z.pow_succ_r by lia. lia.
Qed.

Lemma nth_map_zseq (f : Z -> Z) n i : 0 <= i < Z.of_nat n -> zget 0 (map f (zseq 0 n)) i = f i.
Proof.
  intros Hi. unfold zget, zseq. rewrite map_map.
  rewrite (nth_indep _ 0 (f (0 + Z.of_nat 0))) by (rewrite length_map, length_seq; lia).
  rewrite (map_nth (fun k => f (0 + Z.of_nat k))), seq_nth by lia. f_equal. lia.
Qed.
Lemma table_lookup reflected i : 0 <= i < 256 -> zget 0 (combinations w reflected poly) i = table_entry w reflected poly i.
Proof. intros Hi. by apply (nth_map_zseq _ 256). Qed.
Lemma lxor_byte a b : byte_ok a -> byte_ok b -> 0 <= Z.lxor a b < 256.
Proof.
  unfold byte_ok. intros Ha Hb. split; [apply Z.lxor_nonneg; lia|].
  destruct (decide (Z.lxor a b = 0)) as [->|]; [lia|]. change 256 with (2 ^ 8). apply Z.log2_lt_pow2.
  - assert (0 <= Z.lxor a b) by (apply Z.lxor_nonneg; lia). lia.
  - eapply Z.le_lt_trans; [apply Z.log2_lxor; lia|]. apply Z.max_lub_lt.
    + destruct (decide (a = 0)) as [->|]; [done|]. apply Z.log2_lt_pow2; lia.
    + destruct (decide (b = 0)) as [->|]; [done|]. apply Z.log2_lt_pow2; lia.
Qed.

Lemma consume_byte_shift reflected crc byte : in_u w crc -> byte_ok byte ->
  consume_byte w reflected (combinations w reflected poly) crc byte = shift_byte w reflected poly crc byte.
Proof.
  intros Hc Hb. pose proof (Z.pow_pos_nonneg 2 (w - 8) ltac:(lia) ltac:(lia)) as Hpos.
  assert (2 ^ w = 256 * 2 ^ (w - 8)) as H2w by (change 256 with (2 ^ 8); rewrite <- Z.pow_add_r by lia; f_equal; lia).
  unfold consume_byte, shift_byte. unfold in_u in Hc. destruct reflected.
  - assert (byte_ok (Z.land crc 255)) as Hl.
    { change 255 with (Z.ones 8). rewrite Z.land_ones by lia. apply Z.mod_pos_bound. lia. }
    rewrite table_lookup by by apply lxor_byte. unfold table_entry.
    rewrite iter_table by (pose proof (lxor_byte _ _ Hl Hb); unfold in_u; lia).
    assert (Z.lxor crc byte = Z.lxor (Z.shiftr crc 8 * 2 ^ Z.of_nat 8) (Z.lxor (Z.land crc 255) byte)) as ->.
    { rewrite <- Z.lxor_assoc. f_equal. apply Z.bits_inj'. intros i Hi. change 255 with (Z.ones 8). change (Z.of_nat 8) with 8.
      rewrite Z.lxor_spec, Z.land_spec, Z.mul_pow2_bits by lia. destruct (Z.ltb_spec i 8).
      - rewrite Z.ones_spec_low, (Z.testbit_neg_r _ (i - 8)) by lia. by rewrite andb_true_r.
      - rewrite Z.ones_spec_high, Z.shiftr_spec by lia. rewrite andb_false_r, xorb_false_r. f_equal. lia. }
    rewrite (iter_linear 8 true (Z.shiftr crc 8 * 2 ^ Z.of_nat 8)), iter_right. done.
  - assert (byte_ok (Z.shiftr crc (w - 8))) as Hl.
    { rewrite Z.shiftr_div_pow2 by lia. split; [apply Z.div_pos; lia|]. apply Z.div_lt_upper_bound; lia. }
    pose proof (lxor_byte _ _ Hl Hb) as Hrange. rewrite table_lookup by done. unfold table_entry.
    assert (wrap w (Z.shiftl (Z.lxor (Z.shiftr crc (w - 8)) byte) (w - 8)) = Z.lxor (Z.shiftr crc (w - 8)) byte * 2 ^ (w - 8)) as ->.
    { rewrite Z.shiftl_mul_pow2 by lia. apply wrap_small. unfold in_u. nia. }
    rewrite iter_table by (unfold in_u; nia).
    assert (Z.lxor crc (byte * 2 ^ (w - 8)) =
      Z.lxor (crc mod 2 ^ (w - 8)) (Z.lxor (Z.shiftr crc (w - 8)) byte * 2 ^ (w - 8))) as ->.
    { apply Z.bits_inj'. intros i Hi. rewrite !Z.lxor_spec, !Z.mul_pow2_bits, Z.lxor_spec by lia. destruct (decide (i < w - 8)).
      - rewrite Z.mod_pow2_bits_low, !(Z.testbit_neg_r _ (i - (w - 8))) by lia. done.
      - rewrite Z.mod_pow2_bits_high, Z.shiftr_spec by lia. replace (i - (w - 8) + (w - 8)) with i by lia. done. }
    rewrite (iter_linear 8 false (crc mod 2 ^ (w - 8))). f_equal. rewrite iter_left.
    + change (Z.of_nat 8) with 8. change (2 ^ 8) with 256. change (2 ^ w - 1) with (Z.pred (2 ^ w)). rewrite <- Z.ones_equiv, Z.land_ones, Z.shiftl_mul_pow2 by lia.
      change (2 ^ 8) with 256. rewrite H2w, (Z.mul_comm crc), Z.mul_mod_distr_l by lia. lia.
    + change (Z.of_nat 8) with 8. apply Z.mod_pos_bound. done.
    + change (Z.of_nat 8) with 8. lia.
Qed.
Lemma shift_byte_range reflected crc byte : in_u w crc -> byte_ok byte -> in_u w (shift_byte w reflected poly crc byte).
Proof.
  intros Hc Hb. unfold shift_byte. apply iter_range. pose proof (Z.pow_pos_nonneg 2 (w - 8) ltac:(lia) ltac:(lia)) as Hpos.
  assert (2 ^ w = 256 * 2 ^ (w - 8)) as H2w by (change 256 with (2 ^ 8); rewrite <- Z.pow_add_r by lia; f_equal; lia).
  assert (in_u w (if reflected then byte else byte * 2 ^ (w - 8))) as Hx.
  { unfold byte_ok, in_u in *. destruct reflected; nia. }
  apply in_u_bits; [|unfold in_u in *; apply Z.lxor_nonneg; lia].
  intros i Hi. rewrite Z.lxor_spec, !testbit_out by done. done.
Qed.
Lemma consume_shift reflected data : forall crc, in_u w crc -> bytes_ok data ->
  fold_left (consume_byte w reflected (combinations w reflected poly)) data crc =
  fold_left (shift_byte w reflected poly) data crc.
Proof.
  induction data as [|b data IH]; intros crc Hc Hd; [done|]. inversion_clear Hd as [|? ? Hb Hd']. cbn [fold_left].
  rewrite consume_byte_shift by done. apply IH; [by apply shift_byte_range|done].
Qed.
End proof.

(* ------------------------------------------------------------------ *)
(** ** Properties *)

(** C14: the checksums computed through tables are those of the division bit by bit, for every algorithm, both bit
    orders and all bytes: [CRC::calculate] at 16 bits from its initial value, [CRC32::consume] at 32 bits from any
    value; and consuming data in parts is consuming it whole. *)
Theorem crc_equals_division (data : bytes) : bytes_ok data ->
  (forall alg reflected flip, CRC.calculate alg reflected flip data =
     Z.lxor (fold_left (shift_byte 16 reflected (CRC.poly alg reflected)) data (CRC.initial alg reflected))
            (if flip then 65535 else 0)) /\
  (forall alg reflected crc, in_u 32 crc -> CRC32.consume alg reflected data crc =
     fold_left (shift_byte 32 reflected (CRC32.poly alg reflected)) data crc) /\
  (forall alg reflected flip, CRC32.calculate alg reflected flip data =
     Z.lxor (fold_left (shift_byte 32 reflected (CRC32.poly alg reflected)) data 4294967295)
            (if flip then 4294967295 else 0)) /\
  (forall alg reflected more crc, CRC32.consume alg reflected (data ++ more) crc =
     CRC32.consume alg reflected more (CRC32.consume alg reflected data crc)).
Proof.
  intros Hd. assert (forall alg reflected, in_u 16 (CRC.poly alg reflected) /\ in_u 16 (CRC.initial alg reflected)) as H16.
  { intros [] []; by vm_compute. }
  assert (forall alg reflected, in_u 32 (CRC32.poly alg reflected)) as H32 by (intros [] []; by vm_compute).
  split; [|split; [|split]].
  - intros alg reflected flip. destruct (H16 alg reflected). unfold CRC.calculate. rewrite consume_shift by (done || lia).
    destruct flip; [done|by rewrite Z.lxor_0_r].
  - intros alg reflected crc Hc. unfold CRC32.consume. by rewrite consume_shift by (done || lia).
  - intros alg reflected flip. unfold CRC32.calculate, CRC32.consume, CRC32.finalise. rewrite consume_shift by (done || lia).
    destruct flip; [done|by rewrite Z.lxor_0_r].
  - intros alg reflected more crc. unfold CRC32.consume. apply fold_left_app.
Qed.
Lemma crc_equals_division_witness :
  CRC32.calculate CRC32.ALGORITHM_CRC32 true true (str "123456789") = 3421780262 /\
  Z.lxor (fold_left (shift_byte 32 true (CRC32.poly CRC32.ALGORITHM_CRC32 true)) (str "123456789") 4294967295) 4294967295 = 3421780262.
Proof.
  destruct (crc_equals_division (str "123456789")) as (_ & _ & H & _); [by repeat constructor|].
  specialize (H CRC32.ALGORITHM_CRC32 true true). split; [by vm_compute|]. rewrite <- H. by vm_compute.
Defined.

(** The check values of the usual variants *)
Example crc16_arc : CRC.calculate CRC.ALGORITHM_CRC16 true false (str "123456789") = 47933.
Proof. by vm_compute. Qed.
Example crc_ccitt_false : CRC.calculate CRC.ALGORITHM_CCITT false false (str "123456789") = 10673.
Proof. by vm_compute. Qed.
Example crc_x25 : CRC.calculate CRC.ALGORITHM_CCITT true true (str "123456789") = 36974.
Proof. by vm_compute. Qed.
Example crc32c_check : CRC32.calculate CRC32.ALGORITHM_CRC32C true true (str "123456789") = 3808858755.
Proof. by vm_compute. Qed.

End Checksum.
