(* ===== verification/Md5.v ===== *)
(** * MD5

    Models [src/libs/misc/md5.cc] on a little-endian machine, where
    [byte_reverse] does nothing: the state with its buffer and bit count, the
    transform of a block, and the sums; and proves that messages in parts of
    any length have the digest of RFC 1321. *)
From S2P Require Export Prelude Convert Base64.

Module Md5.

(** ** The transform *)

Definition not32 (x : Z) : Z := Z.lxor x 0xffffffff.
Definition F1 (x y z : Z) : Z := Z.lxor z (Z.land x (Z.lxor y z)).
Definition F2 (x y z : Z) : Z := F1 z x y.
Definition F3 (x y z : Z) : Z := Z.lxor (Z.lxor x y) z.
Definition F4 (x y z : Z) : Z := Z.lxor y (Z.lor x (not32 z)).

Definition MD5STEP (f : Z -> Z -> Z -> Z) (w x y z data s : Z) : Z :=
  let w := u32 (w + u32 (f x y z + data)) in
  let w := Z.lor (u32 (Z.shiftl w s)) (Z.shiftr w (32 - s)) in
  u32 (w + x).

(** The function, the word, the constant and the rotation of each step *)
Definition steps : list ((Z -> Z -> Z -> Z) * Z * Z * Z) :=
  [(F1, 0, 0xd76aa478, 7); (F1, 1, 0xe8c7b756, 12); (F1, 2, 0x242070db, 17); (F1, 3, 0xc1bdceee, 22);
   (F1, 4, 0xf57c0faf, 7); (F1, 5, 0x4787c62a, 12); (F1, 6, 0xa8304613, 17); (F1, 7, 0xfd469501, 22);
   (F1, 8, 0x698098d8, 7); (F1, 9, 0x8b44f7af, 12); (F1, 10, 0xffff5bb1, 17); (F1, 11, 0x895cd7be, 22);
   (F1, 12, 0x6b901122, 7); (F1, 13, 0xfd987193, 12); (F1, 14, 0xa679438e, 17); (F1, 15, 0x49b40821, 22);
   (F2, 1, 0xf61e2562, 5); (F2, 6, 0xc040b340, 9); (F2, 11, 0x265e5a51, 14); (F2, 0, 0xe9b6c7aa, 20);
   (F2, 5, 0xd62f105d, 5); (F2, 10, 0x02441453, 9); (F2, 15, 0xd8a1e681, 14); (F2, 4, 0xe7d3fbc8, 20);
   (F2, 9, 0x21e1cde6, 5); (F2, 14, 0xc33707d6, 9); (F2, 3, 0xf4d50d87, 14); (F2, 8, 0x455a14ed, 20);
   (F2, 13, 0xa9e3e905, 5); (F2, 2, 0xfcefa3f8, 9); (F2, 7, 0x676f02d9, 14); (F2, 12, 0x8d2a4c8a, 20);
   (F3, 5, 0xfffa3942, 4); (F3, 8, 0x8771f681, 11); (F3, 11, 0x6d9d6122, 16); (F3, 14, 0xfde5380c, 23);
   (F3, 1, 0xa4beea44, 4); (F3, 4, 0x4bdecfa9, 11); (F3, 7, 0xf6bb4b60, 16); (F3, 10, 0xbebfbc70, 23);
   (F3, 13, 0x289b7ec6, 4); (F3, 0, 0xeaa127fa, 11); (F3, 3, 0xd4ef3085, 16); (F3, 6, 0x04881d05, 23);
   (F3, 9, 0xd9d4d039, 4); (F3, 12, 0xe6db99e5, 11); (F3, 15, 0x1fa27cf8, 16); (F3, 2, 0xc4ac5665, 23);
   (F4, 0, 0xf4292244, 6); (F4, 7, 0x432aff97, 10); (F4, 14, 0xab9423a7, 15); (F4, 5, 0xfc93a039, 21);
   (F4, 12, 0x655b59c3, 6); (F4, 3, 0x8f0ccc92, 10); (F4, 10, 0xffeff47d, 15); (F4, 1, 0x85845dd1, 21);
   (F4, 8, 0x6fa87e4f, 6); (F4, 15, 0xfe2ce6e0, 10); (F4, 6, 0xa3014314, 15); (F4, 13, 0x4e0811a1, 21);
   (F4, 4, 0xf7537e82, 6); (F4, 11, 0xbd3af235, 10); (F4, 2, 0x2ad7d2bb, 15); (F4, 9, 0xeb86d391, 21)].

Abbreviation words := (Z * Z * Z * Z)%type.
(** The roles of [a], [b], [c] and [d] go round. *)
Definition step (in_ : list Z) (r : words) (s : (Z -> Z -> Z -> Z) * Z * Z * Z) : words :=
  let '(w, x, y, z) := r in
  let '(f, i, k, s) := s in
  (z, MD5STEP f w x y z (u32 (zget 0 in_ i + k)) s, x, y).

(** Four bytes, or a block of them, as the machine reads and writes them *)
Definition word_of (l : bytes) : Z := zget 0 l 0 + zget 0 l 1 * 2 ^ 8 + zget 0 l 2 * 2 ^ 16 + zget 0 l 3 * 2 ^ 24.
Definition bytes_of (v : Z) : bytes := [v mod 2 ^ 8; v / 2 ^ 8 mod 2 ^ 8; v / 2 ^ 16 mod 2 ^ 8; v / 2 ^ 24 mod 2 ^ 8].
Definition words_of (block : bytes) : list Z := map (fun i => word_of (zdrop (4 * i) block)) (zseq 0 16).

Definition transform (buf : words) (block : bytes) : words :=
  let '(a, b, c, d) := fold_left (step (words_of block)) steps buf in
  let '(a0, b0, c0, d0) := buf in (u32 (a0 + a), u32 (b0 + b), u32 (c0 + c), u32 (d0 + d)).

(** ** The state *)

Record MD5 := mk_MD5 { ctx_buf : words; ctx_bits : Z * Z; ctx_in : bytes }.

Definition initial_buf : words := (0x67452301, 0xefcdab89, 0x98badcfe, 0x10325476).
Definition initialise (s : MD5) : MD5 := mk_MD5 initial_buf (0, 0) (ctx_in s).

(** [memcpy(ctx_in + p, d)] *)
Definition put_at (p : Z) (d l : bytes) : bytes := ztake p l ++ d ++ zdrop (p + zlen d) l.

(** The loop over whole blocks of [data]: the buffer, [ctx_in] and the rest *)
Fixpoint update_loop (n : nat) (buf : words) (in_ data : bytes) : words * bytes * bytes :=
  match n with
  | O => (buf, in_, data)
  | S n =>
    if 64 <=? zlen data then
      let in_ := ztake 64 data in update_loop n (transform buf in_) in_ (zdrop 64 data)
    else (buf, in_, data)
  end.
Definition update_blocks (bits : Z * Z) (buf : words) (in_ data : bytes) : MD5 :=
  let '(buf, in_, data) := update_loop (length data) buf in_ data in mk_MD5 buf bits (put_at 0 data in_).

Definition update (data : bytes) (s : MD5) : MD5 :=
  let len := zlen data in
  let '(b0, b1) := ctx_bits s in
  let n0 := u32 (b0 + u32 (Z.shiftl len 3)) in
  let b1 := if n0 <? b0 then u32 (b1 + 1) else b1 in
  let bits := (n0, u32 (b1 + Z.shiftr len 29)) in
  let t := Z.land (Z.shiftr b0 3) 0x3f in
  if t =? 0 then update_blocks bits (ctx_buf s) (ctx_in s) data
  else
    let room := 64 - t in
    if len <? room then mk_MD5 (ctx_buf s) bits (put_at t data (ctx_in s))
    else
      let in_ := put_at t (ztake room data) (ctx_in s) in
      update_blocks bits (transform (ctx_buf s) in_) in_ (zdrop room data).

(** The digest, and the state left *)
Definition finalise (s : MD5) : bytes * MD5 :=
  let '(b0, b1) := ctx_bits s in
  let count := Z.land (Z.shiftr b0 3) 0x3f in
  let in_ := put_at count [0x80] (ctx_in s) in
  let p := count + 1 in
  let count := 64 - 1 - count in
  let '(buf, in_) :=
    if count <? 8 then
      let in_ := put_at p (replicate (Z.to_nat count) 0) in_ in
      (transform (ctx_buf s) in_, put_at 0 (replicate 56 0) in_)
    else (ctx_buf s, put_at p (replicate (Z.to_nat (count - 8)) 0) in_) in
  let in_ := put_at 56 (bytes_of b0 ++ bytes_of b1) in_ in
  let buf := transform buf in_ in
  let '(a, b, c, d) := buf in
  (bytes_of a ++ bytes_of b ++ bytes_of c ++ bytes_of d, mk_MD5 buf (b0, b1) in_).

(** ** Sums *)

(** 64 bytes of the text at a time, then the rest *)
Fixpoint sum_loop (n : nat) (text : bytes) (s : MD5) : MD5 :=
  match n with
  | O => s
  | S n =>
    if 64 <=? zlen text then sum_loop n (zdrop 64 text) (update (ztake 64 text) s)
    else if 0 <? zlen text then update text s else s
  end.
Definition sum (text : bytes) (s : MD5) : bytes * MD5 := finalise (sum_loop (S (length text)) text (initialise s)).
Definition sum_hex (text : bytes) (s : MD5) : bytes := Convert.btox (fst (sum text s)).
Definition sum_base64 (text : bytes) (s : MD5) : bytes :=
  Base64.encode Base64.base64_default (fst (sum text s)) 0 (str "").
Definition hash_to_int (text : bytes) (s : MD5) : Z :=
  let digest := fst (sum text s) in
  fold_left (fun hash i => Z.lor (u64 (Z.shiftl hash 8)) (Z.lxor (zget 0 digest i) (zget 0 digest (8 + i)))) (zseq 0 8) 0.

(* ------------------------------------------------------------------ *)
(** ** The digest of RFC 1321 *)

Fixpoint fold_blocks (n : nat) (buf : words) (data : bytes) : words :=
  match n with O => buf | S n => fold_blocks n (transform buf (ztake 64 data)) (zdrop 64 data) end.

(** A one bit, zeros up to 56 modulo 64 bytes, and the length in bits *)
Definition length_bits (n : Z) : Z * Z := (8 * n mod 2 ^ 32, 8 * n / 2 ^ 32 mod 2 ^ 32).
Definition pad (msg : bytes) : bytes :=
  msg ++ [0x80] ++ replicate (Z.to_nat ((55 - zlen msg) mod 64)) 0 ++
  bytes_of (fst (length_bits (zlen msg))) ++ bytes_of (snd (length_bits (zlen msg))).
Definition digest_of (buf : words) : bytes :=
  let '(a, b, c, d) := buf in bytes_of a ++ bytes_of b ++ bytes_of c ++ bytes_of d.
Definition rfc1321 (msg : bytes) : bytes :=
  digest_of (fold_blocks (Z.to_nat (zlen (pad msg) / 64)) initial_buf (pad msg)).

(* ------------------------------------------------------------------ *)
(** ** Lemmas *)

Lemma fold_blocks_app k : forall j buf m d, zlen m = 64 * Z.of_nat k ->
  fold_blocks (k + j) buf (m ++ d) = fold_blocks j (fold_blocks k buf m) d.
Proof.
  induction k as [|k IH]; intros j buf m d Hm; cbn [Nat.add fold_blocks].
  - destruct m; [done|]. unfold zlen in Hm. cbn in Hm. lia.
  - assert (64 <= zlen m) by lia. unfold ztake, zdrop, zlen in *. rewrite take_app_le, drop_app_le by lia. apply IH.
    rewrite length_drop. lia.
Qed.
Lemma fold_blocks_one buf block : zlen block = 64 -> fold_blocks 1 buf block = transform buf block.
Proof. intros Hb. cbn [fold_blocks]. f_equal. unfold ztake, zlen in *. apply take_ge. lia. Qed.
Lemma fold_blocks_snoc k buf m block : zlen m = 64 * Z.of_nat k -> zlen block = 64 ->
  fold_blocks (S k) buf (m ++ block) = transform (fold_blocks k buf m) block.
Proof.
  intros Hm Hb. replace (S k) with (k + 1)%nat by lia. rewrite fold_blocks_app by done. by apply fold_blocks_one.
Qed.

Lemma put_at_head d (l : bytes) : put_at 0 d l = d ++ zdrop (zlen d) l.
Proof. done. Qed.
Lemma put_at_tail t d (junk : bytes) : put_at (zlen t) d (t ++ junk) = (t ++ d) ++ zdrop (zlen d) junk.
Proof.
  unfold put_at, ztake, zdrop, zlen. rewrite take_app_length' by lia. rewrite <- app_assoc. do 2 f_equal.
  rewrite Nat2Z.id. replace (Z.to_nat (Z.of_nat (length t) + Z.of_nat (length d))) with (length t + length d)%nat by lia.
  by rewrite drop_app_add.
Qed.
Lemma zdrop_all (l : bytes) n : zlen l <= n -> zdrop n l = [].
Proof. intros H. unfold zdrop, zlen in *. apply drop_ge. lia. Qed.

(** What the state stands for: whole blocks transformed, and the rest in [ctx_in] *)
Definition represents (s : MD5) (msg : bytes) : Prop :=
  exists k m rest junk, msg = m ++ rest /\ zlen m = 64 * Z.of_nat k /\ zlen rest < 64 /\
    ctx_buf s = fold_blocks k initial_buf m /\ ctx_in s = rest ++ junk /\ zlen (ctx_in s) = 64 /\
    ctx_bits s = length_bits (zlen msg).

Lemma update_loop_spec n : forall buf in_ data, (length data <= n)%nat -> zlen in_ = 64 ->
  exists k m rest in', data = m ++ rest /\ zlen m = 64 * Z.of_nat k /\ zlen rest < 64 /\ zlen in' = 64 /\
    update_loop n buf in_ data = (fold_blocks k buf m, in', rest).
Proof.
  induction n as [|n IH]; intros buf in_ data Hn Hin; cbn [update_loop].
  - exists 0%nat, [], data, in_. destruct data; [done|cbn in Hn; lia].
  - destruct (Z.leb_spec 64 (zlen data)) as [Hle|Hlt]; [|by exists 0%nat, [], data, in_].
    assert (zlen (ztake 64 data) = 64) as H64 by (unfold zlen, ztake in *; rewrite length_take; lia).
    destruct (IH (transform buf (ztake 64 data)) (ztake 64 data) (zdrop 64 data)) as (k & m & rest & in' & Hd & Hm & Hr & Hin' & ->).
    { unfold zdrop, zlen in *. rewrite length_drop. lia. }
    { done. }
    exists (S k), (ztake 64 data ++ m), rest, in'.
    split; [rewrite <- app_assoc, <- Hd; unfold ztake, zdrop; by rewrite take_drop|].
    split; [unfold zlen in *; rewrite length_app; lia|]. split; [done|]. split; [done|]. do 2 f_equal.
    change (S k) with (1 + k)%nat. rewrite fold_blocks_app by (rewrite H64; lia). by rewrite fold_blocks_one.
Qed.
Lemma update_blocks_represents k m buf bits in_ data msg : msg = m ++ data -> zlen m = 64 * Z.of_nat k ->
  buf = fold_blocks k initial_buf m -> zlen in_ = 64 -> bits = length_bits (zlen msg) ->
  represents (update_blocks bits buf in_ data) msg.
Proof.
  intros -> Hm -> Hin ->. unfold update_blocks.
  destruct (update_loop_spec (length data) (fold_blocks k initial_buf m) in_ data ltac:(lia) Hin)
    as (j & d & rest & in' & -> & Hd & Hr & Hin' & ->).
  exists (k + j)%nat, (m ++ d), rest, (zdrop (zlen rest) in'). cbn [ctx_buf ctx_in ctx_bits]. rewrite put_at_head.
  split; [by rewrite app_assoc|]. split; [unfold zlen in *; rewrite length_app; lia|]. split; [done|].
  split; [by rewrite fold_blocks_app|]. split; [done|]. split; [|done].
  unfold zlen, zdrop in *. rewrite length_app, length_drop. lia.
Qed.

Lemma length_bits_add a b : 0 <= a -> 0 <= b < 2 ^ 32 ->
  (let n0 := u32 (fst (length_bits a) + u32 (Z.shiftl b 3)) in
   (n0, u32 ((if n0 <? fst (length_bits a) then u32 (snd (length_bits a) + 1) else snd (length_bits a)) + Z.shiftr b 29))) =
  length_bits (a + b).
Proof.
  intros Ha Hb. unfold length_bits. cbn [fst snd]. rewrite Z.shiftl_mul_pow2, Z.shiftr_div_pow2 by lia.
  change (2 ^ 3) with 8. assert (b / 2 ^ 29 = 8 * b / 2 ^ 32) as ->.
  { change (2 ^ 32) with (8 * 2 ^ 29). by rewrite Z.div_mul_cancel_l by lia. }
  rewrite (Z.mul_comm b). replace (8 * (a + b)) with (8 * a + 8 * b) by lia.
  set (x := 8 * a). set (y := 8 * b). set (M := 2 ^ 32). unfold wrap. fold M.
  assert (0 < M) by (by unfold M). pose proof (Z.mod_pos_bound x M ltac:(done)) as Hx. pose proof (Z.mod_pos_bound y M ltac:(done)) as Hy.
  assert ((x mod M + y mod M) mod M = (x + y) mod M) as E by (by rewrite <- Z.add_mod by lia).
  cbv zeta. rewrite E. f_equal.
  assert ((x + y) / M = x / M + y / M + (if (x + y) mod M <? x mod M then 1 else 0)) as ->.
  { rewrite <- E. pose proof (Z.div_mod x M ltac:(lia)). pose proof (Z.div_mod y M ltac:(lia)).
    destruct (Z.lt_ge_cases (x mod M + y mod M) M) as [Hlt|Hge].
    - rewrite Z.mod_small by lia. rewrite (proj2 (Z.ltb_ge _ _)) by lia.
      symmetry. apply (Z.div_unique _ _ _ (x mod M + y mod M)); lia.
    - assert ((x mod M + y mod M) mod M = x mod M + y mod M - M) as -> by (symmetry; apply (Z.mod_unique _ _ 1); lia).
      rewrite (proj2 (Z.ltb_lt _ _)) by lia. symmetry. apply (Z.div_unique _ _ _ (x mod M + y mod M - M)); lia. }
  destruct ((x + y) mod M <? x mod M).
  - rewrite Z.add_mod_idemp_l, <- Z.add_assoc, Z.add_mod_idemp_l by lia. f_equal. lia.
  - rewrite Z.add_mod_idemp_l by lia. f_equal. lia.
Qed.
Lemma bytes_mod n : 0 <= n -> Z.land (Z.shiftr (fst (length_bits n)) 3) 0x3f = n mod 64.
Proof.
  intros Hn. unfold length_bits. cbn [fst]. rewrite Z.shiftr_div_pow2 by lia. change 0x3f with (Z.ones 6). rewrite Z.land_ones by lia.
  change (2 ^ 3) with 8. change (2 ^ 6) with 64. change (2 ^ 32) with (8 * 2 ^ 29). rewrite Z.mul_mod_distr_l by lia.
  rewrite Z.mul_comm, Z.div_mul by lia. change (2 ^ 29) with (64 * 2 ^ 23). rewrite Z.rem_mul_r by lia.
  rewrite Z.mul_comm, Z.mod_add, Z.mod_mod by lia. done.
Qed.

Lemma update_represents s msg data : represents s msg -> zlen data < 2 ^ 32 -> represents (update data s) (msg ++ data).
Proof.
  intros (k & m & rest & junk & -> & Hm & Hr & Hbuf & Hin & H64 & Hbits) Hd. unfold update. rewrite Hbits.
  assert (0 <= zlen data) by (unfold zlen; lia). assert (0 <= zlen rest) by (unfold zlen; lia).
  assert (zlen (m ++ rest) = 64 * Z.of_nat k + zlen rest) as Hlen by (unfold zlen in *; rewrite length_app; lia).
  assert (zlen ((m ++ rest) ++ data) = zlen (m ++ rest) + zlen data) as Hlen' by (unfold zlen; rewrite (length_app (m ++ rest)); lia).
  pose proof (length_bits_add (zlen (m ++ rest)) (zlen data) ltac:(lia) ltac:(lia)) as Hadd. cbv zeta in Hadd.
  pose proof (bytes_mod (zlen (m ++ rest)) ltac:(lia)) as Ht. destruct (length_bits (zlen (m ++ rest))) as [b0 b1]. cbn [fst snd] in *.
  rewrite <- Hlen' in Hadd. rewrite Hlen, Z.add_comm, Z.mul_comm, Z.mod_add, Z.mod_small in Ht by lia.
  rewrite Hadd, Ht. clear Hadd Ht.
  assert (zlen junk = 64 - zlen rest) as Hjunk by (rewrite Hin in H64; unfold zlen in *; rewrite length_app in H64; lia).
  destruct (Z.eqb_spec (zlen rest) 0) as [Hz|Hz].
  - destruct rest; [|unfold zlen in Hz; cbn in Hz; lia]. rewrite app_nil_r in *.
    eapply (update_blocks_represents k m); [done|done|done|done|done].
  - destruct (Z.ltb_spec (zlen data) (64 - zlen rest)) as [Hlt|Hge].
    + exists k, m, (rest ++ data), (zdrop (zlen data) junk). cbn [ctx_buf ctx_in ctx_bits].
      rewrite Hin, put_at_tail. split; [by rewrite app_assoc|]. split; [done|].
      split; [unfold zlen in *; rewrite length_app; lia|]. split; [done|]. split; [done|]. split; [|done].
      unfold zlen, zdrop in *. rewrite !length_app, length_drop. lia.
    + set (d := ztake (64 - zlen rest) data).
      assert (zlen d = 64 - zlen rest) as Hdlen by (unfold d, zlen, ztake in *; rewrite length_take; lia).
      assert (put_at (zlen rest) d (ctx_in s) = rest ++ d) as ->.
      { rewrite Hin, put_at_tail, zdrop_all by lia. by rewrite app_nil_r. }
      assert (zlen (rest ++ d) = 64) as H64' by (unfold zlen in *; rewrite length_app; lia).
      apply (update_blocks_represents (S k) (m ++ rest ++ d)); [|unfold zlen in *; rewrite length_app; lia| |done|done].
      * rewrite <- !app_assoc. do 2 f_equal. unfold d, ztake, zdrop. by rewrite take_drop.
      * by rewrite fold_blocks_snoc, Hbuf.
Qed.

Lemma finalise_represents s msg : represents s msg -> fst (finalise s) = rfc1321 msg.
Proof.
  intros (k & m & rest & junk & -> & Hm & Hr & Hbuf & Hin & H64 & Hbits). unfold finalise. rewrite Hbits.
  assert (0 <= zlen rest) by (unfold zlen; lia).
  assert (zlen (m ++ rest) = 64 * Z.of_nat k + zlen rest) as Hlen by (unfold zlen in *; rewrite length_app; lia).
  pose proof (bytes_mod (zlen (m ++ rest)) ltac:(lia)) as Ht.
  assert (forall msg, msg = m ++ rest -> pad msg = m ++ rest ++ [0x80] ++ replicate (Z.to_nat ((55 - zlen rest) mod 64)) 0 ++
    bytes_of (fst (length_bits (zlen msg))) ++ bytes_of (snd (length_bits (zlen msg)))) as Hpad.
  { intros ? ->. unfold pad. rewrite <- app_assoc. do 4 f_equal. rewrite Hlen. do 2 f_equal.
    replace (55 - (64 * Z.of_nat k + zlen rest)) with (55 - zlen rest + (- Z.of_nat k) * 64) by lia. by rewrite Z.mod_add. }
  specialize (Hpad _ eq_refl). unfold rfc1321. rewrite Hpad. clear Hpad.
  destruct (length_bits (zlen (m ++ rest))) as [b0 b1]. cbn [fst snd] in *.
  rewrite Hlen, Z.add_comm, Z.mul_comm, Z.mod_add, Z.mod_small in Ht by lia. rewrite Ht.
  assert (zlen junk = 64 - zlen rest) as Hjunk by (rewrite Hin in H64; unfold zlen in *; rewrite length_app in H64; lia).
  set (len := bytes_of b0 ++ bytes_of b1). assert (zlen len = 8) as Hl8 by done.
  rewrite Hin, put_at_tail. change (zlen [0x80]) with 1.
  assert (zlen (rest ++ [0x80]) = zlen rest + 1) as Hr1 by (unfold zlen; rewrite length_app; cbn; lia).
  assert (zlen (zdrop 1 junk) = 63 - zlen rest) as Hjunk1 by (unfold zlen, zdrop in *; rewrite length_drop; lia).
  assert (forall n, 0 <= n -> zlen (replicate (Z.to_nat n) 0) = n) as Hrep by (intros n Hn; unfold zlen; rewrite length_replicate; lia).
  destruct (Z.ltb_spec (64 - 1 - zlen rest) 8) as [Hlt|Hge].
  - rewrite <- Hr1, put_at_tail, Hrep, zdrop_all, app_nil_r by lia.
    set (block := (rest ++ [0x80]) ++ replicate (Z.to_nat (64 - 1 - zlen rest)) 0).
    assert (zlen block = 64) as Hb by (pose proof (Hrep (64 - 1 - zlen rest)); unfold block, zlen in *; rewrite length_app; lia).
    rewrite put_at_head. change (zlen (replicate 56 0)) with 56. rewrite <- (Hrep 56) by lia. change (Z.to_nat 56) with 56%nat.
    rewrite put_at_tail, zdrop_all, app_nil_r.
    2: { rewrite Hl8. change (zlen (replicate 56 0)) with 56. unfold zlen, zdrop in *. rewrite length_drop. lia. }
    assert (zlen (replicate 56 0 ++ len) = 64) as Hb2 by done.
    assert (rest ++ [0x80] ++ replicate (Z.to_nat ((55 - zlen rest) mod 64)) 0 ++ len = block ++ replicate 56 0 ++ len) as ->.
    { assert ((55 - zlen rest) mod 64 = (64 - 1 - zlen rest) + 56) as -> by (symmetry; apply (Z.mod_unique _ _ (-1)); lia).
      rewrite Z2Nat.inj_add, replicate_add by lia. unfold block. change (Z.to_nat 56) with 56%nat. by rewrite <- !app_assoc. }
    assert (zlen (m ++ block ++ replicate 56 0 ++ len) / 64 = Z.of_nat (S (S k))) as ->.
    { rewrite zlen_app, (zlen_app block), Hm, Hb, Hb2. symmetry. apply (Z.div_unique _ _ _ 0); lia. }
    rewrite Nat2Z.id, app_assoc, !fold_blocks_snoc by (done || (unfold zlen in *; rewrite ?length_app; lia)).
    rewrite Hbuf. unfold digest_of. by destruct (transform _ (replicate 56 0 ++ len)) as [[[a b] c] d].
  - rewrite <- Hr1, put_at_tail, Hrep by lia.
    set (t := (rest ++ [0x80]) ++ replicate (Z.to_nat (64 - 1 - zlen rest - 8)) 0).
    assert (zlen t = 56) as Ht56 by (pose proof (Hrep (64 - 1 - zlen rest - 8)); unfold t, zlen in *; rewrite length_app; lia).
    rewrite <- Ht56, put_at_tail, zdrop_all, app_nil_r by (rewrite Hl8; unfold zlen, zdrop in *; rewrite length_drop; lia).
    assert (zlen (t ++ len) = 64) as Hb by (unfold zlen in *; rewrite length_app; lia).
    assert (rest ++ [0x80] ++ replicate (Z.to_nat ((55 - zlen rest) mod 64)) 0 ++ len = t ++ len) as ->.
    { rewrite Z.mod_small by lia. unfold t. rewrite <- !app_assoc. do 4 f_equal. f_equal. lia. }
    assert (zlen (m ++ t ++ len) / 64 = Z.of_nat (S k)) as ->.
    { rewrite zlen_app, Hm, Hb. symmetry. apply (Z.div_unique _ _ _ 0); lia. }
    rewrite Nat2Z.id, fold_blocks_snoc, Hbuf by done. unfold digest_of. by destruct (transform _ (t ++ len)) as [[[a b] c] d].
Qed.

Lemma initialise_represents s : zlen (ctx_in s) = 64 -> represents (initialise s) [].
Proof. intros H. by exists 0%nat, [], [], (ctx_in s). Qed.
Lemma updates_represent chunks : forall s msg, represents s msg -> Forall (fun c => zlen c < 2 ^ 32) chunks ->
  represents (fold_left (fun s c => update c s) chunks s) (msg ++ concat chunks).
Proof.
  induction chunks as [|c chunks IH]; intros s msg Hs Hc; cbn [fold_left concat]; [by rewrite app_nil_r|].
  inversion_clear Hc. rewrite app_assoc. apply IH; [by apply update_represents|done].
Qed.
Lemma sum_loop_represents n : forall s msg text, (length text < n)%nat -> represents s msg ->
  represents (sum_loop n text s) (msg ++ text).
Proof.
  induction n as [|n IH]; intros s msg text Hn Hs; [lia|]. cbn [sum_loop].
  destruct (Z.leb_spec 64 (zlen text)) as [Hle|Hlt].
  - assert (text = ztake 64 text ++ zdrop 64 text) as E by (unfold ztake, zdrop; by rewrite take_drop).
    rewrite E at 3. rewrite app_assoc. apply IH.
    + unfold zdrop, zlen in *. rewrite length_drop. lia.
    + apply update_represents; [done|]. unfold ztake, zlen. rewrite length_take. lia.
  - destruct (Z.ltb_spec 0 (zlen text)); [apply update_represents; [done|lia]|].
    destruct text; [by rewrite app_nil_r|unfold zlen in *; cbn in *; lia].
Qed.

(* ------------------------------------------------------------------ *)
(** ** Properties *)

(** C15: MD5 has the digest of RFC 1321 however the message comes: after [initialise], the digest after [update]
    calls with any parts of less than 2^32 bytes, empty ones and ones that cross or fill a block included, is that
    of the whole message, padded and transformed block by block, whatever was in [ctx_in] and also when the bit
    count carries into its second word; and so is that of [sum], which splits the message itself. *)
Theorem md5_digest (s : MD5) (chunks : list bytes) :
  zlen (ctx_in s) = 64 -> Forall (fun c => zlen c < 2 ^ 32) chunks ->
  fst (finalise (fold_left (fun s c => update c s) chunks (initialise s))) = rfc1321 (concat chunks) /\
  fst (sum (concat chunks) s) = rfc1321 (concat chunks).
Proof.
  intros Hs Hc. pose proof (initialise_represents s Hs) as Hi. split; apply finalise_represents.
  - by apply (updates_represent chunks _ []).
  - apply (sum_loop_represents _ _ []); [lia|done].
Qed.

Definition sample_md5 : MD5 := mk_MD5 (0, 0, 0, 0) (0, 0) (replicate 64 7).
Lemma md5_digest_witness :
  Convert.btox (fst (finalise (fold_left (fun s c => update c s) [str "message"; []; str " digest"] (initialise sample_md5)))) =
    str "f96b697d7cb7938d525a2f31aaf161d0" /\
  fst (sum (str "message digest") sample_md5) = rfc1321 (str "message digest").
Proof.
  destruct (md5_digest sample_md5 [str "message"; []; str " digest"]) as [H1 H2]; [done|repeat constructor|].
  split; [by vm_compute|]. change (str "message digest") with (concat [str "message"; []; str " digest"]). exact H2.
Defined.

Example md5_empty : sum_hex [] sample_md5 = str "d41d8cd98f00b204e9800998ecf8427e".
Proof. by vm_compute. Qed.
Example md5_long : sum_hex (str "12345678901234567890123456789012345678901234567890123456789012345678901234567890") sample_md5 =
  str "57edf4a22be3c955ac49da2e2107b67a".
Proof. by vm_compute. Qed.

End Md5.
