(* ===== verification/Bech32.v ===== *)
(** * Bech32

    Models [src/libs/text/bech32.cc] with what it uses of [src/libs/gen/ot-gen.h]:
    groups of five bits as characters of the alphabet of BIP 173, and back. *)
From S2P Require Export Prelude ChanBits.

Module Bech32.

(** ** What it uses of [Gen] *)

(** [shiftr] and [shiftl] of a [uint8_t] *)
Definition shiftr (value places : Z) : Z :=
  if 0 <=? places then u8 (Z.shiftr value places) else u8 (Z.shiftl value (Z.abs places)).
Definition shiftl (value places : Z) : Z :=
  if 0 <=? places then u8 (Z.shiftl value places) else u8 (Z.shiftr value (Z.abs places)).

(** [ConstExprMap]; [None] is the exception. *)
Definition lookup (data : list (Z * Z)) (key : Z) : option Z := snd <$> find (fun d => fst d =? key) data.
Definition reverse_lookup (data : list (Z * Z)) (value : Z) : option Z := fst <$> find (fun d => snd d =? value) data.

Definition data : list (Z * Z) := combine (zseq 0 32) (str "qpzry9x8gf2tvdw0s3jn54khce6mua7l").

(** ** Encoding *)

Definition group (binary : bytes) (bitpos : Z) : Z :=
  Z.land 0x1f
    (shiftr (zget 0 binary (bitpos / 8)) (3 - bitpos mod 8) +
     (if (bitpos mod 8 >? 3) && (1 + bitpos / 8 <? zlen binary)
      then Z.shiftr (zget 0 binary (1 + bitpos / 8)) (11 - bitpos mod 8) else 0)).
Fixpoint encode_loop (fuel : nat) (binary : bytes) (bitpos : Z) (result : bytes) : option bytes :=
  if bitpos <? zlen binary * 8 then
    match fuel with
    | O => None
    | S fuel => c ← lookup data (group binary bitpos); encode_loop fuel binary (bitpos + 5) (result ++ [c])
    end
  else Some result.
Definition encode (binary : bytes) : option bytes := encode_loop (2 * length binary) binary 0 [].

(** ** Decoding

    Whether successful, and the bytes: those before the first bad character were appended already. *)

Fixpoint decode_loop (text : bytes) (bytepos b : Z) (binary : bytes) : bool * bytes :=
  match text with
  | [] => (true, binary)
  | c :: text =>
    match reverse_lookup data c with
    | None => (false, binary)
    | Some num =>
      let b := u8 (Z.lor b (shiftl num (8 - (bytepos + 5)))) in
      let '(b, binary) :=
        if 8 <=? bytepos + 5 then (u8 (Z.shiftl num (8 - (bytepos + 5) mod 8)), binary ++ [b]) else (b, binary) in
      decode_loop text ((bytepos + 5) mod 8) b binary
    end
  end.
Definition decode (bech32 : bytes) (binary : bytes) : bool * bytes := decode_loop bech32 0 0 binary.

Fixpoint decode_as_5_bit (bech32 : bytes) (binary : bytes) : bool * bytes :=
  match bech32 with
  | [] => (true, binary)
  | c :: bech32 =>
    match reverse_lookup data c with
    | None => (false, binary)
    | Some num => decode_as_5_bit bech32 (binary ++ [num])
    end
  end.

(* ------------------------------------------------------------------ *)
(** ** Lemmas *)

Lemma alphabet i : 0 <= i < 32 -> exists c, lookup data i = Some c /\ reverse_lookup data c = Some i.
Proof.
  intros Hi. assert (forallb (fun i => match lookup data i with
    Some c => match reverse_lookup data c with Some j => j =? i | None => false end | None => false end) (zseq 0 32) = true) as Hall by by vm_compute.
  rewrite forallb_forall in Hall. specialize (Hall i ltac:(apply in_map_iff; exists (Z.to_nat i); split; [lia|apply in_seq; lia])).
  destruct (lookup data i) as [c|]; [|done]. exists c. split; [done|].
  destruct (reverse_lookup data c) as [j|]; [|done]. by apply Z.eqb_eq in Hall as ->.
Qed.

Lemma bits_of_app j k a b : 0 <= b < 2 ^ Z.of_nat k -> bits_of (j + k) (a * 2 ^ Z.of_nat k + b) = bits_of j a ++ bits_of k b.
Proof.
  intros Hb. assert (forall i, 0 <= i -> Z.testbit (a * 2 ^ Z.of_nat k + b) i = if i <? Z.of_nat k then Z.testbit b i else Z.testbit a (i - Z.of_nat k)) as Ht.
  { intros i Hi. destruct (Z.ltb_spec i (Z.of_nat k)).
    - rewrite <- (Z.mod_pow2_bits_low _ (Z.of_nat k)) by lia. f_equal. rewrite Z.add_comm, Z.mod_add by lia. by apply Z.mod_small.
    - rewrite <- (Z.sub_add (Z.of_nat k) i) at 1. rewrite <- Z.div_pow2_bits by lia. f_equal.
      rewrite Z.div_add_l, Z.div_small by lia. lia. }
  induction j as [|j IH]; cbn [Nat.add bits_of app].
  - apply bits_of_ext. intros i Hi. rewrite Ht by lia. by rewrite (proj2 (Z.ltb_lt _ _)) by lia.
  - rewrite IH. f_equal. rewrite Ht by lia. rewrite (proj2 (Z.ltb_ge _ _)) by lia. f_equal. lia.
Qed.
Lemma bits_of_inj k a b : 0 <= a < 2 ^ Z.of_nat k -> 0 <= b < 2 ^ Z.of_nat k -> bits_of k a = bits_of k b -> a = b.
Proof.
  revert a b. induction k as [|k IH]; intros a b Ha Hb; [cbn in *; lia|]. rewrite Nat2Z.inj_succ, Z.pow_succ_r in * by lia.
  pose proof (Z.pow_pos_nonneg 2 (Z.of_nat k) ltac:(lia) ltac:(lia)) as Hp.
  pose proof (Z.div_mod a (2 ^ Z.of_nat k) ltac:(lia)) as Ea. pose proof (Z.div_mod b (2 ^ Z.of_nat k) ltac:(lia)) as Eb.
  pose proof (Z.mod_pos_bound a (2 ^ Z.of_nat k) Hp). pose proof (Z.mod_pos_bound b (2 ^ Z.of_nat k) Hp).
  rewrite Ea, Eb at 1. rewrite !(Z.mul_comm (2 ^ Z.of_nat k)). change (S k) with (1 + k)%nat. rewrite !bits_of_app by lia.
  intros [H1 H2]%app_inj_1; [|done]. apply IH in H2; [|lia..]. injection H1 as H1.
  assert (0 <= a / 2 ^ Z.of_nat k < 2) by (split; [apply Z.div_pos|apply Z.div_lt_upper_bound]; lia).
  assert (0 <= b / 2 ^ Z.of_nat k < 2) by (split; [apply Z.div_pos|apply Z.div_lt_upper_bound]; lia).
  assert (a / 2 ^ Z.of_nat k = b / 2 ^ Z.of_nat k) as Hd; [|rewrite Ea, Eb, Hd, H2; done].
  change (Z.of_nat 0) with 0 in H1. rewrite ?Z.bit0_odd in H1.
  destruct (Z.eq_dec (a / 2 ^ Z.of_nat k) 0) as [E|E], (Z.eq_dec (b / 2 ^ Z.of_nat k) 0) as [E'|E']; try lia.
  - replace (b / 2 ^ Z.of_nat k) with 1 in H1 by lia. by rewrite E in H1.
  - replace (a / 2 ^ Z.of_nat k) with 1 in H1 by lia. by rewrite E' in H1.
Qed.
Lemma bytes_bits_inj l : forall l', bytes_ok l -> bytes_ok l' -> flat_map (bits_of 8) l = flat_map (bits_of 8) l' -> l = l'.
Proof.
  induction l as [|a l IH]; intros [|b l'] Hl Hl'; cbn [flat_map]; [done|intros H; apply (f_equal length) in H; rewrite length_app, bits_of_length in H; done..|].
  inversion_clear Hl. inversion_clear Hl'. intros [E1 E2]%app_inj_1; [|by rewrite !bits_of_length].
  f_equal; [by apply (bits_of_inj 8)|by apply IH].
Qed.

(** The five bits at a position *)
Lemma group_bits_high x p : 0 <= p <= 3 -> byte_ok x ->
  bits_of 5 (Z.land 0x1f (shiftr x (3 - p) + 0)) = firstn 5 (skipn (Z.to_nat p) (bits_of 8 x)).
Proof.
  intros Hp Hx. rewrite Z.add_0_r. unfold shiftr. rewrite (proj2 (Z.leb_le _ _)) by lia.
  assert (bits_of 5 (Z.land 0x1f (u8 (Z.shiftr x (3 - p)))) = bits_of 5 (Z.shiftr x (3 - p))) as ->.
  { apply bits_of_ext. intros i Hi. change 0x1f with (Z.ones 5). rewrite Z.land_spec, Z.ones_spec_low by lia.
    unfold wrap. by rewrite Z.mod_pow2_bits_low by lia. }
  assert (p = 0 \/ p = 1 \/ p = 2 \/ p = 3) as [->|[->|[->| ->]]] by lia;
    cbn [bits_of firstn skipn Z.to_nat Pos.to_nat Pos.iter_op Nat.add]; rewrite !Z.shiftr_spec by lia; done.
Qed.
Lemma group_bits_low x y p : 4 <= p <= 7 -> byte_ok x -> byte_ok y ->
  bits_of 5 (Z.land 0x1f (shiftr x (3 - p) + Z.shiftr y (11 - p))) = firstn 5 (skipn (Z.to_nat p) (bits_of 8 x ++ bits_of 8 y)).
Proof.
  intros Hp Hx Hy. unfold shiftr. rewrite (proj2 (Z.leb_gt _ _)) by lia.
  replace (Z.abs (3 - p)) with (p - 3) by lia. unfold byte_ok in *.
  assert (u8 (Z.shiftl x (p - 3)) + Z.shiftr y (11 - p) = (x mod 2 ^ (11 - p)) * 2 ^ (p - 3) + y / 2 ^ (11 - p)) as ->.
  { rewrite Z.shiftl_mul_pow2, Z.shiftr_div_pow2 by lia. f_equal. unfold wrap.
    replace (2 ^ 8) with (2 ^ (11 - p) * 2 ^ (p - 3)) by (rewrite <- Z.pow_add_r by lia; f_equal; lia).
    rewrite Z.mul_mod_distr_r; [done|apply Z.pow_nonzero; lia..]. }
  assert (0 <= y / 2 ^ (11 - p) < 2 ^ (p - 3)) as Hyd.
  { split; [apply Z.div_pos; [lia|apply Z.pow_pos_nonneg; lia]|]. apply Z.div_lt_upper_bound; [apply Z.pow_pos_nonneg; lia|].
    rewrite <- Z.pow_add_r by lia. replace (11 - p + (p - 3)) with 8 by lia. change (2 ^ 8) with 256. lia. }
  set (hi := x mod 2 ^ (11 - p)). set (lo := y / 2 ^ (11 - p)) in *.
  assert (bits_of 5 (Z.land 0x1f (hi * 2 ^ (p - 3) + lo)) = bits_of 5 (hi * 2 ^ (p - 3) + lo)) as ->.
  { apply bits_of_ext. intros i Hi. change 0x1f with (Z.ones 5). by rewrite Z.land_spec, Z.ones_spec_low by lia. }
  assert (forall n, p = 3 + Z.of_nat n -> (n <= 5)%nat -> bits_of 5 (hi * 2 ^ (p - 3) + lo) = bits_of (5 - n) hi ++ bits_of n lo) as Happ.
  { intros n Hn Hle. replace (p - 3) with (Z.of_nat n) in * by lia. replace 5%nat with ((5 - n) + n)%nat at 1 by lia.
    apply bits_of_app. done. }
  assert (forall i, 0 <= i < 11 - p -> Z.testbit hi i = Z.testbit x i) as Hhi by (intros i Hi; unfold hi; apply Z.mod_pow2_bits_low; lia).
  assert (forall i, 0 <= i -> Z.testbit lo i = Z.testbit y (i + (11 - p))) as Hlo.
  { intros i Hi. unfold lo. rewrite Z.div_pow2_bits by lia. done. }
  assert (p = 4 \/ p = 5 \/ p = 6 \/ p = 7) as [E|[E|[E|E]]] by lia;
    [rewrite (Happ 1%nat)|rewrite (Happ 2%nat)|rewrite (Happ 3%nat)|rewrite (Happ 4%nat)]; try lia; clear Happ;
    subst p; cbn [Nat.sub bits_of app firstn skipn Z.to_nat Pos.to_nat Pos.iter_op Nat.add]; rewrite ?Hhi, ?Hlo by lia; done.
Qed.

Lemma drop_bits q p (pre rest : bytes) x : length pre = q -> (p <= 8)%nat ->
  drop (8 * q + p) (flat_map (bits_of 8) (pre ++ x :: rest)) = drop p (bits_of 8 x) ++ flat_map (bits_of 8) rest.
Proof.
  intros Hq Hp. rewrite flat_map_app, <- Hq, <- flat_bits_length, drop_app_add. cbn [flat_map].
  apply drop_app_le. by rewrite bits_of_length.
Qed.
Lemma group_bits binary bitpos : bytes_ok binary -> 0 <= bitpos < zlen binary * 8 ->
  0 <= group binary bitpos < 32 /\
  bits_of 5 (group binary bitpos) = take 5 (drop (Z.to_nat bitpos) (flat_map (bits_of 8) binary) ++ replicate 4 false).
Proof.
  intros Hb Hpos. set (q := bitpos / 8). set (p := bitpos mod 8). pose proof (Z.div_mod bitpos 8 ltac:(lia)) as Hdm. fold q p in Hdm.
  pose proof (Z.mod_pos_bound bitpos 8 ltac:(lia)) as Hp. fold p in Hp. assert (0 <= q) as Hq0 by (apply Z.div_pos; lia).
  assert (exists pre x rest, binary = pre ++ x :: rest /\ length pre = Z.to_nat q) as (pre & x & rest & -> & Hpre).
  { destruct (lookup_lt_is_Some_2 binary (Z.to_nat q)) as [x Hx]; [unfold zlen in Hpos; lia|].
    exists (take (Z.to_nat q) binary), x, (drop (S (Z.to_nat q)) binary). split; [by rewrite take_drop_middle|].
    rewrite length_take. apply lookup_lt_Some in Hx. lia. }
  assert (zget 0 (pre ++ x :: rest) q = x) as Hx by (unfold zget; by rewrite <- Hpre, app_nth2, Nat.sub_diag by lia).
  assert (zget 0 (pre ++ x :: rest) (1 + q) = nth 0 rest 0) as Hy.
  { unfold zget. replace (Z.to_nat (1 + q)) with (length pre + 1)%nat by lia. rewrite app_nth2 by lia.
    replace (length pre + 1 - length pre)%nat with 1%nat by lia. by destruct rest. }
  replace (Z.to_nat bitpos) with (8 * Z.to_nat q + Z.to_nat p)%nat by lia. rewrite drop_bits by (done || lia).
  apply Forall_app in Hb as [_ [Hbx Hbr]%Forall_cons].
  assert (forall z, 0 <= Z.land 0x1f z < 32) as Hland.
  { intros z. rewrite Z.land_comm. change 0x1f with (Z.ones 5). rewrite Z.land_ones by lia. apply Z.mod_pos_bound. lia. }
  split; [apply Hland|]. unfold group. fold q p. rewrite Hx, Hy.
  destruct (Z.gtb_spec p 3) as [Hp3|Hp3]; cbn [andb].
  - assert (byte_ok (nth 0 rest 0)) as Hby by (destruct Hbr; [unfold byte_ok; cbn; lia|done]).
    assert ((if 1 + q <? zlen (pre ++ x :: rest) then Z.shiftr (nth 0 rest 0) (11 - p) else 0) = Z.shiftr (nth 0 rest 0) (11 - p)) as ->.
    { destruct (Z.ltb_spec (1 + q) (zlen (pre ++ x :: rest))) as [|Hge]; [done|]. destruct rest; [by rewrite Z.shiftr_0_l|].
      unfold zlen in Hge. rewrite length_app in Hge. cbn in Hge. lia. }
    rewrite group_bits_low by (done || lia). rewrite drop_app_le by (rewrite bits_of_length; lia). rewrite <- app_assoc.
    assert (length (drop (Z.to_nat p) (bits_of 8 x)) = (8 - Z.to_nat p)%nat) as Hl by by rewrite length_drop, bits_of_length.
    rewrite !take_app, Hl. f_equal.
    destruct rest as [|y rest]; cbn [nth flat_map app].
    + assert (5 - (8 - Z.to_nat p) = Z.to_nat p - 3)%nat as -> by lia.
      assert (p = 4 \/ p = 5 \/ p = 6 \/ p = 7) as [->|[->|[->| ->]]] by lia; done.
    + rewrite (take_app_le (bits_of 8 y)) by (rewrite bits_of_length; lia).
      replace (5 - (8 - Z.to_nat p) - length (bits_of 8 y ++ flat_map (bits_of 8) rest))%nat with 0%nat
        by (rewrite length_app, bits_of_length; lia). by rewrite take_0, app_nil_r.
  - rewrite group_bits_high by (done || lia). rewrite <- app_assoc, take_app_le; [done|]. rewrite length_drop, bits_of_length. lia.
Qed.

Lemma encode_loop_spec fuel : forall binary bitpos result, bytes_ok binary -> 0 <= bitpos ->
  zlen binary * 8 - bitpos <= 5 * Z.of_nat fuel ->
  exists nums text n, encode_loop fuel binary bitpos result = Some (result ++ text) /\
    Forall2 (fun i c => 0 <= i < 32 /\ reverse_lookup data c = Some i) nums text /\
    flat_map (bits_of 5) nums = drop (Z.to_nat bitpos) (flat_map (bits_of 8) binary) ++ replicate n false /\ (n < 5)%nat.
Proof.
  induction fuel as [|fuel IH]; intros binary bitpos result Hb Hpos Hf; cbn [encode_loop];
    destruct (Z.ltb_spec bitpos (zlen binary * 8)) as [Hlt|Hge]; try lia.
  1, 3: exists [], [], 0%nat; rewrite app_nil_r; split; [done|]; split; [constructor|]; split; [|lia];
    rewrite drop_ge; [done|]; rewrite flat_bits_length; unfold zlen in Hge; lia.
  destruct (group_bits binary bitpos Hb ltac:(lia)) as [Hrange Hbits]. destruct (alphabet _ Hrange) as (c & -> & Hc). cbn [mbind option_bind].
  destruct (IH binary (bitpos + 5) (result ++ [c]) Hb ltac:(lia) ltac:(lia)) as (nums & text & n & -> & Hall & Hn & Hn5).
  set (L := drop (Z.to_nat bitpos) (flat_map (bits_of 8) binary)) in *.
  assert (length L = (8 * length binary - Z.to_nat bitpos)%nat) as HL by (unfold L; by rewrite length_drop, flat_bits_length).
  replace (Z.to_nat (bitpos + 5)) with (Z.to_nat bitpos + 5)%nat in Hn by lia. rewrite <- drop_drop in Hn. fold L in Hn.
  exists (group binary bitpos :: nums), (c :: text), (if decide (5 <= length L)%nat then n else (5 - length L)%nat).
  split; [by rewrite <- app_assoc|]. split; [by constructor|]. cbn [flat_map]. rewrite Hbits, Hn. unfold zlen in Hlt.
  destruct (decide (5 <= length L)%nat) as [H5|H5]; (split; [|lia]).
  - rewrite take_app_le, app_assoc, take_drop by lia. done.
  - rewrite take_app, (take_ge L), (drop_ge L), <- app_assoc by lia. f_equal. rewrite take_replicate. cbn [app].
    assert (flat_map (bits_of 5) nums = replicate n false) as Hn' by (rewrite Hn, (drop_ge L) by lia; done).
    assert (nums = []) as ->.
    { destruct nums as [|i nums]; [done|]. apply (f_equal length) in Hn'. cbn [flat_map] in Hn'.
      rewrite length_app, bits_of_length, length_replicate in Hn'. lia. }
    destruct n; [|done]. rewrite app_nil_r. f_equal. lia.
Qed.

Lemma decode_loop_spec nums text : Forall2 (fun i c => 0 <= i < 32 /\ reverse_lookup data c = Some i) nums text ->
  forall pos v binary, (pos < 8)%nat -> 0 <= v < 2 ^ Z.of_nat pos ->
  exists out pos' v', decode_loop text (Z.of_nat pos) (v * 2 ^ (8 - Z.of_nat pos)) binary = (true, binary ++ out) /\ bytes_ok out /\
    (pos' < 8)%nat /\ bits_of pos v ++ flat_map (bits_of 5) nums = flat_map (bits_of 8) out ++ bits_of pos' v'.
Proof.
  induction 1 as [|i c nums text [Hi Hc] _ IH]; intros pos v binary Hpos Hv; cbn [decode_loop].
  { exists [], pos, v. rewrite !app_nil_r. split; [done|]. split; [constructor|done]. }
  rewrite Hc. pose proof (Z.pow_pos_nonneg 2 (8 - Z.of_nat pos) ltac:(lia) ltac:(lia)) as Hp.
  assert (2 ^ Z.of_nat pos * 2 ^ (8 - Z.of_nat pos) = 256) as H256.
  { rewrite <- Z.pow_add_r by lia. replace (Z.of_nat pos + (8 - Z.of_nat pos)) with 8 by lia. done. }
  assert (bits_of pos v ++ bits_of 5 i = bits_of (pos + 5) (v * 2 ^ 5 + i)) as Hcat by (symmetry; apply (bits_of_app pos 5); lia).
  cbn [flat_map]. rewrite app_assoc, Hcat. unfold shiftl.
  destruct (Z.leb_spec 8 (Z.of_nat pos + 5)) as [Hle|Hlt].
  - set (r := Z.of_nat pos + 5 - 8). assert (0 <= r < 5) as Hr by (unfold r; lia).
    assert ((Z.of_nat pos + 5) mod 8 = r) as -> by (symmetry; apply (Z.mod_unique _ _ 1); unfold r; lia).
    pose proof (Z.pow_pos_nonneg 2 r ltac:(lia) ltac:(lia)) as Hp2.
    assert (2 ^ 5 = 2 ^ (8 - Z.of_nat pos) * 2 ^ r) as H5 by (rewrite <- Z.pow_add_r by lia; f_equal; unfold r; lia).
    pose proof (Z.div_mod i (2 ^ r) ltac:(lia)) as Hdm. pose proof (Z.mod_pos_bound i (2 ^ r) Hp2) as Hmod.
    assert (0 <= i / 2 ^ r < 2 ^ (8 - Z.of_nat pos)) as Hid.
    { split; [apply Z.div_pos; lia|]. apply Z.div_lt_upper_bound; [lia|]. change (2 ^ 5) with 32 in H5. nia. }
    assert ((if 0 <=? 8 - (Z.of_nat pos + 5) then u8 (Z.shiftl i (8 - (Z.of_nat pos + 5)))
             else u8 (Z.shiftr i (Z.abs (8 - (Z.of_nat pos + 5))))) = i / 2 ^ r) as ->.
    { replace (8 - (Z.of_nat pos + 5)) with (- r) by (unfold r; lia). rewrite Z.abs_opp, Z.abs_eq by lia.
      destruct (Z.leb_spec 0 (- r)) as [H0|H0].
      - assert (r = 0) as -> by lia. cbn [Z.opp]. rewrite Z.shiftl_0_r, Z.pow_0_r, Z.div_1_r. apply u8_small. unfold byte_ok. lia.
      - rewrite Z.shiftr_div_pow2 by lia. apply u8_small. unfold byte_ok. split; [lia|]. nia. }
    assert (Z.lor (v * 2 ^ (8 - Z.of_nat pos)) (i / 2 ^ r) = v * 2 ^ (8 - Z.of_nat pos) + i / 2 ^ r) as ->.
    { rewrite <- Z.shiftl_mul_pow2, lor_add, Z.shiftl_mul_pow2 by lia. done. }
    assert (byte_ok (v * 2 ^ (8 - Z.of_nat pos) + i / 2 ^ r)) as Hbyte by (unfold byte_ok; nia).
    rewrite (u8_small (v * 2 ^ (8 - Z.of_nat pos) + i / 2 ^ r)) by done.
    assert (u8 (Z.shiftl i (8 - r)) = i mod 2 ^ r * 2 ^ (8 - r)) as ->.
    { rewrite Z.shiftl_mul_pow2 by lia. unfold wrap. replace (2 ^ 8) with (2 ^ r * 2 ^ (8 - r)) by (rewrite <- Z.pow_add_r by lia; f_equal; lia).
      rewrite Z.mul_mod_distr_r; [done|lia|apply Z.pow_nonzero; lia]. }
    rewrite <- (Z2Nat.id r) by lia.
    destruct (IH (Z.to_nat r) (i mod 2 ^ r) (binary ++ [v * 2 ^ (8 - Z.of_nat pos) + i / 2 ^ r]))
      as (out & pos' & v' & Heq & Hout & Hpos' & Hbits); [lia|rewrite Z2Nat.id; lia|].
    rewrite (Z2Nat.id r) in * by lia. rewrite Heq.
    exists ((v * 2 ^ (8 - Z.of_nat pos) + i / 2 ^ r) :: out), pos', v'. rewrite <- app_assoc. split; [done|]. split; [by constructor|].
    split; [done|]. cbn [flat_map]. rewrite <- app_assoc, <- Hbits, app_assoc. f_equal.
    replace (pos + 5)%nat with (8 + Z.to_nat r)%nat by (unfold r; lia).
    rewrite <- (bits_of_app 8 (Z.to_nat r)) by (rewrite Z2Nat.id by lia; lia). f_equal. rewrite Z2Nat.id by lia.
    rewrite H5. lia.
  - replace (8 - (Z.of_nat pos + 5)) with (8 - Z.of_nat (pos + 5)) by lia. rewrite (proj2 (Z.leb_le 0 (8 - Z.of_nat (pos + 5)))) by lia.
    pose proof (Z.pow_pos_nonneg 2 (8 - Z.of_nat (pos + 5)) ltac:(lia) ltac:(lia)) as Hp3.
    assert (2 ^ (8 - Z.of_nat pos) = 32 * 2 ^ (8 - Z.of_nat (pos + 5))) as H5.
    { change 32 with (2 ^ 5). rewrite <- Z.pow_add_r by lia. f_equal. lia. }
    pose proof (Z.pow_le_mono_r 2 (8 - Z.of_nat pos) 8 ltac:(lia) ltac:(lia)) as Hle8. change (2 ^ 8) with 256 in Hle8.
    rewrite Z.shiftl_mul_pow2 by lia. rewrite (u8_small (i * 2 ^ (8 - Z.of_nat (pos + 5)))) by (unfold byte_ok; nia).
    assert (Z.lor (v * 2 ^ (8 - Z.of_nat pos)) (i * 2 ^ (8 - Z.of_nat (pos + 5))) = (v * 2 ^ 5 + i) * 2 ^ (8 - Z.of_nat (pos + 5))) as ->.
    { assert (0 <= i * 2 ^ (8 - Z.of_nat (pos + 5)) < 2 ^ (8 - Z.of_nat pos)) as Hsmall by (rewrite H5; nia).
      rewrite <- Z.shiftl_mul_pow2, lor_add, H5 by (done || lia). change (2 ^ 5) with 32. lia. }
    rewrite u8_small by (unfold byte_ok; change (2 ^ 5) with 32; nia).
    rewrite Z.mod_small by lia. replace (Z.of_nat pos + 5) with (Z.of_nat (pos + 5)) by lia.
    apply IH; [lia|]. rewrite Nat2Z.inj_add, Z.pow_add_r by lia. change (Z.of_nat 5) with 5. change (2 ^ 5) with 32. lia.
Qed.

(* ------------------------------------------------------------------ *)
(** ** Properties *)

(** What Bech32 encodes is decoded: [encode] has a character for every group of five bits, ends within two
    characters a byte, and [decode] of the text succeeds and appends exactly the bytes, the padding bits of the
    last group dropped; [decode_as_5_bit] succeeds too and gives groups whose bits begin with those of the bytes. *)
Theorem bech32_roundtrip (binary before : bytes) : bytes_ok binary ->
  exists text nums n, encode binary = Some text /\ decode text before = (true, before ++ binary) /\
    decode_as_5_bit text before = (true, before ++ nums) /\ (n < 5)%nat /\
    flat_map (bits_of 5) nums = flat_map (bits_of 8) binary ++ replicate n false.
Proof.
  intros Hb. destruct (encode_loop_spec (2 * length binary) binary 0 [] Hb) as (nums & text & n & Henc & Hall & Hbits & Hn);
    [lia|unfold zlen; lia|].
  change (drop (Z.to_nat 0) ?l) with l in Hbits. exists text, nums, n. split; [exact Henc|].
  destruct (decode_loop_spec nums text Hall 0 0 before) as (out & pos' & v' & Hdec & Hout & Hpos' & Hdbits); [lia|done|].
  change (bits_of 0 0 ++ ?l) with l in Hdbits. rewrite Hbits in Hdbits.
  assert (out = binary) as ->.
  { apply bytes_bits_inj; [done|done|]. pose proof (f_equal length Hdbits) as Hlen.
    rewrite !length_app, !flat_bits_length, bits_of_length, length_replicate in Hlen.
    symmetry in Hdbits. apply app_inj_1 in Hdbits as [H _]; [done|]. rewrite !flat_bits_length. lia. }
  split; [exact Hdec|]. split; [|done].
  clear -Hall. revert before. induction Hall as [|i c nums text [Hi Hc] _ IH]; intros before; cbn [decode_as_5_bit]; [by rewrite app_nil_r|].
  rewrite Hc, IH. by rewrite <- app_assoc.
Qed.
Lemma bech32_roundtrip_witness : encode [0; 255; 16] = Some (str "qrl3q") /\ decode (str "qrl3q") [] = (true, [0; 255; 16]).
Proof.
  destruct (bech32_roundtrip [0; 255; 16] []) as (text & nums & n & H1 & H2 & _); [repeat constructor; unfold byte_ok; lia|].
  assert (encode [0; 255; 16] = Some (str "qrl3q")) as E by by vm_compute. rewrite E in H1. injection H1 as <-. by split.
Defined.

(** The bytes before a bad character were appended, though decoding fails. *)
Example bech32_partial : decode (str "qrl!") [] = (false, [0]).
Proof. by vm_compute. Qed.

End Bech32.
