(* ===== verification/Monitor.v ===== *)
(** * Monitors

    What the classes of [src/libs/mt/ot-mt.h] have in common: a state behind a
    mutex, with condition variables.  A method holds the mutex from its start
    to its end, waits apart, so one step of a thread takes it from its call to
    its end or its first wait, and from a wait to its end or its next wait.
    [notify_one] wakes one thread of those asleep on the variable, whichever;
    [notify_all] all of them; and a thread may wake up unasked (or because the
    time of a timed wait is over).  The interleaving is any.

    The methods are an instance of [Monitor]; the theorems here hold for every
    one: its history is a sequential one ([History]), and no wake-up is lost
    when the waiters wait for tokens ([Tokens]). *)
From stdpp Require Export relations.
From S2P Require Export Prelude.

Module Monitor.

Inductive wake (CV : Type) := One (v : CV) | All (v : CV).
#[global] Arguments One {CV} v.
#[global] Arguments All {CV} v.

(** How a method, or a part of it, ends: with the variables notified on the way, or in a wait *)
Inductive outcome (S W R CV : Type) := Return (s : S) (r : R) (n : list (wake CV)) | Wait (s : S) (w : W).
#[global] Arguments Return {S W R CV} s r n.
#[global] Arguments Wait {S W R CV} s w.

(** The methods of a monitor with state [S], where threads wait at [W], called
    as [O] with results [R]; [C] is what a client has to keep in mind to use it
    as it is meant to be ([allowed]). *)
Class Monitor (S W O R CV C : Type) := {
  cv_of : W -> CV;
  op_of : W -> O;
  call : nat -> O -> S -> outcome S W R CV;
  resume : nat -> W -> S -> outcome S W R CV;
  allowed : C -> O -> S -> Prop;
  finish : C -> O -> R -> C
}.

Inductive status (W : Type) := Running | Asleep (w : W) | Woken (w : W).
#[global] Arguments Running {W}.
#[global] Arguments Asleep {W} w.
#[global] Arguments Woken {W} w.

Record thread (W C : Type) := mk_thread { client : C; state : status W }.
#[global] Arguments mk_thread {W C} client state.
#[global] Arguments client {W C} t.
#[global] Arguments state {W C} t.
Record config (S W O R C : Type) := mk_config { shared : S; threads : list (thread W C); history : list (nat * O * R) }.
#[global] Arguments mk_config {S W O R C} shared threads history.
#[global] Arguments shared {S W O R C} c.
#[global] Arguments threads {S W O R C} c.
#[global] Arguments history {S W O R C} c.

Section monitor.
Context {S W O R CV C : Type} `{EqDecision CV} {Mon : Monitor S W O R CV C}.
#[local] Abbreviation thread := (thread W C).
#[local] Abbreviation config := (config S W O R C).

Definition sleeps_on (v : CV) (t : thread) : bool :=
  match state t with Asleep w => bool_decide (cv_of w = v) | _ => false end.
Definition wake_up (t : thread) : thread :=
  match state t with Asleep w => mk_thread (client t) (Woken w) | _ => t end.
Definition wake_on (v : CV) (t : thread) : thread := if sleeps_on v t then wake_up t else t.

Inductive notified : list (wake CV) -> list thread -> list thread -> Prop :=
  | notified_nil ts : notified [] ts ts
  | notified_all v n ts ts' : notified n (map (wake_on v) ts) ts' -> notified (All v :: n) ts ts'
  | notified_one v n ts ts' i t : ts !! i = Some t -> sleeps_on v t = true ->
      notified n (<[i := wake_up t]> ts) ts' -> notified (One v :: n) ts ts'
  | notified_none v n ts ts' : Forall (fun t => sleeps_on v t = false) ts ->
      notified n ts ts' -> notified (One v :: n) ts ts'.

Definition settles (i : nat) (t : thread) (o : O) (out : outcome S W R CV) (c c' : config) : Prop :=
  match out with
  | Return s r n =>
    exists ts, notified n (<[i := mk_thread (finish (client t) o r) Running]> (threads c)) ts /\
      c' = mk_config s ts (history c ++ [(i, o, r)])
  | Wait s w => c' = mk_config s (<[i := mk_thread (client t) (Asleep w)]> (threads c)) (history c)
  end.

Inductive resumes : config -> config -> Prop :=
  | resumes_intro i t w c c' : threads c !! i = Some t -> state t = Woken w ->
      settles i t (op_of w) (resume i w (shared c)) c c' -> resumes c c'.
Inductive step : config -> config -> Prop :=
  | step_call i t o c c' : threads c !! i = Some t -> state t = Running -> allowed (client t) o (shared c) ->
      settles i t o (call i o (shared c)) c c' -> step c c'
  | step_resume c c' : resumes c c' -> step c c'
  | step_unasked i t c : threads c !! i = Some t ->
      step c (mk_config (shared c) (<[i := wake_up t]> (threads c)) (history c)).

Definition start (s : S) (n : nat) (k : C) : config := mk_config s (replicate n (mk_thread k Running)) [].
Definition reachable (s : S) (n : nat) (k : C) (c : config) : Prop := rtc step (start s n k) c.

(** ** Counting threads *)

Definition total (f : thread -> nat) (ts : list thread) : nat := sum_list_with f ts.
Definition asleep (t : thread) : nat := match state t with Asleep _ => 1%nat | _ => 0%nat end.
Definition woken (t : thread) : nat := match state t with Woken _ => 1%nat | _ => 0%nat end.
Definition waiting (t : thread) : nat := (asleep t + woken t)%nat.

Lemma total_insert f ts i t t' : ts !! i = Some t -> (total f (<[i := t']> ts) + f t = total f ts + f t')%nat.
Proof.
  revert i. induction ts as [|u ts IH]; intros [|i] Hi; simplify_eq/=; unfold total in *; simpl; [lia|].
  specialize (IH i Hi). lia.
Qed.
Lemma total_get f ts i t : ts !! i = Some t -> (f t <= total f ts)%nat.
Proof.
  unfold total. revert i. induction ts as [|u ts IH]; intros [|i] Hi; simplify_eq/=; [lia|].
  specialize (IH i Hi). lia.
Qed.
Lemma total_zero f ts i t : total f ts = 0%nat -> ts !! i = Some t -> f t = 0%nat.
Proof. intros H Hi. pose proof (total_get f ts i t Hi). lia. Qed.
Lemma total_pos f ts : (0 < total f ts)%nat -> exists i t, ts !! i = Some t /\ (0 < f t)%nat.
Proof.
  induction ts as [|u ts IH]; unfold total; simpl; [lia|]. intros H.
  destruct (decide (0 < f u)%nat) as [Hu|Hu]; [exists 0%nat, u; done|].
  destruct IH as (i & t & Hi & Ht); [unfold total; lia|]. exists (Datatypes.S i), t. done.
Qed.
Lemma total_map f (g : thread -> thread) ts : (forall t, f (g t) = f t) -> total f (map g ts) = total f ts.
Proof. intros H. unfold total. induction ts as [|u ts IH]; simpl; [done|]. rewrite H, IH. done. Qed.
Lemma total_replicate f n t : total f (replicate n t) = (n * f t)%nat.
Proof. unfold total. induction n as [|n IH]; simpl; lia. Qed.

Lemma total_waiting ts : total waiting ts = (total asleep ts + total woken ts)%nat.
Proof. unfold total. induction ts as [|t ts IH]; simpl; [done|]. rewrite IH. unfold waiting. lia. Qed.

(** What waking threads up leaves alone *)
Definition wake_blind {A} (f : thread -> A) : Prop := forall t, f (wake_up t) = f t.
Lemma wake_on_blind {A} (f : thread -> A) v t : wake_blind f -> f (wake_on v t) = f t.
Proof. intros H. unfold wake_on. by case_match. Qed.
Lemma notified_total f n ts ts' : wake_blind f -> notified n ts ts' -> total f ts' = total f ts.
Proof.
  intros Hf H. induction H as [|v n ts ts' _ IH|v n ts ts' i t Hi _ _ IH|]; [done| | |done].
  - rewrite IH. apply total_map. intros. by apply wake_on_blind.
  - rewrite IH. pose proof (total_insert f ts i t (wake_up t) Hi). rewrite Hf in H. lia.
Qed.
Lemma wake_up_id t : asleep t = 0%nat -> wake_up t = t.
Proof. unfold asleep, wake_up. by case_match. Qed.
Lemma waiting_blind : wake_blind waiting.
Proof. intros t. unfold waiting, asleep, woken, wake_up. destruct (state t) eqn:E; simpl; by rewrite ?E. Qed.
Lemma client_blind : wake_blind client.
Proof. intros t. unfold wake_up. by case_match. Qed.

(** Each thread is as it was, or has been woken. *)
Definition woken_from (ts ts' : list thread) : Prop :=
  length ts' = length ts /\ forall i t', ts' !! i = Some t' -> exists t, ts !! i = Some t /\ (t' = t \/ t' = wake_up t).
Lemma woken_from_refl ts : woken_from ts ts.
Proof. split; [done|]. intros i t' Hi. exists t'. auto. Qed.
Lemma wake_up_twice t : wake_up (wake_up t) = wake_up t.
Proof. unfold wake_up. destruct (state t) eqn:E; simpl; by rewrite ?E. Qed.
Lemma woken_from_trans ts ts' ts'' : woken_from ts ts' -> woken_from ts' ts'' -> woken_from ts ts''.
Proof.
  intros [L1 H1] [L2 H2]. split; [lia|]. intros i t'' Hi. destruct (H2 i t'' Hi) as (t' & Hi' & E').
  destruct (H1 i t' Hi') as (t & Ht & E). exists t. split; [done|].
  destruct E' as [->| ->], E as [->| ->]; rewrite ?wake_up_twice; auto.
Qed.
Lemma woken_from_insert ts i t : ts !! i = Some t -> woken_from ts (<[i := wake_up t]> ts).
Proof.
  intros Hi. split; [apply length_insert|]. intros j t' Hj. destruct (decide (i = j)) as [->|Hne].
  - rewrite list_lookup_insert_eq in Hj by (by eapply lookup_lt_Some). simplify_eq. exists t. auto.
  - rewrite list_lookup_insert_ne in Hj by done. exists t'. auto.
Qed.
Lemma notified_woken_from n ts ts' : notified n ts ts' -> woken_from ts ts'.
Proof.
  induction 1 as [ts|v n ts ts' _ IH|v n ts ts' i t Hi _ _ IH|]; [apply woken_from_refl| | |done].
  - eapply woken_from_trans; [|exact IH]. split; [apply length_map|].
    intros j t' Hj. rewrite lookup_map_Some in Hj || rewrite list_lookup_fmap in Hj.
    destruct (ts !! j) as [t|] eqn:E; simplify_eq/=. exists t. split; [done|]. unfold wake_on. case_match; auto.
  - eapply woken_from_trans; [by apply woken_from_insert|exact IH].
Qed.

(** ** Invariants *)

Lemma reachable_inv (Inv : config -> Prop) s n k c : Inv (start s n k) -> (forall c c', Inv c -> step c c' -> Inv c') ->
  reachable s n k c -> Inv c.
Proof. intros H0 Hs Hr. unfold reachable in Hr. revert H0. induction Hr; eauto. Qed.

Lemma reachable_resumes s n k c c' m : reachable s n k c -> nsteps resumes m c c' -> reachable s n k c'.
Proof.
  unfold reachable. intros Hr Hk. etrans; [exact Hr|]. apply rtc_nsteps_2 in Hk.
  eapply rtc_subrel; [|exact Hk]. intros. by apply step_resume.
Qed.

(** Histories: every call that has ended took effect at once, between its
    start and its end, and in the order of the history. *)
Section history.
Context {A : Type} (spec : O -> A -> option (A * R)) (abs : S -> A).

Definition agrees (o : O) (s : S) (out : outcome S W R CV) : Prop :=
  match out with
  | Return s' r _ => spec o (abs s) = Some (abs s', r)
  | Wait s' w => abs s' = abs s
  end.
Class Sequential := {
  call_agrees i k o s : allowed k o s -> agrees o s (call i o s);
  resume_agrees i w s : agrees (op_of w) s (resume i w s)
}.

Fixpoint replay (h : list (nat * O * R)) (a : A) : option A :=
  match h with
  | [] => Some a
  | (_, o, _) :: h => '(a, _) ← spec o a; replay h a
  end.
(** The results are those of the calls one after the other. *)
Fixpoint explains (h : list (nat * O * R)) (a : A) : Prop :=
  match h with
  | [] => True
  | (_, o, r) :: h => exists a', spec o a = Some (a', r) /\ explains h a'
  end.
Lemma explains_snoc h i o r : forall a a1 a2, explains h a -> replay h a = Some a1 -> spec o a1 = Some (a2, r) ->
  explains (h ++ [(i, o, r)]) a /\ replay (h ++ [(i, o, r)]) a = Some a2.
Proof.
  induction h as [|[[j p] q] h IH]; intros a a1 a2 He Hr Hs; simpl in *.
  - simplify_eq. rewrite Hs. split; [by exists a2|done].
  - destruct He as (a' & Hp & He). rewrite Hp in *. simpl in *. destruct (IH a' a1 a2 He Hr Hs) as [He' Hr'].
    split; [by exists a'|done].
Qed.

Lemma settles_history `{!Sequential} s0 i t o out c c' : agrees o (shared c) out -> settles i t o out c c' ->
  explains (history c) (abs s0) /\ replay (history c) (abs s0) = Some (abs (shared c)) ->
  explains (history c') (abs s0) /\ replay (history c') (abs s0) = Some (abs (shared c')).
Proof.
  intros Ha Hs [He Hr]. destruct out as [s r n|s w]; simpl in *.
  - destruct Hs as (ts & _ & ->). simpl. by apply explains_snoc with (abs (shared c)).
  - subst c'. simpl. by rewrite Ha.
Qed.
Lemma history_sequential `{!Sequential} s n k c : reachable s n k c ->
  explains (history c) (abs s) /\ replay (history c) (abs s) = Some (abs (shared c)).
Proof.
  intros Hr. refine (reachable_inv (fun c => explains (history c) (abs s) /\ replay (history c) (abs s) = Some (abs (shared c)))
    s n k c _ _ Hr); [done|]. intros c1 c2 Hi Hst. revert Hi.
  destruct Hst as [i t o e e' _ _ Hal Hs|e e' [i t w d d' _ _ Hs]|i t d _]; intros Hi; [| |exact Hi].
  - eapply settles_history; eauto. by eapply call_agrees.
  - eapply settles_history; eauto. by apply resume_agrees.
Qed.
End history.

(** Threads that only go on after a wait do so at most once each, when that wakes nobody. *)
Section quiet.
Class Quiet := resume_quiet : forall i w s s' r n, resume i w s = Return s' r n -> n = [].

Lemma notified_nil_inv ts ts' : notified [] ts ts' -> ts' = ts.
Proof. by inversion 1. Qed.
Lemma notified_all_inv v ts ts' : notified [All v] ts ts' -> ts' = map (wake_on v) ts.
Proof. inversion 1; subst. by match goal with H : notified [] _ _ |- _ => apply notified_nil_inv in H end. Qed.
Lemma resumes_woken `{!Quiet} c c' : resumes c c' ->
  total woken (threads c) = Datatypes.S (total woken (threads c')) /\ length (threads c') = length (threads c).
Proof.
  intros [i t w d d' Hi Hw Hs]. unfold settles in Hs. destruct (resume i w (shared d)) as [s r n|s w'] eqn:E.
  - destruct Hs as (ts & Hn & ->). rewrite (resume_quiet _ _ _ _ _ _ E) in Hn. apply notified_nil_inv in Hn as ->. simpl.
    pose proof (total_insert woken (threads d) i t (mk_thread (finish (client t) (op_of w) r) Running) Hi) as Ht.
    assert (woken t = 1%nat) by (unfold woken; by rewrite Hw). rewrite length_insert. split; [|done]. change (woken (mk_thread _ Running)) with 0%nat in Ht. lia.
  - subst d'. simpl. pose proof (total_insert woken (threads d) i t (mk_thread (client t) (Asleep w')) Hi) as Ht.
    assert (woken t = 1%nat) by (unfold woken; by rewrite Hw). rewrite length_insert. split; [|done]. change (woken (mk_thread _ (Asleep w'))) with 0%nat in Ht. lia.
Qed.
Lemma resumes_bounded `{!Quiet} n : forall c c', nsteps resumes n c c' -> (n + total woken (threads c') = total woken (threads c))%nat.
Proof.
  induction n as [|n IH]; intros c c' Hn; inversion Hn; subst; [done|].
  match goal with H1 : resumes _ _, H2 : nsteps _ _ _ _ |- _ => apply resumes_woken in H1 as [H1 _]; apply IH in H2 end. lia.
Qed.
End quiet.

(** Waiting for tokens: a waiter takes one, and whoever adds one wakes a waiter. *)
Section tokens.
Context (tokens : S -> nat) (good : S -> Prop) (v : CV).

Definition takes_or_gives (s : S) (out : outcome S W R CV) : Prop :=
  match out with
  | Return s' r n => good s' /\ (n = [] /\ (tokens s' <= tokens s)%nat \/ n = [One v] /\ (tokens s' <= Datatypes.S (tokens s))%nat \/ n = [All v])
  | Wait s' w => good s' /\ tokens s' = 0%nat
  end.
Definition takes (s : S) (out : outcome S W R CV) : Prop :=
  match out with
  | Return s' r n => good s' /\ n = [] /\ tokens s = Datatypes.S (tokens s')
  | Wait s' w => good s' /\ tokens s' = 0%nat
  end.
Class Tokens := {
  one_variable w : cv_of w = v;
  call_tokens i k o s : good s -> allowed k o s -> takes_or_gives s (call i o s);
  resume_tokens i w s : good s -> takes s (resume i w s)
}.

Definition no_lost_wake_up (c : config) : Prop :=
  good (shared c) /\ ((0 < total asleep (threads c))%nat -> (tokens (shared c) <= total woken (threads c))%nat).

Lemma asleep_sleeps `{!Tokens} t : sleeps_on v t = negb (Nat.eqb (asleep t) 0).
Proof. unfold sleeps_on, asleep. destruct (state t); [done| |done]. rewrite one_variable. by rewrite bool_decide_eq_true_2. Qed.
Lemma total_none f ts : Forall (fun t => f t = 0%nat) ts -> total f ts = 0%nat.
Proof. unfold total. induction 1 as [|t ts H _ IH]; simpl; lia. Qed.

Lemma asleep_wake_on `{!Tokens} t : asleep (wake_on v t) = 0%nat.
Proof. unfold wake_on. rewrite asleep_sleeps. unfold asleep, wake_up. destruct (state t) eqn:E; simpl; rewrite ?E; done. Qed.
Lemma total_all `{!Tokens} ts : total asleep (map (wake_on v) ts) = 0%nat.
Proof. unfold total. induction ts as [|t ts IH]; simpl; [done|]. rewrite IH, asleep_wake_on. done. Qed.

(** What a notification does to the numbers *)
Lemma notify_none `{!Tokens} ts ts' : notified [All v] ts ts' -> total asleep ts' = 0%nat.
Proof. intros ->%notified_all_inv. apply total_all. Qed.
Lemma notify_one `{!Tokens} ts ts' : notified [One v] ts ts' -> total asleep ts' = 0%nat \/
  (total asleep ts = Datatypes.S (total asleep ts') /\ total woken ts' = Datatypes.S (total woken ts))%nat.
Proof.
  inversion 1 as [| |? ? ? ? i t Hi Hv Hn|? ? ? ? Hno Hn]; subst; apply notified_nil_inv in Hn as ->.
  - right. pose proof (total_insert asleep ts i t (wake_up t) Hi). pose proof (total_insert woken ts i t (wake_up t) Hi).
    unfold sleeps_on in Hv. unfold asleep, woken, wake_up in *. destruct (state t); simpl in *; try done. lia.
  - left. apply total_none. eapply Forall_impl; [exact Hno|]. intros t Ht. simpl in Ht.
    rewrite asleep_sleeps in Ht. destruct (asleep t); done.
Qed.

Lemma total_state f ts i t t' : ts !! i = Some t -> f t = f t' -> total f (<[i := t']> ts) = total f ts.
Proof. intros Hi E. pose proof (total_insert f ts i t t' Hi). lia. Qed.
Lemma total_unasked ts i t : ts !! i = Some t ->
  (total asleep (<[i := wake_up t]> ts) <= total asleep ts /\ total woken ts <= total woken (<[i := wake_up t]> ts))%nat.
Proof.
  intros Hi. pose proof (total_insert asleep ts i t (wake_up t) Hi). pose proof (total_insert woken ts i t (wake_up t) Hi).
  unfold asleep, woken, wake_up in *. destruct (state t) eqn:E; simpl in *; rewrite ?E in *; lia.
Qed.

Lemma no_lost_step `{!Tokens} c c' : no_lost_wake_up c -> step c c' -> no_lost_wake_up c'.
Proof.
  intros Hc Hst. revert Hc.
  destruct Hst as [i t o d d' Hi Ht Hal Hs|d d' [i t w e e' Hi Ht Hs]|i t d Hi]; intros [Hg Hw].
  - pose proof (call_tokens i (client t) o (shared d) Hg Hal) as Hc. unfold settles in Hs.
    assert (Ha : asleep t = 0%nat /\ woken t = 0%nat) by (unfold asleep, woken; by rewrite Ht).
    destruct (call i o (shared d)) as [s r n|s w]; simpl in Hc.
    + destruct Hs as (ts & Hn & ->). destruct Hc as [Hg' Hc]. split; [done|]. simpl.
      pose proof (total_state asleep (threads d) i t (mk_thread (finish (client t) o r) Running) Hi) as E1.
      pose proof (total_state woken (threads d) i t (mk_thread (finish (client t) o r) Running) Hi) as E2.
      specialize (E1 (proj1 Ha)). specialize (E2 (proj2 Ha)).
      destruct Hc as [[-> Hc]|[[-> Hc]| ->]].
      * apply notified_nil_inv in Hn as ->. rewrite E1, E2. intros H1. specialize (Hw H1). lia.
      * apply notify_one in Hn. rewrite E1, E2 in Hn. intros. destruct Hn as [Hn|Hn]; [lia|]. specialize (Hw ltac:(lia)). lia.
      * apply notify_none in Hn. lia.
    + subst d'. simpl in *. destruct Hc as [? Hc]. split; [done|]. simpl. rewrite Hc. lia.
  - pose proof (resume_tokens i w (shared e) Hg) as Hc. unfold settles in Hs.
    assert (Ha : asleep t = 0%nat /\ woken t = 1%nat) by (unfold asleep, woken; by rewrite Ht).
    destruct (resume i w (shared e)) as [s r n|s w']; simpl in Hc.
    + destruct Hs as (ts & Hn & ->). destruct Hc as (Hg' & -> & Hc). apply notified_nil_inv in Hn as ->. split; [done|]. simpl.
      pose proof (total_insert asleep (threads e) i t (mk_thread (finish (client t) (op_of w) r) Running) Hi) as E1.
      pose proof (total_insert woken (threads e) i t (mk_thread (finish (client t) (op_of w) r) Running) Hi) as E2.
      change (asleep (mk_thread _ Running)) with 0%nat in E1. change (woken (mk_thread _ Running)) with 0%nat in E2.
      intros H1. specialize (Hw ltac:(lia)). lia.
    + subst e'. destruct Hc as [? Hc]. split; [done|]. simpl. rewrite Hc. lia.
  - split; [done|]. simpl. intros. destruct (total_unasked _ _ _ Hi). specialize (Hw ltac:(lia)). lia.
Qed.
Lemma no_lost_reachable `{!Tokens} s n k c : good s -> reachable s n k c -> no_lost_wake_up c.
Proof.
  intros Hg Hr. refine (reachable_inv no_lost_wake_up s n k c _ _ Hr); [|intros; by eapply no_lost_step].
  split; [done|]. simpl. rewrite total_replicate. change (asleep (mk_thread _ Running)) with 0%nat. lia.
Qed.
End tokens.
End monitor.
End Monitor.
