(* ===== verification/Sync.v ===== *)
(** * Queues, semaphores and conditions

    Models [Queue], [Semaphore], [SemaphoreMap] and [Condition] of
    [src/libs/mt/ot-mt.h] as monitors ([Monitor.v]), with any number of threads:
    what they hand over, in which order, and that nobody sleeps when there is
    something to wake up for. *)
From S2P Require Export Monitor StrMap.

(** ** [Queue] *)
Module Queue.
Import Monitor.

Section queue.
Context {T : Type}.

Inductive op := Waiting | Send (msg : T) | Poll | WaitFor | Limit (n : Z) | Flush.
Inductive result := Length (n : Z) | Done | Answer (b : bool) | Message (msg : T).
Inductive wait_point := Available.

(** The loop of [limit] *)
Fixpoint limit_loop (q : list T) (n : Z) (result : bool) : list T * bool :=
  match q with
  | [] => ([], result)
  | _ :: rest => if zlen q >? n then limit_loop rest n true else (q, result)
  end.

(** The loop of [wait], from its top: the lock is released and taken again
    between its turns, which is no different from waking up later. *)
Definition wait_loop (q : list T) : outcome (list T) wait_point result unit :=
  match q with
  | [] => Wait [] Available
  | msg :: q => Return q (Message msg) []
  end.

Definition method (o : op) (q : list T) : outcome (list T) wait_point result unit :=
  match o with
  | Waiting => Return q (Length (zlen q)) []
  | Send msg => Return (q ++ [msg]) Done [One tt]
  | Poll => Return q (Answer (match q with [] => false | _ => true end)) []
  | WaitFor => wait_loop q
  | Limit n => let '(q, result) := limit_loop q n false in Return q (Answer result) []
  | Flush => Return [] Done []
  end.

#[global] Instance queue_monitor : Monitor (list T) wait_point op result unit unit := {
  cv_of _ := tt;
  op_of _ := WaitFor;
  call _ o q := method o q;
  resume _ _ q := wait_loop q;
  allowed _ _ _ := True;
  finish _ _ _ := tt
}.

(** ** What went in and out *)
Definition is_sent (e : nat * op * result) : list T := match e with (_, Send msg, _) => [msg] | _ => [] end.
Definition is_received (e : nat * op * result) : list T := match e with (_, WaitFor, Message msg) => [msg] | _ => [] end.
Definition drops (e : nat * op * result) : bool := match e with (_, Limit _, _) | (_, Flush, _) => true | _ => false end.
Definition sent (h : list (nat * op * result)) : list T := flat_map is_sent h.
Definition received (h : list (nat * op * result)) : list T := flat_map is_received h.

(** A queue that nobody shares *)
Definition spec (o : op) (q : list T) : option (list T * result) :=
  match method o q with Return q r _ => Some (q, r) | Wait _ _ => None end.

#[global] Instance queue_sequential : Sequential spec id.
Proof.
  split.
  - intros i k o q _. unfold agrees, call, queue_monitor, spec, id. by destruct (method o q) eqn:E; [|destruct o, q; simplify_eq/=; repeat case_match; simplify_eq].
  - intros i w q. unfold agrees, resume, queue_monitor, spec, id. simpl. by destruct q.
Qed.

#[global] Instance queue_tokens : Tokens length (fun _ => True) tt.
Proof.
  assert (Hl : forall n q r, (length (fst (limit_loop q n r)) <= length q)%nat).
  { intros n. induction q as [|x q IH]; intros r; [done|].
    change (limit_loop (x :: q) n r) with (if zlen (x :: q) >? n then limit_loop q n true else (x :: q, r)).
    case_match; simpl; [specialize (IH true); lia|lia]. }
  split; [by intros []| |].
  - intros i k o q _ _. unfold call, queue_monitor, takes_or_gives. destruct o; simpl.
    + auto.
    + split; [done|]. right. left. rewrite length_app. simpl. split; [done|lia].
    + auto.
    + destruct q; simpl; auto.
    + specialize (Hl n q false). destruct (limit_loop q n false) as [q' b]. simpl in *. auto.
    + split; [done|]. left. split; [done|lia].
  - intros i w q _. unfold resume, queue_monitor, takes. destruct q; simpl; auto.
Qed.
#[global] Instance queue_quiet : Quiet.
Proof. intros i w q s' r n. unfold resume, queue_monitor. destruct q; simpl; [done|]. by intros [= _ _ <-]. Qed.

Lemma limit_loop_drops n : forall q r, exists dropped, q = dropped ++ fst (limit_loop q n r).
Proof.
  induction q as [|x q IH]; intros r; [by exists []|].
  change (limit_loop (x :: q) n r) with (if zlen (x :: q) >? n then limit_loop q n true else (x :: q, r)).
  case_match; [|by exists []]. destruct (IH true) as [d Hd]. exists (x :: d). simpl. by rewrite <- Hd.
Qed.

(** One call of the history *)
Lemma spec_entry i o r q q' : spec o q = Some (q', r) ->
  exists dropped, q ++ is_sent (i, o, r) = is_received (i, o, r) ++ dropped ++ q' /\ (drops (i, o, r) = false -> dropped = []).
Proof.
  unfold spec. destruct o as [|msg| | |n|]; simpl.
  - intros [= <- <-]. exists []. by rewrite app_nil_r.
  - intros [= <- <-]. by exists [].
  - intros [= <- <-]. exists []. by rewrite app_nil_r.
  - destruct q as [|msg q]; simpl; [done|]. intros [= <- <-]. exists []. by rewrite app_nil_r.
  - destruct (limit_loop_drops n q false) as [d Hd]. destruct (limit_loop q n false) as [q1 b]. intros [= <- <-].
    exists d. by rewrite app_nil_r.
  - intros [= <- <-]. exists q. by rewrite !app_nil_r.
Qed.

(** The messages dropped come from the front of the queue. *)
Lemma history_fifo h : forall q q', explains spec h q -> replay spec h q = Some q' ->
  received h ++ q' `sublist_of` q ++ sent h /\ (Forall (fun e => drops e = false) h -> q ++ sent h = received h ++ q').
Proof.
  induction h as [|[[i o] r] h IH]; intros q q' He Hr.
  - simpl in *. simplify_eq. rewrite app_nil_r. done.
  - simpl in He, Hr. destruct He as (q1 & Hs & He). rewrite Hs in Hr. simpl in Hr.
    destruct (IH q1 q' He Hr) as [Hsub Heq]. destruct (spec_entry i o r q q1 Hs) as (d & Hd & Hdrop).
    change (sent ((i, o, r) :: h)) with (is_sent (i, o, r) ++ sent h).
    change (received ((i, o, r) :: h)) with (is_received (i, o, r) ++ received h).
    rewrite app_assoc, Hd, <- !app_assoc. split.
    + apply sublist_app; [done|]. by apply sublist_inserts_l.
    + intros Hall. inversion Hall; subst. rewrite Hdrop by done. simpl. by rewrite Heq.
Qed.
End queue.
#[global] Arguments op T : clear implicits.
#[global] Arguments result T : clear implicits.

(** C18: a queue hands messages over in the order in which they were sent, each once, to whichever threads wait, under every interleaving: those received and then those in the queue are those sent, less what [limit] and [flush] took away; without those calls they are exactly those sent. *)
Theorem queue_fifo {T} n (c : config (list T) wait_point (op T) (result T) unit) : reachable [] n tt c ->
  received (history c) ++ shared c `sublist_of` sent (history c) /\
  (Forall (fun e => drops e = false) (history c) -> sent (history c) = received (history c) ++ shared c).
Proof.
  intros Hr. destruct (history_sequential spec id [] n tt c Hr) as [He Hp].
  by destruct (history_fifo (history c) [] (shared c) He Hp).
Qed.

(** C19: nobody is left asleep while there are messages: from every state that threads can reach, the waiting threads that have been woken run for at most one step each before they return or sleep again, in any order; and when none of them is left, either the queue is empty or no thread waits. *)
Theorem queue_served {T} n (c c' : config (list T) wait_point (op T) (result T) unit) k : reachable [] n tt c ->
  nsteps resumes k c c' ->
  (k <= total woken (threads c))%nat /\
  (total woken (threads c') = 0%nat -> shared c' = [] \/ total waiting (threads c') = 0%nat).
Proof.
  intros Hr Hk. pose proof (resumes_bounded k c c' Hk) as Hb. split; [lia|]. intros H0.
  pose proof (reachable_resumes _ _ _ _ _ _ Hr Hk) as Hr'.
  destruct (no_lost_reachable length (fun _ => True) tt [] n tt c' I Hr') as [_ Hl].
  rewrite total_waiting, H0. destruct (decide (total asleep (threads c') = 0%nat)) as [->|Ha]; [by right|].
  left. specialize (Hl ltac:(lia)). apply nil_length_inv. lia.
Qed.

(** Thread 0 waits, thread 1 sends 7 (which wakes it up), and it goes on. *)
Definition running : thread wait_point unit := mk_thread tt Running.
Definition sample_woken : config (list Z) wait_point (op Z) (result Z) unit :=
  mk_config [7] [mk_thread tt (Woken Available); running] [(1%nat, Send 7, Done)].
Definition sample_end : config (list Z) wait_point (op Z) (result Z) unit :=
  mk_config [] [running; running] [(1%nat, Send 7, Done); (0%nat, WaitFor, Message 7)].
Lemma queue_sample_reachable : reachable [] 2 tt sample_woken.
Proof.
  eapply rtc_l; [eapply (step_call 0 running WaitFor); [done|done|done|simpl; reflexivity]|].
  eapply rtc_l; [eapply (step_call 1 running (Send 7)); [done|done|done|]|apply rtc_refl].
  simpl. eexists. split; [|reflexivity]. by eapply (notified_one tt [] _ _ 0); [done|done|constructor].
Qed.
Lemma queue_sample_resumes : resumes sample_woken sample_end.
Proof. eapply (resumes_intro 0); [done|done|]. simpl. eexists. split; [constructor|done]. Qed.
Lemma sample_end_reachable : reachable [] 2 tt sample_end.
Proof. eapply rtc_r; [exact queue_sample_reachable|]. apply step_resume, queue_sample_resumes. Qed.

Lemma queue_fifo_witness : sent (history sample_end) = received (history sample_end) ++ shared sample_end.
Proof. apply (proj2 (queue_fifo 2 sample_end sample_end_reachable)). repeat constructor. Defined.
Lemma queue_served_witness : (1 <= total woken (threads sample_woken))%nat.
Proof.
  exact (proj1 (queue_served 2 sample_woken sample_end 1 queue_sample_reachable
    (nsteps_once _ _ queue_sample_resumes))).
Defined.
End Queue.

(** ** [Semaphore] *)
Module Semaphore.
Import Monitor.

Inductive op := Signal | SignalTimes (n : Z) | WaitFor.
Inductive wait_point := Counted.

(** The loop of [wait], from its test *)
Definition wait_loop (count : Z) : outcome Z wait_point unit unit :=
  if count =? 0 then Wait count Counted else Return (i32 (count - 1)) tt [].
Definition method (o : op) (count : Z) : outcome Z wait_point unit unit :=
  match o with
  | Signal => Return (i32 (count + 1)) tt [One tt]
  | SignalTimes n => Return (i32 (count + n)) tt [All tt]
  | WaitFor => wait_loop count
  end.

(** The callers do not signal a negative number of times, nor so often that the count overflows. *)
Definition times (o : op) : Z := match o with Signal => 1 | SignalTimes n => n | WaitFor => 0 end.
#[global] Instance semaphore_monitor : Monitor Z wait_point op unit unit unit := {
  cv_of _ := tt;
  op_of _ := WaitFor;
  call _ o count := method o count;
  resume _ _ count := wait_loop count;
  allowed _ o count := 0 <= times o /\ count + times o < 2 ^ 31;
  finish _ _ _ := tt
}.

(** [SemaphoreMap::get_semaphore]: the counts by use *)
Definition get_semaphore (use : bytes) (initial_count : Z) (semaphores : list (bytes * Z)) : list (bytes * Z) :=
  match map_find use semaphores with
  | None => map_set use (i32 (0 + initial_count)) semaphores
  | Some _ => semaphores
  end.

Definition good (count : Z) : Prop := 0 <= count < 2 ^ 31.

#[global] Instance semaphore_tokens : Tokens Z.to_nat good tt.
Proof.
  assert (Hw : forall count, good count -> takes Z.to_nat good count (wait_loop count)).
  { intros count Hc. unfold good in *. unfold wait_loop. destruct (Z.eqb_spec count 0) as [->|Hz]; simpl; [done|].
    rewrite swrap_small by (unfold in_s; simpl in *; lia). split; [unfold good; lia|]. split; [done|lia]. }
  split; [by intros []| |].
  - intros i k o count Hc [Ht Ho]. unfold good in *. destruct o as [|n|]; simpl in *.
    + rewrite swrap_small by (unfold in_s; simpl in *; lia). split; [unfold good; lia|]. right. left. split; [done|lia].
    + rewrite swrap_small by (unfold in_s; simpl in *; lia). split; [unfold good; lia|]. by right; right.
    + specialize (Hw count Hc). unfold takes in Hw. unfold wait_loop in *. destruct (count =? 0); simpl in *; [done|].
      destruct Hw as (? & _ & Hw). split; [done|]. left. split; [done|lia].
  - intros i w count Hc. by apply Hw.
Qed.
#[global] Instance semaphore_quiet : Quiet.
Proof. intros i w count s' r n. simpl. unfold wait_loop. by destruct (count =? 0); intros [= _ _ <-]. Qed.

(** The times it was signalled, and waited for with success *)
Definition signalled (h : list (nat * op * unit)) : Z := fold_right (fun e s => times (snd (fst e)) + s) 0 h.
Definition is_pass (e : nat * op * unit) : Z := match snd (fst e) with WaitFor => 1 | _ => 0 end.
Definition passed (h : list (nat * op * unit)) : Z := fold_right (fun e s => is_pass e + s) 0 h.

Lemma signalled_snoc h e : signalled (h ++ [e]) = signalled h + times (snd (fst e)).
Proof. unfold signalled. induction h as [|x h IH]; simpl; [lia|]. rewrite IH. lia. Qed.
Lemma passed_snoc h e : passed (h ++ [e]) = passed h + is_pass e.
Proof. unfold passed. induction h as [|x h IH]; simpl; [lia|]. rewrite IH. lia. Qed.

Lemma count_step (c c' : config Z wait_point op unit unit) initial : good (shared c) /\ shared c = initial + signalled (history c) - passed (history c) ->
  step c c' -> good (shared c') /\ shared c' = initial + signalled (history c') - passed (history c').
Proof.
  intros Hc Hst. revert Hc.
  assert (Hw : forall i t d d', settles i t WaitFor (wait_loop (shared d)) d d' -> good (shared d) /\ shared d = initial + signalled (history d) - passed (history d) ->
    good (shared d') /\ shared d' = initial + signalled (history d') - passed (history d')).
  { intros i t d d' Hs [Hg E]. unfold wait_loop in Hs. unfold good in *. destruct (Z.eqb_spec (shared d) 0) as [Hz|Hz]; simpl in Hs.
    - subst d'. simpl. lia.
    - destruct Hs as (ts & _ & ->). simpl. rewrite swrap_small by (unfold in_s; simpl in *; lia).
      rewrite signalled_snoc, passed_snoc. unfold is_pass. simpl. lia. }
  destruct Hst as [i t o d d' _ _ [Ht Ho] Hs|d d' [i t w e e' _ _ Hs]|i t d _]; [|eauto|done].
  destruct o as [|n|]; [| |by eauto]; intros [Hg E]; unfold good in *; simpl in *;
    destruct Hs as (ts & _ & ->); simpl; rewrite swrap_small by (unfold in_s; simpl in *; lia);
    rewrite signalled_snoc, passed_snoc; unfold is_pass; simpl; lia.
Qed.

(** C20: a semaphore counts: under every interleaving the count is its initial value and the signals less the waits that have passed, so no more of them pass than that; and no thread is left asleep while the count is not zero: from every reachable state the woken threads run for at most a step each, and when none of them is left, the count is zero or no thread waits. *)
Theorem semaphore_counts initial n (c c' : config Z wait_point op unit unit) k : 0 <= initial < 2 ^ 31 ->
  reachable initial n tt c -> nsteps resumes k c c' ->
  shared c = initial + signalled (history c) - passed (history c) /\
  passed (history c) <= initial + signalled (history c) /\
  (k <= total woken (threads c))%nat /\
  (total woken (threads c') = 0%nat -> shared c' = 0 \/ total waiting (threads c') = 0%nat).
Proof.
  intros Hi Hr Hk. pose proof (resumes_bounded k c c' Hk) as Hb.
  assert (Hc : good (shared c) /\ shared c = initial + signalled (history c) - passed (history c)).
  { refine (reachable_inv (fun c => good (shared c) /\ shared c = initial + signalled (history c) - passed (history c)) _ _ _ _ _ _ Hr).
    - simpl. unfold good. lia.
    - intros d d' Hd Hst. by apply count_step with d. }
  unfold good in Hc. split_and!; [lia|lia|lia|]. intros H0. pose proof (reachable_resumes _ _ _ _ _ _ Hr Hk) as Hr'.
  destruct (no_lost_reachable Z.to_nat good tt initial n tt c' Hi Hr') as [Hg Hl]. unfold good in Hg.
  rewrite total_waiting, H0. destruct (decide (total asleep (threads c') = 0%nat)) as [->|Ha]; [by right|].
  left. specialize (Hl ltac:(lia)). lia.
Qed.

(** One thread passes a semaphore of 1, the other waits until it signals. *)
Definition running : thread wait_point unit := mk_thread tt Running.
Definition sample : config Z wait_point op unit unit :=
  mk_config 1 [running; mk_thread tt (Woken Counted)] [(0%nat, WaitFor, tt); (0%nat, Signal, tt)].
Definition sample_end : config Z wait_point op unit unit :=
  mk_config 0 [running; running] [(0%nat, WaitFor, tt); (0%nat, Signal, tt); (1%nat, WaitFor, tt)].
Lemma semaphore_sample_reachable : reachable 1 2 tt sample.
Proof.
  eapply rtc_l; [eapply (step_call 0 running WaitFor); [done|done|done|simpl; eexists; split; [constructor|reflexivity]]|].
  eapply rtc_l; [eapply (step_call 1 running WaitFor); [done|done|done|simpl; reflexivity]|].
  eapply rtc_l; [eapply (step_call 0 running Signal); [done|done|done|]|apply rtc_refl].
  simpl. eexists. split; [|reflexivity]. by eapply (notified_one tt [] _ _ 1); [done|done|constructor].
Qed.
Lemma semaphore_sample_resumes : resumes sample sample_end.
Proof. eapply (resumes_intro 1); [done|done|]. simpl. eexists. split; [constructor|done]. Qed.
Lemma semaphore_counts_witness : passed (history sample) <= 1 + signalled (history sample).
Proof.
  refine (proj1 (proj2 (semaphore_counts 1 2 sample sample_end 1 _ semaphore_sample_reachable (nsteps_once _ _ semaphore_sample_resumes)))).
  lia.
Defined.

(** A negative initial count does not block. *)
Example semaphore_negative : wait_loop (-1) = Return (-2) tt [].
Proof. reflexivity. Qed.
End Semaphore.

(** ** [Condition] *)
Module Condition.
Import Monitor.

(** [WaitTime] is [wait_for] or [wait_until]. *)
Inductive op := Get | WaitFor (desired : bool) | WaitTime (desired : bool) | Signal (value : bool) | Broadcast (value : bool) | Clear.
Inductive result := Done | Value (flag : bool).
Inductive wait_point := Until (desired : bool) | Once (desired : bool).

Definition wait_loop (desired flag : bool) : outcome bool wait_point result unit :=
  if bool_decide (flag <> desired) then Wait flag (Until desired) else Return flag Done [].
Definition method (o : op) (flag : bool) : outcome bool wait_point result unit :=
  match o with
  | Get => Return flag (Value flag) []
  | WaitFor desired => wait_loop desired flag
  | WaitTime desired => if bool_decide (flag <> desired) then Wait flag (Once desired) else Return flag Done []
  | Signal value => if bool_decide (flag <> value) then Return value Done [One tt] else Return flag Done []
  | Broadcast value => if bool_decide (flag <> value) then Return value Done [All tt] else Return flag Done []
  | Clear => Return false Done []
  end.

(** Which of the operations the program uses *)
Record policy := mk_policy { uses_signal : bool; uses_clear : bool }.
#[global] Instance condition_monitor : Monitor bool wait_point op result unit policy := {
  cv_of _ := tt;
  op_of w := match w with Until desired => WaitFor desired | Once desired => WaitTime desired end;
  call _ o flag := method o flag;
  resume _ w flag := match w with Until desired => wait_loop desired flag | Once _ => Return flag Done [] end;
  allowed k o _ := match o with Signal _ => uses_signal k = true | Clear => uses_clear k = true | _ => True end;
  finish k _ _ := k
}.
#[global] Instance condition_quiet : Quiet.
Proof. intros i w flag s' r n. simpl. unfold wait_loop. destruct w; repeat case_match; by intros [= _ _ <-] || done. Qed.

Definition desired_of (w : wait_point) : bool := match w with Until desired | Once desired => desired end.

(** Nobody sleeps until the flag has the value it has, unless it was cleared. *)
Definition awake (k : policy) (flag : bool) (t : thread wait_point policy) : Prop :=
  client t = k /\ forall w, state t = Asleep w -> desired_of w = flag -> uses_clear k = true /\ flag = false.

Lemma awake_all k flag (ts : list (thread wait_point policy)) : Forall (fun t => client t = k) ts -> Forall (awake k flag) (map (wake_on tt) ts).
Proof.
  intros H. apply Forall_map. eapply Forall_impl; [exact H|]. intros t Ht. unfold wake_on, sleeps_on, wake_up.
  destruct (state t) as [|w|w] eqn:E; simpl; [by split; rewrite ?E|by split|by split; rewrite ?E].
Qed.
Lemma awake_settles k i t o flag out (c c' : config bool wait_point op result policy) :
  flag = shared c -> Forall (awake k flag) (threads c) -> threads c !! i = Some t ->
  match out with
  | Return flag' _ n => n = [] /\ (flag' = flag \/ uses_clear k = true /\ flag' = false) \/ n = [All tt]
  | Wait flag' w => flag' = flag /\ desired_of w <> flag
  end -> settles i t o out c c' -> Forall (awake k (shared c')) (threads c').
Proof.
  intros -> Hf Hi Hout Hs. assert (Ht : client t = k) by (by eapply Forall_lookup_1 in Hf as [? _]).
  assert (Hrun : forall r flag, awake k flag (mk_thread (finish (client t) o r) Running)) by (by split).
  destruct out as [flag r n|flag w]; simpl in Hs.
  - destruct Hs as (ts & Hn & ->). simpl. destruct Hout as [[-> Hv]| ->].
    + apply notified_nil_inv in Hn as ->. apply Forall_insert; [|done]. eapply Forall_impl; [exact Hf|].
      intros u [Hu Hw]. split; [done|]. intros w E D. destruct Hv as [-> |Hv]; [eauto|done].
    + apply notified_all_inv in Hn as ->. apply awake_all. apply Forall_insert; [|done].
      eapply Forall_impl; [exact Hf|]. by intros u [Hu _].
  - subst c'. destruct Hout as [-> Hd]. simpl. apply Forall_insert; [done|]. split; [done|]. simpl. intros w' [= <-] ?. done.
Qed.
Lemma awake_step k (c c' : config bool wait_point op result policy) : uses_signal k = false ->
  Forall (awake k (shared c)) (threads c) -> step c c' -> Forall (awake k (shared c')) (threads c').
Proof.
  intros Hns Hf Hst. revert Hf.
  destruct Hst as [i t o d d' Hi _ Hal Hs|d d' [i t w e e' Hi _ Hs]|i t d Hi]; intros Hf.
  - eapply awake_settles; [done|exact Hf|exact Hi| |exact Hs].
    assert (Hc : client t = k) by (by eapply Forall_lookup_1 in Hf as [? _]). rewrite Hc in Hal. simpl in Hal.
    destruct o as [|v|v|v|v|]; simpl; unfold wait_loop; repeat case_bool_decide; simpl; rewrite ?Hns in Hal; naive_solver.
  - eapply awake_settles; [done|exact Hf|exact Hi| |exact Hs].
    destruct w as [v|v]; simpl; unfold wait_loop; repeat case_bool_decide; simpl; naive_solver.
  - simpl. apply Forall_insert; [done|]. eapply Forall_lookup_1 in Hf as [Hc Hw]; [|exact Hi].
    unfold awake, wake_up. destruct (state t) as [|w|w] eqn:E; simpl; rewrite ?E; naive_solver.
Qed.

(** A condition that is only broadcast wakes everybody: from every reachable state the woken threads run for at most a step each, and when none of them is left, no thread sleeps until the flag has the value it has; except that [clear], which wakes nobody, leaves those that wait for [false]. *)
Theorem condition_broadcast flag n k (c c' : config bool wait_point op result policy) m : uses_signal k = false ->
  reachable flag n k c -> nsteps resumes m c c' ->
  (m <= total woken (threads c))%nat /\
  (total woken (threads c') = 0%nat -> forall i t w, threads c' !! i = Some t -> state t = Asleep w ->
     desired_of w = shared c' -> uses_clear k = true /\ shared c' = false).
Proof.
  intros Hns Hr Hk. pose proof (resumes_bounded m c c' Hk) as Hb. split; [lia|]. intros _ i t w Hi Hw Hd.
  pose proof (reachable_resumes _ _ _ _ _ _ Hr Hk) as Hr'.
  assert (Hf : Forall (awake k (shared c')) (threads c')).
  { refine (reachable_inv (fun c => Forall (awake k (shared c)) (threads c)) _ _ _ _ _ _ Hr').
    - simpl. apply Forall_replicate. by split.
    - intros d d' Hd' Hst. by apply awake_step with d. }
  eapply Forall_lookup_1 in Hf as [_ Hf]; [|exact Hi]. by apply Hf with w.
Qed.

Definition sleeper (k : policy) : thread wait_point policy := mk_thread k (Asleep (Until true)).
Definition only_broadcast := mk_policy false false.
Definition sample : config bool wait_point op result policy :=
  mk_config true [mk_thread only_broadcast (Woken (Until true)); mk_thread only_broadcast Running] [(1%nat, Broadcast true, Done)].
Definition sample_end : config bool wait_point op result policy :=
  mk_config true [mk_thread only_broadcast Running; mk_thread only_broadcast Running]
    [(1%nat, Broadcast true, Done); (0%nat, WaitFor true, Done)].
Lemma condition_sample_reachable : reachable false 2 only_broadcast sample.
Proof.
  eapply rtc_l; [eapply (step_call 0 (mk_thread only_broadcast Running) (WaitFor true)); [done|done|done|simpl; reflexivity]|].
  eapply rtc_l; [eapply (step_call 1 (mk_thread only_broadcast Running) (Broadcast true)); [done|done|done|]|apply rtc_refl].
  simpl. eexists. split; [|reflexivity]. apply notified_all. constructor.
Qed.
Lemma condition_broadcast_witness : (1 <= total woken (threads sample))%nat.
Proof.
  refine (proj1 (condition_broadcast false 2 only_broadcast sample sample_end 1 eq_refl condition_sample_reachable _)).
  apply nsteps_once. eapply (resumes_intro 0); [done|done|]. simpl. eexists. split; [constructor|done].
Defined.

(** With [signal], one of two waiting threads is left asleep although the flag is set, and a second [signal] wakes nobody. *)
Definition may_signal := mk_policy true false.
Example signal_leaves_one : exists c, reachable false 3 may_signal c /\ shared c = true /\
  threads c !! 1%nat = Some (sleeper may_signal) /\ method (Signal true) true = Return true Done [].
Proof.
  eexists. split; [|split; [|split; [|done]]].
  - eapply rtc_l; [eapply (step_call 0 (mk_thread may_signal Running) (WaitFor true)); [done|done|done|simpl; reflexivity]|].
    eapply rtc_l; [eapply (step_call 1 (mk_thread may_signal Running) (WaitFor true)); [done|done|done|simpl; reflexivity]|].
    eapply rtc_l; [eapply (step_call 2 (mk_thread may_signal Running) (Signal true)); [done|done|done|]|apply rtc_refl].
    simpl. eexists. split; [|reflexivity]. by eapply (notified_one tt [] _ _ 0); [done|done|constructor].
  - done.
  - done.
Qed.
End Condition.
