(* ===== verification/RWMutex.v ===== *)
(** * Readers and writers

    Models [RWMutex] of [src/libs/mt/ot-mt.h] as a monitor ([Monitor.v]) of any
    number of threads that lock and unlock it in a nested way, as [RWReadLock]
    and [RWWriteLock] do, and do not write within a read: a writer is alone, and
    nobody is left waiting while nobody holds it. *)
From S2P Require Export Monitor.

Module RWMutex.
Import Monitor.

Record RWMutex := mk_RWMutex {
  readers_active : Z; writers_waiting : Z; writer_active : bool;
  count : Z; writer : option nat   (** thread::id *)
}.
(** [count] is not initialised. *)
Definition new_RWMutex (junk : Z) : RWMutex := mk_RWMutex 0 0 false junk None.

Definition set_readers (n : Z) (s : RWMutex) : RWMutex :=
  mk_RWMutex n (writers_waiting s) (writer_active s) (count s) (writer s).
Definition set_writers (n : Z) (s : RWMutex) : RWMutex :=
  mk_RWMutex (readers_active s) n (writer_active s) (count s) (writer s).
Definition set_count (n : Z) (s : RWMutex) : RWMutex :=
  mk_RWMutex (readers_active s) (writers_waiting s) (writer_active s) n (writer s).
Definition set_active (b : bool) (s : RWMutex) : RWMutex :=
  mk_RWMutex (readers_active s) (writers_waiting s) b (count s) (writer s).
Definition set_writer (i : nat) (s : RWMutex) : RWMutex :=
  mk_RWMutex (readers_active s) (writers_waiting s) (writer_active s) (count s) (Some i).

Inductive op := LockReader | UnlockReader | LockWriter | UnlockWriter.
Inductive variable := NoReaders | NoWriter.
#[global] Instance variable_dec : EqDecision variable.
Proof. solve_decision. Defined.
(** Waiting in [lock_reader], and in the first and the second loop of [lock_writer] *)
Inductive wait_point := ReaderWaits | WriterWaits | WriterWaits2.
#[global] Instance wait_point_dec : EqDecision wait_point.
Proof. solve_decision. Defined.
Abbreviation outcome := (outcome RWMutex wait_point unit variable).

Definition owns (self : nat) (s : RWMutex) : bool := writer_active s && bool_decide (writer s = Some self).

(** ++readers_active *)
Definition claim_read (s : RWMutex) : outcome := Return (set_readers (u32 (readers_active s + 1)) s) tt [].
Definition reader_loop (s : RWMutex) : outcome :=
  if negb (writers_waiting s =? 0) || writer_active s then Wait s ReaderWaits else claim_read s.
Definition lock_reader (self : nat) (s : RWMutex) : outcome :=
  if negb (owns self s) then
    if readers_active s =? 0 then reader_loop s else claim_read s
  else Return s tt [].
Definition unlock_reader (self : nat) (s : RWMutex) : outcome :=
  if negb (owns self s) then
    let s := set_readers (u32 (readers_active s - 1)) s in
    Return s tt (if readers_active s =? 0 then [All NoReaders] else [])
  else Return s tt [].

Definition claim_write (self : nat) (s : RWMutex) : outcome :=
  let s := set_writers (u32 (writers_waiting s - 1)) s in
  Return (set_count 1 (set_writer self (set_active true s))) tt [].
Definition writer_loop2 (self : nat) (s : RWMutex) : outcome :=
  if writer_active s then Wait s WriterWaits2 else claim_write self s.
Definition writer_loop (self : nat) (s : RWMutex) : outcome :=
  if negb (readers_active s =? 0) then Wait s WriterWaits else writer_loop2 self s.
Definition lock_writer (self : nat) (s : RWMutex) : outcome :=
  if owns self s then Return (set_count (u32 (count s + 1)) s) tt []
  else writer_loop self (set_writers (u32 (writers_waiting s + 1)) s).
Definition unlock_writer (self : nat) (s : RWMutex) : outcome :=
  let s := set_count (u32 (count s - 1)) s in
  if count s =? 0 then Return (set_active false s) tt [All NoWriter] else Return s tt [].

(** ** How it is meant to be used *)

(** What a thread has locked, the last one first *)
Inductive hold := Read | Write.
Definition is_write (h : hold) : bool := match h with Write => true | Read => false end.
Definition first_is (h : hold) (k : list hold) : Prop := exists k', k = k' ++ [h].

(** Locks are undone in the order of a stack, at most [depth] deep, and a thread
    that has locked for read does not lock for write. *)
Definition meant (depth : nat) (k : list hold) (o : op) : Prop :=
  match o with
  | LockReader => (length k < depth)%nat
  | LockWriter => (length k < depth)%nat /\ (k = [] \/ first_is Write k)
  | UnlockReader => exists k', k = Read :: k'
  | UnlockWriter => exists k', k = Write :: k'
  end.
Definition holds_after (k : list hold) (o : op) : list hold :=
  match o with LockReader => Read :: k | LockWriter => Write :: k | _ => tail k end.

Section mutex.
Context (depth n : nat) (Hn : Z.of_nat n * Z.of_nat depth < 2 ^ 32).

#[global] Instance rw_monitor : Monitor RWMutex wait_point op unit variable (list hold) := {
  cv_of w := match w with WriterWaits => NoReaders | _ => NoWriter end;
  op_of w := match w with ReaderWaits => LockReader | _ => LockWriter end;
  call i o s := match o with
    | LockReader => lock_reader i s | UnlockReader => unlock_reader i s
    | LockWriter => lock_writer i s | UnlockWriter => unlock_writer i s end;
  resume i w s := match w with
    | ReaderWaits => reader_loop s | WriterWaits => writer_loop i s | WriterWaits2 => writer_loop2 i s end;
  allowed k o _ := meant depth k o;
  finish k o _ := holds_after k o
}.
Abbreviation thread := (thread wait_point (list hold)).
Abbreviation config := (config RWMutex wait_point op unit (list hold)).

#[global] Instance rw_quiet : Quiet.
Proof.
  intros i w s s' r l. simpl. unfold writer_loop, writer_loop2, reader_loop, claim_read, claim_write.
  destruct w; repeat case_match; by intros [= _ _ <-] || done.
Qed.

(** ** The invariant *)

(** The reads of a thread that the mutex counts: those not within a write *)
Definition reads (t : thread) : nat := if existsb is_write (client t) then 0%nat else length (client t).
Definition writes (t : thread) : nat := length (List.filter is_write (client t)).
Definition waits_to_write (t : thread) : nat :=
  match state t with Asleep w | Woken w => match w with ReaderWaits => 0%nat | _ => 1%nat end | Running => 0%nat end.

Definition thread_ok (t : thread) : Prop :=
  (length (client t) <= depth)%nat /\ (state t <> Running -> client t = [] /\ (0 < depth)%nat) /\
  (existsb is_write (client t) = true -> first_is Write (client t)).
(** Who sleeps waits for something that has not come yet; and nobody reads when a writer is past its first loop. *)
Definition wait_ok (s : RWMutex) (t : thread) : Prop :=
  match state t with
  | Running => True
  | Woken WriterWaits2 => readers_active s = 0
  | Woken _ => True
  | Asleep ReaderWaits => writer_active s = true \/ writers_waiting s <> 0
  | Asleep WriterWaits => readers_active s <> 0
  | Asleep WriterWaits2 => readers_active s = 0 /\ writer_active s = true
  end.

Record rw_core (s : RWMutex) (ts : list thread) : Prop := {
  inv_threads : Forall thread_ok ts;
  inv_length : length ts = n;
  inv_readers : readers_active s = Z.of_nat (total reads ts);
  inv_writers : writers_waiting s = Z.of_nat (total waits_to_write ts);
  inv_writer : writer_active s = true -> readers_active s = 0 /\
    exists i t, writer s = Some i /\ ts !! i = Some t /\ (0 < writes t)%nat;
  inv_owner : forall i t, ts !! i = Some t -> (0 < writes t)%nat ->
    writer_active s = true /\ writer s = Some i /\ count s = Z.of_nat (writes t)
}.
Definition rw_inv (c : config) : Prop := rw_core (shared c) (threads c) /\ Forall (wait_ok (shared c)) (threads c).

Lemma writes_pos t : (0 < writes t)%nat <-> existsb is_write (client t) = true.
Proof. clear -t. unfold writes. induction (client t) as [|[] k IH]; simpl; [split; [lia|done]|done|split; [done|lia]]. Qed.
Lemma first_write k : first_is Write k -> existsb is_write k = true.
Proof. intros [k' ->]. rewrite existsb_app. simpl. apply orb_true_r. Qed.
Lemma total_bound (f : thread -> nat) d ts : Forall (fun t => (f t <= d)%nat) ts -> (total f ts <= length ts * d)%nat.
Proof. clear -f. unfold total. induction 1 as [|t ts H _ IH]; simpl; lia. Qed.
Lemma reads_le t : thread_ok t -> (reads t <= depth)%nat.
Proof. intros (H & _ & _). unfold reads. case_match; lia. Qed.
Lemma waits_to_write_le t : (waits_to_write t <= 1)%nat.
Proof. clear -t. unfold waits_to_write. repeat case_match; lia. Qed.

(** Whether a thread owns the mutex for writing is what it has locked. *)
Lemma owns_writes s ts i t : rw_core s ts -> ts !! i = Some t -> owns i s = existsb is_write (client t).
Proof.
  intros Hinv Hi. unfold owns. destruct (existsb is_write (client t)) eqn:E.
  - apply writes_pos in E. destruct (inv_owner _ _ Hinv i t Hi E) as (-> & -> & _). by rewrite bool_decide_eq_true_2.
  - destruct (writer_active s) eqn:Ea; [|done]. simpl. apply bool_decide_eq_false_2. intros Hw.
    destruct (inv_writer _ _ Hinv Ea) as [_ (j & u & Hj & Hu & Hp)]. simplify_eq. apply writes_pos in Hp. congruence.
Qed.

(** Waking threads up *)
Lemma thread_ok_wake t : thread_ok t -> thread_ok (wake_up t).
Proof. unfold thread_ok, wake_up. destruct (state t) eqn:E; simpl; rewrite ?E; try done. intros (? & ? & ?). split_and!; [done| |done]. auto. Qed.
Lemma counts_wake : wake_blind reads /\ wake_blind writes /\ wake_blind waits_to_write.
Proof. split_and!; intros t; unfold reads, writes, waits_to_write, wake_up; destruct (state t) eqn:E; simpl; by rewrite ?E. Qed.
Lemma core_wake s ts i t : rw_core s ts -> ts !! i = Some t -> rw_core s (<[i := wake_up t]> ts).
Proof.
  intros [H1 H2 H3 H4 H5 H6] Hi. destruct counts_wake as (Hr & Hw & Hq).
  pose proof (total_insert reads ts i t (wake_up t) Hi). pose proof (total_insert waits_to_write ts i t (wake_up t) Hi).
  rewrite Hr, Hq in *. split.
  - apply Forall_insert; [done|]. eapply thread_ok_wake, Forall_lookup_1; eauto.
  - by rewrite length_insert.
  - lia.
  - lia.
  - intros Ha. destruct (H5 Ha) as [Hz (j & u & Hj & Hu & Hp)]. split; [done|]. exists j.
    destruct (decide (i = j)) as [->|Hne].
    + simplify_eq. exists (wake_up t). rewrite list_lookup_insert_eq by (by eapply lookup_lt_Some). by rewrite Hw.
    + exists u. by rewrite list_lookup_insert_ne.
  - intros j u Hj Hp. destruct (decide (i = j)) as [->|Hne].
    + rewrite list_lookup_insert_eq in Hj by (by eapply lookup_lt_Some). simplify_eq. rewrite Hw in *. by apply H6.
    + rewrite list_lookup_insert_ne in Hj by done. by apply H6.
Qed.
Lemma core_map s v ts : rw_core s ts -> rw_core s (map (wake_on v) ts).
Proof.
  intros [H1 H2 H3 H4 H5 H6]. destruct counts_wake as (Hr & Hw & Hq).
  assert (Hl : forall i u, map (wake_on v) ts !! i = Some u -> exists t, ts !! i = Some t /\ u = wake_on v t).
  { intros i u. rewrite list_lookup_fmap. destruct (ts !! i) as [t|]; [|done]. intros [= <-]. by exists t. }
  split.
  - apply Forall_map. eapply Forall_impl; [exact H1|]. intros t Ht. unfold wake_on. case_match; [by apply thread_ok_wake|done].
  - by rewrite length_map.
  - rewrite total_map; [done|]. intros. by apply wake_on_blind.
  - rewrite total_map; [done|]. intros. by apply wake_on_blind.
  - intros Ha. destruct (H5 Ha) as [Hz (j & u & Hj & Hu & Hp)]. split; [done|]. exists j, (wake_on v u).
    rewrite list_lookup_fmap, Hu. rewrite (wake_on_blind writes v u Hw). done.
  - intros j u Hj Hp. apply Hl in Hj as (t & Ht & ->). rewrite (wake_on_blind writes v t Hw) in *. by apply H6.
Qed.

(** A step changes one thread and the state. *)
Lemma core_insert s s' ts i t t' : rw_core s ts -> ts !! i = Some t -> thread_ok t' ->
  readers_active s' + Z.of_nat (reads t) = readers_active s + Z.of_nat (reads t') ->
  writers_waiting s' + Z.of_nat (waits_to_write t) = writers_waiting s + Z.of_nat (waits_to_write t') ->
  (writer_active s' = true -> readers_active s' = 0 /\
     ((writer s' = Some i /\ (0 < writes t')%nat) \/ (writer_active s = true /\ writer s' = writer s /\ writes t = 0%nat))) ->
  ((0 < writes t')%nat -> writer_active s' = true /\ writer s' = Some i /\ count s' = Z.of_nat (writes t')) ->
  (writer_active s = true -> writes t = 0%nat -> writer_active s' = true /\ writer s' = writer s /\ count s' = count s) ->
  rw_core s' (<[i := t']> ts).
Proof.
  intros [H1 H2 H3 H4 H5 H6] Hi Hok Hr Hq Hc1 Hc2 Hc3.
  pose proof (total_insert reads ts i t t' Hi). pose proof (total_insert waits_to_write ts i t t' Hi). split.
  - by apply Forall_insert.
  - by rewrite length_insert.
  - lia.
  - lia.
  - intros Ha. destruct (Hc1 Ha) as [Hz [[Hw Hp]|(Ha0 & Hw & Hp)]]; (split; [done|]).
    + exists i, t'. by rewrite list_lookup_insert_eq by (by eapply lookup_lt_Some).
    + destruct (H5 Ha0) as [_ (j & u & Hj & Hu & Hpu)]. exists j, u. rewrite Hw. split; [done|]. split; [|done].
      rewrite list_lookup_insert_ne; [done|]. intros ->. simplify_eq. lia.
  - intros j u Hj Hp. destruct (decide (i = j)) as [->|Hne].
    + rewrite list_lookup_insert_eq in Hj by (by eapply lookup_lt_Some). simplify_eq. auto.
    + rewrite list_lookup_insert_ne in Hj by done. destruct (H6 j u Hj Hp) as (Ha & Hw & Hcount).
      assert (Hz : writes t = 0%nat).
      { destruct (decide (0 < writes t)%nat) as [Hp'|]; [|lia]. destruct (H6 i t Hi Hp') as (_ & Hw' & _). congruence. }
      destruct (Hc3 Ha Hz) as (Ha' & Hw' & Hcount'). rewrite Hw', Hcount'. done.
Qed.

(** ** Every step keeps it *)

Definition keeps (s : RWMutex) (ts : list thread) (i : nat) (t : thread) (o : op) (out : outcome) : Prop :=
  match out with
  | Return s' _ l =>
    let ts' := <[i := mk_thread (holds_after (client t) o) Running]> ts in
    rw_core s' ts' /\ ((l = [] /\ Forall (wait_ok s') ts') \/ exists v, l = [All v] /\ Forall (wait_ok s') (map (wake_on v) ts'))
  | Wait s' w => let ts' := <[i := mk_thread (client t) (Asleep w)]> ts in rw_core s' ts' /\ Forall (wait_ok s') ts'
  end.
Lemma keeps_settles i t o out (c c' : config) : keeps (shared c) (threads c) i t o out -> settles i t o out c c' -> rw_inv c'.
Proof.
  unfold keeps, settles, rw_inv. destruct out as [s r l|s w].
  - intros [Hc [[-> Hw]|(v & -> & Hw)]] (ts & Hl & ->); simpl.
    + by apply notified_nil_inv in Hl as ->.
    + apply notified_all_inv in Hl as ->. split; [by apply core_map|done].
  - by intros [Hc Hw] ->.
Qed.

Lemma waits_insert s s' ts i t' : Forall (wait_ok s) ts -> (forall j u, ts !! j = Some u -> wait_ok s u -> wait_ok s' u) ->
  wait_ok s' t' -> Forall (wait_ok s') (<[i := t']> ts).
Proof.
  intros Hw Hu Ht. apply Forall_insert; [|done]. apply Forall_lookup. intros j u Hj.
  eapply Hu; [exact Hj|]. eapply Forall_lookup_1; [exact Hw|exact Hj].
Qed.

Section one_step.
Context (s : RWMutex) (ts : list thread) (i : nat) (t : thread).
Context (Hcore : rw_core s ts) (Hwaits : Forall (wait_ok s) ts) (Hi : ts !! i = Some t).
Abbreviation k := (client t).

Lemma this_ok : thread_ok t.
Proof. eapply Forall_lookup_1; [apply (inv_threads _ _ Hcore)|exact Hi]. Qed.
Lemma no_writer_while_reading : readers_active s <> 0 -> writer_active s = false.
Proof. intros H. destruct (writer_active s) eqn:E; [|done]. by destruct (inv_writer _ _ Hcore E). Qed.
Lemma not_writing : existsb is_write k = false -> writes t = 0%nat /\ reads t = length k.
Proof.
  intros E. split; [|unfold reads; by rewrite E]. destruct (writes t) eqn:Ew; [done|].
  assert (H : (0 < writes t)%nat) by lia. apply writes_pos in H. congruence.
Qed.
Lemma depth_pos : (0 < depth)%nat -> (Z.of_nat (total waits_to_write ts) <= Z.of_nat n) /\ Z.of_nat n < 2 ^ 32.
Proof.
  intros Hd. pose proof (total_bound waits_to_write 1 ts) as H. rewrite (inv_length _ _ Hcore) in H.
  split; [|nia]. assert (total waits_to_write ts <= n * 1)%nat; [|lia]. apply H. apply Forall_true. apply waits_to_write_le.
Qed.
Lemma new_reads_bound ts' : Forall thread_ok ts' -> length ts' = n -> Z.of_nat (total reads ts') < 2 ^ 32.
Proof.
  intros Hok Hl. pose proof (total_bound reads depth ts') as H. rewrite Hl in H.
  assert (total reads ts' <= n * depth)%nat; [|nia]. apply H. eapply Forall_impl; [exact Hok|]. apply reads_le.
Qed.

Lemma claim_read_keeps : state t = Running \/ waits_to_write t = 0%nat -> existsb is_write k = false -> (length k < depth)%nat ->
  writer_active s = false -> (readers_active s <> 0 \/ writers_waiting s = 0) -> keeps s ts i t LockReader (claim_read s).
Proof.
  intros Hq Hk Hd Ha Hr. destruct (not_writing Hk) as [Hw Hn']. destruct this_ok as (Hl & _ & _).
  set (t' := mk_thread (Read :: k) Running : thread).
  assert (Hok : thread_ok t') by (unfold thread_ok; simpl; rewrite Hk; split_and!; [lia|done|done]).
  assert (Hrt : reads t' = S (length k)) by (unfold reads; simpl; by rewrite Hk).
  assert (Hq0 : waits_to_write t = 0%nat) by (destruct Hq as [Hq|]; [unfold waits_to_write; by rewrite Hq|done]).
  pose proof (inv_readers _ _ Hcore) as Hreaders.
  assert (Hno : u32 (readers_active s + 1) = readers_active s + 1).
  { apply wrap_small. pose proof (new_reads_bound (<[i := t']> ts)) as Hb.
    specialize (Hb (Forall_insert _ _ _ _ (inv_threads _ _ Hcore) Hok)). rewrite length_insert in Hb.
    specialize (Hb (inv_length _ _ Hcore)). pose proof (total_insert reads ts i t t' Hi). unfold in_u. lia. }
  unfold keeps, claim_read. rewrite Hno. simpl. split.
  - apply core_insert with s t; simpl; try done.
    + unfold t' in Hrt. lia.
    + rewrite Hq0. done.
    + by rewrite Ha.
    + intros Hp. exfalso. change (writes (mk_thread (Read :: k) Running : thread)) with (writes t) in Hp. lia.
  - left. split; [done|]. apply waits_insert with s; [done| |done]. intros j u Hj.
    unfold wait_ok. destruct (state u) as [|w|w] eqn:E; [done| |].
    + destruct w; simpl; [done|lia|]. destruct Hr as [Hr|Hr]; [tauto|]. intros _. exfalso.
      rewrite (inv_writers _ _ Hcore) in Hr. pose proof (total_get waits_to_write ts j u Hj) as H.
      unfold waits_to_write in H at 1. rewrite E in H. lia.
    + destruct w; simpl; [done|done|]. destruct Hr as [Hr|Hr]; [done|]. intros _. exfalso.
      rewrite (inv_writers _ _ Hcore) in Hr. pose proof (total_get waits_to_write ts j u Hj) as H.
      unfold waits_to_write in H at 1. rewrite E in H. lia.
Qed.

(** A step that leaves the writer alone *)
Lemma keeps_same (s' : RWMutex) (t' : thread) : thread_ok t' -> writer_active s' = writer_active s -> writer s' = writer s ->
  count s' = count s -> writes t' = writes t ->
  (readers_active s' = readers_active s \/ writer_active s = false) ->
  readers_active s' + Z.of_nat (reads t) = readers_active s + Z.of_nat (reads t') ->
  writers_waiting s' + Z.of_nat (waits_to_write t) = writers_waiting s + Z.of_nat (waits_to_write t') ->
  rw_core s' (<[i := t']> ts).
Proof.
  intros Hok Ha Hw Hc Hwr Hre Hr Hq. apply core_insert with s t; try done.
  - rewrite Ha. intros Ha'. destruct (inv_writer _ _ Hcore Ha') as [Hz _]. destruct Hre as [Hre|Hre]; [|congruence].
    split; [lia|]. destruct (decide (0 < writes t)%nat) as [Hp|Hp].
    + left. destruct (inv_owner _ _ Hcore i t Hi Hp) as (_ & Hw' & _). rewrite Hw, Hw', Hwr. done.
    + right. rewrite Hw. split_and!; [done|done|lia].
  - rewrite Hwr, Ha, Hw, Hc. by apply inv_owner with ts.
  - rewrite Ha, Hw, Hc. done.
Qed.

(** Going to sleep changes nothing else. *)
Lemma keeps_wait o w : (0 < depth)%nat -> k = [] -> waits_to_write t = waits_to_write (mk_thread k (Asleep w) : thread) ->
  wait_ok s (mk_thread k (Asleep w)) -> keeps s ts i t o (Wait s w).
Proof.
  intros Hd Hk Hq Hwait. unfold keeps. split.
  - apply keeps_same; try done; [|by left|lia]. unfold thread_ok. simpl. rewrite Hk. simpl. split_and!; [lia|done|done].
  - by apply waits_insert with s.
Qed.
Lemma keeps_nested o (s' : RWMutex) : thread_ok (mk_thread (holds_after k o) Running) -> state t = Running ->
  s' = s -> writes (mk_thread (holds_after k o) Running : thread) = writes t ->
  reads (mk_thread (holds_after k o) Running : thread) = reads t -> keeps s ts i t o (Return s' tt []).
Proof.
  intros Hok Hrun -> Hw Hr. unfold keeps. split.
  - apply keeps_same; try done; [by left|lia|]. unfold waits_to_write. by rewrite Hrun.
  - left. split; [done|]. by apply waits_insert with s.
Qed.

Lemma reader_loop_keeps : waits_to_write t = 0%nat -> k = [] -> (0 < depth)%nat -> keeps s ts i t LockReader (reader_loop s).
Proof.
  intros Hq Hk Hd. unfold reader_loop. destruct (Z.eqb_spec (writers_waiting s) 0) as [Hz|Hz]; simpl.
  - destruct (writer_active s) eqn:Ha.
    + apply (keeps_wait LockReader); [exact Hd|exact Hk|by rewrite Hq|]. by left.
    + apply claim_read_keeps; rewrite ?Hk; auto.
  - apply (keeps_wait LockReader); [exact Hd|exact Hk|by rewrite Hq|]. right. exact Hz.
Qed.
Lemma lock_reader_keeps : state t = Running -> meant depth k LockReader -> keeps s ts i t LockReader (lock_reader i s).
Proof.
  intros Hrun Hd. simpl in Hd. unfold lock_reader. rewrite (owns_writes s ts i t Hcore Hi).
  assert (Hq : waits_to_write t = 0%nat) by (unfold waits_to_write; by rewrite Hrun).
  destruct (existsb is_write k) eqn:Hk; simpl.
  - destruct this_ok as (_ & _ & Hfirst). destruct (Hfirst Hk) as [k' Hk'].
    apply (keeps_nested LockReader); [|done|done|done|unfold reads; simpl; by rewrite Hk].
    unfold thread_ok. simpl. split_and!; [lia|done|]. intros _. exists (Read :: k'). by rewrite Hk'.
  - destruct (Z.eqb_spec (readers_active s) 0) as [Hz|Hz].
    + apply reader_loop_keeps; [done| |lia]. pose proof (total_get reads ts i t Hi) as H.
      rewrite (inv_readers _ _ Hcore) in Hz. destruct (not_writing Hk) as [_ Hr]. rewrite Hr in H. apply nil_length_inv. lia.
    + apply claim_read_keeps; auto. by apply no_writer_while_reading.
Qed.

Lemma unlock_reader_keeps : state t = Running -> meant depth k UnlockReader -> keeps s ts i t UnlockReader (unlock_reader i s).
Proof.
  intros Hrun [k' Hk']. unfold unlock_reader. rewrite (owns_writes s ts i t Hcore Hi).
  assert (Hq : waits_to_write t = 0%nat) by (unfold waits_to_write; by rewrite Hrun).
  destruct this_ok as (Hl & _ & Hfirst). rewrite Hk' in Hl, Hfirst. simpl in Hl.
  assert (Hok : thread_ok (mk_thread k' Running)).
  { unfold thread_ok. simpl. split_and!; [lia|done|]. intros E. destruct (Hfirst E) as [k2 Hk2].
    destruct k2 as [|h k2]; simplify_eq/=. by exists k2. }
  destruct (existsb is_write k) eqn:Hk; simpl.
  - apply (keeps_nested UnlockReader); rewrite ?Hk'; simpl; [done|done|done| |].
    + unfold writes. simpl. by rewrite Hk'.
    + unfold reads. simpl. rewrite Hk. rewrite Hk' in Hk. simpl in Hk. by rewrite Hk.
  - destruct (not_writing Hk) as [Hw Hr]. pose proof (total_get reads ts i t Hi) as Hg. rewrite Hr, Hk' in Hg. simpl in Hg.
    pose proof (inv_readers _ _ Hcore) as Hra. assert (Hpos : readers_active s <> 0) by lia.
    pose proof (new_reads_bound ts (inv_threads _ _ Hcore) (inv_length _ _ Hcore)) as Hb.
    rewrite (wrap_small 32 (readers_active s - 1)) by (unfold in_u; lia).
    assert (Hk0 : existsb is_write k' = false) by (rewrite Hk' in Hk; exact Hk).
    assert (Hcore' : rw_core (set_readers (readers_active s - 1) s) (<[i := mk_thread (holds_after k UnlockReader) Running]> ts)).
    { apply keeps_same; simpl; rewrite ?Hk'; simpl; try done.
      - unfold writes in *. simpl. by rewrite Hk'.
      - right. by apply no_writer_while_reading.
      - rewrite Hr, Hk'. unfold reads. simpl. rewrite Hk0. lia.
      - rewrite Hq. done. }
    unfold keeps. split; [exact Hcore'|]. simpl. destruct (Z.eqb_spec (readers_active s - 1) 0) as [Hz|Hz].
    + right. exists NoReaders. split; [done|]. apply Forall_map. apply Forall_insert; [|unfold wake_on, sleeps_on; done].
      eapply Forall_impl; [exact Hwaits|]. intros u Hu. unfold wake_on, sleeps_on, wake_up, wait_ok in *.
      destruct (state u) as [|w|w] eqn:E; simpl; [by rewrite E| |by destruct w; rewrite E].
      destruct w; simpl; rewrite ?E; simpl; [done|done|tauto].
    + left. split; [done|]. apply waits_insert with s; [done| |done]. intros j u Hj. unfold wait_ok.
      destruct (state u) as [|w|w]; [done| |]; destruct w; simpl; tauto.
Qed.

Lemma claim_write_keeps : waits_to_write t = 1%nat -> k = [] -> (0 < depth)%nat -> readers_active s = 0 -> writer_active s = false ->
  keeps s ts i t LockWriter (claim_write i s).
Proof.
  intros Hq Hk Hd Hr Ha. unfold claim_write, keeps. pose proof (total_get waits_to_write ts i t Hi) as Hg.
  pose proof (inv_writers _ _ Hcore) as Hww. destruct (depth_pos Hd) as [Hb1 Hb2].
  rewrite (wrap_small 32 (writers_waiting s - 1)) by (unfold in_u; lia). simpl. rewrite Hk. split.
  - apply core_insert with s t; simpl; try done.
    + unfold thread_ok. simpl. split_and!; [lia|done|]. intros _. by exists [].
    + unfold reads. simpl. by rewrite Hk.
    + rewrite Hq. change (waits_to_write (mk_thread [Write] Running : thread)) with 0%nat. lia.
    + intros _. split; [done|]. left. unfold writes. simpl. split; [done|lia].
    + congruence.
  - left. split; [done|]. apply waits_insert with s; [done| |done]. intros j u Hj. unfold wait_ok.
    destruct (state u) as [|w|w]; [done| |]; destruct w; simpl; tauto.
Qed.
Lemma writer_loop2_keeps : waits_to_write t = 1%nat -> k = [] -> (0 < depth)%nat -> readers_active s = 0 ->
  keeps s ts i t LockWriter (writer_loop2 i s).
Proof.
  intros Hq Hk Hd Hr. unfold writer_loop2. destruct (writer_active s) eqn:Ha; [|by apply claim_write_keeps].
  by apply (keeps_wait LockWriter); [| |rewrite Hq|].
Qed.
Lemma writer_loop_keeps : waits_to_write t = 1%nat -> k = [] -> (0 < depth)%nat -> keeps s ts i t LockWriter (writer_loop i s).
Proof.
  intros Hq Hk Hd. unfold writer_loop. destruct (Z.eqb_spec (readers_active s) 0) as [Hz|Hz]; simpl.
  - by apply writer_loop2_keeps.
  - by apply (keeps_wait LockWriter); [| |rewrite Hq|].
Qed.

Lemma unlock_writer_keeps : state t = Running -> meant depth k UnlockWriter -> keeps s ts i t UnlockWriter (unlock_writer i s).
Proof.
  intros Hrun [k' Hk']. unfold unlock_writer. destruct this_ok as (Hl & _ & Hfirst). rewrite Hk' in Hl, Hfirst. simpl in Hl.
  assert (Hq : waits_to_write t = 0%nat) by (unfold waits_to_write; by rewrite Hrun).
  assert (Hw : writes t = S (writes (mk_thread k' Running : thread))) by (unfold writes; simpl; by rewrite Hk').
  destruct (inv_owner _ _ Hcore i t Hi ltac:(lia)) as (Ha & Hwi & Hcount).
  assert (Hwl : (writes t <= depth)%nat).
  { unfold writes. rewrite Hk'. etrans; [apply filter_length_le|]. simpl. lia. }
  assert (Hdn : Z.of_nat depth < 2 ^ 32) by (pose proof (lookup_lt_Some _ _ _ Hi) as Hlt; rewrite (inv_length _ _ Hcore) in Hlt; nia).
  rewrite (wrap_small 32 (count s - 1)) by (unfold in_u; lia).
  assert (Hrd : reads t = 0%nat) by (unfold reads; by rewrite Hk').
  destruct (Hfirst eq_refl) as [k2 Hk2]. unfold keeps. simpl.
  destruct (Z.eqb_spec (count s - 1) 0) as [Hz|Hz]; simpl; rewrite Hk'; simpl.
  - assert (Hnil : k' = []).
    { destruct k2 as [|h k2]; simplify_eq/=; [done|]. exfalso. assert (H : (0 < writes (mk_thread (k2 ++ [Write]) Running : thread))%nat).
      { apply writes_pos. simpl. rewrite existsb_app. simpl. apply orb_true_r. } lia. }
    subst k'. split.
    + apply core_insert with s t; simpl; try done.
      * unfold thread_ok. simpl. split_and!; [lia|done|done].
      * by rewrite Hrd.
      * by rewrite Hq.
      * unfold writes. simpl. lia.
      * intros _ H0. unfold writes in H0. rewrite Hk' in H0. done.
    + right. exists NoWriter. split; [done|]. apply Forall_map. apply Forall_insert; [|unfold wake_on, sleeps_on; done].
      eapply Forall_impl; [exact Hwaits|]. intros u Hu. unfold wake_on, sleeps_on, wake_up, wait_ok in *.
      destruct (state u) as [|w|w] eqn:E; simpl; [by rewrite E| |by destruct w; rewrite E].
      destruct w; simpl; rewrite ?E; simpl; tauto.
  - assert (Hp : (0 < writes (mk_thread k' Running : thread))%nat) by lia.
    assert (Hk0 : existsb is_write k' = true) by (by apply writes_pos in Hp). split.
    + apply core_insert with s t; simpl; try done.
      * unfold thread_ok. simpl. split_and!; [lia|done|]. intros _. destruct k2 as [|h k2]; simplify_eq/=. by exists k2.
      * rewrite Hrd. unfold reads. simpl. by rewrite Hk0.
      * by rewrite Hq.
      * intros _. destruct (inv_writer _ _ Hcore Ha) as [Hr0 _]. split; [done|]. left. done.
      * intros _. split_and!; [done|done|]. lia.
      * intros _ H0. lia.
    + left. split; [done|]. by apply waits_insert with s.
Qed.
End one_step.

Lemma lock_writer_keeps s ts i t : rw_core s ts -> Forall (wait_ok s) ts -> ts !! i = Some t ->
  state t = Running -> meant depth (client t) LockWriter -> keeps s ts i t LockWriter (lock_writer i s).
Proof.
  intros Hcore Hwaits Hi Hrun [Hd Hfirst]. unfold lock_writer. rewrite (owns_writes s ts i t Hcore Hi).
  assert (Hq : waits_to_write t = 0%nat) by (unfold waits_to_write; by rewrite Hrun).
  pose proof (this_ok s ts i t Hcore Hi) as (Hl & _ & _).
  destruct (existsb is_write (client t)) eqn:Hk.
  - assert (Hp : (0 < writes t)%nat) by (by apply writes_pos).
    destruct (inv_owner _ _ Hcore i t Hi Hp) as (Ha & Hwi & Hcount).
    assert (Hwl : (writes t <= length (client t))%nat) by apply filter_length_le.
    assert (Hdn : Z.of_nat depth < 2 ^ 32) by (pose proof (lookup_lt_Some _ _ _ Hi) as Hlt; rewrite (inv_length _ _ Hcore) in Hlt; nia).
    rewrite (wrap_small 32 (count s + 1)) by (unfold in_u; lia). unfold keeps. simpl. split.
    + apply core_insert with s t; simpl; try done.
      * unfold thread_ok. simpl. split_and!; [lia|done|]. intros _. destruct Hfirst as [Hn0|[k' Hk']].
        -- rewrite Hn0. by exists [].
        -- exists (Write :: k'). by rewrite Hk'.
      * unfold reads. simpl. by rewrite Hk.
      * by rewrite Hq.
      * intros _. destruct (inv_writer _ _ Hcore Ha) as [Hr0 _]. split; [done|]. left. split; [done|]. unfold writes. simpl. lia.
      * intros _. split_and!; [done|done|]. unfold writes in *. simpl. lia.
      * intros _ H0. lia.
    + left. split; [done|]. by apply waits_insert with s.
  - assert (Hnil : client t = []) by (destruct Hfirst as [|Hf]; [done|]; apply first_write in Hf; congruence).
    (* as if it had been woken to the loop, with the count of the waiting writers one up *)
    set (t1 := mk_thread (client t) (Woken WriterWaits) : thread).
    assert (Hd0 : (0 < depth)%nat) by lia.
    pose proof (total_insert waits_to_write ts i t t1 Hi) as Hins. change (waits_to_write t1) with 1%nat in Hins.
    assert (Hb : Z.of_nat (total waits_to_write (<[i := t1]> ts)) <= Z.of_nat n /\ Z.of_nat n < 2 ^ 32).
    { pose proof (total_bound waits_to_write 1 (<[i := t1]> ts)) as H. rewrite length_insert, (inv_length _ _ Hcore) in H.
      split; [|nia]. assert (total waits_to_write (<[i := t1]> ts) <= n * 1)%nat; [|lia].
      apply H. apply Forall_true. apply waits_to_write_le. }
    pose proof (inv_writers _ _ Hcore) as Hww. rewrite (wrap_small 32 (writers_waiting s + 1)) by (unfold in_u; lia).
    set (s1 := set_writers (writers_waiting s + 1) s).
    assert (Hcore1 : rw_core s1 (<[i := t1]> ts)).
    { eapply keeps_same; try done.
      - unfold thread_ok. simpl. rewrite Hnil. simpl. split_and!; [lia|done|done].
      - by left.
      - simpl. rewrite Hq. change (waits_to_write t1) with 1%nat. lia. }
    assert (Hwaits1 : Forall (wait_ok s1) (<[i := t1]> ts)).
    { apply waits_insert with s; [done| |done]. intros j u Hj. unfold wait_ok.
      destruct (state u) as [|w|w]; [done| |]; destruct w; simpl; try tauto. intros _. right. lia. }
    pose proof (writer_loop_keeps s1 (<[i := t1]> ts) i t1 Hcore1 Hwaits1) as H.
    specialize (H ltac:(by rewrite list_lookup_insert_eq by (by eapply lookup_lt_Some)) eq_refl Hnil Hd0).
    unfold keeps in *. by destruct (writer_loop i s1); rewrite !list_insert_insert_eq in H.
Qed.

Lemma rw_step (c c' : config) : rw_inv c -> step c c' -> rw_inv c'.
Proof.
  intros Hc Hst. revert Hc.
  destruct Hst as [i t o d d' Hi Ht Hal Hs|d d' [i t w e e' Hi Ht Hs]|i t d Hi]; intros [Hcore Hwaits].
  - eapply keeps_settles; [|exact Hs]. destruct o; simpl.
    + by apply lock_reader_keeps. + by apply unlock_reader_keeps.
    + by apply lock_writer_keeps. + by apply unlock_writer_keeps.
  - assert (Hok : thread_ok t) by (eapply Forall_lookup_1; [apply (inv_threads _ _ Hcore)|exact Hi]).
    destruct Hok as (_ & Hk & _). destruct (Hk ltac:(by rewrite Ht)) as [Hnil Hd].
    eapply keeps_settles; [|exact Hs]. destruct w; simpl.
    + apply reader_loop_keeps; try done. unfold waits_to_write. by rewrite Ht.
    + apply writer_loop_keeps; try done. unfold waits_to_write. by rewrite Ht.
    + apply writer_loop2_keeps; try done; [unfold waits_to_write; by rewrite Ht|].
      eapply Forall_lookup_1 in Hwaits; [|exact Hi]. unfold wait_ok in Hwaits. by rewrite Ht in Hwaits.
  - split; simpl; [by apply core_wake|]. apply Forall_insert; [done|].
    eapply Forall_lookup_1 in Hwaits; [|exact Hi]. unfold wait_ok, wake_up in *. destruct (state t) as [|w|w] eqn:E; simpl; rewrite ?E; try done.
    destruct w; simpl; tauto.
Qed.
Lemma rw_start junk : rw_inv (start (new_RWMutex junk) n []).
Proof.
  assert (Hz : forall f : thread -> nat, f (mk_thread [] Running) = 0%nat -> total f (replicate n (mk_thread [] Running)) = 0%nat).
  { intros f E. rewrite total_replicate, E. lia. }
  split; simpl; [split; simpl|].
  - apply Forall_replicate. unfold thread_ok. simpl. split_and!; [lia|done|done].
  - apply length_replicate.
  - by rewrite Hz.
  - by rewrite Hz.
  - done.
  - intros i t [-> _]%lookup_replicate_1 Hp. unfold writes in Hp. simpl in Hp. lia.
  - by apply Forall_replicate.
Qed.
Lemma rw_reachable junk (c : config) : reachable (new_RWMutex junk) n [] c -> rw_inv c.
Proof. intros Hr. refine (reachable_inv rw_inv _ _ _ _ (rw_start junk) _ Hr). intros d d' Hd Hst. by apply rw_step with d. Qed.
End mutex.

(** When no thread is woken and one waits, some thread holds the mutex. *)
Lemma rw_holder depth n (c : config RWMutex wait_point op unit (list hold)) j u : rw_core depth n (shared c) (threads c) ->
  Forall (wait_ok (shared c)) (threads c) -> total woken (threads c) = 0%nat ->
  threads c !! j = Some u -> state u <> Running -> exists i t, threads c !! i = Some t /\ client t <> [].
Proof.
  intros Hcore Hwaits H0 Hj Hu.
  assert (Hreads : readers_active (shared c) <> 0 -> exists i t, threads c !! i = Some t /\ client t <> []).
  { rewrite (inv_readers _ _ _ _ Hcore). intros H. destruct (total_pos reads (threads c)) as (i & t & Hi & Ht); [lia|].
    exists i, t. split; [done|]. unfold reads in Ht. intros E. rewrite E in Ht. simpl in Ht. lia. }
  assert (Hwrites : writer_active (shared c) = true -> exists i t, threads c !! i = Some t /\ client t <> []).
  { intros Ha. destruct (inv_writer _ _ _ _ Hcore Ha) as [_ (i & t & _ & Hi & Ht)]. exists i, t. split; [done|].
    intros E. unfold writes in Ht. rewrite E in Ht. simpl in Ht. lia. }
  assert (Hsleeper : forall i t w, threads c !! i = Some t -> state t = Asleep w -> w <> ReaderWaits ->
    exists i t, threads c !! i = Some t /\ client t <> []).
  { intros i t w Hi Hs Hw. eapply Forall_lookup_1 in Hwaits; [|exact Hi]. unfold wait_ok in Hwaits. rewrite Hs in Hwaits.
    destruct w; [done|auto|]. destruct Hwaits. auto. }
  assert (Hnot : forall i t w, threads c !! i = Some t -> state t <> Woken w).
  { intros i t w Hi Hs. pose proof (total_zero woken (threads c) i t H0 Hi) as Hz. unfold woken in Hz. by rewrite Hs in Hz. }
  destruct (state u) as [|w|w] eqn:E; [done| |by destruct (Hnot j u w Hj)].
  destruct (decide (w = ReaderWaits)) as [->|Hw]; [|eauto].
  eapply Forall_lookup_1 in Hwaits; [|exact Hj]. unfold wait_ok in Hwaits. rewrite E in Hwaits.
  destruct Hwaits as [Ha|Hq]; [auto|]. rewrite (inv_writers _ _ _ _ Hcore) in Hq.
  destruct (total_pos waits_to_write (threads c)) as (i & t & Hi & Ht); [lia|].
  unfold waits_to_write in Ht. destruct (state t) as [|w|w] eqn:Et; [lia| |by destruct (Hnot i t w Hi)].
  apply (Hsleeper i t w Hi Et). by destruct w; [lia| |].
Qed.

(** C16: while a thread holds the mutex for writing, no other holds it at all, neither for reading nor for writing, however the calls of any number of threads interleave, and however deep they are nested (while all the locks together are fewer than 2^32). *)
Theorem rw_exclusive depth n junk c i j t u : Z.of_nat n * Z.of_nat depth < 2 ^ 32 ->
  @reachable _ _ _ _ _ _ _ (rw_monitor depth) (new_RWMutex junk) n [] c ->
  threads c !! i = Some t -> threads c !! j = Some u -> i <> j -> existsb is_write (client t) = true -> client u = [].
Proof.
  intros Hn Hr Hi Hj Hne Hw. destruct (rw_reachable depth n Hn junk c Hr) as [Hcore _].
  apply writes_pos in Hw. destruct (inv_owner _ _ _ _ Hcore i t Hi Hw) as (Ha & Hwi & _).
  destruct (inv_writer _ _ _ _ Hcore Ha) as [Hr0 _]. rewrite (inv_readers _ _ _ _ Hcore) in Hr0.
  pose proof (total_get reads (threads c) j u Hj) as Hg. destruct (existsb is_write (client u)) eqn:E.
  - apply writes_pos in E. destruct (inv_owner _ _ _ _ Hcore j u Hj E) as (_ & Hwj & _). congruence.
  - unfold reads in Hg at 1. rewrite E in Hg. apply nil_length_inv. lia.
Qed.

(** C17: nobody waits for a mutex that no one else holds: from every reachable state the threads that have been woken run for at most a step each, in any order, and when none of them is left, then for every thread that still waits there is another one, running, that holds the mutex, while the thread that waits holds nothing itself. *)
Theorem rw_progress depth n junk c c' m : Z.of_nat n * Z.of_nat depth < 2 ^ 32 ->
  @reachable _ _ _ _ _ _ _ (rw_monitor depth) (new_RWMutex junk) n [] c ->
  nsteps (@resumes _ _ _ _ _ _ _ (rw_monitor depth)) m c c' ->
  (m <= total woken (threads c))%nat /\
  (total woken (threads c') = 0%nat -> forall j u, threads c' !! j = Some u -> state u <> Running ->
   client u = [] /\
   exists i t, i <> j /\ threads c' !! i = Some t /\ state t = Running /\ client t <> []).
Proof.
  intros Hn Hr Hk. pose proof (resumes_bounded m c c' Hk) as Hb. split; [lia|]. intros H0 j u Hj Hu.
  destruct (rw_reachable depth n Hn junk c' (reachable_resumes _ _ _ _ _ _ Hr Hk)) as [Hcore Hwaits].
  assert (Hidle : forall j u, threads c' !! j = Some u -> state u <> Running -> client u = []).
  { intros k v Hk' Hv. pose proof (inv_threads _ _ _ _ Hcore) as Hok. eapply Forall_lookup_1 in Hok; [|exact Hk'].
    destruct Hok as (_ & Hok & _). by apply Hok. }
  split; [by eapply Hidle|].
  assert (Hholder : forall i t, threads c' !! i = Some t -> client t <> [] ->
    exists i t, i <> j /\ threads c' !! i = Some t /\ state t = Running /\ client t <> []).
  { intros i t Hi Ht. exists i, t. split; [|split; [done|split; [|done]]].
    - intros ->. rewrite Hj in Hi. injection Hi as <-. apply Ht. by eapply Hidle.
    - destruct (state t) as [|w|w] eqn:E; [done|..]; destruct Ht; apply (Hidle i t Hi); by rewrite E. }
  destruct (rw_holder depth n c' j u Hcore Hwaits H0 Hj Hu) as (i & t & Hi & Ht). by eapply Hholder.
Qed.

(** Two threads: one writes, the other waits to read, and does so when the first unlocks. *)
Abbreviation reached := (@reachable _ _ _ _ _ _ _ (rw_monitor 3) (new_RWMutex 0)).
Abbreviation step3 := (@step _ _ _ _ _ _ _ (rw_monitor 3)).
Definition sample : config RWMutex wait_point op unit (list hold) :=
  mk_config (mk_RWMutex 0 0 true 1 (Some 0%nat)) [mk_thread [Write] Running; mk_thread [] (Asleep ReaderWaits)] [(0%nat, LockWriter, tt)].
Lemma rw_sample_reachable : reached 2 [] sample.
Proof.
  eapply rtc_l; [eapply (step_call 0 (mk_thread [] Running) LockWriter); [done|done|split; [simpl; lia|by left]|]|].
  { simpl. eexists. split; [constructor|reflexivity]. }
  eapply rtc_l; [eapply (step_call 1 (mk_thread [] Running) LockReader); [done|done|simpl; lia|simpl; reflexivity]|apply rtc_refl].
Qed.
Lemma rw_exclusive_witness : 2 * 3 < 2 ^ 32 /\ client (mk_thread (W:=wait_point) [] (Asleep ReaderWaits)) = @nil hold.
Proof.
  split; [lia|]. apply (rw_exclusive 3 2 0 sample 0 1 (mk_thread [Write] Running)); [lia|exact rw_sample_reachable|done|done|done|done].
Defined.

Definition unlocked : config RWMutex wait_point op unit (list hold) :=
  mk_config (mk_RWMutex 0 0 false 0 (Some 0%nat)) [mk_thread [] Running; mk_thread [] (Woken ReaderWaits)]
    [(0%nat, LockWriter, tt); (0%nat, UnlockWriter, tt)].
Lemma unlocked_reachable : reached 2 [] unlocked.
Proof.
  eapply rtc_r; [exact rw_sample_reachable|].
  eapply (step_call 0 (mk_thread [Write] Running) UnlockWriter); [done|done|by exists []|].
  simpl. eexists. split; [|reflexivity]. apply notified_all. constructor.
Qed.
Definition locked : config RWMutex wait_point op unit (list hold) :=
  mk_config (mk_RWMutex 1 0 false 0 (Some 0%nat)) [mk_thread [] Running; mk_thread [Read] Running]
    [(0%nat, LockWriter, tt); (0%nat, UnlockWriter, tt); (1%nat, LockReader, tt)].
Lemma rw_progress_witness : 2 * 3 < 2 ^ 32 /\ (1 <= total woken (threads unlocked))%nat.
Proof.
  split; [lia|]. refine (proj1 (rw_progress 3 2 0 unlocked locked 1 _ unlocked_reachable (nsteps_once _ _ _))); [lia|].
  eapply (resumes_intro 1); [done|done|]. simpl. eexists. split; [constructor|done].
Defined.

(** ** Writers do not have priority

    Readers that overlap keep a waiting writer out for ever: each gets in
    because another one is in. *)
Definition relay (x : bool) (h : list (nat * op * unit)) : config RWMutex wait_point op unit (list hold) :=
  mk_config (mk_RWMutex 1 1 false 0 None)
    [mk_thread (if x then [] else [Read]) Running; mk_thread (if x then [Read] else []) Running; mk_thread [] (Asleep WriterWaits)] h.
Definition turn (x : bool) : list (nat * op * unit) :=
  [(if x then 0%nat else 1%nat, LockReader, tt); (if x then 1%nat else 0%nat, UnlockReader, tt)].
Fixpoint turns (m : nat) (x : bool) : list (nat * op * unit) := match m with O => [] | S m => turn x ++ turns m (negb x) end.
Lemma relay_turn x h : nsteps step3 2 (relay x h) (relay (negb x) (h ++ turn x)).
Proof.
  unfold turn. rewrite cons_middle, app_assoc. eapply nsteps_l; [|eapply nsteps_l; [|apply nsteps_O]].
  - eapply (step_call (if x then 0%nat else 1%nat) (mk_thread [] Running) LockReader); [by destruct x|done|simpl; lia|].
    simpl. eexists. split; [constructor|reflexivity].
  - eapply (step_call (if x then 1%nat else 0%nat) (mk_thread [Read] Running) UnlockReader); [by destruct x|done|by exists []|].
    simpl. eexists. split; [constructor|by destruct x].
Qed.
Lemma relay_reachable : reached 3 [] (relay false [(0%nat, LockReader, tt)]).
Proof.
  eapply rtc_l; [eapply (step_call 0 (mk_thread [] Running) LockReader); [done|done|simpl; lia|simpl; eexists; split; [constructor|reflexivity]]|].
  eapply rtc_l; [eapply (step_call 2 (mk_thread [] Running) LockWriter); [done|done|split; [simpl; lia|by left]|simpl; reflexivity]|apply rtc_refl].
Qed.
Lemma writer_starves m : exists x, nsteps step3 (2 * m) (relay false [(0%nat, LockReader, tt)]) (relay x ((0%nat, LockReader, tt) :: turns m false)).
Proof.
  enough (H : forall m x h, exists y, nsteps step3 (2 * m) (relay x h) (relay y (h ++ turns m x))) by apply (H m false [_]).
  clear m. induction m as [|m IH]; intros x h.
  - exists x. rewrite app_nil_r. constructor.
  - destruct (IH (negb x) (h ++ turn x)) as [y Hy]. exists y. rewrite <- app_assoc in Hy.
    replace (2 * S m)%nat with (2 + 2 * m)%nat by lia. eapply nsteps_trans; [apply relay_turn|exact Hy].
Qed.
End RWMutex.
