(* ===== verification/DataQueue.v ===== *)
(** * Data queues

    Models [DataQueue] ([src/libs/mt/dqueue.cc], [src/libs/mt/ot-mt.h]) and the
    channels over it ([src/libs/chan/dq-chan.cc]): blocks of bytes copied into
    a queue, and read as a stream whatever their sizes.  The queue is that of
    [Sync.v], which hands blocks over in the order in which they were sent; a
    read that has to wait for a block that is not there is [Blocks]. *)
From S2P Require Export Sync.

Module DataQueue.

(** [data] is [None] for the null pointer, which marks the end. *)
Record DataBlock := mk_DataBlock { data : option bytes; length : Z }.
Definition no_block : DataBlock := mk_DataBlock None 0.

(** [live] counts the blocks of memory that have been allocated and not freed. *)
Record DataQueue := mk_DataQueue {
  q : list DataBlock; working_block : DataBlock; working_block_used : Z; eof : bool; live : Z
}.
Definition new_DataQueue : DataQueue := mk_DataQueue [] no_block 0 false 0.

Section memory.
(** Whether [malloc(0)] returns a null pointer, which the language leaves open *)
Context (malloc_0_is_null : bool).

Definition allocated (d : bytes) : option bytes := if (zlen d =? 0) && malloc_0_is_null then None else Some d.
Definition is_live (b : DataBlock) : Z := match data b with Some _ => 1 | None => 0 end.
Definition send (b : DataBlock) (s : DataQueue) : DataQueue :=
  mk_DataQueue (q s ++ [b]) (working_block s) (working_block_used s) (eof s) (live s).
Definition write (d : bytes) (s : DataQueue) : DataQueue :=
  let b := mk_DataBlock (allocated d) (zlen d) in
  send b (mk_DataQueue (q s) (working_block s) (working_block_used s) (eof s) (live s + is_live b)).
End memory.
Definition close (s : DataQueue) : DataQueue := send no_block s.

Inductive read_result := Reads (d : bytes) (s : DataQueue) | Blocks (d : bytes) (s : DataQueue) | Out_of_fuel.

(** What the working block can give: the bytes, the block, and the number used of it; [free] when it is used up. *)
Definition take_working (wanted : Z) (s : DataQueue) : bytes * DataQueue :=
  let wb := working_block s in
  let wb_avail := length wb - working_block_used s in
  let to_copy := if wb_avail <? wanted then wb_avail else wanted in
  let d := ztake to_copy (zdrop (working_block_used s) (default [] (data wb))) in
  let used := working_block_used s + to_copy in
  if used >=? length wb then (d, mk_DataQueue (q s) (mk_DataBlock (data wb) 0) used (eof s) (live s - is_live wb))
  else (d, mk_DataQueue (q s) wb used (eof s) (live s)).

(** The next block of the queue becomes the working block. *)
Definition next_block (b : DataBlock) (rest : list DataBlock) (s : DataQueue) : DataQueue :=
  mk_DataQueue rest b 0 (match data b with None => true | Some _ => eof s end) (live s).

(** [got] are the bytes read so far, the last ones first (as pieces). *)
Fixpoint read_loop (fuel : nat) (len : Z) (block : bool) (got : bytes) (s : DataQueue) : read_result :=
  if (zlen got <? len) && negb (eof s) then
    match fuel with
    | O => Out_of_fuel
    | S fuel =>
      let '(d, s) := if negb (length (working_block s) =? 0) then take_working (len - zlen got) s else ([], s) in
      let got := got ++ d in
      if length (working_block s) =? 0 then
        match q s with
        | [] => if negb block then Reads got s else Blocks got s
        | b :: rest => read_loop fuel len block got (next_block b rest s)
        end
      else read_loop fuel len block got s
    end
  else Reads got s.
Definition read (len : Z) (block : bool) (s : DataQueue) : read_result := read_loop (S (S (List.length (q s)))) len block [] s.

(** The destructor: the blocks left are freed. *)
Definition destroy (s : DataQueue) : Z :=
  let free_block (live : Z) (b : DataBlock) := if negb (length b =? 0) && bool_decide (data b <> None) then live - 1 else live in
  fold_left free_block (q s) (free_block (live s) (working_block s)).

(** ** The channels *)
Record DataQueueReader := mk_reader { offset : Z; dq : DataQueue }.
Definition basic_read (count : Z) (r : DataQueueReader) : option (bytes * DataQueueReader) :=
  match read count true (dq r) with
  | Reads d s => Some (d, mk_reader (u64 (offset r + zlen d)) s)
  | _ => None
  end.
Definition basic_write (malloc_0_is_null : bool) (d : bytes) (w : DataQueueReader) : DataQueueReader :=
  mk_reader (u64 (offset w + zlen d)) (write malloc_0_is_null d (dq w)).

(* ------------------------------------------------------------------ *)
(** ** The stream of the queue *)

(** The bytes up to the end marker, and whether there is one *)
Fixpoint stream (bs : list DataBlock) : bytes * bool :=
  match bs with
  | [] => ([], false)
  | b :: bs => match data b with None => ([], true) | Some d => let '(r, e) := stream bs in (d ++ r, e) end
  end.
Definition working_bytes (s : DataQueue) : bytes :=
  if length (working_block s) =? 0 then [] else zdrop (working_block_used s) (default [] (data (working_block s))).
Definition pending (s : DataQueue) : bytes := if eof s then [] else working_bytes s ++ fst (stream (q s)).
Definition closed (s : DataQueue) : bool := eof s || snd (stream (q s)).

Definition block_ok (b : DataBlock) : Prop := match data b with Some d => length b = zlen d | None => length b = 0 end.
Definition queue_ok (s : DataQueue) : Prop :=
  Forall block_ok (q s) /\
  (length (working_block s) = 0 \/
   exists d, data (working_block s) = Some d /\ length (working_block s) = zlen d /\ 0 <= working_block_used s < zlen d) /\
  (eof s = true -> length (working_block s) = 0).

(** The memory in use is that of the blocks not read yet, but for blocks of no bytes, which are never freed. *)
Definition unread (s : DataQueue) : Z :=
  (if length (working_block s) =? 0 then 0 else 1) + zlen (List.filter (fun b => negb (length b =? 0)) (q s)).

Lemma take_working_spec wanted s : queue_ok s -> 0 < wanted -> length (working_block s) <> 0 -> eof s = false ->
  let '(d, s') := take_working wanted s in
  d = ztake wanted (working_bytes s) /\ working_bytes s' = zdrop wanted (working_bytes s) /\ queue_ok s' /\
  q s' = q s /\ eof s' = false /\ live s' - unread s' = live s - unread s /\
  (length (working_block s') <> 0 -> zlen d = wanted).
Proof.
  intros (Hq & Hw & He) Hpos Hne Hnoeof. destruct Hw as [Hw|(d & Hd & Hl & Hu)]; [done|].
  assert (Hz : (length (working_block s) =? 0) = false) by (by apply Z.eqb_neq).
  assert (Hwb : working_bytes s = zdrop (working_block_used s) d) by (unfold working_bytes; by rewrite Hz, Hd).
  rewrite Hwb. unfold take_working. rewrite Hd, Hl. simpl default.
  set (used := working_block_used s) in *. set (n := if zlen d - used <? wanted then zlen d - used else wanted).
  assert (Hn : n = Z.min wanted (zlen d - used)) by (unfold n; destruct (Z.ltb_spec (zlen d - used) wanted); lia).
  assert (Htake : ztake n (zdrop used d) = ztake wanted (zdrop used d)).
  { destruct (decide (wanted <= zlen d - used)); [by replace n with wanted by lia|].
    rewrite !ztake_ge; [done| |]; rewrite zlen_zdrop; lia. }
  rewrite Htake. destruct (Z.geb_spec (used + n) (zlen d)) as [Hfull|Hpart]; (split; [done|]).
  - split; [unfold working_bytes; simpl; rewrite zdrop_ge; [done|rewrite zlen_zdrop; lia]|].
    split; [split; [done|split; [by left|done]]|]. split; [done|]. split; [done|]. split; [|done].
    unfold unread, is_live. simpl. rewrite Hd, Hz. lia.
  - split; [unfold working_bytes; simpl; rewrite Hz, Hd; simpl; rewrite zdrop_zdrop by lia; f_equal; lia|].
    split; [|split; [done|]; split; [done|]; split; [unfold unread; simpl; lia|]].
    + split; [done|]. split; [|simpl; congruence]. right. exists d. simpl. split_and!; [done|done|lia|lia].
    + intros _. rewrite zlen_ztake, zlen_zdrop; lia.
Qed.

Lemma next_block_spec b rest s : queue_ok s -> length (working_block s) = 0 -> eof s = false -> q s = b :: rest ->
  let s' := next_block b rest s in
  queue_ok s' /\ pending s' = fst (stream (q s)) /\ closed s' = snd (stream (q s)) /\ live s' - unread s' = live s - unread s.
Proof.
  intros (Hq & Hw & He) Hz Hne Hqs. rewrite Hqs in *. inversion Hq as [|? ? Hb Hrest]; subst.
  unfold next_block, queue_ok, pending, closed, unread, working_bytes, block_ok in *. simpl. rewrite Hz. simpl.
  destruct (data b) as [d|] eqn:Hd; simpl.
  - rewrite Hne. destruct (stream rest) as [r e]. simpl. rewrite Hb. destruct (Z.eqb_spec (zlen d) 0) as [E|E].
    + apply zlen_zero in E as ->. simpl. split; [split; [done|split; [by left|done]]|]. repeat split; try done. rewrite Hqs. simpl. rewrite Hb. simpl. lia.
    + simpl. rewrite zdrop_0. split; [|repeat split; try done; rewrite Hqs; simpl; rewrite Hb, (proj2 (Z.eqb_neq _ _) E); simpl; rewrite zlen_cons; lia].
      split; [done|]. split; [|done]. right. exists d. pose proof (zlen_nonneg d). split_and!; [done|done|lia|lia].
  - rewrite Hb. simpl. split; [split; [done|split; [by left|done]]|]. repeat split; try done. rewrite Hqs. simpl. rewrite Hb. simpl. lia.
Qed.

Definition read_spec (m : Z) (block : bool) (got : bytes) (s : DataQueue) (r : read_result) : Prop :=
  match r with
  | Reads d s' => queue_ok s' /\ d = got ++ ztake m (pending s) /\ pending s' = zdrop m (pending s) /\
      closed s' = closed s /\ live s' - unread s' = live s - unread s /\
      (m <= 0 \/ m < zlen (pending s) \/ closed s = true \/ block = false \/ (m = zlen (pending s) /\ Exists (fun b => length b = 0) (q s)))
  | Blocks d s' => block = true /\ 0 < m /\ closed s = false /\ zlen (pending s) <= m /\ d = got ++ pending s /\
      queue_ok s' /\ pending s' = [] /\ closed s' = false /\ q s' = [] /\ live s' - unread s' = live s - unread s
  | Out_of_fuel => False
  end.
Lemma not_pos_zlen (l : bytes) : ~ 0 < zlen l -> l = [].
Proof. intros H. apply zlen_zero. pose proof (zlen_nonneg l). lia. Qed.
Lemma read_loop_spec fuel : forall len block got s, queue_ok s -> zlen got <= len -> (List.length (q s) < fuel)%nat \/ zlen got = len ->
  read_spec (len - zlen got) block got s (read_loop fuel len block got s).
Proof.
  induction fuel as [|fuel IH]; intros len block got s Hok Hgot Hfuel.
  - destruct Hfuel as [|Hfull]; [lia|]. simpl. rewrite (proj2 (Z.ltb_ge _ _)) by lia. simpl.
    rewrite Hfull, Z.sub_diag, ztake_0, zdrop_0, app_nil_r. split_and!; try done. left. lia.
  - simpl. destruct (Z.ltb_spec (zlen got) len) as [Hlt|Hge]; simpl.
    2:{ replace (len - zlen got) with 0 by lia. rewrite ztake_0, zdrop_0, app_nil_r. split_and!; try done. left. lia. }
    destruct (eof s) eqn:Heof; simpl.
    { assert (Hp : pending s = []) by (unfold pending; by rewrite Heof). assert (Hc : closed s = true) by (unfold closed; by rewrite Heof).
      simpl. rewrite Hp. unfold ztake, zdrop. rewrite take_nil, drop_nil, app_nil_r. split_and!; try done. auto. }
    destruct Hfuel as [Hfuel|]; [|lia].
    set (x := if negb (length (working_block s) =? 0) then take_working (len - zlen got) s else ([], s)).
    assert (Hx : let '(d, s1) := x in d = ztake (len - zlen got) (working_bytes s) /\ working_bytes s1 = zdrop (len - zlen got) (working_bytes s) /\
      queue_ok s1 /\ q s1 = q s /\ eof s1 = false /\ live s1 - unread s1 = live s - unread s /\
      (length (working_block s1) <> 0 -> zlen d = len - zlen got)).
    { unfold x. destruct (Z.eqb_spec (length (working_block s)) 0) as [Hz|Hz]; simpl.
      - unfold working_bytes. rewrite Hz. simpl. unfold ztake, zdrop. rewrite take_nil, drop_nil. by split_and!.
      - apply take_working_spec; [done|lia|done|done]. }
    clearbody x. destruct x as [d s1]. destruct Hx as (Hd & Hw1 & Hok1 & Hq1 & He1 & Hl1 & Hfull).
    assert (Hdlen : zlen d <= len - zlen got) by (rewrite Hd, zlen_ztake; lia).
    assert (Hp : pending s = working_bytes s ++ fst (stream (q s))) by (unfold pending; by rewrite Heof).
    assert (Hc : closed s = snd (stream (q s))) by (unfold closed; by rewrite Heof).
    destruct (Z.eqb_spec (length (working_block s1)) 0) as [Hz1|Hz1].
    + (* the working block is used up *)
      assert (Hw1nil : zdrop (len - zlen got) (working_bytes s) = []) by (rewrite <- Hw1; unfold working_bytes; by rewrite Hz1).
      pose proof (ztake_zdrop (len - zlen got) (working_bytes s)) as Hdw. rewrite Hw1nil, app_nil_r, <- Hd in Hdw.
      rewrite Hq1. destruct (q s) as [|b rest] eqn:Hqs.
      * simpl in Hp, Hc. rewrite app_nil_r in Hp.
        assert (Hp1 : pending s1 = []) by (unfold pending; rewrite He1, Hw1, Hw1nil, Hq1; done).
        assert (Hc1 : closed s1 = false) by (unfold closed; by rewrite He1, Hq1).
        destruct block; simpl.
        -- rewrite Hp, Hc. rewrite <- Hdw. split_and!; try done; lia.
        -- rewrite Hp, Hc, <- Hdw, Hp1. split_and!; try done; [|by rewrite zdrop_ge by lia|auto].
           by rewrite ztake_ge by lia.
      * destruct (next_block_spec b rest s1 Hok1 Hz1 He1 Hq1) as (Hok2 & Hp2 & Hc2 & Hl2).
        set (s2 := next_block b rest s1) in *. rewrite Hq1 in Hp2, Hc2.
        assert (Hlen2 : zlen (got ++ d) <= len) by (rewrite zlen_app; lia).
        specialize (IH len block (got ++ d) s2 Hok2 Hlen2). 
        assert (Hf2 : (List.length (q s2) < fuel)%nat) by (unfold s2; simpl; simpl in Hfuel; lia).
        specialize (IH (or_introl Hf2)). unfold read_spec in *. rewrite zlen_app in IH.
        rewrite Hp, Hc, <- Hdw. rewrite <- Hp2, <- Hc2.
        replace (len - (zlen got + zlen d)) with (len - zlen got - zlen d) in IH by lia.
        destruct (read_loop fuel len block (got ++ d) s2) as [d3 s3|d3 s3|]; [| |done].
        -- destruct IH as (? & -> & Hp3 & -> & Hl3 & Hwhy). split_and!; try done.
           ++ rewrite ztake_app_ge by lia. by rewrite app_assoc.
           ++ rewrite Hp3. by rewrite zdrop_app_ge by lia.
           ++ lia.
           ++ rewrite zlen_app. destruct Hwhy as [Hy|[Hy|[Hy|[Hy|[Hm Hy]]]]]; [|lia|auto|auto|].
              ** destruct (decide (0 < zlen (pending s2))) as [|Hz2]; [lia|]. right. right. apply not_pos_zlen in Hz2.
                 rewrite Hp2 in Hz2. rewrite Hc2. simpl in *. destruct (data b) as [db|] eqn:Edb; [|by left].
                 destruct (stream rest) as [r e]. simpl in Hz2. apply app_eq_nil in Hz2 as [-> ->].
                 right. right. rewrite Hp2. simpl. rewrite zlen_nil. split; [lia|]. rewrite Hqs. apply Exists_cons_hd. destruct Hok1 as (Hall & _). rewrite Hq1 in Hall.
                 apply Forall_cons in Hall as [Hb _]. unfold block_ok in Hb. by rewrite Edb in Hb.
              ** do 4 right. split; [lia|]. rewrite Hqs. by apply Exists_cons_tl.
        -- destruct IH as (? & Hm & ? & Hz & -> & ? & ? & ? & ? & ?). rewrite zlen_app, app_assoc. split_and!; try done; lia.
    + (* enough has been read *)
      assert (Hdl : zlen d = len - zlen got) by auto.
      assert (Hf1 : zlen (got ++ d) = len) by (rewrite zlen_app; lia).
      specialize (IH len block (got ++ d) s1 Hok1 ltac:(lia) (or_intror Hf1)). unfold read_spec in *. rewrite Hf1, Z.sub_diag in IH.
      destruct (read_loop fuel len block (got ++ d) s1) as [d3 s3|d3 s3|]; [|lia|done].
      assert (Hwl : zlen d <= zlen (working_bytes s)) by (rewrite Hd, zlen_ztake; lia).
      destruct IH as (? & -> & Hp3 & -> & Hl3 & _). rewrite ztake_0, app_nil_r. rewrite zdrop_0 in Hp3. split_and!; try done.
      * rewrite Hp, ztake_app_le by lia. by rewrite Hd at 1.
      * rewrite Hp3, Hp, zdrop_app_le by lia. unfold pending. by rewrite He1, Hw1, Hq1.
      * unfold closed. by rewrite He1, Heof, Hq1.
      * lia.
      * right. left. destruct Hok1 as (_ & [|(db & Hdb & Hlb & Hub)] & _); [done|].
        assert (Hpos : 0 < zlen (working_bytes s1)).
        { unfold working_bytes. rewrite (proj2 (Z.eqb_neq _ _) Hz1), Hdb. simpl. rewrite zlen_zdrop; lia. }
        rewrite Hw1, zlen_zdrop in Hpos by lia. rewrite Hp, zlen_app. pose proof (zlen_nonneg (fst (stream (q s)))). lia.
Qed.

Lemma read_spec_holds len block s : queue_ok s -> 0 <= len -> read_spec len block [] s (read len block s).
Proof.
  intros Hok Hl. pose proof (read_loop_spec (S (S (List.length (q s)))) len block [] s Hok) as H. rewrite zlen_nil, Z.sub_0_r in H.
  apply H; [done|]. left. lia.
Qed.

(** Sending *)
Lemma stream_app bs bs' : stream (bs ++ bs') =
  if snd (stream bs) then stream bs else (fst (stream bs) ++ fst (stream bs'), snd (stream bs')).
Proof.
  induction bs as [|b bs IH]; simpl; [by destruct (stream bs')|]. destruct (data b) as [d|]; [|done].
  rewrite IH. destruct (stream bs) as [r []]; simpl; [done|]. by rewrite app_assoc.
Qed.
Lemma write_ok null d s : queue_ok s -> queue_ok (write null d s).
Proof.
  intros (Hq & Hw & He). split; [|done]. simpl. apply Forall_app. split; [done|]. constructor; [|done].
  unfold block_ok, allocated. simpl. by destruct (Z.eqb_spec (zlen d) 0), null.
Qed.
Lemma unread_send b s : unread (send b s) = unread s + (if length b =? 0 then 0 else 1).
Proof.
  unfold unread. simpl. rewrite List.filter_app, zlen_app. simpl.
  generalize (if length (working_block s) =? 0 then 0 else 1). generalize (zlen (List.filter (fun b0 => negb (length b0 =? 0)) (q s))).
  intros x y. destruct (length b =? 0); simpl; rewrite ?zlen_cons, ?zlen_nil; lia.
Qed.

Lemma write_unread null d s : live (write null d s) - unread (write null d s) =
  live s - unread s + (match allocated null d with Some _ => 1 | None => 0 end) - (if zlen d =? 0 then 0 else 1).
Proof.
  unfold write. rewrite unread_send. change (unread (mk_DataQueue (q s) _ _ _ _)) with (unread s).
  simpl. unfold is_live. simpl. destruct (allocated null d), (zlen d =? 0); lia.
Qed.

(** The destructor frees what has not been read. *)
Lemma destroy_unread s : queue_ok s -> destroy s = live s - unread s.
Proof.
  intros (Hq & Hw & _). unfold destroy, unread.
  set (f := fun (live : Z) (b : DataBlock) => _).
  assert (Hf : forall l n, Forall block_ok l -> fold_left f l n = n - zlen (List.filter (fun b => negb (length b =? 0)) l)).
  { induction l as [|b l IH]; intros n Hl; simpl; [rewrite zlen_nil; lia|]. apply Forall_cons in Hl as [Hb Hl]. rewrite IH by done.
    unfold f at 1. unfold block_ok in Hb. destruct (Z.eqb_spec (length b) 0) as [E|E]; simpl; [done|].
    destruct (data b); [|done]. rewrite bool_decide_eq_true_2 by done. rewrite zlen_cons. simpl. lia. }
  rewrite Hf by done. unfold f. destruct (Z.eqb_spec (length (working_block s)) 0) as [E|E]; simpl; [lia|].
  destruct Hw as [|(d & -> & _)]; [done|]. rewrite bool_decide_eq_true_2 by done. lia.
Qed.

(** C22: a data queue is a stream: whatever the sizes of the blocks written, a read gives the next [len] bytes of those written, or those up to the end marker, and leaves the rest; not blocking it gives what there is. It waits exactly when it is to block, the end marker has not been sent, and fewer bytes are there; and also when there are exactly as many, unless there is an empty block among them. Memory: what remains allocated after the destructor is not changed by reading, and only changed by writing no bytes (a block that is never freed). *)
Theorem data_queue_stream null s len : queue_ok s -> 0 < len ->
  (closed s = true \/ len < zlen (pending s) ->
     exists s', read len true s = Reads (ztake len (pending s)) s' /\ queue_ok s' /\ pending s' = zdrop len (pending s) /\
       closed s' = closed s /\ destroy s' = destroy s) /\
  (closed s = false -> zlen (pending s) < len \/ zlen (pending s) = len /\ Forall (fun b => length b <> 0) (q s) ->
     exists s', read len true s = Blocks (pending s) s') /\
  (exists s', read len false s = Reads (ztake len (pending s)) s' /\ queue_ok s' /\ pending s' = zdrop len (pending s) /\
     closed s' = closed s /\ destroy s' = destroy s) /\
  (forall d, 0 < zlen d -> closed s = false -> queue_ok (write null d s) /\ pending (write null d s) = pending s ++ d /\
     closed (write null d s) = false /\ destroy (write null d s) = destroy s) /\
  destroy (write false [] s) = destroy s + 1.
Proof.
  intros Hok Hlen. pose proof (read_spec_holds len true s Hok ltac:(lia)) as Hb.
  pose proof (read_spec_holds len false s Hok ltac:(lia)) as Hnb. unfold read_spec in *. split_and!.
  - intros Hc. destruct (read len true s) as [d s'|d s'|]; [| |done].
    + destruct Hb as (Hok' & -> & Hp & Hcl & Hl & _). exists s'. rewrite !destroy_unread by done. split_and!; done || lia.
    + destruct Hb as (_ & _ & Hc' & Hz & _). destruct Hc as [Hc|Hc]; [congruence|lia].
  - intros Hc Hz. destruct (read len true s) as [d s'|d s'|]; [| |done].
    + destruct Hb as (_ & _ & _ & _ & _ & [|[|[|[|[Hm He]]]]]); [lia|lia|congruence|done|].
      destruct Hz as [Hz|[_ Hz]]; [lia|]. apply Exists_exists in He as (b & Hb & E). by eapply Forall_forall in Hz.
    + destruct Hb as (_ & _ & _ & _ & -> & _). by exists s'.
  - destruct (read len false s) as [d s'|d s'|]; [| |done]; [|by destruct Hnb].
    destruct Hnb as (Hok' & -> & Hp & Hcl & Hl & _). exists s'. rewrite !destroy_unread by done. split_and!; done || lia.
  - intros d Hd Hc. assert (Ha : allocated null d = Some d).
    { unfold allocated. by rewrite (proj2 (Z.eqb_neq (zlen d) 0)) by lia. }
    split; [by apply write_ok|]. unfold closed in Hc. apply orb_false_iff in Hc as [He Hs].
    unfold pending, closed. simpl. rewrite He, stream_app, Hs. simpl. rewrite Ha. simpl.
    rewrite app_nil_r, app_assoc. split_and!; try done. rewrite !destroy_unread by (done || by apply write_ok).
    rewrite write_unread, Ha, (proj2 (Z.eqb_neq (zlen d) 0)) by lia. lia.
  - rewrite !destroy_unread by (done || by apply write_ok). rewrite write_unread. simpl. lia.
Qed.

Definition sample : DataQueue := write true (str "cdef") (write true (str "ab") new_DataQueue).
Lemma sample_ok : queue_ok sample.
Proof. do 2 apply write_ok. split; [constructor|]. split; [by left|done]. Qed.
Lemma data_queue_stream_witness : exists s', read 3 true sample = Reads (str "abc") s'.
Proof.
  destruct (proj1 (data_queue_stream true sample 3 sample_ok ltac:(lia)) ltac:(right; reflexivity)) as (s' & H & _).
  exists s'. exact H.
Defined.

(** A blocking read of all the bytes there are has them all, and waits for a block that it does not need. *)
Example read_all_blocks : exists s', read 6 true sample = Blocks (str "abcdef") s' /\ q s' = [].
Proof. eexists. split; reflexivity. Qed.
End DataQueue.
