(* ===== verification/Pool.v ===== *)
(** * Thread pools

    Models [PoolThread] ([src/libs/mt/pool.cc]): the turns of its thread, and
    what [kick] and [die] do to it in between; and [ThreadPool]
    ([src/libs/mt/ot-mt.h]), where threads are numbers.  [remove], [replace] and
    [shutdown] test [shutting_down] before they take the pool's lock, so that each is
    a test ([test_shutting_down]) and, any time later, a section under the lock
    ([remove_locked], [replace_locked], [shutdown_locked]), which is a function of
    the pool's state; [move] is a step of any of the calls that are under way. *)
From S2P Require Export Prelude.

(** ** [PoolThread] *)
Module PoolThread.

(** Where the thread is in the loop of [start] *)
Inductive place := Waiting | Awake | In_run | After_run | Clearing | Replacing | Leaving | Finished.

(** [runs] and [replaced] count the calls of [run] and of the replacer. *)
Record PoolThread := mk_PoolThread {
  running : bool; in_use : bool; dying : bool; at_ : place; runs : nat; replaced : nat
}.
Definition started : PoolThread := mk_PoolThread true false false Waiting 0 0.

Definition go (p : place) (t : PoolThread) : PoolThread :=
  mk_PoolThread (running t) (in_use t) (dying t) p (runs t) (replaced t).

(** A turn of the thread, [None] when it waits; [run] returns. *)
Definition turn (t : PoolThread) : option PoolThread :=
  match at_ t with
  | Waiting => if in_use t then Some (go Awake t) else None
  | Awake => Some (if dying t then go Leaving t else go In_run t)
  | In_run => Some (mk_PoolThread (running t) (in_use t) (dying t) After_run (S (runs t)) (replaced t))
  | After_run => Some (if dying t then go Leaving t else go Clearing t)
  | Clearing => Some (mk_PoolThread (running t) false (dying t) Replacing (runs t) (replaced t))
  | Replacing => Some (mk_PoolThread (running t) (in_use t) (dying t) Waiting (runs t) (S (replaced t)))
  | Leaving => Some (mk_PoolThread false (in_use t) (dying t) Finished (runs t) (replaced t))
  | Finished => None
  end.
Fixpoint turns (n : nat) (t : PoolThread) : PoolThread :=
  match n with O => t | S n => match turn t with Some t' => turns n t' | None => t end end.

Definition kick (t : PoolThread) : PoolThread :=
  mk_PoolThread (running t) true (dying t) (at_ t) (runs t) (replaced t).

(** [die], in two parts: another turn may come between them. *)
Definition set_dying (t : PoolThread) : PoolThread :=
  mk_PoolThread (running t) (in_use t) true (at_ t) (runs t) (replaced t).
Definition release (t : PoolThread) : PoolThread := kick t.

(** The thread and its users: [asked] is whether [die] is between its parts, and [died] whether it has been called. *)
Record system := mk_system { thread : PoolThread; asked : bool; died : bool }.
Inductive step : system -> system -> Prop :=
  | step_turn t t' a d : turn t = Some t' -> step (mk_system t a d) (mk_system t' a d)
  | step_kick t a : at_ t = Waiting -> in_use t = false -> step (mk_system t a false) (mk_system (kick t) a false)
  | step_die t : running t = true -> step (mk_system t false false) (mk_system (set_dying t) true false)
  | step_release t : step (mk_system t true false) (mk_system (release t) false true).
Definition init : system := mk_system started false false.

(** *** What threads do *)

Definition stops (t : PoolThread) : Prop := exists n, at_ (turns n t) = Finished.

(** A thread that has finished, or waits, goes on doing so. *)
Lemma turns_stuck n t : turn t = None -> turns n t = t.
Proof. destruct n; simpl; [done|]. by intros ->. Qed.
Lemma turns_step n t t' : turn t = Some t' -> turns (S n) t = turns n t'.
Proof. simpl. by intros ->. Qed.

(** What [die] has set is not undone. *)
Definition died_ok (s : system) : Prop := asked s || died s = true -> dying (thread s) = true.
Lemma turn_dying t t' : turn t = Some t' -> dying t' = dying t.
Proof. unfold turn. destruct (at_ t); intros H; simplify_eq/=; try done; destruct (in_use t), (dying t) eqn:E; by simplify_eq/=. Qed.
Lemma died_step s s' : died_ok s -> step s s' -> died_ok s'.
Proof.
  intros Hs Hst. revert Hs. destruct Hst as [t t' a d Ht| | |]; unfold died_ok; simpl; try done.
  by rewrite (turn_dying t t' Ht).
Qed.
Lemma died_reachable s : rtc step init s -> died_ok s.
Proof. intros H. assert (H0 : died_ok init) by done. revert H0. induction H; eauto using died_step. Qed.

(** [die] stops a thread of the pool exactly when it does not end between the check that follows [run] and the clearing of [in_use]: at any other moment (waiting, running, even while it goes back into the pool) the thread finishes by itself, in at most six turns of its loop; at that moment its wake-up is cleared, and the thread waits for ever, so that a join never returns. *)
Theorem pool_thread_die s : rtc step init s -> asked s = true ->
  (at_ (thread s) <> Clearing -> at_ (turns 6 (release (thread s))) = Finished) /\
  (at_ (thread s) = Clearing -> forall n,
     at_ (turns (2 + n) (release (thread s))) = Waiting /\ turn (turns (2 + n) (release (thread s))) = None).
Proof.
  intros Hr Ha. assert (Hd : dying (thread s) = true) by (apply died_reachable; [done|]; by rewrite Ha).
  destruct (thread s) as [r u d p ru re]. simpl in Hd. subst d. split.
  - intros Hp. by destruct p.
  - intros Hp n. simpl in Hp. subst p. change (turns (2 + n) _) with (turns n (mk_PoolThread r false true Waiting ru (S re))).
    by rewrite turns_stuck.
Qed.

(** It is told to die in [run]. *)
Definition sample : system := mk_system (mk_PoolThread true true true In_run 0 0) true false.
Lemma pool_thread_sample_reachable : rtc step init sample.
Proof.
  eapply rtc_l; [apply step_kick; done|]. do 2 (eapply rtc_l; [apply step_turn; reflexivity|]).
  eapply rtc_l; [apply step_die; done|]. apply rtc_refl.
Qed.
Lemma pool_thread_die_witness : at_ (turns 6 (release (thread sample))) = Finished.
Proof. apply (pool_thread_die sample pool_thread_sample_reachable eq_refl). discriminate. Defined.

(** The moment is reached: the thread runs, finds that it is not dying, and is told to die before it clears [in_use]. *)
Definition lost : system := mk_system (mk_PoolThread true false true Waiting 1 1) false true.
Lemma lost_reachable : rtc step init lost.
Proof.
  eapply rtc_l; [apply step_kick; done|].
  do 4 (eapply rtc_l; [apply step_turn; reflexivity|]).
  eapply rtc_l; [apply step_die; done|]. eapply rtc_l; [apply step_release|].
  do 2 (eapply rtc_l; [apply step_turn; reflexivity|]). apply rtc_refl.
Qed.
Lemma lost_stays s : ~ step lost s.
Proof. inversion 1; done. Qed.
End PoolThread.

(** ** [ThreadPool] *)
Module ThreadPool.

(** [next] is the number of the next thread that is made; [dead] are those that have been deleted, [gone] those lost by a pool that was shut down. *)
Record ThreadPool := mk_ThreadPool {
  min_spares : Z; max_threads : Z; spares : list nat; actives : list nat; shutting_down : bool; next : nat; dead : list nat
}.
Definition with_lists (sp ac de : list nat) (n : nat) (p : ThreadPool) : ThreadPool :=
  mk_ThreadPool (min_spares p) (max_threads p) sp ac (shutting_down p) n de.

Definition add_spare (p : ThreadPool) : ThreadPool := with_lists (spares p ++ [next p]) (actives p) (dead p) (S (next p)) p.

Definition wants_spare (p : ThreadPool) : bool :=
  (zlen (spares p) <? (if min_spares p =? 0 then 1 else min_spares p)) &&
  ((max_threads p =? 0) || (zlen (spares p) + zlen (actives p) <? max_threads p)).
Fixpoint fill_loop (fuel : nat) (p : ThreadPool) : ThreadPool :=
  match fuel with O => p | S fuel => if wants_spare p then fill_loop fuel (add_spare p) else p end.
Definition fill (p : ThreadPool) : ThreadPool := fill_loop (Z.to_nat (Z.max 1 (min_spares p))) p.

Definition new_ThreadPool (min max : Z) : ThreadPool := fill (mk_ThreadPool min max [] [] false 0 []).
Definition set_min_spares (n : Z) (p : ThreadPool) : ThreadPool :=
  fill (mk_ThreadPool n (max_threads p) (spares p) (actives p) (shutting_down p) (next p) (dead p)).
Definition set_max_threads (n : Z) (p : ThreadPool) : ThreadPool :=
  mk_ThreadPool (min_spares p) n (spares p) (actives p) (shutting_down p) (next p) (dead p).
Definition available (p : ThreadPool) : bool := match spares p with [] => false | _ => true end.
Definition active (p : ThreadPool) : bool := match actives p with [] => false | _ => true end.

(** [remove] under the lock: the thread, or [None] for the null pointer *)
Definition remove_locked (p : ThreadPool) : option nat * ThreadPool :=
  let p := fill p in
  match spares p with
  | [] => (None, p)
  | t :: sp => (Some t, with_lists sp (actives p ++ [t]) (dead p) (next p) p)
  end.

(** The last spares are deleted; [kept] is [min_spares-1] as an [unsigned int]. The list is that of the spares backwards. *)
Fixpoint trim_loop (kept : Z) (back : list nat) (dead : list nat) : list nat * list nat :=
  match back with
  | [] => ([], dead)
  | ts :: rest => if zlen back >? kept then trim_loop kept rest (dead ++ [ts]) else (back, dead)
  end.
(** [replace] under the lock *)
Definition replace_locked (t : nat) (p : ThreadPool) : ThreadPool :=
  let ac := List.filter (fun u => negb (Nat.eqb u t)) (actives p) in
  let '(back, de) := trim_loop (u32 (min_spares p - 1)) (rev (spares p)) (dead p) in
  with_lists (rev back ++ [t]) ac de (next p) p.

(** [shutting_down = true] *)
Definition set_shutting_down (p : ThreadPool) : ThreadPool :=
  mk_ThreadPool (min_spares p) (max_threads p) (spares p) (actives p) true (next p) (dead p).
(** [shutdown] under the lock *)
Definition shutdown_locked (p : ThreadPool) : ThreadPool :=
  with_lists [] [] (dead p ++ actives p ++ spares p) (next p) p.

(** *** Calls under way *)

(** A call past its test: [Setting] is about to set [shutting_down], the others wait for the lock. *)
Inductive call := Removing | Replacing (t : nat) | Setting | Shutting.
#[export] Instance call_eq_dec : EqDecision call.
Proof. solve_decision. Defined.
Record system := mk_system { pool : ThreadPool; calls : list call }.

(** [if (shutting_down) return]: without the lock *)
Definition test_shutting_down (c : call) (s : system) : system :=
  if shutting_down (pool s) then s else mk_system (pool s) (calls s ++ [c]).

(** A thread makes a call, or a call under way goes on ([Go i]). *)
Inductive event := Remove | Replace (t : nat) | Shutdown | SetMin (n : Z) | Go (i : nat).
Definition go (i : nat) (s : system) : option system :=
  match calls s !! i with
  | None => None
  | Some Removing => Some (mk_system (snd (remove_locked (pool s))) (delete i (calls s)))
  | Some (Replacing t) => Some (mk_system (replace_locked t (pool s)) (delete i (calls s)))
  | Some Setting => Some (mk_system (set_shutting_down (pool s)) (<[i := Shutting]> (calls s)))
  | Some Shutting => Some (mk_system (shutdown_locked (pool s)) (delete i (calls s)))
  end.
Definition move (s : system) (e : event) : option system :=
  match e with
  | Remove => Some (test_shutting_down Removing s)
  | Replace t => Some (test_shutting_down (Replacing t) s)
  | Shutdown => Some (test_shutting_down Setting s)
  | SetMin n => Some (mk_system (set_min_spares n (pool s)) (calls s))
  | Go i => go i s
  end.
Fixpoint play (s : system) (es : list event) : option system :=
  match es with
  | [] => Some s
  | e :: es => match move s e with Some s => play s es | None => None end
  end.
Definition new_system (min max : Z) : system := mk_system (new_ThreadPool min max) [].

(** *** The pool's threads *)

(** Every thread that was made is in one list, once. *)
Definition pool_ok (p : ThreadPool) : Prop := (spares p ++ actives p) ++ dead p ≡ₚ seq 0 (next p).
Definition size (p : ThreadPool) : Z := zlen (spares p) + zlen (actives p).
Definition within (p : ThreadPool) : Prop := max_threads p = 0 \/ size p <= max_threads p.

(** The threads that are giving themselves back, past the test. *)
Definition replacing (cs : list call) : list nat :=
  omap (fun c => match c with Replacing t => Some t | _ => None end) cs.

(** A thread gives itself back once, while it is active; and [shutdown] does not get the
    lock while a thread is giving itself back. *)
Definition allowed (e : event) (s : system) : Prop :=
  match e with
  | Replace t => t ∈ actives (pool s) /\ ~ t ∈ replacing (calls s)
  | SetMin n => 0 <= n < 2 ^ 32
  | Go i => calls s !! i = Some Shutting -> replacing (calls s) = []
  | _ => True
  end.
Inductive step (s s' : system) : Prop :=
  | step_move e : allowed e s -> move s e = Some s' -> step s s'.








(** What the operations keep. *)
Definition kept (max : Z) (p : ThreadPool) : Prop :=
  pool_ok p /\ within p /\ max_threads p = max /\ 0 <= min_spares p < 2 ^ 32.










(** The state after a sequence of events, all of them possible. *)
Definition played (min max : Z) (es : list event) : system :=
  default (new_system min max) (play (new_system min max) es).

(** With [min_spares] 0 the number of spares to keep wraps to 2^32-1, so that none is ever deleted. *)
Example min_zero_keeps_all :
  spares (pool (played 0 0 [Remove; Go 0; Remove; Go 0; Replace 0; Go 0; Replace 1; Go 0])) = [0%nat; 1%nat].
Proof. reflexivity. Qed.
Example min_one_keeps_one :
  spares (pool (played 1 0 [Remove; Go 0; Remove; Go 0; Replace 0; Go 0; Replace 1; Go 0])) = [1%nat].
Proof. reflexivity. Qed.

(** A thread that has passed the test of [replace] when [shutdown] takes the lock is deleted, and then put back among the spares; and [remove] makes and gives threads in a pool that has been shut down meanwhile. *)
Example replace_after_shutdown :
  let p := pool (played 1 10 [Remove; Go 0; Replace 0; Shutdown; Go 1; Go 1; Go 0]) in
  spares p = [0%nat] /\ dead p = [0%nat] /\ shutting_down p = true.
Proof. by vm_compute. Qed.
Example remove_after_shutdown :
  let p := pool (played 1 10 [Remove; Shutdown; Go 1; Go 1; Go 0]) in
  actives p = [1%nat] /\ dead p = [0%nat] /\ shutting_down p = true.
Proof. by vm_compute. Qed.
End ThreadPool.
