(* ===== verification/PropertyList.v ===== *)
(** * Property lists

    Models [PropertyList] ([src/libs/misc/proplist.cc], [src/libs/misc/ot-misc.h]), a
    map from names to values read from and written as text, with the
    interpolation of its values into a text; and [HashInterpolator]
    ([src/libs/misc/hash-interp.cc]), which adds properties that are hashes. *)
From S2P Require Export StrMap Strings Convert Element Md5.

Module PropertyList.
Import Strings.

Abbreviation smap := (list (bytes * bytes)).

Definition EQUALS : Z := 61.
Definition DOLLAR : Z := 36.
Definition SEMICOLON : Z := 59.

(** ** Values *)

Definition add (name value : bytes) (pl : smap) : smap := map_set name value (map_erase name pl).
Definition add_int (name : bytes) (value : Z) (pl : smap) : smap := add name (itos value) pl.
Definition add_uint64 (name : bytes) (value : Z) (pl : smap) : smap := add name (i64tos value) pl.
Definition add_bool (name : bytes) (value : bool) (pl : smap) : smap :=
  add name (if value then str "true" else str "false") pl.

Definition has (name : bytes) (pl : smap) : bool := match map_find name pl with Some _ => true | None => false end.
Definition get (name def : bytes) (pl : smap) : bytes := match map_find name pl with Some v => v | None => def end.
(** [atoi] is that of [stoi] ([Convert.v]); [atof] is a parameter. *)
Definition get_int (name : bytes) (def : Z) (pl : smap) : Z :=
  match get name [] pl with [] => def | v => stoi v end.
Definition get_bool (name : bytes) (def : bool) (pl : smap) : bool :=
  match get name [] pl with
  | [] => def
  | c :: _ => (c =? chr "T") || (c =? chr "t") || (c =? chr "Y") || (c =? chr "y")
  end.
Definition get_real {R} (atof : bytes -> R) (name : bytes) (def : R) (pl : smap) : R :=
  match get name [] pl with [] => def | v => atof v end.

(** ** From text *)

(** The loop, at [p]; when [sep] is the equals sign itself, the length of the value is 2^64-1. *)
Fixpoint parse_loop (fuel : nat) (s : bytes) (sep quote p : Z) (pl : smap) : option smap :=
  match fuel with
  | O => None
  | S fuel =>
    match find EQUALS s p with
    | None => Some pl
    | Some ep =>
      let sp := find sep s p in
      if match sp with Some i => i <? ep | None => false end then
        parse_loop fuel s sep quote (default 0 sp + 1) pl
      else
        let name := canonicalise_space (substr s p (ep - p)) in
        let qp := find quote s (ep + 1) in
        let spf := default (zlen s) sp in
        let '(pl, sp) :=
          if match qp with Some i => i <? spf | None => false end then
            let q := default 0 qp in
            match find quote s (q + 1) with
            | Some qp2 => (add name (substr s (q + 1) (qp2 - q - 1)) pl, find sep s (qp2 + 1))
            | None => (add name (substr s (q + 1) (spf - q - 1)) pl, sp)
            end
          else
            let n := if spf <=? ep then zlen s else spf - ep - 1 in
            (add name (canonicalise_space (substr s (ep + 1) n)) pl, sp) in
        match sp with None => Some pl | Some sp => parse_loop fuel s sep quote (sp + 1) pl end
    end
  end.
Definition parse (s : bytes) (sep quote : Z) : option smap := parse_loop (S (length s)) s sep quote 0 [].

(** ** To text *)

Definition write_entry (sep quote : Z) (kv : bytes * bytes) : bytes :=
  let '(k, v) := kv in
  k ++ [EQUALS] ++ (if match find sep v 0 with Some _ => true | None => false end then [quote] ++ v ++ [quote] else v).
Fixpoint to_str (sep quote : Z) (pl : smap) : bytes :=
  match pl with
  | [] => []
  | [kv] => write_entry sep quote kv
  | kv :: pl => write_entry sep quote kv ++ [sep] ++ to_str sep quote pl
  end.
Definition dump (prefix separator : bytes) (pl : smap) : bytes :=
  flat_map (fun kv => prefix ++ fst kv ++ separator ++ snd kv ++ [NL]) pl.

(** ** Interpolation *)

Definition in_word (c : Z) : bool := is_alpha c || is_digit c || (c =? chr "_").

(** The word read, the character after it (0 at the end), and what follows *)
Fixpoint read_word (var p : bytes) : bytes * Z * bytes :=
  match p with
  | [] => (var, 0, [])
  | c :: p => if in_word c then read_word (var ++ [c]) p else (var, c, p)
  end.

(** The loop over the text from [p]; to try again with a character is to put it back. *)
Fixpoint interpolate_loop (fuel : nat) (pl : smap) (p result : bytes) : option bytes :=
  match p with
  | [] => Some result
  | c :: p =>
    match fuel with
    | O => None
    | S fuel =>
      if c =? DOLLAR then
        let '(var, c, p) := read_word [] p in
        match var with
        | [] =>
          if (c =? DOLLAR) || (c =? SEMICOLON) then interpolate_loop fuel pl p (result ++ [c])
          else interpolate_loop fuel pl p (result ++ [DOLLAR] ++ [c])
        | _ =>
          let result := match map_find var pl with
            | Some v => result ++ v
            | None => result ++ [DOLLAR] ++ var ++ (if c =? SEMICOLON then [c] else [])
            end in
          if negb (c =? 0) && negb (c =? SEMICOLON) then interpolate_loop fuel pl (c :: p) result
          else interpolate_loop fuel pl p result
        end
      else interpolate_loop fuel pl p (result ++ [c])
    end
  end.
Definition interpolate (text : bytes) (pl : smap) : option bytes := interpolate_loop (length text) pl text [].

(** The environment: [environ] is the list of its strings. *)
Definition fill_from_environment (environ : list bytes) (pl : smap) : option smap :=
  fold_left (fun pl env =>
    pl ← pl; bits ← split env EQUALS true 0;
    match bits with [k; v] => Some (add k v pl) | _ => Some pl end) environ (Some pl).

(** ** [HashInterpolator] *)

Record Hash := mk_Hash { name : bytes; modulus : Z; pattern : bytes }.
Definition add_hash (n : bytes) (m : Z) (p : bytes) (hashes : list Hash) : list Hash := hashes ++ [mk_Hash n m p].
Definition of_xml (root : Element.Element) : list Hash :=
  fold_left (fun hashes i =>
    match nth_error (Element.children root) i with
    | Some e => add_hash (Element.get_attr e (str "name") []) (u32 (Element.get_attr_int e (str "modulus") 0)) (Element.get_content e) hashes
    | None => hashes
    end) (Element.get_children root (str "hash")) [].
(** [None] when a modulus is 0, which the language leaves undefined; [junk] is what the state of an [MD5] holds when it is made. *)
Definition augment (junk : Md5.MD5) (hashes : list Hash) (pl : smap) : option smap :=
  fold_left (fun pl h =>
    pl ← pl; value ← interpolate (pattern h) pl;
    if modulus h =? 0 then None else Some (add_uint64 (name h) (Md5.hash_to_int value junk mod modulus h) pl)) hashes (Some pl).

(* ------------------------------------------------------------------ *)
(** ** What interpolation does *)

(** A text as its pieces: a character; [$$]; [$;]; a dollar before something else; a variable, with [;] after it or not *)
Inductive piece := Lit (c : Z) | Dollars | Semi | Odd (c : Z) | Var (n : bytes) (semi : bool).
Definition render1 (p : piece) : bytes :=
  match p with
  | Lit c => [c]
  | Dollars => [DOLLAR; DOLLAR]
  | Semi => [DOLLAR; SEMICOLON]
  | Odd c => [DOLLAR; c]
  | Var n semi => [DOLLAR] ++ n ++ (if semi then [SEMICOLON] else [])
  end.
Definition render (ps : list piece) : bytes := flat_map render1 ps.
Definition meaning1 (pl : smap) (p : piece) : bytes :=
  match p with
  | Lit c => [c]
  | Dollars => [DOLLAR]
  | Semi => [SEMICOLON]
  | Odd c => [DOLLAR; c]
  | Var n semi => match map_find n pl with Some v => v | None => render1 p end
  end.
Definition meaning (pl : smap) (ps : list piece) : bytes := flat_map (meaning1 pl) ps.
(** What may follow a variable without [;] *)
Definition ends_word (p : bytes) : Prop :=
  match p with [] => True | c :: _ => in_word c = false /\ c <> SEMICOLON /\ c <> 0 end.
Fixpoint pieces_ok (ps : list piece) : Prop :=
  match ps with
  | [] => True
  | p :: ps =>
    match p with
    | Lit c => c <> DOLLAR
    | Dollars | Semi => True
    | Odd c => in_word c = false /\ c <> DOLLAR /\ c <> SEMICOLON
    | Var n semi => n <> [] /\ Forall (fun c => in_word c = true) n /\ (semi = false -> ends_word (render ps))
    end /\ pieces_ok ps
  end.

Lemma read_word_shrinks p : forall var, let '(var', c, p') := read_word var p in
  (length p' <= length p)%nat /\ (c <> 0 -> (S (length p') + length var' = length p + length var)%nat).
Proof.
  induction p as [|c p IH]; intros var; cbn [read_word]; [done|].
  destruct (in_word c); [|simpl; lia]. specialize (IH (var ++ [c])). destruct (read_word (var ++ [c]) p) as [[var' c'] p'].
  rewrite length_app in IH. simpl in *. lia.
Qed.
Lemma interpolate_ends fuel pl : forall p result, (length p <= fuel)%nat -> exists r, interpolate_loop fuel pl p result = Some r.
Proof.
  induction fuel as [|fuel IH]; intros p result Hp; (destruct p as [|c p]; [by eexists|]); [simpl in Hp; lia|].
  cbn [interpolate_loop]. simpl in Hp. destruct (c =? DOLLAR); [|apply IH; lia].
  pose proof (read_word_shrinks p []) as Hr. destruct (read_word [] p) as [[var d] p']. destruct Hr as [H1 H2].
  destruct var as [|v var].
  - destruct ((d =? DOLLAR) || (d =? SEMICOLON)); apply IH; lia.
  - destruct (Z.eqb_spec d 0) as [->|Hd]; simpl; [apply IH; lia|]. specialize (H2 Hd). simpl in H2.
    destruct (d =? SEMICOLON); simpl; apply IH; simpl; lia.
Qed.

Lemma read_word_run n : forall var p, Forall (fun c => in_word c = true) n -> read_word var (n ++ p) = read_word (var ++ n) p.
Proof.
  induction n as [|c n IH]; intros var p Hn; simpl; [by rewrite app_nil_r|]. apply Forall_cons in Hn as [-> Hn].
  rewrite IH by done. by rewrite <- app_assoc.
Qed.
Lemma interpolate_render fuel pl : forall ps result, pieces_ok ps -> (length (render ps) <= fuel)%nat ->
  interpolate_loop fuel pl (render ps) result = Some (result ++ meaning pl ps).
Proof.
  induction fuel as [|fuel IH]; intros [|p ps] result Hok Hf; try (simpl; by rewrite app_nil_r).
  - exfalso. destruct p; simpl in Hf; lia.
  - destruct Hok as [Hp Hok].
    assert (Hstep : forall r, (length (render ps) <= fuel)%nat -> interpolate_loop fuel pl (render ps) r = Some (r ++ meaning pl ps)) by (intros; by apply IH).
    unfold render, meaning in *. cbn [flat_map] in *. fold (render ps) in *. fold (meaning pl ps) in *.
    rewrite length_app in Hf. destruct p as [c| | |c|n semi]; simpl render1 in *; simpl meaning1; simpl in Hf.
    + cbn [app interpolate_loop]. rewrite (proj2 (Z.eqb_neq _ _) Hp). rewrite Hstep by lia. by rewrite <- app_assoc.
    + cbn [app interpolate_loop]. simpl. rewrite Hstep by lia. by rewrite <- app_assoc.
    + cbn [app interpolate_loop]. simpl. rewrite Hstep by lia. by rewrite <- app_assoc.
    + destruct Hp as (Hw & H1 & H2). cbn [app interpolate_loop]. simpl. rewrite Hw, (proj2 (Z.eqb_neq _ _) H1), (proj2 (Z.eqb_neq _ _) H2). simpl.
      rewrite Hstep by lia. by rewrite <- app_assoc.
    + destruct Hp as (Hne & Hw & Hend). cbn [app interpolate_loop]. change (DOLLAR =? DOLLAR) with true. cbn iota.
      rewrite <- app_assoc, read_word_run by done. simpl app at 1. rewrite length_app in Hf.
      destruct semi; simpl app; simpl read_word.
      * destruct n as [|x n]; [done|]. simpl. simpl in Hf. destruct (map_find (x :: n) pl) as [v|]; rewrite Hstep by (simpl in Hf; lia);
          rewrite <- ?app_assoc; simpl; by rewrite <- ?app_assoc.
      * specialize (Hend eq_refl). assert (Hlen : (0 < length n)%nat) by (destruct n; simpl; [done|lia]).
        destruct (render ps) as [|c rest] eqn:Er.
        -- simpl. destruct n as [|x n]; [done|]. simpl. rewrite app_nil_r.
           destruct (map_find (x :: n) pl) as [v|]; rewrite Hstep by (simpl; lia); by rewrite <- ?app_assoc, ?app_nil_r.
        -- destruct Hend as (Hc & H1 & H2). simpl. rewrite Hc. destruct n as [|x n]; [done|]. simpl in Hf, Hstep.
           rewrite (proj2 (Z.eqb_neq _ _) H1), (proj2 (Z.eqb_neq _ _) H2). simpl. rewrite app_nil_r.
           destruct (map_find (x :: n) pl) as [v|]; rewrite Hstep by lia; by rewrite <- ?app_assoc, ?app_nil_r.
Qed.

(** ** Reading what was written *)

Lemma find_mid c pre a b : Forall (fun x => (c =? x) = false) a ->
  find c (pre ++ a ++ c :: b) (zlen pre) = Some (zlen pre + zlen a).
Proof. intros Ha. unfold find. rewrite zdrop_app, find_first_app by (done || apply Z.eqb_refl). done. Qed.
Lemma find_absent c pre a : Forall (fun x => (c =? x) = false) a -> find c (pre ++ a) (zlen pre) = None.
Proof. intros Ha. unfold find. by rewrite zdrop_app, find_first_none. Qed.
Lemma find_beyond c pre a b i : Forall (fun x => (c =? x) = false) a -> find c (pre ++ a ++ b) (zlen pre) = Some i -> zlen pre + zlen a <= i.
Proof.
  intros Ha. unfold find. rewrite zdrop_app. intros (j & Hj & ->)%fmap_Some. enough (zlen a <= j) by lia. revert j Hj.
  induction Ha as [|x a Hx _ IH]; intros j Hj; cbn [app find_first] in Hj.
  - rewrite zlen_nil. clear -Hj. revert j Hj. induction b as [|y b IH]; intros j; [done|]. cbn [find_first].
    destruct (c =? y); [intros [= <-]; lia|]. intros (k & Hk & ->)%fmap_Some. specialize (IH k Hk). lia.
  - rewrite Hx in Hj. apply fmap_Some in Hj as (k & Hk & ->). specialize (IH k Hk). rewrite zlen_cons. lia.
Qed.
Lemma find_none_free c v : find c v 0 = None <-> Forall (fun x => (c =? x) = false) v.
Proof.
  unfold find. rewrite zdrop_0. split; [|intros H; by rewrite find_first_none].
  intros H%fmap_None. induction v as [|x v IH]; [done|]. cbn [find_first] in H. destruct (c =? x) eqn:E; [done|].
  apply fmap_None in H. constructor; auto.
Qed.
Lemma substr_mid pre a b : substr (pre ++ a ++ b) (zlen pre) (zlen a) = a.
Proof. unfold substr. by rewrite zdrop_app, ztake_app. Qed.

Lemma map_erase_absent k (o : smap) : map_find k o = None -> map_erase k o = o.
Proof. induction o as [|[l w] o IH]; simpl; [done|]. destruct (key_cmp k l); [done|intros H; f_equal; by apply IH..]. Qed.
Lemma add_last k v acc b : keys_from b (acc ++ [(k, v)]) -> add k v acc = acc ++ [(k, v)].
Proof.
  intros H. unfold add. rewrite map_erase_absent by (eapply map_find_before; exact H). by eapply map_set_snoc.
Qed.

Section roundtrip.
Context (sep quote : Z) (Hse : sep <> EQUALS) (Hqe : quote <> EQUALS) (Hsq : sep <> quote).

(** Names are without the separator and equals signs, values without quotes; and names, and values that are not quoted, are in canonical form. *)
Definition entry_ok (kv : bytes * bytes) : Prop :=
  let '(k, v) := kv in
  Forall (fun c => (EQUALS =? c) = false /\ (sep =? c) = false) k /\ canonicalise_space k = k /\
  Forall (fun c => (quote =? c) = false) v /\ (find sep v 0 = None -> canonicalise_space v = v).

Definition rest_text (pl : smap) : bytes := match pl with [] => [] | _ => [sep] ++ to_str sep quote pl end.
Lemma to_str_cons kv pl : to_str sep quote (kv :: pl) = write_entry sep quote kv ++ rest_text pl.
Proof. destruct pl; simpl; [by rewrite app_nil_r|done]. Qed.

Lemma forall_and_l (P Q : Z -> Prop) l : Forall (fun c => P c /\ Q c) l -> Forall P l /\ Forall Q l.
Proof. intros H. split; eapply Forall_impl; try exact H; simpl; tauto. Qed.

Lemma eqb_ne c d : c <> d -> (c =? d) = false.
Proof. apply Z.eqb_neq. Qed.
Lemma rest_text_sep (kv : bytes * bytes) pl : exists r, rest_text (kv :: pl) = sep :: r.
Proof. by eexists. Qed.

(** One turn of the loop reads one entry: without quotes, *)
Lemma parse_plain fuel pre k v tl acc : Forall (fun c => (EQUALS =? c) = false) k -> Forall (fun c => (sep =? c) = false) k ->
  canonicalise_space k = k -> canonicalise_space v = v -> Forall (fun c => (quote =? c) = false) v -> Forall (fun c => (sep =? c) = false) v ->
  tl = [] \/ (exists r, tl = sep :: r) ->
  parse_loop (S fuel) (pre ++ (k ++ [EQUALS] ++ v) ++ tl) sep quote (zlen pre) acc =
  match tl with
  | [] => Some (add k v acc)
  | _ => parse_loop fuel (pre ++ (k ++ [EQUALS] ++ v) ++ tl) sep quote (zlen (pre ++ (k ++ [EQUALS] ++ v) ++ [sep])) (add k v acc)
  end.
Proof.
  intros Hke Hks Hck Hcv Hvq Hvs Htl. set (s := pre ++ (k ++ [EQUALS] ++ v) ++ tl). set (ep := zlen pre + zlen k).
  assert (Hmid : Forall (fun c => (sep =? c) = false) (k ++ [EQUALS] ++ v)).
  { apply Forall_app. split; [done|]. constructor; [by apply eqb_ne|done]. }
  assert (Es : s = pre ++ k ++ EQUALS :: v ++ tl) by (unfold s; by rewrite <- !app_assoc).
  assert (Es2 : s = (pre ++ k ++ [EQUALS]) ++ v ++ tl) by (unfold s; by rewrite <- !app_assoc).
  assert (Hep : zlen (pre ++ k ++ [EQUALS]) = ep + 1) by (unfold ep; rewrite !zlen_app, zlen_cons, zlen_nil; lia).
  assert (Hml : zlen pre + zlen (k ++ [EQUALS] ++ v) = ep + 1 + zlen v) by (unfold ep; rewrite !zlen_app, zlen_cons, zlen_nil; lia).
  pose proof (zlen_nonneg v) as Hv0.
  assert (Hsp : find sep s (zlen pre) = match tl with [] => None | _ => Some (ep + 1 + zlen v) end).
  { unfold s. destruct Htl as [->|[r ->]]; [rewrite app_nil_r; by apply find_absent|]. rewrite find_mid by done. by rewrite Hml. }
  assert (Hspf : default (zlen s) (find sep s (zlen pre)) = ep + 1 + zlen v).
  { rewrite Hsp. destruct Htl as [->|[r ->]]; [|done]. unfold s. simpl default. rewrite app_nil_r, zlen_app. done. }
  assert (Hqp : match find quote s (ep + 1) with Some i => i <? ep + 1 + zlen v | None => false end = false).
  { rewrite Es2, <- Hep. destruct (find quote _ _) as [i|] eqn:E; [|done]. apply find_beyond in E; [|done]. apply Z.ltb_ge. lia. }
  cbn [parse_loop]. rewrite Es at 1. rewrite find_mid by done. fold ep. rewrite Hspf, Hqp.
  replace (match find sep s (zlen pre) with Some i => i <? ep | None => false end) with false.
  2:{ rewrite Hsp. destruct tl; [done|]. symmetry. apply Z.ltb_ge. lia. }
  replace (substr s (zlen pre) (ep - zlen pre)) with k.
  2:{ unfold ep. replace (zlen pre + zlen k - zlen pre) with (zlen k) by lia. rewrite Es. by rewrite substr_mid. }
  rewrite Hck, (proj2 (Z.leb_gt _ _)) by lia. replace (ep + 1 + zlen v - ep - 1) with (zlen v) by lia.
  replace (substr s (ep + 1) (zlen v)) with v by (rewrite Es2, <- Hep; by rewrite substr_mid). rewrite Hcv, Hsp. destruct Htl as [->|[r ->]]; [done|].
  f_equal. rewrite app_assoc, zlen_app, zlen_cons, zlen_nil, zlen_app. lia.
Qed.

(** and with them. *)
Lemma parse_quoted fuel pre k v tl acc : Forall (fun c => (EQUALS =? c) = false) k -> Forall (fun c => (sep =? c) = false) k ->
  canonicalise_space k = k -> Forall (fun c => (quote =? c) = false) v -> find sep v 0 <> None ->
  tl = [] \/ (exists r, tl = sep :: r) ->
  parse_loop (S fuel) (pre ++ (k ++ [EQUALS] ++ [quote] ++ v ++ [quote]) ++ tl) sep quote (zlen pre) acc =
  match tl with
  | [] => Some (add k v acc)
  | _ => parse_loop fuel (pre ++ (k ++ [EQUALS] ++ [quote] ++ v ++ [quote]) ++ tl) sep quote
           (zlen (pre ++ (k ++ [EQUALS] ++ [quote] ++ v ++ [quote]) ++ [sep])) (add k v acc)
  end.
Proof.
  intros Hke Hks Hck Hvq Hvs Htl. set (s := pre ++ (k ++ [EQUALS] ++ [quote] ++ v ++ [quote]) ++ tl). set (ep := zlen pre + zlen k).
  assert (exists a b, v = a ++ sep :: b /\ Forall (fun c => (sep =? c) = false) a) as (a & b & Ev & Ha).
  { unfold find in Hvs. rewrite zdrop_0 in Hvs. destruct (find_first (Z.eqb sep) v) as [i|] eqn:E; [|done].
    apply find_first_Some in E as (a & c & b & -> & _ & Hc%Z.eqb_eq & _ & Ha). subst c. by exists a, b. }
  assert (Es : s = pre ++ k ++ EQUALS :: quote :: v ++ quote :: tl) by (unfold s; repeat (rewrite <- !app_assoc; simpl); done).
  assert (Es1 : s = pre ++ (k ++ EQUALS :: quote :: a) ++ sep :: b ++ quote :: tl).
  { rewrite Es, Ev. repeat (rewrite <- !app_assoc; simpl). done. }
  assert (Es2 : s = (pre ++ k ++ [EQUALS]) ++ [] ++ quote :: v ++ quote :: tl) by (rewrite Es; repeat (rewrite <- !app_assoc; simpl); done).
  assert (Es3 : s = (pre ++ k ++ [EQUALS; quote]) ++ v ++ quote :: tl) by (rewrite Es; repeat (rewrite <- !app_assoc; simpl); done).
  assert (Es4 : s = (pre ++ k ++ [EQUALS; quote] ++ v ++ [quote]) ++ tl) by (rewrite Es; repeat (rewrite <- !app_assoc; simpl); done).
  assert (Hep : zlen (pre ++ k ++ [EQUALS]) = ep + 1) by (unfold ep; rewrite !zlen_app, zlen_cons, zlen_nil; lia).
  assert (Hep2 : zlen (pre ++ k ++ [EQUALS; quote]) = ep + 1 + 1) by (unfold ep; rewrite !zlen_app, !zlen_cons, zlen_nil; lia).
  assert (Hep4 : zlen (pre ++ k ++ [EQUALS; quote] ++ v ++ [quote]) = ep + 1 + 1 + zlen v + 1).
  { unfold ep. rewrite !zlen_app, !zlen_cons, zlen_nil. lia. }
  pose proof (zlen_nonneg v) as Hv0. pose proof (zlen_nonneg a) as Ha0.
  assert (Hsp : find sep s (zlen pre) = Some (ep + 2 + zlen a)).
  { rewrite Es1, find_mid.
    - unfold ep. rewrite zlen_app, !zlen_cons. f_equal. lia.
    - apply Forall_app. split; [done|]. constructor; [by apply eqb_ne|]. constructor; [by apply eqb_ne|done]. }
  assert (Hqp : find quote s (ep + 1) = Some (ep + 1)).
  { rewrite Es2, <- Hep, find_mid by done. rewrite zlen_nil. f_equal. lia. }
  assert (Hqp2 : find quote s (ep + 1 + 1) = Some (ep + 1 + 1 + zlen v)) by (rewrite Es3, <- Hep2; by rewrite find_mid).
  assert (Hsp2 : find sep s (ep + 1 + 1 + zlen v + 1) = match tl with [] => None | _ => Some (ep + 1 + 1 + zlen v + 1) end).
  { rewrite Es4, <- Hep4. destruct Htl as [->|[r ->]]; [by apply find_absent|].
    rewrite (find_mid sep _ [] r) by done. rewrite zlen_nil. f_equal. lia. }
  cbn [parse_loop]. rewrite Es at 1. rewrite find_mid by done. fold ep. rewrite Hsp, Hqp. simpl default.
  rewrite (proj2 (Z.ltb_ge (ep + 2 + zlen a) ep)), (proj2 (Z.ltb_lt (ep + 1) (ep + 2 + zlen a))) by lia.
  replace (substr s (zlen pre) (ep - zlen pre)) with k.
  2:{ unfold ep. replace (zlen pre + zlen k - zlen pre) with (zlen k) by lia. rewrite Es. by rewrite substr_mid. }
  rewrite Hck, Hqp2. replace (ep + 1 + 1 + zlen v - (ep + 1) - 1) with (zlen v) by lia.
  replace (substr s (ep + 1 + 1) (zlen v)) with v by (rewrite Es3, <- Hep2; by rewrite substr_mid).
  rewrite Hsp2. destruct Htl as [->|[r ->]]; [done|].
  f_equal. rewrite app_assoc, zlen_app, zlen_cons, zlen_nil, <- Hep4, !zlen_app, !zlen_cons, zlen_nil. lia.
Qed.

Lemma parse_entries fuel : forall pre pl acc b, Forall entry_ok pl -> keys_from b (acc ++ pl) -> pl <> [] -> (length pl <= fuel)%nat ->
  parse_loop fuel (pre ++ to_str sep quote pl) sep quote (zlen pre) acc = Some (acc ++ pl).
Proof.
  induction fuel as [|fuel IH]; intros pre pl acc b Hok Hs Hne Hf; [destruct pl; simpl in Hf; [done|lia]|].
  destruct pl as [|[k v] pl]; [done|]. apply Forall_cons in Hok as [(Hk & Hck & Hv & Hcv) Hok]. apply forall_and_l in Hk as [Hke Hks].
  assert (Hadd : add k v acc = acc ++ [(k, v)]).
  { apply (add_last k v acc b). rewrite cons_middle, app_assoc in Hs. by eapply keys_from_init. }
  assert (Hnext : pl <> [] -> forall w, write_entry sep quote (k, v) = w ->
    parse_loop fuel (pre ++ w ++ rest_text pl) sep quote (zlen (pre ++ w ++ [sep])) (add k v acc) = Some (acc ++ (k, v) :: pl)).
  { intros Hpl w Hw. unfold rest_text. destruct pl as [|kv pl]; [done|].
    replace (pre ++ w ++ [sep] ++ to_str sep quote (kv :: pl)) with ((pre ++ w ++ [sep]) ++ to_str sep quote (kv :: pl)) by (by rewrite <- !app_assoc).
    rewrite Hadd. rewrite (IH _ (kv :: pl) (acc ++ [(k, v)]) b); [by rewrite <- app_assoc|done|by rewrite <- app_assoc|done|simpl in *; lia]. }
  assert (Htl : rest_text pl = [] \/ exists r, rest_text pl = sep :: r) by (destruct pl; [by left|right; apply rest_text_sep]).
  assert (Hend : pl = [] -> add k v acc = acc ++ (k, v) :: pl) by (by intros ->).
  rewrite to_str_cons. cbn [write_entry] in *. destruct (find sep v 0) as [i|] eqn:E.
  - rewrite parse_quoted by (done || congruence). destruct (decide (pl = [])) as [Hpl|Hpl].
    + rewrite <- (Hend Hpl). by rewrite Hpl.
    + rewrite <- (Hnext Hpl _ eq_refl). by destruct pl.
  - rewrite parse_plain; [|done|done|done|by apply Hcv|done|by apply find_none_free|done]. destruct (decide (pl = [])) as [Hpl|Hpl].
    + rewrite <- (Hend Hpl). by rewrite Hpl.
    + rewrite <- (Hnext Hpl _ eq_refl). by destruct pl.
Qed.
Lemma to_str_length pl : (length pl <= S (length (to_str sep quote pl)))%nat.
Proof.
  induction pl as [|kv pl IH]; [simpl; lia|]. rewrite to_str_cons, length_app. destruct pl as [|kv' pl]; [simpl; lia|].
  unfold rest_text. rewrite length_app. destruct kv as [k v]. unfold write_entry. rewrite length_app. simpl length in *. lia.
Qed.
End roundtrip.

(** A property list is read back from its text, for any separator and quote character, if no name holds either of the equals sign and the separator, no value a quote character, and white space is canonical where no quotes keep it. *)
Theorem property_list_roundtrip sep quote pl : sep <> EQUALS -> quote <> EQUALS -> sep <> quote ->
  sorted pl -> Forall (entry_ok sep quote) pl -> parse (to_str sep quote pl) sep quote = Some pl.
Proof.
  intros H1 H2 H3 Hs Hok. unfold parse. destruct pl as [|kv pl]; [done|].
  apply (parse_entries sep quote H1 H2 H3 _ [] (kv :: pl) [] None); [done|done|done|]. apply to_str_length.
Qed.
Lemma property_list_roundtrip_witness :
  to_str 44 34 [(str "a", str "1"); (str "b c", str " x,y")] = str "a=1,b c=" ++ [34] ++ str " x,y" ++ [34] /\
  parse (to_str 44 34 [(str "a", str "1"); (str "b c", str " x,y")]) 44 34 = Some [(str "a", str "1"); (str "b c", str " x,y")].
Proof.
  split; [reflexivity|]. apply property_list_roundtrip; [done|done|done|by vm_compute|].
  repeat constructor; try (vm_compute; done).
Defined.

(** Interpolation always ends, and replaces each variable by its value, a variable that is not set by itself, [$$] by a dollar and [$;] by a semicolon, and leaves everything else; a variable ends before the first character that cannot be part of its name, or with a semicolon, which goes with it. *)
Theorem interpolate_pieces pl :
  (forall text, exists r, interpolate text pl = Some r) /\
  (forall ps, pieces_ok ps -> interpolate (render ps) pl = Some (meaning pl ps)).
Proof.
  split.
  - intros text. unfold interpolate. by apply interpolate_ends.
  - intros ps Hok. unfold interpolate. by rewrite interpolate_render.
Qed.
Lemma interpolate_pieces_witness :
  interpolate (str "$name;s$name$;s") [(str "name", str "fred")] = Some (str "fredsfred;s").
Proof.
  apply (proj2 (interpolate_pieces [(str "name", str "fred")])
    [Var (str "name") true; Lit (chr "s"); Var (str "name") false; Semi; Lit (chr "s")]).
  simpl. split_and!; try done; try (by repeat constructor).
Defined.

(** A dollar at the end is followed by a null character. *)
Example interpolate_dollar_end : interpolate (str "a$") [] = Some (str "a$" ++ [0]).
Proof. reflexivity. Qed.
(** A variable of the environment with an equals sign in its value is lost. *)
Example environment_equals : fill_from_environment [str "A=b=c"; str "D=e"] [] = Some [(str "D", str "e")].
Proof. reflexivity. Qed.
(** A quote character in a value is not written so that it is read back. *)
Example quote_in_value : parse (to_str 44 34 [(str "a", [34; 44; 34])]) 44 34 = Some [(str "a", [])].
Proof. reflexivity. Qed.
End PropertyList.
