(* ===== verification/Path.v ===== *)
(** * File paths

    Models what [Path] ([src/libs/file/path.cc], [src/libs/file/ot-file.h]) does to the
    text of a path, on a POSIX platform; what asks the operating system is not here. *)
From S2P Require Export Strings Convert.

Module Path.
Import Strings.

Definition SEPCHAR : Z := 47.
Definition ALTSEPCHAR : Z := 0.
Definition EXTCHAR : Z := 46.
Definition is_sep_char (c : Z) : bool := (c =? SEPCHAR) || (negb (ALTSEPCHAR =? 0) && (c =? ALTSEPCHAR)).

Definition rfind (c : Z) (text : bytes) : option Z := find_last (Z.eqb c) text.
Definition DOT : bytes := str ".".
Definition ROOT : bytes := str "/".

(** [Path(dir, leaf)] *)
Definition join (dir leaf : bytes) : bytes :=
  if bool_decide (dir = DOT) then leaf
  else match last dir with
       | None => dir ++ leaf
       | Some c => if is_sep_char c then dir ++ leaf else dir ++ [SEPCHAR] ++ leaf
       end.

Definition is_absolute (path : bytes) : bool := match path with [] => false | c :: _ => is_sep_char c end.

(** The last separator of either kind; a null character after the last slash is taken for one. *)
Definition last_slash (path : bytes) : option Z :=
  match rfind SEPCHAR path with
  | None => if negb (ALTSEPCHAR =? 0) then rfind ALTSEPCHAR path else None
  | Some slash =>
    match rfind ALTSEPCHAR path with
    | Some alt_slash => Some (if alt_slash >? slash then alt_slash else slash)
    | None => Some slash
    end
  end.
Definition dirname (path : bytes) : bytes :=
  match last_slash path with
  | None => DOT
  | Some slash => if slash =? 0 then ROOT else ztake slash path
  end.
Definition leafname (path : bytes) : bytes :=
  match last_slash path with None => path | Some slash => zdrop (slash + 1) path end.
Definition extension (path : bytes) : bytes :=
  let leaf := leafname path in
  match rfind EXTCHAR leaf with None => [] | Some dot => zdrop (dot + 1) leaf end.
Definition basename (path : bytes) : bytes :=
  let leaf := leafname path in
  match rfind EXTCHAR leaf with None => leaf | Some dot => ztake dot leaf end.

Definition extend (path leaf : bytes) : bytes := path ++ [SEPCHAR] ++ leaf.
Definition extend_path (path p : bytes) : bytes := if is_absolute p then path ++ p else path ++ [SEPCHAR] ++ p.

(** The loop of [resolve], on the directory and the new path: a path before the end, or both *)
Fixpoint up_loop (fuel : nat) (dn nn : bytes) : option (bytes + bytes * bytes) :=
  match nn with
  | a :: b :: c :: rest =>
    if (zlen nn >? 3) && (a =? 46) && (b =? 46) && is_sep_char c then
      match fuel with
      | O => None
      | S fuel => if bool_decide (dn = DOT) then Some (inl nn) else up_loop fuel (dirname dn) rest
      end
    else Some (inr (dn, nn))
  | _ => Some (inr (dn, nn))
  end.
Definition resolve (path new_path : bytes) : option bytes :=
  if is_absolute new_path then Some new_path
  else r ← up_loop (length new_path) (dirname path) new_path;
       Some match r with inl nn => nn | inr (dn, nn) => join dn nn end.

(** Octal: [oct] prints a negative number as its 32 bits. *)
Definition itoo (mode : Z) : bytes := print_base 8 (u32 mode).
Definition otoi (mode : bytes) : Z := fold_left (fun n p => i32 (n * 8 + (p - chr "0"))) mode 0.

Definition sane (c : Z) : bool :=
  is_alpha c || is_digit c || (c =? chr ".") || (c =? chr "_") || (c =? chr "-") || (c =? chr "+").
Definition sanitise_leaf (leaf : bytes) : bytes := map (fun c => if sane c then c else chr "_") leaf.

(* ------------------------------------------------------------------ *)
(** ** Lemmas *)

(** A name: without separators *)
Definition plain (s : bytes) : Prop := Forall (fun c => c <> SEPCHAR /\ c <> ALTSEPCHAR) s.

Lemma find_last_none p s : Forall (fun x => p x = false) s -> find_last p s = None.
Proof. induction 1 as [|c s Hc _ IH]; simpl; [done|]. by rewrite IH, Hc. Qed.
Lemma find_last_app p a c b : Forall (fun x => p x = false) b -> p c = true -> find_last p (a ++ c :: b) = Some (zlen a).
Proof.
  intros Hb Hc. induction a as [|x a IH]; simpl; [by rewrite find_last_none, Hc|]. rewrite IH. rewrite zlen_cons. f_equal. lia.
Qed.
Lemma find_last_left p a b : Forall (fun x => p x = false) b -> find_last p (a ++ b) = find_last p a.
Proof. intros Hb. induction a as [|x a IH]; simpl; [by apply find_last_none|]. by rewrite IH. Qed.
Lemma find_last_below p a i : find_last p a = Some i -> 0 <= i < zlen a.
Proof.
  revert i. induction a as [|x a IH]; intros i; cbn [find_last]; [done|]. rewrite zlen_cons. pose proof (zlen_nonneg a).
  destruct (find_last p a) as [j|]; [intros [= <-]; specialize (IH j eq_refl); lia|]. destruct (p x); [intros [= <-]; lia|done].
Qed.
Lemma find_last_split p s : match find_last p s with
  | None => Forall (fun x => p x = false) s
  | Some i => exists a c b, s = a ++ c :: b /\ zlen a = i /\ p c = true /\ Forall (fun x => p x = false) b end.
Proof.
  induction s as [|x s IH]; simpl; [constructor|]. destruct (find_last p s) as [i|].
  - destruct IH as (a & c & b & -> & <- & Hc & Hb). exists (x :: a), c, b. rewrite zlen_cons. split_and!; [done|lia|done|done].
  - destruct (p x) eqn:E; [|by constructor]. exists [], x, s. done.
Qed.

Lemma plain_sep s : plain s -> Forall (fun x => (SEPCHAR =? x) = false) s.
Proof. intros Hs. eapply Forall_impl; [exact Hs|]. intros c [H _]. apply Z.eqb_neq. congruence. Qed.
Lemma plain_alt s : plain s -> Forall (fun x => (ALTSEPCHAR =? x) = false) s.
Proof. intros Hs. eapply Forall_impl; [exact Hs|]. intros c [_ H]. apply Z.eqb_neq. congruence. Qed.

Lemma last_slash_plain s : plain s -> last_slash s = None.
Proof. intros H. unfold last_slash, rfind. by rewrite find_last_none by by apply plain_sep. Qed.
Lemma last_slash_app d s : plain s -> last_slash (d ++ SEPCHAR :: s) = Some (zlen d).
Proof.
  intros H. unfold last_slash, rfind. rewrite find_last_app by (by apply plain_sep || done).
  destruct (find_last (Z.eqb ALTSEPCHAR) (d ++ SEPCHAR :: s)) as [i|] eqn:E; [|done].
  rewrite find_last_left in E by (constructor; [done|by apply plain_alt]). apply find_last_below in E.
  destruct (Z.gtb_spec i (zlen d)); [lia|done].
Qed.
Lemma dirname_plain s : plain s -> dirname s = DOT.
Proof. intros H. unfold dirname. by rewrite last_slash_plain. Qed.
Lemma dirname_app d s : plain s -> d <> [] -> dirname (d ++ SEPCHAR :: s) = d.
Proof.
  intros H Hd. unfold dirname. rewrite last_slash_app by done. destruct (Z.eqb_spec (zlen d) 0) as [E|_]; [by apply zlen_zero in E|]. apply ztake_app.
Qed.
Lemma dirname_root s : plain s -> dirname (SEPCHAR :: s) = ROOT.
Proof. intros H. unfold dirname. change (SEPCHAR :: s) with ([] ++ SEPCHAR :: s). by rewrite last_slash_app. Qed.
Lemma leafname_app d s : plain s -> leafname (d ++ SEPCHAR :: s) = s.
Proof. intros H. unfold leafname. rewrite last_slash_app by done. apply zdrop_past. Qed.

Lemma last_snoc {A} (l : list A) x : last (l ++ [x]) = Some x.
Proof. apply last_snoc. Qed.
Lemma join_dot leaf : join DOT leaf = leaf.
Proof. reflexivity. Qed.
Lemma join_root leaf : join ROOT leaf = ROOT ++ leaf.
Proof. reflexivity. Qed.
Lemma join_open d c leaf : c <> SEPCHAR -> d ++ [c] <> DOT -> join (d ++ [c]) leaf = d ++ c :: SEPCHAR :: leaf.
Proof.
  intros Hc Hd. unfold join. rewrite bool_decide_false, last_snoc by done.
  assert (is_sep_char c = false) as ->. { unfold is_sep_char. apply Z.eqb_neq in Hc. by rewrite Hc. }
  by rewrite <- app_assoc.
Qed.

(** A directory that can be had from a path: the present one, the root, or without a slash at its end *)
Definition dir_ok (dir : bytes) : Prop := dir = DOT \/ dir = ROOT \/ exists d c, dir = d ++ [c] /\ c <> SEPCHAR.

Lemma leafname_plain s : plain s -> leafname s = s.
Proof. intros H. unfold leafname. by rewrite last_slash_plain. Qed.
Lemma path_cases path : ALTSEPCHAR ∉ path -> plain path \/ exists d f, path = d ++ SEPCHAR :: f /\ plain f.
Proof.
  intros H0. pose proof (find_last_split (Z.eqb SEPCHAR) path) as H.
  assert (Hplain : forall f, (forall c, c ∈ f -> c ∈ path) -> Forall (fun x => (SEPCHAR =? x) = false) f -> plain f).
  { intros f Hin Hf. apply Forall_forall. intros c Hc. rewrite Forall_forall in Hf. specialize (Hf c Hc). apply Z.eqb_neq in Hf.
    split; [congruence|]. intros ->. by apply H0, Hin. }
  destruct (find_last (Z.eqb SEPCHAR) path) as [i|].
  - destruct H as (a & c & b & -> & _ & <-%Z.eqb_eq & Hb). right. exists a, b. split; [done|]. apply Hplain; [|done].
    intros c Hc. apply elem_of_app. right. by apply list_elem_of_further.
  - left. by apply Hplain.
Qed.

(** *** Resolving *)

(** The path of directories [ds] and the rest [r] *)
Fixpoint under (ds : list bytes) (r : bytes) : bytes :=
  match ds with [] => r | d :: ds => d ++ SEPCHAR :: under ds r end.
Definition path_of (absolute : bool) (ds : list bytes) (r : bytes) : bytes :=
  (if absolute then ROOT else []) ++ under ds r.
Definition UP : bytes := str "../".
Definition ups (k : nat) : bytes := concat (replicate k UP).
Definition dir_name (d : bytes) : Prop := plain d /\ d <> [] /\ d <> DOT.

(** What [dirname] gives for the directories of a path *)
Definition dir_of (absolute : bool) (ds : list bytes) : bytes :=
  match ds with
  | [] => if absolute then ROOT else DOT
  | _ => removelast (path_of absolute ds [])
  end.

Lemma under_snoc ds d r : under (ds ++ [d]) r = under ds (d ++ SEPCHAR :: r).
Proof. induction ds as [|e ds IH]; simpl; [done|]. by rewrite IH. Qed.
Lemma under_app ds r : under ds r = under ds [] ++ r.
Proof. induction ds as [|e ds IH]; simpl; [done|]. rewrite IH. by rewrite <- app_assoc. Qed.
Lemma dir_of_snoc absolute ds d : dir_of absolute (ds ++ [d]) = path_of absolute ds d.
Proof.
  unfold dir_of. destruct (ds ++ [d]) eqn:E; [by destruct ds|]. rewrite <- E. unfold path_of. rewrite under_snoc, under_app, !app_assoc.
  rewrite removelast_last. by rewrite <- app_assoc, <- under_app.
Qed.
Lemma path_of_snoc absolute ds d r : path_of absolute (ds ++ [d]) r = path_of absolute ds d ++ SEPCHAR :: r.
Proof. unfold path_of. rewrite under_snoc, under_app. rewrite (under_app ds d). by rewrite <- !app_assoc. Qed.

Lemma path_of_dot absolute ds r : Forall dir_name ds -> path_of absolute ds r = DOT -> absolute = false /\ ds = [] /\ r = DOT.
Proof.
  intros Hds. destruct absolute; [done|]. unfold path_of. simpl. destruct ds as [|e ds]; [done|].
  apply Forall_cons in Hds as [(_ & He & _) _]. destruct e as [|x [|y e]]; done.
Qed.

Lemma dirname_path absolute ds f : Forall dir_name ds -> plain f -> dirname (path_of absolute ds f) = dir_of absolute ds.
Proof.
  intros Hds Hf. destruct ds as [|d ds' _] using rev_ind.
  - destruct absolute; [by apply dirname_root|by apply dirname_plain].
  - apply Forall_app in Hds as [_ (_ & Hne & _)%Forall_singleton]. rewrite dir_of_snoc, path_of_snoc. apply dirname_app; [done|].
    unfold path_of. rewrite under_app. intros [_ [_ ->]%app_eq_nil]%app_eq_nil. done.
Qed.
Lemma dirname_dir absolute ds : Forall dir_name ds -> dirname (dir_of absolute ds) = dir_of absolute (removelast ds).
Proof.
  intros Hds. destruct ds as [|d ds _] using rev_ind; [by destruct absolute|].
  apply Forall_app in Hds as [Hds (Hd & _)%Forall_singleton]. rewrite removelast_last, dir_of_snoc. by apply dirname_path.
Qed.
Lemma join_dir absolute ds r : Forall dir_name ds -> join (dir_of absolute ds) r = path_of absolute ds r.
Proof.
  intros Hds. destruct ds as [|d ds _] using rev_ind; [by destruct absolute|].
  apply Forall_app in Hds as [Hds (Hd & Hne & Hdot)%Forall_singleton]. rewrite dir_of_snoc, path_of_snoc.
  destruct d as [|c d _] using rev_ind; [done|]. apply Forall_app in Hd as [_ [Hc _]%Forall_singleton].
  assert (E : path_of absolute ds (d ++ [c]) = path_of absolute ds d ++ [c]).
  { unfold path_of. rewrite under_app, (under_app ds d). by rewrite <- !app_assoc. }
  rewrite E, join_open; [by rewrite <- app_assoc|done|]. rewrite <- E. intros Hd0. by apply path_of_dot in Hd0 as (_ & _ & ?).
Qed.
Lemma dir_of_dot absolute ds : Forall dir_name ds -> (dir_of absolute ds = DOT <-> absolute = false /\ ds = []).
Proof.
  intros Hds. split; [|by intros [-> ->]]. destruct ds as [|d ds _] using rev_ind; [by destruct absolute|].
  apply Forall_app in Hds as [Hds (Hd & Hne & Hdot)%Forall_singleton]. rewrite dir_of_snoc. intros Hd0. by apply path_of_dot in Hd0 as (_ & _ & ?).
Qed.

(** A rest that the loop leaves alone *)
Definition settled (r : bytes) : Prop := match r with a :: b :: c :: _ :: _ => ~ (a = 46 /\ b = 46 /\ c = SEPCHAR) | _ => True end.
Lemma up_settled fuel dn r : settled r -> up_loop fuel dn r = Some (inr (dn, r)).
Proof.
  intros H. destruct fuel; (destruct r as [|a [|b [|c [|d r]]]]; try done; simpl up_loop;
    destruct ((_ && _) && _) eqn:E; [|done]; exfalso; apply H;
    unfold is_sep_char in E; simpl in E; rewrite orb_false_r in E; repeat (apply andb_prop in E as [E ?]);
    repeat match goal with H : (_ =? _) = true |- _ => apply Z.eqb_eq in H end; done).
Qed.

Lemma ups_S k r : ups (S k) ++ r = 46 :: 46 :: SEPCHAR :: (ups k ++ r).
Proof. reflexivity. Qed.
Lemma up_step fuel dn k r : r <> [] ->
  up_loop (S fuel) dn (ups (S k) ++ r) = if bool_decide (dn = DOT) then Some (inl (ups (S k) ++ r)) else up_loop fuel (dirname dn) (ups k ++ r).
Proof.
  intros Hr. rewrite ups_S. cbn [up_loop]. assert ((zlen (46 :: 46 :: SEPCHAR :: ups k ++ r) >? 3) = true) as ->; [|done].
  rewrite !zlen_cons, zlen_app. pose proof (zlen_nonneg (ups k)). pose proof (zlen_nonneg r).
  assert (zlen r <> 0) by (intros E; by apply zlen_zero in E). apply Z.gtb_lt. lia.
Qed.
Lemma up_ups absolute k : forall fuel ds r, Forall dir_name ds -> r <> [] -> settled r -> (k <= fuel)%nat ->
  up_loop fuel (dir_of absolute ds) (ups k ++ r) = Some
    (if negb absolute && (length ds <? k)%nat then inl (ups (k - length ds) ++ r)
     else inr (dir_of absolute (take (length ds - k) ds), r)).
Proof.
  induction k as [|k IH]; intros fuel ds r Hds Hr Hset Hf.
  - change (ups 0 ++ r) with r. rewrite up_settled by done. rewrite Nat.sub_0_r, take_ge by lia. by rewrite andb_false_r.
  - destruct fuel as [|fuel]; [lia|]. rewrite up_step by done. case_bool_decide as Hdot.
    + apply dir_of_dot in Hdot as [-> ->]; done.
    + rewrite dirname_dir by done. destruct ds as [|d ds _] using rev_ind.
      * destruct absolute; [|done]. simpl removelast. rewrite IH by (done || lia). done.
      * rewrite removelast_last. apply Forall_app in Hds as [Hds _]. rewrite IH by (done || lia). rewrite length_app. simpl length.
        replace (length ds + 1 <? S k)%nat with (length ds <? k)%nat by (destruct (Nat.ltb_spec (length ds) k), (Nat.ltb_spec (length ds + 1) (S k)); lia || done).
        replace (S k - (length ds + 1))%nat with (k - length ds)%nat by lia.
        replace (length ds + 1 - S k)%nat with (length ds - k)%nat by lia. by rewrite take_app_le by lia.
Qed.

Lemma up_total fuel : forall dn nn, (length nn <= fuel)%nat -> exists r, up_loop fuel dn nn = Some r.
Proof.
  induction fuel as [|fuel IH]; intros dn nn Hf; (destruct nn as [|a [|b [|c rest]]]; try by eexists); [simpl in Hf; lia|].
  cbn [up_loop]. destruct ((_ && _) && _); [|by eexists]. case_bool_decide; [by eexists|]. apply IH. simpl in Hf. lia.
Qed.

(** *** Octal *)

Lemma otoi_undigits l : forall n, Forall (fun d => 0 <= d < 8) l -> 0 <= n -> fold_left (fun a d => a * 8 + d) l n < 2 ^ 31 ->
  fold_left (fun n p => i32 (n * 8 + (p - chr "0"))) (map digit_char l) n = fold_left (fun a d => a * 8 + d) l n.
Proof.
  induction l as [|d l IH]; intros n Hl Hn Hb; cbn [map fold_left] in *; [done|]. apply Forall_cons in Hl as [Hd Hl].
  assert (Hdc : digit_char d - chr "0" = d). { unfold digit_char. destruct (Z.ltb_spec d 10); [|lia]. change (chr "0") with 48. lia. }
  rewrite Hdc. assert (Hle : n * 8 + d <= fold_left (fun a d => a * 8 + d) l (n * 8 + d)).
  { clear -Hl Hd Hn. assert (0 <= n * 8 + d) as H by lia. revert H. generalize (n * 8 + d). clear Hd Hn.
    induction Hl as [|e l He _ IH]; intros m Hm; simpl; [lia|]. specialize (IH (m * 8 + e) ltac:(lia)). lia. }
  rewrite (swrap_small 32) by (unfold in_s; lia). apply IH; [done|lia|done].
Qed.

Lemma octal_roundtrip mode : 0 <= mode < 2 ^ 31 -> otoi (itoo mode) = mode.
Proof.
  intros H. unfold itoo, otoi. rewrite wrap_small by (unfold in_u; lia). unfold print_base.
  destruct (Z.eqb_spec mode 0) as [->|Hne]; [done|].
  pose proof (undigits_digits 8 mode ltac:(lia) ltac:(unfold in_u; lia)) as E. unfold undigits in E.
  rewrite otoi_undigits; [done|by apply digits_range|done|lia].
Qed.
(** A negative mode is 32 bits, which [otoi] wraps back, where the language leaves it undefined. *)
Example octal_negative : itoo (-1) = str "37777777777" /\ otoi (itoo (-1)) = -1.
Proof. split; reflexivity. Qed.

Lemma extension_splits path : basename path ++ (if bool_decide (EXTCHAR ∈ leafname path) then [EXTCHAR] else []) ++ extension path = leafname path.
Proof.
  unfold basename, extension, rfind. pose proof (find_last_split (Z.eqb EXTCHAR) (leafname path)) as H.
  destruct (find_last (Z.eqb EXTCHAR) (leafname path)) as [i|].
  - destruct H as (a & c & b & E & <- & Hc%Z.eqb_eq & _). subst c. rewrite !E, ztake_app, zdrop_past.
    rewrite bool_decide_true by (apply elem_of_app; right; apply list_elem_of_here). done.
  - rewrite bool_decide_false; [by rewrite app_nil_r|]. rewrite Forall_forall in H. intros Hin. by specialize (H EXTCHAR Hin).
Qed.
Lemma extension_free path : EXTCHAR ∉ extension path.
Proof.
  unfold extension, rfind. pose proof (find_last_split (Z.eqb EXTCHAR) (leafname path)) as H.
  destruct (find_last (Z.eqb EXTCHAR) (leafname path)) as [i|]; [|apply not_elem_of_nil].
  destruct H as (a & c & b & -> & <- & _ & Hb). rewrite zdrop_past. rewrite Forall_forall in Hb. intros Hin. by specialize (Hb EXTCHAR Hin).
Qed.

(** A directory and a name, joined, are what [dirname] and [leafname] give back; a path with no null character is a plain leaf in the directory [.], or what comes before its last slash (the root, if that is nothing) and a leaf; the leaf is its base name, and a dot and its extension if it has a dot. *)
Theorem path_split_join :
  (forall dir leaf, dir_ok dir -> plain leaf -> dirname (join dir leaf) = dir /\ leafname (join dir leaf) = leaf) /\
  (forall path, ALTSEPCHAR ∉ path -> plain (leafname path) /\
    (dirname path = DOT /\ leafname path = path \/
     exists d, path = d ++ [SEPCHAR] ++ leafname path /\ dirname path = match d with [] => ROOT | _ => d end)) /\
  (forall path, (EXTCHAR ∉ extension path) /\
    leafname path = basename path ++ (if bool_decide (EXTCHAR ∈ leafname path) then [EXTCHAR] else []) ++ extension path).
Proof.
  split_and!.
  - intros dir leaf Hdir Hl. destruct Hdir as [->|[->|(d & c & -> & Hc)]].
    + rewrite join_dot. by rewrite dirname_plain, (leafname_plain leaf).
    + rewrite join_root. split; [by apply dirname_root|by apply (leafname_app [])].
    + destruct (decide (d ++ [c] = DOT)) as [->|Hd]; [rewrite join_dot; by rewrite dirname_plain, (leafname_plain leaf)|].
      rewrite join_open by done. replace (d ++ c :: SEPCHAR :: leaf) with ((d ++ [c]) ++ SEPCHAR :: leaf) by (by rewrite <- app_assoc).
      split; [apply dirname_app; [done|by destruct d]|by apply leafname_app].
  - intros path H0. destruct (path_cases path H0) as [Hp|(d & f & -> & Hf)].
    + rewrite leafname_plain, dirname_plain by done. tauto.
    + rewrite leafname_app by done. split; [done|]. right. exists d. split; [done|].
      destruct d; [by apply dirname_root|by apply dirname_app].
  - intros path. split; [apply extension_free|by rewrite extension_splits].
Qed.

(** Resolving a path always gives one: an absolute path is itself; [../] steps go up from the directory of the base, those too many stay before the result if the base is relative and are lost if it is absolute, and what follows is put in the directory reached. *)
Theorem resolve_spec :
  (forall base path, exists r, resolve base path = Some r) /\
  (forall base path, is_absolute path = true -> resolve base path = Some path) /\
  (forall absolute ds f k r, Forall dir_name ds -> plain f -> r <> [] -> settled r -> is_absolute (ups k ++ r) = false ->
    resolve (path_of absolute ds f) (ups k ++ r) = Some
      (if negb absolute && (length ds <? k)%nat then ups (k - length ds) ++ r
       else path_of absolute (take (length ds - k) ds) r)).
Proof.
  unfold resolve. split_and!.
  - intros base path. destruct (is_absolute path); [by eexists|].
    destruct (up_total (length path) (dirname base) path) as [r ->]; [done|]. by eexists.
  - by intros base path ->.
  - intros absolute ds f k r Hds Hf Hr Hset ->. rewrite dirname_path by done. rewrite up_ups; [|done|done|done|].
    + simpl. destruct (negb absolute && (length ds <? k)%nat); [done|]. by rewrite join_dir by (by apply Forall_take).
    + rewrite length_app. unfold ups. rewrite length_concat. clear. induction k; simpl in *; lia.
Qed.
Lemma resolve_spec_witness : resolve (str "/a/b/c/f") (str "../../x/y") = Some (str "/a/x/y").
Proof.
  apply (proj2 (proj2 resolve_spec) true [str "a"; str "b"; str "c"] (str "f") 2%nat (str "x/y")); try done; vm_compute; try (intros [? _]; done).
  - repeat constructor; done.
  - repeat constructor; done.
Defined.

(** Steps up in the base are taken for directories. *)
Example resolve_up_base : resolve (str "../f") (str "../x") = Some (str "x").
Proof. reflexivity. Qed.
End Path.
