(* ===== verification/Url.v ===== *)
(** * URLs

    Models [URL] ([src/libs/web/url.cc], [src/libs/web/ot-web.h]): its parts as the
    children of an XML element, percent encoding, queries as property lists, and
    resolving against a base, which uses the paths of [Path.v]. *)
From S2P Require Export Path PropertyList XPath.

Module Url.
Import Strings.

Definition COLON : Z := 58.
Definition SLASH : Z := 47.
Definition AT : Z := 64.
Definition QUERY : Z := 63.
Definition HASH : Z := 35.
Definition AMP : Z := 38.
Definition PLUS : Z := 43.
Definition PERCENT : Z := 37.

Abbreviation smap := (list (bytes * bytes)).
Definition add (xml : Element) (n : bytes) (v : bytes) : Element := Element.add xml (new_Element n v).
(** [xml.get_child(n)] as a value; the content of [none] is empty. *)
Definition child (xml : Element) (n : bytes) : option Element := i ← get_child xml n 0; children xml !! i.
Definition child_content (xml : Element) (n : bytes) : bytes := match child xml n with Some e => content e | None => [] end.

(** ** From parts *)

Definition when (v before : bytes) : bytes := match v with [] => [] | _ => before ++ v end.
Definition of_xml (xml : Element) : bytes :=
  let xpath n := XPath.get_value xml n [] in
  let scheme := xpath (str "scheme") in
  (match scheme with
   | [] => []
   | _ =>
     scheme ++ [COLON] ++
     (let host := xpath (str "host") in
      match host with
      | [] => []
      | _ =>
        str "//" ++
        (let user := xpath (str "user") in
         match user with
         | [] => []
         | _ => user ++ when (xpath (str "password")) [COLON] ++ [AT]
         end) ++
        host ++ when (xpath (str "port")) [COLON]
      end)
   end) ++
  xpath (str "path") ++ when (xpath (str "query")) [QUERY] ++ when (xpath (str "fragment")) [HASH].

(** ** Into parts *)

Definition split_user (host : bytes) (xml : Element) : bytes * Element :=
  match find AT host 0 with
  | None => (host, xml)
  | Some p =>
    (zdrop (p + 1) host,
     match find COLON host 0 with
     | Some r =>
       if r <? p then add (add xml (str "user") (substr host 0 r)) (str "password") (substr host (r + 1) (p - r - 1))
       else add xml (str "user") (substr host 0 p)
     | None => add xml (str "user") (substr host 0 p)
     end)
  end.
Definition split_host (host : bytes) (xml : Element) : Element :=
  match find COLON host 0 with
  | None => add xml (str "host") host
  | Some p => add (add xml (str "host") (substr host 0 p)) (str "port") (zdrop (p + 1) host)
  end.
Definition split_path (text : bytes) (p : Z) (xml : Element) : Element :=
  let '(xml, hash) :=
    match find QUERY text p with
    | None =>
      let hash := find HASH text p in
      (match hash with
       | None => add xml (str "path") (zdrop p text)
       | Some h => add xml (str "path") (substr text p (h - p))
       end, hash)
    | Some query =>
      let xml := add xml (str "path") (substr text p (query - p)) in
      let hash := find HASH text (query + 1) in
      (match hash with
       | None => add xml (str "query") (zdrop (query + 1) text)
       | Some h => add xml (str "query") (substr text (query + 1) (h - query - 1))
       end, hash)
    end in
  match hash with Some h => add xml (str "fragment") (zdrop (h + 1) text) | None => xml end.

Definition slash_at (text : bytes) (i : Z) : bool := match char_at text i with Some c => c =? SLASH | None => false end.
(** Whether the URL is valid, and the element filled in *)
Definition split (text : bytes) (xml : Element) : bool * Element :=
  let xml := with_name xml (str "url") in
  let length := zlen text in
  let rest p xml := match p with
    | None => (true, xml)
    | Some p => if p >=? length then (true, xml) else (true, split_path text p xml)
    end in
  match find COLON text 0 with
  | Some p =>
    if match find SLASH text 0 with None => true | Some q => p <? q end then
      let xml := add xml (str "scheme") (ztake p text) in
      if (length >? p + 2) && slash_at text (p + 1) && slash_at text (p + 2) then
        if length =? p + 3 then (false, xml) else
        let slash := find SLASH text (p + 3) in
        let host := match slash with None => zdrop (p + 3) text | Some s => substr text (p + 3) (s - p - 3) end in
        let '(host, xml) := split_user host xml in
        rest slash (split_host host xml)
      else rest (Some (p + 1)) xml
    else rest (Some 0) xml
  | None => rest (Some 0) xml
  end.

Definition none : Element := new_Element [] [].
Definition get_part (n : bytes) (text : bytes) : bytes :=
  let '(ok, xml) := split text none in if ok then child_content xml n else [].
Definition get_scheme : bytes -> bytes := get_part (str "scheme").
Definition get_host : bytes -> bytes := get_part (str "host").
Definition get_path : bytes -> bytes := get_part (str "path").
Definition get_query : bytes -> bytes := get_part (str "query").
Definition get_fragment : bytes -> bytes := get_part (str "fragment").

(** ** Percent encoding *)

Definition hex_upper (d : Z) : Z := if d <? 10 then 48 + d else 55 + d.
Definition percent (c : Z) : bytes := [PERCENT; hex_upper (c / 16); hex_upper (c mod 16)].
Definition reserved (c : Z) : bool := existsb (Z.eqb c) (str "+%!*'();:@&=$,/?#[]").
Definition encode_char (space_as_plus : bool) (c : Z) : bytes :=
  if (c <? 32) || (c >? 126) then percent c
  else if c =? 32 then (if space_as_plus then [PLUS] else str "%20")
  else if reserved c then percent c else [c].
Definition encode (s : bytes) (space_as_plus : bool) : bytes := flat_map (encode_char space_as_plus) s.
Definition encode_props (props : smap) (space_as_plus : bool) : bytes :=
  fold_left (fun r p => r ++ (match r with [] => [] | _ => [AMP] end) ++
    encode (fst p) space_as_plus ++ [PropertyList.EQUALS] ++ encode (snd p) space_as_plus) props [].
Definition append_query (text : bytes) (query : smap) : bytes :=
  text ++ (match query with [] => [] | _ => [QUERY] end) ++ encode_props query true.

(** A percent sign near the end takes what digits there are. *)
Fixpoint decode (s : bytes) (space_as_plus : bool) : bytes :=
  match s with
  | [] => []
  | c :: s =>
    if c =? PLUS then (if space_as_plus then 32 else PLUS) :: decode s space_as_plus
    else if c =? PERCENT then
      match s with
      | a :: b :: s => u8 (xtoi [a; b]) :: decode s space_as_plus
      | hex => [u8 (xtoi hex)]
      end
    else c :: decode s space_as_plus
  end.
Definition decode_param (space_as_plus : bool) (props : smap) (param : bytes) : smap :=
  match find PropertyList.EQUALS param 0 with
  | Some q => if q =? 0 then props
              else PropertyList.add (ztake q param) (decode (zdrop (q + 1) param) space_as_plus) props
  | None => props
  end.
Definition decode_props (s : bytes) (props : smap) (space_as_plus : bool) : option smap :=
  params ← Strings.split s AMP false 0; Some (fold_left (decode_param space_as_plus) params props).

(** ** Queries *)

Definition get_query_props (text : bytes) (props : smap) : option (bool * smap) :=
  match get_query text with
  | [] => Some (false, props)
  | query => props ← decode_props query props true; Some (true, props)
  end.
Definition get_query_parameter (text name : bytes) : option bytes :=
  r ← get_query_props text []; let '(ok, params) := r in
  Some (if ok : bool then PropertyList.get name [] params else []).
Definition set_query_parameter (text name value : bytes) : option bytes :=
  let '(ok, xml) := split text none in
  if ok then
    params ← decode_props (child_content xml (str "query")) [] true;
    let new_query := encode_props (PropertyList.add name value params) true in
    let '(i, xml) := make_child xml (str "query") in
    Some (of_xml (change_at xml [i] (fun e => with_content e new_query)))
  else Some text.

(** ** Resolving *)

Definition replace_child (base_xml xml : Element) (n : bytes) : Element :=
  let base_xml := remove_children base_xml n in
  match child xml n with Some e => add base_xml n (content e) | None => base_xml end.
Definition resolve (text base : bytes) : option bytes :=
  let '(ok, xml) := split text none in
  if negb ok then Some base else
  match child xml (str "scheme") with
  | Some _ => Some text
  | None =>
    let '(ok, base_xml) := split base none in
    if negb ok then Some text else
    res_path ← Path.resolve (child_content base_xml (str "path")) (child_content xml (str "path"));
    let res_path := match res_path with c :: _ => if c =? SLASH then res_path else SLASH :: res_path | [] => [SLASH] end in
    let base_xml := add (remove_children base_xml (str "path")) (str "path") res_path in
    let base_xml := replace_child base_xml xml (str "query") in
    let base_xml := replace_child base_xml xml (str "fragment") in
    Some (of_xml base_xml)
  end.

(* ------------------------------------------------------------------ *)
(** ** Percent encoding and back *)

Lemma encode_char_decode plus c s : byte_ok c -> decode (encode_char plus c ++ s) plus = c :: decode s plus.
Proof.
  intros Hc. assert (Hall : forallb (fun c =>
    match encode_char plus c with
    | [x] => if x =? PLUS then plus && (c =? 32) else negb (x =? PERCENT) && (x =? c)
    | [x; a; b] => (x =? PERCENT) && (u8 (xtoi [a; b]) =? c)
    | _ => false end) (zseq 0 256) = true) by (destruct plus; vm_compute; done).
  rewrite forallb_forall in Hall. specialize (Hall c). unfold byte_ok in Hc.
  assert (Hin : In c (zseq 0 256)).
  { unfold zseq. apply in_map_iff. exists (Z.to_nat c). split; [lia|]. apply in_seq. lia. }
  specialize (Hall Hin). clear Hin. destruct (encode_char plus c) as [|x [|a [|b [|]]]]; try done.
  - cbn [app decode]. destruct (x =? PLUS).
    + apply andb_prop in Hall as [-> ->%Z.eqb_eq]. done.
    + apply andb_prop in Hall as [Hp ->%Z.eqb_eq]. apply negb_true_iff in Hp. by rewrite Hp.
  - apply andb_prop in Hall as [->%Z.eqb_eq H%Z.eqb_eq]. cbn [app decode]. change (PERCENT =? PLUS) with false.
    change (PERCENT =? PERCENT) with true. cbn iota. by rewrite H.
Qed.
Lemma decode_encode_app plus s rest : bytes_ok s -> decode (encode s plus ++ rest) plus = s ++ decode rest plus.
Proof.
  induction s as [|c s IH]; intros Hs; [done|]. apply Forall_cons in Hs as [Hc Hs].
  unfold encode. simpl flat_map. rewrite <- app_assoc, encode_char_decode by done. simpl. f_equal. by apply IH.
Qed.

(** What an encoded text can hold *)
Definition unreserved (c : Z) : bool := (c >? 32) && (c <=? 126) && negb (reserved c).
Definition encoded (c : Z) : bool := unreserved c || (c =? PLUS) || (c =? PERCENT).
Lemma encode_encoded plus s : bytes_ok s -> Forall (fun c => encoded c = true) (encode s plus).
Proof.
  intros Hs. unfold encode. apply Forall_flat_map. eapply Forall_impl; [exact Hs|]. intros c Hc.
  assert (Hall : forallb (fun c => forallb encoded (encode_char plus c)) (zseq 0 256) = true) by (destruct plus; vm_compute; done).
  rewrite forallb_forall in Hall. apply Forall_forall. intros x Hx. unfold byte_ok in Hc.
  assert (Hin : In c (zseq 0 256)).
  { unfold zseq. apply in_map_iff. exists (Z.to_nat c). split; [lia|]. apply in_seq. lia. }
  specialize (Hall c Hin). rewrite forallb_forall in Hall. apply Hall. by apply list_elem_of_In.
Qed.
Lemma encode_plain plus s : Forall (fun c => unreserved c = true) s -> encode s plus = s.
Proof.
  induction 1 as [|c s Hc _ IH]; [done|]. unfold encode in *. simpl. rewrite IH. unfold unreserved in Hc.
  apply andb_prop in Hc as [[H1 H2]%andb_prop H3%negb_true_iff]. apply Z.gtb_lt in H1. apply Z.leb_le in H2.
  unfold encode_char. rewrite H3. assert ((c <? 32) = false) as -> by lia. assert ((c >? 126) = false) as -> by lia.
  assert ((c =? 32) = false) as -> by lia. done.
Qed.

(** *** Property lists *)

Lemma fields_join sep l : l <> [] -> Forall (Forall (fun c => (sep =? c) = false)) l -> fields (Z.eqb sep) (join sep l) = l.
Proof.
  induction l as [|f l IH]; intros Hne Hl; [done|]. apply Forall_cons in Hl as [Hf Hl]. destruct l as [|g l].
  - simpl. by apply find_first_None, find_first_none.
  - rewrite join_cons, fields_app by done. cbn [fields]. rewrite Z.eqb_refl, app_nil_r. by rewrite IH.
Qed.
Definition encode_prop (plus : bool) (p : bytes * bytes) : bytes := encode (fst p) plus ++ [PropertyList.EQUALS] ++ encode (snd p) plus.
Lemma encode_props_from plus pl : forall r, r <> [] ->
  fold_left (fun r p => r ++ (match r with [] => [] | _ => [AMP] end) ++ encode (fst p) plus ++ [PropertyList.EQUALS] ++ encode (snd p) plus) pl r =
  r ++ flat_map (fun p => AMP :: encode_prop plus p) pl.
Proof.
  induction pl as [|p pl IH]; intros r Hr; [simpl; by rewrite app_nil_r|]. cbn [fold_left flat_map]. destruct r as [|x r]; [done|].
  rewrite IH by (simpl; discriminate). unfold encode_prop. rewrite <- !app_assoc. simpl. by rewrite <- !app_assoc.
Qed.
Lemma encode_props_join plus pl : encode_props pl plus = join AMP (map (encode_prop plus) pl).
Proof.
  destruct pl as [|p pl]; [done|]. transitivity (encode_prop plus p ++ flat_map (fun p => AMP :: encode_prop plus p) pl).
  { apply (encode_props_from plus pl (encode_prop plus p)). unfold encode_prop. by destruct (encode (fst p) plus). }
  cbn [map]. generalize (encode_prop plus p). induction pl as [|q pl IH]; intros r; [simpl; by rewrite app_nil_r|].
  cbn [flat_map map]. rewrite join_cons. f_equal. simpl. f_equal. apply IH.
Qed.
Lemma free_of_encoded c s : encoded c = false -> Forall (fun c => encoded c = true) s -> Forall (fun x => (c =? x) = false) s.
Proof. intros Hc Hs. eapply Forall_impl; [exact Hs|]. intros x Hx. apply Z.eqb_neq. intros ->. by rewrite Hx in Hc. Qed.

(** A property whose name needs no encoding *)
Definition prop_ok (p : bytes * bytes) : Prop := fst p <> [] /\ Forall (fun c => unreserved c = true) (fst p) /\ bytes_ok (snd p).
Lemma unreserved_byte s : Forall (fun c => unreserved c = true) s -> bytes_ok s.
Proof.
  intros Hs. eapply Forall_impl; [exact Hs|]. intros c [[H1 H2]%andb_prop _]%andb_prop. apply Z.gtb_lt in H1. apply Z.leb_le in H2. unfold byte_ok. lia.
Qed.
Lemma encode_prop_free plus p : prop_ok p -> Forall (fun c => (AMP =? c) = false) (encode_prop plus p).
Proof.
  intros (_ & Hn & Hv). unfold encode_prop. apply unreserved_byte in Hn.
  apply Forall_app; split; [|apply Forall_app; split]; [|by constructor|]; (apply free_of_encoded; [done|by apply encode_encoded]).
Qed.
Lemma decode_param_encode plus pl p : prop_ok p -> decode_param plus pl (encode_prop plus p) = PropertyList.add (fst p) (snd p) pl.
Proof.
  intros (Hne & Hn & Hv). unfold decode_param, encode_prop. rewrite (encode_plain plus (fst p)) by done. cbn [app].
  assert (Hf : find PropertyList.EQUALS (fst p ++ PropertyList.EQUALS :: encode (snd p) plus) 0 = Some (zlen (fst p))).
  { unfold find. rewrite zdrop_0, find_first_app; [done| |done]. apply free_of_encoded; [done|]. eapply Forall_impl; [exact Hn|].
    intros c Hc. unfold encoded. by rewrite Hc. }
  rewrite Hf. destruct (Z.eqb_spec (zlen (fst p)) 0) as [E|_]; [by apply zlen_zero in E|].
  rewrite ztake_app, zdrop_past. pose proof (decode_encode_app plus (snd p) [] Hv) as E. simpl in E. rewrite !app_nil_r in E. by rewrite E.
Qed.
Lemma add_all (pl acc : smap) b : keys_from b (acc ++ pl) -> fold_left (fun acc p => PropertyList.add (fst p) (snd p) acc) pl acc = acc ++ pl.
Proof.
  revert acc. induction pl as [|[k v] pl IH]; intros acc H; cbn [fold_left]; [by rewrite app_nil_r|].
  rewrite cons_middle, app_assoc in H. rewrite (PropertyList.add_last _ _ _ b) by (by eapply keys_from_init). rewrite IH by done. by rewrite <- app_assoc.
Qed.
Lemma decode_all plus pl acc : Forall prop_ok pl ->
  fold_left (decode_param plus) (map (encode_prop plus) pl) acc = fold_left (fun acc p => PropertyList.add (fst p) (snd p) acc) pl acc.
Proof.
  revert acc. induction pl as [|p pl IH]; intros acc H; [done|]. apply Forall_cons in H as [Hp H]. cbn [map fold_left].
  rewrite decode_param_encode by done. by apply IH.
Qed.
Lemma decode_encode_props plus pl : sorted pl -> Forall prop_ok pl -> decode_props (encode_props pl plus) [] plus = Some pl.
Proof.
  intros Hs Hok. unfold decode_props. rewrite (proj1 (split_spec _ AMP false 0 false)). simpl mbind. unfold limit. simpl.
  rewrite map_id by done. rewrite encode_props_join. destruct pl as [|p pl]; [done|].
  rewrite fields_join; [|done|]. 2:{ apply Forall_map. eapply Forall_impl; [exact Hok|]. intros q Hq. by apply encode_prop_free. }
  rewrite decode_all by done. f_equal. by apply (add_all (p :: pl) [] None).
Qed.

(** Percent encoding is undone by decoding, for any bytes, with [+] for the space or without; an encoded text holds only unreserved characters, [%] and [+]; and a property list with names that need no encoding is read back from the query made of it. *)
Theorem url_encode_roundtrip plus :
  (forall s, bytes_ok s -> decode (encode s plus) plus = s /\ Forall (fun c => encoded c = true) (encode s plus)) /\
  (forall pl, sorted pl -> Forall prop_ok pl -> decode_props (encode_props pl plus) [] plus = Some pl).
Proof.
  split.
  - intros s Hs. split; [|by apply encode_encoded]. pose proof (decode_encode_app plus s [] Hs) as E. by rewrite !app_nil_r in E.
  - apply decode_encode_props.
Qed.
Lemma url_encode_roundtrip_witness :
  encode_props [(str "a", str "x y&z"); (str "b", [0; 255])] true = str "a=x+y%26z&b=%00%FF" /\
  decode_props (encode_props [(str "a", str "x y&z"); (str "b", [0; 255])] true) [] true = Some [(str "a", str "x y&z"); (str "b", [0; 255])].
Proof.
  split; [reflexivity|]. apply (proj2 (url_encode_roundtrip true)); [by vm_compute|].
  repeat constructor; vm_compute; done.
Defined.

(** A name that is encoded is not decoded. *)
Example name_not_decoded : decode_props (encode_props [(str "a b", str "c")] true) [] true = Some [(str "a+b", str "c")].
Proof. reflexivity. Qed.

(** *** Parts *)

Record Tail := mk_Tail { path : bytes; query : option bytes; fragment : option bytes }.
Record Parts := mk_Parts { scheme : bytes; user : option (bytes * option bytes); host : bytes; port : option bytes; rest : option Tail }.

Definition opt (before : Z) (o : option bytes) : bytes := match o with Some v => before :: v | None => [] end.
Definition user_text (u : option (bytes * option bytes)) : bytes :=
  match u with Some (n, p) => n ++ opt COLON p ++ [AT] | None => [] end.
Definition tail_text (t : Tail) : bytes := path t ++ opt QUERY (query t) ++ opt HASH (fragment t).
Definition rest_text (r : option Tail) : bytes := match r with Some t => tail_text t | None => [] end.
Definition authority (u : Parts) : bytes := user_text (user u) ++ host u ++ opt COLON (port u).
Definition parts_text (u : Parts) : bytes := scheme u ++ [COLON; SLASH; SLASH] ++ authority u ++ rest_text (rest u).

Definition opt_child (n : bytes) (o : option bytes) : list Element := match o with Some v => [new_Element n v] | None => [] end.
Definition user_children (u : option (bytes * option bytes)) : list Element :=
  match u with Some (n, p) => new_Element (str "user") n :: opt_child (str "password") p | None => [] end.
Definition tail_children (t : Tail) : list Element :=
  new_Element (str "path") (path t) :: opt_child (str "query") (query t) ++ opt_child (str "fragment") (fragment t).
Definition host_children (u : Parts) : list Element := new_Element (str "host") (host u) :: opt_child (str "port") (port u).
Definition parts_children (u : Parts) : list Element :=
  new_Element (str "scheme") (scheme u) :: user_children (user u) ++ host_children u ++
  match rest u with Some t => tail_children t | None => [] end.
Definition extend (e : Element) (l : list Element) : Element := with_children e (children e ++ l).
Definition url_element (l : list Element) : Element := mk_Element (str "url") [] [] l 0.

Definition free (c : Z) (s : bytes) : Prop := Forall (fun x => (c =? x) = false) s.
Definition some (P : bytes -> Prop) (o : option bytes) : Prop := match o with Some v => v <> [] /\ P v | None => True end.
(** A question mark in a fragment without a query would be taken for one. *)
Definition tail_ok (t : Tail) : Prop :=
  free QUERY (path t) /\ free HASH (path t) /\ some (free HASH) (query t) /\
  some (fun f => query t = None -> free QUERY f) (fragment t).
Definition parts_ok (u : Parts) : Prop :=
  scheme u <> [] /\ free COLON (scheme u) /\ free SLASH (scheme u) /\
  match user u with
  | Some (n, p) => n <> [] /\ free COLON n /\ free AT n /\ free SLASH n /\ some (fun p => free AT p /\ free SLASH p) p
  | None => True
  end /\
  host u <> [] /\ free COLON (host u) /\ free AT (host u) /\ free SLASH (host u) /\
  some (fun p => free AT p /\ free SLASH p) (port u) /\
  match rest u with Some t => (exists p, path t = SLASH :: p) /\ tail_ok t | None => True end.

(** Equations of texts and of their lengths *)
Ltac lists := cbn [app]; rewrite ?app_nil_r; do 4 (rewrite <- ?app_assoc; cbn [app]); reflexivity.
Ltac lengths := unfold zlen; repeat (rewrite ?length_app; cbn [length]); lia.

Lemma find_start c a b : free c a -> find c (a ++ c :: b) 0 = Some (zlen a).
Proof. apply (PropertyList.find_mid c []). Qed.
Lemma find_nowhere c a : free c a -> find c a 0 = None.
Proof. apply (PropertyList.find_absent c []). Qed.
Lemma free_app c a b : free c (a ++ b) <-> free c a /\ free c b.
Proof. apply Forall_app. Qed.
Lemma add_extend e n v : add e n v = extend e [new_Element n v].
Proof. done. Qed.
Lemma extend_extend e l l' : extend (extend e l) l' = extend e (l ++ l').
Proof. destruct e. unfold extend, with_children. simpl. by rewrite app_assoc. Qed.
Lemma extend_nil e : extend e [] = e.
Proof. destruct e. unfold extend, with_children. simpl. by rewrite app_nil_r. Qed.

Lemma split_user_text u h xml : free AT h ->
  match u with Some (n, p) => free COLON n /\ free AT n /\ some (free AT) p | None => True end ->
  split_user (user_text u ++ h) xml = (h, extend xml (user_children u)).
Proof.
  intros Hh Hu. unfold split_user. destruct u as [[n [p|]]|]; cbn [user_text user_children opt opt_child].
  - destruct Hu as (Hc & Ha & _ & Hp).
    replace ((n ++ (COLON :: p) ++ [AT]) ++ h) with ((n ++ COLON :: p) ++ AT :: h) by by lists.
    rewrite find_start by (apply free_app; split; [done|by constructor]).
    rewrite zdrop_past. rewrite <- app_assoc. cbn [app]. rewrite find_start by done.
    rewrite zlen_app, zlen_cons. pose proof (zlen_nonneg p). rewrite (proj2 (Z.ltb_lt _ _)) by lia.
    f_equal. rewrite !add_extend, !extend_extend. unfold substr. rewrite zdrop_0, ztake_app.
    replace (zlen n + (1 + zlen p) - zlen n - 1) with (zlen p) by lia. by rewrite zdrop_past, ztake_app.
  - destruct Hu as (Hc & Ha & _). cbn [app]. rewrite <- app_assoc. cbn [app]. rewrite find_start by done. rewrite zdrop_past. f_equal.
    assert (E : add xml (str "user") (substr (n ++ AT :: h) 0 (zlen n)) = extend xml [new_Element (str "user") n]).
    { unfold substr. by rewrite zdrop_0, ztake_app. }
    destruct (find COLON (n ++ AT :: h) 0) as [r|] eqn:Er; [|done].
    replace (n ++ AT :: h) with ([] ++ (n ++ [AT]) ++ h) in Er by lists.
    apply PropertyList.find_beyond in Er; [|apply free_app; split; [done|by constructor]].
    rewrite zlen_app in Er. change (zlen [AT]) with 1 in Er. change (zlen []) with 0 in Er.
    by rewrite (proj2 (Z.ltb_ge _ _)) by lia.
  - cbn [app]. by rewrite find_nowhere, extend_nil.
Qed.
Lemma split_host_text (u : Parts) xml : free COLON (host u) -> split_host (host u ++ opt COLON (port u)) xml = extend xml (host_children u).
Proof.
  intros H. unfold split_host, host_children. destruct (port u) as [p|]; cbn [opt opt_child].
  - rewrite find_start by done. rewrite zdrop_past. unfold substr. rewrite zdrop_0, ztake_app. by rewrite !add_extend, !extend_extend.
  - rewrite app_nil_r. by rewrite find_nowhere.
Qed.

(** The same searches, with the text and the position given up to an equation *)
Lemma find_eq c s pre a b i : s = pre ++ a ++ c :: b -> i = zlen pre -> free c a -> find c s i = Some (i + zlen a).
Proof. intros -> -> H. by apply PropertyList.find_mid. Qed.
Lemma find_none_eq c s pre a i : s = pre ++ a -> i = zlen pre -> free c a -> find c s i = None.
Proof. intros -> -> H. by apply PropertyList.find_absent. Qed.
Lemma substr_eq s pre a b i n : s = pre ++ a ++ b -> i = zlen pre -> n = zlen a -> substr s i n = a.
Proof. intros -> -> ->. apply PropertyList.substr_mid. Qed.
Lemma zdrop_eq {A} (s pre a : list A) i : s = pre ++ a -> i = zlen pre -> zdrop i s = a.
Proof. intros -> ->. apply zdrop_app. Qed.

Lemma split_path_text pre t xml : tail_ok t -> split_path (pre ++ tail_text t) (zlen pre) xml = extend xml (tail_children t).
Proof.
  intros (Hq & Hh & Hqq & Hf). unfold split_path, tail_text, tail_children.
  destruct t as [p [q|] [f|]]; cbn [opt opt_child path query fragment some] in *; rewrite ?app_nil_r.
  - rewrite (find_eq QUERY _ pre p (q ++ HASH :: f)) by (done || lists).
    rewrite (find_eq HASH _ (pre ++ p ++ [QUERY]) q f) by (lists || lengths || apply Hqq). cbn iota beta zeta.
    rewrite !add_extend, ?extend_extend. rewrite (substr_eq _ pre p (QUERY :: q ++ HASH :: f)) by (lists || lengths).
    rewrite (substr_eq _ (pre ++ p ++ [QUERY]) q (HASH :: f)) by (lists || lengths).
    by rewrite (zdrop_eq _ (pre ++ p ++ [QUERY] ++ q ++ [HASH]) f) by (lists || lengths).
  - rewrite (find_eq QUERY _ pre p q) by (done || lists).
    rewrite (find_none_eq HASH _ (pre ++ p ++ [QUERY]) q) by (lists || lengths || apply Hqq). cbn iota beta zeta.
    rewrite !add_extend, ?extend_extend. rewrite (substr_eq _ pre p (QUERY :: q)) by (lists || lengths).
    by rewrite (zdrop_eq _ (pre ++ p ++ [QUERY]) q) by (lists || lengths).
  - destruct Hf as [_ Hf]. specialize (Hf eq_refl).
    rewrite (find_none_eq QUERY _ pre (p ++ HASH :: f)) by (done || lists || (apply free_app; split; [done|by constructor])).
    rewrite (find_eq HASH _ pre p f) by (done || lists). cbn iota beta zeta.
    rewrite !add_extend, ?extend_extend. rewrite (substr_eq _ pre p (HASH :: f)) by (lists || lengths).
    by rewrite (zdrop_eq _ (pre ++ p ++ [HASH]) f) by (lists || lengths).
  - rewrite (find_none_eq QUERY _ pre p), (find_none_eq HASH _ pre p) by (done || lists). cbn iota beta zeta.
    by rewrite (zdrop_eq _ pre p).
Qed.

Lemma slash_at_eq s pre b i : s = pre ++ SLASH :: b -> i = zlen pre -> slash_at s i = true.
Proof.
  intros -> ->. unfold slash_at, char_at. pose proof (zlen_nonneg pre). pose proof (zlen_nonneg b).
  rewrite zlen_app, zlen_cons. rewrite (proj2 (Z.leb_le 0 _)), (proj2 (Z.ltb_lt _ _)) by lia. cbn [andb].
  unfold zget, zlen. rewrite Nat2Z.id, app_nth2, Nat.sub_diag by lia. done.
Qed.
Lemma authority_free u : parts_ok u -> free SLASH (authority u) /\ authority u <> [].
Proof.
  intros (_ & _ & _ & Hu & Hh & _ & _ & Hs & Hp & _). unfold authority. split.
  - apply free_app; split; [|apply free_app; split; [done|]].
    + destruct (user u) as [[n p]|]; [|constructor]. destruct Hu as (_ & _ & _ & Hn & Hpw). apply free_app; split; [done|].
      apply free_app; split; [|by constructor]. destruct p as [p|]; [|constructor]. constructor; [done|]. apply Hpw.
    + destruct (port u) as [p|]; [|constructor]. constructor; [done|]. apply Hp.
  - intros [_ [E _]%app_eq_nil]%app_eq_nil. done.
Qed.
Lemma split_authority u xml : parts_ok u ->
  (let '(host, xml) := split_user (authority u) xml in split_host host xml) = extend xml (user_children (user u) ++ host_children u).
Proof.
  intros (_ & _ & _ & Hu & Hh & Hc & Ha & Hs & Hp & _). unfold authority. rewrite split_user_text.
  - by rewrite split_host_text, extend_extend by done.
  - apply free_app; split; [done|]. destruct (port u) as [p|]; [|constructor]. constructor; [done|]. apply Hp.
  - destruct (user u) as [[n p]|]; [|done]. destruct Hu as (_ & H1 & H2 & _ & H3). split_and!; [done|done|].
    destruct p as [p|]; [|done]. destruct H3 as (? & ? & _). done.
Qed.
Lemma split_parts u xml : parts_ok u -> split (parts_text u) xml = (true, extend (with_name xml (str "url")) (parts_children u)).
Proof.
  intros Hok. destruct (authority_free u Hok) as [Hf Hne]. pose proof (fun xml => split_authority u xml Hok) as Hauth.
  destruct Hok as (Hsc & Hc & Hs & Hok'). unfold split.
  assert (Ep : find COLON (parts_text u) 0 = Some (zlen (scheme u))) by by apply find_start.
  assert (Eq : find SLASH (parts_text u) 0 = Some (zlen (scheme u) + 1)).
  { rewrite (find_eq SLASH _ [] (scheme u ++ [COLON]) (SLASH :: authority u ++ rest_text (rest u))); [f_equal; lengths|unfold parts_text; lists|done|].
    apply free_app; split; [done|by constructor]. }
  rewrite Ep, Eq. rewrite (proj2 (Z.ltb_lt (zlen (scheme u)) _)) by lia.
  rewrite (slash_at_eq _ (scheme u ++ [COLON]) (SLASH :: authority u ++ rest_text (rest u))) by (unfold parts_text; lists || lengths).
  rewrite (slash_at_eq _ (scheme u ++ [COLON; SLASH]) (authority u ++ rest_text (rest u))) by (unfold parts_text; lists || lengths).
  set (pre := scheme u ++ [COLON; SLASH; SLASH]).
  assert (Et : parts_text u = pre ++ authority u ++ rest_text (rest u)) by (unfold parts_text, pre; lists).
  assert (El : zlen (scheme u) + 3 = zlen pre) by (unfold pre; lengths).
  assert (Ea : 0 < zlen (authority u)). { destruct (authority u) as [|a l]; [done|]. rewrite zlen_cons. pose proof (zlen_nonneg l). lia. }
  replace (ztake (zlen (scheme u)) (parts_text u)) with (scheme u) by (unfold parts_text; by rewrite ztake_app).
  rewrite Et, El. rewrite !zlen_app. pose proof (zlen_nonneg (rest_text (rest u))).
  rewrite (proj2 (Z.gtb_lt _ _)) by lia. cbn [andb]. rewrite (proj2 (Z.eqb_neq _ _)) by lia.
  specialize (Hauth (extend (with_name xml (str "url")) [new_Element (str "scheme") (scheme u)])).
  unfold parts_children. destruct (rest u) as [t|] eqn:Er; cbn [rest_text] in *.
  - destruct Hok' as (_ & _ & _ & _ & _ & _ & (p & Hp) & Ht).
    assert (Efind : find SLASH (pre ++ authority u ++ tail_text t) (zlen pre) = Some (zlen pre + zlen (authority u))).
    { apply (find_eq _ _ pre (authority u) (p ++ opt QUERY (query t) ++ opt HASH (fragment t))); [|done|done].
      unfold tail_text. rewrite Hp. lists. }
    rewrite Efind. replace (zlen pre + zlen (authority u) - zlen (scheme u) - 3) with (zlen (authority u)) by lia.
    replace (substr _ _ (zlen (authority u))) with (authority u) by (symmetry; by eapply substr_eq).
    rewrite add_extend. destruct (split_user _ _) as [h x]. rewrite Hauth.
    assert (Hge : (zlen pre + zlen (authority u) >=? zlen pre + (zlen (authority u) + zlen (tail_text t))) = false).
    { unfold tail_text. rewrite Hp. cbn [app]. rewrite zlen_cons. pose proof (zlen_nonneg (p ++ opt QUERY (query t) ++ opt HASH (fragment t))). lia. }
    rewrite Hge. rewrite app_assoc, <- zlen_app, split_path_text by done. rewrite !extend_extend. do 2 f_equal. lists.
  - rewrite app_nil_r in *. rewrite (find_none_eq SLASH _ pre (authority u)) by done.
    rewrite (zdrop_eq _ pre (authority u)) by done.
    rewrite add_extend. destruct (split_user _ _) as [h x]. rewrite Hauth.
    rewrite !extend_extend. do 2 f_equal. lists.
Qed.

(** *** The parts of an element *)

(** The content of the first child of a name *)
Fixpoint value (n : bytes) (l : list Element) : bytes :=
  match l with [] => [] | c :: l => if key_eqb (name c) n then get_content c else value n l end.
Lemma value_first n l : forall i k, value n l =
  match head (children_from n (k + i) l) with Some j => match l !! (j - (k + i))%nat with Some c => get_content c | None => [] end | None => [] end.
Proof.
  induction l as [|c l IH]; intros i k; simpl; [done|]. destruct (key_eqb (name c) n); simpl; [by rewrite Nat.sub_diag|].
  rewrite (IH (S i) k), Nat.add_succ_r. destruct (head (children_from n (S (k + i)) l)) as [j|] eqn:E; [|done].
  assert (S (k + i) <= j)%nat.
  { clear -E. revert E. generalize (S (k + i))%nat. induction l as [|d l IH]; intros m; simpl; [done|].
    destruct (key_eqb (name d) n); simpl; [intros [= <-]; lia|]. intros H%IH. lia. }
  replace (j - (k + i))%nat with (S (j - S (k + i)))%nat by lia. done.
Qed.
Lemma xpath_value e n : XPath.step_name_ok n = true -> find_last (Z.eqb (chr "@")) n = None ->
  XPath.get_value e n [] = value n (children e).
Proof.
  intros Hok Hat. destruct (XPath.step_name_spec _ Hok) as (Hne & Hs & Hb).
  unfold XPath.get_value, XPath.attribute_step. rewrite Hat. unfold XPath.element_at, XPath.get_element, XPath.get_elements.
  cbn [XPath.elements_from]. destruct n as [|x n]; [done|].
  assert (Hx : (x =? chr "/") = false). { apply Forall_cons in Hs as [Hx _]. by rewrite Z.eqb_sym. }
  assert (E : XPath.step_of (x :: n) = (x :: n, -1, None)).
  { rewrite <- (app_nil_r (x :: n)) at 1. apply XPath.step_of_name; [done|done|by left]. }
  rewrite Hx, E. cbn [default from_option id Z.ltb Z.compare]. unfold get_children. rewrite (value_first _ _ 0 0). simpl Nat.add.
  destruct (children_from (x :: n) 0 (children e)) as [|i l]; [done|]. cbn [map head app]. rewrite Nat.sub_0_r. cbn.
  by destruct (children e !! i).
Qed.
Lemma value_new n m v l : value n (new_Element m v :: l) = if key_eqb m n then v else value n l.
Proof. simpl. by destruct v. Qed.
Lemma value_opt n m o l : value n (opt_child m o ++ l) = if key_eqb m n then match o with Some v => v | None => value n l end else value n l.
Proof. destruct o as [v|]; [apply value_new|]. simpl. by destruct (key_eqb m n). Qed.

(** The names of the parts compared *)
Ltac same_names := repeat match goal with |- context [key_eqb ?a ?b] => let r := eval vm_compute in (key_eqb a b) in change (key_eqb a b) with r; cbn iota end.
Definition rest_children (r : option Tail) : list Element := match r with Some t => tail_children t | None => [] end.
Lemma rest_values r :
  (value (str "user") (rest_children r) = [] /\ value (str "password") (rest_children r) = [] /\ value (str "port") (rest_children r) = []) /\
  value (str "path") (rest_children r) = match r with Some t => path t | None => [] end /\
  value (str "query") (rest_children r) = match r with Some t => default [] (query t) | None => [] end /\
  value (str "fragment") (rest_children r) = match r with Some t => default [] (fragment t) | None => [] end.
Proof.
  destruct r as [[p q f]|]; [|done]. unfold rest_children, tail_children. cbn [path query fragment].
  rewrite <- (app_nil_r (opt_child (str "fragment") f)). rewrite !value_new, !value_opt. same_names. by destruct q, f.
Qed.
Lemma match_ne {A B} (v : list A) (x y : B) : v <> [] -> match v with [] => x | _ => y end = y.
Proof. by destruct v. Qed.

(** What the text of the parts relies on: no part that is there is empty. *)
Definition filled (o : option bytes) : Prop := o <> Some [].
Definition parts_filled (u : Parts) : Prop :=
  scheme u <> [] /\ host u <> [] /\ match user u with Some (n, p) => n <> [] /\ filled p | None => True end /\ filled (port u) /\
  match rest u with Some t => filled (query t) /\ filled (fragment t) | None => True end.
Lemma some_filled P o : some P o -> filled o.
Proof. destruct o as [v|]; [|done]. intros [Hv _] [= ->]. done. Qed.
Lemma parts_ok_filled u : parts_ok u -> parts_filled u.
Proof.
  intros (H1 & _ & _ & Hu & H2 & _ & _ & _ & Hp & Hr). split_and!; [done|done| |by eapply some_filled|].
  - destruct (user u) as [[n p]|]; [|done]. destruct Hu as (Hn & _ & _ & _ & Hp'). split; [done|by eapply some_filled].
  - destruct (rest u) as [t|]; [|done]. destruct Hr as [_ (_ & _ & Hq & Hf)]. split; by eapply some_filled.
Qed.
Lemma when_filled b o : filled o -> when (default [] o) [b] = opt b o.
Proof. destruct o as [[|x v]|]; done. Qed.

Lemma of_xml_parts u : parts_filled u -> of_xml (url_element (parts_children u)) = parts_text u.
Proof.
  intros Hok. unfold of_xml. rewrite !xpath_value by reflexivity.
  unfold parts_text, parts_children, host_children, authority.
  destruct Hok as (Hsc & Hh & Hu & Hp & Hr).
  destruct u as [sc us h po r]; cbn [scheme user host port rest url_element children] in *. fold (rest_children r).
  destruct (rest_values r) as ((V1 & V2 & V3) & V4 & V5 & V6).
  assert (Hrest : match r with Some t => path t | None => [] end ++ when (match r with Some t => default [] (query t) | None => [] end) [QUERY] ++
    when (match r with Some t => default [] (fragment t) | None => [] end) [HASH] = rest_text r).
  { destruct r as [t|]; [|done]. destruct Hr as [Hq Hf]. by rewrite !when_filled. }
  pose proof (when_filled COLON po Hp) as Hport.
  destruct us as [[n pw]|]; unfold user_children; cbn [app]; rewrite <- ?app_assoc; cbn [app]; rewrite !value_new, ?value_opt, ?value_new, ?value_opt; same_names;
    rewrite V4, V5, V6, Hrest, !match_ne by (done || apply Hu); cbn [user_text].
  - destruct Hu as [_ Hpw]. pose proof (when_filled COLON pw Hpw) as Hw.
    destruct pw, po; rewrite ?V2, ?V3; unfold default, from_option, id in *; rewrite ?Hw, ?Hport; cbn [opt when]; unfold str; simpl map; lists.
  - rewrite V1. destruct po; rewrite ?V3; unfold default, from_option, id in *; rewrite ?Hport; unfold str; simpl map; lists.
Qed.

(** *** Accessors *)

Definition leaves (l : list Element) : Prop := Forall (fun c => children c = []) l.
Lemma leaf_content c : children c = [] -> get_content c = content c.
Proof. destruct c as [n [|x c] a l k]; simpl; [by intros ->|done]. Qed.
Lemma child_first n l : forall i, head (children_from n i l) = child_from n i l 0.
Proof. induction l as [|c l IH]; intros i; simpl; [done|]. by destruct (key_eqb (name c) n). Qed.
Lemma child_value e n : leaves (children e) -> child_content e n = value n (children e).
Proof.
  intros H. unfold child_content, child, get_child. rewrite <- child_first, (value_first _ _ 0 0). simpl Nat.add.
  destruct (head (children_from n 0 (children e))) as [i|]; [|done]. cbn [mbind option_bind]. rewrite Nat.sub_0_r.
  destruct (children e !! i) as [c|] eqn:E; [|done]. symmetry. apply leaf_content. by eapply Forall_lookup in H.
Qed.
Lemma opt_leaves n o : leaves (opt_child n o).
Proof. destruct o; repeat constructor. Qed.
Lemma parts_leaves u : leaves (parts_children u).
Proof.
  unfold leaves, parts_children, host_children. constructor; [done|]. apply Forall_app; split; [|apply Forall_app; split].
  - destruct (user u) as [[n p]|]; [|constructor]. constructor; [done|apply opt_leaves].
  - constructor; [done|apply opt_leaves].
  - destruct (rest u) as [t|]; [|constructor]. constructor; [done|]. apply Forall_app; split; apply opt_leaves.
Qed.
Lemma get_parts u n : parts_ok u -> get_part n (parts_text u) = value n (parts_children u).
Proof.
  intros H. unfold get_part. rewrite split_parts by done. destruct u as [sc us h po r]. by rewrite child_value by apply parts_leaves.
Qed.
Lemma parts_values u :
  value (str "scheme") (parts_children u) = scheme u /\ value (str "host") (parts_children u) = host u /\
  value (str "path") (parts_children u) = match rest u with Some t => path t | None => [] end /\
  value (str "query") (parts_children u) = match rest u with Some t => default [] (query t) | None => [] end /\
  value (str "fragment") (parts_children u) = match rest u with Some t => default [] (fragment t) | None => [] end.
Proof.
  unfold parts_children, host_children. fold (rest_children (rest u)). destruct (rest_values (rest u)) as (_ & V4 & V5 & V6).
  destruct (user u) as [[n pw]|]; unfold user_children; cbn [app]; rewrite <- ?app_assoc; cbn [app];
    rewrite !value_new, ?value_opt, ?value_new, ?value_opt; same_names; done.
Qed.

(** C39: a URL made of parts is split into those parts, each a child of the element with what was put in, and the accessors give them; and the element gives the text of the URL back.  The parts ([parts_ok]) are a scheme without [:] and [/], an optional user without [:], [@] and [/] with an optional password without [@] and [/], a host without [:], [@] and [/], an optional port without [@] and [/], and, if there is more, a path that begins with [/] and has no [?] and no [#], an optional query without [#], and an optional fragment, which has no [?] if there is no query (one would be taken for the query: Example [query_in_fragment]); the scheme, the host and the optional parts that are there are not empty. *)
Theorem url_roundtrip u : parts_ok u ->
  split (parts_text u) none = (true, url_element (parts_children u)) /\
  of_xml (url_element (parts_children u)) = parts_text u /\
  get_scheme (parts_text u) = scheme u /\ get_host (parts_text u) = host u /\
  get_path (parts_text u) = match rest u with Some t => path t | None => [] end /\
  get_query (parts_text u) = match rest u with Some t => default [] (query t) | None => [] end /\
  get_fragment (parts_text u) = match rest u with Some t => default [] (fragment t) | None => [] end.
Proof.
  intros H. unfold get_scheme, get_host, get_path, get_query, get_fragment. rewrite !get_parts by done.
  split; [by apply split_parts|]. split; [by apply of_xml_parts, parts_ok_filled|]. apply parts_values.
Qed.
Definition sample : Parts := mk_Parts (str "http") (Some (str "me", Some (str "pw"))) (str "example.org") (Some (str "80"))
  (Some (mk_Tail (str "/a/b") (Some (str "x=1")) (Some (str "top")))).
Lemma url_roundtrip_witness :
  parts_text sample = str "http://me:pw@example.org:80/a/b?x=1#top" /\
  split (str "http://me:pw@example.org:80/a/b?x=1#top") none = (true, url_element (parts_children sample)).
Proof.
  split; [reflexivity|]. apply (url_roundtrip sample). unfold parts_ok, tail_ok. simpl.
  split_and!; try done; try (by eexists); repeat constructor; done.
Defined.

(** *** Resolving *)

(** A text with no colon before its first slash *)
Definition relative (text : bytes) : Prop :=
  match find COLON text 0 with
  | None => True
  | Some p => match find SLASH text 0 with Some q => q <= p | None => False end
  end.
Lemma split_relative t : tail_ok t -> relative (tail_text t) -> tail_text t <> [] ->
  split (tail_text t) none = (true, url_element (tail_children t)).
Proof.
  intros Hok Hr Hne. pose proof (split_path_text [] t (url_element []) Hok) as E. cbn [app] in E. change (zlen []) with 0 in E.
  assert (Hp : (0 >=? zlen (tail_text t)) = false).
  { destruct (tail_text t) as [|x l]; [done|]. rewrite zlen_cons. pose proof (zlen_nonneg l). lia. }
  unfold split, relative in *. change (with_name none (str "url")) with (url_element []). cbv zeta.
  destruct (find COLON (tail_text t) 0) as [p|]; [|by rewrite Hp, E].
  destruct (find SLASH (tail_text t) 0) as [q|]; [|done]. rewrite (proj2 (Z.ltb_ge _ _)) by done. by rewrite Hp, E.
Qed.

Lemma remove_url l n : remove_children (url_element l) n = url_element (List.filter (fun c => negb (key_eqb (name c) n)) l).
Proof. done. Qed.
Lemma filter_opt n m o : List.filter (fun c => negb (key_eqb (name c) n)) (opt_child m o) = if key_eqb m n then [] else opt_child m o.
Proof. destruct o as [v|]; simpl; by destruct (key_eqb m n). Qed.
Lemma filter_new n m v l : List.filter (fun c => negb (key_eqb (name c) n)) (new_Element m v :: l) =
  if key_eqb m n then List.filter (fun c => negb (key_eqb (name c) n)) l else new_Element m v :: List.filter (fun c => negb (key_eqb (name c) n)) l.
Proof. simpl. by destruct (key_eqb m n). Qed.
Lemma add_url l n v : add (url_element l) n v = url_element (l ++ [new_Element n v]).
Proof. done. Qed.

Lemma child_find e n : child e n = List.find (fun c => key_eqb (name c) n) (children e).
Proof.
  unfold child, get_child. rewrite <- child_first.
  enough (forall l i, (j ← head (children_from n i l); l !! (j - i)%nat) = List.find (fun c => key_eqb (name c) n) l) as H.
  { rewrite <- (H _ 0%nat). destruct (head _) as [j|]; [|done]. simpl. by rewrite Nat.sub_0_r. }
  induction l as [|c l IH]; intros i; simpl; [done|]. destruct (key_eqb (name c) n); simpl; [by rewrite Nat.sub_diag|].
  rewrite <- (IH (S i)). destruct (head (children_from n (S i) l)) as [j|] eqn:E; [|done]. simpl.
  assert (S i <= j)%nat; [|by replace (j - i)%nat with (S (j - S i))%nat by lia].
  clear -E. revert E. generalize (S i)%nat. induction l as [|d l IH]; intros m; simpl; [done|].
  destruct (key_eqb (name d) n); simpl; [intros [= <-]; lia|]. intros H%IH. lia.
Qed.
Lemma find_opt n m o l : List.find (fun c => key_eqb (name c) n) (opt_child m o ++ l) =
  if key_eqb m n then match o with Some v => Some (new_Element m v) | None => List.find (fun c => key_eqb (name c) n) l end
  else List.find (fun c => key_eqb (name c) n) l.
Proof. destruct o as [v|]; simpl; by destruct (key_eqb m n). Qed.

Definition with_rest (u : Parts) (r : option Tail) : Parts := mk_Parts (scheme u) (user u) (host u) (port u) r.
(** [replace_child] on all the children *)
Lemma replace_child_opt l (xml : Element) m : replace_child (url_element l) xml m =
  url_element (List.filter (fun c => negb (key_eqb (name c) m)) l ++ opt_child m (content <$> child xml m)).
Proof. unfold replace_child. rewrite remove_url. destruct (child xml m) as [c|]; simpl; [done|by rewrite app_nil_r]. Qed.
Lemma tail_childs t : content <$> child (url_element (tail_children t)) (str "query") = query t /\
  content <$> child (url_element (tail_children t)) (str "fragment") = fragment t /\
  child_content (url_element (tail_children t)) (str "path") = path t /\ child (url_element (tail_children t)) (str "scheme") = None.
Proof.
  destruct t as [p q f]. rewrite (child_value _ (str "path")).
  2:{ constructor; [done|]. apply Forall_app; split; apply opt_leaves. }
  rewrite !child_find. unfold tail_children. cbn [url_element children path query fragment].
  rewrite <- (app_nil_r (opt_child (str "fragment") f)).
  rewrite value_new. cbn [List.find name new_Element]. same_names. rewrite !find_opt. same_names. by destruct q, f.
Qed.

Definition head_children (u : Parts) : list Element :=
  new_Element (str "scheme") (scheme u) :: user_children (user u) ++ host_children u.
Lemma parts_head u : parts_children u = head_children u ++ rest_children (rest u).
Proof. unfold parts_children, head_children. cbn [app]. by rewrite <- app_assoc. Qed.
Lemma filter_head u n : n = str "path" \/ n = str "query" \/ n = str "fragment" ->
  List.filter (fun c => negb (key_eqb (name c) n)) (head_children u) = head_children u.
Proof.
  unfold head_children, host_children. intros [-> |[-> | ->]];
    (rewrite filter_new; same_names; rewrite List.filter_app, filter_new, filter_opt; same_names;
     destruct (user u) as [[m p]|]; [|done]; unfold user_children; rewrite filter_new, filter_opt; by same_names).
Qed.
Lemma replaced u (xml : Element) p :
  replace_child (replace_child (add (remove_children (url_element (parts_children u)) (str "path")) (str "path") p) xml (str "query")) xml (str "fragment") =
  url_element (parts_children (with_rest u (Some (mk_Tail p (content <$> child xml (str "query")) (content <$> child xml (str "fragment")))))).
Proof.
  rewrite remove_url, add_url, !replace_child_opt, !parts_head, !List.filter_app. f_equal. cbn [with_rest rest].
  rewrite (filter_head u (str "path")), (filter_head u (str "query")), (filter_head u (str "fragment")) by auto.
  assert (E : List.filter (fun c => negb (key_eqb (name c) (str "fragment"))) (List.filter (fun c => negb (key_eqb (name c) (str "query")))
    (List.filter (fun c => negb (key_eqb (name c) (str "path"))) (rest_children (rest u)))) = []).
  { destruct (rest u) as [t|]; [|done]. unfold rest_children, tail_children. rewrite filter_new. same_names. rewrite List.filter_app, !filter_opt. same_names.
    rewrite List.filter_app, !filter_opt. same_names. cbn [app]. rewrite filter_opt. by same_names. }
  rewrite E, !filter_new, filter_opt. same_names. by rewrite app_nil_r, <- !app_assoc.
Qed.

(** The path a reference is resolved to: with a slash before it *)
Definition rooted (p : bytes) : bytes := match p with c :: _ => if c =? SLASH then p else SLASH :: p | [] => [SLASH] end.
Definition base_path (u : Parts) : bytes := match rest u with Some t => path t | None => [] end.
Lemma split_scheme u : child (url_element (parts_children u)) (str "scheme") = Some (new_Element (str "scheme") (scheme u)).
Proof. rewrite child_find. unfold parts_children. cbn [url_element children List.find name new_Element]. by same_names. Qed.

(** A URL with a scheme and a host resolves to itself; a text that is only a path, a query and a fragment resolves against a URL to that URL with the path resolved by the rules of file paths and made absolute, and with the query and the fragment of the text in place of its own. *)
Theorem url_resolve u : parts_ok u ->
  (forall base, resolve (parts_text u) base = Some (parts_text u)) /\
  (forall t, tail_ok t -> relative (tail_text t) -> tail_text t <> [] -> exists p, Path.resolve (base_path u) (path t) = Some p /\
    resolve (tail_text t) (parts_text u) = Some (parts_text (with_rest u (Some (mk_Tail (rooted p) (query t) (fragment t)))))).
Proof.
  intros Hu. split.
  - intros base. unfold resolve. rewrite split_parts by done. cbn [negb]. change (extend _ _) with (url_element (parts_children u)).
    by rewrite split_scheme.
  - intros t Ht Hr Hne. destruct (Path.up_total (length (path t)) (Path.dirname (base_path u)) (path t)) as [r Hup]; [done|].
    assert (exists p, Path.resolve (base_path u) (path t) = Some p) as [p Hp].
    { unfold Path.resolve. rewrite Hup. destruct (Path.is_absolute (path t)); by eexists. }
    exists p. split; [done|]. unfold resolve. rewrite split_relative by done. cbn [negb].
    destruct (tail_childs t) as (Hq & Hf & Hpath & Hs). rewrite Hs, split_parts by done. cbn [negb].
    change (extend _ _) with (url_element (parts_children u)). rewrite Hpath, (child_value _ (str "path")) by apply parts_leaves.
    destruct (parts_values u) as (_ & _ & V & _). cbn [url_element children]. rewrite V. fold (base_path u). rewrite Hp. cbn [mbind option_bind].
    fold (rooted p). rewrite replaced, Hq, Hf. f_equal. apply of_xml_parts.
    destruct (parts_ok_filled u Hu) as (H1 & H2 & H3 & H4 & _). split_and!; try done. cbn [with_rest rest query fragment].
    destruct Ht as (_ & _ & Hq' & Hf'). split; by eapply some_filled.
Qed.
Lemma url_resolve_witness : resolve (str "../c?y#z") (parts_text sample) = Some (str "http://me:pw@example.org:80/c?y#z").
Proof.
  assert (Hu : parts_ok sample). { unfold parts_ok, tail_ok. simpl. split_and!; try done; try (by eexists); repeat constructor; done. }
  destruct (proj2 (url_resolve sample Hu) (mk_Tail (str "../c") (Some (str "y")) (Some (str "z")))) as (p & Hp & H).
  - unfold tail_ok. simpl. split_and!; try done; repeat constructor; done.
  - vm_compute. done.
  - done.
  - assert (E : Path.resolve (base_path sample) (str "../c") = Some (str "/c")) by reflexivity.
    cbn [path] in Hp. rewrite E in Hp. injection Hp as <-. exact H.
Defined.

(** An empty text is valid, and resolves to the directory of the base. *)
Example resolve_empty : resolve [] (str "http://h/a/b") = Some (str "http://h/a/").
Proof. reflexivity. Qed.
(** Without a path, the query is taken for a part of the host. *)
Example query_in_host : get_host (str "http://h?x=1") = str "h?x=1" /\ get_query (str "http://h?x=1") = [].
Proof. split; reflexivity. Qed.
(** A question mark in the fragment begins a query. *)
Example query_in_fragment : get_path (str "http://h/p#f?x") = str "/p#f" /\ get_query (str "http://h/p#f?x") = str "x".
Proof. split; reflexivity. Qed.
Example set_query : set_query_parameter (str "http://h/p?a=1&b=2#f") (str "a") (str "x y") = Some (str "http://h/p?a=x+y&b=2#f") /\
  get_query_parameter (str "http://h/p?a=x+y&b=2#f") (str "a") = Some (str "x y").
Proof. split; reflexivity. Qed.
End Url.
