(* ===== verification/Stamp.v ===== *)
(** * Dates and times

    Models [Stamp] and [Split] ([src/libs/time/stamp.cc], [split.cc], [ot-time.h]),
    [DateStamp] ([date-stamp.cc]) and [DateInterval] ([date-interval.cc]).  A stamp
    is a count of 2^-20 s from 1 January 1900 in 64 bits.  The seconds of a split
    are a [double]: here they too are a count of 2^-20 s, which is all that a stamp
    keeps of them.  A sum or a product of [int]s that overflows is left undefined by
    the language, and is not wrapped here; where an [unsigned int] is a factor the
    product is wrapped, as it is in the code.

    The reference is the Gregorian calendar, as the date that follows each date. *)
From S2P Require Export Strings Convert.

Module Stamp.
Import Strings.

Definition MINUTE : Z := 60.
Definition HOUR : Z := 3600.
Definition DAY : Z := 86400.
Definition EPOCH_1970 : Z := 2208988800.
Definition INTERNAL_SHIFT : Z := 20.
Definition INTERNAL_MULTIPLIER : Z := 1048576.
Definition NTP_SHIFT : Z := 32.

Record Split := mk_Split { year : Z; month : Z; day : Z; hour : Z; min : Z; sec : Z }.
Definition new_Split : Split := mk_Split 1900 1 1 0 0 0.

Definition monthdays : list Z := [0; 31; 59; 90; 120; 151; 181; 212; 243; 273; 304; 334].
Definition md (i : Z) : Z := zget 0 monthdays i.

(** ** Stamps from splits and back *)

Definition combine (split : Split) : Z :=
  let ldyear := if month split <? 3 then year split - 1 else year split in
  let leapdays := Z.quot ldyear 4 - Z.quot ldyear 100 + Z.quot ldyear 400 - 460 in
  let seconds := u64 (u64 ((year split - 1900) * 365 + leapdays) * DAY) in
  if (month split <? 1) || (month split >? 12) then 0 else
  let seconds := u64 (seconds + u32 (md (month split - 1) * DAY)) in
  let seconds := u64 (seconds + u32 ((day split - 1) * DAY)) in
  let seconds := u64 (seconds + u32 (hour split * HOUR)) in
  let seconds := u64 (seconds + u32 (min split * MINUTE)) in
  u64 (u64 (Z.shiftl seconds INTERNAL_SHIFT) + u64 (sec split)).

(** [(seconds-0.24*DAY)/(365.24*DAY)] as an integer.  The two constants, 20736 and
    31556736, are exact as [double]s, and so is the difference below 2^53; a quotient
    below 2^20 that is not an integer is further from one than it is rounded by. *)
Definition estimate (seconds : Z) : Z := Z.quot (seconds - 20736) 31556736.

Definition leap_estimate (years : Z) : bool :=
  (years mod 4 =? 0) && (negb (years mod 100 =? 0) || (u64 (years + 300) mod 400 =? 0)).
Definition leap (year : Z) : bool :=
  (Z.rem year 4 =? 0) && (negb (Z.rem year 100 =? 0) || (Z.rem year 400 =? 0)).

(** The first month, from 1, that does not begin before the day: the loop of [split] *)
Fixpoint find_month (n : nat) (i yday : Z) : Z :=
  match n with
  | O => i
  | S n => if yday <? md i then i else find_month n (i + 1) yday
  end.

Definition split (ts : Z) : Split :=
  let seconds := Z.shiftr ts INTERNAL_SHIFT in
  let years := estimate seconds in
  let leapdays := u64 (years / 4 - years / 100 + u64 (years + 300) / 400) in
  let early := leap_estimate years && (u64 (seconds - u64 (u64 (years * 365 + leapdays - 1) * DAY)) <? DAY * 59) in
  let leapdays := if early then u64 (leapdays - 1) else leapdays in
  let seconds := u64 (seconds - u64 (leapdays * DAY)) in
  let y := i32 (seconds / (365 * DAY)) in
  let seconds := u64 (seconds - u64 (u64 y * (365 * DAY))) in
  let y := y + 1900 in
  let yday := i32 (seconds / DAY) in
  let isleapyear := leap y in
  let i := find_month 11 1 yday in
  let seconds := u64 (seconds - u32 (md (i - 1) * DAY)) in
  let d := i32 (seconds / DAY) in
  let seconds := u64 (seconds - u32 (d * DAY)) in
  let d := d + 1 in
  let '(m, d) := if isleapyear && negb early && (yday =? 58) then (2, 29) else (i, d) in
  let h := i32 (seconds / HOUR) in
  let seconds := u64 (seconds - u32 (h * HOUR)) in
  let mi := i32 (seconds / MINUTE) in
  let seconds := u64 (seconds - u32 (mi * MINUTE)) in
  mk_Split y m d h mi (seconds * INTERNAL_MULTIPLIER + Z.land ts (INTERNAL_MULTIPLIER - 1)).

(** ** Stamps and other counts of time *)

Definition of_time_t (t : Z) : Z := u64 (Z.shiftl (u64 (t + EPOCH_1970)) INTERNAL_SHIFT).
Definition time (t : Z) : Z := swrap 64 (Z.shiftr t INTERNAL_SHIFT - EPOCH_1970).
Definition ntp (t : Z) : Z := u64 (Z.shiftl t (NTP_SHIFT - INTERNAL_SHIFT)).
Definition from_ntp (n : Z) : Z := Z.shiftr n (NTP_SHIFT - INTERNAL_SHIFT).
(** Seconds of a minute, as a count of 2^-20 s *)
Definition seconds (t : Z) : Z := t mod u64 (Z.shiftl 60 INTERNAL_SHIFT).
(** A duration as a count of 2^-20 s, added and subtracted *)
Definition add_duration (t d : Z) : Z := u64 (t + d).
Definition sub_duration (t d : Z) : Z := u64 (t - d).
Definition date (t : Z) : Z := let sp := split t in combine (mk_Split (year sp) (month sp) (day sp) 0 0 0).
Definition weekday (t : Z) : Z := 1 + (Z.shiftr t INTERNAL_SHIFT / 3600 / 24) mod 7.

(** ** [Split::normalise] *)

(** [while (x < lo) { c--; x += m; }] and [while (x > hi) { c++; x -= m; }]; [None] only without fuel *)
Fixpoint borrow (fuel : nat) (lo m c x : Z) : option (Z * Z) :=
  if x <? lo then match fuel with O => None | S fuel => borrow fuel lo m (c - 1) (x + m) end else Some (c, x).
Fixpoint carry (fuel : nat) (hi m c x : Z) : option (Z * Z) :=
  if x >? hi then match fuel with O => None | S fuel => carry fuel hi m (c + 1) (x - m) end else Some (c, x).
Definition adjust (lo hi m c x : Z) : option (Z * Z) :=
  r ← borrow (Z.to_nat (Z.abs x / m + 2)) lo m c x; let '(c, x) := r in carry (Z.to_nat (Z.abs x / m + 2)) hi m c x.

Definition normalise (sp : Split) : option Split :=
  '(mi, sc) ← adjust 0 (59 * INTERNAL_MULTIPLIER) (60 * INTERNAL_MULTIPLIER) (min sp) (sec sp);
  '(h, mi) ← adjust 0 59 60 (hour sp) mi;
  '(d, h) ← adjust 0 23 24 (day sp) h;
  '(y, m) ← adjust 1 12 12 (year sp) (month sp);
  Some (if d <? 1 then split (sub_duration (combine (mk_Split y m 1 h mi sc)) (u32 ((1 - d) * DAY) * INTERNAL_MULTIPLIER))
        else if d >? 28 then split (add_duration (combine (mk_Split y m 1 h mi sc)) (u32 ((d - 1) * DAY) * INTERNAL_MULTIPLIER))
        else mk_Split y m d h mi sc).

(** ** [DateInterval] *)

Inductive Unit := invalid | days | weeks | months | years.
Definition get_unit (s : bytes) : Unit :=
  match s with
  | [] => invalid
  | c :: _ =>
    let c := to_lower c in
    if c =? chr "d" then days else if c =? chr "w" then weeks else if c =? chr "m" then months
    else if c =? chr "y" then years else invalid
  end.
Definition of_str (s : bytes) : option (Z * Unit) :=
  words ← split_words s;
  Some match words with [n; u] => (stoi n, get_unit u) | _ => (0, invalid) end.
Definition to_str (number : Z) (unit : Unit) : bytes :=
  let s := itos number ++ str " " in
  match unit with
  | days => s ++ (if number =? 1 then str "day" else str "days")
  | weeks => s ++ (if number =? 1 then str "week" else str "weeks")
  | months => s ++ (if number =? 1 then str "month" else str "months")
  | years => s ++ str "years"
  | invalid => str "INVALID"
  end.
Definition shift (number : Z) (unit : Unit) (sp : Split) : Split :=
  match unit with
  | days => mk_Split (year sp) (month sp) (day sp + number) (hour sp) (min sp) (sec sp)
  | weeks => mk_Split (year sp) (month sp) (day sp + 7 * number) (hour sp) (min sp) (sec sp)
  | months => mk_Split (year sp) (month sp + number) (day sp) (hour sp) (min sp) (sec sp)
  | years => mk_Split (year sp + number) (month sp) (day sp) (hour sp) (min sp) (sec sp)
  | invalid => sp
  end.
Definition add_to (number : Z) (unit : Unit) (sp : Split) : option Split := normalise (shift number unit sp).
Definition subtract_from (number : Z) (unit : Unit) (sp : Split) : option Split := normalise (shift (- number) unit sp).

(** ** [DateStamp]: stamps kept at midnight *)

Definition date_stamp (t : Z) : Z := date t.
(** [+=] and [+] of an interval *)
Definition add_interval (t number : Z) (unit : Unit) : option Z := combine <$> add_to number unit (split t).
Definition plus_interval (t number : Z) (unit : Unit) : option Z :=
  sp ← add_to number unit (split t); Some (date_stamp (combine sp)).
Definition sub_interval (t number : Z) (unit : Unit) : option Z := combine <$> subtract_from number unit (split t).
Definition minus_interval (t number : Z) (unit : Unit) : option Z :=
  sp ← subtract_from number unit (split t); Some (date_stamp (combine sp)).

(** ** The calendar *)

Definition is_leap (y : Z) : bool := (y mod 4 =? 0) && (negb (y mod 100 =? 0) || (y mod 400 =? 0)).
Definition month_length (y m : Z) : Z :=
  if m =? 2 then (if is_leap y then 29 else 28)
  else if (m =? 4) || (m =? 6) || (m =? 9) || (m =? 11) then 30 else 31.
Definition next_date (date : Z * Z * Z) : Z * Z * Z :=
  let '(y, m, d) := date in
  if d <? month_length y m then (y, m, d + 1) else if m <? 12 then (y, m + 1, 1) else (y + 1, 1, 1).
(** The date [n] days after 1 January 1900 *)
Definition date_of (n : nat) : Z * Z * Z := Nat.iter n next_date (1900, 1, 1).

(* ------------------------------------------------------------------ *)
(** ** The arithmetic of a day *)

Definition leaps (years : Z) : Z := years / 4 - years / 100 + (years + 300) / 400.
Definition is_early (n years : Z) : bool :=
  leap_estimate years && ((years * 365 + leaps years - 1 <=? n) && (n - (years * 365 + leaps years - 1) <? 59)).
Definition day_number (n years : Z) : Z := n - (if is_early n years then leaps years - 1 else leaps years).
(** What [split] makes of day [n] when its estimate of the years is [years] *)
Definition split_day (n years : Z) : Z * Z * Z :=
  let k := day_number n years in
  let y := k / 365 + 1900 in
  let yday := k mod 365 in
  let i := find_month 11 1 yday in
  if leap y && negb (is_early n years) && (yday =? 58) then (y, 2, 29) else (y, i, yday - md (i - 1) + 1).

Lemma find_month_range yday : 0 <= yday < 365 -> let i := find_month 11 1 yday in 1 <= i <= 12 /\ 0 <= md (i - 1) <= yday.
Proof.
  intros H. assert (Hall : forallb (fun d => let i := find_month 11 1 d in (1 <=? i) && (i <=? 12) && (0 <=? md (i - 1)) && (md (i - 1) <=? d)) (zseq 0 365) = true)
    by (vm_compute; done).
  rewrite forallb_forall in Hall. specialize (Hall yday). cbv zeta in *.
  assert (Hin : In yday (zseq 0 365)).
  { unfold zseq. apply in_map_iff. exists (Z.to_nat yday). split; [lia|]. apply in_seq. lia. }
  specialize (Hall Hin). lia.
Qed.

(** The wraps that have no effect taken away, from the inside out *)
Ltac small := repeat
  match goal with
  | |- context [wrap ?w ?x] => lazymatch x with context [wrap _ _] => fail | _ => rewrite (wrap_small w x) by (unfold in_u; lia) end
  | |- context [swrap ?w ?x] => lazymatch x with context [wrap _ _] => fail | context [swrap _ _] => fail | _ => rewrite (swrap_small w x) by (unfold in_s; lia) end
  end.
Lemma leaps_range years : 0 <= years <= 600 -> 0 <= leaps years <= years.
Proof. intros H. unfold leaps. Z.to_euclidean_division_equations. lia. Qed.
Lemma estimate_range n s : 0 <= n < 200000 -> 0 <= s < DAY -> 0 <= estimate (n * DAY + s) <= 600.
Proof.
  unfold estimate, DAY. intros Hn Hs. Z.to_euclidean_division_equations. lia.
Qed.
Lemma leap_estimate_pos years : 0 <= years <= 600 -> leap_estimate years = true -> 4 <= years.
Proof.
  unfold leap_estimate. intros H [E1%Z.eqb_eq E2]%andb_prop. destruct (Z.eq_dec years 0) as [->|]; [done|]. clear E2.
  Z.to_euclidean_division_equations. lia.
Qed.
Lemma early_day n s years : 0 <= n < 200000 -> 0 <= s < DAY -> 0 <= years <= 600 ->
  (leap_estimate years && (u64 (n * DAY + s - u64 (u64 (years * 365 + leaps years - 1) * DAY)) <? DAY * 59)) = is_early n years.
Proof.
  intros Hn Hs Hy. unfold is_early. destruct (leap_estimate years) eqn:E; [|done]. cbn [andb].
  pose proof (leaps_range years Hy). pose proof (leap_estimate_pos years Hy E).
  set (k := years * 365 + leaps years - 1). assert (0 <= k < 300000) by lia. unfold DAY in *. small.
  destruct (Z.leb_spec k n).
  - small. cbn [andb]. destruct (Z.ltb_spec (n - k) 59); lia.
  - cbn [andb]. unfold wrap. rewrite <- (Z_mod_plus_full (n * 86400 + s - k * 86400) 1 (2 ^ 64)), Z.mod_small by lia.
    apply Z.ltb_ge. lia.
Qed.

Lemma leaps_pos n years : 0 <= years <= 600 -> is_early n years = true -> 1 <= leaps years.
Proof.
  intros Hy [Ee _]%andb_prop. pose proof (leap_estimate_pos years Hy Ee). unfold leaps. Z.to_euclidean_division_equations. lia.
Qed.
Lemma split_time n s f : 0 <= n < 200000 -> 0 <= s < DAY -> 0 <= f < INTERNAL_MULTIPLIER ->
  0 <= day_number n (estimate (n * DAY + s)) ->
  split ((n * DAY + s) * INTERNAL_MULTIPLIER + f) =
  let '(y, m, d) := split_day n (estimate (n * DAY + s)) in
  mk_Split y m d (s / HOUR) (s mod HOUR / MINUTE) (s mod MINUTE * INTERNAL_MULTIPLIER + f).
Proof.
  intros Hn Hs Hf Hk. unfold split. pose proof (estimate_range n s Hn Hs) as Hy.
  assert (Z.shiftr ((n * DAY + s) * INTERNAL_MULTIPLIER + f) INTERNAL_SHIFT = n * DAY + s) as ->.
  { rewrite Z.shiftr_div_pow2 by done. change (2 ^ INTERNAL_SHIFT) with INTERNAL_MULTIPLIER. rewrite Z.div_add_l, Z.div_small by done. lia. }
  assert (Z.land ((n * DAY + s) * INTERNAL_MULTIPLIER + f) (INTERNAL_MULTIPLIER - 1) = f) as ->.
  { change (INTERNAL_MULTIPLIER - 1) with (Z.ones 20). rewrite land_ones_mod by done. change (2 ^ 20) with INTERNAL_MULTIPLIER.
    rewrite Z.add_comm, Z_mod_plus_full. by apply Z.mod_small. }
  set (years := estimate (n * DAY + s)) in *. pose proof (leaps_range years Hy) as Hl.
  assert (u64 (years / 4 - years / 100 + u64 (years + 300) / 400) = leaps years) as ->.
  { small. fold (leaps years). by small. }
  cbv zeta. rewrite early_day by done. set (e := is_early n years).
  assert ((if e then u64 (leaps years - 1) else leaps years) = n - day_number n years) as ->.
  { unfold day_number. fold e. destruct e eqn:Ee; [|lia]. pose proof (leaps_pos n years Hy Ee). small. lia. }
  assert (Hk' : day_number n years <= n).
  { unfold day_number. fold e. destruct e eqn:Ee; [|lia]. pose proof (leaps_pos n years Hy Ee). lia. }
  unfold split_day. fold e. set (k := day_number n years) in *. replace (n - k) with (n - k) by lia.
  unfold DAY, HOUR, MINUTE in *. small. replace (n * 86400 + s - (n - k) * 86400) with (k * 86400 + s) by lia.
  assert (Ey : (k * 86400 + s) / (365 * 86400) = k / 365).
  { change (365 * 86400) with (86400 * 365). rewrite <- Z.div_div by lia. rewrite Z.div_add_l, (Z.div_small s) by lia. f_equal. lia. }
  small. rewrite Ey.
  pose proof (Z.div_mod k 365 ltac:(lia)) as Edm. pose proof (Z.mod_pos_bound k 365 ltac:(lia)) as Hm.
  set (q := k / 365) in *. set (r := k mod 365) in *. assert (0 <= q <= 600) by lia. small.
  replace (k * 86400 + s - q * (365 * 86400)) with (r * 86400 + s) by lia.
  assert (Er : (r * 86400 + s) / 86400 = r) by (rewrite Z.div_add_l, (Z.div_small s) by lia; lia). rewrite Er. small.
  destruct (find_month_range r Hm) as [Hi Hmd]. set (i := find_month 11 1 r) in *. small.
  replace (r * 86400 + s - md (i - 1) * 86400) with ((r - md (i - 1)) * 86400 + s) by lia.
  assert (Ed : ((r - md (i - 1)) * 86400 + s) / 86400 = r - md (i - 1)) by (rewrite Z.div_add_l, (Z.div_small s) by lia; lia). rewrite Ed. small.
  replace ((r - md (i - 1)) * 86400 + s - (r - md (i - 1)) * 86400) with s by lia.
  pose proof (Z.div_mod s 3600 ltac:(lia)). pose proof (Z.mod_pos_bound s 3600 ltac:(lia)).
  assert (0 <= s / 3600 < 24) by lia. small. replace (s - s / 3600 * 3600) with (s mod 3600) by lia.
  pose proof (Z.div_mod (s mod 3600) 60 ltac:(lia)). pose proof (Z.mod_pos_bound (s mod 3600) 60 ltac:(lia)). small.
  replace (s mod 3600 - s mod 3600 / 60 * 60) with (s mod 60).
  2:{ clear -s. Z.to_euclidean_division_equations. lia. }
  by destruct (_ && _).
Qed.

(** ** The calendar by years *)

(** The number of the first day of year [1900 + y], and of its days *)
Definition year_start (y : Z) : Z := 365 * y + leaps (y - 1).
Definition year_length (b : bool) : Z := if b then 366 else 365.
Definition leap_year (y : Z) : bool := is_leap (1900 + y).
(** The month and the day of day [j] of a year, a leap year if [b] *)
Definition common_day (j : Z) : Z * Z := let i := find_month 11 1 j in (i, j - md (i - 1) + 1).
Definition day_of (b : bool) (j : Z) : Z * Z :=
  if b then if j <? 59 then common_day j else if j =? 59 then (2, 29) else common_day (j - 1) else common_day j.
Definition civil (y j : Z) : Z * Z * Z := let '(m, d) := day_of (leap_year y) j in (1900 + y, m, d).

Lemma zseq_forall (f : Z -> bool) (n : nat) z : forallb f (zseq 0 n) = true -> 0 <= z < Z.of_nat n -> f z = true.
Proof.
  intros H Hz. rewrite forallb_forall in H. apply H. unfold zseq. apply in_map_iff. exists (Z.to_nat z).
  split; [lia|]. apply in_seq. lia.
Qed.
Lemma leap_year_mod y : leap_year y = (y mod 4 =? 0) && (negb (y mod 100 =? 0) || ((y + 300) mod 400 =? 0)).
Proof.
  unfold leap_year, is_leap. f_equal; [f_equal|f_equal; [do 2 f_equal|f_equal]].
  - rewrite <- (Z_mod_plus_full y 475 4). f_equal. lia.
  - rewrite <- (Z_mod_plus_full y 19 100). f_equal. lia.
  - rewrite <- (Z_mod_plus_full (y + 300) 4 400). f_equal. lia.
Qed.
Lemma div_step (y d : Z) : 0 < d -> y / d = (y - 1) / d + (if y mod d =? 0 then 1 else 0).
Proof.
  intros Hd. pose proof (Z.div_mod y d ltac:(lia)) as E. pose proof (Z.mod_pos_bound y d Hd).
  destruct (Z.eqb_spec (y mod d) 0).
  - rewrite <- (Z.div_unique_pos (y - 1) d (y / d - 1) (d - 1)); [lia|lia|]. rewrite Z.mul_sub_distr_l. lia.
  - rewrite <- (Z.div_unique_pos (y - 1) d (y / d) (y mod d - 1)); lia.
Qed.
Lemma leaps_step y : leaps y = leaps (y - 1) + (if leap_year y then 1 else 0).
Proof.
  unfold leaps. rewrite (div_step y 4), (div_step y 100), (div_step (y + 300) 400) by lia.
  replace (y - 1 + 300) with (y + 300 - 1) by lia. rewrite leap_year_mod.
  assert (H4 : y mod 100 = 0 -> y mod 4 = 0).
  { intros H. apply Z.mod_divide in H as [k ->]; [|done]. replace (k * 100) with (k * 25 * 4) by lia. by apply Z_mod_mult. }
  assert (H100 : (y + 300) mod 400 = 0 -> y mod 100 = 0).
  { intros H. apply Z.mod_divide in H as [k Hk]; [|done]. replace y with ((k * 4 - 3) * 100) by lia. by apply Z_mod_mult. }
  destruct (Z.eqb_spec (y mod 4) 0), (Z.eqb_spec (y mod 100) 0), (Z.eqb_spec ((y + 300) mod 400) 0); cbn [andb orb negb]; lia.
Qed.
Lemma year_start_step y : year_start (y + 1) = year_start y + year_length (leap_year y).
Proof. unfold year_start. rewrite Z.add_simpl_r, leaps_step. unfold year_length. destruct (leap_year y); lia. Qed.

Definition ml (b : bool) (m : Z) : Z := if m =? 2 then (if b then 29 else 28) else if (m =? 4) || (m =? 6) || (m =? 9) || (m =? 11) then 30 else 31.
Lemma day_of_step b j : 0 <= j < year_length b ->
  let '(m, d) := day_of b j in
  (1 <= m <= 12 /\ 1 <= d <= 31 /\ md (m - 1) + d - 1 + (if b && (3 <=? m) then 1 else 0) = j) /\
  (if d <? ml b m then j + 1 < year_length b /\ day_of b (j + 1) = (m, d + 1)
   else if m <? 12 then j + 1 < year_length b /\ day_of b (j + 1) = (m + 1, 1) else j + 1 = year_length b).
Proof.
  intros Hj.
  assert (Hall : forallb (fun j => negb (j <? year_length b) || let '(m, d) := day_of b j in
    (1 <=? m) && (m <=? 12) && (1 <=? d) && (d <=? 31) && (md (m - 1) + d - 1 + (if b && (3 <=? m) then 1 else 0) =? j) &&
    (let '(m', d') := day_of b (j + 1) in
     if d <? ml b m then (j + 1 <? year_length b) && (m' =? m) && (d' =? d + 1)
     else if m <? 12 then (j + 1 <? year_length b) && (m' =? m + 1) && (d' =? 1) else j + 1 =? year_length b)) (zseq 0 366) = true)
    by (destruct b; vm_compute; done).
  apply (fun Ha => zseq_forall _ 366 j Ha) in Hall as H; [|unfold year_length in Hj; destruct b; lia]. cbv beta in H. clear Hall.
  rewrite (proj2 (Z.ltb_lt j _)) in H by lia. cbn [negb orb] in H.
  destruct (day_of b j) as [m d], (day_of b (j + 1)) as [m' d'].
  apply andb_prop in H as [H H']. split; [lia|].
  destruct (d <? ml b m); [|destruct (m <? 12)].
  - apply andb_prop in H' as [[H1 H2%Z.eqb_eq]%andb_prop H3%Z.eqb_eq]. subst. split; [lia|done].
  - apply andb_prop in H' as [[H1 H2%Z.eqb_eq]%andb_prop H3%Z.eqb_eq]. subst. split; [lia|done].
  - lia.
Qed.
Lemma civil_next y j : 0 <= j < year_length (leap_year y) ->
  next_date (civil y j) = if j + 1 <? year_length (leap_year y) then civil y (j + 1) else civil (y + 1) 0.
Proof.
  intros Hj. pose proof (day_of_step (leap_year y) j Hj) as H. unfold civil, next_date.
  destruct (day_of (leap_year y) j) as [m d]. destruct H as [_ H].
  change (month_length (1900 + y) m) with (ml (leap_year y) m).
  destruct (d <? ml (leap_year y) m); [|destruct (m <? 12)].
  - destruct H as [Hlt ->]. by rewrite (proj2 (Z.ltb_lt _ _)) by done.
  - destruct H as [Hlt ->]. by rewrite (proj2 (Z.ltb_lt _ _)) by done.
  - rewrite (proj2 (Z.ltb_ge _ _)) by lia. replace (day_of (leap_year (y + 1)) 0) with (1, 1) by (by destruct (leap_year (y + 1))).
    by rewrite Z.add_assoc.
Qed.
Lemma date_of_civil n : exists y j, 0 <= y /\ 0 <= j < year_length (leap_year y) /\ Z.of_nat n = year_start y + j /\ date_of n = civil y j.
Proof.
  induction n as [|n (y & j & Hy & Hj & Hn & IH)].
  - exists 0, 0. split_and!; try done; vm_compute; done.
  - unfold date_of in *. cbn [Nat.iter nat_rect]. fold (Nat.iter n next_date (1900, 1, 1)). rewrite IH, civil_next by done.
    destruct (Z.ltb_spec (j + 1) (year_length (leap_year y))).
    + exists y, (j + 1). split_and!; try done; lia.
    + exists (y + 1), 0. rewrite year_start_step. split_and!; try done; try lia. by destruct (leap_year (y + 1)).
Qed.

(** ** What [split] makes of a day *)

Lemma leap_estimate_year e : 0 <= e <= 600 -> leap_estimate e = leap_year e.
Proof. intros H. rewrite leap_year_mod. unfold leap_estimate. by small. Qed.
Lemma leap_of y : 0 <= y -> leap (y + 1900) = leap_year y.
Proof. intros H. unfold leap, leap_year, is_leap. rewrite !Z.rem_mod_nonneg by lia. by rewrite (Z.add_comm y). Qed.
Lemma not_both_leap y : leap_year y = true -> leap_year (y + 1) = true -> False.
Proof. rewrite !leap_year_mod. intros [H1%Z.eqb_eq _]%andb_prop [H2%Z.eqb_eq _]%andb_prop. clear -H1 H2. Z.to_euclidean_division_equations. lia. Qed.
Lemma split_day_of n e y r : 0 <= y -> 0 <= r < 365 -> day_number n e = 365 * y + r ->
  split_day n e = if leap_year y && negb (is_early n e) && (r =? 58) then (1900 + y, 2, 29) else let '(m, d) := common_day r in (1900 + y, m, d).
Proof.
  intros Hy Hr E. unfold split_day. rewrite E. rewrite (Z.mul_comm 365), Z.div_add_l, (Z.div_small r), Z.add_0_r by lia.
  rewrite (Z.add_comm (y * 365)), Z_mod_plus_full, (Z.mod_small r) by lia. rewrite leap_of by done. unfold common_day. by rewrite (Z.add_comm y).
Qed.

Lemma split_day_civil y j e : 0 <= y < 500 -> 0 <= j < year_length (leap_year y) -> 0 <= e -> y - 1 <= e <= y + 1 ->
  (e = y - 1 -> j < 2) -> (e = y + 1 -> leap_year y || leap_year (y + 1) = true -> 364 <= j) ->
  0 <= day_number (year_start y + j) e /\
  split_day (year_start y + j) e = if (e =? y + 1) && leap_year (y + 1) then (1900 + y, 12, 30) else civil y j.
Proof.
  intros Hy Hj He He' Hlo Hhi. unfold civil. set (n := year_start y + j).
  assert (Hn : n = 365 * y + leaps (y - 1) + j) by done. pose proof (leaps_step y) as L0. pose proof (leaps_step (y + 1)) as L1.
  rewrite Z.add_simpl_r in L1. pose proof (not_both_leap y) as Hboth.
  assert (Hle : leap_estimate e = leap_year e) by (apply leap_estimate_year; lia).
  assert (e = y \/ e = y - 1 \/ e = y + 1) as [-> |[-> | ->]] by lia.
  - rewrite (proj2 (Z.eqb_neq y (y + 1))) by lia. cbn [andb].
    assert (Ee : is_early n y = leap_year y && (j <? 59)).
    { unfold is_early. rewrite Hle. destruct (leap_year y); [|done]. cbn [andb]. lia. }
    assert (Ed : day_number n y = 365 * y + (if leap_year y && negb (j <? 59) then j - 1 else j)).
    { unfold day_number. rewrite Ee. destruct (leap_year y), (j <? 59); cbn [andb negb]; lia. }
    split; [rewrite Ed; destruct (leap_year y); simpl in Hj |- *; [destruct (Z.ltb_spec j 59)|]; simpl; lia|].
    rewrite (split_day_of n y y (if leap_year y && negb (j <? 59) then j - 1 else j)); [|lia| |done].
    2:{ destruct (leap_year y); simpl in Hj |- *; [destruct (Z.ltb_spec j 59)|]; simpl; lia. }
    rewrite Ee. unfold day_of. destruct (leap_year y); [|done]. destruct (Z.ltb_spec j 59); cbn [andb negb]; [done|].
    destruct (Z.eqb_spec (j - 1) 58), (Z.eqb_spec j 59); lia || done.
  - rewrite (proj2 (Z.eqb_neq (y - 1) (y + 1))) by lia. cbn [andb]. specialize (Hlo eq_refl).
    assert (Ee : is_early n (y - 1) = false).
    { unfold is_early. pose proof (leaps_range (y - 1)). destruct (leap_estimate (y - 1)); [|done]. cbn [andb]. lia. }
    assert (Ed : day_number n (y - 1) = 365 * y + j) by (unfold day_number; rewrite Ee; lia).
    split; [lia|]. rewrite (split_day_of n (y - 1) y j) by lia. rewrite (proj2 (Z.eqb_neq j 58)), andb_false_r by lia.
    unfold day_of. rewrite (proj2 (Z.ltb_lt j 59)) by lia. by destruct (leap_year y).
  - rewrite Z.eqb_refl. cbn [andb]. specialize (Hhi eq_refl).
    assert (Ee : is_early n (y + 1) = false).
    { unfold is_early. rewrite Hle. destruct (leap_year (y + 1)); [|done]. cbn [andb].
      destruct (leap_year y); [by destruct Hboth|]. unfold year_length in Hj. lia. }
    assert (Ed : day_number n (y + 1) = 365 * y + (j - (if leap_year y then 1 else 0) - (if leap_year (y + 1) then 1 else 0))) by (unfold day_number; rewrite Ee; lia).
    assert (Hr : (if leap_year y || leap_year (y + 1) then 363 else 0) <= j - (if leap_year y then 1 else 0) - (if leap_year (y + 1) then 1 else 0) < 365).
    { unfold year_length in Hj. destruct (leap_year y), (leap_year (y + 1)); cbn [orb] in *; lia || by destruct Hboth. }
    assert (Hr0 : 0 <= j - (if leap_year y then 1 else 0) - (if leap_year (y + 1) then 1 else 0) < 365) by (destruct (leap_year y || leap_year (y + 1)); lia).
    split; [lia|]. rewrite (fun H0 H1 => split_day_of n (y + 1) y _ H0 H1 Ed) by lia. rewrite Ee. cbn [negb]. rewrite andb_true_r.
    unfold day_of, year_length in *. destruct (leap_year y), (leap_year (y + 1)); cbn [orb andb] in *; [by destruct Hboth| | |].
    + rewrite (proj2 (Z.ltb_ge j 59)), (proj2 (Z.eqb_neq j 59)), (proj2 (Z.eqb_neq _ 58)) by lia. by rewrite Z.sub_0_r.
    + by replace (j - 0 - 1) with 363 by lia.
    + by rewrite !Z.sub_0_r.
Qed.

Lemma estimate_mono a b : a <= b -> estimate a <= estimate b.
Proof. intros H. unfold estimate. apply Z.quot_le_mono; lia. Qed.
Lemma estimate_bounds y j s : 0 <= y < 500 -> 0 <= j < year_length (leap_year y) -> 0 <= s < DAY ->
  let e := estimate ((year_start y + j) * DAY + s) in
  0 <= e /\ y - 1 <= e <= y + 1 /\ (e = y - 1 -> j < 2) /\ (e = y + 1 -> leap_year y || leap_year (y + 1) = true -> 364 <= j) /\
  (e = y + 1 -> leap_year (y + 1) = true -> 4039282944 <= (year_start y + j) * DAY + s).
Proof.
  intros Hy Hj Hs. cbv zeta.
  assert (Hall : forallb (fun y =>
    (y - 1 <=? estimate (year_start y * DAY)) && (0 <=? estimate (year_start y * DAY)) && (y <=? estimate ((year_start y + 2) * DAY)) &&
    (negb (leap_year y || leap_year (y + 1)) || (estimate ((year_start y + 364) * DAY - 1) <=? y)) && (estimate (year_start (y + 1) * DAY - 1) <=? y + 1) &&
    (negb (leap_year (y + 1)) || (if y <? 127 then estimate (year_start (y + 1) * DAY - 1) <=? y
      else if y =? 127 then estimate 4039282943 <=? y else 4039282944 <=? year_start y * DAY))) (zseq 0 500) = true) by (vm_compute; done).
  apply (fun Ha => zseq_forall _ 500 y Ha) in Hall as H; [|lia]. cbv beta in H. clear Hall.
  apply andb_prop in H as [[[[[H1%Z.leb_le H0%Z.leb_le]%andb_prop H2%Z.leb_le]%andb_prop H3]%andb_prop H4%Z.leb_le]%andb_prop H5].
  assert (Hend : year_start y + j + 1 <= year_start (y + 1)) by (rewrite year_start_step; lia).
  set (t := (year_start y + j) * DAY + s).
  assert (Ht : year_start y * DAY <= t <= year_start (y + 1) * DAY - 1) by (unfold t, DAY in *; lia).
  pose proof (estimate_mono _ _ (proj1 Ht)). pose proof (estimate_mono _ _ (proj2 Ht)). split_and!; try lia.
  - intros E. destruct (Z.lt_ge_cases j 2) as [|Hge]; [done|].
    assert ((year_start y + 2) * DAY <= t) as Hm%estimate_mono by (unfold t, DAY in *; lia). lia.
  - intros E Hl. rewrite Hl in H3. cbn [negb orb] in H3. apply Z.leb_le in H3. destruct (Z.le_gt_cases 364 j) as [|Hlt]; [done|].
    assert (t <= (year_start y + 364) * DAY - 1) as Hm%estimate_mono by (unfold t, DAY in *; lia). lia.
  - intros E Hl. rewrite Hl in H5. cbn [negb orb] in H5. destruct (y <? 127); [|destruct (Z.eqb_spec y 127)].
    + lia.
    + destruct (Z.le_gt_cases 4039282944 t) as [|Hlt]; [done|]. assert (t <= 4039282943) as Hm%estimate_mono by lia. lia.
    + lia.
Qed.

(** ** The theorems *)

Definition CALENDAR_END : Z := 182621.
(** The estimate of the years is already that of the leap year to come. *)
Definition late (date : Z * Z * Z) (t : Z) : bool :=
  let '(y, m, d) := date in (m =? 12) && (d =? 31) && is_leap (y + 1) && (estimate t =? y + 1 - 1900).

Lemma leaps_nonneg y : 0 <= y -> 0 <= leaps y.
Proof.
  intros H. unfold leaps. pose proof (Z.div_le_compat_l y 4 100 H ltac:(lia)). pose proof (Z.div_pos (y + 300) 400 ltac:(lia) ltac:(lia)). lia.
Qed.
Lemma civil_year n y j : Z.of_nat n < CALENDAR_END -> 0 <= y -> 0 <= j -> Z.of_nat n = year_start y + j -> 0 <= y < 500.
Proof.
  intros Hn Hy Hj E. split; [done|]. destruct (Z.lt_ge_cases y 500) as [|H]; [done|]. destruct (Z.eq_dec y 500) as [->|].
  - change (year_start 500) with 182621 in E. unfold CALENDAR_END in Hn. lia.
  - pose proof (leaps_nonneg (y - 1) ltac:(lia)). unfold year_start, CALENDAR_END in *. lia.
Qed.
Lemma split_calendar n s f : Z.of_nat n < CALENDAR_END -> 0 <= s < DAY -> 0 <= f < INTERNAL_MULTIPLIER ->
  let t := Z.of_nat n * DAY + s in
  let '(y, m, d) := date_of n in
  split (t * INTERNAL_MULTIPLIER + f) = mk_Split y m (if late (date_of n) t then 30 else d) (s / HOUR) (s mod HOUR / MINUTE) (s mod MINUTE * INTERNAL_MULTIPLIER + f) /\
  (late (date_of n) t = true -> 4039282944 <= t).
Proof.
  intros Hn Hs Hf. cbv zeta. destruct (date_of_civil n) as (y & j & Hy & Hj & E & Ed).
  pose proof (civil_year n y j Hn Hy (proj1 Hj) E) as Hy'.
  destruct (estimate_bounds y j s Hy' Hj Hs) as (H0 & H1 & H2 & H3 & H4). rewrite <- E in *.
  destruct (split_day_civil y j _ Hy' Hj H0 H1 H2 H3) as [Hk Hd]. rewrite <- E in Hk, Hd.
  rewrite split_time, Hd by (done || unfold CALENDAR_END in Hn; lia). rewrite Ed.
  set (e := estimate (Z.of_nat n * DAY + s)) in *.
  destruct (civil y j) as [[cy m] d] eqn:Ec. assert (cy = 1900 + y) as ->.
  { unfold civil in Ec. destruct (day_of _ _). by injection Ec. }
  unfold late. fold e. replace (1900 + y + 1 - 1900) with (y + 1) by lia. change (is_leap (1900 + y + 1)) with (is_leap (1900 + y + 1)).
  replace (1900 + y + 1) with (1900 + (y + 1)) by lia. fold (leap_year (y + 1)).
  destruct (Z.eqb_spec e (y + 1)) as [Ee|]; [|rewrite andb_false_r; done]. rewrite andb_true_r. cbn [andb].
  destruct (leap_year (y + 1)) eqn:El; [|by rewrite andb_false_r]. rewrite andb_true_r.
  assert (Hb : leap_year y = false). { destruct (leap_year y) eqn:Eb; [|done]. exfalso. by apply (not_both_leap y). }
  rewrite Hb in *. assert (j = 364) as ->. { specialize (H3 Ee eq_refl). unfold year_length in Hj. lia. }
  unfold civil in Ec. rewrite Hb in Ec. injection Ec as <- <-. split; [done|]. intros _. by apply H4.
Qed.

Lemma combine_date n h mi sc : Z.of_nat n < CALENDAR_END -> 0 <= h < 24 -> 0 <= mi < 60 -> 0 <= sc < 60 * INTERNAL_MULTIPLIER ->
  let '(y, m, d) := date_of n in
  combine (mk_Split y m d h mi sc) = (Z.of_nat n * DAY + h * HOUR + mi * MINUTE) * INTERNAL_MULTIPLIER + sc.
Proof.
  intros Hn Hh Hmi Hsc. destruct (date_of_civil n) as (y & j & Hy & Hj & E & ->).
  pose proof (civil_year n y j Hn Hy (proj1 Hj) E) as Hy'. pose proof (day_of_step (leap_year y) j Hj) as Hday.
  unfold civil. destruct (day_of (leap_year y) j) as [m d]. destruct Hday as [(Hm & Hd & Hidx) _].
  unfold combine. cbn [year month day hour min sec].
  assert (Hl : Z.quot (if m <? 3 then 1900 + y - 1 else 1900 + y) 4 - Z.quot (if m <? 3 then 1900 + y - 1 else 1900 + y) 100 +
    Z.quot (if m <? 3 then 1900 + y - 1 else 1900 + y) 400 - 460 = leaps (y - 1) + (if leap_year y && (3 <=? m) then 1 else 0)).
  { assert (Hq : forall z, -1 <= z -> Z.quot (1900 + z) 4 - Z.quot (1900 + z) 100 + Z.quot (1900 + z) 400 - 460 = leaps z).
    { intros z Hz. rewrite !Z.quot_div_nonneg by lia. unfold leaps.
      replace (1900 + z) with (z + 475 * 4) at 1 by lia. replace (1900 + z) with (z + 19 * 100) at 1 by lia. replace (1900 + z) with (z + 300 + 4 * 400) by lia.
      rewrite !Z.div_add by lia. lia. }
    destruct (Z.ltb_spec m 3).
    - rewrite (proj2 (Z.leb_gt 3 m)), andb_false_r by lia. replace (1900 + y - 1) with (1900 + (y - 1)) by lia. rewrite Hq by lia. lia.
    - rewrite (proj2 (Z.leb_le 3 m)), andb_true_r by lia. rewrite Hq, leaps_step by lia. done. }
  rewrite Hl. rewrite (proj2 (Z.ltb_ge m 1)), (Z.gtb_ltb m 12), (proj2 (Z.ltb_ge 12 m)) by lia. cbn [orb].
  set (l := leaps (y - 1) + _) in *. replace (1900 + y - 1900) with y by lia.
  assert (Hmd : 0 <= md (m - 1) <= 334).
  { assert (Hall : forallb (fun m => (0 <=? md m) && (md m <=? 334)) (zseq 0 12) = true) by (vm_compute; done).
    apply (fun Ha => zseq_forall _ 12 (m - 1) Ha) in Hall; [|lia]. cbv beta in Hall. lia. }
  assert (Hsum : y * 365 + l + md (m - 1) + (d - 1) = Z.of_nat n).
  { rewrite E. unfold year_start, l. destruct (leap_year y && (3 <=? m)); lia. }
  unfold CALENDAR_END, DAY, HOUR, MINUTE, INTERNAL_MULTIPLIER, INTERNAL_SHIFT in *.
  assert (0 <= y * 365 + l).
  { destruct (Z.eq_dec y 0) as [->|]; [unfold l; vm_compute (leaps (0 - 1)); destruct (leap_year 0 && (3 <=? m)); lia|].
    pose proof (leaps_nonneg (y - 1) ltac:(lia)). unfold l. destruct (leap_year y && (3 <=? m)); lia. }
  small. rewrite Z.shiftl_mul_pow2 by lia. change (2 ^ 20) with 1048576. small. lia.
Qed.

(** C25: a stamp is split into the date of the Gregorian calendar, and the time of the day, for 500 years from 1900; except that on the last day of a year before a leap year, once the estimate of the years is that of the leap year, the day given is the 30th; which never happens before 23:02:24 on 31 December 2027. *)
Theorem split_is_calendar n s f : Z.of_nat n < CALENDAR_END -> 0 <= s < DAY -> 0 <= f < INTERNAL_MULTIPLIER ->
  let t := Z.of_nat n * DAY + s in
  let '(y, m, d) := date_of n in
  split (t * INTERNAL_MULTIPLIER + f) =
    mk_Split y m (if late (date_of n) t then 30 else d) (s / HOUR) (s mod HOUR / MINUTE) (s mod MINUTE * INTERNAL_MULTIPLIER + f) /\
  (late (date_of n) t = true -> 4039282944 <= t).
Proof. apply split_calendar. Qed.
Lemma split_is_calendar_witness : split (4039282944 * INTERNAL_MULTIPLIER) = mk_Split 2027 12 30 23 2 (24 * INTERNAL_MULTIPLIER).
Proof.
  assert (E : date_of (Z.to_nat 46750) = (2027, 12, 31)) by (vm_compute; reflexivity).
  assert (En : Z.of_nat (Z.to_nat 46750) = 46750) by (by apply Z2Nat.id).
  revert E En. generalize (Z.to_nat 46750) as n. intros n E En.
  pose proof (split_is_calendar n 82944 0) as H. rewrite En, E in H. cbv zeta in H. exact (proj1 (H eq_refl ltac:(done) ltac:(done))).
Defined.

(** *** Intervals of days *)

Lemma borrow_in fuel lo m c x : lo <= x -> borrow fuel lo m c x = Some (c, x).
Proof. intros H. destruct fuel; simpl; by rewrite (proj2 (Z.ltb_ge x lo)). Qed.
Lemma carry_in fuel hi m c x : x <= hi -> carry fuel hi m c x = Some (c, x).
Proof. intros H. destruct fuel; simpl; by rewrite Z.gtb_ltb, (proj2 (Z.ltb_ge hi x)). Qed.
Lemma adjust_in lo hi m c x : lo <= x <= hi -> adjust lo hi m c x = Some (c, x).
Proof. intros H. unfold adjust. rewrite borrow_in by lia. cbn [mbind option_bind]. apply carry_in. lia. Qed.
Lemma borrow_total m lo fuel : forall c x, 0 < m -> lo <= 1 -> - (Z.of_nat fuel * m) < x -> exists c' x', borrow fuel lo m c x = Some (c', x').
Proof.
  induction fuel as [|fuel IH]; intros c x Hm Hlo Hx; simpl; destruct (Z.ltb_spec x lo); try by do 2 eexists.
  - lia.
  - apply IH; [done|done|]. lia.
Qed.
Lemma carry_total m hi fuel : forall c x, 0 < m -> 0 <= hi -> x < Z.of_nat fuel * m -> exists c' x', carry fuel hi m c x = Some (c', x').
Proof.
  induction fuel as [|fuel IH]; intros c x Hm Hhi Hx; simpl; rewrite Z.gtb_ltb; destruct (Z.ltb_spec hi x); try by do 2 eexists.
  - lia.
  - apply IH; [done|done|]. lia.
Qed.
Lemma adjust_total lo hi m c x : 0 < m -> lo <= 1 -> 0 <= hi -> exists r, adjust lo hi m c x = Some r.
Proof.
  intros Hm Hlo Hhi. assert (Hf : forall z, Z.abs z < Z.of_nat (Z.to_nat (Z.abs z / m + 2)) * m).
  { intros z. pose proof (Z.div_mod (Z.abs z) m ltac:(lia)). pose proof (Z.mod_pos_bound (Z.abs z) m Hm).
    pose proof (Z.div_pos (Z.abs z) m ltac:(lia) Hm). rewrite Z2Nat.id by lia. rewrite Z.mul_add_distr_r, (Z.mul_comm _ m). lia. }
  unfold adjust. destruct (borrow_total m lo (Z.to_nat (Z.abs x / m + 2)) c x Hm Hlo) as (c' & x' & ->); [specialize (Hf x); lia|].
  cbn [mbind option_bind]. destruct (carry_total m hi (Z.to_nat (Z.abs x' / m + 2)) c' x' Hm Hhi) as (c2 & x2 & ->); [specialize (Hf x'); lia|].
  by eexists.
Qed.
Lemma normalise_total sp : exists r, normalise sp = Some r.
Proof.
  unfold normalise.
  destruct (adjust_total 0 (59 * INTERNAL_MULTIPLIER) (60 * INTERNAL_MULTIPLIER) (min sp) (sec sp)) as [[mi sc] ->]; [done..|]. cbn [mbind option_bind].
  destruct (adjust_total 0 59 60 (hour sp) mi) as [[h mi'] ->]; [done..|]. cbn [mbind option_bind].
  destruct (adjust_total 0 23 24 (day sp) h) as [[d h'] ->]; [done..|]. cbn [mbind option_bind].
  destruct (adjust_total 1 12 12 (year sp) (month sp)) as [[y m] ->]; [done..|]. cbn [mbind option_bind]. by eexists.
Qed.

Lemma year_start_mono y y' : y <= y' -> year_start y <= year_start y'.
Proof.
  intros H. replace y' with (y + Z.of_nat (Z.to_nat (y' - y))) by lia. generalize (Z.to_nat (y' - y)) as k. clear H.
  induction k as [|k IH]; [rewrite Z.add_0_r; lia|]. rewrite Nat2Z.inj_succ, <- Z.add_1_r, Z.add_assoc, year_start_step.
  unfold year_length. destruct (leap_year _); lia.
Qed.
Lemma date_of_at n y j : 0 <= y -> 0 <= j < year_length (leap_year y) -> Z.of_nat n = year_start y + j -> date_of n = civil y j.
Proof.
  intros Hy Hj E. destruct (date_of_civil n) as (y' & j' & Hy' & Hj' & E' & ->).
  pose proof (year_start_step y). pose proof (year_start_step y').
  assert (y = y' \/ y + 1 <= y' \/ y' + 1 <= y) as [->|[Hlt|Hlt]] by lia.
  - f_equal. lia.
  - apply year_start_mono in Hlt. lia.
  - apply year_start_mono in Hlt. lia.
Qed.
Lemma day_of_same_month b j d' : 0 <= j < year_length b -> 1 <= d' <= 28 ->
  let '(m, d) := day_of b j in 0 <= j + (d' - d) < year_length b /\ day_of b (j + (d' - d)) = (m, d').
Proof.
  intros Hj Hd.
  assert (Hall : forallb (fun j => negb (j <? year_length b) || forallb (fun d' => let '(m, d) := day_of b j in
    (0 <=? j + (d' - d)) && (j + (d' - d) <? year_length b) &&
    (let '(m2, d2) := day_of b (j + (d' - d)) in (m2 =? m) && (d2 =? d'))) (zseq 1 28)) (zseq 0 366) = true) by (destruct b; vm_compute; done).
  apply (fun Ha => zseq_forall _ 366 j Ha) in Hall as H; [|unfold year_length in Hj; destruct b; lia]. cbv beta in H. clear Hall.
  rewrite (proj2 (Z.ltb_lt j _)) in H by lia. cbn [negb orb] in H. rewrite forallb_forall in H. specialize (H d').
  assert (Hin : In d' (zseq 1 28)). { unfold zseq. apply in_map_iff. exists (Z.to_nat (d' - 1)). split; [lia|]. apply in_seq. lia. }
  specialize (H Hin). clear Hin. destruct (day_of b j) as [m d]. destruct (day_of b (j + (d' - d))) as [m2 d2].
  apply andb_prop in H as [[H1%Z.leb_le H2%Z.ltb_lt]%andb_prop [H3%Z.eqb_eq H4%Z.eqb_eq]%andb_prop]. by subst.
Qed.
Lemma same_month n n' y m d d' : date_of n = (y, m, d) -> 1 <= d' <= 28 -> Z.of_nat n' = Z.of_nat n + (d' - d) -> date_of n' = (y, m, d').
Proof.
  intros E Hd En. destruct (date_of_civil n) as (cy & j & Hy & Hj & Ej & Ec). pose proof (day_of_same_month (leap_year cy) j d' Hj Hd) as H.
  rewrite E in Ec. unfold civil in Ec. destruct (day_of (leap_year cy) j) as [cm cd]. injection Ec as -> -> ->. destruct H as [Hr H].
  rewrite (date_of_at n' cy (j + (d' - cd))) by lia || done. unfold civil. by rewrite H.
Qed.
Lemma date_month n y m d : date_of n = (y, m, d) -> 1 <= m <= 12 /\ 1 <= d <= 31.
Proof.
  intros E. destruct (date_of_civil n) as (cy & j & Hy & Hj & Ej & Ec). pose proof (day_of_step (leap_year cy) j Hj) as H.
  rewrite E in Ec. unfold civil in Ec. destruct (day_of (leap_year cy) j) as [cm cd]. injection Ec as -> -> ->. tauto.
Qed.

(** Days before the end of 2027 are what they seem. *)
Lemma split_date n s f : Z.of_nat n < CALENDAR_END -> 0 <= s < DAY -> 0 <= f < INTERNAL_MULTIPLIER ->
  Z.of_nat n * DAY + s < 4039282944 -> let '(y, m, d) := date_of n in
  split ((Z.of_nat n * DAY + s) * INTERNAL_MULTIPLIER + f) = mk_Split y m d (s / HOUR) (s mod HOUR / MINUTE) (s mod MINUTE * INTERNAL_MULTIPLIER + f).
Proof.
  intros Hn Hs Hf Ht. pose proof (split_calendar n s f Hn Hs Hf) as H. cbv zeta in H. destruct (date_of n) as [[y m] d] eqn:E.
  destruct H as [-> H]. destruct (late (y, m, d) _); [|done]. specialize (H eq_refl). lia.
Qed.

Lemma combine_split_time n s f : Z.of_nat n < CALENDAR_END -> 0 <= s < DAY -> 0 <= f < INTERNAL_MULTIPLIER ->
  let '(y, m, d) := date_of n in
  combine (mk_Split y m d (s / HOUR) (s mod HOUR / MINUTE) (s mod MINUTE * INTERNAL_MULTIPLIER + f)) = (Z.of_nat n * DAY + s) * INTERNAL_MULTIPLIER + f.
Proof.
  intros Hn Hs Hf. pose proof (combine_date n (s / HOUR) (s mod HOUR / MINUTE) (s mod MINUTE * INTERNAL_MULTIPLIER + f) Hn) as H.
  unfold HOUR, MINUTE, DAY, INTERNAL_MULTIPLIER in *.
  pose proof (Z.div_mod s 3600 ltac:(lia)). pose proof (Z.mod_pos_bound s 3600 ltac:(lia)).
  pose proof (Z.div_mod (s mod 3600) 60 ltac:(lia)). pose proof (Z.mod_pos_bound (s mod 3600) 60 ltac:(lia)).
  assert (s mod 3600 mod 60 = s mod 60) as E by (clear -s; Z.to_euclidean_division_equations; lia). rewrite E in *.
  destruct (date_of n) as [[y m] d]. rewrite H by lia. lia.
Qed.

Lemma day_before_last n y : date_of n = (y, 12, 31) -> date_of (n - 1) = (y, 12, 30).
Proof.
  intros E. destruct (date_of_civil n) as (cy & j & Hy & Hj & Ej & Ec). pose proof (day_of_step (leap_year cy) j Hj) as H.
  rewrite E in Ec. unfold civil in Ec. destruct (day_of (leap_year cy) j) as [cm cd]. injection Ec as -> <- <-.
  destruct H as [(_ & _ & Hidx) _]. change (md (12 - 1)) with 334 in Hidx.
  assert (364 <= j) by (destruct (leap_year cy && (3 <=? 12)); lia).
  assert (0 <= year_start cy) by (apply (year_start_mono 0); done).
  rewrite (date_of_at (n - 1) cy (j - 1)) by lia. unfold civil. assert (j = if leap_year cy then 365 else 364) as -> by (clear -Hidx; destruct (leap_year cy); cbn in Hidx; lia). by destruct (leap_year cy).
Qed.

(** A date of the calendar and a time of day, in the 500 years from 1900, make the stamp that counts its days and its time; and a stamp split and combined is itself before 23:02:24 on 31 December 2027, and always unless the day is given wrong, where it is a day before itself. *)
Theorem combine_split_roundtrip n s f : Z.of_nat n < CALENDAR_END -> 0 <= s < DAY -> 0 <= f < INTERNAL_MULTIPLIER ->
  let t := (Z.of_nat n * DAY + s) * INTERNAL_MULTIPLIER + f in
  let '(y, m, d) := date_of n in
  combine (mk_Split y m d (s / HOUR) (s mod HOUR / MINUTE) (s mod MINUTE * INTERNAL_MULTIPLIER + f)) = t /\
  combine (split t) = (if late (date_of n) (Z.of_nat n * DAY + s) then t - DAY * INTERNAL_MULTIPLIER else t) /\
  (t < 4039282944 * INTERNAL_MULTIPLIER -> combine (split t) = t).
Proof.
  intros Hn Hs Hf. pose proof (combine_split_time n s f Hn Hs Hf) as Hc. pose proof (split_calendar n s f Hn Hs Hf) as Hsp.
  cbv zeta in *. destruct (date_of n) as [[y m] d] eqn:E. destruct Hsp as [-> Hlate]. split; [done|].
  destruct (late (y, m, d) (Z.of_nat n * DAY + s)) eqn:El.
  - split; [|intros; specialize (Hlate eq_refl); unfold INTERNAL_MULTIPLIER in *; lia].
    unfold late in El. apply andb_prop in El as [[[->%Z.eqb_eq ->%Z.eqb_eq]%andb_prop _]%andb_prop _].
    assert (H0 : (1 <= n)%nat). { destruct n; [|lia]. by vm_compute in E. }
    assert (E' : date_of (n - 1) = (y, 12, 30)) by by apply day_before_last.
    pose proof (combine_split_time (n - 1) s f ltac:(lia) Hs Hf) as Hc'. rewrite E' in Hc'. rewrite Hc'.
    rewrite Nat2Z.inj_sub by done. unfold INTERNAL_MULTIPLIER, DAY. lia.
  - split; [done|intros; done].
Qed.
Lemma combine_split_roundtrip_witness : combine (mk_Split 1900 3 1 12 30 5) = (59 * DAY + 45000) * INTERNAL_MULTIPLIER + 5.
Proof. exact (proj1 (combine_split_roundtrip 59 45000 5 ltac:(done) ltac:(done) ltac:(done))). Defined.

Lemma shift_day n y m d s f : date_of n = (y, m, d) ->
  Z.of_nat n < CALENDAR_END -> 0 <= s < DAY -> 0 <= f < INTERNAL_MULTIPLIER ->
  combine (mk_Split y m 1 (s / HOUR) (s mod HOUR / MINUTE) (s mod MINUTE * INTERNAL_MULTIPLIER + f)) =
    ((Z.of_nat n - (d - 1)) * DAY + s) * INTERNAL_MULTIPLIER + f /\ 0 <= Z.of_nat n - (d - 1).
Proof.
  intros E Hn Hs Hf. destruct (date_month n y m d E) as [_ Hd].
  destruct (date_of_civil n) as (cy & j & Hy & Hj & Ej & Ec). pose proof (day_of_same_month (leap_year cy) j 1 Hj ltac:(lia)) as H.
  rewrite E in Ec. unfold civil in Ec. destruct (day_of (leap_year cy) j) as [cm cd]. injection Ec as -> -> ->. destruct H as [Hr _].
  assert (0 <= year_start cy) by (apply (year_start_mono 0); done).
  assert (H0 : 0 <= Z.of_nat n - (cd - 1)) by lia. split; [|done].
  assert (E1 : Z.of_nat (Z.to_nat (Z.of_nat n - (cd - 1))) = Z.of_nat n - (cd - 1)) by (apply Z2Nat.id; lia).
  pose proof (same_month n (Z.to_nat (Z.of_nat n - (cd - 1))) _ _ _ 1 E ltac:(lia) ltac:(lia)) as E2.
  pose proof (combine_split_time (Z.to_nat (Z.of_nat n - (cd - 1))) s f ltac:(lia) Hs Hf) as Hc. rewrite E2, E1 in Hc. exact Hc.
Qed.

(** Normalising always ends; and adding a number of days to a date of the calendar with a time of day gives the date that many days after, or before, with the same time: up to 49000 days, to dates before 23:02:24 on 31 December 2027, if the seconds are not more than 59. *)
Theorem interval_adds_days number s f : Z.abs number <= 49000 -> 0 <= s < DAY -> 0 <= f < INTERNAL_MULTIPLIER ->
  s mod MINUTE * INTERNAL_MULTIPLIER + f <= 59 * INTERNAL_MULTIPLIER -> forall n n', Z.of_nat n < CALENDAR_END ->
  Z.of_nat n' = Z.of_nat n + number -> Z.of_nat n' * DAY + s < 4039282944 ->
  let at_time date := let '(y, m, d) := date in mk_Split y m d (s / HOUR) (s mod HOUR / MINUTE) (s mod MINUTE * INTERNAL_MULTIPLIER + f) in
  add_to number days (at_time (date_of n)) = Some (at_time (date_of n')) /\
  subtract_from (- number) days (at_time (date_of n)) = Some (at_time (date_of n')) /\
  (forall sp, exists r, normalise sp = Some r).
Proof.
  intros Hnum Hs Hf Hsec n n' Hn Hn' Ht. cbv zeta.
  assert (Hend : Z.of_nat n' < CALENDAR_END) by (unfold CALENDAR_END, DAY in *; lia).
  enough (add_to number days (let '(y, m, d) := date_of n in mk_Split y m d (s / HOUR) (s mod HOUR / MINUTE) (s mod MINUTE * INTERNAL_MULTIPLIER + f)) =
    Some (let '(y, m, d) := date_of n' in mk_Split y m d (s / HOUR) (s mod HOUR / MINUTE) (s mod MINUTE * INTERNAL_MULTIPLIER + f))) as E.
  { split; [done|]. split; [|apply normalise_total]. unfold subtract_from. by rewrite Z.opp_involutive. }
  destruct (date_of n) as [[y m] d] eqn:E. destruct (date_month n y m d E) as [Hm Hd].
  destruct (shift_day n y m d s f E Hn Hs Hf) as [Hc H0].
  pose proof (split_date n' s f Hend Hs Hf Ht) as Hsp.
  unfold add_to, normalise, shift. cbn [year month day hour min sec]. set (sc := s mod MINUTE * INTERNAL_MULTIPLIER + f) in *.
  pose proof (Z.mod_pos_bound s 60 ltac:(lia)). pose proof (Z.div_mod s 3600 ltac:(lia)). pose proof (Z.mod_pos_bound s 3600 ltac:(lia)).
  pose proof (Z.div_mod (s mod 3600) 60 ltac:(lia)). pose proof (Z.mod_pos_bound (s mod 3600) 60 ltac:(lia)).
  rewrite (adjust_in 0 (59 * INTERNAL_MULTIPLIER)) by (unfold sc, MINUTE, INTERNAL_MULTIPLIER in *; lia). cbn [mbind option_bind].
  rewrite (adjust_in 0 59) by (unfold HOUR, MINUTE, DAY in *; lia). cbn [mbind option_bind].
  rewrite (adjust_in 0 23) by (unfold HOUR, MINUTE, DAY in *; lia). cbn [mbind option_bind].
  rewrite (adjust_in 1 12) by lia. cbn [mbind option_bind]. rewrite Hc. f_equal. unfold add_duration, sub_duration.
  destruct (date_of n') as [[y' m'] d'] eqn:E'.
  destruct (Z.ltb_spec (d + number) 1); [|rewrite Z.gtb_ltb; destruct (Z.ltb_spec 28 (d + number))].
  - rewrite <- Hsp. f_equal. rewrite Hn'. unfold DAY, CALENDAR_END, INTERNAL_MULTIPLIER in *. small. lia.
  - rewrite <- Hsp. f_equal. rewrite Hn'. unfold DAY, CALENDAR_END, INTERNAL_MULTIPLIER in *. small. lia.
  - rewrite (same_month n n' y m d (d + number)) in E' by (done || lia). injection E' as <- <- <-. done.
Qed.
Lemma interval_adds_days_witness : add_to (-1) days (mk_Split 1900 3 1 12 30 0) = Some (mk_Split 1900 2 28 12 30 0).
Proof.
  exact (proj1 (interval_adds_days (-1) 45000 0 ltac:(done) ltac:(done) ltac:(done) ltac:(done) 59 58 ltac:(done) ltac:(done) ltac:(done))).
Defined.

(** 59 and a half seconds are taken for more than a minute, and become negative. *)
Example normalise_half_second : normalise (mk_Split 2020 1 1 0 0 (59 * INTERNAL_MULTIPLIER + 524288)) =
  Some (mk_Split 2020 1 1 0 1 (-524288)).
Proof. reflexivity. Qed.
(** 49712 days are more than 2^32 s, and are added as less than two. *)
Example interval_wraps : add_to 49712 days (mk_Split 1900 1 1 0 0 0) = Some (mk_Split 1900 1 2 17 31 (44 * INTERNAL_MULTIPLIER)).
Proof. reflexivity. Qed.
End Stamp.
