(* ===== verification/StampText.v ===== *)
(** * Dates and times as text

    Models the constructors of [Stamp] and [DateStamp] from text ([stamp.cc],
    [date-stamp.cc] of [src/libs/time]) and the formats without fractions that
    stamps are printed in.  What [atof] makes of digits with a point, as a count of
    2^-20 s, is a parameter. *)
From S2P Require Export Stamp.

Module StampText.
Import Strings Stamp.

Definition OT_NO_DATA : Z := -1.
Definition OT_BAD_DATA : Z := -2.

Section text.
Context (atof : bytes -> Z).

(** ** Fields: the value and the position after it *)

Definition read_part (text : bytes) (size pos length : Z) : Z * Z :=
  if pos =? size then (OT_NO_DATA, pos)
  else if pos + length >? size then (OT_BAD_DATA, pos)
  else
    let s := substr text pos length in
    if forallb is_digit s then (stoi s, pos + length) else (OT_BAD_DATA, pos).
(** In counts of 2^-20 s *)
Definition read_part_f (text : bytes) (size pos length : Z) : Z * Z :=
  if pos =? size then (OT_NO_DATA * INTERNAL_MULTIPLIER, pos)
  else if length <? 2 then (OT_BAD_DATA * INTERNAL_MULTIPLIER, pos)
  else if pos + length >? size then (OT_BAD_DATA * INTERNAL_MULTIPLIER, pos)
  else
    let s := substr text pos length in
    if negb (forallb (fun c => (c =? chr ".") || is_digit c) s) then (OT_BAD_DATA * INTERNAL_MULTIPLIER, pos)
    else if zlen (List.filter (Z.eqb (chr ".")) s) >? 1 then (OT_BAD_DATA * INTERNAL_MULTIPLIER, pos)
    else (atof s, pos + length).
Definition read_filler (text : bytes) (size pos c : Z) : bool * Z :=
  if pos <? size then if zget 0 text pos =? c then (true, pos + 1) else (false, pos) else (false, pos).

Definition with_time (sp : Split) (h mi sc : Z) : Split := mk_Split (year sp) (month sp) (day sp) h mi sc.
(** The split with the time read and the position, or [None] for a failure.  The check after the minutes looks at the hour. *)
Definition read_time (text : bytes) (size pos : Z) (lenient float_secs : bool) (split : Split) : option (Split * Z) :=
  let '(h, pos) := read_part text size pos 2 in
  if (h =? OT_BAD_DATA) || ((h =? OT_NO_DATA) && negb lenient) then None
  else if h >=? 0 then
    let split := with_time split h (min split) (sec split) in
    let '(_, pos) := read_filler text size pos (chr ":") in
    let '(mi, pos) := read_part text size pos 2 in
    if (mi =? OT_BAD_DATA) || ((h =? OT_NO_DATA) && negb lenient) then None
    else if mi >=? 0 then
      let split := with_time split (hour split) mi (sec split) in
      let '(_, pos) := read_filler text size pos (chr ":") in
      let '(s, pos) :=
        if float_secs then read_part_f text size pos (size - pos)
        else let '(v, pos) := read_part text size pos 2 in (v * INTERNAL_MULTIPLIER, pos) in
      if (s =? OT_BAD_DATA * INTERNAL_MULTIPLIER) || ((s =? OT_NO_DATA * INTERNAL_MULTIPLIER) && negb lenient) then None
      else Some (if s >=? 0 then with_time split (hour split) (min split) s else split, pos)
    else Some (split, pos)
  else Some (split, pos).

(** The offset in seconds *)
Definition read_timezone_offset (text : bytes) (size pos : Z) : option Z :=
  if pos >=? size then None else
  let sign := if zget 0 text pos =? chr "-" then -1 else 1 in
  let '(h, pos) := read_part text size (pos + 1) 2 in
  if h <? 0 then None else
  let '(colon, pos) := read_filler text size pos (chr ":") in
  let '(m, pos) := read_part text size pos 2 in
  if (m <? 0) && colon then None else
  let m := if m <? 0 then 0 else m in
  if pos =? size then Some (sign * (h * 3600 + m * 60)) else None.

(** The loop that looks for a zone from [p]: where the time ends, and the offset *)
Fixpoint find_zone (fuel : nat) (text : bytes) (size p : Z) : option (Z * Z) :=
  if p <? size then
    match fuel with
    | O => None
    | S fuel =>
      let c := zget 0 text p in
      if (c =? chr "-") || (c =? chr "+") then
        match read_timezone_offset text size p with Some tz => Some (p, tz) | None => None end
      else if c =? chr "Z" then Some (p, 0)
      else find_zone fuel text size (p + 1)
    end
  else Some (size, 0).

(** The split and the offset of its zone *)
Definition read_iso (text : bytes) (lenient : bool) : option (Split * Z) :=
  let size := zlen text in
  let '(y, pos) := read_part text size 0 4 in
  if y <? 1900 then None else
  let '(_, pos) := read_filler text size pos (chr "-") in
  let '(m, pos) := read_part text size pos 2 in
  if m <? 0 then None else
  let '(_, pos) := read_filler text size pos (chr "-") in
  let '(d, pos) := read_part text size pos 2 in
  if d <? 0 then None else
  let '(space, pos) := read_filler text size pos 32 in
  let '(sep, pos) := if space then (true, pos) else read_filler text size pos (chr "T") in
  if negb sep && negb lenient then None else
  '(size, tz) ← find_zone (length text) text size pos;
  '(split, pos) ← read_time text size pos lenient true (mk_Split y m d 0 0 0);
  if pos =? size then Some (split, tz) else None.

Definition get_month (word : bytes) : Z :=
  let word_is w := bool_decide (word = w) in
  if word_is (str "Jan") then 1 else if word_is (str "Feb") then 2 else if word_is (str "Mar") then 3 else if word_is (str "Apr") then 4
  else if word_is (str "May") then 5 else if word_is (str "Jun") then 6 else if word_is (str "Jul") then 7 else if word_is (str "Aug") then 8
  else if word_is (str "Sep") then 9 else if word_is (str "Oct") then 10 else if word_is (str "Nov") then 11 else if word_is (str "Dec") then 12
  else 0.

Definition GMT : bytes := str "GMT".
Definition read_time_word (word : bytes) (split : Split) : option Split :=
  fst <$> read_time word (zlen word) 0 false false split.
Definition read_rfc_822 (w1 w2 w3 w4 w5 : bytes) : option Split :=
  let d := stoi w1 in
  let m := get_month w2 in
  let y := stoi w3 in
  if (d =? 0) || (m =? 0) || (y =? 0) then None else
  split ← read_time_word w4 (mk_Split y m d 0 0 0);
  if bool_decide (w5 = GMT) then Some split else None.
Definition read_rfc_850 (w1 w2 w3 : bytes) : option Split :=
  bits ← Strings.split w1 (chr "-") false 3;
  match bits with
  | [b0; b1; b2] =>
    let d := stoi b0 in
    let m := get_month b1 in
    let y := stoi b2 in
    if (d =? 0) || (m =? 0) || (y =? 0) then None else
    let y := if y <? 100 then y + 2000 else y in
    split ← read_time_word w2 (mk_Split y m d 0 0 0);
    if bool_decide (w3 = GMT) then Some split else None
  | _ => None
  end.
Definition read_asctime (w1 w2 w3 w4 : bytes) : option Split :=
  let m := get_month w1 in
  let d := stoi w2 in
  if (m =? 0) || (d =? 0) then None else
  split ← read_time_word w3 (mk_Split 1900 m d 0 0 0);
  let y := stoi w4 in
  if y =? 0 then None else Some (mk_Split y m d (hour split) (min split) (sec split)).
Definition read_http (text : bytes) : option Split :=
  words ← split_words text;
  match words with
  | [_; w1; w2; w3; w4; w5] => read_rfc_822 w1 w2 w3 w4 w5
  | [_; w1; w2; w3] => read_rfc_850 w1 w2 w3
  | [_; w1; w2; w3; w4] => read_asctime w1 w2 w3 w4
  | _ => None
  end.

(** [Stamp(text, lenient)]: 0 for a text that is not a time *)
Definition of_text (text : bytes) (lenient : bool) : Z :=
  match (if match text with c :: _ => is_digit c | [] => false end then read_iso text lenient
         else split ← read_http text; Some (split, 0)) with
  | Some (split, tz) => sub_duration (combine split) (tz * INTERNAL_MULTIPLIER)
  | None => 0
  end.
End text.

(** [DateStamp(text)] *)
Definition date_of_text (text : bytes) : Z :=
  let l := zlen text in
  if l <? 8 then 0 else
  let y := stoi (substr text 0 4) in
  let pos := if zget 0 text 4 =? chr "-" then 5 else 4 in
  let m := stoi (substr text pos 2) in
  let pos := pos + 2 in
  let pos := if zget 0 text pos =? chr "-" then pos + 1 else pos in
  if pos >? l - 2 then 0 else combine (mk_Split y m (stoi (substr text pos 2)) 0 0 0).

(** ** To text *)

(** [setw(2) << setfill('0')] *)
Definition two (n : Z) : bytes := let s := itos n in if zlen s <? 2 then chr "0" :: s else s.
Definition sep_text (sep : Z) : bytes := if sep =? 0 then [] else [sep].
Definition whole (sec : Z) : Z := sec / INTERNAL_MULTIPLIER.
Definition iso_minimal (t : Z) : bytes :=
  if t =? 0 then [] else
  let sp := split t in
  two (year sp) ++ two (month sp) ++ two (day sp) ++ str "T" ++ two (hour sp) ++ two (min sp) ++ two (whole (sec sp)).
Definition iso_numeric (t : Z) : bytes :=
  if t =? 0 then [] else
  let sp := split t in
  two (year sp) ++ two (month sp) ++ two (day sp) ++ two (hour sp) ++ two (min sp) ++ two (whole (sec sp)).
Definition iso_date (sep : Z) (t : Z) : bytes :=
  if t =? 0 then [] else
  let sp := split t in two (year sp) ++ sep_text sep ++ two (month sp) ++ sep_text sep ++ two (day sp).
Definition iso_time (sep : Z) (with_secs : bool) (t : Z) : bytes :=
  if t =? 0 then [] else
  let sp := split t in
  two (hour sp) ++ sep_text sep ++ two (min sp) ++ (if with_secs then sep_text sep ++ two (whole (sec sp)) else []).

(** An [atof] for whole seconds *)
Definition whole_atof (s : bytes) : Z := stoi s * INTERNAL_MULTIPLIER.
Example of_text_iso : of_text whole_atof (str "2005-01-02T03:04:05Z") false = combine (mk_Split 2005 1 2 3 4 (5 * INTERNAL_MULTIPLIER)).
Proof. reflexivity. Qed.
Example of_text_zone : of_text whole_atof (str "2005-01-02T03:04:05+01:30") false = combine (mk_Split 2005 1 2 1 34 (5 * INTERNAL_MULTIPLIER)).
Proof. reflexivity. Qed.
Example of_text_http : of_text whole_atof (str "Sun, 06 Nov 1994 08:49:37 GMT") false = combine (mk_Split 1994 11 6 8 49 (37 * INTERNAL_MULTIPLIER)) /\
  of_text whole_atof (str "Sunday, 06-Nov-94 08:49:37 GMT") false = combine (mk_Split 2094 11 6 8 49 (37 * INTERNAL_MULTIPLIER)) /\
  of_text whole_atof (str "Sun Nov  6 08:49:37 1994") false = combine (mk_Split 1994 11 6 8 49 (37 * INTERNAL_MULTIPLIER)).
Proof. split_and!; reflexivity. Qed.
(** A time without minutes passes without [lenient]. *)
Example of_text_hour : of_text whole_atof (str "2005-01-02T03") false = combine (mk_Split 2005 1 2 3 0 0).
Proof. reflexivity. Qed.

(* ------------------------------------------------------------------ *)
(** ** Round trips *)

Lemma read_part_ok text size pos len x : pos + len <= size -> 0 < len -> substr text pos len = x -> forallb is_digit x = true ->
  read_part text size pos len = (stoi x, pos + len).
Proof.
  intros Hs Hl <- Hd. unfold read_part. rewrite (proj2 (Z.eqb_neq pos size)) by lia.
  rewrite Z.gtb_ltb, (proj2 (Z.ltb_ge size _)) by lia. by rewrite Hd.
Qed.
Lemma filler_other text size pos c : zget 0 text pos <> c -> read_filler text size pos c = (false, pos).
Proof. intros H. unfold read_filler. destruct (pos <? size); [|done]. by rewrite (proj2 (Z.eqb_neq _ _) H). Qed.
Lemma filler_same text size pos c : pos < size -> zget 0 text pos = c -> read_filler text size pos c = (true, pos + 1).
Proof. intros Hs <-. unfold read_filler. by rewrite (proj2 (Z.ltb_lt _ _) Hs), Z.eqb_refl. Qed.
Lemma no_zone fuel text size : forall p, 0 <= p -> size - p <= Z.of_nat fuel -> (forall i, p <= i < size -> is_digit (zget 0 text i) = true) ->
  find_zone fuel text size p = Some (size, 0).
Proof.
  induction fuel as [|fuel IH]; intros p Hp Hf Hd; cbn [find_zone]; destruct (Z.ltb_spec p size); try done; [lia|].
  pose proof (Hd p ltac:(lia)) as Hc. unfold is_digit in Hc.
  assert ((zget 0 text p =? chr "-") = false) as -> by (change (chr "-") with 45; lia).
  assert ((zget 0 text p =? chr "+") = false) as -> by (change (chr "+") with 43; lia).
  assert ((zget 0 text p =? chr "Z") = false) as -> by (change (chr "Z") with 90; lia). cbn [orb].
  apply IH; [lia|lia|]. intros i Hi. apply Hd. lia.
Qed.

Lemma two_digits n : 0 <= n < 100 -> exists a b, two n = [a; b] /\ is_digit a = true /\ is_digit b = true /\ stoi [a; b] = n.
Proof.
  intros H. assert (Hall : forallb (fun n => match two n with [a; b] => is_digit a && is_digit b && (stoi [a; b] =? n) | _ => false end) (zseq 0 100) = true)
    by (vm_compute; done).
  apply (fun Ha => zseq_forall _ 100 n Ha) in Hall; [|lia]. cbv beta in Hall. destruct (two n) as [|a [|b [|]]]; try done.
  apply andb_prop in Hall as [[Ha Hb]%andb_prop E%Z.eqb_eq]. by exists a, b.
Qed.
Lemma two_year n : 1900 <= n < 2400 -> exists a b c d, two n = [a; b; c; d] /\ forallb is_digit [a; b; c; d] = true /\ stoi [a; b; c; d] = n.
Proof.
  intros H. assert (Hall : forallb (fun n => match two (n + 1900) with [a; b; c; d] => forallb is_digit [a; b; c; d] && (stoi [a; b; c; d] =? n + 1900) | _ => false end) (zseq 0 500) = true)
    by (vm_compute; done).
  apply (fun Ha => zseq_forall _ 500 (n - 1900) Ha) in Hall; [|lia]. cbv beta in Hall. replace (n - 1900 + 1900) with n in Hall by lia.
  destruct (two n) as [|a [|b [|c [|d [|]]]]]; try done. apply andb_prop in Hall as [Hd E%Z.eqb_eq]. by exists a, b, c, d.
Qed.
Lemma digit_ne c x : is_digit c = true -> is_digit x = false -> c <> x.
Proof. by intros H1 H2 ->; rewrite H1 in H2. Qed.

Section roundtrip.
Context (atof : bytes -> Z) (Hatof : forall a b, is_digit a = true -> is_digit b = true -> atof [a; b] = stoi [a; b] * INTERNAL_MULTIPLIER).

(** A part of two digits in the text, one after another *)
Ltac digits2 := first [reflexivity | by cbn [forallb andb]; repeat match goal with H : is_digit _ = true |- _ => rewrite H end].

Lemma read_clock text size pos lenient sp h1 h2 m1 m2 s1 s2 :
  size = pos + 6 -> 0 <= pos -> zdrop pos text = [h1; h2; m1; m2; s1; s2] ->
  is_digit h1 = true -> is_digit h2 = true -> is_digit m1 = true -> is_digit m2 = true -> is_digit s1 = true -> is_digit s2 = true ->
  0 <= stoi [h1; h2] -> 0 <= stoi [m1; m2] -> 0 <= stoi [s1; s2] ->
  read_time atof text size pos lenient true sp =
    Some (mk_Split (year sp) (month sp) (day sp) (stoi [h1; h2]) (stoi [m1; m2]) (stoi [s1; s2] * INTERNAL_MULTIPLIER), size).
Proof.
  intros -> Hp Ht H1 H2 M1 M2 S1 S2 Hh Hm Hs.
  assert (Hd : forall k, 0 <= k -> zdrop (pos + k) text = zdrop k [h1; h2; m1; m2; s1; s2]).
  { intros k Hk. by rewrite <- Ht, zdrop_zdrop by lia. }
  assert (Hg : forall k, 0 <= k < 6 -> zget 0 text (pos + k) = zget 0 [h1; h2; m1; m2; s1; s2] k).
  { intros k Hk. rewrite <- Ht. unfold zget, zdrop. rewrite nth_skipn. f_equal. lia. }
  unfold read_time. rewrite (read_part_ok text _ pos 2 [h1; h2]); [|lia|lia|by unfold substr; rewrite Ht|digits2].
  rewrite (proj2 (Z.eqb_neq (stoi [h1; h2]) OT_BAD_DATA)), (proj2 (Z.eqb_neq (stoi [h1; h2]) OT_NO_DATA)) by (unfold OT_BAD_DATA, OT_NO_DATA; lia).
  cbn [orb andb]. rewrite Z.geb_leb, (proj2 (Z.leb_le 0 _)) by done.
  rewrite filler_other by (rewrite Hg by lia; by apply digit_ne).
  rewrite (read_part_ok text _ (pos + 2) 2 [m1; m2]); [|lia|lia|by unfold substr; rewrite Hd by lia|digits2].
  rewrite (proj2 (Z.eqb_neq (stoi [m1; m2]) OT_BAD_DATA)) by (unfold OT_BAD_DATA; lia).
  cbn [orb andb]. rewrite Z.geb_leb, (proj2 (Z.leb_le 0 _)) by done.
  replace (pos + 2 + 2) with (pos + 4) by lia.
  rewrite filler_other by (rewrite Hg by lia; by apply digit_ne).
  replace (pos + 6 - (pos + 4)) with 2 by lia. unfold read_part_f.
  rewrite (proj2 (Z.eqb_neq (pos + 4) _)), (Z.gtb_ltb (pos + 4 + 2)), (proj2 (Z.ltb_ge (pos + 6) _)) by lia.
  change (2 <? 2) with false. cbv zeta iota.
  replace (substr text (pos + 4) 2) with [s1; s2] by (unfold substr; by rewrite Hd by lia).
  cbn [forallb]. rewrite S1, S2, !orb_true_r. cbn [andb negb List.filter].
  assert ((chr "." =? s1) = false) as -> by (apply Z.eqb_neq; intros <-; done).
  assert ((chr "." =? s2) = false) as -> by (apply Z.eqb_neq; intros <-; done).
  change (zlen [] >? 1) with false. cbv iota. rewrite Hatof by done. cbn [with_time year month day hour min sec].
  set (v := stoi [s1; s2]) in *. unfold OT_BAD_DATA, OT_NO_DATA, INTERNAL_MULTIPLIER.
  rewrite (proj2 (Z.eqb_neq (v * 1048576) (-2 * 1048576))), (proj2 (Z.eqb_neq (v * 1048576) (-1 * 1048576))) by lia. cbn [orb andb].
  rewrite Z.geb_leb, (proj2 (Z.leb_le 0 _)) by lia. unfold with_time. cbn [year month day hour min sec]. by replace (pos + 4 + 2) with (pos + 6) by lia.
Qed.

(** The three parts of a date, with [T] after them or not *)
Lemma read_whole lenient (t_sep : bool) y1 y2 y3 y4 a b c d h1 h2 m1 m2 s1 s2 :
  t_sep || lenient = true -> forallb is_digit [y1; y2; y3; y4] = true ->
  is_digit a = true -> is_digit b = true -> is_digit c = true -> is_digit d = true ->
  is_digit h1 = true -> is_digit h2 = true -> is_digit m1 = true -> is_digit m2 = true -> is_digit s1 = true -> is_digit s2 = true ->
  1900 <= stoi [y1; y2; y3; y4] -> 0 <= stoi [a; b] -> 0 <= stoi [c; d] -> 0 <= stoi [h1; h2] -> 0 <= stoi [m1; m2] -> 0 <= stoi [s1; s2] ->
  read_iso atof ([y1; y2; y3; y4] ++ [a; b] ++ [c; d] ++ (if t_sep then str "T" else []) ++ [h1; h2] ++ [m1; m2] ++ [s1; s2]) lenient =
    Some (mk_Split (stoi [y1; y2; y3; y4]) (stoi [a; b]) (stoi [c; d]) (stoi [h1; h2]) (stoi [m1; m2]) (stoi [s1; s2] * INTERNAL_MULTIPLIER), 0).
Proof.
  intros Hl Hy A B C D H1 H2 M1 M2 S1 S2 Hyr Ha Hc Hh Hm Hs.
  set (text := _ ++ _). assert (Hlen : zlen text = if t_sep then 15 else 14) by (by destruct t_sep).
  set (size := zlen text) in *. assert (Hsz : 14 <= size) by (destruct t_sep; lia).
  unfold read_iso. fold size.
  rewrite (read_part_ok text size 0 4 [y1; y2; y3; y4]); [|lia|lia|done|done]. rewrite (proj2 (Z.ltb_ge _ 1900)) by done.
  rewrite filler_other by (change (zget 0 text (0 + 4)) with a; by apply digit_ne).
  rewrite (read_part_ok text size (0 + 4) 2 [a; b]); [|lia|lia|done|by cbn; rewrite A, B]. rewrite (proj2 (Z.ltb_ge _ 0)) by done.
  rewrite filler_other by (change (zget 0 text (0 + 4 + 2)) with c; by apply digit_ne).
  rewrite (read_part_ok text size (0 + 4 + 2) 2 [c; d]); [|lia|lia|done|by cbn; rewrite C, D]. rewrite (proj2 (Z.ltb_ge _ 0)) by done.
  change (0 + 4 + 2 + 2) with 8. clear Hy A B C D.
  assert (Hsp : read_filler text size 8 32 = (false, 8)).
  { apply filler_other. destruct t_sep; [done|]. change (zget 0 text 8) with h1. by apply digit_ne. }
  rewrite Hsp. set (pos := if t_sep then 9 else 8).
  assert (Ht : read_filler text size 8 (chr "T") = (t_sep, pos)).
  { unfold pos. destruct t_sep; [apply filler_same; [lia|done]|]. apply filler_other. change (zget 0 text 8) with h1. by apply digit_ne. }
  rewrite Ht. assert (negb t_sep && negb lenient = false) as -> by (by destruct t_sep, lenient).
  assert (Hd : zdrop pos text = [h1; h2; m1; m2; s1; s2]) by (by destruct t_sep).
  rewrite (no_zone _ text size pos); [|by destruct t_sep|change (Z.of_nat (length text)) with size; unfold pos; destruct t_sep; lia|].
  2:{ intros i Hi. assert (Hi' : 0 <= i - pos < 6) by (unfold pos in *; destruct t_sep; lia).
      replace (zget 0 text i) with (zget 0 [h1; h2; m1; m2; s1; s2] (i - pos)).
      2:{ rewrite <- Hd. unfold zget, zdrop. rewrite nth_skipn. f_equal. unfold pos in *; destruct t_sep; lia. }
      assert (i - pos = 0 \/ i - pos = 1 \/ i - pos = 2 \/ i - pos = 3 \/ i - pos = 4 \/ i - pos = 5) as [-> |[-> |[-> |[-> |[-> | ->]]]]] by lia; done. }
  cbn [mbind option_bind]. rewrite (read_clock text size pos lenient _ h1 h2 m1 m2 s1 s2); try done.
  - cbn [mbind option_bind year month day]. by rewrite Z.eqb_refl.
  - unfold pos. destruct t_sep; lia.
  - unfold pos. by destruct t_sep.
Qed.
End roundtrip.

Lemma date_of_digits (dash : bool) y1 y2 y3 y4 m1 m2 d1 d2 : is_digit m1 = true -> is_digit d1 = true ->
  date_of_text ([y1; y2; y3; y4] ++ sep_text (if dash then chr "-" else 0) ++ [m1; m2] ++ sep_text (if dash then chr "-" else 0) ++ [d1; d2]) =
  combine (mk_Split (stoi [y1; y2; y3; y4]) (stoi [m1; m2]) (stoi [d1; d2]) 0 0 0).
Proof.
  intros Hm Hd. unfold date_of_text. destruct dash; [done|].
  assert (Em : (m1 =? chr "-") = false) by (apply Z.eqb_neq; by apply digit_ne).
  assert (Ed : (d1 =? chr "-") = false) by (apply Z.eqb_neq; by apply digit_ne).
  cbn [sep_text app Z.eqb]. change (zget 0 [y1; y2; y3; y4; m1; m2; d1; d2] 4) with m1. rewrite Em.
  change (zget 0 [y1; y2; y3; y4; m1; m2; d1; d2] (4 + 2)) with d1. by rewrite Ed.
Qed.
Lemma date_year n y m d : Z.of_nat n < CALENDAR_END -> date_of n = (y, m, d) -> 1900 <= y < 2400.
Proof.
  intros Hn E. destruct (date_of_civil n) as (cy & j & Hy & Hj & Ej & Ec). pose proof (civil_year n cy j Hn Hy (proj1 Hj) Ej).
  rewrite E in Ec. unfold civil in Ec. destruct (day_of _ _). injection Ec as -> _ _. lia.
Qed.

(** C26: the minimal ISO text of a stamp of whole seconds before 23:02:24 on 31 December 2027 is read back as that stamp, and so is the numeric text where leniency is asked for, for any [atof] that reads two digits as a number of seconds; and the text of a date, with dashes or without, is read as that date's midnight. *)
Theorem stamp_text_roundtrip (atof : bytes -> Z) (Hatof : forall a b, is_digit a = true -> is_digit b = true -> atof [a; b] = stoi [a; b] * INTERNAL_MULTIPLIER)
    n s : Z.of_nat n < CALENDAR_END -> 0 <= s < DAY -> 0 < Z.of_nat n * DAY + s < 4039282944 ->
  let t := (Z.of_nat n * DAY + s) * INTERNAL_MULTIPLIER in
  of_text atof (iso_minimal t) false = t /\ of_text atof (iso_numeric t) true = t /\
  date_of_text (iso_date 0 t) = Z.of_nat n * DAY * INTERNAL_MULTIPLIER /\
  date_of_text (iso_date (chr "-") t) = Z.of_nat n * DAY * INTERNAL_MULTIPLIER.
Proof.
  intros Hn Hs Ht. cbv zeta. pose proof (split_date n s 0 Hn Hs ltac:(done) (proj2 Ht)) as Hsp.
  pose proof (combine_split_time n s 0 Hn Hs ltac:(done)) as Hc. pose proof (combine_split_time n 0 0 Hn ltac:(done) ltac:(done)) as Hc0.
  destruct (date_of n) as [[y m] d] eqn:E. destruct (date_month n y m d E) as [Hm Hd]. pose proof (date_year n y m d Hn E) as Hy.
  rewrite !Z.add_0_r in Hsp, Hc, Hc0. set (t := (Z.of_nat n * DAY + s) * INTERNAL_MULTIPLIER) in *.
  assert (t <> 0) by (unfold t, INTERNAL_MULTIPLIER; lia).
  assert (Hts : sub_duration t (0 * INTERNAL_MULTIPLIER) = t).
  { unfold sub_duration. replace (t - 0 * INTERNAL_MULTIPLIER) with t by lia. apply wrap_small. unfold in_u, t, INTERNAL_MULTIPLIER. lia. }
  destruct (two_year y Hy) as (y1 & y2 & y3 & y4 & Ey & Dy & Sy).
  destruct (two_digits m ltac:(lia)) as (m1 & m2 & Em & Dm1 & Dm2 & Sm).
  destruct (two_digits d ltac:(lia)) as (d1 & d2 & Ed & Dd1 & Dd2 & Sd).
  pose proof (Z.mod_pos_bound s 60 ltac:(lia)). pose proof (Z.div_mod s 3600 ltac:(lia)). pose proof (Z.mod_pos_bound s 3600 ltac:(lia)).
  pose proof (Z.div_mod (s mod 3600) 60 ltac:(lia)). pose proof (Z.mod_pos_bound (s mod 3600) 60 ltac:(lia)).
  destruct (two_digits (s / HOUR)) as (h1 & h2 & Eh & Dh1 & Dh2 & Sh); [unfold HOUR, DAY in *; lia|].
  destruct (two_digits (s mod HOUR / MINUTE)) as (i1 & i2 & Ei & Di1 & Di2 & Si); [unfold HOUR, MINUTE in *; lia|].
  destruct (two_digits (s mod MINUTE)) as (s1 & s2 & Es & Ds1 & Ds2 & Ss); [unfold MINUTE in *; lia|].
  assert (Hw : whole (s mod MINUTE * INTERNAL_MULTIPLIER) = s mod MINUTE) by (apply Z.div_mul; done).
  assert (Hread : forall lenient (b : bool), b || lenient = true ->
    of_text atof ([y1; y2; y3; y4] ++ [m1; m2] ++ [d1; d2] ++ (if b then str "T" else []) ++ [h1; h2] ++ [i1; i2] ++ [s1; s2]) lenient = t).
  { intros lenient b Hb. unfold of_text. cbn [app]. assert (Hy1 : is_digit y1 = true) by (cbn [forallb] in Dy; by apply andb_prop in Dy as [-> _]).
    rewrite Hy1. pose proof (read_whole atof Hatof lenient b y1 y2 y3 y4 m1 m2 d1 d2 h1 h2 i1 i2 s1 s2 Hb Dy Dm1 Dm2 Dd1 Dd2 Dh1 Dh2 Di1 Di2 Ds1 Ds2) as Hr.
    cbn [app] in Hr. rewrite Hr; try (unfold HOUR, MINUTE, DAY in *; lia). rewrite Sy, Sm, Sd, Sh, Si, Ss. by rewrite Hc, Hts. }
  assert (Hdate : forall b : bool, date_of_text ([y1; y2; y3; y4] ++ sep_text (if b then chr "-" else 0) ++ [m1; m2] ++ sep_text (if b then chr "-" else 0) ++ [d1; d2]) =
    Z.of_nat n * DAY * INTERNAL_MULTIPLIER).
  { intros b. rewrite date_of_digits by done. rewrite Sy, Sm, Sd. rewrite Z.add_0_r in Hc0. exact Hc0. }
  unfold iso_minimal, iso_numeric, iso_date. rewrite (proj2 (Z.eqb_neq t 0)) by done. rewrite Hsp. cbn [year month day hour min sec].
  rewrite Hw, Ey, Em, Ed, Eh, Ei, Es. split_and!.
  - apply (Hread false true). done.
  - apply (Hread true false). done.
  - exact (Hdate false).
  - exact (Hdate true).
Qed.
Lemma stamp_text_roundtrip_witness :
  iso_minimal (combine (mk_Split 1900 3 1 12 30 0)) = str "19000301T123000" /\
  of_text whole_atof (str "19000301T123000") false = combine (mk_Split 1900 3 1 12 30 0).
Proof.
  split; [reflexivity|].
  exact (proj1 (stamp_text_roundtrip whole_atof (fun a b _ _ => eq_refl) 59 45000 ltac:(done) ltac:(done) ltac:(done))).
Defined.
End StampText.
