(* ===== verification/Mime.v ===== *)
(** * MIME headers

    Models [MIMEHeaders] ([src/libs/web/mime-headers.cc], [src/libs/web/ot-web.h]):
    headers as the children of an XML element, read from and written to a stream,
    with continuation lines.  An input stream is the bytes left in it, and whether
    it has failed; [put_date], which asks for the time, is not here. *)
From S2P Require Export PropertyList.

Module Mime.
Import Strings.

Definition MAX_HEADER : Z := 8000.
Definition COLON : Z := 58.
Definition HYPHEN : Z := 45.

Abbreviation smap := (list (bytes * bytes)).

(** ** Streams *)

Record istream := mk_in { left : bytes; fail : bool }.
Definition EOF : Z := -1.
(** [in.get()] and [in.putback(c)], which fails after the end *)
Definition get (i : istream) : Z * istream :=
  if fail i then (EOF, i)
  else match left i with [] => (EOF, mk_in [] true) | c :: l => (c, mk_in l false) end.
Definition putback (c : Z) (i : istream) : istream :=
  if fail i then i else mk_in (c :: left i) false.

(** The loop of [getline]: whether a line was read, the line and the stream; [None] only without fuel *)
Fixpoint getline_loop (fuel : nat) (limit count : Z) (i : istream) (s : bytes) : option (bool * bytes * istream) :=
  if fail i then Some (false, s, i) else
  match fuel with
  | O => None
  | S fuel =>
    let '(c, i) := get i in
    if c =? EOF then Some (false, s, i)
    else if c =? CR then
      let '(c, i) := get i in
      Some (true, s, if negb (c =? EOF) && negb (c =? NL) then putback c i else i)
    else if c =? NL then Some (true, s, i)
    else if count + 1 <? limit then getline_loop fuel limit (count + 1) i (s ++ [c])
    else Some (false, s, i)
  end.
Definition getline (i : istream) : option (bool * bytes * istream) := getline_loop (S (length (left i))) MAX_HEADER 0 i [].

(** ** The headers *)

Definition new_headers : Element := new_Element (str "headers") [].
Definition child (xml : Element) (n : bytes) : option Element := i ← Element.get_child xml n 0; children xml !! i.
Definition has (xml : Element) (n : bytes) : bool := match child xml n with Some _ => true | None => false end.
Definition header (xml : Element) (n : bytes) : bytes := match child xml n with Some e => content e | None => [] end.
Definition put (xml : Element) (n v : bytes) : Element := add xml (new_Element n v).
Definition remove (xml : Element) (n : bytes) : Element := remove_children xml n.
Definition replace (xml : Element) (n v : bytes) : Element := put (remove xml n) n v.

Definition contents (xml : Element) (n : bytes) : list bytes :=
  omap (fun i => content <$> (children xml !! i)) (get_children xml n).
Definition keep (v : bytes) : list bytes := match v with [] => [] | _ => [v] end.
Definition get_all (xml : Element) (n : bytes) : list bytes := flat_map keep (contents xml n).
Fixpoint split_value (fuel : nat) (delimiter : Z) (value : bytes) : option (list bytes) :=
  match find delimiter value 0 with
  | None => Some (keep (canonicalise_space value))
  | Some delim =>
    match fuel with
    | O => None
    | S fuel => l ← split_value fuel delimiter (zdrop (delim + 1) value); Some (keep (canonicalise_space (ztake delim value)) ++ l)
    end
  end.
Definition get_all_splitting (xml : Element) (n : bytes) (delimiter : Z) : option (list bytes) :=
  fold_right (fun v r => l ← split_value (length v) delimiter v; r ← r; Some (l ++ r)) (Some []) (contents xml n).

Definition one : bytes := str "1".
Definition add_parameter (element : bytes) (pl : smap) : smap :=
  match find PropertyList.EQUALS element 0 with
  | None => PropertyList.add element one pl
  | Some eq =>
    let pn := canonicalise_space (ztake eq element) in
    let pv := canonicalise_space (zdrop (eq + 1) element) in
    match pn with [] => pl | _ => PropertyList.add pn pv pl end
  end.
Fixpoint parameters_loop (fuel : nat) (value : bytes) (p : Z) (remaining : bytes) (pl : smap) : option (bytes * smap) :=
  match fuel with
  | O => None
  | S fuel =>
    let semi := find PropertyList.SEMICOLON value p in
    let element := canonicalise_space (match semi with None => zdrop p value | Some s => substr value p (s - p) end) in
    let '(remaining, pl) :=
      match element with
      | [] => (remaining, pl)
      | _ => if p =? 0 then (element, pl) else (remaining, add_parameter element pl)
      end in
    match semi with Some s => parameters_loop fuel value (s + 1) remaining pl | None => Some (remaining, pl) end
  end.
(** The value without its parameters, and the parameters *)
Definition split_parameters (value : bytes) : option (bytes * smap) := parameters_loop (S (length value)) value 0 [] [].

(** ** Reading *)

(** The continuation lines: whether they were read, the value and the stream *)
Fixpoint continue_loop (fuel : nat) (i : istream) (value : bytes) : option (bool * bytes * istream) :=
  match fuel with
  | O => None
  | S fuel =>
    let '(c, i) := get i in
    if (c =? SP) || (c =? TAB) then
      '(ok, extra, i) ← getline i;
      if negb ok then Some (false, value, i)
      else if zlen value + zlen extra >? MAX_HEADER then Some (false, value, i)
      else continue_loop fuel i (value ++ [SP] ++ extra)
    else Some (true, value, putback c i)
  end.
Fixpoint read_loop (fuel : nat) (i : istream) (xml : Element) : option (bool * Element * istream) :=
  if fail i then Some (false, xml, i) else
  match fuel with
  | O => None
  | S fuel =>
    '(ok, line, i) ← getline i;
    if negb ok then Some (false, xml, i) else
    match line with
    | [] => Some (true, xml, i)
    | _ =>
      match find COLON line 0 with
      | Some colon =>
        '(ok, value, i) ← continue_loop (S (length (left i))) i (zdrop (colon + 1) line);
        if negb ok then Some (false, xml, i) else
        let name := tolower (ztake colon line) in
        let value := canonicalise_space value in
        read_loop fuel i (match name, value with _ :: _, _ :: _ => put xml name value | _, _ => xml end)
      | None => read_loop fuel i xml
      end
    end
  end.
Definition read (i : istream) (append : bool) (xml : Element) : option (bool * Element * istream) :=
  read_loop (S (length (left i))) i (if append then xml else clear_children xml).

(** ** Writing, to a stream that does not fail *)

Fixpoint capitals (first : bool) (name : bytes) : bytes :=
  match name with
  | [] => []
  | c :: name => let c := if first then to_upper c else c in c :: capitals (c =? HYPHEN) name
  end.
(** [value.rfind(c, pos)] *)
Definition rfind (c : Z) (value : bytes) (pos : Z) : option Z := find_last (Z.eqb c) (ztake (pos + 1) value).
Definition COMMA : Z := 44.
(** Where to split a value that is too long *)
Definition breakpoint (max_line : Z) (value : bytes) : option Z :=
  let split :=
    match rfind COMMA value max_line with
    | Some s => let c := match char_at value (s + 1) with Some c => c | None => 0 end in
                if negb (c =? SP) && negb (c =? TAB) then None else Some (s + 1)
    | None => None
    end in
  match split with None => rfind SP value max_line | s => s end.
Fixpoint fold_value (fuel : nat) (max_line : Z) (value : bytes) : option bytes :=
  if negb (max_line =? 0) && (zlen value >? max_line) then
    match breakpoint max_line value with
    | Some s =>
      match fuel with
      | O => None
      | S fuel => rest ← fold_value fuel max_line (zdrop (s + 1) value); Some (ztake s value ++ [CR; NL; SP] ++ rest)
      end
    | None => Some (value ++ [CR; NL])
    end
  else Some (value ++ [CR; NL]).
Definition write_header (max_line : Z) (e : Element) : option bytes :=
  v ← fold_value (length (content e)) max_line (content e); Some (capitals true (name e) ++ str ": " ++ v).
Definition write (max_line : Z) (xml : Element) : option bytes :=
  fold_right (fun e r => h ← write_header max_line e; r ← r; Some (h ++ r)) (Some [CR; NL]) (children xml).

Definition input (text : bytes) : istream := mk_in text false.
Example read_folded :
  read (input (str "Content-TYPE: text/html;" ++ [CR; NL; TAB] ++ str " charset=x" ++ [CR; NL] ++ str "X: y" ++ [CR; NL; CR; NL; 1])) false new_headers =
  Some (true, put (put new_headers (str "content-type") (str "text/html; charset=x")) (str "x") (str "y"), input [1]).
Proof. reflexivity. Qed.
Example write_folded : write 10 (put new_headers (str "content-type") (str "a long, long value")) =
  Some (str "Content-Type: a long," ++ [CR; NL; SP] ++ str "long value" ++ [CR; NL; CR; NL]).
Proof. reflexivity. Qed.
Example parameters : split_parameters (str "text/html; charset=ISO-8859-1; pure") =
  Some (str "text/html", [(str "charset", str "ISO-8859-1"); (str "pure", str "1")]).
Proof. reflexivity. Qed.

(* ------------------------------------------------------------------ *)
(** ** The fuel is enough *)

Definition size (i : istream) : nat := length (left i).
Lemma get_size i : let '(c, i') := get i in (size i' <= size i)%nat /\ (fail i = false -> c <> EOF -> (size i = S (size i'))%nat /\ fail i' = false).
Proof. unfold get, size. destruct i as [[|c l] []]; simpl; split; try lia; done. Qed.
Lemma putback_size c i : (size (putback c i) <= S (size i))%nat.
Proof. unfold putback, size. destruct i as [l []]; simpl; lia. Qed.
Lemma getline_ends fuel limit : forall count i s, (size i < fuel)%nat ->
  exists ok s' i', getline_loop fuel limit count i s = Some (ok, s', i') /\ (size i' <= size i)%nat /\ (ok = true -> (size i' < size i)%nat).
Proof.
  induction fuel as [|fuel IH]; intros count i s Hf; [lia|]. cbn [getline_loop].
  destruct i as [[|c l] []]; try (do 3 eexists; split; [reflexivity|]; split; [done|intros; done]); cbn [fail get left].
  unfold size in *. simpl in Hf. destruct (c =? EOF).
  { do 3 eexists. split; [reflexivity|]. simpl. split; [lia|done]. }
  destruct (c =? CR).
  { destruct l as [|d l]; simpl; [do 3 eexists; split; [reflexivity|]; simpl; lia|].
    destruct (negb (d =? EOF) && negb (d =? NL)); do 3 eexists; (split; [reflexivity|]); simpl; lia. }
  destruct (c =? NL); [do 3 eexists; split; [reflexivity|]; simpl; lia|].
  destruct (count + 1 <? limit); [|do 3 eexists; split; [reflexivity|]; simpl; split; [lia|done]].
  destruct (IH (count + 1) (mk_in l false) (s ++ [c])) as (ok & s' & i' & -> & H1 & H2); [simpl; lia|].
  do 3 eexists. split; [reflexivity|]. simpl in *. split; [lia|]. intros Hok. specialize (H2 Hok). lia.
Qed.
Lemma getline_total i : exists ok s' i', getline i = Some (ok, s', i') /\ (size i' <= size i)%nat /\ (ok = true -> (size i' < size i)%nat).
Proof. apply getline_ends. unfold size. lia. Qed.
Lemma continue_ends fuel : forall i value, (size i < fuel)%nat ->
  exists ok v i', continue_loop fuel i value = Some (ok, v, i') /\ (size i' <= size i)%nat.
Proof.
  induction fuel as [|fuel IH]; intros i value Hf; [lia|]. cbn [continue_loop].
  pose proof (get_size i) as Hg. destruct (get i) as [c i1] eqn:E. destruct Hg as [Hle Hlt].
  destruct ((c =? SP) || (c =? TAB)) eqn:Ews.
  - destruct (getline_total i1) as (ok & extra & i2 & -> & H1 & H2). cbn [mbind option_bind].
    assert (Hne : c <> EOF). { intros ->. done. }
    assert (Hfl : fail i = false). { destruct i as [l []]; [|done]. unfold get in E. simpl in E. injection E as <- _. done. }
    destruct (Hlt Hfl Hne) as [Hs _].
    destruct ok; cbn [negb]; [|do 3 eexists; split; [reflexivity|lia]].
    destruct (_ >? _); [do 3 eexists; split; [reflexivity|lia]|].
    destruct (IH i2 (value ++ [SP] ++ extra)) as (ok & v & i' & -> & Hi); [lia|]. do 3 eexists. split; [reflexivity|lia].
  - do 3 eexists. split; [reflexivity|]. destruct (fail i) eqn:Hfl.
    + unfold get in E. rewrite Hfl in E. injection E as <- <-. unfold putback. by rewrite Hfl.
    + destruct (Z.eq_dec c EOF) as [->|Hne].
      * unfold get in E. rewrite Hfl in E. destruct i as [[|d l] ?]; simpl in *; injection E; intros; subst; simpl; unfold size, putback in *; simpl; lia.
      * destruct (Hlt eq_refl Hne) as [Hs _]. pose proof (putback_size c i1). lia.
Qed.
Lemma read_ends fuel : forall i xml, (size i < fuel)%nat -> exists r, read_loop fuel i xml = Some r.
Proof.
  induction fuel as [|fuel IH]; intros i xml Hf; [lia|]. cbn [read_loop]. destruct (fail i); [by eexists|].
  destruct (getline_total i) as (ok & line & i1 & -> & H1 & H2). cbn [mbind option_bind]. destruct ok; cbn [negb]; [|by eexists].
  specialize (H2 eq_refl). destruct line as [|x line]; [by eexists|]. destruct (find COLON (x :: line) 0) as [colon|]; [|apply IH; lia].
  destruct (continue_ends (S (length (left i1))) i1 (zdrop (colon + 1) (x :: line))) as (ok & v & i2 & -> & H3); [unfold size; lia|].
  cbn [mbind option_bind]. destruct ok; cbn [negb]; [|by eexists]. apply IH. lia.
Qed.
Lemma read_total i append xml : exists r, read i append xml = Some r.
Proof. apply read_ends. unfold size. lia. Qed.

(** ** Reading what was written *)

Ltac lists := cbn [app]; rewrite ?app_nil_r; do 4 (rewrite <- ?app_assoc; cbn [app]); reflexivity.

Definition CRLF : bytes := [CR; NL].
(** No character that ends a line, or stands for the end of the stream *)
Definition inline (c : Z) : Prop := c <> CR /\ c <> NL /\ c <> EOF.
(** A text that is a value with line ends before some of its spaces *)
Inductive folded : bytes -> bytes -> Prop :=
  | folded_end v : folded v (v ++ CRLF)
  | folded_at a b t : folded b t -> folded (a ++ SP :: b) (a ++ CRLF ++ SP :: t).

Lemma getline_loop_line fuel limit line rest : forall count s, Forall inline line -> (length line < fuel)%nat -> count + zlen line < limit ->
  getline_loop fuel limit count (input (line ++ CRLF ++ rest)) s = Some (true, s ++ line, input rest).
Proof.
  revert fuel. induction line as [|c line IH]; intros [|fuel] count s Hl Hf Hc; try (simpl in Hf; lia).
  - simpl. by rewrite app_nil_r.
  - apply Forall_cons in Hl as [(H1 & H2 & H3) Hl]. rewrite zlen_cons in Hc. pose proof (zlen_nonneg line). cbn [getline_loop input fail get left app].
    rewrite (proj2 (Z.eqb_neq _ _) H1), (proj2 (Z.eqb_neq _ _) H2), (proj2 (Z.eqb_neq _ _) H3).
    rewrite (proj2 (Z.ltb_lt (count + 1) limit)) by lia. fold (input (line ++ CRLF ++ rest)). rewrite IH by (done || simpl in Hf; lia). by rewrite <- app_assoc.
Qed.
Lemma getline_line line rest : Forall inline line -> zlen line < MAX_HEADER -> getline (input (line ++ CRLF ++ rest)) = Some (true, line, input rest).
Proof.
  intros Hl Hc. unfold getline. rewrite getline_loop_line; [done|done| |done]. unfold input. cbn [left]. rewrite length_app. lia.
Qed.

(** What follows a header: nothing that continues it *)
Definition not_blank (rest : bytes) : Prop := match rest with [] => False | c :: _ => c <> SP /\ c <> TAB end.
Lemma continue_stops fuel rest value : not_blank rest -> continue_loop (S fuel) (input rest) value = Some (true, value, input rest).
Proof.
  destruct rest as [|c rest]; [done|]. intros [H1 H2]. cbn [continue_loop input get fail left].
  by rewrite (proj2 (Z.eqb_neq _ _) H1), (proj2 (Z.eqb_neq _ _) H2).
Qed.
Lemma continue_folded v t rest : folded v t -> not_blank rest -> Forall inline v -> forall fuel value,
  (S (length t) < fuel)%nat -> zlen value + 1 + zlen v <= MAX_HEADER -> 0 < zlen value ->
  continue_loop fuel (input (SP :: t ++ rest)) value = Some (true, value ++ SP :: v, input rest).
Proof.
  intros Hf Hr. induction Hf as [v|a b t Hf IH]; intros Hin [|fuel] value Hfuel Hlen Hpos; try lia; cbn [continue_loop input get fail left];
    change ((SP =? SP) || (SP =? TAB)) with true; cbv iota.
  - rewrite <- app_assoc. change (mk_in (v ++ CRLF ++ rest) false) with (input (v ++ CRLF ++ rest)).
    rewrite getline_line by (done || lia). cbn [mbind option_bind negb]. rewrite Z.gtb_ltb, (proj2 (Z.ltb_ge _ _)) by lia.
    destruct fuel as [|fuel]; [simpl in Hfuel; lia|]. rewrite continue_stops by done. done.
  - apply Forall_app in Hin as [Ha Hb]. apply Forall_cons in Hb as [_ Hb]. rewrite zlen_app, zlen_cons in Hlen. pose proof (zlen_nonneg b). pose proof (zlen_nonneg a).
    replace ((a ++ CRLF ++ SP :: t) ++ rest) with (a ++ CRLF ++ SP :: t ++ rest) by (by rewrite <- app_assoc).
    change (mk_in (a ++ CRLF ++ SP :: t ++ rest) false) with (input (a ++ CRLF ++ SP :: t ++ rest)).
    rewrite getline_line by (done || lia). cbn [mbind option_bind negb]. rewrite Z.gtb_ltb, (proj2 (Z.ltb_ge _ _)) by lia.
    rewrite !length_app in Hfuel. simpl in Hfuel. rewrite IH; [by rewrite <- app_assoc|done|lia| |].
    + rewrite zlen_app. change ([SP] ++ a) with (SP :: a). rewrite zlen_cons. lia.
    + rewrite zlen_app. pose proof (zlen_nonneg ([SP] ++ a)). lia.
Qed.

Lemma folded_split v t : folded v t -> exists a, (t = a ++ CRLF /\ v = a) \/ (exists b t', t = a ++ CRLF ++ SP :: t' /\ v = a ++ SP :: b /\ folded b t').
Proof. intros [w|a b t' H]; eexists; [by left|right]. by do 2 eexists. Qed.
Lemma folded_length v t : folded v t -> (length v < length t)%nat.
Proof. induction 1; rewrite !length_app; simpl in *; rewrite ?length_app in *; simpl in *; lia. Qed.

(** A name and a value that are read back *)
Definition name_ok (n : bytes) : Prop := n <> [] /\ tolower n = n /\ Forall (fun c => inline c /\ c <> COLON /\ c <> SP /\ c <> TAB) n.
Definition value_ok (v : bytes) : Prop := v <> [] /\ canonicalise_space v = v /\ Forall (fun c => inline c /\ c <> TAB) v.
Definition entry_ok (e : Element) : Prop :=
  exists n v, e = new_Element n v /\ name_ok n /\ value_ok v /\ zlen n + 2 + zlen v < MAX_HEADER.

Lemma lower_upper c : to_lower c = c -> to_lower (to_upper c) = c.
Proof.
  intros Hc. unfold to_upper. destruct ((97 <=? c) && (c <=? 122)) eqn:E; [|done]. unfold to_lower.
  assert ((65 <=? c - 32) && (c - 32 <=? 90) = true) as -> by lia. lia.
Qed.
Lemma capitals_lower n : forall b, tolower n = n -> tolower (capitals b n) = n.
Proof.
  induction n as [|c n IH]; intros b H; [done|]. injection H as Hc Hn. cbn [capitals]. unfold tolower in *. cbn [map]. rewrite IH by done. f_equal.
  destruct b; [by apply lower_upper|done].
Qed.
Lemma to_upper_ok c : inline c /\ c <> COLON /\ c <> SP /\ c <> TAB -> inline (to_upper c) /\ to_upper c <> COLON /\ to_upper c <> SP /\ to_upper c <> TAB.
Proof.
  unfold to_upper, inline, CR, NL, EOF, COLON, SP, TAB. destruct (Z.leb_spec 97 c), (Z.leb_spec c 122); cbn [andb]; lia.
Qed.
Lemma capitals_ok n : forall b, Forall (fun c => inline c /\ c <> COLON /\ c <> SP /\ c <> TAB) n ->
  Forall (fun c => inline c /\ c <> COLON /\ c <> SP /\ c <> TAB) (capitals b n).
Proof.
  induction n as [|c n IH]; intros b H; [done|]. apply Forall_cons in H as [Hc Hn]. cbn [capitals]. constructor; [|by apply IH].
  destruct b; [by apply to_upper_ok|done].
Qed.
Lemma capitals_length n : forall b, length (capitals b n) = length n.
Proof. induction n as [|c n IH]; intros b; simpl; [done|]. by rewrite IH. Qed.
Lemma canonical_space v : canonicalise_space (SP :: v) = canonicalise_space v.
Proof.
  rewrite !canonicalise_words. unfold words. cbn [fields]. change (is_ws SP) with true. cbv iota. by rewrite nonempty_cons.
Qed.

Lemma read_header fuel n v t rest xml : name_ok n -> value_ok v -> zlen n + 2 + zlen v < MAX_HEADER -> folded v t -> not_blank rest ->
  read_loop (S fuel) (input (capitals true n ++ str ": " ++ t ++ rest)) xml = read_loop fuel (input rest) (put xml n v).
Proof.
  intros (Hn & Hlow & Hnc) (Hv & Hcan & Hvc) Hlen Hf Hr. pose proof (capitals_ok n true Hnc) as Hcap.
  assert (Hcl : zlen (capitals true n) = zlen n) by (unfold zlen; by rewrite capitals_length).
  pose proof (zlen_nonneg v). pose proof (zlen_nonneg n).
  assert (Hin : Forall inline (capitals true n)) by (eapply Forall_impl; [exact Hcap|]; by intros c [Hc _]).
  assert (Hvin : Forall inline v) by (eapply Forall_impl; [exact Hvc|]; by intros c [Hc _]).
  assert (Hcolon : forall l, find COLON (capitals true n ++ COLON :: l) 0 = Some (zlen n)).
  { intros l. rewrite <- Hcl. unfold find. rewrite zdrop_0, find_first_app; [done| |done].
    eapply Forall_impl; [exact Hcap|]. intros c (_ & Hc & _). apply Z.eqb_neq. congruence. }
  assert (Hgo : forall a l value, getline (input (capitals true n ++ str ": " ++ t ++ rest)) = Some (true, capitals true n ++ COLON :: SP :: a, input l) ->
    value = SP :: v -> continue_loop (S (length l)) (input l) (SP :: a) = Some (true, value, input rest) ->
    read_loop (S fuel) (input (capitals true n ++ str ": " ++ t ++ rest)) xml = read_loop fuel (input rest) (put xml n v)).
  { intros a l value Hg -> Hc. cbn [read_loop input fail]. fold (input (capitals true n ++ str ": " ++ t ++ rest)). rewrite Hg. cbn [mbind option_bind negb].
    assert (Hm : forall X Y : option (bool * Element * istream), match capitals true n ++ COLON :: SP :: a with [] => X | _ => Y end = Y) by (by destruct (capitals true n)).
    rewrite Hm, Hcolon. rewrite <- Hcl, zdrop_past, ztake_app. cbn [input left]. fold (input l). rewrite Hc. cbn [mbind option_bind negb].
    rewrite capitals_lower, canonical_space, Hcan by done. destruct n; [done|]. by destruct v. }
  destruct (folded_split v t Hf) as (a & [[-> ->]|(b & t' & -> & -> & Hf')]).
  - apply (Hgo a rest (SP :: a)); [|done|by apply continue_stops].
    change (str ": ") with [COLON; SP]. replace (capitals true n ++ [COLON; SP] ++ (a ++ CRLF) ++ rest) with ((capitals true n ++ COLON :: SP :: a) ++ CRLF ++ rest) by lists.
    apply getline_line; [|rewrite zlen_app, !zlen_cons; lia].
    apply Forall_app; split; [done|]. constructor; [done|]. by constructor.
  - apply Forall_app in Hvin as [Ha Hb]. apply Forall_cons in Hb as [_ Hb]. rewrite zlen_app, zlen_cons in Hlen. pose proof (zlen_nonneg a). pose proof (zlen_nonneg b).
    apply (Hgo a (SP :: t' ++ rest) (SP :: a ++ SP :: b)); [|done|].
    + change (str ": ") with [COLON; SP].
      replace (capitals true n ++ [COLON; SP] ++ (a ++ CRLF ++ SP :: t') ++ rest) with ((capitals true n ++ COLON :: SP :: a) ++ CRLF ++ SP :: t' ++ rest)
        by lists.
      apply getline_line; [|rewrite zlen_app, !zlen_cons; lia].
      apply Forall_app; split; [done|]. constructor; [done|]. by constructor.
    + rewrite (continue_folded b t' rest Hf' Hr Hb); [done|cbn [length]; rewrite length_app; destruct rest; [done|simpl; lia]|rewrite zlen_cons; lia|rewrite zlen_cons; lia].
Qed.

(** *** Folding *)

Lemma rfind_space c v p i : rfind c v p = Some i -> exists a b, v = a ++ c :: b /\ zlen a = i.
Proof.
  unfold rfind. revert v i. generalize (p + 1) as m. intros m v i H. rewrite <- (ztake_zdrop m v).
  revert i H. induction (ztake m v) as [|x w IH]; intros i; cbn [find_last]; [done|].
  destruct (find_last (Z.eqb c) w) as [j|].
  - intros [= <-]. destruct (IH j eq_refl) as (a & b & E & <-). exists (x :: a), b. cbn [app]. rewrite E, zlen_cons. split; [done|lia].
  - destruct (Z.eqb_spec c x) as [->|]; [|done]. intros [= <-]. exists [], (w ++ zdrop m v). done.
Qed.
Lemma breakpoint_space ml v s : Forall (fun c => inline c /\ c <> TAB) v -> breakpoint ml v = Some s -> exists a b, v = a ++ SP :: b /\ zlen a = s.
Proof.
  intros Hv. unfold breakpoint. destruct (rfind COMMA v ml) as [i|] eqn:E; [|apply rfind_space].
  destruct (rfind_space _ _ _ _ E) as (a & b & -> & <-).
  assert (Hc : char_at (a ++ COMMA :: b) (zlen a + 1) = Some (match b with [] => 0 | x :: _ => x end)).
  { unfold char_at. pose proof (zlen_nonneg a). rewrite zlen_app, zlen_cons. destruct b as [|x b].
    - change (zlen []) with 0. rewrite (proj2 (Z.ltb_ge _ _)), andb_false_r by lia. by rewrite (proj2 (Z.eqb_eq _ _)) by lia.
    - rewrite zlen_cons. pose proof (zlen_nonneg b). rewrite (proj2 (Z.leb_le _ _)), (proj2 (Z.ltb_lt _ _)) by lia. cbn [andb].
      unfold zget. replace (Z.to_nat (zlen a + 1)) with (length a + 1)%nat by (unfold zlen; lia). rewrite app_nth2_plus. done. }
  rewrite Hc. destruct b as [|x b]; [apply rfind_space|]. apply Forall_app in Hv as [_ Hv]. apply Forall_cons in Hv as [_ Hv]. apply Forall_cons in Hv as [[_ Ht] _].
  destruct (Z.eqb_spec x SP) as [->|Hx]; cbn [negb andb].
  - intros [= <-]. exists (a ++ [COMMA]), b. rewrite zlen_app. split; [by rewrite <- app_assoc|done].
  - rewrite (proj2 (Z.eqb_neq _ _) Ht). cbn [negb]. apply rfind_space.
Qed.
Lemma fold_value_folded fuel ml : forall v, Forall (fun c => inline c /\ c <> TAB) v -> (length v <= fuel)%nat -> exists t, fold_value fuel ml v = Some t /\ folded v t.
Proof.
  induction fuel as [|fuel IH]; intros v Hv Hf; cbn [fold_value]; destruct (negb (ml =? 0) && (zlen v >? ml)); try (eexists; split; [reflexivity|constructor]);
    (destruct (breakpoint ml v) as [s|] eqn:E; [|eexists; split; [reflexivity|constructor]]);
    destruct (breakpoint_space ml v s Hv E) as (a & b & -> & <-); rewrite length_app in Hf; simpl in Hf; [lia|].
  apply Forall_app in Hv as [Ha Hb]. apply Forall_cons in Hb as [_ Hb]. rewrite zdrop_past, ztake_app.
  destruct (IH b Hb) as (t & -> & Ht); [lia|]. cbn [mbind option_bind]. eexists. split; [reflexivity|]. by apply (folded_at a b t).
Qed.

Definition write_all (ml : Z) (l : list Element) : option bytes :=
  fold_right (fun e r => h ← write_header ml e; r ← r; Some (h ++ r)) (Some [CR; NL]) l.
Lemma read_all ml rest : forall l, Forall entry_ok l -> exists text, write_all ml l = Some text /\ not_blank text /\ (length l < length text)%nat /\
  forall fuel xml, (length l < fuel)%nat -> read_loop fuel (input (text ++ rest)) xml = Some (true, with_children xml (children xml ++ l), input rest).
Proof.
  induction 1 as [|e l (n & v & -> & Hn & Hv & Hlen) _ (text & Ht & Hb & Hl & IH)].
  - exists CRLF. split_and!; [done|done|simpl; lia|]. intros [|fuel] xml Hf; [lia|]. simpl. rewrite app_nil_r. by destruct xml.
  - destruct (fold_value_folded (length v) ml v (proj2 (proj2 Hv)) ltac:(lia)) as (t & Et & Hf).
    exists ((capitals true n ++ str ": " ++ t) ++ text). cbn [write_all fold_right]. fold (write_all ml l). unfold write_header. cbn [content name new_Element].
    rewrite Et. cbn [mbind option_bind]. rewrite Ht. cbn [mbind option_bind]. split_and!; [done| | |].
    + destruct Hn as (Hne & _ & Hc). pose proof (capitals_ok n true Hc) as Hcap. destruct n as [|c n]; [done|]. cbn [capitals app not_blank] in *.
      apply Forall_cons in Hcap as [(_ & _ & H1 & H2) _]. done.
    + rewrite !length_app. simpl length. lia.
    + intros [|fuel] xml Hfuel; [simpl in Hfuel; lia|]. rewrite <- !app_assoc. rewrite (read_header fuel n v t); [|done|done|done|done|by destruct text].
      rewrite IH by (simpl in Hfuel; lia). unfold put, Element.add, with_children. destruct xml as [xn xc xa xl xk]. simpl. by rewrite <- app_assoc.
Qed.

(** C29: headers that are written, folded at any width or not, are read back as they were, up to the body, if their names are in lower case and hold no white space or colon, their values are in canonical form, and none is too long; and reading ends for any input. *)
Theorem mime_roundtrip ml l : Forall entry_ok l -> exists text, write ml (with_children new_headers l) = Some text /\
  (forall rest, read (input (text ++ rest)) false new_headers = Some (true, with_children new_headers l, input rest)) /\
  (forall i append xml, exists r, read i append xml = Some r).
Proof.
  intros Hl. destruct (read_all ml [] l Hl) as (text & Ht & _ & Hlen & _). exists text. split; [done|]. split; [|apply read_total].
  intros rest. destruct (read_all ml rest l Hl) as (text' & Ht' & _ & _ & H). rewrite Ht in Ht'. injection Ht' as <-.
  unfold read. rewrite H; [done|]. cbn [input left]. rewrite length_app. lia.
Qed.
Lemma mime_roundtrip_witness : exists text,
  write 10 (with_children new_headers [new_Element (str "content-type") (str "a long, long value")]) = Some text /\
  read (input (text ++ [1; 2])) false new_headers =
    Some (true, with_children new_headers [new_Element (str "content-type") (str "a long, long value")], input [1; 2]).
Proof.
  destruct (mime_roundtrip 10 [new_Element (str "content-type") (str "a long, long value")]) as (text & Hw & Hr & _).
  - constructor; [|constructor]. eexists _, _. split; [reflexivity|]. split_and!; try (by vm_compute); repeat constructor; vm_compute; done.
  - exists text. split; [exact Hw|apply Hr].
Defined.
End Mime.
