(* ===== verification/Http.v ===== *)
(** * HTTP messages

    Models [HTTPMessage] ([src/libs/web/http-message.cc], [src/libs/web/ot-web.h]):
    requests and responses read from and written to a stream, with bodies of a
    given length, in chunks or up to the end; and the cookies of a server.  JSON web
    tokens are not modelled; the RFC 822 text of a time is a parameter. *)
From S2P Require Export Mime Url.

Module Http.
Import Strings Mime.

Definition READ_SIZE : Z := 4096.
Definition DOLLAR : Z := 36.

Record HTTPMessage := mk_message {
  method : bytes; url : bytes; code : Z; reason : bytes; version : bytes; headers : Element; body : bytes }.
Definition with_method (m : HTTPMessage) (x : bytes) := mk_message x (url m) (code m) (reason m) (version m) (headers m) (body m).
Definition with_code (m : HTTPMessage) (x : Z) := mk_message (method m) (url m) x (reason m) (version m) (headers m) (body m).
Definition with_headers (m : HTTPMessage) (x : Element) := mk_message (method m) (url m) (code m) (reason m) (version m) x (body m).
Definition with_body (m : HTTPMessage) (x : bytes) := mk_message (method m) (url m) (code m) (reason m) (version m) (headers m) x.

(** ** Reading *)

(** The same loop as that of [MIMEHeaders::getline], but a dollar that comes first is a line *)
Definition get_first_line (i : istream) : option (bool * bytes * istream) :=
  let '(c, i') := get i in
  if negb (fail i) && (c =? DOLLAR) then Some (true, [c], i') else getline i.
(** Blank lines are skipped. *)
Fixpoint first_line (fuel : nat) (i : istream) : option (bool * bytes * istream) :=
  match fuel with
  | O => None
  | S fuel =>
    '(ok, line, i) ← get_first_line i;
    if negb ok then Some (false, line, i)
    else match line with [] => first_line fuel i | _ => Some (true, line, i) end
  end.

(** [in.read(buf, n)] and [in.gcount()]: the bytes read; the stream fails if there are fewer. *)
Definition read_bytes (n : Z) (i : istream) : bytes * istream :=
  if fail i then ([], i)
  else if zlen (left i) <? n then (left i, mk_in [] true) else (ztake n (left i), mk_in (zdrop n (left i)) false).
(** The loop that reads a body of [length] bytes, or up to the end if that is 0 *)
Fixpoint body_loop (fuel : nat) (length count : Z) (i : istream) (body : bytes) : option (bytes * istream) :=
  if negb (fail i) && ((length =? 0) || (count <? length)) then
    match fuel with
    | O => None
    | S fuel =>
      let wanted := if negb (length =? 0) && (length - count <? READ_SIZE) then length - count else READ_SIZE in
      let '(buf, i) := read_bytes wanted i in
      body_loop fuel length (count + zlen buf) i (body ++ buf)
    end
  else Some (body, i).
Definition read_body (length : Z) (i : istream) (body : bytes) : option (bytes * istream) :=
  body_loop (S (List.length (left i))) length 0 i body.

Definition read_headers (i : istream) (m : HTTPMessage) : option (bool * HTTPMessage * istream) :=
  '(ok, line, i) ← first_line (S (S (length (left i)))) i;
  if negb ok then Some (false, m, i) else
  if bool_decide (line = [DOLLAR]) then
    let m := with_method m [DOLLAR] in
    let '(c, i) := get i in
    let m := with_code m c in
    if c =? EOF then Some (false, m, i) else
    let '(c1, i) := get i in
    let '(c2, i) := get i in
    if (c1 =? EOF) || (c2 =? EOF) then Some (false, m, i) else
    let length := u16 (Z.shiftl c1 8 + c2) in
    '(b, i) ← (if length =? 0 then Some ([], i) else read_body length i []);
    Some (true, mk_message (method m) [] (code m) [] [] (headers m) b, i)
  else
  match find SP line 0 with
  | None => Some (false, m, i)
  | Some sp1 =>
    let first := ztake sp1 line in
    let response := match find 47 first 0 with Some _ => true | None => false end in
    match find SP line (sp1 + 1) with
    | None =>
      let m := if response then mk_message (method m) (url m) (code m) (reason m) first (headers m) (body m) else with_method m first in
      Some (false, m, i)
    | Some sp2 =>
      let word := substr line (sp1 + 1) (sp2 - sp1 - 1) in
      let last := zdrop (sp2 + 1) line in
      let m := if response then mk_message [] [] (stoi word) last first (headers m) (body m)
               else mk_message first word 0 [] last (headers m) (body m) in
      '(ok, h, i) ← Mime.read i false (headers m);
      Some (ok, with_headers m h, i)
    end
  end.

Definition CONTENT_LENGTH : bytes := str "content-length".
Definition TRANSFER_ENCODING : bytes := str "transfer-encoding".
Definition CHUNKED : bytes := str "chunked".

(** The loop over the chunks: whether they were read, the body and the stream *)
Fixpoint chunk_loop (fuel : nat) (read_to_eof : bool) (i : istream) (body : bytes) : option (bool * bytes * istream) :=
  match fuel with
  | O => None
  | S fuel =>
    '(ok, line, i) ← getline i;
    if negb ok then Some (false, body, i) else
    '(ok, line, i) ← match line with [] => getline i | _ => Some (true, line, i) end;
    if negb ok then Some (false, body, i) else
    bits ← Strings.split line PropertyList.SEMICOLON true 0;
    let length := i32 (xtoi (default [] (head bits))) in
    if length =? 0 then Some (true, body, i) else
    '(body, i) ← read_body length i body;
    chunk_loop fuel read_to_eof i body
  end.

Definition read (i : istream) (read_to_eof : bool) (m : HTTPMessage) : option (bool * HTTPMessage * istream) :=
  '(ok, m, i) ← read_headers i m;
  if negb ok then Some (false, m, i) else
  if bool_decide (method m = [DOLLAR]) then Some (true, m, i) else
  let read_to_eof := if negb (bool_decide (method m = str "POST")) && negb (bool_decide (method m = [])) then false else read_to_eof in
  let length := stoi (header (headers m) CONTENT_LENGTH) in
  let chunked := bool_decide (tolower (header (headers m) TRANSFER_ENCODING) = CHUNKED) in
  if chunked then
    '(ok, b, i) ← chunk_loop (S (List.length (left i))) read_to_eof i [];
    if negb ok then Some (false, with_body m b, i) else
    '(_, h, i) ← Mime.read i true (headers m);
    Some (true, with_headers (with_body m b) h, i)
  else
    '(b, i) ← (if negb (length =? 0) || read_to_eof then read_body length i [] else Some ([], i));
    Some (true, with_body m b, i).

(** ** Writing, to a stream that does not fail *)

Definition start_line (m : HTTPMessage) : bytes :=
  match method m with
  | [] => version m ++ str " " ++ itos (code m) ++ str " " ++ reason m
  | _ => method m ++ str " " ++ url m ++ str " " ++ version m
  end ++ CRLF.
Definition length_line (m : HTTPMessage) : bytes :=
  if negb (has (headers m) (str "Content-Length")) && negb (has (headers m) CONTENT_LENGTH) &&
     negb (bool_decide (header (headers m) (str "Transfer-Encoding") = CHUNKED))
  then str "Content-Length: " ++ i64tos (zlen (body m)) ++ CRLF else [].
Definition write_headers (max_line : Z) (m : HTTPMessage) : option bytes :=
  h ← Mime.write max_line (headers m); Some (start_line m ++ length_line m ++ h).
Definition write (max_line : Z) (m : HTTPMessage) (headers_only : bool) : option bytes :=
  h ← write_headers max_line m;
  Some (h ++ if headers_only then []
             else if bool_decide (method m = [DOLLAR]) then str "[Binary data, " ++ i64tos (zlen (body m)) ++ str " bytes]" ++ [NL]
             else body m).

(** ** Cookies of a server *)

Definition set_cookie (rfc822 : Z -> bytes) (n v path domain : bytes) (expires : Z) (secure http_only : bool) (m : HTTPMessage) : HTTPMessage :=
  with_headers m (put (headers m) (str "set-cookie")
    (Url.encode n false ++ str "=" ++ Url.encode v false ++
     (if expires =? 0 then [] else str "; Expires=" ++ rfc822 expires) ++
     (match domain with [] => [] | _ => str "; Domain=" ++ domain end) ++
     (match path with [] => [] | _ => str "; Path=" ++ path end) ++
     (if secure then str "; Secure" else []) ++ (if http_only then str "; HttpOnly" else []))).
(** The third argument of [split] is whether to canonicalise: there is no limit to the number of fields. *)
Definition cookie_pair (values : smap) (q : bytes) : option smap :=
  bits ← Strings.split q PropertyList.EQUALS true 0;
  Some match bits with
  | [n; v] => map_set (canonicalise_space n) (canonicalise_space v) values
  | _ => values
  end.
Definition get_cookies (m : HTTPMessage) (values : smap) : option smap :=
  fold_left (fun values hdr =>
    values ← values; pairs ← Strings.split hdr PropertyList.SEMICOLON true 0;
    fold_left (fun values q => values ← values; cookie_pair values q) pairs (Some values))
    (get_all (headers m) (str "cookie")) (Some values).
Definition get_cookie (n : bytes) (m : HTTPMessage) : option bytes :=
  values ← get_cookies m []; Some (default [] (map_find n values)).

Definition new_message : HTTPMessage := mk_message [] [] 0 [] [] new_headers [].
Definition crlf (s : bytes) : bytes := s ++ CRLF.
Example read_get : read (input (crlf (str "GET /x HTTP/1.0") ++ crlf (str "Host: y") ++ CRLF ++ [1])) true new_message =
  Some (true, mk_message (str "GET") (str "/x") 0 [] (str "HTTP/1.0") (put new_headers (str "host") (str "y")) [], input [1]).
Proof. reflexivity. Qed.
Example read_chunked : read (input (crlf (str "HTTP/1.1 200 Fine then") ++ crlf (str "Transfer-Encoding: chunked") ++ CRLF ++
    crlf (str "3;x") ++ crlf (str "abc") ++ crlf (str "a") ++ crlf (str "0123456789") ++ crlf (str "0") ++ crlf (str "X: y") ++ CRLF ++ [1])) true new_message =
  Some (true, mk_message [] [] 200 (str "Fine then") (str "HTTP/1.1") (put (put new_headers TRANSFER_ENCODING CHUNKED) (str "x") (str "y")) (str "abc0123456789"), input [1]).
Proof. reflexivity. Qed.
(** A message that came in chunks keeps the header that says so, in lower case, which [write_headers] does not see: it is written with a length. *)
Example write_was_chunked : write 0 (mk_message (str "POST") (str "/") 0 [] (str "HTTP/1.1") (put new_headers TRANSFER_ENCODING CHUNKED) (str "abc")) false =
  Some (crlf (str "POST / HTTP/1.1") ++ crlf (str "Content-Length: 3") ++ crlf (str "Transfer-Encoding: chunked") ++ CRLF ++ str "abc").
Proof. reflexivity. Qed.
(** A cookie with an equals sign in its value is lost. *)
Example cookie_equals : get_cookie (str "a") (with_headers new_message (put new_headers (str "cookie") (str "a=b=c; d=e"))) = Some [] /\
  get_cookie (str "d") (with_headers new_message (put new_headers (str "cookie") (str "a=b=c; d=e"))) = Some (str "e").
Proof. split; reflexivity. Qed.

(** ** Parts of the stream *)

Lemma digit_plain base n : 1 < base <= 36 -> Forall (fun c => inline c /\ c <> TAB /\ is_ws c = false /\ c <> PropertyList.SEMICOLON) (print_base base n).
Proof.
  intros Hb. destruct (print_base_text base n (proj1 Hb)) as [_ H]. eapply Forall_impl; [exact H|].
  intros c (d & Hd & ->). pose proof (digit_char_range d ltac:(lia)). unfold inline, CR, NL, EOF, TAB, PropertyList.SEMICOLON, is_ws, SP, TAB, CR, NL in *. split_and!; lia.
Qed.
Lemma print_nonempty base n : 1 < base -> print_base base n <> [].
Proof. intros Hb. by destruct (print_base_text base n Hb) as [H _]. Qed.
Lemma canonical_word w : w <> [] -> Forall (fun c => is_ws c = false) w -> canonicalise_space w = w.
Proof. intros Hne Hw. rewrite canonicalise_words. change w with (join SP [w]) at 1. rewrite words_join; [done|]. by constructor. Qed.
Lemma canonical_print base n : 1 < base <= 36 -> canonicalise_space (print_base base n) = print_base base n.
Proof.
  intros Hb. apply canonical_word; [apply print_nonempty; lia|]. eapply Forall_impl; [by apply digit_plain|]. by intros c (_ & _ & H & _).
Qed.
Lemma stoi_print n : 0 <= n < 2 ^ 31 -> stoi (i64tos n) = n.
Proof.
  intros Hn. pose proof (stoi_itos n) as H. unfold itos in H. rewrite (proj2 (Z.ltb_ge n 0)) in H by lia. apply H. unfold in_s. lia.
Qed.

Lemma body_loop_ok length s : forall fuel count body, (List.length s < fuel)%nat -> 0 <= count -> (0 < length -> count <= length) ->
  body_loop fuel length count (input s) body = Some
   (if length <? 0 then (body, input s)
    else if (length =? 0) || (zlen s <? length - count) then (body ++ s, mk_in [] true)
    else (body ++ ztake (length - count) s, input (zdrop (length - count) s))).
Proof.
  intros fuel. revert s. induction fuel as [|fuel IH]; intros s count body Hf Hc Hl; [lia|]. pose proof (zlen_nonneg s).
  cbn [body_loop input fail negb andb]. destruct (Z.ltb_spec length 0).
  { rewrite (proj2 (Z.eqb_neq _ _)), (proj2 (Z.ltb_ge count length)) by lia. done. }
  destruct (Z.eqb_spec length 0) as [->|Hne]; cbn [negb andb orb].
  - unfold read_bytes. cbn [input fail left]. destruct (Z.ltb_spec (zlen s) READ_SIZE) as [Hs|Hs].
    { destruct fuel; done. }
    change (mk_in (zdrop READ_SIZE s) false) with (input (zdrop READ_SIZE s)).
    rewrite IH; [|unfold zdrop, READ_SIZE in *; rewrite length_drop; unfold zlen in *; lia|pose proof (zlen_nonneg (ztake READ_SIZE s)); lia|lia].
    cbn [Z.ltb Z.compare Z.eqb orb]. by rewrite <- app_assoc, ztake_zdrop.
  - destruct (Z.ltb_spec count length) as [Hlt|Hge].
    2: { replace (length - count) with 0 by lia. rewrite (proj2 (Z.ltb_ge _ _)), ztake_0, zdrop_0, app_nil_r by lia. done. }
    unfold read_bytes. cbn [input fail left]. set (wanted := if length - count <? READ_SIZE then length - count else READ_SIZE).
    assert (Hw : 0 < wanted <= length - count) by (unfold wanted, READ_SIZE; destruct (Z.ltb_spec (length - count) 4096); lia).
    destruct (Z.ltb_spec (zlen s) wanted) as [Hs|Hs].
    { rewrite (proj2 (Z.ltb_lt (zlen s) (length - count))) by lia. destruct fuel; done. }
    assert (Hz : zlen (ztake wanted s) = wanted) by (rewrite zlen_ztake; lia). rewrite Hz.
    change (mk_in (zdrop wanted s) false) with (input (zdrop wanted s)).
    rewrite IH; [|unfold zdrop; rewrite length_drop; unfold zlen in *; lia|lia|lia].
    cbn [orb].
    rewrite zlen_zdrop by lia. replace (length - (count + wanted)) with (length - count - wanted) by lia.
    destruct (Z.ltb_spec (zlen s) (length - count)).
    + rewrite (proj2 (Z.ltb_lt _ _)) by lia. by rewrite <- app_assoc, ztake_zdrop.
    + rewrite (proj2 (Z.ltb_ge _ _)) by lia. rewrite <- app_assoc. f_equal. f_equal; f_equal.
      * rewrite <- ztake_add by lia. f_equal. lia.
      * rewrite zdrop_zdrop by lia. f_equal. lia.
Qed.

(** ** The first line *)

Definition no (c : Z) (s : bytes) : Prop := Forall (fun x => (c =? x) = false) s.
Definition word_ok (s : bytes) : Prop := Forall inline s /\ no SP s.
Definition request_ok (m : HTTPMessage) : Prop :=
  method m <> [] /\ word_ok (method m) /\ no 47 (method m) /\ word_ok (url m) /\ Forall inline (version m) /\ code m = 0 /\ reason m = [].
Definition response_ok (m : HTTPMessage) : Prop :=
  method m = [] /\ url m = [] /\ word_ok (version m) /\ (exists a b, version m = a ++ 47 :: b /\ no 47 a) /\ in_s 32 (code m) /\ Forall inline (reason m).
Definition start_ok (m : HTTPMessage) : Prop :=
  (request_ok m \/ response_ok m) /\ head (start_line m) <> Some DOLLAR /\ zlen (start_line m) < MAX_HEADER.

Lemma first_line_line fuel line rest : line <> [] -> head line <> Some DOLLAR -> Forall inline line -> zlen line < MAX_HEADER ->
  first_line (S fuel) (input (line ++ CRLF ++ rest)) = Some (true, line, input rest).
Proof.
  intros Hne Hd Hin Hlen. destruct line as [|c line]; [done|]. cbn [first_line]. unfold get_first_line.
  assert (get (input ((c :: line) ++ CRLF ++ rest)) = (c, input (line ++ CRLF ++ rest))) as -> by done. cbn [input fail negb andb].
  destruct (Z.eqb_spec c DOLLAR) as [->|]; [done|]. rewrite getline_line by done. done.
Qed.
Lemma itos_word i : word_ok (itos i).
Proof.
  unfold itos. assert (Hp : forall n, word_ok (print_base 10 n)).
  { intros n. pose proof (digit_plain 10 n ltac:(lia)) as H. split; (eapply Forall_impl; [exact H|]); [by intros c [Hc _]|].
    intros c (_ & _ & Hc & _). by apply is_ws_SP. }
  destruct (i <? 0); [|done]. destruct (Hp (- i)) as [H1 H2]. split; constructor; try done.
Qed.

(** What [read_headers] does after the first line *)
Definition then_headers (m m0 : HTTPMessage) (i : istream) : option (bool * HTTPMessage * istream) :=
  '(ok, h, i) ← Mime.read i false (headers m0);
  Some (ok, mk_message (method m) (url m) (code m) (reason m) (version m) h (body m0), i).

Lemma read_start m m0 rest : start_ok m -> read_headers (input (start_line m ++ rest)) m0 = then_headers m m0 (input rest).
Proof.
  intros (Hm & Hd & Hlen). unfold then_headers.
  assert (Hgo : forall a b c, start_line m = (a ++ SP :: b ++ SP :: c) ++ CRLF -> a <> [] -> word_ok a -> word_ok b -> Forall inline c ->
    read_headers (input (start_line m ++ rest)) m0 =
    let m := match find 47 a 0 with Some _ => mk_message [] [] (stoi b) c a (headers m0) (body m0) | None => mk_message a b 0 [] c (headers m0) (body m0) end in
    '(ok, h, i) ← Mime.read (input rest) false (headers m0); Some (ok, with_headers m h, i)).
  { intros a b c E Hne [Ha1 Ha2] [Hb1 Hb2] Hc. unfold read_headers. rewrite E in *. clear E.
    set (line := a ++ SP :: b ++ SP :: c) in *.
    assert (Hin : Forall inline line). { unfold line. apply Forall_app; split; [done|]. constructor; [done|]. apply Forall_app; split; [done|]. by constructor. }
    replace ((line ++ CRLF) ++ rest) with (line ++ CRLF ++ rest) by lists.
    assert (Hl : line <> []) by (unfold line; by destruct a).
    rewrite first_line_line; [|done|unfold line in *; by destruct a|done|rewrite zlen_app in Hlen; pose proof (zlen_nonneg CRLF); lia].
    cbn [mbind option_bind negb]. rewrite bool_decide_false by (intros E; apply (f_equal (@length Z)) in E; unfold line in E; rewrite length_app in E; simpl in E; rewrite length_app in E; simpl in E; destruct a; [done|simpl in E; lia]).
    rewrite (Url.find_eq SP line [] a (b ++ SP :: c) 0) by done. rewrite Z.add_0_l.
    assert (ztake (zlen a) line = a) as -> by apply ztake_app.
    rewrite (Url.find_eq SP line (a ++ [SP]) b c (zlen a + 1)); [|unfold line; lists|by rewrite zlen_app|done].
    rewrite (Url.substr_eq line (a ++ [SP]) b (SP :: c)); [|unfold line; lists|by rewrite zlen_app|lia].
    rewrite (Url.zdrop_eq line (a ++ SP :: b ++ [SP]) c); [|unfold line; lists|].
    2: { rewrite zlen_app, zlen_cons, zlen_app. change (zlen [SP]) with 1. lia. }
    by destruct (find 47 a 0). }
  destruct Hm as [(Hne & Hw & Hs & Hu & Hv & Hc & Hr)|(Hme & Hu & Hv & (a & b & Ev & Ha) & Hc & Hr)].
  - rewrite (Hgo (method m) (url m) (version m)); [|unfold start_line; destruct (method m); [done|]; change (str " ") with [SP]; lists|done|done|done|done].
    rewrite (Url.find_none_eq 47 (method m) [] (method m) 0) by done. cbn zeta. unfold with_headers. cbn. by rewrite Hc, Hr.
  - rewrite (Hgo (version m) (itos (code m)) (reason m)); [|unfold start_line; rewrite Hme; change (str " ") with [SP]; lists|by rewrite Ev; destruct a|done|apply itos_word|done].
    rewrite (Url.find_eq 47 (version m) [] a b 0) by done. cbn zeta. unfold with_headers. cbn. by rewrite Hme, Hu, stoi_itos.
Qed.

(** ** Headers *)

Definition plain (l : list Element) : Prop := Forall (fun e => name e <> CONTENT_LENGTH /\ name e <> TRANSFER_ENCODING) l.
Lemma child_list l n : child (with_children new_headers l) n = List.find (fun c => key_eqb (name c) n) l.
Proof. apply (Url.child_find (with_children new_headers l)). Qed.
Lemma child_other l n : Forall (fun e => name e <> n) l -> child (with_children new_headers l) n = None.
Proof.
  intros H. rewrite child_list. induction H as [|e l He _ IH]; [done|]. cbn [List.find]. by destruct (key_eqb_spec (name e) n).
Qed.
Lemma child_upper l n : Forall entry_ok l -> tolower n <> n -> child (with_children new_headers l) n = None.
Proof.
  intros H Hn. apply child_other. eapply Forall_impl; [exact H|]. intros e (x & v & -> & (_ & Hx & _) & _) <-. done.
Qed.

Lemma read_written l text rest h ml append : Forall entry_ok l -> Mime.write ml (with_children new_headers l) = Some text ->
  Mime.read (input (text ++ rest)) append h = Some (true, with_children h ((if append then children h else []) ++ l), input rest).
Proof.
  intros Hl Hw. destruct (read_all ml rest l Hl) as (text' & Ht & _ & Hlen & H). unfold Mime.write in Hw. cbn [children with_children new_headers] in Hw.
  fold (write_all ml l) in Hw. rewrite Ht in Hw. injection Hw as <-.
  unfold Mime.read. rewrite H by (cbn [input left]; rewrite length_app; lia). by destruct append.
Qed.

Lemma digits_length fuel base : forall n acc, (length (digits_fuel fuel base n acc) <= fuel + length acc)%nat.
Proof.
  induction fuel as [|fuel IH]; intros n acc; cbn [digits_fuel]; [lia|]. destruct (n =? 0); [lia|].
  specialize (IH (n / base) (n mod base :: acc)). cbn [length] in IH. lia.
Qed.
Lemma printed_length base n : zlen (print_base base n) <= 64.
Proof.
  unfold print_base. destruct (n =? 0); [done|]. unfold zlen. rewrite length_map. pose proof (digits_length 64 base n []) as H. unfold digits. cbn [length] in H. lia.
Qed.
Lemma content_length_ok n : 0 <= n < 2 ^ 31 -> entry_ok (new_Element CONTENT_LENGTH (i64tos n)).
Proof.
  intros Hn. exists CONTENT_LENGTH, (i64tos n). split; [done|]. pose proof (digit_plain 10 n ltac:(lia)) as Hd. split_and!.
  - split_and!; [done|done|]. repeat constructor; vm_compute; done.
  - split_and!; [by apply print_nonempty|by apply canonical_print|]. eapply Forall_impl; [exact Hd|]. by intros c (H1 & H2 & _).
  - pose proof (printed_length 10 n). unfold i64tos. cbv delta [MAX_HEADER]. change (zlen CONTENT_LENGTH) with 14. lia.
Qed.

(** ** Reading what was written *)

(** Whether a message without a length would be read to the end *)
Definition to_eof (m : HTTPMessage) (eof : bool) : bool := eof && (bool_decide (method m = str "POST") || bool_decide (method m = [])).
Lemma start_method m : start_ok m -> method m <> [DOLLAR].
Proof. intros (_ & H & _) E. apply H. unfold start_line. by rewrite E. Qed.

(** [read], once the headers have been read *)
Lemma read_after m h eof s i : start_ok m -> Mime.read (input s) false new_headers = Some (true, h, i) ->
  read (input (start_line m ++ s)) eof new_message =
    let m' := mk_message (method m) (url m) (code m) (reason m) (version m) h [] in
    if bool_decide (tolower (header h TRANSFER_ENCODING) = CHUNKED) then
      '(ok, b, i) ← chunk_loop (S (List.length (left i))) (to_eof m eof) i [];
      if negb ok then Some (false, with_body m' b, i) else
      '(_, h, i) ← Mime.read i true h; Some (true, with_headers (with_body m' b) h, i)
    else let length := stoi (header h CONTENT_LENGTH) in
      '(b, i) ← (if negb (length =? 0) || to_eof m eof then read_body length i [] else Some ([], i));
      Some (true, with_body m' b, i).
Proof.
  intros Hm Hr. unfold read. rewrite read_start by done. unfold then_headers. cbn [headers body new_message] in *. rewrite Hr. cbn [mbind option_bind negb method headers].
  rewrite bool_decide_false by (by apply start_method). cbv zeta.
  assert ((if negb (bool_decide (method m = str "POST")) && negb (bool_decide (method m = [])) then false else eof) = to_eof m eof) as ->.
  { unfold to_eof. by destruct (bool_decide (method m = str "POST")), (bool_decide (method m = [])), eof. }
  done.
Qed.

(** C27: a message that is written with its body is read back with the same first line, the length of the body ahead of its headers, and the body, up to what follows, if the parts of its first line are free of the characters that end them, its headers can be read back, with none for the length or the encoding, and its body is shorter than 2^31; an empty body is read to the end where that is allowed. *)
Theorem http_roundtrip ml m l eof : start_ok m -> headers m = with_children new_headers l -> Forall entry_ok l -> plain l ->
  zlen (body m) < 2 ^ 31 -> exists text, write ml m false = Some text /\ forall rest,
    read (input (text ++ rest)) eof new_message =
      let m' := with_headers m (with_children new_headers (new_Element CONTENT_LENGTH (i64tos (zlen (body m))) :: l)) in
      Some (if bool_decide (body m = []) && to_eof m eof then (true, with_body m' rest, mk_in [] true) else (true, m', input rest)).
Proof.
  intros Hm Hh Hl Hp Hb. pose proof (zlen_nonneg (body m)) as Hz. set (e := new_Element CONTENT_LENGTH (i64tos (zlen (body m)))).
  assert (He : entry_ok e) by (apply content_length_ok; lia).
  destruct (read_all ml [] l Hl) as (text & Ht & Hnb & _ & _). assert (Hw : Mime.write ml (headers m) = Some text) by (by rewrite Hh).
  assert (Hlen : length_line m = str "Content-Length: " ++ i64tos (zlen (body m)) ++ CRLF).
  { unfold length_line, has, header. rewrite Hh, (child_upper l (str "Content-Length")), (child_upper l (str "Transfer-Encoding")) by (done || (vm_compute; discriminate)).
    rewrite (child_other l CONTENT_LENGTH); [done|]. eapply Forall_impl; [exact Hp|]. by intros x []. }
  exists ((start_line m ++ length_line m ++ text) ++ body m). unfold write, write_headers. rewrite Hw. cbn [mbind option_bind].
  rewrite bool_decide_false by (by apply start_method). split; [done|]. intros rest.
  assert (Hread : Mime.read (input ((length_line m ++ text) ++ body m ++ rest)) false new_headers = Some (true, with_children new_headers (e :: l), input (body m ++ rest))).
  { destruct (read_all ml (body m ++ rest) l Hl) as (text' & Ht' & _ & Hlt & Hr). rewrite Ht in Ht'. injection Ht' as <-.
    unfold Mime.read. rewrite Hlen. destruct He as (n & v & E & Hn & Hv & He). unfold e, new_Element in E. injection E as <- <-.
    change (str "Content-Length: ") with (capitals true CONTENT_LENGTH ++ str ": ").
    replace ((((capitals true CONTENT_LENGTH ++ str ": ") ++ i64tos (zlen (body m)) ++ CRLF) ++ text) ++ body m ++ rest)
      with (capitals true CONTENT_LENGTH ++ str ": " ++ (i64tos (zlen (body m)) ++ CRLF) ++ text ++ body m ++ rest) by lists.
    rewrite (read_header _ CONTENT_LENGTH (i64tos (zlen (body m)))); [|done|done|done|constructor|by destruct text].
    rewrite Hr by (cbn [input left]; rewrite !length_app; simpl; lia). done. }
  replace (((start_line m ++ length_line m ++ text) ++ body m) ++ rest) with (start_line m ++ (length_line m ++ text) ++ body m ++ rest) by lists.
  rewrite (read_after m _ eof _ _ Hm Hread). cbv zeta.
  assert (header (with_children new_headers (e :: l)) TRANSFER_ENCODING = []) as ->.
  { unfold header. rewrite (child_other (e :: l) TRANSFER_ENCODING); [done|].
    constructor; [vm_compute; discriminate|]. eapply Forall_impl; [exact Hp|]. by intros x []. }
  rewrite bool_decide_false by (vm_compute; discriminate).
  assert (stoi (header (with_children new_headers (e :: l)) CONTENT_LENGTH) = zlen (body m)) as ->.
  { unfold header. rewrite child_list. cbn [List.find e name new_Element]. rewrite key_eqb_refl. apply stoi_print. lia. }
  destruct (Z.eqb_spec (zlen (body m)) 0) as [E|E]; cbn [negb orb].
  - apply zlen_zero in E. rewrite E in *. rewrite bool_decide_true by done. cbn [andb]. destruct (to_eof m eof).
    + change (zlen (@nil Z)) with 0. unfold read_body. rewrite body_loop_ok by (cbn [input left app]; lia). done.
    + unfold with_headers, with_body. cbn. by rewrite E.
  - rewrite bool_decide_false by (intros E'; by rewrite E' in E). cbn [andb]. unfold read_body. rewrite body_loop_ok by (cbn [input left]; lia).
    rewrite (proj2 (Z.ltb_ge (zlen (body m)) 0)), (proj2 (Z.eqb_neq (zlen (body m)) 0)) by lia. cbn [orb].
    rewrite (proj2 (Z.ltb_ge _ _)) by (rewrite zlen_app; pose proof (zlen_nonneg rest); lia). rewrite Z.sub_0_r, ztake_app, zdrop_app. done.
Qed.


(** ** Chunks *)

(** A chunk is its size in hexadecimal with an extension, and its data. *)
Definition chunk_text (c : bytes * bytes) : bytes := itox (zlen (snd c)) ++ fst c ++ CRLF ++ snd c ++ CRLF.
Definition chunks_text (cs : list (bytes * bytes)) : bytes := flat_map chunk_text cs ++ str "0" ++ CRLF.
Definition chunk_ok (c : bytes * bytes) : Prop :=
  (fst c = [] \/ head (fst c) = Some PropertyList.SEMICOLON) /\ Forall inline (fst c) /\ zlen (fst c) < MAX_HEADER - 64 /\ 0 < zlen (snd c) < 2 ^ 31.

Lemma size_field n ext : (ext = [] \/ head ext = Some PropertyList.SEMICOLON) ->
  exists fs, Strings.split (print_base 16 n ++ ext) PropertyList.SEMICOLON true 0 = Some (print_base 16 n :: fs).
Proof.
  intros He. unfold Strings.split. rewrite split_from_ok by (unfold zlen; lia). cbn [Z.eqb]. rewrite zdrop_0.
  assert (Hp : Forall (fun c => (PropertyList.SEMICOLON =? c) = false) (print_base 16 n)).
  { eapply Forall_impl; [apply (digit_plain 16 n); lia|]. intros c (_ & _ & _ & H). apply Z.eqb_neq. congruence. }
  rewrite fields_app by done. destruct He as [->|He].
  - cbn [fields map]. rewrite app_nil_r. unfold canonical. rewrite canonical_print by lia. by eexists.
  - destruct ext as [|c ext]; [done|]. injection He as ->. cbn [fields]. rewrite Z.eqb_refl. cbn [map]. rewrite app_nil_r. unfold canonical. rewrite canonical_print by lia. by eexists.
Qed.
Lemma size_line n ext rest : 0 <= n < 2 ^ 31 -> (ext = [] \/ head ext = Some PropertyList.SEMICOLON) -> Forall inline ext -> zlen ext < MAX_HEADER - 64 ->
  getline (input (itox n ++ ext ++ CRLF ++ rest)) = Some (true, itox n ++ ext, input rest) /\ itox n ++ ext <> [] /\
  exists fs, Strings.split (itox n ++ ext) PropertyList.SEMICOLON true 0 = Some (itox n :: fs) /\ i32 (xtoi (itox n)) = n.
Proof.
  intros Hn He Hin Hlen. unfold itox. pose proof (printed_length 16 n). pose proof (print_nonempty 16 n ltac:(lia)). split_and!.
  - replace (print_base 16 n ++ ext ++ CRLF ++ rest) with ((print_base 16 n ++ ext) ++ CRLF ++ rest) by lists.
    apply getline_line; [|rewrite zlen_app; lia]. apply Forall_app; split; [|done]. eapply Forall_impl; [apply (digit_plain 16 n); lia|]. by intros c [Hc _].
  - by destruct (print_base 16 n).
  - destruct (size_field n ext He) as (fs & ->). exists fs. split; [done|]. unfold xtoi, itox. rewrite scan_u64_16_print by (unfold in_u; lia).
    rewrite wrap_small by (unfold in_u; lia). apply swrap_small; [lia|]. unfold in_s. lia.
Qed.
Lemma chunk_loop_ok eof rest : forall cs pre fuel body, Forall chunk_ok cs -> (pre = [] \/ pre = CRLF) -> (length cs < fuel)%nat ->
  chunk_loop fuel eof (input (pre ++ chunks_text cs ++ rest)) body = Some (true, body ++ concat (map snd cs), input rest).
Proof.
  assert (Hline : forall pre s line i, (pre = [] \/ pre = CRLF) -> getline (input s) = Some (true, line, i) -> line <> [] ->
    exists l i', getline (input (pre ++ s)) = Some (true, l, i') /\ match l with [] => getline i' | _ => Some (true, l, i') end = Some (true, line, i)).
  { intros pre s line i [-> | ->] Hg Hne; [|by exists [], (input s)]. exists line, i. split; [done|]. by destruct line. }
  induction cs as [|[ext d] cs IH]; intros pre [|fuel] b Hcs Hpre Hf; try (simpl in Hf; lia); cbn [chunk_loop].
  - destruct (size_line 0 [] rest ltac:(lia) (or_introl eq_refl) ltac:(constructor) ltac:(done)) as (Hg & Hne & fs & Hsf & Hs).
    destruct (Hline pre _ _ _ Hpre Hg Hne) as (l & i' & H1 & H2). change (chunks_text [] ++ rest) with (itox 0 ++ [] ++ CRLF ++ rest).
    rewrite H1. cbn [mbind option_bind negb]. rewrite H2. cbn [mbind option_bind negb]. rewrite Hsf. cbn [mbind option_bind head].
    change (default [] (Some (itox 0))) with (itox 0). rewrite Hs. cbn [Z.eqb map concat]. by rewrite app_nil_r.
  - apply Forall_cons in Hcs as [(He & Hin & Hel & Hd) Hcs]. cbn [fst snd] in *.
    destruct (size_line (zlen d) ext (d ++ CRLF ++ chunks_text cs ++ rest) ltac:(lia) He Hin Hel) as (Hg & Hne & fs & Hsf & Hs).
    destruct (Hline pre _ _ _ Hpre Hg Hne) as (l & i' & H1 & H2).
    replace (chunks_text ((ext, d) :: cs) ++ rest) with (itox (zlen d) ++ ext ++ CRLF ++ d ++ CRLF ++ chunks_text cs ++ rest)
      by (unfold chunks_text; cbn [flat_map]; unfold chunk_text; cbn [fst snd]; lists).
    rewrite H1. cbn [mbind option_bind negb]. rewrite H2. cbn [mbind option_bind negb]. rewrite Hsf. cbn [mbind option_bind head].
    change (default [] (Some (itox (zlen d)))) with (itox (zlen d)). rewrite Hs.
    rewrite (proj2 (Z.eqb_neq _ _)) by lia. unfold read_body. rewrite body_loop_ok by (cbn [input left]; lia).
    rewrite (proj2 (Z.ltb_ge (zlen d) 0)), (proj2 (Z.eqb_neq (zlen d) 0)) by lia. cbn [orb]. rewrite Z.sub_0_r.
    rewrite (proj2 (Z.ltb_ge _ _)) by (rewrite zlen_app; pose proof (zlen_nonneg (CRLF ++ chunks_text cs ++ rest)); lia). rewrite ztake_app, zdrop_app.
    cbn [mbind option_bind]. rewrite (IH CRLF) by (done || by right || (simpl in Hf; lia)). cbn [map concat snd]. by rewrite <- app_assoc.
Qed.

(** ** The fuel is enough *)

Lemma read_body_ends length i body : exists b i', read_body length i body = Some (b, i') /\ (size i' <= size i)%nat.
Proof.
  destruct i as [s []]; unfold read_body.
  { cbn [body_loop fail negb andb]. by do 2 eexists. }
  fold (input s). destruct (Z.le_gt_cases 0 length).
  - rewrite body_loop_ok by (cbn [input left]; lia). rewrite (proj2 (Z.ltb_ge length 0)) by lia. destruct (_ || _); do 2 eexists; (split; [reflexivity|]); cbn; [lia|].
    unfold size, zdrop. cbn [left input]. rewrite length_drop. lia.
  - rewrite body_loop_ok by (cbn [input left]; lia). rewrite (proj2 (Z.ltb_lt length 0)) by lia. by do 2 eexists.
Qed.
Lemma get_first_line_total i : exists ok s i', get_first_line i = Some (ok, s, i') /\ (ok = true -> (size i' < size i)%nat).
Proof.
  unfold get_first_line. destruct (get i) as [c i'] eqn:E. destruct (negb (fail i) && (c =? DOLLAR)) eqn:Ed.
  - do 3 eexists. split; [reflexivity|]. intros _. destruct i as [[|x s] []]; unfold get in E; simpl in E; injection E as <- <-; simpl in *; try done.
    unfold size. simpl. lia.
  - destruct (getline_total i) as (ok & s & i2 & -> & _ & H). by do 3 eexists.
Qed.
Lemma first_line_total fuel : forall i, (size i < fuel)%nat -> exists r, first_line fuel i = Some r.
Proof.
  induction fuel as [|fuel IH]; intros i Hf; [lia|]. cbn [first_line]. destruct (get_first_line_total i) as ([] & s & i' & -> & H); cbn [mbind option_bind negb]; [|by eexists].
  specialize (H eq_refl). destruct s; [|by eexists]. apply IH. lia.
Qed.
Lemma read_headers_total i m : exists r, read_headers i m = Some r.
Proof.
  unfold read_headers. destruct (first_line_total (S (S (List.length (left i)))) i) as ([[ok line] i1] & ->); [unfold size; lia|]. cbn [mbind option_bind].
  destruct ok; cbn [negb]; [|by eexists]. case_bool_decide.
  - destruct (get i1) as [c i2]. destruct (c =? EOF); [by eexists|]. destruct (get i2) as [c1 i3], (get i3) as [c2 i4]. destruct (_ || _); [by eexists|].
    destruct (u16 _ =? 0); [by eexists|]. destruct (read_body_ends (u16 (Z.shiftl c1 8 + c2)) i4 []) as (b & i5 & -> & _). by eexists.
  - destruct (find SP line 0) as [sp1|]; [|by eexists]. destruct (find SP line (sp1 + 1)) as [sp2|]; [|by eexists].
    destruct (find 47 (ztake sp1 line) 0); cbn [headers]; destruct (Mime.read_total i1 false (headers m)) as ([[ok h] i2] & ->); by eexists.
Qed.
Lemma split_total q c : exists fs, Strings.split q c true 0 = Some fs.
Proof. unfold Strings.split. rewrite split_from_ok by (unfold zlen; lia). by eexists. Qed.
Lemma chunk_loop_total eof fuel : forall i body, (size i < fuel)%nat -> exists r, chunk_loop fuel eof i body = Some r.
Proof.
  induction fuel as [|fuel IH]; intros i b Hf; [lia|]. cbn [chunk_loop].
  destruct (getline_total i) as ([] & line & i1 & -> & _ & H1); cbn [mbind option_bind negb]; [|by eexists]. specialize (H1 eq_refl).
  assert (exists ok l i2, match line with [] => getline i1 | _ :: _ => Some (true, line, i1) end = Some (ok, l, i2) /\ (size i2 <= size i1)%nat) as (ok & l & i2 & -> & H2).
  { destruct line; [|by do 3 eexists]. destruct (getline_total i1) as (ok & l & i2 & -> & H & _). by do 3 eexists. }
  cbn [mbind option_bind]. destruct ok; cbn [negb]; [|by eexists]. destruct (split_total l PropertyList.SEMICOLON) as (fs & ->). cbn [mbind option_bind].
  destruct (i32 _ =? 0); [by eexists|]. destruct (read_body_ends (i32 (xtoi (default [] (head fs)))) i2 b) as (b' & i3 & -> & H3). cbn [mbind option_bind]. apply IH. lia.
Qed.
Lemma message_total i eof m : exists r, read i eof m = Some r.
Proof.
  unfold read. destruct (read_headers_total i m) as ([[ok m1] i1] & ->). cbn [mbind option_bind]. destruct ok; cbn [negb]; [|by eexists].
  case_bool_decide; [by eexists|]. case_bool_decide.
  - destruct (chunk_loop_total (if negb (bool_decide (method m1 = str "POST")) && negb (bool_decide (method m1 = [])) then false else eof)
      (S (List.length (left i1))) i1 []) as ([[ok b] i2] & ->); [unfold size; lia|]. cbn [mbind option_bind]. destruct ok; cbn [negb]; [|by eexists].
    destruct (Mime.read_total i2 true (headers m1)) as ([[ok h] i3] & ->). by eexists.
  - destruct (_ || _); [|by eexists]. destruct (read_body_ends (stoi (header (headers m1) CONTENT_LENGTH)) i1 []) as (b & i2 & -> & _). by eexists.
Qed.

(** C28: a message in chunks, each with the size of its data in hexadecimal and any extension, is read with the data of the chunks as its body and the headers after the last one added to its own, up to what follows; and reading ends for any input. *)
Theorem http_chunked m l cs tr eof : start_ok m -> Forall entry_ok l -> Forall entry_ok tr -> Forall chunk_ok cs ->
  tolower (header (with_children new_headers l) TRANSFER_ENCODING) = CHUNKED -> forall ml text trailer rest,
  Mime.write ml (with_children new_headers l) = Some text -> Mime.write ml (with_children new_headers tr) = Some trailer ->
  read (input (start_line m ++ text ++ chunks_text cs ++ trailer ++ rest)) eof new_message =
    Some (true, mk_message (method m) (url m) (code m) (reason m) (version m) (with_children new_headers (l ++ tr)) (concat (map snd cs)), input rest) /\
  (forall i m0, exists r, read i eof m0 = Some r).
Proof.
  intros Hm Hl Htr Hcs Hc ml text trailer rest Hw Hwt. split; [|intros; apply message_total].
  rewrite (read_after m (with_children new_headers l) eof _ (input (chunks_text cs ++ trailer ++ rest))) by (done || by rewrite (read_written l) with (ml := ml)).
  cbv zeta. rewrite bool_decide_true by done. change (chunks_text cs ++ trailer ++ rest) with ([] ++ chunks_text cs ++ trailer ++ rest).
  assert (Hf : (length cs <= length (chunks_text cs))%nat).
  { unfold chunks_text. rewrite length_app. enough (length cs <= length (flat_map chunk_text cs))%nat by lia. clear. induction cs as [|c cs IH]; [done|]. cbn [flat_map length]. rewrite length_app. unfold chunk_text at 1. rewrite !length_app. change (length CRLF) with 2%nat. lia. }
  rewrite (chunk_loop_ok _ (trailer ++ rest)) by (done || by left || (cbn [input left app]; rewrite length_app; lia)). cbn [mbind option_bind negb].
  rewrite (read_written tr trailer rest _ ml) by done. done.
Qed.

Definition sample_request : HTTPMessage := mk_message (str "POST") (str "/form") 0 [] (str "HTTP/1.1") (put new_headers (str "host") (str "example.org")) (str "a=b").
Definition sample_response : HTTPMessage := mk_message [] [] 200 (str "Fine then") (str "HTTP/1.1") new_headers [].
Definition encoded_chunked : list Element := [new_Element TRANSFER_ENCODING (str "Chunked")].
Ltac parts := repeat first [split | constructor]; vm_compute; done.
Lemma http_roundtrip_witness : exists text, write 0 sample_request false = Some text /\
  read (input (text ++ [1; 2])) true new_message =
    Some (true, with_headers sample_request (put (put new_headers CONTENT_LENGTH (str "3")) (str "host") (str "example.org")), input [1; 2]).
Proof.
  destruct (http_roundtrip 0 sample_request [new_Element (str "host") (str "example.org")] true) as (text & Hw & Hr).
  - split; [left|]; parts.
  - done.
  - constructor; [|constructor]. exists (str "host"), (str "example.org"). parts.
  - parts.
  - done.
  - exists text. split; [exact Hw|]. rewrite Hr. done.
Defined.
Lemma http_chunked_witness :
  read (input (start_line sample_response ++ str "Transfer-Encoding: Chunked" ++ CRLF ++ CRLF ++ chunks_text [([], str "abc"); (str ";x", str "0123456789")] ++ CRLF ++ [1])) true new_message =
    Some (true, mk_message [] [] 200 (str "Fine then") (str "HTTP/1.1") (with_children new_headers encoded_chunked) (str "abc0123456789"), input [1]).
Proof.
  refine (proj1 (http_chunked sample_response encoded_chunked [([], str "abc"); (str ";x", str "0123456789")] [] true _ _ _ _ _
    0 (str "Transfer-Encoding: Chunked" ++ CRLF ++ CRLF) CRLF [1] _ _)).
  - split; [right|]; split_and!; try (vm_compute; done); try parts. exists (str "HTTP"), (str "1.1"). parts.
  - constructor; [|constructor]. exists TRANSFER_ENCODING, (str "Chunked"). parts.
  - constructor.
  - constructor; [|constructor; [|constructor]]; (split; [vm_compute; by auto|]); parts.
  - done.
  - done.
  - done.
Defined.
End Http.
