(* ===== verification/Address.v ===== *)
(** * Internet addresses

    Models [src/libs/net/address.cc] and the classes of it in
    [src/libs/net/ot-net.h]: addresses, addresses with a mask, end points,
    protocols and ports.  An address is 32 bits in host order.  The two name
    lookups of the system, [inet_addr] and [gethostbyname_r] (in host order), and the
    dotted quad of [inet_ntoa] are parameters. *)
From S2P Require Export Strings.

Module Address.
Import Strings.

Section address.
Context (inet_addr : bytes -> Z) (gethostbyname : bytes -> option Z) (gethostbyaddr : Z -> option bytes) (inet_ntoa : Z -> bytes).

(** ** Addresses *)

Definition BADADDR : Z := 0xffffffff.
Definition of_name (hostname : bytes) : Z :=
  let hostname := c_str hostname in
  if match hostname with c :: _ => is_digit c | [] => false end then u32 (inet_addr hostname)
  else match gethostbyname hostname with Some a => u32 a | None => BADADDR end.
Definition get_dotted_quad (a : Z) : bytes := inet_ntoa a.
Definition get_hostname (a : Z) : bytes := match gethostbyaddr a with Some h => h | None => get_dotted_quad a end.
Definition bad (a : Z) : bool := a =? BADADDR.
Definition is_broadcast (a : Z) : bool := (a =? 0) || (a =? BADADDR).
Definition is_multicast (a : Z) : bool := Z.shiftr a 28 =? 0xE.
Definition complement (a : Z) : Z := u32 (Z.lnot a).

(** ** Masked addresses *)

Record MaskedAddress := mk_masked { address : Z; mask : Z }.
(** The mask of [n] bits: a shift of 32 or more, or of less than 0, has no meaning; signed numbers wrap. *)
Definition maskbits (n : Z) : option Z :=
  if n =? 0 then Some 0
  else if (0 <=? 32 - n) && (32 - n <? 32) then Some (u32 (Z.lnot (i32 (i32 (Z.shiftl 1 (32 - n)) - 1)))) else None.
Definition of_cidr (cidr : bytes) : option MaskedAddress :=
  match find 47 cidr 0 with
  | Some p =>
    let address := of_name (ztake p cidr) in
    let mask_s := zdrop (p + 1) cidr in
    match find 46 mask_s 0 with
    | Some _ => Some (mk_masked address (of_name mask_s))
    | None => bits ← maskbits (stoi mask_s); Some (mk_masked address bits)
    end
  | None => Some (mk_masked (of_name cidr) BADADDR)
  end.
Definition get_network_bits (m : MaskedAddress) : Z :=
  let a := mask m in let n := 0 in
  let '(n, a) := if negb (Z.land a 0xFFFF0000 =? 0) then (n + 16, Z.land a 0xFFFF) else (n, a) in
  let '(n, a) := if negb (Z.land a 0xFF00 =? 0) then (n + 8, Z.land a 0xFF) else (n, a) in
  let '(n, a) := if negb (Z.land a 0xF0 =? 0) then (n + 4, Z.land a 0xF) else (n, a) in
  let '(n, a) := if negb (Z.land a 0xC0 =? 0) then (n + 2, Z.land a 3) else (n, a) in
  let '(n, a) := if negb (Z.land a 2 =? 0) then (n + 1, Z.land a 1) else (n, a) in
  n + a.
Definition get_cidr (m : MaskedAddress) : bytes :=
  inet_ntoa (address m) ++ if negb (bad (mask m)) then 47 :: itos (get_network_bits m) else [].
Definition equal (m o : MaskedAddress) : bool := (address m =? address o) && (mask m =? mask o).
Definition differ (m o : MaskedAddress) : bool := negb (address m =? address o) || negb (mask m =? mask o).
(** Whether an address is in the network *)
Definition matches (m : MaskedAddress) (o : Z) : bool := Z.land (address m) (mask m) =? Z.land o (mask m).

(** ** End points, protocols and ports *)

(** The port of an end point made from a text without a colon has no value. *)
Record EndPoint := mk_end_point { host : Z; port : option Z }.
Definition end_point (combined : bytes) : EndPoint :=
  match find 58 combined 0 with
  | Some p => mk_end_point (of_name (ztake p combined)) (Some (stoi (zdrop (p + 1) combined)))
  | None => mk_end_point BADADDR None
  end.
Definition end_point_text (host port : Z) : bytes := inet_ntoa host ++ str ":" ++ itos port.
Definition end_point_lt (h p h' p' : Z) : bool := (h <? h') || ((h =? h') && (p <? p')).

Inductive Proto := PROTO_UNKNOWN | PROTO_TCP | PROTO_UDP.
Definition proto_number (p : Proto) : Z := match p with PROTO_UNKNOWN => 0 | PROTO_TCP => 1 | PROTO_UDP => 2 end.
Definition protocol (ps : bytes) : Proto :=
  if bool_decide (ps = str "TCP") || bool_decide (ps = str "tcp") then PROTO_TCP
  else if bool_decide (ps = str "UDP") || bool_decide (ps = str "udp") then PROTO_UDP else PROTO_UNKNOWN.
Definition protocol_text (p : Proto) : bytes :=
  match p with PROTO_TCP => str "TCP" | PROTO_UDP => str "UDP" | PROTO_UNKNOWN => str "?UKNOWN?" end.
Record Port := mk_port { port_host : Z; port_proto : Proto; port_number : Z }.
Definition port_text (p : Port) : bytes :=
  protocol_text (port_proto p) ++ str ":" ++ inet_ntoa (port_host p) ++ str ":" ++ itos (port_number p).
Definition port_lt (p o : Port) : bool :=
  let proto p := proto_number (port_proto p) in
  (port_host p <? port_host o) || ((port_host p =? port_host o) && (proto p <? proto o)) ||
  ((port_host p =? port_host o) && (proto p =? proto o) && (port_number p <? port_number o)).

(* ------------------------------------------------------------------ *)
(** ** Networks *)

(** The mask of the [n] bits at the top *)
Definition top (n : Z) : Z := 2 ^ 32 - 2 ^ (32 - n).
Lemma maskbits_top n : 0 <= n <= 32 -> maskbits n = Some (top n).
Proof.
  intros Hn. assert (Hall : forallb (fun n => match maskbits n with Some m => m =? top n | None => false end) (zseq 0 33) = true) by (vm_compute; done).
  pose proof (range_forall _ 33 Hall n ltac:(lia)) as H. cbv beta in H. destruct (maskbits n); [|done]. f_equal. lia.
Qed.
Lemma top_land n a : 0 <= n <= 32 -> in_u 32 a -> Z.land a (top n) = a / 2 ^ (32 - n) * 2 ^ (32 - n).
Proof.
  intros Hn Ha. assert (top n = Z.shiftl (Z.ones n) (32 - n)) as ->.
  { rewrite Z.shiftl_mul_pow2, Z.ones_equiv by lia. unfold top. replace 32 with (n + (32 - n)) at 1 by lia. rewrite Z.pow_add_r by lia. lia. }
  assert (E : Z.land a (Z.shiftl (Z.ones n) (32 - n)) = Z.shiftl (Z.land (Z.shiftr a (32 - n)) (Z.ones n)) (32 - n)).
  { apply Z.bits_inj'. intros i Hi. rewrite Z.land_spec. rewrite !Z.shiftl_spec by lia. rewrite Z.land_spec.
    destruct (Z.lt_ge_cases i (32 - n)); [by rewrite !(Z.testbit_neg_r _ (i - (32 - n))) by lia; rewrite andb_false_r|].
    rewrite Z.shiftr_spec by lia. by replace (i - (32 - n) + (32 - n)) with i by lia. }
  rewrite E, Z.shiftl_mul_pow2, Z.shiftr_div_pow2, Z.land_ones by lia. rewrite Z.mod_small; [done|].
  split; [apply Z.div_pos; unfold in_u in Ha; lia|]. apply Z.div_lt_upper_bound; [lia|]. rewrite <- Z.pow_add_r by lia. replace (32 - n + n) with 32 by lia. unfold in_u in Ha. lia.
Qed.
Lemma of_name_range h : in_u 32 (of_name h).
Proof.
  assert (Hu : forall x, in_u 32 (u32 x)) by (intros x; by apply wrap_range).
  unfold of_name. destruct (match c_str h with c :: _ => is_digit c | [] => false end); [done|]. destruct (gethostbyname _); [done|]. unfold in_u, BADADDR. lia.
Qed.
Lemma itos_no c n : 0 <= n -> is_digit c = false -> Forall (fun x => (c =? x) = false) (itos n).
Proof.
  intros Hn Hc. unfold itos. rewrite (proj2 (Z.ltb_ge n 0)) by lia. destruct (print_base_text 10 n ltac:(lia)) as [_ H]. eapply Forall_impl; [exact H|].
  intros x (d & Hd & ->). unfold digit_char. rewrite (proj2 (Z.ltb_lt d 10)) by lia. unfold is_digit in Hc. lia.
Qed.

(** An address written with a number of bits matches the addresses that agree with it in that many bits at the top; one without matches itself only; a mask with dots selects the bits that have to agree; and the number of bits that is printed is the number of bits of the mask for 0, 16, 24 and 28 only. *)
Theorem cidr_matches name n o : Forall (fun x => (47 =? x) = false) name -> 0 <= n <= 32 -> in_u 32 o ->
  (exists m, of_cidr (name ++ 47 :: itos n) = Some m /\ (matches m o = true <-> of_name name / 2 ^ (32 - n) = o / 2 ^ (32 - n)) /\
    (get_network_bits m = n <-> n = 0 \/ n = 16 \/ n = 24 \/ n = 28)) /\
  (exists m, of_cidr name = Some m /\ (matches m o = true <-> of_name name = o)) /\
  (forall a m, matches (mk_masked a m) o = true <-> forall i, Z.testbit m i = true -> Z.testbit a i = Z.testbit o i).
Proof.
  intros Hname Hn Ho. pose proof (of_name_range name) as Ha. split_and!.
  - assert (Hf : find 47 (name ++ 47 :: itos n) 0 = Some (zlen name)) by (unfold find; by rewrite zdrop_0, find_first_app).
    exists (mk_masked (of_name name) (top n)). unfold of_cidr. rewrite Hf, ztake_app, zdrop_past.
    assert (find 46 (itos n) 0 = None) as ->. { unfold find. rewrite zdrop_0, find_first_none; [done|]. apply itos_no; [lia|done]. }
    rewrite stoi_itos by (unfold in_s; lia). rewrite maskbits_top by done. split_and!; [done| |].
    + unfold matches. cbn [address mask]. rewrite Z.eqb_eq, !top_land by done. pose proof (Z.pow_pos_nonneg 2 (32 - n)). nia.
    + assert (Hall : forallb (fun n => Bool.eqb (get_network_bits (mk_masked 0 (top n)) =? n) ((n =? 0) || (n =? 16) || (n =? 24) || (n =? 28))) (zseq 0 33) = true) by (vm_compute; done).
      pose proof (range_forall _ 33 Hall n ltac:(lia)) as H. cbv beta in H. apply eqb_prop in H. unfold get_network_bits in *. cbn [mask] in *. lia.
  - exists (mk_masked (of_name name) BADADDR). unfold of_cidr, find. rewrite zdrop_0, find_first_none by done. split; [done|].
    unfold matches. cbn [address mask]. change BADADDR with (Z.ones 32). rewrite !Z.land_ones, Z.eqb_eq by lia. unfold in_u in *. by rewrite !Z.mod_small by lia.
  - intros a m. unfold matches. cbn [address mask]. rewrite Z.eqb_eq. split.
    + intros E i Hi. apply (f_equal (fun x => Z.testbit x i)) in E. rewrite !Z.land_spec, Hi in E. by rewrite !andb_true_r in E.
    + intros H. apply Z.bits_inj. intros i. rewrite !Z.land_spec. destruct (Z.testbit m i) eqn:E; [by rewrite (H i E)|by rewrite !andb_false_r].
Qed.
End address.

(** A bit count that is no number is 0, and the network has every address. *)
Example not_a_number inet_addr gethostbyname : exists m, of_cidr inet_addr gethostbyname (str "10.0.0.1/x") = Some m /\ forall o, matches m o = true.
Proof. eexists. split; [reflexivity|]. intros o. unfold matches. cbn [mask address]. by rewrite !Z.land_0_r. Qed.
Example print_8 inet_ntoa a : get_cidr inet_ntoa (mk_masked a 0xFF000000) = inet_ntoa a ++ str "/16".
Proof. reflexivity. Qed.

(** The dotted quads with four numbers *)
Definition quad (s : bytes) : Z :=
  match Strings.split s 46 false 0 with Some [a; b; c; d] => stoi a * 2 ^ 24 + stoi b * 2 ^ 16 + stoi c * 2 ^ 8 + stoi d | _ => BADADDR end.
Lemma cidr_matches_witness : exists m, of_cidr quad (fun _ => None) (str "192.168.1.9/24") = Some m /\
  matches m (quad (str "192.168.1.200")) = true /\ matches m (quad (str "192.168.2.9")) = false.
Proof.
  destruct (cidr_matches quad (fun _ => None) (str "192.168.1.9") 24 (quad (str "192.168.1.200"))) as ((m & Hm & [_ Hy] & _) & _ & _); try done.
  - repeat constructor.
  - exists m. split; [exact Hm|]. split; [by apply Hy|].
    destruct (cidr_matches quad (fun _ => None) (str "192.168.1.9") 24 (quad (str "192.168.2.9"))) as ((m' & Hm' & [Hn _] & _) & _ & _); try done.
    + repeat constructor.
    + rewrite Hm in Hm'. injection Hm' as <-. destruct (matches m (quad (str "192.168.2.9"))) eqn:E; [|done]. specialize (Hn eq_refl). by vm_compute in Hn.
Defined.
End Address.
