(* ===== verification/Access.v ===== *)
(** * Access control

    Models [src/libs/access]: groups of users, rules, resources and the
    checker made of them from a configuration ([group.cc], [rule.cc],
    [resource.cc], [checker.cc], [ot-access.h]).  Names are matched as patterns
    ([Pattern.v]), which may read beyond their end: that is [None].  A rule
    points to its group, which never changes.  The name lookups and the dotted
    quads are those of [Address.v]. *)
From S2P Require Export Address Pattern Element.

Module Access.
Import Strings Address.

(** [Text::pattern_match] without the vector of matches *)
Definition globs (cased : bool) (pattern text : bytes) : option bool :=
  match Pattern.pattern_match cased pattern text [] with
  | Pattern.Match _ => Some true
  | Pattern.No => Some false
  | _ => None
  end.

(** [get_child], or the empty element, and the loop over [get_children] *)
Definition none : Element := new_Element [] [].
Definition child (e : Element) (n : bytes) : Element := default none (i ← get_child e n 0; children e !! i).
Definition elements (e : Element) (n : bytes) : list Element := omap (fun i => children e !! i) (get_children e n).

Section access.
Context (inet_addr : bytes -> Z) (gethostbyname : bytes -> option Z) (inet_ntoa : Z -> bytes).
Abbreviation of_cidr := (of_cidr inet_addr gethostbyname).
Abbreviation get_cidr := (get_cidr inet_ntoa).

(** ** Groups *)

Record Group := mk_group { id : bytes; users : list bytes }.
Definition new_group (group_e : Element) (ns : bytes) : Group :=
  mk_group (get_attr group_e (str "id") []) (map (fun u_e => get_attr u_e (str "name") []) (elements group_e (ns ++ str "user"))).
(** A loop that stops at the first element with the property *)
Fixpoint some_of {A} (p : A -> option bool) (l : list A) : option bool :=
  match l with
  | [] => Some false
  | x :: l => b ← p x; if b : bool then Some true else some_of p l
  end.
Definition contains (g : Group) (user : bytes) : option bool := some_of (fun pattern => globs false pattern user) (users g).
Definition dump_group (g : Group) : bytes :=
  str "Group " ++ id g ++ str ":" ++ [NL] ++ flat_map (fun u => str "    user " ++ u ++ [NL]) (users g).

(** ** Rules *)

Abbreviation gmap := (list (bytes * Group)).
Record Rule := mk_rule { group : option Group; user : bytes; address : MaskedAddress }.
(** An unknown group is logged, and the rule has none. *)
Definition new_rule (r_e : Element) (groups : gmap) : option Rule :=
  let group := if has_attr r_e (str "group") then map_find (get_attr r_e (str "group") []) groups else None in
  let user := get_attr r_e (str "user") (str "*") in
  address ← of_cidr (if has_attr r_e (str "address") then get_attr r_e (str "address") [] else str "0.0.0.0/0");
  Some (mk_rule group user address).
Definition rule_matches (r : Rule) (attempted_address : Z) (attempted_user : bytes) : option bool :=
  in_group ← match group r with Some g => contains g attempted_user | None => Some true end;
  if negb in_group then Some false else
  is_user ← globs false (user r) attempted_user;
  if negb is_user then Some false else Some (matches (address r) attempted_address).
Definition dump_rule (r : Rule) : bytes :=
  match group r with Some g => str " group '" ++ id g ++ str "'" | None => [] end ++
  (if bool_decide (user r = str "*") then [] else str " user '" ++ user r ++ str "'") ++
  if negb (get_network_bits (address r) =? 0) then str " address " ++ get_cidr (address r)
  else match group r with None => if bool_decide (user r = str "*") then str " all" else [] | Some _ => [] end.

(** ** Resources *)

Record Resource := mk_resource { name : bytes; denied : list Rule; allowed : list Rule }.
Fixpoint rules (l : list Element) (groups : gmap) : option (list Rule) :=
  match l with [] => Some [] | e :: l => r ← new_rule e groups; rs ← rules l groups; Some (r :: rs) end.
Definition new_resource (resource_e : Element) (groups : gmap) (ns : bytes) : option Resource :=
  allowed ← rules (elements resource_e (ns ++ str "allow")) groups;
  denied ← rules (elements resource_e (ns ++ str "deny")) groups;
  Some (mk_resource (get_attr resource_e (str "name") []) denied allowed).
(** The decision, if the resource matches *)
Definition check_resource (r : Resource) (resource : bytes) (address : Z) (user : bytes) : option (option bool) :=
  ours ← globs true (name r) resource;
  if negb ours then Some None else
  no ← some_of (fun rule => rule_matches rule address user) (denied r);
  if no : bool then Some (Some false) else
  yes ← some_of (fun rule => rule_matches rule address user) (allowed r);
  if yes : bool then Some (Some true) else Some (Some false).
Definition dump_resource (r : Resource) : bytes :=
  str "Resource '" ++ name r ++ str "':" ++ [NL] ++
  flat_map (fun rule => str "  - deny" ++ dump_rule rule ++ [NL]) (denied r) ++
  flat_map (fun rule => str "  - allow" ++ dump_rule rule ++ [NL]) (allowed r).

(** ** The checker *)

Record Checker := mk_checker { groups : gmap; resources : list Resource }.
Definition read_groups (config : Element) (ns : bytes) : gmap :=
  fold_left (fun m g_e => let g := new_group g_e ns in map_set (id g) g m)
    (elements (child config (ns ++ str "groups")) (ns ++ str "group")) [].
Fixpoint read_resources (l : list Element) (groups : gmap) (ns : bytes) : option (list Resource) :=
  match l with [] => Some [] | e :: l => r ← new_resource e groups ns; rs ← read_resources l groups ns; Some (r :: rs) end.
Definition new_checker (config : Element) (ns : bytes) : option Checker :=
  let groups := read_groups config ns in
  resources ← read_resources (elements (child config (ns ++ str "resources")) (ns ++ str "resource")) groups ns;
  Some (mk_checker groups resources).
Fixpoint check_resources (l : list Resource) (resource : bytes) (address : Z) (user : bytes) : option bool :=
  match l with
  | [] => Some false
  | r :: l => result ← check_resource r resource address user;
    match result with Some b => Some b | None => check_resources l resource address user end
  end.
Definition check (c : Checker) : bytes -> Z -> bytes -> option bool := check_resources (resources c).
Definition check_client (c : Checker) (resource : bytes) (host : Z) (cert_cn : bytes) : option bool :=
  check c resource host (match cert_cn with [] => str "#anonymous" | _ => cert_cn end).
Definition dump (c : Checker) : bytes :=
  (match groups c with
   | [] => []
   | _ => str "Groups:" ++ [NL] ++ flat_map (fun p => str "  " ++ dump_group (snd p)) (groups c) ++ str "Resources:" ++ [NL]
   end) ++ flat_map (fun r => str "  " ++ dump_resource r) (resources c).

(* ------------------------------------------------------------------ *)
(** ** What a configuration permits *)

Definition named (n : bytes) (e : Element) : list Element := List.filter (fun c => key_eqb (Element.name c) n) (children e).
Definition glob (cased : bool) (pattern text : bytes) : Prop := globs cased pattern text = Some true.

Section spec.
Context (config : Element) (ns : bytes).
(** The group with an ID is the last one. *)
Definition group_with_id (gid : bytes) : option Element :=
  List.find (fun g => key_eqb (get_attr g (str "id") []) gid) (rev (named (ns ++ str "group") (child config (ns ++ str "groups")))).
Definition user_in (g : Element) (u : bytes) : Prop := Exists (fun u_e => glob false (get_attr u_e (str "name") []) u) (named (ns ++ str "user") g).
Definition address_of (r_e : Element) : bytes := if has_attr r_e (str "address") then get_attr r_e (str "address") [] else str "0.0.0.0/0".
(** All the conditions of a rule; a group that does not exist is not one. *)
Definition rule_holds (a : Z) (u : bytes) (r_e : Element) : Prop :=
  (forall g, has_attr r_e (str "group") = true -> group_with_id (get_attr r_e (str "group") []) = Some g -> user_in g u) /\
  glob false (get_attr r_e (str "user") (str "*")) u /\
  exists m, of_cidr (address_of r_e) = Some m /\ matches m a = true.
(** The first resource that matches allows it, and does not deny it. *)
Definition permits (resource : bytes) (a : Z) (u : bytes) : Prop :=
  exists before r after, named (ns ++ str "resource") (child config (ns ++ str "resources")) = before ++ r :: after /\
    Forall (fun r => ~ glob true (get_attr r (str "name") []) resource) before /\ glob true (get_attr r (str "name") []) resource /\
    Forall (fun d => ~ rule_holds a u d) (named (ns ++ str "deny") r) /\ Exists (rule_holds a u) (named (ns ++ str "allow") r).
End spec.

(** No pattern that is tried reads beyond its end. *)
Definition rule_defined (u : bytes) (r : Rule) : Prop :=
  globs false (user r) u <> None /\ match group r with Some g => Forall (fun p => globs false p u <> None) (users g) | None => True end.
Definition resource_defined (resource u : bytes) (r : Resource) : Prop :=
  globs true (name r) resource <> None /\ Forall (rule_defined u) (denied r) /\ Forall (rule_defined u) (allowed r).
Definition defined (c : Checker) (resource u : bytes) : Prop := Forall (resource_defined resource u) (resources c).

#[global] Instance rule_defined_dec u r : Decision (rule_defined u r).
Proof. unfold rule_defined. destruct (group r); apply _. Defined.
#[global] Instance defined_dec c resource u : Decision (defined c resource u).
Proof. unfold defined, resource_defined. apply _. Defined.

(** ** Decisions *)

Definition decides (o : option bool) (P : Prop) : Prop := (o = Some true /\ P) \/ (o = Some false /\ ~ P).
Lemma decides_glob cased p t : globs cased p t <> None -> decides (globs cased p t) (glob cased p t).
Proof. unfold glob, decides. destruct (globs cased p t) as [[]|]; [by left|by right|done]. Qed.
Lemma decides_some_of {A} (p : A -> option bool) (P : A -> Prop) l : Forall (fun x => decides (p x) (P x)) l -> decides (some_of p l) (Exists P l).
Proof.
  induction 1 as [|x l [[E H]|[E H]] _ IH]; cbn [some_of].
  - right. split; [done|]. intros Hx. inversion Hx.
  - rewrite E. left. split; [done|]. by left.
  - rewrite E. cbn [mbind option_bind]. destruct IH as [[-> IH]|[-> IH]]; [left|right]; (split; [done|]); [by right|by intros [?|?]%Exists_cons].
Qed.
Lemma some_of_map {A B} (f : A -> B) p l : some_of p (map f l) = some_of (fun x => p (f x)) l.
Proof. induction l as [|x l IH]; [done|]. cbn [map some_of]. by rewrite IH. Qed.
Lemma decides_iff o P Q : (P <-> Q) -> decides o P -> decides o Q.
Proof. unfold decides. intros H. by rewrite H. Qed.

Lemma elements_named e n : elements e n = named n e.
Proof.
  unfold elements, named, get_children.
  enough (H : forall l k full, drop k full = l -> omap (fun i => full !! i) (children_from n k l) = List.filter (fun c => key_eqb (Element.name c) n) l) by (by apply H).
  induction l as [|c l IH]; intros k full Hl; [done|]. cbn [children_from List.filter].
  assert (Hn : drop (S k) full = l) by (by rewrite <- Nat.add_1_r, <- drop_drop, Hl).
  destruct (key_eqb (Element.name c) n); [|by apply IH]. cbn [omap list_omap].
  assert (full !! k = Some c) as ->. { rewrite <- (Nat.add_0_r k), <- lookup_drop, Hl. done. }
  f_equal. by apply IH.
Qed.

Lemma groups_sorted l ns : forall m, sorted m -> sorted (fold_left (fun m g_e => let g := new_group g_e ns in map_set (id g) g m) l m).
Proof. induction l as [|g l IH]; intros m Hm; [done|]. cbn [fold_left]. apply IH. by apply map_set_from. Qed.
Lemma groups_find config ns gid : map_find gid (read_groups config ns) = (fun g => new_group g ns) <$> group_with_id config ns gid.
Proof.
  unfold read_groups, group_with_id. rewrite elements_named. induction (named _ _) as [|g l IH] using rev_ind; [done|].
  rewrite fold_left_app, rev_unit. cbn [fold_left List.find]. rewrite map_find_set by (by apply groups_sorted).
  unfold key_eqb. rewrite (key_cmp_antisym _ gid). unfold new_group at 1. cbn [id]. destruct (key_cmp (get_attr g (str "id") []) gid) eqn:E; cbn; done.
Qed.
Lemma rules_forall l g rs : rules l g = Some rs -> Forall2 (fun e r => new_rule e g = Some r) l rs.
Proof.
  revert rs. induction l as [|e l IH]; intros rs; cbn [rules]; [by intros [= <-]|].
  destruct (new_rule e g) eqn:E; [|done]. cbn [mbind option_bind]. destruct (rules l g); [|done]. intros [= <-]. constructor; [done|]. by apply IH.
Qed.
Lemma decides_rules (P : Element -> Prop) (p : Rule -> option bool) es rs g : Forall2 (fun e r => new_rule e g = Some r) es rs ->
  (forall e r, new_rule e g = Some r -> r ∈ rs -> decides (p r) (P e)) -> decides (some_of p rs) (Exists P es).
Proof.
  intros H. induction H as [|e r es rs He H IH]; intros Hd; [right; split; [done|intros Hx; inversion Hx]|].
  cbn [some_of]. assert (IH' : decides (some_of p rs) (Exists P es)) by (apply IH; intros; apply Hd; [done|by right]).
  destruct (Hd e r He ltac:(by left)) as [[-> Hp]|[-> Hp]]; cbn [mbind option_bind]; [left; split; [done|by left]|].
  destruct IH' as [[-> Hq]|[-> Hq]]; [left|right]; (split; [done|]); [by right|by intros [?|?]%Exists_cons].
Qed.

Lemma decides_rule config ns e r a u : new_rule e (read_groups config ns) = Some r -> rule_defined u r ->
  decides (rule_matches r a u) (rule_holds config ns a u e).
Proof.
  clear inet_ntoa. unfold new_rule, rule_matches, rule_holds. fold (address_of e). destruct (of_cidr (address_of e)) as [m|] eqn:Em; [|done]. cbn [mbind option_bind].
  intros [= <-] [Hu Hg]. cbn [group user address] in *.
  assert (Hgr : decides (match (if has_attr e (str "group") then map_find (get_attr e (str "group") []) (read_groups config ns) else None) with
      Some g => contains g u | None => Some true end)
    (forall g, has_attr e (str "group") = true -> group_with_id config ns (get_attr e (str "group") []) = Some g -> user_in ns g u)).
  { destruct (has_attr e (str "group")); [|left; split; [done|]; by intros g [=]]. rewrite groups_find in *. destruct (group_with_id _ _ _) as [g|]; cbn [fmap option_fmap option_map] in *.
    2: { left. split; [done|]. by intros g _ [=]. }
    assert (Hd : decides (contains (new_group g ns) u) (user_in ns g u)).
    { unfold contains, user_in, new_group in *. cbn [users] in *. rewrite elements_named in *. rewrite some_of_map. apply (proj1 (List.Forall_map _ _ _)) in Hg.
      apply decides_some_of. eapply Forall_impl; [exact Hg|]. intros p Hp. by apply decides_glob. }
    eapply decides_iff; [|exact Hd]. split; [by intros H g' _ [= <-]|]. intros H. by apply H. }
  destruct Hgr as [[-> H1]|[-> H1]]; cbn [mbind option_bind negb]; [|right; split; [done|tauto]].
  destruct (decides_glob _ _ _ Hu) as [[-> H2]|[-> H2]]; cbn [mbind option_bind negb]; [|right; split; [done|tauto]].
  destruct (matches m a) eqn:E; [left|right]; (split; [done|]).
  - split_and!; [done|done|]. by exists m.
  - intros (_ & _ & m' & [= <-] & Hm). congruence.
Qed.
Lemma decides_list config ns a u n e rs : rules (named n e) (read_groups config ns) = Some rs -> Forall (rule_defined u) rs ->
  decides (some_of (fun r => rule_matches r a u) rs) (Exists (rule_holds config ns a u) (named n e)).
Proof.
  clear inet_ntoa. intros Hr Hd. apply (decides_rules _ _ _ _ (read_groups config ns)); [by apply rules_forall|].
  intros x r Hx Hin. eapply decides_rule; [done|]. by eapply Forall_forall in Hd.
Qed.

(** What the resources of a list permit *)
Definition permits_among config ns (l : list Element) (resource : bytes) (a : Z) (u : bytes) : Prop :=
  exists before r after, l = before ++ r :: after /\
    Forall (fun r => ~ glob true (get_attr r (str "name") []) resource) before /\ glob true (get_attr r (str "name") []) resource /\
    Forall (fun d => ~ rule_holds config ns a u d) (named (ns ++ str "deny") r) /\ Exists (rule_holds config ns a u) (named (ns ++ str "allow") r).
Lemma permits_cons config ns e l resource a u : permits_among config ns (e :: l) resource a u <->
  (glob true (get_attr e (str "name") []) resource /\ ~ Exists (rule_holds config ns a u) (named (ns ++ str "deny") e) /\ Exists (rule_holds config ns a u) (named (ns ++ str "allow") e)) \/
  (~ glob true (get_attr e (str "name") []) resource /\ permits_among config ns l resource a u).
Proof.
  clear inet_ntoa. unfold permits_among. split.
  - intros ([|b before] & r & after & [= -> ->] & Hb & Hg & Hd & Ha); [left|right].
    + split_and!; [done| |done]. rewrite Exists_exists. rewrite List.Forall_forall in Hd. intros (x & Hx%list_elem_of_In & H). by apply (Hd x).
    + apply Forall_cons in Hb as [Hb0 Hb]. split; [done|]. by exists before, r, after.
  - intros [(Hg & Hd & Ha)|(Hn & before & r & after & -> & Hb & H)].
    + exists [], e, l. split_and!; try done. apply Forall_forall. intros x Hx H. apply Hd, Exists_exists. by exists x.
    + exists (e :: before), r, after. split; [done|]. split; [by constructor|done].
Qed.
Lemma decides_resources config ns resource a u : forall l rs, read_resources l (read_groups config ns) ns = Some rs -> Forall (resource_defined resource u) rs ->
  decides (check_resources rs resource a u) (permits_among config ns l resource a u).
Proof.
  clear inet_ntoa. induction l as [|e l IH]; intros rs; cbn [read_resources].
  { intros [= <-] _. right. split; [done|]. intros ([|] & r & after & [=] & _). }
  unfold new_resource. rewrite !elements_named. destruct (rules (named (ns ++ str "allow") e) _) as [al|] eqn:Ea; [|done]. cbn [mbind option_bind].
  destruct (rules (named (ns ++ str "deny") e) _) as [de|] eqn:Ed; [|done]. cbn [mbind option_bind].
  destruct (read_resources l _ ns) as [rs'|] eqn:Er; [|done]. intros [= <-] Hdef. apply Forall_cons in Hdef as [(Hn & Hd & Ha) Hdef]. cbn [name denied allowed] in *.
  eapply decides_iff; [symmetry; apply permits_cons|]. cbn [check_resources]. unfold check_resource. cbn [name denied allowed].
  destruct (decides_glob _ _ _ Hn) as [[-> Hg]|[-> Hg]]; cbn [mbind option_bind negb].
  2: { eapply decides_iff; [|by apply IH]. tauto. }
  destruct (decides_list config ns a u _ _ _ Ed Hd) as [[-> H1]|[-> H1]]; cbn [mbind option_bind]; [right; split; [done|tauto]|].
  destruct (decides_list config ns a u _ _ _ Ea Ha) as [[-> H2]|[-> H2]]; cbn [mbind option_bind]; [left|right]; (split; [done|]); tauto.
Qed.

(** C30: the checker made from a configuration lets a user at an address have a resource exactly if the first resource element whose pattern matches has a rule among its [allow] elements whose conditions all hold and none among its [deny] elements, where a rule that names a group that does not exist has no condition on the group, and refuses it in all other cases, if no pattern that it tries is broken. *)
Theorem access_decides config ns c resource a u : new_checker config ns = Some c -> defined c resource u ->
  (check c resource a u = Some true <-> permits config ns resource a u) /\ (check c resource a u = Some false <-> ~ permits config ns resource a u).
Proof.
  clear inet_ntoa. unfold new_checker, defined, check. rewrite elements_named. destruct (read_resources _ _ ns) as [rs|] eqn:E; [|done]. intros [= <-] Hd. cbn [resources] in *.
  destruct (decides_resources config ns resource a u _ _ E Hd) as [[-> H]|[-> H]]; unfold permits_among in H; unfold permits; split; split; (tauto || by intros [=]).
Qed.
End access.

(** A group of two, a resource that denies one of its members, and one that allows a group that does not exist *)
Definition element (n : bytes) (attrs : list (bytes * bytes)) (l : list Element) : Element := mk_Element n [] attrs l 0.
Definition rule (n : bytes) (attrs : list (bytes * bytes)) : Element := element n attrs [].
Definition sample : Element :=
  element (str "access") [] [
    element (str "groups") [] [
      element (str "group") [(str "id", str "staff")] [
        rule (str "user") [(str "name", str "bob")]; rule (str "user") [(str "name", str "al*")]]];
    element (str "resources") [] [
      element (str "resource") [(str "name", str "/private/*")] [
        rule (str "allow") [(str "group", str "staff")]; rule (str "deny") [(str "user", str "ALFRED")]];
      element (str "resource") [(str "name", str "/shared")] [rule (str "allow") [(str "group", str "others")]]]].
Definition checked (resource : bytes) (u : bytes) : option bool :=
  c ← new_checker quad (fun _ => None) sample []; check c resource 0 u.
(** A rule to allow a group that is not there allows everyone. *)
Example unknown_group : checked (str "/shared") (str "mallory") = Some true.
Proof. by vm_compute. Qed.
Example denied_first : checked (str "/private/x") (str "alfred") = Some false /\ checked (str "/private/x") (str "Alice") = Some true.
Proof. by vm_compute. Qed.

Lemma access_decides_witness : permits quad (fun _ => None) sample [] (str "/private/x") 0 (str "Alice") /\
  ~ permits quad (fun _ => None) sample [] (str "/private/x") 0 (str "alfred").
Proof.
  set (c := default (mk_checker [] []) (new_checker quad (fun _ => None) sample [])).
  assert (E : new_checker quad (fun _ => None) sample [] = Some c) by (vm_compute; reflexivity).
  split.
  - apply (access_decides quad (fun _ => None) sample [] c (str "/private/x") 0 (str "Alice") E); [vm_decide|by vm_compute].
  - apply (access_decides quad (fun _ => None) sample [] c (str "/private/x") 0 (str "alfred") E); [vm_decide|by vm_compute].
Defined.
End Access.
