(* ===== verification/Cookies.v ===== *)
(** * Cookies of a client

    Models [src/libs/web/cookies.cc] with the classes of it in
    [src/libs/web/ot-web.h]: cookies as headers give them, and the jar that takes
    them from responses and adds them to requests.  The lock of the jar is held
    by one operation at a time.  The time is an argument, a stamp ([Stamp.v]);
    the text of a date is a parameter, as is the value of a decimal text, which
    the reader of dates asks for. *)
From S2P Require Export Http StampText.

Module Cookies.
Import Strings.

Section cookies.
Context (atof : bytes -> Z) (rfc822 : Z -> bytes).

Definition DOT : Z := 46.
Definition SLASH : Z := 47.

(** ** Cookies *)

Record Cookie := mk_cookie {
  name : bytes; value : bytes; expires : Z; path : bytes; domain : bytes; http_only : bool; secure : bool; created : Z; origin : bytes }.
Definition new_cookie : Cookie := mk_cookie [] [] 0 [] [] false false 0 [].
Definition with_value (c : Cookie) (n v : bytes) := mk_cookie n v (expires c) (path c) (domain c) (http_only c) (secure c) (created c) (origin c).
Definition with_expires (c : Cookie) (x : Z) := mk_cookie (name c) (value c) x (path c) (domain c) (http_only c) (secure c) (created c) (origin c).
Definition with_path (c : Cookie) (x : bytes) := mk_cookie (name c) (value c) (expires c) x (domain c) (http_only c) (secure c) (created c) (origin c).
Definition with_domain (c : Cookie) (x : bytes) := mk_cookie (name c) (value c) (expires c) (path c) x (http_only c) (secure c) (created c) (origin c).
Definition with_http_only (c : Cookie) := mk_cookie (name c) (value c) (expires c) (path c) (domain c) true (secure c) (created c) (origin c).
Definition with_secure (c : Cookie) := mk_cookie (name c) (value c) (expires c) (path c) (domain c) (http_only c) true (created c) (origin c).
Definition with_origin (c : Cookie) (now : Z) (o : bytes) := mk_cookie (name c) (value c) (expires c) (path c) (domain c) (http_only c) (secure c) now o.

(** Whether they take the same place *)
Definition same (a b : Cookie) : bool :=
  bool_decide (name a = name b) && bool_decide (domain a = domain b) && bool_decide (path a = path b).

Definition unquote (value : bytes) : bytes :=
  if (zlen value >? 2) && (zget 0 value 0 =? QUOTE) && (zget 0 value (zlen value - 1) =? QUOTE)
  then substr value 1 (zlen value - 2) else value.
(** An attribute: its fields, in canonical form *)
Definition read_attribute (now : Z) (cookie : Cookie) (bits : list bytes) : Cookie :=
  let aname := tolower (default [] (head bits)) in
  match bits with
  | [_; (d :: dom) as v] =>
    if bool_decide (aname = str "expires") then with_expires cookie (StampText.of_text atof v false)
    else if bool_decide (aname = str "max-age") then
      let delta := stoi v in
      with_expires cookie (if delta >? 0 then Stamp.add_duration now (delta * Stamp.INTERNAL_MULTIPLIER) else Stamp.of_time_t 1)
    else if bool_decide (aname = str "domain") then
      let domain := tolower v in
      with_domain cookie (match domain with c :: rest => if c =? DOT then rest else domain | [] => [] end)
    else if bool_decide (aname = str "path") then with_path cookie v else cookie
  | _ =>
    if bool_decide (aname = str "secure") then with_secure cookie
    else if bool_decide (aname = str "httponly") then with_http_only cookie else cookie
  end.
Fixpoint read_attributes (now : Z) (cookie : Cookie) (pairs : list bytes) : option Cookie :=
  match pairs with
  | [] => Some cookie
  | q :: pairs => bits ← Strings.split q PropertyList.EQUALS true 2; read_attributes now (read_attribute now cookie bits) pairs
  end.
(** Whether a cookie was read, and the cookie *)
Definition read_from (now : Z) (header_value : bytes) : option (bool * Cookie) :=
  pairs ← Strings.split header_value PropertyList.SEMICOLON true 0;
  match pairs with
  | [] => Some (true, new_cookie)
  | q :: pairs =>
    bits ← Strings.split q PropertyList.EQUALS true 2;
    match bits with
    | [(_ :: _) as n; v] => cookie ← read_attributes now (with_value new_cookie n (unquote v)) pairs; Some (true, cookie)
    | _ => Some (false, new_cookie)
    end
  end.
Definition to_str (c : Cookie) (attrs : bool) : bytes :=
  name c ++ str "=" ++ value c ++
  if attrs then
    (if expires c =? 0 then [] else str "; Expires=" ++ rfc822 (expires c)) ++
    (match domain c with [] => [] | d => str "; Domain=" ++ d end) ++
    (match path c with [] => [] | p => str "; Path=" ++ p end) ++
    (if secure c then str "; Secure" else []) ++ (if http_only c then str "; HttpOnly" else [])
  else [].

(** ** The jar *)

Definition domain_match (cookie_domain origin_host : bytes) : bool :=
  let c_size := zlen cookie_domain in
  let o_size := zlen origin_host in
  bool_decide (origin_host = cookie_domain) ||
  ((o_size >? c_size) && bool_decide (substr origin_host (o_size - c_size) c_size = cookie_domain) &&
   (zget 0 origin_host (o_size - c_size - 1) =? DOT)).
Definition path_match (cookie_path origin_path : bytes) : bool :=
  let c_size := zlen cookie_path in
  let o_size := zlen origin_path in
  bool_decide (ztake c_size origin_path = cookie_path) &&
  ((o_size =? c_size) || ((o_size >? c_size) && (Url.slash_at origin_path (c_size - 1) || Url.slash_at origin_path c_size))).

Definition absolute (p : bytes) : bool := match p with c :: _ => c =? SLASH | [] => false end.
Definition default_path (origin_path : bytes) : bytes :=
  if absolute origin_path then
    match find_last (Z.eqb SLASH) origin_path with
    | Some slash => ztake (if slash =? 0 then 1 else slash) origin_path
    | None => origin_path
    end
  else [SLASH].
Definition web_scheme (s : bytes) : bool := bool_decide (s = str "http") || bool_decide (s = str "https").
Definition parts (origin_xml : Element) : bytes * bytes * bytes :=
  (tolower (Url.child_content origin_xml (str "scheme")), tolower (Url.child_content origin_xml (str "host")), tolower (Url.child_content origin_xml (str "path"))).

Abbreviation jar := (list Cookie).
Definition take_cookie (now : Z) (origin : bytes) (xml : Element) (cookies : jar) (header : bytes) : option jar :=
  let '(origin_scheme, origin_host, origin_path) := parts xml in
  '(ok, cookie) ← read_from now header;
  Some
   (if negb ok then cookies
    else if match domain cookie with [] => false | d => negb (domain_match d origin_host) end then cookies
    else
      let cookie := if absolute (path cookie) then cookie else with_path cookie (default_path origin_path) in
      if http_only cookie && negb (web_scheme origin_scheme) then cookies
      else List.filter (fun c => negb (same c cookie)) cookies ++ [with_origin cookie now origin]).
Fixpoint take_all (now : Z) (origin : bytes) (xml : Element) (cookies : jar) (headers : list bytes) : option jar :=
  match headers with
  | [] => Some cookies
  | h :: headers => cookies ← take_cookie now origin xml cookies h; take_all now origin xml cookies headers
  end.
Definition take_cookies_from (now : Z) (response : Http.HTTPMessage) (origin : bytes) (cookies : jar) : option jar :=
  let headers := Mime.get_all (Http.headers response) (str "set-cookie") in
  let '(ok, xml) := Url.split origin Url.none in
  if negb ok then Some cookies else take_all now origin xml cookies headers.

(** Whether a cookie is added to a request *)
Definition sends (now : Z) (origin_scheme origin_host origin_path : bytes) (cookie : Cookie) : bool :=
  if negb (expires cookie =? 0) && (now >=? expires cookie) then false
  else if match domain cookie with
          | [] => negb (bool_decide (origin_host = Url.get_host (origin cookie)))
          | d => negb (domain_match d origin_host)
          end then false
  else if negb (path_match (path cookie) origin_path) then false
  else if secure cookie && negb (bool_decide (origin_scheme = str "https")) then false
  else if http_only cookie && negb (web_scheme origin_scheme) then false
  else true.
Definition append_cookie (s : bytes) (c : Cookie) : bytes := (match s with [] => [] | _ => s ++ str "; " end) ++ to_str c false.
Definition add_cookies_to (now : Z) (request : Http.HTTPMessage) (cookies : jar) : Http.HTTPMessage :=
  let '(ok, xml) := Url.split (Http.url request) Url.none in
  if negb ok then request else
  let '(origin_scheme, origin_host, origin_path) := parts xml in
  let origin_path := match origin_path with [] => [SLASH] | p => p end in
  match fold_left (fun s c => if sends now origin_scheme origin_host origin_path c then append_cookie s c else s) cookies [] with
  | [] => request
  | s => Http.with_headers request (Mime.put (Http.headers request) (str "cookie") s)
  end.
Definition prune (now : Z) (session_ended : bool) (cookies : jar) : jar :=
  List.filter (fun c => negb ((session_ended && (expires c =? 0)) || (negb (expires c =? 0) && (now >=? expires c)))) cookies.
Definition dump (cookies : jar) : bytes := flat_map (fun c => str "  " ++ to_str c true ++ [NL]) cookies.
End cookies.

Definition set_cookies (l : list bytes) : Http.HTTPMessage := Http.with_headers Http.new_message (with_children Mime.new_headers (map (new_Element (str "set-cookie")) l)).
Definition get_request (url : bytes) : Http.HTTPMessage := Http.mk_message (str "GET") url 0 [] (str "HTTP/1.0") Mime.new_headers [].
Definition visit (origin : bytes) (l : list bytes) (j : option (list Cookie)) : option (list Cookie) :=
  j ← j; take_cookies_from (fun _ => 0) 1 (set_cookies l) origin j.
Definition sent (url : bytes) (j : option (list Cookie)) : option bytes :=
  j ← j; Some (Mime.header (Http.headers (add_cookies_to (fun _ => []) 1 (get_request url) j)) (str "cookie")).
Example sent_back : sent (str "http://www.example.org/a/b/c")
  (visit (str "http://example.org/a/b/x") [str "n=v; Domain=.Example.org"; str "m=w; Secure; Domain=example.org"; str "o=1;domain=example.org;path=/"] (Some [])) = Some (str "n=v; o=1").
Proof. by vm_compute. Qed.
(** The path of a request is put into lower case, that of a cookie is not. *)
Example path_case : sent (str "http://example.org/Docs/") (visit (str "http://example.org/Docs/") [str "n=v; Path=/Docs"] (Some [])) = Some [].
Proof. by vm_compute. Qed.
(** So is the host of a request, but not that of an origin. *)
Example host_case : sent (str "http://Example.org/") (visit (str "http://Example.org/") [str "n=v"] (Some [])) = Some [].
Proof. by vm_compute. Qed.
(** Cookies of two hosts take the same place, if they name no domain. *)
Example two_hosts : sent (str "http://a.org/") (visit (str "http://b.org/") [str "n=2"] (visit (str "http://a.org/") [str "n=1"] (Some []))) = Some [].
Proof. by vm_compute. Qed.

(* ------------------------------------------------------------------ *)
(** ** Where cookies go *)

(** A host in a domain, and a path under another *)
Definition in_domain (d h : bytes) : Prop := h = d \/ exists p, h = p ++ DOT :: d.
Definition on_path (p q : bytes) : Prop := exists r, q = p ++ r /\ (r = [] \/ head r = Some SLASH \/ last p = Some SLASH).

Lemma split_at (h : bytes) n : 0 <= n < zlen h -> exists a x b, h = a ++ x :: b /\ zlen a = n.
Proof.
  intros Hn. exists (ztake n h). pose proof (zlen_zdrop n h ltac:(lia)) as Hd. destruct (zdrop n h) as [|x b] eqn:E; [change (zlen []) with 0 in Hd; lia|].
  exists x, b. rewrite <- E, ztake_zdrop. split; [done|]. rewrite zlen_ztake; lia.
Qed.
Lemma zget_mid a x (b : bytes) : zget 0 (a ++ x :: b) (zlen a) = x.
Proof. unfold zget, zlen. rewrite Nat2Z.id, app_nth2, Nat.sub_diag by lia. done. Qed.
Lemma slash_at_mid a x b : Url.slash_at (a ++ x :: b) (zlen a) = (x =? SLASH).
Proof.
  unfold Url.slash_at, char_at. pose proof (zlen_nonneg a). pose proof (zlen_nonneg b). rewrite zlen_app, zlen_cons.
  rewrite (proj2 (Z.leb_le _ _)), (proj2 (Z.ltb_lt _ _)) by lia. cbn [andb]. by rewrite zget_mid.
Qed.
Lemma slash_at_out s i : i < 0 \/ zlen s <= i -> Url.slash_at s i = false.
Proof.
  intros Hi. unfold Url.slash_at, char_at. assert ((0 <=? i) && (i <? zlen s) = false) as -> by lia. destruct (i =? zlen s); done.
Qed.

Lemma domain_match_spec d h : domain_match d h = true <-> in_domain d h.
Proof.
  unfold domain_match, in_domain. rewrite orb_true_iff, bool_decide_eq_true, !andb_true_iff, bool_decide_eq_true, Z.eqb_eq. pose proof (zlen_nonneg d).
  enough (((zlen h >? zlen d) = true /\ substr h (zlen h - zlen d) (zlen d) = d) /\ zget 0 h (zlen h - zlen d - 1) = DOT <-> exists p, h = p ++ DOT :: d) by tauto.
  split.
  - intros [[Hl Hs] Hz]. destruct (split_at h (zlen h - zlen d - 1)) as (a & x & b & -> & Ha); [lia|]. rewrite <- Ha, zget_mid in Hz. subst x.
    exists a. rewrite zlen_app, zlen_cons in *. unfold substr in Hs.
    replace (zlen a + (1 + zlen b) - zlen d) with (zlen a + 1) in Hs by lia. rewrite zdrop_past, ztake_ge in Hs by lia. by rewrite Hs.
  - intros (p & ->). rewrite zlen_app, zlen_cons. pose proof (zlen_nonneg p). split_and!; [lia| |].
    + replace (zlen p + (1 + zlen d) - zlen d) with (zlen p + 1) by lia. unfold substr. rewrite zdrop_past. by apply ztake_ge.
    + replace (zlen p + (1 + zlen d) - zlen d - 1) with (zlen p) by lia. by rewrite zget_mid.
Qed.
Lemma path_match_spec p q : path_match p q = true <-> on_path p q.
Proof.
  unfold path_match, on_path. rewrite andb_true_iff, bool_decide_eq_true, orb_true_iff, andb_true_iff, orb_true_iff, Z.eqb_eq.
  assert (Hlast : forall r, r <> [] -> Url.slash_at (p ++ r) (zlen p - 1) = true <-> last p = Some SLASH).
  { intros r Hr. destruct p as [|x p _] using rev_ind; [by rewrite slash_at_out by (change (zlen []) with 0; lia)|].
    rewrite last_snoc, <- app_assoc, zlen_app. change (zlen [x]) with 1. replace (zlen p + 1 - 1) with (zlen p) by lia. cbn [app]. rewrite slash_at_mid, Z.eqb_eq. split; [by intros ->|by intros [= ->]]. }
  assert (Hhead : forall x r, Url.slash_at (p ++ x :: r) (zlen p) = true <-> head (x :: r) = Some SLASH).
  { intros x r. rewrite slash_at_mid, Z.eqb_eq. cbn. split; [by intros ->|by intros [= ->]]. }
  split.
  - intros [Hp H]. assert (E : q = p ++ zdrop (zlen p) q) by (rewrite <- Hp at 1; by rewrite ztake_zdrop).
    revert E H. generalize (zdrop (zlen p) q) as r. clear Hp. intros r -> H. exists r. split; [done|]. destruct r as [|x r]; [by left|]. right.
    rewrite zlen_app, zlen_cons in H. pose proof (zlen_nonneg r). destruct H as [H|[_ [H|H]]]; [lia|right|left]; [by apply (Hlast (x :: r))|by apply (Hhead x r)].
  - intros (r & -> & H). rewrite ztake_app. split; [done|]. destruct r as [|x r]; [left; by rewrite app_nil_r|right].
    rewrite zlen_app, zlen_cons. pose proof (zlen_nonneg r). split; [lia|]. destruct H as [H|[H|H]]; [done|right; by apply (Hhead x r)|left; by apply (Hlast (x :: r))].
Qed.

Section history.
Context (atof : bytes -> Z) (rfc822 : Z -> bytes).

(** What happens to a jar *)
Inductive event := Take (now : Z) (response : Http.HTTPMessage) (origin : bytes) | Prune (now : Z) (session_ended : bool).
Definition step (cookies : option (list Cookie)) (e : event) : option (list Cookie) :=
  cookies ← cookies;
  match e with
  | Take now response origin => take_cookies_from atof now response origin cookies
  | Prune now session_ended => Some (prune now session_ended cookies)
  end.
Definition run (events : list event) : option (list Cookie) := fold_left step events (Some []).

(** The scheme, the host and the path of a URL, in lower case *)
Definition url_parts (url : bytes) : option (bytes * bytes * bytes) :=
  let '(ok, xml) := Url.split url Url.none in if ok then Some (parts xml) else None.
(** What a header of a response sets: a cookie of a domain of its origin, if it has one, with the path of its
    origin if it has none of its own *)
Definition sets (now : Z) (o header : bytes) (c : Cookie) : Prop :=
  exists c0 scheme host path0, read_from atof now header = Some (true, c0) /\ url_parts o = Some (scheme, host, path0) /\
    (domain c0 = [] \/ in_domain (domain c0) host) /\ (http_only c0 = true -> scheme = str "http" \/ scheme = str "https") /\
    c = with_origin (with_path c0 (if absolute (path c0) then path c0 else default_path path0)) now o.
Definition set_by (now : Z) (response : Http.HTTPMessage) (o : bytes) (c : Cookie) : Prop :=
  exists header, header ∈ Mime.get_all (Http.headers response) (str "set-cookie") /\ sets now o header c.
Definition place (c : Cookie) : bytes * bytes * bytes := (name c, domain c, path c).
Definition comes_from (events : list event) (c : Cookie) : Prop := exists now response o, Take now response o ∈ events /\ set_by now response o c.
Definition jar_ok (events : list event) (cookies : list Cookie) : Prop := NoDup (map place cookies) /\ Forall (comes_from events) cookies.

(** What the headers of a response do to a jar: each cookie that is set takes the place of one like it, at the end *)
Inductive takes (now : Z) (o : bytes) : list bytes -> list Cookie -> list Cookie -> Prop :=
  | takes_nil j : takes now o [] j j
  | takes_set h hs j c j' : sets now o h c ->
      takes now o hs (filter (fun x => place x <> place c) j ++ [c]) j' -> takes now o (h :: hs) j j'
  | takes_not h hs j j' : (forall c, ~ sets now o h c) -> takes now o hs j j' -> takes now o (h :: hs) j j'.
(** What an event does to a jar *)
Definition becomes (e : event) (j j' : list Cookie) : Prop :=
  match e with
  | Take now response o => takes now o (Mime.get_all (Http.headers response) (str "set-cookie")) j j'
  | Prune now ended => j' = filter (fun c => expires c = 0 /\ ended = false \/ expires c <> 0 /\ now < expires c) j
  end.

(** What a request may be sent *)
Definition allowed (now : Z) (url : bytes) (c : Cookie) : Prop :=
  exists scheme host path0, url_parts url = Some (scheme, host, path0) /\
    (expires c = 0 \/ now < expires c) /\
    (domain c = [] /\ host = Url.get_host (origin c) \/ domain c <> [] /\ in_domain (domain c) host) /\
    on_path (path c) (match path0 with [] => [SLASH] | p => p end) /\
    (secure c = true -> scheme = str "https") /\ (http_only c = true -> scheme = str "http" \/ scheme = str "https").
Definition cookies_text (cs : list Cookie) : bytes :=
  match cs with [] => [] | c :: cs => to_str rfc822 c false ++ flat_map (fun c => str "; " ++ to_str rfc822 c false) cs end.

Lemma same_place a b : same a b = true <-> place a = place b.
Proof.
  unfold same, place. rewrite !andb_true_iff, !bool_decide_eq_true. split; [by intros [[-> ->] ->]|by intros [= -> -> ->]].
Qed.
Lemma jar_remove (f : Cookie -> bool) events cookies : jar_ok events cookies -> jar_ok events (List.filter f cookies).
Proof.
  intros [H1 H2]. split.
  - induction cookies as [|c l IH]; [done|]. cbn [List.filter map] in *. apply NoDup_cons in H1 as [Hn H1]. apply Forall_cons in H2 as [_ H2].
    specialize (IH H1 H2). destruct (f c); [|done]. cbn [map]. apply NoDup_cons. split; [|done]. intros Hin. apply Hn.
    apply list_elem_of_fmap in Hin as (x & -> & [Hx _]%list_elem_of_In%filter_In). apply list_elem_of_fmap. exists x. split; [done|]. by apply list_elem_of_In.
  - apply Forall_forall. intros c [Hc _]%list_elem_of_In%filter_In. eapply Forall_forall in H2; [done|]. by apply list_elem_of_In.
Qed.
Lemma filter_prop {A} (f : A -> bool) (P : A -> Prop) `{!forall x, Decision (P x)} l :
  (forall x, f x = true <-> P x) -> List.filter f l = filter P l.
Proof.
  intros Hf. induction l as [|x l IH]; [done|]. rewrite filter_cons. cbn [List.filter]. rewrite IH.
  destruct (decide (P x)) as [Hx|Hx]; [by rewrite (proj2 (Hf x) Hx)|]. destruct (f x) eqn:E; [by apply Hf in E|done].
Qed.
Lemma filter_places cookies c : List.filter (fun x => negb (same x c)) cookies = filter (fun x => place x <> place c) cookies.
Proof.
  apply filter_prop. intros x. rewrite negb_true_iff, <- not_true_iff_false. by rewrite same_place.
Qed.
Lemma jar_replace events cookies c : jar_ok events cookies -> comes_from events c ->
  jar_ok events (filter (fun x => place x <> place c) cookies ++ [c]).
Proof.
  rewrite <- filter_places. intros H Hc. pose proof (jar_remove (fun x => negb (same x c)) _ _ H) as [H1 H2]. split.
  - rewrite map_app. apply NoDup_app. split; [done|]. split; [|by apply NoDup_singleton].
    intros q Hq. cbn [map]. intros ->%list_elem_of_singleton. apply list_elem_of_fmap in Hq as (x & Hx & [_ Hs]%list_elem_of_In%filter_In).
    rewrite (proj2 (same_place x c)) in Hs; [done|]. done.
  - apply Forall_app. split; [done|]. by constructor.
Qed.
Lemma split_some q c max : exists fs, Strings.split q c true max = Some fs.
Proof. unfold Strings.split. rewrite split_from_ok by (unfold zlen; lia). by eexists. Qed.
Lemma read_attributes_total now pairs : forall c, exists r, read_attributes atof now c pairs = Some r.
Proof.
  induction pairs as [|q pairs IH]; intros c; cbn [read_attributes]; [by eexists|]. destruct (split_some q PropertyList.EQUALS 2) as (fs & ->). apply IH.
Qed.
Lemma read_from_total now h : exists r, read_from atof now h = Some r.
Proof.
  unfold read_from. destruct (split_some h PropertyList.SEMICOLON 0) as ([|q pairs] & ->); cbn [mbind option_bind]; [by eexists|].
  destruct (split_some q PropertyList.EQUALS 2) as (fs & ->). cbn [mbind option_bind].
  destruct fs as [|[|x n] [|v [|? ?]]]; try by eexists. destruct (read_attributes_total now pairs (with_value new_cookie (x :: n) (unquote v))) as (r & ->). by eexists.
Qed.
Lemma web_scheme_spec s : web_scheme s = true <-> s = str "http" \/ s = str "https".
Proof. unfold web_scheme. by rewrite orb_true_iff, !bool_decide_eq_true. Qed.

Lemma take_cookie_spec now o xml cookies h : Url.split o Url.none = (true, xml) ->
  exists j, take_cookie atof now o xml cookies h = Some j /\
    ((exists c, sets now o h c /\ j = filter (fun x => place x <> place c) cookies ++ [c]) \/
     ((forall c, ~ sets now o h c) /\ j = cookies)).
Proof.
  intros Hx. assert (Hparts : url_parts o = Some (parts xml)) by (unfold url_parts; by rewrite Hx).
  unfold take_cookie, sets. rewrite Hparts. destruct (parts xml) as [[scheme host] path0].
  destruct (read_from_total now h) as ([ok c0] & Er). rewrite Er. cbn [mbind option_bind].
  eexists. split; [reflexivity|]. destruct ok; cbn [negb]; [|right; split; [|done]; by intros c (? & ? & ? & ? & [=] & _)].
  assert (Hdom : (match domain c0 with [] => false | d => negb (domain_match d host) end) = false <->
    domain c0 = [] \/ in_domain (domain c0) host).
  { destruct (domain c0) as [|x d]; [split; [by left|done]|]. rewrite negb_false_iff, domain_match_spec. naive_solver. }
  destruct (match domain c0 with [] => false | d => negb (domain_match d host) end).
  { right. split; [|done]. intros c (c1 & ? & ? & ? & [= <-] & [= <- <- <-] & Hd & _). by apply Hdom in Hd. }
  set (c := if absolute (path c0) then c0 else with_path c0 (default_path path0)).
  assert (Hc : c = with_path c0 (if absolute (path c0) then path c0 else default_path path0)) by (unfold c; destruct (absolute (path c0)); [by destruct c0|done]).
  rewrite Hc. cbn [http_only with_path]. destruct (http_only c0 && negb (web_scheme scheme)) eqn:Eh.
  - right. split; [|done]. intros c' (c1 & ? & ? & ? & [= <-] & [= <- <- <-] & _ & Hh & _).
    apply andb_true_iff in Eh as [E1 E2]. apply Hh, web_scheme_spec in E1. by rewrite E1 in E2.
  - left. exists (with_origin (with_path c0 (if absolute (path c0) then path c0 else default_path path0)) now o).
    split; [|rewrite filter_places; reflexivity]. exists c0. do 3 eexists. split_and!; [done|done|by apply Hdom| |done].
    intros E. rewrite E in Eh. apply web_scheme_spec. by destruct (web_scheme scheme).
Qed.
Lemma take_all_takes now o xml : Url.split o Url.none = (true, xml) -> forall headers cookies,
  exists j, take_all atof now o xml cookies headers = Some j /\ takes now o headers cookies j.
Proof.
  intros Hx. induction headers as [|h headers IH]; intros cookies; cbn [take_all]; [eexists; split; [done|constructor]|].
  destruct (take_cookie_spec now o xml cookies h Hx) as (j & -> & Hj). cbn [mbind option_bind].
  destruct (IH j) as (j' & -> & Hj'). exists j'. split; [done|].
  destruct Hj as [(c & Hc & ->)|[Hn ->]]; [by eapply takes_set|by apply takes_not].
Qed.
Lemma takes_ok events now response o headers j j' : takes now o headers j j' -> Take now response o ∈ events ->
  (forall h, h ∈ headers -> h ∈ Mime.get_all (Http.headers response) (str "set-cookie")) -> jar_ok events j -> jar_ok events j'.
Proof.
  induction 1 as [j|h hs j c j' Hc _ IH|h hs j j' _ _ IH]; intros He Hin Hj; [done| |].
  - apply IH; [done| |].
    + intros x Hx. apply Hin. by right.
    + apply jar_replace; [done|]. exists now, response, o. split; [done|]. exists h. split; [apply Hin; by left|done].
  - apply IH; [done| |done]. intros x Hx. apply Hin. by right.
Qed.
Lemma step_becomes e j : exists j', step (Some j) e = Some j' /\ becomes e j j'.
Proof.
  destruct e as [now response o|now ended]; cbn [step mbind option_bind becomes].
  - unfold take_cookies_from. destruct (Url.split o Url.none) as [[] xml] eqn:E; cbn [negb]; [by apply take_all_takes|].
    exists j. split; [done|]. generalize (Mime.get_all (Http.headers response) (str "set-cookie")) as hs.
    induction hs as [|h hs IH]; [constructor|]. apply takes_not; [|done]. intros c (? & ? & ? & ? & _ & H & _).
    unfold url_parts in H. by rewrite E in H.
  - eexists. split; [done|]. apply filter_prop. intros c. rewrite negb_true_iff.
    destruct ended, (Z.eqb_spec (expires c) 0), (Z.geb_spec now (expires c)); cbn; naive_solver lia.
Qed.
Lemma jar_more events events' cookies : (forall e, e ∈ events -> e ∈ events') -> jar_ok events cookies -> jar_ok events' cookies.
Proof.
  intros H [H1 H2]. split; [done|]. eapply Forall_impl; [exact H2|]. intros c (now & response & o & He & Hs). exists now, response, o. split; [by apply H|done].
Qed.
Lemma run_ok events : exists cookies, run events = Some cookies /\ jar_ok events cookies.
Proof.
  induction events as [|e events (cookies & Hr & Hj)] using rev_ind; [exists []; split; [done|]; split; constructor|].
  unfold run in *. rewrite fold_left_app, Hr. cbn [fold_left].
  assert (Hj' : jar_ok (events ++ [e]) cookies) by (apply (jar_more events); [|done]; intros x Hx; apply elem_of_app; by left).
  destruct (step_becomes e cookies) as (j' & -> & Hb). exists j'. split; [done|]. destruct e as [now response o|now ended].
  - eapply takes_ok; [exact Hb| |done|done]. apply elem_of_app. right. by left.
  - simpl in Hb. subst j'. assert (E : exists g, filter (fun c => expires c = 0 /\ ended = false \/ expires c <> 0 /\ now < expires c) cookies = List.filter g cookies).
    { exists (fun c => bool_decide (expires c = 0 /\ ended = false \/ expires c <> 0 /\ now < expires c)). symmetry. apply filter_prop.
      intros c. apply bool_decide_eq_true. }
    destruct E as [g ->]. by apply jar_remove.
Qed.

Lemma to_str_nonempty c : to_str rfc822 c false <> [].
Proof. unfold to_str. destruct (name c); done. Qed.
Lemma append_all (f : Cookie -> bool) cookies : forall s, fold_left (fun s c => if f c then append_cookie rfc822 s c else s) cookies s =
  match s with [] => cookies_text (List.filter f cookies) | _ => s ++ flat_map (fun c => str "; " ++ to_str rfc822 c false) (List.filter f cookies) end.
Proof.
  induction cookies as [|c cookies IH]; intros s; cbn [fold_left List.filter]; [destruct s; [done|by rewrite app_nil_r]|].
  rewrite IH. destruct (f c); [|done]. unfold append_cookie. pose proof (to_str_nonempty c). destruct s as [|x s].
  - cbn [app cookies_text]. by destruct (to_str rfc822 c false).
  - cbn [flat_map app]. by rewrite <- !app_assoc.
Qed.
Lemma sends_spec now url c scheme host path0 : url_parts url = Some (scheme, host, path0) ->
  sends now scheme host (match path0 with [] => [SLASH] | p => p end) c = true <-> allowed now url c.
Proof.
  intros Hu. set (p := match path0 with [] => [SLASH] | p => p end).
  assert (Ha : allowed now url c <-> (expires c = 0 \/ now < expires c) /\
    (domain c = [] /\ host = Url.get_host (origin c) \/ domain c <> [] /\ in_domain (domain c) host) /\ on_path (path c) p /\
    (secure c = true -> scheme = str "https") /\ (http_only c = true -> scheme = str "http" \/ scheme = str "https")).
  { unfold allowed. rewrite Hu. split; [by intros (? & ? & ? & [= <- <- <-] & H)|]. intros H. by exists scheme, host, path0. }
  rewrite Ha. clear Ha. unfold sends. rewrite <- path_match_spec, <- web_scheme_spec, <- domain_match_spec.
  assert (Hd : match domain c with [] => negb (bool_decide (host = Url.get_host (origin c))) | d => negb (domain_match d host) end = false <->
    domain c = [] /\ host = Url.get_host (origin c) \/ domain c <> [] /\ domain_match (domain c) host = true).
  { destruct (domain c) as [|x d]; [rewrite negb_false_iff, bool_decide_eq_true|rewrite negb_false_iff]; naive_solver. }
  rewrite <- Hd. clear Hd. generalize (match domain c with [] => negb (bool_decide (host = Url.get_host (origin c))) | d => negb (domain_match d host) end). intros [].
  { destruct (_ && _); split; naive_solver. }
  destruct (Z.eqb_spec (expires c) 0), (Z.geb_spec now (expires c)), (path_match (path c) p), (secure c), (http_only c), (web_scheme scheme), (bool_decide_reflect (scheme = str "https")); cbn; naive_solver lia.
Qed.

(** C31: after any responses and any pruning, the cookies of a jar differ in name, domain or path, and each was set by a header of one of the responses, whose origin (its host in lower case) is in its domain if it has one.  A response puts each cookie that its headers set into the jar, last, in the place of one of the same name, domain and path; pruning leaves exactly those that have not expired, without those of a session that has ended.  To a request is added the text, in their order, of those cookies that have not expired, that are not only for a scheme other than that of the request, whose domain the host of the request, in lower case, is in, or equals the host of their origin for those without a domain, and whose path the path of the request, in lower case too, is under: a cookie whose path, or whose origin's host, has capitals is not sent back (Examples [path_case] and [host_case]). *)
Theorem cookies_stay events : exists cookies, run events = Some cookies /\ jar_ok events cookies /\
  (forall e, exists cookies', run (events ++ [e]) = Some cookies' /\ becomes e cookies cookies') /\
  forall now request, exists f, (forall c, f c = true <-> allowed now (Http.url request) c) /\
    add_cookies_to rfc822 now request cookies = match List.filter f cookies with
      | [] => request
      | cs => Http.with_headers request (Mime.put (Http.headers request) (str "cookie") (cookies_text cs))
      end.
Proof.
  destruct (run_ok events) as (cookies & Hr & Hj). exists cookies. split; [done|]. split; [done|]. split.
  { intros e. unfold run in *. rewrite fold_left_app, Hr. apply step_becomes. }
  intros now request.
  assert (Hu : forall scheme host path0, url_parts (Http.url request) = Some (scheme, host, path0) -> forall c, sends now scheme host (match path0 with [] => [SLASH] | p => p end) c = true <-> allowed now (Http.url request) c).
  { intros scheme host path0 H c. by apply sends_spec. }
  unfold add_cookies_to. unfold url_parts in Hu at 1. destruct (Url.split (Http.url request) Url.none) as [[] xml] eqn:E; cbn [negb].
  - destruct (parts xml) as [[scheme host] path0]. eexists. split; [by apply Hu|]. rewrite append_all.
    destruct (List.filter _ cookies) as [|c cs]; [done|]. cbn [cookies_text]. pose proof (to_str_nonempty c). by destruct (to_str rfc822 c false).
  - exists (fun _ => false). split.
    + intros c. split; [done|]. intros (? & ? & ? & H & _). unfold url_parts in H. by rewrite E in H.
    + by assert (List.filter (fun _ : Cookie => false) cookies = []) as -> by (clear; by induction cookies).
Qed.
End history.
End Cookies.
