(* ===== verification/Misc.v ===== *)
(** * Dumps, UUIDs and random numbers

    Models [Dumper] ([src/libs/misc/dumper.cc]), [UUID] ([uuid.cc]) and [Random]
    ([random.cc]), all of them of [ot-misc.h].  What a generator takes from the
    system to start again is a parameter, as is the output of one for a UUID. *)
From S2P Require Export Strings Base64.

Module Dumper.
Import Strings.

Record Dumper := mk_Dumper { width : Z; split : Z; ascii : bool }.
Definition new_dumper : Dumper := mk_Dumper 16 4 true.

(** [hex << setw(n) << setfill('0')] *)
Definition pad_hex (n v : Z) : bytes := let s := print_base 16 v in replicate (Z.to_nat (n - zlen s)) 48 ++ s.
Definition isprint (c : Z) : bool := (32 <=? c) && (c <=? 126).
Definition gap (d : Dumper) (i : Z) : bytes := if negb (split d =? 0) && (Z.rem i (split d) =? 0) then [SP] else [].
(** The line of the bytes [p] at [offset] *)
Definition dump_line (d : Dumper) (offset : Z) (p : bytes) : bytes :=
  let w := zlen p in
  pad_hex 4 offset ++ str ":" ++
  flat_map (fun i => gap d i ++ pad_hex 2 (zget 0 p i)) (zseq 0 (length p)) ++
  (if ascii d then
     flat_map (fun i => gap d i ++ str "  ") (zseq w (Z.to_nat (width d - w))) ++
     str " | " ++ map (fun c => if isprint c then c else 46) p
   else []) ++ [NL].
(** The loop does not end if the width is not positive. *)
Fixpoint dump_loop (fuel : nat) (d : Dumper) (block : bytes) (offset : Z) : option bytes :=
  if offset <? zlen block then
    match fuel with
    | O => None
    | S fuel =>
      let w := Z.min (zlen block - offset) (width d) in
      rest ← dump_loop fuel d block (offset + w);
      Some (dump_line d offset (ztake w (zdrop offset block)) ++ rest)
    end
  else Some [].
Definition dump (d : Dumper) (block : bytes) : option bytes := dump_loop (length block) d block 0.

Example hello : dump new_dumper (str "Hello, big world!") = Some (
  str "0000: 48656c6c 6f2c2062 69672077 6f726c64 | Hello, big world" ++ [NL] ++
  str "0010: 21                                  | !" ++ [NL]).
Proof. reflexivity. Qed.

(** The lines of a block, [width] bytes each but for the last *)
Fixpoint lines (fuel : nat) (n : Z) (block : bytes) : list bytes :=
  match fuel, block with
  | S fuel, _ :: _ => ztake n block :: lines fuel n (zdrop n block)
  | _, _ => []
  end.
Lemma dump_lines d block : 0 < width d ->
  exists ls, dump d block = Some (concat (map (fun '(k, l) => dump_line d (width d * Z.of_nat k) l) (zip (seq 0 (length ls)) ls))) /\
    concat ls = block /\ Forall (fun l => l <> [] /\ zlen l <= width d) ls.
Proof.
  intros Hw. exists (lines (length block) (width d) block). split_and!.
  - unfold dump.
    enough (H : forall fuel k, (Z.to_nat (zlen block - width d * Z.of_nat k) <= fuel)%nat -> (k = O \/ width d * Z.of_nat k <= zlen block + width d) ->
      dump_loop fuel d block (width d * Z.of_nat k) = Some (concat (map (fun '(k, l) => dump_line d (width d * Z.of_nat k) l)
        (zip (seq k (length (lines fuel (width d) (zdrop (width d * Z.of_nat k) block)))) (lines fuel (width d) (zdrop (width d * Z.of_nat k) block)))))).
    { specialize (H (length block) O). rewrite Z.mul_0_r, zdrop_0 in H. apply H; [unfold zlen; lia|by left]. }
    intros fuel. induction fuel as [|fuel IH]; intros k Hf _; pose proof (zlen_zdrop (width d * Z.of_nat k) block ltac:(lia)) as Hz; cbn [dump_loop].
    + rewrite (proj2 (Z.ltb_ge _ _)) by lia. done.
    + cbn [lines]. destruct (Z.ltb_spec (width d * Z.of_nat k) (zlen block)) as [Hlt|Hge].
      * assert (Hne : zdrop (width d * Z.of_nat k) block <> []) by (intros E; rewrite E in Hz; change (zlen []) with 0 in Hz; lia).
        set (rest := zdrop (width d * Z.of_nat k) block) in *. destruct rest as [|x l] eqn:E; [done|]. rewrite <- E. clear Hne.
        destruct (Z.le_gt_cases (width d) (zlen block - width d * Z.of_nat k)) as [Hle|Hgt].
        -- rewrite Z.min_r by lia. replace (width d * Z.of_nat k + width d) with (width d * Z.of_nat (S k)) by lia. rewrite IH by lia. cbn [mbind option_bind].
           assert (zdrop (width d) rest = zdrop (width d * Z.of_nat (S k)) block) as ->.
           { unfold rest. rewrite zdrop_zdrop by lia. f_equal. lia. }
           done.
        -- rewrite Z.min_l by lia. replace (width d * Z.of_nat k + (zlen block - width d * Z.of_nat k)) with (zlen block) by lia.
           assert (dump_loop fuel d block (zlen block) = Some []) as -> by (destruct fuel; cbn [dump_loop]; by rewrite Z.ltb_irrefl).
           assert (Hr : zlen rest = zlen block - width d * Z.of_nat k) by (rewrite E, Hz; lia).
           assert (zdrop (width d) rest = []) as -> by (apply zdrop_ge; lia). rewrite !ztake_ge by lia. cbn [mbind option_bind]. destruct fuel; done.
      * destruct (zdrop _ block) as [|x l]; [done|]. rewrite zlen_cons in Hz. pose proof (zlen_nonneg l). lia.
  - generalize (Nat.le_refl (length block)). generalize (length block) at 2 3 as fuel. intros fuel. revert block.
    induction fuel as [|fuel IH]; intros [|x l] Hl; try done; [simpl in Hl; lia|]. cbn [lines concat]. rewrite IH; [apply ztake_zdrop|].
    unfold zdrop. rewrite length_drop. simpl in *. lia.
  - generalize (length block) as fuel. intros fuel. revert block. induction fuel as [|fuel IH]; intros [|x l]; cbn [lines]; constructor; [|apply IH].
    split; [unfold ztake; replace (Z.to_nat (width d)) with (S (Z.to_nat (width d - 1))) by lia; done|]. rewrite zlen_ztake by lia. lia.
Qed.
End Dumper.

Module Random.
Import Dumper.

Definition REINIT_PERIOD : Z := 67.
Record Random := mk_Random { w : Z; z : Z; count : Z }.
Definition new_random : Random := mk_Random 0 0 0.

Section random.
(** The seed from the system, which may depend on the old one *)
Context (reseed : Z -> Z -> Z * Z).

Definition next (r : Random) : Z * Random :=
  let z := u32 (36969 * Z.land (z r) 65535 + Z.shiftr (z r) 16) in
  let w := u32 (18000 * Z.land (w r) 65535 + Z.shiftr (w r) 16) in
  (u8 (fold_left Z.lxor [w; Z.shiftr z 8; Z.shiftr w 8; Z.shiftr z 16; Z.shiftr w 16; Z.shiftr z 24; Z.shiftr w 24] z),
   mk_Random w z (count r)).
Fixpoint next_bytes (n : nat) (r : Random) : bytes * Random :=
  match n with
  | O => ([], r)
  | S n => let '(b, r) := next r in let '(p, r) := next_bytes n r in (b :: p, r)
  end.
Definition generate_binary (n : Z) (r : Random) : bytes * Random :=
  let again := Z.rem (count r) REINIT_PERIOD =? 0 in
  let '(w', z') := if again then reseed (w r) (z r) else (w r, z r) in
  next_bytes (Z.to_nat n) (mk_Random (u32 w') (u32 z') (i32 (count r + 1))).
Definition generate_hex (n : Z) (r : Random) : bytes * Random :=
  let '(p, r) := generate_binary n r in (flat_map (pad_hex 2) p, r).
Definition le (l : bytes) : Z := fold_right (fun b n => b + 256 * n) 0 l.
(** On a little-endian machine *)
Definition generate_32 (r : Random) : Z * Random := let '(p, r) := generate_binary 4 r in (le p, r).
Definition generate_64 (r : Random) : Z * Random := let '(p, r) := generate_binary 8 r in (le p, r).
(** Division by zero has no meaning. *)
Definition generate_up_to (n : Z) (r : Random) : option Z * Random :=
  let '(x, r) := generate_32 r in (if n =? 0 then None else Some (x mod n), r).
End random.
End Random.

Module UUID.
Import Strings.

Definition HYPHEN : Z := 45.
Definition nil : bytes := replicate 16 0.
Definition new_UUID (s : bytes) : bytes :=
  let fill d := d ++ replicate (16 - length d) 0 in
  let size := zlen s in
  if size =? 16 then s
  else if size =? 36 then fill (snd (xtob_block (List.filter (fun c => negb (c =? HYPHEN)) s) 16))
  else if size =? 32 then fill (snd (xtob_block s 16))
  else nil.
Definition insert (n : Z) (s : bytes) : bytes := ztake n s ++ [HYPHEN] ++ zdrop n s.
Definition get_hex_str (u : bytes) : bytes := btox u.
Definition get_str (u : bytes) : bytes := insert 8 (insert 12 (insert 16 (insert 20 (get_hex_str u)))).
Definition get_base64_str (u : bytes) : bytes := Base64.encode Base64.base64_default u 0 [13; 10].
Definition has_value (u : bytes) : bool := existsb (fun b => negb (b =? 0)) u.
(** The loop of [randomise], over what a generator gives *)
Fixpoint randomise (fuel : nat) (reseed : Z -> Z -> Z * Z) (r : Random.Random) : option bytes :=
  match fuel with
  | O => None
  | S fuel => let '(u, r) := Random.generate_binary reseed 16 r in if has_value u then Some u else randomise fuel reseed r
  end.

Lemma btox_digits u : bytes_ok u -> Forall (fun c => negb (c =? HYPHEN) = true) (btox u).
Proof.
  induction 1 as [|b u Hb _ IH]; [done|]. unfold byte_ok in Hb. cbn [btox flat_map]. unfold hex_byte at 1. cbn [app].
  pose proof (digit_char_range (b / 16) ltac:(Z.div_mod_to_equations; lia)). pose proof (digit_char_range (b mod 16) ltac:(Z.div_mod_to_equations; lia)).
  unfold HYPHEN. constructor; [lia|]. constructor; [lia|done].
Qed.
Lemma filter_all (p : Z -> bool) l : Forall (fun c => p c = true) l -> List.filter p l = l.
Proof. induction 1 as [|x l Hx _ IH]; [done|]. cbn [List.filter]. by rewrite Hx, IH. Qed.
Lemma filter_insert n s : List.filter (fun c => negb (c =? HYPHEN)) (insert n s) = List.filter (fun c => negb (c =? HYPHEN)) s.
Proof. unfold insert. rewrite !List.filter_app. cbn [List.filter app]. change (negb (HYPHEN =? HYPHEN)) with false. cbv iota. cbn [app]. by rewrite <- List.filter_app, ztake_zdrop. Qed.
Lemma insert_length n s : zlen (insert n s) = zlen s + 1.
Proof. rewrite <- (ztake_zdrop n s) at 2. unfold insert. rewrite !zlen_app. change (zlen [HYPHEN]) with 1. lia. Qed.
(** The three texts of a UUID are read back. *)
Lemma uuid_roundtrip u : bytes_ok u -> zlen u = 16 -> new_UUID (get_str u) = u /\ new_UUID (get_hex_str u) = u /\ new_UUID u = u.
Proof.
  intros Hb Hu. assert (Hx : zlen (btox u) = 32) by (unfold zlen in *; rewrite btox_length; lia).
  assert (Hs : zlen (get_str u) = 36) by (unfold get_str, get_hex_str; rewrite !insert_length; lia).
  assert (Hblock : snd (xtob_block (btox u) 16) = u).
  { unfold xtob_block. rewrite Hx. cbn [Z.div Z.gtb]. change (u32 (32 / 2)) with 16. cbn [Z.gtb Z.compare Pos.compare Pos.compare_cont].
    rewrite <- (app_nil_r (btox u)), xtob_loop_btox by (done || unfold zlen in Hu; lia). done. }
  assert (Hfill : u ++ replicate (16 - length u) 0 = u) by (replace (16 - length u)%nat with O by (unfold zlen in Hu; lia); apply app_nil_r).
  unfold new_UUID. split_and!.
  - rewrite Hs. cbn [Z.eqb Pos.eqb]. unfold get_str. rewrite !filter_insert, filter_all by (by apply btox_digits). unfold get_hex_str. by rewrite Hblock.
  - unfold get_hex_str. rewrite Hx. cbn [Z.eqb Pos.eqb]. by rewrite Hblock.
  - by rewrite Hu.
Qed.
Example uuid_text : get_str (new_UUID (str "00112233445566778899aAbBcCdDeEfF")) = str "00112233-4455-6677-8899-aabbccddeeff".
Proof. reflexivity. Qed.
End UUID.
