(* ===== verification/WebSocket.v ===== *)
(** * Web sockets

    Models [src/libs/web/websocket.cc] with the classes of it in
    [src/libs/web/ot-web.h]: frames, over the contract of the channels ([Chan.v]),
    and the server's side of the protocol.  The stream is a channel in each
    direction; [flush] is what the stream does with what was written.  The lock
    is held by one write at a time.  Logging is left out.

    The reference is the framing of RFC 6455, masked as a client does or not. *)
From S2P Require Export Chan ChanImpl Misc.

Module WebSocket.
Import Strings.

Definition continuation : Z := 0.
Definition text : Z := 1.
Definition binary : Z := 2.
Definition close : Z := 8.
Definition ping : Z := 9.
Definition pong : Z := 10.
Record Frame := mk_frame { fin : bool; opcode : Z; payload : bytes }.

(** ** Frames *)

Section read.
Context {R : Type} `{Reader R}.

Fixpoint unmask (mask_key : bytes) (i : Z) (payload : bytes) : bytes :=
  match payload with
  | [] => []
  | b :: payload => Z.lxor b (zget 0 mask_key (i mod 4)) :: unmask mask_key (i + 1) payload
  end.
(** Whether there is a mask, and the length of the payload *)
Definition read_length : M R Error (bool * Z) :=
  let! mask_len := read_byte in
  let masked := negb (Z.land mask_len 0x80 =? 0) in
  let len := Z.land mask_len 0x7f in
  let! len := (if len =? 126 then read_nbo_16 else if len =? 127 then read_nbo_64 else ret len) in
  ret (masked, len).
Definition read_frame : M R Error Frame :=
  let! fin_op := read_byte in
  let fin := negb (Z.land fin_op 0x80 =? 0) in
  let opcode := Z.land fin_op 0x0F in
  let! ml := read_length in
  let masked := fst ml in
  let len := snd ml in
  let! mask_key := (if masked then Chan.read 4 else ret []) in
  let! payload := read_string len in
  ret (mk_frame fin opcode (if masked then unmask mask_key 0 payload else payload)).
(** An exception of the channel is caught. *)
Definition try_frame (r : R) : option Frame * R :=
  match read_frame r with (Val f, r) => (Some f, r) | (Throw _, r) => (None, r) end.
End read.

Section write.
Context {W : Type} `{Writer W}.

Definition write_frame (f : Frame) : M W Error unit :=
  write_byte (if fin f then Z.lor (u8 (opcode f)) 0x80 else u8 (opcode f)) ;;;
  let len := zlen (payload f) in
  (if len <? 126 then write_byte len
   else if len <=? 0xFFFF then write_byte 126 ;;; write_nbo_16 len
   else write_byte 127 ;;; write_nbo_64 len) ;;;
  Chan.write (payload f).
(** [WebSocketServer::write]: whether it was written *)
Definition send (flush : W -> W) (f : Frame) (w : W) : bool * W :=
  match write_frame f w with (Val _, w) => (true, flush w) | (Throw _, w) => (false, w) end.
Definition write_text (flush : W -> W) (msg : bytes) : W -> bool * W := send flush (mk_frame true text msg).
Definition write_binary (flush : W -> W) (msg : bytes) : W -> bool * W := send flush (mk_frame true binary msg).
Definition send_close (flush : W -> W) (w : W) : W := snd (send flush (mk_frame true close []) w).
End write.

(** ** Messages *)

(** [WebSocketServer::read]: whether a message was received, the message and the two channels *)
Fixpoint read_message {R W} `{Reader R} `{Writer W} (fuel : nat) (flush : W -> W) (r : R) (w : W) (msg : bytes) : option (bool * bytes * R * W) :=
  match fuel with
  | O => None
  | S fuel =>
    let '(frame, r) := try_frame r in
    match frame with
    | None => Some (false, msg, r, w)
    | Some frame =>
      let op := opcode frame in
      if (op =? continuation) || (op =? text) || (op =? binary) then
        let msg := msg ++ payload frame in
        if fin frame then Some (true, msg, r, w) else read_message fuel flush r w msg
      else if op =? close then
        Some (false, msg, r, snd (send flush frame w))
      else if op =? ping then
        read_message fuel flush r (snd (send flush (mk_frame true pong (payload frame)) w)) msg
      else read_message fuel flush r w msg
    end
  end.

Definition opcode_text (op : Z) : bytes :=
  if op =? continuation then str "continuation" else if op =? text then str "text" else if op =? binary then str "binary"
  else if op =? close then str "close" else if op =? ping then str "ping" else if op =? pong then str "pong" else str "UNKNOWN".
Definition dump (f : Frame) (dump_payload : bool) : option bytes :=
  rest ← (if dump_payload then
            if opcode f =? text then Some (str "  [" ++ payload f ++ str "]" ++ [NL]) else Dumper.dump Dumper.new_dumper (payload f)
          else Some []);
  Some (str "WebSocket Frame " ++ (if fin f then str "FIN " else []) ++ itos (opcode f) ++ str " (" ++ opcode_text (opcode f) ++
        str ") len " ++ i64tos (zlen (payload f)) ++ [NL] ++ rest).

(* ------------------------------------------------------------------ *)
(** ** RFC 6455 *)

Definition frame_ok (f : Frame) : Prop := 0 <= opcode f < 16 /\ bytes_ok (payload f) /\ zlen (payload f) < 2 ^ 63.
(** The header of a frame, and the payload masked with the key if there is one *)
Definition length_bytes (masked : bool) (len : Z) : bytes :=
  let m := if masked then 128 else 0 in
  if len <? 126 then [m + len] else if len <? 2 ^ 16 then (m + 126) :: hton 2 len else (m + 127) :: hton 8 len.
(** Octet [i] is masked with octet [i MOD 4] of the key: the key goes round as the payload is masked. *)
Fixpoint masked_with (key p : bytes) : bytes :=
  match p, key with
  | x :: p, k :: key => Z.lxor x k :: masked_with (key ++ [k]) p
  | _, _ => []
  end.
Definition frame_bytes (key : option bytes) (f : Frame) : bytes :=
  [(if fin f then 128 else 0) + opcode f] ++
  length_bytes (match key with Some _ => true | None => false end) (zlen (payload f)) ++
  match key with Some key => key ++ masked_with key (payload f) | None => payload f end.
Definition key_ok (key : option bytes) : Prop := match key with Some k => bytes_ok k /\ length k = 4%nat | None => True end.

Lemma masked_with_unmask key p : length key = 4%nat -> masked_with key p = unmask key 0 p.
Proof.
  intros Hk. enough (H : forall i, 0 <= i -> masked_with (zdrop (i mod 4) key ++ ztake (i mod 4) key) p = unmask key i p).
  { specialize (H 0 ltac:(lia)). change (0 mod 4) with 0 in H. by rewrite zdrop_0, app_nil_r in H. }
  destruct key as [|a [|b [|c [|d [|]]]]]; try done. clear Hk. induction p as [|x p IH]; intros i Hi.
  { by destruct (_ ++ _). }
  cbn [unmask]. rewrite <- IH by lia. rewrite Z.add_mod by lia. pose proof (Z.mod_pos_bound i 4 ltac:(lia)).
  assert (i mod 4 = 0 \/ i mod 4 = 1 \/ i mod 4 = 2 \/ i mod 4 = 3) as [-> | [-> | [-> | ->]]] by lia; reflexivity.
Qed.
Lemma unmask_unmask key p : forall i, unmask key i (unmask key i p) = p.
Proof. induction p as [|b p IH]; intros i; [done|]. cbn [unmask]. rewrite IH, Z.lxor_assoc, Z.lxor_nilpotent, Z.lxor_0_r. done. Qed.
Lemma unmask_length key p : forall i, zlen (unmask key i p) = zlen p.
Proof. induction p as [|b p IH]; intros i; [done|]. cbn [unmask]. by rewrite !zlen_cons, IH. Qed.
(** Decide a property of the bytes by evaluating it. *)
Lemma byte_forall (f : Z -> bool) : forallb f (zseq 0 256) = true -> forall b, 0 <= b < 256 -> f b = true.
Proof. intros H b Hb. by apply (range_forall f 256). Qed.

Section frames.
Context {R : Type} `{ReaderLaws R} `{!ReadsNothing R}.

Lemma length_byte (masked : bool) l : 0 <= l < 128 -> negb (Z.land ((if masked then 128 else 0) + l) 0x80 =? 0) = masked /\ Z.land ((if masked then 128 else 0) + l) 0x7f = l.
Proof.
  intros Hl. assert (Hall : forallb (fun l => (negb (Z.land (128 + l) 0x80 =? 0)) && (Z.land (128 + l) 0x7f =? l) && (Z.land l 0x80 =? 0) && (Z.land l 0x7f =? l)) (zseq 0 128) = true) by (vm_compute; done).
  pose proof (range_forall _ 128 Hall l ltac:(lia)) as H'. cbv beta in H'. apply andb_prop in H' as [[[H1 H2%Z.eqb_eq]%andb_prop H3]%andb_prop H4%Z.eqb_eq].
  destruct masked; [done|]. rewrite Z.add_0_l, H3. done.
Qed.
Lemma first_byte (fin : bool) op : 0 <= op < 16 -> negb (Z.land ((if fin then 128 else 0) + op) 0x80 =? 0) = fin /\ Z.land ((if fin then 128 else 0) + op) 0x0F = op.
Proof.
  intros Hl. assert (Hall : forallb (fun l => (negb (Z.land (128 + l) 0x80 =? 0)) && (Z.land (128 + l) 0x0F =? l) && (Z.land l 0x80 =? 0) && (Z.land l 0x0F =? l)) (zseq 0 16) = true) by (vm_compute; done).
  pose proof (range_forall _ 16 Hall op ltac:(lia)) as H'. cbv beta in H'. apply andb_prop in H' as [[[H1 H2%Z.eqb_eq]%andb_prop H3]%andb_prop H4%Z.eqb_eq].
  destruct fin; [done|]. rewrite Z.add_0_l, H3. done.
Qed.
Lemma reads_length (masked : bool) len (s : R) rest : 0 <= len < 2 ^ 63 -> r_ok s -> pending s = length_bytes masked len ++ rest -> reads read_length s (masked, len) rest.
Proof.
  intros Hlen Hok Hp. unfold length_bytes in Hp. set (m := if masked then 128 else 0) in *.
  assert (Hgo : forall l tail, 0 <= l < 128 -> pending s = (m + l) :: tail ->
    (forall s', r_ok s' -> pending s' = tail -> reads (if l =? 126 then read_nbo_16 else if l =? 127 then read_nbo_64 else ret l) s' len rest) ->
    reads read_length s (masked, len) rest).
  { intros l tail Hl Hpe Hr. destruct (length_byte masked l Hl) as [H1 H2]. fold m in H1, H2. unfold read_length.
    eapply reads_bind; [by apply reads_byte|]. intros s' Hok' Hp'. rewrite H1, H2.
    eapply reads_bind; [by apply Hr|]. intros s2 Hok2 Hp2. by apply reads_ret. }
  destruct (Z.ltb_spec len 126).
  - apply (Hgo len rest); [lia|done|]. intros s' Hok' Hp'. rewrite (proj2 (Z.eqb_neq len 126)), (proj2 (Z.eqb_neq len 127)) by lia. by apply reads_ret.
  - destruct (Z.ltb_spec len (2 ^ 16)).
    + apply (Hgo 126 (hton 2 len ++ rest)); [lia|done|]. intros s' Hok' Hp'. cbn [Z.eqb Pos.eqb].
      pose proof (reads_field nbo s' (hton 2 len) rest 2 Hok' Hp') as Hread. rewrite nbo_hton, wrap_small in Hread by (unfold in_u; lia). by apply Hread.
    + apply (Hgo 127 (hton 8 len ++ rest)); [lia|done|]. intros s' Hok' Hp'. cbn [Z.eqb Pos.eqb]. apply read_nbo_64_hton; [unfold in_u; lia|done|done].
Qed.
Lemma reads_frame key f (s : R) rest : frame_ok f -> key_ok key -> r_ok s -> pending s = frame_bytes key f ++ rest -> reads read_frame s f rest.
Proof.
  intros (Hop & Hb & Hlen) Hk Hok Hp. unfold frame_bytes in Hp. rewrite <- !app_assoc in Hp. destruct (first_byte (fin f) (opcode f) Hop) as [H1 H2].
  unfold read_frame. eapply reads_bind; [by apply reads_byte|]. intros s1 Hok1 Hp1. rewrite H1, H2. pose proof (zlen_nonneg (payload f)).
  eapply reads_bind; [apply reads_length; [|done|exact Hp1]; change (2 ^ 63) with 9223372036854775808 in *; lia|]. intros s2 Hok2 Hp2. cbn [fst snd]. destruct key as [key|].
  - destruct Hk as [Hkb Hkl]. rewrite (masked_with_unmask key _ Hkl), <- app_assoc in Hp2. eapply reads_bind.
    { pose proof (reads_read s2 key (unmask key 0 (payload f) ++ rest) Hok2 Hp2) as Hr. unfold zlen in Hr. rewrite Hkl in Hr. apply Hr. by intros ->. }
    intros s3 Hok3 Hp3. eapply reads_bind; [rewrite <- (unmask_length key (payload f) 0); by apply reads_read_string|].
    intros s4 Hok4 Hp4. rewrite unmask_unmask. destruct f. by apply reads_ret.
  - eapply reads_bind; [by apply reads_ret|]. intros s3 Hok3 Hp3. eapply reads_bind; [by apply reads_read_string|].
    intros s4 Hok4 Hp4. destruct f. by apply reads_ret.
Qed.
End frames.

Section writing.
Context {W : Type} `{WriterLaws W}.
Lemma writes_frame f : frame_ok f -> writes (write_frame f) (frame_bytes None f).
Proof.
  intros (Hop & Hb & Hlen). pose proof (zlen_nonneg (payload f)). unfold write_frame, frame_bytes, length_bytes.
  assert (Hu : u8 (opcode f) = opcode f) by (apply wrap_small; unfold in_u; lia).
  apply writes_bind; [|apply writes_bind].
  - eapply writes_eq; [apply writes_byte|]. rewrite Hu. f_equal.
    assert (Hall : forallb (fun op => (u8 (Z.lor op 128) =? 128 + op) && (u8 op =? op)) (zseq 0 16) = true) by (vm_compute; done).
    pose proof (range_forall _ 16 Hall (opcode f) ltac:(lia)) as H'. cbv beta in H'. apply andb_prop in H' as [Hu1%Z.eqb_eq Hu2%Z.eqb_eq]. by destruct (fin f).
  - destruct (Z.ltb_spec (zlen (payload f)) 126).
    + eapply writes_eq; [apply writes_byte|]. by rewrite wrap_small by (unfold in_u; lia).
    + destruct (Z.leb_spec (zlen (payload f)) 0xFFFF), (Z.ltb_spec (zlen (payload f)) (2 ^ 16)); try lia.
      * change (0 + 126 :: hton 2 (zlen (payload f))) with ([u8 126] ++ hton 2 (zlen (payload f))). apply writes_bind; [apply writes_byte|].
        eapply writes_eq; [apply writes_nbo_16|]. by rewrite (wrap_small 16) by (unfold in_u; lia).
      * change (0 + 127 :: hton 8 (zlen (payload f))) with ([u8 127] ++ hton 8 (zlen (payload f))). apply writes_bind; [apply writes_byte|].
        apply writes_nbo_64. unfold in_u. lia.
  - by apply writes_basic.
Qed.
End writing.

(** C32: a frame that is written has the bytes of RFC 6455, unmasked, and the bytes of a frame, masked with any key of four bytes, octet [i] with octet [i MOD 4] of the key, or not masked, are read as the frame, with what follows left in the channel. *)
Theorem websocket_roundtrip {R W : Type} `{ReaderLaws R} `{!ReadsNothing R} `{WriterLaws W} f : frame_ok f ->
  writes (S := W) (write_frame f) (frame_bytes None f) /\
  forall key (s : R) rest, key_ok key -> r_ok s -> pending s = frame_bytes key f ++ rest -> reads read_frame s f rest.
Proof. intros Hf. split; [by apply writes_frame|]. intros. by eapply reads_frame. Qed.

(** ** Messages *)

Definition is_data (op : Z) : bool := (op =? continuation) || (op =? text) || (op =? binary).
(** A frame after which [read] goes on *)
Definition goes_on (f : Frame) : Prop := opcode f <> close /\ (is_data (opcode f) = true -> fin f = false).
Definition gathered (fs : list Frame) : bytes := flat_map (fun f => if is_data (opcode f) then payload f else []) fs.
Definition as_pong (f : Frame) : Frame := mk_frame true pong (payload f).
Definition replies (fs : list Frame) : bytes := flat_map (fun f => if opcode f =? ping then frame_bytes None (as_pong f) else []) fs.
Definition frames_bytes (l : list (option bytes * Frame)) : bytes := flat_map (fun p => frame_bytes (fst p) (snd p)) l.
Definition sound (p : option bytes * Frame) : Prop := key_ok (fst p) /\ frame_ok (snd p).

Section messages.
Context {R W : Type} `{HR : ReaderLaws R} `{!ReadsNothing R} `{HW : WriterLaws W} (flush : W -> W).
(** What [flush] does to a channel *)
Hypothesis flush_law : forall w : W, w_ok w -> w_ok (flush w) /\ Chan.written (flush w) = Chan.written w /\ forall n, fits w n -> fits (flush w) n.

Lemma try_frame_reads key f (r : R) rest : key_ok key -> frame_ok f -> r_ok r -> pending r = frame_bytes key f ++ rest ->
  exists r', try_frame r = (Some f, r') /\ r_ok r' /\ pending r' = rest.
Proof.
  intros Hk Hf Hok Hp. destruct (reads_frame key f r rest Hf Hk Hok Hp) as (r' & E & Hok' & Hp'). exists r'. unfold try_frame. by rewrite E.
Qed.
Lemma send_writes f (w : W) : frame_ok f -> w_ok w -> fits w (zlen (frame_bytes None f)) ->
  exists w', send flush f w = (true, w') /\ w_ok w' /\ Chan.written w' = Chan.written w ++ frame_bytes None f /\
    forall n, 0 <= n -> fits w (zlen (frame_bytes None f) + n) -> fits w' n.
Proof.
  intros Hf Hok Hfit. destruct (writes_frame f Hf) as [_ Hw]. destruct (Hw w Hok Hfit) as (w' & E & Hok' & Hwr & Hn).
  destruct (flush_law w' Hok') as (H1 & H2 & H3). exists (flush w'). unfold send. rewrite E. split_and!; [done|done|congruence|]. intros n Hn0 Hn1. by apply H3, Hn.
Qed.

Lemma read_on (l : list (option bytes * Frame)) rest : Forall sound l -> Forall goes_on (map snd l) -> forall fuel (r : R) (w : W) msg,
  r_ok r -> pending r = frames_bytes l ++ rest -> w_ok w -> fits w (zlen (replies (map snd l))) ->
  exists r' w', read_message (length l + fuel) flush r w msg = read_message fuel flush r' w' (msg ++ gathered (map snd l)) /\
    r_ok r' /\ pending r' = rest /\ w_ok w' /\ Chan.written w' = Chan.written w ++ replies (map snd l) /\
    forall n, 0 <= n -> fits w (zlen (replies (map snd l)) + n) -> fits w' n.
Proof.
  intros Hs Hg fuel. induction l as [|[key f] l IH]; intros r w msg Hr Hp Hw Hfit.
  { exists r, w. rewrite !app_nil_r. split_and!; try done. }
  apply Forall_cons in Hs as [[Hk Hf] Hs]. apply Forall_cons in Hg as [[Hclose Hfin] Hg]. cbn [map fst snd] in *.
  unfold frames_bytes in Hp. cbn [flat_map fst snd] in Hp. rewrite <- app_assoc in Hp. fold (frames_bytes l) in Hp.
  destruct (try_frame_reads key f r _ Hk Hf Hr Hp) as (r1 & E1 & Hr1 & Hp1). cbn [length Nat.add read_message]. rewrite E1. fold (is_data (opcode f)).
  unfold gathered, replies in *. cbn [flat_map] in *. destruct (is_data (opcode f)) eqn:Ed.
  - rewrite (Hfin eq_refl). assert (Hping : (opcode f =? ping) = false) by (unfold is_data, continuation, text, binary, ping in *; lia). rewrite Hping in *.
    cbn [app] in *. rewrite app_assoc. by apply IH.
  - rewrite (proj2 (Z.eqb_neq _ _) Hclose). destruct (opcode f =? ping) eqn:Eping; [|by apply IH].
    assert (Hpong : frame_ok (as_pong f)) by (destruct Hf as (_ & H1 & H2); split; [unfold as_pong, pong; cbn; lia|done]).
    rewrite zlen_app in Hfit. pose proof (zlen_nonneg (frame_bytes None (as_pong f))). set (k := zlen (flat_map _ (map snd l))) in *.
    assert (0 <= k) by apply zlen_nonneg.
    destruct (send_writes (as_pong f) w Hpong Hw) as (w1 & E2 & Hw1 & Hwr1 & Hn1); [eapply fits_le; [exact Hfit|lia]|].
    fold (as_pong f). rewrite E2. cbn [snd]. destruct (IH Hs Hg r1 w1 msg Hr1 Hp1 Hw1) as (r2 & w2 & -> & Hr2 & Hp2 & Hw2 & Hwr2 & Hn2); [by apply Hn1|].
    exists r2, w2. split_and!; try done; [rewrite Hwr2, Hwr1; by rewrite app_assoc|].
    intros n Hn Hfn. apply Hn2; [done|]. apply Hn1; [lia|]. rewrite zlen_app in Hfn. by replace (zlen (frame_bytes None (as_pong f)) + (k + n)) with (zlen (frame_bytes None (as_pong f)) + k + n) by lia.
Qed.
End messages.

(** ** The fuel is enough *)

Section ends.
Context {R : Type} `{HR : ReaderLaws R} `{!ReadsNothing R}.
(** [m] leaves the channel in order, and takes [k] bytes from it if it does not throw *)
Definition takes {A} (k : nat) (P : A -> Prop) (m : M R Error A) : Prop :=
  forall s, r_ok s -> r_ok (snd (m s)) /\ forall a s', m s = (Val a, s') -> P a /\ (length (pending s') + k <= length (pending s))%nat.
Lemma takes_ret {A} (a : A) (P : A -> Prop) : P a -> takes 0 P (ret a).
Proof. intros Ha s Hs. split; [done|]. intros a' s' [= <- <-]. split; [done|lia]. Qed.
Lemma takes_bind {A B} k k' (P : A -> Prop) (Q : B -> Prop) (m : M R Error A) f : takes k P m -> (forall a, P a -> takes k' Q (f a)) -> takes (k + k') Q (bind m f).
Proof.
  intros Hm Hf s Hs. destruct (Hm s Hs) as [H1 H2]. unfold bind. destruct (m s) as [[a|e] s1]; cbn [snd] in H1; [|by split].
  destruct (H2 a s1 eq_refl) as [Ha Hl]. destruct (Hf a Ha s1 H1) as [H3 H4]. split; [done|]. intros b s2 Hb. destruct (H4 b s2 Hb) as [HQ Hl']. split; [done|lia].
Qed.
Lemma takes_less {A} k k' (P : A -> Prop) (m : M R Error A) : takes k P m -> (k' <= k)%nat -> takes k' P m.
Proof. intros Hm Hk s Hs. destruct (Hm s Hs) as [H1 H2]. split; [done|]. intros a s' E. destruct (H2 a s' E). split; [done|lia]. Qed.
Lemma takes_delivers (op : Z -> M R Error (option bytes)) n what : 0 < n -> (forall s, r_ok s -> delivers r_ok pending get_offset op s n) ->
  takes (Z.to_nat n) bytes_ok (let! r := op n in match r with Some d => ret d | None => throw (mk_Error 0 what) end).
Proof.
  intros Hn Hop s Hs. destruct (Hop s Hs) as (s' & Hs' & [(Hle & E & Hp & _)|[(Hnil & E & _)|(_ & _ & _ & e & E & _)]]); unfold bind; rewrite E; (split; [done|]).
  - intros a s2 [= <- <-]. pose proof (pending_bytes s Hs) as Hb. rewrite <- (ztake_zdrop n (pending s)) in Hb. apply Forall_app in Hb as [Hb _]. split; [done|].
    rewrite Hp. unfold zdrop, zlen in *. rewrite length_drop. lia.
  - by intros a s2 [=].
  - by intros a s2 [=].
Qed.
Lemma takes_read n : 0 < n -> takes (Z.to_nat n) bytes_ok (Chan.read n).
Proof. intros Hn. apply takes_delivers; [done|]. intros s Hs. by apply try_read_law. Qed.
Lemma takes_read_string n : 0 <= n -> takes (Z.to_nat n) bytes_ok (read_string n).
Proof.
  intros Hn. destruct (Z.eq_dec n 0) as [->|Hne]; [|apply takes_delivers; [lia|]; intros s Hs; apply try_read_string_law; [done|lia]].
  intros s Hs. unfold read_string, bind. rewrite try_read_string_0 by done. split; [done|]. intros a s' [= <- <-]. split; [constructor|lia].
Qed.
Lemma nbo_unsigned d : bytes_ok d -> 0 <= nbo d.
Proof.
  intros Hd. unfold nbo. enough (Hn : forall n, 0 <= n -> 0 <= fold_left (fun n b => n * 256 + b) d n) by (by apply Hn).
  induction Hd as [|b d Hb _ IH]; intros n Hn; [done|]. cbn [fold_left]. apply IH. unfold byte_ok in Hb. lia.
Qed.
Lemma takes_field {A} n (P : A -> Prop) (f : bytes -> A) : 0 < n -> (forall d, bytes_ok d -> P (f d)) -> takes (Z.to_nat n) P (bind (Chan.read n) (fun d => ret (f d))).
Proof.
  intros Hn Hf. replace (Z.to_nat n) with (Z.to_nat n + 0)%nat by lia. eapply takes_bind; [by apply takes_read|]. intros d Hd. apply takes_ret. by apply Hf.
Qed.
Lemma takes_frame : takes 2 (fun _ => True) read_frame.
Proof.
  unfold read_frame. apply (takes_bind 1 1 (fun _ => True)); [by apply (takes_field 1)|]. intros fin_op _.
  apply (takes_bind 1 0 (fun ml => 0 <= snd ml)).
  - unfold read_length. apply (takes_bind 1 0 (fun _ => True)); [by apply (takes_field 1)|]. intros ml _.
    apply (takes_bind 0 0 (fun l => 0 <= l)); [|intros l Hl; by apply takes_ret].
    assert (0 <= Z.land ml 0x7f) by (change 0x7f with (Z.ones 7); rewrite Z.land_ones by lia; apply Z.mod_pos_bound; lia).
    destruct (_ =? 126); [|destruct (_ =? 127); [|by apply takes_ret]].
    + eapply takes_less; [apply (takes_field 2); [lia|by apply nbo_unsigned]|lia].
    + unfold read_nbo_64. apply (takes_bind 0 0 (fun _ => True)); [eapply takes_less; [by apply (takes_field 4)|lia]|]. intros a _.
      apply (takes_bind 0 0 (fun _ => True)); [eapply takes_less; [by apply (takes_field 4)|lia]|]. intros b _. apply takes_ret. by apply wrap_range.
  - intros [masked len] Hlen. cbn [fst snd] in *. apply (takes_bind 0 0 (fun _ => True)).
    + destruct masked; [|by apply takes_ret]. eapply (takes_less _ _ (fun _ => True)); [|apply Nat.le_0_l].
      intros s Hs. destruct (takes_read 4 ltac:(lia) s Hs) as [H1 H2]. split; [done|]. intros a s' E. destruct (H2 a s' E). split; [done|eassumption].
    + intros key _. apply (takes_bind 0 0 (fun _ => True)); [|intros p _; by apply takes_ret].
      intros s Hs. destruct (takes_read_string len Hlen s Hs) as [H1 H2]. split; [done|]. intros a s' E. destruct (H2 a s' E). split; [done|lia].
Qed.
Lemma read_message_ends {W} `{Writer W} (flush : W -> W) fuel : forall (r : R) (w : W) msg, r_ok r -> (length (pending r) < fuel)%nat ->
  exists res, read_message fuel flush r w msg = Some res.
Proof.
  induction fuel as [|fuel IH]; intros r w msg Hr Hf; [lia|]. cbn [read_message]. destruct (takes_frame r Hr) as [H1 H2]. unfold try_frame.
  destruct (read_frame r) as [[f|e] r1]; [|by eexists]. cbn [snd] in H1. destruct (H2 f r1 eq_refl) as [_ Hl].
  destruct (_ || _); [destruct (fin f); [by eexists|apply IH; [done|lia]]|]. destruct (opcode f =? close); [by eexists|].
  destruct (opcode f =? ping); apply IH; done || lia.
Qed.
End ends.

(** Reading a message gives the payloads of its data frames up to the one that is final, whatever other frames come in between, and has answered each ping among them by a pong with its payload; a close frame ends it, and is sent back; and it ends whatever is in the channel. *)
Theorem websocket_message {R W : Type} `{ReaderLaws R} `{!ReadsNothing R} `{WriterLaws W} (flush : W -> W) :
  (forall w : W, w_ok w -> w_ok (flush w) /\ Chan.written (flush w) = Chan.written w /\ forall n, fits w n -> fits (flush w) n) ->
  (forall l key f rest fuel (r : R) (w : W), Forall sound l -> Forall goes_on (map snd l) -> sound (key, f) -> r_ok r -> w_ok w ->
    pending r = frames_bytes (l ++ [(key, f)]) ++ rest ->
    (is_data (opcode f) && fin f = true -> fits w (zlen (replies (map snd l))) ->
      exists r' w', read_message (length l + S fuel) flush r w [] = Some (true, gathered (map snd l) ++ payload f, r', w') /\
        pending r' = rest /\ Chan.written w' = Chan.written w ++ replies (map snd l)) /\
    (opcode f = close -> fits w (zlen (replies (map snd l)) + zlen (frame_bytes None f)) ->
      exists r' w', read_message (length l + S fuel) flush r w [] = Some (false, gathered (map snd l), r', w') /\
        pending r' = rest /\ Chan.written w' = Chan.written w ++ replies (map snd l) ++ frame_bytes None f)) /\
  (forall fuel (r : R) (w : W) msg, r_ok r -> (length (pending r) < fuel)%nat -> exists res, read_message fuel flush r w msg = Some res).
Proof.
  intros Hflush. split; [|intros; by apply read_message_ends].
  intros l key f rest fuel r w Hs Hg [Hk Hf] Hr Hw Hp. cbn [fst snd] in *. unfold frames_bytes in Hp. rewrite flat_map_app in Hp. cbn [flat_map fst snd] in Hp.
  rewrite app_nil_r, <- app_assoc in Hp. fold (frames_bytes l) in Hp.
  assert (Hlast : forall r1, r_ok r1 -> pending r1 = frame_bytes key f ++ rest -> exists r2, try_frame r1 = (Some f, r2) /\ pending r2 = rest).
  { intros r1 Hr1 Hp1. destruct (try_frame_reads key f r1 rest Hk Hf Hr1 Hp1) as (r2 & ? & ? & ?). by exists r2. }
  split.
  - intros Hd Hfit. apply andb_prop in Hd as [Hd Hfin]. destruct (read_on flush Hflush l _ Hs Hg (S fuel) r w [] Hr Hp Hw Hfit) as (r1 & w1 & -> & Hr1 & Hp1 & Hw1 & Hwr & _).
    destruct (Hlast r1 Hr1 Hp1) as (r2 & E & Hp2). exists r2, w1. cbn [read_message app]. rewrite E. fold (is_data (opcode f)). rewrite Hd, Hfin. done.
  - intros Hc Hfit. destruct (read_on flush Hflush l _ Hs Hg (S fuel) r w [] Hr Hp Hw) as (r1 & w1 & -> & Hr1 & Hp1 & Hw1 & Hwr & Hn).
    { eapply fits_le; [exact Hfit|]. pose proof (zlen_nonneg (replies (map snd l))). pose proof (zlen_nonneg (frame_bytes None f)). lia. }
    destruct (Hlast r1 Hr1 Hp1) as (r2 & E & Hp2). destruct (send_writes flush Hflush f w1 Hf Hw1) as (w2 & E2 & _ & Hwr2 & _); [apply Hn; [apply zlen_nonneg|done]|].
    exists r2, w2. cbn [read_message app]. rewrite E. fold (is_data (opcode f)). assert (is_data (opcode f) = false) as -> by (rewrite Hc; done). rewrite Hc. cbn [Z.eqb close Pos.eqb].
    rewrite E2. split_and!; [done|done|]. by rewrite Hwr2, Hwr, app_assoc.
Qed.

Definition sample : Frame := mk_frame true text (str "Hi").
Definition key : bytes := [55; 250; 33; 61].
Lemma sample_frame_ok : frame_ok sample.
Proof. split; [done|]. split; [vm_decide|done]. Defined.
Lemma websocket_roundtrip_witness : exists s', read_frame (StringReader.init (frame_bytes (Some key) sample ++ [1])) = (Val sample, s') /\
  snd (write_frame sample StringWriter.init) = snd (basic_write [129; 2; 72; 105] StringWriter.init).
Proof.
  destruct (websocket_roundtrip (R := StringReader.t) (W := StringWriter.t) sample sample_frame_ok) as [_ Hr].
  destruct (Hr (Some key) (StringReader.init (frame_bytes (Some key) sample ++ [1])) [1]) as (s' & E & _).
  - split; [vm_decide|done].
  - apply string_init_ok; [vm_decide|vm_decide].
  - reflexivity.
  - exists s'. split; [exact E|reflexivity].
Defined.
Lemma websocket_message_witness : exists r' w',
  read_message 4 (fun w => w) (StringReader.init (frames_bytes [(Some key, mk_frame false text (str "Hel")); (Some key, mk_frame true ping [7]); (Some key, mk_frame true continuation (str "lo"))] ++ [1]))
    StringWriter.init [] = Some (true, str "Hello", r', w') /\ StringWriter.data w' = frame_bytes None (mk_frame true pong [7]).
Proof.
  destruct (websocket_message (R := StringReader.t) (W := StringWriter.t) (fun w => w)) as [Hm _].
  - intros w Hw. by split_and!.
  - destruct (Hm [(Some key, mk_frame false text (str "Hel")); (Some key, mk_frame true ping [7])] (Some key) (mk_frame true continuation (str "lo")) [1] 1%nat
      (StringReader.init (frames_bytes [(Some key, mk_frame false text (str "Hel")); (Some key, mk_frame true ping [7]); (Some key, mk_frame true continuation (str "lo"))] ++ [1]))
      StringWriter.init) as [Hd _].
    + repeat constructor; vm_decide.
    + repeat constructor; (vm_compute; done).
    + split; [split; [vm_decide|done]|]. split; [done|]. split; [vm_decide|done].
    + apply string_init_ok; [vm_decide|vm_decide].
    + done.
    + done.
    + destruct (Hd eq_refl) as (r' & w' & E & _ & Hw); [done|]. exists r', w'. split; [exact E|exact Hw].
Defined.
End WebSocket.
