(* ===== verification/RangeText.v ===== *)
(** * Range sets: the intersection of many, and text

    Models the rest of [RangeSet] ([src/libs/misc/ot-misc.h], [range.cc]): the
    intersection of a list of sets, which walks over the starts and ends of
    all of them in order, and the forms of a set in text and in XML.  The gauge
    is computed in floating point, and is not here. *)
From S2P Require Export RangeSet Strings Element.

Module RangeText.
Import Strings.
Import Range (start, length, end_).

(** ** The intersection of a list of sets *)

(** [IntersectState]: the ranges from the iterator on, and whether their end is next *)
Record IntersectState := mk_state { it : list Range.t; at_end : bool }.
Definition event (s : IntersectState) : option Z :=
  match it s with [] => None | r :: _ => Some (if at_end s then end_ r else start r) end.
(** The states before the first of those with the least event, that event, and the rest *)
Fixpoint first_event (l : list IntersectState) : option (list IntersectState * Z * list IntersectState) :=
  match l with
  | [] => None
  | s :: l' =>
    match event s, first_event l' with
    | Some e, Some (pre, e', post) => if e' <? e then Some (s :: pre, e', post) else Some ([], e, l)
    | Some e, None => Some ([], e, l)
    | None, Some (pre, e', post) => Some (s :: pre, e', post)
    | None, None => None
    end
  end.
Fixpoint intersect_loop (fuel : nat) (state : list IntersectState) (result : RangeSet) (count current_start : Z) : option RangeSet :=
  match first_event state with
  | None => Some result
  | Some (pre, e, post) =>
    match fuel, post with
    | S fuel, first :: post =>
      if at_end first then
        intersect_loop fuel (pre ++ mk_state (tail (it first)) false :: post)
          (if count =? zlen state then RangeSet.insert current_start (u64 (e - current_start)) result else result) (u32 (count - 1)) current_start
      else
        let count := u32 (count + 1) in
        intersect_loop fuel (pre ++ mk_state (it first) true :: post) result count (if count =? zlen state then e else current_start)
    | _, _ => None
    end
  end.
Definition intersection_of (sets : list RangeSet) : option RangeSet :=
  intersect_loop (S (2 * list_sum (map (fun s => List.length (ranges s)) sets)))
    (map (fun s => mk_state (ranges s) false) sets) (init 0) 0 0.

Example three_sets : intersection_of [mk_RangeSet [Range.mk 0 10; Range.mk 20 10] 30; mk_RangeSet [Range.mk 5 20] 30; mk_RangeSet [Range.mk 2 7; Range.mk 10 12] 30] =
  Some (mk_RangeSet [Range.mk 5 4; Range.mk 20 2] 22).
Proof. reflexivity. Qed.

(** ** Text and XML *)

Definition COMMA : Z := 44.
Definition HYPHEN : Z := 45.
(** The start is read as an [int]. *)
Definition read_text_range (rs : RangeSet) (range : bytes) : option RangeSet :=
  match range with
  | [] => Some rs
  | _ =>
    ends ← Strings.split range HYPHEN true 0;
    let start := u64 (stoi (default [] (head ends))) in
    let length := match ends with _ :: e :: _ => u64 (stoi64 e - start + 1) | _ => 1 end in
    Some (RangeSet.insert start length rs)
  end.
Definition read_text (text : bytes) (rs : RangeSet) : option RangeSet :=
  ranges ← Strings.split text COMMA true 0;
  fold_left (fun rs range => rs ← rs; read_text_range rs range) ranges (Some rs).
Definition range_text (r : Range.t) : bytes :=
  i64tos (start r) ++ if length r >? 1 then HYPHEN :: i64tos (u64 (start r + length r - 1)) else [].
Definition to_text (rs : RangeSet) : bytes :=
  fold_left (fun s r => (match s with [] => [] | _ => s ++ [COMMA] end) ++ range_text r) (ranges rs) [].
Definition dump (rs : RangeSet) : bytes := flat_map (fun r => i64tos (start r) ++ str ", " ++ i64tos (length r) ++ [NL]) (ranges rs).

Definition elements (e : Element) (n : bytes) : list Element := omap (fun i => children e !! i) (get_children e n).
Definition read_from_xml (parent : Element) (element_name : bytes) (rs : RangeSet) : RangeSet :=
  fold_left (fun rs range => RangeSet.insert (get_attr_int64 range (str "start") 0) (get_attr_int64 range (str "length") 0) rs)
    (elements parent element_name) (mk_RangeSet (ranges rs) (get_attr_int64 parent (str "end_offset") 0)).
Definition range_element (element_name : bytes) (r : Range.t) : Element :=
  set_attr_int64 (set_attr_int64 (new_Element element_name []) (str "start") (start r)) (str "length") (length r).
Definition add_to_xml (parent : Element) (element_name : bytes) (rs : RangeSet) : Element :=
  set_attr_int64 (fold_left (fun p r => add p (range_element element_name r)) (ranges rs) parent) (str "end_offset") (end_offset rs).

Example text_form : to_text (mk_RangeSet [Range.mk 1 100; Range.mk 110 1; Range.mk 200 801] 0) = str "1-100,110,200-1000".
Proof. reflexivity. Qed.
(** A start of 2^31 or more is not read back. *)
Example far_start : read_text (to_text (mk_RangeSet [Range.mk (2 ^ 32) 1] 0)) (init 0) = Some (mk_RangeSet [Range.mk 0 1] 1).
Proof. reflexivity. Qed.

(** ** The walk *)

Lemma first_event_None l : first_event l = None -> Forall (fun s => it s = []) l.
Proof.
  induction l as [|s l IH]; intros Hf; [done|]. cbn [first_event] in Hf. unfold event in Hf.
  destruct (it s) eqn:Hs; destruct (first_event l) as [[[??]?]|]; try discriminate.
  - auto.
  - by case_match.
Qed.
Lemma first_event_Some l pre e post : first_event l = Some (pre, e, post) ->
  exists s post', post = s :: post' /\ l = pre ++ post /\ event s = Some e /\
    Forall (fun s => forall e', event s = Some e' -> e <= e') l.
Proof.
  revert pre e post. induction l as [|s l IH]; intros pre e post Hf; [done|]. cbn [first_event] in Hf.
  destruct (event s) as [e0|] eqn:He, (first_event l) as [[[pre' e'] post']|] eqn:Hl.
  - destruct (IH _ _ _ eq_refl) as (s1 & p1 & -> & -> & He1 & Hall).
    destruct (Z.ltb_spec e' e0); simplify_eq.
    + exists s1, p1. split_and!; [done..|]. constructor; [|done]. intros ? ?. simplify_eq. lia.
    + exists s, (pre' ++ s1 :: p1). split_and!; [done..|]. constructor; [intros ? ?; simplify_eq; lia|].
      eapply Forall_impl; [exact Hall|]. cbn beta. intros ? Hx ? ?. specialize (Hx _ ltac:(eassumption)). lia.
  - simplify_eq. exists s, l. split_and!; [done..|]. constructor; [intros ? ?; simplify_eq; lia|].
    eapply Forall_impl; [exact (first_event_None _ Hl)|]. unfold event. intros ? ->. done.
  - simplify_eq. destruct (IH _ _ _ eq_refl) as (s1 & p1 & -> & -> & He1 & Hall).
    exists s1, p1. split_and!; [done..|]. constructor; [by rewrite He|done].
  - done.
Qed.

(** At time [t], the ranges that are left begin later, but for one that is not over. *)
Definition state_ok (t : Z) (s : IntersectState) : Prop :=
  from 0 (it s) /\
  match it s with
  | [] => at_end s = false
  | r :: _ => if at_end s then start r <= t <= start r + length r else t <= start r
  end.
Definition open (s : IntersectState) : Z := if at_end s then 1 else 0.
Definition steps (s : IntersectState) : nat := (2 * List.length (it s) - (if at_end s then 1 else 0))%nat.
Definition within (x : Z) (s : IntersectState) : Prop := Exists (in_range x) (it s).

Lemma from_head r l : from 0 (r :: l) -> proper r /\ from 0 l /\ forall x, Exists (in_range x) l -> start r + length r < x.
Proof.
  cbn [from]. intros (H1 & H2 & H3 & H4). split; [done|].
  assert (forall lo, from lo l -> forall x, Exists (in_range x) l -> lo <= x) as Hlo.
  { clear. induction l as [|r l IH]; intros lo Hl x Hx; [by apply Exists_nil in Hx|]. cbn in Hl. destruct Hl as (?&?&?&Hl).
    apply Exists_cons in Hx as [Hx|Hx]; [unfold in_range in Hx; lia|]. specialize (IH _ Hl x Hx). lia. }
  split; [by eapply from_weaken; [|exact H4]; lia|]. intros x Hx. specialize (Hlo _ H4 x Hx). lia.
Qed.
Lemma event_ok t s e : state_ok t s -> event s = Some e -> t <= e < 2 ^ 64 /\ 0 <= e.
Proof.
  unfold state_ok, event. destruct (it s) as [|r l]; [done|]. intros [Hf Ht] He. apply from_head in Hf as (Hp & _).
  rewrite (end_proper r Hp) in He. destruct Hp as (?&?&?). destruct (at_end s); simplify_eq; lia.
Qed.
(** Time goes on to an event before all others. *)
Lemma state_ok_later t e s : t <= e -> (forall e', event s = Some e' -> e <= e') -> state_ok t s -> state_ok e s.
Proof.
  unfold state_ok, event. intros Hte He [Hf Ht]. split; [done|]. destruct (it s) as [|r l]; [done|].
  apply from_head in Hf as (Hp & _). rewrite (end_proper r Hp) in He. specialize (He _ eq_refl).
  destruct (at_end s); lia.
Qed.
(** No member in a time where the state is not open *)
Lemma not_open t e s x : state_ok t s -> at_end s = false -> (forall e', event s = Some e' -> e <= e') -> within x s -> e <= x.
Proof.
  unfold state_ok, event, within. intros [Hf _] Hs He Hx. destruct (it s) as [|r l]; [by apply Exists_nil in Hx|].
  rewrite Hs in He. specialize (He _ eq_refl). apply from_head in Hf as ((?&?&?) & _ & Hl).
  apply Exists_cons in Hx as [Hx|Hx]; [unfold in_range in Hx; lia|]. specialize (Hl x Hx). lia.
Qed.
Lemma is_open t e x c s : state_ok t s -> at_end s = true -> (forall e', event s = Some e' -> e <= e') ->
  match it s with r :: _ => start r <= c | [] => True end -> c <= x < e -> within x s.
Proof.
  unfold state_ok, event, within. intros [Hf Ht] Hs He Hc Hx. destruct (it s) as [|r l]; [by rewrite Ht in Hs|].
  rewrite Hs in He. apply from_head in Hf as (Hp & _). rewrite (end_proper r Hp) in He. specialize (He _ eq_refl).
  apply Exists_cons_hd. unfold in_range. lia.
Qed.

Definition sumZ (f : IntersectState -> Z) (l : list IntersectState) : Z := foldr (fun s n => f s + n) 0 l.
Lemma sumZ_cons f s l : sumZ f (s :: l) = f s + sumZ f l.
Proof. done. Qed.
Lemma open_bounds l : 0 <= sumZ open l <= zlen l.
Proof. induction l as [|s l IH]; [done|]. rewrite zlen_cons, sumZ_cons. unfold open at 1 3. destruct (at_end s); lia. Qed.
Lemma all_open l : sumZ open l = zlen l <-> Forall (fun s => at_end s = true) l.
Proof.
  induction l as [|s l IH]; [done|]. rewrite zlen_cons, sumZ_cons, Forall_cons, <- IH. unfold open at 1. pose proof (open_bounds l).
  destruct (at_end s); split; [intros; split; [done|lia]|lia|lia|by intros []].
Qed.
Lemma some_closed l : sumZ open l <> zlen l -> Exists (fun s => at_end s = false) l.
Proof.
  rewrite all_open. intros Hn. apply not_Forall_Exists in Hn; [|intros s; apply _].
  eapply Exists_impl; [exact Hn|]. intros s. cbn. by destruct (at_end s).
Qed.
Lemma sumZ_app f l l' : sumZ f (l ++ l') = sumZ f l + sumZ f l'.
Proof. induction l as [|s l IH]; [done|]. cbn [app]. rewrite !sumZ_cons, IH. lia. Qed.

(** *** Its steps *)

Definition least (e : Z) (l : list IntersectState) : Prop := Forall (fun s => forall e', event s = Some e' -> e <= e') l.
Definition started_by (c : Z) (s : IntersectState) : Prop := match it s with r :: _ => start r <= c | [] => True end.

(** Nothing is in all the sets from [t] to the next event, unless all states are open. *)
Lemma closed_skips t e l x : Forall (state_ok t) l -> least e l -> sumZ open l <> zlen l -> Forall (within x) l -> e <= x.
Proof.
  intros Hok Hl Hn Hx. apply some_closed, Exists_exists in Hn as (s & Hs & Hc). unfold least in Hl. rewrite Forall_forall in Hok, Hl, Hx.
  eapply not_open; eauto.
Qed.
Lemma opened_all t e c l x : Forall (state_ok t) l -> least e l -> sumZ open l = zlen l -> Forall (started_by c) l ->
  c <= x < e -> Forall (within x) l.
Proof.
  intros Hok Hl Hn Hc Hx. apply all_open in Hn. unfold least in Hl. rewrite Forall_forall in *. intros s Hs.
  eapply is_open; eauto. by apply Hc.
Qed.

Lemma end_event t r l : state_ok t (mk_state (r :: l) true) ->
  event (mk_state (r :: l) true) = Some (start r + length r) /\ state_ok (start r + length r) (mk_state l false) /\
  forall x, start r + length r <= x -> within x (mk_state (r :: l) true) <-> within x (mk_state l false).
Proof.
  intros [Hf Ht]. cbn [it] in Hf. apply from_head in Hf as (Hp & Hf & Hl). unfold event. cbn [it at_end]. rewrite (end_proper r Hp).
  split_and!; [done| |].
  - split; [done|]. cbn [it at_end]. destruct l as [|r' l]; [done|]. apply from_head in Hf as ((?&?&?) & _).
    specialize (Hl (start r')). ospecialize (Hl _); [apply Exists_cons_hd; unfold in_range; lia|]. lia.
  - intros x Hx. unfold within. cbn [it]. rewrite Exists_cons. unfold in_range at 1. split; [intros [?|?]; [lia|done]|by right].
Qed.
Lemma start_event t r l : state_ok t (mk_state (r :: l) false) -> state_ok (start r) (mk_state (r :: l) true).
Proof. intros [Hf Ht]. split; [done|]. cbn [it at_end] in *. apply from_head in Hf as ((?&?&?) & _). lia. Qed.

Lemma Forall_middle {A} (P : A -> Prop) l a l' : Forall P (l ++ a :: l') <-> Forall P l /\ P a /\ Forall P l'.
Proof. by rewrite Forall_app, Forall_cons. Qed.
Lemma u32_id n : 0 <= n < 2 ^ 32 -> u32 n = n.
Proof. apply (wrap_small 32). Qed.

(** What is to come: from the last event on, or, where all states are open, from where they have been. *)
Definition from_time (sts : list IntersectState) (t cs : Z) : Z := if sumZ open sts =? zlen sts then cs else t.

Lemma later_all t e l : t <= e -> least e l -> Forall (state_ok t) l -> Forall (state_ok e) l.
Proof. intros Hte Hl Hok. unfold least in Hl. rewrite Forall_forall in *. intros s Hs. eapply state_ok_later; eauto. Qed.
Lemma sum_middle f l s l' : sumZ f (l ++ s :: l') = sumZ f (l ++ l') + f s.
Proof. rewrite !sumZ_app, sumZ_cons. lia. Qed.
Lemma zlen_middle {A} (l : list A) a l' : zlen (l ++ a :: l') = zlen (l ++ l') + 1.
Proof. rewrite !zlen_app, zlen_cons. lia. Qed.
Lemma steps_middle l s l' : list_sum (map steps (l ++ s :: l')) = (steps s + list_sum (map steps (l ++ l')))%nat.
Proof. rewrite !map_app, !list_sum_app. cbn. unfold list_sum. lia. Qed.
Lemma all_started e l : Forall (state_ok e) l -> sumZ open l = zlen l -> Forall (started_by e) l.
Proof.
  intros Hok Hn. apply all_open in Hn. rewrite Forall_forall in *. intros s Hs. destruct (Hok s Hs) as [_ Ht].
  specialize (Hn s Hs). cbn in Hn. unfold started_by. destruct (it s); [done|]. rewrite Hn in Ht. lia.
Qed.
Lemma from_time_event sts e cs : from_time sts e (if sumZ open sts =? zlen sts then e else cs) = e.
Proof. unfold from_time. by destruct (_ =? _). Qed.
(** A state that has changed at [e] has the same members from then on. *)
Lemma within_middle x pre s s' post : within x s <-> within x s' ->
  Forall (within x) (pre ++ s :: post) <-> Forall (within x) (pre ++ s' :: post).
Proof. rewrite !Forall_middle. tauto. Qed.
Lemma no_event sts result t x : first_event sts = None -> 0 < zlen sts ->
  member x result <-> member x result \/ t <= x /\ Forall (within x) sts.
Proof.
  intros Hf Hn. apply first_event_None in Hf. split; [by left|]. intros [?|[_ Hx]]; [done|].
  destruct sts as [|s sts]; [done|]. apply Forall_cons in Hx as [Hx _], Hf as [Hf _]. unfold within in Hx.
  rewrite Hf in Hx. by apply Exists_nil in Hx.
Qed.
Lemma end_step pre r l post result t cs : let sts := pre ++ mk_state (r :: l) true :: post in let sts' := pre ++ mk_state l false :: post in
  let e := start r + length r in
  let result' := if sumZ open sts =? zlen sts then RangeSet.insert cs (u64 (e - cs)) result else result in
  Forall (state_ok t) sts -> least e sts -> optimal result -> (sumZ open sts = zlen sts -> 0 <= cs <= t /\ Forall (started_by cs) sts) ->
  optimal result' /\
  forall x, member x result' \/ (from_time sts' e cs <= x /\ Forall (within x) sts') <->
            member x result \/ (from_time sts t cs <= x /\ Forall (within x) sts).
Proof.
  intros sts sts' e result' Hok Hl Hres Hcs. pose proof (proj1 (Forall_middle _ _ _ _) Hok) as (_ & Hs & _).
  pose proof (end_event _ _ _ Hs) as (He & _ & Hwithin). pose proof (event_ok _ _ _ Hs He) as [Hte He0]. fold e in He, Hwithin, Hte, He0.
  assert (forall x, e <= x -> Forall (within x) sts <-> Forall (within x) sts') as Hall by (intros x Hx; by apply within_middle, Hwithin).
  assert (from_time sts' e cs = e) as ->.
  { unfold from_time, sts'. rewrite sum_middle, zlen_middle. pose proof (open_bounds (pre ++ post)). cbn.
    destruct (Z.eqb_spec (sumZ open (pre ++ post) + 0) (zlen (pre ++ post) + 1)); lia. }
  unfold result', from_time. destruct (Z.eqb_spec (sumZ open sts) (zlen sts)) as [Hn|Hn].
  - destruct (Hcs Hn) as [Ht Hst]. rewrite u64_id by lia. destruct (insert_spec cs (e - cs) result) as (Hopt & Hmem & _); try done; try lia.
    split; [done|]. intros x. rewrite Hmem. pose proof (opened_all t e cs sts x Hok Hl Hn Hst) as Hopened. specialize (Hall x).
    destruct (Z.lt_ge_cases x e); [intuition lia|]. rewrite (Hall ltac:(lia)). intuition lia.
  - split; [done|]. intros x. pose proof (closed_skips t e sts x Hok Hl Hn) as Hclosed. specialize (Hall x).
    destruct (Z.lt_ge_cases x e); [intuition lia|]. rewrite (Hall ltac:(lia)). intuition lia.
Qed.
Lemma start_step pre r l post result t cs x : let sts := pre ++ mk_state (r :: l) false :: post in let sts' := pre ++ mk_state (r :: l) true :: post in
  Forall (state_ok t) sts -> least (start r) sts -> t <= start r ->
  member x result \/ (start r <= x /\ Forall (within x) sts') <-> member x result \/ (from_time sts t cs <= x /\ Forall (within x) sts).
Proof.
  intros sts sts' Hok Hl Ht. assert (Forall (within x) sts <-> Forall (within x) sts') as Hall by by apply within_middle.
  assert (sumZ open sts <> zlen sts) as Hn.
  { unfold sts. rewrite sum_middle, zlen_middle. pose proof (open_bounds (pre ++ post)). cbn. lia. }
  unfold from_time. rewrite (proj2 (Z.eqb_neq _ _) Hn). pose proof (closed_skips t _ sts x Hok Hl Hn). intuition lia.
Qed.
Lemma intersect_loop_ok fuel : forall sts result cs t,
  Forall (state_ok t) sts -> 0 < zlen sts < 2 ^ 32 -> 0 <= t -> (list_sum (map steps sts) <= fuel)%nat -> optimal result ->
  (sumZ open sts = zlen sts -> 0 <= cs <= t /\ Forall (started_by cs) sts) ->
  exists rs, intersect_loop fuel sts result (sumZ open sts) cs = Some rs /\ optimal rs /\
    forall x, member x rs <-> member x result \/ (from_time sts t cs <= x /\ Forall (within x) sts).
Proof.
  induction fuel as [|fuel IH]; intros sts result cs t Hok Hn Ht Hfuel Hres Hcs; cbn [intersect_loop];
    (destruct (first_event sts) as [[[pre e] post]|] eqn:Hf;
      [|exists result; split_and!; [done|done|intros x; apply no_event; [done|lia]]]);
    apply first_event_Some in Hf as (s & post' & -> & -> & He & Hleast); destruct s as [[|r l] atend]; try done.
  - exfalso. rewrite map_app, list_sum_app in Hfuel. cbn in Hfuel. unfold steps in Hfuel. cbn in Hfuel. destruct atend; lia.
  - pose proof (proj1 (Forall_middle _ _ _ _) Hok) as (_ & Hs & _).
    pose proof (event_ok _ _ _ Hs He) as [Hte He0]. pose proof (later_all _ _ _ (proj1 Hte) Hleast Hok) as Hlater.
    pose proof (open_bounds (pre ++ post')) as Hopen. rewrite zlen_middle in Hn. rewrite steps_middle in Hfuel.
    destruct atend; cbn [at_end it tail].
    + apply end_event in Hs as (He' & Hs' & Hwithin). simplify_eq. set (e := start r + length r) in *.
      pose proof (end_step pre r l post' result t cs) as (Hopt & Hmem); try done. fold e in Hopt, Hmem.
      destruct (IH (pre ++ mk_state l false :: post') (if sumZ open (pre ++ mk_state (r :: l) true :: post') =? zlen (pre ++ mk_state (r :: l) true :: post')
        then RangeSet.insert cs (u64 (e - cs)) result else result) cs e) as (rs & Hrs & Hrsopt & Hrsmem); try done.
      * rewrite !Forall_middle in *. tauto.
      * by rewrite zlen_middle.
      * rewrite steps_middle. unfold steps in *. cbn in *. lia.
      * rewrite sum_middle, zlen_middle. cbn. lia.
      * exists rs. split_and!; [|done|].
        -- rewrite <- Hrs. f_equal. rewrite !sum_middle. cbn. rewrite u32_id by lia. lia.
        -- intros x. rewrite Hrsmem. apply Hmem.
    + injection He as <-. pose proof (start_event _ _ _ Hs) as Hs'. set (sts' := pre ++ mk_state (r :: l) true :: post').
      assert (Forall (state_ok (start r)) sts') as Hlater' by (unfold sts'; rewrite !Forall_middle in *; tauto).
      destruct (IH sts' result (if sumZ open sts' =? zlen sts' then start r else cs) (start r)) as (rs & Hrs & Hrsopt & Hrsmem); try done.
      * unfold sts'. by rewrite zlen_middle.
      * unfold sts'. rewrite steps_middle. unfold steps in *. cbn in *. lia.
      * intros Hn'. rewrite Hn', Z.eqb_refl. split; [lia|by apply all_started].
      * exists rs. split_and!; [|done|].
        -- rewrite <- Hrs. unfold sts'. rewrite !sum_middle, !zlen_middle. cbn. by rewrite Z.add_0_r, u32_id by lia.
        -- intros x. rewrite Hrsmem, from_time_event. apply start_step; [done|done|lia].
Qed.

Lemma list_sum_cons n l : list_sum (n :: l) = (n + list_sum l)%nat.
Proof. done. Qed.
Lemma sets_steps sets : list_sum (map steps (map (fun s => mk_state (ranges s) false) sets)) =
  (2 * list_sum (map (fun s => List.length (ranges s)) sets))%nat.
Proof. induction sets as [|s sets IH]; [done|]. cbn [map]. rewrite !list_sum_cons, IH. unfold steps. cbn [it at_end]. lia. Qed.
Lemma sets_open sets : sumZ open (map (fun s => mk_state (ranges s) false) sets) = 0.
Proof. induction sets as [|s sets IH]; [done|]. cbn [map]. by rewrite sumZ_cons, IH. Qed.

(** C35: [RangeSet::intersection] of a list of sets, at least one, each of them optimal, has exactly the elements that are in all of them, and is optimal again: the walk over the starts and the ends of all the ranges in their order, which adds a range where it leaves a time in which as many ranges as there are sets are open, comes to an end, and misses nothing. *)
Theorem intersection_all sets :
  sets <> [] -> zlen sets < 2 ^ 32 -> Forall optimal sets ->
  exists rs, intersection_of sets = Some rs /\ optimal rs /\
    forall x, member x rs <-> Forall (member x) sets.
Proof.
  intros Hne Hlen Hopt. set (sts := map (fun s => mk_state (ranges s) false) sets).
  assert (zlen sts = zlen sets) as Hzlen by (unfold sts, zlen; by rewrite length_map).
  assert (0 < zlen sets) as Hpos by (destruct sets; [done|rewrite zlen_cons; pose proof (zlen_nonneg sets); lia]).
  destruct (intersect_loop_ok (S (2 * list_sum (map (fun s => List.length (ranges s)) sets))) sts (init 0) 0 0) as (rs & Hrs & Hrsopt & Hmem).
  - apply Forall_map. eapply Forall_impl; [exact Hopt|]. intros s (Hf & _). split; [done|]. cbn. destruct (ranges s); [done|]. apply Hf.
  - lia.
  - done.
  - unfold sts. rewrite sets_steps. lia.
  - split_and!; [done|constructor|vm_decide].
  - intros Hz. rewrite (sets_open sets : sumZ open sts = 0) in Hz. lia.
  - exists rs. unfold sts in Hrs. rewrite sets_open in Hrs. split_and!; [done|done|]. intros x. rewrite Hmem. unfold from_time.
    rewrite (sets_open sets : sumZ open sts = 0), (proj2 (Z.eqb_neq 0 (zlen sts))) by lia. unfold sts. rewrite Forall_map.
    change (Forall (within x ∘ (fun s => mk_state (ranges s) false)) sets) with (Forall (member x) sets).
    split; [intros [Hx|[_ Hx]]; [by apply Exists_nil in Hx|done]|]. intros Hx. right. split; [|done].
    destruct sets as [|s sets]; [done|]. apply Forall_cons in Hx as [Hx _], Hopt as [(Hf & _) _].
    apply from_bounds in Hf. unfold member in Hx. apply Exists_exists in Hx as (r & Hr & Hx). rewrite Forall_forall in Hf.
    specialize (Hf r Hr). unfold in_range in Hx. cbn in Hf. lia.
Qed.
Lemma intersection_all_witness : exists rs,
  intersection_of [mk_RangeSet [Range.mk 0 10; Range.mk 20 10] 30; mk_RangeSet [Range.mk 5 20] 30] = Some rs /\ member 22 rs /\ ~ member 12 rs.
Proof.
  destruct (intersection_all [mk_RangeSet [Range.mk 0 10; Range.mk 20 10] 30; mk_RangeSet [Range.mk 5 20] 30]) as (rs & Hrs & _ & Hmem).
  - done.
  - done.
  - repeat constructor; cbn; try lia; vm_compute; done.
  - exists rs. split; [done|]. rewrite !Hmem. rewrite !Forall_cons. unfold member. cbn [ranges]. rewrite !Exists_cons, !Exists_nil. unfold in_range. cbn.
    split; [split_and!; [lia|lia|constructor]|lia].
Defined.
End RangeText.
