(* ===== verification/Db.v ===== *)
(** * Databases: values, rows, statements and transactions

    Models [src/libs/db]: field values and rows ([field-value.cc], [row.cc]),
    the SQL that [Connection] makes of them ([connection.cc]), held prepared
    statements and transactions ([ot-db.h], [transaction.cc]).  The driver, the
    virtual methods of [Connection] and [ResultSet], is a parameter; so are the
    conversions of [double].  The pool is in [ConnPool.v]. *)
From S2P Require Export Strings StrMap.

Module Db.
Import Strings.

(** The type [double], and what the language and [libs/text] do with it *)
Class Real (D : Type) := {
  ftos : D -> bytes; stof : bytes -> D;
  int_of_real : D -> Z; u64_of_real : D -> Z; bool_of_real : D -> bool; real_of_Z : Z -> D
}.
(** [subst] with an [old] that is not empty: it always has a result ([subst_from_enough]). *)
Definition replaced (s old rep : bytes) : bytes := default [] (subst s old rep).

Section values.
Context {D : Type} `{!Real D}.

(** ** [FieldValue] *)

Inductive FieldType := T_NULLTYPE | T_STRING | T_INT | T_INT64 | T_BOOL | T_REAL.
(** The value with its type: only the member of the type is read. *)
Inductive FieldValue := NULLTYPE | STRING (s : bytes) | INT (i : Z) | INT64 (i : Z) | BOOL (b : bool) | REAL (d : D).

Definition db_str_to_bool (value : bytes) : bool :=
  match value with [] => false | c :: _ => existsb (Z.eqb c) (str "TtYy1") end.
Definition of_string (value : bytes) (type : FieldType) : FieldValue :=
  match type with
  | T_NULLTYPE => NULLTYPE
  | T_STRING => STRING value
  | T_INT => INT (stoi value)
  | T_INT64 => INT64 (stoi64 value)
  | T_BOOL => BOOL (db_str_to_bool value)
  | T_REAL => REAL (stof value)
  end.
Definition get_type (v : FieldValue) : FieldType :=
  match v with
  | NULLTYPE => T_NULLTYPE | STRING _ => T_STRING | INT _ => T_INT | INT64 _ => T_INT64 | BOOL _ => T_BOOL | REAL _ => T_REAL
  end.
Definition is_null (v : FieldValue) : bool := match v with NULLTYPE => true | _ => false end.

Definition as_string (v : FieldValue) : bytes :=
  match v with
  | NULLTYPE => str "NULL"
  | STRING s => s
  | INT i => itos i
  | INT64 i => i64tos i
  | BOOL b => if b then str "1" else str "0"
  | REAL d => ftos d
  end.
Definition as_int (v : FieldValue) : Z :=
  match v with
  | NULLTYPE => 0
  | STRING s => stoi s
  | INT i => i
  | INT64 i => i32 i
  | BOOL b => Z.b2z b
  | REAL d => int_of_real d
  end.
Definition as_int64 (v : FieldValue) : Z :=
  match v with
  | NULLTYPE => 0
  | STRING s => stoi64 s
  | INT i => u64 i
  | INT64 i => i
  | BOOL b => Z.b2z b
  | REAL d => u64_of_real d
  end.
Definition as_bool (v : FieldValue) : bool :=
  match v with
  | NULLTYPE => false
  | STRING s => db_str_to_bool s
  | INT i | INT64 i => negb (i =? 0)
  | BOOL b => b
  | REAL d => bool_of_real d
  end.
Definition as_real (v : FieldValue) : D :=
  match v with
  | NULLTYPE => real_of_Z 0
  | STRING s => stof s
  | INT i | INT64 i => real_of_Z i
  | BOOL b => real_of_Z (Z.b2z b)
  | REAL d => d
  end.

Definition APOS : Z := 39.
Definition BACKSLASH : Z := 92.
Definition STAR : Z := 42.
Definition escape (s : bytes) : bytes :=
  let s2 := replaced s [BACKSLASH] [BACKSLASH; BACKSLASH] in replaced s2 [APOS] [APOS; APOS].
Definition unescape (s : bytes) : bytes :=
  let s2 := replaced s [BACKSLASH; BACKSLASH] [BACKSLASH] in replaced s2 [APOS; APOS] [APOS].
Definition quote (s : bytes) : bytes := [APOS] ++ escape s ++ [APOS].
Definition as_escaped_string (v : FieldValue) : bytes :=
  match v with STRING _ => escape (as_string v) | _ => as_string v end.
Definition as_quoted_string (v : FieldValue) : bytes :=
  match v with STRING _ => quote (as_string v) | _ => as_string v end.

(** ** [Row] *)

Definition Row := list (bytes * FieldValue).
Definition clear : Row := [].
Definition add (fieldname : bytes) (value : FieldValue) (r : Row) : Row := map_set fieldname value r.
Definition add_null (fieldname : bytes) (r : Row) : Row := map_set fieldname NULLTYPE r.
Definition add_or_null (fieldname value : bytes) (r : Row) : Row :=
  map_set fieldname (match value with [] => NULLTYPE | _ => STRING value end) r.
Definition add_int_or_null (fieldname : bytes) (value : Z) (r : Row) : Row :=
  map_set fieldname (if value =? 0 then NULLTYPE else INT value) r.
Definition add_int64_or_null (fieldname : bytes) (value : Z) (r : Row) : Row :=
  map_set fieldname (if value =? 0 then NULLTYPE else INT64 value) r.
Definition add_real_or_null (fieldname : bytes) (value : D) (r : Row) : Row :=
  map_set fieldname (if bool_of_real value then REAL value else NULLTYPE) r.
Definition has (fieldname : bytes) (r : Row) : bool := bool_decide (is_Some (map_find fieldname r)).
Definition get_with {A} (as_ : FieldValue -> A) (r : Row) (fieldname : bytes) (def : A) : A :=
  match map_find fieldname r with Some v => as_ v | None => def end.
Definition get : Row -> bytes -> bytes -> bytes := get_with as_string.
Definition get_int : Row -> bytes -> Z -> Z := get_with as_int.
Definition get_int64 : Row -> bytes -> Z -> Z := get_with as_int64.
Definition get_bool : Row -> bytes -> bool -> bool := get_with as_bool.
Definition get_real : Row -> bytes -> D -> D := get_with as_real.

(** [if (!result.empty()) result += sep; result += item] for each item *)
Definition append (sep result item : bytes) : bytes := (match result with [] => [] | _ => result ++ sep end) ++ item.
Definition separated (sep : bytes) (items : list bytes) : bytes := fold_left (append sep) items [].
Definition COMMA_SP : bytes := str ", ".
Definition get_fields (r : Row) : bytes := separated COMMA_SP (map fst r).
Definition get_fields_not_in (suppressed_fields r : Row) : bytes :=
  separated COMMA_SP (map fst (List.filter (fun p => negb (has (fst p) suppressed_fields)) r)).
Definition get_fields_set_to_own_values (r : Row) : bytes :=
  separated COMMA_SP (map (fun p => fst p ++ str " = VALUES(" ++ fst p ++ str ")") r).
Definition get_escaped_values (r : Row) : bytes := separated COMMA_SP (map (fun p => as_quoted_string (snd p)) r).
Definition assignment (p : bytes * FieldValue) : bytes := fst p ++ str " = " ++ as_quoted_string (snd p).
Definition get_escaped_assignments (r : Row) : bytes := separated COMMA_SP (map assignment r).
Definition get_escaped_assignments_limited_by (limit r : Row) : bytes :=
  separated COMMA_SP (omap (fun p => (fun v => assignment (fst p, v)) <$> map_find (fst p) r) limit).
Definition where_item (p : bytes * FieldValue) : bytes :=
  if is_null (snd p) then fst p ++ str " IS NULL" else assignment p.
Definition get_where_clause (r : Row) : bytes := separated (str " AND ") (map where_item r).
End values.
Arguments FieldValue : clear implicits.
Arguments Row : clear implicits.

(** ** [Connection] *)

(** The virtual methods of a driver: [S] is the state of the database, [RS] a
    result set and [PS] a prepared statement of the driver. *)
Class Driver (D S RS PS : Type) := {
  d_exec : bytes -> S -> bool * S;
  d_query : bytes -> S -> option RS * S;
  d_fetch_row : RS -> S -> option (Row D) * S;
  d_fetch_value : RS -> S -> option bytes * S;
  d_prepare : bytes -> S -> option PS * S;
  d_valid : PS -> bool
}.
Arguments d_exec {D S RS PS _}.
Arguments d_query {D S RS PS _}.
Arguments d_fetch_row {D S RS PS _}.
Arguments d_fetch_value {D S RS PS _}.
Arguments d_prepare {D S RS PS _}.
Arguments d_valid {D S RS PS _}.
(** A null [unique_ptr] is dereferenced. *)
Inductive Fault := null_pointer.

Section connection.
Context {D S RS PS : Type} `{!Real D} {drv : Driver D S RS PS}.

(** [Statement]: the pointer it has *)
Definition Statement := option PS.
Record Connection := mk_Connection { db : S; prepared_statements : list (bytes * Statement) }.
#[local] Abbreviation M := (M Connection Fault).

Definition lift {A} (f : S -> A * S) : M A :=
  fun c => let '(a, s) := f (db c) in (Val a, mk_Connection s (prepared_statements c)).
Definition exec (sql : bytes) : M bool := lift (d_exec sql).
Definition query (sql : bytes) : M (option RS) := lift (d_query sql).

Definition statement_valid (s : Statement) : M bool :=
  match s with Some p => ret (d_valid p) | None => throw null_pointer end.
Definition prepare_statement (id sql : bytes) : M bool :=
  let! stmt := lift (d_prepare sql) in
  let! ok := statement_valid stmt in
  if ok then
    let! c := get_st in
    put_st (mk_Connection (db c) (map_set id stmt (prepared_statements c))) ;;; ret true
  else ret false.
(** The [AutoStatement]'s pointer, to the statement that is held *)
Definition get_statement (id : bytes) : M (option Statement) := let! c := get_st in ret (map_find id (prepared_statements c)).

(** [Statement::count]: [&&] makes a [bool] of the driver's number of rows. *)
Definition statement_count (rows : PS -> Z) (s : Statement) : Z :=
  match s with Some p => Z.b2z (negb (rows p =? 0)) | None => 0 end.

(** [Result::fetch] *)
Definition fetch_row (r : option RS) : M (option (Row D)) := match r with Some r => lift (d_fetch_row r) | None => ret None end.
Definition fetch_value (r : option RS) : M (option bytes) := match r with Some r => lift (d_fetch_value r) | None => ret None end.
(** Whether successful, and the row as it is left *)
Definition query_row (sql : bytes) (row : Row D) : M (bool * Row D) :=
  let! result := query sql in
  match result with
  | None => ret (false, row)
  | _ => let! r := fetch_row result in ret (match r with Some r => (true, r) | None => (false, row) end)
  end.
Definition query_value (sql : bytes) : M (option bytes) :=
  let! result := query sql in match result with None => ret None | _ => fetch_value result end.
Definition query_string (sql def : bytes) : M bytes := let! v := query_value sql in ret (default def v).
Definition query_int (sql : bytes) (def : Z) : M Z :=
  let! v := query_value sql in ret (match v with Some v => stoi v | None => def end).
Definition query_int64 (sql : bytes) (def : Z) : M Z :=
  let! v := query_value sql in ret (match v with Some v => stoi64 (c_str v) | None => def end).
Definition query_bool (sql : bytes) (def : bool) : M bool :=
  let! v := query_value sql in
  ret (match v with Some v => existsb (Z.eqb (default 0 (head v))) (str "TtYy") | None => def end).

(** *** INSERT *)

Definition max_query (table id_field : bytes) : bytes := str "SELECT max(" ++ id_field ++ str ") from " ++ table.
Definition insert_with (get_id : bytes -> M Z) (sql table id_field : bytes) (in_transaction : bool) : M Z :=
  match id_field with
  | [] => let! ok := exec sql in ret (Z.b2z ok)
  | _ =>
    let! begun := if in_transaction then ret true else exec (str "BEGIN") in
    if begun then
      let! ok := exec sql in
      if ok then
        let! id := get_id (max_query table id_field) in
        (if in_transaction then ret true else exec (str "COMMIT")) ;;; ret id
      else (if in_transaction then ret true else exec (str "ROLLBACK")) ;;; ret 0
    else ret 0
  end.
Definition insert : bytes -> bytes -> bytes -> bool -> M Z := insert_with (fun sql => query_int sql 0).
Definition insert64 : bytes -> bytes -> bytes -> bool -> M Z := insert_with (fun sql => query_int64 sql 0).
Definition insert_sql (table : bytes) (row : Row D) : bytes :=
  str "INSERT INTO " ++ table ++ str " (" ++ get_fields row ++ str ")" ++ str " VALUES (" ++ get_escaped_values row ++ str ")".
Definition insert_row (table : bytes) (row : Row D) (id_field : bytes) (in_transaction : bool) : M Z :=
  insert (insert_sql table row) table id_field in_transaction.
Definition insert_row64 (table : bytes) (row : Row D) (id_field : bytes) (in_transaction : bool) : M Z :=
  insert64 (insert_sql table row) table id_field in_transaction.
Definition insert_or_update (table : bytes) (row update_row : Row D) : M bool :=
  exec (insert_sql table row ++ str " ON DUPLICATE KEY UPDATE " ++ get_fields_set_to_own_values update_row).
Definition join_sql (table field1 id1 field2 id2 : bytes) : bytes :=
  str "INSERT INTO " ++ table ++ str " (" ++ field1 ++ str ", " ++ field2 ++ str ")" ++ str " VALUES (" ++ id1 ++ str ", " ++ id2 ++ str ")".
Definition insert_join (table field1 : bytes) (id1 : Z) (field2 : bytes) (id2 : Z) : M bool :=
  exec (join_sql table field1 (itos id1) field2 (itos id2)).
Definition insert_join64 (table field1 : bytes) (id1 : Z) (field2 : bytes) (id2 : Z) : M bool :=
  exec (join_sql table field1 (i64tos id1) field2 (i64tos id2)).

(** *** WHERE, and SELECT *)

Definition where_ (clause : bytes) : bytes := match clause with [] => [] | _ => str " WHERE " ++ clause end.
Definition equals (id_field id : bytes) : bytes := id_field ++ str " = " ++ id.
Definition select_sql (table : bytes) (row : Row D) (clause : bytes) (distinct : bool) : bytes :=
  str "SELECT " ++ (if distinct then str "DISTINCT " else []) ++ get_fields row ++ str " FROM " ++ table ++ where_ clause.
Definition select (table : bytes) (row : Row D) (clause : bytes) (distinct : bool) : M (option RS) :=
  query (select_sql table row clause distinct).
Definition select_where (table : bytes) (row where_row : Row D) (distinct : bool) : M (option RS) :=
  select table row (get_where_clause where_row) distinct.
Definition select_by_id (table : bytes) (row : Row D) (id : Z) (id_field : bytes) : M (option RS) :=
  select table row (equals id_field (itos id)) false.
Definition select_by_id64 (table : bytes) (row : Row D) (id : Z) (id_field : bytes) : M (option RS) :=
  select table row (equals id_field (i64tos id)) false.
Definition select_by_string_id (table : bytes) (row : Row D) (id id_field : bytes) : M (option RS) :=
  select table row (equals id_field (quote id)) false.

Definition select_row (table : bytes) (row : Row D) (clause : bytes) : M (bool * Row D) :=
  let limit_where := clause ++ str " LIMIT 1" in
  let! result := select table row limit_where false in
  match result with
  | None => ret (false, row)
  | _ => let! r := fetch_row result in ret (match r with Some r => (true, r) | None => (false, clear) end)
  end.
Definition select_row_where (table : bytes) (row where_row : Row D) : M (bool * Row D) :=
  select_row table row (get_where_clause where_row).
Definition select_row_by_id (table : bytes) (row : Row D) (id : Z) (id_field : bytes) : M (bool * Row D) :=
  select_row table row (equals id_field (itos id)).
Definition select_row_by_id64 (table : bytes) (row : Row D) (id : Z) (id_field : bytes) : M (bool * Row D) :=
  select_row table row (equals id_field (i64tos id)).
Definition select_row_by_string_id (table : bytes) (row : Row D) (id id_field : bytes) : M (bool * Row D) :=
  select_row table row (equals id_field (quote id)).

Definition select_value_sql (table field clause : bytes) : bytes :=
  str "SELECT " ++ field ++ str " FROM " ++ table ++ where_ clause ++ str " LIMIT 1".
Definition select_value (table field clause : bytes) : M bytes := query_string (select_value_sql table field clause) [].
Definition select_value_where (table field : bytes) (where_row : Row D) : M bytes :=
  select_value table field (get_where_clause where_row).
Definition select_value_by_id (table field : bytes) (id : Z) (id_field : bytes) : M bytes :=
  select_value table field (equals id_field (itos id)).
Definition select_value_by_id64 (table field : bytes) (id : Z) (id_field : bytes) : M bytes :=
  select_value table field (equals id_field (i64tos id)).
Definition select_value_by_string_id (table field id id_field : bytes) : M bytes :=
  select_value table field (equals id_field (quote id)).

Definition count (table clause : bytes) : M Z := query_int (str "SELECT COUNT(" ++ [STAR] ++ str ") FROM " ++ table ++ where_ clause) 0.
Definition count_where (table : bytes) (where_row : Row D) : M Z := count table (get_where_clause where_row).
Definition exists_id (table : bytes) (id : Z) (id_field : bytes) : M bool :=
  let! v := select_value_by_id table id_field id id_field in ret (match v with [] => false | _ => true end).
Definition exists_id64 (table : bytes) (id : Z) (id_field : bytes) : M bool :=
  let! v := select_value_by_id64 table id_field id id_field in ret (match v with [] => false | _ => true end).
Definition exists_string_id (table id id_field : bytes) : M bool :=
  let! v := select_value_by_string_id table id_field id id_field in ret (match v with [] => false | _ => true end).

(** *** UPDATE and DELETE *)

Definition update_sql (table : bytes) (row : Row D) (clause : bytes) : bytes :=
  str "UPDATE " ++ table ++ str " SET " ++ get_escaped_assignments row ++ where_ clause.
Definition update (table : bytes) (row : Row D) (clause : bytes) : M bool := exec (update_sql table row clause).
Definition update_where (table : bytes) (row where_row : Row D) : M bool := update table row (get_where_clause where_row).
Definition update_id (table : bytes) (row : Row D) (id : Z) (id_field : bytes) : M bool :=
  update table row (equals id_field (itos id)).
Definition update_id64 (table : bytes) (row : Row D) (id : Z) (id_field : bytes) : M bool :=
  update table row (equals id_field (i64tos id)).
Definition update_string_id (table : bytes) (row : Row D) (id id_field : bytes) : M bool :=
  update table row (equals id_field (quote id)).
Definition delete_all (table clause : bytes) : M bool := exec (str "DELETE FROM " ++ table ++ where_ clause).
Definition delete_where (table : bytes) (where_row : Row D) : M bool := delete_all table (get_where_clause where_row).
Definition delete_id (table : bytes) (id : Z) (id_field : bytes) : M bool := delete_all table (equals id_field (itos id)).
Definition delete_id64 (table : bytes) (id : Z) (id_field : bytes) : M bool := delete_all table (equals id_field (i64tos id)).
Definition delete_string_id (table id id_field : bytes) : M bool := delete_all table (equals id_field (quote id)).
Definition delete_join (table field1 : bytes) (id1 : Z) (field2 : bytes) (id2 : Z) : M bool :=
  delete_all table (equals field1 (itos id1) ++ str " AND " ++ equals field2 (itos id2)).
Definition delete_join64 (table field1 : bytes) (id1 : Z) (field2 : bytes) (id2 : Z) : M bool :=
  delete_all table (equals field1 (i64tos id1) ++ str " AND " ++ equals field2 (i64tos id2)).

(** [ConnectionFactory::create]: the statements are prepared on a new connection; a failure is only logged. *)
Fixpoint prepare_all (statements : list (bytes * bytes)) : M unit :=
  match statements with
  | [] => ret tt
  | (id, sql) :: statements => prepare_statement id sql ;;; prepare_all statements
  end.

(** ** [Transaction] *)

Definition transaction_begin : M bool := exec (str "begin").
Definition transaction_begin_immediate : M bool := exec (str "begin immediate").
Definition transaction_commit : M bool := exec (str "commit").
Definition transaction_rollback : M bool := exec (str "rollback").

(** [committed]; [has_conn] is false where a pool had no connection to give. *)
Record Transaction := mk_Transaction { has_conn : bool; committed : bool }.
Definition new_Transaction (has_conn immediate : bool) : M Transaction :=
  if has_conn then
    let! ok := if immediate then transaction_begin_immediate else transaction_begin in
    ret (mk_Transaction true (negb ok))
  else ret (mk_Transaction false true).
Definition commit (t : Transaction) : M (bool * Transaction) :=
  if negb (has_conn t) || committed t then ret (false, t)
  else let! ok := transaction_commit in ret (ok, mk_Transaction (has_conn t) ok).
Definition end_Transaction (t : Transaction) : M unit :=
  if has_conn t && negb (committed t) then transaction_rollback ;;; ret tt else ret tt.
End connection.

(* ------------------------------------------------------------------ *)
(** ** What a server reads *)

(** A string literal after its opening quote: a quote in it is doubled; in a
    dialect with escapes ([escapes]), a backslash and a character stand for what
    the server makes of them ([meaning]).  The string, and what follows it *)
Fixpoint literal (escapes : bool) (meaning : Z -> bytes) (t : bytes) : option (bytes * bytes) :=
  match t with
  | [] => None
  | c :: t =>
    if c =? APOS then
      match t with
      | d :: t' => if d =? APOS then '(s, rest) ← literal escapes meaning t'; Some (APOS :: s, rest) else Some ([], t)
      | [] => Some ([], [])
      end
    else if escapes && (c =? BACKSLASH) then
      match t with
      | d :: t' => '(s, rest) ← literal escapes meaning t'; Some (meaning d ++ s, rest)
      | [] => None
      end
    else '(s, rest) ← literal escapes meaning t; Some (c :: s, rest)
  end.
(** What ends a word that is not quoted *)
Definition ends_word (c : Z) : bool := existsb (Z.eqb c) (str ",() ").
Fixpoint word (t : bytes) : bytes * bytes :=
  match t with
  | c :: t' => if ends_word c then ([], t) else let '(w, rest) := word t' in (c :: w, rest)
  | [] => ([], [])
  end.
(** A value: whether it is a string, and its text *)
Definition value (escapes : bool) (meaning : Z -> bytes) (t : bytes) : option (bool * bytes * bytes) :=
  match t with
  | c :: t' => if c =? APOS then '(s, rest) ← literal escapes meaning t'; Some (true, s, rest)
               else let '(w, rest) := word t in Some (false, w, rest)
  | [] => None
  end.
(** Values with a comma and a space between them *)
Fixpoint values (fuel : nat) (escapes : bool) (meaning : Z -> bytes) (t : bytes) : option (list (bool * bytes) * bytes) :=
  match fuel with
  | O => None
  | Datatypes.S fuel =>
    '(q, s, rest) ← value escapes meaning t;
    if starts_with COMMA_SP rest then
      '(vs, rest) ← values fuel escapes meaning (drop 2 rest); Some ((q, s) :: vs, rest)
    else Some ([(q, s)], rest)
  end.

(* ------------------------------------------------------------------ *)
(** ** Lemmas *)

Definition doubled (c x : Z) : bytes := if x =? c then [c; c] else [x].

Lemma subst_skip n old rep p x t : old <> [] -> starts_with old (x :: t) = false ->
  subst_from n old rep p (x :: t) = subst_from n old rep (p ++ [x]) t.
Proof.
  intros Ho Hs. assert (find_text old (x :: t) = Datatypes.S <$> find_text old t) as Hf by (cbn [find_text]; by rewrite Hs).
  destruct t as [|y t].
  - assert (find_text old [] = None) as Hn by (destruct old; [done|reflexivity]). rewrite Hn in Hf.
    destruct n; cbn [subst_from]; by rewrite Hf.
  - destruct (find_text old (y :: t)) as [k|] eqn:Hk; destruct n; cbn [subst_from]; rewrite Hf, Hk; cbn; try done.
    + by rewrite <- !app_assoc.
    + by rewrite <- app_assoc.
    + by rewrite <- app_assoc.
Qed.
Lemma subst_hit n old rep p a : old <> [] -> subst_from (Datatypes.S n) old rep p (old ++ a) = subst_from n old rep (p ++ rep) a.
Proof.
  intros Ho. assert (find_text old (old ++ a) = Some 0%nat) as Hf.
  { pose proof (proj2 (starts_with_spec old (old ++ a)) ltac:(by exists a)) as Hs. destruct (old ++ a); cbn [find_text]; by rewrite Hs. }
  destruct (old ++ a) as [|x t] eqn:Hx; [by destruct old|]. cbn [subst_from]. rewrite Hf. cbn [take app plus]. f_equal.
  by rewrite <- Hx, drop_app_length.
Qed.

(** Doubling a character *)
Lemma subst_double c n s p : (length s <= n)%nat -> subst_from n [c] [c; c] p s = Some (p ++ flat_map (doubled c) s).
Proof.
  revert n p. induction s as [|x s IH]; intros n p Hn; [destruct n; cbn; by rewrite app_nil_r|]. cbn [flat_map]. unfold doubled at 1.
  destruct (Z.eqb_spec x c) as [->|Hx].
  - destruct n as [|n]; [cbn in Hn; lia|]. change (c :: s) with ([c] ++ s). rewrite subst_hit by done.
    rewrite IH by (cbn in Hn; lia). by rewrite <- app_assoc.
  - rewrite subst_skip by (done || cbn; by rewrite (proj2 (Z.eqb_neq c x)) by congruence).
    rewrite IH by (cbn in Hn; lia). by rewrite <- app_assoc.
Qed.
Lemma replaced_double c s : replaced s [c] [c; c] = flat_map (doubled c) s.
Proof. unfold replaced, subst. by rewrite subst_double. Qed.

(** Undoing it, where the character is always doubled: [f x] is what stands for [x] before, [g x] after. *)
Lemma subst_skips c n rep p a t : Forall (fun x => x <> c) a -> subst_from n [c; c] rep p (a ++ t) = subst_from n [c; c] rep (p ++ a) t.
Proof.
  intros Ha. revert p. induction Ha as [|x a Hx Ha IH]; intros p; [by rewrite app_nil_r|]. cbn [app].
  rewrite subst_skip by (done || cbn; by rewrite (proj2 (Z.eqb_neq c x)) by congruence). rewrite IH. by rewrite <- app_assoc.
Qed.
Lemma subst_halve c (f g : Z -> bytes) : f c = [c; c] -> g c = [c] ->
  (forall x, x <> c -> f x = g x /\ Forall (fun y => y <> c) (g x)) ->
  forall s n p, (length (flat_map f s) <= n)%nat -> subst_from n [c; c] [c] p (flat_map f s) = Some (p ++ flat_map g s).
Proof.
  intros Hfc Hgc Hf. induction s as [|x s IH]; intros n p Hn; [destruct n; cbn; by rewrite app_nil_r|].
  cbn [flat_map] in *. rewrite length_app in Hn. destruct (decide (x = c)) as [->|Hx].
  - rewrite Hfc, Hgc in *. destruct n as [|n]; [cbn in Hn; lia|]. rewrite (subst_hit n [c; c]) by done.
    rewrite IH by (cbn in Hn; lia). by rewrite <- app_assoc.
  - destruct (Hf x Hx) as [-> Hg]. rewrite subst_skips by done. rewrite IH by lia. by rewrite <- app_assoc.
Qed.

(** What stands for a character in an escaped string *)
Definition escaped (x : Z) : bytes := if x =? BACKSLASH then [BACKSLASH; BACKSLASH] else doubled APOS x.
Lemma escape_spec s : escape s = flat_map escaped s.
Proof.
  unfold escape. rewrite !replaced_double. induction s as [|x s IH]; [done|]. cbn [flat_map]. rewrite flat_map_app, IH. f_equal.
  unfold escaped, doubled at 2. by destruct (Z.eqb_spec x BACKSLASH) as [->|_]; cbn; rewrite ?app_nil_r.
Qed.
Lemma replaced_halve c f g s : f c = [c; c] -> g c = [c] -> (forall x, x <> c -> f x = g x /\ Forall (fun y => y <> c) (g x)) ->
  replaced (flat_map f s) [c; c] [c] = flat_map g s.
Proof. intros H1 H2 H3. unfold replaced, subst. by rewrite (subst_halve c f g H1 H2 H3). Qed.
Lemma unescape_escape s : unescape (escape s) = s.
Proof.
  unfold unescape. rewrite escape_spec, (replaced_halve BACKSLASH escaped (doubled APOS)); [|done|done|].
  - rewrite (replaced_halve APOS (doubled APOS) (fun x => [x])); [|done|done|].
    + induction s as [|x s IH]; [done|]. cbn. by rewrite IH.
    + intros x Hx. unfold doubled. rewrite (proj2 (Z.eqb_neq _ _) Hx). split; [done|]. by repeat constructor.
  - intros x Hx. unfold escaped. rewrite (proj2 (Z.eqb_neq _ _) Hx). split; [done|]. unfold doubled.
    destruct (Z.eqb_spec x APOS) as [->|]; by repeat constructor.
Qed.

(** What a server reads of a string: all of it, with the backslashes doubled where it has no escapes. *)
Definition seen (escapes : bool) (s : bytes) : bytes := if escapes then s else flat_map (doubled BACKSLASH) s.
Lemma literal_escape b meaning s rest : meaning BACKSLASH = [BACKSLASH] -> head rest <> Some APOS ->
  literal b meaning (escape s ++ APOS :: rest) = Some (seen b s, rest).
Proof.
  intros Hm Hrest. rewrite escape_spec. induction s as [|x s IH].
  - cbn. destruct rest as [|d rest]; [by destruct b|]. cbn in Hrest. rewrite (proj2 (Z.eqb_neq d APOS)) by congruence. by destruct b.
  - cbn [flat_map]. unfold escaped at 1. destruct (Z.eqb_spec x BACKSLASH) as [->|Hx].
    + cbn [app]. destruct b; cbn [literal andb].
      * rewrite (proj2 (Z.eqb_neq BACKSLASH APOS)), Z.eqb_refl by done. rewrite IH. cbn. by rewrite Hm.
      * rewrite (proj2 (Z.eqb_neq BACKSLASH APOS)) by done. rewrite IH. done.
    + unfold doubled at 1. destruct (Z.eqb_spec x APOS) as [->|Ha]; cbn [app literal].
      * rewrite Z.eqb_refl, IH. by destruct b.
      * rewrite (proj2 (Z.eqb_neq x APOS) Ha), (proj2 (Z.eqb_neq x BACKSLASH) Hx), andb_false_r, IH. cbn.
        destruct b; [done|]. unfold seen. cbn [flat_map]. unfold doubled at 2. by rewrite (proj2 (Z.eqb_neq x BACKSLASH) Hx).
Qed.

Definition plain (w : bytes) : Prop := w <> [] /\ Forall (fun c => ends_word c = false /\ c <> APOS) w.
Lemma word_app w rest : Forall (fun c => ends_word c = false /\ c <> APOS) w -> match rest with c :: _ => ends_word c = true | [] => True end ->
  word (w ++ rest) = (w, rest).
Proof.
  intros Hw Hr. induction Hw as [|c w [Hc _] Hw IH]; cbn [app].
  - destruct rest as [|d rest]; [done|]. cbn [word]. by rewrite Hr.
  - cbn [word]. by rewrite Hc, IH.
Qed.
Lemma value_plain b meaning w rest : plain w -> match rest with c :: _ => ends_word c = true | [] => True end ->
  value b meaning (w ++ rest) = Some (false, w, rest).
Proof.
  intros [Hne Hw] Hr. pose proof (word_app w rest Hw Hr) as Hword. destruct w as [|c w]; [done|]. unfold value. cbn [app] in *.
  apply Forall_cons in Hw as [[_ Hc] _]. rewrite (proj2 (Z.eqb_neq _ _) Hc), Hword. done.
Qed.
Lemma digits_plain w : digit_text 10 w -> plain w.
Proof.
  intros [Hne Hw]. split; [done|]. eapply Forall_impl; [exact Hw|]. cbv beta. intros c (d & Hd & ->). unfold digit_char.
  rewrite (proj2 (Z.ltb_lt d 10)) by lia. assert (48 <= 48 + d) as Hc by lia. revert Hc. generalize (48 + d). clear. intros c Hc.
  assert (ends_word c = (c =? 44) || ((c =? 40) || ((c =? 41) || ((c =? 32) || false)))) as -> by reflexivity.
  unfold APOS. split; lia.
Qed.
Lemma itos_plain i : plain (itos i).
Proof.
  unfold itos. destruct (i <? 0); [|apply digits_plain, print_base_text; lia].
  destruct (digits_plain _ (print_base_text 10 (- i) ltac:(lia))) as [_ Hw]. split; [done|]. constructor; [done|exact Hw].
Qed.

(** *** Lists of items *)

Lemma append_items sep x items : x <> [] -> Forall (fun i => i <> []) items ->
  fold_left (append sep) items x = x ++ flat_map (fun i => sep ++ i) items.
Proof.
  intros Hx Hi. revert x Hx. induction Hi as [|i items Hi Hit IH]; intros x Hx; [by rewrite app_nil_r|]. cbn [fold_left flat_map].
  rewrite IH.
  - unfold append. destruct x as [|c x]; [done|]. by rewrite <- !app_assoc.
  - unfold append. destruct x as [|c x]; [done|]. by destruct ((c :: x) ++ sep).
Qed.
Lemma separated_cons sep x items : x <> [] -> Forall (fun i => i <> []) items ->
  separated sep (x :: items) = x ++ flat_map (fun i => sep ++ i) items.
Proof. intros Hx Hi. unfold separated. cbn [fold_left]. by apply append_items. Qed.

Section rows.
Context {D : Type} `{!Real D}.

(** Reals are printed as words. *)
Definition real_plain (v : FieldValue D) : Prop := match v with REAL d => plain (ftos d) | _ => True end.
Definition shown (escapes : bool) (v : FieldValue D) : bool * bytes :=
  match v with STRING s => (true, seen escapes s) | _ => (false, as_string v) end.

Lemma quoted_nonempty v : real_plain v -> as_quoted_string v <> [].
Proof.
  destruct v as [|s|i|i|[]|d]; cbn; try done.
  - intros _. apply itos_plain.
  - intros _. apply digits_plain, print_base_text. lia.
  - by intros [? _].
Qed.
Lemma value_quoted b meaning v rest : meaning BACKSLASH = [BACKSLASH] -> real_plain v ->
  (exists c t, rest = c :: t /\ ends_word c = true /\ c <> APOS) ->
  value b meaning (as_quoted_string v ++ rest) = Some (shown b v, rest).
Proof.
  intros Hm Hv (c & t & -> & Hc & Ha).
  assert (Hplain : forall w, plain w -> value b meaning (w ++ c :: t) = Some (false, w, c :: t)) by (intros w Hw; by apply value_plain).
  destruct v as [|s|i|i|[]|d]; cbn [as_quoted_string as_string shown].
  - apply Hplain. split; [done|by repeat constructor].
  - unfold quote. rewrite <- !app_assoc. cbn [app value]. rewrite Z.eqb_refl, literal_escape; [done|done|]. cbn. congruence.
  - apply Hplain, itos_plain.
  - apply Hplain, digits_plain, print_base_text. lia.
  - apply Hplain. split; [done|by repeat constructor].
  - apply Hplain. split; [done|by repeat constructor].
  - by apply Hplain.
Qed.

Lemma values_quoted b meaning v vs rest fuel : meaning BACKSLASH = [BACKSLASH] -> Forall real_plain (v :: vs) ->
  (length vs < fuel)%nat -> head rest = Some 41 ->
  values fuel b meaning (as_quoted_string v ++ flat_map (fun i => COMMA_SP ++ i) (map as_quoted_string vs) ++ rest) = Some (map (shown b) (v :: vs), rest).
Proof.
  intros Hm Hvs Hf Hr. revert v fuel Hvs Hf. induction vs as [|v' vs IH]; intros v fuel Hvs Hf.
  - apply Forall_cons in Hvs as [Hvs _]. destruct fuel as [|fuel]; [cbn in Hf; lia|]. cbn [values map flat_map app].
    destruct rest as [|c rest]; [done|]. injection Hr as ->. rewrite value_quoted; [|done|done|by exists 41, rest]. cbn.
    by destruct (shown b v).
  - apply Forall_cons in Hvs as [Hv Hvs]. destruct fuel as [|fuel]; [cbn in Hf; lia|]. cbn [values map flat_map].
    rewrite value_quoted; [|done|done|rewrite <- !app_assoc; by eexists 44, _].
    specialize (IH v' fuel Hvs ltac:(cbn in Hf; lia)). rewrite <- !app_assoc. cbn [mbind option_bind].
    assert (starts_with COMMA_SP (COMMA_SP ++ as_quoted_string v' ++ flat_map (fun i => COMMA_SP ++ i) (map as_quoted_string vs) ++ rest) = true) as ->
      by (apply starts_with_spec; by eexists).
    change (drop 2 (COMMA_SP ++ ?t)) with t. destruct (shown b v). by rewrite IH.
Qed.
End rows.

(** C34: Values that [libs/db] writes into SQL stay values: a server that reads the list of values of an INSERT finds exactly the values of the row, strings as strings, with all their characters, and everything else as words, and goes on after the list, whatever is in the strings; the same holds for a quoted string alone; in a dialect without escapes the backslashes in a string come out doubled, but the string ends where it should; and [unescape] undoes [escape]. *)
Theorem sql_values_safe {D} `{!Real D} (escapes : bool) meaning (row : Row D) rest :
  meaning BACKSLASH = [BACKSLASH] -> row <> [] -> Forall (fun p => real_plain (snd p)) row ->
  values (length row) escapes meaning (get_escaped_values row ++ str ")" ++ rest) = Some (map (fun p => shown escapes (snd p)) row, str ")" ++ rest) /\
  (forall s after, head after <> Some APOS -> value escapes meaning (quote s ++ after) = Some (true, seen escapes s, after)) /\
  (forall s, unescape (escape s) = s).
Proof.
  intros Hm Hne Hrow. split_and!.
  - destruct row as [|[k v] row]; [done|]. unfold get_escaped_values. cbn [map snd].
    apply Forall_cons in Hrow as [Hv Hrow]. cbn [snd] in Hv.
    rewrite separated_cons; [|by apply quoted_nonempty|].
    2: { apply Forall_map. eapply Forall_impl; [exact Hrow|]. intros. by apply quoted_nonempty. }
    rewrite <- app_assoc.
    pose proof (values_quoted escapes meaning v (map snd row) (str ")" ++ rest) (length ((k, v) :: row)) Hm) as Hvs.
    rewrite !map_map in Hvs. cbn [map] in Hvs. rewrite map_map in Hvs. apply Hvs; [|by rewrite length_map; cbn; lia|done].
    constructor; [done|]. by apply Forall_map.
  - intros s after Ha. unfold quote. rewrite <- !app_assoc. cbn [app value]. by rewrite Z.eqb_refl, literal_escape.
  - apply unescape_escape.
Qed.

(** Reals that are whole numbers *)
Definition sample_real : Real Z := {|
  ftos := itos; stof := stoi; int_of_real := id; u64_of_real := u64; bool_of_real d := negb (d =? 0); real_of_Z := id
|}.
#[local] Existing Instance sample_real.
Definition sample_row : Row Z :=
  add (str "who") (STRING (str "O'Neill', 'x')\; --")) (add (str "rate") (REAL 3) (add_null (str "gone") (add (str "age") (INT (-5)) clear))).
Example sample_values : get_escaped_values sample_row = str "-5, NULL, 3, 'O''Neill'', ''x'')\\; --'".
Proof. reflexivity. Qed.
Lemma sql_values_safe_witness :
  values 4 true (fun c => [c]) (get_escaped_values sample_row ++ str ")" ++ str ";") =
    Some ([(false, str "-5"); (false, str "NULL"); (false, str "3"); (true, str "O'Neill', 'x')\; --")], str ")" ++ str ";").
Proof.
  refine (proj1 (sql_values_safe true (fun c => [c]) sample_row (str ";") _ _ _)).
  - done.
  - done.
  - repeat constructor; try done.
Defined.

Example three_rows : statement_count (fun _ : unit => 3) (Some tt) = 1.
Proof. done. Qed.

(** ** Transactions *)

(** A driver that only executes, answers as it is told to, and keeps the commands *)
Definition log_driver (D : Type) (answer : list bytes -> bytes -> bool) : Driver D (list bytes) unit unit := {|
  d_exec sql log := (answer log sql, log ++ [sql]);
  d_query sql log := (None, log ++ [sql]);
  d_fetch_row _ log := (None, log);
  d_fetch_value _ log := (None, log);
  d_prepare _ log := (None, log);
  d_valid _ := true
|}.

(** With no condition, [select_row] still writes WHERE. *)
Example select_row_without_where :
  snd (select_row (D := Z) (drv := log_driver Z (fun _ _ => true)) (str "t") (add_null (str "x") clear) [] (mk_Connection [] [])) =
    mk_Connection [str "SELECT x FROM t WHERE  LIMIT 1"] [].
Proof. reflexivity. Qed.
(** A true value that [get_bool] reads as true is false for [query_bool]. *)
Definition value_driver (v : bytes) : Driver Z unit bytes unit := {|
  d_exec _ s := (true, s); d_query _ s := (Some v, s); d_fetch_row _ s := (None, s); d_fetch_value r s := (Some r, s);
  d_prepare _ s := (None, s); d_valid _ := true
|}.
Example one_is_false :
  fst (query_bool (drv := value_driver (str "1")) (str "SELECT 1") false (mk_Connection tt [])) = Val false /\ db_str_to_bool (str "1") = true.
Proof. done. Qed.

Section transactions.
Context {D : Type} (answer : list bytes -> bytes -> bool).
#[local] Existing Instance log_driver.
#[local] Abbreviation Conn := (@Connection (list bytes) unit).
#[local] Abbreviation commit := (Db.commit (drv := log_driver D answer)).

(** [n] calls of [commit], and what they return *)
Fixpoint commits (n : nat) (t : Transaction) : M Conn Fault (list bool * Transaction) :=
  match n with
  | O => ret ([], t)
  | Datatypes.S n => let! r := commit t in let! rs := commits n (snd r) in ret (fst r :: fst rs, snd rs)
  end.
(** A transaction from its construction to its end *)
Definition transaction (immediate : bool) (n : nat) : M Conn Fault (list bool) :=
  let! t := new_Transaction (drv := log_driver D answer) true immediate in
  let! r := commits n t in
  end_Transaction (drv := log_driver D answer) (snd r) ;;; ret (fst r).

Definition COMMIT : bytes := str "commit".
Lemma commits_done n log ps : commits n (mk_Transaction true true) (mk_Connection log ps) = (Val (replicate n false, mk_Transaction true true), mk_Connection log ps).
Proof. induction n as [|n IH]; [done|]. cbn. unfold bind. by rewrite IH. Qed.
Lemma commit_open log ps : commit (mk_Transaction true false) (mk_Connection log ps) =
  (Val (answer log COMMIT, mk_Transaction true (answer log COMMIT)), mk_Connection (log ++ [COMMIT]) ps).
Proof. done. Qed.
Lemma commits_step n log ps b rs t c : answer log COMMIT = b ->
  commits n (mk_Transaction true b) (mk_Connection (log ++ [COMMIT]) ps) = (Val (rs, t), c) ->
  commits (Datatypes.S n) (mk_Transaction true false) (mk_Connection log ps) = (Val (b :: rs, t), c).
Proof.
  intros Ha Hc. cbn [commits]. unfold bind at 1. rewrite commit_open. cbn [fst snd]. rewrite Ha. unfold bind. by rewrite Hc.
Qed.
(** The commits that fail, and the first that does not *)
Lemma commits_open n log ps : exists k,
  (k <= n)%nat /\ (forall j, (j < k)%nat -> answer (log ++ replicate j COMMIT) COMMIT = false) /\
  ((k = n /\ commits n (mk_Transaction true false) (mk_Connection log ps) =
      (Val (replicate n false, mk_Transaction true false), mk_Connection (log ++ replicate n COMMIT) ps)) \/
   ((k < n)%nat /\ answer (log ++ replicate k COMMIT) COMMIT = true /\
    commits n (mk_Transaction true false) (mk_Connection log ps) =
      (Val (replicate k false ++ true :: replicate (n - k - 1) false, mk_Transaction true true), mk_Connection (log ++ replicate (Datatypes.S k) COMMIT) ps))).
Proof.
  revert log. induction n as [|n IH]; intros log.
  { exists 0%nat. split_and!; [done|lia|]. left. cbn. by rewrite app_nil_r. }
  destruct (answer log COMMIT) eqn:Ha.
  - exists 0%nat. split_and!; [lia|lia|]. right. cbn [replicate app]. rewrite app_nil_r. split_and!; [lia|done|].
    rewrite (commits_step n log ps true _ _ _ Ha (commits_done n _ ps)). cbn. by rewrite Nat.sub_0_r.
  - destruct (IH (log ++ [COMMIT])) as (k & Hk & Hfail & Hend). exists (Datatypes.S k). rewrite <- !app_assoc in Hend. split_and!; [lia| |].
    + intros [|j] Hj; [by rewrite app_nil_r|]. cbn [replicate]. specialize (Hfail j ltac:(lia)). by rewrite <- app_assoc in Hfail.
    + destruct Hend as [[-> He]|(Hkn & Hok & He)]; [left|right]; rewrite (commits_step n log ps false _ _ _ Ha He); [done|].
      split_and!; [lia|done|done].
Qed.

Lemma end_open log ps : end_Transaction (drv := log_driver D answer) (mk_Transaction true false) (mk_Connection log ps) =
  (Val tt, mk_Connection (log ++ [str "rollback"]) ps).
Proof. done. Qed.
Lemma end_done (c : Conn) : end_Transaction (drv := log_driver D answer) (mk_Transaction true true) c = (Val tt, c).
Proof. done. Qed.
Lemma begin_log (immediate : bool) log ps : let BEGIN := if immediate then str "begin immediate" else str "begin" in
  new_Transaction (drv := log_driver D answer) true immediate (mk_Connection log ps) =
    (Val (mk_Transaction true (negb (answer log BEGIN))), mk_Connection (log ++ [BEGIN]) ps).
Proof. by destruct immediate. Qed.

(** A [Transaction] that has begun is ended exactly once, however often [commit] is called: by the first COMMIT that the database accepts, after which nothing more is sent and only that call has returned true; or else, when all calls have failed or there is none, by one ROLLBACK when the object goes; one that could not begin sends nothing more at all. *)
Theorem transaction_ends (immediate : bool) n log ps :
  let BEGIN := if immediate then str "begin immediate" else str "begin" in
  if answer log BEGIN then
    exists k, (k <= n)%nat /\
      (forall j, (j < k)%nat -> answer (log ++ BEGIN :: replicate j COMMIT) COMMIT = false) /\
      ((k = n /\ transaction immediate n (mk_Connection log ps) =
          (Val (replicate n false), mk_Connection (log ++ BEGIN :: replicate n COMMIT ++ [str "rollback"]) ps)) \/
       ((k < n)%nat /\ answer (log ++ BEGIN :: replicate k COMMIT) COMMIT = true /\ transaction immediate n (mk_Connection log ps) =
          (Val (replicate k false ++ true :: replicate (n - k - 1) false), mk_Connection (log ++ BEGIN :: replicate (Datatypes.S k) COMMIT) ps)))
  else transaction immediate n (mk_Connection log ps) = (Val (replicate n false), mk_Connection (log ++ [BEGIN]) ps).
Proof.
  intros BEGIN. assert (Hrun : forall bs t c, commits n (mk_Transaction true (negb (answer log BEGIN))) (mk_Connection (log ++ [BEGIN]) ps) = (Val (bs, t), c) ->
    transaction immediate n (mk_Connection log ps) = (end_Transaction (drv := log_driver D answer) t ;;; ret bs) c).
  { intros bs t c Hc. unfold transaction. unfold bind at 1. rewrite begin_log. fold BEGIN. unfold bind at 1. by rewrite Hc. }
  destruct (answer log BEGIN); cbn [negb] in Hrun.
  - destruct (commits_open n (log ++ [BEGIN]) ps) as (k & Hk & Hfail & Hend). exists k. split_and!; [done| |].
    + intros j Hj. specialize (Hfail j Hj). by rewrite <- app_assoc in Hfail.
    + destruct Hend as [[-> He]|(Hkn & Hok & He)]; [left|right]; rewrite (Hrun _ _ _ He); unfold bind.
      * rewrite end_open. unfold ret. by rewrite <- !app_assoc.
      * rewrite end_done. unfold ret. rewrite <- app_assoc in Hok. by rewrite <- app_assoc.
  - rewrite (Hrun _ _ _ (commits_done n _ ps)). unfold bind. by rewrite end_done.
Qed.
End transactions.
End Db.
