(* ===== verification/ConnPool.v ===== *)
(** * The pool of database connections

    Models [src/libs/db/pool.cc]: each method of [ConnectionPool] is its critical
    sections, functions of the state that the mutex guards; threads that claim
    and release connections, and the thread of the pool, interleave them in any
    order.  A [Connection*] is its address.  Whether a connection is still good,
    what the factory creates and what the time is are up to the environment: they
    are given to each section ([ok], [created], [now]). *)
From stdpp Require Export relations.
From S2P Require Export OrdMap.

Module ConnPool.

Definition conn := Z.
(** A client that waits, and since when *)
Record PendingRequest := mk_request { client : nat; started : Z }.
Record ConnectionPool := mk_pool {
  min_connections : Z; max_connections : Z; max_inactivity : Z; claim_timeout : Z;
  connections : list conn; available : list conn; last_used : list (conn * Z);
  pending_requests : list PendingRequest
}.
Definition with_connections (cs av : list conn) (lu : list (conn * Z)) (p : ConnectionPool) : ConnectionPool :=
  mk_pool (min_connections p) (max_connections p) (max_inactivity p) (claim_timeout p) cs av lu (pending_requests p).
Definition with_pending (pr : list PendingRequest) (p : ConnectionPool) : ConnectionPool :=
  mk_pool (min_connections p) (max_connections p) (max_inactivity p) (claim_timeout p) (connections p) (available p) (last_used p) pr.
(** [list::remove] *)
Definition list_remove (c : conn) (l : list conn) : list conn := filter (fun d => d <> c) l.

(** What [factory.create()] gives: nothing, or a connection and whether it is good *)
Definition creation : Type := option (conn * bool).

(** The loop for the [n] connections that are missing: it goes on after nothing, but not after a bad one. *)
Fixpoint fill_loop (n : nat) (created : list creation) (now : Z) (p : ConnectionPool) : ConnectionPool :=
  match n, created with
  | S n, Some (c, true) :: created =>
    fill_loop n created now (with_connections (connections p ++ [c]) (available p ++ [c]) (put c now (last_used p)) p)
  | S n, Some (c, false) :: created => p
  | S n, None :: created => fill_loop n created now p
  | _, _ => p
  end.
Definition fill_to_minimum (created : list creation) (now : Z) (p : ConnectionPool) : ConnectionPool :=
  fill_loop (Z.to_nat (min_connections p - zlen (connections p))) created now p.
Definition new_ConnectionPool (min max inactivity timeout : Z) (created : list creation) (now : Z) : ConnectionPool :=
  fill_to_minimum created now (mk_pool min max inactivity timeout [] [] [] []).

(** ** [claim] *)

Inductive claimed := Claimed (c : conn) | Refused | Must_wait.
(** Take the first available one that is good, and delete those that are not; [None] when there is none. *)
Fixpoint claim_available (av : list conn) (ok : conn -> bool) (now : Z) (p : ConnectionPool) : option conn * ConnectionPool :=
  match av with
  | [] => (None, with_connections (connections p) [] (last_used p) p)
  | c :: av =>
    if ok c then (Some c, with_connections (connections p) av (put c now (last_used p)) p)
    else claim_available av ok now (with_connections (list_remove c (connections p)) av (erase c (last_used p)) p)
  end.
(** The first critical section *)
Definition claim (ok : conn -> bool) (created : creation) (now : Z) (p : ConnectionPool) : claimed * ConnectionPool :=
  match claim_available (available p) ok now p with
  | (Some c, p) => (Claimed c, p)
  | (None, p) =>
    if zlen (connections p) <? max_connections p then
      match created with
      | Some (c, true) => (Claimed c, with_connections (connections p ++ [c]) (available p) (put c now (last_used p)) p)
      | _ => (Refused, p)
      end
    else (Must_wait, p)
  end.
(** The second: wait for a release. *)
Definition enqueue (i : nat) (now : Z) (p : ConnectionPool) : ConnectionPool := with_pending (pending_requests p ++ [mk_request i now]) p.

(** ** [release] *)

(** The client whose request is signalled, with the connection, if there is one *)
Definition release (c : conn) (p : ConnectionPool) : option nat * ConnectionPool :=
  match pending_requests p with
  | pr :: rest => (Some (client pr), with_pending rest p)
  | [] => (None, if bool_decide (c ∈ available p) then p else with_connections (connections p) (available p ++ [c]) (last_used p) p)
  end.

(** ** [run]: a turn of the loop of the pool's thread *)

(** The iterator is between those that are kept and those to come. *)
Fixpoint drop_loop (kept av : list conn) (ok : conn -> bool) (p : ConnectionPool) : ConnectionPool :=
  match av with
  | [] => p
  | c :: av =>
    if ok c then drop_loop (kept ++ [c]) av ok p
    else drop_loop kept av ok (with_connections (list_remove c (connections p)) (kept ++ av) (erase c (last_used p)) p)
  end.
Definition drop_failed (ok : conn -> bool) (p : ConnectionPool) : ConnectionPool := drop_loop [] (available p) ok p.
Definition reap_one (now : Z) (p : ConnectionPool) (entry : conn * Z) : ConnectionPool :=
  let '(c, t) := entry in
  if now - t >=? max_inactivity p then
    if bool_decide (c ∈ available p) then
      if zlen (connections p) >? min_connections p then
        with_connections (list_remove c (connections p)) (list_remove c (available p)) (erase c (last_used p)) p
      else p
    else with_connections (connections p) (available p) (put c now (last_used p)) p
  else p.
Definition reap (now : Z) (p : ConnectionPool) : ConnectionPool := fold_left (reap_one now) (last_used p) p.
(** The first request, if it has waited for too long, is signalled without a connection. *)
Definition time_out (now : Z) (p : ConnectionPool) : option nat * ConnectionPool :=
  match pending_requests p with
  | pr :: rest => if now - started pr >? claim_timeout p then (Some (client pr), with_pending rest p) else (None, p)
  | [] => (None, p)
  end.
Definition clean (ok : conn -> bool) (now : Z) (p : ConnectionPool) : ConnectionPool := reap now (drop_failed ok p).
Definition turn (ok : conn -> bool) (created : list creation) (now : Z) (p : ConnectionPool) : option nat * ConnectionPool :=
  time_out now (fill_to_minimum created now (clean ok now p)).

Definition num_connections (p : ConnectionPool) : Z := zlen (connections p).
Definition num_available (p : ConnectionPool) : Z := zlen (available p).
Definition num_in_use (p : ConnectionPool) : Z := zlen (connections p) - zlen (available p).

(** ** The clients *)

(** Where a client is: [Between] is after the first section of a [claim] that has to wait; [Given]: its request has
    been signalled. *)
Inductive client_state := Out | Between | Queued | Given (c : option conn) | Has (c : conn).
Record system := mk_system { pool : ConnectionPool; clients : list client_state }.

Definition after_claim (r : claimed) : client_state :=
  match r with Claimed c => Has c | Refused => Out | Must_wait => Between end.
Definition signal (who : option nat) (c : option conn) (cl : list client_state) : list client_state :=
  match who with Some j => <[j := Given c]> cl | None => cl end.
(** New connections have addresses that are not in use. *)
Definition addresses (created : list creation) : list conn := omap (fun r => fst <$> r) created.
Definition fresh (created : list creation) (p : ConnectionPool) : Prop :=
  NoDup (addresses created) /\ forall c, c ∈ addresses created -> c ∉ connections p.

Inductive step : system -> system -> Prop :=
  | step_claim i ok created now s : clients s !! i = Some Out ->
      fresh [created] (snd (claim_available (available (pool s)) ok now (pool s))) ->
      step s (mk_system (snd (claim ok created now (pool s))) (<[i := after_claim (fst (claim ok created now (pool s)))]> (clients s)))
  | step_enqueue i now s : clients s !! i = Some Between ->
      step s (mk_system (enqueue i now (pool s)) (<[i := Queued]> (clients s)))
  | step_release i c s : clients s !! i = Some (Has c) ->
      step s (mk_system (snd (release c (pool s))) (signal (fst (release c (pool s))) (Some c) (<[i := Out]> (clients s))))
  | step_wake i c s : clients s !! i = Some (Given c) ->
      step s (mk_system (pool s) (<[i := match c with Some c => Has c | None => Out end]> (clients s)))
  | step_turn ok created now s : fresh created (clean ok now (pool s)) ->
      step s (mk_system (snd (turn ok created now (pool s))) (signal (fst (turn ok created now (pool s))) None (clients s))).

Definition start (min max inactivity timeout : Z) (created : list creation) (now : Z) (n : nat) : system :=
  mk_system (new_ConnectionPool min max inactivity timeout created now) (replicate n Out).

(* ------------------------------------------------------------------ *)
(** ** The invariant *)

Definition holds (s : client_state) : option conn := match s with Has c | Given (Some c) => Some c | _ => None end.
Definition held (cl : list client_state) : list conn := omap holds cl.
(** The connections are those that are available and those of the clients, each once, and have times. *)
Definition pool_ok (h : list conn) (p : ConnectionPool) : Prop :=
  connections p ≡ₚ available p ++ h /\ NoDup (connections p) /\
  ordered_map (last_used p) /\ (forall c, is_Some (find c (last_used p)) <-> c ∈ connections p) /\
  zlen (connections p) <= Z.max (min_connections p) (max_connections p).
Definition queue_ok (cl : list client_state) (p : ConnectionPool) : Prop :=
  NoDup (map client (pending_requests p)) /\ (forall j, j ∈ map client (pending_requests p) <-> cl !! j = Some Queued).
Definition system_ok (s : system) : Prop := pool_ok (held (clients s)) (pool s) /\ queue_ok (clients s) (pool s).

(* ------------------------------------------------------------------ *)
(** ** Lemmas *)

Lemma remove_absent (c : conn) (l : list conn) : c ∉ l -> filter (fun d => d <> c) l = l.
Proof.
  induction l as [|d l IH]; [done|]. rewrite not_elem_of_cons. intros [Hd Hl]. by rewrite filter_cons_True, IH.
Qed.
Lemma list_remove_perm (c : conn) (l rest : list conn) : l ≡ₚ c :: rest -> NoDup l -> list_remove c l ≡ₚ rest.
Proof.
  intros Hl Hnd. rewrite Hl in Hnd. apply NoDup_cons in Hnd as [Hc _]. unfold list_remove. rewrite Hl.
  rewrite filter_cons_False by tauto. by rewrite remove_absent.
Qed.
Lemma held_insert cl i old new : cl !! i = Some old ->
  option_list (holds old) ++ held (<[i := new]> cl) ≡ₚ option_list (holds new) ++ held cl.
Proof.
  revert i. induction cl as [|x cl IH]; intros [|i] Hi; simplify_eq/=; unfold held in *; cbn [omap list_omap].
  - destruct (holds old), (holds new); cbn; try done. apply perm_swap.
  - specialize (IH i Hi). destruct (holds x) as [d|]; [|done]. rewrite <- !Permutation_middle. by rewrite IH.
Qed.
Lemma held_elem cl c : c ∈ held cl <-> exists i s, cl !! i = Some s /\ holds s = Some c.
Proof.
  unfold held. rewrite list_elem_of_omap. split.
  - intros (s & Hs & Hc). apply list_elem_of_lookup in Hs as [i Hi]. eauto.
  - intros (i & s & Hs & Hc). exists s. split; [by eapply list_elem_of_lookup_2|done].
Qed.

(** *** What a section does to the connections *)

(** Only the connections change. *)
Definition frame (p p' : ConnectionPool) : Prop :=
  min_connections p' = min_connections p /\ max_connections p' = max_connections p /\ pending_requests p' = pending_requests p.
Lemma frame_refl p : frame p p.
Proof. done. Qed.
Lemma frame_trans p q r : frame p q -> frame q r -> frame p r.
Proof. unfold frame. intros (?&?&?) (?&?&?). split_and!; congruence. Qed.

Lemma pool_ok_perm h h' p : h ≡ₚ h' -> pool_ok h p -> pool_ok h' p.
Proof. unfold pool_ok. intros <-. done. Qed.
Lemma pool_remove h p c av : pool_ok h p -> available p ≡ₚ c :: av ->
  pool_ok h (with_connections (list_remove c (connections p)) av (erase c (last_used p)) p).
Proof.
  intros (Hp & Hnd & Ho & Hk & Hmax) Hav. rewrite Hav in Hp. cbn [app] in Hp.
  pose proof (list_remove_perm _ _ _ Hp Hnd) as Hr. assert (NoDup (c :: av ++ h)) as Hnd' by (by rewrite <- Hp).
  apply NoDup_cons in Hnd' as [Hc Hnd']. unfold pool_ok, with_connections. cbn. split_and!.
  - done.
  - by rewrite Hr.
  - by apply erase_ordered.
  - intros d. rewrite find_erase by done. rewrite Hr. specialize (Hk d). rewrite Hp, elem_of_cons in Hk.
    destruct (key_compare d c) eqn:Hd.
    1: apply key_compare_eq in Hd as ->; split; [by intros [? ?]|done].
    all: rewrite Hk; split; [intros [->|?]; [by rewrite key_compare_refl in Hd|done]|by right].
  - unfold zlen in *. rewrite Hr. rewrite Hp in Hmax. cbn [length] in Hmax. lia.
Qed.
Lemma put_keys {m : list (conn * Z)} c now d : is_Some (find d (put c now m)) <-> d = c \/ is_Some (find d m).
Proof.
  rewrite find_put. destruct (key_compare d c) eqn:Hd.
  1: apply key_compare_eq in Hd as ->; split; [by left|by eexists].
  all: split; [by right|intros [->|?]; [by rewrite key_compare_refl in Hd|done]].
Qed.
Lemma pool_touch h p c now : pool_ok h p -> c ∈ connections p ->
  pool_ok h (with_connections (connections p) (available p) (put c now (last_used p)) p).
Proof.
  intros (Hp & Hnd & Ho & Hk & Hmax) Hc. split_and!; cbn; [done|done|by apply put_ordered| |done].
  intros d. rewrite put_keys, Hk. split; [by intros [->|?]|by right].
Qed.
Lemma pool_take h p c av : pool_ok h p -> available p ≡ₚ c :: av -> pool_ok (c :: h) (with_connections (connections p) av (last_used p) p).
Proof.
  intros (Hp & Hnd & Ho & Hk & Hmax) Hav. split_and!; cbn; try done. rewrite Hp, Hav. cbn. apply Permutation_middle.
Qed.
Lemma pool_give h p c : pool_ok (c :: h) p -> pool_ok h (with_connections (connections p) (available p ++ [c]) (last_used p) p).
Proof. intros (Hp & Hnd & Ho & Hk & Hmax). split_and!; cbn; try done. by rewrite Hp, <- app_assoc. Qed.
Lemma pool_create h p c now : pool_ok h p -> c ∉ connections p -> zlen (connections p) < Z.max (min_connections p) (max_connections p) ->
  pool_ok (c :: h) (with_connections (connections p ++ [c]) (available p) (put c now (last_used p)) p).
Proof.
  intros (Hp & Hnd & Ho & Hk & Hmax) Hc Hlt. split_and!; cbn.
  - rewrite Hp, <- !Permutation_middle. by rewrite app_nil_r.
  - apply NoDup_app. split_and!; [done| |apply NoDup_singleton]. by intros d Hd ->%list_elem_of_singleton.
  - by apply put_ordered.
  - intros d. rewrite put_keys, Hk, elem_of_app, list_elem_of_singleton. tauto.
  - unfold zlen in *. rewrite length_app. cbn. lia.
Qed.

Lemma available_in h p c : pool_ok h p -> c ∈ available p -> c ∈ connections p.
Proof. intros (Hp & _) Hc. rewrite Hp, elem_of_app. by left. Qed.
Lemma claim_available_ok h ok now p : pool_ok h p ->
  match claim_available (available p) ok now p with
  | (Some c, p') => pool_ok (c :: h) p' /\ frame p p'
  | (None, p') => pool_ok h p' /\ frame p p' /\ available p' = []
  end.
Proof.
  remember (available p) as av eqn:Hav. revert p Hav. induction av as [|c av IH]; intros p Hav Hp; cbn [claim_available].
  - split_and!; [|done|done]. destruct p; cbn in *. by subst.
  - destruct (ok c).
    + split; [|done]. assert (available p ≡ₚ c :: av) as Hperm by by rewrite <- Hav. pose proof (pool_take h p c av Hp Hperm) as Ht.
      assert (c ∈ connections p) as Hc by (apply (available_in h p c Hp); rewrite <- Hav; apply list_elem_of_here).
      exact (pool_touch _ _ c now Ht Hc).
    + assert (available p ≡ₚ c :: av) as Hperm by by rewrite <- Hav.
      specialize (IH (with_connections (list_remove c (connections p)) av (erase c (last_used p)) p) eq_refl (pool_remove h p c av Hp Hperm)).
      destruct (claim_available _ _ _ _) as [[d|] p']; [|exact IH]. exact IH.
Qed.

Lemma addresses_cons r created : addresses (r :: created) = match r with Some (c, _) => c :: addresses created | None => addresses created end.
Proof. by destruct r as [[c b]|]. Qed.
Lemma claim_ok h ok created now p : pool_ok h p -> fresh [created] (snd (claim_available (available p) ok now p)) ->
  frame p (snd (claim ok created now p)) /\
  pool_ok (option_list (holds (after_claim (fst (claim ok created now p)))) ++ h) (snd (claim ok created now p)).
Proof.
  intros Hp Hfresh. unfold claim. pose proof (claim_available_ok h ok now p Hp) as Ha.
  destruct (claim_available (available p) ok now p) as [[c|] q]; [by destruct Ha|]. destruct Ha as (Hq & Hf & Hav). cbn [snd] in Hfresh.
  destruct (Z.ltb_spec (zlen (connections q)) (max_connections q)); [|done].
  destruct created as [[c [|]]|]; [|done|done]. split; [by apply (frame_trans p q)|].
  apply pool_create; [done| |lia]. apply Hfresh. rewrite addresses_cons. apply list_elem_of_here.
Qed.

Lemma fill_created_ok n h created now p : pool_ok h p -> fresh created p -> zlen (connections p) + Z.of_nat n <= Z.max (min_connections p) (max_connections p) ->
  frame p (fill_loop n created now p) /\ pool_ok h (fill_loop n created now p).
Proof.
  revert created p. induction n as [|n IH]; intros created p Hp Hf Hn; [by destruct created as [|[[? []]|] ?]|]. destruct created as [|[[c [|]]|] created]; cbn [fill_loop]; [done| |done|].
  - destruct Hf as [Hnd Hf]. rewrite addresses_cons in Hnd, Hf. apply NoDup_cons in Hnd as [Hc Hnd].
    assert (c ∉ connections p) as Hcp by (apply Hf, list_elem_of_here).
    pose proof (pool_give _ _ _ (pool_create h p c now Hp Hcp ltac:(lia))) as Hp'. cbn in Hp'.
    destruct (IH created _ Hp') as [Hfr Hok].
    + split; [done|]. intros d Hd. cbn. rewrite elem_of_app, list_elem_of_singleton. intros [Hin| ->]; [|done].
      apply (Hf d); [by right|done].
    + cbn. unfold zlen in *. rewrite length_app. cbn. lia.
    + split; [|exact Hok]. eapply frame_trans; [|exact Hfr]. done.
  - apply IH; [done| |lia]. destruct Hf as [Hnd Hf]. by rewrite addresses_cons in Hnd, Hf.
Qed.
Lemma fill_ok h created now p : pool_ok h p -> fresh created p ->
  frame p (fill_to_minimum created now p) /\ pool_ok h (fill_to_minimum created now p).
Proof. intros Hp Hf. apply fill_created_ok; [done|done|]. destruct Hp as (_ & _ & _ & _ & Hmax). lia. Qed.

Lemma drop_loop_ok av : forall kept h ok p, pool_ok h p -> available p = kept ++ av ->
  frame p (drop_loop kept av ok p) /\ pool_ok h (drop_loop kept av ok p).
Proof.
  induction av as [|c av IH]; intros kept h ok p Hp Hav; cbn [drop_loop]; [done|]. destruct (ok c).
  - apply IH; [done|]. by rewrite <- app_assoc.
  - destruct (IH kept h ok (with_connections (list_remove c (connections p)) (kept ++ av) (erase c (last_used p)) p)) as [Hf Hok].
    + apply pool_remove; [done|]. rewrite Hav. by rewrite Permutation_middle.
    + done.
    + split; [|exact Hok]. eapply frame_trans; [|exact Hf]. done.
Qed.

Lemma reap_one_ok h now p c t : pool_ok h p -> c ∈ connections p ->
  frame p (reap_one now p (c, t)) /\ pool_ok h (reap_one now p (c, t)) /\
  (forall d, d <> c -> d ∈ connections p -> d ∈ connections (reap_one now p (c, t))).
Proof.
  intros Hp Hc. unfold reap_one. destruct (now - t >=? max_inactivity p); [|done]. case_bool_decide as Ha.
  - destruct (zlen (connections p) >? min_connections p); [|done]. split_and!; [done| |].
    + apply pool_remove; [done|]. pose proof Hp as (Hperm & Hnd & _). rewrite Hperm in Hnd. apply NoDup_app in Hnd as (Hnd & _ & _).
      apply list_elem_of_split in Ha as (l1 & l2 & Hl). assert (available p ≡ₚ c :: (l1 ++ l2)) as Hp1 by (rewrite Hl; by rewrite Permutation_middle).
      by rewrite (list_remove_perm _ _ _ Hp1 Hnd).
    + intros d Hd Hin. cbn. by apply list_elem_of_filter.
  - split_and!; [done| |done]. by apply pool_touch.
Qed.
Lemma reap_list_ok h now l : forall p, pool_ok h p -> NoDup (map fst l) -> (forall c, c ∈ map fst l -> c ∈ connections p) ->
  frame p (fold_left (reap_one now) l p) /\ pool_ok h (fold_left (reap_one now) l p).
Proof.
  induction l as [|[c t] l IH]; intros p Hp Hnd Hl; [done|]. cbn [fold_left]. cbn in Hnd. apply NoDup_cons in Hnd as [Hc Hnd].
  destruct (reap_one_ok h now p c t Hp) as (Hf & Hok & Hin); [apply Hl, list_elem_of_here|].
  destruct (IH (reap_one now p (c, t)) Hok Hnd) as [Hf' Hok'].
  - intros d Hd. apply Hin; [by intros ->|]. apply Hl. by right.
  - split; [|exact Hok']. by eapply frame_trans.
Qed.
Lemma keys_nodup (m : list (conn * Z)) : ordered_map m -> NoDup (map fst m).
Proof.
  induction 1 as [|[k v] m Hm IH Hall]; [constructor|]. cbn. constructor; [|done]. intros (e & He & Hin)%list_elem_of_fmap.
  rewrite Forall_forall in Hall. specialize (Hall e Hin). unfold before in Hall. cbn in Hall. rewrite He in Hall. by rewrite key_compare_refl in Hall.
Qed.
Lemma clean_ok h ok now p : pool_ok h p -> frame p (clean ok now p) /\ pool_ok h (clean ok now p).
Proof.
  intros Hp. unfold clean, drop_failed. destruct (drop_loop_ok (available p) [] h ok p Hp eq_refl) as [Hf Hok]. unfold reap.
  destruct (reap_list_ok h now (last_used (drop_loop [] (available p) ok p)) _ Hok) as [Hf' Hok'].
  - apply keys_nodup, Hok.
  - intros c Hc. destruct Hok as (_ & _ & Ho & Hk & _). apply Hk. apply list_elem_of_fmap in Hc as ([d t] & -> & Hin).
    exists t. by apply find_in.
  - split; [|exact Hok']. by eapply frame_trans.
Qed.

(** *** The steps *)

Lemma held_change cl i old new : cl !! i = Some old -> holds old = None -> held (<[i := new]> cl) ≡ₚ option_list (holds new) ++ held cl.
Proof. intros Hi Ho. pose proof (held_insert cl i old new Hi) as H. by rewrite Ho in H. Qed.
Lemma held_same cl i old new : cl !! i = Some old -> holds new = holds old -> held (<[i := new]> cl) ≡ₚ held cl.
Proof.
  intros Hi Ho. pose proof (held_insert cl i old new Hi) as H. rewrite Ho in H.
  destruct (holds old); cbn in H; [by apply Permutation_cons_inv in H|done].
Qed.
(** A client that changes between states that are not [Queued] *)
Lemma queue_other cl i old new p q : queue_ok cl p -> cl !! i = Some old -> old <> Queued -> new <> Queued ->
  pending_requests q = pending_requests p -> queue_ok (<[i := new]> cl) q.
Proof.
  intros [Hnd Hq] Hi Ho Hn Hp. unfold queue_ok. rewrite Hp. split; [done|]. intros j. rewrite Hq.
  destruct (decide (i = j)) as [->|Hne]; [|by rewrite list_lookup_insert_ne].
  rewrite list_lookup_insert_eq by (by eapply lookup_lt_Some). rewrite Hi. split; congruence.
Qed.
Lemma queue_join cl i old now p : queue_ok cl p -> cl !! i = Some old -> old <> Queued -> queue_ok (<[i := Queued]> cl) (enqueue i now p).
Proof.
  intros [Hnd Hq] Hi Ho. unfold queue_ok. cbn. rewrite map_app. cbn. split.
  - apply NoDup_app. split_and!; [done| |apply NoDup_singleton]. intros j Hj ->%list_elem_of_singleton. apply Hq in Hj. congruence.
  - intros j. rewrite elem_of_app, Hq, list_elem_of_singleton. destruct (decide (i = j)) as [->|Hne].
    + rewrite list_lookup_insert_eq by (by eapply lookup_lt_Some). tauto.
    + rewrite list_lookup_insert_ne by done. split; [intros [?|?]; congruence|by left].
Qed.
(** The first request is signalled. *)
Lemma queue_signal cl p pr rest c : queue_ok cl p -> pending_requests p = pr :: rest ->
  cl !! client pr = Some Queued /\ queue_ok (<[client pr := Given c]> cl) (with_pending rest p).
Proof.
  intros [Hnd Hq] Hp. rewrite Hp in Hnd, Hq. cbn in Hnd, Hq. apply NoDup_cons in Hnd as [Hpr Hnd].
  assert (cl !! client pr = Some Queued) as Hc by (apply Hq, list_elem_of_here). split; [done|]. unfold queue_ok. cbn. split; [done|].
  intros j. destruct (decide (client pr = j)) as [<-|Hne].
  - rewrite list_lookup_insert_eq by (by eapply lookup_lt_Some). split; congruence.
  - rewrite list_lookup_insert_ne by done. rewrite <- Hq, elem_of_cons. split; [by right|intros [?|?]; congruence].
Qed.
Lemma pool_with_pending h pr p : pool_ok h p -> pool_ok h (with_pending pr p).
Proof. done. Qed.

(** What clients and the pool can rely on all the time, with the limits the pool was made with *)
Definition good (min max : Z) (s : system) : Prop :=
  system_ok s /\ min_connections (pool s) = min /\ max_connections (pool s) = max.

Lemma good_step min max s s' : good min max s -> step s s' -> good min max s'.
Proof.
  intros ([Hp Hq] & Hmin & Hmax) Hst. destruct Hst as [i ok created now s Hi Hf|i now s Hi|i c s Hi|i c s Hi|ok created now s Hf].
  - destruct (claim_ok _ ok created now _ Hp Hf) as [Hfr Hok]. pose proof Hfr as (Hm & HM & Hpr). unfold good; cbn. split; [|by rewrite Hm, HM]. split.
    + eapply pool_ok_perm; [|exact Hok]. symmetry. by eapply held_change.
    + eapply queue_other; [done|done|done| |done]. by destruct (fst (claim _ _ _ _)).
  - split; [|done]. split; [|by eapply queue_join]. eapply pool_ok_perm; [|by apply pool_with_pending]. symmetry. by eapply held_same.
  - pose proof (held_insert _ i _ Out Hi) as Hh. cbn in Hh.
    assert (queue_ok (<[i := Out]> (clients s)) (pool s)) as Hq' by (by eapply queue_other). unfold release.
    destruct (pending_requests (pool s)) as [|pr rest] eqn:Hpr.
    + assert (pool_ok (c :: held (<[i := Out]> (clients s))) (pool s)) as Hp' by (by eapply pool_ok_perm).
      case_bool_decide as Hc.
      { exfalso. destruct Hp' as (Hperm & Hnd & _). rewrite Hperm in Hnd. apply NoDup_app in Hnd as (_ & Hd & _).
        apply (Hd c Hc), list_elem_of_here. }
      split; [|done]. split; [by apply pool_give|exact Hq'].
    + destruct (queue_signal _ _ pr rest (Some c) Hq' Hpr) as [Hc Hq'']. split; [|done]. split; [|exact Hq''].
      eapply pool_ok_perm; [|by apply pool_with_pending]. cbn. rewrite (held_change _ _ _ _ Hc); [|done]. cbn. by rewrite Hh.
  - split; [|done]. split; [|by eapply queue_other; destruct c]. eapply pool_ok_perm; [|done]. symmetry. eapply held_same; [done|]. by destruct c.
  - destruct (clean_ok _ ok now _ Hp) as [Hfr Hok]. destruct (fill_ok _ created now _ Hok Hf) as [Hfr' Hok'].
    pose proof (frame_trans _ _ _ Hfr Hfr') as (Hm & HM & Hpr). unfold turn, time_out. set (p := fill_to_minimum _ _ _) in *.
    destruct (pending_requests p) as [|pr rest] eqn:Hpend.
    + split; [|by rewrite <- Hmin, <- Hmax]. split; [done|]. destruct Hq as [Hnd Hq]. unfold queue_ok. cbn. by rewrite Hpend, Hpr.
    + assert (queue_ok (clients s) p) as Hqp by (destruct Hq as [Hnd Hq]; unfold queue_ok; by rewrite Hpend, Hpr).
      destruct (now - started pr >? claim_timeout p); (split; [|by rewrite <- Hmin, <- Hmax]); [|by split].
      destruct (queue_signal _ _ pr rest None Hqp Hpend) as [Hc Hq'']. split; [|exact Hq''].
      eapply pool_ok_perm; [|by apply pool_with_pending]. symmetry. by eapply held_same.
Qed.

Definition empty_pool (min max inactivity timeout : Z) : ConnectionPool := mk_pool min max inactivity timeout [] [] [] [].
Lemma held_out n : held (replicate n Out) = [].
Proof. by induction n. Qed.
Lemma good_start min max inactivity timeout created now n : 0 <= max -> fresh created (empty_pool min max inactivity timeout) ->
  good min max (start min max inactivity timeout created now n).
Proof.
  intros Hmax Hf. assert (pool_ok [] (empty_pool min max inactivity timeout)) as H0.
  { split_and!; cbn; [done|constructor|constructor| |unfold zlen; cbn; lia]. intros c. split; [by intros [? ?]|by intros ?%elem_of_nil]. }
  destruct (fill_ok [] created now _ H0 Hf) as [(Hm & HM & Hpr) Hok]. unfold good, start, new_ConnectionPool. fold (empty_pool min max inactivity timeout).
  split; [|done]. split; cbn [pool clients].
  - by rewrite held_out.
  - unfold queue_ok. rewrite Hpr. cbn. split; [constructor|]. intros j. split; [by intros ?%elem_of_nil|].
    intros Hj. apply lookup_replicate in Hj as [? _]. done.
Qed.
Lemma good_reachable min max s s' : good min max s -> rtc step s s' -> good min max s'.
Proof. intros Hg Hr. induction Hr; eauto using good_step. Qed.

(** ** Properties *)

Definition holding (s : system) (i : nat) (c : conn) : Prop := exists st, clients s !! i = Some st /\ holds st = Some c.
Lemma held_unique cl i j a b c : NoDup (held cl) -> cl !! i = Some a -> cl !! j = Some b -> holds a = Some c -> holds b = Some c -> i = j.
Proof.
  revert i j. induction cl as [|x cl IH]; intros i j Hnd Hi Hj Ha Hb; [done|].
  assert (forall k y, cl !! k = Some y -> holds y = Some c -> c ∈ held cl) as Hin by (intros k y ? ?; apply held_elem; eauto).
  unfold held in Hnd. cbn [omap list_omap] in Hnd.
  destruct i as [|i], j as [|j]; cbn in Hi, Hj; simplify_eq; [done| | |].
  - rewrite Ha in Hnd. apply NoDup_cons in Hnd as [Hc _]. exfalso. apply Hc. by eapply Hin.
  - rewrite Hb in Hnd. apply NoDup_cons in Hnd as [Hc _]. exfalso. apply Hc. by eapply Hin.
  - f_equal. apply IH; try done. destruct (holds x); [by apply NoDup_cons in Hnd as [_ ?]|done].
Qed.

(** C33: However the clients' claims and releases, their waits and the turns of the pool's thread interleave, and whatever connections fail and are deleted on the way, a connection is with one client at most (or on its way to one that is woken); it is one of the pool's, so that nobody has one that has been deleted, and it is not available; there are never more connections than the greater of the two limits, the number in use is the number that clients have, every connection has its time of last use, and the requests that wait are those of the clients that wait. *)
Theorem conn_pool_exclusive min max inactivity timeout created now n s :
  0 <= max -> fresh created (empty_pool min max inactivity timeout) ->
  rtc step (start min max inactivity timeout created now n) s ->
  (forall i j c, holding s i c -> holding s j c -> i = j) /\
  (forall i c, holding s i c -> c ∈ connections (pool s) /\ c ∉ available (pool s)) /\
  NoDup (connections (pool s)) /\ num_connections (pool s) <= Z.max min max /\
  num_in_use (pool s) = zlen (held (clients s)) /\
  (forall c, is_Some (find c (last_used (pool s))) <-> c ∈ connections (pool s)) /\
  (forall j, j ∈ map client (pending_requests (pool s)) <-> clients s !! j = Some Queued).
Proof.
  intros Hmax Hf Hr. destruct (good_reachable min max _ _ (good_start _ _ inactivity timeout _ now n Hmax Hf) Hr) as ([Hp [_ Hq]] & Hm & HM).
  destruct Hp as (Hperm & Hnd & Ho & Hk & Hle). pose proof Hnd as Hnd'. rewrite Hperm in Hnd'. apply NoDup_app in Hnd' as (_ & Hdis & Hh).
  assert (forall i c, holding s i c -> c ∈ held (clients s)) as Hin by (intros i c (st & ? & ?); apply held_elem; eauto).
  split_and!; [| |done| | |done|done].
  - intros i j c (a & Hi & Ha) (b & Hj & Hb). by eapply held_unique.
  - intros i c Hc. pose proof (Hin i c Hc) as Hc'. rewrite Hperm, elem_of_app. split; [by right|]. intros Hav. by apply (Hdis c).
  - unfold num_connections. by rewrite <- Hm, <- HM.
  - unfold num_in_use, zlen. rewrite Hperm, length_app. lia.
Qed.

(** ** Samples *)

Definition always (c : conn) : bool := true.
Definition sample : system := start 0 1 60 5 [] 0 2.
(** The first client has the only connection. *)
Definition claimed_one : system := mk_system (mk_pool 0 1 60 5 [7] [] [(7, 1)] []) [Has 7; Out].
Lemma fresh_one c p : c ∉ connections p -> fresh [Some (c, true)] p.
Proof. intros Hc. split; [apply NoDup_singleton|]. by intros d ->%list_elem_of_singleton. Qed.
Lemma fresh_none p : fresh [] p.
Proof. split; [constructor|]. by intros c ?%elem_of_nil. Qed.
Lemma claimed_one_reachable : rtc step sample claimed_one.
Proof.
  eapply rtc_l; [apply (step_claim 0 always (Some (7, true)) 1); [done|apply fresh_one, not_elem_of_nil]|]. apply rtc_refl.
Qed.
Lemma conn_pool_exclusive_witness : num_in_use (pool claimed_one) = 1 /\ 7 ∉ available (pool claimed_one).
Proof.
  destruct (conn_pool_exclusive 0 1 60 5 [] 0 2 claimed_one ltac:(lia) (fresh_none _) claimed_one_reachable) as (_ & Hin & _ & _ & Huse & _).
  split; [exact Huse|]. apply (Hin 0%nat 7). by exists (Has 7).
Defined.

(** A release between the two sections of a claim is missed: the connection is available, and the client waits for it. *)
Definition missed : system := mk_system (mk_pool 0 1 60 5 [7] [7] [(7, 1)] [mk_request 1 2]) [Out; Queued].
Lemma missed_reachable : rtc step claimed_one missed.
Proof.
  eapply rtc_l; [apply (step_claim 1 always None 2); [done|split; [constructor|by intros c ?%elem_of_nil]]|].
  eapply rtc_l; [by apply (step_release 0 7)|]. eapply rtc_l; [by apply (step_enqueue 1 2)|]. apply rtc_refl.
Qed.
(** Turns of the pool's thread do not help: in the end it gives up, and the claim fails, with the connection still there. *)
Lemma claim_misses_release : rtc step sample missed /\ fst (turn always [] 8 (pool missed)) = Some 1%nat /\
  available (snd (turn always [] 8 (pool missed))) = [7].
Proof. split; [|done]. etrans; [exact claimed_one_reachable|exact missed_reachable]. Qed.
(** A connection that is released twice, while two clients wait, goes to both. *)
Example released_twice : let p := mk_pool 0 1 60 5 [7] [] [(7, 1)] [mk_request 1 2; mk_request 2 2] in
  fst (release 7 p) = Some 1%nat /\ fst (release 7 (snd (release 7 p))) = Some 2%nat.
Proof. done. Qed.
(** Idle time is counted from the claim: a connection that has just been released is deleted. *)
Example idle_since_claim : let p := snd (release 7 (mk_pool 0 1 60 5 [7] [] [(7, 1)] [])) in connections (clean always 61 p) = [].
Proof. done. Qed.
End ConnPool.
