(* ===== verification/Jwt.v ===== *)
(** * JSON web tokens

    Models [src/libs/web/jwt.cc] and the bearer tokens of [http-message.cc], over
    the JSON values and their parser, [Base64URL], the fields of a text and the
    headers of a message.  The keyed hash is that of OpenSSL, the parameter
    [hmac] of a secret and a text; so are [stof] and [show_double], and the time. *)
From S2P Require Export JsonParser Http.

Module Jwt.
Import Strings.

Record JWT := mk_JWT { header_b64 : bytes; payload_b64 : bytes; signature_b64 : bytes; header : Value; payload : Value }.
Definition empty_JWT : JWT := mk_JWT [] [] [] UNDEFINED UNDEFINED.

Definition DOT : Z := 46.
(** [Base64URL::encode] *)
Definition encode (s : bytes) : bytes := Base64.encode Base64.Base64URL s 0 [].

Section tokens.
Context (stof : bytes -> Z) (show_double : Z -> bytes) (hmac : bytes -> bytes -> bytes).

(** The text of one part, if it is Base64, and its value: nothing is read after a failure.  Only what the JSON
    parser throws is caught. *)
Definition part (b64 : bytes) : option (exc Parser.Thrown Value) :=
  match Base64.decode Base64.Base64URL b64 [] with
  | (false, _) => None
  | (true, json) => Some (Parser.parse stof json)
  end.
(** The values of the parts: a failure leaves what has not been read as it was. *)
Definition of_parts (h p s : bytes) : exc Parser.Thrown JWT :=
  match part h with
  | None | Some (Throw (Parser.Json_exception _)) => Val (mk_JWT h p s UNDEFINED UNDEFINED)
  | Some (Throw e) => Throw e
  | Some (Val hv) =>
    match part p with
    | None | Some (Throw (Parser.Json_exception _)) => Val (mk_JWT h p s hv UNDEFINED)
    | Some (Throw e) => Throw e
    | Some (Val pv) => Val (mk_JWT h p s hv pv)
    end
  end.
(** [JWT(text)] *)
Definition of_text (text : bytes) : option (exc Parser.Thrown JWT) :=
  bits ← split text DOT true 0;
  Some match bits with [h; p; s] => of_parts h p s | _ => Val empty_JWT end.

Definition JWT_header : Value := set (str "alg") (STRING (str "HS256")) (set (str "typ") (STRING (str "JWT")) (OBJECT [])).
(** [JWT(payload)] *)
Definition new_JWT (payload : Value) : JWT :=
  mk_JWT (encode (to_str show_double false JWT_header)) (encode (to_str show_double false payload)) [] JWT_header payload.

Definition not_jwt (t : JWT) : bool := not_valid (header t) || not_valid (payload t) || (match signature_b64 t with [] => true | _ => false end).
Definition signed_text (t : JWT) : bytes := header_b64 t ++ [DOT] ++ payload_b64 t.
Definition verify (secret : bytes) (t : JWT) : bool :=
  bool_decide (as_str [] (get (str "typ") (header t)) = str "JWT") &&
  bool_decide (as_str [] (get (str "alg") (header t)) = str "HS256") &&
  bool_decide (signature_b64 t = encode (hmac secret (signed_text t))).
Definition sign (secret : bytes) (t : JWT) : JWT :=
  mk_JWT (header_b64 t) (payload_b64 t) (encode (hmac secret (signed_text t))) (header t) (payload t).
Definition to_text (t : JWT) : bytes := header_b64 t ++ [DOT] ++ payload_b64 t ++ [DOT] ++ signature_b64 t.

(** [get_expiry]: a time of the system, [None] where the token has none *)
Definition get_expiry (t : JWT) : option Z :=
  let expiry := as_int 0 (get (str "exp") (payload t)) in if expiry =? 0 then None else Some expiry.
Definition expired (now : Z) (t : JWT) : bool :=
  let expiry := as_int 0 (get (str "exp") (payload t)) in negb (expiry =? 0) && (now >? expiry).

(** [HTTPMessage::get_jwt_payload] *)
Definition get_jwt_payload (secret : bytes) (now : Z) (m : Http.HTTPMessage) : option (exc Parser.Thrown Value) :=
  match Mime.header (Http.headers m) (str "authorization") with
  | [] => Some (Val UNDEFINED)
  | auth =>
    bits ← split auth SP true 2;
    match bits with
    | [scheme; token] =>
      if bool_decide (tolower scheme = str "bearer") then
        r ← of_text token;
        Some match r with
             | Val jwt => Val (if negb (not_jwt jwt) && verify secret jwt && negb (expired now jwt) then payload jwt else UNDEFINED)
             | Throw e => Throw e
             end
      else Some (Val UNDEFINED)
    | _ => Some (Val UNDEFINED)
    end
  end.

(* ------------------------------------------------------------------ *)
(** ** Lemmas *)

Definition url_char (c : Z) : Prop := Base64.alnum c \/ c = chr "-" \/ c = chr "_".
Lemma url_index i : 0 <= i < 64 -> url_char (Base64.index_char Base64.Base64URL i).
Proof.
  intros Hi. assert (forallb (fun i => let c := Base64.index_char Base64.Base64URL i in
    ((65 <=? c) && (c <=? 90) || (97 <=? c) && (c <=? 122) || (48 <=? c) && (c <=? 57)) || (c =? 45) || (c =? 95)) (zseq 0 64) = true) as Hall by reflexivity.
  apply (range_forall _ 64 Hall) in Hi. unfold url_char, Base64.alnum. change (chr "-") with 45. change (chr "_") with 95.
  cbv zeta in Hi. lia.
Qed.
Lemma sextets_range l : bytes_ok l -> Forall (fun i => 0 <= i < 64) (Base64.sextets l).
Proof.
  induction l as [|x|x y|x y z l IH] using Base64.triples_ind; intros Hl;
    repeat match goal with H : Forall byte_ok (_ :: _) |- _ => inversion_clear H end; unfold byte_ok in *; cbn [Base64.sextets];
    repeat constructor; try (Z.div_mod_to_equations; lia). by apply IH.
Qed.
Lemma spec_url l chars : bytes_ok l -> Forall url_char (Base64.spec_text Base64.Base64URL 0 [] l chars).
Proof.
  assert (forall g, bytes_ok g -> Forall url_char (map (Base64.index_char Base64.Base64URL) (Base64.sextets g))) as Hg.
  { intros g Hg. apply Forall_map. eapply Forall_impl; [by apply sextets_range|]. intros i Hi. by apply url_index. }
  revert chars. induction l as [|x|x y|x y z l IH] using Base64.triples_ind; intros chars Hl; cbn [Base64.spec_text].
  - constructor.
  - unfold Base64.line_break. cbn [negb Z.eqb andb]. rewrite app_nil_r. by apply Hg.
  - unfold Base64.line_break. cbn [negb Z.eqb andb]. rewrite app_nil_r. by apply Hg.
  - unfold Base64.line_break. cbn [negb Z.eqb andb app]. change (x :: y :: z :: l) with ([x; y; z] ++ l) in Hl.
    apply Forall_app in Hl as [Hx Hl]. apply Forall_app. split; [by apply Hg|by apply IH].
Qed.
Lemma encode_url s : bytes_ok s -> Forall url_char (encode s).
Proof.
  intros Hs. unfold encode. rewrite Base64.encode_spec by done. cbn [Base64.pad Base64.Base64URL Z.eqb negb]. rewrite app_nil_r. by apply spec_url.
Qed.
Lemma url_ok : Base64.config_ok Base64.Base64URL.
Proof. unfold Base64.config_ok, Base64.alnum. cbv -[Z.le Z.lt not]. lia. Qed.
(** Texts that are not too long for their Base64 *)
Definition short (s : bytes) : Prop := bytes_ok s /\ zlen (encode s) < 2 ^ 62.
Lemma decode_url s : short s -> Base64.decode Base64.Base64URL (encode s) [] = (true, s).
Proof. intros [Hs Hl]. unfold encode in *. rewrite Base64.base64_roundtrip; [done|apply url_ok|constructor|done|done]. Qed.
Lemma encode_inj a b : short a -> short b -> encode a = encode b -> a = b.
Proof. intros Ha Hb He. pose proof (decode_url a Ha) as H1. rewrite He, (decode_url b Hb) in H1. by injection H1. Qed.

(** *** The three parts of a text *)

Lemma url_plain c : url_char c -> is_ws c = false /\ (DOT =? c) = false.
Proof. unfold url_char, Base64.alnum, is_ws, DOT, SP, TAB, CR, NL. change (chr "-") with 45. change (chr "_") with 95. lia. Qed.
Lemma canonical_plain s : Forall (fun c => is_ws c = false) s -> canonicalise_space s = s.
Proof.
  intros Hs. rewrite canonicalise_words. unfold words. pose proof (fields_app is_ws s [] Hs) as Hf. cbn [fields] in Hf.
  rewrite !app_nil_r in Hf. rewrite Hf. by destruct s.
Qed.
Definition dot_free (s : bytes) : Prop := Forall (fun c => (DOT =? c) = false) s.
Lemma split_three h p s : Forall url_char h -> Forall url_char p -> Forall url_char s ->
  split (h ++ [DOT] ++ p ++ [DOT] ++ s) DOT true 0 = Some [h; p; s].
Proof.
  intros Hh Hp Hs. assert (forall s, Forall url_char s -> dot_free s /\ canonicalise_space s = s) as Hu.
  { intros t Ht. split; [|apply canonical_plain]; eapply Forall_impl; try exact Ht; intros; by apply url_plain. }
  destruct (Hu h Hh) as [Hh1 Hh2], (Hu p Hp) as [Hp1 Hp2], (Hu s Hs) as [Hs1 Hs2].
  rewrite (proj1 (split_spec _ _ _ _ true)). unfold limit. cbn [Z.eqb orb].
  rewrite fields_app by done. cbn [app fields]. rewrite Z.eqb_refl, fields_app by done. cbn [app fields]. rewrite Z.eqb_refl.
  rewrite <- (app_nil_r s) at 1. rewrite fields_app by done. cbn [fields]. rewrite !app_nil_r. cbn [map canonical]. by rewrite Hh2, Hp2, Hs2.
Qed.
Lemma canonical_free s : dot_free s -> dot_free (canonicalise_space s).
Proof.
  intros Hs. rewrite canonicalise_words. assert (Forall dot_free (words s)) as Hw.
  { unfold words, nonempty. apply Forall_forall. intros w [_ Hw]%list_elem_of_filter. revert w Hw. refine (proj1 (Forall_forall _ _) _). induction Hs as [|c s Hc Hs IH]; [by repeat constructor|]. cbn [fields].
    destruct (is_ws c); [by repeat constructor|]. destruct (fields is_ws s) as [|f fs]; [by repeat constructor|].
    apply Forall_cons in IH as [Hf IH]. constructor; [by constructor|done]. }
  induction Hw as [|w ws Hw Hws IH]; [constructor|]. destruct ws as [|w' ws]; [done|]. rewrite join_cons. apply Forall_app. split; [done|]. by constructor.
Qed.
Lemma split_free text bits : split text DOT true 0 = Some bits -> Forall dot_free bits.
Proof.
  rewrite (proj1 (split_spec _ _ _ _ true)). intros [= <-]. unfold limit. cbn [Z.eqb orb]. apply Forall_map.
  eapply Forall_impl; [apply fields_free|]. intros s Hs. by apply canonical_free.
Qed.
Lemma dot_unique h p h' p' : dot_free h -> dot_free h' -> h ++ [DOT] ++ p = h' ++ [DOT] ++ p' -> h = h' /\ p = p'.
Proof.
  intros Hh. revert h'. induction Hh as [|c h Hc Hh IH]; intros h' Hh' He.
  - destruct Hh' as [|c' h' Hc' Hh']; cbn in He; [by simplify_eq|]. injection He as <- _. by rewrite Z.eqb_refl in Hc'.
  - destruct Hh' as [|c' h' Hc' Hh']; cbn in He; [injection He as -> _; by rewrite Z.eqb_refl in Hc|].
    injection He as <- He. by destruct (IH h' Hh' He) as [-> ->].
Qed.

(** *** Tokens *)

Lemma header_short : short (to_str show_double false JWT_header).
Proof. split; [|done]. apply Forall_forall. vm_compute. intros x Hx. repeat (apply elem_of_cons in Hx as [->|Hx]; [split; [done|done]|]). by apply elem_of_nil in Hx. Qed.
Lemma header_printable : Parser.printable JWT_header.
Proof.
  change JWT_header with (OBJECT [(str "alg", STRING (UTF8.encode (str "HS256"))); (str "typ", STRING (UTF8.encode (str "JWT")))]).
  constructor; [by repeat split|]. repeat constructor; done.
Qed.

Lemma of_parts_new pl s : Parser.printable pl -> short (to_str show_double false pl) ->
  of_parts (header_b64 (new_JWT pl)) (payload_b64 (new_JWT pl)) s = Val (mk_JWT (header_b64 (new_JWT pl)) (payload_b64 (new_JWT pl)) s JWT_header pl).
Proof.
  intros Hp Hs. assert (forall v, Parser.printable v -> short (to_str show_double false v) -> part (encode (to_str show_double false v)) = Some (Val v)) as Hpart.
  { intros v Hv Hsv. unfold part. rewrite decode_url by done. by rewrite Parser.parse_printed. }
  unfold of_parts. cbn [header_b64 payload_b64 new_JWT]. rewrite Hpart by auto using header_printable, header_short. by rewrite Hpart.
Qed.
(** The object of a text never comes from an exception that was not caught. *)
Lemma of_text_total text : exists t, of_text text = Some (Val t).
Proof.
  assert (forall b, match part b with Some (Throw (Parser.Lex_exception _)) => False | _ => True end) as Hpart.
  { intros b. unfold part. destruct (Base64.decode _ _ _) as [[|] j]; [|done]. pose proof (Parser.parser_total stof j) as Ht.
    destruct (Parser.parse stof j); [done|]. by destruct Ht as [? ->]. }
  unfold of_text. rewrite (proj1 (split_spec _ _ _ _ true)). cbn [mbind option_bind].
  destruct (map _ _) as [|h [|p [|s [|]]]]; eauto. unfold of_parts. pose proof (Hpart h) as Hh. pose proof (Hpart p) as Hp.
  destruct (part h) as [[hv|[|]]|]; eauto; [|done]. destruct (part p) as [[pv|[|]]|]; eauto. done.
Qed.
Lemma of_text_parts text t : of_text text = Some (Val t) -> t = empty_JWT \/
  (dot_free (header_b64 t) /\ of_parts (header_b64 t) (payload_b64 t) (signature_b64 t) = Val t).
Proof.
  unfold of_text. destruct (split text DOT true 0) as [bits|] eqn:Hb; [|done]. cbn [mbind option_bind]. apply split_free in Hb.
  destruct bits as [|h [|p [|s [|]]]]; try (intros [= <-]; by left). intros [= Ht]. right.
  assert (header_b64 t = h /\ payload_b64 t = p /\ signature_b64 t = s) as (-> & -> & ->).
  { unfold of_parts in Ht. by repeat case_match; simplify_eq. }
  by apply Forall_cons in Hb as [Hh _].
Qed.

Lemma sign_signature secret u : signature_b64 (sign secret u) = encode (hmac secret (signed_text (sign secret u))).
Proof. reflexivity. Qed.
Lemma verify_sign secret u : as_str [] (get (str "typ") (header u)) = str "JWT" -> as_str [] (get (str "alg") (header u)) = str "HS256" ->
  verify secret (sign secret u) = true.
Proof. intros H1 H2. unfold verify. rewrite (sign_signature secret u). by rewrite !bool_decide_true. Qed.

(** What makes a token good: its parts are its own, and its signature *)
Definition good_token (secret : bytes) (t : JWT) : Prop :=
  of_parts (header_b64 t) (payload_b64 t) (signature_b64 t) = Val t /\ signature_b64 t = encode (hmac secret (signed_text t)) /\
  Forall url_char (header_b64 t) /\ Forall url_char (payload_b64 t).
Lemma good_sign secret u : of_parts (header_b64 u) (payload_b64 u) (encode (hmac secret (signed_text u))) = Val (sign secret u) ->
  Forall url_char (header_b64 u) -> Forall url_char (payload_b64 u) -> good_token secret (sign secret u).
Proof. intros H1 H2 H3. by split_and!. Qed.
Lemma good_new secret pl : Parser.printable pl -> short (to_str show_double false pl) -> good_token secret (sign secret (new_JWT pl)).
Proof.
  intros Hp Hs. apply good_sign; [by rewrite (of_parts_new pl) by done| |]; apply encode_url; [apply header_short|apply Hs].
Qed.
Lemma good_read secret t : (forall d, short (hmac secret d)) -> good_token secret t -> of_text (to_text t) = Some (Val t).
Proof.
  intros Hh (Hparts & Hst & H1 & H2). unfold of_text, to_text. rewrite split_three; [|done|done|rewrite Hst; apply encode_url, Hh].
  cbn [mbind option_bind]. by rewrite Hparts.
Qed.
Lemma verify_spec secret t : verify secret t = true <->
  as_str [] (get (str "typ") (header t)) = str "JWT" /\ as_str [] (get (str "alg") (header t)) = str "HS256" /\
  signature_b64 t = encode (hmac secret (signed_text t)).
Proof. unfold verify. rewrite !andb_true_iff, !bool_decide_eq_true. tauto. Qed.
Lemma good_binds secret t t' text : (forall d, short (hmac secret d)) -> good_token secret t -> of_text text = Some (Val t') ->
  verify secret t' = true -> signature_b64 t' = signature_b64 t ->
  t' = t \/ (signed_text t' <> signed_text t /\ hmac secret (signed_text t') = hmac secret (signed_text t)).
Proof.
  intros Hh (Hparts & Hst & Hhd & _) Ht' (Htyp & _ & Hsig')%verify_spec Hb64.
  destruct (of_text_parts _ _ Ht') as [->|[Hfree Hparts']]; [done|].
  pose proof Hb64 as Hsig. rewrite Hsig', Hst in Hsig. apply encode_inj in Hsig; [|done|done].
  destruct (decide (signed_text t' = signed_text t)) as [Heq|Hne]; [left|by right].
  unfold signed_text in Heq. apply dot_unique in Heq as [H1 H2]; [|done|].
  - rewrite H1, H2, Hb64, Hparts in Hparts'. by injection Hparts'.
  - eapply Forall_impl; [exact Hhd|]. intros c Hc. by apply url_plain.
Qed.

(** C36: A token that is made of a payload and signed goes through its text: it is read back as it was, and verified with its secret; this for a payload that the parser reads back ([Parser.printable]: without floating-point numbers, binary or undefined values, and without names that have a NUL, a quote or a backslash), whose text, as the signature, is of bytes and short enough for its Base64 to be counted ([short]).  Every text gives a token without an exception, and one that is verified is of the one type and algorithm and has the signature of its own header and payload; a text that is verified with the signature of such a token is the token itself, header and payload included, unless it is a collision of the keyed hash. *)
Theorem jwt_signed secret pl text :
  Parser.printable pl -> short (to_str show_double false pl) -> (forall d, short (hmac secret d)) ->
  let t := sign secret (new_JWT pl) in
  of_text (to_text t) = Some (Val t) /\ verify secret t = true /\
  exists t', of_text text = Some (Val t') /\
    (verify secret t' = true ->
       as_str [] (get (str "typ") (header t')) = str "JWT" /\ as_str [] (get (str "alg") (header t')) = str "HS256" /\
       signature_b64 t' = encode (hmac secret (signed_text t'))) /\
    (verify secret t' = true -> signature_b64 t' = signature_b64 t ->
       t' = t \/ (signed_text t' <> signed_text t /\ hmac secret (signed_text t') = hmac secret (signed_text t))).
Proof.
  intros Hp Hs Hh t. pose proof (good_new secret pl Hp Hs) as Hgood. split_and!.
  - by apply (good_read secret).
  - by apply verify_sign.
  - destruct (of_text_total text) as [t' Ht']. exists t'. split_and!; [done|apply verify_spec|].
    by apply (good_binds secret _ _ text).
Qed.
End tokens.

(** ** Samples *)

Definition sample_stof (s : bytes) : Z := 0.
Definition sample_show (d : Z) : bytes := [].
(** A weak hash: the length of the text *)
Definition sample_hmac (secret text : bytes) : bytes := hton 4 (zlen text).
Definition sample_payload : Value := OBJECT [(str "exp", INTEGER 2000000000)].
Definition sample_token : JWT := sign sample_hmac (str "key") (new_JWT sample_show sample_payload).
Lemma sample_short secret text : short (sample_hmac secret text).
Proof.
  assert (forall l, bytes_ok l -> length l = 4%nat -> short l) as H.
  { intros l Hl Hlen. split; [done|]. unfold encode. rewrite Base64.encode_spec by done. destruct l as [|a [|b [|c [|d [|]]]]]; try done. }
  apply H; [apply hton_bytes|apply hton_length].
Qed.
Lemma jwt_signed_witness : verify sample_hmac (str "key") sample_token = true /\
  of_text sample_stof (to_text sample_token) = Some (Val sample_token).
Proof.
  destruct (jwt_signed sample_stof sample_show sample_hmac (str "key") sample_payload []) as (H1 & H2 & _).
  - constructor; [by repeat split|]. repeat constructor; vm_decide.
  - split; [repeat constructor; vm_decide|vm_compute; done].
  - intros d. apply sample_short.
  - by split.
Defined.

(** A bearer's payload; none when the time is over *)
Definition request (token : bytes) : Http.HTTPMessage :=
  Http.mk_message (str "GET") (str "/") 0 [] (str "HTTP/1.1") (Mime.put Mime.new_headers (str "authorization") (str "Bearer " ++ token)) [].
Example bearer :
  get_jwt_payload sample_stof sample_hmac (str "key") 1999999999 (request (to_text sample_token)) = Some (Val sample_payload) /\
  get_jwt_payload sample_stof sample_hmac (str "key") 2000000001 (request (to_text sample_token)) = Some (Val UNDEFINED) /\
  get_jwt_payload sample_stof sample_hmac (str "other") 1999999999 (request (str "a.b.c")) = Some (Val UNDEFINED).
Proof. split_and!; vm_compute; reflexivity. Qed.
(** An expiry that is not a whole number is none. *)
Example never_expires : expired 2000000001 (mk_JWT [] [] [] UNDEFINED (OBJECT [(str "exp", NUMBER 4743556290909634560)])) = false.
Proof. reflexivity. Qed.
(** What is not Base64 is skipped, not refused. *)
Example not_base64 : part sample_stof (str "!e%3 0") = part sample_stof (str "e30") /\ part sample_stof (str "e30") = Some (Val (OBJECT [])).
Proof. split; vm_compute; reflexivity. Qed.
End Jwt.
