(* ===== verification/Socket.v ===== *)
(** * Stream sockets

    Models the reading and writing of [TCPSocket] ([src/libs/net/socket.cc],
    POSIX): whole buffers, strings, gathers and integers over the system calls, which are
    a parameter ([OsSocket]) with what the code relies on of them
    ([OsSocketLaws]).  Opening, options and addresses of sockets are calls of the
    system and are not here. *)
From S2P Require Export Chan.

Module Socket.

(** A socket and its connection, of state [W]: a call fails, with [errno] set, or says what was received, or how much
    was sent.  [patience] bounds how often more a call can be interrupted by a signal before it gets through. *)
Class OsSocket (W : Type) := {
  os_read : Z -> W -> option bytes * W;
  os_send : bytes -> W -> option Z * W;
  os_sendmsg : list bytes -> W -> option Z * W;
  errno : W -> Z;
  fd_open : W -> bool;
  patience : W -> nat
}.
Definition EINTR : Z := 4.
(** [SocketError(errno)]; without a number it is an end of file. *)
Inductive SocketError := Socket_error (error : Z).

Section ops.
Context {W : Type} `{!OsSocket W}.

(** Loop on [EINTR] *)
Fixpoint retry {A} (fuel : nat) (call : W -> option A * W) (s : W) : option A * W :=
  match call s with
  | (None, s') =>
    match fuel with
    | O => (None, s')
    | S fuel => if fd_open s' && (errno s' =? EINTR) then retry fuel call s' else (None, s')
    end
  | r => r
  end.
Definition cread (count : Z) (s : W) : option bytes * W :=
  if fd_open s then retry (patience s) (os_read count) s else (None, s).
Definition cwrite (buf : bytes) (s : W) : option Z * W :=
  if fd_open s then retry (patience s) (os_send buf) s else (None, s).

#[local] Abbreviation SM := (M W SocketError).
Definition socket_error {A} : SM A := fun s => (Throw (Socket_error (errno s)), s).
(** [read(buf, count)] *)
Definition read (count : Z) : SM bytes := fun s =>
  match cread count s with (Some d, s') => (Val d, s') | (None, s') => socket_error s' end.
(** [write(buf, count)]: a short write is an error. *)
Definition write (buf : bytes) : SM unit := fun s =>
  match cwrite buf s with
  | (Some n, s') => if n =? zlen buf then (Val tt, s') else socket_error s'
  | (None, s') => socket_error s'
  end.

Definition SOCKET_BUFFER_SIZE : Z := 1024.
(** [read(string&)]: the string, and whether the socket has not closed *)
Definition read_some (s : bytes) : SM (bool * bytes) :=
  let! d := read SOCKET_BUFFER_SIZE in ret (match d with [] => (false, s) | _ => (true, s ++ d) end).
(** [read(string&, count)]: what is missing is read in pieces of a buffer's size at most; every turn reads something. *)
Fixpoint read_string_loop (fuel : nat) (done count : Z) (s : bytes) : SM (bool * bytes) :=
  if done <? count then
    match fuel with
    | O => ret (false, s)
    | S fuel =>
      let! d := read (if count - done <? SOCKET_BUFFER_SIZE then count - done else SOCKET_BUFFER_SIZE) in
      match d with [] => ret (false, s) | _ => read_string_loop fuel (done + zlen d) count (s ++ d) end
    end
  else ret (true, s).
Definition read_string (s : bytes) (count : Z) : SM (bool * bytes) := read_string_loop (Z.to_nat count) 0 count s.
(** [read_exact]: [None] where the stream ends before *)
Fixpoint read_exact_loop (fuel : nat) (count : Z) (buf : bytes) : SM (option bytes) :=
  if zlen buf <? count then
    match fuel with
    | O => ret None
    | S fuel =>
      let! d := read (count - zlen buf) in
      match d with [] => ret None | _ => read_exact_loop fuel count (buf ++ d) end
    end
  else ret (Some buf).
Definition read_exact (count : Z) : SM (option bytes) := read_exact_loop (Z.to_nat count) count [].
(** [readall], for a stream that ends within [fuel] reads *)
Fixpoint readall (fuel : nat) (s : bytes) : SM (option bytes) :=
  match fuel with
  | O => ret None
  | S fuel => let! r := read_some s in if fst r then readall fuel (snd r) else ret (Some (snd r))
  end.

(** [read_nbo_int(n)] *)
Definition try_read_nbo_int : SM (option Z) := let! b := read_exact 4 in ret (nbo <$> b).
Definition read_nbo_int : SM Z :=
  let! b := read_exact 4 in match b with Some b => ret (nbo b) | None => throw (Socket_error 0) end.
Definition write_nbo_int (i : Z) : SM unit := write (hton 4 (u32 i)).
Definition write_string (s : bytes) : SM unit := write s.

(** The amount in [int]s *)
Definition amount (gathers : list bytes) : Z := fold_left (fun wanted v => i32 (wanted + zlen v)) gathers 0.
Fixpoint adjust (sent : Z) (gathers : list bytes) : list bytes :=
  match gathers with
  | [] => []
  | v :: gathers' =>
    if sent =? 0 then gathers else
    let used := if sent <? i32 (zlen v) then sent else i32 (zlen v) in zdrop used v :: adjust (sent - used) gathers'
  end.
(** [csendmsg]: what was sent the last time; every turn is interrupted or sends something. *)
Fixpoint csendmsg_loop (fuel : nat) (gathers : list bytes) (s : W) : option Z * W :=
  match fuel with
  | O => (None, s)
  | S fuel =>
    match os_sendmsg gathers s with
    | (Some sent, s') => if sent =? amount gathers then (Some sent, s')
                         else csendmsg_loop fuel (if sent >? 0 then adjust sent gathers else gathers) s'
    | (None, s') => if errno s' =? EINTR then csendmsg_loop fuel gathers s' else (None, s')
    end
  end.
Definition csendmsg (gathers : list bytes) (s : W) : option Z * W :=
  csendmsg_loop (S (patience s + length (concat gathers))) gathers s.
Definition sendmsg (gathers : list bytes) : SM Z := fun s =>
  match csendmsg gathers s with (Some n, s') => (Val n, s') | (None, s') => socket_error s' end.
End ops.

(** What the code relies on: bytes on their way are delivered in order, none only at the end; what a call says it has
    sent is sent; a failed call has done nothing, and no call is interrupted for ever.  A connection that [holds] gives no error but interruptions. *)
Class OsSocketLaws (W : Type) `{!OsSocket W} := {
  holds : W -> Prop;
  coming : W -> bytes;
  sent : W -> bytes;
  holds_open s : holds s -> fd_open s = true;
  read_law n s r s' : os_read n s = (r, s') -> 0 <= n -> sent s' = sent s /\ (holds s -> holds s') /\ (patience s' <= patience s)%nat /\
    match r with
    | Some d => coming s = d ++ coming s' /\ zlen d <= n /\ (0 < n -> d = [] -> coming s = [])
    | None => coming s' = coming s /\ (errno s' = EINTR -> (patience s' < patience s)%nat) /\ (holds s -> errno s' = EINTR)
    end;
  send_law d s r s' : os_send d s = (r, s') -> coming s' = coming s /\ (holds s -> holds s') /\ (patience s' <= patience s)%nat /\
    match r with
    | Some n => 0 <= n <= zlen d /\ sent s' = sent s ++ ztake n d /\ (holds s -> n = zlen d)
    | None => sent s' = sent s /\ (errno s' = EINTR -> (patience s' < patience s)%nat) /\ (holds s -> errno s' = EINTR)
    end;
  sendmsg_law gs s r s' : os_sendmsg gs s = (r, s') -> coming s' = coming s /\ (holds s -> holds s') /\ (patience s' <= patience s)%nat /\
    match r with
    | Some n => 0 <= n <= zlen (concat gs) /\ sent s' = sent s ++ ztake n (concat gs) /\ (concat gs <> [] -> 0 < n)
    | None => sent s' = sent s /\ (errno s' = EINTR -> (patience s' < patience s)%nat) /\ (holds s -> errno s' = EINTR)
    end
}.

Section laws.
Context {W : Type} `{OsSocketLaws W}.

(** Interruptions do not show. *)
Lemma retry_read_law n fuel : forall s r s', (patience s <= fuel)%nat -> fd_open s = true -> 0 <= n -> retry fuel (os_read n) s = (r, s') ->
  sent s' = sent s /\ (holds s -> holds s') /\ (patience s' <= patience s)%nat /\
  match r with
  | Some d => coming s = d ++ coming s' /\ zlen d <= n /\ (0 < n -> d = [] -> coming s = [])
  | None => coming s' = coming s /\ ~ holds s
  end.
Proof.
  induction fuel as [|fuel IH]; intros s r s' Hf Ho Hn Hr; cbn [retry] in Hr; destruct (os_read n s) as [[d|] s1] eqn:Hc;
    destruct (read_law _ _ _ _ Hc Hn) as (H1 & H2 & H3 & H4); simplify_eq; try (by destruct H4 as (? & ? & ?); split_and!).
  - split_and!; try done; [by apply H4|]. intros Hh. destruct H4 as (_ & H5 & H6). specialize (H5 (H6 Hh)). lia.
  - destruct H4 as (H4 & H5 & H6). destruct (fd_open s1) eqn:Ho1; cbn [andb] in Hr.
    2: { simplify_eq. split_and!; try done. intros Hh. by rewrite (holds_open s' (H2 Hh)) in Ho1. }
    destruct (errno s1 =? EINTR) eqn:He; [|simplify_eq; split_and!; try done; intros Hh; specialize (H6 Hh); lia].
    destruct (IH s1 r s') as (I1 & I2 & I3 & I4); [specialize (H5 ltac:(lia)); lia|done..|].
    rewrite H4, H1 in *. split_and!; [done|tauto|lia|]. destruct r; [done|]. split; [apply I4|]. intros Hh. apply I4. by apply H2.
Qed.
Lemma retry_send_law d fuel : forall s r s', (patience s <= fuel)%nat -> fd_open s = true -> retry fuel (os_send d) s = (r, s') ->
  coming s' = coming s /\ (holds s -> holds s') /\ (patience s' <= patience s)%nat /\
  match r with
  | Some n => 0 <= n <= zlen d /\ sent s' = sent s ++ ztake n d /\ (holds s -> n = zlen d)
  | None => sent s' = sent s /\ ~ holds s
  end.
Proof.
  induction fuel as [|fuel IH]; intros s r s' Hf Ho Hr; cbn [retry] in Hr; destruct (os_send d s) as [[n|] s1] eqn:Hc;
    destruct (send_law _ _ _ _ Hc) as (H1 & H2 & H3 & H4); simplify_eq; try (by destruct H4 as ([? ?] & ? & ?); split_and!).
  - split_and!; try done; [by apply H4|]. intros Hh. destruct H4 as (_ & H5 & H6). specialize (H5 (H6 Hh)). lia.
  - destruct H4 as (H4 & H5 & H6). destruct (fd_open s1) eqn:Ho1; cbn [andb] in Hr.
    2: { simplify_eq. split_and!; try done. intros Hh. by rewrite (holds_open s' (H2 Hh)) in Ho1. }
    destruct (errno s1 =? EINTR) eqn:He; [|simplify_eq; split_and!; try done; intros Hh; specialize (H6 Hh); lia].
    destruct (IH s1 r s') as (I1 & I2 & I3 & I4); [specialize (H5 ltac:(lia)); lia|done..|].
    rewrite H4, H1 in *. split_and!; [done|tauto|lia|]. destruct r.
    + destruct I4 as (I4 & I5 & I6). split; [done|]. split; [done|]. intros Hh. apply I6. by apply H2.
    + split; [apply I4|]. intros Hh. apply I4. by apply H2.
Qed.

(** *** Exact amounts *)

(** What reading an exact amount has come to: all of it ([Some (Some b)]), the end of the stream ([Some None]) or an error *)
Definition took (n : Z) (s : W) (o : option (option bytes)) (s' : W) : Prop :=
  sent s' = sent s /\ (holds s -> holds s') /\
  match o with
  | Some (Some b) => coming s = b ++ coming s' /\ zlen b = n
  | Some None => zlen (coming s) < n /\ coming s' = []
  | None => ~ holds s /\ exists b, coming s = b ++ coming s' /\ zlen b < n
  end.
Lemma took_more n m d s s1 o s' : coming s = d ++ coming s1 -> zlen d = m -> sent s1 = sent s -> (holds s -> holds s1) ->
  took n s1 o s' -> took (m + n) s (option_map (option_map (app d)) o) s'.
Proof.
  intros Hc Hd Hs Hh (T1 & T2 & T3). split; [congruence|]. split; [tauto|]. destruct o as [[b|]|]; cbn [option_map].
  - destruct T3 as [T3 T4]. rewrite Hc, T3, app_assoc, zlen_app. split; [done|lia].
  - destruct T3 as [T3 T4]. rewrite Hc, zlen_app. split; [lia|done].
  - destruct T3 as (T3 & b & T4 & T5). split; [tauto|]. exists (d ++ b). rewrite Hc, T4, app_assoc, zlen_app. split; [done|lia].
Qed.

(** One [read] of some of what is missing *)
Lemma read_some_law k s : 0 < k ->
  match read k s with
  | (Val d, s') => sent s' = sent s /\ (holds s -> holds s') /\ coming s = d ++ coming s' /\ zlen d <= k /\ (d = [] -> coming s' = [])
  | (Throw _, s') => sent s' = sent s /\ coming s' = coming s /\ (holds s -> holds s') /\ ~ holds s
  end.
Proof.
  intros Hk. unfold read, cread, socket_error. destruct (fd_open s) eqn:Ho.
  - destruct (retry _ _ s) as [[d|] s'] eqn:Hr; destruct (retry_read_law k _ _ _ _ (Nat.le_refl _) Ho (Z.lt_le_incl _ _ Hk) Hr) as (H1 & H2 & H3 & H4).
    + destruct H4 as (H4 & H5 & H6). split_and!; try done. intros ->. rewrite (H6 Hk eq_refl) in H4. by destruct (coming s').
    + destruct H4. by split_and!.
  - split_and!; try done. intros Hh. by rewrite (holds_open s Hh) in Ho.
Qed.

Definition exact_of {A} (r : exc SocketError (option A)) : option (option A) := match r with Val o => Some o | Throw _ => None end.
Definition string_of (s0 : bytes) (r : exc SocketError (bool * bytes)) (o : option (option bytes)) : Prop :=
  match o, r with
  | Some (Some b), Val (true, s) => s = s0 ++ b
  | Some None, Val (false, _) => True
  | None, Throw _ => True
  | _, _ => False
  end.

Lemma read_exact_loop_law count fuel : forall buf s, (Z.to_nat (count - zlen buf) <= fuel)%nat -> zlen buf <= count ->
  exists o, exact_of (fst (read_exact_loop fuel count buf s)) = option_map (option_map (app buf)) o /\
    took (count - zlen buf) s o (snd (read_exact_loop fuel count buf s)).
Proof.
  induction fuel as [|fuel IH]; intros buf s Hf Hb; cbn [read_exact_loop]; destruct (zlen buf <? count) eqn:Hlt; try lia.
  - exists (Some (Some [])). cbn. rewrite app_nil_r. split; [done|]. split_and!; try done. rewrite ?zlen_nil; lia.
  - unfold bind. pose proof (read_some_law (count - zlen buf) s ltac:(lia)) as Hr. destruct (read _ s) as [[d|e] s1].
    2: { destruct Hr as (R1 & R2 & R3 & R4). exists None. split; [done|]. split_and!; try done. exists []. split; [done|]. rewrite ?zlen_nil; lia. }
    destruct Hr as (R1 & R2 & R3 & R4 & R5). destruct d as [|c d].
    + exists (Some None). specialize (R5 eq_refl). split; [done|]. split_and!; try done. rewrite R3, R5. cbn [app]. rewrite ?zlen_nil; lia.
    + assert (1 <= zlen (c :: d)) by (rewrite zlen_cons; pose proof (zlen_nonneg d); lia).
      destruct (IH (buf ++ c :: d) s1) as (o & I1 & I2); [rewrite zlen_app; lia..|].
      exists (option_map (option_map (app (c :: d))) o). split.
      * rewrite I1. destruct o as [[b|]|]; cbn; [by rewrite <- app_assoc|done..].
      * replace (count - zlen buf) with (zlen (c :: d) + (count - zlen (buf ++ c :: d))) by (rewrite zlen_app; lia).
        by eapply took_more.
  - exists (Some (Some [])). cbn. rewrite app_nil_r. split; [done|]. split_and!; try done. rewrite ?zlen_nil; lia.
Qed.
Lemma read_exact_law count s : 0 <= count ->
  took count s (exact_of (fst (read_exact count s))) (snd (read_exact count s)).
Proof.
  intros Hc. destruct (read_exact_loop_law count (Z.to_nat count) [] s) as (o & H1 & H2); [rewrite zlen_nil; lia..|].
  unfold read_exact. rewrite H1. rewrite zlen_nil, Z.sub_0_r in H2. by destruct o as [[]|].
Qed.
Lemma read_string_loop_law count fuel : forall done str s, (Z.to_nat (count - done) <= fuel)%nat -> 0 <= done <= count ->
  exists o, string_of str (fst (read_string_loop fuel done count str s)) o /\
    took (count - done) s o (snd (read_string_loop fuel done count str s)).
Proof.
  induction fuel as [|fuel IH]; intros dn str s Hf Hb; cbn [read_string_loop]; destruct (dn <? count) eqn:Hlt; try lia.
  - exists (Some (Some [])). cbn. rewrite app_nil_r. split; [done|]. split_and!; try done. rewrite ?zlen_nil; lia.
  - unfold bind. set (k := if count - dn <? SOCKET_BUFFER_SIZE then count - dn else SOCKET_BUFFER_SIZE).
    assert (0 < k <= count - dn) as Hk by (unfold k, SOCKET_BUFFER_SIZE; case_match; lia).
    pose proof (read_some_law k s ltac:(lia)) as Hr. destruct (read k s) as [[d|e] s1].
    2: { destruct Hr as (R1 & R2 & R3 & R4). exists None. split; [done|]. split_and!; try done. exists []. split; [done|]. rewrite ?zlen_nil; lia. }
    destruct Hr as (R1 & R2 & R3 & R4 & R5). destruct d as [|c d].
    + exists (Some None). specialize (R5 eq_refl). split; [done|]. split_and!; try done. rewrite R3, R5. cbn [app]. rewrite ?zlen_nil; lia.
    + assert (1 <= zlen (c :: d)) by (rewrite zlen_cons; pose proof (zlen_nonneg d); lia).
      destruct (IH (dn + zlen (c :: d)) (str ++ c :: d) s1) as (o & I1 & I2); [lia..|].
      exists (option_map (option_map (app (c :: d))) o). split.
      * revert I1. destruct o as [[b|]|]; cbn; [|done..]. destruct (fst _) as [[[] x]|]; [|done..]. by intros ->; rewrite <- app_assoc.
      * replace (count - dn) with (zlen (c :: d) + (count - (dn + zlen (c :: d)))) by lia. by eapply took_more.
  - exists (Some (Some [])). cbn. rewrite app_nil_r. split; [done|]. split_and!; try done. rewrite ?zlen_nil; lia.
Qed.
(** [read(string&, count)] reads what [read_exact] does, and appends it. *)
Lemma read_string_law str count s : 0 <= count ->
  exists o, string_of str (fst (read_string str count s)) o /\ took count s o (snd (read_string str count s)).
Proof.
  intros Hc. destruct (read_string_loop_law count (Z.to_nat count) 0 str s) as (o & H1 & H2); [lia..|].
  exists o. rewrite Z.sub_0_r in H2. by split.
Qed.

(** What is sent is what is written, or the beginning of it and an error. *)
Lemma write_law d s :
  match write d s with
  | (Val _, s') => sent s' = sent s ++ d /\ coming s' = coming s /\ (holds s -> holds s')
  | (Throw _, s') => ~ holds s /\ coming s' = coming s /\ exists n, 0 <= n <= zlen d /\ sent s' = sent s ++ ztake n d
  end.
Proof.
  unfold write, cwrite, socket_error. destruct (fd_open s) eqn:Ho.
  - destruct (retry _ _ s) as [[n|] s'] eqn:Hr; destruct (retry_send_law d _ _ _ _ (Nat.le_refl _) Ho Hr) as (H1 & H2 & H3 & H4).
    + destruct H4 as (H4 & H5 & H6). destruct (n =? zlen d) eqn:Hn.
      * split_and!; try done. rewrite H5. f_equal. apply ztake_ge. lia.
      * split; [intros Hh; specialize (H6 Hh); lia|]. split; [done|]. by exists n.
    + destruct H4 as [H4 H5]. split; [done|]. split; [done|]. exists 0. rewrite ztake_0, app_nil_r. split; [pose proof (zlen_nonneg d); lia|done].
  - split; [intros Hh; by rewrite (holds_open s Hh) in Ho|]. split; [done|]. exists 0. rewrite ztake_0, app_nil_r. split; [pose proof (zlen_nonneg d); lia|done].
Qed.

(** *** Gathers *)

Definition INT_MAX : Z := 2 ^ 31 - 1.
Lemma i32_small x : 0 <= x <= INT_MAX -> i32 x = x.
Proof. intros Hx. unfold swrap, INT_MAX in *. change (32 - 1) with 31. rewrite Z.mod_small by lia. lia. Qed.
Lemma amount_concat gs : zlen (concat gs) <= INT_MAX -> amount gs = zlen (concat gs).
Proof.
  unfold amount. assert (forall a, 0 <= a -> a + zlen (concat gs) <= INT_MAX ->
    fold_left (fun wanted v => i32 (wanted + zlen v)) gs a = a + zlen (concat gs)) as Hg.
  { induction gs as [|v gs IH]; intros a Ha Hs; cbn [fold_left concat] in *; [rewrite zlen_nil; lia|].
    rewrite zlen_app in *. pose proof (zlen_nonneg v). pose proof (zlen_nonneg (concat gs)). rewrite i32_small by lia. rewrite IH by lia. lia. }
  intros Hs. rewrite Hg by lia. lia.
Qed.
Lemma adjust_concat n : forall gs, 0 <= n <= zlen (concat gs) -> zlen (concat gs) <= INT_MAX -> concat (adjust n gs) = zdrop n (concat gs).
Proof.
  intros gs. revert n. induction gs as [|v gs IH]; intros n Hn Hs; cbn [adjust concat] in *; [unfold zdrop; by rewrite drop_nil|].
  rewrite zlen_app in *. pose proof (zlen_nonneg v). pose proof (zlen_nonneg (concat gs)). destruct (n =? 0) eqn:Hn0.
  - by replace n with 0 by lia.
  - cbn [concat]. rewrite i32_small by lia. destruct (n <? zlen v) eqn:Hlt; rewrite IH by lia.
    + rewrite Z.sub_diag, zdrop_0. by rewrite zdrop_app_le by lia.
    + rewrite zdrop_ge by lia. by rewrite zdrop_app_ge by lia.
Qed.
(** A gather is sent whole, whatever the parts it is sent in. *)
Lemma csendmsg_loop_law fuel : forall gs s, (patience s + length (concat gs) < fuel)%nat -> zlen (concat gs) <= INT_MAX ->
  match csendmsg_loop fuel gs s with
  | (Some _, s') => sent s' = sent s ++ concat gs /\ coming s' = coming s /\ (holds s -> holds s')
  | (None, s') => ~ holds s /\ coming s' = coming s /\ exists n, 0 <= n <= zlen (concat gs) /\ sent s' = sent s ++ ztake n (concat gs)
  end.
Proof.
  induction fuel as [|fuel IH]; intros gs s Hf Hs; [lia|]. cbn [csendmsg_loop].
  destruct (os_sendmsg gs s) as [[n|] s1] eqn:Hc; destruct (sendmsg_law _ _ _ _ Hc) as (H1 & H2 & H3 & H4).
  - destruct H4 as (H4 & H5 & H6). rewrite amount_concat by done. destruct (n =? zlen (concat gs)) eqn:Hn.
    { split_and!; try done. rewrite H5. f_equal. apply ztake_ge. lia. }
    assert (0 < n) as Hpos. { apply H6. intros He. rewrite He, zlen_nil in *. lia. }
    replace (n >? 0) with true by lia. pose proof (adjust_concat n gs H4 Hs) as Ha.
    assert (zlen (concat (adjust n gs)) = zlen (concat gs) - n) as Hl by (rewrite Ha, zlen_zdrop; lia).
    specialize (IH (adjust n gs) s1 ltac:(unfold zlen in *; lia) ltac:(lia)). rewrite Ha, H1, H5 in IH.
    destruct (csendmsg_loop _ _ _) as [[m|] s'].
    + destruct IH as (I1 & I2 & I3). rewrite I1, <- app_assoc, ztake_zdrop. split_and!; [done|done|tauto].
    + destruct IH as (I1 & I2 & k & I3 & I4). split; [tauto|]. split; [done|]. exists (n + k).
      rewrite zlen_zdrop in I3 by lia. split; [lia|]. rewrite I4, <- app_assoc, ztake_add by lia. done.
  - destruct H4 as (H4 & H5 & H6). destruct (errno s1 =? EINTR) eqn:He.
    + specialize (IH gs s1 ltac:(specialize (H5 ltac:(lia)); lia) Hs). rewrite H1, H4 in IH.
      destruct (csendmsg_loop _ _ _) as [[m|] s']; destruct IH as (I1 & I2 & I3); split_and!; tauto.
    + split; [intros Hh; specialize (H6 Hh); lia|]. split; [done|]. exists 0. rewrite ztake_0, app_nil_r. split; [pose proof (zlen_nonneg (concat gs)); lia|done].
Qed.
End laws.

(** ** A sample connection: the pieces in which data come, interruptions among them, and how much is taken at once *)
Record pipe := mk_pipe { pieces : list (option (Z * bytes)); output : bytes; takes : Z }.
Definition first_piece (n : Z) (p : pipe) : option bytes * pipe :=
  match pieces p with
  | [] => (Some [], p)
  | None :: ps => (None, mk_pipe ps (output p) (takes p))
  | Some (c, d) :: ps =>
    (Some (ztake n (c :: d)), mk_pipe (match zdrop n (c :: d) with [] => ps | c' :: d' => Some (c', d') :: ps end) (output p) (takes p))
  end.
Definition to_send (d : bytes) (p : pipe) : option Z * pipe := (Some (zlen d), mk_pipe (pieces p) (output p ++ d) (takes p)).
Definition gather (gs : list bytes) (p : pipe) : option Z * pipe :=
  let n := zlen (concat gs) `min` (1 `max` takes p) in (Some n, mk_pipe (pieces p) (output p ++ ztake n (concat gs)) (takes p)).
#[export] Instance pipe_socket : OsSocket pipe := {
  os_read := first_piece; os_send := to_send; os_sendmsg := gather;
  errno _ := EINTR; fd_open _ := true; patience p := length (pieces p)
}.
Definition piece (o : option (Z * bytes)) : bytes := match o with Some (c, d) => c :: d | None => [] end.
Definition pipe_coming (p : pipe) : bytes := flat_map piece (pieces p).
Lemma pipe_read n p r p' : first_piece n p = (r, p') -> 0 <= n -> output p' = output p /\ (True -> True) /\ (length (pieces p') <= length (pieces p))%nat /\
  match r with
  | Some d => pipe_coming p = d ++ pipe_coming p' /\ zlen d <= n /\ (0 < n -> d = [] -> pipe_coming p = [])
  | None => pipe_coming p' = pipe_coming p /\ (EINTR = EINTR -> (length (pieces p') < length (pieces p))%nat) /\ (True -> EINTR = EINTR)
  end.
Proof.
  destruct p as [ps out t]. unfold first_piece, pipe_coming. cbn [pieces output takes]. intros Hr Hn.
  destruct ps as [|[[c d]|] ps]; injection Hr as <- <-; cbn [output pieces flat_map piece length].
  - split_and!; try done.
  - pose proof (ztake_zdrop n (c :: d)) as Htd. split_and!; try done.
    + destruct (zdrop n (c :: d)); cbn [length]; lia.
    + rewrite <- Htd at 1. rewrite <- app_assoc. f_equal. by destruct (zdrop n (c :: d)).
    + rewrite zlen_ztake by lia. lia.
    + intros Hp He. assert (zlen (ztake n (c :: d)) = 0) as Hz by (by rewrite He). rewrite zlen_ztake, zlen_cons in Hz by lia.
      pose proof (zlen_nonneg d). lia.
  - split_and!; try done. lia. lia.
Qed.
Lemma pipe_send d p r p' : to_send d p = (r, p') -> pipe_coming p' = pipe_coming p /\ (True -> True) /\ (length (pieces p') <= length (pieces p))%nat /\
  match r with
  | Some n => 0 <= n <= zlen d /\ output p' = output p ++ ztake n d /\ (True -> n = zlen d)
  | None => output p' = output p /\ (EINTR = EINTR -> (length (pieces p') < length (pieces p))%nat) /\ (True -> EINTR = EINTR)
  end.
Proof.
  intros [= <- <-]. unfold pipe_coming. cbn [pieces output]. rewrite ztake_ge by lia. pose proof (zlen_nonneg d). by split_and!.
Qed.
Lemma pipe_gather gs p r p' : gather gs p = (r, p') -> pipe_coming p' = pipe_coming p /\ (True -> True) /\ (length (pieces p') <= length (pieces p))%nat /\
  match r with
  | Some n => 0 <= n <= zlen (concat gs) /\ output p' = output p ++ ztake n (concat gs) /\ (concat gs <> [] -> 0 < n)
  | None => output p' = output p /\ (EINTR = EINTR -> (length (pieces p') < length (pieces p))%nat) /\ (True -> EINTR = EINTR)
  end.
Proof.
  intros [= <- <-]. unfold pipe_coming. cbn [pieces output]. pose proof (zlen_nonneg (concat gs)). split_and!; try done; [lia..|].
  intros Hne. assert (zlen (concat gs) <> 0) by (intros Hz; by apply zlen_zero in Hz). lia.
Qed.
#[export] Instance pipe_laws : OsSocketLaws pipe := {
  holds _ := True; coming := pipe_coming; sent := output;
  holds_open _ _ := eq_refl; read_law := pipe_read; send_law := pipe_send; sendmsg_law := pipe_gather
}.

(** What [sendmsg] returns is the amount of the last part, not of all that was sent. *)
Example last_part : fst (sendmsg [[1; 2]; [3; 4; 5]] (mk_pipe [] [] 3)) = Val 2 /\
  output (snd (sendmsg [[1; 2]; [3; 4; 5]] (mk_pipe [] [] 3))) = [1; 2; 3; 4; 5].
Proof. by split. Qed.
Example in_pieces : fst (read_string [] 4 (mk_pipe [Some (1, []); None; Some (2, [3; 4; 5])] [] 3)) = Val (true, [1; 2; 3; 4]).
Proof. done. Qed.
End Socket.
