(* ===== verification/Tube.v ===== *)
(** * Message tubes

    Models [src/libs/tube]: tags ([tag.cc]), messages in a stream as they are
    sent and received by the client ([client.cc]) and the server ([server.cc]),
    and the dispatch of requests and their responses ([sync-server.cc],
    [auto-sync-client.cc]), over the stream sockets of [Socket.v].  The flags of
    other threads show in the state of the world; what a server does with a
    message is a parameter, as it is a virtual method. *)
From stdpp Require Import gmap.
From S2P Require Export Socket Convert Address.

Module Tube.
Import Socket.

Definition MASK_SYNC_FLAGS : Z := 4294901760.
Definition FLAG_RESPONSE_REQUIRED : Z := 2147483648.
Definition FLAG_RESPONSE_PROVIDED : Z := 1073741824.
Definition MASK_REQUEST_ID : Z := 1073676288.
Definition SHIFT_REQUEST_ID : Z := 16.
Definition MAX_REQUEST_ID : Z := 16383.

(** ** Tags *)
Definition isprint (c : Z) : bool := (32 <=? c) && (c <=? 126).
Fixpoint tag_chars (n : nat) (tag : Z) (s : bytes) : option bytes :=
  match n with
  | O => Some s
  | S n => let c := u8 (Z.shiftr tag (8 * Z.of_nat n)) in if isprint c then tag_chars n tag (s ++ [c]) else None
  end.
Definition tag_to_string (tag : Z) : bytes := match tag_chars 4 tag [] with Some s => s | None => itox tag end.
(** A [char] is signed. *)
Definition string_to_tag (s : bytes) : Z := fold_left (fun tag c => Z.lor (u32 (Z.shiftl tag 8)) (u32 (i8 c))) (ztake 4 s) 0.

Record Message := mk_Message { tag : Z; flags : Z; data : bytes }.
Definition empty_Message : Message := mk_Message 0 0 [].
Definition is_valid (m : Message) : bool := negb (tag m =? 0).
Definition stag (m : Message) : bytes := str "'" ++ tag_to_string (tag m) ++ str "'".

Inductive Action := STARTED | MESSAGE_DATA | FINISHED | SHUTDOWN.
Record ClientMessage (K : Type) := mk_ClientMessage { client : K; msg : Message; action : Action }.
#[global] Arguments mk_ClientMessage {K} client msg action.
#[global] Arguments client {K} c.
#[global] Arguments msg {K} c.
#[global] Arguments action {K} c.
Inductive obituary := ended | died | killed_by_server | unsynced | failed | failed_send.

Section tube.
Context {W : Type} `{!OsSocket W}.
#[local] Abbreviation SM := (M W SocketError).

(** ** Messages in a stream *)

(** What a send thread does with a message *)
Definition send_chunk (msg : Message) : SM unit :=
  write_nbo_int (tag msg) ;;;
  write_nbo_int (zlen (data msg)) ;;;
  write_nbo_int (flags msg) ;;;
  write_string (data msg).
(** [ServerSendThread::run]: the messages of the queue in turn, until an error *)
Fixpoint send_chunks (msgs : list Message) : SM unit :=
  match msgs with [] => ret tt | msg :: msgs => send_chunk msg ;;; send_chunks msgs end.
(** The rest of a message that has this tag: the flags, and the data if they are there *)
Definition read_body : SM (Z * (bool * bytes)) :=
  let! len := read_nbo_int in
  let! f := read_nbo_int in
  let! d := read_string [] len in
  ret (f, d).

(** ** The server *)
Section server.
Context {K H : Type} (alive send_thread : W -> bool) (tag_recognised : Z -> bool) (handle_message : ClientMessage K -> H -> bool * H) (client : K).

(** One turn of the loop of [process] *)
Definition process_turn (s : W) (h : H) : option obituary * W * H :=
  match try_read_nbo_int s with
  | (Throw _, s) => (Some failed, s, h)
  | (Val None, s) => (Some ended, s, h)
  | (Val (Some tag), s) =>
    if negb (alive s) then (Some ended, s, h) else
    if tag_recognised tag then
      match read_body s with
      | (Throw _, s) => (Some failed, s, h)
      | (Val (f, (false, _)), s) => (Some died, s, h)
      | (Val (f, (true, d)), s) =>
        let '(ok, h) := handle_message (mk_ClientMessage client (mk_Message tag f d) MESSAGE_DATA) h in
        (if ok then None else Some killed_by_server, s, h)
      end
    else (Some unsynced, s, h)
  end.
Fixpoint process_loop (fuel : nat) (s : W) (h : H) : option (obituary * W * H) :=
  if alive s && fd_open s && send_thread s then
    match fuel with
    | O => None
    | S fuel => match process_turn s h with
                | (Some obit, s, h) => Some (obit, s, h)
                | (None, s, h) => process_loop fuel s h
                end
    end
  else Some (ended, s, h).
(** [process], up to the end of the session *)
Definition process (fuel : nat) (s : W) (h : H) : option (obituary * W * H) :=
  let h := snd (handle_message (mk_ClientMessage client empty_Message STARTED) h) in
  match process_loop fuel s h with
  | Some (obit, s, h) =>
    let h := snd (handle_message (mk_ClientMessage client empty_Message FINISHED) h) in
    Some (if send_thread s then obit else failed_send, s, h)
  | None => None
  end.
End server.

(** [verify] *)
Definition verify (filters : list Address.MaskedAddress) (host : Z) : bool := existsb (fun f => Address.matches f host) filters.

(** Queues of the sessions: [send], once there is room *)
Definition session_send {K} `{Countable K} (m : ClientMessage K) (sessions : gmap K (list Message)) : bool * gmap K (list Message) :=
  match sessions !! client m with
  | Some q => (true, <[client m := q ++ [msg m]]> sessions)
  | None => (false, sessions)
  end.

(** ** The client *)

(** The socket is part of the world, once there has been one. *)
Record Client := mk_Client { has_socket : bool; world : W; receive_q : list Message }.
Definition check_socket (c : Client) : bool := has_socket c && fd_open (world c).
Section client.
Context (connect pause : W -> W) (alive : W -> bool) (tag_recognised : Z -> bool).

(** [restart_socket]: an empty message says that it is not the first *)
Definition restart_socket (c : Client) : bool * Client :=
  let w := connect (world c) in
  if negb (fd_open w) then (false, mk_Client true w (receive_q c))
  else (true, mk_Client true w (if has_socket c then receive_q c ++ [empty_Message] else receive_q c)).
(** After an error: a moment's rest, and a new socket unless the client is shut down *)
Definition after_error (c : Client) : bool * Client :=
  if alive (world c) then
    let c := mk_Client (has_socket c) (pause (world c)) (receive_q c) in
    if alive (world c) then restart_socket c else (false, c)
  else (false, c).
Definition receive_messages (c : Client) : bool * Client :=
  let '(ok, c) := if check_socket c then (true, c) else restart_socket c in
  if negb ok then (false, c) else
  match read_nbo_int (world c) with
  | (Throw _, s) => after_error (mk_Client true s (receive_q c))
  | (Val tag, s) =>
    if tag_recognised tag then
      match read_body s with
      | (Throw _, s) => after_error (mk_Client true s (receive_q c))
      | (Val (f, (false, _)), s) => restart_socket (mk_Client true s (receive_q c))
      | (Val (f, (true, d)), s) => (true, mk_Client true s (receive_q c ++ [mk_Message tag f d]))
      end
    else restart_socket (mk_Client true s (receive_q c))
  end.
(** [send_messages] with the message it has waited for, once there is a socket *)
Definition send_messages (msg : Message) (c : Client) : bool * Client :=
  if negb (alive (world c)) then (false, c) else
  match send_chunk msg (world c) with
  | (Val _, s) => (true, mk_Client (has_socket c) s (receive_q c))
  | (Throw _, s) => after_error (mk_Client (has_socket c) s (receive_q c))
  end.
(** [wait], when there is a message *)
Definition wait (c : Client) : option (bool * Message * Client) :=
  match receive_q c with
  | [] => None
  | m :: q => Some (is_valid m, m, mk_Client (has_socket c) (world c) q)
  end.
End client.
End tube.
#[global] Arguments Client W : clear implicits.

(** ** Requests and responses *)
Section sync.
Context {K H : Type} (handle_request : ClientMessage K -> H -> bool * Message * H)
  (handle_async_message : ClientMessage K -> H -> bool * H) (send : ClientMessage K -> H -> H).

(** What [SyncServer] makes of the flags of a response *)
Definition response_flags (request response : Z) : Z :=
  Z.lor (Z.lor (Z.land response (u32 (Z.lnot MASK_SYNC_FLAGS))) FLAG_RESPONSE_PROVIDED) (Z.land request MASK_REQUEST_ID).
(** [SyncServer::handle_message] *)
Definition handle_message (m : ClientMessage K) (h : H) : bool * H :=
  match action m with
  | STARTED | FINISHED => handle_async_message m h
  | MESSAGE_DATA =>
    if negb (Z.land (flags (msg m)) FLAG_RESPONSE_REQUIRED =? 0) then
      match handle_request m h with
      | (true, r, h) =>
        (true, send (mk_ClientMessage (client m) (mk_Message (tag r) (response_flags (flags (msg m)) (flags r)) (data r)) MESSAGE_DATA) h)
      | (false, _, h) => (true, h)
      end
    else handle_async_message m h
  | SHUTDOWN => (false, h)
  end.
End sync.
(** [AutoSyncClient::handle_async_message]: what is sent back *)
Definition auto_reply (m : Message) : option Message :=
  if negb (Z.land (flags m) FLAG_RESPONSE_REQUIRED =? 0) then
    Some (mk_Message 1178683724 (Z.lor FLAG_RESPONSE_PROVIDED (Z.land (flags m) MASK_REQUEST_ID)) (str "Unknown request"))
  else None.
(** The ID in the flags *)
Definition request_id (f : Z) : Z := u16 (Z.shiftr (Z.land f MASK_REQUEST_ID) SHIFT_REQUEST_ID).

(* ------------------------------------------------------------------ *)
(** ** Lemmas *)

Definition frame (m : Message) : bytes := hton 4 (tag m) ++ hton 4 (zlen (data m)) ++ hton 4 (flags m) ++ data m.
Definition frames (ms : list Message) : bytes := concat (map frame ms).
Definition sendable (m : Message) : Prop := in_u 32 (tag m) /\ in_u 32 (flags m) /\ in_u 32 (zlen (data m)).
Lemma u32_small x : in_u 32 x -> u32 x = x.
Proof. intros Hx. unfold wrap, in_u in *. by apply Z.mod_small. Qed.
Lemma hton_inj x b : in_u 32 x -> hton 4 x = b -> nbo b = x.
Proof. intros Hx <-. rewrite nbo_hton. by apply u32_small. Qed.

(** *** Tags and flags *)

Lemma tag_step x c : 0 <= x < 2 ^ 24 -> isprint c = true -> Z.lor (u32 (Z.shiftl x 8)) (u32 (i8 c)) = x * 256 + c.
Proof.
  unfold isprint. intros Hx Hc. rewrite (swrap_small 8 c) by (unfold in_s; lia). rewrite (u32_small c) by (unfold in_u; lia).
  rewrite u32_small; [by apply (lor_add 8); lia|]. rewrite Z.shiftl_mul_pow2 by lia. unfold in_u. lia.
Qed.
(** A tag with a text of its own is read back from it. *)
Lemma tag_roundtrip t s : in_u 32 t -> tag_chars 4 t [] = Some s -> tag_to_string t = s /\ string_to_tag s = t.
Proof.
  intros Ht Hs. unfold tag_to_string. rewrite Hs. split; [done|]. assert (s = hton 4 t /\ Forall (fun c => isprint c = true) s) as [-> Hp].
  { cbn [tag_chars app] in Hs. repeat case_match; simplify_eq. split; [done|]. by repeat constructor. }
  assert (nbo (hton 4 t) = t) as Hn by (rewrite nbo_hton; by apply u32_small). transitivity (nbo (hton 4 t)); [|done]. revert Hp. clear. pose proof (hton_length 4 t) as Hl.
  destruct (hton 4 t) as [|a [|b [|c [|d []]]]]; try done. intros Hp. repeat (apply Forall_cons in Hp as [? Hp]).
  unfold string_to_tag, nbo. cbn [ztake take fold_left Z.to_nat Pos.to_nat Pos.iter_op Nat.add]. change (ztake 4 [a; b; c; d]) with [a; b; c; d]. cbn [fold_left].
  assert (0 <= a < 128 /\ 0 <= b < 128 /\ 0 <= c < 128) as (? & ? & ?) by (unfold isprint in *; lia). rewrite (tag_step 0 a), (tag_step _ b), (tag_step _ c), (tag_step _ d) by (done || lia). done.
Qed.
(** A [char] above 127 sets every bit above its own. *)
Example high_char : string_to_tag [65; 66; 67; 200] = 4294967240.
Proof. done. Qed.

Lemma request_id_bits f : request_id f = Z.land (Z.shiftr f 16) 16383.
Proof.
  unfold request_id, SHIFT_REQUEST_ID. rewrite Z.shiftr_land. change (Z.shiftr MASK_REQUEST_ID 16) with 16383. apply wrap_small.
  change 16383 with (Z.ones 14). rewrite Z.land_ones by lia. unfold in_u. pose proof (Z.mod_pos_bound (Z.shiftr f 16) (2 ^ 14)). lia.
Qed.
(** A response has the ID of its request, and is one. *)
Lemma response_id f r : request_id (response_flags f r) = request_id f /\ Z.land (response_flags f r) FLAG_RESPONSE_PROVIDED = FLAG_RESPONSE_PROVIDED.
Proof.
  unfold response_flags. split.
  - rewrite !request_id_bits, !Z.shiftr_lor, !Z.shiftr_land. change (Z.shiftr (u32 (Z.lnot MASK_SYNC_FLAGS)) 16) with 0.
    change (Z.shiftr FLAG_RESPONSE_PROVIDED 16) with 16384. change (Z.shiftr MASK_REQUEST_ID 16) with 16383.
    rewrite Z.land_0_r, Z.lor_0_l, Z.land_lor_distr_l. change (Z.land 16384 16383) with 0. by rewrite Z.lor_0_l, <- Z.land_assoc.
  - rewrite !Z.land_lor_distr_l, <- !Z.land_assoc. change (Z.land (u32 (Z.lnot MASK_SYNC_FLAGS)) FLAG_RESPONSE_PROVIDED) with 0.
    change (Z.land MASK_REQUEST_ID FLAG_RESPONSE_PROVIDED) with 0. by rewrite !Z.land_0_r, Z.land_diag.
Qed.

(** *** The stream *)
Section laws.
Context {W : Type} `{OsSocketLaws W}.

(** A part of what was to be sent, and all of it where the connection holds *)
Definition sends {A} (m : M W SocketError A) (d : bytes) : Prop := forall s,
  match m s with
  | (Val _, s') => sent s' = sent s ++ d /\ (holds s -> holds s')
  | (Throw _, s') => ~ holds s /\ exists n, 0 <= n <= zlen d /\ sent s' = sent s ++ ztake n d
  end.
Lemma sends_bind {A B} (m : M W SocketError A) (k : A -> M W SocketError B) d e : sends m d -> (forall a, sends (k a) e) -> sends (bind m k) (d ++ e).
Proof.
  intros Hm Hk s. unfold bind. specialize (Hm s). destruct (m s) as [[a|err] s1].
  - destruct Hm as [Hs Hh]. specialize (Hk a s1). destruct (k a s1) as [[b|err] s2].
    + destruct Hk as [-> Hk]. rewrite Hs, app_assoc. split; [done|tauto].
    + destruct Hk as [Hk (n & Hn & ->)]. split; [tauto|]. exists (zlen d + n). rewrite zlen_app. pose proof (zlen_nonneg d).
      split; [lia|]. rewrite Hs, ztake_app_ge, Z.add_simpl_l by lia. by rewrite app_assoc.
  - destruct Hm as [Hm (n & Hn & ->)]. split; [done|]. exists n. rewrite zlen_app. pose proof (zlen_nonneg e). split; [lia|]. by rewrite ztake_app_le by lia.
Qed.
Lemma sends_write d : sends (write d) d.
Proof. intros s. pose proof (write_law d s) as Hw. destruct (write d s) as [[]]; destruct Hw as (? & ? & ?); by split. Qed.
Lemma sends_chunk m : sendable m -> sends (send_chunk m) (frame m).
Proof.
  intros (Ht & Hf & Hd). unfold send_chunk, frame. apply sends_bind; [|intros _; apply sends_bind; [|intros _; apply sends_bind; [|intros _; apply sends_write]]];
    unfold write_nbo_int; rewrite u32_small by done; apply sends_write.
Qed.
Lemma sends_chunks ms : Forall sendable ms -> sends (send_chunks ms) (frames ms).
Proof.
  induction 1 as [|m ms Hm Hms IH]; cbn [send_chunks]; [|apply sends_bind; [by apply sends_chunk|done]].
  intros s. cbn. by rewrite app_nil_r.
Qed.

(** Reading four bytes *)
Lemma try_nbo_law s : match try_read_nbo_int s with
  | (Val (Some v), s') => exists b, coming s = b ++ coming s' /\ zlen b = 4 /\ v = nbo b /\ (holds s -> holds s')
  | (Val None, s') => zlen (coming s) < 4
  | (Throw _, s') => ~ holds s
  end.
Proof.
  unfold try_read_nbo_int, bind. pose proof (read_exact_law 4 s ltac:(lia)) as (H1 & H2 & H3).
  destruct (read_exact 4 s) as [[[b|]|] s']; cbn in *; [|tauto..]. destruct H3. by exists b.
Qed.
Lemma nbo_law s : match read_nbo_int s with
  | (Val v, s') => exists b, coming s = b ++ coming s' /\ zlen b = 4 /\ v = nbo b /\ (holds s -> holds s')
  | (Throw _, s') => holds s -> zlen (coming s) < 4
  end.
Proof.
  unfold read_nbo_int, bind. pose proof (read_exact_law 4 s ltac:(lia)) as (H1 & H2 & H3).
  destruct (read_exact 4 s) as [[[b|]|] s']; cbn in *; [|tauto..]. destruct H3. by exists b.
Qed.
Lemma body_law s : (forall b X, coming s = b ++ X -> zlen b = 4 -> 0 <= nbo b) ->
  match read_body s with
  | (Val (f, (true, d)), s') =>
    exists b1 b2, coming s = b1 ++ b2 ++ d ++ coming s' /\ zlen b1 = 4 /\ zlen b2 = 4 /\ nbo b1 = zlen d /\ f = nbo b2 /\ (holds s -> holds s')
  | _ => holds s -> forall b1 b2 d X, coming s = b1 ++ b2 ++ d ++ X -> zlen b1 = 4 -> zlen b2 = 4 -> nbo b1 <> zlen d
  end.
Proof.
  intros Hpos. unfold read_body, bind. pose proof (nbo_law s) as H1. destruct (read_nbo_int s) as [[len|e] s1].
  2: { intros Hh b1 b2 d X Hc. specialize (H1 Hh). rewrite Hc, !zlen_app in H1. intros.
    pose proof (zlen_nonneg b2). pose proof (zlen_nonneg d). pose proof (zlen_nonneg X). lia. }
  destruct H1 as (b1 & C1 & L1 & -> & K1). specialize (Hpos _ _ C1 L1). pose proof (nbo_law s1) as H2. destruct (read_nbo_int s1) as [[f|e] s2].
  2: { intros Hh b1' b2 d X Hc E1 E2. specialize (H2 (K1 Hh)). rewrite C1 in Hc.
    apply app_inj_1 in Hc as [<- Hc]; [|unfold zlen in *; lia]. rewrite Hc, !zlen_app in H2.
    pose proof (zlen_nonneg d). pose proof (zlen_nonneg X). lia. }
  destruct H2 as (b2 & C2 & L2 & -> & K2). destruct (read_string_law [] (nbo b1) s2 Hpos) as (o & H3 & H4 & H5 & H6).
  destruct (read_string [] (nbo b1) s2) as [[[[] d]|e] s3]; cbn in *; destruct o as [[d'|]|]; try done.
  - cbn in H3. subst d. destruct H6 as [H6 H7]. exists b1, b2. rewrite C1, C2, H6. split_and!; try done. tauto.
  - intros Hh b1' b2' d' X Hc E1 E2. rewrite C1 in Hc. apply app_inj_1 in Hc as [<- Hc]; [|unfold zlen in *; lia]. rewrite C2 in Hc.
    apply app_inj_1 in Hc as [<- Hc]; [|unfold zlen in *; lia]. destruct H6 as [H6 _]. rewrite Hc, zlen_app in H6. pose proof (zlen_nonneg X). lia.
  - intros Hh. destruct H6 as [H6 _]. tauto.
Qed.

(** What is on its way is a part of what was sent. *)
Definition comes_from (s : W) (ms : list Message) (tail : bytes) : Prop := frames ms = coming s ++ tail.
Lemma prefix_inj (a b c d : bytes) : a ++ b = c ++ d -> length a = length c -> a = c /\ b = d.
Proof. intros He Hl. by apply app_inj_1. Qed.

Section server.
Context {K Hd : Type} (alive send_thread : W -> bool) (recognised : Z -> bool) (handle : ClientMessage K -> Hd -> bool * Hd) (client : K).
(** The session is not killed from outside. *)
Definition stays : Prop := forall s, alive s = true /\ send_thread s = true.

(** What the server does with messages, until it refuses one *)
Fixpoint handled (ms : list Message) (h : Hd) : Hd :=
  match ms with
  | [] => h
  | m :: ms => let '(ok, h) := handle (mk_ClientMessage client m MESSAGE_DATA) h in if ok then handled ms h else h
  end.

Lemma turn_law m ms tail s h : sendable m -> recognised (tag m) = true -> comes_from s (m :: ms) tail ->
  match process_turn alive recognised handle client s h with
  | (Some obit, s', h') =>
    (h' = h /\ (stays -> holds s -> tail <> [])) \/ (handle (mk_ClientMessage client m MESSAGE_DATA) h = (false, h'))
  | (None, s', h') => comes_from s' ms tail /\ handle (mk_ClientMessage client m MESSAGE_DATA) h = (true, h') /\ (holds s -> holds s')
  end.
Proof.
  intros (Ht & Hf & Hl) Hr Hc. unfold comes_from, frames in Hc. cbn [map concat] in Hc. unfold frame in Hc. rewrite <- !app_assoc in Hc. fold (frames ms) in Hc.
  unfold process_turn. pose proof (try_nbo_law s) as H1. destruct (try_read_nbo_int s) as [[[v|]|e] s1].
  - destruct H1 as (b & C1 & L1 & -> & K1). destruct (alive s1) eqn:Ha; cbn [negb].
    2: { left. split; [done|]. intros Hs. by rewrite (proj1 (Hs s1)) in Ha. }
    rewrite C1, <- app_assoc in Hc.
    apply prefix_inj in Hc as [Hb Hc]; [|rewrite hton_length; unfold zlen in *; lia]. rewrite (hton_inj (tag m) b Ht Hb), Hr.
    assert (forall b' X, coming s1 = b' ++ X -> zlen b' = 4 -> b' = hton 4 (zlen (data m))) as Hlen.
    { intros b' X E L. rewrite E, <- app_assoc in Hc. apply prefix_inj in Hc as [-> _]; [done|rewrite hton_length; unfold zlen in *; lia]. }
    assert (nbo (hton 4 (zlen (data m))) = zlen (data m)) as Hn by (rewrite nbo_hton; by apply u32_small).
    assert (forall b' X, coming s1 = b' ++ X -> zlen b' = 4 -> 0 <= nbo b') as Hpos.
    { intros b' X E L. rewrite (Hlen b' X E L), Hn. apply zlen_nonneg. }
    pose proof (body_law s1) as H2. destruct (read_body s1) as [[[f [[] d]]|e] s2].
    + destruct H2 as (b1 & b2 & C2 & L2 & L3 & N & -> & K2); [done|]. rewrite (Hlen b1 _ C2 L2), Hn in N.
      rewrite C2, <- !app_assoc in Hc. apply prefix_inj in Hc as [_ Hc]; [|rewrite hton_length; unfold zlen in *; lia].
      apply prefix_inj in Hc as [Hb2 Hc]; [|rewrite hton_length; unfold zlen in *; lia]. apply prefix_inj in Hc as [<- Hc]; [|unfold zlen in *; lia].
      rewrite (hton_inj (flags m) b2 Hf Hb2). destruct m as [t f d]. cbn [tag flags data] in *. destruct (handle _ h) as [[] h'] eqn:Hh; [|by right].
      split_and!; try done. tauto.
    + left. split; [done|]. intros _ Hh ->. rewrite app_nil_r in Hc. by apply (H2 Hpos (K1 Hh) _ _ _ _ (eq_sym Hc)).
    + left. split; [done|]. intros _ Hh ->. rewrite app_nil_r in Hc. by apply (H2 Hpos (K1 Hh) _ _ _ _ (eq_sym Hc)).
  - left. split; [done|]. intros _ _ ->. rewrite app_nil_r in Hc. rewrite <- Hc, zlen_app in H1.
    assert (zlen (hton 4 (tag m)) = 4) by (unfold zlen; by rewrite hton_length).
    match type of H1 with _ + zlen ?X < _ => pose proof (zlen_nonneg X) end. lia.
  - left. split; [done|]. intros _ Hh. by destruct (H1 Hh).
Qed.
Lemma turn_end s h : coming s = [] -> exists obit s', process_turn alive recognised handle client s h = (Some obit, s', h).
Proof.
  intros Hc. unfold process_turn. pose proof (try_nbo_law s) as H1. destruct (try_read_nbo_int s) as [[[v|]|e] s1]; [|eauto..].
  destruct H1 as (b & C & L & _). rewrite Hc in C. by destruct b.
Qed.
Lemma process_loop_law ms tail : Forall sendable ms -> Forall (fun m => recognised (tag m) = true) ms -> forall fuel s h, (length ms < fuel)%nat ->
  comes_from s ms tail ->
  exists k obit s', process_loop alive send_thread recognised handle client fuel s h = Some (obit, s', handled (take k ms) h) /\
    (stays -> holds s -> tail = [] -> k = length ms).
Proof.
  intros Hms Hrs. induction Hms as [|m ms Hm Hms IH]; intros [|fuel] s h Hf Hc; cbn [length] in Hf; try lia; cbn [process_loop].
  - assert (coming s = []) as Hnil by (unfold comes_from in Hc; by destruct (coming s)).
    destruct (turn_end s h Hnil) as (obit & s' & ->). case_match; exists 0%nat; cbn; eauto.
  - apply Forall_cons in Hrs as [Hr Hrs]. destruct (alive s && fd_open s && send_thread s) eqn:Hgo.
    + pose proof (turn_law m ms tail s h Hm Hr Hc) as Ht. destruct (process_turn _ _ _ _ s h) as [[[obit|] s1] h1].
      * destruct Ht as [[-> Hne]|Hno].
        { exists 0%nat, obit, s1. split; [done|]. intros Hs Hh ->. by destruct (Hne Hs Hh). }
        exists (length (m :: ms)), obit, s1. split; [|done]. rewrite firstn_all. cbn [handled]. by rewrite Hno.
      * destruct Ht as (Hc1 & Hok & Hh1). destruct (IH Hrs fuel s1 h1 ltac:(lia) Hc1) as (k & obit & s' & -> & Hk).
        exists (S k), obit, s'. cbn [take handled length]. rewrite Hok. split; [done|]. intros Hs Hh Ht. by rewrite Hk; [|done|apply Hh1|done].
    + exists 0%nat, ended, s. split; [done|]. intros Hs Hh. rewrite (holds_open s Hh) in Hgo. destruct (Hs s) as [H1 H2]. by rewrite H1, H2 in Hgo.
Qed.
End server.

(** A client queues a message that is there. *)
Lemma client_receives (connect pause : W -> W) alive recognised c m X : sendable m -> recognised (tag m) = true -> has_socket c = true -> holds (world c) ->
  coming (world c) = frame m ++ X ->
  exists w, receive_messages connect pause alive recognised c = (true, mk_Client true w (receive_q c ++ [m])) /\ holds w /\ coming w = X.
Proof.
  intros (Ht & Hf & Hl) Hr Hsock Hh Hc. unfold receive_messages, check_socket. rewrite Hsock, (holds_open _ Hh). cbn [andb negb].
  unfold frame in Hc. rewrite <- !app_assoc in Hc. pose proof (nbo_law (world c)) as H1. destruct (read_nbo_int (world c)) as [[v|e] s1].
  2: { specialize (H1 Hh). rewrite Hc, zlen_app in H1. assert (zlen (hton 4 (tag m)) = 4) by (unfold zlen; by rewrite hton_length).
    match type of H1 with _ + zlen ?X < _ => pose proof (zlen_nonneg X) end. lia. }
  destruct H1 as (b & C1 & L1 & -> & K1). rewrite Hc in C1. apply prefix_inj in C1 as [Hb C1]; [|rewrite hton_length; unfold zlen in *; lia].
  rewrite (hton_inj (tag m) b Ht Hb), Hr. assert (nbo (hton 4 (zlen (data m))) = zlen (data m)) as Hn by (rewrite nbo_hton; by apply u32_small).
  pose proof (body_law s1) as H2. destruct (read_body s1) as [[[f [[] d]]|e] s2];
    (ospecialize (H2 _); [intros b' Y E L; rewrite E in C1; apply prefix_inj in C1 as [<- _]; [rewrite Hn; apply zlen_nonneg|rewrite hton_length; unfold zlen in *; lia]|]).
  - destruct H2 as (b1 & b2 & C2 & L2 & L3 & N & -> & K2). rewrite C2 in C1. apply prefix_inj in C1 as [<- C1]; [|rewrite hton_length; unfold zlen in *; lia].
    apply prefix_inj in C1 as [Hb2 C1]; [|rewrite hton_length; unfold zlen in *; lia]. rewrite Hn in N. apply prefix_inj in C1 as [<- C1]; [|unfold zlen in *; lia].
    rewrite (hton_inj (flags m) b2 Hf Hb2). exists s2. destruct m. split_and!; auto.
  - destruct (H2 (K1 Hh) _ _ _ _ (eq_sym C1)); [unfold zlen; by rewrite hton_length..|done].
  - destruct (H2 (K1 Hh) _ _ _ _ (eq_sym C1)); [unfold zlen; by rewrite hton_length..|done].
Qed.
End laws.

(** C37: What a server is given of the messages a client sends.  Whatever becomes of the connection, wherever a stream of messages is cut and in whatever pieces it comes, the server handles the first so many of the messages, each whole and as it was sent, between the start and the end of the session, and nothing else, and it does come to an end; it handles all of them, up to one it refuses, where the connection holds on both sides and the session is not killed. *)
Theorem tube_delivers {W W' : Type} `{OsSocketLaws W} `{OsSocketLaws W'} {K Hd : Type} (alive send_thread : W' -> bool) recognised (handle : ClientMessage K -> Hd -> bool * Hd) client ms (s1 : W) (s2 : W') h fuel :
  Forall sendable ms -> Forall (fun m => recognised (tag m) = true) ms -> (length ms < fuel)%nat ->
  sent (snd (send_chunks ms s1)) = sent s1 ++ coming s2 ->
  let tell a h := snd (handle (mk_ClientMessage client empty_Message a) h) in
  exists k obit s', process alive send_thread recognised handle client fuel s2 h =
      Some (obit, s', tell FINISHED (handled handle client (take k ms) (tell STARTED h))) /\
    (holds s1 -> holds s2 -> stays alive send_thread -> k = length ms).
Proof.
  intros Hms Hrs Hf Hs. cbv zeta. pose proof (sends_chunks ms Hms s1) as Hsent.
  assert (exists tail, comes_from s2 ms tail /\ (holds s1 -> tail = [])) as (tail & Hc & Ht).
  { destruct (send_chunks ms s1) as [[[]|e] s1']; cbn in Hs; rewrite Hs in Hsent.
    - exists []. destruct Hsent as [Hsent _]. apply app_inv_head in Hsent. unfold comes_from. by rewrite app_nil_r.
    - destruct Hsent as (Hh & n & _ & Hn). apply app_inv_head in Hn. exists (zdrop n (frames ms)). unfold comes_from. rewrite Hn, ztake_zdrop. by split. }
  unfold process. destruct (process_loop_law alive send_thread recognised handle client ms tail Hms Hrs fuel s2
    (snd (handle (mk_ClientMessage client empty_Message STARTED) h)) Hf Hc) as (k & obit & s' & -> & Hk).
  eexists k, _, s'. split; [done|]. auto.
Qed.

(** ** Samples *)

Definition hello : Message := mk_Message 1212501068 0 [1; 2; 3].
(** A handler that keeps what it is told *)
Definition note (m : ClientMessage Z) (h : list (Action * Message)) : bool * list (Action * Message) := (true, h ++ [(action m, msg m)]).
Definition serve (s : pipe) : option (obituary * list (Action * Message)) :=
  match process (fun _ => true) (fun _ => true) (fun _ => true) note 1 3 s [] with Some (obit, _, h) => Some (obit, h) | None => None end.
Definition sample_pipe : pipe := mk_pipe [Some (72, [69; 76; 76; 0; 0]); None; Some (0, [3; 0; 0; 0; 0; 1; 2; 3])] [] 3.
Lemma tube_delivers_witness : sent (snd (send_chunks [hello] (mk_pipe [] [] 3))) = coming sample_pipe /\
  exists obit s', process (fun _ => true) (fun _ => true) (fun _ => true) note 1 2 sample_pipe [] =
    Some (obit, s', [(STARTED, empty_Message); (MESSAGE_DATA, hello); (FINISHED, empty_Message)]).
Proof.
  destruct (tube_delivers (fun _ => true) (fun _ => true) (fun _ => true) note 1 [hello] (mk_pipe [] [] 3) sample_pipe [] 2) as (k & obit & s' & H1 & H2);
    [by repeat constructor|by repeat constructor|cbn; lia|done|].
  split; [done|]. exists obit, s'. rewrite H2 in H1 by done. exact H1.
Defined.
(** A stream that ends within a tag ends cleanly; after the tag it has failed, and in the data died. *)
Example cut_in_tag : serve (mk_pipe [Some (72, [69])] [] 3) = Some (ended, [(STARTED, empty_Message); (FINISHED, empty_Message)]).
Proof. done. Qed.
Example cut_in_header : serve (mk_pipe [Some (72, [69; 76; 76; 0])] [] 3) = Some (failed, [(STARTED, empty_Message); (FINISHED, empty_Message)]).
Proof. done. Qed.
Example cut_in_data : serve (mk_pipe [Some (72, [69; 76; 76; 0; 0; 0; 3; 0; 0; 0; 0; 1])] [] 3) = Some (died, [(STARTED, empty_Message); (FINISHED, empty_Message)]).
Proof. done. Qed.
End Tube.
