(* ===== verification/SyncRequest.v ===== *)
(** * Requests and their responses over a tube

    Models [SyncRequestCache] ([src/libs/tube/sync-request.cc], [ot-tube.h]) as a
    monitor ([Monitor.v]): threads that make requests under an ID and sleep until
    there is a response, one that hands responses over, and one that looks after
    timeouts.  Logging is left out; [over] says of which starting times the
    timeout is over.  A request is started, sent and waited for, as
    [SyncClient::request] and [BiSyncServer::request] do: a client of the cache keeps in mind the IDs of those
    it has started ([allowed]). *)
From stdpp Require Import relations gmap.
From S2P Require Export Monitor Tube.

Module SyncRequest.
Import Monitor Tube.

Section cache.
Context {K : Type} `{EqDecision K} (no_client : K).

Record Request := mk_Request { started : Z; client : K; response : Message }.
Record cache := mk_cache { next : Z; requests : gmap Z Request }.
Definition new_cache : cache := mk_cache 0 ∅.

Inductive op :=
  Do_timeouts (over : Z -> bool) | Start_request (request : Message) (client : K) (now : Z) | Wait_response (request : Message)
  | Handle_response (response : Message) | Shutdown (client : K) | Shutdown_all.
Inductive result := Done | Started (request : Message) | Response (ok : bool) (response : Message) | Handled (b : bool).
#[local] Abbreviation out := (outcome cache Message result Z).

(** The variables of the requests that are notified; each has its own. *)
Definition notify (p : Request -> bool) (s : cache) : list (wake Z) :=
  map (fun e => One (fst e)) (filter (fun e => p (snd e) = true) (map_to_list (requests s))).
(** The loop on [retry]: an ID that is not in use *)
Fixpoint free_id (fuel : nat) (id : Z) (rs : gmap Z Request) : option Z :=
  match rs !! id with
  | None => Some id
  | Some _ => match fuel with O => None | S fuel => free_id fuel (Z.land (id + 1) MAX_REQUEST_ID) rs end
  end.
Definition with_id (request : Message) (id : Z) : Message :=
  mk_Message (tag request) (Z.lor (Z.lor (flags request) FLAG_RESPONSE_REQUIRED) (Z.shiftl id SHIFT_REQUEST_ID)) (data request).
(** With every ID in use it never ends; it is not called then ([allowed]). *)
Definition start_request (request : Message) (cl : K) (now : Z) (s : cache) : out :=
  match free_id (Z.to_nat MAX_REQUEST_ID) (next s) (requests s) with
  | Some id =>
    Return (mk_cache (Z.land (id + 1) MAX_REQUEST_ID) (<[id := mk_Request now cl empty_Message]> (requests s))) (Started (with_id request id)) []
  | None => Return s Done []
  end.
(** [wait_response] up to the wait: the entry is made if there is none *)
Definition wait_response (request : Message) (s : cache) : out :=
  let id := request_id (flags request) in
  Wait (match requests s !! id with
        | Some _ => s
        | None => mk_cache (next s) (<[id := mk_Request 0 no_client empty_Message]> (requests s))
        end) request.
(** ... and after it *)
Definition take_response (request : Message) (s : cache) : out :=
  let id := request_id (flags request) in
  let r := match requests s !! id with Some req => response req | None => empty_Message end in
  Return (mk_cache (next s) (delete id (requests s))) (Response (is_valid r) r) [].
Definition is_response (m : Message) : bool := negb (Z.land (flags m) FLAG_RESPONSE_PROVIDED =? 0).
Definition handle_response (m : Message) (s : cache) : out :=
  if is_response m then
    let id := request_id (flags m) in
    match requests s !! id with
    | Some req => Return (mk_cache (next s) (<[id := mk_Request (started req) (client req) m]> (requests s))) (Handled true) [One id]
    | None => Return s (Handled true) []
    end
  else Return s (Handled false) [].
Definition method (o : op) (s : cache) : out :=
  match o with
  | Do_timeouts over => Return s Done (notify (fun req => over (started req)) s)
  | Start_request request cl now => start_request request cl now s
  | Wait_response request => wait_response request s
  | Handle_response m => handle_response m s
  | Shutdown cl => Return s Done (notify (fun req => bool_decide (client req = cl)) s)
  | Shutdown_all => Return s Done (notify (fun _ => true) s)
  end.

(** A request is started with no ID of its own, while there is one to have, and waited for once. *)
Definition may (mine : list Z) (o : op) (s : cache) : Prop :=
  match o with
  | Start_request request _ _ =>
    Z.land (flags request) MASK_REQUEST_ID = 0 /\ exists id, 0 <= id <= MAX_REQUEST_ID /\ requests s !! id = None
  | Wait_response request => request_id (flags request) ∈ mine
  | _ => True
  end.
Definition after (mine : list Z) (o : op) (r : result) : list Z :=
  match o, r with
  | Start_request _ _ _, Started request => request_id (flags request) :: mine
  | Wait_response request, _ => filter (fun id => id <> request_id (flags request)) mine
  | _, _ => mine
  end.
Definition sync_monitor : Monitor cache Message op result Z (list Z) := {|
  cv_of w := request_id (flags w);
  op_of w := Wait_response w;
  call _ o s := method o s;
  resume _ w s := take_response w s;
  allowed := may;
  finish := after
|}.
End cache.
#[global] Arguments Request K : clear implicits.
#[global] Arguments cache K : clear implicits.
#[global] Arguments op K : clear implicits.

(* ------------------------------------------------------------------ *)
(** ** Lemmas *)

Section lemmas.
Context {K : Type} `{EqDecision K} (no_client : K).
#[local] Abbreviation entry := (nat * op K * result)%type.

(** An ID that is free is found. *)
Lemma next_id id : 0 <= id <= MAX_REQUEST_ID -> Z.land (id + 1) MAX_REQUEST_ID = (id + 1) mod 2 ^ 14.
Proof. intros Hi. change MAX_REQUEST_ID with (Z.ones 14). apply Z.land_ones. lia. Qed.
Lemma free_id_found (rs : gmap Z (Request K)) k : forall fuel id, (k <= fuel)%nat -> 0 <= id <= MAX_REQUEST_ID -> rs !! ((id + Z.of_nat k) mod 2 ^ 14) = None ->
  exists id', free_id fuel id rs = Some id' /\ 0 <= id' <= MAX_REQUEST_ID /\ rs !! id' = None.
Proof.
  unfold MAX_REQUEST_ID. induction k as [|k IH]; intros fuel id Hf Hi Hk.
  - rewrite Z.add_0_r, Z.mod_small in Hk by lia. exists id. destruct fuel; cbn [free_id]; by rewrite Hk.
  - destruct fuel as [|fuel]; [lia|]. cbn [free_id]. destruct (rs !! id) eqn:E; [|by exists id].
    rewrite next_id by done. apply IH; [lia|pose proof (Z.mod_pos_bound (id + 1) (2 ^ 14)); lia|].
    rewrite Zplus_mod_idemp_l. replace (id + 1 + Z.of_nat k) with (id + Z.of_nat (S k)) by lia. done.
Qed.
Lemma free_id_some (rs : gmap Z (Request K)) next id : 0 <= next <= MAX_REQUEST_ID -> 0 <= id <= MAX_REQUEST_ID -> rs !! id = None ->
  exists id', free_id (Z.to_nat MAX_REQUEST_ID) next rs = Some id' /\ 0 <= id' <= MAX_REQUEST_ID /\ rs !! id' = None.
Proof.
  unfold MAX_REQUEST_ID. intros Hn Hi Hf. apply (free_id_found rs (Z.to_nat ((id - next) mod 2 ^ 14))); [|done|].
  - pose proof (Z.mod_pos_bound (id - next) (2 ^ 14)). lia.
  - rewrite Z2Nat.id by (apply Z.mod_pos_bound; lia). rewrite Zplus_mod_idemp_r. replace (next + (id - next)) with id by lia. by rewrite Z.mod_small by lia.
Qed.
Lemma with_id_id m id : Z.land (flags m) MASK_REQUEST_ID = 0 -> 0 <= id <= MAX_REQUEST_ID -> request_id (flags (with_id m id)) = id.
Proof.
  intros Hm Hi. unfold MAX_REQUEST_ID in Hi. rewrite request_id_bits. cbn [with_id flags]. rewrite !Z.shiftr_lor, !Z.land_lor_distr_l.
  assert (Z.land (Z.shiftr (flags m) 16) 16383 = 0) as ->.
  { change 16383 with (Z.shiftr MASK_REQUEST_ID 16). by rewrite <- Z.shiftr_land, Hm. }
  change (Z.land (Z.shiftr FLAG_RESPONSE_REQUIRED 16) 16383) with 0. unfold SHIFT_REQUEST_ID. rewrite Z.shiftr_shiftl_l by lia. rewrite Z.sub_diag, Z.shiftl_0_r, !Z.lor_0_l.
  change 16383 with (Z.ones 14). rewrite Z.land_ones by lia. apply Z.mod_small. lia.
Qed.

(** *** The history of a request *)

Definition restarts (id : Z) (e : entry) : Prop := match e with (_, _, Started q) => request_id (flags q) = id | _ => False end.
(** Thread [i] has started a request under the ID, [since] then nobody else has. *)
Definition live (i : nat) (id : Z) (since h : list entry) : Prop :=
  exists h1 q cl now q', h = h1 ++ (i, Start_request q cl now, Started q') :: since /\ request_id (flags q') = id /\ Forall (fun e => ~ restarts id e) since.
Definition answers (id : Z) (m : Message) (since : list entry) : Prop :=
  (exists j, (j, Handle_response m, Handled true) ∈ since) /\ request_id (flags m) = id /\ is_response m = true.
(** What a result says is so. *)
Definition good_entry (h : list entry) (e : entry) : Prop :=
  match e with
  | (i, Wait_response q, Response true m) => exists since, live i (request_id (flags q)) since h /\ answers (request_id (flags q)) m since
  | _ => True
  end.
Definition good_history (h : list entry) : Prop := forall h1 e h2, h = h1 ++ e :: h2 -> good_entry h1 e.

Lemma good_snoc h e : good_history h -> good_entry h e -> good_history (h ++ [e]).
Proof.
  intros Hh He h1 e' h2 Heq. destruct (exists_last (l := e' :: h2)) as (l & x & Hl); [done|]. rewrite Hl, app_assoc in Heq.
  apply app_inj_tail in Heq as [Heq <-]. destruct l as [|y l].
  - cbn in Hl. injection Hl as -> ->. by rewrite app_nil_r in Heq; subst.
  - cbn in Hl. injection Hl as -> ->. by apply (Hh h1 y l).
Qed.
Lemma live_snoc i id since h e : live i id since h -> ~ restarts id e -> live i id (since ++ [e]) (h ++ [e]).
Proof.
  intros (h1 & q & cl & now & q' & -> & Hid & Hs) He. exists h1, q, cl, now, q'. rewrite <- app_assoc. split_and!; [done|done|].
  apply Forall_app. split; [done|by constructor].
Qed.
Lemma answers_snoc id m since e : answers id m since -> answers id m (since ++ [e]).
Proof. intros [[j Hj] H]. split; [|done]. exists j. apply elem_of_app. by left. Qed.

(** *** The invariant, of the IDs that threads own *)
Record inv (s : cache K) (h : list entry) (owns : nat -> Z -> Prop) : Prop := {
  inv_entry i id : owns i id -> exists r since, requests s !! id = Some r /\ live i id since h /\ (response r = empty_Message \/ answers id (response r) since);
  inv_owned id r : requests s !! id = Some r -> exists i, owns i id;
  inv_excl i j id : owns i id -> owns j id -> i = j;
  inv_next : 0 <= next s <= MAX_REQUEST_ID;
  inv_good : good_history h
}.
Lemma inv_equiv s h (P Q : nat -> Z -> Prop) : (forall i id, P i id <-> Q i id) -> inv s h P -> inv s h Q.
Proof.
  intros He [I1 I2 I3 I4 I5]. split; [|..|done|done].
  - intros i id Hq. by apply I1, He.
  - intros id r Hr. destruct (I2 id r Hr) as [i Hi]. exists i. by apply He.
  - intros i j id Hi Hj. apply (I3 i j id); by apply He.
Qed.
(** A call that changes nothing of the requests *)
Lemma inv_idle s h owns e : inv s h owns -> (forall id, ~ restarts id e) -> good_entry h e -> inv s (h ++ [e]) owns.
Proof.
  intros [I1 I2 I3 I4 I5] He Hg. split; try done; [|by apply good_snoc]. intros i id Ho.
  destruct (I1 i id Ho) as (r & since & Hr & Hl & Ha). exists r, (since ++ [e]). split; [done|]. split; [by apply live_snoc|].
  destruct Ha; [by left|right; by apply answers_snoc].
Qed.
Lemma inv_start s h owns i q cl now id : inv s h owns -> 0 <= id <= MAX_REQUEST_ID -> requests s !! id = None ->
  Z.land (flags q) MASK_REQUEST_ID = 0 ->
  inv (mk_cache (Z.land (id + 1) MAX_REQUEST_ID) (<[id := mk_Request now cl empty_Message]> (requests s)))
    (h ++ [(i, Start_request q cl now, Started (with_id q id))]) (fun j x => owns j x \/ (j = i /\ x = id)).
Proof.
  intros [I1 I2 I3 I4 I5] Hid Hfree Hq. pose proof (with_id_id q id Hq Hid) as Hw.
  assert (forall j, ~ owns j id) as Hno by (intros j Ho; destruct (I1 j id Ho) as (r & _ & Hr & _); by rewrite Hfree in Hr).
  split; cbn [requests next].
  - intros j x [Ho|[-> ->]].
    + assert (x <> id) by (intros ->; by destruct (Hno j)). destruct (I1 j x Ho) as (r & since & Hr & Hl & Ha).
      exists r, (since ++ [(i, Start_request q cl now, Started (with_id q id))]). rewrite lookup_insert_ne by done. split; [done|].
      split; [apply live_snoc; [done|unfold restarts; rewrite Hw; congruence]|]. destruct Ha; [by left|right; by apply answers_snoc].
    + exists (mk_Request now cl empty_Message), []. rewrite lookup_insert_eq. split; [done|]. split; [|by left].
      exists h, q, cl, now, (with_id q id). by split_and!.
  - intros x r Hr. destruct (decide (x = id)) as [->|Hne]; [exists i; by right|]. rewrite lookup_insert_ne in Hr by done.
    destruct (I2 x r Hr) as [j Hj]. exists j. by left.
  - intros j k x [Hj|[-> ->]] [Hk|[-> Hx]]; subst; try done; [by apply (I3 j k x)|by destruct (Hno j)|by destruct (Hno k)].
  - rewrite next_id by done. pose proof (Z.mod_pos_bound (id + 1) (2 ^ 14)). unfold MAX_REQUEST_ID. lia.
  - by apply good_snoc.
Qed.
Lemma inv_handle s h owns j m r : inv s h owns -> is_response m = true -> requests s !! request_id (flags m) = Some r ->
  inv (mk_cache (next s) (<[request_id (flags m) := mk_Request (started r) (client r) m]> (requests s))) (h ++ [(j, Handle_response m, Handled true)]) owns.
Proof.
  intros Hinv Hm Hr. destruct (inv_idle s h owns (j, Handle_response m, Handled true) Hinv (fun _ H => H) I) as [I1 I2 I3 I4 I5].
  destruct Hinv as [J1 _ _ _ _]. split; try done; cbn [requests].
  - intros i id Ho. destruct (decide (id = request_id (flags m))) as [->|Hne]; [|rewrite lookup_insert_ne by done; by apply I1].
    destruct (J1 i _ Ho) as (r' & since & _ & Hl & _). eexists _, (since ++ [_]). rewrite lookup_insert_eq. split; [done|].
    split; [apply live_snoc; [done|intros []]|]. right. split; [|done]. exists j. apply elem_of_app. right. by apply list_elem_of_singleton.
  - intros id r' Hr'. destruct (decide (id = request_id (flags m))) as [->|Hne]; [by apply (I2 _ r)|]. rewrite lookup_insert_ne in Hr' by done. by apply (I2 id r').
Qed.
Lemma inv_take s h owns i q : inv s h owns -> owns i (request_id (flags q)) ->
  match take_response q s with
  | Return s' (Response ok m) [] => ok = is_valid m /\
      inv s' (h ++ [(i, Wait_response q, Response ok m)]) (fun j x => owns j x /\ x <> request_id (flags q))
  | _ => False
  end.
Proof.
  intros Hinv Ho. unfold take_response. destruct (inv_entry _ _ _ Hinv _ _ Ho) as (r & since & Hr & Hl & Ha). rewrite Hr. split; [done|].
  assert (good_entry h (i, Wait_response q, Response (is_valid (response r)) (response r))) as Hg.
  { cbn. destruct (is_valid (response r)) eqn:Hv; [|done]. exists since. split; [done|]. destruct Ha as [Ha|Ha]; [by rewrite Ha in Hv|done]. }
  destruct (inv_idle s h owns (i, Wait_response q, Response (is_valid (response r)) (response r)) Hinv (fun _ H => H) Hg) as [I1 I2 I3 I4 I5]. split; try done; cbn [requests].
  - intros j x [Hj Hx]. rewrite lookup_delete_ne by done. by apply I1.
  - intros x r' Hr'. apply lookup_delete_Some in Hr' as [Hne Hr']. destruct (I2 x r' Hr') as [j Hj]. by exists j.
  - intros j k x [Hj _] [Hk _]. by apply (I3 j k x).
Qed.

(** *** Every step keeps it *)
#[local] Instance the_monitor : Monitor (cache K) Message (op K) result Z (list Z) := sync_monitor no_client.
#[local] Abbreviation config := (config (cache K) Message (op K) result (list Z)).
#[local] Abbreviation thread := (thread Message (list Z)).

Definition waits_for (t : thread) (w : Message) : Prop := state t = Asleep w \/ state t = Woken w.
Definition owns (ts : list thread) (i : nat) (id : Z) : Prop := exists t, ts !! i = Some t /\ id ∈ Monitor.client t.
Definition good (c : config) : Prop :=
  inv (shared c) (history c) (owns (threads c)) /\
  forall i t w, threads c !! i = Some t -> waits_for t w -> request_id (flags w) ∈ Monitor.client t.

Lemma waits_woken t w : waits_for (wake_up t) w -> waits_for t w.
Proof. unfold waits_for, wake_up. destruct (state t) eqn:E; cbn; rewrite ?E; intros [H1|H1]; simplify_eq; auto. Qed.
Lemma woken_same (ts ts' : list thread) i t' : woken_from ts ts' -> ts' !! i = Some t' ->
  exists t, ts !! i = Some t /\ Monitor.client t' = Monitor.client t /\ (forall w, waits_for t' w -> waits_for t w).
Proof.
  intros [_ Hw] Hi. destruct (Hw i t' Hi) as (t & Ht & [->| ->]); exists t; [done|]. split; [done|]. split; [apply client_blind|apply waits_woken].
Qed.
Lemma woken_owns (ts ts' : list thread) i id : woken_from ts ts' -> owns ts' i id <-> owns ts i id.
Proof.
  intros Hw. split.
  - intros (t' & Hi & Hin). destruct (woken_same _ _ _ _ Hw Hi) as (t & Ht & Hc & _). exists t. by rewrite <- Hc.
  - intros (t & Hi & Hin). assert (is_Some (ts' !! i)) as [t' Hi'].
    { apply lookup_lt_is_Some. rewrite (proj1 Hw). by eapply lookup_lt_Some. }
    destruct (woken_same _ _ _ _ Hw Hi') as (t1 & Ht & Hc & _). simplify_eq. exists t'. by rewrite Hc.
Qed.
Lemma owns_insert (ts : list thread) i t j id : (i < length ts)%nat ->
  owns (<[i := t]> ts) j id <-> (j = i /\ id ∈ Monitor.client t) \/ (j <> i /\ owns ts j id).
Proof.
  intros Hi. unfold owns. destruct (decide (j = i)) as [->|Hne].
  - rewrite list_lookup_insert_eq by done. split; [intros (t' & [= <-] & Hin); by left|intros [[_ Hin]|[Hne _]]; [by exists t|done]].
  - rewrite list_lookup_insert_ne by done. split; [by right|intros [[-> _]|[_ Hin]]; done].
Qed.

Lemma settled_good i t o r s n c c' : good c -> threads c !! i = Some t -> settles i t o (Return s r n) c c' ->
  inv s (history c ++ [(i, o, r)]) (fun j id => (j = i /\ id ∈ after (Monitor.client t) o r) \/ (j <> i /\ owns (threads c) j id)) -> good c'.
Proof.
  intros [_ Hw] Hi (ts & Hn & ->) Hinv. apply notified_woken_from in Hn. assert (i < length (threads c))%nat as Hlen by (by eapply lookup_lt_Some).
  split; cbn [shared history threads].
  - eapply inv_equiv; [|exact Hinv]. intros j id. rewrite (woken_owns _ _ _ _ Hn), owns_insert by done. done.
  - intros j t' w Hj Hwt. destruct (woken_same _ _ _ _ Hn Hj) as (t1 & Ht1 & -> & Hwt1). specialize (Hwt1 w Hwt). destruct (decide (j = i)) as [->|Hne].
    + rewrite list_lookup_insert_eq in Ht1 by done. simplify_eq. by destruct Hwt1.
    + rewrite list_lookup_insert_ne in Ht1 by done. by apply (Hw j t1).
Qed.
Lemma mine_or_others (c : config) i t : threads c !! i = Some t -> forall j id,
  owns (threads c) j id <-> (j = i /\ id ∈ Monitor.client t) \/ (j <> i /\ owns (threads c) j id).
Proof.
  intros Hi j id. destruct (decide (j = i)) as [->|Hne]; [|tauto]. split; [|intros [[_ H]|[? _]]; [by exists t|done]].
  intros (t' & Ht & Hin). simplify_eq. by left.
Qed.
(** A call that leaves the requests and what the thread has in mind alone *)
Lemma idle_good i t o r n c c' : good c -> threads c !! i = Some t -> settles i t o (Return (shared c) r n) c c' ->
  after (Monitor.client t) o r = Monitor.client t -> (forall id, ~ restarts id (i, o, r)) -> good_entry (history c) (i, o, r) -> good c'.
Proof.
  intros Hg Hi Hs Ha Hr He. refine (settled_good _ _ _ _ _ _ _ _ Hg Hi Hs _). rewrite Ha. eapply inv_equiv; [by apply mine_or_others|].
  apply inv_idle; [apply Hg|done|done].
Qed.
Lemma call_good i t o c c' : good c -> threads c !! i = Some t -> may (Monitor.client t) o (shared c) ->
  settles i t o (method no_client o (shared c)) c c' -> good c'.
Proof.
  intros Hg Hi Hmay Hs. pose proof (proj1 Hg) as Hinv. destruct o as [over|q cl now|q|m|cl|]; cbn [method] in Hs; try (by eapply (idle_good _ _ _ _ _ _ _ Hg Hi Hs); [|intros ? []|]).
  - destruct Hmay as (Hq & id & Hid & Hfree). destruct (free_id_some _ _ id (inv_next _ _ _ Hinv) Hid Hfree) as (id' & Hf & Hid' & Hfree').
    unfold start_request in Hs. rewrite Hf in Hs. refine (settled_good _ _ _ _ _ _ _ _ Hg Hi Hs _).
    eapply inv_equiv; [|by apply (inv_start _ _ _ i q cl now id' Hinv)]. intros j x. cbn [after]. rewrite with_id_id, elem_of_cons by done.
    rewrite (mine_or_others c i t Hi j x). tauto.
  - cbn [may] in Hmay. destruct (inv_entry _ _ _ Hinv i (request_id (flags q))) as (r & since & Hr & _); [by exists t|].
    unfold wait_response in Hs. rewrite Hr in Hs. rewrite Hs. split; cbn [shared history threads].
    + eapply inv_equiv; [|exact Hinv]. intros j x. rewrite owns_insert by (by eapply lookup_lt_Some). by apply (mine_or_others c i t Hi).
    + intros j t' w Hj Hw. destruct (decide (j = i)) as [->|Hne].
      * rewrite list_lookup_insert_eq in Hj by (by eapply lookup_lt_Some). simplify_eq. destruct Hw as [[= <-]|[=]]. done.
      * rewrite list_lookup_insert_ne in Hj by done. by apply (proj2 Hg j t').
  - unfold handle_response in Hs. destruct (is_response m) eqn:Hm; [|by eapply (idle_good _ _ _ _ _ _ _ Hg Hi Hs); [|intros ? []|]].
    destruct (requests (shared c) !! request_id (flags m)) as [r|] eqn:Hr; [|by eapply (idle_good _ _ _ _ _ _ _ Hg Hi Hs); [|intros ? []|]].
    refine (settled_good _ _ _ _ _ _ _ _ Hg Hi Hs _). cbn [after]. eapply inv_equiv; [by apply mine_or_others|]. by apply inv_handle.
Qed.
Lemma resume_good i t q c c' : good c -> threads c !! i = Some t -> state t = Woken q ->
  settles i t (Wait_response q) (take_response q (shared c)) c c' -> good c'.
Proof.
  intros Hg Hi Hw Hs. pose proof (proj1 Hg) as Hinv. assert (request_id (flags q) ∈ Monitor.client t) as Hin by (apply (proj2 Hg i t q); [done|by right]).
  pose proof (inv_take (shared c) (history c) _ i q Hinv ltac:(by exists t)) as Ht.
  destruct (take_response q (shared c)) as [s r n|]; [|done]. destruct r as [| |ok m|]; try done. destruct n as [|]; [|done]. destruct Ht as [_ Ht].
  refine (settled_good _ _ _ _ _ _ _ _ Hg Hi Hs _). eapply inv_equiv; [|exact Ht]. intros j x. cbn [after].
  rewrite list_elem_of_filter, (mine_or_others c i t Hi j x). split; [tauto|]. intros [(-> & ? & ?)|[Hne Hj]]; [tauto|]. split; [tauto|].
  intros ->. apply Hne. apply (mine_or_others c i t Hi) in Hj. eapply (inv_excl _ _ _ Hinv); [exact Hj|by exists t].
Qed.
Lemma cache_reachable n c : reachable new_cache n [] c -> good c.
Proof.
  apply reachable_inv.
  - split.
    + split; cbn [shared history threads start new_cache next requests]; try done.
      * intros i id (t & Ht & Hin). apply lookup_replicate in Ht as [-> _]. by apply elem_of_nil in Hin.
      * intros i j id (t & Ht & Hin). apply lookup_replicate in Ht as [-> _]. by apply elem_of_nil in Hin.
      * intros h1 e h2 Heq. by destruct h1.
    + intros i t w Ht Hw. cbn in Ht. apply lookup_replicate in Ht as [-> _]. by destruct Hw.
  - intros c1 c2 Hg Hs. destruct Hs as [i t o c1 c2 Hi Hr Ha Hs|c1 c2 Hs|i t c1 Hi].
    + exact (call_good i t o c1 c2 Hg Hi Ha Hs).
    + destruct Hs as [i t w c1 c2 Hi Hw Hs]. exact (resume_good i t w c1 c2 Hg Hi Hw Hs).
    + pose proof (woken_from_insert _ _ _ Hi) as Hw. split; cbn [shared history threads].
      * eapply inv_equiv; [|exact (proj1 Hg)]. intros j id. symmetry. by apply woken_owns.
      * intros j t' w Hj Hwt. destruct (woken_same _ _ _ _ Hw Hj) as (t1 & Ht1 & -> & Hwt1). apply (proj2 Hg j t1); auto.
Qed.

(** Whoever sleeps on an ID is the one that is notified. *)
Lemma response_wakes c j tj m c' i t q : good c -> threads c !! j = Some tj -> state tj = Running -> threads c !! i = Some t -> state t = Asleep q ->
  is_response m = true -> request_id (flags m) = request_id (flags q) ->
  settles j tj (Handle_response m) (method no_client (Handle_response m) (shared c)) c c' ->
  (exists t', threads c' !! i = Some t' /\ state t' = Woken q) /\ exists r, requests (shared c') !! request_id (flags q) = Some r /\ response r = m.
Proof.
  intros Hg Hj Hr Hi Ht Hm Hid Hs. destruct (inv_entry _ _ _ (proj1 Hg) i (request_id (flags q))) as (r & since & Hq & _).
  { exists t. split; [done|]. apply (proj2 Hg i t q); [done|by left]. }
  cbn [method] in Hs. unfold handle_response in Hs. rewrite Hm, Hid, Hq in Hs. destruct Hs as (ts & Hn & ->). cbn [threads shared requests].
  split; [|eexists; by rewrite lookup_insert_eq].
  assert (i <> j) as Hij by (intros ->; simplify_eq; by rewrite Hr in Ht). set (ts0 := <[j := _]> (threads c)) in Hn.
  assert (ts0 !! i = Some t) as Hi0 by (unfold ts0; by rewrite list_lookup_insert_ne by done).
  assert (sleeps_on (request_id (flags q)) t = true) as Hsl by (unfold sleeps_on; rewrite Ht; by apply bool_decide_eq_true).
  inversion Hn as [| |v n ts1 ts2 k u Hk Hu Hrest Heq|v n ts1 ts2 Hnone]; subst.
  - apply notified_nil_inv in Hrest as ->. assert (k = i) as ->.
    { destruct (decide (k = j)) as [->|Hkj].
      - unfold ts0 in Hk. rewrite list_lookup_insert_eq in Hk by (by eapply lookup_lt_Some). by simplify_eq.
      - unfold ts0 in Hk. rewrite list_lookup_insert_ne in Hk by done. unfold sleeps_on in Hu. destruct (state u) as [|w|] eqn:Hw; try done.
        apply bool_decide_eq_true in Hu. cbn in Hu. eapply (inv_excl _ _ _ (proj1 Hg) k i (request_id (flags q))).
        + exists u. split; [done|]. rewrite <- Hu. apply (proj2 Hg k u w); [done|by left].
        + exists t. split; [done|]. apply (proj2 Hg i t q); [done|by left]. }
    rewrite Hk in Hi0. injection Hi0 as ->. exists (wake_up t). rewrite list_lookup_insert_eq by (by eapply lookup_lt_Some). split; [done|]. unfold wake_up. by rewrite Ht.
  - exfalso. rewrite Forall_lookup in Hnone. specialize (Hnone i t Hi0). by rewrite Hsl in Hnone.
Qed.
End lemmas.

(** C38: Requests and responses do not get mixed up, as long as a request is started from a message that has no bits of an ID in its flags, while some ID is free, and is waited for once, by the thread that started it ([may]; a message that is used again goes out under the union of two IDs, Example [used_again]).  In every state that threads reach under this discipline, each result of a request that has a response is of the thread that started it, under the ID it was started with, and the response is one for this ID that was handed over after that and before the result, while nobody else had the ID; threads that wait do so under IDs of their own, with an entry; and the response for one that sleeps, when it comes, is put there and wakes that thread. *)
Theorem responses_match {K} `{EqDecision K} (no_client : K) n (c : config (cache K) Message (op K) result (list Z)) :
  reachable (Mon := sync_monitor no_client) new_cache n [] c ->
  (forall h1 i q m h2, history c = h1 ++ (i, Wait_response q, Response true m) :: h2 ->
     exists since, live i (request_id (flags q)) since h1 /\ answers (request_id (flags q)) m since) /\
  (forall i j t t' q q', threads c !! i = Some t -> threads c !! j = Some t' -> waits_for t q -> waits_for t' q' ->
     is_Some (requests (shared c) !! request_id (flags q)) /\ (request_id (flags q) = request_id (flags q') -> i = j)) /\
  (forall j tj m c' i t q, threads c !! j = Some tj -> state tj = Running -> threads c !! i = Some t -> state t = Asleep q ->
     is_response m = true -> request_id (flags m) = request_id (flags q) ->
     settles (Mon := sync_monitor no_client) j tj (Handle_response m) (method no_client (Handle_response m) (shared c)) c c' ->
     (exists t', threads c' !! i = Some t' /\ state t' = Woken q) /\ exists r, requests (shared c') !! request_id (flags q) = Some r /\ response r = m).
Proof.
  intros Hr. pose proof (cache_reachable no_client n c Hr) as Hg. split_and!.
  - intros h1 i q m h2 Hh. exact (inv_good _ _ _ (proj1 Hg) h1 _ h2 Hh).
  - intros i j t t' q q' Hi Hj Hq Hq'. assert (owns (threads c) i (request_id (flags q))) as Ho by (exists t; split; [done|by apply (proj2 Hg i t)]).
    split; [destruct (inv_entry _ _ _ (proj1 Hg) _ _ Ho) as (r & _ & -> & _); by eexists|]. intros Heq.
    apply (inv_excl _ _ _ (proj1 Hg) i j (request_id (flags q))); [done|]. rewrite Heq. exists t'. split; [done|]. by apply (proj2 Hg j t').
  - intros j tj m c' i t q. by apply response_wakes.
Qed.

(** ** Samples: a thread that makes a request, and one that hands over the response *)
Definition ask : Message := mk_Message 1 0 [].
Definition asked : Message := with_id ask 0.
Definition reply : Message := mk_Message 2 (response_flags (flags asked) 0) [7].
Definition running (ids : list Z) : thread Message (list Z) := mk_thread ids Running.
Definition waiting_for (m : Message) : cache Z := mk_cache 1 {[0 := mk_Request 5 9 m]}.
Definition asked_config : config (cache Z) Message (op Z) result (list Z) :=
  mk_config (waiting_for empty_Message) [running [0]; running []] [(0%nat, Start_request ask 9 5, Started asked)].
Definition answered_config : config (cache Z) Message (op Z) result (list Z) :=
  mk_config (mk_cache 1 ∅) [running []; running []] [(0%nat, Start_request ask 9 5, Started asked); (1%nat, Handle_response reply, Handled true); (0%nat, Wait_response asked, Response true reply)].
(** The response comes before the thread waits for it. *)
Definition late_config : config (cache Z) Message (op Z) result (list Z) :=
  mk_config (waiting_for reply) [mk_thread [0] (Asleep asked); running []] [(0%nat, Start_request ask 9 5, Started asked); (1%nat, Handle_response reply, Handled true)].
#[local] Instance sample_monitor : Monitor (cache Z) Message (op Z) result Z (list Z) := sync_monitor 0.
Lemma asked_reachable : reachable new_cache 2 [] asked_config.
Proof.
  eapply rtc_l; [eapply (step_call 0 (running []) (Start_request ask 9 5)); [done|done|split; [done|by exists 0]|]|apply rtc_refl].
  eexists. split; [constructor|done].
Qed.
Lemma late_reachable : reachable new_cache 2 [] late_config.
Proof.
  unfold reachable; etrans; [exact asked_reachable|].
  eapply rtc_l; [eapply (step_call 1 (running []) (Handle_response reply)); [done|done|done|]|].
  { cbn. eexists. split; [|reflexivity]. eapply notified_none; [repeat constructor|constructor]. }
  eapply rtc_l; [eapply (step_call 0 (running [0]) (Wait_response asked)); [done|done|by apply list_elem_of_singleton|]|apply rtc_refl]. done.
Qed.
Lemma answered_reachable : reachable new_cache 2 [] answered_config.
Proof.
  unfold reachable; etrans; [exact asked_reachable|].
  eapply rtc_l; [eapply (step_call 0 (running [0]) (Wait_response asked)); [done|done|by apply list_elem_of_singleton|done]|].
  eapply rtc_l; [eapply (step_call 1 (running []) (Handle_response reply)); [done|done|done|]|].
  { cbn. eexists. split; [|reflexivity]. eapply (notified_one 0 [] _ _ 0); [done|done|constructor]. }
  eapply rtc_l; [apply step_resume; eapply (resumes_intro 0); [done|done|]|apply rtc_refl].
  cbn. eexists. split; [constructor|done].
Qed.
Lemma responses_match_witness : exists since, live 0 0 since (take 2 (history answered_config)) /\ answers 0 reply since.
Proof. exact (proj1 (responses_match 0 2 answered_config answered_reachable) (take 2 (history answered_config)) 0%nat asked reply [] eq_refl). Defined.
(** A thread sleeps although its response is there, until its time is over or it wakes up unasked. *)
Example response_missed : reachable new_cache 2 [] late_config /\
  exists r, requests (shared late_config) !! 0 = Some r /\ is_valid (response r) = true /\ Forall (fun t => exists q, state t = Asleep q \/ state t = Running) (threads late_config).
Proof. split; [exact late_reachable|]. eexists. split; [done|]. split; [done|]. repeat constructor; exists asked; [by left|by right]. Qed.
(** A request used again keeps the bits of the ID it had. *)
Example used_again : request_id (flags (with_id (with_id ask 1) 2)) = 3.
Proof. done. Qed.
End SyncRequest.
